(* ===== verification/_CoqProject ===== *)
-Q . S2P
Prelude.v
NumUtil.v
Unicode.v
StringRef.v
RingBuffer.v
Brace.v
CodePointSet.v
UcdTables.v
GraphemeBreak.v
WordBreak.v
UcdFacts.v
Segment.v
Grapheme.v
GraphemeRules.v
GraphemeSpec.v
GraphemeScan.v
GraphemeCut.v
GraphemeWidth.v
Word.v
WordRules.v
WordSpec.v
RadixTree.v
RadixPacked.v
RegexMatcher.v
SetBuilder.v
RegexNode.v
RegexInput.v
RegexText.v
RegexSpec.v
RegexInst.v
RegexPrefilter.v
RegexEmit.v
RegexLayout.v
RegexVM.v
RegexStrings.v
RegexCluster.v
RegexFirst.v
RegexSim.v
RegexCorrect.v
RegexSyntax.v
RegexParser.v
RegexScan.v
RegexParserInv.v
RegexEscape.v
RegexParserSpec.v
RegexGroupSpec.v
RegexClassSpec.v
RegexParserTotal.v
RegexStrSet.v
RegexLowering.v
RegexSource.v
RegexLowerClass.v
RegexLowerSim.v
RegexLowerVisit.v
RegexLowerStr.v
RegexLowerOpt.v
RegexLowerCorrect.v
RegexApi.v
RegexReplace.v
LineBuffer.v
BufferLines.v
LineMotion.v
LineUpDown.v
OrderedMap.v
HashBuckets.v
OrderedMapSpec.v
Glob.v
GlobMatch.v
GlobPattern.v
