(* ===== verification/Prelude.v ===== *)
(** * Verification of the arsh shell: the root of the development

    arsh is a statically typed shell.  A script goes through a lexer, a parser, a
    type checker and a bytecode compiler to a virtual machine, which works on native
    values (strings, maps, regular expressions) and on processes.  This library
    models the components of the runtime whose behaviour is decided by their own
    code, and leaves aside those that are mostly system calls.  All paths below are
    under src/src/.

    ** Files and what they model

    Basis.
    - Prelude: flags (misc/flag_util.hpp), machine integers as [Z] with written-out
      wrap-around, bytes as [Z], lemmas on lists.
    - NumUtil (misc/num_util.hpp): checked arithmetic, parsing of integers of every
      width and radix, the shift operators of the language.
    - Unicode (misc/unicode.hpp): UTF-8, WTF-8 and UTF-16 encoding, decoding and
      validation.
    - StringRef (misc/string_ref.hpp): search, slices, prefix and suffix tests.
    - CodePointSet (misc/codepoint_set.hpp): packed ranges and membership;
      SetBuilder (unicode/set_builder.cpp): the operations that make such sets.
    - UcdTables, GraphemeBreak, WordBreak (unicode/*.in, misc/unicode_width.in): the tables
      of the Unicode database that segmentation uses, entry by entry, and their lookup;
      UcdFacts is what they say (sorted, disjoint, which ranges are found).
    - Grapheme (unicode/grapheme.cpp, grapheme.h; StringIterObject of object.cpp) and Word
      (unicode/word.h): the boundary automata, scanners and iteration.  Segment is the
      vocabulary of cuts of a text, GraphemeRules and WordRules are the rules of UAX #29,
      GraphemeSpec, GraphemeScan, GraphemeWidth and WordSpec the theorems; GraphemeCut shows
      that what follows a boundary is cut like a text of its own.  A step of an
      automaton depends on finitely many facts about the text before (the last properties,
      a pictograph, a linker, a parity), so that it is checked on all their combinations.
    - RadixTree (unicode/radix_tree.cpp): maps from strings to properties as tries
      with compressed paths; RadixPacked is their form in one array of bytes.

    The regular expression engine (regex/), as a pipeline: the parser yields a
    tree, a lowering pass rewrites it, the generator emits instructions, a
    prefilter is collected from them, a backtracking machine runs them, and the
    operations of regex.cpp loop over the machine.
    - RegexSyntax, RegexParser (parser.h, parser.cpp, node.h, flag.cpp): the nodes
      with their positions, and the parser as a state monad over the members of
      [Parser], one definition per member function.  Its proofs are RegexScan (a
      weakest-precondition calculus, and the scan for groups), RegexParserInv (the
      invariant), RegexEscape, RegexParserSpec, RegexGroupSpec and RegexClassSpec
      (the operations keep it) and RegexParserTotal (the theorems on [run]).
    - RegexStrSet and RegexLowering (transform.h, transform.cpp): the sets of strings
      and code points that classes are made of, and the lowering pass: the visitor
      that embeds modifiers, resolves references and replaces classes, and the two
      optimizations.  RegexSource is ECMAScript's reading of the parsed tree, the
      specification of the pass; RegexLowerClass proves classes, RegexLowerSim and
      RegexLowerVisit the visitor, RegexLowerStr and RegexLowerOpt the optimizations
      (an alternation of strings becomes a set searched in a radix tree), and
      RegexLowerCorrect puts the parser, the pass, the generator and the machine
      together.
    - RegexNode (node.h, transform.h, capture.h): the lowered tree as the modelled
      generator takes it.
    - RegexMatcher (matcher.h, emit.cpp): character tests and packed matchers.
    - RegexInput (input.h): the cursor over WTF-8 text; RegexText relates its byte
      offsets to positions in a list of code points.
    - RegexInst (instruction.h), RegexEmit (emit.cpp, emit.h), RegexPrefilter
      (prefilter.cpp), RegexVM (vm.cpp, match_context.h), RegexApi (regex.cpp): the
      instructions with their sizes in bytes, the generator with its reserved
      points, the set of first bytes, the machine with its backtrack stack, its
      limits and its timer, and the operations.
    - RegexSpec: the meaning of a lowered tree, as the list of the states a
      backtracking matcher reaches, in order.  RegexLayout relates a node to the
      region of code it is compiled to, RegexStrings shows that the search of the
      machine in a packed radix tree, forward or backward, folded or not, finds the
      longest string of a set, RegexCluster that its instruction for grapheme clusters takes
      exactly one of them, RegexFirst proves the prefilter sound,
      RegexSim is the simulation of the meaning by the machine, RegexCorrect the
      correctness of the matcher and RegexReplace that of the operations, proved
      against a contract that the matcher satisfies.

    Data structures and the line editor.
    - RingBuffer (misc/ring_buffer.hpp): wrapping indices into a power of two of
      slots, and the queue interface its clients are verified against.
    - LineBuffer (line_buffer.h, line_buffer.cpp): the text with its cursor in a
      raw array, the change history (a client of the queue), lines and kill ring;
      BufferLines relates the positions of its newlines to its lines.  LineMotion (the
      same files) is motion and deletion by characters (grapheme clusters) and words and
      motion between lines; LineUpDown is the theorem on the latter.
    - OrderedMap (ordered_map.h, ordered_map.cpp): Robin Hood buckets over an array
      of entries; HashBuckets is the invariant of the buckets, OrderedMapSpec the
      refinement to an association list in insertion order.
    - Brace (brace.h, brace.cpp): the ranges of brace expansion.
    - Glob (glob.h, glob.cpp): the scanner of wildcard patterns, escaping, and the split
      of a pattern; GlobMatch relates the scanner to a declarative reading of patterns,
      GlobPattern shows what written bracket expressions, escaped names and split
      patterns mean.

    ** What the theorems show

    - Matcher: on well-formed text the compiled program finds the first, preferred
      match of the specification, or reports that there is none, or reports a
      limit, and always ends; with and without the prefilter alike.  Replacing,
      splitting and matching all end, and produce what the specification says.
    - Parser: on every pattern of at most [UINT32_MAX] bytes it ends (no
      undefined behaviour, no failed assertion) with a well-formed tree, whose groups
      and loops are numbered in order and whose references are resolved, or with an
      error inside of the pattern.
    - Lowering: on every parsed pattern without classes of strings and grapheme clusters
      that passes the test [sourceOk], the pass ends without a failed assertion, and its tree
      reaches the states of the syntax tree in the same order ([transform_correct]), so
      that the machine reports the match ECMAScript prefers ([engine_correct]).
      [optional_empty_body] and [long_string_dropped] show where the pass is wrong.
    - Hash map, ring buffer, line editor: every operation refines the abstract one
      and keeps the representation invariant; undo and redo are inverse; an
      atomic edit that fails is rolled back.  Motion in the editor reaches both ends from
      anywhere; left and right are inverse between clusters, which are deleted whole, and
      up and down keep the column, counted in clusters.
    - Wildcards: matching always ends and, for ASCII names, decides whether some
      choice of what the stars stand for accepts the name; a bracket expression written
      from ranges and classes means them; an escaped name matches itself only.
    - Segmentation: the automata decide the rules of UAX #29 after any text; iteration
      cuts every text, valid or not, where the rules say and nowhere else; the iterator of
      strings, fuzzy search and display width are what they promise on top of that.
      [last_range_unreachable], [hebrew_apostrophe_cut] and [pictograph_absorbs_linker]
      show where the code departs from the tables and the rules.
    - Conversions: round trips of encodings and packed data, exact results and
      overflow behaviour of integer parsing and of the shifts, membership in sets
      and the algebra of their builder, and the sequence a brace range yields.

    ** Conventions, bounds and fuel

    A [w]-bit integer is a [Z], with [wrap] wherever the source wraps.  Loops of
    the source that are not structural take fuel, or the result is [None] when it
    runs out; for each there is a theorem that the fuel given at the entry is
    enough: the parser takes fuel from the length of the pattern, the loops over text take
    fuel from the length of the text, and the machine's theorems state
    that some fuel is enough whatever the timer says.  [None] in the parser and in
    the machine also is undefined behaviour of the source, so totality shows its
    absence.  The text of a match is at most [INPUT_MAX] bytes, as
    [Input::create] checks.

    ** Parameters

    The tables of segmentation are transcribed; the other tables generated from the Unicode
    character database are parameters: [Ucd] (case folding, properties of characters, the trie of emoji
    sequences; RegexMatcher) with [UcdLaws] and [Ucp] with
    [UcpLaws] (names of properties; RegexParser and RegexEscape), [Ucs] with
    [UcsLaws] (the sets of properties; RegexStrSet and RegexLowerClass), and [FoldIdem] (folding twice is folding once), each with a concrete instance in the witnesses.  So are the caller's callbacks, the timer
    and, for the hash map, the keys with their equality and hash ([MapKey]).

    ** Not modelled

    - Of the engine: dumps.  Sets of emoji sequences are modelled from the parser to the machine, but the theorems on
      the machine are about sets of strings only ([wfNode]): the contents of the trie are
      generated.  The lowering theorems cover the sets made of alternations of strings, not
      the classes of strings of the mode with sets.
      [sourceOk] also excludes a greedy optional body that may match nothing, several
      groups of one name around a reference to them, groups in a body repeated zero times,
      and sequences of more than 8191 members.  The theorems on the matcher take the
      lowered tree under [wfTree], which excludes a capture group inside of a
      positive look-around: the machine leaves its capture set after backtracking out of it
      ([lookahead_capture_leaks]).
    - The conversion of floating-point numbers (C library), iterators of the map.
    - Lexer (generated by re2c), parser, type checker and compiler of the shell
      language, its virtual machine, jobs, signals, redirection, the
      directory search of globbing, completion, rendering and builtin commands: they depend on the operating
      system or on the whole syntax of the language. *)
From stdpp Require Export base list gmap strings.
From Stdlib Require Export ZArith Lia.
From Stdlib Require Import Ascii.

#[global] Open Scope Z_scope.
(* [simpl] must not unfold the arithmetic of the model *)
#[global] Arguments Z.of_nat : simpl never.
#[global] Arguments Z.to_nat : simpl never.
#[global] Arguments Z.pow : simpl never.

(** * Machine integers *)

(** An unsigned [w]-bit value is a [Z] in [0, 2^w); arithmetic on it wraps. *)
Definition wrap (w z : Z) : Z := z mod 2 ^ w.
(** Two's complement reading of the low [w] bits. *)
Definition swrap (w z : Z) : Z := (z + 2 ^ (w - 1)) mod 2 ^ w - 2 ^ (w - 1).

Abbreviation u8 := (wrap 8).
Abbreviation u16 := (wrap 16).
Abbreviation u32 := (wrap 32).
Abbreviation u64 := (wrap 64).
Abbreviation i32 := (swrap 32).
Abbreviation i64 := (swrap 64).

Definition UINT8_MAX : Z := 255.
Definition UINT16_MAX : Z := 65535.
Definition UINT32_MAX : Z := 4294967295.
Definition UINT64_MAX : Z := 18446744073709551615.
Definition INT64_MAX : Z := 9223372036854775807.
Definition INT64_MIN : Z := -9223372036854775808.

(** [in_unsigned w z]: [z] is a value of an unsigned [w]-bit type. *)
Definition in_unsigned (w z : Z) : Prop := 0 <= z < 2 ^ w.
(** [in_signed w z]: [z] is a value of a signed [w]-bit type. *)
Definition in_signed (w z : Z) : Prop := - 2 ^ (w - 1) <= z < 2 ^ (w - 1).

#[export] Instance in_signed_dec w z : Decision (in_signed w z).
Proof. unfold in_signed. apply _. Defined.

Lemma wrap_small w z : in_unsigned w z -> wrap w z = z.
Proof. intros; unfold wrap; by apply Z.mod_small. Qed.

Lemma wrap_range w z : 0 <= w -> in_unsigned w (wrap w z).
Proof. intros; unfold wrap, in_unsigned; apply Z.mod_pos_bound; lia. Qed.

Lemma pow_half w : 0 < w -> 2 ^ w = 2 * 2 ^ (w - 1).
Proof. intros. rewrite <- Z.pow_succ_r by lia. f_equal; lia. Qed.

Lemma swrap_small w z : 0 < w -> in_signed w z -> swrap w z = z.
Proof.
  unfold swrap, in_signed. intros Hw H. pose proof (pow_half w Hw).
  rewrite Z.mod_small; lia.
Qed.

Lemma swrap_range w z : 0 < w -> in_signed w (swrap w z).
Proof.
  unfold swrap, in_signed. intros Hw. pose proof (pow_half w Hw).
  assert (0 < 2 ^ (w - 1)) by lia.
  pose proof (Z.mod_pos_bound (z + 2 ^ (w - 1)) (2 ^ w)). lia.
Qed.

Lemma swrap_eqm w x y :
  0 < w -> x mod 2 ^ w = y mod 2 ^ w -> swrap w x = swrap w y.
Proof.
  unfold swrap. intros Hw H. rewrite <- (Z.add_mod_idemp_l x), H, Z.add_mod_idemp_l; lia.
Qed.

Lemma swrap_wrap w z : 0 < w -> swrap w (wrap w z) = swrap w z.
Proof. intros. apply swrap_eqm; [done|]. unfold wrap. rewrite Z.mod_mod; lia. Qed.

Lemma wrap_swrap w z : 0 < w -> wrap w (swrap w z) = wrap w z.
Proof.
  unfold wrap, swrap. intros. rewrite Zminus_mod_idemp_l. f_equal. lia.
Qed.

(** [lor] of a shifted part and a low part is their sum. *)
Lemma lor_shift_add a n y : 0 <= n -> 0 <= y < 2 ^ n -> Z.lor (Z.shiftl a n) y = a * 2 ^ n + y.
Proof.
  intros Hn Hy. rewrite Z.shiftl_mul_pow2 by lia.
  rewrite <- Z.lxor_lor; [rewrite <- Z.add_nocarry_lxor; [done|]|].
  all: apply Z.bits_inj'; intros i Hi; rewrite Z.land_spec, Z.bits_0;
    destruct (Z_lt_dec i n);
    [ rewrite <- Z.shiftl_mul_pow2, Z.shiftl_spec_low by lia; done
    | destruct (decide (y = 0)) as [->|]; [by rewrite Z.bits_0, andb_false_r|];
      rewrite (Z.bits_above_log2 y i); [by rewrite andb_false_r|lia|];
      apply Z.lt_le_trans with n; [apply Z.log2_lt_pow2; lia|lia] ].
Qed.

(** * Tactics *)

(** Turn the boolean tests of the model into propositions. *)
Ltac zbool :=
  repeat match goal with
  | H : andb _ _ = true |- _ => apply andb_true_iff in H; destruct H
  | H : orb _ _ = false |- _ => apply orb_false_iff in H; destruct H
  | H : negb _ = true |- _ => apply negb_true_iff in H
  | H : negb _ = false |- _ => apply negb_false_iff in H
  | H : (_ <=? _) = true |- _ => apply Z.leb_le in H
  | H : (_ <=? _) = false |- _ => apply Z.leb_gt in H
  | H : (_ <? _) = true |- _ => apply Z.ltb_lt in H
  | H : (_ <? _) = false |- _ => apply Z.ltb_ge in H
  | H : (_ >? _) = true |- _ => rewrite Z.gtb_ltb in H; apply Z.ltb_lt in H
  | H : (_ >? _) = false |- _ => rewrite Z.gtb_ltb in H; apply Z.ltb_ge in H
  | H : (_ >=? _) = true |- _ => rewrite Z.geb_leb in H; apply Z.leb_le in H
  | H : (_ >=? _) = false |- _ => rewrite Z.geb_leb in H; apply Z.leb_gt in H
  | H : (_ =? _) = true |- _ => apply Z.eqb_eq in H
  | H : (_ =? _) = false |- _ => apply Z.eqb_neq in H
  end.

(** Split on the scrutinee of a match or an if of the goal. *)
Ltac case_on :=
  match goal with
  | |- context [if ?b then _ else _] => destruct b eqn:?
  | |- context [match ?x with _ => _ end] => destruct x eqn:?
  end.

(** The same for a hypothesis. *)
Ltac case_in H :=
  match type of H with
  | context [if ?b then _ else _] => destruct b eqn:?
  | context [match ?x with _ => _ end] => destruct x eqn:?
  end.

(** * Byte strings *)

(** A byte is a [Z] in [0, 256), a string (std::string, StringRef) the list of its bytes. *)
Abbreviation bytes := (list Z).

Definition is_byte (b : Z) : Prop := 0 <= b < 256.

(** The length of a list as the integer the code computes with. *)
Definition zlen {A} (l : list A) : Z := Z.of_nat (length l).

Lemma zlen_nil {A} : zlen (@nil A) = 0. Proof. done. Qed.
Lemma zlen_cons {A} (x : A) l : zlen (x :: l) = 1 + zlen l.
Proof. unfold zlen. simpl length. lia. Qed.
Lemma zlen_app {A} (l k : list A) : zlen (l ++ k) = zlen l + zlen k.
Proof. unfold zlen. rewrite length_app. lia. Qed.
Lemma zlen_nonneg {A} (l : list A) : 0 <= zlen l.
Proof. unfold zlen. lia. Qed.

Create Rewrite HintDb zlen.
#[export] Hint Rewrite @zlen_nil @zlen_cons @zlen_app : zlen.
#[export] Hint Resolve zlen_nonneg : core.

(** A string literal of the source, as bytes. *)
Definition lit (s : string) : bytes :=
  map (fun a => Z.of_N (Ascii.N_of_ascii a)) (String.list_ascii_of_string s).

(** * Flags (src/misc/flag_util.hpp) *)

Definition setFlag (set flag : Z) : Z := Z.lor set flag.
Definition unsetFlag (set flag : Z) : Z := Z.land set (Z.lnot flag).
Definition hasFlag (set flag : Z) : bool := Z.land set flag =? flag.

(** A single bit is set exactly when the corresponding test succeeds. *)
Lemma hasFlag_bit s i : 0 <= i -> hasFlag s (Z.shiftl 1 i) = Z.testbit s i.
Proof.
  intros Hi. unfold hasFlag. rewrite Z.shiftl_1_l.
  destruct (Z.testbit s i) eqn:E.
  - apply Z.eqb_eq, Z.bits_inj'. intros n Hn. rewrite Z.land_spec, Z.pow2_bits_eqb by lia.
    destruct (Z.eqb_spec i n) as [->|]; [by rewrite E|by rewrite andb_false_r].
  - apply Z.eqb_neq. intros H. assert (Z.testbit (2 ^ i) i = true) as H1 by (rewrite Z.pow2_bits_eqb, Z.eqb_refl by lia; done).
    rewrite <- H, Z.land_spec, E in H1. done.
Qed.

Lemma setFlag_bit s i j :
  0 <= i -> 0 <= j -> Z.testbit (setFlag s (Z.shiftl 1 i)) j = Z.testbit s j || (i =? j).
Proof. intros. unfold setFlag. rewrite Z.lor_spec, Z.shiftl_1_l, Z.pow2_bits_eqb by lia. done. Qed.

(** The code of an ASCII character. *)
Notation chr a :=
  (ltac:(let v := eval vm_compute in (Z.of_N (Ascii.N_of_ascii a%char)) in exact v)) (only parsing).
