(* ===== verification/NumUtil.v ===== *)
(** Checked arithmetic, integer parsing and the shift operators of
    src/misc/num_util.hpp, which the rest of the shell uses for every
    conversion between strings and numbers. *)
From S2P Require Import Prelude.

Module NumUtil.

(** ** Checked arithmetic: [(overflowed, value stored through the reference)] *)

Definition add_overflow (w x y : Z) : bool * Z :=
  (2 ^ w <=? x + y, wrap w (x + y)).

Definition mul_overflow (w x y : Z) : bool * Z :=
  (2 ^ w <=? x * y, wrap w (x * y)).

(** Whether the exact result of a signed operation leaves the signed range. *)
Definition signed_overflow (w r : Z) : bool :=
  (r <? - 2 ^ (w - 1)) || (2 ^ (w - 1) <=? r).

Definition sadd_overflow (w x y : Z) : bool * Z :=
  (signed_overflow w (x + y), swrap w (x + y)).

Definition ssub_overflow (w x y : Z) : bool * Z :=
  (signed_overflow w (x - y), swrap w (x - y)).

Definition smul_overflow (w x y : Z) : bool * Z :=
  (signed_overflow w (x * y), swrap w (x * y)).

(** ** Characters *)

Definition isDecimal (ch : Z) : bool := (48 <=? ch) && (ch <=? 57).
Definition isOctal (ch : Z) : bool := (48 <=? ch) && (ch <? 56).
Definition isHex (ch : Z) : bool :=
  ((48 <=? ch) && (ch <=? 57)) || ((65 <=? ch) && (ch <=? 70)) || ((97 <=? ch) && (ch <=? 102)).

Definition hexToNum (ch : Z) : Z :=
  if (48 <=? ch) && (ch <=? 57) then ch - 48
  else if (97 <=? ch) && (ch <=? 102) then 10 + (ch - 97)
  else if (65 <=? ch) && (ch <=? 70) then 10 + (ch - 65)
  else 0.

(** ** Integer parsing *)

(** [parseBase begin end]: the base and what is left of the string. *)
Definition parseBase (s : bytes) : Z * bytes :=
  match s with
  | [] => (0, s)
  | c0 :: rest =>
      if c0 =? 48 then
        match rest with
        | [] => (8, s)
        | c :: rest' =>
            if (c =? 120) || (c =? 88) then (16, rest')
            else if (c =? 111) || (c =? 79) then (8, rest')
            else (8, rest)
        end
      else (10, s)
  end.

Definition dropSign (w v : Z) : Z := wrap w (wrap w (Z.lnot (wrap w v)) + 1).
Definition putSign (w v : Z) : Z := swrap w (Z.lnot v + 1).

Inductive IntConversionStatus :=
  OK | ILLEGAL_CHAR | ILLEGAL_RADIX | RADIX_OVERFLOW | OUT_OF_RANGE.

#[export] Instance IntConversionStatus_eq : EqDecision IntConversionStatus.
Proof. solve_decision. Defined.

Record IntConversionResult := {
  kind : IntConversionStatus;
  consumedSize : Z;
  value : Z
}.

(** [makeSigned v negate] on a [w]-bit unsigned [v]. *)
Definition makeSigned (w v : Z) (negate : bool) : Z * bool :=
  if negate then
    if v <=? dropSign w (- 2 ^ (w - 1)) then (putSign w v, true) else (swrap w v, false)
  else
    if v <=? 2 ^ (w - 1) - 1 then (swrap w v, true) else (swrap w v, false).

(** The value of one digit; [None] for a character that is no digit in any base. *)
Definition digitValue (ch : Z) : option Z :=
  if (48 <=? ch) && (ch <=? 57) then Some (ch - 48)
  else if (97 <=? ch) && (ch <=? 122) then Some (10 + (ch - 97))
  else if (65 <=? ch) && (ch <=? 90) then Some (10 + (ch - 65))
  else None.

(** The do-while loop: final status, final value, and what is left of the
    string ([begin] is not advanced past the offending character). *)
Fixpoint parseDigits (w radix acc : Z) (s : bytes) : IntConversionStatus * Z * bytes :=
  match s with
  | [] => (OK, acc, [])
  | ch :: rest =>
      match digitValue ch with
      | None => (ILLEGAL_CHAR, acc, s)
      | Some v =>
          if radix <=? v then (RADIX_OVERFLOW, acc, s)
          else
            let '(o1, m) := mul_overflow w acc radix in
            if o1 then (OUT_OF_RANGE, m, s)
            else
              let '(o2, a) := add_overflow w m v in
              if o2 then (OUT_OF_RANGE, a, s)
              else parseDigits w radix a rest
      end
  end.

(** [parseInteger<T>] for an unsigned [w]-bit [T]: the result and the rest. *)
Definition parseInteger (w : Z) (s : bytes) (base : Z) : IntConversionResult * bytes :=
  let s1 := match s with c :: r => if c =? 43 then r else s | [] => s end in
  let '(base, s2) := if base =? 0 then parseBase s1 else (base, s1) in
  let consumed r := u32 (zlen s - zlen r) in
  match s2 with
  | [] => ({| kind := ILLEGAL_CHAR; consumedSize := consumed s2; value := 0 |}, s2)
  | _ :: _ =>
      if (base <? 2) || (36 <? base)
      then ({| kind := ILLEGAL_RADIX; consumedSize := consumed s2; value := 0 |}, s2)
      else
        let '(k, v, rest) := parseDigits w base 0 s2 in
        ({| kind := k; consumedSize := consumed rest; value := v |}, rest)
  end.

(** [parseInteger<T>] for a signed [T].  [sentinel] is the byte the string is
    followed by: the code reads [*(begin + 1)] of a one-byte "-". *)
Definition parseSigned (w : Z) (s : bytes) (sentinel base : Z) : IntConversionResult * bytes :=
  let '(sign, s1) :=
    match s with
    | c :: r =>
        if (c =? 45) && negb (default sentinel (head r) =? 43) then (true, r) else (false, s)
    | [] => (false, s)
    end in
  let '(ret, rest) := parseInteger w s1 base in
  let consumed := u32 (zlen s - zlen rest) in
  if decide (kind ret = OK) then
    let '(v, ok) := makeSigned w (value ret) sign in
    ({| kind := if ok then OK else OUT_OF_RANGE; consumedSize := consumed; value := v |}, rest)
  else ({| kind := kind ret; consumedSize := consumed; value := swrap w (value ret) |}, rest).

Definition convertToNum10 (w : Z) (s : bytes) : IntConversionResult := fst (parseInteger w s 10).

(** ** The shift operators of the language *)

Definition leftShift (l r : Z) : Z :=
  let v := Z.shiftl 1 (Z.land (u64 r) 63) in
  let '(o, ret) := smul_overflow 64 l (i64 v) in
  if o then i64 (u64 (u64 l * v)) else ret.

Definition floorDiv (l r : Z) : Z :=
  if 0 <? i64 (Z.lxor (u64 l) (u64 r)) then Z.quot l r
  else if Z.rem l r =? 0 then Z.quot l r else Z.quot l r - 1.

Definition rightShift (l r : Z) : Z :=
  let v := Z.land (u64 r) 63 in
  if 0 <? l then Z.shiftr l v
  else
    let '(l', v') := if v =? 63 then (floorDiv l (Z.shiftl 1 62), 1) else (l, v) in
    floorDiv l' (i64 (Z.shiftl 1 v')).

Definition unsignedRightShift (l r : Z) : Z :=
  i64 (Z.shiftr (u64 l) (Z.land (u64 r) 63)).

(** [countDigits] of src/misc/format.hpp is modelled with brace expansion. *)

(** * Properties *)

(** The value the digits of [s] denote in [radix], most significant first. *)
Fixpoint digitsValue (radix acc : Z) (s : bytes) : option Z :=
  match s with
  | [] => Some acc
  | ch :: rest =>
      match digitValue ch with
      | Some v => if radix <=? v then None else digitsValue radix (acc * radix + v) rest
      | None => None
      end
  end.

Lemma digitValue_nonneg ch v : digitValue ch = Some v -> 0 <= v.
Proof. unfold digitValue. repeat case_on; intros; simplify_eq; zbool; lia. Qed.

(** Appending digits never makes the value smaller. *)
Lemma digitsValue_ge radix s : forall acc n,
  0 <= acc -> 1 <= radix -> digitsValue radix acc s = Some n -> acc <= n.
Proof.
  induction s as [|ch s IH]; simpl; intros acc n Hacc Hr Hd; [by simplify_eq|].
  destruct (digitValue ch) as [v|] eqn:Hv; [|done].
  apply digitValue_nonneg in Hv.
  destruct (radix <=? v); [done|].
  apply IH in Hd; nia.
Qed.

Lemma parseDigits_spec w radix s : forall acc,
  0 < w -> 2 <= radix -> in_unsigned w acc ->
  match digitsValue radix acc s with
  | Some n =>
      if n <? 2 ^ w then parseDigits w radix acc s = (OK, n, [])
      else fst (fst (parseDigits w radix acc s)) = OUT_OF_RANGE
  | None => fst (fst (parseDigits w radix acc s)) <> OK
  end.
Proof.
  induction s as [|ch s IH]; intros acc Hw Hr Hacc; simpl.
  { destruct (Z.ltb_spec acc (2 ^ w)); [done|]. unfold in_unsigned in *; lia. }
  destruct (digitValue ch) as [v|] eqn:Hv; [|done].
  apply digitValue_nonneg in Hv.
  destruct (Z.leb_spec radix v); [done|].
  unfold in_unsigned in Hacc.
  destruct (Z.leb_spec (2 ^ w) (acc * radix)) as [Ho|Ho].
  { destruct (digitsValue _ _ s) as [n|] eqn:Hd; [|done].
    apply digitsValue_ge in Hd; [|nia|nia].
    destruct (Z.ltb_spec n (2 ^ w)); [nia|done]. }
  rewrite (wrap_small w (acc * radix)) by (unfold in_unsigned; nia).
  destruct (Z.leb_spec (2 ^ w) (acc * radix + v)) as [Ho'|Ho'].
  { destruct (digitsValue _ _ s) as [n|] eqn:Hd; [|done].
    apply digitsValue_ge in Hd; [|nia|nia].
    destruct (Z.ltb_spec n (2 ^ w)); [nia|done]. }
  rewrite (wrap_small w (acc * radix + v)) by (unfold in_unsigned; nia).
  apply IH; [done..|unfold in_unsigned; nia].
Qed.

Lemma parseInteger_digits w s base :
  0 < w -> 2 <= base <= 36 -> s <> [] -> head s <> Some 43 ->
  let '(k, v, rest) := parseDigits w base 0 s in
  parseInteger w s base =
    ({| kind := k; consumedSize := u32 (zlen s - zlen rest); value := v |}, rest).
Proof.
  intros Hw Hb Hne Hplus. unfold parseInteger.
  assert (Hs : match s with c :: r => if c =? 43 then r else s | [] => s end = s).
  { destruct s as [|c s']; [done|]. simpl in Hplus.
    destruct (Z.eqb_spec c 43); congruence. }
  rewrite Hs. destruct (Z.eqb_spec base 0); [lia|].
  destruct s as [|c s']; [done|].
  destruct (Z.ltb_spec base 2); [lia|]. destruct (Z.ltb_spec 36 base); [lia|].
  cbn [orb]. by destruct (parseDigits w base 0 (c :: s')) as [[k v] rest].
Qed.

Lemma parseInteger_ok w s base n :
  0 < w -> 2 <= base <= 36 -> s <> [] -> head s <> Some 43 ->
  digitsValue base 0 s = Some n -> n < 2 ^ w ->
  kind (fst (parseInteger w s base)) = OK /\ value (fst (parseInteger w s base)) = n.
Proof.
  intros Hw Hb Hne Hplus Hn Hlt.
  pose proof (parseInteger_digits w s base Hw Hb Hne Hplus) as Hp.
  pose proof (parseDigits_spec w base s 0 Hw ltac:(lia) ltac:(split; lia)) as Hd.
  rewrite Hn, (proj2 (Z.ltb_lt _ _) Hlt) in Hd. rewrite Hd in Hp. by rewrite Hp.
Qed.

Lemma parseDigits_range w radix s : forall acc,
  0 < w -> in_unsigned w acc -> in_unsigned w (snd (fst (parseDigits w radix acc s))).
Proof.
  induction s as [|ch s IH]; intros acc Hw Ha; [done|]. cbn [parseDigits].
  destruct (digitValue ch) as [v|]; [|done]. destruct (radix <=? v); [done|].
  unfold mul_overflow, add_overflow. repeat case_on; cbn; try (apply IH; [done|]);
    apply wrap_range; lia.
Qed.

Lemma parseInteger_range w s base :
  0 < w -> in_unsigned w (value (fst (parseInteger w s base))).
Proof.
  intros Hw. assert (in_unsigned w 0) as H0 by (split; lia). unfold parseInteger.
  destruct (if base =? 0 then _ else _) as [b s2]. destruct s2 as [|c s2]; [done|].
  destruct ((b <? 2) || (36 <? b)); [done|].
  pose proof (parseDigits_range w b (c :: s2) 0 Hw H0).
  by destruct (parseDigits w b 0 (c :: s2)) as [[k v] rest].
Qed.

Lemma parseInteger_iff w s base n :
  0 < w -> 2 <= base <= 36 -> s <> [] -> head s <> Some 43 ->
  (kind (fst (parseInteger w s base)) = OK /\ value (fst (parseInteger w s base)) = n)
  <-> (digitsValue base 0 s = Some n /\ n < 2 ^ w).
Proof.
  intros Hw Hb Hne Hplus.
  pose proof (parseInteger_digits w s base Hw Hb Hne Hplus) as Hp.
  pose proof (parseDigits_spec w base s 0 Hw ltac:(lia)) as Hd.
  destruct (parseDigits w base 0 s) as [[k v] rest]. rewrite Hp. cbn.
  assert (in_unsigned w 0) as H0 by (split; lia).
  specialize (Hd H0).
  destruct (digitsValue base 0 s) as [m|]; [|naive_solver].
  destruct (Z.ltb_spec m (2 ^ w)); simplify_eq/=; naive_solver lia.
Qed.



Lemma dropSign_min w : 1 < w -> dropSign w (- 2 ^ (w - 1)) = 2 ^ (w - 1).
Proof.
  intros Hw. unfold dropSign. pose proof (pow_half w ltac:(lia)).
  assert (0 < 2 ^ (w - 1)) by lia.
  assert (wrap w (- 2 ^ (w - 1)) = 2 ^ (w - 1)) as ->.
  { unfold wrap. rewrite <- (Z.mod_add _ 1), Z.mod_small; lia. }
  unfold Z.lnot.
  assert (wrap w (Z.pred (- 2 ^ (w - 1))) = 2 ^ (w - 1) - 1) as ->.
  { unfold wrap. rewrite <- (Z.mod_add _ 1), Z.mod_small; lia. }
  rewrite wrap_small; unfold in_unsigned; lia.
Qed.

Lemma makeSigned_spec w n neg :
  1 < w -> in_unsigned w n ->
  let v := if neg : bool then - n else n in
  makeSigned w n neg =
    (if decide (in_signed w v) then v else swrap w n, bool_decide (in_signed w v)).
Proof.
  intros Hw Hn v. unfold makeSigned, v, in_unsigned in *.
  pose proof (pow_half w ltac:(lia)).
  destruct neg.
  - rewrite dropSign_min by lia. destruct (Z.leb_spec n (2 ^ (w - 1))).
    + assert (in_signed w (- n)) by (unfold in_signed; lia).
      rewrite decide_True, bool_decide_true by done.
      unfold putSign, Z.lnot. rewrite swrap_small; [f_equal; lia|lia|].
      unfold in_signed in *; lia.
    + assert (~ in_signed w (- n)) by (unfold in_signed; lia).
      by rewrite decide_False, bool_decide_false.
  - destruct (Z.leb_spec n (2 ^ (w - 1) - 1)).
    + assert (in_signed w n) by (unfold in_signed; lia).
      rewrite decide_True, bool_decide_true by done. by rewrite swrap_small by (done || lia).
    + assert (~ in_signed w n) by (unfold in_signed; lia).
      by rewrite decide_False, bool_decide_false.
Qed.

(** A signed conversion accepts an optional minus sign and succeeds
    exactly when the signed value fits, the most negative value included. *)
Theorem parseSigned_correct w ds sentinel (neg : bool) base v :
  1 < w -> 2 <= base <= 36 -> ds <> [] ->
  head ds <> Some 43 -> head ds <> Some 45 ->
  let ret := fst (parseSigned w (if neg then 45 :: ds else ds) sentinel base) in
  (kind ret = OK /\ value ret = v)
  <-> exists n, digitsValue base 0 ds = Some n /\ n < 2 ^ w /\
        v = (if neg then - n else n) /\ in_signed w v.
Proof.
  intros Hw Hb Hne Hplus Hminus ret.
  pose proof (parseInteger_iff w ds base) as Hc.
  assert (Hret : ret = fst (let '(r, rest) := parseInteger w ds base in
      let s := if neg then 45 :: ds else ds in
      let consumed := u32 (zlen s - zlen rest) in
      if decide (kind r = OK) then
        let '(v, ok) := makeSigned w (value r) neg in
        ({| kind := if ok then OK else OUT_OF_RANGE; consumedSize := consumed; value := v |}, rest)
      else ({| kind := kind r; consumedSize := consumed; value := swrap w (value r) |}, rest))).
  { unfold ret, parseSigned. destruct ds as [|c ds]; [done|]. simpl in Hplus, Hminus.
    destruct neg.
    - assert (default sentinel (head (c :: ds)) =? 43 = false) as -> by (apply Z.eqb_neq; simpl; congruence).
      done.
    - destruct (Z.eqb_spec c 45); [congruence|done]. }
  rewrite Hret. clear ret Hret.
  destruct (parseInteger w ds base) as [r rest] eqn:Hr. simpl in Hc |- *.
  destruct (decide (kind r = OK)) as [Hok|Hok].
  - destruct (proj1 (Hc (value r) ltac:(lia) Hb Hne Hplus) (conj Hok eq_refl)) as [Hd Hlt].
    assert (in_unsigned w (value r)) as Hu.
    { unfold in_unsigned. split; [|done]. eapply digitsValue_ge; [| |done]; lia. }
    rewrite makeSigned_spec by done.
    destruct (decide (in_signed w _)) as [Hin|Hin]; simpl.
    + rewrite bool_decide_true by done. naive_solver.
    + rewrite bool_decide_false by done. naive_solver.
  - simpl. split; [naive_solver|]. intros (n & Hd & Hlt & _).
    by destruct (proj2 (Hc n ltac:(lia) Hb Hne Hplus) (conj Hd Hlt)).
Qed.

Lemma parseSigned_correct_witness :
  let ret := fst (parseSigned 8 (45 :: lit "80") 0 16) in
  (kind ret = OK /\ value ret = -128) /\
  ((kind ret = OK /\ value ret = -128)
   <-> exists n, digitsValue 16 0 (lit "80") = Some n /\ n < 2 ^ 8 /\
        -128 = - n /\ in_signed 8 (-128)).
Proof.
  split; [split; reflexivity|].
  apply (parseSigned_correct 8 (lit "80") 0 true 16 (-128));
    [lia|lia|discriminate|discriminate|discriminate].
Defined.

Lemma land63 r : Z.land (u64 r) 63 = r mod 64.
Proof.
  change 63 with (Z.ones 6). rewrite Z.land_ones by lia. unfold wrap.
  apply Z.mod_mod_divide. by exists (2 ^ 58).
Qed.

Lemma lxor_signed l r :
  in_signed 64 l -> in_signed 64 r ->
  i64 (Z.lxor (u64 l) (u64 r)) = Z.lxor l r.
Proof.
  intros Hl Hr.
  assert (Z.lxor (u64 l) (u64 r) = u64 (Z.lxor l r)) as ->.
  { unfold wrap. rewrite <- !Z.land_ones by lia. apply Z.bits_inj'. intros n Hn.
    rewrite Z.lxor_spec, !Z.land_spec, Z.lxor_spec. by destruct (Z.testbit (Z.ones 64) n), (Z.testbit l n), (Z.testbit r n). }
  rewrite swrap_wrap by lia. apply swrap_small; [lia|].
  assert (Hb : forall z, in_signed 64 z <-> Z.shiftr z 63 = 0 \/ Z.shiftr z 63 = -1).
  { intros z. unfold in_signed. rewrite Z.shiftr_div_pow2 by lia. change (64 - 1) with 63.
    assert (0 < 2 ^ 63) by lia. pose proof (Z.div_mod z (2 ^ 63)).
    pose proof (Z.mod_pos_bound z (2 ^ 63)). split; intros; nia. }
  apply Hb. apply Hb in Hl. apply Hb in Hr. rewrite Z.shiftr_lxor.
  destruct Hl as [-> | ->], Hr as [-> | ->]; simpl; auto.
Qed.

Lemma quot_rem_floor l r :
  r <> 0 -> (if Z.rem l r =? 0 then Z.quot l r else Z.quot l r - 1) = l / r \/ 0 < l * r.
Proof.
  intros Hr. pose proof (Z.quot_rem l r Hr). pose proof (Z.rem_bound_abs l r Hr).
  destruct (Z_lt_dec 0 (l * r)); [by right|left].
  destruct (Z.eqb_spec (Z.rem l r) 0) as [Hz|Hz].
  - apply Z.div_unique_exact; lia.
  - pose proof (Z.rem_sign_nz l r Hr Hz).
    apply Z.div_unique with (r := Z.rem l r + r); [|lia].
    destruct (Z_lt_dec 0 r), (Z_lt_dec 0 l); lia || nia.
Qed.

Lemma floorDiv_spec l r :
  in_signed 64 l -> in_signed 64 r -> r <> 0 -> floorDiv l r = l / r.
Proof.
  intros Hl Hr H0. unfold floorDiv. rewrite lxor_signed by done.
  pose proof (Z.lxor_nonneg l r) as Hx.
  destruct (Z.ltb_spec 0 (Z.lxor l r)).
  - assert (0 <= l <-> 0 <= r) by (apply Hx; lia).
    destruct (Z_lt_dec l 0).
    + rewrite <- (Z.opp_involutive l), <- (Z.opp_involutive r).
      rewrite Z.quot_opp_opp, Z.div_opp_opp by lia. apply Z.quot_div_nonneg; lia.
    + apply Z.quot_div_nonneg; lia.
  - destruct (quot_rem_floor l r H0) as [->|Hpos]; [done|].
    destruct (decide (l = r)) as [->|Hne].
    + rewrite Z.rem_same, Z.quot_same, Z.div_same by done. done.
    + assert (Z.lxor l r <> 0) by (rewrite Z.lxor_eq_0_iff; done).
      assert (0 <= Z.lxor l r) by (apply Hx; nia). lia.
Qed.

Lemma pow63 v : 0 <= v < 63 -> in_signed 64 (2 ^ v) /\ 0 < 2 ^ v.
Proof.
  intros. assert (0 < 2 ^ v) by lia. unfold in_signed. change (64 - 1) with 63.
  assert (2 ^ v < 2 ^ 63) by (apply Z.pow_lt_mono_r; lia). lia.
Qed.

Lemma rightShift_floor l r :
  in_signed 64 l -> rightShift l r = l / 2 ^ (r mod 64).
Proof.
  intros Hl. unfold rightShift. rewrite land63.
  pose proof (Z.mod_pos_bound r 64 ltac:(lia)) as Hm.
  rewrite Z.shiftr_div_pow2 by lia.
  destruct (Z.ltb_spec 0 l); [done|]. rewrite !Z.shiftl_1_l.
  destruct (Z.eqb_spec (r mod 64) 63) as [->|].
  - destruct (pow63 62 ltac:(lia)). rewrite (floorDiv_spec l) by (done || lia).
    rewrite floorDiv_spec; [| |done|done].
    + change (i64 (Z.shiftl 1 1)) with 2. rewrite Z.div_div by lia. done.
    + unfold in_signed in *. change (64 - 1) with 63 in *.
      change (2 ^ 63) with 9223372036854775808 in *. change (2 ^ 62) with 4611686018427387904.
      split; [apply Z.div_le_lower_bound|apply Z.div_lt_upper_bound]; lia.
  - destruct (pow63 (r mod 64) ltac:(lia)). rewrite Z.shiftl_1_l.
    rewrite swrap_small by (done || lia). apply floorDiv_spec; (done || lia).
Qed.

(** The shift operators follow the Java rules the source cites: the count is
    taken modulo 64, [<<] wraps, [>>] rounds towards minus infinity, and [>>>]
    shifts the two's complement pattern. *)
Theorem shift_operators_java l r :
  in_signed 64 l -> in_signed 64 r ->
  leftShift l r = i64 (l * 2 ^ (r mod 64)) /\
  rightShift l r = l / 2 ^ (r mod 64) /\
  unsignedRightShift l r = i64 (u64 l / 2 ^ (r mod 64)).
Proof.
  intros Hl Hr. pose proof (Z.mod_pos_bound r 64 ltac:(lia)) as Hm.
  split; [|split].
  - unfold leftShift. rewrite land63, Z.shiftl_1_l. cbn zeta.
    assert (Hmul : forall x y, i64 (x * i64 y) = i64 (x * y)).
    { intros. apply swrap_eqm; [lia|]. rewrite Z.mul_mod, <- (Z.mul_mod_idemp_r x y) by lia.
      pose proof (wrap_swrap 64 y ltac:(lia)) as Hw. unfold wrap in Hw. rewrite Hw.
      by rewrite Z.mul_mod_idemp_l by lia. }
    unfold smul_overflow. rewrite Hmul. case_on; [|done].
    rewrite swrap_wrap by lia. apply swrap_eqm; [lia|]. unfold wrap.
    by rewrite Z.mul_mod_idemp_l by lia.
  - by apply rightShift_floor.
  - unfold unsignedRightShift. by rewrite land63, Z.shiftr_div_pow2 by lia.
Qed.

Lemma shift_operators_java_witness :
  leftShift 1 127 = -9223372036854775808 /\
  rightShift (-9) 65 = -5 /\
  unsignedRightShift (-1) 60 = 15.
Proof.
  assert (forall z, -100 <= z <= 200 -> in_signed 64 z) as H
    by (intros; unfold in_signed; change (2 ^ (64 - 1)) with 9223372036854775808; lia).
  destruct (shift_operators_java 1 127 (H 1 ltac:(lia)) (H 127 ltac:(lia))) as (-> & _ & _).
  destruct (shift_operators_java (-9) 65 (H (-9) ltac:(lia)) (H 65 ltac:(lia))) as (_ & -> & _).
  destruct (shift_operators_java (-1) 60 (H (-1) ltac:(lia)) (H 60 ltac:(lia))) as (_ & _ & ->).
  split; [reflexivity|split; reflexivity].
Defined.
End NumUtil.
