(* ===== verification/Unicode.v ===== *)
(** UTF-8, WTF-8 and UTF-16 of src/misc/unicode.hpp.  Strings are lists of
    bytes; a pointer pair [begin, end) is the list of the bytes between them. *)
From S2P Require Import Prelude.

Module UnicodeUtil.

Definition CODE_POINT_MAX : Z := 0x10FFFF.

(** [packedTable[b >> 3]] *)
Definition packedTable : list Z :=
  [1; 1; 1; 1; 1; 1; 1; 1; 1; 1; 1; 1; 1; 1; 1; 1;
   0; 0; 0; 0; 0; 0; 0; 0; 2; 2; 2; 2; 3; 3; 4; 0].

Definition utf8ByteSize (b : Z) : Z := nth (Z.to_nat (Z.shiftr b 3)) packedTable 0.

Definition isCodePoint (c : Z) : bool := (0 <=? c) && (c <=? CODE_POINT_MAX).
Definition isHighSurrogate (c : Z) : bool := (0xD800 <=? c) && (c <=? 0xDBFF).
Definition isLowSurrogate (c : Z) : bool := (0xDC00 <=? c) && (c <=? 0xDFFF).
Definition isSurrogate (c : Z) : bool := (0xD800 <=? c) && (c <=? 0xDFFF).
Definition isValidCodePoint (c : Z) : bool := isCodePoint c && negb (isSurrogate c).
Definition isBmpCodePoint (c : Z) : bool := (0 <=? c) && (c <=? 0xFFFF).
Definition isSupplementaryCodePoint (c : Z) : bool := (0xFFFF <? c) && (c <=? CODE_POINT_MAX).

(** A continuation byte, 10xxxxxx. *)
Abbreviation isCont b := (Z.land b 0xC0 =? 0x80).

(** [utf8ValidateChar begin end allowSurrogate]: the size of the first
    character, 0 when it is invalid. *)
Definition utf8ValidateChar (s : bytes) (allowSurrogate : bool) : Z :=
  match s with
  | [] => 0
  | b0 :: t =>
      if b0 <? 0x80 then 1
      else if Z.land b0 0xE0 =? 0xC0 then
        match t with
        | b1 :: _ =>
            if negb (isCont b1) || (Z.land b0 0xFE =? 0xC0) then 0 else 2
        | _ => 0
        end
      else if Z.land b0 0xF0 =? 0xE0 then
        match t with
        | b1 :: b2 :: _ =>
            if negb (isCont b1) || negb (isCont b2) ||
               ((b0 =? 0xE0) && (Z.land b1 0xE0 =? 0x80)) ||
               ((b0 =? 0xED) && (Z.land b1 0xE0 =? 0xA0) && negb allowSurrogate)
            then 0 else 3
        | _ => 0
        end
      else if Z.land b0 0xF8 =? 0xF0 then
        match t with
        | b1 :: b2 :: b3 :: _ =>
            if negb (isCont b1) || negb (isCont b2) || negb (isCont b3) ||
               ((b0 =? 0xF0) && (Z.land b1 0xF0 =? 0x80)) ||
               ((b0 =? 0xF4) && (0x8F <? b1)) || (0xF4 <? b0)
            then 0 else 4
        | _ => 0
        end
      else 0
  end.

Definition wtf8ValidateChar (s : bytes) : Z := utf8ValidateChar s true.

(** The payload bits of a character of [size] bytes. *)
Definition payload (size : Z) (s : bytes) : Z :=
  let b i := nth i s 0 in
  if size =? 1 then b 0%nat
  else if size =? 2 then
    Z.lor (Z.shiftl (Z.land (b 0%nat) 0x1F) 6) (Z.land (b 1%nat) 0x3F)
  else if size =? 3 then
    Z.lor (Z.lor (Z.shiftl (Z.land (b 0%nat) 0x0F) 12) (Z.shiftl (Z.land (b 1%nat) 0x3F) 6))
      (Z.land (b 2%nat) 0x3F)
  else if size =? 4 then
    Z.lor (Z.lor (Z.lor (Z.shiftl (Z.land (b 0%nat) 0x07) 18) (Z.shiftl (Z.land (b 1%nat) 0x3F) 12))
      (Z.shiftl (Z.land (b 2%nat) 0x3F) 6)) (Z.land (b 3%nat) 0x3F)
  else -1.

(** [utf8ToCodePoint begin end codePoint allowSurrogate]: [(size, codePoint)]. *)
Definition utf8ToCodePoint (s : bytes) (allowSurrogate : bool) : Z * Z :=
  let size := utf8ValidateChar s allowSurrogate in (size, payload size s).

Definition wtf8ToCodePoint (s : bytes) : Z * Z := utf8ToCodePoint s true.

(** [codePointToUtf8]: the bytes written to the buffer, none when the code point is invalid. *)
Definition codePointToUtf8 (c : Z) : bytes :=
  if negb (isCodePoint c) then []
  else if c <=? 0x7F then [c]
  else if c <=? 0x7FF then
    [Z.lor 0xC0 (Z.shiftr c 6); Z.lor 0x80 (Z.land c 0x3F)]
  else if c <=? 0xFFFF then
    [Z.lor 0xE0 (Z.shiftr c 12); Z.lor 0x80 (Z.land (Z.shiftr c 6) 0x3F);
     Z.lor 0x80 (Z.land c 0x3F)]
  else if c <=? 0x10FFFF then
    [Z.lor 0xF0 (Z.shiftr c 18); Z.lor 0x80 (Z.land (Z.shiftr c 12) 0x3F);
     Z.lor 0x80 (Z.land (Z.shiftr c 6) 0x3F); Z.lor 0x80 (Z.land c 0x3F)]
  else [].

Definition utf16ToCodePoint (high low : Z) : Z :=
  if isHighSurrogate high && isLowSurrogate low
  then Z.shiftl (high - 0xD800) 10 + (low - 0xDC00) + 0x10000
  else -1.

Definition codePointToUtf16 (c : Z) : Z * Z :=
  if isBmpCodePoint c then (u16 c, u16 c)
  else
    let code := u32 (u32 c - 0x10000) in
    (u16 (Z.shiftr code 10 + 0xD800), u16 (Z.land code 0x3FF + 0xDC00)).

(** [Utf8Stream::nextCodePoint]: the code point (-1 for an invalid byte, which
    is skipped alone) and the rest of the stream. *)
Definition nextCodePoint (s : bytes) (allowSurrogate : bool) : Z * bytes :=
  let '(size, c) := utf8ToCodePoint s allowSurrogate in
  if size <? 1 then (-1, tail s) else (c, drop (Z.to_nat size) s).

(** ** Masks of a byte as arithmetic *)

Lemma byte_cases (P : Z -> bool) :
  forallb P (map Z.of_nat (seq 0 256)) = true -> forall b, is_byte b -> P b = true.
Proof.
  intros H b Hb. rewrite forallb_forall in H. apply H. unfold is_byte in Hb.
  apply in_map_iff. exists (Z.to_nat b). split; [lia|]. apply in_seq. lia.
Qed.

Ltac byte_check :=
  match goal with
  | Hb : is_byte ?b |- ?l = ?r =>
      let P := constr:(fun x : Z => ltac:(let l' := eval pattern b in l in
                 match l' with ?f _ => let r' := eval pattern b in r in
                 match r' with ?g _ =>
                   let t := type of l in
                   match t with
                   | bool => exact (Bool.eqb (f x) (g x))
                   | Z => exact (f x =? g x)
                   end end end)) in
      first [ apply eqb_prop; apply (byte_cases P); [vm_compute; reflexivity|exact Hb]
            | apply Z.eqb_eq; apply (byte_cases P); [vm_compute; reflexivity|exact Hb] ]
  end.

Lemma mask_C0 b : is_byte b -> (Z.land b 0xC0 =? 0x80) = ((0x80 <=? b) && (b <? 0xC0)).
Proof. intros; byte_check. Qed.
Lemma mask_E0 b : is_byte b -> (Z.land b 0xE0 =? 0xC0) = ((0xC0 <=? b) && (b <? 0xE0)).
Proof. intros; byte_check. Qed.
Lemma mask_FE b : is_byte b -> (Z.land b 0xFE =? 0xC0) = ((0xC0 <=? b) && (b <? 0xC2)).
Proof. intros; byte_check. Qed.
Lemma mask_F0 b : is_byte b -> (Z.land b 0xF0 =? 0xE0) = ((0xE0 <=? b) && (b <? 0xF0)).
Proof. intros; byte_check. Qed.
Lemma mask_F8 b : is_byte b -> (Z.land b 0xF8 =? 0xF0) = ((0xF0 <=? b) && (b <? 0xF8)).
Proof. intros; byte_check. Qed.
Lemma mask_E0_80 b : is_byte b -> (Z.land b 0xE0 =? 0x80) = ((0x80 <=? b) && (b <? 0xA0)).
Proof. intros; byte_check. Qed.
Lemma mask_E0_A0 b : is_byte b -> (Z.land b 0xE0 =? 0xA0) = ((0xA0 <=? b) && (b <? 0xC0)).
Proof. intros; byte_check. Qed.
Lemma mask_F0_80 b : is_byte b -> (Z.land b 0xF0 =? 0x80) = ((0x80 <=? b) && (b <? 0x90)).
Proof. intros; byte_check. Qed.
Lemma byteSize_ranges b : is_byte b ->
  utf8ByteSize b =
    (if b <? 0x80 then 1 else if b <? 0xC0 then 0 else if b <? 0xE0 then 2
     else if b <? 0xF0 then 3 else if b <? 0xF8 then 4 else 0).
Proof. intros; byte_check. Qed.

Lemma land_ones_mod x n m : m = Z.ones n -> 0 <= n -> Z.land x m = x mod 2 ^ n.
Proof. intros -> ?. by apply Z.land_ones. Qed.

Lemma lor_tag a n t y : 0 <= n -> t = Z.shiftl a n -> 0 <= y < 2 ^ n -> Z.lor t y = t + y.
Proof.
  intros Hn -> Hy. rewrite lor_shift_add by done. by rewrite Z.shiftl_mul_pow2.
Qed.

(** ** Encoding and decoding as arithmetic *)

Ltac Zify.zify_post_hook ::= Z.to_euclidean_division_equations.

Lemma land_3F x : Z.land x 0x3F = x mod 64. Proof. by apply (land_ones_mod x 6). Qed.
Lemma land_1F x : Z.land x 0x1F = x mod 32. Proof. by apply (land_ones_mod x 5). Qed.
Lemma land_0F x : Z.land x 0x0F = x mod 16. Proof. by apply (land_ones_mod x 4). Qed.
Lemma land_07 x : Z.land x 0x07 = x mod 8. Proof. by apply (land_ones_mod x 3). Qed.

Lemma shr6 x : Z.shiftr x 6 = x / 64. Proof. by rewrite Z.shiftr_div_pow2. Qed.
Lemma shr12 x : Z.shiftr x 12 = x / 4096. Proof. by rewrite Z.shiftr_div_pow2. Qed.
Lemma shr18 x : Z.shiftr x 18 = x / 262144. Proof. by rewrite Z.shiftr_div_pow2. Qed.

Lemma cont_tag y : 0 <= y < 64 -> Z.lor 0x80 y = 0x80 + y.
Proof. intros; by apply (lor_tag 2 6). Qed.

(** The encoder in arithmetic form. *)
Definition encode (c : Z) : bytes :=
  if c <? 0x80 then [c]
  else if c <? 0x800 then [0xC0 + c / 64; 0x80 + c mod 64]
  else if c <? 0x10000 then [0xE0 + c / 4096; 0x80 + c / 64 mod 64; 0x80 + c mod 64]
  else [0xF0 + c / 262144; 0x80 + c / 4096 mod 64; 0x80 + c / 64 mod 64; 0x80 + c mod 64].

Lemma codePointToUtf8_encode c : isCodePoint c = true -> codePointToUtf8 c = encode c.
Proof.
  unfold codePointToUtf8, isCodePoint, encode, CODE_POINT_MAX. intros H. rewrite H. zbool. cbn [negb].
  rewrite !land_3F, shr6, shr12, shr18, !cont_tag by lia.
  destruct (Z.leb_spec c 0x7F), (Z.ltb_spec c 0x80); try lia; [done|].
  destruct (Z.leb_spec c 0x7FF), (Z.ltb_spec c 0x800); try lia.
  { rewrite (lor_tag 6 5); [done|lia|done|]. change (2 ^ 5) with 32. lia. }
  destruct (Z.leb_spec c 0xFFFF), (Z.ltb_spec c 0x10000); try lia.
  { rewrite (lor_tag 14 4); [done|lia|done|]. change (2 ^ 4) with 16. lia. }
  destruct (Z.leb_spec c 0x10FFFF); [|lia].
  rewrite (lor_tag 30 3); [done|lia|done|]. change (2 ^ 3) with 8. lia.
Qed.

Lemma encode_is_byte c : isCodePoint c = true -> Forall is_byte (encode c).
Proof.
  unfold isCodePoint, encode, CODE_POINT_MAX, is_byte. intros; zbool.
  repeat case_on; zbool; repeat constructor; lia.
Qed.

(** The decoder in arithmetic form. *)
Lemma payload2 b0 b1 s : payload 2 (b0 :: b1 :: s) = b0 mod 32 * 64 + b1 mod 64.
Proof.
  unfold payload. cbn [Z.eqb Pos.eqb nth]. rewrite land_1F, land_3F.
  by rewrite lor_shift_add by (change (2 ^ 6) with 64; lia).
Qed.
Lemma payload3 b0 b1 b2 s :
  payload 3 (b0 :: b1 :: b2 :: s) = b0 mod 16 * 4096 + b1 mod 64 * 64 + b2 mod 64.
Proof.
  unfold payload. cbn [Z.eqb Pos.eqb nth]. rewrite land_0F, !land_3F.
  change 12 with (6 + 6) at 1. rewrite <- Z.shiftl_shiftl, <- Z.shiftl_lor by lia.
  rewrite !lor_shift_add by (change (2 ^ 6) with 64; lia). change (2 ^ 6) with 64. lia.
Qed.
Lemma payload4 b0 b1 b2 b3 s :
  payload 4 (b0 :: b1 :: b2 :: b3 :: s) =
    b0 mod 8 * 262144 + b1 mod 64 * 4096 + b2 mod 64 * 64 + b3 mod 64.
Proof.
  unfold payload. cbn [Z.eqb Pos.eqb nth]. rewrite land_07, !land_3F.
  change 18 with (6 + 6 + 6) at 1. change 12 with (6 + 6) at 1.
  rewrite <- !Z.shiftl_shiftl, <- !Z.shiftl_lor by lia.
  rewrite !lor_shift_add by (change (2 ^ 6) with 64; lia). change (2 ^ 6) with 64. lia.
Qed.

(** The validator as ranges on the bytes. *)
Definition valid_ranges (s : bytes) (allow : bool) (n : Z) : Prop :=
  match s with
  | [] => n = 0
  | b0 :: t =>
      (0 <= b0 < 0x80 /\ n = 1) \/
      (exists b1 r, t = b1 :: r /\ 0xC2 <= b0 < 0xE0 /\ 0x80 <= b1 < 0xC0 /\ n = 2) \/
      (exists b1 b2 r, t = b1 :: b2 :: r /\ 0xE0 <= b0 < 0xF0 /\ 0x80 <= b1 < 0xC0 /\
         0x80 <= b2 < 0xC0 /\ (b0 = 0xE0 -> 0xA0 <= b1) /\
         (b0 = 0xED -> allow = false -> b1 < 0xA0) /\ n = 3) \/
      (exists b1 b2 b3 r, t = b1 :: b2 :: b3 :: r /\ 0xF0 <= b0 < 0xF5 /\ 0x80 <= b1 < 0xC0 /\
         0x80 <= b2 < 0xC0 /\ 0x80 <= b3 < 0xC0 /\ (b0 = 0xF0 -> 0x90 <= b1) /\
         (b0 = 0xF4 -> b1 < 0x90) /\ n = 4) \/
      n = 0
  end.

Ltac masks :=
  rewrite ?mask_E0, ?mask_F0, ?mask_F8, ?mask_FE, ?mask_C0, ?mask_E0_80, ?mask_E0_A0,
    ?mask_F0_80 by assumption.

Lemma validate_sound s allow :
  Forall is_byte s -> valid_ranges s allow (utf8ValidateChar s allow).
Proof.
  intros Hs. unfold utf8ValidateChar, valid_ranges.
  destruct s as [|b0 t]; [done|]. inversion_clear Hs as [|? ? Hb0 Ht]. masks.
  destruct (Z.ltb_spec b0 0x80); [left; unfold is_byte in *; lia|].
  destruct ((0xC0 <=? b0) && (b0 <? 0xE0)) eqn:H2.
  { destruct t as [|b1 r]; [tauto|]. inversion_clear Ht. masks.
    case_on; [tauto|]. right; left. exists b1, r. zbool. split_and!; (done || lia). }
  destruct ((0xE0 <=? b0) && (b0 <? 0xF0)) eqn:H3.
  { destruct t as [|b1 [|b2 r]]; [tauto..|]. inversion_clear Ht as [|? ? ? Hr]. inversion_clear Hr. masks.
    case_on; [tauto|]. right; right; left. exists b1, b2, r. zbool.
    destruct (Z.eqb_spec b0 0xE0), (Z.eqb_spec b0 0xED), (Z.ltb_spec b1 0xA0), (Z.leb_spec 0x80 b1), (Z.leb_spec 0xA0 b1), (Z.ltb_spec b1 0xC0), allow;
      simpl in *; try done; split_and!; (done || lia). }
  destruct ((0xF0 <=? b0) && (b0 <? 0xF8)) eqn:H4; [|tauto].
  destruct t as [|b1 [|b2 [|b3 r]]]; [tauto..|].
  inversion_clear Ht as [|? ? ? Hr]. inversion_clear Hr as [|? ? ? Hr']. inversion_clear Hr'. masks.
  case_on; [tauto|]. right; right; right; left. exists b1, b2, b3, r. zbool.
  destruct (Z.eqb_spec b0 0xF0), (Z.eqb_spec b0 0xF4), (Z.ltb_spec b1 0x90), (Z.leb_spec 0x80 b1), (Z.ltb_spec 0x8F b1);
    simpl in *; try done; split_and!; (done || lia).
Qed.

Ltac byte_hyps := repeat match goal with
  | |- is_byte _ => unfold is_byte; lia
  end.

Ltac ranges := unfold utf8ValidateChar;
  rewrite ?mask_E0, ?mask_F0, ?mask_F8, ?mask_FE, ?mask_C0, ?mask_E0_80, ?mask_E0_A0,
    ?mask_F0_80 by (unfold is_byte; lia);
  repeat (case_on; zbool; try lia).

Lemma validate1 b0 s a : 0 <= b0 < 0x80 -> utf8ValidateChar (b0 :: s) a = 1.
Proof. intros. ranges. Qed.
Lemma validate2 b0 b1 s a :
  0xC2 <= b0 < 0xE0 -> 0x80 <= b1 < 0xC0 -> utf8ValidateChar (b0 :: b1 :: s) a = 2.
Proof. intros. ranges. Qed.
Lemma validate3 b0 b1 b2 s a :
  0xE0 <= b0 < 0xF0 -> 0x80 <= b1 < 0xC0 -> 0x80 <= b2 < 0xC0 ->
  (b0 = 0xE0 -> 0xA0 <= b1) -> (b0 = 0xED -> a = false -> b1 < 0xA0) ->
  utf8ValidateChar (b0 :: b1 :: b2 :: s) a = 3.
Proof. intros. destruct a; ranges. Qed.
Lemma validate4 b0 b1 b2 b3 s a :
  0xF0 <= b0 < 0xF5 -> 0x80 <= b1 < 0xC0 -> 0x80 <= b2 < 0xC0 -> 0x80 <= b3 < 0xC0 ->
  (b0 = 0xF0 -> 0x90 <= b1) -> (b0 = 0xF4 -> b1 < 0x90) ->
  utf8ValidateChar (b0 :: b1 :: b2 :: b3 :: s) a = 4.
Proof. intros. ranges. Qed.

Lemma isCodePoint_range c : isCodePoint c = true <-> 0 <= c <= 0x10FFFF.
Proof. unfold isCodePoint, CODE_POINT_MAX. lia. Qed.

Lemma isSurrogate_false c : isSurrogate c = false <-> c < 0xD800 \/ 0xDFFF < c.
Proof. unfold isSurrogate. lia. Qed.

Lemma decode_encode c s a :
  isCodePoint c = true -> (a = true \/ isSurrogate c = false) ->
  utf8ToCodePoint (encode c ++ s) a = (zlen (encode c), c).
Proof.
  rewrite isCodePoint_range, isSurrogate_false. intros Hc Hs.
  assert (a = false -> c < 0xD800 \/ 0xDFFF < c) as Hs' by naive_solver. clear Hs.
  unfold utf8ToCodePoint, encode.
  repeat case_on; zbool; cbn [app]; autorewrite with zlen.
  - by rewrite validate1 by lia.
  - rewrite validate2 by lia. rewrite payload2. f_equal; lia.
  - rewrite validate3 by (try lia; intros; assert (c < 0xD800 \/ 0xDFFF < c) by auto; lia).
    rewrite payload3. f_equal; lia.
  - rewrite validate4 by lia. rewrite payload4. f_equal; lia.
Qed.

(** C37: every code point survives encoding and WTF-8 decoding, and every scalar
    value survives strict UTF-8 decoding, whatever follows it in the buffer. *)
Theorem utf8_roundtrip c rest a :
  isCodePoint c = true -> (a = true \/ isValidCodePoint c = true) ->
  utf8ToCodePoint (codePointToUtf8 c ++ rest) a = (zlen (codePointToUtf8 c), c).
Proof.
  intros Hc Ha. rewrite codePointToUtf8_encode by done. apply decode_encode; [done|].
  unfold isValidCodePoint in Ha. rewrite Hc in Ha. destruct (isSurrogate c); naive_solver.
Qed.

Lemma utf8_roundtrip_witness :
  utf8ToCodePoint (codePointToUtf8 0x1F600 ++ [0x41]) false = (4, 0x1F600) /\
  utf8ToCodePoint (codePointToUtf8 0xD800 ++ [0x80]) true = (3, 0xD800).
Proof.
  split.
  - apply (utf8_roundtrip 0x1F600 [0x41] false); [reflexivity|right; reflexivity].
  - apply (utf8_roundtrip 0xD800 [0x80] true); [reflexivity|left; reflexivity].
Defined.

Lemma validate_cases s a n :
  Forall is_byte s -> utf8ValidateChar s a = n -> n <> 0 ->
  1 <= n <= 4 /\ (Z.to_nat n <= length s)%nat /\
  isCodePoint (payload n s) = true /\
  (a = false -> isSurrogate (payload n s) = false) /\
  encode (payload n s) = take (Z.to_nat n) s.
Proof.
  intros Hs Hn H0. pose proof (validate_sound s a Hs) as Hr. rewrite Hn in Hr.
  rewrite isCodePoint_range. rewrite isSurrogate_false.
  destruct s as [|b0 t]; [done|].
  destruct Hr as [Hr|[Hr|[Hr|[Hr|Hr]]]]; [| | | |done].
  - destruct Hr as [Hb ->]. unfold payload, encode. simpl.
    destruct (Z.ltb_spec b0 128); [|lia]. change (Z.to_nat 1) with 1%nat. simpl.
    split_and!; (done || lia).
  - destruct Hr as (b1 & r & -> & Hb0 & Hb1 & ->). rewrite payload2. unfold encode.
    change (Z.to_nat 2) with 2%nat. simpl length. simpl take.
    destruct (Z.ltb_spec (b0 mod 32 * 64 + b1 mod 64) 0x80); [lia|].
    destruct (Z.ltb_spec (b0 mod 32 * 64 + b1 mod 64) 0x800); [|lia].
    split_and!; try lia. repeat f_equal; lia.
  - destruct Hr as (b1 & b2 & r & -> & Hb0 & Hb1 & Hb2 & Ho & Hsur & ->). rewrite payload3.
    change (Z.to_nat 3) with 3%nat. simpl length. simpl take.
    set (x := b0 mod 16 * 4096 + b1 mod 64 * 64 + b2 mod 64).
    assert (0x800 <= x < 0x10000) by lia. unfold encode.
    destruct (Z.ltb_spec x 0x80); [lia|]. destruct (Z.ltb_spec x 0x800); [lia|].
    destruct (Z.ltb_spec x 0x10000); [|lia].
    split_and!; try lia. repeat f_equal; unfold x; lia.
  - destruct Hr as (b1 & b2 & b3 & r & -> & Hb0 & Hb1 & Hb2 & Hb3 & Ho & Hmax & ->).
    rewrite payload4. change (Z.to_nat 4) with 4%nat. simpl length. simpl take.
    set (x := b0 mod 8 * 262144 + b1 mod 64 * 4096 + b2 mod 64 * 64 + b3 mod 64).
    assert (0x10000 <= x <= 0x10FFFF) by lia. unfold encode.
    destruct (Z.ltb_spec x 0x80); [lia|]. destruct (Z.ltb_spec x 0x800); [lia|].
    destruct (Z.ltb_spec x 0x10000); [lia|].
    split_and!; try lia. repeat f_equal; unfold x; lia.
Qed.

(** C38: what the validator accepts is the shortest encoding of a code point, so
    no overlong form, no value above U+10FFFF and, unless asked for, no surrogate
    is accepted. *)
Theorem utf8_decode_canonical s a size c :
  Forall is_byte s -> utf8ToCodePoint s a = (size, c) -> size <> 0 ->
  isCodePoint c = true /\ (a = false -> isSurrogate c = false) /\
  codePointToUtf8 c = take (Z.to_nat size) s /\ size = zlen (codePointToUtf8 c).
Proof.
  unfold utf8ToCodePoint. intros Hs H H0. simplify_eq.
  destruct (validate_cases s a _ Hs eq_refl H0) as (? & ? & Hc & Hsur & He).
  rewrite codePointToUtf8_encode by done. split_and!; try done.
  rewrite He. unfold zlen. rewrite length_take. lia.
Qed.

Lemma utf8_decode_canonical_witness :
  isCodePoint 0x20AC = true /\ (false = false -> isSurrogate 0x20AC = false) /\
  codePointToUtf8 0x20AC = [0xE2; 0x82; 0xAC] /\ 3 = zlen (codePointToUtf8 0x20AC).
Proof.
  apply (utf8_decode_canonical [0xE2; 0x82; 0xAC; 0x41] false 3 0x20AC);
    [repeat (constructor; [split; reflexivity + lia|]); constructor|reflexivity|discriminate].
Defined.

(** UTF-16 encoding and decoding of the supplementary planes are inverse. *)
Theorem utf16_roundtrip c :
  isSupplementaryCodePoint c = true ->
  let '(high, low) := codePointToUtf16 c in
  isHighSurrogate high = true /\ isLowSurrogate low = true /\ utf16ToCodePoint high low = c.
Proof.
  unfold isSupplementaryCodePoint, codePointToUtf16, isBmpCodePoint, CODE_POINT_MAX. intros H. zbool.
  assert ((0 <=? c) && (c <=? 0xFFFF) = false) as -> by lia.
  rewrite (wrap_small 32 c) by (unfold in_unsigned; lia).
  rewrite (wrap_small 32) by (unfold in_unsigned; lia).
  rewrite (land_ones_mod _ 10), Z.shiftr_div_pow2 by (done || lia). change (2 ^ 10) with 1024.
  rewrite !(wrap_small 16) by (unfold in_unsigned; change (2 ^ 16) with 65536; lia).
  unfold utf16ToCodePoint, isHighSurrogate, isLowSurrogate.
  assert (Hh : (0xD800 <=? (c - 0x10000) / 1024 + 0xD800) && ((c - 0x10000) / 1024 + 0xD800 <=? 0xDBFF) = true) by lia.
  assert (Hl : (0xDC00 <=? (c - 0x10000) mod 1024 + 0xDC00) && ((c - 0x10000) mod 1024 + 0xDC00 <=? 0xDFFF) = true) by lia.
  rewrite Hh, Hl. split_and!; [done..|]. cbn [andb].
  rewrite Z.shiftl_mul_pow2 by lia. change (2 ^ 10) with 1024. lia.
Qed.

Lemma utf16_roundtrip_witness :
  isHighSurrogate 0xD83D = true /\ isLowSurrogate 0xDE00 = true /\
  utf16ToCodePoint 0xD83D 0xDE00 = 0x1F600.
Proof. apply (utf16_roundtrip 0x1F600). reflexivity. Defined.

Ltac Zify.zify_post_hook ::= idtac.
End UnicodeUtil.
