(* ===== verification/StringRef.v ===== *)
(** The operations of StringRefBase (src/misc/string_ref.hpp) the engine uses,
    on a string given as the list of its bytes. *)
From S2P Require Import Prelude.

Module StringRef.

(** [npos], the maximum of size_t. *)
Definition npos : Z := UINT64_MAX.

Fixpoint startsWith (s ref : bytes) {struct ref} : bool :=
  match ref, s with
  | [], _ => true
  | r :: ref', c :: s' => (c =? r) && startsWith s' ref'
  | _ :: _, [] => false
  end.

Definition endsWith (s ref : bytes) : bool :=
  (zlen ref <=? zlen s) && startsWith (drop (length s - length ref) s) ref.

(** memmem from position [pos]: the index of the first occurrence. *)
Fixpoint search (s ref : bytes) (pos : Z) : Z :=
  if startsWith s ref then pos
  else match s with [] => npos | _ :: s' => search s' ref (pos + 1) end.

Definition find (s ref : bytes) (pos : Z) : Z :=
  if zlen s <? pos then npos
  else match ref with
       | [] => pos
       | _ => search (drop (Z.to_nat pos) s) ref pos
       end.

Definition findChar (s : bytes) (ch : Z) (pos : Z) : Z := find s [ch] pos.

Definition substr (s : bytes) (pos size : Z) : bytes :=
  take (Z.to_nat (Z.min (zlen s - pos) size)) (drop (Z.to_nat pos) s).

Definition slice (s : bytes) (startIndex stopIndex : Z) : bytes :=
  substr s startIndex (stopIndex - startIndex).

Definition isAppendable (srcSize maxSize : Z) (out : bytes) : bool :=
  (zlen out <=? maxSize) && (srcSize <=? maxSize - zlen out).

(** [checkedAppend]: [None] when the limit would be exceeded. *)
Definition checkedAppend (ref : bytes) (maxSize : Z) (out : bytes) : option bytes :=
  if isAppendable (zlen ref) maxSize out then Some (out ++ ref) else None.

(** * Properties *)

Lemma startsWith_spec ref : forall s, startsWith s ref = true <-> exists t, s = ref ++ t.
Proof.
  induction ref as [|r ref IH]; intros s; simpl; [split; eauto|].
  destruct s as [|c s]; [split; [done|by intros []]|].
  rewrite andb_true_iff, IH, Z.eqb_eq. split.
  - intros [-> [t ->]]. eauto.
  - intros [t Ht]. simplify_eq. eauto.
Qed.

Lemma endsWith_spec s ref : endsWith s ref = true <-> exists t, s = t ++ ref.
Proof.
  unfold endsWith, zlen. rewrite andb_true_iff, Z.leb_le, startsWith_spec. split.
  - intros [Hl [t Ht]]. exists (take (length s - length ref) s).
    assert (length t = O) as Ht0.
    { apply (f_equal length) in Ht. rewrite length_app, length_drop in Ht. lia. }
    destruct t; [|done]. rewrite app_nil_r in Ht. rewrite <- Ht at 2. by rewrite take_drop.
  - intros [t ->]. rewrite length_app. split; [lia|]. exists [].
    rewrite drop_app_length' by lia. by rewrite app_nil_r.
Qed.

Lemma search_spec s ref : forall pos,
  ref <> [] -> 0 <= pos -> pos + zlen s < npos ->
  (search s ref pos = npos /\ forall k t, drop k s <> ref ++ t) \/
  (exists k t, search s ref pos = pos + Z.of_nat k /\ (k <= length s)%nat /\ drop k s = ref ++ t /\
     forall j u, (j < k)%nat -> drop j s <> ref ++ u).
Proof.
  intros pos Hne. revert pos. induction s as [|c s IH]; intros pos Hp Hl; simpl.
  - destruct ref; [done|]. simpl. left. split; [done|]. intros k t. by rewrite drop_nil.
  - destruct (startsWith (c :: s) ref) eqn:E.
    + apply startsWith_spec in E as [t Ht]. right. exists O, t. split_and!; [lia|lia|done|lia].
    + rewrite zlen_cons in Hl.
      assert (Hno : forall t, c :: s <> ref ++ t).
      { intros t Ht. assert (startsWith (c :: s) ref = true) by (apply startsWith_spec; eauto). congruence. }
      destruct (IH (pos + 1)) as [[-> H]|(k & t & -> & Hk & Hd & Hmin)]; [lia|lia| |].
      * left. split; [done|]. intros [|k] t; simpl; auto.
      * right. exists (S k), t. split_and!; [lia|simpl; lia|done|].
        intros [|j] u Hj; simpl; [auto|]. apply Hmin. lia.
Qed.

Lemma find_spec s ref pos :
  ref <> [] -> 0 <= pos <= zlen s -> zlen s < npos ->
  (find s ref pos = npos /\ forall k t, (Z.to_nat pos <= k)%nat -> drop k s <> ref ++ t) \/
  (exists k t, find s ref pos = Z.of_nat k /\ (Z.to_nat pos <= k <= length s)%nat /\
     drop k s = ref ++ t /\
     forall j u, (Z.to_nat pos <= j < k)%nat -> drop j s <> ref ++ u).
Proof.
  intros Hne Hp Hl. unfold find. destruct (Z.ltb_spec (zlen s) pos); [lia|].
  destruct ref as [|r ref]; [done|].
  assert (Hd : length (drop (Z.to_nat pos) s) = (length s - Z.to_nat pos)%nat) by apply length_drop.
  unfold zlen in *.
  destruct (search_spec (drop (Z.to_nat pos) s) (r :: ref) pos) as [[-> H0]|(k & t & -> & Hk & Ht & Hmin)];
    [done|lia|unfold zlen; lia| |].
  - left. split; [done|]. intros k t Hk.
    specialize (H0 (k - Z.to_nat pos)%nat t). rewrite drop_drop in H0.
    by replace (Z.to_nat pos + (k - Z.to_nat pos))%nat with k in H0 by lia.
  - right. exists (Z.to_nat pos + k)%nat, t. split_and!; [lia|lia|lia|by rewrite <- drop_drop|].
    intros j u Hj. specialize (Hmin (j - Z.to_nat pos)%nat u ltac:(lia)). rewrite drop_drop in Hmin.
    by replace (Z.to_nat pos + (j - Z.to_nat pos))%nat with j in Hmin by lia.
Qed.

(** [find] returns the first occurrence at or after [pos], and [npos] exactly when there is none. *)
Theorem find_correct s ref pos :
  ref <> [] -> 0 <= pos <= zlen s -> zlen s < npos ->
  (find s ref pos = npos /\ forall k t, (Z.to_nat pos <= k)%nat -> drop k s <> ref ++ t) \/
  (exists k t, find s ref pos = Z.of_nat k /\ (Z.to_nat pos <= k <= length s)%nat /\
     drop k s = ref ++ t /\
     forall j u, (Z.to_nat pos <= j < k)%nat -> drop j s <> ref ++ u).
Proof. apply find_spec. Qed.

Lemma find_correct_witness :
  (find (lit "abcabc") (lit "ca") 1 = npos /\
     forall k t, (Z.to_nat 1 <= k)%nat -> drop k (lit "abcabc") <> lit "ca" ++ t) \/
  (exists k t, find (lit "abcabc") (lit "ca") 1 = Z.of_nat k /\
     (Z.to_nat 1 <= k <= length (lit "abcabc"))%nat /\ drop k (lit "abcabc") = lit "ca" ++ t /\
     forall j u, (Z.to_nat 1 <= j < k)%nat -> drop j (lit "abcabc") <> lit "ca" ++ u).
Proof.
  apply (find_correct (lit "abcabc") (lit "ca") 1);
    [discriminate|split; [lia|vm_compute; discriminate]|reflexivity].
Defined.
End StringRef.
