(* ===== verification/RingBuffer.v ===== *)
(** The fixed-capacity ring buffer (src/misc/ring_buffer.hpp): two wrapping
    32-bit indices into a power-of-two storage, its refinement to a bounded
    queue, and the interface its clients are verified against. *)
From S2P Require Import Prelude.

Module RingBuffer.

(** The loop of [alignAllocSize]: the number of significant bits. *)
Fixpoint bitCount (fuel : nat) (cap count : Z) : Z :=
  match fuel with
  | O => count
  | S fuel' => if cap =? 0 then count else bitCount fuel' (Z.shiftr cap 1) (count + 1)
  end.

Definition alignAllocSize (cap : Z) : Z :=
  let cap := if cap =? 0 then 1 else cap in
  Z.shiftl 1 (Z.min (bitCount 32 cap 0) 31).

(** A slot holds a live object or raw storage. *)
Record RingBuffer (T : Type) := {
  frontIndex_ : Z;
  backIndex_ : Z;
  storage_ : list (option T)
}.
Arguments frontIndex_ {T}.
Arguments backIndex_ {T}.
Arguments storage_ {T}.

Section ops.
Context {T : Type}.
Implicit Types (r : RingBuffer T).

Definition make (allocSize : Z) : RingBuffer T :=
  {| frontIndex_ := 0; backIndex_ := 0;
     storage_ := replicate (Z.to_nat (alignAllocSize allocSize)) None |}.

Definition allocSize r : Z := zlen (storage_ r).
Definition capacity r : Z := u32 (allocSize r - 1).
Definition size r : Z := u32 (backIndex_ r - frontIndex_ r).
Definition empty r : bool := size r =? 0.
Definition full r : bool := size r =? capacity r.
Definition actualIndex r (index : Z) : Z := Z.land index (capacity r).

Definition slot r (index : Z) : option T := mjoin (storage_ r !! Z.to_nat (actualIndex r index)).
Definition setSlot r (index : Z) (v : option T) : list (option T) :=
  <[Z.to_nat (actualIndex r index) := v]> (storage_ r).

Definition pop_front r : RingBuffer T :=
  {| frontIndex_ := u32 (frontIndex_ r + 1); backIndex_ := backIndex_ r;
     storage_ := setSlot r (frontIndex_ r) None |}.

Definition pop_back r : RingBuffer T :=
  let b := u32 (backIndex_ r - 1) in
  {| frontIndex_ := frontIndex_ r; backIndex_ := b; storage_ := setSlot r b None |}.

Definition emplace_back r (v : T) : RingBuffer T :=
  let r' := {| frontIndex_ := frontIndex_ r; backIndex_ := u32 (backIndex_ r + 1);
               storage_ := setSlot r (backIndex_ r) (Some v) |} in
  if size r' =? allocSize r' then pop_front r' else r'.

Definition push_back r (v : T) : RingBuffer T := emplace_back r v.

Definition back r : option T := slot r (u32 (backIndex_ r - 1)).
Definition front r : option T := slot r (frontIndex_ r).
Definition at_ r (index : Z) : option T := slot r (u32 (frontIndex_ r + index)).

(** Assignment through [operator[]] and [back()]. *)
Definition set_at r (index : Z) (v : T) : RingBuffer T :=
  {| frontIndex_ := frontIndex_ r; backIndex_ := backIndex_ r;
     storage_ := setSlot r (u32 (frontIndex_ r + index)) (Some v) |}.
Definition set_back r (v : T) : RingBuffer T :=
  {| frontIndex_ := frontIndex_ r; backIndex_ := backIndex_ r;
     storage_ := setSlot r (u32 (backIndex_ r - 1)) (Some v) |}.
End ops.

(** * Refinement to a bounded queue

    [rep k r l]: the storage has [2 ^ k] slots, the live objects are those of
    [l], the front first, and every other slot is raw storage. *)

Section rep.
Context {T : Type}.
Implicit Types (r : RingBuffer T) (l : list T).

Record rep (k : Z) r l : Prop := {
  rep_k : 1 <= k <= 31;
  rep_alloc : zlen (storage_ r) = 2 ^ k;
  rep_front : 0 <= frontIndex_ r < 2 ^ 32;
  rep_back : backIndex_ r = u32 (frontIndex_ r + zlen l);
  rep_size : zlen l <= 2 ^ k - 1;
  rep_slots : forall i, 0 <= i < 2 ^ k -> slot r (frontIndex_ r + i) = l !! Z.to_nat i
}.

(** *** Index arithmetic *)

Lemma pow_k k : 1 <= k <= 31 -> 2 <= 2 ^ k <= 2 ^ 31.
Proof.
  intros Hk. split; [|apply Z.pow_le_mono_r; lia].
  change 2 with (2 ^ 1) at 1. apply Z.pow_le_mono_r; lia.
Qed.

Lemma land_mask k x : 1 <= k <= 31 -> Z.land x (u32 (2 ^ k - 1)) = x mod 2 ^ k.
Proof.
  intros Hk. pose proof (pow_k k Hk). change (2 ^ 31) with 2147483648 in *.
  rewrite wrap_small by (unfold in_unsigned; lia).
  rewrite <- Z.land_ones by lia. f_equal. rewrite Z.ones_equiv. lia.
Qed.

Lemma wrap_mod k x : 1 <= k <= 31 -> u32 x mod 2 ^ k = x mod 2 ^ k.
Proof.
  intros Hk. unfold wrap. apply Z.mod_mod_divide.
  exists (2 ^ (32 - k)). rewrite <- Z.pow_add_r by lia. f_equal. lia.
Qed.

Lemma wrap_add_mod k x y : 1 <= k <= 31 -> (u32 x + y) mod 2 ^ k = (x + y) mod 2 ^ k.
Proof. intros Hk. by rewrite <- (Zplus_mod_idemp_l (u32 x)), wrap_mod, Zplus_mod_idemp_l. Qed.

Lemma wrap_add x y : u32 (u32 x + y) = u32 (x + y).
Proof. unfold wrap. apply Zplus_mod_idemp_l. Qed.

Lemma mod_inj m f i j :
  0 < m -> 0 <= i < m -> 0 <= j < m -> (f + i) mod m = (f + j) mod m -> i = j.
Proof.
  intros Hm Hi Hj E.
  pose proof (Z_div_mod_eq_full (f + i) m) as H1. pose proof (Z_div_mod_eq_full (f + j) m) as H2.
  rewrite E in H1. remember ((f + i) / m) as p. remember ((f + j) / m) as q.
  assert (i - j = m * (p - q)) as D by (rewrite Z.mul_sub_distr_l; lia).
  destruct (Z.lt_trichotomy p q) as [|[->|]]; nia.
Qed.

Lemma actual_mod k r index :
  1 <= k <= 31 -> zlen (storage_ r) = 2 ^ k -> actualIndex r index = index mod 2 ^ k.
Proof. intros Hk Ha. unfold actualIndex, capacity, allocSize. rewrite Ha. by apply land_mask. Qed.

(** A slot after an assignment to another one, or to itself. *)
Lemma slot_set k r f b index v st i :
  1 <= k <= 31 -> zlen (storage_ r) = 2 ^ k -> st = setSlot r index v ->
  slot {| frontIndex_ := f; backIndex_ := b; storage_ := st |} i =
    if i mod 2 ^ k =? index mod 2 ^ k then v else slot r i.
Proof.
  intros Hk Ha ->. pose proof (pow_k k Hk). unfold slot.
  rewrite !(actual_mod k) by (try done; cbn; unfold setSlot, zlen; rewrite length_insert; done).
  cbn. unfold setSlot. rewrite (actual_mod k) by done.
  pose proof (Z.mod_pos_bound i (2 ^ k) ltac:(lia)). pose proof (Z.mod_pos_bound index (2 ^ k) ltac:(lia)).
  unfold zlen in Ha. destruct (Z.eqb_spec (i mod 2 ^ k) (index mod 2 ^ k)) as [->|Hne].
  - rewrite list_lookup_insert, decide_True by lia. by destruct v.
  - rewrite list_lookup_insert_ne by lia. done.
Qed.

Lemma slot_wrap k r i :
  1 <= k <= 31 -> zlen (storage_ r) = 2 ^ k -> slot r (u32 i) = slot r i.
Proof. intros Hk Ha. unfold slot. by rewrite !(actual_mod k), wrap_mod by done. Qed.

Lemma slot_mod k r i j :
  1 <= k <= 31 -> zlen (storage_ r) = 2 ^ k -> i mod 2 ^ k = j mod 2 ^ k -> slot r i = slot r j.
Proof. intros Hk Ha E. unfold slot. by rewrite !(actual_mod k), E by done. Qed.

Lemma setSlot_length r index v : zlen (setSlot r index v) = zlen (storage_ r).
Proof. unfold setSlot, zlen. by rewrite length_insert. Qed.

(** *** The observers *)

Lemma rep_size_eq k r l : rep k r l -> size r = zlen l.
Proof.
  intros [Hk _ Hf Hb Hl _]. pose proof (pow_k k Hk). pose proof (zlen_nonneg l).
  change (2 ^ 31) with 2147483648 in *. unfold size. rewrite Hb. unfold wrap.
  rewrite Zminus_mod_idemp_l. replace (_ - _) with (zlen l) by lia.
  apply Z.mod_small. change (2 ^ 32) with 4294967296. lia.
Qed.

Lemma rep_capacity k r l : rep k r l -> capacity r = 2 ^ k - 1.
Proof.
  intros [Hk Ha _ _ _ _]. pose proof (pow_k k Hk). change (2 ^ 31) with 2147483648 in *.
  unfold capacity, allocSize. rewrite Ha. apply wrap_small. unfold in_unsigned.
  change (2 ^ 32) with 4294967296. lia.
Qed.

Lemma rep_at k r l i : rep k r l -> 0 <= i < 2 ^ k -> at_ r i = l !! Z.to_nat i.
Proof. intros R Hi. unfold at_. rewrite (slot_wrap k) by apply R. by apply R. Qed.

Lemma rep_empty k r l : rep k r l -> empty r = bool_decide (l = []).
Proof.
  intros R. unfold empty. rewrite (rep_size_eq k r l R). unfold zlen. destruct l; [done|].
  rewrite bool_decide_eq_false_2 by done. apply Z.eqb_neq. cbn [length]. lia.
Qed.

Lemma rep_front_eq k r l : rep k r l -> front r = head l.
Proof.
  intros R. unfold front. rewrite <- (Z.add_0_r (frontIndex_ r)), (rep_slots k r l R).
  - by destruct l.
  - pose proof (pow_k k (rep_k k r l R)). lia.
Qed.

Lemma rep_back_eq k r l : rep k r l -> l <> [] -> back r = last l.
Proof.
  intros R Hl. pose proof R as [Hk Ha _ Hb Hs Hsl]. assert (0 < zlen l).
  { unfold zlen. destruct l; [done|cbn]. lia. }
  unfold back. rewrite (slot_wrap k), Hb by done.
  rewrite (slot_mod k r _ (frontIndex_ r + (zlen l - 1))).
  - rewrite Hsl by lia. rewrite last_lookup. f_equal. unfold zlen. lia.
  - done.
  - done.
  - rewrite <- Z.add_opp_r, wrap_add_mod by done. f_equal. lia.
Qed.

(** *** The operations *)

Lemma rep_pop_front k r x l : rep k r (x :: l) -> rep k (pop_front r) l.
Proof.
  intros R. pose proof R as [Hk Ha Hf Hb Hs Hsl]. pose proof (pow_k k Hk).
  rewrite zlen_cons in Hs, Hb. pose proof (zlen_nonneg l).
  unfold pop_front. constructor; cbn -[setSlot slot Z.pow]; try done.
  - by rewrite setSlot_length.
  - apply (wrap_range 32). lia.
  - rewrite Hb. unfold wrap. rewrite Zplus_mod_idemp_l. f_equal. lia.
  - lia.
  - intros i Hi. rewrite (slot_set k r _ _ (frontIndex_ r) None _ _ Hk Ha eq_refl).
    rewrite wrap_add_mod by done.
    destruct (decide (i = 2 ^ k - 1)) as [->|].
    + replace (_ + 1 + _) with (frontIndex_ r + 1 * 2 ^ k) by lia.
      rewrite Z_mod_plus_full, Z.eqb_refl. symmetry. apply lookup_ge_None. unfold zlen in *. lia.
    + destruct (Z.eqb_spec ((frontIndex_ r + 1 + i) mod 2 ^ k) (frontIndex_ r mod 2 ^ k)) as [E|].
      * replace (_ + 1 + i) with (frontIndex_ r + (1 + i)) in E by lia.
        rewrite <- (Z.add_0_r (frontIndex_ r)) in E at 2. apply mod_inj in E; lia.
      * rewrite (slot_mod k r _ (frontIndex_ r + (1 + i))), Hsl; try done; try lia.
        -- rewrite Z2Nat.inj_add by lia. done.
        -- rewrite wrap_add_mod by done. f_equal. lia.
Qed.

Lemma rep_pop_back k r l x : rep k r (l ++ [x]) -> rep k (pop_back r) l.
Proof.
  intros R. pose proof R as [Hk Ha Hf Hb Hs Hsl]. pose proof (pow_k k Hk).
  rewrite zlen_app in Hs, Hb. change (zlen [x]) with 1 in *. pose proof (zlen_nonneg l).
  assert (u32 (backIndex_ r - 1) = u32 (frontIndex_ r + zlen l)) as Hb'.
  { rewrite Hb. unfold wrap. rewrite Zminus_mod_idemp_l. f_equal. lia. }
  unfold pop_back. constructor; cbn -[setSlot slot Z.pow]; try done; try lia.
  - by rewrite setSlot_length.
  - intros i Hi. rewrite (slot_set k r _ _ (u32 (backIndex_ r - 1)) None _ _ Hk Ha eq_refl).
    rewrite Hb', wrap_mod by done.
    destruct (Z.eqb_spec ((frontIndex_ r + i) mod 2 ^ k) ((frontIndex_ r + zlen l) mod 2 ^ k)) as [E|E].
    + apply mod_inj in E; [|lia..]. symmetry. apply lookup_ge_None. unfold zlen in *. lia.
    + rewrite Hsl by lia. destruct (decide (i < zlen l)).
      * rewrite lookup_app_l; [done|]. unfold zlen in *. lia.
      * assert (i <> zlen l) by congruence.
        rewrite !lookup_ge_None_2; [done|..]; rewrite ?length_app; unfold zlen in *; cbn; lia.
Qed.

(** Appending, before the size test. *)
Lemma slots_append k r l v st i :
  rep k r l -> st = setSlot r (backIndex_ r) (Some v) -> 0 <= i < 2 ^ k ->
  slot {| frontIndex_ := frontIndex_ r; backIndex_ := u32 (backIndex_ r + 1); storage_ := st |}
    (frontIndex_ r + i) = (l ++ [v]) !! Z.to_nat i.
Proof.
  intros R -> Hi. pose proof R as [Hk Ha Hf Hb Hs Hsl]. pose proof (zlen_nonneg l).
  rewrite (slot_set k r _ _ (backIndex_ r) (Some v) _ _ Hk Ha eq_refl).
  rewrite Hb, wrap_mod by done.
  destruct (Z.eqb_spec ((frontIndex_ r + i) mod 2 ^ k) ((frontIndex_ r + zlen l) mod 2 ^ k)) as [E|E].
  - apply mod_inj in E; [|lia..]. subst i. rewrite lookup_app_r by (unfold zlen; lia).
    unfold zlen. by rewrite Nat2Z.id, Nat.sub_diag.
  - rewrite Hsl by lia. destruct (decide (i < zlen l)).
    + rewrite lookup_app_l; [done|]. unfold zlen in *. lia.
    + assert (i <> zlen l) by congruence.
      rewrite !lookup_ge_None_2; [done|..]; rewrite ?length_app; unfold zlen in *; cbn; lia.
Qed.

(** The queue after a push: the oldest object leaves a full buffer. *)
Definition pushBounded (cap : Z) l (v : T) : list T :=
  if zlen l <? cap then l ++ [v] else tail l ++ [v].

Lemma rep_push_back k r l v : rep k r l -> rep k (push_back r v) (pushBounded (2 ^ k - 1) l v).
Proof.
  intros R. pose proof R as [Hk Ha Hf Hb Hs Hsl]. pose proof (pow_k k Hk).
  change (2 ^ 31) with 2147483648 in *. pose proof (zlen_nonneg l).
  unfold push_back, emplace_back.
  set (r' := {| frontIndex_ := _; backIndex_ := _; storage_ := _ |}).
  assert (backIndex_ r' = u32 (frontIndex_ r + (zlen l + 1))) as Hb'.
  { cbn. rewrite Hb. unfold wrap. rewrite Zplus_mod_idemp_l. f_equal. lia. }
  assert (allocSize r' = 2 ^ k) as Ha' by (unfold allocSize; cbn; by rewrite setSlot_length).
  assert (size r' = zlen l + 1) as Hsz.
  { unfold size. rewrite Hb'. cbn [frontIndex_ r']. unfold wrap. rewrite Zminus_mod_idemp_l.
    replace (_ - _) with (zlen l + 1) by lia. apply Z.mod_small.
    change (2 ^ 32) with 4294967296. lia. }
  rewrite Hsz, Ha'. unfold pushBounded. destruct (Z.ltb_spec (zlen l) (2 ^ k - 1)).
  - rewrite (proj2 (Z.eqb_neq _ _)) by lia. constructor; try done.
    + rewrite Hb', zlen_app. done.
    + rewrite zlen_app. change (zlen [v]) with 1. lia.
    + intros i Hi. by apply (slots_append k r l v).
  - rewrite (proj2 (Z.eqb_eq _ _)) by lia. destruct l as [|x l]; [unfold zlen in *; cbn in *; lia|].
    cbn [tail]. rewrite zlen_cons in *.
    (* the buffer over capacity, then the pop of the front *)
    assert (forall i, 0 <= i < 2 ^ k -> slot r' (frontIndex_ r + i) = (x :: l ++ [v]) !! Z.to_nat i) as Hsl'.
    { intros i Hi. by apply (slots_append k r (x :: l) v). }
    unfold pop_front. constructor; cbn -[setSlot slot Z.pow r']; try done.
    + rewrite setSlot_length. unfold allocSize in Ha'. done.
    + apply (wrap_range 32). lia.
    + rewrite Hb', zlen_app. change (zlen [v]) with 1. unfold wrap.
      cbn [frontIndex_ r']. rewrite Zplus_mod_idemp_l. f_equal. lia.
    + rewrite zlen_app. change (zlen [v]) with 1. lia.
    + intros i Hi. cbn [frontIndex_ r'].
      rewrite (slot_set k r' _ _ (frontIndex_ r) None _ _ Hk Ha' eq_refl).
      rewrite wrap_add_mod by done.
      destruct (decide (i = 2 ^ k - 1)) as [->|].
      * replace (_ + 1 + _) with (frontIndex_ r + 1 * 2 ^ k) by lia.
        rewrite Z_mod_plus_full, Z.eqb_refl. symmetry. apply lookup_ge_None.
        rewrite length_app. unfold zlen in *. cbn. lia.
      * destruct (Z.eqb_spec ((frontIndex_ r + 1 + i) mod 2 ^ k) (frontIndex_ r mod 2 ^ k)) as [E|].
        -- replace (_ + 1 + i) with (frontIndex_ r + (1 + i)) in E by lia.
           rewrite <- (Z.add_0_r (frontIndex_ r)) in E at 2. apply mod_inj in E; lia.
        -- rewrite (slot_mod k r' _ (frontIndex_ r + (1 + i))), Hsl'; try done; try lia.
           ++ rewrite Z2Nat.inj_add by lia. done.
           ++ rewrite wrap_add_mod by done. f_equal. lia.
Qed.

(** Assignment to a live object. *)
Lemma rep_set k r l i v :
  rep k r l -> 0 <= i < zlen l ->
  rep k {| frontIndex_ := frontIndex_ r; backIndex_ := backIndex_ r;
           storage_ := setSlot r (u32 (frontIndex_ r + i)) (Some v) |} (<[Z.to_nat i := v]> l).
Proof.
  intros R Hi. pose proof R as [Hk Ha Hf Hb Hs Hsl].
  assert (zlen (<[Z.to_nat i := v]> l) = zlen l) as Hz by (unfold zlen; by rewrite length_insert).
  constructor; cbn -[setSlot slot Z.pow]; rewrite ?Hz; try done.
  - by rewrite setSlot_length.
  - intros j Hj. rewrite (slot_set k r _ _ (u32 (frontIndex_ r + i)) (Some v) _ _ Hk Ha eq_refl).
    rewrite wrap_mod by done. unfold zlen in *.
    destruct (Z.eqb_spec ((frontIndex_ r + j) mod 2 ^ k) ((frontIndex_ r + i) mod 2 ^ k)) as [E|E].
    + apply mod_inj in E; [|lia..]. subst j. rewrite list_lookup_insert, decide_True by lia. done.
    + rewrite Hsl, list_lookup_insert_ne by (try done; intros ?; apply E; do 2 f_equal; lia). done.
Qed.

Lemma rep_set_at k r l i v :
  rep k r l -> 0 <= i < zlen l -> rep k (set_at r i v) (<[Z.to_nat i := v]> l).
Proof. apply rep_set. Qed.

Lemma rep_set_back k r l x v : rep k r (l ++ [x]) -> rep k (set_back r v) (l ++ [v]).
Proof.
  intros R. pose proof (zlen_nonneg l). pose proof (rep_back k r _ R) as Hb.
  rewrite zlen_app in Hb. change (zlen [x]) with 1 in Hb. unfold set_back. rewrite Hb.
  replace (u32 (u32 _ - 1)) with (u32 (frontIndex_ r + zlen l)).
  - pose proof (rep_set k r _ (zlen l) v R) as R'. rewrite Hb in R'.
    replace (<[Z.to_nat (zlen l) := v]> (l ++ [x])) with (l ++ [v]) in R'.
    + apply R'. rewrite zlen_app. change (zlen [x]) with 1. lia.
    + unfold zlen. rewrite Nat2Z.id. replace (length l) with (length l + 0)%nat by lia.
      by rewrite insert_app_r.
  - unfold wrap. rewrite Zminus_mod_idemp_l. f_equal. lia.
Qed.
End rep.

(** *** Allocation *)

Lemma bitCount_log2 fuel : forall cap count,
  0 < cap < 2 ^ Z.of_nat fuel -> bitCount fuel cap count = count + Z.log2 cap + 1.
Proof.
  induction fuel as [|fuel IH]; intros cap count Hc.
  { change (2 ^ Z.of_nat 0) with 1 in Hc. lia. }
  cbn [bitCount]. rewrite (proj2 (Z.eqb_neq cap 0)) by lia. rewrite Z.shiftr_div_pow2 by lia.
  change (2 ^ 1) with 2. pose proof (Z.div_mod cap 2 ltac:(lia)) as D.
  pose proof (Z.mod_pos_bound cap 2 ltac:(lia)). remember (cap / 2) as q. remember (cap mod 2) as m.
  destruct (Z.eq_dec q 0) as [->|].
  - assert (cap = 1) as -> by lia. change (Z.log2 1) with 0. destruct fuel; cbn; lia.
  - rewrite Nat2Z.inj_succ, Z.pow_succ_r in Hc by lia. rewrite IH by lia.
    assert (Z.log2 cap = 1 + Z.log2 q) as ->; [|lia].
    pose proof (Z.log2_spec q ltac:(lia)) as [L1 L2]. pose proof (Z.log2_nonneg q).
    rewrite Z.pow_succ_r in L2 by lia.
    apply Z.log2_unique; [lia|].
    rewrite !Z.pow_succ_r, Z.add_comm, Z.pow_add_r by lia. change (2 ^ 1) with 2. lia.
Qed.

(** The exponent of the storage size. *)
Definition allocExp (cap : Z) : Z := Z.min (Z.log2 (if cap =? 0 then 1 else cap) + 1) 31.

Lemma alignAllocSize_exp cap : 0 <= cap < 2 ^ 32 -> alignAllocSize cap = 2 ^ allocExp cap.
Proof.
  intros Hc. unfold alignAllocSize, allocExp. set (c := if cap =? 0 then 1 else cap).
  assert (0 < c < 2 ^ 32) by (unfold c; destruct (Z.eqb_spec cap 0); lia).
  rewrite (bitCount_log2 32 c 0) by (change (Z.of_nat 32) with 32; lia).
  rewrite Z.shiftl_1_l. f_equal.
Qed.

Lemma allocExp_range cap : 0 <= cap -> 1 <= allocExp cap <= 31.
Proof.
  intros Hc. unfold allocExp. pose proof (Z.log2_nonneg (if cap =? 0 then 1 else cap)). lia.
Qed.

Lemma rep_make {T} cap : 0 <= cap < 2 ^ 32 -> rep (allocExp cap) (make (T := T) cap) [].
Proof.
  intros Hc. pose proof (allocExp_range cap ltac:(lia)) as Hk. pose proof (pow_k _ Hk).
  assert (zlen (replicate (Z.to_nat (alignAllocSize cap)) (@None T)) = 2 ^ allocExp cap) as Ha.
  { unfold zlen. rewrite length_replicate, alignAllocSize_exp by done. lia. }
  constructor; cbn -[slot Z.pow]; try done.
  - change (zlen (@nil T)) with 0. lia.
  - intros i Hi. unfold slot. destruct (_ !! _) as [o|] eqn:E; [|done]. cbn in E.
    apply lookup_replicate in E as [-> _]. done.
Qed.

(** *** Sequences of operations *)

Inductive Op (T : Type) := Push (v : T) | PopBack | PopFront.
Arguments Push {T}.
Arguments PopBack {T}.
Arguments PopFront {T}.

Definition exec {T} (r : RingBuffer T) (op : Op T) : RingBuffer T :=
  match op with Push v => push_back r v | PopBack => pop_back r | PopFront => pop_front r end.

(** The specification: [None] when an empty queue is popped. *)
Definition specOp {T} (cap : Z) (l : list T) (op : Op T) : option (list T) :=
  match op with
  | Push v => Some (pushBounded cap l v)
  | PopBack => match l with [] => None | _ => Some (removelast l) end
  | PopFront => match l with [] => None | _ :: rest => Some rest end
  end.

Fixpoint specOps {T} (cap : Z) (l : list T) (ops : list (Op T)) : option (list T) :=
  match ops with
  | [] => Some l
  | op :: rest => l ← specOp cap l op; specOps cap l rest
  end.

Lemma rep_exec {T} k (r : RingBuffer T) l op l' :
  rep k r l -> specOp (2 ^ k - 1) l op = Some l' -> rep k (exec r op) l'.
Proof.
  intros R. destruct op as [v| |]; cbn [specOp exec].
  - intros [= <-]. by apply rep_push_back.
  - destruct l as [|x l]; [done|]. intros [= <-].
    rewrite (app_removelast_last x (l := x :: l)) in R by done. by apply rep_pop_back in R.
  - destruct l as [|x l]; [done|]. intros [= <-]. by apply rep_pop_front in R.
Qed.

(** C20: Any sequence of pushes and pops on a buffer made for [cap] objects is the
    same sequence on a queue that keeps at least [cap] objects and forgets the
    oldest one when it is full: the sizes, the elements by index, the front and
    the back are the queue's, whatever the wrap-around of the indices. *)
Theorem ring_buffer_refines {T} cap (ops : list (Op T)) l :
  0 <= cap < 2 ^ 31 ->
  let k := allocExp cap in
  specOps (2 ^ k - 1) [] ops = Some l ->
  let r := fold_left exec ops (make cap) in
  cap <= capacity r /\ size r = zlen l /\ front r = head l /\ (l <> [] -> back r = last l) /\
  forall i, 0 <= i < zlen l -> at_ r i = l !! Z.to_nat i.
Proof.
  intros Hc k Hops r.
  assert (forall (ops : list (Op T)) l r0 l0, rep k r0 l0 -> specOps (2 ^ k - 1) l0 ops = Some l ->
            rep k (fold_left exec ops r0) l) as Hrun.
  { clear. induction ops as [|op ops IH]; cbn; intros l r0 l0 R E; [by simplify_eq|].
    destruct (specOp (2 ^ k - 1) l0 op) as [l1|] eqn:E1; [|done]. cbn in E.
    eapply IH; [|done]. by eapply rep_exec. }
  assert (rep k r l) as R by (apply (Hrun ops l _ []); [apply rep_make; lia|done]).
  split; [|split; [|split; [|split]]].
  - rewrite (rep_capacity k r l R). unfold k, allocExp. destruct (Z.eqb_spec cap 0) as [->|]; [done|].
    pose proof (Z.log2_spec cap ltac:(lia)) as [_ L].
    assert (Z.log2 cap < 31) by (apply Z.log2_lt_pow2; lia).
    rewrite Z.min_l by lia. rewrite Z.add_1_r. lia.
  - by apply (rep_size_eq k).
  - by apply (rep_front_eq k).
  - by apply (rep_back_eq k).
  - intros i Hi. apply (rep_at k); [done|]. pose proof (rep_size k r l R). lia.
Qed.

Lemma ring_buffer_refines_witness :
  let r := fold_left exec [Push 1; Push 2; Push 3; Push 4; PopFront; Push 5; PopBack] (make 2) in
  2 <= capacity r /\ size r = 2 /\ front r = Some 3 /\ ([3; 4] <> [] -> back r = Some 4) /\
  forall i, 0 <= i < 2 -> at_ r i = [3; 4] !! Z.to_nat i.
Proof.
  exact (ring_buffer_refines 2 [Push 1; Push 2; Push 3; Push 4; PopFront; Push 5; PopBack] [3; 4]
           ltac:(lia) ltac:(vm_compute; reflexivity)).
Defined.

End RingBuffer.
