(* ===== verification/Brace.v ===== *)
(** Sequence-style brace expansion (src/brace.h, src/brace.cpp): the range of
    [{begin..end..step}], its padding, and the iteration over its values. *)
From S2P Require Import Prelude NumUtil StringRef.

Module Brace.
Import NumUtil.

(** *** Decimal output (std::to_string, countDigits of src/misc/format.hpp) *)

(** The digits of a natural number; [fuel] bounds their number. *)
Fixpoint decimalDigits (fuel : nat) (n : Z) : bytes :=
  match fuel with
  | O => []
  | S fuel' => if n <? 10 then [48 + n] else decimalDigits fuel' (n / 10) ++ [48 + n mod 10]
  end.

(** [std::to_string] of a 64-bit integer: at most 20 digits. *)
Definition toString (v : Z) : bytes :=
  if v <? 0 then 45 :: decimalDigits 20 (- v) else decimalDigits 20 v.

Fixpoint countLoop (fuel : nat) (n c : Z) : Z :=
  match fuel with
  | O => c
  | S fuel' => if 0 <? n then countLoop fuel' (n / 10) (c + 1) else c
  end.

Definition countDigits (n : Z) : Z := if n =? 0 then 1 else countLoop 20 n 0.

(** *** Integers of a range *)

Record BraceInt := {
  biValue : Z;
  biDigits : Z;  (* if no-padding, it is 0 *)
  biOk : bool
}.

(** Drops the zeros but the last character, counting them. *)
Fixpoint dropZeros (ref : bytes) (digits : Z) : Z * bytes :=
  match ref with
  | c :: ((_ :: _) as rest) => if c =? 48 then dropZeros rest (digits + 1) else (digits, ref)
  | _ => (digits, ref)
  end.

Definition LIMIT : Z := INT64_MAX + 1.

Definition toBraceInt (ref : bytes) : BraceInt :=
  let '(negate, ref) :=
    match ref with
    | c :: rest => if c =? 43 then (false, rest) else if c =? 45 then (true, rest) else (false, ref)
    | [] => (false, ref)
    end in
  let '(digits, ref) := dropZeros ref 0 in
  let r := convertToNum10 64 ref in
  let '(ok, v) :=
    if decide (kind r = OK) then
      if negate then
        if value r <? LIMIT then (true, -1 * i64 (value r))
        else if value r =? LIMIT then (true, INT64_MIN) else (false, 0)
      else if value r <? LIMIT then (true, i64 (value r)) else (false, 0)
    else (false, 0) in
  {| biValue := v;
     biDigits :=
       if ok && (0 <? digits)
       then digits + countDigits (if v =? INT64_MIN then INT64_MAX else Z.abs v) +
            (if negate then 1 else 0)
       else digits;
     biOk := ok |}.

(** In 128-bit arithmetic, which does not overflow here. *)
Definition toReversedBegin (begin end_ step : Z) : Z :=
  let diff := end_ - begin in
  let n := Z.quot diff step in
  begin + n * step.

(** *** The range *)

Inductive Kind := CHAR | INT | UNINIT_CHAR | UNINIT_INT | OUT_OF_RANGE | OUT_OF_RANGE_STEP.

#[export] Instance Kind_eq_dec : EqDecision Kind.
Proof. solve_decision. Defined.

Record BraceRange := {
  begin_ : Z;  (* inclusive *)
  end_ : Z;    (* inclusive *)
  step : Z;
  digits : Z;  (* if 0, no-padding *)
  rangeKind : Kind
}.

Definition hasError (r : BraceRange) : bool :=
  match rangeKind r with OUT_OF_RANGE | OUT_OF_RANGE_STEP => true | _ => false end.

Definition withKind (r : BraceRange) (k : Kind) : BraceRange :=
  {| begin_ := begin_ r; end_ := end_ r; step := step r; digits := digits r; rangeKind := k |}.

(** The split by [..]: begin, end, step. *)
Definition splitRange (ref : bytes) : bytes * bytes * bytes :=
  let pos := StringRef.find ref (lit "..") 0 in
  let begin := StringRef.slice ref 0 pos in
  let end_ := StringRef.substr ref (pos + 2) StringRef.npos in
  let pos := StringRef.find end_ (lit "..") 0 in
  if pos =? StringRef.npos then (begin, end_, [])
  else (begin, StringRef.slice end_ 0 pos, StringRef.substr end_ (pos + 2) StringRef.npos).

(** begin..end: the range so far, or the part in error. *)
Definition rangeBounds (begin end_ : bytes) (isChar : bool) : bytes + BraceRange :=
  if isChar then
    inr {| begin_ := nth 0 begin 0; end_ := nth 0 end_ 0; step := 1; digits := 0; rangeKind := CHAR |}
  else
    let ret1 := toBraceInt begin in
    let ret2 := toBraceInt end_ in
    if negb (biOk ret1) then inl begin
    else if negb (biOk ret2) then inl end_
    else
      let pad1 := 0 <? biDigits ret1 in
      let pad2 := 0 <? biDigits ret2 in
      let d1 := if negb pad1 && pad2 then zlen (toString (biValue ret1)) else biDigits ret1 in
      let d2 := if pad1 && negb pad2 then zlen (toString (biValue ret2)) else biDigits ret2 in
      inr {| begin_ := biValue ret1; end_ := biValue ret2; step := 1; digits := Z.max d1 d2;
             rangeKind := INT |}.

(** The step, when there is one. *)
Definition applyStep (r : BraceRange) (stepRef : bytes) : BraceRange * bytes :=
  match stepRef with
  | [] => (r, [])
  | _ =>
      let ret := toBraceInt stepRef in
      if negb (biOk ret) then (withKind r OUT_OF_RANGE_STEP, stepRef)
      else
        let v := biValue ret in
        if v =? 0 then
          ({| begin_ := begin_ r; end_ := end_ r; step := 1; digits := digits r;
              rangeKind := rangeKind r |}, [])
        else if v =? INT64_MIN then (withKind r OUT_OF_RANGE_STEP, stepRef)
        else if v <? 0 then
          ({| begin_ := toReversedBegin (begin_ r) (end_ r) (Z.abs v); end_ := begin_ r;
              step := Z.abs v; digits := digits r; rangeKind := rangeKind r |}, [])
        else
          ({| begin_ := begin_ r; end_ := end_ r; step := v; digits := digits r;
              rangeKind := rangeKind r |}, [])
  end.

(** The range and the [error] string. *)
Definition toBraceRange (ref : bytes) (isChar : bool) : BraceRange * bytes :=
  let '(begin, end_, stepRef) := splitRange ref in
  match rangeBounds begin end_ isChar with
  | inl error =>
      ({| begin_ := 0; end_ := 0; step := 1; digits := 0; rangeKind := OUT_OF_RANGE |}, error)
  | inr r => applyStep r stepRef
  end.

(** *** Values *)

Definition formatSeqValue (v digits : Z) (isChar : bool) : bytes :=
  if isChar then [u8 v]
  else
    let value := toString v in
    if digits =? 0 then value
    else
      let tmp := replicate (Z.to_nat (digits - zlen value)) 48 in
      if v <? 0 then take 1 value ++ tmp ++ drop 1 value else tmp ++ value.

(** The next value, [None] for [false]. *)
Definition tryUpdateSeqValue (cur : Z) (range : BraceRange) : option Z :=
  if begin_ range <=? end_ range then
    let '(o, ret) := sadd_overflow 64 cur (step range) in
    if o then None else if end_ range <? ret then None else Some ret
  else
    let '(o, ret) := ssub_overflow 64 cur (step range) in
    if o then None else if ret <? end_ range then None else Some ret.

(** The loop of the callers: the values from [cur] on. *)
Fixpoint seqValues (fuel : nat) (cur : Z) (range : BraceRange) : list Z :=
  match fuel with
  | O => []
  | S fuel' =>
      cur :: match tryUpdateSeqValue cur range with
             | Some next => seqValues fuel' next range
             | None => []
             end
  end.

(** * Properties *)

(** *** Decimal digits *)

Lemma decimalDigits_length fuel : forall n, 0 <= n < 10 ^ Z.of_nat fuel -> (0 < fuel)%nat ->
  zlen (decimalDigits fuel n) = if n =? 0 then 1 else countLoop fuel n 0.
Proof.
  assert (forall f n c, countLoop f n c = c + countLoop f n 0) as Hc.
  { induction f as [|f IH]; intros n c; cbn [countLoop]; [lia|].
    destruct (0 <? n); [|lia]. rewrite IH, (IH _ (0 + 1)). lia. }
  induction fuel as [|fuel IH]; intros n Hn Hf; [lia|]. cbn [decimalDigits countLoop].
  rewrite Nat2Z.inj_succ, Z.pow_succ_r in Hn by lia.
  pose proof (Z.div_mod n 10 ltac:(lia)) as D. pose proof (Z.mod_pos_bound n 10 ltac:(lia)).
  destruct (Z.ltb_spec n 10).
  - destruct (Z.eqb_spec n 0) as [->|]; [done|]. rewrite (proj2 (Z.ltb_lt 0 n)) by lia.
    rewrite Z.div_small by lia. by destruct fuel.
  - rewrite (proj2 (Z.eqb_neq n 0)), (proj2 (Z.ltb_lt 0 n)) by lia.
    destruct fuel as [|fuel']; [change (10 ^ Z.of_nat 0) with 1 in Hn; lia|].
    rewrite zlen_app, IH by lia. rewrite (proj2 (Z.eqb_neq (n / 10) 0)) by lia.
    rewrite (Hc _ _ (0 + 1)). change (zlen [48 + n mod 10]) with 1. lia.
Qed.

Lemma countDigits_length n : 0 <= n < 10 ^ 20 -> zlen (decimalDigits 20 n) = countDigits n.
Proof. intros Hn. rewrite decimalDigits_length by lia. done. Qed.

Lemma countDigits_mono n m : 0 <= n <= m -> m < 10 ^ 20 -> countDigits n <= countDigits m.
Proof.
  intros Hn Hm. rewrite <- !countDigits_length by lia.
  assert (forall f n m, 0 <= n <= m -> zlen (decimalDigits f n) <= zlen (decimalDigits f m)) as Hf; [|auto].
  clear. induction f as [|f IH]; intros n m Hn; cbn [decimalDigits]; [done|].
  destruct (Z.ltb_spec n 10), (Z.ltb_spec m 10); try lia; try done.
  - rewrite zlen_app. change (zlen [48 + n]) with 1. change (zlen [48 + m mod 10]) with 1. pose proof (zlen_nonneg (decimalDigits f (m / 10))). lia.
  - rewrite !zlen_app. change (zlen [48 + n mod 10]) with 1. change (zlen [48 + m mod 10]) with 1.
    assert (0 <= n / 10 <= m / 10) by (split; [apply Z.div_pos; lia|apply Z.div_le_mono; lia]).
    specialize (IH _ _ H1). lia.
Qed.

Lemma digitsValue_app a b acc : digitsValue 10 acc (a ++ b) =
  match digitsValue 10 acc a with Some acc' => digitsValue 10 acc' b | None => None end.
Proof.
  revert acc. induction a as [|c a IH]; intros acc; [done|]. cbn [app digitsValue].
  destruct (digitValue c) as [v|]; [|done]. destruct (10 <=? v); [done|]. apply IH.
Qed.

Lemma digitValue_digit d : 0 <= d < 10 -> digitValue (48 + d) = Some d.
Proof.
  intros Hd. unfold digitValue. rewrite (proj2 (andb_true_iff _ _)); [f_equal; lia|]. lia.
Qed.

(** Reading the printed digits gives the number back. *)
Lemma decimalDigits_value fuel : forall n, 0 <= n < 10 ^ Z.of_nat fuel ->
  digitsValue 10 0 (decimalDigits fuel n) = Some n.
Proof.
  induction fuel as [|fuel IH]; intros n Hn; cbn [decimalDigits].
  { change (10 ^ Z.of_nat 0) with 1 in Hn. cbn. f_equal. lia. }
  rewrite Nat2Z.inj_succ, Z.pow_succ_r in Hn by lia.
  pose proof (Z.div_mod n 10 ltac:(lia)) as D. pose proof (Z.mod_pos_bound n 10 ltac:(lia)).
  destruct (Z.ltb_spec n 10).
  - cbn [digitsValue]. rewrite digitValue_digit by lia. rewrite (proj2 (Z.leb_gt 10 n)) by lia. done.
  - rewrite digitsValue_app, IH by lia. cbn [digitsValue]. rewrite digitValue_digit by lia.
    rewrite (proj2 (Z.leb_gt _ _)) by lia. f_equal. lia.
Qed.

Lemma decimalDigits_head fuel : forall n, 0 <= n -> (0 < fuel)%nat ->
  exists c l, decimalDigits fuel n = c :: l /\ 48 <= c <= 57 /\ (0 < n < 10 ^ Z.of_nat fuel -> c <> 48).
Proof.
  induction fuel as [|fuel IH]; intros n Hn Hf; [lia|]. cbn [decimalDigits].
  pose proof (Z.div_mod n 10 ltac:(lia)) as D. pose proof (Z.mod_pos_bound n 10 ltac:(lia)).
  destruct (Z.ltb_spec n 10); [exists (48 + n), []; repeat split; lia|].
  rewrite Nat2Z.inj_succ, Z.pow_succ_r by lia.
  destruct fuel as [|fuel'].
  { exists (48 + n mod 10), []. change (10 ^ Z.of_nat 0) with 1. repeat split; lia. }
  destruct (IH (n / 10)) as (c & l & -> & Hc & Hc0); [lia..|].
  exists c, (l ++ [48 + n mod 10]). split; [done|]. split; [done|]. intros Hn'. apply Hc0. lia.
Qed.

(** *** Reading an integer *)

Lemma dropZeros_decimal n : 0 <= n < 10 ^ 20 ->
  dropZeros (decimalDigits 20 n) 0 = (0, decimalDigits 20 n).
Proof.
  intros Hn. destruct (Z.eq_dec n 0) as [->|]; [done|].
  destruct (decimalDigits_head 20 n) as (c & l & -> & Hc & H0); [lia..|].
  change (Z.of_nat 20) with 20 in H0. cbn [dropZeros]. destruct l; [done|].
  rewrite (proj2 (Z.eqb_neq c 48)) by (apply H0; lia). done.
Qed.

Lemma convert_decimal n : 0 <= n < 2 ^ 64 ->
  kind (convertToNum10 64 (decimalDigits 20 n)) = OK /\
  value (convertToNum10 64 (decimalDigits 20 n)) = n.
Proof.
  intros Hn. change (2 ^ 64) with 18446744073709551616 in *.
  destruct (decimalDigits_head 20 n) as (c & l & E & Hc & _); [lia..|].
  unfold convertToNum10. apply parseInteger_ok; try lia.
  - by rewrite E.
  - rewrite E. cbn. intros [= ->]. lia.
  - apply decimalDigits_value. change (10 ^ Z.of_nat 20) with 100000000000000000000. lia.
Qed.

Lemma i64_small v : - 2 ^ 63 <= v < 2 ^ 63 -> i64 v = v.
Proof. intros Hv. apply swrap_small; [lia|]. exact Hv. Qed.

(** A printed 64-bit integer is read back as itself, without padding. *)
Theorem brace_int_roundtrip v :
  - 2 ^ 63 <= v < 2 ^ 63 -> toBraceInt (toString v) = {| biValue := v; biDigits := 0; biOk := true |}.
Proof.
  change (2 ^ 63) with 9223372036854775808. intros Hv.
  assert (10 ^ 20 = 100000000000000000000) as H20 by done.
  unfold toBraceInt, toString. destruct (Z.ltb_spec v 0).
  - cbn [Z.eqb Pos.eqb]. rewrite dropZeros_decimal by lia.
    destruct (convert_decimal (- v)) as [K V]; [change (2 ^ 64) with 18446744073709551616; lia|].
    rewrite decide_True by done. rewrite V. change LIMIT with 9223372036854775808.
    destruct (Z.ltb_spec (- v) 9223372036854775808).
    + rewrite i64_small by (change (2 ^ 63) with 9223372036854775808; lia).
      cbn. f_equal. lia.
    + rewrite (proj2 (Z.eqb_eq _ _)) by lia. assert (v = INT64_MIN) as -> by (unfold INT64_MIN; lia). done.
  - destruct (decimalDigits_head 20 v) as (c & l & E & Hc & _); [lia..|]. rewrite E.
    rewrite (proj2 (Z.eqb_neq c 43)), (proj2 (Z.eqb_neq c 45)) by lia. rewrite <- E.
    rewrite dropZeros_decimal by lia.
    destruct (convert_decimal v) as [K V]; [change (2 ^ 64) with 18446744073709551616; lia|].
    rewrite decide_True by done. rewrite V. change LIMIT with 9223372036854775808.
    rewrite (proj2 (Z.ltb_lt v _)) by lia.
    rewrite i64_small by (change (2 ^ 63) with 9223372036854775808; lia). done.
Qed.

Lemma brace_int_roundtrip_witness :
  - 2 ^ 63 <= -42 < 2 ^ 63 /\
  toBraceInt (toString (-42)) = {| biValue := -42; biDigits := 0; biOk := true |}.
Proof. split; [lia|]. apply brace_int_roundtrip. lia. Defined.

(** The width of a printed integer. *)
Lemma toString_length v : - 2 ^ 63 <= v < 2 ^ 63 ->
  zlen (toString v) = countDigits (Z.abs v) + (if v <? 0 then 1 else 0).
Proof.
  change (2 ^ 63) with 9223372036854775808. intros Hv.
  assert (10 ^ 20 = 100000000000000000000) as H20 by done.
  unfold toString. destruct (Z.ltb_spec v 0).
  - rewrite zlen_cons, countDigits_length by lia. rewrite Z.abs_neq by lia. lia.
  - rewrite countDigits_length by lia. rewrite Z.abs_eq by lia. lia.
Qed.

Lemma toString_length_pos v : - 2 ^ 63 <= v < 2 ^ 63 -> 0 < zlen (toString v).
Proof.
  change (2 ^ 63) with 9223372036854775808. intros Hv. unfold toString.
  destruct (Z.ltb_spec v 0); [rewrite zlen_cons; pose proof (zlen_nonneg (decimalDigits 20 (- v))); lia|].
  destruct (decimalDigits_head 20 v) as (c & l & -> & _); [lia..|].
  rewrite zlen_cons. pose proof (zlen_nonneg l). lia.
Qed.

(** Between two integers, no printed value is wider than both. *)
Lemma toString_between a b v :
  - 2 ^ 63 <= a < 2 ^ 63 -> - 2 ^ 63 <= b < 2 ^ 63 -> Z.min a b <= v <= Z.max a b ->
  zlen (toString v) <= Z.max (zlen (toString a)) (zlen (toString b)).
Proof.
  assert (10 ^ 20 = 100000000000000000000) as H20 by done.
  intros Ha Hb Hv. rewrite !toString_length by lia.
  change (2 ^ 63) with 9223372036854775808 in *.
  destruct (Z.ltb_spec v 0).
  - assert (exists m, (m = a \/ m = b) /\ m <= v) as (m & Hm & Hle).
    { destruct (Z.min_spec a b) as [[? E]|[? E]]; [exists a|exists b]; split; auto; lia. }
    pose proof (countDigits_mono (Z.abs v) (Z.abs m) ltac:(lia) ltac:(lia)).
    destruct Hm as [-> | ->]; [destruct (Z.ltb_spec a 0)|destruct (Z.ltb_spec b 0)]; lia.
  - assert (exists m, (m = a \/ m = b) /\ v <= m) as (m & Hm & Hle).
    { destruct (Z.max_spec a b) as [[? E]|[? E]]; [exists b|exists a]; split; auto; lia. }
    pose proof (countDigits_mono (Z.abs v) (Z.abs m) ltac:(lia) ltac:(lia)).
    destruct Hm as [-> | ->]; repeat case_on; lia.
Qed.

Lemma dropZeros_nonneg ref : forall d, 0 <= d -> 0 <= fst (dropZeros ref d).
Proof.
  induction ref as [|c ref IH]; intros d Hd; [done|]. cbn [dropZeros].
  destruct ref as [|c' ref]; [done|]. destruct (c =? 48); [|done]. apply IH. lia.
Qed.

(** An accepted integer is a 64-bit value, and its padding has room for it. *)
Lemma toBraceInt_ok ref : biOk (toBraceInt ref) = true ->
  let r := toBraceInt ref in
  - 2 ^ 63 <= biValue r < 2 ^ 63 /\ (0 <= biDigits r) /\
  (0 < biDigits r -> zlen (toString (biValue r)) <= biDigits r).
Proof.
  assert (10 ^ 20 = 100000000000000000000) as H20 by done.
  unfold toBraceInt. destruct (match ref with [] => _ | _ => _ end) as [negate ref1].
  pose proof (dropZeros_nonneg ref1 0 ltac:(lia)) as Hd.
  destruct (dropZeros ref1 0) as [d ref2]. cbn [fst] in Hd.
  pose proof (parseInteger_range 64 ref2 10 ltac:(lia)) as Hr. unfold in_unsigned in Hr.
  fold (convertToNum10 64 ref2) in Hr. set (n := value (convertToNum10 64 ref2)) in *.
  change (2 ^ 64) with 18446744073709551616 in Hr.
  assert (forall v (neg : bool), - 2 ^ 63 <= v < 2 ^ 63 -> (v < 0 -> neg = true) ->
    let dg := if true && (0 <? d)
              then d + countDigits (if v =? INT64_MIN then INT64_MAX else Z.abs v) + (if neg then 1 else 0)
              else d in
    0 <= dg /\ (0 < dg -> zlen (toString v) <= dg)) as Hdg.
  { intros v neg Hv Hneg. cbn zeta. cbn [andb]. destruct (Z.ltb_spec 0 d); [|lia].
    rewrite toString_length by done. change (2 ^ 63) with 9223372036854775808 in Hv.
    assert (countDigits (Z.abs v) <= countDigits (if v =? INT64_MIN then INT64_MAX else Z.abs v)) as Hc.
    { destruct (Z.eqb_spec v INT64_MIN) as [->|]; [done|]. lia. }
    assert (0 <= countDigits (Z.abs v)).
    { rewrite <- countDigits_length by lia. apply zlen_nonneg. }
    destruct (Z.ltb_spec v 0); [rewrite Hneg by lia|destruct neg]; lia. }
  change LIMIT with 9223372036854775808. change (2 ^ 63) with 9223372036854775808 in *.
  destruct (decide _) as [_|_]; [|done]. destruct negate.
  - destruct (Z.ltb_spec n 9223372036854775808).
    + intros _. rewrite i64_small by (change (2 ^ 63) with 9223372036854775808; lia).
      cbn zeta. cbn [biValue biDigits]. split; [lia|]. apply (Hdg (-1 * n) true); [lia|intros _; reflexivity].
    + destruct (Z.eqb_spec n 9223372036854775808); [|done]. intros _. cbn zeta. cbn [biValue biDigits]. split; [unfold INT64_MIN; lia|].
      apply (Hdg INT64_MIN true); [unfold INT64_MIN; lia|intros _; reflexivity].
  - destruct (Z.ltb_spec n 9223372036854775808); [|done]. intros _.
    rewrite i64_small by (change (2 ^ 63) with 9223372036854775808; lia).
    cbn zeta. cbn [biValue biDigits]. split; [lia|]. apply (Hdg n false); lia.
Qed.

(** *** The sequence *)

(** The value [i] steps from [cur], in the direction of the range. *)
Definition stepped (range : BraceRange) (cur i : Z) : Z :=
  if begin_ range <=? end_ range then cur + i * step range else cur - i * step range.

Lemma tryUpdate_spec range cur :
  - 2 ^ 63 <= end_ range < 2 ^ 63 -> - 2 ^ 63 <= cur < 2 ^ 63 -> 0 < step range < 2 ^ 63 ->
  (if begin_ range <=? end_ range then cur <= end_ range else end_ range <= cur) ->
  tryUpdateSeqValue cur range =
    if Z.abs (end_ range - cur) <? step range then None else Some (stepped range cur 1).
Proof.
  intros He Hc Hs Hdir. unfold tryUpdateSeqValue, stepped, sadd_overflow, ssub_overflow, signed_overflow.
  change (2 ^ (64 - 1)) with (2 ^ 63).
  destruct (begin_ range <=? end_ range).
  - destruct (Z.ltb_spec (cur + step range) (- 2 ^ 63)); [lia|]. cbn [orb].
    destruct (Z.leb_spec (2 ^ 63) (cur + step range)).
    { rewrite (proj2 (Z.ltb_lt _ _)) by lia. done. }
    rewrite (i64_small (cur + step range)) by lia. rewrite Z.mul_1_l.
    destruct (Z.ltb_spec (end_ range) (cur + step range)), (Z.ltb_spec (Z.abs (end_ range - cur)) (step range));
      try lia; done.
  - destruct (Z.leb_spec (2 ^ 63) (cur - step range)); [lia|]. rewrite orb_false_r.
    destruct (Z.ltb_spec (cur - step range) (- 2 ^ 63)).
    { rewrite (proj2 (Z.ltb_lt _ _)) by lia. done. }
    rewrite (i64_small (cur - step range)) by lia. rewrite Z.mul_1_l.
    destruct (Z.ltb_spec (cur - step range) (end_ range)), (Z.ltb_spec (Z.abs (end_ range - cur)) (step range));
      try lia; done.
Qed.

Lemma seqValues_from range n : forall cur fuel,
  - 2 ^ 63 <= end_ range < 2 ^ 63 -> - 2 ^ 63 <= cur < 2 ^ 63 -> 0 < step range < 2 ^ 63 ->
  (if begin_ range <=? end_ range then cur <= end_ range else end_ range <= cur) ->
  Z.abs (end_ range - cur) / step range = Z.of_nat n -> (n < fuel)%nat ->
  seqValues fuel cur range = map (fun i => stepped range cur (Z.of_nat i)) (seq 0 (S n)).
Proof.
  induction n as [|n IH]; intros cur fuel He Hc Hs Hdir Hn Hf;
    (destruct fuel as [|fuel]; [lia|]); cbn [seqValues]; rewrite tryUpdate_spec by done.
  - apply Z.div_small_iff in Hn; [|lia]. rewrite (proj2 (Z.ltb_lt _ _)) by lia.
    cbn. unfold stepped. destruct (_ <=? _); f_equal; lia.
  - pose proof (Z.div_mod (Z.abs (end_ range - cur)) (step range) ltac:(lia)) as D.
    pose proof (Z.mod_pos_bound (Z.abs (end_ range - cur)) (step range) ltac:(lia)).
    rewrite Hn in D. destruct (Z.ltb_spec (Z.abs (end_ range - cur)) (step range)); [nia|].
    assert (Z.abs (end_ range - stepped range cur 1) = Z.abs (end_ range - cur) - step range) as Ha.
    { unfold stepped. destruct (_ <=? _); lia. }
    rewrite IH; try done; try lia.
    + change (seq 0 (S (S n))) with (0%nat :: seq 1 (S n)). rewrite <- (seq_shift (S n) 0), map_cons, map_map.
      f_equal; [unfold stepped; destruct (_ <=? _); lia|].
      apply map_ext. intros i. unfold stepped. destruct (_ <=? _); lia.
    + unfold stepped. destruct (_ <=? _); lia.
    + unfold stepped. destruct (_ <=? _); lia.
    + rewrite Ha. replace (_ - step range) with (Z.abs (end_ range - cur) + (-1) * step range) by lia.
      rewrite Z.div_add by lia. lia.
Qed.

(** C40: The iteration over a range is finite and yields exactly the arithmetic
    progression from its beginning towards its end, whatever the direction, even
    where the next value would not fit in 64 bits: at most |end - begin| / step + 1
    values, none past the end. *)
Theorem brace_sequence range n :
  - 2 ^ 63 <= begin_ range < 2 ^ 63 -> - 2 ^ 63 <= end_ range < 2 ^ 63 -> 0 < step range < 2 ^ 63 ->
  Z.abs (end_ range - begin_ range) / step range = Z.of_nat n ->
  (forall fuel, (n < fuel)%nat ->
     seqValues fuel (begin_ range) range =
       map (fun i => stepped range (begin_ range) (Z.of_nat i)) (seq 0 (S n))) /\
  forall v, In v (seqValues (S n) (begin_ range) range) ->
    Z.min (begin_ range) (end_ range) <= v <= Z.max (begin_ range) (end_ range).
Proof.
  intros Hb He Hs Hn.
  assert (forall fuel, (n < fuel)%nat -> seqValues fuel (begin_ range) range =
       map (fun i => stepped range (begin_ range) (Z.of_nat i)) (seq 0 (S n))) as Hall.
  { intros fuel Hf. apply seqValues_from; try done. destruct (Z.leb_spec (begin_ range) (end_ range)); lia. }
  split; [done|]. rewrite Hall by lia. intros v (i & <- & Hi)%in_map_iff. apply in_seq in Hi.
  pose proof (Z.div_mod (Z.abs (end_ range - begin_ range)) (step range) ltac:(lia)).
  pose proof (Z.mod_pos_bound (Z.abs (end_ range - begin_ range)) (step range) ltac:(lia)).
  assert (Z.of_nat i * step range <= Z.abs (end_ range - begin_ range)) by nia.
  unfold stepped. destruct (Z.leb_spec (begin_ range) (end_ range)); nia.
Qed.

Lemma brace_sequence_witness :
  let range := {| begin_ := 9223372036854775800; end_ := 9223372036854775807; step := 5; digits := 0;
                  rangeKind := INT |} in
  seqValues 2 (begin_ range) range = [9223372036854775800; 9223372036854775805].
Proof.
  intros range.
  assert (Z.abs (end_ range - begin_ range) / step range = Z.of_nat 1) as Hn by (vm_compute; reflexivity).
  pose proof (brace_sequence range 1 ltac:(cbn; lia) ltac:(cbn; lia) ltac:(cbn; lia) Hn) as [H _].
  exact (H 2%nat ltac:(lia)).
Defined.

(** *** The range *)

Lemma toReversedBegin_between b e s : 0 < s ->
  Z.min b e <= toReversedBegin b e s <= Z.max b e.
Proof.
  intros Hs. unfold toReversedBegin.
  pose proof (Z.quot_rem (e - b) s ltac:(lia)) as Q.
  destruct (Z.le_gt_cases b e).
  - pose proof (Z.rem_nonneg (e - b) s ltac:(lia) ltac:(lia)).
    assert (0 <= Z.quot (e - b) s) by (apply Z.quot_pos; lia). nia.
  - pose proof (Z.rem_nonpos (e - b) s ltac:(lia) ltac:(lia)).
    assert (Z.quot (e - b) s <= 0).
    { rewrite <- (Z.opp_involutive (e - b)), Z.quot_opp_l by lia.
      pose proof (Z.quot_pos (- (e - b)) s ltac:(lia) ltac:(lia)). lia. }
    nia.
Qed.

(** What a successful analysis gives: the bounds fit in 64 bits, the step is
    positive, and the padding has room for both bounds. *)
Definition goodRange (r : BraceRange) : Prop :=
  - 2 ^ 63 <= begin_ r < 2 ^ 63 /\ - 2 ^ 63 <= end_ r < 2 ^ 63 /\ 0 < step r < 2 ^ 63 /\
  0 <= digits r /\
  (0 < digits r -> zlen (toString (begin_ r)) <= digits r /\ zlen (toString (end_ r)) <= digits r).

Lemma rangeBounds_good begin e isChar r :
  (isChar = true -> Forall is_byte begin /\ Forall is_byte e) ->
  rangeBounds begin e isChar = inr r -> goodRange r.
Proof.
  intros Hbytes. unfold rangeBounds. destruct isChar.
  { intros [= <-]. destruct (Hbytes eq_refl) as [H1 H2]. unfold goodRange. cbn.
    assert (forall l, Forall is_byte l -> - 2 ^ 63 <= nth 0 l 0 < 2 ^ 63) as Hn.
    { intros [|x l] Hl; [by cbn|]. apply Forall_cons in Hl as [Hx _]. unfold is_byte in Hx. cbn.
      change (2 ^ 63) with 9223372036854775808. lia. }
    pose proof (Hn begin H1). pose proof (Hn e H2). repeat split; lia. }
  pose proof (toBraceInt_ok begin) as H1. pose proof (toBraceInt_ok e) as H2.
  destruct (biOk (toBraceInt begin)); [|done]. destruct (biOk (toBraceInt e)); [|done].
  destruct (H1 eq_refl) as (V1 & D1 & W1). destruct (H2 eq_refl) as (V2 & D2 & W2).
  pose proof (toString_length_pos _ V1). pose proof (toString_length_pos _ V2).
  cbn [negb]. intros [= <-]. unfold goodRange. cbn [begin_ end_ step digits].
  repeat split; try lia; destruct (Z.ltb_spec 0 (biDigits (toBraceInt begin))),
    (Z.ltb_spec 0 (biDigits (toBraceInt e))); cbn [negb andb] in *; lia.
Qed.

Lemma applyStep_good r ref : goodRange r -> hasError r = false ->
  hasError (fst (applyStep r ref)) = false -> goodRange (fst (applyStep r ref)).
Proof.
  intros G He. unfold applyStep. destruct ref as [|c ref]; [done|].
  pose proof (toBraceInt_ok (c :: ref)) as Hok.
  destruct (biOk (toBraceInt (c :: ref))); [|done]. destruct (Hok eq_refl) as (V & _ & _).
  cbn [negb]. set (v := biValue (toBraceInt (c :: ref))) in *.
  destruct G as (Gb & Ge & Gs & Gd & Gw).
  destruct (Z.eqb_spec v 0); [intros _; unfold goodRange; cbn; change (2 ^ 63) with 9223372036854775808 in *; intuition lia|].
  unfold INT64_MIN. destruct (Z.eqb_spec v (-9223372036854775808)); [done|].
  change (2 ^ 63) with 9223372036854775808 in *.
  destruct (Z.ltb_spec v 0); intros _; unfold goodRange; cbn [fst begin_ end_ step digits];
    change (2 ^ 63) with 9223372036854775808.
  - pose proof (toReversedBegin_between (begin_ r) (end_ r) (Z.abs v) ltac:(lia)).
    do 4 (split; [lia|]). intros Hp. split; [|by apply Gw].
    destruct (Gw Hp). etrans; [apply (toString_between (begin_ r) (end_ r))|]; lia.
  - do 4 (split; [lia|]). done.
Qed.

(** Every accepted range text yields bounds that fit in 64 bits with a positive
    step, so that the iteration is well-defined; and when the range is padded, each
    value it yields is printed with exactly that many characters (the width the
    code asserts). *)
Theorem brace_range_padding ref isChar v :
  Forall is_byte ref ->
  let range := fst (toBraceRange ref isChar) in
  hasError range = false ->
  goodRange range /\
  (Z.min (begin_ range) (end_ range) <= v <= Z.max (begin_ range) (end_ range) ->
   0 < digits range -> zlen (formatSeqValue v (digits range) false) = digits range).
Proof.
  intros Hb range He.
  assert (goodRange range) as G.
  { revert He. subst range. unfold toBraceRange.
    destruct (splitRange ref) as [[b e] st] eqn:Es.
    assert (Forall is_byte b /\ Forall is_byte e) as Hbe.
    { revert Es. unfold splitRange, StringRef.slice, StringRef.substr.
      case_on; intros; simplify_eq; split; repeat (apply Forall_take || apply Forall_drop); done. }
    destruct (rangeBounds b e isChar) as [err|r] eqn:Er; [done|].
    apply applyStep_good.
    - by apply (rangeBounds_good b e isChar).
    - revert Er. unfold rangeBounds. repeat case_on; intros; by simplify_eq. }
  split; [done|]. intros Hv Hd. destruct G as (Gb & Ge & _ & _ & Gw). destruct (Gw Hd).
  assert (- 2 ^ 63 <= v < 2 ^ 63) as Hv' by lia.
  pose proof (toString_between _ _ v Gb Ge Hv). pose proof (toString_length_pos v Hv').
  unfold formatSeqValue. rewrite (proj2 (Z.eqb_neq _ 0)) by lia.
  assert (zlen (replicate (Z.to_nat (digits range - zlen (toString v))) 48) =
            digits range - zlen (toString v)) as Hr.
  { unfold zlen at 1. rewrite length_replicate. lia. }
  destruct (v <? 0); [|rewrite zlen_app, Hr; lia].
  destruct (toString v) as [|c l]; [change (zlen (@nil Z)) with 0 in *; lia|]. cbn [take drop].
  rewrite !zlen_app, Hr, !zlen_cons, take_0, drop_0. change (zlen (@nil Z)) with 0. lia.
Qed.

Lemma brace_range_padding_witness :
  let range := fst (toBraceRange (lit "-05..10..-5") false) in
  goodRange range /\ zlen (formatSeqValue 5 (digits range) false) = 3.
Proof.
  intros range.
  pose proof (brace_range_padding (lit "-05..10..-5") false 5
    ltac:(vm_compute; repeat constructor; discriminate) eq_refl) as [G H].
  split; [exact G|]. apply H; vm_compute; intuition discriminate.
Defined.

End Brace.
