(* ===== verification/CodePointSet.v ===== *)
(** Sets of code points as sorted arrays of packed ranges: BMPCodePointRange,
    PackedNonBMPCodePointRange, NonBMPCodePointRange and CodePointSetRef of
    src/misc/codepoint_set.hpp. *)
From S2P Require Import Prelude.

Module CodePointSet.

(** ** Ranges: a 32-bit word, or two of them *)

Definition bmpRange (first last : Z) : Z := Z.lor (Z.shiftl first 16) last.
Definition firstBMP (v : Z) : Z := u16 (Z.shiftr v 16).
Definition lastBMP (v : Z) : Z := u16 (Z.land v 0xFFFF).

(** [PackedNonBMPCodePointRange(first, size)] *)
Definition packedRange (first size : Z) : Z := Z.lor first (Z.shiftl size 21).
(** [PackedNonBMPCodePointRange::pack]; throws unless the range is short. *)
Definition pack (first last : Z) : option Z :=
  if (first <=? last) && (last - first <? Z.shiftl 1 11)
  then Some (packedRange first (last - first)) else None.
Definition firstPacked (v : Z) : Z := Z.land v 0x1FFFFF.
Definition lastPacked (v : Z) : Z := firstPacked v + Z.shiftr v 21.

(** ** The set: [size] words at [ptr], the first [bmpSize] of them BMP ranges,
    then [packedNonBmpSize] packed ones, then pairs of words. *)
Record CodePointSetRef := {
  ptr : list Z;
  bmpSize : Z;
  packedNonBmpSize : Z;
  size : Z
}.

Definition getBMPRanges (s : CodePointSetRef) : list Z := take (Z.to_nat (bmpSize s)) (ptr s).
Definition getPackedNonBMPRanges (s : CodePointSetRef) : list Z :=
  take (Z.to_nat (packedNonBmpSize s)) (drop (Z.to_nat (bmpSize s)) (ptr s)).

Fixpoint pairUp (l : list Z) : list (Z * Z) :=
  match l with
  | a :: b :: r => (a, b) :: pairUp r
  | _ => []
  end.

Definition getNonBMPRanges (s : CodePointSetRef) : list (Z * Z) :=
  let remainSize := (size s - bmpSize s - packedNonBmpSize s) / 2 in
  take (Z.to_nat remainSize)
    (pairUp (drop (Z.to_nat (bmpSize s + packedNonBmpSize s)) (ptr s))).

(** ** std::binary_search over ranges *)

(** std::lower_bound: [lt] is the test "element is before the value". *)
Fixpoint lowerBound {A} (fuel : nat) (lt : A -> bool) (l : list A) (first len : nat) : nat :=
  match fuel with
  | O => first
  | S fuel' =>
      match len with
      | O => first
      | S _ =>
          let half := Nat.div2 len in
          match l !! (first + half)%nat with
          | Some x =>
              if lt x then lowerBound fuel' lt l (S (first + half)) (len - half - 1)
              else lowerBound fuel' lt l first half
          | None => first
          end
      end
  end.

(** [binarySearch before after l]: [before x] is [comp(x, value)], [after x] is
    [comp(value, x)]. *)
Definition binarySearch {A} (before after : A -> bool) (l : list A) : bool :=
  match l !! lowerBound (length l) before l 0 (length l) with
  | Some x => negb (after x)
  | None => false
  end.

Definition containsBMP (l : list Z) (c : Z) : bool :=
  binarySearch (fun x => lastBMP x <? c) (fun x => c <? firstBMP x) l.
Definition containsPacked (l : list Z) (c : Z) : bool :=
  binarySearch (fun x => lastPacked x <? c) (fun x => c <? firstPacked x) l.
Definition containsNonBMP (l : list (Z * Z)) (c : Z) : bool :=
  binarySearch (fun x => i32 (snd x) <? c) (fun x => c <? i32 (fst x)) l.

Definition contains (s : CodePointSetRef) (codePoint : Z) : bool :=
  if codePoint <? 0 then false
  else if codePoint <=? UINT16_MAX then containsBMP (getBMPRanges s) (u16 codePoint)
  else if negb (packedNonBmpSize s =? 0) && containsPacked (getPackedNonBMPRanges s) codePoint
  then true
  else containsNonBMP (getNonBMPRanges s) codePoint.

(** * Properties *)

Section search.
Context {A : Type} (before after : A -> bool) (l : list A).

(** The range is partitioned by [before]. *)
Definition partitioned : Prop :=
  forall i j x y, (i < j)%nat -> l !! i = Some x -> l !! j = Some y ->
    before y = true -> before x = true.

Lemma lowerBound_spec : partitioned ->
  forall fuel first len,
    (len <= fuel)%nat -> (first + len <= length l)%nat ->
    (forall i x, (i < first)%nat -> l !! i = Some x -> before x = true) ->
    (forall x, l !! (first + len)%nat = Some x -> before x = false) ->
    let r := lowerBound fuel before l first len in
    (forall i x, (i < r)%nat -> l !! i = Some x -> before x = true) /\
    (forall x, l !! r = Some x -> before x = false).
Proof.
  intros Hp. induction fuel as [|fuel IH]; intros first len Hf Hl Hlo Hhi; simpl.
  { assert (len = O) as -> by lia. rewrite Nat.add_0_r in Hhi. done. }
  destruct len as [|len']; [by rewrite Nat.add_0_r in Hhi|].
  set (len := S len') in *. set (half := Nat.div2 len).
  assert (half < len)%nat by (apply Nat.lt_div2; lia).
  destruct (lookup_lt_is_Some_2 l (first + half)) as [x Hx]; [lia|]. rewrite Hx.
  destruct (before x) eqn:Hb.
  - apply IH; [lia|lia| |].
    + intros i y Hi Hy. destruct (decide (i = first + half)%nat) as [->|]; [congruence|].
      eapply (Hp i (first + half)%nat y x); [lia|done..].
    + intros y Hy. apply Hhi. rewrite <- Hy. f_equal. lia.
  - apply IH; [lia|lia|done|]. congruence.
Qed.

Lemma binarySearch_spec : partitioned ->
  (forall i j x y, (i < j)%nat -> l !! i = Some x -> l !! j = Some y ->
     before x = false -> after y = true) ->
  binarySearch before after l = true <->
  exists x, x ∈ l /\ before x = false /\ after x = false.
Proof.
  intros Hp Hafter. unfold binarySearch.
  destruct (lowerBound_spec Hp (length l) 0 (length l)) as [Hlo Hhi]; [lia|lia|lia| |].
  { intros x Hx. apply lookup_lt_Some in Hx. lia. }
  set (r := lowerBound _ _ _ _ _) in *.
  split.
  - destruct (l !! r) as [x|] eqn:Hr; [|done]. intros H. exists x.
    split_and!; [by eapply list_elem_of_lookup_2|by apply Hhi|by destruct (after x)].
  - intros (x & Hin & Hb & Ha). apply list_elem_of_lookup_1 in Hin as [i Hi].
    destruct (decide (i < r)%nat) as [|Hge]; [by rewrite (Hlo i x) in Hb|].
    assert (r < length l)%nat as Hr by (apply lookup_lt_Some in Hi; lia).
    destruct (lookup_lt_is_Some_2 l r Hr) as [y Hy]. rewrite Hy.
    destruct (decide (i = r)) as [->|]; [simplify_eq; by rewrite Ha|].
    rewrite (Hafter r i y x) in Ha; [done|lia|done..|by apply Hhi].
Qed.
End search.

(** A sorted list of disjoint ranges [f x, g x]. *)
Definition sortedRanges {A} (f g : A -> Z) (l : list A) : Prop :=
  (forall x, x ∈ l -> f x <= g x) /\
  (forall i j x y, (i < j)%nat -> l !! i = Some x -> l !! j = Some y -> g x < f y).

Lemma binarySearch_ranges {A} (f g : A -> Z) (l : list A) c :
  sortedRanges f g l ->
  binarySearch (fun x => g x <? c) (fun x => c <? f x) l = true <->
  exists x, x ∈ l /\ f x <= c <= g x.
Proof.
  intros [Hle Hs]. rewrite binarySearch_spec.
  - split; intros (x & Hx & H); exists x; (split; [done|]); [destruct H; zbool; lia|].
    destruct (Z.ltb_spec (g x) c), (Z.ltb_spec c (f x)); (done || lia).
  - intros i j x y Hij Hx Hy Hb. zbool. apply Z.ltb_lt.
    specialize (Hs i j x y Hij Hx Hy). specialize (Hle y (list_elem_of_lookup_2 _ _ _ Hy)). lia.
  - intros i j x y Hij Hx Hy Hb. zbool. apply Z.ltb_lt. specialize (Hs i j x y Hij Hx Hy). lia.
Qed.

(** A well-formed set: every part is sorted and disjoint. *)
Definition wf (s : CodePointSetRef) : Prop :=
  sortedRanges firstBMP lastBMP (getBMPRanges s) /\
  sortedRanges firstPacked lastPacked (getPackedNonBMPRanges s) /\
  sortedRanges (fun x => i32 (fst x)) (fun x => i32 (snd x)) (getNonBMPRanges s).

(** Some range of the part of the set that is responsible for [c] covers [c]. *)
Definition covered (s : CodePointSetRef) (c : Z) : Prop :=
  if decide (c <= UINT16_MAX)
  then exists x, x ∈ getBMPRanges s /\ firstBMP x <= c <= lastBMP x
  else (exists x, x ∈ getPackedNonBMPRanges s /\ firstPacked x <= c <= lastPacked x) \/
       (exists x, x ∈ getNonBMPRanges s /\ i32 (fst x) <= c <= i32 (snd x)).

Lemma contains_iff s c :
  wf s -> contains s c = true <-> 0 <= c /\ covered s c.
Proof.
  intros (Hb & Hp & Hn). unfold contains, covered.
  destruct (Z.ltb_spec c 0); [split; [done|lia]|].
  destruct (Z.leb_spec c UINT16_MAX).
  - rewrite decide_True by done. rewrite wrap_small by (unfold in_unsigned, UINT16_MAX in *; change (2 ^ 16) with 65536; lia).
    unfold containsBMP. rewrite binarySearch_ranges by done. naive_solver.
  - rewrite decide_False by lia.
    pose proof (binarySearch_ranges _ _ _ c Hp) as Hps.
    pose proof (binarySearch_ranges _ _ _ c Hn) as Hns.
    unfold containsPacked, containsNonBMP.
    destruct (Z.eqb_spec (packedNonBmpSize s) 0) as [Hz|Hz]; cbn [negb andb].
    + rewrite Hns. split; [naive_solver|]. intros [_ [(x & Hx & _)|?]]; [|done].
      unfold getPackedNonBMPRanges in Hx. rewrite Hz in Hx. by apply not_elem_of_nil in Hx.
    + destruct (binarySearch _ _ (getPackedNonBMPRanges s)) eqn:E; naive_solver.
Qed.

(** On a well-formed set, the two binary searches decide membership. *)
Theorem contains_correct s c :
  wf s -> contains s c = true <-> 0 <= c /\ covered s c.
Proof. apply contains_iff. Qed.

(** A set with one range of each kind: U+0041..U+005A, U+10000..U+1007F, U+20000..U+2FFFF. *)
Definition sampleSet : CodePointSetRef := {|
  ptr := [bmpRange 0x41 0x5A; packedRange 0x10000 0x7F; 0x20000; 0x2FFFF];
  bmpSize := 1; packedNonBmpSize := 1; size := 4
|}.

Lemma sortedRanges_one {A} (f g : A -> Z) x : f x <= g x -> sortedRanges f g [x].
Proof.
  intros H. split.
  - intros y Hy. apply list_elem_of_singleton in Hy as ->. done.
  - intros [|i] [|j] y z Hij Hy Hz; (lia || done).
Qed.

Lemma sampleSet_wf : wf sampleSet.
Proof.
  split; [|split]; apply sortedRanges_one; vm_compute; discriminate.
Qed.

Lemma contains_correct_witness :
  contains sampleSet 0x20001 = true /\
  (contains sampleSet 0x5B = true <-> 0 <= 0x5B /\ covered sampleSet 0x5B).
Proof. split; [reflexivity|]. apply (contains_correct sampleSet 0x5B sampleSet_wf). Defined.

(** Packing a short supplementary range into one word loses nothing. *)
Theorem pack_roundtrip first last v :
  0 <= first <= 0x10FFFF -> pack first last = Some v ->
  in_unsigned 32 v /\ firstPacked v = first /\ lastPacked v = last.
Proof.
  unfold pack, packedRange, lastPacked, firstPacked, in_unsigned. intros Hf H.
  case_match; [|done]. simplify_eq. zbool. change (Z.shiftl 1 11) with 2048 in *.
  assert (Z.lor first (Z.shiftl (last - first) 21) = first + (last - first) * 2 ^ 21) as ->.
  { rewrite Z.lor_comm, lor_shift_add by (change (2 ^ 21) with 2097152; lia). lia. }
  change 0x1FFFFF with (Z.ones 21). rewrite Z.land_ones, Z.shiftr_div_pow2 by lia.
  change (2 ^ 21) with 2097152. change (2 ^ 32) with 4294967296.
  rewrite Z.div_add, Z.div_small by lia. rewrite Z.mod_add, Z.mod_small by lia. lia.
Qed.
Lemma pack_roundtrip_witness :
  in_unsigned 32 0x0FE10000 /\ firstPacked 0x0FE10000 = 0x10000 /\ lastPacked 0x0FE10000 = 0x1007F.
Proof. apply (pack_roundtrip 0x10000 0x1007F); [lia|reflexivity]. Defined.

End CodePointSet.
