(* ===== verification/UcdTables.v ===== *)
(** The data of text segmentation: the sets of src/unicode/ucp_lone.in and
    src/misc/unicode_width.in and the list of src/unicode/emoji_variation.in that the
    scanners read, entry by entry, and the packing of code points with a property
    (CodePointWithMeta of src/misc/unicode.hpp) with its search. *)
From S2P Require Import Prelude CodePointSet.

Module UcdTables.
Import CodePointSet.

(** A set given as its three kinds of ranges and its three sizes. *)
Definition mkRef (bmp packed : list (Z * Z)) (nonBMP : list Z) (b p n : Z) : CodePointSetRef := {|
  ptr := map (fun r => bmpRange (fst r) (snd r)) bmp ++
         map (fun r => packedRange (fst r) (snd r - fst r)) packed ++ nonBMP;
  bmpSize := b; packedNonBmpSize := p; size := n
|}.

(** ** Sets of the property database *)

(** Lone::InCB_Linker *)
Definition InCB_Linker_set : CodePointSetRef := Eval vm_compute in mkRef
  [(0x94D, 0x94D); (0x9CD, 0x9CD); (0xACD, 0xACD); (0xB4D, 0xB4D); (0xC4D, 0xC4D); (0xD4D, 0xD4D);
   (0x1039, 0x1039); (0x17D2, 0x17D2); (0x1A60, 0x1A60); (0x1B44, 0x1B44); (0x1BAB, 0x1BAB);
   (0x1CF5, 0x1CF6); (0xA9C0, 0xA9C0); (0xAAF6, 0xAAF6)]
  [(0x10A3F, 0x10A3F); (0x11133, 0x11133); (0x113D0, 0x113D0); (0x1193E, 0x1193E); (0x11A3A, 0x11A3A);
   (0x11A47, 0x11A47); (0x11A99, 0x11A99); (0x11F42, 0x11F42)]
  []
  14 8 22.

(** Lone::InCB_Consonant *)
Definition InCB_Consonant_set : CodePointSetRef := Eval vm_compute in mkRef
  [(0x915, 0x939); (0x958, 0x95F); (0x978, 0x97F); (0x995, 0x9A8); (0x9AA, 0x9B0); (0x9B2, 0x9B2);
   (0x9B6, 0x9B9); (0x9DC, 0x9DD); (0x9DF, 0x9DF); (0x9F0, 0x9F1); (0xA95, 0xAA8); (0xAAA, 0xAB0);
   (0xAB2, 0xAB3); (0xAB5, 0xAB9); (0xAF9, 0xAF9); (0xB15, 0xB28); (0xB2A, 0xB30); (0xB32, 0xB33);
   (0xB35, 0xB39); (0xB5C, 0xB5D); (0xB5F, 0xB5F); (0xB71, 0xB71); (0xC15, 0xC28); (0xC2A, 0xC39);
   (0xC58, 0xC5A); (0xD15, 0xD3A); (0x1000, 0x102A); (0x103F, 0x103F); (0x1050, 0x1055); (0x105A, 0x105D);
   (0x1061, 0x1061); (0x1065, 0x1066); (0x106E, 0x1070); (0x1075, 0x1081); (0x108E, 0x108E);
   (0x1780, 0x17B3); (0x1A20, 0x1A54); (0x1B0B, 0x1B0C); (0x1B13, 0x1B33); (0x1B45, 0x1B4C);
   (0x1B83, 0x1BA0); (0x1BAE, 0x1BAF); (0x1BBB, 0x1BBD); (0xA989, 0xA98B); (0xA98F, 0xA9B2);
   (0xA9E0, 0xA9E4); (0xA9E7, 0xA9EF); (0xA9FA, 0xA9FE); (0xAA60, 0xAA6F); (0xAA71, 0xAA73);
   (0xAA7A, 0xAA7A); (0xAA7E, 0xAA7F); (0xAAE0, 0xAAEA); (0xABC0, 0xABDA)]
  [(0x10A00, 0x10A00); (0x10A10, 0x10A13); (0x10A15, 0x10A17); (0x10A19, 0x10A35); (0x11103, 0x11126);
   (0x11144, 0x11144); (0x11147, 0x11147); (0x11380, 0x11389); (0x1138B, 0x1138B); (0x1138E, 0x1138E);
   (0x11390, 0x113B5); (0x11900, 0x11906); (0x11909, 0x11909); (0x1190C, 0x11913); (0x11915, 0x11916);
   (0x11918, 0x1192F); (0x11A00, 0x11A00); (0x11A0B, 0x11A32); (0x11A50, 0x11A50); (0x11A5C, 0x11A83);
   (0x11B0A, 0x11B0A); (0x11DF1, 0x11DF1); (0x11F04, 0x11F10); (0x11F12, 0x11F33)]
  []
  54 24 78.

(** Lone::InCB_Extend *)
Definition InCB_Extend_set : CodePointSetRef := Eval vm_compute in mkRef
  [(0x300, 0x36F); (0x483, 0x489); (0x591, 0x5BD); (0x5BF, 0x5BF); (0x5C1, 0x5C2); (0x5C4, 0x5C5);
   (0x5C7, 0x5C9); (0x610, 0x61A); (0x64B, 0x65F); (0x670, 0x670); (0x6D6, 0x6DC); (0x6DF, 0x6E4);
   (0x6E7, 0x6E8); (0x6EA, 0x6ED); (0x711, 0x711); (0x730, 0x74A); (0x7A6, 0x7B0); (0x7EB, 0x7F3);
   (0x7FD, 0x7FD); (0x816, 0x819); (0x81B, 0x823); (0x825, 0x827); (0x829, 0x82D); (0x859, 0x85B);
   (0x897, 0x89F); (0x8CA, 0x8E1); (0x8E3, 0x902); (0x93A, 0x93A); (0x93C, 0x93C); (0x941, 0x948);
   (0x951, 0x957); (0x962, 0x963); (0x981, 0x981); (0x9BC, 0x9BC); (0x9BE, 0x9BE); (0x9C1, 0x9C4);
   (0x9D7, 0x9D7); (0x9E2, 0x9E3); (0x9FE, 0x9FE); (0xA01, 0xA02); (0xA3C, 0xA3C); (0xA41, 0xA42);
   (0xA47, 0xA48); (0xA4B, 0xA4D); (0xA51, 0xA51); (0xA70, 0xA71); (0xA75, 0xA75); (0xA81, 0xA82);
   (0xABC, 0xABC); (0xAC1, 0xAC5); (0xAC7, 0xAC8); (0xAE2, 0xAE3); (0xAFA, 0xAFF); (0xB01, 0xB01);
   (0xB3C, 0xB3C); (0xB3E, 0xB3F); (0xB41, 0xB44); (0xB53, 0xB57); (0xB62, 0xB63); (0xB82, 0xB82);
   (0xBBE, 0xBBE); (0xBC0, 0xBC0); (0xBCD, 0xBCD); (0xBD7, 0xBD7); (0xC00, 0xC00); (0xC04, 0xC04);
   (0xC3C, 0xC3C); (0xC3E, 0xC40); (0xC46, 0xC48); (0xC4A, 0xC4C); (0xC55, 0xC56); (0xC62, 0xC63);
   (0xC81, 0xC81); (0xCBC, 0xCBC); (0xCBF, 0xCC0); (0xCC2, 0xCC2); (0xCC6, 0xCC8); (0xCCA, 0xCCD);
   (0xCD5, 0xCD6); (0xCE2, 0xCE3); (0xD00, 0xD01); (0xD3B, 0xD3C); (0xD3E, 0xD3E); (0xD41, 0xD44);
   (0xD57, 0xD57); (0xD62, 0xD63); (0xD81, 0xD81); (0xDCA, 0xDCA); (0xDCF, 0xDCF); (0xDD2, 0xDD4);
   (0xDD6, 0xDD6); (0xDDF, 0xDDF); (0xE31, 0xE31); (0xE34, 0xE3A); (0xE47, 0xE4E); (0xEB1, 0xEB1);
   (0xEB4, 0xEBC); (0xEC8, 0xECE); (0xF18, 0xF19); (0xF35, 0xF35); (0xF37, 0xF37); (0xF39, 0xF39);
   (0xF71, 0xF7E); (0xF80, 0xF84); (0xF86, 0xF87); (0xF8D, 0xF97); (0xF99, 0xFBC); (0xFC6, 0xFC6);
   (0x102D, 0x1030); (0x1032, 0x1037); (0x103A, 0x103A); (0x103D, 0x103E); (0x1058, 0x1059);
   (0x105E, 0x1060); (0x1071, 0x1074); (0x1082, 0x1082); (0x1085, 0x1086); (0x108D, 0x108D);
   (0x109D, 0x109D); (0x135D, 0x135F); (0x1712, 0x1715); (0x1732, 0x1734); (0x1752, 0x1753);
   (0x1772, 0x1773); (0x17B4, 0x17B5); (0x17B7, 0x17BD); (0x17C6, 0x17C6); (0x17C9, 0x17D1);
   (0x17D3, 0x17D3); (0x17DD, 0x17DD); (0x180B, 0x180D); (0x180F, 0x180F); (0x1885, 0x1886);
   (0x18A9, 0x18A9); (0x1920, 0x1922); (0x1927, 0x1928); (0x1932, 0x1932); (0x1939, 0x193B);
   (0x1A17, 0x1A18); (0x1A1B, 0x1A1B); (0x1A56, 0x1A56); (0x1A58, 0x1A5E); (0x1A62, 0x1A62);
   (0x1A65, 0x1A6C); (0x1A73, 0x1A7C); (0x1A7F, 0x1A7F); (0x1AB0, 0x1AF0); (0x1B00, 0x1B03);
   (0x1B34, 0x1B3D); (0x1B42, 0x1B43); (0x1B6B, 0x1B73); (0x1B80, 0x1B81); (0x1BA2, 0x1BA5);
   (0x1BA8, 0x1BAA); (0x1BAC, 0x1BAD); (0x1BE6, 0x1BE6); (0x1BE8, 0x1BE9); (0x1BED, 0x1BED);
   (0x1BEF, 0x1BF3); (0x1C2C, 0x1C33); (0x1C36, 0x1C37); (0x1CD0, 0x1CD2); (0x1CD4, 0x1CE0);
   (0x1CE2, 0x1CE8); (0x1CED, 0x1CED); (0x1CF4, 0x1CF4); (0x1CF8, 0x1CF9); (0x1DC0, 0x1DFF);
   (0x200D, 0x200D); (0x20D0, 0x20F0); (0x2CEF, 0x2CF1); (0x2D7F, 0x2D7F); (0x2DE0, 0x2DFF);
   (0x302A, 0x302F); (0x3099, 0x309A); (0xA66F, 0xA672); (0xA674, 0xA67D); (0xA69E, 0xA69F);
   (0xA6F0, 0xA6F1); (0xA802, 0xA802); (0xA806, 0xA806); (0xA80B, 0xA80B); (0xA825, 0xA826);
   (0xA82C, 0xA82C); (0xA8C4, 0xA8C5); (0xA8E0, 0xA8F1); (0xA8FF, 0xA8FF); (0xA926, 0xA92D);
   (0xA947, 0xA951); (0xA953, 0xA953); (0xA980, 0xA982); (0xA9B3, 0xA9B3); (0xA9B6, 0xA9B9);
   (0xA9BC, 0xA9BD); (0xA9E5, 0xA9E5); (0xAA29, 0xAA2E); (0xAA31, 0xAA32); (0xAA35, 0xAA36);
   (0xAA43, 0xAA43); (0xAA4C, 0xAA4C); (0xAA7C, 0xAA7C); (0xAAB0, 0xAAB0); (0xAAB2, 0xAAB4);
   (0xAAB7, 0xAAB8); (0xAABE, 0xAABF); (0xAAC1, 0xAAC1); (0xAAEC, 0xAAED); (0xABE5, 0xABE5);
   (0xABE8, 0xABE8); (0xABED, 0xABED); (0xFB1E, 0xFB1E); (0xFE00, 0xFE0F); (0xFE20, 0xFE2F);
   (0xFF9E, 0xFF9F)]
  [(0x101FD, 0x101FD); (0x102E0, 0x102E0); (0x10376, 0x1037A); (0x10A01, 0x10A03); (0x10A05, 0x10A06);
   (0x10A0C, 0x10A0F); (0x10A38, 0x10A3A); (0x10AE5, 0x10AE6); (0x10D24, 0x10D27); (0x10D69, 0x10D6D);
   (0x10EAB, 0x10EAC); (0x10ECB, 0x10ECF); (0x10EF0, 0x10EFF); (0x10F46, 0x10F50); (0x10F82, 0x10F85);
   (0x11001, 0x11001); (0x11038, 0x11046); (0x11070, 0x11070); (0x11073, 0x11074); (0x1107F, 0x11081);
   (0x110B3, 0x110B6); (0x110B9, 0x110BA); (0x110C2, 0x110C2); (0x11100, 0x11102); (0x11127, 0x1112B);
   (0x1112D, 0x11132); (0x11134, 0x11134); (0x11173, 0x11173); (0x11180, 0x11181); (0x111B6, 0x111BE);
   (0x111C0, 0x111C0); (0x111C9, 0x111CC); (0x111CF, 0x111CF); (0x1122F, 0x11231); (0x11234, 0x11237);
   (0x1123E, 0x1123E); (0x11241, 0x11241); (0x112DF, 0x112DF); (0x112E3, 0x112EA); (0x11300, 0x11301);
   (0x1133B, 0x1133C); (0x1133E, 0x1133E); (0x11340, 0x11340); (0x1134D, 0x1134D); (0x11357, 0x11357);
   (0x11366, 0x1136C); (0x11370, 0x11374); (0x113B8, 0x113B8); (0x113BB, 0x113C0); (0x113C2, 0x113C2);
   (0x113C5, 0x113C5); (0x113C7, 0x113C9); (0x113CE, 0x113CF); (0x113D2, 0x113D2); (0x113E1, 0x113E2);
   (0x11438, 0x1143F); (0x11442, 0x11444); (0x11446, 0x11446); (0x1145E, 0x1145E); (0x114B0, 0x114B0);
   (0x114B3, 0x114B8); (0x114BA, 0x114BA); (0x114BD, 0x114BD); (0x114BF, 0x114C0); (0x114C2, 0x114C3);
   (0x115AF, 0x115AF); (0x115B2, 0x115B5); (0x115BC, 0x115BD); (0x115BF, 0x115C0); (0x115DC, 0x115DD);
   (0x11633, 0x1163A); (0x1163D, 0x1163D); (0x1163F, 0x11640); (0x116AB, 0x116AB); (0x116AD, 0x116AD);
   (0x116B0, 0x116B7); (0x1171D, 0x1171D); (0x1171F, 0x1171F); (0x11722, 0x11725); (0x11727, 0x1172B);
   (0x1182F, 0x11837); (0x11839, 0x1183A); (0x11930, 0x11930); (0x1193B, 0x1193D); (0x11943, 0x11943);
   (0x119D4, 0x119D7); (0x119DA, 0x119DB); (0x119E0, 0x119E0); (0x11A01, 0x11A0A); (0x11A33, 0x11A38);
   (0x11A3B, 0x11A3E); (0x11A51, 0x11A56); (0x11A59, 0x11A5B); (0x11A8A, 0x11A96); (0x11A98, 0x11A98);
   (0x11B60, 0x11B60); (0x11B62, 0x11B64); (0x11B66, 0x11B66); (0x11C30, 0x11C36); (0x11C38, 0x11C3D);
   (0x11C3F, 0x11C3F); (0x11C92, 0x11CA7); (0x11CAA, 0x11CB0); (0x11CB2, 0x11CB3); (0x11CB5, 0x11CB6);
   (0x11D31, 0x11D36); (0x11D3A, 0x11D3A); (0x11D3C, 0x11D3D); (0x11D3F, 0x11D45); (0x11D47, 0x11D47);
   (0x11D90, 0x11D91); (0x11D95, 0x11D95); (0x11D97, 0x11D97); (0x11DF0, 0x11DF0); (0x11EF3, 0x11EF4);
   (0x11F00, 0x11F01); (0x11F36, 0x11F3A); (0x11F40, 0x11F41); (0x11F5A, 0x11F5A); (0x13440, 0x13440);
   (0x13447, 0x13455); (0x1611E, 0x16129); (0x1612D, 0x1612F); (0x16AF0, 0x16AF4); (0x16B30, 0x16B36);
   (0x16F4F, 0x16F4F); (0x16F8F, 0x16F92); (0x16FE4, 0x16FE4); (0x16FF0, 0x16FF1); (0x1BC9D, 0x1BC9E);
   (0x1CF00, 0x1CF2D); (0x1CF30, 0x1CF46); (0x1D127, 0x1D128); (0x1D165, 0x1D169); (0x1D16D, 0x1D172);
   (0x1D17B, 0x1D182); (0x1D185, 0x1D18B); (0x1D1AA, 0x1D1AD); (0x1D242, 0x1D244); (0x1D250, 0x1D252);
   (0x1D25B, 0x1D25C); (0x1D25F, 0x1D25F); (0x1D280, 0x1D281); (0x1DA00, 0x1DA36); (0x1DA3B, 0x1DA6C);
   (0x1DA75, 0x1DA75); (0x1DA84, 0x1DA84); (0x1DA9B, 0x1DA9F); (0x1DAA1, 0x1DAAF); (0x1E000, 0x1E006);
   (0x1E008, 0x1E018); (0x1E01B, 0x1E021); (0x1E023, 0x1E024); (0x1E026, 0x1E02A); (0x1E08F, 0x1E08F);
   (0x1E130, 0x1E136); (0x1E2AE, 0x1E2AE); (0x1E2EC, 0x1E2EF); (0x1E4EC, 0x1E4EF); (0x1E5EE, 0x1E5EF);
   (0x1E6E3, 0x1E6E3); (0x1E6E6, 0x1E6E6); (0x1E6EE, 0x1E6EF); (0x1E6F5, 0x1E6F5); (0x1E8D0, 0x1E8D6);
   (0x1E944, 0x1E94A); (0x1F3FB, 0x1F3FF); (0xE0020, 0xE007F); (0xE0100, 0xE01EF)]
  []
  214 169 383.

(** Lone::MidLetter *)
Definition MidLetter_set : CodePointSetRef := Eval vm_compute in mkRef
  [(0x3A, 0x3A); (0xB7, 0xB7); (0x387, 0x387); (0x55F, 0x55F); (0x5F4, 0x5F4); (0x2027, 0x2027);
   (0xFE13, 0xFE13); (0xFE55, 0xFE55); (0xFF1A, 0xFF1A)]
  []
  []
  9 0 9.

(** Lone::MidNumLet *)
Definition MidNumLet_set : CodePointSetRef := Eval vm_compute in mkRef
  [(0x2E, 0x2E); (0x2018, 0x2019); (0x2024, 0x2024); (0xFE52, 0xFE52); (0xFF07, 0xFF07); (0xFF0E, 0xFF0E)]
  []
  []
  6 0 6.

(** Lone::Single_Quote *)
Definition Single_Quote_set : CodePointSetRef := Eval vm_compute in mkRef
  [(0x27, 0x27)]
  []
  []
  1 0 1.

(** Lone::Extended_Pictographic *)
Definition Extended_Pictographic_set : CodePointSetRef := Eval vm_compute in mkRef
  [(0xA9, 0xA9); (0xAE, 0xAE); (0x203C, 0x203C); (0x2049, 0x2049); (0x2122, 0x2122); (0x2139, 0x2139);
   (0x2194, 0x2199); (0x21A9, 0x21AA); (0x231A, 0x231B); (0x2328, 0x2328); (0x23CF, 0x23CF);
   (0x23E9, 0x23F3); (0x23F8, 0x23FA); (0x24C2, 0x24C2); (0x25AA, 0x25AB); (0x25B6, 0x25B6);
   (0x25C0, 0x25C0); (0x25FB, 0x25FE); (0x2600, 0x2604); (0x260E, 0x260E); (0x2611, 0x2611);
   (0x2614, 0x2615); (0x2618, 0x2618); (0x261D, 0x261D); (0x2620, 0x2620); (0x2622, 0x2623);
   (0x2626, 0x2626); (0x262A, 0x262A); (0x262E, 0x262F); (0x2638, 0x263A); (0x2640, 0x2640);
   (0x2642, 0x2642); (0x2648, 0x2653); (0x265F, 0x2660); (0x2663, 0x2663); (0x2665, 0x2666);
   (0x2668, 0x2668); (0x267B, 0x267B); (0x267E, 0x267F); (0x2692, 0x2697); (0x2699, 0x2699);
   (0x269B, 0x269C); (0x26A0, 0x26A1); (0x26A7, 0x26A7); (0x26AA, 0x26AB); (0x26B0, 0x26B1);
   (0x26BD, 0x26BE); (0x26C4, 0x26C5); (0x26C8, 0x26C8); (0x26CE, 0x26CF); (0x26D1, 0x26D1);
   (0x26D3, 0x26D4); (0x26E9, 0x26EA); (0x26F0, 0x26F5); (0x26F7, 0x26FA); (0x26FD, 0x26FD);
   (0x2702, 0x2702); (0x2705, 0x2705); (0x2708, 0x270D); (0x270F, 0x270F); (0x2712, 0x2712);
   (0x2714, 0x2714); (0x2716, 0x2716); (0x271D, 0x271D); (0x2721, 0x2721); (0x2728, 0x2728);
   (0x2733, 0x2734); (0x2744, 0x2744); (0x2747, 0x2747); (0x274C, 0x274C); (0x274E, 0x274E);
   (0x2753, 0x2755); (0x2757, 0x2757); (0x2763, 0x2764); (0x2795, 0x2797); (0x27A1, 0x27A1);
   (0x27B0, 0x27B0); (0x27BF, 0x27BF); (0x2934, 0x2935); (0x2B05, 0x2B07); (0x2B1B, 0x2B1C);
   (0x2B50, 0x2B50); (0x2B55, 0x2B55); (0x3030, 0x3030); (0x303D, 0x303D); (0x3297, 0x3297);
   (0x3299, 0x3299)]
  [(0x1F004, 0x1F004); (0x1F02C, 0x1F02F); (0x1F094, 0x1F09F); (0x1F0AF, 0x1F0B0); (0x1F0C0, 0x1F0C0);
   (0x1F0CF, 0x1F0D0); (0x1F0F6, 0x1F0FF); (0x1F170, 0x1F171); (0x1F17E, 0x1F17F); (0x1F18E, 0x1F18E);
   (0x1F191, 0x1F19A); (0x1F1AF, 0x1F1E5); (0x1F201, 0x1F20F); (0x1F21A, 0x1F21A); (0x1F22F, 0x1F22F);
   (0x1F232, 0x1F23A); (0x1F23C, 0x1F23F); (0x1F249, 0x1F25F); (0x1F266, 0x1F321); (0x1F324, 0x1F393);
   (0x1F396, 0x1F397); (0x1F399, 0x1F39B); (0x1F39E, 0x1F3F0); (0x1F3F3, 0x1F3F5); (0x1F3F7, 0x1F3FA);
   (0x1F400, 0x1F4FD); (0x1F4FF, 0x1F53D); (0x1F549, 0x1F54E); (0x1F550, 0x1F567); (0x1F56F, 0x1F570);
   (0x1F573, 0x1F57A); (0x1F587, 0x1F587); (0x1F58A, 0x1F58D); (0x1F590, 0x1F590); (0x1F595, 0x1F596);
   (0x1F5A4, 0x1F5A5); (0x1F5A8, 0x1F5A8); (0x1F5B1, 0x1F5B2); (0x1F5BC, 0x1F5BC); (0x1F5C2, 0x1F5C4);
   (0x1F5D1, 0x1F5D3); (0x1F5DC, 0x1F5DE); (0x1F5E1, 0x1F5E1); (0x1F5E3, 0x1F5E3); (0x1F5E8, 0x1F5E8);
   (0x1F5EF, 0x1F5EF); (0x1F5F3, 0x1F5F3); (0x1F5FA, 0x1F64F); (0x1F680, 0x1F6C5); (0x1F6CB, 0x1F6D2);
   (0x1F6D5, 0x1F6E5); (0x1F6E9, 0x1F6E9); (0x1F6EB, 0x1F6F0); (0x1F6F3, 0x1F6FF); (0x1F7DC, 0x1F7F0);
   (0x1F80C, 0x1F80F); (0x1F848, 0x1F84F); (0x1F85A, 0x1F85F); (0x1F888, 0x1F88F); (0x1F8AE, 0x1F8AF);
   (0x1F8BC, 0x1F8BF); (0x1F8C2, 0x1F8CF); (0x1F8D9, 0x1F8FF); (0x1F90C, 0x1F93A); (0x1F93C, 0x1F945);
   (0x1F947, 0x1F9FF); (0x1FA58, 0x1FA5F); (0x1FA6E, 0x1FAFF); (0x1FC00, 0x1FFFD)]
  []
  87 69 156.

(** ** Display width *)

(** zero_width_table *)
Definition zero_width_table : CodePointSetRef := Eval vm_compute in mkRef
  [(0x300, 0x36F); (0x483, 0x489); (0x591, 0x5BD); (0x5BF, 0x5BF); (0x5C1, 0x5C2); (0x5C4, 0x5C5);
   (0x5C7, 0x5C9); (0x600, 0x605); (0x610, 0x61A); (0x61C, 0x61C); (0x64B, 0x65F); (0x670, 0x670);
   (0x6D6, 0x6DD); (0x6DF, 0x6E4); (0x6E7, 0x6E8); (0x6EA, 0x6ED); (0x70F, 0x70F); (0x711, 0x711);
   (0x730, 0x74A); (0x7A6, 0x7B0); (0x7EB, 0x7F3); (0x7FD, 0x7FD); (0x816, 0x819); (0x81B, 0x823);
   (0x825, 0x827); (0x829, 0x82D); (0x859, 0x85B); (0x890, 0x891); (0x897, 0x89F); (0x8CA, 0x902);
   (0x93A, 0x93A); (0x93C, 0x93C); (0x941, 0x948); (0x94D, 0x94D); (0x951, 0x957); (0x962, 0x963);
   (0x981, 0x981); (0x9BC, 0x9BC); (0x9C1, 0x9C4); (0x9CD, 0x9CD); (0x9E2, 0x9E3); (0x9FE, 0x9FE);
   (0xA01, 0xA02); (0xA3C, 0xA3C); (0xA41, 0xA42); (0xA47, 0xA48); (0xA4B, 0xA4D); (0xA51, 0xA51);
   (0xA70, 0xA71); (0xA75, 0xA75); (0xA81, 0xA82); (0xABC, 0xABC); (0xAC1, 0xAC5); (0xAC7, 0xAC8);
   (0xACD, 0xACD); (0xAE2, 0xAE3); (0xAFA, 0xAFF); (0xB01, 0xB01); (0xB3C, 0xB3C); (0xB3F, 0xB3F);
   (0xB41, 0xB44); (0xB4D, 0xB4D); (0xB53, 0xB56); (0xB62, 0xB63); (0xB82, 0xB82); (0xBC0, 0xBC0);
   (0xBCD, 0xBCD); (0xC00, 0xC00); (0xC04, 0xC04); (0xC3C, 0xC3C); (0xC3E, 0xC40); (0xC46, 0xC48);
   (0xC4A, 0xC4D); (0xC55, 0xC56); (0xC62, 0xC63); (0xC81, 0xC81); (0xCBC, 0xCBC); (0xCBF, 0xCBF);
   (0xCC6, 0xCC6); (0xCCC, 0xCCD); (0xCE2, 0xCE3); (0xD00, 0xD01); (0xD3B, 0xD3C); (0xD41, 0xD44);
   (0xD4D, 0xD4D); (0xD62, 0xD63); (0xD81, 0xD81); (0xDCA, 0xDCA); (0xDD2, 0xDD4); (0xDD6, 0xDD6);
   (0xE31, 0xE31); (0xE34, 0xE3A); (0xE47, 0xE4E); (0xEB1, 0xEB1); (0xEB4, 0xEBC); (0xEC8, 0xECE);
   (0xF18, 0xF19); (0xF35, 0xF35); (0xF37, 0xF37); (0xF39, 0xF39); (0xF71, 0xF7E); (0xF80, 0xF84);
   (0xF86, 0xF87); (0xF8D, 0xF97); (0xF99, 0xFBC); (0xFC6, 0xFC6); (0x102D, 0x1030); (0x1032, 0x1037);
   (0x1039, 0x103A); (0x103D, 0x103E); (0x1058, 0x1059); (0x105E, 0x1060); (0x1071, 0x1074);
   (0x1082, 0x1082); (0x1085, 0x1086); (0x108D, 0x108D); (0x109D, 0x109D); (0x1160, 0x11FF);
   (0x135D, 0x135F); (0x1712, 0x1714); (0x1732, 0x1733); (0x1752, 0x1753); (0x1772, 0x1773);
   (0x17B4, 0x17B5); (0x17B7, 0x17BD); (0x17C6, 0x17C6); (0x17C9, 0x17D3); (0x17DD, 0x17DD);
   (0x180B, 0x180F); (0x1885, 0x1886); (0x18A9, 0x18A9); (0x1920, 0x1922); (0x1927, 0x1928);
   (0x1932, 0x1932); (0x1939, 0x193B); (0x1A17, 0x1A18); (0x1A1B, 0x1A1B); (0x1A56, 0x1A56);
   (0x1A58, 0x1A5E); (0x1A60, 0x1A60); (0x1A62, 0x1A62); (0x1A65, 0x1A6C); (0x1A73, 0x1A7C);
   (0x1A7F, 0x1A7F); (0x1AB0, 0x1AF0); (0x1B00, 0x1B03); (0x1B34, 0x1B34); (0x1B36, 0x1B3A);
   (0x1B3C, 0x1B3C); (0x1B42, 0x1B42); (0x1B6B, 0x1B73); (0x1B80, 0x1B81); (0x1BA2, 0x1BA5);
   (0x1BA8, 0x1BA9); (0x1BAB, 0x1BAD); (0x1BE6, 0x1BE6); (0x1BE8, 0x1BE9); (0x1BED, 0x1BED);
   (0x1BEF, 0x1BF1); (0x1C2C, 0x1C33); (0x1C36, 0x1C37); (0x1CD0, 0x1CD2); (0x1CD4, 0x1CE0);
   (0x1CE2, 0x1CE8); (0x1CED, 0x1CED); (0x1CF4, 0x1CF4); (0x1CF8, 0x1CF9); (0x1DC0, 0x1DFF);
   (0x200B, 0x200F); (0x202A, 0x202E); (0x2060, 0x2064); (0x2066, 0x206F); (0x20D0, 0x20F0);
   (0x2CEF, 0x2CF1); (0x2D7F, 0x2D7F); (0x2DE0, 0x2DFF); (0x302A, 0x302D); (0x3099, 0x309A);
   (0xA66F, 0xA672); (0xA674, 0xA67D); (0xA69E, 0xA69F); (0xA6F0, 0xA6F1); (0xA802, 0xA802);
   (0xA806, 0xA806); (0xA80B, 0xA80B); (0xA825, 0xA826); (0xA82C, 0xA82C); (0xA8C4, 0xA8C5);
   (0xA8E0, 0xA8F1); (0xA8FF, 0xA8FF); (0xA926, 0xA92D); (0xA947, 0xA951); (0xA980, 0xA982);
   (0xA9B3, 0xA9B3); (0xA9B6, 0xA9B9); (0xA9BC, 0xA9BD); (0xA9E5, 0xA9E5); (0xAA29, 0xAA2E);
   (0xAA31, 0xAA32); (0xAA35, 0xAA36); (0xAA43, 0xAA43); (0xAA4C, 0xAA4C); (0xAA7C, 0xAA7C);
   (0xAAB0, 0xAAB0); (0xAAB2, 0xAAB4); (0xAAB7, 0xAAB8); (0xAABE, 0xAABF); (0xAAC1, 0xAAC1);
   (0xAAEC, 0xAAED); (0xAAF6, 0xAAF6); (0xABE5, 0xABE5); (0xABE8, 0xABE8); (0xABED, 0xABED);
   (0xFB1E, 0xFB1E); (0xFE00, 0xFE0F); (0xFE20, 0xFE2F); (0xFEFF, 0xFEFF); (0xFFF9, 0xFFFB)]
  [(0x101FD, 0x101FD); (0x102E0, 0x102E0); (0x10376, 0x1037A); (0x10A01, 0x10A03); (0x10A05, 0x10A06);
   (0x10A0C, 0x10A0F); (0x10A38, 0x10A3A); (0x10A3F, 0x10A3F); (0x10AE5, 0x10AE6); (0x10D24, 0x10D27);
   (0x10D69, 0x10D6D); (0x10EAB, 0x10EAC); (0x10ECB, 0x10ECF); (0x10EF0, 0x10EFF); (0x10F46, 0x10F50);
   (0x10F82, 0x10F85); (0x11001, 0x11001); (0x11038, 0x11046); (0x11070, 0x11070); (0x11073, 0x11074);
   (0x1107F, 0x11081); (0x110B3, 0x110B6); (0x110B9, 0x110BA); (0x110BD, 0x110BD); (0x110C2, 0x110C2);
   (0x110CD, 0x110CD); (0x11100, 0x11102); (0x11127, 0x1112B); (0x1112D, 0x11134); (0x11173, 0x11173);
   (0x11180, 0x11181); (0x111B6, 0x111BE); (0x111C9, 0x111CC); (0x111CF, 0x111CF); (0x1122F, 0x11231);
   (0x11234, 0x11234); (0x11236, 0x11237); (0x1123E, 0x1123E); (0x11241, 0x11241); (0x112DF, 0x112DF);
   (0x112E3, 0x112EA); (0x11300, 0x11301); (0x1133B, 0x1133C); (0x11340, 0x11340); (0x11366, 0x1136C);
   (0x11370, 0x11374); (0x113BB, 0x113C0); (0x113CE, 0x113CE); (0x113D0, 0x113D0); (0x113D2, 0x113D2);
   (0x113E1, 0x113E2); (0x11438, 0x1143F); (0x11442, 0x11444); (0x11446, 0x11446); (0x1145E, 0x1145E);
   (0x114B3, 0x114B8); (0x114BA, 0x114BA); (0x114BF, 0x114C0); (0x114C2, 0x114C3); (0x115B2, 0x115B5);
   (0x115BC, 0x115BD); (0x115BF, 0x115C0); (0x115DC, 0x115DD); (0x11633, 0x1163A); (0x1163D, 0x1163D);
   (0x1163F, 0x11640); (0x116AB, 0x116AB); (0x116AD, 0x116AD); (0x116B0, 0x116B5); (0x116B7, 0x116B7);
   (0x1171D, 0x1171D); (0x1171F, 0x1171F); (0x11722, 0x11725); (0x11727, 0x1172B); (0x1182F, 0x11837);
   (0x11839, 0x1183A); (0x1193B, 0x1193C); (0x1193E, 0x1193E); (0x11943, 0x11943); (0x119D4, 0x119D7);
   (0x119DA, 0x119DB); (0x119E0, 0x119E0); (0x11A01, 0x11A0A); (0x11A33, 0x11A38); (0x11A3B, 0x11A3E);
   (0x11A47, 0x11A47); (0x11A51, 0x11A56); (0x11A59, 0x11A5B); (0x11A8A, 0x11A96); (0x11A98, 0x11A99);
   (0x11B60, 0x11B60); (0x11B62, 0x11B64); (0x11B66, 0x11B66); (0x11C30, 0x11C36); (0x11C38, 0x11C3D);
   (0x11C3F, 0x11C3F); (0x11C92, 0x11CA7); (0x11CAA, 0x11CB0); (0x11CB2, 0x11CB3); (0x11CB5, 0x11CB6);
   (0x11D31, 0x11D36); (0x11D3A, 0x11D3A); (0x11D3C, 0x11D3D); (0x11D3F, 0x11D45); (0x11D47, 0x11D47);
   (0x11D90, 0x11D91); (0x11D95, 0x11D95); (0x11D97, 0x11D97); (0x11DF0, 0x11DF0); (0x11EF3, 0x11EF4);
   (0x11F00, 0x11F01); (0x11F36, 0x11F3A); (0x11F40, 0x11F40); (0x11F42, 0x11F42); (0x11F5A, 0x11F5A);
   (0x13430, 0x13440); (0x13447, 0x13455); (0x1611E, 0x16129); (0x1612D, 0x1612F); (0x16AF0, 0x16AF4);
   (0x16B30, 0x16B36); (0x16F4F, 0x16F4F); (0x16F8F, 0x16F92); (0x16FE4, 0x16FE4); (0x1BC9D, 0x1BC9E);
   (0x1BCA0, 0x1BCA3); (0x1CF00, 0x1CF2D); (0x1CF30, 0x1CF46); (0x1D127, 0x1D128); (0x1D167, 0x1D169);
   (0x1D173, 0x1D182); (0x1D185, 0x1D18B); (0x1D1AA, 0x1D1AD); (0x1D242, 0x1D244); (0x1D25B, 0x1D25C);
   (0x1DA00, 0x1DA36); (0x1DA3B, 0x1DA6C); (0x1DA75, 0x1DA75); (0x1DA84, 0x1DA84); (0x1DA9B, 0x1DA9F);
   (0x1DAA1, 0x1DAAF); (0x1E000, 0x1E006); (0x1E008, 0x1E018); (0x1E01B, 0x1E021); (0x1E023, 0x1E024);
   (0x1E026, 0x1E02A); (0x1E08F, 0x1E08F); (0x1E130, 0x1E136); (0x1E2AE, 0x1E2AE); (0x1E2EC, 0x1E2EF);
   (0x1E4EC, 0x1E4EF); (0x1E5EE, 0x1E5EF); (0x1E6E3, 0x1E6E3); (0x1E6E6, 0x1E6E6); (0x1E6EE, 0x1E6EF);
   (0x1E6F5, 0x1E6F5); (0x1E8D0, 0x1E8D6); (0x1E944, 0x1E94A); (0xE0001, 0xE0001); (0xE0020, 0xE007F);
   (0xE0100, 0xE01EF)]
  []
  218 161 379.

(** two_width_table *)
Definition two_width_table : CodePointSetRef := Eval vm_compute in mkRef
  [(0x1100, 0x115F); (0x231A, 0x231B); (0x2329, 0x232A); (0x23E9, 0x23EC); (0x23F0, 0x23F0);
   (0x23F3, 0x23F3); (0x25FD, 0x25FE); (0x2614, 0x2615); (0x2630, 0x2637); (0x2648, 0x2653);
   (0x267F, 0x267F); (0x268A, 0x268F); (0x2693, 0x2693); (0x26A1, 0x26A1); (0x26AA, 0x26AB);
   (0x26BD, 0x26BE); (0x26C4, 0x26C5); (0x26CE, 0x26CE); (0x26D4, 0x26D4); (0x26EA, 0x26EA);
   (0x26F2, 0x26F3); (0x26F5, 0x26F5); (0x26FA, 0x26FA); (0x26FD, 0x26FD); (0x2705, 0x2705);
   (0x270A, 0x270B); (0x2728, 0x2728); (0x274C, 0x274C); (0x274E, 0x274E); (0x2753, 0x2755);
   (0x2757, 0x2757); (0x2795, 0x2797); (0x27B0, 0x27B0); (0x27BF, 0x27BF); (0x2B1B, 0x2B1C);
   (0x2B50, 0x2B50); (0x2B55, 0x2B55); (0x2E80, 0x2E99); (0x2E9B, 0x2EF3); (0x2F00, 0x2FD5);
   (0x2FF0, 0x3029); (0x302E, 0x303E); (0x3041, 0x3096); (0x309B, 0x30FF); (0x3105, 0x312F);
   (0x3131, 0x318E); (0x3190, 0x31E5); (0x31EF, 0x321E); (0x3220, 0x3247); (0x3250, 0xA48C);
   (0xA490, 0xA4C6); (0xA960, 0xA97C); (0xAC00, 0xD7A3); (0xF900, 0xFAFF); (0xFE10, 0xFE19);
   (0xFE30, 0xFE52); (0xFE54, 0xFE66); (0xFE68, 0xFE6B); (0xFF01, 0xFF60); (0xFFE0, 0xFFE6)]
  [(0x16FE0, 0x16FE3); (0x16FF0, 0x16FF6); (0x18CFF, 0x18D20); (0x18D80, 0x18DF2); (0x18E00, 0x19191);
   (0x191A0, 0x191D2); (0x1AFF0, 0x1AFF3); (0x1AFF5, 0x1AFFB); (0x1AFFD, 0x1AFFE); (0x1B000, 0x1B128);
   (0x1B132, 0x1B132); (0x1B150, 0x1B152); (0x1B155, 0x1B155); (0x1B164, 0x1B168); (0x1B170, 0x1B2FB);
   (0x1D300, 0x1D356); (0x1D360, 0x1D376); (0x1F004, 0x1F004); (0x1F0CF, 0x1F0CF); (0x1F18E, 0x1F18E);
   (0x1F191, 0x1F19A); (0x1F1AE, 0x1F1AE); (0x1F200, 0x1F202); (0x1F210, 0x1F23B); (0x1F240, 0x1F248);
   (0x1F250, 0x1F251); (0x1F260, 0x1F265); (0x1F300, 0x1F320); (0x1F32D, 0x1F335); (0x1F337, 0x1F37C);
   (0x1F37E, 0x1F393); (0x1F3A0, 0x1F3CA); (0x1F3CF, 0x1F3D3); (0x1F3E0, 0x1F3F0); (0x1F3F4, 0x1F3F4);
   (0x1F3F8, 0x1F43E); (0x1F440, 0x1F440); (0x1F442, 0x1F4FC); (0x1F4FF, 0x1F53D); (0x1F54B, 0x1F54E);
   (0x1F550, 0x1F567); (0x1F57A, 0x1F57A); (0x1F595, 0x1F596); (0x1F5A4, 0x1F5A4); (0x1F5FB, 0x1F64F);
   (0x1F680, 0x1F6C5); (0x1F6CC, 0x1F6CC); (0x1F6D0, 0x1F6D2); (0x1F6D5, 0x1F6D9); (0x1F6DC, 0x1F6DF);
   (0x1F6EB, 0x1F6EC); (0x1F6F4, 0x1F6FC); (0x1F7DA, 0x1F7DA); (0x1F7E0, 0x1F7EB); (0x1F7F0, 0x1F7F0);
   (0x1F90C, 0x1F93A); (0x1F93C, 0x1F945); (0x1F947, 0x1F9FF); (0x1FA70, 0x1FA7C); (0x1FA80, 0x1FAC6);
   (0x1FAC8, 0x1FAC8); (0x1FACC, 0x1FADD); (0x1FADF, 0x1FAEB); (0x1FAEF, 0x1FAFA)]
  [0x17000; 0x18CDA; 0x20000; 0x2FFFD; 0x30000; 0x3FFFD]
  60 64 130.

(** ambiguous_width_table *)
Definition ambiguous_width_table : CodePointSetRef := Eval vm_compute in mkRef
  [(0xA1, 0xA1); (0xA4, 0xA4); (0xA7, 0xA8); (0xAA, 0xAA); (0xAE, 0xAE); (0xB0, 0xB4); (0xB6, 0xBA);
   (0xBC, 0xBF); (0xC6, 0xC6); (0xD0, 0xD0); (0xD7, 0xD8); (0xDE, 0xE1); (0xE6, 0xE6); (0xE8, 0xEA);
   (0xEC, 0xED); (0xF0, 0xF0); (0xF2, 0xF3); (0xF7, 0xFA); (0xFC, 0xFC); (0xFE, 0xFE); (0x101, 0x101);
   (0x111, 0x111); (0x113, 0x113); (0x11B, 0x11B); (0x126, 0x127); (0x12B, 0x12B); (0x131, 0x133);
   (0x138, 0x138); (0x13F, 0x142); (0x144, 0x144); (0x148, 0x14B); (0x14D, 0x14D); (0x152, 0x153);
   (0x166, 0x167); (0x16B, 0x16B); (0x1CE, 0x1CE); (0x1D0, 0x1D0); (0x1D2, 0x1D2); (0x1D4, 0x1D4);
   (0x1D6, 0x1D6); (0x1D8, 0x1D8); (0x1DA, 0x1DA); (0x1DC, 0x1DC); (0x251, 0x251); (0x261, 0x261);
   (0x2C4, 0x2C4); (0x2C7, 0x2C7); (0x2C9, 0x2CB); (0x2CD, 0x2CD); (0x2D0, 0x2D0); (0x2D8, 0x2DB);
   (0x2DD, 0x2DD); (0x2DF, 0x2DF); (0x391, 0x3A1); (0x3A3, 0x3A9); (0x3B1, 0x3C1); (0x3C3, 0x3C9);
   (0x401, 0x401); (0x410, 0x44F); (0x451, 0x451); (0x2010, 0x2010); (0x2013, 0x2016); (0x2018, 0x2019);
   (0x201C, 0x201D); (0x2020, 0x2022); (0x2024, 0x2027); (0x2030, 0x2030); (0x2032, 0x2033);
   (0x2035, 0x2035); (0x203B, 0x203B); (0x203E, 0x203E); (0x2074, 0x2074); (0x207F, 0x207F);
   (0x2081, 0x2084); (0x20AC, 0x20AC); (0x2103, 0x2103); (0x2105, 0x2105); (0x2109, 0x2109);
   (0x2113, 0x2113); (0x2116, 0x2116); (0x2121, 0x2122); (0x2126, 0x2126); (0x212B, 0x212B);
   (0x2153, 0x2154); (0x215B, 0x215E); (0x2160, 0x216B); (0x2170, 0x2179); (0x2189, 0x2189);
   (0x2190, 0x2199); (0x21B8, 0x21B9); (0x21D2, 0x21D2); (0x21D4, 0x21D4); (0x21E7, 0x21E7);
   (0x2200, 0x2200); (0x2202, 0x2203); (0x2207, 0x2208); (0x220B, 0x220B); (0x220F, 0x220F);
   (0x2211, 0x2211); (0x2215, 0x2215); (0x221A, 0x221A); (0x221D, 0x2220); (0x2223, 0x2223);
   (0x2225, 0x2225); (0x2227, 0x222C); (0x222E, 0x222E); (0x2234, 0x2237); (0x223C, 0x223D);
   (0x2248, 0x2248); (0x224C, 0x224C); (0x2252, 0x2252); (0x2260, 0x2261); (0x2264, 0x2267);
   (0x226A, 0x226B); (0x226E, 0x226F); (0x2282, 0x2283); (0x2286, 0x2287); (0x2295, 0x2295);
   (0x2299, 0x2299); (0x22A5, 0x22A5); (0x22BF, 0x22BF); (0x2312, 0x2312); (0x2460, 0x24E9);
   (0x24EB, 0x254B); (0x2550, 0x2573); (0x2580, 0x258F); (0x2592, 0x2595); (0x25A0, 0x25A1);
   (0x25A3, 0x25A9); (0x25B2, 0x25B3); (0x25B6, 0x25B7); (0x25BC, 0x25BD); (0x25C0, 0x25C1);
   (0x25C6, 0x25C8); (0x25CB, 0x25CB); (0x25CE, 0x25D1); (0x25E2, 0x25E5); (0x25EF, 0x25EF);
   (0x2605, 0x2606); (0x2609, 0x2609); (0x260E, 0x260F); (0x261C, 0x261C); (0x261E, 0x261E);
   (0x2640, 0x2640); (0x2642, 0x2642); (0x2660, 0x2661); (0x2663, 0x2665); (0x2667, 0x266A);
   (0x266C, 0x266D); (0x266F, 0x266F); (0x269E, 0x269F); (0x26BF, 0x26BF); (0x26C6, 0x26CD);
   (0x26CF, 0x26D3); (0x26D5, 0x26E1); (0x26E3, 0x26E3); (0x26E8, 0x26E9); (0x26EB, 0x26F1);
   (0x26F4, 0x26F4); (0x26F6, 0x26F9); (0x26FB, 0x26FC); (0x26FE, 0x26FF); (0x273D, 0x273D);
   (0x2776, 0x277F); (0x2B56, 0x2B59); (0x3248, 0x324F); (0xE000, 0xF8FF); (0xFFFD, 0xFFFD)]
  [(0x1F100, 0x1F10A); (0x1F110, 0x1F12D); (0x1F130, 0x1F169); (0x1F170, 0x1F18D); (0x1F18F, 0x1F190);
   (0x1F19B, 0x1F1AC)]
  [0xF0000; 0xFFFFD; 0x100000; 0x10FFFD]
  168 6 178.

(** The bases of emoji variation sequences, sorted. *)
Definition emoji_variation_table : list Z :=
  [0x23; 0x2A; 0x30; 0x31; 0x32; 0x33; 0x34; 0x35; 0x36; 0x37; 0x38; 0x39; 0xA9; 0xAE; 0x203C; 0x2049;
   0x2122; 0x2139; 0x2194; 0x2195; 0x2196; 0x2197; 0x2198; 0x2199; 0x21A9; 0x21AA; 0x231A; 0x231B; 0x2328;
   0x23CF; 0x23E9; 0x23EA; 0x23EB; 0x23EC; 0x23ED; 0x23EE; 0x23EF; 0x23F0; 0x23F1; 0x23F2; 0x23F3; 0x23F8;
   0x23F9; 0x23FA; 0x24C2; 0x25AA; 0x25AB; 0x25B6; 0x25C0; 0x25FB; 0x25FC; 0x25FD; 0x25FE; 0x2600; 0x2601;
   0x2602; 0x2603; 0x2604; 0x260E; 0x2611; 0x2614; 0x2615; 0x2618; 0x261D; 0x2620; 0x2622; 0x2623; 0x2626;
   0x262A; 0x262E; 0x262F; 0x2638; 0x2639; 0x263A; 0x2640; 0x2642; 0x2648; 0x2649; 0x264A; 0x264B; 0x264C;
   0x264D; 0x264E; 0x264F; 0x2650; 0x2651; 0x2652; 0x2653; 0x265F; 0x2660; 0x2663; 0x2665; 0x2666; 0x2668;
   0x267B; 0x267E; 0x267F; 0x2692; 0x2693; 0x2694; 0x2695; 0x2696; 0x2697; 0x2699; 0x269B; 0x269C; 0x26A0;
   0x26A1; 0x26A7; 0x26AA; 0x26AB; 0x26B0; 0x26B1; 0x26BD; 0x26BE; 0x26C4; 0x26C5; 0x26C8; 0x26CE; 0x26CF;
   0x26D1; 0x26D3; 0x26D4; 0x26E9; 0x26EA; 0x26F0; 0x26F1; 0x26F2; 0x26F3; 0x26F4; 0x26F5; 0x26F7; 0x26F8;
   0x26F9; 0x26FA; 0x26FD; 0x2702; 0x2705; 0x2708; 0x2709; 0x270A; 0x270B; 0x270C; 0x270D; 0x270F; 0x2712;
   0x2714; 0x2716; 0x271D; 0x2721; 0x2728; 0x2733; 0x2734; 0x2744; 0x2747; 0x274C; 0x274E; 0x2753; 0x2754;
   0x2755; 0x2757; 0x2763; 0x2764; 0x2795; 0x2796; 0x2797; 0x27A1; 0x27B0; 0x27BF; 0x2934; 0x2935; 0x2B05;
   0x2B06; 0x2B07; 0x2B1B; 0x2B1C; 0x2B50; 0x2B55; 0x3030; 0x303D; 0x3297; 0x3299; 0x1F004; 0x1F170;
   0x1F171; 0x1F17E; 0x1F17F; 0x1F202; 0x1F21A; 0x1F22F; 0x1F237; 0x1F30D; 0x1F30E; 0x1F30F; 0x1F315;
   0x1F31C; 0x1F321; 0x1F324; 0x1F325; 0x1F326; 0x1F327; 0x1F328; 0x1F329; 0x1F32A; 0x1F32B; 0x1F32C;
   0x1F336; 0x1F378; 0x1F37D; 0x1F393; 0x1F396; 0x1F397; 0x1F399; 0x1F39A; 0x1F39B; 0x1F39E; 0x1F39F;
   0x1F3A7; 0x1F3AC; 0x1F3AD; 0x1F3AE; 0x1F3C2; 0x1F3C4; 0x1F3C6; 0x1F3CA; 0x1F3CB; 0x1F3CC; 0x1F3CD;
   0x1F3CE; 0x1F3D4; 0x1F3D5; 0x1F3D6; 0x1F3D7; 0x1F3D8; 0x1F3D9; 0x1F3DA; 0x1F3DB; 0x1F3DC; 0x1F3DD;
   0x1F3DE; 0x1F3DF; 0x1F3E0; 0x1F3ED; 0x1F3F3; 0x1F3F5; 0x1F3F7; 0x1F408; 0x1F415; 0x1F41F; 0x1F426;
   0x1F43F; 0x1F441; 0x1F442; 0x1F446; 0x1F447; 0x1F448; 0x1F449; 0x1F44D; 0x1F44E; 0x1F453; 0x1F46A;
   0x1F47D; 0x1F4A3; 0x1F4B0; 0x1F4B3; 0x1F4BB; 0x1F4BF; 0x1F4CB; 0x1F4DA; 0x1F4DF; 0x1F4E4; 0x1F4E5;
   0x1F4E6; 0x1F4EA; 0x1F4EB; 0x1F4EC; 0x1F4ED; 0x1F4F7; 0x1F4F9; 0x1F4FA; 0x1F4FB; 0x1F4FD; 0x1F508;
   0x1F50D; 0x1F512; 0x1F513; 0x1F549; 0x1F54A; 0x1F550; 0x1F551; 0x1F552; 0x1F553; 0x1F554; 0x1F555;
   0x1F556; 0x1F557; 0x1F558; 0x1F559; 0x1F55A; 0x1F55B; 0x1F55C; 0x1F55D; 0x1F55E; 0x1F55F; 0x1F560;
   0x1F561; 0x1F562; 0x1F563; 0x1F564; 0x1F565; 0x1F566; 0x1F567; 0x1F56F; 0x1F570; 0x1F573; 0x1F574;
   0x1F575; 0x1F576; 0x1F577; 0x1F578; 0x1F579; 0x1F587; 0x1F58A; 0x1F58B; 0x1F58C; 0x1F58D; 0x1F590;
   0x1F5A5; 0x1F5A8; 0x1F5B1; 0x1F5B2; 0x1F5BC; 0x1F5C2; 0x1F5C3; 0x1F5C4; 0x1F5D1; 0x1F5D2; 0x1F5D3;
   0x1F5DC; 0x1F5DD; 0x1F5DE; 0x1F5E1; 0x1F5E3; 0x1F5E8; 0x1F5EF; 0x1F5F3; 0x1F5FA; 0x1F610; 0x1F687;
   0x1F68D; 0x1F691; 0x1F694; 0x1F698; 0x1F6AD; 0x1F6B2; 0x1F6B9; 0x1F6BA; 0x1F6BC; 0x1F6CB; 0x1F6CD;
   0x1F6CE; 0x1F6CF; 0x1F6E0; 0x1F6E1; 0x1F6E2; 0x1F6E3; 0x1F6E4; 0x1F6E5; 0x1F6E9; 0x1F6F0; 0x1F6F3].

(** ** CodePointWithMeta: eight bits of meta data over a code point, -1 as 0xFFFFFF *)

Definition codePointWithMeta (codePoint meta : Z) : Z :=
  Z.lor (u32 (Z.shiftl meta 24))
    (if codePoint <? 0 then 0xFFFFFF else Z.land (u32 codePoint) 0xFFFFFF).
Definition getMeta (v : Z) : Z := u8 (Z.shiftr v 24).
Definition metaCodePoint (v : Z) : Z :=
  let cc := Z.land v 0xFFFFFF in if cc =? 0xFFFFFF then -1 else cc.

(** std::upper_bound by code point: the index of the first entry after [c]. *)
Definition upperBound (table : list Z) (c : Z) : nat :=
  lowerBound (length table) (fun v => negb (c <? metaCodePoint v)) table 0 (length table).

(** A table as its source lists it. *)
Definition packTable {P} (toUnderlying : P -> Z) (l : list (Z * P)) : list Z :=
  map (fun e => codePointWithMeta (fst e) (toUnderlying (snd e))) l.

End UcdTables.
