(* ===== verification/GraphemeBreak.v ===== *)
(** The break properties of grapheme clusters: the enumeration and the lookup
    (src/unicode/grapheme.h, src/unicode/grapheme.cpp) and the table
    (src/unicode/grapheme_break_property.in), entry by entry. *)
From S2P Require Import Prelude CodePointSet UcdTables.

Module GraphemeBreak.
Import CodePointSet UcdTables.

Inductive BreakProperty :=
  SOT | Any | CR | LF | Control | Extend | ZWJ | Regional_Indicator
  | Prepend | SpacingMark | L | V | T
  | LV | LVT | Extended_Pictographic | Extended_Pictographic_with_ZWJ | InCB_Consonant
  | InCB_Extend | InCB_Linker.

#[export] Instance BreakProperty_eq_dec : EqDecision BreakProperty.
Proof. solve_decision. Defined.

(** The enumerators in order. *)
Definition breakProperties : list BreakProperty :=
  [SOT; Any; CR; LF; Control; Extend; ZWJ; Regional_Indicator; Prepend; SpacingMark; L; V; T; LV; LVT;
   Extended_Pictographic; Extended_Pictographic_with_ZWJ; InCB_Consonant; InCB_Extend; InCB_Linker].

Definition toUnderlying (p : BreakProperty) : Z :=
  match p with
  | SOT => 0 | Any => 1 | CR => 2 | LF => 3 | Control => 4
  | Extend => 5 | ZWJ => 6 | Regional_Indicator => 7 | Prepend => 8 | SpacingMark => 9
  | L => 10 | V => 11 | T => 12 | LV => 13 | LVT => 14
  | Extended_Pictographic => 15 | Extended_Pictographic_with_ZWJ => 16 | InCB_Consonant => 17 | InCB_Extend => 18 | InCB_Linker => 19
  end.

(** [static_cast<BreakProperty>(v)] *)
Definition ofUnderlying (v : Z) : BreakProperty := nth (Z.to_nat v) breakProperties Any.

Definition grapheme_break_property_table : list Z := Eval vm_compute in packTable toUnderlying
  [(0x0, Control); (0xA, LF); (0xB, Control); (0xD, CR); (0xE, Control); (0x20, Any); (0x7F, Control);
   (0xA0, Any); (0xAD, Control); (0xAE, Any); (0x300, Extend); (0x370, Any); (0x483, Extend); (0x48A, Any);
   (0x591, Extend); (0x5BE, Any); (0x5BF, Extend); (0x5C0, Any); (0x5C1, Extend); (0x5C3, Any);
   (0x5C4, Extend); (0x5C6, Any); (0x5C7, Extend); (0x5CA, Any); (0x600, Prepend); (0x606, Any);
   (0x610, Extend); (0x61B, Any); (0x61C, Control); (0x61D, Any); (0x64B, Extend); (0x660, Any);
   (0x670, Extend); (0x671, Any); (0x6D6, Extend); (0x6DD, Prepend); (0x6DE, Any); (0x6DF, Extend);
   (0x6E5, Any); (0x6E7, Extend); (0x6E9, Any); (0x6EA, Extend); (0x6EE, Any); (0x70F, Prepend);
   (0x710, Any); (0x711, Extend); (0x712, Any); (0x730, Extend); (0x74B, Any); (0x7A6, Extend);
   (0x7B1, Any); (0x7EB, Extend); (0x7F4, Any); (0x7FD, Extend); (0x7FE, Any); (0x816, Extend);
   (0x81A, Any); (0x81B, Extend); (0x824, Any); (0x825, Extend); (0x828, Any); (0x829, Extend);
   (0x82E, Any); (0x859, Extend); (0x85C, Any); (0x890, Prepend); (0x892, Any); (0x897, Extend);
   (0x8A0, Any); (0x8CA, Extend); (0x8E2, Prepend); (0x8E3, Extend); (0x903, SpacingMark); (0x904, Any);
   (0x93A, Extend); (0x93B, SpacingMark); (0x93C, Extend); (0x93D, Any); (0x93E, SpacingMark);
   (0x941, Extend); (0x949, SpacingMark); (0x94D, Extend); (0x94E, SpacingMark); (0x950, Any);
   (0x951, Extend); (0x958, Any); (0x962, Extend); (0x964, Any); (0x981, Extend); (0x982, SpacingMark);
   (0x984, Any); (0x9BC, Extend); (0x9BD, Any); (0x9BE, Extend); (0x9BF, SpacingMark); (0x9C1, Extend);
   (0x9C5, Any); (0x9C7, SpacingMark); (0x9C9, Any); (0x9CB, SpacingMark); (0x9CD, Extend); (0x9CE, Any);
   (0x9D7, Extend); (0x9D8, Any); (0x9E2, Extend); (0x9E4, Any); (0x9FE, Extend); (0x9FF, Any);
   (0xA01, Extend); (0xA03, SpacingMark); (0xA04, Any); (0xA3C, Extend); (0xA3D, Any);
   (0xA3E, SpacingMark); (0xA41, Extend); (0xA43, Any); (0xA47, Extend); (0xA49, Any); (0xA4B, Extend);
   (0xA4E, Any); (0xA51, Extend); (0xA52, Any); (0xA70, Extend); (0xA72, Any); (0xA75, Extend);
   (0xA76, Any); (0xA81, Extend); (0xA83, SpacingMark); (0xA84, Any); (0xABC, Extend); (0xABD, Any);
   (0xABE, SpacingMark); (0xAC1, Extend); (0xAC6, Any); (0xAC7, Extend); (0xAC9, SpacingMark);
   (0xACA, Any); (0xACB, SpacingMark); (0xACD, Extend); (0xACE, Any); (0xAE2, Extend); (0xAE4, Any);
   (0xAFA, Extend); (0xB00, Any); (0xB01, Extend); (0xB02, SpacingMark); (0xB04, Any); (0xB3C, Extend);
   (0xB3D, Any); (0xB3E, Extend); (0xB40, SpacingMark); (0xB41, Extend); (0xB45, Any);
   (0xB47, SpacingMark); (0xB49, Any); (0xB4B, SpacingMark); (0xB4D, Extend); (0xB4E, Any);
   (0xB53, Extend); (0xB58, Any); (0xB62, Extend); (0xB64, Any); (0xB82, Extend); (0xB83, Any);
   (0xBBE, Extend); (0xBBF, SpacingMark); (0xBC0, Extend); (0xBC1, SpacingMark); (0xBC3, Any);
   (0xBC6, SpacingMark); (0xBC9, Any); (0xBCA, SpacingMark); (0xBCD, Extend); (0xBCE, Any);
   (0xBD7, Extend); (0xBD8, Any); (0xC00, Extend); (0xC01, SpacingMark); (0xC04, Extend); (0xC05, Any);
   (0xC3C, Extend); (0xC3D, Any); (0xC3E, Extend); (0xC41, SpacingMark); (0xC45, Any); (0xC46, Extend);
   (0xC49, Any); (0xC4A, Extend); (0xC4E, Any); (0xC55, Extend); (0xC57, Any); (0xC62, Extend);
   (0xC64, Any); (0xC81, Extend); (0xC82, SpacingMark); (0xC84, Any); (0xCBC, Extend); (0xCBD, Any);
   (0xCBE, SpacingMark); (0xCBF, Extend); (0xCC1, SpacingMark); (0xCC2, Extend); (0xCC3, SpacingMark);
   (0xCC5, Any); (0xCC6, Extend); (0xCC9, Any); (0xCCA, Extend); (0xCCE, Any); (0xCD5, Extend);
   (0xCD7, Any); (0xCE2, Extend); (0xCE4, Any); (0xCF3, SpacingMark); (0xCF4, Any); (0xD00, Extend);
   (0xD02, SpacingMark); (0xD04, Any); (0xD3B, Extend); (0xD3D, Any); (0xD3E, Extend);
   (0xD3F, SpacingMark); (0xD41, Extend); (0xD45, Any); (0xD46, SpacingMark); (0xD49, Any);
   (0xD4A, SpacingMark); (0xD4D, Extend); (0xD4E, Prepend); (0xD4F, Any); (0xD57, Extend); (0xD58, Any);
   (0xD62, Extend); (0xD64, Any); (0xD81, Extend); (0xD82, SpacingMark); (0xD84, Any); (0xDCA, Extend);
   (0xDCB, Any); (0xDCF, Extend); (0xDD0, SpacingMark); (0xDD2, Extend); (0xDD5, Any); (0xDD6, Extend);
   (0xDD7, Any); (0xDD8, SpacingMark); (0xDDF, Extend); (0xDE0, Any); (0xDF2, SpacingMark); (0xDF4, Any);
   (0xE31, Extend); (0xE32, Any); (0xE33, SpacingMark); (0xE34, Extend); (0xE3B, Any); (0xE47, Extend);
   (0xE4F, Any); (0xEB1, Extend); (0xEB2, Any); (0xEB3, SpacingMark); (0xEB4, Extend); (0xEBD, Any);
   (0xEC8, Extend); (0xECF, Any); (0xF18, Extend); (0xF1A, Any); (0xF35, Extend); (0xF36, Any);
   (0xF37, Extend); (0xF38, Any); (0xF39, Extend); (0xF3A, Any); (0xF3E, SpacingMark); (0xF40, Any);
   (0xF71, Extend); (0xF7F, SpacingMark); (0xF80, Extend); (0xF85, Any); (0xF86, Extend); (0xF88, Any);
   (0xF8D, Extend); (0xF98, Any); (0xF99, Extend); (0xFBD, Any); (0xFC6, Extend); (0xFC7, Any);
   (0x102D, Extend); (0x1031, SpacingMark); (0x1032, Extend); (0x1038, Any); (0x1039, Extend);
   (0x103B, SpacingMark); (0x103D, Extend); (0x103F, Any); (0x1056, SpacingMark); (0x1058, Extend);
   (0x105A, Any); (0x105E, Extend); (0x1061, Any); (0x1071, Extend); (0x1075, Any); (0x1082, Extend);
   (0x1083, Any); (0x1084, SpacingMark); (0x1085, Extend); (0x1087, Any); (0x108D, Extend); (0x108E, Any);
   (0x109D, Extend); (0x109E, Any); (0x1100, L); (0x1160, V); (0x11A8, T); (0x1200, Any); (0x135D, Extend);
   (0x1360, Any); (0x1712, Extend); (0x1716, Any); (0x1732, Extend); (0x1735, Any); (0x1752, Extend);
   (0x1754, Any); (0x1772, Extend); (0x1774, Any); (0x17B4, Extend); (0x17B6, SpacingMark);
   (0x17B7, Extend); (0x17BE, SpacingMark); (0x17C6, Extend); (0x17C7, SpacingMark); (0x17C9, Extend);
   (0x17D4, Any); (0x17DD, Extend); (0x17DE, Any); (0x180B, Extend); (0x180E, Control); (0x180F, Extend);
   (0x1810, Any); (0x1885, Extend); (0x1887, Any); (0x18A9, Extend); (0x18AA, Any); (0x1920, Extend);
   (0x1923, SpacingMark); (0x1927, Extend); (0x1929, SpacingMark); (0x192C, Any); (0x1930, SpacingMark);
   (0x1932, Extend); (0x1933, SpacingMark); (0x1939, Extend); (0x193C, Any); (0x1A17, Extend);
   (0x1A19, SpacingMark); (0x1A1B, Extend); (0x1A1C, Any); (0x1A55, SpacingMark); (0x1A56, Extend);
   (0x1A57, SpacingMark); (0x1A58, Extend); (0x1A5F, Any); (0x1A60, Extend); (0x1A61, Any);
   (0x1A62, Extend); (0x1A63, Any); (0x1A65, Extend); (0x1A6D, SpacingMark); (0x1A73, Extend);
   (0x1A7D, Any); (0x1A7F, Extend); (0x1A80, Any); (0x1AB0, Extend); (0x1AF1, Any); (0x1B00, Extend);
   (0x1B04, SpacingMark); (0x1B05, Any); (0x1B34, Extend); (0x1B3E, SpacingMark); (0x1B42, Extend);
   (0x1B45, Any); (0x1B6B, Extend); (0x1B74, Any); (0x1B80, Extend); (0x1B82, SpacingMark); (0x1B83, Any);
   (0x1BA1, SpacingMark); (0x1BA2, Extend); (0x1BA6, SpacingMark); (0x1BA8, Extend); (0x1BAE, Any);
   (0x1BE6, Extend); (0x1BE7, SpacingMark); (0x1BE8, Extend); (0x1BEA, SpacingMark); (0x1BED, Extend);
   (0x1BEE, SpacingMark); (0x1BEF, Extend); (0x1BF4, Any); (0x1C24, SpacingMark); (0x1C2C, Extend);
   (0x1C34, SpacingMark); (0x1C36, Extend); (0x1C38, Any); (0x1CD0, Extend); (0x1CD3, Any);
   (0x1CD4, Extend); (0x1CE1, SpacingMark); (0x1CE2, Extend); (0x1CE9, Any); (0x1CED, Extend);
   (0x1CEE, Any); (0x1CF4, Extend); (0x1CF5, Any); (0x1CF7, SpacingMark); (0x1CF8, Extend); (0x1CFA, Any);
   (0x1DC0, Extend); (0x1E00, Any); (0x200B, Control); (0x200C, Extend); (0x200D, ZWJ); (0x200E, Control);
   (0x2010, Any); (0x2028, Control); (0x202F, Any); (0x2060, Control); (0x2070, Any); (0x20D0, Extend);
   (0x20F1, Any); (0x2CEF, Extend); (0x2CF2, Any); (0x2D7F, Extend); (0x2D80, Any); (0x2DE0, Extend);
   (0x2E00, Any); (0x302A, Extend); (0x3030, Any); (0x3099, Extend); (0x309B, Any); (0xA66F, Extend);
   (0xA673, Any); (0xA674, Extend); (0xA67E, Any); (0xA69E, Extend); (0xA6A0, Any); (0xA6F0, Extend);
   (0xA6F2, Any); (0xA802, Extend); (0xA803, Any); (0xA806, Extend); (0xA807, Any); (0xA80B, Extend);
   (0xA80C, Any); (0xA823, SpacingMark); (0xA825, Extend); (0xA827, SpacingMark); (0xA828, Any);
   (0xA82C, Extend); (0xA82D, Any); (0xA880, SpacingMark); (0xA882, Any); (0xA8B4, SpacingMark);
   (0xA8C4, Extend); (0xA8C6, Any); (0xA8E0, Extend); (0xA8F2, Any); (0xA8FF, Extend); (0xA900, Any);
   (0xA926, Extend); (0xA92E, Any); (0xA947, Extend); (0xA952, SpacingMark); (0xA953, Extend);
   (0xA954, Any); (0xA960, L); (0xA97D, Any); (0xA980, Extend); (0xA983, SpacingMark); (0xA984, Any);
   (0xA9B3, Extend); (0xA9B4, SpacingMark); (0xA9B6, Extend); (0xA9BA, SpacingMark); (0xA9BC, Extend);
   (0xA9BE, SpacingMark); (0xA9C0, Extend); (0xA9C1, Any); (0xA9E5, Extend); (0xA9E6, Any);
   (0xAA29, Extend); (0xAA2F, SpacingMark); (0xAA31, Extend); (0xAA33, SpacingMark); (0xAA35, Extend);
   (0xAA37, Any); (0xAA43, Extend); (0xAA44, Any); (0xAA4C, Extend); (0xAA4D, SpacingMark); (0xAA4E, Any);
   (0xAA7C, Extend); (0xAA7D, Any); (0xAAB0, Extend); (0xAAB1, Any); (0xAAB2, Extend); (0xAAB5, Any);
   (0xAAB7, Extend); (0xAAB9, Any); (0xAABE, Extend); (0xAAC0, Any); (0xAAC1, Extend); (0xAAC2, Any);
   (0xAAEB, SpacingMark); (0xAAEC, Extend); (0xAAEE, SpacingMark); (0xAAF0, Any); (0xAAF5, SpacingMark);
   (0xAAF6, Extend); (0xAAF7, Any); (0xABE3, SpacingMark); (0xABE5, Extend); (0xABE6, SpacingMark);
   (0xABE8, Extend); (0xABE9, SpacingMark); (0xABEB, Any); (0xABEC, SpacingMark); (0xABED, Extend);
   (0xABEE, Any); (0xAC00, LV); (0xAC01, LVT); (0xAC1C, LV); (0xAC1D, LVT); (0xAC38, LV); (0xAC39, LVT);
   (0xAC54, LV); (0xAC55, LVT); (0xAC70, LV); (0xAC71, LVT); (0xAC8C, LV); (0xAC8D, LVT); (0xACA8, LV);
   (0xACA9, LVT); (0xACC4, LV); (0xACC5, LVT); (0xACE0, LV); (0xACE1, LVT); (0xACFC, LV); (0xACFD, LVT);
   (0xAD18, LV); (0xAD19, LVT); (0xAD34, LV); (0xAD35, LVT); (0xAD50, LV); (0xAD51, LVT); (0xAD6C, LV);
   (0xAD6D, LVT); (0xAD88, LV); (0xAD89, LVT); (0xADA4, LV); (0xADA5, LVT); (0xADC0, LV); (0xADC1, LVT);
   (0xADDC, LV); (0xADDD, LVT); (0xADF8, LV); (0xADF9, LVT); (0xAE14, LV); (0xAE15, LVT); (0xAE30, LV);
   (0xAE31, LVT); (0xAE4C, LV); (0xAE4D, LVT); (0xAE68, LV); (0xAE69, LVT); (0xAE84, LV); (0xAE85, LVT);
   (0xAEA0, LV); (0xAEA1, LVT); (0xAEBC, LV); (0xAEBD, LVT); (0xAED8, LV); (0xAED9, LVT); (0xAEF4, LV);
   (0xAEF5, LVT); (0xAF10, LV); (0xAF11, LVT); (0xAF2C, LV); (0xAF2D, LVT); (0xAF48, LV); (0xAF49, LVT);
   (0xAF64, LV); (0xAF65, LVT); (0xAF80, LV); (0xAF81, LVT); (0xAF9C, LV); (0xAF9D, LVT); (0xAFB8, LV);
   (0xAFB9, LVT); (0xAFD4, LV); (0xAFD5, LVT); (0xAFF0, LV); (0xAFF1, LVT); (0xB00C, LV); (0xB00D, LVT);
   (0xB028, LV); (0xB029, LVT); (0xB044, LV); (0xB045, LVT); (0xB060, LV); (0xB061, LVT); (0xB07C, LV);
   (0xB07D, LVT); (0xB098, LV); (0xB099, LVT); (0xB0B4, LV); (0xB0B5, LVT); (0xB0D0, LV); (0xB0D1, LVT);
   (0xB0EC, LV); (0xB0ED, LVT); (0xB108, LV); (0xB109, LVT); (0xB124, LV); (0xB125, LVT); (0xB140, LV);
   (0xB141, LVT); (0xB15C, LV); (0xB15D, LVT); (0xB178, LV); (0xB179, LVT); (0xB194, LV); (0xB195, LVT);
   (0xB1B0, LV); (0xB1B1, LVT); (0xB1CC, LV); (0xB1CD, LVT); (0xB1E8, LV); (0xB1E9, LVT); (0xB204, LV);
   (0xB205, LVT); (0xB220, LV); (0xB221, LVT); (0xB23C, LV); (0xB23D, LVT); (0xB258, LV); (0xB259, LVT);
   (0xB274, LV); (0xB275, LVT); (0xB290, LV); (0xB291, LVT); (0xB2AC, LV); (0xB2AD, LVT); (0xB2C8, LV);
   (0xB2C9, LVT); (0xB2E4, LV); (0xB2E5, LVT); (0xB300, LV); (0xB301, LVT); (0xB31C, LV); (0xB31D, LVT);
   (0xB338, LV); (0xB339, LVT); (0xB354, LV); (0xB355, LVT); (0xB370, LV); (0xB371, LVT); (0xB38C, LV);
   (0xB38D, LVT); (0xB3A8, LV); (0xB3A9, LVT); (0xB3C4, LV); (0xB3C5, LVT); (0xB3E0, LV); (0xB3E1, LVT);
   (0xB3FC, LV); (0xB3FD, LVT); (0xB418, LV); (0xB419, LVT); (0xB434, LV); (0xB435, LVT); (0xB450, LV);
   (0xB451, LVT); (0xB46C, LV); (0xB46D, LVT); (0xB488, LV); (0xB489, LVT); (0xB4A4, LV); (0xB4A5, LVT);
   (0xB4C0, LV); (0xB4C1, LVT); (0xB4DC, LV); (0xB4DD, LVT); (0xB4F8, LV); (0xB4F9, LVT); (0xB514, LV);
   (0xB515, LVT); (0xB530, LV); (0xB531, LVT); (0xB54C, LV); (0xB54D, LVT); (0xB568, LV); (0xB569, LVT);
   (0xB584, LV); (0xB585, LVT); (0xB5A0, LV); (0xB5A1, LVT); (0xB5BC, LV); (0xB5BD, LVT); (0xB5D8, LV);
   (0xB5D9, LVT); (0xB5F4, LV); (0xB5F5, LVT); (0xB610, LV); (0xB611, LVT); (0xB62C, LV); (0xB62D, LVT);
   (0xB648, LV); (0xB649, LVT); (0xB664, LV); (0xB665, LVT); (0xB680, LV); (0xB681, LVT); (0xB69C, LV);
   (0xB69D, LVT); (0xB6B8, LV); (0xB6B9, LVT); (0xB6D4, LV); (0xB6D5, LVT); (0xB6F0, LV); (0xB6F1, LVT);
   (0xB70C, LV); (0xB70D, LVT); (0xB728, LV); (0xB729, LVT); (0xB744, LV); (0xB745, LVT); (0xB760, LV);
   (0xB761, LVT); (0xB77C, LV); (0xB77D, LVT); (0xB798, LV); (0xB799, LVT); (0xB7B4, LV); (0xB7B5, LVT);
   (0xB7D0, LV); (0xB7D1, LVT); (0xB7EC, LV); (0xB7ED, LVT); (0xB808, LV); (0xB809, LVT); (0xB824, LV);
   (0xB825, LVT); (0xB840, LV); (0xB841, LVT); (0xB85C, LV); (0xB85D, LVT); (0xB878, LV); (0xB879, LVT);
   (0xB894, LV); (0xB895, LVT); (0xB8B0, LV); (0xB8B1, LVT); (0xB8CC, LV); (0xB8CD, LVT); (0xB8E8, LV);
   (0xB8E9, LVT); (0xB904, LV); (0xB905, LVT); (0xB920, LV); (0xB921, LVT); (0xB93C, LV); (0xB93D, LVT);
   (0xB958, LV); (0xB959, LVT); (0xB974, LV); (0xB975, LVT); (0xB990, LV); (0xB991, LVT); (0xB9AC, LV);
   (0xB9AD, LVT); (0xB9C8, LV); (0xB9C9, LVT); (0xB9E4, LV); (0xB9E5, LVT); (0xBA00, LV); (0xBA01, LVT);
   (0xBA1C, LV); (0xBA1D, LVT); (0xBA38, LV); (0xBA39, LVT); (0xBA54, LV); (0xBA55, LVT); (0xBA70, LV);
   (0xBA71, LVT); (0xBA8C, LV); (0xBA8D, LVT); (0xBAA8, LV); (0xBAA9, LVT); (0xBAC4, LV); (0xBAC5, LVT);
   (0xBAE0, LV); (0xBAE1, LVT); (0xBAFC, LV); (0xBAFD, LVT); (0xBB18, LV); (0xBB19, LVT); (0xBB34, LV);
   (0xBB35, LVT); (0xBB50, LV); (0xBB51, LVT); (0xBB6C, LV); (0xBB6D, LVT); (0xBB88, LV); (0xBB89, LVT);
   (0xBBA4, LV); (0xBBA5, LVT); (0xBBC0, LV); (0xBBC1, LVT); (0xBBDC, LV); (0xBBDD, LVT); (0xBBF8, LV);
   (0xBBF9, LVT); (0xBC14, LV); (0xBC15, LVT); (0xBC30, LV); (0xBC31, LVT); (0xBC4C, LV); (0xBC4D, LVT);
   (0xBC68, LV); (0xBC69, LVT); (0xBC84, LV); (0xBC85, LVT); (0xBCA0, LV); (0xBCA1, LVT); (0xBCBC, LV);
   (0xBCBD, LVT); (0xBCD8, LV); (0xBCD9, LVT); (0xBCF4, LV); (0xBCF5, LVT); (0xBD10, LV); (0xBD11, LVT);
   (0xBD2C, LV); (0xBD2D, LVT); (0xBD48, LV); (0xBD49, LVT); (0xBD64, LV); (0xBD65, LVT); (0xBD80, LV);
   (0xBD81, LVT); (0xBD9C, LV); (0xBD9D, LVT); (0xBDB8, LV); (0xBDB9, LVT); (0xBDD4, LV); (0xBDD5, LVT);
   (0xBDF0, LV); (0xBDF1, LVT); (0xBE0C, LV); (0xBE0D, LVT); (0xBE28, LV); (0xBE29, LVT); (0xBE44, LV);
   (0xBE45, LVT); (0xBE60, LV); (0xBE61, LVT); (0xBE7C, LV); (0xBE7D, LVT); (0xBE98, LV); (0xBE99, LVT);
   (0xBEB4, LV); (0xBEB5, LVT); (0xBED0, LV); (0xBED1, LVT); (0xBEEC, LV); (0xBEED, LVT); (0xBF08, LV);
   (0xBF09, LVT); (0xBF24, LV); (0xBF25, LVT); (0xBF40, LV); (0xBF41, LVT); (0xBF5C, LV); (0xBF5D, LVT);
   (0xBF78, LV); (0xBF79, LVT); (0xBF94, LV); (0xBF95, LVT); (0xBFB0, LV); (0xBFB1, LVT); (0xBFCC, LV);
   (0xBFCD, LVT); (0xBFE8, LV); (0xBFE9, LVT); (0xC004, LV); (0xC005, LVT); (0xC020, LV); (0xC021, LVT);
   (0xC03C, LV); (0xC03D, LVT); (0xC058, LV); (0xC059, LVT); (0xC074, LV); (0xC075, LVT); (0xC090, LV);
   (0xC091, LVT); (0xC0AC, LV); (0xC0AD, LVT); (0xC0C8, LV); (0xC0C9, LVT); (0xC0E4, LV); (0xC0E5, LVT);
   (0xC100, LV); (0xC101, LVT); (0xC11C, LV); (0xC11D, LVT); (0xC138, LV); (0xC139, LVT); (0xC154, LV);
   (0xC155, LVT); (0xC170, LV); (0xC171, LVT); (0xC18C, LV); (0xC18D, LVT); (0xC1A8, LV); (0xC1A9, LVT);
   (0xC1C4, LV); (0xC1C5, LVT); (0xC1E0, LV); (0xC1E1, LVT); (0xC1FC, LV); (0xC1FD, LVT); (0xC218, LV);
   (0xC219, LVT); (0xC234, LV); (0xC235, LVT); (0xC250, LV); (0xC251, LVT); (0xC26C, LV); (0xC26D, LVT);
   (0xC288, LV); (0xC289, LVT); (0xC2A4, LV); (0xC2A5, LVT); (0xC2C0, LV); (0xC2C1, LVT); (0xC2DC, LV);
   (0xC2DD, LVT); (0xC2F8, LV); (0xC2F9, LVT); (0xC314, LV); (0xC315, LVT); (0xC330, LV); (0xC331, LVT);
   (0xC34C, LV); (0xC34D, LVT); (0xC368, LV); (0xC369, LVT); (0xC384, LV); (0xC385, LVT); (0xC3A0, LV);
   (0xC3A1, LVT); (0xC3BC, LV); (0xC3BD, LVT); (0xC3D8, LV); (0xC3D9, LVT); (0xC3F4, LV); (0xC3F5, LVT);
   (0xC410, LV); (0xC411, LVT); (0xC42C, LV); (0xC42D, LVT); (0xC448, LV); (0xC449, LVT); (0xC464, LV);
   (0xC465, LVT); (0xC480, LV); (0xC481, LVT); (0xC49C, LV); (0xC49D, LVT); (0xC4B8, LV); (0xC4B9, LVT);
   (0xC4D4, LV); (0xC4D5, LVT); (0xC4F0, LV); (0xC4F1, LVT); (0xC50C, LV); (0xC50D, LVT); (0xC528, LV);
   (0xC529, LVT); (0xC544, LV); (0xC545, LVT); (0xC560, LV); (0xC561, LVT); (0xC57C, LV); (0xC57D, LVT);
   (0xC598, LV); (0xC599, LVT); (0xC5B4, LV); (0xC5B5, LVT); (0xC5D0, LV); (0xC5D1, LVT); (0xC5EC, LV);
   (0xC5ED, LVT); (0xC608, LV); (0xC609, LVT); (0xC624, LV); (0xC625, LVT); (0xC640, LV); (0xC641, LVT);
   (0xC65C, LV); (0xC65D, LVT); (0xC678, LV); (0xC679, LVT); (0xC694, LV); (0xC695, LVT); (0xC6B0, LV);
   (0xC6B1, LVT); (0xC6CC, LV); (0xC6CD, LVT); (0xC6E8, LV); (0xC6E9, LVT); (0xC704, LV); (0xC705, LVT);
   (0xC720, LV); (0xC721, LVT); (0xC73C, LV); (0xC73D, LVT); (0xC758, LV); (0xC759, LVT); (0xC774, LV);
   (0xC775, LVT); (0xC790, LV); (0xC791, LVT); (0xC7AC, LV); (0xC7AD, LVT); (0xC7C8, LV); (0xC7C9, LVT);
   (0xC7E4, LV); (0xC7E5, LVT); (0xC800, LV); (0xC801, LVT); (0xC81C, LV); (0xC81D, LVT); (0xC838, LV);
   (0xC839, LVT); (0xC854, LV); (0xC855, LVT); (0xC870, LV); (0xC871, LVT); (0xC88C, LV); (0xC88D, LVT);
   (0xC8A8, LV); (0xC8A9, LVT); (0xC8C4, LV); (0xC8C5, LVT); (0xC8E0, LV); (0xC8E1, LVT); (0xC8FC, LV);
   (0xC8FD, LVT); (0xC918, LV); (0xC919, LVT); (0xC934, LV); (0xC935, LVT); (0xC950, LV); (0xC951, LVT);
   (0xC96C, LV); (0xC96D, LVT); (0xC988, LV); (0xC989, LVT); (0xC9A4, LV); (0xC9A5, LVT); (0xC9C0, LV);
   (0xC9C1, LVT); (0xC9DC, LV); (0xC9DD, LVT); (0xC9F8, LV); (0xC9F9, LVT); (0xCA14, LV); (0xCA15, LVT);
   (0xCA30, LV); (0xCA31, LVT); (0xCA4C, LV); (0xCA4D, LVT); (0xCA68, LV); (0xCA69, LVT); (0xCA84, LV);
   (0xCA85, LVT); (0xCAA0, LV); (0xCAA1, LVT); (0xCABC, LV); (0xCABD, LVT); (0xCAD8, LV); (0xCAD9, LVT);
   (0xCAF4, LV); (0xCAF5, LVT); (0xCB10, LV); (0xCB11, LVT); (0xCB2C, LV); (0xCB2D, LVT); (0xCB48, LV);
   (0xCB49, LVT); (0xCB64, LV); (0xCB65, LVT); (0xCB80, LV); (0xCB81, LVT); (0xCB9C, LV); (0xCB9D, LVT);
   (0xCBB8, LV); (0xCBB9, LVT); (0xCBD4, LV); (0xCBD5, LVT); (0xCBF0, LV); (0xCBF1, LVT); (0xCC0C, LV);
   (0xCC0D, LVT); (0xCC28, LV); (0xCC29, LVT); (0xCC44, LV); (0xCC45, LVT); (0xCC60, LV); (0xCC61, LVT);
   (0xCC7C, LV); (0xCC7D, LVT); (0xCC98, LV); (0xCC99, LVT); (0xCCB4, LV); (0xCCB5, LVT); (0xCCD0, LV);
   (0xCCD1, LVT); (0xCCEC, LV); (0xCCED, LVT); (0xCD08, LV); (0xCD09, LVT); (0xCD24, LV); (0xCD25, LVT);
   (0xCD40, LV); (0xCD41, LVT); (0xCD5C, LV); (0xCD5D, LVT); (0xCD78, LV); (0xCD79, LVT); (0xCD94, LV);
   (0xCD95, LVT); (0xCDB0, LV); (0xCDB1, LVT); (0xCDCC, LV); (0xCDCD, LVT); (0xCDE8, LV); (0xCDE9, LVT);
   (0xCE04, LV); (0xCE05, LVT); (0xCE20, LV); (0xCE21, LVT); (0xCE3C, LV); (0xCE3D, LVT); (0xCE58, LV);
   (0xCE59, LVT); (0xCE74, LV); (0xCE75, LVT); (0xCE90, LV); (0xCE91, LVT); (0xCEAC, LV); (0xCEAD, LVT);
   (0xCEC8, LV); (0xCEC9, LVT); (0xCEE4, LV); (0xCEE5, LVT); (0xCF00, LV); (0xCF01, LVT); (0xCF1C, LV);
   (0xCF1D, LVT); (0xCF38, LV); (0xCF39, LVT); (0xCF54, LV); (0xCF55, LVT); (0xCF70, LV); (0xCF71, LVT);
   (0xCF8C, LV); (0xCF8D, LVT); (0xCFA8, LV); (0xCFA9, LVT); (0xCFC4, LV); (0xCFC5, LVT); (0xCFE0, LV);
   (0xCFE1, LVT); (0xCFFC, LV); (0xCFFD, LVT); (0xD018, LV); (0xD019, LVT); (0xD034, LV); (0xD035, LVT);
   (0xD050, LV); (0xD051, LVT); (0xD06C, LV); (0xD06D, LVT); (0xD088, LV); (0xD089, LVT); (0xD0A4, LV);
   (0xD0A5, LVT); (0xD0C0, LV); (0xD0C1, LVT); (0xD0DC, LV); (0xD0DD, LVT); (0xD0F8, LV); (0xD0F9, LVT);
   (0xD114, LV); (0xD115, LVT); (0xD130, LV); (0xD131, LVT); (0xD14C, LV); (0xD14D, LVT); (0xD168, LV);
   (0xD169, LVT); (0xD184, LV); (0xD185, LVT); (0xD1A0, LV); (0xD1A1, LVT); (0xD1BC, LV); (0xD1BD, LVT);
   (0xD1D8, LV); (0xD1D9, LVT); (0xD1F4, LV); (0xD1F5, LVT); (0xD210, LV); (0xD211, LVT); (0xD22C, LV);
   (0xD22D, LVT); (0xD248, LV); (0xD249, LVT); (0xD264, LV); (0xD265, LVT); (0xD280, LV); (0xD281, LVT);
   (0xD29C, LV); (0xD29D, LVT); (0xD2B8, LV); (0xD2B9, LVT); (0xD2D4, LV); (0xD2D5, LVT); (0xD2F0, LV);
   (0xD2F1, LVT); (0xD30C, LV); (0xD30D, LVT); (0xD328, LV); (0xD329, LVT); (0xD344, LV); (0xD345, LVT);
   (0xD360, LV); (0xD361, LVT); (0xD37C, LV); (0xD37D, LVT); (0xD398, LV); (0xD399, LVT); (0xD3B4, LV);
   (0xD3B5, LVT); (0xD3D0, LV); (0xD3D1, LVT); (0xD3EC, LV); (0xD3ED, LVT); (0xD408, LV); (0xD409, LVT);
   (0xD424, LV); (0xD425, LVT); (0xD440, LV); (0xD441, LVT); (0xD45C, LV); (0xD45D, LVT); (0xD478, LV);
   (0xD479, LVT); (0xD494, LV); (0xD495, LVT); (0xD4B0, LV); (0xD4B1, LVT); (0xD4CC, LV); (0xD4CD, LVT);
   (0xD4E8, LV); (0xD4E9, LVT); (0xD504, LV); (0xD505, LVT); (0xD520, LV); (0xD521, LVT); (0xD53C, LV);
   (0xD53D, LVT); (0xD558, LV); (0xD559, LVT); (0xD574, LV); (0xD575, LVT); (0xD590, LV); (0xD591, LVT);
   (0xD5AC, LV); (0xD5AD, LVT); (0xD5C8, LV); (0xD5C9, LVT); (0xD5E4, LV); (0xD5E5, LVT); (0xD600, LV);
   (0xD601, LVT); (0xD61C, LV); (0xD61D, LVT); (0xD638, LV); (0xD639, LVT); (0xD654, LV); (0xD655, LVT);
   (0xD670, LV); (0xD671, LVT); (0xD68C, LV); (0xD68D, LVT); (0xD6A8, LV); (0xD6A9, LVT); (0xD6C4, LV);
   (0xD6C5, LVT); (0xD6E0, LV); (0xD6E1, LVT); (0xD6FC, LV); (0xD6FD, LVT); (0xD718, LV); (0xD719, LVT);
   (0xD734, LV); (0xD735, LVT); (0xD750, LV); (0xD751, LVT); (0xD76C, LV); (0xD76D, LVT); (0xD788, LV);
   (0xD789, LVT); (0xD7A4, Any); (0xD7B0, V); (0xD7C7, Any); (0xD7CB, T); (0xD7FC, Any); (0xFB1E, Extend);
   (0xFB1F, Any); (0xFE00, Extend); (0xFE10, Any); (0xFE20, Extend); (0xFE30, Any); (0xFEFF, Control);
   (0xFF00, Any); (0xFF9E, Extend); (0xFFA0, Any); (0xFFF0, Control); (0xFFFC, Any); (0x101FD, Extend);
   (0x101FE, Any); (0x102E0, Extend); (0x102E1, Any); (0x10376, Extend); (0x1037B, Any); (0x10A01, Extend);
   (0x10A04, Any); (0x10A05, Extend); (0x10A07, Any); (0x10A0C, Extend); (0x10A10, Any); (0x10A38, Extend);
   (0x10A3B, Any); (0x10A3F, Extend); (0x10A40, Any); (0x10AE5, Extend); (0x10AE7, Any); (0x10D24, Extend);
   (0x10D28, Any); (0x10D69, Extend); (0x10D6E, Any); (0x10EAB, Extend); (0x10EAD, Any); (0x10ECB, Extend);
   (0x10ED0, Any); (0x10EF0, Extend); (0x10F00, Any); (0x10F46, Extend); (0x10F51, Any); (0x10F82, Extend);
   (0x10F86, Any); (0x11000, SpacingMark); (0x11001, Extend); (0x11002, SpacingMark); (0x11003, Any);
   (0x11038, Extend); (0x11047, Any); (0x11070, Extend); (0x11071, Any); (0x11073, Extend); (0x11075, Any);
   (0x1107F, Extend); (0x11082, SpacingMark); (0x11083, Any); (0x110B0, SpacingMark); (0x110B3, Extend);
   (0x110B7, SpacingMark); (0x110B9, Extend); (0x110BB, Any); (0x110BD, Prepend); (0x110BE, Any);
   (0x110C2, Extend); (0x110C3, Any); (0x110CD, Prepend); (0x110CE, Any); (0x11100, Extend);
   (0x11103, Any); (0x11127, Extend); (0x1112C, SpacingMark); (0x1112D, Extend); (0x11135, Any);
   (0x11145, SpacingMark); (0x11147, Any); (0x11173, Extend); (0x11174, Any); (0x11180, Extend);
   (0x11182, SpacingMark); (0x11183, Any); (0x111B3, SpacingMark); (0x111B6, Extend);
   (0x111BF, SpacingMark); (0x111C0, Extend); (0x111C1, Any); (0x111C2, Prepend); (0x111C4, Any);
   (0x111C9, Extend); (0x111CD, Any); (0x111CE, SpacingMark); (0x111CF, Extend); (0x111D0, Any);
   (0x1122C, SpacingMark); (0x1122F, Extend); (0x11232, SpacingMark); (0x11234, Extend); (0x11238, Any);
   (0x1123E, Extend); (0x1123F, Any); (0x11241, Extend); (0x11242, Any); (0x112DF, Extend);
   (0x112E0, SpacingMark); (0x112E3, Extend); (0x112EB, Any); (0x11300, Extend); (0x11302, SpacingMark);
   (0x11304, Any); (0x1133B, Extend); (0x1133D, Any); (0x1133E, Extend); (0x1133F, SpacingMark);
   (0x11340, Extend); (0x11341, SpacingMark); (0x11345, Any); (0x11347, SpacingMark); (0x11349, Any);
   (0x1134B, SpacingMark); (0x1134D, Extend); (0x1134E, Any); (0x11357, Extend); (0x11358, Any);
   (0x11362, SpacingMark); (0x11364, Any); (0x11366, Extend); (0x1136D, Any); (0x11370, Extend);
   (0x11375, Any); (0x113B8, Extend); (0x113B9, SpacingMark); (0x113BB, Extend); (0x113C1, Any);
   (0x113C2, Extend); (0x113C3, Any); (0x113C5, Extend); (0x113C6, Any); (0x113C7, Extend);
   (0x113CA, SpacingMark); (0x113CB, Any); (0x113CC, SpacingMark); (0x113CE, Extend); (0x113D1, Prepend);
   (0x113D2, Extend); (0x113D3, Any); (0x113E1, Extend); (0x113E3, Any); (0x11435, SpacingMark);
   (0x11438, Extend); (0x11440, SpacingMark); (0x11442, Extend); (0x11445, SpacingMark); (0x11446, Extend);
   (0x11447, Any); (0x1145E, Extend); (0x1145F, Any); (0x114B0, Extend); (0x114B1, SpacingMark);
   (0x114B3, Extend); (0x114B9, SpacingMark); (0x114BA, Extend); (0x114BB, SpacingMark); (0x114BD, Extend);
   (0x114BE, SpacingMark); (0x114BF, Extend); (0x114C1, SpacingMark); (0x114C2, Extend); (0x114C4, Any);
   (0x115AF, Extend); (0x115B0, SpacingMark); (0x115B2, Extend); (0x115B6, Any); (0x115B8, SpacingMark);
   (0x115BC, Extend); (0x115BE, SpacingMark); (0x115BF, Extend); (0x115C1, Any); (0x115DC, Extend);
   (0x115DE, Any); (0x11630, SpacingMark); (0x11633, Extend); (0x1163B, SpacingMark); (0x1163D, Extend);
   (0x1163E, SpacingMark); (0x1163F, Extend); (0x11641, Any); (0x116AB, Extend); (0x116AC, SpacingMark);
   (0x116AD, Extend); (0x116AE, SpacingMark); (0x116B0, Extend); (0x116B8, Any); (0x1171D, Extend);
   (0x1171E, SpacingMark); (0x1171F, Extend); (0x11720, Any); (0x11722, Extend); (0x11726, SpacingMark);
   (0x11727, Extend); (0x1172C, Any); (0x1182C, SpacingMark); (0x1182F, Extend); (0x11838, SpacingMark);
   (0x11839, Extend); (0x1183B, Any); (0x11930, Extend); (0x11931, SpacingMark); (0x11936, Any);
   (0x11937, SpacingMark); (0x11939, Any); (0x1193B, Extend); (0x1193F, Prepend); (0x11940, SpacingMark);
   (0x11941, Prepend); (0x11942, SpacingMark); (0x11943, Extend); (0x11944, Any); (0x119D1, SpacingMark);
   (0x119D4, Extend); (0x119D8, Any); (0x119DA, Extend); (0x119DC, SpacingMark); (0x119E0, Extend);
   (0x119E1, Any); (0x119E4, SpacingMark); (0x119E5, Any); (0x11A01, Extend); (0x11A0B, Any);
   (0x11A33, Extend); (0x11A39, SpacingMark); (0x11A3A, Any); (0x11A3B, Extend); (0x11A3F, Any);
   (0x11A47, Extend); (0x11A48, Any); (0x11A51, Extend); (0x11A57, SpacingMark); (0x11A59, Extend);
   (0x11A5C, Any); (0x11A84, Prepend); (0x11A8A, Extend); (0x11A97, SpacingMark); (0x11A98, Extend);
   (0x11A9A, Any); (0x11B60, Extend); (0x11B61, SpacingMark); (0x11B62, Extend); (0x11B65, SpacingMark);
   (0x11B66, Extend); (0x11B67, SpacingMark); (0x11B68, Any); (0x11C2F, SpacingMark); (0x11C30, Extend);
   (0x11C37, Any); (0x11C38, Extend); (0x11C3E, SpacingMark); (0x11C3F, Extend); (0x11C40, Any);
   (0x11C92, Extend); (0x11CA8, Any); (0x11CA9, SpacingMark); (0x11CAA, Extend); (0x11CB1, SpacingMark);
   (0x11CB2, Extend); (0x11CB4, SpacingMark); (0x11CB5, Extend); (0x11CB7, Any); (0x11D31, Extend);
   (0x11D37, Any); (0x11D3A, Extend); (0x11D3B, Any); (0x11D3C, Extend); (0x11D3E, Any); (0x11D3F, Extend);
   (0x11D46, Prepend); (0x11D47, Extend); (0x11D48, Any); (0x11D8A, SpacingMark); (0x11D8F, Any);
   (0x11D90, Extend); (0x11D92, Any); (0x11D93, SpacingMark); (0x11D95, Extend); (0x11D96, SpacingMark);
   (0x11D97, Extend); (0x11D98, Any); (0x11DF0, Extend); (0x11DF1, Any); (0x11EF3, Extend);
   (0x11EF5, SpacingMark); (0x11EF7, Any); (0x11F00, Extend); (0x11F02, Prepend); (0x11F03, SpacingMark);
   (0x11F04, Any); (0x11F34, SpacingMark); (0x11F36, Extend); (0x11F3B, Any); (0x11F3E, SpacingMark);
   (0x11F40, Extend); (0x11F43, Any); (0x11F5A, Extend); (0x11F5B, Any); (0x13430, Control);
   (0x13440, Extend); (0x13441, Any); (0x13447, Extend); (0x13456, Any); (0x1611E, Extend);
   (0x1612A, SpacingMark); (0x1612D, Extend); (0x16130, Any); (0x16AF0, Extend); (0x16AF5, Any);
   (0x16B30, Extend); (0x16B37, Any); (0x16D63, V); (0x16D64, Any); (0x16D67, V); (0x16D6B, Any);
   (0x16F4F, Extend); (0x16F50, Any); (0x16F51, SpacingMark); (0x16F88, Any); (0x16F8F, Extend);
   (0x16F93, Any); (0x16FE4, Extend); (0x16FE5, Any); (0x16FF0, Extend); (0x16FF2, Any); (0x1BC9D, Extend);
   (0x1BC9F, Any); (0x1BCA0, Control); (0x1BCA4, Any); (0x1CF00, Extend); (0x1CF2E, Any);
   (0x1CF30, Extend); (0x1CF47, Any); (0x1D127, Extend); (0x1D129, Any); (0x1D165, Extend); (0x1D16A, Any);
   (0x1D16D, Extend); (0x1D173, Control); (0x1D17B, Extend); (0x1D183, Any); (0x1D185, Extend);
   (0x1D18C, Any); (0x1D1AA, Extend); (0x1D1AE, Any); (0x1D242, Extend); (0x1D245, Any); (0x1D250, Extend);
   (0x1D253, Any); (0x1D25B, Extend); (0x1D25D, Any); (0x1D25F, Extend); (0x1D260, Any); (0x1D280, Extend);
   (0x1D282, Any); (0x1DA00, Extend); (0x1DA37, Any); (0x1DA3B, Extend); (0x1DA6D, Any); (0x1DA75, Extend);
   (0x1DA76, Any); (0x1DA84, Extend); (0x1DA85, Any); (0x1DA9B, Extend); (0x1DAA0, Any); (0x1DAA1, Extend);
   (0x1DAB0, Any); (0x1E000, Extend); (0x1E007, Any); (0x1E008, Extend); (0x1E019, Any); (0x1E01B, Extend);
   (0x1E022, Any); (0x1E023, Extend); (0x1E025, Any); (0x1E026, Extend); (0x1E02B, Any); (0x1E08F, Extend);
   (0x1E090, Any); (0x1E130, Extend); (0x1E137, Any); (0x1E2AE, Extend); (0x1E2AF, Any); (0x1E2EC, Extend);
   (0x1E2F0, Any); (0x1E4EC, Extend); (0x1E4F0, Any); (0x1E5EE, Extend); (0x1E5F0, Any); (0x1E6E3, Extend);
   (0x1E6E4, Any); (0x1E6E6, Extend); (0x1E6E7, Any); (0x1E6EE, Extend); (0x1E6F0, Any); (0x1E6F5, Extend);
   (0x1E6F6, Any); (0x1E8D0, Extend); (0x1E8D7, Any); (0x1E944, Extend); (0x1E94B, Any);
   (0x1F1E6, Regional_Indicator); (0x1F200, Any); (0x1F3FB, Extend); (0x1F400, Any); (0xE0000, Control);
   (0xE0020, Extend); (0xE0080, Control); (0xE0100, Extend); (0xE01F0, Control)].

Definition isExtendedPictographic (codePoint : Z) : bool := contains Extended_Pictographic_set codePoint.

Definition getBreakProperty (codePoint : Z) : BreakProperty :=
  if codePoint <? 0 then Control (* invalid code points are always grapheme boundary *)
  else
    let iter := upperBound grapheme_break_property_table codePoint in
    if (iter <? length grapheme_break_property_table)%nat then
      let p := ofUnderlying (getMeta (nth (iter - 1) grapheme_break_property_table 0)) in
      if decide (p <> Any) then p
      else if contains InCB_Consonant_set codePoint then InCB_Consonant
      else if isExtendedPictographic codePoint then Extended_Pictographic
      else Any
    else Any.

Definition getInCBExtendOrLinker (codePoint : Z) : BreakProperty :=
  if contains InCB_Extend_set codePoint then InCB_Extend
  else if contains InCB_Linker_set codePoint then InCB_Linker
  else Any.

End GraphemeBreak.
