(* ===== verification/WordBreak.v ===== *)
(** The break properties of words: the enumeration (src/unicode/word.h), the lookup
    (src/unicode/word.cpp) and the table (src/unicode/word_break_property.in), entry by
    entry. *)
From S2P Require Import Prelude CodePointSet UcdTables.

Module WordBreak.
Import CodePointSet UcdTables.

Inductive WordBreakProperty :=
  SOT | EOT | Any | CR | LF | Newline | Extend | ZWJ
  | Regional_Indicator | Format | Katakana | Hebrew_Letter | ALetter
  | Single_Quote | Double_Quote | MidNumLet | MidLetter | MidNum
  | Numeric | ExtendNumLet | WSegSpace | WSegSpace_EFZ | AHLetter_Mid_NumLetQ
  | Hebrew_Letter_DQ | Numeric_Mid_NumLetQ.

#[export] Instance WordBreakProperty_eq_dec : EqDecision WordBreakProperty.
Proof. solve_decision. Defined.

(** The enumerators in order. *)
Definition wordBreakProperties : list WordBreakProperty :=
  [SOT; EOT; Any; CR; LF; Newline; Extend; ZWJ; Regional_Indicator; Format; Katakana; Hebrew_Letter;
   ALetter; Single_Quote; Double_Quote; MidNumLet; MidLetter; MidNum; Numeric; ExtendNumLet; WSegSpace;
   WSegSpace_EFZ; AHLetter_Mid_NumLetQ; Hebrew_Letter_DQ; Numeric_Mid_NumLetQ].

Definition toUnderlying (p : WordBreakProperty) : Z :=
  match p with
  | SOT => 0 | EOT => 1 | Any => 2 | CR => 3 | LF => 4
  | Newline => 5 | Extend => 6 | ZWJ => 7 | Regional_Indicator => 8 | Format => 9
  | Katakana => 10 | Hebrew_Letter => 11 | ALetter => 12 | Single_Quote => 13 | Double_Quote => 14
  | MidNumLet => 15 | MidLetter => 16 | MidNum => 17 | Numeric => 18 | ExtendNumLet => 19
  | WSegSpace => 20 | WSegSpace_EFZ => 21 | AHLetter_Mid_NumLetQ => 22 | Hebrew_Letter_DQ => 23 | Numeric_Mid_NumLetQ => 24
  end.

(** [static_cast<WordBreakProperty>(v)] *)
Definition ofUnderlying (v : Z) : WordBreakProperty := nth (Z.to_nat v) wordBreakProperties Any.

Definition word_break_property_table : list Z := Eval vm_compute in packTable toUnderlying
  [(0x0, Any); (0xA, LF); (0xB, Newline); (0xD, CR); (0xE, Any); (0x20, WSegSpace); (0x21, Any);
   (0x22, Double_Quote); (0x23, Any); (0x2C, MidNum); (0x2D, Any); (0x30, Numeric); (0x3A, Any);
   (0x3B, MidNum); (0x3C, Any); (0x41, ALetter); (0x5B, Any); (0x5F, ExtendNumLet); (0x60, Any);
   (0x61, ALetter); (0x7B, Any); (0x85, Newline); (0x86, Any); (0xAA, ALetter); (0xAB, Any);
   (0xAD, Format); (0xAE, Any); (0xB5, ALetter); (0xB6, Any); (0xB8, ALetter); (0xB9, Any);
   (0xBA, ALetter); (0xBB, Any); (0xC0, ALetter); (0xD7, Any); (0xD8, ALetter); (0xF7, Any);
   (0xF8, ALetter); (0x2D8, Any); (0x2DE, ALetter); (0x300, Extend); (0x370, ALetter); (0x375, Any);
   (0x376, ALetter); (0x378, Any); (0x37A, ALetter); (0x37E, MidNum); (0x37F, ALetter); (0x380, Any);
   (0x386, ALetter); (0x387, Any); (0x388, ALetter); (0x38B, Any); (0x38C, ALetter); (0x38D, Any);
   (0x38E, ALetter); (0x3A2, Any); (0x3A3, ALetter); (0x3F6, Any); (0x3F7, ALetter); (0x482, Any);
   (0x483, Extend); (0x48A, ALetter); (0x530, Any); (0x531, ALetter); (0x557, Any); (0x558, ALetter);
   (0x55D, Any); (0x55E, ALetter); (0x55F, Any); (0x560, ALetter); (0x589, MidNum); (0x58A, ALetter);
   (0x58D, Any); (0x591, Extend); (0x5BE, Any); (0x5BF, Extend); (0x5C0, Any); (0x5C1, Extend);
   (0x5C3, Any); (0x5C4, Extend); (0x5C6, Any); (0x5C7, Extend); (0x5CA, Any); (0x5D0, Hebrew_Letter);
   (0x5EB, Any); (0x5EF, Hebrew_Letter); (0x5F3, ALetter); (0x5F4, Any); (0x600, Numeric); (0x606, Any);
   (0x60C, MidNum); (0x60E, Any); (0x610, Extend); (0x61B, Any); (0x61C, Format); (0x61D, Any);
   (0x620, ALetter); (0x64B, Extend); (0x660, Numeric); (0x66A, Any); (0x66B, Numeric); (0x66C, MidNum);
   (0x66D, Any); (0x66E, ALetter); (0x670, Extend); (0x671, ALetter); (0x6D4, Any); (0x6D5, ALetter);
   (0x6D6, Extend); (0x6DD, Numeric); (0x6DE, Any); (0x6DF, Extend); (0x6E5, ALetter); (0x6E7, Extend);
   (0x6E9, Any); (0x6EA, Extend); (0x6EE, ALetter); (0x6F0, Numeric); (0x6FA, ALetter); (0x6FD, Any);
   (0x6FF, ALetter); (0x700, Any); (0x70F, ALetter); (0x711, Extend); (0x712, ALetter); (0x730, Extend);
   (0x74B, Any); (0x74D, ALetter); (0x7A6, Extend); (0x7B1, ALetter); (0x7B2, Any); (0x7C0, Numeric);
   (0x7CA, ALetter); (0x7EB, Extend); (0x7F4, ALetter); (0x7F6, Any); (0x7F8, MidNum); (0x7F9, Any);
   (0x7FA, ALetter); (0x7FB, Any); (0x7FD, Extend); (0x7FE, Any); (0x800, ALetter); (0x816, Extend);
   (0x81A, ALetter); (0x81B, Extend); (0x824, ALetter); (0x825, Extend); (0x828, ALetter); (0x829, Extend);
   (0x82E, Any); (0x840, ALetter); (0x859, Extend); (0x85C, Any); (0x860, ALetter); (0x86B, Any);
   (0x870, ALetter); (0x888, Any); (0x889, ALetter); (0x890, Numeric); (0x892, Any); (0x897, Extend);
   (0x8A0, ALetter); (0x8CA, Extend); (0x8E2, Numeric); (0x8E3, Extend); (0x904, ALetter); (0x93A, Extend);
   (0x93D, ALetter); (0x93E, Extend); (0x950, ALetter); (0x951, Extend); (0x958, ALetter); (0x962, Extend);
   (0x964, Any); (0x966, Numeric); (0x970, Any); (0x971, ALetter); (0x981, Extend); (0x984, Any);
   (0x985, ALetter); (0x98D, Any); (0x98F, ALetter); (0x991, Any); (0x993, ALetter); (0x9A9, Any);
   (0x9AA, ALetter); (0x9B1, Any); (0x9B2, ALetter); (0x9B3, Any); (0x9B6, ALetter); (0x9BA, Any);
   (0x9BC, Extend); (0x9BD, ALetter); (0x9BE, Extend); (0x9C5, Any); (0x9C7, Extend); (0x9C9, Any);
   (0x9CB, Extend); (0x9CE, ALetter); (0x9CF, Any); (0x9D7, Extend); (0x9D8, Any); (0x9DC, ALetter);
   (0x9DE, Any); (0x9DF, ALetter); (0x9E2, Extend); (0x9E4, Any); (0x9E6, Numeric); (0x9F0, ALetter);
   (0x9F2, Any); (0x9FC, ALetter); (0x9FD, Any); (0x9FE, Extend); (0x9FF, Any); (0xA01, Extend);
   (0xA04, Any); (0xA05, ALetter); (0xA0B, Any); (0xA0F, ALetter); (0xA11, Any); (0xA13, ALetter);
   (0xA29, Any); (0xA2A, ALetter); (0xA31, Any); (0xA32, ALetter); (0xA34, Any); (0xA35, ALetter);
   (0xA37, Any); (0xA38, ALetter); (0xA3A, Any); (0xA3C, Extend); (0xA3D, Any); (0xA3E, Extend);
   (0xA43, Any); (0xA47, Extend); (0xA49, Any); (0xA4B, Extend); (0xA4E, Any); (0xA51, Extend);
   (0xA52, Any); (0xA59, ALetter); (0xA5D, Any); (0xA5E, ALetter); (0xA5F, Any); (0xA66, Numeric);
   (0xA70, Extend); (0xA72, ALetter); (0xA75, Extend); (0xA76, Any); (0xA81, Extend); (0xA84, Any);
   (0xA85, ALetter); (0xA8E, Any); (0xA8F, ALetter); (0xA92, Any); (0xA93, ALetter); (0xAA9, Any);
   (0xAAA, ALetter); (0xAB1, Any); (0xAB2, ALetter); (0xAB4, Any); (0xAB5, ALetter); (0xABA, Any);
   (0xABC, Extend); (0xABD, ALetter); (0xABE, Extend); (0xAC6, Any); (0xAC7, Extend); (0xACA, Any);
   (0xACB, Extend); (0xACE, Any); (0xAD0, ALetter); (0xAD1, Any); (0xAE0, ALetter); (0xAE2, Extend);
   (0xAE4, Any); (0xAE6, Numeric); (0xAF0, Any); (0xAF9, ALetter); (0xAFA, Extend); (0xB00, Any);
   (0xB01, Extend); (0xB04, Any); (0xB05, ALetter); (0xB0D, Any); (0xB0F, ALetter); (0xB11, Any);
   (0xB13, ALetter); (0xB29, Any); (0xB2A, ALetter); (0xB31, Any); (0xB32, ALetter); (0xB34, Any);
   (0xB35, ALetter); (0xB3A, Any); (0xB3C, Extend); (0xB3D, ALetter); (0xB3E, Extend); (0xB45, Any);
   (0xB47, Extend); (0xB49, Any); (0xB4B, Extend); (0xB4E, Any); (0xB53, Extend); (0xB58, Any);
   (0xB5C, ALetter); (0xB5E, Any); (0xB5F, ALetter); (0xB62, Extend); (0xB64, Any); (0xB66, Numeric);
   (0xB70, Any); (0xB71, ALetter); (0xB72, Any); (0xB82, Extend); (0xB83, ALetter); (0xB84, Any);
   (0xB85, ALetter); (0xB8B, Any); (0xB8E, ALetter); (0xB91, Any); (0xB92, ALetter); (0xB96, Any);
   (0xB99, ALetter); (0xB9B, Any); (0xB9C, ALetter); (0xB9D, Any); (0xB9E, ALetter); (0xBA0, Any);
   (0xBA3, ALetter); (0xBA5, Any); (0xBA8, ALetter); (0xBAB, Any); (0xBAE, ALetter); (0xBBA, Any);
   (0xBBE, Extend); (0xBC3, Any); (0xBC6, Extend); (0xBC9, Any); (0xBCA, Extend); (0xBCE, Any);
   (0xBD0, ALetter); (0xBD1, Any); (0xBD7, Extend); (0xBD8, Any); (0xBE6, Numeric); (0xBF0, Any);
   (0xC00, Extend); (0xC05, ALetter); (0xC0D, Any); (0xC0E, ALetter); (0xC11, Any); (0xC12, ALetter);
   (0xC29, Any); (0xC2A, ALetter); (0xC3A, Any); (0xC3C, Extend); (0xC3D, ALetter); (0xC3E, Extend);
   (0xC45, Any); (0xC46, Extend); (0xC49, Any); (0xC4A, Extend); (0xC4E, Any); (0xC55, Extend);
   (0xC57, Any); (0xC58, ALetter); (0xC5B, Any); (0xC5C, ALetter); (0xC5E, Any); (0xC60, ALetter);
   (0xC62, Extend); (0xC64, Any); (0xC66, Numeric); (0xC70, Any); (0xC80, ALetter); (0xC81, Extend);
   (0xC84, Any); (0xC85, ALetter); (0xC8D, Any); (0xC8E, ALetter); (0xC91, Any); (0xC92, ALetter);
   (0xCA9, Any); (0xCAA, ALetter); (0xCB4, Any); (0xCB5, ALetter); (0xCBA, Any); (0xCBC, Extend);
   (0xCBD, ALetter); (0xCBE, Extend); (0xCC5, Any); (0xCC6, Extend); (0xCC9, Any); (0xCCA, Extend);
   (0xCCE, Any); (0xCD5, Extend); (0xCD7, Any); (0xCDC, ALetter); (0xCDF, Any); (0xCE0, ALetter);
   (0xCE2, Extend); (0xCE4, Any); (0xCE6, Numeric); (0xCF0, Any); (0xCF1, ALetter); (0xCF3, Extend);
   (0xCF4, Any); (0xD00, Extend); (0xD04, ALetter); (0xD0D, Any); (0xD0E, ALetter); (0xD11, Any);
   (0xD12, ALetter); (0xD3B, Extend); (0xD3D, ALetter); (0xD3E, Extend); (0xD45, Any); (0xD46, Extend);
   (0xD49, Any); (0xD4A, Extend); (0xD4E, ALetter); (0xD4F, Any); (0xD54, ALetter); (0xD57, Extend);
   (0xD58, Any); (0xD5F, ALetter); (0xD62, Extend); (0xD64, Any); (0xD66, Numeric); (0xD70, Any);
   (0xD7A, ALetter); (0xD80, Any); (0xD81, Extend); (0xD84, Any); (0xD85, ALetter); (0xD97, Any);
   (0xD9A, ALetter); (0xDB2, Any); (0xDB3, ALetter); (0xDBC, Any); (0xDBD, ALetter); (0xDBE, Any);
   (0xDC0, ALetter); (0xDC7, Any); (0xDCA, Extend); (0xDCB, Any); (0xDCF, Extend); (0xDD5, Any);
   (0xDD6, Extend); (0xDD7, Any); (0xDD8, Extend); (0xDE0, Any); (0xDE6, Numeric); (0xDF0, Any);
   (0xDF2, Extend); (0xDF4, Any); (0xE31, Extend); (0xE32, Any); (0xE34, Extend); (0xE3B, Any);
   (0xE47, Extend); (0xE4F, Any); (0xE50, Numeric); (0xE5A, Any); (0xEB1, Extend); (0xEB2, Any);
   (0xEB4, Extend); (0xEBD, Any); (0xEC8, Extend); (0xECF, Any); (0xED0, Numeric); (0xEDA, Any);
   (0xF00, ALetter); (0xF01, Any); (0xF18, Extend); (0xF1A, Any); (0xF20, Numeric); (0xF2A, Any);
   (0xF35, Extend); (0xF36, Any); (0xF37, Extend); (0xF38, Any); (0xF39, Extend); (0xF3A, Any);
   (0xF3E, Extend); (0xF40, ALetter); (0xF48, Any); (0xF49, ALetter); (0xF6D, Any); (0xF71, Extend);
   (0xF85, Any); (0xF86, Extend); (0xF88, ALetter); (0xF8D, Extend); (0xF98, Any); (0xF99, Extend);
   (0xFBD, Any); (0xFC6, Extend); (0xFC7, Any); (0x102B, Extend); (0x103F, Any); (0x1040, Numeric);
   (0x104A, Any); (0x1056, Extend); (0x105A, Any); (0x105E, Extend); (0x1061, Any); (0x1062, Extend);
   (0x1065, Any); (0x1067, Extend); (0x106E, Any); (0x1071, Extend); (0x1075, Any); (0x1082, Extend);
   (0x108E, Any); (0x108F, Extend); (0x1090, Numeric); (0x109A, Extend); (0x109E, Any); (0x10A0, ALetter);
   (0x10C6, Any); (0x10C7, ALetter); (0x10C8, Any); (0x10CD, ALetter); (0x10CE, Any); (0x10D0, ALetter);
   (0x10FB, Any); (0x10FC, ALetter); (0x1249, Any); (0x124A, ALetter); (0x124E, Any); (0x1250, ALetter);
   (0x1257, Any); (0x1258, ALetter); (0x1259, Any); (0x125A, ALetter); (0x125E, Any); (0x1260, ALetter);
   (0x1289, Any); (0x128A, ALetter); (0x128E, Any); (0x1290, ALetter); (0x12B1, Any); (0x12B2, ALetter);
   (0x12B6, Any); (0x12B8, ALetter); (0x12BF, Any); (0x12C0, ALetter); (0x12C1, Any); (0x12C2, ALetter);
   (0x12C6, Any); (0x12C8, ALetter); (0x12D7, Any); (0x12D8, ALetter); (0x1311, Any); (0x1312, ALetter);
   (0x1316, Any); (0x1318, ALetter); (0x135B, Any); (0x135D, Extend); (0x1360, Any); (0x1380, ALetter);
   (0x1390, Any); (0x13A0, ALetter); (0x13F6, Any); (0x13F8, ALetter); (0x13FE, Any); (0x1401, ALetter);
   (0x166D, Any); (0x166F, ALetter); (0x1680, WSegSpace); (0x1681, ALetter); (0x169B, Any);
   (0x16A0, ALetter); (0x16EB, Any); (0x16EE, ALetter); (0x16F9, Any); (0x1700, ALetter); (0x1712, Extend);
   (0x1716, Any); (0x171F, ALetter); (0x1732, Extend); (0x1735, Any); (0x1740, ALetter); (0x1752, Extend);
   (0x1754, Any); (0x1760, ALetter); (0x176D, Any); (0x176E, ALetter); (0x1771, Any); (0x1772, Extend);
   (0x1774, Any); (0x17B4, Extend); (0x17D4, Any); (0x17DD, Extend); (0x17DE, Any); (0x17E0, Numeric);
   (0x17EA, Any); (0x180B, Extend); (0x180E, Format); (0x180F, Extend); (0x1810, Numeric); (0x181A, Any);
   (0x1820, ALetter); (0x1879, Any); (0x1880, ALetter); (0x1885, Extend); (0x1887, ALetter);
   (0x18A9, Extend); (0x18AA, ALetter); (0x18AB, Any); (0x18B0, ALetter); (0x18F6, Any); (0x1900, ALetter);
   (0x191F, Any); (0x1920, Extend); (0x192C, Any); (0x1930, Extend); (0x193C, Any); (0x1946, Numeric);
   (0x1950, Any); (0x19D0, Numeric); (0x19DB, Any); (0x1A00, ALetter); (0x1A17, Extend); (0x1A1C, Any);
   (0x1A55, Extend); (0x1A5F, Any); (0x1A60, Extend); (0x1A7D, Any); (0x1A7F, Extend); (0x1A80, Numeric);
   (0x1A8A, Any); (0x1A90, Numeric); (0x1A9A, Any); (0x1AB0, Extend); (0x1AF1, Any); (0x1B00, Extend);
   (0x1B05, ALetter); (0x1B34, Extend); (0x1B45, ALetter); (0x1B4D, Any); (0x1B50, Numeric); (0x1B5A, Any);
   (0x1B6B, Extend); (0x1B74, Any); (0x1B80, Extend); (0x1B83, ALetter); (0x1BA1, Extend);
   (0x1BAE, ALetter); (0x1BB0, Numeric); (0x1BBA, ALetter); (0x1BE6, Extend); (0x1BF4, Any);
   (0x1C00, ALetter); (0x1C24, Extend); (0x1C38, Any); (0x1C40, Numeric); (0x1C4A, Any); (0x1C4D, ALetter);
   (0x1C50, Numeric); (0x1C5A, ALetter); (0x1C7E, Any); (0x1C80, ALetter); (0x1C8B, Any);
   (0x1C90, ALetter); (0x1CBB, Any); (0x1CBD, ALetter); (0x1CC0, Any); (0x1CD0, Extend); (0x1CD3, Any);
   (0x1CD4, Extend); (0x1CE9, ALetter); (0x1CED, Extend); (0x1CEE, ALetter); (0x1CF4, Extend);
   (0x1CF5, ALetter); (0x1CF7, Extend); (0x1CFA, ALetter); (0x1CFB, Any); (0x1D00, ALetter);
   (0x1DC0, Extend); (0x1E00, ALetter); (0x1F16, Any); (0x1F18, ALetter); (0x1F1E, Any); (0x1F20, ALetter);
   (0x1F46, Any); (0x1F48, ALetter); (0x1F4E, Any); (0x1F50, ALetter); (0x1F58, Any); (0x1F59, ALetter);
   (0x1F5A, Any); (0x1F5B, ALetter); (0x1F5C, Any); (0x1F5D, ALetter); (0x1F5E, Any); (0x1F5F, ALetter);
   (0x1F7E, Any); (0x1F80, ALetter); (0x1FB5, Any); (0x1FB6, ALetter); (0x1FBD, Any); (0x1FBE, ALetter);
   (0x1FBF, Any); (0x1FC2, ALetter); (0x1FC5, Any); (0x1FC6, ALetter); (0x1FCD, Any); (0x1FD0, ALetter);
   (0x1FD4, Any); (0x1FD6, ALetter); (0x1FDC, Any); (0x1FE0, ALetter); (0x1FED, Any); (0x1FF2, ALetter);
   (0x1FF5, Any); (0x1FF6, ALetter); (0x1FFD, Any); (0x2000, WSegSpace); (0x2007, Any);
   (0x2008, WSegSpace); (0x200B, Any); (0x200C, Extend); (0x200D, ZWJ); (0x200E, Format); (0x2010, Any);
   (0x2028, Newline); (0x202A, Format); (0x202F, ExtendNumLet); (0x2030, Any); (0x203F, ExtendNumLet);
   (0x2041, Any); (0x2044, MidNum); (0x2045, Any); (0x2054, ExtendNumLet); (0x2055, Any);
   (0x205F, WSegSpace); (0x2060, Format); (0x2065, Any); (0x2066, Format); (0x2070, Any);
   (0x2071, ALetter); (0x2072, Any); (0x207F, ALetter); (0x2080, Any); (0x208F, ALetter); (0x20A0, Any);
   (0x20D0, Extend); (0x20F1, Any); (0x2102, ALetter); (0x2103, Any); (0x2107, ALetter); (0x2108, Any);
   (0x210A, ALetter); (0x2114, Any); (0x2115, ALetter); (0x2116, Any); (0x2119, ALetter); (0x211E, Any);
   (0x2124, ALetter); (0x2125, Any); (0x2126, ALetter); (0x2127, Any); (0x2128, ALetter); (0x2129, Any);
   (0x212A, ALetter); (0x212E, Any); (0x212F, ALetter); (0x213A, Any); (0x213C, ALetter); (0x2140, Any);
   (0x2145, ALetter); (0x214A, Any); (0x214E, ALetter); (0x214F, Any); (0x2160, ALetter); (0x2189, Any);
   (0x24B6, ALetter); (0x24EA, Any); (0x2C00, ALetter); (0x2CE5, Any); (0x2CEB, ALetter); (0x2CEF, Extend);
   (0x2CF2, ALetter); (0x2CF4, Any); (0x2D00, ALetter); (0x2D26, Any); (0x2D27, ALetter); (0x2D28, Any);
   (0x2D2D, ALetter); (0x2D2E, Any); (0x2D30, ALetter); (0x2D68, Any); (0x2D6F, ALetter); (0x2D70, Any);
   (0x2D7F, Extend); (0x2D80, ALetter); (0x2D97, Any); (0x2DA0, ALetter); (0x2DA7, Any); (0x2DA8, ALetter);
   (0x2DAF, Any); (0x2DB0, ALetter); (0x2DB7, Any); (0x2DB8, ALetter); (0x2DBF, Any); (0x2DC0, ALetter);
   (0x2DC7, Any); (0x2DC8, ALetter); (0x2DCF, Any); (0x2DD0, ALetter); (0x2DD7, Any); (0x2DD8, ALetter);
   (0x2DDF, Any); (0x2DE0, Extend); (0x2E00, Any); (0x2E2F, ALetter); (0x2E30, Any); (0x3000, WSegSpace);
   (0x3001, Any); (0x3005, ALetter); (0x3006, Any); (0x302A, Extend); (0x3030, Any); (0x3031, Katakana);
   (0x3036, Any); (0x303B, ALetter); (0x303D, Any); (0x3099, Extend); (0x309B, Katakana); (0x309D, Any);
   (0x30A0, Katakana); (0x30FB, Any); (0x30FC, Katakana); (0x3100, Any); (0x3105, ALetter); (0x3130, Any);
   (0x3131, ALetter); (0x318F, Any); (0x31A0, ALetter); (0x31C0, Any); (0x31F0, Katakana); (0x3200, Any);
   (0x32D0, Katakana); (0x32FF, Any); (0x3300, Katakana); (0x3358, Any); (0xA000, ALetter); (0xA48D, Any);
   (0xA4D0, ALetter); (0xA4FE, Any); (0xA500, ALetter); (0xA60D, Any); (0xA610, ALetter);
   (0xA620, Numeric); (0xA62A, ALetter); (0xA62C, Any); (0xA640, ALetter); (0xA66F, Extend); (0xA673, Any);
   (0xA674, Extend); (0xA67E, Any); (0xA67F, ALetter); (0xA69E, Extend); (0xA6A0, ALetter);
   (0xA6F0, Extend); (0xA6F2, Any); (0xA708, ALetter); (0xA7DE, Any); (0xA7E2, ALetter); (0xA7E3, Any);
   (0xA7F1, ALetter); (0xA802, Extend); (0xA803, ALetter); (0xA806, Extend); (0xA807, ALetter);
   (0xA80B, Extend); (0xA80C, ALetter); (0xA823, Extend); (0xA828, Any); (0xA82C, Extend); (0xA82D, Any);
   (0xA840, ALetter); (0xA874, Any); (0xA880, Extend); (0xA882, ALetter); (0xA8B4, Extend); (0xA8C6, Any);
   (0xA8D0, Numeric); (0xA8DA, Any); (0xA8E0, Extend); (0xA8F2, ALetter); (0xA8F8, Any); (0xA8FB, ALetter);
   (0xA8FC, Any); (0xA8FD, ALetter); (0xA8FF, Extend); (0xA900, Numeric); (0xA90A, ALetter);
   (0xA926, Extend); (0xA92E, Any); (0xA930, ALetter); (0xA947, Extend); (0xA954, Any); (0xA960, ALetter);
   (0xA97D, Any); (0xA980, Extend); (0xA984, ALetter); (0xA9B3, Extend); (0xA9C1, Any); (0xA9CF, ALetter);
   (0xA9D0, Numeric); (0xA9DA, Any); (0xA9E5, Extend); (0xA9E6, Any); (0xA9F0, Numeric); (0xA9FA, Any);
   (0xAA00, ALetter); (0xAA29, Extend); (0xAA37, Any); (0xAA40, ALetter); (0xAA43, Extend);
   (0xAA44, ALetter); (0xAA4C, Extend); (0xAA4E, Any); (0xAA50, Numeric); (0xAA5A, Any); (0xAA7B, Extend);
   (0xAA7E, Any); (0xAAB0, Extend); (0xAAB1, Any); (0xAAB2, Extend); (0xAAB5, Any); (0xAAB7, Extend);
   (0xAAB9, Any); (0xAABE, Extend); (0xAAC0, Any); (0xAAC1, Extend); (0xAAC2, Any); (0xAAE0, ALetter);
   (0xAAEB, Extend); (0xAAF0, Any); (0xAAF2, ALetter); (0xAAF5, Extend); (0xAAF7, Any); (0xAB01, ALetter);
   (0xAB07, Any); (0xAB09, ALetter); (0xAB0F, Any); (0xAB11, ALetter); (0xAB17, Any); (0xAB20, ALetter);
   (0xAB27, Any); (0xAB28, ALetter); (0xAB2F, Any); (0xAB30, ALetter); (0xAB6A, Any); (0xAB6C, ALetter);
   (0xAB6E, Any); (0xAB70, ALetter); (0xABE3, Extend); (0xABEB, Any); (0xABEC, Extend); (0xABEE, Any);
   (0xABF0, Numeric); (0xABFA, Any); (0xAC00, ALetter); (0xD7A4, Any); (0xD7B0, ALetter); (0xD7C7, Any);
   (0xD7CB, ALetter); (0xD7FC, Any); (0xFB00, ALetter); (0xFB07, Any); (0xFB13, ALetter); (0xFB18, Any);
   (0xFB1D, Hebrew_Letter); (0xFB1E, Extend); (0xFB1F, Hebrew_Letter); (0xFB29, Any);
   (0xFB2A, Hebrew_Letter); (0xFB37, Any); (0xFB38, Hebrew_Letter); (0xFB3D, Any); (0xFB3E, Hebrew_Letter);
   (0xFB3F, Any); (0xFB40, Hebrew_Letter); (0xFB42, Any); (0xFB43, Hebrew_Letter); (0xFB45, Any);
   (0xFB46, Hebrew_Letter); (0xFB50, ALetter); (0xFBB2, Any); (0xFBD3, ALetter); (0xFD3E, Any);
   (0xFD50, ALetter); (0xFD90, Any); (0xFD92, ALetter); (0xFDC8, Any); (0xFDF0, ALetter); (0xFDFC, Any);
   (0xFE00, Extend); (0xFE10, Any); (0xFE20, Extend); (0xFE30, Any); (0xFE33, ExtendNumLet); (0xFE35, Any);
   (0xFE4D, ExtendNumLet); (0xFE50, MidNum); (0xFE51, Any); (0xFE54, MidNum); (0xFE55, Any);
   (0xFE70, ALetter); (0xFE75, Any); (0xFE76, ALetter); (0xFEFD, Any); (0xFEFF, Format); (0xFF00, Any);
   (0xFF0C, MidNum); (0xFF0D, Any); (0xFF10, Numeric); (0xFF1A, Any); (0xFF1B, MidNum); (0xFF1C, Any);
   (0xFF21, ALetter); (0xFF3B, Any); (0xFF3F, ExtendNumLet); (0xFF40, Any); (0xFF41, ALetter);
   (0xFF5B, Any); (0xFF66, Katakana); (0xFF9E, Extend); (0xFFA0, ALetter); (0xFFBF, Any);
   (0xFFC2, ALetter); (0xFFC8, Any); (0xFFCA, ALetter); (0xFFD0, Any); (0xFFD2, ALetter); (0xFFD8, Any);
   (0xFFDA, ALetter); (0xFFDD, Any); (0xFFF9, Format); (0xFFFC, Any); (0x10000, ALetter); (0x1000C, Any);
   (0x1000D, ALetter); (0x10027, Any); (0x10028, ALetter); (0x1003B, Any); (0x1003C, ALetter);
   (0x1003E, Any); (0x1003F, ALetter); (0x1004E, Any); (0x10050, ALetter); (0x1005E, Any);
   (0x10080, ALetter); (0x100FB, Any); (0x10140, ALetter); (0x10175, Any); (0x101FD, Extend);
   (0x101FE, Any); (0x10280, ALetter); (0x1029D, Any); (0x102A0, ALetter); (0x102D1, Any);
   (0x102E0, Extend); (0x102E1, Any); (0x10300, ALetter); (0x10320, Any); (0x1032D, ALetter);
   (0x1034B, Any); (0x10350, ALetter); (0x10376, Extend); (0x1037B, Any); (0x10380, ALetter);
   (0x1039E, Any); (0x103A0, ALetter); (0x103C4, Any); (0x103C8, ALetter); (0x103D0, Any);
   (0x103D1, ALetter); (0x103D6, Any); (0x10400, ALetter); (0x1049E, Any); (0x104A0, Numeric);
   (0x104AA, Any); (0x104B0, ALetter); (0x104D4, Any); (0x104D8, ALetter); (0x104FC, Any);
   (0x10500, ALetter); (0x10528, Any); (0x10530, ALetter); (0x10564, Any); (0x10570, ALetter);
   (0x1057B, Any); (0x1057C, ALetter); (0x1058B, Any); (0x1058C, ALetter); (0x10593, Any);
   (0x10594, ALetter); (0x10596, Any); (0x10597, ALetter); (0x105A2, Any); (0x105A3, ALetter);
   (0x105B2, Any); (0x105B3, ALetter); (0x105BA, Any); (0x105BB, ALetter); (0x105BD, Any);
   (0x105C0, ALetter); (0x105F4, Any); (0x10600, ALetter); (0x10737, Any); (0x10740, ALetter);
   (0x10756, Any); (0x10760, ALetter); (0x10768, Any); (0x10780, ALetter); (0x10786, Any);
   (0x10787, ALetter); (0x107B1, Any); (0x107B2, ALetter); (0x107C0, Any); (0x10800, ALetter);
   (0x10806, Any); (0x10808, ALetter); (0x10809, Any); (0x1080A, ALetter); (0x10836, Any);
   (0x10837, ALetter); (0x10839, Any); (0x1083C, ALetter); (0x1083D, Any); (0x1083F, ALetter);
   (0x10856, Any); (0x10860, ALetter); (0x10877, Any); (0x10880, ALetter); (0x1089F, Any);
   (0x108E0, ALetter); (0x108F3, Any); (0x108F4, ALetter); (0x108F6, Any); (0x10900, ALetter);
   (0x10916, Any); (0x10920, ALetter); (0x1093A, Any); (0x10940, ALetter); (0x1095A, Any);
   (0x10980, ALetter); (0x109B8, Any); (0x109BE, ALetter); (0x109C0, Any); (0x10A00, ALetter);
   (0x10A01, Extend); (0x10A04, Any); (0x10A05, Extend); (0x10A07, Any); (0x10A0C, Extend);
   (0x10A10, ALetter); (0x10A14, Any); (0x10A15, ALetter); (0x10A18, Any); (0x10A19, ALetter);
   (0x10A36, Any); (0x10A38, Extend); (0x10A3B, Any); (0x10A3F, Extend); (0x10A40, Any);
   (0x10A60, ALetter); (0x10A7D, Any); (0x10A80, ALetter); (0x10A9D, Any); (0x10AC0, ALetter);
   (0x10AC8, Any); (0x10AC9, ALetter); (0x10AE5, Extend); (0x10AE7, Any); (0x10B00, ALetter);
   (0x10B36, Any); (0x10B40, ALetter); (0x10B56, Any); (0x10B60, ALetter); (0x10B73, Any);
   (0x10B80, ALetter); (0x10B92, Any); (0x10C00, ALetter); (0x10C49, Any); (0x10C80, ALetter);
   (0x10CB3, Any); (0x10CC0, ALetter); (0x10CF3, Any); (0x10D00, ALetter); (0x10D24, Extend);
   (0x10D28, Any); (0x10D30, Numeric); (0x10D3A, Any); (0x10D40, Numeric); (0x10D4A, ALetter);
   (0x10D66, Any); (0x10D69, Extend); (0x10D6E, Any); (0x10D6F, ALetter); (0x10D86, Any);
   (0x10E80, ALetter); (0x10EAA, Any); (0x10EAB, Extend); (0x10EAD, Any); (0x10EB0, ALetter);
   (0x10EB2, Any); (0x10EC2, ALetter); (0x10EC8, Any); (0x10ECB, Extend); (0x10ED0, Any);
   (0x10ED9, ALetter); (0x10EEF, Any); (0x10EF0, Extend); (0x10F00, ALetter); (0x10F1D, Any);
   (0x10F27, ALetter); (0x10F28, Any); (0x10F30, ALetter); (0x10F46, Extend); (0x10F51, Any);
   (0x10F70, ALetter); (0x10F82, Extend); (0x10F86, Any); (0x10FB0, ALetter); (0x10FC5, Any);
   (0x10FE0, ALetter); (0x10FF7, Any); (0x11000, Extend); (0x11003, ALetter); (0x11038, Extend);
   (0x11047, Any); (0x11066, Numeric); (0x11070, Extend); (0x11071, ALetter); (0x11073, Extend);
   (0x11075, ALetter); (0x11076, Any); (0x1107F, Extend); (0x11083, ALetter); (0x110B0, Extend);
   (0x110BB, Any); (0x110BD, Numeric); (0x110BE, Any); (0x110C2, Extend); (0x110C3, Any);
   (0x110CD, Numeric); (0x110CE, Any); (0x110D0, ALetter); (0x110E9, Any); (0x110F0, Numeric);
   (0x110FA, Any); (0x11100, Extend); (0x11103, ALetter); (0x11127, Extend); (0x11135, Any);
   (0x11136, Numeric); (0x11140, Any); (0x11144, ALetter); (0x11145, Extend); (0x11147, ALetter);
   (0x11148, Any); (0x11150, ALetter); (0x11173, Extend); (0x11174, Any); (0x11176, ALetter);
   (0x11177, Any); (0x11180, Extend); (0x11183, ALetter); (0x111B3, Extend); (0x111C1, ALetter);
   (0x111C5, Any); (0x111C9, Extend); (0x111CD, Any); (0x111CE, Extend); (0x111D0, Numeric);
   (0x111DA, ALetter); (0x111DB, Any); (0x111DC, ALetter); (0x111DD, Any); (0x11200, ALetter);
   (0x11212, Any); (0x11213, ALetter); (0x1122C, Extend); (0x11238, Any); (0x1123E, Extend);
   (0x1123F, ALetter); (0x11241, Extend); (0x11242, Any); (0x11280, ALetter); (0x11287, Any);
   (0x11288, ALetter); (0x11289, Any); (0x1128A, ALetter); (0x1128E, Any); (0x1128F, ALetter);
   (0x1129E, Any); (0x1129F, ALetter); (0x112A9, Any); (0x112B0, ALetter); (0x112DF, Extend);
   (0x112EB, Any); (0x112F0, Numeric); (0x112FA, Any); (0x11300, Extend); (0x11304, Any);
   (0x11305, ALetter); (0x1130D, Any); (0x1130F, ALetter); (0x11311, Any); (0x11313, ALetter);
   (0x11329, Any); (0x1132A, ALetter); (0x11331, Any); (0x11332, ALetter); (0x11334, Any);
   (0x11335, ALetter); (0x1133A, Any); (0x1133B, Extend); (0x1133D, ALetter); (0x1133E, Extend);
   (0x11345, Any); (0x11347, Extend); (0x11349, Any); (0x1134B, Extend); (0x1134E, Any);
   (0x11350, ALetter); (0x11351, Any); (0x11357, Extend); (0x11358, Any); (0x1135D, ALetter);
   (0x11362, Extend); (0x11364, Any); (0x11366, Extend); (0x1136D, Any); (0x11370, Extend); (0x11375, Any);
   (0x11380, ALetter); (0x1138A, Any); (0x1138B, ALetter); (0x1138C, Any); (0x1138E, ALetter);
   (0x1138F, Any); (0x11390, ALetter); (0x113B6, Any); (0x113B7, ALetter); (0x113B8, Extend);
   (0x113C1, Any); (0x113C2, Extend); (0x113C3, Any); (0x113C5, Extend); (0x113C6, Any); (0x113C7, Extend);
   (0x113CB, Any); (0x113CC, Extend); (0x113D1, ALetter); (0x113D2, Extend); (0x113D3, ALetter);
   (0x113D4, Any); (0x113E1, Extend); (0x113E3, Any); (0x11400, ALetter); (0x11435, Extend);
   (0x11447, ALetter); (0x1144B, Any); (0x11450, Numeric); (0x1145A, Any); (0x1145E, Extend);
   (0x1145F, ALetter); (0x11462, Any); (0x11480, ALetter); (0x114B0, Extend); (0x114C4, ALetter);
   (0x114C6, Any); (0x114C7, ALetter); (0x114C8, Any); (0x114D0, Numeric); (0x114DA, Any);
   (0x11580, ALetter); (0x115AF, Extend); (0x115B6, Any); (0x115B8, Extend); (0x115C1, Any);
   (0x115D8, ALetter); (0x115DC, Extend); (0x115DE, Any); (0x11600, ALetter); (0x11630, Extend);
   (0x11641, Any); (0x11644, ALetter); (0x11645, Any); (0x11650, Numeric); (0x1165A, Any);
   (0x11680, ALetter); (0x116AB, Extend); (0x116B8, ALetter); (0x116B9, Any); (0x116C0, Numeric);
   (0x116CA, Any); (0x116D0, Numeric); (0x116E4, Any); (0x1171D, Extend); (0x1172C, Any);
   (0x11730, Numeric); (0x1173A, Any); (0x11800, ALetter); (0x1182C, Extend); (0x1183B, Any);
   (0x118A0, ALetter); (0x118E0, Numeric); (0x118EA, Any); (0x118FF, ALetter); (0x11907, Any);
   (0x11909, ALetter); (0x1190A, Any); (0x1190C, ALetter); (0x11914, Any); (0x11915, ALetter);
   (0x11917, Any); (0x11918, ALetter); (0x11930, Extend); (0x11936, Any); (0x11937, Extend);
   (0x11939, Any); (0x1193B, Extend); (0x1193F, ALetter); (0x11940, Extend); (0x11941, ALetter);
   (0x11942, Extend); (0x11944, Any); (0x11950, Numeric); (0x1195A, Any); (0x119A0, ALetter);
   (0x119A8, Any); (0x119AA, ALetter); (0x119D1, Extend); (0x119D8, Any); (0x119DA, Extend);
   (0x119E1, ALetter); (0x119E2, Any); (0x119E3, ALetter); (0x119E4, Extend); (0x119E5, Any);
   (0x11A00, ALetter); (0x11A01, Extend); (0x11A0B, ALetter); (0x11A33, Extend); (0x11A3A, ALetter);
   (0x11A3B, Extend); (0x11A3F, Any); (0x11A47, Extend); (0x11A48, Any); (0x11A50, ALetter);
   (0x11A51, Extend); (0x11A5C, ALetter); (0x11A8A, Extend); (0x11A9A, Any); (0x11A9D, ALetter);
   (0x11A9E, Any); (0x11AB0, ALetter); (0x11AF9, Any); (0x11B0A, ALetter); (0x11B0B, Any);
   (0x11B60, Extend); (0x11B68, Any); (0x11BC0, ALetter); (0x11BE1, Any); (0x11BF0, Numeric);
   (0x11BFA, Any); (0x11C00, ALetter); (0x11C09, Any); (0x11C0A, ALetter); (0x11C2F, Extend);
   (0x11C37, Any); (0x11C38, Extend); (0x11C40, ALetter); (0x11C41, Any); (0x11C50, Numeric);
   (0x11C5A, Any); (0x11C72, ALetter); (0x11C90, Any); (0x11C92, Extend); (0x11CA8, Any);
   (0x11CA9, Extend); (0x11CB7, Any); (0x11D00, ALetter); (0x11D07, Any); (0x11D08, ALetter);
   (0x11D0A, Any); (0x11D0B, ALetter); (0x11D31, Extend); (0x11D37, Any); (0x11D3A, Extend);
   (0x11D3B, Any); (0x11D3C, Extend); (0x11D3E, Any); (0x11D3F, Extend); (0x11D46, ALetter);
   (0x11D47, Extend); (0x11D48, Any); (0x11D50, Numeric); (0x11D5A, Any); (0x11D60, ALetter);
   (0x11D66, Any); (0x11D67, ALetter); (0x11D69, Any); (0x11D6A, ALetter); (0x11D8A, Extend);
   (0x11D8F, Any); (0x11D90, Extend); (0x11D92, Any); (0x11D93, Extend); (0x11D98, ALetter);
   (0x11D99, Any); (0x11DA0, Numeric); (0x11DAA, Any); (0x11DB0, ALetter); (0x11DDC, Any);
   (0x11DE0, Numeric); (0x11DEA, Any); (0x11DF0, Extend); (0x11DF1, ALetter); (0x11DF2, Any);
   (0x11EE0, ALetter); (0x11EF3, Extend); (0x11EF7, Any); (0x11F00, Extend); (0x11F02, ALetter);
   (0x11F03, Extend); (0x11F04, ALetter); (0x11F11, Any); (0x11F12, ALetter); (0x11F34, Extend);
   (0x11F3B, Any); (0x11F3E, Extend); (0x11F43, Any); (0x11F50, Numeric); (0x11F5A, Extend);
   (0x11F5B, Any); (0x11FB0, ALetter); (0x11FB1, Any); (0x12000, ALetter); (0x1239A, Any);
   (0x12400, ALetter); (0x12470, Any); (0x12475, ALetter); (0x12544, Any); (0x12550, ALetter);
   (0x12687, Any); (0x12F90, ALetter); (0x12FF1, Any); (0x13000, ALetter); (0x13430, Format);
   (0x13440, Extend); (0x13441, ALetter); (0x13447, Extend); (0x13456, Any); (0x13460, ALetter);
   (0x143FB, Any); (0x14400, ALetter); (0x14647, Any); (0x16100, ALetter); (0x1611E, Extend);
   (0x16130, Numeric); (0x1613A, Any); (0x16800, ALetter); (0x16A39, Any); (0x16A40, ALetter);
   (0x16A5F, Any); (0x16A60, Numeric); (0x16A6A, Any); (0x16A70, ALetter); (0x16ABF, Any);
   (0x16AC0, Numeric); (0x16ACA, Any); (0x16AD0, ALetter); (0x16AEE, Any); (0x16AF0, Extend);
   (0x16AF5, Any); (0x16B00, ALetter); (0x16B30, Extend); (0x16B37, Any); (0x16B40, ALetter);
   (0x16B44, Any); (0x16B50, Numeric); (0x16B5A, Any); (0x16B63, ALetter); (0x16B78, Any);
   (0x16B7D, ALetter); (0x16B90, Any); (0x16D40, ALetter); (0x16D6D, Any); (0x16D70, Numeric);
   (0x16D7A, Any); (0x16E40, ALetter); (0x16E80, Any); (0x16EA0, ALetter); (0x16EB9, Any);
   (0x16EBB, ALetter); (0x16ED4, Any); (0x16F00, ALetter); (0x16F4B, Any); (0x16F4F, Extend);
   (0x16F50, ALetter); (0x16F51, Extend); (0x16F88, Any); (0x16F8F, Extend); (0x16F93, ALetter);
   (0x16FA0, Any); (0x16FE0, ALetter); (0x16FE2, Any); (0x16FE3, ALetter); (0x16FE4, Extend);
   (0x16FE5, Any); (0x16FF0, Extend); (0x16FF2, Any); (0x1AFF0, Katakana); (0x1AFF4, Any);
   (0x1AFF5, Katakana); (0x1AFFC, Any); (0x1AFFD, Katakana); (0x1AFFF, Any); (0x1B000, Katakana);
   (0x1B001, Any); (0x1B120, Katakana); (0x1B123, Any); (0x1B124, Katakana); (0x1B129, Any);
   (0x1B155, Katakana); (0x1B156, Any); (0x1B164, Katakana); (0x1B169, Any); (0x1BC00, ALetter);
   (0x1BC6B, Any); (0x1BC70, ALetter); (0x1BC7D, Any); (0x1BC80, ALetter); (0x1BC89, Any);
   (0x1BC90, ALetter); (0x1BC9A, Any); (0x1BC9D, Extend); (0x1BC9F, Any); (0x1BCA0, Format);
   (0x1BCA4, Any); (0x1CCF0, Numeric); (0x1CCFA, Any); (0x1CF00, Extend); (0x1CF2E, Any);
   (0x1CF30, Extend); (0x1CF47, Any); (0x1D127, Extend); (0x1D129, Any); (0x1D165, Extend); (0x1D16A, Any);
   (0x1D16D, Extend); (0x1D173, Format); (0x1D17B, Extend); (0x1D183, Any); (0x1D185, Extend);
   (0x1D18C, Any); (0x1D1AA, Extend); (0x1D1AE, Any); (0x1D242, Extend); (0x1D245, Any); (0x1D250, Extend);
   (0x1D253, Any); (0x1D25B, Extend); (0x1D25D, Any); (0x1D25F, Extend); (0x1D260, Any); (0x1D280, Extend);
   (0x1D282, Any); (0x1D400, ALetter); (0x1D455, Any); (0x1D456, ALetter); (0x1D49D, Any);
   (0x1D49E, ALetter); (0x1D4A0, Any); (0x1D4A2, ALetter); (0x1D4A3, Any); (0x1D4A5, ALetter);
   (0x1D4A7, Any); (0x1D4A9, ALetter); (0x1D4AD, Any); (0x1D4AE, ALetter); (0x1D4BA, Any);
   (0x1D4BB, ALetter); (0x1D4BC, Any); (0x1D4BD, ALetter); (0x1D4C4, Any); (0x1D4C5, ALetter);
   (0x1D506, Any); (0x1D507, ALetter); (0x1D50B, Any); (0x1D50D, ALetter); (0x1D515, Any);
   (0x1D516, ALetter); (0x1D51D, Any); (0x1D51E, ALetter); (0x1D53A, Any); (0x1D53B, ALetter);
   (0x1D53F, Any); (0x1D540, ALetter); (0x1D545, Any); (0x1D546, ALetter); (0x1D547, Any);
   (0x1D54A, ALetter); (0x1D551, Any); (0x1D552, ALetter); (0x1D6A7, Any); (0x1D6A8, ALetter);
   (0x1D6C1, Any); (0x1D6C2, ALetter); (0x1D6DB, Any); (0x1D6DC, ALetter); (0x1D6FB, Any);
   (0x1D6FC, ALetter); (0x1D715, Any); (0x1D716, ALetter); (0x1D735, Any); (0x1D736, ALetter);
   (0x1D74F, Any); (0x1D750, ALetter); (0x1D76F, Any); (0x1D770, ALetter); (0x1D789, Any);
   (0x1D78A, ALetter); (0x1D7A9, Any); (0x1D7AA, ALetter); (0x1D7C3, Any); (0x1D7C4, ALetter);
   (0x1D7CC, Any); (0x1D7CE, Numeric); (0x1D800, Any); (0x1DA00, Extend); (0x1DA37, Any);
   (0x1DA3B, Extend); (0x1DA6D, Any); (0x1DA75, Extend); (0x1DA76, Any); (0x1DA84, Extend); (0x1DA85, Any);
   (0x1DA9B, Extend); (0x1DAA0, Any); (0x1DAA1, Extend); (0x1DAB0, Any); (0x1DF00, ALetter);
   (0x1DF82, Any); (0x1DF90, ALetter); (0x1DF97, Any); (0x1DFCD, ALetter); (0x1E000, Extend);
   (0x1E007, Any); (0x1E008, Extend); (0x1E019, Any); (0x1E01B, Extend); (0x1E022, Any); (0x1E023, Extend);
   (0x1E025, Any); (0x1E026, Extend); (0x1E02B, Any); (0x1E030, ALetter); (0x1E06E, Any);
   (0x1E08F, Extend); (0x1E090, Any); (0x1E100, ALetter); (0x1E12D, Any); (0x1E130, Extend);
   (0x1E137, ALetter); (0x1E13E, Any); (0x1E140, Numeric); (0x1E14A, Any); (0x1E14E, ALetter);
   (0x1E14F, Any); (0x1E290, ALetter); (0x1E2AE, Extend); (0x1E2AF, Any); (0x1E2C0, ALetter);
   (0x1E2EC, Extend); (0x1E2F0, Numeric); (0x1E2FA, Any); (0x1E4D0, ALetter); (0x1E4EC, Extend);
   (0x1E4F0, Numeric); (0x1E4FA, Any); (0x1E5D0, ALetter); (0x1E5EE, Extend); (0x1E5F0, ALetter);
   (0x1E5F1, Numeric); (0x1E5FB, Any); (0x1E6C0, ALetter); (0x1E6DF, Any); (0x1E6E0, ALetter);
   (0x1E6E3, Extend); (0x1E6E4, ALetter); (0x1E6E6, Extend); (0x1E6E7, ALetter); (0x1E6EE, Extend);
   (0x1E6F0, ALetter); (0x1E6F5, Extend); (0x1E6F6, Any); (0x1E6FE, ALetter); (0x1E700, Any);
   (0x1E7E0, ALetter); (0x1E7E7, Any); (0x1E7E8, ALetter); (0x1E7EC, Any); (0x1E7ED, ALetter);
   (0x1E7EF, Any); (0x1E7F0, ALetter); (0x1E7FF, Any); (0x1E800, ALetter); (0x1E8C5, Any);
   (0x1E8D0, Extend); (0x1E8D7, Any); (0x1E900, ALetter); (0x1E944, Extend); (0x1E94B, ALetter);
   (0x1E94C, Any); (0x1E950, Numeric); (0x1E95A, Any); (0x1EE00, ALetter); (0x1EE04, Any);
   (0x1EE05, ALetter); (0x1EE20, Any); (0x1EE21, ALetter); (0x1EE23, Any); (0x1EE24, ALetter);
   (0x1EE25, Any); (0x1EE27, ALetter); (0x1EE28, Any); (0x1EE29, ALetter); (0x1EE33, Any);
   (0x1EE34, ALetter); (0x1EE38, Any); (0x1EE39, ALetter); (0x1EE3A, Any); (0x1EE3B, ALetter);
   (0x1EE3C, Any); (0x1EE42, ALetter); (0x1EE43, Any); (0x1EE47, ALetter); (0x1EE48, Any);
   (0x1EE49, ALetter); (0x1EE4A, Any); (0x1EE4B, ALetter); (0x1EE4C, Any); (0x1EE4D, ALetter);
   (0x1EE50, Any); (0x1EE51, ALetter); (0x1EE53, Any); (0x1EE54, ALetter); (0x1EE55, Any);
   (0x1EE57, ALetter); (0x1EE58, Any); (0x1EE59, ALetter); (0x1EE5A, Any); (0x1EE5B, ALetter);
   (0x1EE5C, Any); (0x1EE5D, ALetter); (0x1EE5E, Any); (0x1EE5F, ALetter); (0x1EE60, Any);
   (0x1EE61, ALetter); (0x1EE63, Any); (0x1EE64, ALetter); (0x1EE65, Any); (0x1EE67, ALetter);
   (0x1EE6B, Any); (0x1EE6C, ALetter); (0x1EE73, Any); (0x1EE74, ALetter); (0x1EE78, Any);
   (0x1EE79, ALetter); (0x1EE7D, Any); (0x1EE7E, ALetter); (0x1EE7F, Any); (0x1EE80, ALetter);
   (0x1EE8A, Any); (0x1EE8B, ALetter); (0x1EE9C, Any); (0x1EEA1, ALetter); (0x1EEA4, Any);
   (0x1EEA5, ALetter); (0x1EEAA, Any); (0x1EEAB, ALetter); (0x1EEBC, Any); (0x1F130, ALetter);
   (0x1F14A, Any); (0x1F150, ALetter); (0x1F16A, Any); (0x1F170, ALetter); (0x1F18A, Any);
   (0x1F1E6, Regional_Indicator); (0x1F200, Any); (0x1F3FB, Extend); (0x1F400, Any); (0x1FBF0, Numeric);
   (0x1FBFA, Any); (0xE0001, Format); (0xE0002, Any); (0xE0020, Extend); (0xE0080, Any); (0xE0100, Extend)].

Definition getWordBreakProperty (codePoint : Z) : WordBreakProperty :=
  if codePoint <? 0 then Newline (* invalid code points are always word boundary *)
  else
    let iter := upperBound word_break_property_table codePoint in
    if (iter <? length word_break_property_table)%nat then
      let p := ofUnderlying (getMeta (nth (iter - 1) word_break_property_table 0)) in
      if decide (p <> Any) then p
      else if contains MidLetter_set codePoint then MidLetter
      else if contains MidNumLet_set codePoint then MidNumLet
      else if contains Single_Quote_set codePoint then Single_Quote
      else Any
    else Any.

End WordBreak.
