(* ===== verification/UcdFacts.v ===== *)
(** What the transcribed tables say: the sets are sorted, membership in them is
    checked by enumeration, and the lookup of a break property finds the last range that
    starts at or before a code point, except that it never reports the last range. *)
From S2P Require Import Prelude CodePointSet UcdTables GraphemeBreak WordBreak.

Module UcdFacts.
Import CodePointSet UcdTables.

(** ** Sortedness as a test *)

Fixpoint sortedb {A} (f g : A -> Z) (l : list A) : bool :=
  match l with
  | [] => true
  | x :: r => (f x <=? g x) && match r with [] => true | y :: _ => g x <? f y end && sortedb f g r
  end.

Lemma sortedb_head {A} (f g : A -> Z) l : forall x y, sortedb f g (x :: l) = true -> y ∈ l -> g x < f y.
Proof.
  induction l as [|z l IH]; intros x y H Hy; [by apply not_elem_of_nil in Hy|].
  cbn [sortedb] in H. rewrite !andb_true_iff in H. destruct H as [[_ Hxz] [[Hz Hzl] Hl]].
  apply Z.ltb_lt in Hxz. apply elem_of_cons in Hy as [->|Hy]; [done|].
  assert (g z < f y); [|zbool; lia]. apply IH; [|done]. cbn [sortedb]. by rewrite Hz, Hzl, Hl.
Qed.

Lemma sortedb_sound {A} (f g : A -> Z) l : sortedb f g l = true -> sortedRanges f g l.
Proof.
  induction l as [|x l IH]; intros H.
  { split; [intros ? Hx; by apply not_elem_of_nil in Hx|]. intros i j ? ? _ Hi. by rewrite lookup_nil in Hi. }
  pose proof (fun y => sortedb_head f g l x y H) as Hhead.
  cbn [sortedb] in H. rewrite !andb_true_iff in H. destruct H as [[Hx _] Hl]. destruct (IH Hl) as [Hle Hs].
  split.
  - intros y Hy. apply elem_of_cons in Hy as [->|Hy]; [zbool; lia|auto].
  - intros [|i] [|j] y z Hij Hy Hz; try lia; cbn in Hy, Hz; simplify_eq.
    + apply Hhead. by eapply list_elem_of_lookup_2.
    + eapply (Hs i j); eauto. lia.
Qed.

Definition wfb (s : CodePointSetRef) : bool :=
  sortedb firstBMP lastBMP (getBMPRanges s) &&
  sortedb firstPacked lastPacked (getPackedNonBMPRanges s) &&
  sortedb (fun x => i32 (fst x)) (fun x => i32 (snd x)) (getNonBMPRanges s).

Lemma wfb_sound s : wfb s = true -> wf s.
Proof.
  unfold wfb. rewrite !andb_true_iff. intros [[H1 H2] H3].
  split_and!; by apply sortedb_sound.
Qed.

(** ** The ranges of a set *)

Definition ranges (s : CodePointSetRef) : list (Z * Z) :=
  map (fun x => (firstBMP x, lastBMP x)) (getBMPRanges s) ++
  map (fun x => (firstPacked x, lastPacked x)) (getPackedNonBMPRanges s) ++
  map (fun x => (i32 (fst x), i32 (snd x))) (getNonBMPRanges s).

Lemma contains_ranges s c :
  wfb s = true -> contains s c = true -> 0 <= c /\ exists r, r ∈ ranges s /\ fst r <= c <= snd r.
Proof.
  intros Hw H. apply contains_iff in H as [H0 H]; [|by apply wfb_sound]. split; [done|].
  unfold covered, ranges in *. setoid_rewrite elem_of_app. setoid_rewrite elem_of_app.
  destruct (decide _) as [Hd|Hd].
  - destruct H as (x & Hx & Hc). exists (firstBMP x, lastBMP x). split; [left|done].
    apply list_elem_of_fmap. eauto.
  - destruct H as [(x & Hx & Hc)|(x & Hx & Hc)].
    + exists (firstPacked x, lastPacked x). split; [right; left|done]. apply list_elem_of_fmap. eauto.
    + exists (i32 (fst x), i32 (snd x)). split; [right; right|done]. apply list_elem_of_fmap. eauto.
Qed.

(** Two sets without a common member, range by range. *)
Definition disjointb (s s' : CodePointSetRef) : bool :=
  wfb s && wfb s' &&
  forallb (fun r => forallb (fun r' => (snd r <? fst r') || (snd r' <? fst r)) (ranges s')) (ranges s).

Lemma disjointb_sound s s' c : disjointb s s' = true -> contains s c = true -> contains s' c = false.
Proof.
  unfold disjointb. rewrite !andb_true_iff, forallb_forall. intros [[Hw Hw'] H] Hc.
  destruct (contains s' c) eqn:Hc'; [|done].
  destruct (contains_ranges s c Hw Hc) as (_ & r & Hr%list_elem_of_In & ?).
  destruct (contains_ranges s' c Hw' Hc') as (_ & r' & Hr'%list_elem_of_In & ?).
  specialize (H r Hr). rewrite forallb_forall in H. specialize (H r' Hr'). lia.
Qed.

(** ** Lookup in a table of break properties *)

Definition startsSorted (table : list Z) : bool := sortedb metaCodePoint metaCodePoint table.

Lemma lowerBound_le {A} (lt : A -> bool) l fuel : forall first len,
  (first + len <= length l)%nat -> (lowerBound fuel lt l first len <= length l)%nat.
Proof.
  induction fuel as [|fuel IH]; intros first len H; cbn [lowerBound]; [lia|]. destruct len as [|len]; [lia|].
  assert (Nat.div2 (S len) < S len)%nat by (apply Nat.lt_div2; lia).
  destruct (l !! _) as [x|]; [destruct (lt x)|]; try apply IH; lia.
Qed.

Section table.
Context (table : list Z) (Hsorted : startsSorted table = true).

Lemma upperBound_spec c :
  (forall i v, (i < upperBound table c)%nat -> table !! i = Some v -> metaCodePoint v <= c) /\
  (forall i v, (upperBound table c <= i)%nat -> table !! i = Some v -> c < metaCodePoint v).
Proof.
  apply sortedb_sound in Hsorted as [_ Hs].
  destruct (lowerBound_spec (fun v => negb (c <? metaCodePoint v)) table) with
    (fuel := length table) (first := O) (len := length table) as [Hlo Hhi]; [|lia|lia|lia| |].
  { intros i j x y Hij Hx Hy Hb. specialize (Hs i j x y Hij Hx Hy). zbool. lia. }
  { intros x Hx. apply lookup_lt_Some in Hx. lia. }
  fold (upperBound table c) in Hlo, Hhi. split.
  - intros i v Hi Hv. specialize (Hlo i v Hi Hv). zbool. lia.
  - intros i v Hi Hv.
    destruct (decide (i = upperBound table c)) as [->|Hne]; [specialize (Hhi v Hv); zbool; lia|].
    destruct (lookup_lt_is_Some_2 table (upperBound table c)) as [w Hw]; [apply lookup_lt_Some in Hv; lia|].
    specialize (Hhi w Hw). specialize (Hs (upperBound table c) i w v ltac:(lia) Hw Hv). zbool. lia.
Qed.

(** The range of the table that covers a code point is the one the lookup reads. *)
Lemma upperBound_range c i v w :
  table !! i = Some v -> table !! S i = Some w -> metaCodePoint v <= c < metaCodePoint w ->
  upperBound table c = S i.
Proof.
  intros Hv Hw Hc. destruct (upperBound_spec c) as [Hlo Hhi].
  destruct (decide (upperBound table c <= i)%nat) as [Hle|Hgt]; [specialize (Hhi i v Hle Hv); lia|].
  destruct (decide (S i < upperBound table c)%nat) as [Hlt|]; [|lia].
  specialize (Hlo (S i) w Hlt Hw). lia.
Qed.

Lemma upperBound_mono c d : c <= d -> (upperBound table c <= upperBound table d)%nat.
Proof.
  intros H. destruct (upperBound_spec c) as [Hlo _]. destruct (upperBound_spec d) as [_ Hhi].
  destruct (decide (upperBound table c <= upperBound table d)%nat) as [|Hgt]; [done|].
  assert (upperBound table c <= length table)%nat as Hl.
  { destruct (decide (upperBound table c <= length table)%nat) as [|Hl]; [done|]. exfalso.
    apply Hl. apply lowerBound_le. lia. }
  destruct (lookup_lt_is_Some_2 table (upperBound table d)) as [v Hv]; [lia|].
  specialize (Hlo (upperBound table d) v ltac:(lia) Hv).
  specialize (Hhi (upperBound table d) v ltac:(lia) Hv). lia.
Qed.

(** A property of the indices that the search yields on all members of a set. *)
Definition spans (s : CodePointSetRef) (P : nat -> bool) : bool :=
  wfb s &&
  forallb (fun r => forallb P (seq (upperBound table (fst r))
    (S (upperBound table (snd r) - upperBound table (fst r))))) (ranges s).

Lemma spans_sound s P c : spans s P = true -> contains s c = true -> 0 <= c /\ P (upperBound table c) = true.
Proof.
  unfold spans. rewrite andb_true_iff, forallb_forall. intros [Hw H] Hc.
  destruct (contains_ranges s c Hw Hc) as (H0 & r & Hr%list_elem_of_In & Hlo & Hhi). split; [done|].
  specialize (H r Hr). rewrite forallb_forall in H. apply H. apply in_seq.
  pose proof (upperBound_mono _ _ Hlo). pose proof (upperBound_mono _ _ Hhi). lia.
Qed.

(** In the last range the search runs off the table. *)
Lemma upperBound_last c v :
  last table = Some v -> metaCodePoint v <= c -> (length table <= upperBound table c)%nat.
Proof.
  intros Hv Hc. destruct (upperBound_spec c) as [_ Hhi].
  destruct (decide (length table <= upperBound table c)%nat) as [|Hlt]; [done|].
  rewrite last_lookup in Hv.
  specialize (Hhi (pred (length table)) v ltac:(lia) Hv). lia.
Qed.
End table.

Lemma grapheme_table_sorted : startsSorted GraphemeBreak.grapheme_break_property_table = true.
Proof. vm_compute. reflexivity. Qed.

Lemma word_table_sorted : startsSorted WordBreak.word_break_property_table = true.
Proof. vm_compute. reflexivity. Qed.

(** A code point in a range of the table other than the last has the range's property. *)
Lemma getBreakProperty_range c i v w :
  GraphemeBreak.grapheme_break_property_table !! i = Some v ->
  GraphemeBreak.grapheme_break_property_table !! S i = Some w ->
  metaCodePoint v <= c < metaCodePoint w -> 0 <= c ->
  GraphemeBreak.ofUnderlying (getMeta v) <> GraphemeBreak.Any ->
  GraphemeBreak.getBreakProperty c = GraphemeBreak.ofUnderlying (getMeta v).
Proof.
  intros Hv Hw Hc H0 Hp. unfold GraphemeBreak.getBreakProperty.
  rewrite (upperBound_range _ grapheme_table_sorted c i v w Hv Hw Hc).
  destruct (Z.ltb_spec c 0); [lia|].
  apply lookup_lt_Some in Hw. rewrite (proj2 (Nat.ltb_lt _ _) Hw).
  cbn [Nat.sub]. rewrite Nat.sub_0_r, (nth_lookup_Some _ _ 0 v Hv). by rewrite decide_True.
Qed.

Lemma getWordBreakProperty_range c i v w :
  WordBreak.word_break_property_table !! i = Some v ->
  WordBreak.word_break_property_table !! S i = Some w ->
  metaCodePoint v <= c < metaCodePoint w -> 0 <= c ->
  WordBreak.ofUnderlying (getMeta v) <> WordBreak.Any ->
  WordBreak.getWordBreakProperty c = WordBreak.ofUnderlying (getMeta v).
Proof.
  intros Hv Hw Hc H0 Hp. unfold WordBreak.getWordBreakProperty.
  rewrite (upperBound_range _ word_table_sorted c i v w Hv Hw Hc).
  destruct (Z.ltb_spec c 0); [lia|].
  apply lookup_lt_Some in Hw. rewrite (proj2 (Nat.ltb_lt _ _) Hw).
  cbn [Nat.sub]. rewrite Nat.sub_0_r, (nth_lookup_Some _ _ 0 v Hv). by rewrite decide_True.
Qed.

(** The lookup of a break property never reports the last range of its table, because the
    search then ends at the end of the table, which the code takes for "no property": the
    ideographic variation selectors U+E0100 to U+E01EF do not extend a word, and the controls
    from U+E01F0 on are no controls of grapheme clusters. *)
Theorem last_range_unreachable :
  (last GraphemeBreak.grapheme_break_property_table =
     Some (codePointWithMeta 0xE01F0 (GraphemeBreak.toUnderlying GraphemeBreak.Control)) /\
   forall c, 0xE01F0 <= c -> GraphemeBreak.getBreakProperty c = GraphemeBreak.Any) /\
  (last WordBreak.word_break_property_table =
     Some (codePointWithMeta 0xE0100 (WordBreak.toUnderlying WordBreak.Extend)) /\
   forall c, 0xE0100 <= c -> WordBreak.getWordBreakProperty c = WordBreak.Any).
Proof.
  assert (last GraphemeBreak.grapheme_break_property_table =
    Some (codePointWithMeta 0xE01F0 (GraphemeBreak.toUnderlying GraphemeBreak.Control))) as Hg
    by (vm_compute; reflexivity).
  assert (last WordBreak.word_break_property_table =
    Some (codePointWithMeta 0xE0100 (WordBreak.toUnderlying WordBreak.Extend))) as Hw
    by (vm_compute; reflexivity).
  split; (split; [done|]); intros c Hc.
  - unfold GraphemeBreak.getBreakProperty. destruct (c <? 0) eqn:E; [lia|].
    pose proof (upperBound_last _ grapheme_table_sorted c _ Hg Hc) as Hl.
    by rewrite (proj2 (Nat.ltb_ge _ _) Hl).
  - unfold WordBreak.getWordBreakProperty. destruct (c <? 0) eqn:E; [lia|].
    pose proof (upperBound_last _ word_table_sorted c _ Hw Hc) as Hl.
    by rewrite (proj2 (Nat.ltb_ge _ _) Hl).
Qed.

End UcdFacts.
