(* ===== verification/Segment.v ===== *)
(** The vocabulary of segmentation, shared by grapheme clusters and words: a text as the
    characters a Utf8Stream reads from it, and the cut of such a text at the positions where
    a relation between the code points before and the rest of the text joins nothing. *)
From S2P Require Import Prelude Unicode.

Module Segment.
Import UnicodeUtil.

(** A code point (-1 for an invalid byte) and its bytes. *)
Definition char : Type := Z * bytes.

Fixpoint charsLoop (fuel : nat) (s : bytes) (allow : bool) : list char :=
  match fuel, s with
  | S fuel', _ :: _ =>
      let '(c, rest) := nextCodePoint s allow in
      (c, take (length s - length rest) s) :: charsLoop fuel' rest allow
  | _, _ => []
  end.

Definition chars (s : bytes) (allow : bool) : list char := charsLoop (length s) s allow.

Definition codes (l : list char) : list Z := map fst l.
Definition text (l : list char) : bytes := mjoin (map snd l).

Lemma utf8ValidateChar_le s allow : utf8ValidateChar s allow <= zlen s.
Proof.
  unfold utf8ValidateChar, zlen. destruct s as [|b0 [|b1 [|b2 [|b3 s]]]]; cbn [length]; repeat case_match; lia.
Qed.

(** Reading takes at least one byte. *)
Lemma nextCodePoint_split s allow c rest :
  s <> [] -> nextCodePoint s allow = (c, rest) ->
  exists b, s = b ++ rest /\ b <> [].
Proof.
  intros Hs. unfold nextCodePoint, utf8ToCodePoint. pose proof (utf8ValidateChar_le s allow) as Hle.
  destruct (Z.ltb_spec (utf8ValidateChar s allow) 1) as [Hz|Hz]; intros [= _ <-].
  - destruct s as [|x s]; [done|]. by exists [x].
  - exists (take (Z.to_nat (utf8ValidateChar s allow)) s). split; [by rewrite take_drop|].
    intros H. apply (f_equal length) in H. rewrite length_take in H. unfold zlen in Hle. cbn in H. lia.
Qed.

Lemma charsLoop_fuel fuel : forall s allow, (length s <= fuel)%nat -> charsLoop fuel s allow = chars s allow.
Proof.
  unfold chars. induction fuel as [fuel IH] using lt_wf_ind. intros s allow Hl.
  destruct s as [|x s]; [by destruct fuel|]. destruct fuel as [|fuel]; [cbn in Hl; lia|].
  cbn [length charsLoop]. destruct (nextCodePoint (x :: s) allow) as [c rest] eqn:E.
  destruct (nextCodePoint_split (x :: s) allow c rest ltac:(done) E) as (b & Hb & Hne).
  f_equal. apply (f_equal length) in Hb. rewrite length_app in Hb.
  assert (length b <> 0)%nat by (by destruct b). cbn in Hl, Hb.
  by rewrite (IH fuel), (IH (length s)) by lia.
Qed.

(** The characters of a text, one read at a time. *)
Lemma chars_cons s allow c rest :
  s <> [] -> nextCodePoint s allow = (c, rest) ->
  exists b, b <> [] /\ s = b ++ rest /\ chars s allow = (c, b) :: chars rest allow.
Proof.
  intros Hs E. destruct (nextCodePoint_split s allow c rest Hs E) as (b & Hb & Hne). exists b.
  split_and!; [done|done|]. unfold chars at 1. destruct s as [|x s]; [done|]. cbn [length charsLoop]. rewrite E.
  f_equal.
  - change (S (length s)) with (length (x :: s)). rewrite Hb, length_app. f_equal. replace (length b + length rest - length rest)%nat with (length b) by lia.
    apply take_app_length.
  - apply charsLoop_fuel. apply (f_equal length) in Hb. rewrite length_app in Hb.
    assert (length b <> 0)%nat by (by destruct b). cbn in Hb. lia.
Qed.

Lemma chars_nil allow : chars [] allow = [].
Proof. done. Qed.

Lemma chars_nil_inv s allow : chars s allow = [] -> s = [].
Proof.
  intros H. destruct s as [|x s]; [done|]. destruct (nextCodePoint (x :: s) allow) as [c rest] eqn:E.
  destruct (chars_cons (x :: s) allow c rest ltac:(done) E) as (b & _ & _ & Hc). congruence.
Qed.

(** The characters of a text are the text. *)
Lemma text_chars s allow : text (chars s allow) = s.
Proof.
  remember (length s) as n eqn:Hn. revert s Hn. induction n as [n IH] using lt_wf_ind. intros s ->.
  destruct s as [|x s]; [done|]. destruct (nextCodePoint (x :: s) allow) as [c rest] eqn:E.
  destruct (chars_cons (x :: s) allow c rest ltac:(done) E) as (b & Hb & Hs & ->).
  unfold text. cbn [map mjoin snd]. cbn. fold (mjoin (map snd (chars rest allow))). fold (text (chars rest allow)).
  rewrite (IH (length rest)); [done| |done]. rewrite Hs, length_app.
  assert (length b <> 0)%nat by (by destruct b). lia.
Qed.

Lemma charsLoop_length fuel : forall s allow, (length (charsLoop fuel s allow) <= fuel)%nat.
Proof.
  induction fuel as [|fuel IH]; intros [|x s] allow; cbn [charsLoop length]; try lia.
  destruct (nextCodePoint (x :: s) allow) as [c rest]. cbn [length]. specialize (IH rest allow). lia.
Qed.

Lemma chars_length s allow : (length (chars s allow) <= length s)%nat.
Proof. apply charsLoop_length. Qed.

Lemma chars_nonempty s allow : Forall (fun x : char => snd x <> []) (chars s allow).
Proof.
  remember (length s) as n eqn:Hn. revert s Hn. induction n as [n IH] using lt_wf_ind. intros s ->.
  destruct s as [|x s]; [constructor|]. destruct (nextCodePoint (x :: s) allow) as [c rest] eqn:E.
  destruct (chars_cons (x :: s) allow c rest ltac:(done) E) as (b & Hb & Hs & ->).
  constructor; [done|]. apply (IH (length rest)); [|done]. rewrite Hs, length_app.
  assert (length b <> 0)%nat by (by destruct b). lia.
Qed.

Lemma text_app l k : text (l ++ k) = text l ++ text k.
Proof. unfold text. by rewrite map_app, join_app. Qed.

(** The pieces of a text, one after the other. *)
Lemma text_pieces gs : mjoin (map text gs) = text (mjoin gs).
Proof.
  induction gs as [|g gs IH]; [done|].
  change (mjoin (map text (g :: gs))) with (text g ++ mjoin (map text gs)).
  change (mjoin (g :: gs)) with (g ++ mjoin gs). by rewrite text_app, IH.
Qed.

(** ** Reading a part of a text *)

Lemma validate_shrink s t allow :
  utf8ValidateChar (s ++ t) allow <= zlen s -> utf8ValidateChar s allow = utf8ValidateChar (s ++ t) allow.
Proof.
  unfold utf8ValidateChar, zlen. destruct s as [|b0 [|b1 [|b2 [|b3 s]]]]; cbn [app length];
    repeat case_match; intros; (done || lia).
Qed.

Lemma payload_shrink size s t : size <= zlen s -> payload size (s ++ t) = payload size s.
Proof.
  intros H. unfold payload, zlen in *. repeat case_match; try done; zbool; by rewrite !app_nth1 by lia.
Qed.

(** A character is read in the same way when the text ends after it. *)
Lemma nextCodePoint_shrink s t allow c r :
  s <> [] -> nextCodePoint (s ++ t) allow = (c, r ++ t) -> nextCodePoint s allow = (c, r).
Proof.
  intros Hs. unfold nextCodePoint, utf8ToCodePoint. pose proof (utf8ValidateChar_le (s ++ t) allow) as Hle.
  pose proof (validate_shrink s t allow) as Hv. pose proof (zlen_nonneg s).
  destruct (Z.ltb_spec (utf8ValidateChar (s ++ t) allow) 1) as [Hz|Hz]; intros [= <- Hr].
  - rewrite Hv by lia. rewrite (proj2 (Z.ltb_lt _ _) Hz). f_equal.
    destruct s as [|x s]; [done|]. by apply app_inv_tail in Hr.
  - assert (utf8ValidateChar (s ++ t) allow <= zlen s) as Hl.
    { apply (f_equal length) in Hr. rewrite length_drop, !length_app in Hr. unfold zlen in *.
      rewrite length_app in Hle. lia. }
    rewrite (Hv Hl), (proj2 (Z.ltb_ge _ _) Hz), payload_shrink by done. f_equal.
    rewrite drop_app_le in Hr by (unfold zlen in Hl; lia). by apply app_inv_tail in Hr.
Qed.

(** A text that ends between two characters has the characters before. *)
Lemma chars_split l1 : forall s l2 allow,
  chars s allow = l1 ++ l2 -> s = text l1 ++ text l2 /\ chars (text l1) allow = l1 /\ chars (text l2) allow = l2.
Proof.
  induction l1 as [|[c d] l1 IH]; intros s l2 allow E.
  { cbn in E. rewrite <- E, text_chars. done. }
  assert (s <> []) as Hs by (intros ->; done).
  destruct (nextCodePoint s allow) as [c' rest] eqn:En.
  destruct (chars_cons s allow c' rest Hs En) as (b & Hb & Hsb & Hc). rewrite Hc in E.
  injection E as -> -> E. destruct (IH rest l2 allow E) as (Hr & H1 & H2).
  split_and!; [rewrite Hsb, Hr; exact (app_assoc d (text l1) (text l2))| |done].
  assert (nextCodePoint (d ++ text l1) allow = (c, text l1)) as En'.
  { apply (nextCodePoint_shrink _ (text l2)); [by destruct d|]. by rewrite <- app_assoc, <- Hr, <- Hsb. }
  destruct (chars_cons (d ++ text l1) allow c (text l1) ltac:(by destruct d) En') as (b & _ & Hd & Hcs).
  change (chars (d ++ text l1) allow = (c, d) :: l1). rewrite Hcs, H1. apply app_inv_tail in Hd. by subst.
Qed.

(** ** Cuts *)

Section cut.
(** [joined pre c rest]: no boundary between the text that ends with [pre], the last code
    point first, and [c], which [rest] follows. *)
Context (joined : list Z -> Z -> list Z -> Prop).

(** No boundary inside of [cs] when [pre] is before it and [rest] after it. *)
Fixpoint together (pre : list Z) (cs rest : list Z) : Prop :=
  match cs with
  | [] => True
  | c :: cs' => joined pre c (cs' ++ rest) /\ together (c :: pre) cs' rest
  end.

(** A text cut into pieces, none of them empty, at its boundaries and nowhere else. *)
Inductive segmented : list Z -> list (list char) -> Prop :=
| segmented_nil pre : segmented pre []
| segmented_cons pre c b g gs :
    (pre <> [] -> ~ joined pre c (codes g ++ codes (mjoin gs))) ->
    together (c :: pre) (codes g) (codes (mjoin gs)) ->
    segmented (reverse (codes g) ++ c :: pre) gs ->
    segmented pre (((c, b) :: g) :: gs).

Lemma together_app pre g1 g2 rest :
  together pre (g1 ++ g2) rest -> together pre g1 (g2 ++ rest) /\ together (reverse g1 ++ pre) g2 rest.
Proof.
  revert pre. induction g1 as [|c g1 IH]; intros pre; [done|]. cbn [together app].
  rewrite <- app_assoc. intros [Hc H]. apply IH in H as [? ?].
  by rewrite reverse_cons, <- app_assoc.
Qed.

(** A cut begins with a boundary. *)
Lemma segmented_head pre gs d bd l :
  segmented pre gs -> pre <> [] -> mjoin gs = (d, bd) :: l -> ~ joined pre d (codes l).
Proof.
  intros H Hp E. destruct H as [|pre c b g gs Hb _ _]; [done|].
  cbn in E. injection E as -> -> <-. unfold codes in *. rewrite map_app. auto.
Qed.

(** A piece does not extend past the piece of another cut. *)
Lemma segmented_piece pre c g k gs gs' :
  mjoin gs = k ++ mjoin gs' ->
  segmented (reverse (codes g) ++ c :: pre) gs ->
  together (c :: pre) (codes (g ++ k)) (codes (mjoin gs')) ->
  k = [].
Proof.
  intros E Hs Ht. destruct k as [|[d bd] k]; [done|]. exfalso.
  unfold codes in Ht at 1. rewrite map_app in Ht. apply together_app in Ht as [_ [Ht _]].
  eapply segmented_head in Hs; [|by destruct (reverse (codes g))|exact E]. apply Hs.
  unfold codes in *. by rewrite map_app.
Qed.

Lemma segmented_length pre gs : segmented pre gs -> (length gs <= length (mjoin gs))%nat.
Proof.
  induction 1 as [|pre c b g gs _ _ _ IH]; [cbn; lia|].
  change (mjoin (((c, b) :: g) :: gs)) with (((c, b) :: g) ++ mjoin gs).
  rewrite length_app. cbn [length]. unfold char in *. lia.
Qed.

(** The pieces of a text are not empty. *)
Lemma segmented_nonempty pre gs :
  segmented pre gs -> Forall (fun x : char => snd x <> []) (mjoin gs) -> Forall (fun g => text g <> []) gs.
Proof.
  induction 1 as [|pre c b g gs _ _ _ IH]; intros H; [constructor|].
  change (mjoin (((c, b) :: g) :: gs)) with ((c, b) :: (g ++ mjoin gs)) in H.
  apply Forall_cons in H as [Hb H]. apply Forall_app in H as [_ H]. constructor; [|by apply IH].
  change (b ++ text g <> []). by destruct b.
Qed.

(** There is one way to cut a text. *)
Lemma segmented_unique pre gs gs' :
  segmented pre gs -> segmented pre gs' -> mjoin gs = mjoin gs' -> gs = gs'.
Proof.
  intros H. revert gs'. induction H as [pre|pre c b g gs Hb Ht Hs IH]; intros gs' H' E.
  - destruct H' as [|pre c b g gs Hb Ht Hs]; done.
  - destruct H' as [|pre c' b' g' gs' Hb' Ht' Hs']; [done|]. cbn in E. injection E as <- <- E.
    assert (exists k, (g' = g ++ k /\ mjoin gs = k ++ mjoin gs') \/ (g = g' ++ k /\ mjoin gs' = k ++ mjoin gs))
      as (k & [[-> Hk]|[-> Hk]]).
    { apply app_eq_inv in E as [(k & ? & ?)|(k & ? & ?)]; exists k; auto. }
    + assert (k = []) as -> by (eapply segmented_piece; eauto).
      rewrite app_nil_r in *. f_equal. by apply IH.
    + assert (k = []) as -> by (eapply segmented_piece; eauto).
      rewrite app_nil_r in *. f_equal. by apply IH.
Qed.
End cut.

End Segment.
