(* ===== verification/Grapheme.v ===== *)
(** Grapheme clusters (src/unicode/grapheme.h, src/unicode/grapheme.cpp): the boundary
    automaton, the scanner over UTF-8 text, iteration, fuzzy search and display width, and
    the iterator of strings (StringIterObject of src/object.cpp), which keeps the state of a
    scanner between its steps.  A pointer into a text is the list of the bytes from it to
    the end of the text. *)
From S2P Require Import Prelude Unicode StringRef CodePointSet UcdTables GraphemeBreak.

Module Grapheme.
Import UnicodeUtil CodePointSet UcdTables GraphemeBreak.

(** ** GraphemeBoundary *)

Record GraphemeBoundary := mkBoundary {
  codePoint : Z;
  state : BreakProperty;
  emojiSeq : bool
}.

Definition initBoundary : GraphemeBoundary := mkBoundary (-1) SOT false.

(** What a return statement of [checkBoundary] leaves: the value, [this->state] and
    [this->emojiSeq]; [None] when the control goes on to the next switch. *)
Definition Outcome : Type := option (bool * BreakProperty * bool).

Definition orElse (a b : Outcome) : Outcome := match a with Some r => Some r | None => b end.

(** The first switch: GB1 to GB5. *)
Definition checkControl (before after : BreakProperty) : Outcome :=
  match before with
  | SOT => Some (false, after, false)
  | CR => match after with LF => Some (false, after, false) | _ => Some (true, after, false) end
  | LF | Control => Some (true, after, false)
  | _ => match after with Control | CR | LF => Some (true, after, false) | _ => None end
  end.

(** The second switch: GB6 to GB8 and GB9c. *)
Definition checkSyllable (before after : BreakProperty) (beforeCodePoint nextCodePoint : Z) : Outcome :=
  match before with
  | L => match after with L | V | LV | LVT => Some (false, after, false) | _ => None end
  | LV | V => match after with V | T => Some (false, after, false) | _ => None end
  | LVT | T => match after with T => Some (false, after, false) | _ => None end
  | Extend | Any | InCB_Linker =>
      if bool_decide (before = InCB_Linker) ||
         bool_decide (getInCBExtendOrLinker beforeCodePoint = InCB_Linker) then
        if (bool_decide (after = ZWJ) || bool_decide (after = Extend)) &&
           bool_decide (getInCBExtendOrLinker nextCodePoint = InCB_Extend)
        then Some (false, InCB_Linker, false)
        else match after with InCB_Consonant => Some (false, after, false) | _ => None end
      else None
  | _ => None
  end.

(** The third switch: GB9 and GB9a. *)
Definition checkExtend (before after : BreakProperty) : Outcome :=
  match after with
  | Extend | ZWJ => if bool_decide (before <> Extended_Pictographic) then Some (false, after, false) else None
  | SpacingMark => Some (false, after, false)
  | _ => None
  end.

(** The last switch: GB9b and GB11 to GB13. *)
Definition checkSequence (before after : BreakProperty) : Outcome :=
  match before with
  | Prepend => Some (false, after, false)
  | Regional_Indicator =>
      match after with Regional_Indicator => Some (false, Any, false) | _ => None end
  | Extended_Pictographic =>
      match after with
      | Extend => Some (false, Extended_Pictographic, true)
      | ZWJ => Some (false, Extended_Pictographic_with_ZWJ, true)
      | _ => None
      end
  | Extended_Pictographic_with_ZWJ =>
      match after with Extended_Pictographic => Some (false, after, false) | _ => None end
  | _ => None
  end.

Definition checkBoundary (b : GraphemeBoundary) (nextCodePoint : Z) : bool * GraphemeBoundary :=
  let after := getBreakProperty nextCodePoint in
  let before := state b in
  match orElse (checkControl before after)
          (orElse (checkSyllable before after (codePoint b) nextCodePoint)
             (orElse (checkExtend before after) (checkSequence before after))) with
  | Some (r, s, e) => (r, mkBoundary nextCodePoint s e)
  | None => (true, mkBoundary nextCodePoint after false) (* GB999 *)
  end.

(** ** Utf8GraphemeScanner over a Utf8Stream *)

Record GraphemeCluster := mkCluster {
  ref : bytes;
  hasInvalid : bool;
  isEmojiSeq : bool
}.

Record Scanner := mkScanner {
  boundary : GraphemeBoundary;
  stream : bytes; (* from [iter] to [end] *)
  allowSurrogate : bool;
  charBegin : bytes
}.

(** [Utf8GraphemeScanner(Utf8Stream(ref.begin(), ref.end(), allowSurrogate))] *)
Definition newScanner (t : bytes) (allowSurrogate : bool) : Scanner :=
  mkScanner initBoundary t allowSurrogate t.

Definition hasNext (s : Scanner) : bool := match charBegin s with [] => false | _ => true end.

Definition scanBoundary (s : Scanner) : bool * Scanner :=
  match stream s with
  | [] => (true, s)
  | _ =>
      let '(c, rest) := nextCodePoint (stream s) (allowSurrogate s) in
      let '(r, b) := checkBoundary (boundary s) c in
      (r, mkScanner b rest (allowSurrogate s) (charBegin s))
  end.

(** The loop of [next]. *)
Fixpoint nextLoop (fuel : nat) (s : Scanner) (invalid seq : bool) : option (GraphemeCluster * Scanner) :=
  match fuel with
  | O => None
  | S fuel' =>
      let begin := charBegin s in
      let end_ := stream s in
      let seq := seq || emojiSeq (boundary s) in
      let '(found, s') := scanBoundary s in
      if found
      then Some (mkCluster (take (length begin - length end_) begin) invalid seq,
                 mkScanner (boundary s') (stream s') (allowSurrogate s') end_)
      else nextLoop fuel' s' (invalid || (codePoint (boundary s') <? 0)) seq
  end.

Definition next (s : Scanner) : option (GraphemeCluster * Scanner) :=
  let invalid := bool_decide (state (boundary s) <> SOT) && hasNext s && (codePoint (boundary s) <? 0) in
  nextLoop (S (length (stream s))) s invalid false.

(** ** Iteration: the consumer updates its own state and says whether to go on *)

Section iterate.
Context {A : Type} (consumer : A -> GraphemeCluster -> A * bool).

Fixpoint iterateLoop (fuel : nat) (s : Scanner) (count limit : Z) (acc : A) : option (Z * A) :=
  match fuel with
  | O => None
  | S fuel' =>
      if (count <? limit) && hasNext s then
        match next s with
        | None => None
        | Some (ret, s') =>
            let '(acc', go) := consumer acc ret in
            if go then iterateLoop fuel' s' (u64 (count + 1)) limit acc'
            else Some (u64 (count + 1), acc')
        end
      else Some (count, acc)
  end.

Definition iterateGraphemeUntil (t : bytes) (limit : Z) (allow : bool) (acc : A) : option (Z * A) :=
  iterateLoop (S (length t)) (newScanner t allow) 0 limit acc.

Definition iterateGrapheme (t : bytes) (acc : A) : option (Z * A) :=
  iterateGraphemeUntil t UINT64_MAX false acc.
End iterate.

(** The consumer of [fuzzyFind], over its two captured variables. *)
Definition fuzzyStep (haystack : bytes) (acc : Z * bool) (g : GraphemeCluster) : (Z * bool) * bool :=
  let '(pos, matched) := acc in
  let r := StringRef.find haystack (ref g) pos in
  if r =? StringRef.npos then ((pos, false), false)
  else ((u64 (r + zlen (ref g)), matched), true).

Definition fuzzyFind (haystack needle : bytes) : option bool :=
  match iterateGrapheme (fuzzyStep haystack) needle (0, true) with
  | Some (_, (_, matched)) => Some matched
  | None => None
  end.

(** ** StringIterObject *)

Record StringIter := mkStringIter {
  str : bytes;
  prevPos : Z;
  curPos : Z;
  savedBoundary : Z (* CodePointWithMeta *)
}.

Definition saveScanner (t : bytes) (s : Scanner) : StringIter :=
  mkStringIter t (u32 (zlen t - zlen (charBegin s))) (u32 (zlen t - zlen (stream s)))
    (codePointWithMeta (codePoint (boundary s)) (toUnderlying (state (boundary s)))).

Definition newStringIter (t : bytes) : StringIter := saveScanner t (newScanner t false).

(** [next]: the outer option is the loop's fuel, the inner one the invalid value at the end. *)
Definition stringIterNext (it : StringIter) : option (option bytes * StringIter) :=
  let s := mkScanner
    (mkBoundary (metaCodePoint (savedBoundary it)) (ofUnderlying (getMeta (savedBoundary it))) false)
    (drop (Z.to_nat (curPos it)) (str it)) false (drop (Z.to_nat (prevPos it)) (str it)) in
  if hasNext s then
    match next s with
    | None => None
    | Some (g, s') => Some (Some (ref g), saveScanner (str it) s')
    end
  else Some (None, it).

(** ** Display width *)

Inductive AmbiguousCharWidth := HALF | FULL.

Definition width (c : Z) (ambiguous : AmbiguousCharWidth) : Z :=
  if c <? 0 then -3
  else if c =? 0 then 0
  else if (32 <=? c) && (c <? 127) then 1
  else if (c <? 32) || ((0x7F <=? c) && (c <? 0xA0)) then -1
  else if contains zero_width_table c then -2
  else if (match ambiguous with FULL => true | HALF => false end) && contains ambiguous_width_table c then 2
  else if c <? 0x1100 then 1
  else if contains two_width_table c then 2
  else 1.

Record CharWidthProperties := {
  eaw : AmbiguousCharWidth;
  reginalIndicatorWidth : Z;
  flagSeqWidth : Z;
  zwjSeqFallback : bool;
  replaceInvalid : bool
}.

Definition defaultWidthProperties : CharWidthProperties :=
  {| eaw := HALF; reginalIndicatorWidth := 0; flagSeqWidth := 2; zwjSeqFallback := false; replaceInvalid := false |}.

Inductive CharWidthPropertyCheck := EAW | RGI | EMOJI_FLAG_SEQ | EMOJI_ZWJ_SEQ.

Definition setProperty (ps : CharWidthProperties) (p : CharWidthPropertyCheck) (len : Z) : CharWidthProperties :=
  match p with
  | RGI => {| eaw := eaw ps; reginalIndicatorWidth := u8 len; flagSeqWidth := flagSeqWidth ps;
              zwjSeqFallback := zwjSeqFallback ps; replaceInvalid := replaceInvalid ps |}
  | EAW => {| eaw := if len =? 2 then FULL else HALF; reginalIndicatorWidth := reginalIndicatorWidth ps;
              flagSeqWidth := flagSeqWidth ps; zwjSeqFallback := zwjSeqFallback ps; replaceInvalid := replaceInvalid ps |}
  | EMOJI_FLAG_SEQ => {| eaw := eaw ps; reginalIndicatorWidth := reginalIndicatorWidth ps; flagSeqWidth := u8 len;
              zwjSeqFallback := zwjSeqFallback ps; replaceInvalid := replaceInvalid ps |}
  | EMOJI_ZWJ_SEQ => {| eaw := eaw ps; reginalIndicatorWidth := reginalIndicatorWidth ps;
              flagSeqWidth := flagSeqWidth ps; zwjSeqFallback := 2 <? len; replaceInvalid := replaceInvalid ps |}
  end.

Definition isRegionalIndicator (c : Z) : bool := (0x1F1E6 <=? c) && (c <=? 0x1F1E6 + (122 - 97)).

Definition isEmojiVariationSeqBase (c : Z) : bool :=
  binarySearch (fun x => x <? c) (fun x => c <? x) emoji_variation_table.

Record WidthState := mkWidth { total : Z; prevCodePoint : Z; prevWidth : Z }.

(** One round of the loop of [getGraphemeWidth]. *)
Definition widthStep (ps : CharWidthProperties) (w : WidthState) (c : Z) : WidthState :=
  let force n c := mkWidth (u32 (u32 (total w - prevWidth w) + n)) c n in
  let plain c :=
    let n := width c (eaw ps) in
    if 0 <? n then mkWidth (u32 (total w + n)) c (u8 n) else mkWidth (total w) c 0 in
  if replaceInvalid ps && (c <? 0) then plain 0xFFFD
  else if isRegionalIndicator c then
    if isRegionalIndicator (prevCodePoint w) then force (flagSeqWidth ps) c
    else if negb (reginalIndicatorWidth ps =? 0)
    then mkWidth (u32 (total w + reginalIndicatorWidth ps)) c (reginalIndicatorWidth ps)
    else plain c
  else if (c =? 0xFE0F) && isEmojiVariationSeqBase (prevCodePoint w) then force 2 c
  else plain c.

Fixpoint widthLoop (fuel : nat) (ps : CharWidthProperties) (s : bytes) (w : WidthState) : option WidthState :=
  match s with
  | [] => Some w
  | _ =>
      match fuel with
      | O => None
      | S fuel' => let '(c, rest) := nextCodePoint s false in widthLoop fuel' ps rest (widthStep ps w c)
      end
  end.

Definition getGraphemeWidth (ps : CharWidthProperties) (g : GraphemeCluster) : option Z :=
  match widthLoop (length (ref g)) ps (ref g) (mkWidth 0 0 0) with
  | None => None
  | Some w =>
      Some (if isEmojiSeq g && (2 <? total w) then if zwjSeqFallback ps then total w else 2 else total w)
  end.

End Grapheme.
