(* ===== verification/GraphemeRules.v ===== *)
(** The boundary automaton of GraphemeBoundary decides the rules of UAX #29 for grapheme
    clusters: the rules as a relation between the code points before a position, the last
    one first, and the one after it, and the states of the automaton as a function of the
    code points before. *)
From S2P Require Import Prelude CodePointSet UcdTables GraphemeBreak UcdFacts Grapheme.

Module GraphemeRules.
Import CodePointSet UcdTables UcdFacts GraphemeBreak Grapheme.

Abbreviation gcb := getBreakProperty.

Definition isLinker (c : Z) : bool := contains InCB_Linker_set c.
Definition isInCBExtend (c : Z) : bool := contains InCB_Extend_set c.
Definition isConsonant (c : Z) : bool := contains InCB_Consonant_set c.

(** ** The rules *)

(** \p{Extended_Pictographic} Extend* before the position. *)
Definition emojiTail (pre : list Z) : Prop :=
  exists es x r, pre = es ++ x :: r /\ Forall (fun e => gcb e = Extend) es /\ gcb x = Extended_Pictographic.

(** What joins two code points when no control character is between them.  [linkable]
    restricts the linkers of GB9c; the standard has no restriction. *)
Inductive joins (linkable : list Z -> Prop) : list Z -> Z -> Prop :=
| GB6 p r c : gcb p = L -> gcb c ∈ [L; V; LV; LVT] -> joins linkable (p :: r) c
| GB7 p r c : gcb p ∈ [LV; V] -> gcb c ∈ [V; T] -> joins linkable (p :: r) c
| GB8 p r c : gcb p ∈ [LVT; T] -> gcb c = T -> joins linkable (p :: r) c
| GB9 p r c : gcb c ∈ [Extend; ZWJ] -> joins linkable (p :: r) c
| GB9a p r c : gcb c = SpacingMark -> joins linkable (p :: r) c
| GB9b p r c : gcb p = Prepend -> joins linkable (p :: r) c
| GB9c es k r c :
    Forall (fun e => isInCBExtend e = true) es -> isLinker k = true -> linkable (k :: r) ->
    isConsonant c = true -> joins linkable (es ++ k :: r) c
| GB11 z r c : gcb z = ZWJ -> emojiTail r -> gcb c = Extended_Pictographic -> joins linkable (z :: r) c
| GB12_13 ris r c :
    Forall (fun e => gcb e = Regional_Indicator) ris -> Nat.Odd (length ris) ->
    (forall q r', r = q :: r' -> gcb q <> Regional_Indicator) ->
    gcb c = Regional_Indicator -> joins linkable (ris ++ r) c.

Definition control (p : BreakProperty) : Prop := p ∈ [Control; CR; LF].

(** No boundary between [pre] and [c]: GB1, GB3, GB4 and GB5, then the others. *)
Definition noBreak (linkable : list Z -> Prop) (pre : list Z) (c : Z) : Prop :=
  match pre with
  | [] => True
  | p :: _ => (gcb p = CR /\ gcb c = LF) \/ (~ control (gcb p) /\ ~ control (gcb c) /\ joins linkable pre c)
  end.

(** The rules of the standard, and those of the code, where a linker that a pictograph
    has absorbed as an extending character links nothing. *)
Definition standard : list Z -> Prop := fun _ => True.
Definition unabsorbed : list Z -> Prop := fun pre => ~ emojiTail pre.

(** ** Facts about the tables *)

(** What the search of the table yields at an index. *)
Definition tableProperty (i : nat) : BreakProperty :=
  if (i <? length grapheme_break_property_table)%nat
  then ofUnderlying (getMeta (nth (i - 1) grapheme_break_property_table 0)) else Any.

(** The property of a code point from that of the table and the two sets. *)
Definition propertyFrom (p : BreakProperty) (found consonant pict : bool) : BreakProperty :=
  if decide (p <> Any) then p
  else if found then
    if consonant then InCB_Consonant else if pict then Extended_Pictographic else Any
  else Any.

Lemma gcb_unfold c : 0 <= c ->
  gcb c =
    let i := upperBound grapheme_break_property_table c in
    propertyFrom (tableProperty i) (i <? length grapheme_break_property_table)%nat
      (isConsonant c) (isExtendedPictographic c).
Proof.
  intros H. unfold getBreakProperty, tableProperty, isConsonant, propertyFrom. destruct (Z.ltb_spec c 0); [lia|].
  cbv zeta. generalize (upperBound grapheme_break_property_table c). intros i.
  destruct (i <? length grapheme_break_property_table)%nat; [reflexivity|].
  rewrite decide_False; [done|]. intros H'. by apply H'.
Qed.

(** The index is inside of the table and the property there is one of [ps]. *)
Definition oneOf (ps : list BreakProperty) (i : nat) : bool :=
  (i <? length grapheme_break_property_table)%nat && bool_decide (tableProperty i ∈ ps).

Lemma oneOf_spec ps i : oneOf ps i = true ->
  tableProperty i ∈ ps /\ (i <? length grapheme_break_property_table)%nat = true.
Proof. unfold oneOf. by intros [? ?%bool_decide_eq_true]%andb_true_iff. Qed.

Lemma spans_gcb s ps c :
  spans grapheme_break_property_table s (oneOf ps) = true -> contains s c = true ->
  exists p, p ∈ ps /\ gcb c = propertyFrom p true (isConsonant c) (isExtendedPictographic c).
Proof.
  intros Hs Hc. destruct (spans_sound _ grapheme_table_sorted _ _ c Hs Hc) as [H0 H].
  apply oneOf_spec in H as [H Hi]. eexists. split; [exact H|]. rewrite (gcb_unfold c H0). cbv zeta. by rewrite Hi.
Qed.

Lemma linker_spans : spans grapheme_break_property_table InCB_Linker_set (oneOf [Extend; Any]) = true.
Proof. vm_compute. reflexivity. Qed.
Lemma incbExtend_spans : spans grapheme_break_property_table InCB_Extend_set (oneOf [Extend; ZWJ]) = true.
Proof. vm_compute. reflexivity. Qed.
Lemma consonant_spans : spans grapheme_break_property_table InCB_Consonant_set (oneOf [Any]) = true.
Proof. vm_compute. reflexivity. Qed.
Lemma pictographic_spans : spans grapheme_break_property_table Extended_Pictographic_set (oneOf [Any]) = true.
Proof. vm_compute. reflexivity. Qed.

Lemma linker_disjoint :
  disjointb InCB_Linker_set InCB_Extend_set = true /\ disjointb InCB_Linker_set InCB_Consonant_set = true /\
  disjointb InCB_Linker_set Extended_Pictographic_set = true.
Proof. vm_compute. done. Qed.
Lemma pictographic_disjoint : disjointb Extended_Pictographic_set InCB_Consonant_set = true.
Proof. vm_compute. reflexivity. Qed.

Lemma linker_gcb c : isLinker c = true -> (gcb c = Extend \/ gcb c = Any) /\ isInCBExtend c = false.
Proof.
  intros H. destruct linker_disjoint as (D1 & D2 & D3). split; [|by apply (disjointb_sound _ _ c D1)].
  destruct (spans_gcb _ _ c linker_spans H) as (p & Hp & ->). unfold isConsonant, isExtendedPictographic.
  rewrite (disjointb_sound _ _ c D2 H), (disjointb_sound _ _ c D3 H). clear D1 D2 D3.
  rewrite !elem_of_cons in Hp. destruct Hp as [-> |[-> |Hp]]; [left; reflexivity|right; reflexivity|by apply not_elem_of_nil in Hp].
Qed.

Lemma incbExtend_gcb c : isInCBExtend c = true -> gcb c = Extend \/ gcb c = ZWJ.
Proof.
  intros H. destruct (spans_gcb _ _ c incbExtend_spans H) as (p & Hp & ->).
  rewrite !elem_of_cons in Hp. destruct Hp as [-> |[-> |Hp]]; [left; reflexivity|right; reflexivity|by apply not_elem_of_nil in Hp].
Qed.

(** The table has properties of the database only. *)
Definition tabular (p : BreakProperty) : bool :=
  match p with
  | SOT | Extended_Pictographic | Extended_Pictographic_with_ZWJ | InCB_Consonant | InCB_Extend | InCB_Linker => false
  | _ => true
  end.

Lemma table_tabular i : (i < length grapheme_break_property_table)%nat ->
  tabular (ofUnderlying (getMeta (nth i grapheme_break_property_table 0))) = true.
Proof.
  assert (forallb (fun v => tabular (ofUnderlying (getMeta v))) grapheme_break_property_table = true) as H
    by by vm_compute.
  rewrite forallb_forall in H.
  intros Hi. by apply H, nth_In.
Qed.

Lemma gcb_cases c :
  (tabular (gcb c) = true) \/
  (gcb c = InCB_Consonant /\ isConsonant c = true) \/
  (gcb c = Extended_Pictographic /\ isExtendedPictographic c = true).
Proof.
  unfold getBreakProperty, isConsonant. destruct (c <? 0); [by left|].
  destruct (Nat.ltb_spec (upperBound grapheme_break_property_table c) (length grapheme_break_property_table));
    [|by left].
  pose proof (table_tabular (upperBound grapheme_break_property_table c - 1) ltac:(lia)) as Ht.
  destruct (decide _); [by left|]. repeat case_match; auto.
Qed.

Lemma consonant_gcb c : isConsonant c = true <-> gcb c = InCB_Consonant.
Proof.
  split.
  - intros H. destruct (spans_gcb _ _ c consonant_spans H) as (p & Hp & ->).
    apply list_elem_of_singleton in Hp as ->. by rewrite H.
  - intros H. destruct (gcb_cases c) as [Ht|[[_ ?]|[Hp _]]]; [by rewrite H in Ht|done|congruence].
Qed.

Lemma pictographic_gcb c : isExtendedPictographic c = true <-> gcb c = Extended_Pictographic.
Proof.
  split.
  - intros H. destruct (spans_gcb _ _ c pictographic_spans H) as (p & Hp & ->).
    apply list_elem_of_singleton in Hp as ->. unfold isConsonant. rewrite H.
    by rewrite (disjointb_sound _ _ c pictographic_disjoint H).
  - intros H. destruct (gcb_cases c) as [Ht|[[? _]|[_ ?]]]; [by rewrite H in Ht|congruence|done].
Qed.

Lemma gcb_database c :
  gcb c <> SOT /\ gcb c <> InCB_Linker /\ gcb c <> InCB_Extend /\ gcb c <> Extended_Pictographic_with_ZWJ.
Proof.
  destruct (gcb_cases c) as [Ht|[[-> _]|[-> _]]]; [|done..].
  by destruct (gcb c).
Qed.

Lemma inCB_linker c : bool_decide (getInCBExtendOrLinker c = InCB_Linker) = isLinker c.
Proof.
  unfold getInCBExtendOrLinker. fold (isInCBExtend c) (isLinker c).
  destruct (isInCBExtend c) eqn:He, (isLinker c) eqn:Hl; try done.
  destruct (linker_gcb c Hl) as [_ ?]. congruence.
Qed.

Lemma inCB_extend c : bool_decide (getInCBExtendOrLinker c = InCB_Extend) = isInCBExtend c.
Proof.
  unfold getInCBExtendOrLinker. fold (isInCBExtend c) (isLinker c).
  by destruct (isInCBExtend c), (isLinker c).
Qed.

(** ** The premises of the rules as functions of the text before *)

Fixpoint pictTail (pre : list Z) : bool :=
  match pre with
  | [] => false
  | p :: r => match gcb p with Extended_Pictographic => true | Extend => pictTail r | _ => false end
  end.

Fixpoint linkTail (pre : list Z) : bool :=
  match pre with
  | [] => false
  | p :: r =>
      if isLinker p then negb (pictTail pre)
      else if isInCBExtend p then linkTail r else false
  end.

Fixpoint oddRI (pre : list Z) : bool :=
  match pre with
  | [] => false
  | p :: r => match gcb p with Regional_Indicator => negb (oddRI r) | _ => false end
  end.

Lemma pictTail_spec pre : pictTail pre = true <-> emojiTail pre.
Proof.
  split.
  - induction pre as [|p r IH]; intros H; [done|]. cbn in H.
    destruct (gcb p) eqn:Hp; try done.
    + destruct (IH H) as (es & x & r' & -> & Hes & Hx). exists (p :: es), x, r'. eauto.
    + exists [], p, r. eauto.
  - intros (es & x & r & -> & Hes & Hx). induction Hes as [|e es He _ IH]; cbn; [by rewrite Hx|by rewrite He].
Qed.

Lemma linkTail_spec pre :
  linkTail pre = true <->
  exists es k r, pre = es ++ k :: r /\ Forall (fun e => isInCBExtend e = true) es /\
    isLinker k = true /\ unabsorbed (k :: r).
Proof.
  split.
  - induction pre as [|p r IH]; intros H; [done|]. cbn [linkTail] in H.
    destruct (isLinker p) eqn:Hp.
    + exists [], p, r. split_and!; [done|constructor|done|].
      intros He%pictTail_spec. by rewrite He in H.
    + destruct (isInCBExtend p) eqn:He; [|done].
      destruct (IH H) as (es & k & r' & -> & Hes & Hk). exists (p :: es), k, r'. eauto.
  - intros (es & k & r & -> & Hes & Hk & Hu). induction Hes as [|e es He _ IH]; cbn [app linkTail].
    + rewrite Hk. destruct (pictTail (k :: r)) eqn:Hp; [|done]. by apply pictTail_spec in Hp.
    + destruct (isLinker e) eqn:Hl; [destruct (linker_gcb e Hl); congruence|]. by rewrite He.
Qed.

Lemma oddRI_spec pre :
  oddRI pre = true <->
  exists ris r, pre = ris ++ r /\ Forall (fun e => gcb e = Regional_Indicator) ris /\
    Nat.Odd (length ris) /\ (forall q r', r = q :: r' -> gcb q <> Regional_Indicator).
Proof.
  assert (exists ris r, pre = ris ++ r /\ Forall (fun e => gcb e = Regional_Indicator) ris /\
    (forall q r', r = q :: r' -> gcb q <> Regional_Indicator)) as (ris & r & -> & Hris & Hr).
  { induction pre as [|p pre (ris & r & -> & Hris & Hr)]; [by exists [], []|].
    destruct (decide (gcb p = Regional_Indicator)) as [Hp|Hp].
    - exists (p :: ris), r. eauto.
    - exists [], (p :: ris ++ r). split_and!; [done..|]. by intros ? ? [= <- _]. }
  assert (oddRI (ris ++ r) = Nat.odd (length ris)) as ->.
  { induction Hris as [|e ris He _ IH]; cbn [app oddRI length].
    - destruct r as [|q r]; [done|]. specialize (Hr q r eq_refl). cbn. by destruct (gcb q).
    - by rewrite He, IH, Nat.odd_succ, Nat.negb_odd. }
  rewrite Nat.odd_spec. split; [naive_solver|]. intros (ris' & r' & Heq & Hris' & Hodd & Hr').
  assert (ris = ris') as ->; [|done]. clear Hodd.
  revert ris' Heq Hris'. induction Hris as [|e ris He _ IH]; intros [|e' ris'] Heq Hris'; cbn in Heq.
  - done.
  - subst r. apply Forall_cons in Hris' as [? _]. by destruct (Hr _ _ eq_refl).
  - subst r'. by destruct (Hr' _ _ eq_refl).
  - apply Forall_cons in Hris' as [? ?]. simplify_eq. f_equal. auto.
Qed.

(** ** The automaton *)

(** The state after a text whose last code point has the property [gp], from what the text
    ends with: a pictograph, one before the last code point, a linker as the last code
    point, an unabsorbed linker, an odd number of regional indicators. *)
Definition stateFrom (gp : BreakProperty) (pict prevPict linker link odd : bool) : BreakProperty :=
  if pict then Extended_Pictographic
  else if bool_decide (gp = ZWJ) && prevPict then Extended_Pictographic_with_ZWJ
  else if negb linker && link then InCB_Linker
  else if bool_decide (gp = Regional_Indicator) && negb odd then Any
  else gp.

Definition stateOf (pre : list Z) : BreakProperty :=
  match pre with
  | [] => SOT
  | p :: r => stateFrom (gcb p) (pictTail pre) (pictTail r) (isLinker p) (linkTail pre) (oddRI pre)
  end.

Definition tracks (pre : list Z) (b : GraphemeBoundary) : Prop :=
  state b = stateOf pre /\ (forall p r, pre = p :: r -> codePoint b = p).

(** The verdict of the rules between two code points. *)
Definition joinedFrom (gp gc : BreakProperty) (prevPict link odd : bool) : bool :=
  match gp, gc with
  | CR, LF => true
  | (CR | LF | Control), _ => false
  | _, (CR | LF | Control) => false
  | _, (Extend | ZWJ | SpacingMark) => true
  | Prepend, _ => true
  | L, (L | V | LV | LVT) => true
  | (LV | V), (V | T) => true
  | (LVT | T), T => true
  | ZWJ, Extended_Pictographic => prevPict
  | Regional_Indicator, Regional_Indicator => odd
  | _, InCB_Consonant => link
  | _, _ => false
  end.

Definition joinedb (pre : list Z) (c : Z) : bool :=
  match pre with
  | [] => true
  | p :: r => joinedFrom (gcb p) (gcb c) (pictTail r) (linkTail pre) (oddRI pre)
  end.

End GraphemeRules.
