(* ===== verification/GraphemeSpec.v ===== *)
(** The correctness of grapheme clusters: the automaton follows the rules, the scanner cuts
    every text where they say, and what is built on the scanner follows from that. *)
From S2P Require Import Prelude Unicode StringRef CodePointSet UcdTables GraphemeBreak UcdFacts Grapheme GraphemeRules.

Module GraphemeSpec.
Import UnicodeUtil CodePointSet UcdTables GraphemeBreak Grapheme GraphemeRules.

(** ** The automaton follows the rules *)

(** The second switch, on what the tables say of the two code points. *)
Definition syllableFrom (before after : BreakProperty) (linker incb : bool) : Outcome :=
  match before with
  | L => match after with L | V | LV | LVT => Some (false, after, false) | _ => None end
  | LV | V => match after with V | T => Some (false, after, false) | _ => None end
  | LVT | T => match after with T => Some (false, after, false) | _ => None end
  | Extend | Any | InCB_Linker =>
      if bool_decide (before = InCB_Linker) || linker then
        if (bool_decide (after = ZWJ) || bool_decide (after = Extend)) && incb
        then Some (false, InCB_Linker, false)
        else match after with InCB_Consonant => Some (false, after, false) | _ => None end
      else None
  | _ => None
  end.

Definition verdictFrom (before after : BreakProperty) (linker incb : bool) : bool * BreakProperty :=
  match orElse (checkControl before after)
          (orElse (syllableFrom before after linker incb)
             (orElse (checkExtend before after) (checkSequence before after))) with
  | Some (r, s, _) => (r, s)
  | None => (true, after)
  end.

Lemma checkSyllable_from before after p c :
  checkSyllable before after p c = syllableFrom before after (isLinker p) (isInCBExtend c).
Proof. unfold checkSyllable. by rewrite inCB_linker, inCB_extend. Qed.

Lemma checkBoundary_verdict b c :
  let '(r, s) := verdictFrom (state b) (gcb c) (isLinker (codePoint b)) (isInCBExtend c) in
  fst (checkBoundary b c) = r /\ codePoint (snd (checkBoundary b c)) = c /\
  state (snd (checkBoundary b c)) = s.
Proof.
  unfold checkBoundary, verdictFrom. rewrite checkSyllable_from. by destruct (orElse _ _) as [[[? ?] ?]|].
Qed.

(** What the tables say of a code point: a linker extends or is a letter, an extending code
    point of a conjunct extends. *)
Definition possible (g : BreakProperty) (linker incb : bool) : bool :=
  match g with
  | SOT | InCB_Linker | InCB_Extend | Extended_Pictographic_with_ZWJ => false
  | Any => negb incb
  | Extend => negb (linker && incb)
  | ZWJ => negb linker
  | _ => negb linker && negb incb
  end.

Lemma possible_gcb c : possible (gcb c) (isLinker c) (isInCBExtend c) = true.
Proof.
  pose proof (gcb_database c) as (? & ? & ? & ?).
  pose proof (linker_gcb c). pose proof (incbExtend_gcb c).
  destruct (isLinker c) eqn:El.
  - destruct H3 as [[-> | ->] ->]; done.
  - destruct (isInCBExtend c) eqn:Ee; [by destruct H4 as [-> | ->]|]. by destruct (gcb c).
Qed.

(** What the tails of a text say of its last code point. *)
Definition consistent (g : BreakProperty) (linker incb pict prevPict link odd : bool) : bool :=
  match g with Extended_Pictographic => pict | Extend => true | _ => negb pict end &&
  negb (link && pict) && negb (bool_decide (g = ZWJ) && link && prevPict) &&
  (if linker then Bool.eqb link (negb pict) else if incb then true else negb link) &&
  (bool_decide (g = Regional_Indicator) || negb odd).

Lemma linkTail_pictTail pre : linkTail pre && pictTail pre = false.
Proof.
  induction pre as [|p r IH]; [done|]. cbn [linkTail].
  destruct (isLinker p); [by destruct (pictTail (p :: r))|].
  destruct (isInCBExtend p) eqn:E; [|done]. cbn [pictTail].
  destruct (incbExtend_gcb p E) as [-> | ->]; [done|apply andb_false_r].
Qed.

Lemma consistent_tails p r :
  consistent (gcb p) (isLinker p) (isInCBExtend p) (pictTail (p :: r)) (pictTail r) (linkTail (p :: r))
    (oddRI (p :: r)) = true.
Proof.
  pose proof (linkTail_pictTail r) as H. pose proof (possible_gcb p) as Hp.
  unfold consistent. cbn [linkTail pictTail oddRI].
  destruct (isLinker p), (isInCBExtend p), (gcb p), (pictTail r), (linkTail r), (oddRI r);
    (reflexivity || discriminate H || discriminate Hp).
Qed.

(** One step of the automaton on every combination of what it depends on. *)
Definition stepCase (gp gc : BreakProperty) (lp ep lc ec pict prevPict link odd : bool) : bool :=
  implb (possible gp lp ep && possible gc lc ec && consistent gp lp ep pict prevPict link odd)
    (let '(r, s) := verdictFrom (stateFrom gp pict prevPict lp link odd) gc lp ec in
     let pict' := match gc with Extended_Pictographic => true | Extend => pict | _ => false end in
     let link' := if lc then negb pict' else if ec then link else false in
     let odd' := match gc with Regional_Indicator => negb odd | _ => false end in
     Bool.eqb r (negb (joinedFrom gp gc prevPict link odd)) &&
     bool_decide (s = stateFrom gc pict' pict lc link' odd')).

Definition allb (P : bool -> bool) : bool := P true && P false.

Lemma allb_spec P b : allb P = true -> P b = true.
Proof. unfold allb. rewrite andb_true_iff. intros [? ?]. by destruct b. Qed.

Lemma all_breakProperties g : g ∈ breakProperties.
Proof. apply list_elem_of_In. destruct g; cbn; tauto. Qed.

Lemma forall_breakProperties P g : forallb P breakProperties = true -> P g = true.
Proof. rewrite forallb_forall. intros H. apply H, list_elem_of_In, all_breakProperties. Qed.

Lemma stepCase_table :
  forallb (fun gp => forallb (fun gc =>
    allb (fun lp => allb (fun ep => allb (fun lc => allb (fun ec =>
    allb (fun pict => allb (fun prevPict => allb (fun link => allb (fun odd =>
      stepCase gp gc lp ep lc ec pict prevPict link odd))))))))) breakProperties) breakProperties = true.
Proof. vm_compute. reflexivity. Qed.

Lemma stepCase_all gp gc lp ep lc ec pict prevPict link odd :
  stepCase gp gc lp ep lc ec pict prevPict link odd = true.
Proof.
  pose proof stepCase_table as H.
  apply (forall_breakProperties _ gp) in H. apply (forall_breakProperties _ gc) in H.
  apply (allb_spec _ lp) in H. apply (allb_spec _ ep) in H. apply (allb_spec _ lc) in H.
  apply (allb_spec _ ec) in H. apply (allb_spec _ pict) in H. apply (allb_spec _ prevPict) in H.
  apply (allb_spec _ link) in H. by apply (allb_spec _ odd) in H.
Qed.

Lemma checkBoundary_step pre b c :
  tracks pre b ->
  fst (checkBoundary b c) = negb (joinedb pre c) /\ tracks (c :: pre) (snd (checkBoundary b c)).
Proof.
  intros [Hs Hc]. pose proof (checkBoundary_verdict b c) as Hv.
  pose proof (possible_gcb c) as Pc. unfold tracks.
  destruct (verdictFrom _ _ _ _) as [v s] eqn:E. destruct Hv as (-> & -> & ->).
  assert (forall p r, c :: pre = p :: r -> c = p) as Hp by (by intros ? ? [= <- _]).
  rewrite Hs in E. destruct pre as [|p r].
  - cbn in E. injection E as <- <-. split_and!; [done| |done].
    unfold stateOf, stateFrom. cbn [pictTail linkTail oddRI].
    destruct (isLinker c), (isInCBExtend c), (gcb c); (done || discriminate Pc).
  - rewrite (Hc p r eq_refl) in E. pose proof (possible_gcb p) as Pp. pose proof (consistent_tails p r) as Ht.
    pose proof (stepCase_all (gcb p) (gcb c) (isLinker p) (isInCBExtend p) (isLinker c) (isInCBExtend c)
      (pictTail (p :: r)) (pictTail r) (linkTail (p :: r)) (oddRI (p :: r))) as H.
    unfold stepCase in H. rewrite Pc, Pp, Ht in H. cbn [andb implb] in H.
    change (stateFrom _ _ _ _ _ _) with (stateOf (p :: r)) in H at 1. rewrite E in H.
    apply andb_true_iff in H as [H1%eqb_prop H2%bool_decide_eq_true]. done.
Qed.

(** ** The verdict is that of the rules *)

Definition isControl (g : BreakProperty) : bool := match g with Control | CR | LF => true | _ => false end.

Lemma isControl_spec g : isControl g = false <-> ~ control g.
Proof.
  unfold control. rewrite <- (bool_decide_eq_false (g ∈ [Control; CR; LF])).
  by destruct g.
Qed.

(** Where there are no controls the verdict is a disjunction of the rules' premises. *)
Definition joinsFrom (gp gc : BreakProperty) (prevPict link odd : bool) : bool :=
  bool_decide (gp = L /\ gc ∈ [L; V; LV; LVT]) || bool_decide (gp ∈ [LV; V] /\ gc ∈ [V; T]) ||
  bool_decide (gp ∈ [LVT; T] /\ gc = T) || bool_decide (gc ∈ [Extend; ZWJ]) ||
  bool_decide (gc = SpacingMark) || bool_decide (gp = Prepend) ||
  (bool_decide (gc = InCB_Consonant) && link) ||
  (bool_decide (gp = ZWJ /\ gc = Extended_Pictographic) && prevPict) ||
  (bool_decide (gp = Regional_Indicator /\ gc = Regional_Indicator) && odd).

Lemma joinedFrom_cases gp gc prevPict link odd :
  joinedFrom gp gc prevPict link odd =
    bool_decide (gp = CR /\ gc = LF) ||
    (negb (isControl gp) && negb (isControl gc) && joinsFrom gp gc prevPict link odd).
Proof.
  assert (forallb (fun gp => forallb (fun gc => allb (fun prevPict => allb (fun link => allb (fun odd =>
    Bool.eqb (joinedFrom gp gc prevPict link odd) (bool_decide (gp = CR /\ gc = LF) ||
    (negb (isControl gp) && negb (isControl gc) && joinsFrom gp gc prevPict link odd))))))
    breakProperties) breakProperties = true) as H by (vm_compute; reflexivity).
  apply (forall_breakProperties _ gp) in H. apply (forall_breakProperties _ gc) in H.
  apply (allb_spec _ prevPict) in H. apply (allb_spec _ link) in H. apply (allb_spec _ odd) in H.
  by apply eqb_prop in H.
Qed.

Lemma joinsFrom_spec p r c :
  joinsFrom (gcb p) (gcb c) (pictTail r) (linkTail (p :: r)) (oddRI (p :: r)) = true <->
  joins unabsorbed (p :: r) c.
Proof.
  unfold joinsFrom. rewrite !orb_true_iff, !andb_true_iff, !bool_decide_eq_true.
  rewrite linkTail_spec, pictTail_spec, oddRI_spec, <- consonant_gcb. split.
  - intros [[[[[[[[[? ?]|[? ?]]|[? ?]]|?]|?]|?]|[Hc (es & k & r' & -> & Hes & Hk & Hu)]]|[[? ?] ?]]|[[_ Hc] (ris & r' & -> & ?)]].
    + by eapply GB6.
    + by eapply GB7.
    + by eapply GB8.
    + by eapply GB9.
    + by eapply GB9a.
    + by eapply GB9b.
    + by eapply GB9c.
    + by eapply GB11.
    + by eapply GB12_13; naive_solver.
  - intros H. remember (p :: r) as pre eqn:Epre.
    destruct H; simplify_eq; rewrite ?Epre; try (naive_solver; fail).
    right. destruct ris as [|e ris]; [by apply Nat.odd_spec in H0|].
    injection Epre as -> Hr. pose proof (Forall_inv H). split; [done|].
    exists (p :: ris), r0. cbn. rewrite Hr. naive_solver.
Qed.

Lemma joinedb_spec pre c : joinedb pre c = true <-> noBreak unabsorbed pre c.
Proof.
  destruct pre as [|p r]; [done|]. unfold noBreak, joinedb. rewrite joinedFrom_cases.
  rewrite orb_true_iff, !andb_true_iff, !negb_true_iff, bool_decide_eq_true, !isControl_spec, joinsFrom_spec.
  naive_solver.
Qed.

(** The automaton after a text. *)
Definition scanned (t : list Z) : GraphemeBoundary :=
  foldl (fun b c => snd (checkBoundary b c)) initBoundary t.

Lemma scanned_tracks t : tracks (reverse t) (scanned t).
Proof.
  induction t as [|c t IH] using rev_ind; [done|].
  unfold scanned. rewrite foldl_snoc, reverse_snoc. by apply checkBoundary_step.
Qed.


(** A pictograph swallows the linker after it: the standard joins the consonant in
    U+00A9 U+094D U+0915 to the linker (GB9c), the code breaks before it, although it joins
    the consonant when a letter precedes. *)
Theorem pictograph_absorbs_linker :
  noBreak standard (reverse [0xA9; 0x94D]) 0x915 /\
  fst (checkBoundary (scanned [0xA9; 0x94D]) 0x915) = true /\
  fst (checkBoundary (scanned [0x61; 0x94D]) 0x915) = false.
Proof.
  split; [|by vm_compute]. right. rewrite <- !isControl_spec. split_and!; [by vm_compute..|].
  apply (GB9c _ [] 0x94D [0xA9]); [constructor|by vm_compute|done|by vm_compute].
Qed.

(** The two readings of the rules agree on a text without pictographs. *)
Lemma standard_unabsorbed pre c :
  Forall (fun p => gcb p <> Extended_Pictographic) pre -> noBreak standard pre c <-> noBreak unabsorbed pre c.
Proof.
  intros Hp. destruct pre as [|p r]; [done|]. unfold noBreak.
  assert (forall l : list Z, (exists k, p :: r = k ++ l) -> unabsorbed l) as Hun.
  { intros l [k Hk] (es & x & r' & -> & _ & Hx). rewrite Hk in Hp. rewrite !Forall_app, Forall_cons in Hp. naive_solver. }
  assert (joins standard (p :: r) c <-> joins unabsorbed (p :: r) c) as ->; [|done].
  split; intros H; remember (p :: r) as pre eqn:Epre; destruct H; subst; try (by econstructor; eauto).
Qed.

End GraphemeSpec.
