(* ===== verification/GraphemeScan.v ===== *)
(** The scanner of grapheme clusters cuts every text at the boundaries of the rules and
    nowhere else, and so do its clients: iteration with a limit and a consumer, the iterator
    of strings, and fuzzy search. *)
From S2P Require Import Prelude Unicode StringRef CodePointSet UcdTables GraphemeBreak UcdFacts Grapheme GraphemeRules.
From S2P Require Import GraphemeSpec Segment.

Module GraphemeScan.
Import UnicodeUtil UcdTables GraphemeBreak Grapheme GraphemeRules GraphemeSpec Segment.

(** ** Clusters *)

Definition joined (pre : list Z) (c : Z) (_ : list Z) : Prop := noBreak unabsorbed pre c.

Definition extends (c : Z) : bool := bool_decide (gcb c = Extend) || bool_decide (gcb c = ZWJ).

(** A pictograph is extended inside of the cluster. *)
Fixpoint emojiIn (pre : list Z) (cs : list Z) : bool :=
  match cs with
  | [] => false
  | c :: r => (pictTail pre && extends c) || emojiIn (c :: pre) r
  end.

Definition invalidIn (g : list char) : bool := existsb (fun x => fst x <? 0) g.

Definition clusterOf (pre : list Z) (g : list char) : GraphemeCluster :=
  mkCluster (text g) (invalidIn g) (emojiIn pre (codes g)).

Fixpoint clustersOf (pre : list Z) (gs : list (list char)) : list GraphemeCluster :=
  match gs with
  | [] => []
  | g :: gs' => clusterOf pre g :: clustersOf (reverse (codes g) ++ pre) gs'
  end.

(** ** The flag of the automaton *)

Lemma stateOf_pict pre : stateOf pre = Extended_Pictographic <-> pictTail pre = true.
Proof.
  destruct pre as [|p r]; [done|]. unfold stateOf, stateFrom.
  destruct (pictTail (p :: r)) eqn:E; [done|]. cbn [pictTail] in E.
  repeat case_match; split; done.
Qed.

Lemma stateOf_not_SOT p r : stateOf (p :: r) <> SOT.
Proof.
  unfold stateOf, stateFrom. pose proof (gcb_database p) as (? & _). repeat case_match; done.
Qed.

Definition flagFrom (before after : BreakProperty) (linker incb : bool) : bool * bool :=
  match orElse (checkControl before after)
          (orElse (syllableFrom before after linker incb)
             (orElse (checkExtend before after) (checkSequence before after))) with
  | Some (r, _, e) => (r, e)
  | None => (true, false)
  end.

Lemma flagFrom_spec before after linker incb :
  snd (flagFrom before after linker incb) =
    bool_decide (before = Extended_Pictographic) && (bool_decide (after = Extend) || bool_decide (after = ZWJ)) /\
  (fst (flagFrom before after linker incb) = true -> snd (flagFrom before after linker incb) = false).
Proof.
  assert (forallb (fun before => forallb (fun after => allb (fun linker => allb (fun incb =>
    Bool.eqb (snd (flagFrom before after linker incb))
      (bool_decide (before = Extended_Pictographic) && (bool_decide (after = Extend) || bool_decide (after = ZWJ))) &&
    implb (fst (flagFrom before after linker incb)) (negb (snd (flagFrom before after linker incb))))))
    breakProperties) breakProperties = true) as H by (vm_compute; reflexivity).
  apply (forall_breakProperties _ before) in H. apply (forall_breakProperties _ after) in H.
  apply (allb_spec _ linker) in H. apply (allb_spec _ incb) in H.
  apply andb_true_iff in H as [H1%eqb_prop H2]. split; [done|]. intros H. rewrite H in H2.
  by destruct (snd _).
Qed.

Lemma checkBoundary_flag pre b c :
  tracks pre b ->
  emojiSeq (snd (checkBoundary b c)) = pictTail pre && extends c /\
  (fst (checkBoundary b c) = true -> emojiSeq (snd (checkBoundary b c)) = false).
Proof.
  intros [Hs _]. pose proof (flagFrom_spec (state b) (gcb c) (isLinker (codePoint b)) (isInCBExtend c)) as [H1 H2].
  assert (fst (checkBoundary b c) = fst (flagFrom (state b) (gcb c) (isLinker (codePoint b)) (isInCBExtend c)) /\
          emojiSeq (snd (checkBoundary b c)) = snd (flagFrom (state b) (gcb c) (isLinker (codePoint b)) (isInCBExtend c)))
    as [-> ->].
  { unfold checkBoundary, flagFrom. rewrite checkSyllable_from. by destruct (orElse _ _) as [[[? ?] ?]|]. }
  split; [|done]. rewrite H1. f_equal. apply eq_true_iff_eq.
  by rewrite bool_decide_eq_true, Hs, stateOf_pict.
Qed.

(** ** The scanner *)

Section scan.
Context (allow : bool).

(** A scanner that has read the first character of the next cluster. *)
Definition ready (s : Scanner) (pre : list Z) (cs : list char) : Prop :=
  allowSurrogate s = allow /\ charBegin s = text cs /\
  match cs with
  | [] => True
  | (c, b) :: cs' =>
      chars (stream s) allow = cs' /\ b <> [] /\ tracks (c :: pre) (boundary s) /\
      emojiSeq (boundary s) = false /\ ~ noBreak unabsorbed pre c
  end.

Lemma text_cons c b cs : text ((c, b) :: cs) = b ++ text cs. Proof. done. Qed.

Lemma nextLoop_spec fuel : forall s pre B invalid seq,
  (length (stream s) < fuel)%nat -> allowSurrogate s = allow -> charBegin s = B ++ stream s ->
  tracks pre (boundary s) ->
  exists g rest s',
    nextLoop fuel s invalid seq =
      Some (mkCluster (B ++ text g) (invalid || invalidIn g)
              (seq || emojiSeq (boundary s) || emojiIn pre (codes g)), s') /\
    chars (stream s) allow = g ++ rest /\ together joined pre (codes g) (codes rest) /\
    ready s' (reverse (codes g) ++ pre) rest.
Proof.
  induction fuel as [|fuel IH]; intros s pre B invalid seq Hf Ha HB Ht; [lia|].
  cbn [nextLoop]. unfold scanBoundary.
  destruct (stream s) as [|x st] eqn:Est.
  { exists [], [], (mkScanner (boundary s) (stream s) (allowSurrogate s) []).
    rewrite HB, app_nil_r, Nat.sub_0_r, firstn_all, !orb_false_r. split_and!; try done. cbn. by rewrite app_nil_r. }
  destruct (nextCodePoint (x :: st) (allowSurrogate s)) as [c rest] eqn:E. rewrite Ha in E.
  destruct (chars_cons (x :: st) allow c rest ltac:(done) E) as (b & Hne & Hb & Hcs).
  destruct (checkBoundary_step pre _ c Ht) as [Hv Ht']. destruct (checkBoundary_flag pre _ c Ht) as [Hfl Hfl'].
  destruct (checkBoundary (boundary s) c) as [v b'] eqn:Eb. cbn [fst snd] in *.
  destruct v.
  - exists [], ((c, b) :: chars rest allow), (mkScanner b' rest (allowSurrogate s) (x :: st)).
    rewrite HB, length_app. replace (length B + length (x :: st) - length (x :: st))%nat with (length B) by lia.
    rewrite take_app_length, !orb_false_r. split; [cbn; by rewrite app_nil_r|].
    split; [by rewrite Hcs|]. split; [done|]. split; [done|]. split; [by rewrite text_cons, text_chars|].
    change (reverse (codes []) ++ pre) with pre.
    split_and!; [done..|by apply Hfl'|]. rewrite <- joinedb_spec.
    destruct (joinedb pre c); [discriminate Hv|done].
  - destruct (IH (mkScanner b' rest (allowSurrogate s) (charBegin s)) (c :: pre) (B ++ b)
      (invalid || (codePoint b' <? 0)) (seq || emojiSeq (boundary s))) as (g & cs & s' & Hn & H1 & H2 & H3);
      [|done|cbn; by rewrite HB, Hb, app_assoc|done|].
    { cbn. apply (f_equal length) in Hb. rewrite length_app in Hb. destruct b; [done|]. cbn in Hb, Hf. lia. }
    exists ((c, b) :: g), cs, s'. cbn [boundary]. rewrite Hn. destruct Ht' as [_ Hcp]. rewrite (Hcp c pre eq_refl).
    split; [|split; [|split]].
    + do 3 f_equal; cbn [codes map fst snd emojiIn invalidIn existsb]; rewrite ?text_cons.
      * by rewrite app_assoc.
      * by rewrite orb_assoc.
      * cbn [boundary]. by rewrite Hfl, !orb_assoc.
    + rewrite Hcs. cbn [stream] in H1. by rewrite H1.
    + split; [|done]. apply joinedb_spec. cbn [fst]. destruct (joinedb pre c); [done|discriminate Hv].
    + cbn [codes map fst] in *. by rewrite reverse_cons, <- app_assoc.
Qed.
(** Nothing that extends a pictograph follows a boundary. *)
Lemma boundary_not_extended pre c : ~ noBreak unabsorbed pre c -> pictTail pre && extends c = false.
Proof.
  intros Hnb. destruct (pictTail pre && extends c) eqn:E; [|done]. exfalso. apply Hnb, joinedb_spec.
  apply andb_true_iff in E as [Hp He]. destruct pre as [|p r]; [done|].
  unfold joinedb, joinedFrom. cbn [pictTail] in Hp. unfold extends in He.
  destruct (gcb p), (gcb c); done.
Qed.

(** From one cluster to the next. *)
Lemma next_ready s pre c b cs :
  ready s pre ((c, b) :: cs) ->
  exists g rest s',
    next s = Some (clusterOf pre ((c, b) :: g), s') /\ cs = g ++ rest /\
    together joined (c :: pre) (codes g) (codes rest) /\ ready s' (reverse (codes g) ++ c :: pre) rest.
Proof.
  intros (Ha & Hbeg & Hcs & Hb & Ht & He & Hnb). rewrite text_cons in Hbeg. unfold next.
  assert (hasNext s = true) as Hn by (unfold hasNext; rewrite Hbeg; by destruct b).
  destruct (nextLoop_spec (S (length (stream s))) s (c :: pre) b
    (bool_decide (state (boundary s) <> SOT) && hasNext s && (codePoint (boundary s) <? 0)) false)
    as (g & rest & s' & Hs & H1 & H2 & H3); [lia|done| |done|].
  { by rewrite Hbeg, <- Hcs, text_chars. }
  exists g, rest, s'. rewrite Hs. split_and!; [|by rewrite <- Hcs|done|done].
  destruct Ht as [Hst Hcp]. rewrite Hst, Hn, (Hcp c pre eq_refl), bool_decide_eq_true_2 by apply stateOf_not_SOT.
  unfold clusterOf. cbn [codes map fst emojiIn invalidIn existsb]. rewrite He, text_cons. cbn [andb orb].
  by rewrite (boundary_not_extended pre c Hnb).
Qed.

Lemma next_start t x t' :
  t = x :: t' ->
  exists g rest s',
    next (newScanner t allow) = Some (clusterOf [] g, s') /\ g <> [] /\ chars t allow = g ++ rest /\
    together joined [] (codes g) (codes rest) /\ ready s' (reverse (codes g)) rest.
Proof.
  intros ->. unfold next.
  destruct (nextLoop_spec (S (length (x :: t'))) (newScanner (x :: t') allow) [] [] false false)
    as (g & rest & s' & Hs & H1 & H2 & H3); [cbn; lia|done..|].
  exists g, rest, s'. rewrite app_nil_r in H3. split_and!; [exact Hs| |done..].
  intros ->. destruct rest as [|[c b] rest]; [by apply chars_nil_inv in H1|].
  destruct H3 as (_ & _ & _ & _ & _ & _ & Hnb). by apply Hnb.
Qed.

(** The clusters a scanner yields until it has no next one. *)
Inductive yields : Scanner -> list GraphemeCluster -> Prop :=
| yields_nil s : hasNext s = false -> yields s []
| yields_cons s g s' gs : hasNext s = true -> next s = Some (g, s') -> yields s' gs -> yields s (g :: gs).

Lemma ready_nil s pre : ready s pre [] -> hasNext s = false.
Proof. intros (_ & H & _). unfold hasNext. by rewrite H. Qed.

Lemma ready_cons s pre x cs : ready s pre (x :: cs) -> hasNext s = true.
Proof. destruct x as [c b]. intros (_ & H & _ & Hb & _). unfold hasNext. rewrite H, text_cons. by destruct b. Qed.

Lemma ready_yields n : forall s pre cs, (length cs <= n)%nat -> ready s pre cs ->
  exists gs, mjoin gs = cs /\ (pre <> [] -> segmented joined pre gs) /\ yields s (clustersOf pre gs).
Proof.
  induction n as [|n IH]; intros s pre [|[c b] cs] Hn Hr; try (cbn in Hn; lia).
  1, 2: exists []; split_and!; [done|constructor|constructor; by eapply ready_nil].
  destruct (next_ready s pre c b cs Hr) as (g & rest & s' & Hx & -> & Ht & Hr').
  assert (length rest <= n)%nat as Hl by (cbn in Hn; rewrite length_app in Hn; lia).
  destruct (IH s' _ rest Hl Hr') as (gs & <- & Hs & Hy).
  exists (((c, b) :: g) :: gs). split_and!; [done| |].
  - intros _. constructor; [by destruct Hr as (_ & _ & _ & _ & _ & _ & ?)|done|].
    apply Hs. by destruct (reverse (codes g)).
  - cbn [clustersOf codes map fst]. rewrite reverse_cons, <- app_assoc.
    eapply yields_cons; [by eapply ready_cons|exact Hx|exact Hy].
Qed.

Lemma start_yields t :
  exists gs, mjoin gs = chars t allow /\ segmented joined [] gs /\ yields (newScanner t allow) (clustersOf [] gs).
Proof.
  destruct t as [|x t'] eqn:Et; [exists []; split_and!; [done|constructor|by constructor]|].
  destruct (next_start t x t' Et) as (g & rest & s' & Hx & Hg & Hc & Ht & Hr). rewrite <- Et.
  destruct (ready_yields (length rest) s' _ rest ltac:(lia) Hr) as (gs & <- & Hs & Hy).
  destruct g as [|[c b] g]; [done|]. exists (((c, b) :: g) :: gs). split_and!; [done| |].
  - constructor; [done|by destruct Ht|]. change (codes ((c, b) :: g)) with (c :: codes g) in Hs.
    rewrite reverse_cons in Hs. apply Hs. by destruct (reverse (codes g)).
  - cbn [clustersOf]. rewrite app_nil_r. eapply yields_cons; [by rewrite Et|exact Hx|exact Hy].
Qed.
End scan.

(** ** Iteration *)

(** What a loop over a list of clusters does. *)
Fixpoint consume {A} (consumer : A -> GraphemeCluster -> A * bool) (gs : list GraphemeCluster)
    (count limit : Z) (acc : A) : Z * A :=
  match gs with
  | [] => (count, acc)
  | g :: gs' =>
      if count <? limit then
        let '(acc', go) := consumer acc g in
        if go then consume consumer gs' (count + 1) limit acc' else (count + 1, acc')
      else (count, acc)
  end.

Lemma iterateLoop_yields {A} (consumer : A -> GraphemeCluster -> A * bool) limit s gs :
  yields s gs -> limit <= UINT64_MAX ->
  forall fuel count acc, (length gs < fuel)%nat -> 0 <= count ->
    iterateLoop consumer fuel s count limit acc = Some (consume consumer gs count limit acc).
Proof.
  intros H Hl. induction H as [s Hn|s g s' gs Hn Hx _ IH]; intros [|fuel] count acc Hf Hc; try (cbn in Hf; lia);
    cbn [iterateLoop consume]; rewrite Hn; [by rewrite andb_false_r|]. rewrite andb_true_r.
  destruct (Z.ltb_spec count limit) as [Hlt|]; [|done]. rewrite Hx.
  destruct (consumer acc g) as [acc' go].
  rewrite wrap_small by (unfold in_unsigned, UINT64_MAX in *; lia).
  destruct go; [|done]. apply IH; cbn in Hf; lia.
Qed.

Lemma clustersOf_length pre gs : length (clustersOf pre gs) = length gs.
Proof. revert pre. induction gs as [|g gs IH]; intros pre; cbn; [done|]. by rewrite IH. Qed.



(** ** The iterator of strings *)

Lemma nextCodePoint_range s allow c rest :
  Forall is_byte s -> nextCodePoint s allow = (c, rest) -> -1 <= c <= 0x10FFFF.
Proof.
  intros Hb. unfold nextCodePoint. destruct (utf8ToCodePoint s allow) as [size c'] eqn:E.
  destruct (Z.ltb_spec size 1); intros [= <- _]; [lia|].
  unfold utf8ToCodePoint in E. injection E as E <-.
  destruct (validate_cases s allow size Hb E ltac:(lia)) as (_ & _ & Hc & _).
  rewrite E. apply isCodePoint_range in Hc. lia.
Qed.

Lemma codePointWithMeta_value c m :
  -1 <= c <= 0x10FFFF -> 0 <= m < 256 ->
  codePointWithMeta c m = m * 2 ^ 24 + (if c <? 0 then 0xFFFFFF else c).
Proof.
  intros Hc Hm. unfold codePointWithMeta.
  rewrite Z.shiftl_mul_pow2, (wrap_small 32 (m * 2 ^ 24)) by (unfold in_unsigned; lia).
  rewrite <- Z.shiftl_mul_pow2 by lia. destruct (Z.ltb_spec c 0); cbv iota.
  - rewrite lor_shift_add, ?Z.shiftl_mul_pow2; lia.
  - change 0xFFFFFF with (Z.ones 24). rewrite Z.land_ones, wrap_small, Z.mod_small by (unfold in_unsigned; lia).
    rewrite lor_shift_add, ?Z.shiftl_mul_pow2; lia.
Qed.

Lemma codePointWithMeta_roundtrip c m :
  -1 <= c <= 0x10FFFF -> 0 <= m < 256 ->
  metaCodePoint (codePointWithMeta c m) = c /\ getMeta (codePointWithMeta c m) = m.
Proof.
  intros Hc Hm. rewrite codePointWithMeta_value by done. unfold metaCodePoint, getMeta.
  assert (0 <= (if c <? 0 then 0xFFFFFF else c) < 2 ^ 24) as Hx by (case_match; lia).
  change (Z.land (m * 2 ^ 24 + (if c <? 0 then 0xFFFFFF else c)) 0xFFFFFF)
    with (Z.land (m * 2 ^ 24 + (if c <? 0 then 0xFFFFFF else c)) (Z.ones 24)).
  rewrite Z.land_ones, Z.shiftr_div_pow2 by lia.
  rewrite Z.add_comm, Z.mod_add, Z.div_add, Z.mod_small, Z.div_small by lia.
  rewrite wrap_small by (unfold in_unsigned; lia). split; [|lia].
  destruct (Z.ltb_spec c 0); [cbn; lia|]. destruct (Z.eqb_spec c 0xFFFFFF); lia.
Qed.

(** What [stringIterNext] restores. *)
Definition restore (it : StringIter) : Scanner :=
  mkScanner
    (mkBoundary (metaCodePoint (savedBoundary it)) (ofUnderlying (getMeta (savedBoundary it))) false)
    (drop (Z.to_nat (curPos it)) (str it)) false (drop (Z.to_nat (prevPos it)) (str it)).

Lemma drop_suffix (x s : bytes) : zlen (x ++ s) < 2 ^ 32 -> drop (Z.to_nat (u32 (zlen (x ++ s) - zlen s))) (x ++ s) = s.
Proof.
  intros H. rewrite zlen_app in *. pose proof (zlen_nonneg x). pose proof (zlen_nonneg s).
  rewrite wrap_small by (unfold in_unsigned; lia).
  replace (Z.to_nat (zlen x + zlen s - zlen s)) with (length x) by (unfold zlen; lia). apply drop_app_length.
Qed.

(** A scanner over [t] between two clusters. *)
Definition savable (t : bytes) (s : Scanner) : Prop :=
  allowSurrogate s = false /\ (exists x, t = x ++ stream s) /\ (exists y, t = y ++ charBegin s) /\
  (hasNext s = false \/ (emojiSeq (boundary s) = false /\ -1 <= codePoint (boundary s) <= 0x10FFFF)).

Lemma toUnderlying_range p : 0 <= toUnderlying p < 256.
Proof. destruct p; cbn; lia. Qed.

Lemma ofUnderlying_toUnderlying p : ofUnderlying (toUnderlying p) = p.
Proof. by destruct p. Qed.

Lemma restore_saved t s :
  zlen t < 2 ^ 32 -> savable t s ->
  hasNext (restore (saveScanner t s)) = hasNext s /\ (hasNext s = true -> restore (saveScanner t s) = s).
Proof.
  intros Ht (Ha & [x Hx] & [y Hy] & Hs). unfold restore, saveScanner.
  cbn [savedBoundary curPos prevPos str].
  assert (drop (Z.to_nat (u32 (zlen t - zlen (charBegin s)))) t = charBegin s) as ->.
  { rewrite Hy at 1 2. apply drop_suffix. by rewrite <- Hy. }
  split; [done|]. intros Hn. destruct Hs as [Hs|[He Hc]]; [congruence|].
  assert (drop (Z.to_nat (u32 (zlen t - zlen (stream s)))) t = stream s) as ->.
  { rewrite Hx at 1 2. apply drop_suffix. by rewrite <- Hx. }
  destruct (codePointWithMeta_roundtrip (codePoint (boundary s)) (toUnderlying (state (boundary s))) Hc
    (toUnderlying_range _)) as [-> ->].
  rewrite ofUnderlying_toUnderlying. destruct s as [[c st e] str al cb]. cbn in *. by subst.
Qed.

Lemma boundary_clears_flag b c : fst (checkBoundary b c) = true -> emojiSeq (snd (checkBoundary b c)) = false.
Proof.
  pose proof (flagFrom_spec (state b) (gcb c) (isLinker (codePoint b)) (isInCBExtend c)) as [_ H].
  unfold checkBoundary. unfold flagFrom in H. rewrite checkSyllable_from.
  by destruct (orElse _ _) as [[[? ?] ?]|].
Qed.

Lemma nextLoop_savable t fuel : forall s invalid seq g s',
  Forall is_byte t -> allowSurrogate s = false -> (exists x, t = x ++ stream s) ->
  nextLoop fuel s invalid seq = Some (g, s') -> savable t s'.
Proof.
  induction fuel as [|fuel IH]; intros s invalid seq g s' Hb Ha [x Hx] H; [done|].
  cbn [nextLoop] in H. unfold scanBoundary in H. destruct (stream s) as [|y st] eqn:Est.
  { injection H as _ <-. split_and!; [done|exists x; by rewrite Est|exists t; by rewrite app_nil_r|by left]. }
  destruct (nextCodePoint (y :: st) (allowSurrogate s)) as [c rest] eqn:E. rewrite Ha in E.
  destruct (nextCodePoint_split (y :: st) false c rest ltac:(done) E) as (b & Hst & _).
  assert (Forall is_byte (y :: st)) as Hb' by (rewrite Hx in Hb; by apply Forall_app in Hb as [_ ?]).
  assert (exists x', t = x' ++ rest) as Hr by (exists (x ++ b); by rewrite Hx, Hst, app_assoc).
  pose proof (boundary_clears_flag (boundary s) c) as Hf.
  assert (codePoint (snd (checkBoundary (boundary s) c)) = c) as Hc.
  { pose proof (checkBoundary_verdict (boundary s) c) as Hv. destruct (verdictFrom _ _ _ _). by destruct Hv as (_ & ? & _). }
  destruct (checkBoundary (boundary s) c) as [v b'] eqn:Eb. cbn [fst snd] in *. destruct v.
  - injection H as _ <-. split_and!; [done|done|by exists x|]. right. cbn. split; [by apply Hf|].
    rewrite Hc. by eapply nextCodePoint_range.
  - by eapply IH; [..|exact H].
Qed.

(** Everything an iterator of strings yields. *)
Fixpoint drain (fuel : nat) (it : StringIter) : option (list bytes) :=
  match fuel with
  | O => None
  | S fuel' =>
      match stringIterNext it with
      | Some (Some r, it') => match drain fuel' it' with Some l => Some (r :: l) | None => None end
      | Some (None, _) => Some []
      | None => None
      end
  end.

Lemma drain_yields t s gs :
  Forall is_byte t -> zlen t < 2 ^ 32 -> yields s gs -> savable t s ->
  forall fuel, (length gs < fuel)%nat -> drain fuel (saveScanner t s) = Some (map ref gs).
Proof.
  intros Hb Ht H. induction H as [s Hn|s g s' gs Hn Hx _ IH]; intros Hs [|fuel] Hf; try (cbn in Hf; lia);
    destruct (restore_saved t s Ht Hs) as [Hn' Hr]; cbn [drain]; unfold stringIterNext;
    fold (restore (saveScanner t s)); rewrite Hn', Hn; [done|].
  rewrite (Hr Hn), Hx. cbn [str saveScanner].
  rewrite IH; [done| |cbn in Hf; lia]. destruct Hs as (Ha & Hst & _). by eapply nextLoop_savable.
Qed.

Lemma refs_clustersOf pre gs : map ref (clustersOf pre gs) = map text gs.
Proof. revert pre. induction gs as [|g gs IH]; intros pre; cbn; [done|]. by rewrite IH. Qed.

(** C17: the iterator of strings, which packs the scanner's last code point and state into one
    word between two steps, yields the same clusters as the scanner that runs through, one per
    step, and then reports its end. *)
Theorem string_iterator_yields_clusters t :
  Forall is_byte t -> zlen t < 2 ^ 32 ->
  exists gs, mjoin gs = chars t false /\ segmented joined [] gs /\
    forall fuel, (length t < fuel)%nat -> drain fuel (newStringIter t) = Some (map text gs).
Proof.
  intros Hb Ht. destruct (start_yields false t) as (gs & Hgs & Hs & Hy). exists gs.
  split_and!; [done|done|]. intros fuel Hf.
  rewrite <- (refs_clustersOf []). eapply drain_yields; [done|done|exact Hy| |].
  - split_and!; [done|by exists []|by exists []|right; cbn; lia].
  - rewrite clustersOf_length. apply segmented_length in Hs. rewrite Hgs in Hs.
    pose proof (chars_length t false). lia.
Qed.

Lemma string_iterator_yields_clusters_witness :
  exists gs, mjoin gs = chars [0x41; 0xCC; 0x81; 0xFF; 0x42] false /\ segmented joined [] gs /\
    drain 6 (newStringIter [0x41; 0xCC; 0x81; 0xFF; 0x42]) = Some (map text gs).
Proof.
  destruct (string_iterator_yields_clusters [0x41; 0xCC; 0x81; 0xFF; 0x42]) as (gs & H1 & H2 & H3).
  - repeat constructor; vm_compute; discriminate.
  - vm_compute. reflexivity.
  - exists gs. split; [exact H1|]. split; [exact H2|]. apply H3. vm_compute. repeat constructor.
Defined.

(** ** Fuzzy search *)

(** The strings occur in the text in this order, without overlapping. *)
Inductive inOrder : list bytes -> bytes -> Prop :=
| inOrder_nil h : inOrder [] h
| inOrder_cons x g gs h : inOrder gs h -> inOrder (g :: gs) (x ++ g ++ h).

Lemma inOrder_suffix gs x h : inOrder gs h -> inOrder gs (x ++ h).
Proof. destruct 1 as [|y g gs h H]; [constructor|]. rewrite app_assoc. by constructor. Qed.

(** The first occurrence of the first string leaves the most room. *)
Lemma inOrder_first g gs h k t :
  drop k h = g ++ t -> (k <= length h)%nat -> (forall j u, (j < k)%nat -> drop j h <> g ++ u) ->
  inOrder (g :: gs) h <-> inOrder gs t.
Proof.
  intros Hk Hl Hmin. split.
  - intros H. remember (g :: gs) as l eqn:El. destruct H as [|y g' gs' h' H]; [done|]. injection El as -> ->.
    destruct (decide (length y < k)%nat) as [Hlt|Hge].
    { destruct (Hmin (length y) h' Hlt). by rewrite drop_app_length. }
    rewrite drop_app_le in Hk by lia. apply (f_equal (drop (length g))) in Hk.
    rewrite drop_app_length in Hk. rewrite <- Hk, app_assoc, drop_app_le by (rewrite length_app; lia).
    by apply inOrder_suffix.
  - intros H. rewrite <- (take_drop k h), Hk. by constructor.
Qed.

Lemma fuzzy_consume h gs :
  zlen h < StringRef.npos -> Forall (fun g => ref g <> []) gs ->
  forall count pos, 0 <= pos <= zlen h -> 0 <= count -> count + zlen gs <= UINT64_MAX ->
  exists n pos' m, consume (fuzzyStep h) gs count UINT64_MAX (pos, true) = (n, (pos', m)) /\
    (m = true <-> inOrder (map ref gs) (drop (Z.to_nat pos) h)).
Proof.
  intros Hh. induction 1 as [|g gs Hg _ IH]; intros count pos Hp Hc Hl.
  { exists count, pos, true. split; [done|]. split; [constructor|done]. }
  rewrite zlen_cons in Hl. pose proof (zlen_nonneg gs). cbn [consume map].
  destruct (Z.ltb_spec count UINT64_MAX); [|lia]. cbn [fuzzyStep].
  destruct (StringRef.find_spec h (ref g) pos Hg Hp Hh) as [[-> Hno]|(k & t & -> & Hk & Ht & Hmin)].
  - rewrite Z.eqb_refl. exists (count + 1), pos, false. split; [done|]. split; [done|].
    intros Ho. remember (ref g :: map ref gs) as l eqn:El. remember (drop (Z.to_nat pos) h) as d eqn:Ed.
    destruct Ho as [|y g' gs' h' _]; [done|]. injection El as -> ->.
    destruct (Hno (Z.to_nat pos + length y)%nat h' ltac:(lia)).
    by rewrite <- drop_drop, <- Ed, drop_app_length.
  - assert (Z.of_nat k + zlen (ref g) <= zlen h) as Hle.
    { apply (f_equal length) in Ht. rewrite length_drop, length_app in Ht. unfold zlen in *. lia. }
    pose proof (zlen_nonneg (ref g)). unfold StringRef.npos, UINT64_MAX, zlen in *.
    destruct (Z.eqb_spec (Z.of_nat k) 18446744073709551615); [lia|].
    rewrite wrap_small by (unfold in_unsigned; lia).
    destruct (IH (count + 1) (Z.of_nat k + Z.of_nat (length (ref g)))) as (n' & pos' & m & Hx & Hm); [lia..|].
    exists n', pos', m. split; [exact Hx|]. rewrite Hm.
    replace (Z.to_nat (Z.of_nat k + Z.of_nat (length (ref g)))) with (k + length (ref g))%nat by lia.
    rewrite <- drop_drop, Ht, drop_app_length. symmetry.
    apply (inOrder_first _ _ _ (k - Z.to_nat pos) t).
    + rewrite drop_drop. by replace (Z.to_nat pos + (k - Z.to_nat pos))%nat with k by lia.
    + rewrite length_drop. lia.
    + intros j u Hj. rewrite drop_drop. apply Hmin. lia.
Qed.

(** C18: fuzzy search answers whether the grapheme clusters of the needle occur in the haystack in
    their order without overlapping; taking the first occurrence of each never misses one. *)
Theorem fuzzyFind_in_order haystack needle :
  zlen haystack < StringRef.npos -> zlen needle <= UINT64_MAX ->
  exists gs b, mjoin gs = chars needle false /\ segmented joined [] gs /\
    fuzzyFind haystack needle = Some b /\ (b = true <-> inOrder (map text gs) haystack).
Proof.
  intros Hh Hn. destruct (start_yields false needle) as (gs & Hgs & Hs & Hy).
  pose proof (segmented_length _ _ _ Hs) as Hlen. rewrite Hgs in Hlen. pose proof (chars_length needle false).
  assert (length (clustersOf [] gs) = length gs) as Hcl by apply clustersOf_length.
  destruct (fuzzy_consume haystack (clustersOf [] gs) Hh) with (count := 0) (pos := 0)
    as (n & pos' & m & Hx & Hm); [|pose proof (zlen_nonneg haystack); lia|lia|unfold zlen in *; lia|].
  { assert (Forall (fun r : bytes => r <> []) (map ref (clustersOf [] gs))) as Hne; [|by rewrite Forall_map in Hne].
    rewrite refs_clustersOf. rewrite Forall_map.
    eapply segmented_nonempty; [exact Hs|]. rewrite Hgs. apply chars_nonempty. }
  exists gs, m. split_and!; [done|done| |by rewrite <- (refs_clustersOf [])].
  unfold fuzzyFind, iterateGrapheme, iterateGraphemeUntil.
  rewrite (iterateLoop_yields _ UINT64_MAX _ _ Hy) by lia. by rewrite Hx.
Qed.

Lemma fuzzyFind_in_order_witness :
  exists gs b, mjoin gs = chars (lit "ace") false /\ segmented joined [] gs /\
    fuzzyFind (lit "abcde") (lit "ace") = Some b /\ (b = true <-> inOrder (map text gs) (lit "abcde")).
Proof. apply (fuzzyFind_in_order (lit "abcde") (lit "ace")); vm_compute; [reflexivity|discriminate]. Defined.

End GraphemeScan.
