(* ===== verification/GraphemeCut.v ===== *)
(** The cut of a text into grapheme clusters does not depend on where one starts reading, as
    long as that is a boundary: what follows a boundary is cut like a text of its own, and so
    is what comes before it.  *)
From S2P Require Import Prelude Unicode CodePointSet UcdTables GraphemeBreak Grapheme GraphemeRules.
From S2P Require Import GraphemeSpec GraphemeScan Segment.

Module GraphemeCut.
Import UnicodeUtil GraphemeBreak Grapheme GraphemeRules GraphemeSpec GraphemeScan Segment.

(** ** After a boundary *)

(** A boundary leaves no trace of what is before it in the automaton. *)
Lemma boundary_resets b c : fst (checkBoundary b c) = true -> snd (checkBoundary b c) = mkBoundary c (gcb c) false.
Proof.
  pose proof (checkBoundary_verdict b c) as Hv. pose proof (boundary_clears_flag b c) as Hf.
  assert (forall before after linker incb, fst (verdictFrom before after linker incb) = true ->
    snd (verdictFrom before after linker incb) = after) as Hs.
  { intros before after linker incb.
    assert (forallb (fun before => forallb (fun after => allb (fun linker => allb (fun incb =>
      implb (fst (verdictFrom before after linker incb))
        (bool_decide (snd (verdictFrom before after linker incb) = after)))))
      breakProperties) breakProperties = true) as H by (vm_compute; reflexivity).
    apply (forall_breakProperties _ before) in H. apply (forall_breakProperties _ after) in H.
    apply (allb_spec _ linker) in H. apply (allb_spec _ incb) in H. intros E. cbv beta in H. rewrite E in H.
    by apply bool_decide_eq_true in H. }
  specialize (Hs (state b) (gcb c) (isLinker (codePoint b)) (isInCBExtend c)).
  destruct (verdictFrom _ _ _ _) as [v s]. destruct Hv as (Hv & Hc & Hst). intros E.
  destruct (checkBoundary b c) as [v' [c' s' e']]. cbn in *. subst. by rewrite Hs, Hf.
Qed.

Lemma start_step c : snd (checkBoundary initBoundary c) = mkBoundary c (gcb c) false.
Proof. done. Qed.

(** What the automaton knows of a text that begins at a boundary does not depend on what is
    before. *)
Lemma tracks_restart x pre c :
  ~ noBreak unabsorbed pre c ->
  exists b, tracks (x ++ c :: pre) b /\ tracks (x ++ [c]) b.
Proof.
  intros Hnb. induction x as [|d x (b & Hb1 & Hb2)].
  - exists (mkBoundary c (gcb c) false). split.
    + pose proof (scanned_tracks (reverse pre)) as Ht. rewrite reverse_involutive in Ht.
      destruct (checkBoundary_step _ _ c Ht) as [Hv Ht'].
      rewrite boundary_resets in Ht'; [done|]. rewrite Hv. rewrite <- joinedb_spec in Hnb.
      by destruct (joinedb pre c).
    + destruct (checkBoundary_step [] initBoundary c) as [_ Ht]; [done|]. by rewrite start_step in Ht.
  - exists (snd (checkBoundary b d)). split.
    + by destruct (checkBoundary_step _ _ d Hb1).
    + by destruct (checkBoundary_step _ _ d Hb2).
Qed.

Lemma noBreak_restart x pre c d :
  ~ noBreak unabsorbed pre c ->
  noBreak unabsorbed (x ++ c :: pre) d <-> noBreak unabsorbed (x ++ [c]) d.
Proof.
  intros Hnb. destruct (tracks_restart x pre c Hnb) as (b & Hb1 & Hb2).
  destruct (checkBoundary_step _ _ d Hb1) as [Hv1 _]. destruct (checkBoundary_step _ _ d Hb2) as [Hv2 _].
  rewrite <- !joinedb_spec. rewrite Hv1 in Hv2.
  destruct (joinedb (x ++ c :: pre) d), (joinedb (x ++ [c]) d); done.
Qed.

Lemma together_restart cs rest : forall x pre c,
  ~ noBreak unabsorbed pre c -> together joined (x ++ c :: pre) cs rest -> together joined (x ++ [c]) cs rest.
Proof.
  induction cs as [|d cs IH]; intros x pre c Hnb; [done|]. cbn [together]. intros [Hd H]. split.
  - unfold joined in *. by rewrite <- (noBreak_restart x pre c d Hnb).
  - by apply (IH (d :: x) pre c Hnb).
Qed.

Lemma segmented_restart_at gs : forall x pre c,
  ~ noBreak unabsorbed pre c -> segmented joined (x ++ c :: pre) gs -> segmented joined (x ++ [c]) gs.
Proof.
  induction gs as [|g gs IH]; intros x pre c Hnb H; [constructor|].
  inversion H as [|pre' d b g' gs' Hd Ht Hs]; subst. constructor.
  - intros _. unfold joined in *. rewrite <- (noBreak_restart x pre c d Hnb). apply Hd. by destruct x.
  - by apply (together_restart _ _ (d :: x) pre c Hnb).
  - rewrite app_comm_cons, app_assoc. apply (IH _ pre c Hnb). by rewrite <- app_assoc.
Qed.

(** What follows a boundary is cut like a text of its own. *)
Lemma segmented_restart pre gs : pre <> [] -> segmented joined pre gs -> segmented joined [] gs.
Proof.
  intros Hp H. destruct H as [|pre c b g gs Hb Ht Hs]; [constructor|]. specialize (Hb Hp). constructor; [done| |].
  - by apply (together_restart _ _ [] pre c Hb).
  - by apply (segmented_restart_at _ _ pre c Hb).
Qed.

(** ** Before a boundary *)

Lemma together_rest pre cs rest rest' : together joined pre cs rest -> together joined pre cs rest'.
Proof. revert pre. induction cs as [|c cs IH]; intros pre; [done|]. cbn. intros [? ?]. auto. Qed.

(** What comes before a boundary is cut like a text of its own. *)
Lemma segmented_prefix pre gs gs' : segmented joined pre (gs ++ gs') -> segmented joined pre gs.
Proof.
  revert pre. induction gs as [|g gs IH]; intros pre H; [constructor|].
  inversion H as [|pre' c b g' gs0 Hb Ht Hs]; subst. constructor; [done|by eapply together_rest|by apply IH].
Qed.

Lemma segmented_suffix pre gs gs' :
  segmented joined pre (gs ++ gs') -> segmented joined (reverse (codes (mjoin gs)) ++ pre) gs'.
Proof.
  revert pre. induction gs as [|g gs IH]; intros pre H; [done|].
  inversion H as [|pre' c b g' gs0 Hb Ht Hs]; subst. apply IH in Hs.
  change (mjoin (((c, b) :: g') :: gs)) with ((c, b) :: (g' ++ mjoin gs)).
  unfold codes in *. cbn [map fst]. rewrite map_app, reverse_cons, reverse_app, <- !app_assoc. exact Hs.
Qed.

Lemma segmented_tail pre gs gs' : segmented joined pre (gs ++ gs') -> pre = [] -> segmented joined [] gs'.
Proof.
  intros H ->. pose proof (segmented_suffix _ _ _ H) as Hs.
  destruct gs as [|g gs]; [done|]. inversion H as [|pre' c b g' gs0 _ _ _]; subst.
  eapply segmented_restart; [|exact Hs]. rewrite app_nil_r.
  change (mjoin (((c, b) :: g') :: gs)) with ((c, b) :: (g' ++ mjoin gs)). unfold codes. cbn [map fst].
  rewrite reverse_cons. by intros [_ ?]%app_eq_nil.
Qed.

End GraphemeCut.
