(* ===== verification/GraphemeWidth.v ===== *)
(** The display width of a grapheme cluster (getGraphemeWidth of src/unicode/grapheme.cpp) as
    a sum: a code point counts with its own width unless the next one takes its place, which
    a second regional indicator and a variation selector do.  No subtraction wraps around. *)
From S2P Require Import Prelude Unicode CodePointSet UcdTables GraphemeBreak Grapheme Segment.

Module GraphemeWidth.
Import UnicodeUtil UcdTables Grapheme Segment.

Section width.
Context (ps : CharWidthProperties).

(** The code point that is measured. *)
Definition shown (c : Z) : Z := if replaceInvalid ps && (c <? 0) then 0xFFFD else c.

(** [c] takes the place of [p] before it. *)
Definition replaces (p c : Z) : bool :=
  (isRegionalIndicator c && isRegionalIndicator p) || ((c =? 0xFE0F) && isEmojiVariationSeqBase p).

Definition ownWidth (p c : Z) : Z :=
  if isRegionalIndicator c then
    if isRegionalIndicator p then flagSeqWidth ps
    else if reginalIndicatorWidth ps =? 0 then Z.max 0 (width c (eaw ps)) else reginalIndicatorWidth ps
  else if (c =? 0xFE0F) && isEmojiVariationSeqBase p then 2
  else Z.max 0 (width c (eaw ps)).

Fixpoint sumWidth (p : Z) (cs : list Z) : Z :=
  match cs with
  | [] => 0
  | c :: r =>
      (match r with d :: _ => if replaces c d then 0 else ownWidth p c | [] => ownWidth p c end) +
      sumWidth c r
  end.

Definition bytesOfWidths : Prop := 0 <= reginalIndicatorWidth ps < 256 /\ 0 <= flagSeqWidth ps < 256.

Lemma width_range c a : -3 <= width c a <= 2.
Proof. unfold width. repeat case_match; lia. Qed.

Lemma ownWidth_range p c : bytesOfWidths -> 0 <= ownWidth p c < 256.
Proof.
  intros [? ?]. unfold ownWidth. pose proof (width_range c (eaw ps)). repeat case_match; lia.
Qed.

(** One round: what the previous code point counted is taken back when it is replaced. *)
Lemma widthStep_spec w c :
  bytesOfWidths -> 0 <= prevWidth w -> prevWidth w <= total w -> total w + 255 < 2 ^ 32 ->
  widthStep ps w c =
    mkWidth (total w - (if replaces (prevCodePoint w) (shown c) then prevWidth w else 0) +
             ownWidth (prevCodePoint w) (shown c)) (shown c) (ownWidth (prevCodePoint w) (shown c)).
Proof.
  intros [Hr Hf] Hp Hle Hmax. unfold widthStep, shown, replaces, ownWidth.
  destruct (replaceInvalid ps && (c <? 0)) eqn:E.
  - change (isRegionalIndicator 0xFFFD) with false. change (0xFFFD =? 0xFE0F) with false. cbn [andb orb].
    pose proof (width_range 0xFFFD (eaw ps)).
    destruct (Z.ltb_spec 0 (width 0xFFFD (eaw ps))); f_equal; rewrite ?wrap_small by (unfold in_unsigned; lia); lia.
  - pose proof (width_range c (eaw ps)).
    destruct (isRegionalIndicator c) eqn:Ec.
    + assert ((c =? 0xFE0F) = false) as -> by (unfold isRegionalIndicator in Ec; lia). cbn [andb orb].
      rewrite orb_false_r. destruct (isRegionalIndicator (prevCodePoint w)).
      * rewrite !wrap_small by (unfold in_unsigned; rewrite ?wrap_small; unfold in_unsigned; lia). f_equal; lia.
      * destruct (Z.eqb_spec (reginalIndicatorWidth ps) 0); cbn [negb].
        -- destruct (Z.ltb_spec 0 (width c (eaw ps))); f_equal; rewrite ?wrap_small by (unfold in_unsigned; lia); lia.
        -- rewrite wrap_small by (unfold in_unsigned; lia). f_equal; lia.
    + cbn [andb orb]. destruct ((c =? 0xFE0F) && isEmojiVariationSeqBase (prevCodePoint w)).
      * rewrite !wrap_small by (unfold in_unsigned; rewrite ?wrap_small; unfold in_unsigned; lia). f_equal; lia.
      * destruct (Z.ltb_spec 0 (width c (eaw ps))); f_equal; rewrite ?wrap_small by (unfold in_unsigned; lia); lia.
Qed.

Lemma sumWidth_range cs : forall p, bytesOfWidths -> 0 <= sumWidth p cs <= 255 * zlen cs.
Proof.
  induction cs as [|c cs IH]; intros p Hb; [done|]. cbn [sumWidth]. rewrite zlen_cons.
  specialize (IH c Hb). pose proof (ownWidth_range p c Hb). repeat case_match; lia.
Qed.

(** What the rest of a text adds to the state of the loop. *)
Definition restWidth (w : WidthState) (cs : list Z) : Z :=
  total w - (match cs with d :: _ => if replaces (prevCodePoint w) d then prevWidth w else 0 | [] => 0 end) +
  sumWidth (prevCodePoint w) cs.

Lemma widthLoop_spec fuel : forall s w,
  bytesOfWidths -> (length s <= fuel)%nat -> 0 <= prevWidth w -> prevWidth w <= total w ->
  total w + 255 * zlen (chars s false) < 2 ^ 32 ->
  exists w', widthLoop fuel ps s w = Some w' /\ total w' = restWidth w (map shown (codes (chars s false))).
Proof.
  induction fuel as [|fuel IH]; intros [|x s] w Hb Hf Hp Hle Hmax; try (cbn in Hf; lia).
  1, 2: exists w; split; [done|]; unfold restWidth; cbn; lia.
  cbn [widthLoop]. destruct (nextCodePoint (x :: s) false) as [c rest] eqn:E.
  destruct (chars_cons (x :: s) false c rest ltac:(done) E) as (b & Hne & Hs & Hcs).
  rewrite Hcs in *. rewrite zlen_cons in Hmax. pose proof (zlen_nonneg (chars rest false)).
  rewrite widthStep_spec by (done || lia).
  set (p := prevCodePoint w). pose proof (ownWidth_range p (shown c) Hb) as Ho.
  assert (length rest <= fuel)%nat.
  { apply (f_equal length) in Hs. rewrite length_app in Hs. cbn in Hs, Hf. destruct b; [done|cbn in Hs; lia]. }
  destruct (IH rest (mkWidth (total w - (if replaces p (shown c) then prevWidth w else 0) + ownWidth p (shown c))
    (shown c) (ownWidth p (shown c)))) as (w' & Hw & Ht); [done|done|cbn; lia|cbn; case_match; lia|cbn; case_match; lia|].
  exists w'. split; [exact Hw|]. rewrite Ht. unfold restWidth. cbn [total prevWidth prevCodePoint codes map fst sumWidth].
  fold p (codes (chars rest false)). destruct (map shown (codes (chars rest false))); [lia|].
  destruct (replaces (shown c) z); lia.
Qed.

(** C19: the width of a cluster is the sum of the widths of the code points that no other one
    replaces, without wrap-around, capped at two columns for an emoji sequence unless the terminal
    is known to lack it. *)
Theorem grapheme_width_sum g :
  bytesOfWidths -> 255 * zlen (ref g) < 2 ^ 32 ->
  let w := sumWidth 0 (map shown (codes (chars (ref g) false))) in
  0 <= w <= 255 * zlen (chars (ref g) false) /\
  getGraphemeWidth ps g = Some (if isEmojiSeq g && negb (zwjSeqFallback ps) then Z.min 2 w else w).
Proof.
  intros Hb Hl w. pose proof (chars_length (ref g) false) as Hlen.
  assert (zlen (chars (ref g) false) <= zlen (ref g)) by (unfold zlen; lia).
  assert (0 <= w <= 255 * zlen (chars (ref g) false)) as Hw.
  { pose proof (sumWidth_range (map shown (codes (chars (ref g) false))) 0 Hb) as Hr.
    unfold zlen, codes in Hr. rewrite !length_map in Hr. exact Hr. }
  split; [done|]. unfold getGraphemeWidth.
  destruct (widthLoop_spec (length (ref g)) (ref g) (mkWidth 0 0 0) Hb) as (w' & -> & Ht);
    [lia|done|done|cbn; lia|].
  assert (total w' = w) as ->.
  { rewrite Ht. unfold restWidth. cbn [total prevWidth prevCodePoint]. fold w. destruct (map _ _); [lia|].
    case_match; lia. }
  f_equal. destruct (isEmojiSeq g), (zwjSeqFallback ps); cbn [andb negb]; try done;
    destruct (Z.ltb_spec 2 w); lia.
Qed.
End width.

(** A flag, and a heart with its selector. *)
Lemma grapheme_width_sum_witness :
  getGraphemeWidth defaultWidthProperties (mkCluster [0xF0; 0x9F; 0x87; 0xAF; 0xF0; 0x9F; 0x87; 0xB5] false false) = Some 2 /\
  0 <= 2 <= 255 * 2 /\
  getGraphemeWidth defaultWidthProperties (mkCluster [0xE2; 0x9D; 0xA4; 0xEF; 0xB8; 0x8F] false true) = Some 2.
Proof.
  split; [|split; [lia|]].
  - apply (grapheme_width_sum defaultWidthProperties
      (mkCluster [0xF0; 0x9F; 0x87; 0xAF; 0xF0; 0x9F; 0x87; 0xB5] false false));
      [split; vm_compute; (split; [discriminate|reflexivity])|reflexivity].
  - apply (grapheme_width_sum defaultWidthProperties
      (mkCluster [0xE2; 0x9D; 0xA4; 0xEF; 0xB8; 0x8F] false true));
      [split; vm_compute; (split; [discriminate|reflexivity])|reflexivity].
Defined.

End GraphemeWidth.
