(* ===== verification/Word.v ===== *)
(** Words (src/unicode/word.h): the boundary automaton with its lookahead, the scanner over
    UTF-8 text, and iteration.  A pointer into a text is the list of the bytes from it to
    the end of the text. *)
From S2P Require Import Prelude Unicode UcdTables GraphemeBreak WordBreak.

Module Word.
Import UnicodeUtil WordBreak.

(** ** WordScanner *)

(** What a return statement of [scanBoundary] leaves: the value and [this->state]; [None]
    when the control goes on to the next switch. *)
Definition Outcome : Type := option (bool * WordBreakProperty).

(** The first switch: WB3, WB3a, WB3b, WB4. *)
Definition checkLine (before after : WordBreakProperty) : Outcome :=
  match before with
  | SOT => Some (false, after)
  | CR => match after with LF => Some (false, after) | _ => Some (true, after) end
  | Newline | LF => Some (true, after)
  | _ =>
      match after with
      | Newline | CR | LF => Some (true, after)
      | Extend | Format | ZWJ =>
          if decide (before = WSegSpace) then Some (false, WSegSpace_EFZ) else Some (false, before)
      | _ => None
      end
  end.

(** The second switch, with the variable [requiredProperty]: WB3d, WB5 to WB7. *)
Definition checkLetter (before after : WordBreakProperty) : Outcome * WordBreakProperty :=
  match before with
  | WSegSpace => match after with WSegSpace => (Some (false, after), SOT) | _ => (None, SOT) end
  | ALetter | Hebrew_Letter =>
      match after with
      | ALetter | Hebrew_Letter => (Some (false, after), SOT)
      | MidLetter | MidNumLet | Single_Quote => (None, AHLetter_Mid_NumLetQ)
      | _ => (None, SOT)
      end
  | AHLetter_Mid_NumLetQ =>
      match after with ALetter | Hebrew_Letter => (Some (false, after), SOT) | _ => (None, SOT) end
  | _ => (None, SOT)
  end.

(** WB7a to WB7c. *)
Definition checkHebrew (before after required : WordBreakProperty) : Outcome * WordBreakProperty :=
  match before with
  | Hebrew_Letter =>
      match after with
      | Single_Quote => (Some (false, after), required)
      | Double_Quote => (None, Hebrew_Letter_DQ)
      | _ => (None, required)
      end
  | Hebrew_Letter_DQ =>
      match after with Hebrew_Letter => (Some (false, after), required) | _ => (None, required) end
  | _ => (None, required)
  end.

(** WB8, WB9. *)
Definition checkDigit (before after : WordBreakProperty) : Outcome :=
  match before with
  | Numeric | ALetter | Hebrew_Letter => match after with Numeric => Some (false, after) | _ => None end
  | _ => None
  end.

(** WB10 to WB13. *)
Definition checkNumeric (before after required : WordBreakProperty) : Outcome * WordBreakProperty :=
  match before with
  | Numeric =>
      match after with
      | ALetter | Hebrew_Letter => (Some (false, after), required)
      | MidNum | MidNumLet | Single_Quote => (None, Numeric_Mid_NumLetQ)
      | _ => (None, required)
      end
  | Numeric_Mid_NumLetQ =>
      match after with Numeric => (Some (false, after), required) | _ => (None, required) end
  | Katakana => match after with Katakana => (Some (false, after), required) | _ => (None, required) end
  | _ => (None, required)
  end.

(** The switch over [requiredProperty], when it is set: WB6, WB7b, WB12. *)
Definition checkRequired (required next : WordBreakProperty) : Outcome :=
  match required with
  | Numeric_Mid_NumLetQ => match next with Numeric => Some (false, required) | _ => None end
  | Hebrew_Letter_DQ => match next with Hebrew_Letter => Some (false, required) | _ => None end
  | AHLetter_Mid_NumLetQ => match next with ALetter | Hebrew_Letter => Some (false, required) | _ => None end
  | _ => None
  end.

(** The last switch: WB13a, WB13b, WB15, WB16. *)
Definition checkExtendNumLet (before after : WordBreakProperty) : Outcome :=
  match before with
  | ALetter | Hebrew_Letter | Numeric | Katakana =>
      match after with ExtendNumLet => Some (false, after) | _ => None end
  | ExtendNumLet =>
      match after with
      | ExtendNumLet => Some (false, after)
      | ALetter | Hebrew_Letter | Numeric | Katakana => Some (false, after)
      | _ => None
      end
  | Regional_Indicator => match after with Regional_Indicator => Some (false, Any) | _ => None end
  | _ => None
  end.

(** The switches in their order; [next] is what the lookahead finds. *)
Definition checkWord (before after next : WordBreakProperty) : bool * WordBreakProperty :=
  match checkLine before after with
  | Some r => r
  | None =>
      let '(o1, required) := checkLetter before after in
      match o1 with
      | Some r => r
      | None =>
          let '(o2, required) := checkHebrew before after required in
          match o2 with
          | Some r => r
          | None =>
              match checkDigit before after with
              | Some r => r
              | None =>
                  let '(o3, required) := checkNumeric before after required in
                  match o3 with
                  | Some r => r
                  | None =>
                      match (if decide (required <> SOT) then checkRequired required next else None) with
                      | Some r => r
                      | None =>
                          match checkExtendNumLet before after with
                          | Some r => r
                          | None => (true, after) (* WB999 *)
                          end
                      end
                  end
              end
          end
      end
  end.

Record Scanner := mkScanner {
  state : WordBreakProperty;
  zwj : bool;
  stream : bytes; (* from [iter] to [end] *)
  wordBegin : bytes
}.

(** [lookahead]: the position of the stream is restored, so only the property matters. *)
Fixpoint lookaheadLoop (fuel : nat) (s : bytes) (p : WordBreakProperty) : WordBreakProperty :=
  match fuel, s with
  | S fuel', _ :: _ =>
      let '(c, rest) := nextCodePoint s false in
      match getWordBreakProperty c with
      | Extend => lookaheadLoop fuel' rest Extend
      | Format => lookaheadLoop fuel' rest Format
      | ZWJ => lookaheadLoop fuel' rest ZWJ
      | p => p
      end
  | _, _ => p
  end.

Definition lookahead (s : bytes) : WordBreakProperty := lookaheadLoop (length s) s EOT.

Definition scanBoundary (s : Scanner) : bool * Scanner :=
  match stream s with
  | [] => (true, s)
  | _ =>
      let '(c, rest) := nextCodePoint (stream s) false in
      let after := getWordBreakProperty c in
      let zwj' := bool_decide (after = ZWJ) in
      if zwj s && GraphemeBreak.isExtendedPictographic c
      then (false, mkScanner after zwj' rest (wordBegin s)) (* WB3c *)
      else
        let '(r, state') := checkWord (state s) after (lookahead rest) in
        (r, mkScanner state' zwj' rest (wordBegin s))
  end.

(** ** Utf8WordScanner *)

Definition newScanner (t : bytes) : Scanner := mkScanner SOT false t t.

Definition hasNext (s : Scanner) : bool := match wordBegin s with [] => false | _ => true end.

Fixpoint nextLoop (fuel : nat) (s : Scanner) : option (bytes * Scanner) :=
  match fuel with
  | O => None
  | S fuel' =>
      let begin := wordBegin s in
      let end_ := stream s in
      let '(found, s') := scanBoundary s in
      if found
      then Some (take (length begin - length end_) begin, mkScanner (state s') (zwj s') (stream s') end_)
      else nextLoop fuel' s'
  end.

Definition next (s : Scanner) : option (bytes * Scanner) := nextLoop (S (length (stream s))) s.

(** ** Iteration: the consumer updates its own state and says whether to go on *)

Section iterate.
Context {A : Type} (consumer : A -> bytes -> A * bool).

Fixpoint iterateLoop (fuel : nat) (s : Scanner) (count limit : Z) (acc : A) : option (Z * A) :=
  match fuel with
  | O => None
  | S fuel' =>
      if (count <? limit) && hasNext s then
        match next s with
        | None => None
        | Some (ret, s') =>
            let '(acc', go) := consumer acc ret in
            if go then iterateLoop fuel' s' (u64 (count + 1)) limit acc'
            else Some (u64 (count + 1), acc')
        end
      else Some (count, acc)
  end.

Definition iterateWordUntil (t : bytes) (limit : Z) (acc : A) : option (Z * A) :=
  iterateLoop (S (length t)) (newScanner t) 0 limit acc.

Definition iterateWord (t : bytes) (acc : A) : option (Z * A) := iterateWordUntil t UINT64_MAX acc.
End iterate.

End Word.
