(* ===== verification/WordRules.v ===== *)
(** The boundary automaton of WordScanner decides the rules of UAX #29 for words.  The
    rules are a relation between the code points before a position, the last one first, the
    code point after it, and the rest of the text, which two of them look into. *)
From S2P Require Import Prelude CodePointSet UcdTables GraphemeBreak WordBreak UcdFacts Word.

Module WordRules.
Import CodePointSet UcdTables UcdFacts WordBreak Word.

Abbreviation wb := getWordBreakProperty.

(** ** The rules *)

Definition ignorable (p : WordBreakProperty) : bool := match p with Extend | Format | ZWJ => true | _ => false end.
Definition newline (p : WordBreakProperty) : bool := match p with CR | LF | Newline => true | _ => false end.
Definition AHLetter (p : WordBreakProperty) : bool := match p with ALetter | Hebrew_Letter => true | _ => false end.
Definition MidNumLetQ (p : WordBreakProperty) : bool := match p with MidNumLet | Single_Quote => true | _ => false end.

(** WB4: the properties before a position, without the code points that extend another one. *)
Fixpoint significant (pre : list Z) : list WordBreakProperty :=
  match pre with
  | [] => []
  | c :: r =>
      match r with
      | [] => [wb c]
      | q :: _ => if ignorable (wb c) && negb (newline (wb q)) then significant r else wb c :: significant r
      end
  end.

(** The next property that does not extend another one. *)
Fixpoint ahead (rest : list Z) : WordBreakProperty :=
  match rest with
  | [] => EOT
  | c :: r => if ignorable (wb c) then ahead r else wb c
  end.

(** What joins two properties, [pre] the significant ones before and [next] the one after.
    [bridges] restricts WB7; the standard has no restriction. *)
Inductive joins (bridges : WordBreakProperty -> WordBreakProperty -> Prop) :
    list WordBreakProperty -> WordBreakProperty -> WordBreakProperty -> Prop :=
| WB5 a r x n : AHLetter a = true -> AHLetter x = true -> joins bridges (a :: r) x n
| WB6 a r x n :
    AHLetter a = true -> x = MidLetter \/ MidNumLetQ x = true -> AHLetter n = true -> joins bridges (a :: r) x n
| WB7 m a r x n :
    AHLetter a = true -> m = MidLetter \/ MidNumLetQ m = true -> bridges a m -> AHLetter x = true ->
    joins bridges (m :: a :: r) x n
| WB7a r n : joins bridges (Hebrew_Letter :: r) Single_Quote n
| WB7b r : joins bridges (Hebrew_Letter :: r) Double_Quote Hebrew_Letter
| WB7c r n : joins bridges (Double_Quote :: Hebrew_Letter :: r) Hebrew_Letter n
| WB8 r n : joins bridges (Numeric :: r) Numeric n
| WB9 a r n : AHLetter a = true -> joins bridges (a :: r) Numeric n
| WB10 r x n : AHLetter x = true -> joins bridges (Numeric :: r) x n
| WB11 m r n : m = MidNum \/ MidNumLetQ m = true -> joins bridges (m :: Numeric :: r) Numeric n
| WB12 r x : x = MidNum \/ MidNumLetQ x = true -> joins bridges (Numeric :: r) x Numeric
| WB13 r n : joins bridges (Katakana :: r) Katakana n
| WB13a p r n :
    AHLetter p = true \/ p ∈ [Numeric; Katakana; ExtendNumLet] -> joins bridges (p :: r) ExtendNumLet n
| WB13b r x n : AHLetter x = true \/ x ∈ [Numeric; Katakana] -> joins bridges (ExtendNumLet :: r) x n
| WB15_16 ris r n :
    Forall (eq Regional_Indicator) ris -> Nat.Odd (length ris) ->
    (forall r', r <> Regional_Indicator :: r') -> joins bridges (ris ++ r) Regional_Indicator n.

(** No boundary between [pre] and [c], which [rest] follows: WB1, WB3, WB3a to WB3d, WB4, then
    the others. *)
Definition noBreak (bridges : WordBreakProperty -> WordBreakProperty -> Prop)
    (pre : list Z) (c : Z) (rest : list Z) : Prop :=
  match pre with
  | [] => True
  | p :: _ =>
      (wb p = CR /\ wb c = LF) \/
      (newline (wb p) = false /\ newline (wb c) = false /\
       ((wb p = ZWJ /\ GraphemeBreak.isExtendedPictographic c = true) \/
        (wb p = WSegSpace /\ wb c = WSegSpace) \/
        ignorable (wb c) = true \/
        joins bridges (significant pre) (wb c) (ahead rest)))
  end.

(** The rules of the standard, and those of the code, where an apostrophe after a Hebrew
    letter, which WB7a joins, is no bridge to the letter that follows. *)
Definition standard (a m : WordBreakProperty) : Prop := True.
Definition noHebrewQuote (a m : WordBreakProperty) : Prop := ~ (a = Hebrew_Letter /\ m = Single_Quote).

(** ** Facts about the tables *)

Definition database (p : WordBreakProperty) : bool :=
  match p with
  | SOT | EOT | WSegSpace_EFZ | AHLetter_Mid_NumLetQ | Hebrew_Letter_DQ | Numeric_Mid_NumLetQ => false
  | _ => true
  end.

Lemma table_database i : (i < length word_break_property_table)%nat ->
  database (ofUnderlying (getMeta (nth i word_break_property_table 0))) = true.
Proof.
  assert (forallb (fun v => database (ofUnderlying (getMeta v))) word_break_property_table = true) as H
    by (vm_compute; reflexivity).
  rewrite forallb_forall in H. intros Hi. by apply H, nth_In.
Qed.

(** What the search of the table yields at an index. *)
Definition tableProperty (i : nat) : WordBreakProperty :=
  if (i <? length word_break_property_table)%nat
  then ofUnderlying (getMeta (nth (i - 1) word_break_property_table 0)) else Any.

(** The property of a code point from that of the table and three sets. *)
Definition propertyFrom (p : WordBreakProperty) (found midLetter midNumLet quote : bool) : WordBreakProperty :=
  if decide (p <> Any) then p
  else if found then
    if midLetter then MidLetter else if midNumLet then MidNumLet else if quote then Single_Quote else Any
  else Any.

Lemma wb_unfold c : 0 <= c ->
  wb c =
    let i := upperBound word_break_property_table c in
    propertyFrom (tableProperty i) (i <? length word_break_property_table)%nat
      (contains MidLetter_set c) (contains MidNumLet_set c) (contains Single_Quote_set c).
Proof.
  intros H. unfold getWordBreakProperty, tableProperty, propertyFrom. destruct (Z.ltb_spec c 0); [lia|].
  cbv zeta. generalize (upperBound word_break_property_table c). intros i.
  destruct (i <? length word_break_property_table)%nat; [reflexivity|].
  rewrite decide_False; [done|]. intros H'. by apply H'.
Qed.

Lemma wb_database c : database (wb c) = true.
Proof.
  destruct (Z.ltb_spec c 0) as [H|H].
  { unfold getWordBreakProperty. by rewrite (proj2 (Z.ltb_lt _ _) H). }
  rewrite wb_unfold by done. cbv zeta. generalize (upperBound word_break_property_table c). intros i.
  unfold tableProperty. destruct (Nat.ltb_spec i (length word_break_property_table)) as [Hi|]; [|done].
  pose proof (table_database (i - 1) ltac:(lia)) as Hd. revert Hd.
  generalize (ofUnderlying (getMeta (nth (i - 1) word_break_property_table 0))).
  intros p Hp. unfold propertyFrom. destruct (decide (p <> Any)); [done|]. by repeat case_match.
Qed.

Lemma word_pictographic_spans :
  spans word_break_property_table Extended_Pictographic_set
    (fun i => (i <? length word_break_property_table)%nat && bool_decide (tableProperty i ∈ [Any; ALetter])) = true.
Proof. vm_compute. reflexivity. Qed.

Lemma word_pictographic_disjoint :
  disjointb Extended_Pictographic_set MidLetter_set = true /\
  disjointb Extended_Pictographic_set MidNumLet_set = true /\
  disjointb Extended_Pictographic_set Single_Quote_set = true.
Proof. vm_compute. done. Qed.

(** A pictograph is a letter or nothing, for words. *)
Lemma pictographic_wb c : GraphemeBreak.isExtendedPictographic c = true -> wb c = Any \/ wb c = ALetter.
Proof.
  intros Hc. destruct (spans_sound _ word_table_sorted _ _ c word_pictographic_spans Hc) as [H0 H].
  rewrite (wb_unfold c H0). cbv zeta. destruct word_pictographic_disjoint as (D1 & D2 & D3).
  rewrite (disjointb_sound _ _ c D1 Hc), (disjointb_sound _ _ c D2 Hc), (disjointb_sound _ _ c D3 Hc). clear D1 D2 D3.
  revert H. generalize (upperBound word_break_property_table c). intros i H.
  apply andb_true_iff in H as [_ H%bool_decide_eq_true]. revert H. generalize (tableProperty i). intros p Hp.
  rewrite !elem_of_cons in Hp.
  destruct Hp as [-> |[-> |Hp]]; [left|right|by apply not_elem_of_nil in Hp]; by destruct (i <? _)%nat.
Qed.

End WordRules.
