(* ===== verification/WordSpec.v ===== *)
(** The correctness of words: the automaton follows the rules, and the scanner cuts every
    text where they say and nowhere else. *)
From S2P Require Import Prelude Unicode CodePointSet UcdTables GraphemeBreak WordBreak UcdFacts Segment Word WordRules.

Module WordSpec.
Import UnicodeUtil UcdTables WordBreak Word WordRules Segment.

(** ** The automaton as a function of what is before and after *)

Definition eqw (p q : WordBreakProperty) : bool := toUnderlying p =? toUnderlying q.

Lemma eqw_spec p q : eqw p q = true <-> p = q.
Proof. unfold eqw. split; [by destruct p, q|intros ->; apply Z.eqb_refl]. Qed.

Definition midLetterQ (p : WordBreakProperty) : bool := eqw p MidLetter || MidNumLetQ p.
Definition midNumQ (p : WordBreakProperty) : bool := eqw p MidNum || MidNumLetQ p.

Fixpoint oddRI (e : list WordBreakProperty) : bool :=
  match e with
  | Regional_Indicator :: r => negb (oddRI r)
  | _ => false
  end.

(** The state between a text and the rest: [gp] eqw the last property, [e1] and [e2] the last
    two significant ones, [n] the next significant one. *)
Definition stateFrom (gp e1 e2 n : WordBreakProperty) (odd : bool) : WordBreakProperty :=
  match e1 with
  | WSegSpace => if eqw gp WSegSpace then WSegSpace else WSegSpace_EFZ
  | Regional_Indicator => if odd then Regional_Indicator else Any
  | MidLetter | MidNumLet | Single_Quote | MidNum | Double_Quote =>
      if midLetterQ e1 && AHLetter e2 && AHLetter n && negb (eqw e1 Single_Quote && eqw e2 Hebrew_Letter)
      then AHLetter_Mid_NumLetQ
      else if midNumQ e1 && eqw e2 Numeric && eqw n Numeric then Numeric_Mid_NumLetQ
      else if eqw e1 Double_Quote && eqw e2 Hebrew_Letter && eqw n Hebrew_Letter then Hebrew_Letter_DQ
      else e1
  | _ => e1
  end.

Definition joinsFrom (e1 e2 x n : WordBreakProperty) (odd : bool) : bool :=
  (AHLetter e1 && AHLetter x) || (AHLetter e1 && midLetterQ x && AHLetter n) ||
  (midLetterQ e1 && AHLetter e2 && negb (eqw e2 Hebrew_Letter && eqw e1 Single_Quote) && AHLetter x) ||
  (eqw e1 Hebrew_Letter && eqw x Single_Quote) ||
  (eqw e1 Hebrew_Letter && eqw x Double_Quote && eqw n Hebrew_Letter) ||
  (eqw e1 Double_Quote && eqw e2 Hebrew_Letter && eqw x Hebrew_Letter) ||
  (eqw e1 Numeric && eqw x Numeric) || (AHLetter e1 && eqw x Numeric) || (eqw e1 Numeric && AHLetter x) ||
  (midNumQ e1 && eqw e2 Numeric && eqw x Numeric) || (eqw e1 Numeric && midNumQ x && eqw n Numeric) ||
  (eqw e1 Katakana && eqw x Katakana) ||
  ((AHLetter e1 || eqw e1 Numeric || eqw e1 Katakana || eqw e1 ExtendNumLet) && eqw x ExtendNumLet) ||
  (eqw e1 ExtendNumLet && (AHLetter x || eqw x Numeric || eqw x Katakana)) ||
  (eqw x Regional_Indicator && odd).

Definition joinedFrom (gp e1 e2 x n : WordBreakProperty) (pict odd : bool) : bool :=
  (eqw gp CR && eqw x LF) ||
  (negb (newline gp) && negb (newline x) &&
   ((eqw gp ZWJ && pict) || (eqw gp WSegSpace && eqw x WSegSpace) || ignorable x || joinsFrom e1 e2 x n odd)).

(** One step of the automaton. *)
Definition stepFrom (s x n : WordBreakProperty) (zwj pict : bool) : bool * WordBreakProperty :=
  if zwj && pict then (false, x) else checkWord s x n.

(** What the code points of a text can be: the last property before and the last significant
    one, and with them the parity and the pictograph. *)
Definition possibleLast (gp e1 : WordBreakProperty) : bool :=
  database gp && (eqw gp e1 || (ignorable gp && negb (newline e1))).
Definition possibleNext (e1 x : WordBreakProperty) (pict odd : bool) : bool :=
  (eqw e1 Regional_Indicator || negb odd) && (negb pict || eqw x Any || eqw x ALetter).

Definition stepCase (gp e1 e2 x n : WordBreakProperty) (pict odd : bool) : bool :=
  let '(r, s) := stepFrom (stateFrom gp e1 e2 (if ignorable x then n else x) odd) x n (eqw gp ZWJ) pict in
  Bool.eqb r (negb (joinedFrom gp e1 e2 x n pict odd)) &&
  eqw s (if ignorable x && negb (newline gp) then stateFrom x e1 e2 n odd
         else stateFrom x x e1 n (eqw x Regional_Indicator && negb odd)).

(** All values under a condition, without evaluating the others. *)
Definition everywhere (P Q : WordBreakProperty -> bool) : bool :=
  forallb (fun p => if P p then Q p else true) wordBreakProperties.
Definition everyBit (P Q : bool -> bool) : bool :=
  (if P true then Q true else true) && (if P false then Q false else true).

Lemma everywhere_spec P Q p : everywhere P Q = true -> P p = true -> Q p = true.
Proof.
  unfold everywhere. rewrite forallb_forall. intros H Hp.
  assert (In p wordBreakProperties) as Hin by (destruct p; cbn; tauto).
  specialize (H p Hin). by rewrite Hp in H.
Qed.

Lemma everyBit_spec P Q b : everyBit P Q = true -> P b = true -> Q b = true.
Proof. unfold everyBit. rewrite andb_true_iff. intros [H1 H2] Hb. destruct b; [by rewrite Hb in H1|by rewrite Hb in H2]. Qed.

Lemma word_stepCase_table :
  everywhere database (fun e1 => everywhere (fun gp => possibleLast gp e1) (fun gp =>
    everywhere (fun e2 => database e2 || eqw e2 SOT) (fun e2 => everywhere database (fun x =>
    everywhere (fun n => (database n || eqw n EOT) && negb (ignorable n)) (fun n =>
    everyBit (fun _ => true) (fun pict => everyBit (fun odd => possibleNext e1 x pict odd) (fun odd =>
      stepCase gp e1 e2 x n pict odd))))))) = true.
Proof. vm_compute. reflexivity. Qed.

Lemma word_stepCase_all gp e1 e2 x n pict odd :
  database e1 = true -> possibleLast gp e1 = true -> database e2 || eqw e2 SOT = true -> database x = true ->
  (database n || eqw n EOT) && negb (ignorable n) = true -> possibleNext e1 x pict odd = true ->
  stepCase gp e1 e2 x n pict odd = true.
Proof.
  intros H1 H2 H3 H4 H5 H6. pose proof word_stepCase_table as H.
  pose proof (everywhere_spec _ _ e1 H H1) as K1. pose proof (everywhere_spec _ _ gp K1 H2) as K2.
  pose proof (everywhere_spec _ _ e2 K2 H3) as K3. pose proof (everywhere_spec _ _ x K3 H4) as K4.
  pose proof (everywhere_spec _ _ n K4 H5) as K5. pose proof (everyBit_spec _ _ pict K5 eq_refl) as K6.
  exact (everyBit_spec _ _ odd K6 H6).
Qed.

(** ** The automaton between a text and its rest *)

Definition second (e : list WordBreakProperty) : WordBreakProperty :=
  match e with _ :: q :: _ => q | _ => SOT end.

Definition stateOf (pre rest : list Z) : WordBreakProperty :=
  match pre, significant pre with
  | p :: _, (e1 :: _) as e => stateFrom (wb p) e1 (second e) (ahead rest) (oddRI e)
  | _, _ => SOT
  end.

Definition joinedb (pre : list Z) (c : Z) (rest : list Z) : bool :=
  match pre, significant pre with
  | p :: _, (e1 :: _) as e =>
      joinedFrom (wb p) e1 (second e) (wb c) (ahead rest) (GraphemeBreak.isExtendedPictographic c) (oddRI e)
  | _, _ => true
  end.

Lemma significant_cons c p r :
  significant (c :: p :: r) =
    if ignorable (wb c) && negb (newline (wb p)) then significant (p :: r) else wb c :: significant (p :: r).
Proof. done. Qed.

(** The last significant property, and what it says of the last one. *)
Lemma significant_last p r :
  exists e1 es, significant (p :: r) = e1 :: es /\ database e1 = true /\ possibleLast (wb p) e1 = true /\
    Forall (fun e => database e = true) es.
Proof.
  revert p. induction r as [|q r IH]; intros p.
  - exists (wb p), []. pose proof (wb_database p). unfold possibleLast. rewrite H.
    split_and!; [done|done| |constructor]. by rewrite (proj2 (eqw_spec _ _) eq_refl).
  - rewrite significant_cons. destruct (IH q) as (e1 & es & Hs & Hd & Hl & Hes). pose proof (wb_database p) as Hp.
    destruct (ignorable (wb p) && negb (newline (wb q))) eqn:E.
    + exists e1, es. split_and!; [done|done| |done]. unfold possibleLast in *. rewrite Hp.
      apply andb_true_iff in E as [-> E]. apply andb_true_iff in Hl as [_ Hl].
      apply orb_true_iff in Hl as [Hl%eqw_spec|Hl]; [rewrite Hl in E; by rewrite E, orb_true_r|].
      apply andb_true_iff in Hl as [_ ->]. by rewrite orb_true_r.
    + exists (wb p), (significant (q :: r)). rewrite Hs. split_and!; [done|done| |by constructor].
      unfold possibleLast. by rewrite Hp, (proj2 (eqw_spec _ _) eq_refl).
Qed.

Lemma ahead_possible rest : (database (ahead rest) || eqw (ahead rest) EOT) && negb (ignorable (ahead rest)) = true.
Proof.
  induction rest as [|c rest IH]; [done|]. cbn [ahead]. destruct (ignorable (wb c)) eqn:E; [done|].
  by rewrite (wb_database c), E.
Qed.

Lemma ahead_cons c rest : ahead (c :: rest) = if ignorable (wb c) then ahead rest else wb c.
Proof. done. Qed.

Lemma oddRI_last e1 es : eqw e1 Regional_Indicator || negb (oddRI (e1 :: es)) = true.
Proof. by destruct e1. Qed.

Lemma oddRI_push x e1 es : oddRI (x :: e1 :: es) = eqw x Regional_Indicator && negb (oddRI (e1 :: es)).
Proof. by destruct x. Qed.

Lemma pict_possible c :
  negb (GraphemeBreak.isExtendedPictographic c) || eqw (wb c) Any || eqw (wb c) ALetter = true.
Proof.
  destruct (GraphemeBreak.isExtendedPictographic c) eqn:E; [|done].
  by destruct (pictographic_wb c E) as [-> | ->].
Qed.

Lemma step_spec p r c rest :
  stepFrom (stateOf (p :: r) (c :: rest)) (wb c) (ahead rest) (eqw (wb p) ZWJ) (GraphemeBreak.isExtendedPictographic c) =
    (negb (joinedb (p :: r) c rest), stateOf (c :: p :: r) rest).
Proof.
  destruct (significant_last p r) as (e1 & es & Hs & Hd & Hl & Hes).
  unfold stateOf, joinedb. rewrite significant_cons, Hs, ahead_cons.
  assert (database (second (e1 :: es)) || eqw (second (e1 :: es)) SOT = true) as H2.
  { destruct Hes as [|e2 es H2 _]; [done|]. cbn [second]. by rewrite H2. }
  assert (possibleNext e1 (wb c) (GraphemeBreak.isExtendedPictographic c) (oddRI (e1 :: es)) = true) as Hn.
  { unfold possibleNext. by rewrite oddRI_last, pict_possible. }
  pose proof (word_stepCase_all (wb p) e1 (second (e1 :: es)) (wb c) (ahead rest) _ _
    Hd Hl H2 (wb_database c) (ahead_possible rest) Hn) as H.
  unfold stepCase in H. destruct (stepFrom _ _ _ _ _) as [v s].
  apply andb_true_iff in H as [H1%eqb_prop H%eqw_spec]. rewrite H1, H. f_equal.
  destruct (ignorable (wb c) && negb (newline (wb p))); [done|].
  by rewrite oddRI_push.
Qed.

(** ** The verdict is that of the rules *)

Lemma word_oddRI_spec e :
  oddRI e = true <->
  exists ris r, e = ris ++ r /\ Forall (eq Regional_Indicator) ris /\ Nat.Odd (length ris) /\
    (forall r', r <> Regional_Indicator :: r').
Proof.
  assert (exists ris r, e = ris ++ r /\ Forall (eq Regional_Indicator) ris /\
    (forall r', r <> Regional_Indicator :: r')) as (ris & r & -> & Hris & Hr).
  { induction e as [|p e (ris & r & -> & Hris & Hr)]; [by exists [], []|].
    destruct (decide (p = Regional_Indicator)) as [->|Hp].
    - exists (Regional_Indicator :: ris), r. split_and!; [done|by constructor|done].
    - exists [], (p :: ris ++ r). split_and!; [done|constructor|]. intros r' [= -> _]. done. }
  assert (oddRI (ris ++ r) = Nat.odd (length ris)) as ->.
  { induction Hris as [|q ris <- _ IH]; cbn [app oddRI length].
    - destruct r as [|q r]; [done|]. specialize (Hr r). by destruct q.
    - by rewrite IH, Nat.odd_succ, Nat.negb_odd. }
  rewrite Nat.odd_spec. split; [naive_solver|]. intros (ris' & r' & Heq & Hris' & Hodd & Hr').
  assert (ris = ris') as ->; [|done]. clear Hodd.
  revert ris' Heq Hris'. induction Hris as [|q ris <- _ IH]; intros [|q' ris'] Heq Hris'; cbn in Heq.
  - done.
  - apply Forall_cons in Hris' as [<- _]. by destruct (Hr (ris' ++ r')).
  - by destruct (Hr' (ris ++ r)).
  - apply Forall_cons in Hris' as [<- ?]. simplify_eq. f_equal. auto.
Qed.

Lemma midLetterQ_spec p : midLetterQ p = true <-> p = MidLetter \/ MidNumLetQ p = true.
Proof. unfold midLetterQ. by rewrite orb_true_iff, eqw_spec. Qed.

Lemma midNumQ_spec p : midNumQ p = true <-> p = MidNum \/ MidNumLetQ p = true.
Proof. unfold midNumQ. by rewrite orb_true_iff, eqw_spec. Qed.

Lemma noHebrewQuote_spec a m : negb (eqw a Hebrew_Letter && eqw m Single_Quote) = true <-> noHebrewQuote a m.
Proof. unfold noHebrewQuote. rewrite negb_true_iff, <- not_true_iff_false, andb_true_iff, !eqw_spec. done. Qed.

(** A property that is not absent is that of a second significant code point. *)
Lemma second_inv e1 es (P : WordBreakProperty -> bool) :
  P SOT = false -> P (second (e1 :: es)) = true -> exists e2 r, es = e2 :: r /\ P e2 = true.
Proof. intros H0 H. destruct es as [|e2 r]; [cbn in H; congruence|eauto]. Qed.

Lemma joinsFrom_sound e1 es x n :
  joinsFrom e1 (second (e1 :: es)) x n (oddRI (e1 :: es)) = true -> joins noHebrewQuote (e1 :: es) x n.
Proof.
  unfold joinsFrom. rewrite !orb_true_iff, !andb_true_iff, !eqw_spec, midLetterQ_spec, midLetterQ_spec,
    midNumQ_spec, midNumQ_spec, noHebrewQuote_spec, word_oddRI_spec.
  intros [[[[[[[[[[[[[[[? ?]|[[? ?] ?]]|[[[? H2] Hb] ?]]|[-> ->]]|[[-> ->] ->]]|[[-> H2] ->]]|[-> ->]]|[? ->]]|
    [-> ?]]|[[? H2] ->]]|[[-> ?] ->]]|[-> ->]]|[H ->]]|[-> H]]|[-> (ris & r & E & ? & ? & ?)]].
  - by apply WB5.
  - by apply WB6.
  - destruct es as [|a r]; [by cbn in H2|]. by apply WB7.
  - apply WB7a.
  - apply WB7b.
  - destruct es as [|a r]; [by cbn in H2|]. cbn in H2. subst a. apply WB7c.
  - apply WB8.
  - by apply WB9.
  - by apply WB10.
  - destruct es as [|a r]; [by cbn in H2|]. cbn in H2. subst a. by apply WB11.
  - by apply WB12.
  - apply WB13.
  - apply WB13a. rewrite !orb_true_iff, !eqw_spec in H. rewrite !elem_of_cons. tauto.
  - apply WB13b. rewrite !orb_true_iff, !eqw_spec in H. rewrite !elem_of_cons. tauto.
  - rewrite E. by apply WB15_16.
Qed.

Lemma joinsFrom_complete e1 es x n :
  joins noHebrewQuote (e1 :: es) x n -> joinsFrom e1 (second (e1 :: es)) x n (oddRI (e1 :: es)) = true.
Proof.
  unfold joinsFrom. rewrite !orb_true_iff, !andb_true_iff, !eqw_spec, midLetterQ_spec, midLetterQ_spec,
    midNumQ_spec, midNumQ_spec, noHebrewQuote_spec, word_oddRI_spec, !orb_true_iff, !eqw_spec.
  intros H. remember (e1 :: es) as e eqn:Ee. destruct H; simplify_eq; cbn [second]; try tauto.
  - rewrite !elem_of_cons, elem_of_nil in H. tauto.
  - rewrite !elem_of_cons, elem_of_nil in H. tauto.
  - right. split; [done|]. by exists ris, r.
Qed.

Lemma word_joinsFrom_spec e1 es x n :
  joinsFrom e1 (second (e1 :: es)) x n (oddRI (e1 :: es)) = true <-> joins noHebrewQuote (e1 :: es) x n.
Proof. split; [apply joinsFrom_sound|apply joinsFrom_complete]. Qed.

Lemma word_joinedb_spec pre c rest : joinedb pre c rest = true <-> noBreak noHebrewQuote pre c rest.
Proof.
  destruct pre as [|p r]; [done|]. destruct (significant_last p r) as (e1 & es & Hs & _).
  unfold noBreak, joinedb. rewrite Hs. unfold joinedFrom.
  rewrite !orb_true_iff, !andb_true_iff, !orb_true_iff, !andb_true_iff, !negb_true_iff, !eqw_spec, word_joinsFrom_spec.
  tauto.
Qed.

(** ** The lookahead *)

Lemma lookaheadLoop_spec fuel : forall s p,
  (length s <= fuel)%nat -> ignorable p = true \/ p = EOT ->
  lookaheadLoop fuel s p = ahead (codes (chars s false)) \/
  (ahead (codes (chars s false)) = EOT /\ ignorable (lookaheadLoop fuel s p) = true).
Proof.
  induction fuel as [|fuel IH]; intros [|x s] p Hf Hp; try (cbn in Hf; lia).
  1, 2: destruct Hp as [Hp|Hp]; [right; split; [done|exact Hp]|left; exact Hp].
  cbn [lookaheadLoop]. destruct (nextCodePoint (x :: s) false) as [c rest] eqn:E.
  destruct (chars_cons (x :: s) false c rest ltac:(done) E) as (b & Hb & Hs & Hc). rewrite Hc.
  cbn [codes map fst]. rewrite ahead_cons. fold (codes (chars rest false)).
  assert (length rest <= fuel)%nat as Hl.
  { apply (f_equal length) in Hs. rewrite length_app in Hs. cbn in Hs, Hf. destruct b; [done|cbn in Hs; lia]. }
  destruct (getWordBreakProperty c); cbn [ignorable]; try (by left); apply IH; auto.
Qed.

(** Which extending property the lookahead stops at does not matter. *)
Lemma checkWord_ignorable before after n : ignorable n = true -> checkWord before after n = checkWord before after EOT.
Proof.
  intros H. unfold checkWord. assert (forall required, checkRequired required n = checkRequired required EOT) as E.
  { intros []; by destruct n. }
  destruct (checkLine before after); [done|]. destruct (checkLetter before after) as [[r|] q]; [done|].
  destruct (checkHebrew before after q) as [[r|] q']; [done|]. destruct (checkDigit before after); [done|].
  destruct (checkNumeric before after q') as [[r|] q'']; [done|]. by rewrite E.
Qed.

Lemma checkWord_lookahead before after s :
  checkWord before after (lookahead s) = checkWord before after (ahead (codes (chars s false))).
Proof.
  unfold lookahead. destruct (lookaheadLoop_spec (length s) s EOT ltac:(lia) (or_intror eq_refl)) as [->|[-> H]]; [done|].
  by apply checkWord_ignorable.
Qed.

(** ** The scanner *)

Definition joined (pre : list Z) (c : Z) (rest : list Z) : Prop := noBreak noHebrewQuote pre c rest.

Definition lastZWJ (pre : list Z) : bool := match pre with [] => false | p :: _ => eqw (wb p) ZWJ end.

(** The state of a scanner between a text and the rest of it. *)
Definition tracks (pre rest : list Z) (s : Scanner) : Prop :=
  state s = stateOf pre rest /\ zwj s = lastZWJ pre.

Lemma eqw_bool_decide p q : bool_decide (p = q) = eqw p q.
Proof. apply eq_true_iff_eq. by rewrite bool_decide_eq_true, eqw_spec. Qed.

Lemma scanBoundary_step s pre x st c rest :
  stream s = x :: st -> nextCodePoint (x :: st) false = (c, rest) ->
  tracks pre (c :: codes (chars rest false)) s ->
  scanBoundary s =
    (negb (joinedb pre c (codes (chars rest false))),
     mkScanner (stateOf (c :: pre) (codes (chars rest false))) (lastZWJ (c :: pre)) rest (wordBegin s)).
Proof.
  intros Hst E [Hs Hz]. unfold scanBoundary. rewrite Hst, E, Hs, Hz, eqw_bool_decide.
  rewrite checkWord_lookahead. destruct pre as [|p r].
  - cbn [lastZWJ andb]. unfold stateOf at 1. cbn [checkWord checkLine]. unfold joinedb. cbn [negb].
    do 2 f_equal. unfold stateOf. cbn [significant second oddRI]. by destruct (wb c).
  - pose proof (step_spec p r c (codes (chars rest false))) as H. unfold stepFrom in H.
    cbn [lastZWJ]. destruct (eqw (wb p) ZWJ && GraphemeBreak.isExtendedPictographic c).
    + pose proof (f_equal fst H) as H1. pose proof (f_equal snd H) as H2. cbn [fst snd] in H1, H2.
      by rewrite <- H1, <- H2.
    + by rewrite H.
Qed.

(** A scanner that has read the first character of the next word. *)
Definition ready (s : Scanner) (pre : list Z) (cs : list char) : Prop :=
  wordBegin s = text cs /\
  match cs with
  | [] => True
  | (c, b) :: cs' =>
      chars (stream s) false = cs' /\ b <> [] /\ tracks (c :: pre) (codes cs') s /\ ~ joined pre c (codes cs')
  end.

Lemma word_nextLoop_spec fuel : forall s pre B,
  (length (stream s) < fuel)%nat -> wordBegin s = B ++ stream s ->
  tracks pre (codes (chars (stream s) false)) s ->
  exists g rest s',
    nextLoop fuel s = Some (B ++ text g, s') /\ chars (stream s) false = g ++ rest /\
    together joined pre (codes g) (codes rest) /\ ready s' (reverse (codes g) ++ pre) rest.
Proof.
  induction fuel as [|fuel IH]; intros s pre B Hf HB Ht; [lia|]. cbn [nextLoop].
  destruct (stream s) as [|x st] eqn:Est.
  { exists [], [], (mkScanner (state s) (zwj s) [] []). unfold scanBoundary. rewrite Est.
    rewrite HB, app_nil_r, Nat.sub_0_r, firstn_all. split_and!; try done. cbn. by rewrite app_nil_r, Est. }
  destruct (nextCodePoint (x :: st) false) as [c rest] eqn:E.
  destruct (chars_cons (x :: st) false c rest ltac:(done) E) as (b & Hne & Hb & Hcs).
  rewrite Hcs in Ht. change (codes ((c, b) :: chars rest false)) with (c :: codes (chars rest false)) in Ht.
  rewrite (scanBoundary_step s pre x st c rest Est E Ht).
  pose proof (word_joinedb_spec pre c (codes (chars rest false))) as Hj.
  destruct (joinedb pre c (codes (chars rest false))); cbn [negb state zwj stream].
  - destruct (IH (mkScanner (stateOf (c :: pre) (codes (chars rest false))) (lastZWJ (c :: pre)) rest (wordBegin s))
      (c :: pre) (B ++ b)) as (g & cs & s' & Hn & H1 & H2 & H3); [|cbn; by rewrite HB, Hb, app_assoc|done|].
    { cbn. apply (f_equal length) in Hb. rewrite length_app in Hb. destruct b; [done|]. cbn in Hb, Hf. lia. }
    cbn [stream] in H1. exists ((c, b) :: g), cs, s'. rewrite Hn, Hcs, H1. split_and!; [|done| |].
    + by rewrite <- app_assoc.
    + split; [|done]. apply proj1 in Hj. specialize (Hj eq_refl). rewrite H1 in Hj.
      unfold joined, codes in *. by rewrite map_app in Hj.
    + change (codes ((c, b) :: g)) with (c :: codes g). by rewrite reverse_cons, <- app_assoc.
  - exists [], ((c, b) :: chars rest false),
      (mkScanner (stateOf (c :: pre) (codes (chars rest false))) (lastZWJ (c :: pre)) rest (x :: st)).
    rewrite HB, length_app. replace (length B + length (x :: st) - length (x :: st))%nat with (length B) by lia.
    rewrite take_app_length. split; [cbn; by rewrite app_nil_r|]. split; [by rewrite Hcs|]. split; [done|].
    split; [cbn [wordBegin]; rewrite Hb; change (text ((c, b) :: chars rest false)) with (b ++ text (chars rest false));
      by rewrite text_chars|].
    split_and!; [done..|]. change (reverse (codes []) ++ pre) with pre. unfold joined. by rewrite <- Hj.
Qed.

(** The words a scanner yields until it has no next one. *)
Inductive yields : Scanner -> list bytes -> Prop :=
| yields_nil s : hasNext s = false -> yields s []
| yields_cons s w s' ws : hasNext s = true -> next s = Some (w, s') -> yields s' ws -> yields s (w :: ws).

Lemma word_ready_yields n : forall s pre cs, (length cs <= n)%nat -> ready s pre cs ->
  exists gs, mjoin gs = cs /\ (pre <> [] -> segmented joined pre gs) /\ yields s (map text gs).
Proof.
  induction n as [|n IH]; intros s pre [|[c b] cs] Hn [Hbeg Hr]; try (cbn in Hn; lia).
  1, 2: exists []; split_and!; [done|constructor|constructor; unfold hasNext; by rewrite Hbeg].
  destruct Hr as (Hcs & Hb & Ht & Hnb). change (text ((c, b) :: cs)) with (b ++ text cs) in Hbeg.
  assert (hasNext s = true) as Hh by (unfold hasNext; rewrite Hbeg; by destruct b).
  destruct (word_nextLoop_spec (S (length (stream s))) s (c :: pre) b) as (g & rest & s' & Hx & H1 & H2 & H3);
    [lia|by rewrite Hbeg, <- Hcs, text_chars|by rewrite Hcs|].
  rewrite Hcs in H1. clear Hbeg Hcs Ht. rewrite H1 in Hn, Hnb |- *.
  assert (length rest <= n)%nat as Hl by (cbn in Hn; rewrite length_app in Hn; lia).
  destruct (IH s' _ rest Hl H3) as (gs & <- & Hs & Hy). exists (((c, b) :: g) :: gs). split_and!; [done| |].
  - intros _. constructor; [|done|apply Hs; by destruct (reverse (codes g))].
    unfold codes in *. by rewrite map_app in Hnb.
  - cbn [map]. eapply yields_cons; [exact Hh|exact Hx|exact Hy].
Qed.

Lemma word_start_yields t :
  exists gs, mjoin gs = chars t false /\ segmented joined [] gs /\ yields (newScanner t) (map text gs).
Proof.
  destruct t as [|x t'] eqn:Et; [exists []; split_and!; [done|constructor|by constructor]|]. rewrite <- Et.
  destruct (word_nextLoop_spec (S (length t)) (newScanner t) [] []) as (g & rest & s' & Hx & H1 & H2 & H3);
    [cbn; lia|done|done|]. rewrite app_nil_r in H3.
  destruct (word_ready_yields (length rest) s' _ rest ltac:(lia) H3) as (gs & <- & Hs & Hy).
  destruct g as [|[c b] g].
  { exfalso. destruct (mjoin gs) as [|[c b] cs]; [by apply chars_nil_inv in H1; subst|].
    destruct H3 as (_ & _ & _ & _ & Hnb). by apply Hnb. }
  exists (((c, b) :: g) :: gs). split_and!; [done| |].
  - constructor; [done|by destruct H2|]. change (codes ((c, b) :: g)) with (c :: codes g) in Hs.
    rewrite reverse_cons in Hs. apply Hs. by destruct (reverse (codes g)).
  - cbn [map]. eapply yields_cons; [by rewrite Et|exact Hx|exact Hy].
Qed.

(** ** Iteration *)

(** What a loop over a list of words does. *)
Fixpoint consume {A} (consumer : A -> bytes -> A * bool) (ws : list bytes) (count limit : Z) (acc : A) : Z * A :=
  match ws with
  | [] => (count, acc)
  | w :: ws' =>
      if count <? limit then
        let '(acc', go) := consumer acc w in
        if go then consume consumer ws' (count + 1) limit acc' else (count + 1, acc')
      else (count, acc)
  end.

Lemma word_iterateLoop_yields {A} (consumer : A -> bytes -> A * bool) limit s ws :
  yields s ws -> limit <= UINT64_MAX ->
  forall fuel count acc, (length ws < fuel)%nat -> 0 <= count ->
    iterateLoop consumer fuel s count limit acc = Some (consume consumer ws count limit acc).
Proof.
  intros H Hl. induction H as [s Hn|s w s' ws Hn Hx _ IH]; intros [|fuel] count acc Hf Hc; try (cbn in Hf; lia);
    cbn [iterateLoop consume]; rewrite Hn; [by rewrite andb_false_r|]. rewrite andb_true_r.
  destruct (Z.ltb_spec count limit) as [Hlt|]; [|done]. rewrite Hx.
  destruct (consumer acc w) as [acc' go].
  rewrite wrap_small by (unfold in_unsigned, UINT64_MAX in *; lia).
  destruct go; [|done]. apply IH; cbn in Hf; lia.
Qed.



(** A Hebrew word with an apostrophe inside is cut after the apostrophe: WB7a keeps the
    apostrophe with the letter before it and forgets that WB7 joins the letter after it, as the
    standard does and as the code itself does after a Latin letter. *)
Theorem hebrew_apostrophe_cut :
  noBreak standard [0x27; 0x5D0] 0x5D0 [] /\
  iterateWord (fun ws w => (ws ++ [w], true)) [0xD7; 0x90; 0x27; 0xD7; 0x90] [] =
    Some (2, [[0xD7; 0x90; 0x27]; [0xD7; 0x90]]) /\
  iterateWord (fun ws w => (ws ++ [w], true)) [0x61; 0x27; 0xD7; 0x90] [] =
    Some (1, [[0x61; 0x27; 0xD7; 0x90]]).
Proof.
  split; [|by vm_compute]. right. split_and!; [by vm_compute..|]. do 3 right.
  replace (significant [0x27; 0x5D0]) with [Single_Quote; Hebrew_Letter] by (vm_compute; reflexivity).
  replace (wb 0x5D0) with Hebrew_Letter by (vm_compute; reflexivity).
  apply WB7; [done|by right|done|done].
Qed.
End WordSpec.
