(* ===== verification/RadixTree.v ===== *)
(** The radix tree of strings (src/unicode/radix_tree.h, src/unicode/radix_tree.cpp):
    a trie with compressed paths that maps WTF-8 strings to properties.  The packed
    form is in RadixPacked. *)
From S2P Require Import Prelude Unicode StringRef.

Module RadixTree.
Import UnicodeUtil.

(** The children are an unordered map: an association list with distinct keys, in
    the order of the iteration, which nothing relies on. *)
Inductive RadixTree := Tree (prefix : bytes) (property : Z) (children : list (Z * RadixTree)).

Definition getPrefix (t : RadixTree) : bytes := let '(Tree p _ _) := t in p.
Definition getProperty (t : RadixTree) : Z := let '(Tree _ q _) := t in q.
Definition getChildren (t : RadixTree) : list (Z * RadixTree) := let '(Tree _ _ c) := t in c.

Definition MAX_STRING_SIZE : Z := Z.shiftl 1 15 - 1.
Definition MAX_N_CHILDREN : Z := Z.shiftl 1 8.

Definition newTree : RadixTree := Tree [] 0 [].

Definition isNil {A} (l : list A) : bool := match l with [] => true | _ => false end.

Definition empty (t : RadixTree) : bool := isNil (getPrefix t) && isNil (getChildren t).

(** ** The map of children *)

Definition childAt (children : list (Z * RadixTree)) (ch : Z) : option RadixTree :=
  snd <$> List.find (fun e => fst e =? ch) children.

(** The child [getOrCreate] points to is replaced by what it has become; a new child
    is added to the map. *)
Fixpoint setChild (children : list (Z * RadixTree)) (ch : Z) (t : RadixTree) : list (Z * RadixTree) :=
  match children with
  | [] => [(ch, t)]
  | (k, u) :: r => if k =? ch then (k, t) :: r else (k, u) :: setChild r ch t
  end.

Definition eraseChild (children : list (Z * RadixTree)) (ch : Z) : list (Z * RadixTree) :=
  List.filter (fun e => negb (fst e =? ch)) children.

(** [getOrCreate] *)
Definition getOrCreate (children : list (Z * RadixTree)) (ch : Z) : RadixTree :=
  default newTree (childAt children ch).

(** ** Adding *)

Inductive AddStatus := OK | ADDED | EMPTY | NONE_PROPERTY | TOO_LARGE.

Fixpoint findCommonPrefix (x y : bytes) : bytes :=
  match x, y with
  | a :: x', b :: y' => if a =? b then a :: findCommonPrefix x' y' else []
  | _, _ => []
  end.

(** The loop of [add] at the node [tree]: the node it becomes.  [None] when the fuel
    runs out, or for a failed assertion. *)
Fixpoint addLoop (fuel : nat) (tree : RadixTree) (seq : bytes) (p : Z) : option (RadixTree * AddStatus) :=
  match fuel with
  | O => None
  | S fuel' =>
      let '(Tree prefix property children) := tree in
      let descend prefix property children ch seq :=
        '(t, status) ← addLoop fuel' (getOrCreate children ch) seq p;
        Some (Tree prefix property (setChild children ch t), status) in
      let common := findCommonPrefix prefix seq in
      let seq := drop (length common) seq in
      if zlen common =? zlen prefix then
        match seq with
        | [] => if property =? 0 then Some (Tree prefix p children, OK) else Some (tree, ADDED)
        | ch :: _ =>
            if isNil prefix && isNil children && (property =? 0) then Some (Tree seq p children, OK)
            else descend prefix property children ch seq
        end
      else
        match drop (length common) prefix with
        | [] => None
        | (key :: _) as childPrefix =>
            let children' := [(key, Tree childPrefix property children)] in
            match seq with
            | [] => Some (Tree common p children', OK)
            | ch :: _ => descend common 0 children' ch seq
            end
        end
  end.

Definition add (tree : RadixTree) (seq : bytes) (p : Z) : option (RadixTree * AddStatus) :=
  if isNil seq then Some (tree, EMPTY)
  else if p =? 0 then Some (tree, NONE_PROPERTY)
  else if MAX_STRING_SIZE <? zlen seq then Some (tree, TOO_LARGE)
  else addLoop (2 + length seq) tree seq p.

(** ** Removing *)

(** The only child is merged into its parent. *)
Definition mergeChild (prefix : bytes) (property : Z) (children : list (Z * RadixTree)) : RadixTree :=
  match children with
  | [(_, Tree prefix' property' children')] => Tree (prefix ++ prefix') property' children'
  | _ => Tree prefix property children
  end.

Fixpoint removeLoop (fuel : nat) (seq : bytes) (tree : RadixTree) : option (bool * RadixTree) :=
  match fuel with
  | O => None
  | S fuel' =>
      let '(Tree prefix property children) := tree in
      if negb (StringRef.startsWith seq prefix) then Some (false, tree)
      else
        match drop (length prefix) seq with
        | [] =>
            if property =? 0 then Some (false, tree)
            else
              let prefix := if isNil children then [] else prefix in
              Some (true, mergeChild prefix 0 children)
        | (ch :: _) as seq =>
            match childAt children ch with
            | None => Some (false, tree)
            | Some child =>
                '(removed, child') ← removeLoop fuel' seq child;
                if removed : bool then
                  let children := if empty child' then eraseChild children ch
                                  else setChild children ch child' in
                  let prefix := if isNil children && (property =? 0) then [] else prefix in
                  Some (true, if property =? 0 then mergeChild prefix property children
                              else Tree prefix property children)
                else Some (false, Tree prefix property (setChild children ch child'))
            end
        end
  end.

Definition remove (tree : RadixTree) (seq : bytes) : option (bool * RadixTree) :=
  removeLoop (2 + length seq) seq tree.

(** ** Finding *)

Fixpoint findLoop (fuel : nat) (tree : RadixTree) (seq : bytes) : option Z :=
  match fuel with
  | O => None
  | S fuel' =>
      let '(Tree prefix property children) := tree in
      if negb (StringRef.startsWith seq prefix) then Some 0
      else
        match drop (length prefix) seq with
        | [] => Some property
        | (ch :: _) as seq =>
            match childAt children ch with
            | Some child => findLoop fuel' child seq
            | None => Some 0
            end
        end
  end.

Definition find (tree : RadixTree) (seq : bytes) : option Z := findLoop (2 + length seq) tree seq.

(** ** Iterating

    The walker has a state, and [false] breaks the iteration. *)
Section iterate.
Context {X : Type} (walker : X -> bytes -> Z -> bool * X).

Fixpoint iterateImpl (buf : bytes) (tree : RadixTree) (x : X) : bool * X :=
  let '(Tree prefix property children) := tree in
  let buf := buf ++ prefix in
  let visit :=
    (fix visit (l : list (Z * RadixTree)) (x : X) : bool * X :=
       match l with
       | [] => (true, x)
       | (_, t) :: r =>
           let '(continue, x) := iterateImpl buf t x in
           if continue then visit r x else (false, x)
       end) in
  if property =? 0 then visit children x
  else
    let '(continue, x) := walker x buf property in
    if continue then visit children x else (false, x).

Definition iterate (tree : RadixTree) (x : X) : X := snd (iterateImpl [] tree x).
End iterate.

(** The walker of [maxCodePointCount]: the code points of a string, invalid bytes
    counting one each. *)
Fixpoint countCodePoints (fuel : nat) (s : bytes) (c : Z) : Z :=
  match fuel with
  | O => c
  | S fuel' =>
      match s with
      | [] => c
      | _ =>
          let len := wtf8ValidateChar s in
          countCodePoints fuel' (drop (Z.to_nat (if len =? 0 then 1 else len)) s) (u32 (c + 1))
      end
  end.

Definition maxCodePointCount (tree : RadixTree) : Z :=
  iterate (fun count ref _ => (true, Z.max count (countCodePoints (length ref) ref 0))) tree 0.

(** * Properties *)

(** ** The bindings of a tree *)

Inductive maps : RadixTree -> bytes -> Z -> Prop :=
| maps_here prefix q children : q <> 0 -> maps (Tree prefix q children) prefix q
| maps_child prefix property children k t s q :
    (k, t) ∈ children -> maps t s q -> maps (Tree prefix property children) (prefix ++ s) q.

Lemma maps_inv prefix property children s q :
  maps (Tree prefix property children) s q <->
  (s = prefix /\ q = property /\ property <> 0) \/
  exists k t s', (k, t) ∈ children /\ maps t s' q /\ s = prefix ++ s'.
Proof.
  split.
  - inversion 1; subst; [by left|right; by eauto 8].
  - intros [(-> & -> & H)|(k & t & s' & Hin & Hm & ->)]; [by constructor|by econstructor].
Qed.

Lemma maps_prefix t s q : maps t s q -> exists s', s = getPrefix t ++ s'.
Proof. destruct 1; [exists []; by rewrite app_nil_r|eauto]. Qed.

(** ** The invariant

    The keys are distinct and are the first bytes of the children, and a node without
    a property branches, unless it is the empty tree. *)

Definition keyed (k : Z) (t : RadixTree) : Prop := head (getPrefix t) = Some k.

Fixpoint wf (t : RadixTree) : Prop :=
  let '(Tree prefix property children) := t in
  0 <= property <= UINT8_MAX /\ NoDup (map fst children) /\
  (property = 0 -> (2 <= length children)%nat \/ (children = [] /\ prefix = [])) /\
  (fix all (l : list (Z * RadixTree)) : Prop :=
     match l with [] => True | (k, u) :: r => (keyed k u /\ wf u) /\ all r end) children.

Definition wfChildren (l : list (Z * RadixTree)) : Prop :=
  Forall (fun e => keyed (fst e) (snd e) /\ wf (snd e)) l.

Lemma wf_unfold prefix property children :
  wf (Tree prefix property children) <->
  0 <= property <= UINT8_MAX /\ NoDup (map fst children) /\
  (property = 0 -> (2 <= length children)%nat \/ (children = [] /\ prefix = [])) /\
  wfChildren children.
Proof.
  cbn [wf]. do 3 (apply and_iff_compat_l). unfold wfChildren.
  induction children as [|[k u] r IH]; [by rewrite Forall_nil|]. by rewrite Forall_cons, IH.
Qed.

Lemma wf_new : wf newTree.
Proof. apply wf_unfold. split; [by unfold UINT8_MAX|]. split; [constructor|]. split; [by right|constructor]. Qed.

Lemma keyed_spec k t : keyed k t <-> exists r, getPrefix t = k :: r.
Proof.
  unfold keyed. destruct (getPrefix t) as [|a r]; cbn; split.
  - done.
  - by intros [].
  - intros [= ->]. eauto.
  - by intros [r' [= -> ->]].
Qed.

Lemma keyed_maps k t s q : keyed k t -> maps t s q -> exists s', s = k :: s'.
Proof. intros [r Hr]%keyed_spec [s' ->]%maps_prefix. rewrite Hr. eauto. Qed.

(** ** The map of children *)

Lemma childAt_elem l k t : NoDup (map fst l) -> childAt l k = Some t <-> (k, t) ∈ l.
Proof.
  unfold childAt. induction l as [|[j u] l IH]; cbn; intros Hd.
  { split; [done|]. intros H. by apply elem_of_nil in H. }
  apply NoDup_cons in Hd as [Hn Hd]. rewrite elem_of_cons. destruct (Z.eqb_spec j k) as [->|Hne]; cbn.
  - split; [intros; simplify_eq; by left|]. intros [H|H]; [by simplify_eq|].
    exfalso. apply Hn. apply list_elem_of_fmap. by exists (k, t).
  - rewrite IH by done. split; [auto|]. intros [H|H]; [by simplify_eq|done].
Qed.

Lemma childAt_None l k : childAt l k = None <-> k ∉ map fst l.
Proof.
  unfold childAt. induction l as [|[j u] l IH]; cbn; [split; [intros _; apply not_elem_of_nil|done]|].
  rewrite not_elem_of_cons. destruct (Z.eqb_spec j k); cbn; [split; [done|intros []; congruence]|].
  rewrite IH. split; [|tauto]. by split.
Qed.

Lemma setChild_elem l k t j u : NoDup (map fst l) ->
  (j, u) ∈ setChild l k t <-> (j = k /\ u = t) \/ (j <> k /\ (j, u) ∈ l).
Proof.
  induction l as [|[i v] l IH]; cbn [setChild]; intros Hd.
  { rewrite elem_of_cons, !elem_of_nil. naive_solver. }
  apply NoDup_cons in Hd as [Hn Hd]. cbn in Hn.
  destruct (Z.eqb_spec i k) as [->|Hne]; rewrite !elem_of_cons.
  - split.
    + intros [H|H]; [simplify_eq; auto|]. right. split; [|auto]. intros ->. apply Hn.
      apply list_elem_of_fmap. by exists (k, u).
    + intros [[-> ->]|[Hj [H|H]]]; [auto|by simplify_eq|auto].
  - rewrite IH by done. split; [|naive_solver]. intros [H|[H|H]]; [|auto|tauto].
    simplify_eq. right. auto.
Qed.

Lemma setChild_keys l k t :
  map fst (setChild l k t) = if decide (k ∈ map fst l) then map fst l else map fst l ++ [k].
Proof.
  induction l as [|[i v] l IH]; cbn [setChild]; [by case_decide as H; [apply elem_of_nil in H|]|].
  cbn [map fst]. destruct (Z.eqb_spec i k) as [->|Hne]; cbn [map fst].
  - rewrite decide_True by (apply elem_of_cons; auto). done.
  - rewrite IH. destruct (decide (k ∈ map fst l)) as [Hin|Hin].
    + rewrite decide_True by (apply elem_of_cons; auto). done.
    + rewrite decide_False by (rewrite elem_of_cons; naive_solver). done.
Qed.

Lemma setChild_NoDup l k t : NoDup (map fst l) -> NoDup (map fst (setChild l k t)).
Proof.
  intros Hd. rewrite setChild_keys. case_decide as Hin; [done|].
  apply NoDup_app. split; [done|]. split; [|apply NoDup_singleton].
  intros x Hx Hk. apply list_elem_of_singleton in Hk as ->. done.
Qed.

Lemma setChild_length l k t : (length l <= length (setChild l k t))%nat.
Proof. induction l as [|[i v] l IH]; cbn; [lia|]. case_match; cbn; lia. Qed.

Lemma setChild_id l k t : NoDup (map fst l) -> childAt l k = Some t -> setChild l k t = l.
Proof.
  unfold childAt. induction l as [|[i v] l IH]; cbn; [done|]. intros Hd H.
  apply NoDup_cons in Hd as [Hn Hd].
  destruct (Z.eqb_spec i k) as [->|Hne]; cbn in H; [by simplify_eq|]. f_equal. auto.
Qed.

Lemma eraseChild_elem l k j u : (j, u) ∈ eraseChild l k <-> j <> k /\ (j, u) ∈ l.
Proof.
  unfold eraseChild. rewrite !list_elem_of_In, filter_In. cbn. rewrite negb_true_iff, Z.eqb_neq. tauto.
Qed.

Lemma eraseChild_NoDup l k : NoDup (map fst l) -> NoDup (map fst (eraseChild l k)).
Proof.
  unfold eraseChild. induction l as [|[i v] l IH]; cbn; [done|]. intros [Hn Hd]%NoDup_cons.
  case_match; cbn; [|auto]. apply NoDup_cons. split; [|auto]. intros Hin. apply Hn.
  apply list_elem_of_fmap in Hin as ([j u] & -> & H1). cbn.
  apply list_elem_of_fmap. exists (j, u). split; [done|].
  rewrite list_elem_of_In in H1 |- *. apply filter_In in H1. tauto.
Qed.

Lemma wfChildren_elem l k t : wfChildren l -> (k, t) ∈ l -> keyed k t /\ wf t.
Proof. intros H Hin. exact (proj1 (Forall_forall _ _) H _ Hin). Qed.

Lemma wfChildren_set l k t :
  NoDup (map fst l) -> wfChildren l -> keyed k t -> wf t -> wfChildren (setChild l k t).
Proof.
  intros Hd Hl Hk Hw. apply Forall_forall. intros [j u] Hin.
  apply setChild_elem in Hin as [[-> ->]|[_ Hin]]; [done| |done]. by apply (wfChildren_elem l).
Qed.

Lemma wfChildren_erase l k : wfChildren l -> wfChildren (eraseChild l k).
Proof.
  intros Hl. apply Forall_forall. intros [j u] Hin.
  apply eraseChild_elem in Hin as [_ Hin]. by apply (wfChildren_elem l).
Qed.

(** A string that goes on with [ch] is in the child of that key. *)
Lemma maps_descend prefix property children ch seq q :
  NoDup (map fst children) -> wfChildren children ->
  maps (Tree prefix property children) (prefix ++ ch :: seq) q <->
  exists t, childAt children ch = Some t /\ maps t (ch :: seq) q.
Proof.
  intros Hd Hw. rewrite maps_inv. split.
  - intros [(H & _)|(k & t & s' & Hin & Hm & Heq)].
    + exfalso. rewrite <- (app_nil_r prefix) in H at 2. by apply app_inv_head in H.
    + apply app_inv_head in Heq as <-. exists t. split; [|done]. apply childAt_elem; [done|].
      destruct (wfChildren_elem _ _ _ Hw Hin) as [Hk _].
      destruct (keyed_maps _ _ _ _ Hk Hm) as [s' [= -> ->]]. done.
  - intros (t & Hc & Hm). right. apply childAt_elem in Hc; [|done]. eauto 6.
Qed.

Lemma maps_end prefix property children q :
  wfChildren children -> maps (Tree prefix property children) prefix q <-> q = property /\ q <> 0.
Proof.
  intros Hw. rewrite maps_inv. split; [|naive_solver].
  intros [(_ & -> & H)|(k & t & s' & Hin & Hm & Heq)]; [done|].
  destruct (wfChildren_elem _ _ _ Hw Hin) as [Hk _].
  destruct (keyed_maps _ _ _ _ Hk Hm) as [r ->].
  exfalso. rewrite <- (app_nil_r prefix) in Heq at 1. by apply app_inv_head in Heq.
Qed.

(** ** Finding *)

(** Each round consumes a byte, but for a root without prefix. *)
Definition enough (fuel : nat) (t : RadixTree) (seq : bytes) : Prop :=
  (length seq + (if getPrefix t then 1 else 0) < fuel)%nat.

Lemma enough_child fuel prefix property children ch seq k t :
  enough (S fuel) (Tree prefix property children) (prefix ++ ch :: seq) -> keyed k t ->
  enough fuel t (ch :: seq).
Proof.
  unfold enough. intros H [r ->]%keyed_spec. cbn in *. rewrite length_app in H. cbn in *.
  destruct prefix; cbn in *; lia.
Qed.

Lemma findLoop_spec fuel : forall t seq, wf t -> enough fuel t seq ->
  exists q, findLoop fuel t seq = Some q /\
    (q <> 0 -> maps t seq q) /\ (forall q', maps t seq q' -> q' = q).
Proof.
  induction fuel as [|fuel IH]; intros [prefix property children] seq Hw He; [unfold enough in He; lia|].
  cbn [findLoop]. apply wf_unfold in Hw as (Hp & Hd & _ & Hc).
  destruct (StringRef.startsWith seq prefix) eqn:Hs; cbn [negb].
  - apply StringRef.startsWith_spec in Hs as [rest ->]. rewrite drop_app_length.
    destruct rest as [|ch rest].
    + rewrite app_nil_r. exists property. split; [done|].
      setoid_rewrite maps_end; [|done..]. naive_solver.
    + cbn match. setoid_rewrite maps_descend; [|done..].
      destruct (childAt children ch) as [t|] eqn:Hch; [|exists 0; naive_solver].
      assert (keyed ch t /\ wf t) as [Hk Hwt].
      { apply childAt_elem in Hch; [|done]. by apply (wfChildren_elem children). }
      destruct (IH t (ch :: rest) Hwt) as (q & E & Hq & Hq').
      { by eapply enough_child. }
      exists q. rewrite E. split; [done|]. naive_solver.
  - exists 0. split; [done|]. split; [done|]. intros q' [s' Hs']%maps_prefix. cbn in Hs'.
    rewrite Hs' in Hs. exfalso. enough (StringRef.startsWith (prefix ++ s') prefix = true) by congruence.
    apply StringRef.startsWith_spec. eauto.
Qed.

Lemma radix_find_spec t seq : wf t ->
  exists q, find t seq = Some q /\ (q <> 0 -> maps t seq q) /\ (forall q', maps t seq q' -> q' = q).
Proof. intros Hw. apply findLoop_spec; [done|]. unfold enough. destruct (getPrefix t); lia. Qed.

Lemma maps_functional t s q q' : wf t -> maps t s q -> maps t s q' -> q = q'.
Proof. intros Hw H H'. destruct (radix_find_spec t s Hw) as (r & _ & _ & Hr). by rewrite (Hr q), (Hr q'). Qed.

Lemma maps_nonzero t s q : maps t s q -> q <> 0.
Proof. by induction 1. Qed.

(** ** Adding *)

Lemma findCommonPrefix_spec x : forall y, exists x' y',
  x = findCommonPrefix x y ++ x' /\ y = findCommonPrefix x y ++ y' /\
  (forall a, head x' = Some a -> head y' <> Some a).
Proof.
  induction x as [|a x IH]; intros y; cbn [findCommonPrefix]; [by exists [], y|].
  destruct y as [|b y]; [by exists (a :: x), []|].
  destruct (Z.eqb_spec a b) as [->|Hne].
  - destruct (IH y) as (x' & y' & Hx & Hy & H). exists x', y'. cbn. by rewrite <- Hx, <- Hy.
  - exists (a :: x), (b :: y). split; [done|]. split; [done|]. cbn. congruence.
Qed.

(** What adding does to the bindings. *)
Definition adds (t : RadixTree) (seq : bytes) (p : Z) (t' : RadixTree) : Prop :=
  forall s q, maps t' s q <-> maps t s q \/ (s = seq /\ q = p /\ ~ exists q0, maps t seq q0).

(** A fresh node takes one round. *)
Definition fresh (t : RadixTree) : bool := empty t && (getProperty t =? 0).

Definition enoughAdd (fuel : nat) (t : RadixTree) (seq : bytes) : Prop :=
  if fresh t then (0 < fuel)%nat else enough fuel t seq.

Lemma fresh_new t : fresh t = true -> t = newTree.
Proof.
  destruct t as [[|? ?] q [|? ?]]; unfold fresh, empty; cbn; try done.
  by intros ->%Z.eqb_eq.
Qed.

Lemma maps_new s q : ~ maps newTree s q.
Proof. unfold newTree. rewrite maps_inv. intros [(_ & _ & H)|(k & t & s' & Hin & _)]; [done|by apply elem_of_nil in Hin]. Qed.

Lemma maps_leaf prefix p s q : p <> 0 -> maps (Tree prefix p []) s q <-> s = prefix /\ q = p.
Proof.
  intros Hp. rewrite maps_inv. split; [|intros [-> ->]; auto].
  intros [(-> & -> & _)|(k & t & s' & Hin & _)]; [done|by apply elem_of_nil in Hin].
Qed.

Lemma getOrCreate_spec children ch :
  NoDup (map fst children) -> wfChildren children ->
  wf (getOrCreate children ch) /\
  (getOrCreate children ch = newTree \/ keyed ch (getOrCreate children ch)) /\
  (forall s q, maps (getOrCreate children ch) s q <-> exists t, (ch, t) ∈ children /\ maps t s q).
Proof.
  intros Hd Hc. unfold getOrCreate. destruct (childAt children ch) as [t|] eqn:E; cbn.
  - apply childAt_elem in E as Hin; [|done]. destruct (wfChildren_elem _ _ _ Hc Hin) as [Hk Hw].
    split; [done|]. split; [by right|]. intros s q. split; [eauto|].
    intros (u & Hu & Hm). apply childAt_elem in Hu; [|done]. congruence.
  - split; [apply wf_new|]. split; [by left|]. intros s q. split; [by intros ?%maps_new|].
    intros (u & Hu & Hm). apply childAt_elem in Hu; [|done]. congruence.
Qed.

(** The child of [ch] has got a binding. *)
Lemma descend_adds prefix property children ch seq p t' :
  NoDup (map fst children) -> wfChildren children ->
  adds (getOrCreate children ch) (ch :: seq) p t' ->
  adds (Tree prefix property children) (prefix ++ ch :: seq) p
    (Tree prefix property (setChild children ch t')).
Proof.
  intros Hd Hc Ha s q. destruct (getOrCreate_spec children ch Hd Hc) as (_ & _ & Hg).
  assert ((exists q0, maps (getOrCreate children ch) (ch :: seq) q0) <->
    exists q0, maps (Tree prefix property children) (prefix ++ ch :: seq) q0) as Hnew.
  { setoid_rewrite maps_descend; [|done..]. setoid_rewrite Hg. setoid_rewrite childAt_elem; done. }
  rewrite <- Hnew, !maps_inv. setoid_rewrite (setChild_elem children ch t' _ _ Hd). unfold adds in Ha. split.
  - intros [H|(k & u & s' & [[-> ->]|[Hk Hin]] & Hm & ->)]; [auto| |left; right; eauto 6].
    apply Ha in Hm as [Hm|(-> & -> & Hn)]; [|auto]. apply Hg in Hm as (u & Hin & Hm). left. right. eauto 6.
  - intros [[H|(k & u & s' & Hin & Hm & ->)]|(-> & -> & Hn)]; [auto| |].
    + right. destruct (decide (k = ch)) as [->|Hk]; [|by exists k, u, s'; auto].
      exists ch, t', s'. split; [auto|]. split; [|done]. apply Ha. left. apply Hg. eauto.
    + right. exists ch, t', (ch :: seq). split; [auto|]. split; [|done]. apply Ha. auto.
Qed.

Lemma wf_set prefix property children ch t' :
  0 <= property <= UINT8_MAX -> NoDup (map fst children) -> wfChildren children ->
  (property = 0 -> (2 <= length (setChild children ch t'))%nat) -> keyed ch t' -> wf t' ->
  wf (Tree prefix property (setChild children ch t')).
Proof.
  intros Hp Hd Hc H2 Hk Hw. apply wf_unfold. split_and!; [lia|lia|by apply setChild_NoDup|auto|].
  by apply wfChildren_set.
Qed.

(** Splitting a prefix keeps the bindings. *)
Lemma radix_split_maps common rest property children key s q :
  maps (Tree common 0 [(key, Tree rest property children)]) s q <->
  maps (Tree (common ++ rest) property children) s q.
Proof.
  rewrite maps_inv. split.
  - intros [(_ & _ & H)|(k & t & s' & Hin & Hm & ->)]; [done|].
    apply list_elem_of_singleton in Hin. simplify_eq. apply maps_inv in Hm. apply maps_inv.
    destruct Hm as [(-> & -> & H)|(k & t & s2 & Hin & Hm & ->)]; [auto|]. rewrite app_assoc. eauto 7.
  - intros [(-> & -> & H)|(k & t & s2 & Hin & Hm & ->)]%maps_inv; right; rewrite <- ?app_assoc;
      do 3 eexists; (split; [by apply list_elem_of_singleton|]); (split; [|done]); by econstructor.
Qed.

Lemma wf_split common a rest property children :
  wf (Tree (common ++ a :: rest) property children) ->
  wf (Tree (a :: rest) property children).
Proof.
  rewrite !wf_unfold. intros (Hp & Hd & H2 & Hc). split_and!; try done; try lia.
  intros H. destruct (H2 H) as [?|[_ H']]; [auto|]. by destruct common.
Qed.

(** The outcome of adding at a node. *)
Definition addPost (t : RadixTree) (seq : bytes) (p : Z) (t' : RadixTree) (status : AddStatus) : Prop :=
  wf t' /\ adds t seq p t' /\
  (status = OK \/ status = ADDED) /\ (status = OK <-> ~ exists q0, maps t seq q0) /\
  (forall k, head seq = Some k -> t = newTree \/ keyed k t -> keyed k t').

Lemma addLoop_spec fuel : forall t seq p,
  wf t -> 0 < p <= UINT8_MAX -> seq <> [] -> enoughAdd fuel t seq ->
  exists t' status, addLoop fuel t seq p = Some (t', status) /\ addPost t seq p t' status.
Proof.
  induction fuel as [|fuel IH]; intros t seq p Hw Hp Hne He.
  { unfold enoughAdd, enough in He. destruct (fresh t); lia. }
  (* the last step of both ways down *)
  assert (forall t0 prefix property children ch rest,
    wf t0 -> seq = prefix ++ ch :: rest ->
    0 <= property <= UINT8_MAX -> NoDup (map fst children) -> wfChildren children ->
    enoughAdd fuel (getOrCreate children ch) (ch :: rest) ->
    (forall t', property = 0 -> (2 <= length (setChild children ch t'))%nat) ->
    (forall s q, maps t0 s q <-> maps (Tree prefix property children) s q) ->
    (forall k, head seq = Some k -> t0 = newTree \/ keyed k t0 -> head prefix = Some k) ->
    exists t' status,
      ('(u, status) ← addLoop fuel (getOrCreate children ch) (ch :: rest) p;
       Some (Tree prefix property (setChild children ch u), status)) = Some (t', status) /\
      addPost t0 seq p t' status) as descend.
  { intros t0 prefix property children ch rest Hw0 -> Hprop Hd Hc Hf H2 Hm Hhead.
    destruct (getOrCreate_spec children ch Hd Hc) as (Hwg & Hkg & _).
    destruct (IH (getOrCreate children ch) (ch :: rest) p Hwg Hp ltac:(done) Hf)
      as (u & status & -> & Hwu & Hadd & Hst & Hok & Hku).
    cbn. do 2 eexists. split; [done|]. specialize (Hku ch eq_refl Hkg).
    pose proof (descend_adds prefix property children ch rest p u Hd Hc Hadd) as Ha.
    split; [apply wf_set; auto|]. split.
    { intros s q. rewrite (Ha s q), Hm. by setoid_rewrite Hm. }
    split; [done|]. split.
    { rewrite Hok. destruct (getOrCreate_spec children ch Hd Hc) as (_ & _ & Hg).
      setoid_rewrite Hm. setoid_rewrite maps_descend; [|done..]. setoid_rewrite Hg.
      by setoid_rewrite childAt_elem. }
    intros k Hk Ht. by apply (Hhead k Hk) in Ht. }
  destruct t as [prefix property children]. cbn [addLoop].
  destruct (findCommonPrefix_spec prefix seq) as (x' & y' & Hx & Hy & Hxy).
  set (common := findCommonPrefix prefix seq) in *.
  replace (drop (length common) seq) with y' by (rewrite Hy; by rewrite drop_app_length).
  replace (drop (length common) prefix) with x' by (rewrite Hx; by rewrite drop_app_length).
  pose proof Hw as (Hprop & Hd & H2 & Hc)%wf_unfold.
  destruct (Z.eqb_spec (zlen common) (zlen prefix)) as [Hlen|Hlen].
  - assert (x' = []) as -> by (rewrite Hx in Hlen; unfold zlen in Hlen; rewrite length_app in Hlen; destruct x'; cbn in *; [done|lia]).
    rewrite app_nil_r in Hx. rewrite <- Hx in *. clear common Hx Hlen. subst seq. destruct y' as [|ch rest].
    + rewrite app_nil_r in *. destruct (Z.eqb_spec property 0) as [->|Hq].
      * do 2 eexists. split; [done|]. split.
        { apply wf_unfold. split_and!; [lia|lia|done|lia|done]. }
        assert (~ exists q0, maps (Tree prefix 0 children) prefix q0) as Hno.
        { setoid_rewrite maps_end; [|done]. naive_solver. }
        split; [|split; [auto|]; split; [done|]; intros k Hk _; exact Hk].
        intros s q. rewrite !maps_inv. split.
        -- intros [(-> & -> & _)|H]; [auto|]. left. auto.
        -- intros [[(_ & _ & ?)|H]|(-> & -> & _)]; [done|auto|left; split_and!; [done..|lia]].
      * assert (exists q0, maps (Tree prefix property children) prefix q0) as Hyes.
        { exists property. apply maps_end; auto. }
        do 2 eexists. split; [done|]. split; [done|]. split; [|split; [auto|]; split; [naive_solver|]].
        { intros s q. split; [auto|]. intros [?|(_ & _ & Hn)]; [done|tauto]. }
        intros k Hk [Ht|?]; [|done]. by injection Ht as -> -> ->.
    + destruct (isNil prefix && isNil children && (property =? 0)) eqn:Hfr.
      * assert (Tree prefix property children = newTree) as Ht by (by apply fresh_new).
        injection Ht as -> -> ->. cbn [app]. do 2 eexists. split; [done|]. split.
        { apply wf_unfold. split_and!; [lia|lia|constructor|lia|constructor]. }
        assert (~ exists q0, maps newTree (ch :: rest) q0) as Hno by (intros [q0 H]; by apply maps_new in H).
        split; [|split; [auto|]; split; [done|]; intros k Hk _; exact Hk].
        intros s q. rewrite maps_leaf by lia. split; [intros [-> ->]; auto|].
        intros [H|(-> & -> & _)]; [by apply maps_new in H|done].
      * assert (fresh (Tree prefix property children) = false) as Hfr' by done.
        apply (descend (Tree prefix property children)); try done.
        -- unfold enoughAdd in *. rewrite Hfr' in He.
           destruct (getOrCreate_spec children ch Hd Hc) as (_ & [->|Hk] & _).
           { cbn. unfold enough in He. cbn in He. rewrite length_app in He. cbn in He. destruct prefix; cbn in He; lia. }
           pose proof (enough_child _ _ _ _ _ _ _ _ He Hk). case_match; [|done]. unfold enough in *. lia.
        -- intros t' Hq. pose proof (setChild_length children ch t').
           destruct (H2 Hq) as [?|[-> ->]]; [lia|]. subst. done.
        -- intros k Hk [Ht|Ht]; [|done]. rewrite Ht in Hfr'. done.
  - destruct x' as [|key x']; [rewrite app_nil_r in Hx; rewrite <- Hx in Hlen; done|].
    assert (fresh (Tree prefix property children) = false) as Hfr' by (rewrite Hx; destruct common; done).
    unfold enoughAdd in He. rewrite Hfr' in He.
    assert (wf (Tree (key :: x') property children)) as Hws by (apply (wf_split common); by rewrite <- Hx).
    assert (forall s q, maps (Tree prefix property children) s q <->
      maps (Tree common 0 [(key, Tree (key :: x') property children)]) s q) as Hsm.
    { intros s q. by rewrite radix_split_maps, <- Hx. }
    assert (NoDup (map fst [(key, Tree (key :: x') property children)])) as Hd' by apply NoDup_singleton.
    assert (wfChildren [(key, Tree (key :: x') property children)]) as Hc'.
    { apply Forall_singleton. done. }
    assert (forall k, head seq = Some k ->
      Tree prefix property children = newTree \/ keyed k (Tree prefix property children) ->
      head common = Some k) as Hhead.
    { intros k Hk [Ht|Hkey]; [by rewrite Ht in Hfr'|]. unfold keyed in Hkey. cbn in Hkey.
      rewrite Hx in Hkey. rewrite Hy in Hk. destruct common as [|c common]; [|done].
      cbn in Hkey, Hk. exfalso. by apply (Hxy k). }
    destruct y' as [|ch rest].
    + rewrite app_nil_r in Hy. do 2 eexists. split; [done|]. split.
      { apply wf_unfold. split_and!; [lia|lia|done|lia|done]. }
      assert (~ exists q0, maps (Tree prefix property children) seq q0) as Hno.
      { setoid_rewrite Hsm. rewrite Hy. setoid_rewrite maps_end; [|done]. naive_solver. }
      split; [|split; [auto|]; split; [done|]; exact Hhead].
      intros s q. rewrite Hsm, !maps_inv. split.
      * intros [(-> & -> & _)|H]; [auto|]. left. auto.
      * intros [[(_ & _ & ?)|H]|(-> & -> & _)]; [done|auto|left; split_and!; [done..|lia]].
    + assert (key <> ch) as Hkc by (intros ->; by apply (Hxy ch)).
      apply (descend (Tree prefix property children)); try done.
      * unfold enoughAdd, getOrCreate, childAt. cbn. rewrite (proj2 (Z.eqb_neq key ch)) by done. cbn.
        unfold enough in He. rewrite Hy, length_app in He. cbn in He. rewrite Hx in He.
        destruct common; cbn in He; lia.
      * intros t' _. cbn. rewrite (proj2 (Z.eqb_neq key ch)) by done. cbn. lia.
Qed.

(** ** Removing *)

Definition removes (t : RadixTree) (seq : bytes) (t' : RadixTree) : Prop :=
  forall s q, maps t' s q <-> maps t s q /\ s <> seq.

(** A node whose property is cleared is merged with its only child. *)
Lemma merge_spec prefix children :
  NoDup (map fst children) -> wfChildren children ->
  let t' := mergeChild (if isNil children then [] else prefix) 0 children in
  wf t' /\ (forall s q, maps t' s q <-> maps (Tree prefix 0 children) s q) /\
  (forall k, head prefix = Some k -> keyed k t' \/ t' = newTree).
Proof.
  intros Hd Hc. destruct children as [|[k [prefix' q' children']] [|e r]]; cbn [isNil mergeChild].
  - split; [apply wf_new|]. split; [|auto]. intros s q. rewrite !maps_inv.
    split; (intros [(_ & _ & ?)|(? & ? & ? & Hin & _)]; [done|by apply elem_of_nil in Hin]).
  - apply Forall_singleton in Hc as [Hk Hw]. cbn in Hk, Hw |- *.
    apply wf_unfold in Hw as (Hp & Hd' & H2 & Hc'). split; [|split].
    + apply wf_unfold. split_and!; try done; try lia. intros H. destruct (H2 H) as [?|[_ ->]]; [auto|done].
    + intros s q. by rewrite radix_split_maps.
    + intros j Hj. left. unfold keyed. cbn. destruct prefix; cbn in *; [done|congruence].
  - split; [|split; [done|by left]]. apply wf_unfold. split; [by unfold UINT8_MAX|]. split; [done|].
    split; [|done]. cbn. lia.
Qed.

(** A child is replaced by what is left of it. *)
Definition replaceChild (children : list (Z * RadixTree)) (ch : Z) (t : RadixTree) : list (Z * RadixTree) :=
  if empty t then eraseChild children ch else setChild children ch t.

Lemma replaceChild_spec prefix property children ch child rest t' :
  NoDup (map fst children) -> wfChildren children -> childAt children ch = Some child ->
  wf t' -> removes child (ch :: rest) t' -> keyed ch t' \/ t' = newTree ->
  NoDup (map fst (replaceChild children ch t')) /\ wfChildren (replaceChild children ch t') /\
  removes (Tree prefix property children) (prefix ++ ch :: rest)
    (Tree prefix property (replaceChild children ch t')).
Proof.
  intros Hd Hc Hch Hw Hr Hkey. apply childAt_elem in Hch as Hin; [|done].
  assert (forall k u, (k, u) ∈ replaceChild children ch t' <->
    (k = ch /\ u = t' /\ keyed ch t') \/ (k <> ch /\ (k, u) ∈ children)) as Helem.
  { intros k u. unfold replaceChild. destruct Hkey as [Hk| ->].
    - assert (empty t' = false) as ->.
      { apply keyed_spec in Hk as [r Hr']. unfold empty. by rewrite Hr'. }
      rewrite setChild_elem by done. tauto.
    - cbn. rewrite eraseChild_elem. split; [auto|]. by intros [(_ & _ & ?)|?]. }
  split; [unfold replaceChild; case_match; [by apply eraseChild_NoDup|by apply setChild_NoDup]|].
  split.
  { apply Forall_forall. intros [k u] [(-> & -> & Hk)|[_ H]]%Helem; [done|by apply (wfChildren_elem children)]. }
  intros s q. rewrite !maps_inv. setoid_rewrite Helem. split.
  - intros [(-> & -> & H)|(k & u & s' & [(-> & -> & Hk)|[Hk Hu]] & Hm & ->)].
    + split; [auto|]. intros H'. rewrite <- (app_nil_r prefix) in H' at 1. by apply app_inv_head in H'.
    + apply Hr in Hm as [Hm Hne]. split; [right; eauto 6|]. intros H'. by apply app_inv_head in H'.
    + split; [right; eauto 6|]. intros H'. apply app_inv_head in H' as ->.
      destruct (wfChildren_elem _ _ _ Hc Hu) as [Hk' _].
      by destruct (keyed_maps _ _ _ _ Hk' Hm) as [? [= ->]].
  - intros [[H|(k & u & s' & Hu & Hm & ->)] Hne]; [auto|]. right.
    destruct (decide (k = ch)) as [->|Hk]; [|by exists k, u, s'; auto].
    assert (u = child) as -> by (apply childAt_elem in Hu; [congruence|done]).
    assert (maps t' s' q) as Hm' by (apply Hr; split; [done|congruence]).
    exists ch, t', s'. split; [left|done]. split; [done|]. split; [done|].
    destruct Hkey as [?| ->]; [done|]. by apply maps_new in Hm'.
Qed.

Definition removePost (t : RadixTree) (seq : bytes) (b : bool) (t' : RadixTree) : Prop :=
  wf t' /\ (b = true <-> exists q, maps t seq q) /\ (b = false -> t' = t) /\
  removes t seq t' /\ (forall k, keyed k t -> keyed k t' \/ t' = newTree).

Lemma removePost_none t seq : wf t -> (forall q, ~ maps t seq q) -> removePost t seq false t.
Proof.
  intros Hw Hno. split; [done|]. split; [split; [done|intros [q H]; by apply Hno in H]|].
  split; [done|]. split; [|auto]. intros s q. split; [|tauto]. intros Hm. split; [done|].
  intros ->. by apply Hno in Hm.
Qed.

Lemma removeLoop_spec fuel : forall t seq, wf t -> enough fuel t seq ->
  exists b t', removeLoop fuel seq t = Some (b, t') /\ removePost t seq b t'.
Proof.
  induction fuel as [|fuel IH]; intros [prefix property children] seq Hw He; [unfold enough in He; lia|].
  cbn [removeLoop]. pose proof Hw as (Hp & Hd & H2 & Hc)%wf_unfold.
  destruct (StringRef.startsWith seq prefix) eqn:Hs; cbn [negb].
  2: { do 2 eexists. split; [done|]. apply removePost_none; [done|].
       intros q [s' Hs']%maps_prefix. cbn in Hs'.
       assert (StringRef.startsWith seq prefix = true) by (apply StringRef.startsWith_spec; eauto). congruence. }
  apply StringRef.startsWith_spec in Hs as [rest ->]. rewrite drop_app_length.
  destruct rest as [|ch rest]; cbn match.
  - rewrite app_nil_r in *. destruct (Z.eqb_spec property 0) as [->|Hq].
    + do 2 eexists. split; [done|]. apply removePost_none; [done|].
      intros q Hm. apply maps_end in Hm as [-> ?]; done.
    + destruct (merge_spec prefix children Hd Hc) as (Hwm & Hm & Hk).
      do 2 eexists. split; [done|]. split; [done|]. split.
      { split; [|done]. intros _. exists property. apply maps_end; auto. }
      split; [done|]. split; [|done]. intros s q. rewrite Hm, !maps_inv. split.
      * intros [(_ & _ & ?)|(k & t & s' & Hin & Ht & ->)]; [done|]. split; [right; eauto 6|].
        intros H'. rewrite <- (app_nil_r prefix) in H' at 2. apply app_inv_head in H' as ->.
        destruct (wfChildren_elem _ _ _ Hc Hin) as [Hkt _]. by destruct (keyed_maps _ _ _ _ Hkt Ht).
      * intros [[(-> & _)|H] Hne]; [done|auto].
  - destruct (childAt children ch) as [child|] eqn:Hch.
    2: { do 2 eexists. split; [done|]. apply removePost_none; [done|].
         intros q Hm. apply maps_descend in Hm as (t & Ht & _); [congruence|done..]. }
    apply childAt_elem in Hch as Hin; [|done].
    destruct (wfChildren_elem _ _ _ Hc Hin) as [Hkc Hwc].
    destruct (IH child (ch :: rest) Hwc) as (b & t' & -> & Hwt & Hb & Hf & Hr & Hk); [by eapply enough_child|].
    cbn [option_bind mbind]. cbn. destruct b.
    + destruct (replaceChild_spec prefix property children ch child rest t') as (Hd' & Hc' & Hr'); [done..|auto|].
      fold (replaceChild children ch t'). set (new := replaceChild children ch t') in *.
      assert (exists q, maps (Tree prefix property children) (prefix ++ ch :: rest) q) as Hyes.
      { destruct (proj1 Hb eq_refl) as [q Hm]. exists q. apply maps_descend; eauto. }
      destruct (Z.eqb_spec property 0) as [->|Hq].
      * destruct (merge_spec prefix new Hd' Hc') as (Hwm & Hm & Hkm).
        rewrite andb_true_r. do 2 eexists. split; [done|]. split; [done|]. split; [done|]. split; [done|].
        split; [|done]. intros s q. by rewrite Hm, (Hr' s q).
      * rewrite andb_false_r. do 2 eexists. split; [done|]. split.
        { apply wf_unfold. split_and!; [lia|lia|done|lia|done]. }
        split; [done|]. split; [done|]. split; [done|]. intros k Hkey. by left.
    + rewrite (Hf eq_refl), setChild_id by done. do 2 eexists. split; [done|].
      apply removePost_none; [done|]. intros q Hm. apply maps_descend in Hm as (t & Ht & Hm); [|done..].
      simplify_eq. assert (false = true) by (apply Hb; eauto). done.
Qed.

Lemma radix_remove_spec t seq : wf t -> exists b t', remove t seq = Some (b, t') /\ removePost t seq b t'.
Proof. intros Hw. apply removeLoop_spec; [done|]. unfold enough. destruct (getPrefix t); lia. Qed.

Lemma radix_add_spec t seq p : wf t -> 0 <= p <= UINT8_MAX ->
  exists t' status, add t seq p = Some (t', status) /\ wf t' /\
    status = (if isNil seq then EMPTY else if p =? 0 then NONE_PROPERTY
              else if MAX_STRING_SIZE <? zlen seq then TOO_LARGE else status) /\
    (if isNil seq || (p =? 0) || (MAX_STRING_SIZE <? zlen seq) then t' = t
     else adds t seq p t' /\ (status = OK \/ status = ADDED) /\ (status = OK <-> ~ exists q0, maps t seq q0)).
Proof.
  intros Hw Hp. unfold add. destruct seq as [|c seq]; cbn [isNil orb]; [eauto 7|].
  destruct (Z.eqb_spec p 0); cbn [orb]; [eauto 7|]. case_match; [eauto 7|].
  destruct (addLoop_spec (2 + length (c :: seq)) t (c :: seq) p) as (t' & status & -> & Hw' & Ha & Hs & Hok & _);
    [done|lia|done| |].
  { unfold enoughAdd, enough. destruct (fresh t), (getPrefix t); lia. }
  exists t', status. done.
Qed.

(** ** Iterating *)

Section tree_ind.
Context (P : RadixTree -> Prop).
Context (Htree : forall prefix property children,
  Forall (fun e => P (snd e)) children -> P (Tree prefix property children)).

Fixpoint RadixTree_nested_ind (t : RadixTree) : P t :=
  let '(Tree prefix property children) := t in
  Htree prefix property children
    ((fix go (l : list (Z * RadixTree)) : Forall (fun e => P (snd e)) l :=
        match l with
        | [] => Forall_nil_2 _
        | (k, t) :: r => Forall_cons_2 _ (k, t) r (RadixTree_nested_ind t) (go r)
        end) children).
End tree_ind.

(** The bindings below a prefix. *)
Definition under (prefix : bytes) (l : list (bytes * Z)) : list (bytes * Z) :=
  map (fun e => (prefix ++ fst e, snd e)) l.

(** The bindings, in the order of the iteration. *)
Fixpoint entries (t : RadixTree) : list (bytes * Z) :=
  let '(Tree prefix property children) := t in
  under prefix ((if property =? 0 then [] else [([], property)]) ++
    (fix go (l : list (Z * RadixTree)) : list (bytes * Z) :=
       match l with [] => [] | (_, t) :: r => entries t ++ go r end) children).

Definition childEntries (l : list (Z * RadixTree)) : list (bytes * Z) := flat_map (fun e => entries (snd e)) l.

Lemma entries_unfold prefix property children :
  entries (Tree prefix property children) =
  under prefix ((if property =? 0 then [] else [([], property)]) ++ childEntries children).
Proof. cbn [entries]. do 2 f_equal. unfold childEntries. by induction children as [|[k t] r IH]; cbn; [|rewrite IH]. Qed.

Lemma elem_under prefix l s q : (s, q) ∈ under prefix l <-> exists s', s = prefix ++ s' /\ (s', q) ∈ l.
Proof.
  unfold under. rewrite list_elem_of_fmap. split.
  - intros ([s' q'] & Heq & Hin). cbn in Heq. simplify_eq. eauto.
  - intros (s' & -> & Hin). by exists (s', q).
Qed.

Lemma entries_maps t : forall s q, (s, q) ∈ entries t <-> maps t s q.
Proof.
  induction t as [prefix property children IH] using RadixTree_nested_ind. intros s q.
  rewrite entries_unfold, elem_under, maps_inv. setoid_rewrite elem_of_app. unfold childEntries.
  rewrite Forall_forall in IH. split.
  - intros (s' & -> & [Hin|Hin]).
    + destruct (Z.eqb_spec property 0); [by apply elem_of_nil in Hin|].
      apply list_elem_of_singleton in Hin. simplify_eq. left. by rewrite app_nil_r.
    + right. rewrite list_elem_of_In, in_flat_map in Hin. destruct Hin as ([k t] & Hk & Hs).
      rewrite <- list_elem_of_In in Hk. rewrite <- list_elem_of_In in Hs. apply (IH _ Hk) in Hs. eauto 6.
  - intros [(-> & -> & Hp)|(k & t & s' & Hin & Hm & ->)].
    + exists []. rewrite app_nil_r. split; [done|left]. rewrite (proj2 (Z.eqb_neq _ _) Hp). by left.
    + exists s'. split; [done|right]. rewrite list_elem_of_In, in_flat_map. exists (k, t).
      rewrite <- !list_elem_of_In. split; [done|]. by apply (IH _ Hin).
Qed.

Lemma entries_keys_NoDup t : wf t -> NoDup (map fst (entries t)).
Proof.
  induction t as [prefix property children IH] using RadixTree_nested_ind.
  intros (Hp & Hd & _ & Hc)%wf_unfold. rewrite entries_unfold.
  assert (forall l, map fst (under prefix l) = map (app prefix) (map fst l)) as ->.
  { intros l. unfold under. by rewrite !map_map. }
  apply (NoDup_fmap_2 (app prefix)). rewrite map_app. apply NoDup_app.
  assert (forall s, s ∈ map fst (childEntries children) -> exists k t, (k, t) ∈ children /\ exists q, maps t s q) as Hin.
  { intros s ([s' q] & -> & H)%list_elem_of_fmap. unfold childEntries in H.
    rewrite list_elem_of_In, in_flat_map in H. destruct H as ([k t] & Hk & Hs).
    rewrite <- list_elem_of_In in Hk. rewrite <- list_elem_of_In in Hs.
    apply entries_maps in Hs. eauto. }
  split; [case_match; constructor; [apply not_elem_of_nil|constructor]|]. split.
  - intros s Hs Hs2. destruct (property =? 0); [by apply elem_of_nil in Hs|].
    apply list_elem_of_singleton in Hs as ->. destruct (Hin _ Hs2) as (k & t & Hk & q & Hm).
    destruct (wfChildren_elem _ _ _ Hc Hk) as [Hkt _]. by destruct (keyed_maps _ _ _ _ Hkt Hm).
  - clear Hin Hp. unfold childEntries. induction children as [|[k t] r IHr]; [constructor|].
    cbn [flat_map]. apply Forall_cons in IH as [IHt IH]. apply Forall_cons in Hc as [[Hk Hw] Hc].
    cbn [fst snd map] in *. apply NoDup_cons in Hd as [Hn Hd]. rewrite map_app. apply NoDup_app.
    split; [auto|]. split; [|auto].
    intros s ([s1 q1] & -> & H1)%list_elem_of_fmap ([s2 q2] & Heq & H2)%list_elem_of_fmap. cbn in Heq. subst s2.
    rewrite list_elem_of_In, in_flat_map in H2. destruct H2 as ([j u] & Hj & Hu).
    rewrite <- list_elem_of_In in Hj. rewrite <- list_elem_of_In in Hu.
    apply entries_maps in H1. apply entries_maps in Hu. cbn in Hu.
    destruct (wfChildren_elem _ _ _ Hc Hj) as [Hku _].
    destruct (keyed_maps _ _ _ _ Hk H1) as [r1 ->], (keyed_maps _ _ _ _ Hku Hu) as [r2 ?]. simplify_eq.
    apply Hn. apply list_elem_of_fmap. by exists (j, u).
Qed.

Section run.
Context {X : Type} (walker : X -> bytes -> Z -> bool * X).

(** The walker on a list of bindings, until it breaks. *)
Fixpoint runWalker (l : list (bytes * Z)) (x : X) : bool * X :=
  match l with
  | [] => (true, x)
  | (s, q) :: r => let '(continue, x) := walker x s q in if continue then runWalker r x else (false, x)
  end.

Lemma runWalker_app l k x :
  runWalker (l ++ k) x = let '(continue, x') := runWalker l x in if continue then runWalker k x' else (false, x').
Proof.
  revert x. induction l as [|[s q] l IH]; intros x; [done|]. cbn.
  destruct (walker x s q) as [[] x']; [apply IH|done].
Qed.

Lemma under_nil l : under [] l = l.
Proof. unfold under. rewrite <- (map_id l) at 2. apply map_ext. by intros []. Qed.

Lemma under_app a b l : under a (under b l) = under (a ++ b) l.
Proof. unfold under. rewrite map_map. apply map_ext. intros [s q]. cbn. by rewrite app_assoc. Qed.

Lemma iterateImpl_spec t : forall buf x,
  iterateImpl walker buf t x = runWalker (under buf (entries t)) x.
Proof.
  induction t as [prefix property children IH] using RadixTree_nested_ind. intros buf x.
  rewrite entries_unfold, under_app. unfold under at 1. rewrite map_app, runWalker_app.
  cbn [iterateImpl].
  set (visit := fix visit (l : list (Z * RadixTree)) (x : X) : bool * X := _).
  assert (forall x, visit children x = runWalker (under (buf ++ prefix) (childEntries children)) x) as Hv.
  { clear x. unfold childEntries. induction children as [|[k t] r IHr]; intros x; [done|].
    apply Forall_cons in IH as [IHt IH]. cbn [flat_map snd]. cbn [visit]. rewrite IHt. fold visit.
    unfold under. rewrite map_app, runWalker_app. fold (under (buf ++ prefix)).
    cbn [snd]. destruct (runWalker _ x) as [[] x']; [by apply IHr|done]. }
  destruct (property =? 0); cbn [map runWalker]; [apply Hv|]. cbn. rewrite app_nil_r.
  destruct (walker x (buf ++ prefix) property) as [[] x']; [apply Hv|done].
Qed.

Lemma iterate_spec t x : iterate walker t x = snd (runWalker (entries t) x).
Proof. unfold iterate. by rewrite iterateImpl_spec, under_nil. Qed.
End run.

(** A walker that never breaks the iteration. *)
Lemma runWalker_fold {X} (f : X -> bytes -> Z -> X) l x :
  runWalker (fun x s q => (true, f x s q)) l x = (true, fold_left (fun x e => f x (fst e) (snd e)) l x).
Proof. revert x. induction l as [|[s q] l IH]; intros x; [done|]. apply IH. Qed.

(** ** Refinement of a finite map *)

Inductive Op := OpAdd (seq : bytes) (p : Z) | OpRemove (seq : bytes) | OpFind (seq : bytes).
Inductive Reply := RAdd (status : AddStatus) | RRemove (removed : bool) | RFind (property : Z).

Definition exec (t : RadixTree) (op : Op) : option (RadixTree * Reply) :=
  match op with
  | OpAdd seq p => '(t', status) ← add t seq p; Some (t', RAdd status)
  | OpRemove seq => '(b, t') ← remove t seq; Some (t', RRemove b)
  | OpFind seq => q ← find t seq; Some (t, RFind q)
  end.

Fixpoint execAll (t : RadixTree) (ops : list Op) : option (RadixTree * list Reply) :=
  match ops with
  | [] => Some (t, [])
  | op :: r => '(t', a) ← exec t op; '(t'', l) ← execAll t' r; Some (t'', a :: l)
  end.

Abbreviation Bindings := (gmap bytes Z).

Definition spec (m : Bindings) (op : Op) : Bindings * Reply :=
  match op with
  | OpAdd seq p =>
      if isNil seq then (m, RAdd EMPTY)
      else if p =? 0 then (m, RAdd NONE_PROPERTY)
      else if MAX_STRING_SIZE <? zlen seq then (m, RAdd TOO_LARGE)
      else match m !! seq with Some _ => (m, RAdd ADDED) | None => (<[seq := p]> m, RAdd OK) end
  | OpRemove seq => (delete seq m, RRemove (bool_decide (is_Some (m !! seq))))
  | OpFind seq => (m, RFind (default 0 (m !! seq)))
  end.

Fixpoint specAll (m : Bindings) (ops : list Op) : Bindings * list Reply :=
  match ops with
  | [] => (m, [])
  | op :: r => let '(m', a) := spec m op in let '(m'', l) := specAll m' r in (m'', a :: l)
  end.

Definition wfOp (op : Op) : Prop := match op with OpAdd _ p => 0 <= p <= UINT8_MAX | _ => True end.

Definition represents (t : RadixTree) (m : Bindings) : Prop :=
  wf t /\ forall s q, maps t s q <-> m !! s = Some q.

Lemma represents_new : represents newTree ∅.
Proof. split; [apply wf_new|]. intros s q. rewrite lookup_empty. split; [by intros ?%maps_new|done]. Qed.

Lemma radix_exec_spec t m op : represents t m -> wfOp op ->
  exists t', exec t op = Some (t', snd (spec m op)) /\ represents t' (fst (spec m op)).
Proof.
  intros [Hw Hm] Hop. destruct op as [seq p|seq|seq]; cbn [exec spec wfOp] in *.
  - destruct (radix_add_spec t seq p Hw Hop) as (t' & status & -> & Hw' & Hst & Hpost). cbn.
    exists t'. destruct seq as [|c seq]; cbn [isNil orb] in *; [subst; done|].
    destruct (Z.eqb_spec p 0); cbn [orb] in *; [subst; done|].
    destruct (MAX_STRING_SIZE <? zlen (c :: seq)); [subst; done|].
    destruct Hpost as (Ha & Hok & Hnew). setoid_rewrite Hm in Hnew.
    destruct (m !! (c :: seq)) as [q0|] eqn:E; cbn [fst snd].
    + assert (status = ADDED) as -> by (destruct Hok as [->|]; [destruct (proj1 Hnew eq_refl)|]; eauto).
      split; [done|]. split; [done|]. intros s q. rewrite (Ha s q), Hm. setoid_rewrite Hm.
      split; [|auto]. intros [?|(_ & _ & Hn)]; [done|]. destruct Hn. eauto.
    + assert (status = OK) as -> by (apply Hnew; intros [q0 Hq0]; congruence).
      split; [done|]. split; [done|]. intros s q. rewrite (Ha s q), Hm. setoid_rewrite Hm.
      rewrite lookup_insert_Some. split.
      * intros [Hs|(-> & -> & _)]; [|auto]. right. split; [congruence|done].
      * intros [[<- <-]|[_ Hs]]; [right; split_and!; [done..|intros [q0 Hq0]; congruence]|auto].
  - destruct (radix_remove_spec t seq Hw) as (b & t' & -> & Hw' & Hb & _ & Hr & _). cbn. exists t'. split.
    + do 3 f_equal. setoid_rewrite Hm in Hb. destruct (m !! seq) as [q|] eqn:E.
      * rewrite bool_decide_true by eauto. apply Hb. eauto.
      * rewrite bool_decide_false by (by intros []). destruct b; [|done]. by destruct (proj1 Hb eq_refl).
    + split; [done|]. intros s q. rewrite (Hr s q), Hm, lookup_delete_Some. naive_solver.
  - destruct (radix_find_spec t seq Hw) as (q & -> & Hq & Hq'). cbn. exists t. split; [|done].
    do 3 f_equal. destruct (m !! seq) as [q'|] eqn:E; cbn.
    + symmetry. apply Hq'. by apply Hm.
    + destruct (Z.eq_dec q 0) as [->|Hne]; [done|]. apply Hq, Hm in Hne. congruence.
Qed.

Lemma radix_execAll_spec ops : forall t m, represents t m -> Forall wfOp ops ->
  exists t', execAll t ops = Some (t', snd (specAll m ops)) /\ represents t' (fst (specAll m ops)).
Proof.
  induction ops as [|op ops IH]; intros t m Hr Hops; [by exists t|].
  apply Forall_cons in Hops as [Hop Hops]. cbn [execAll specAll].
  destruct (radix_exec_spec t m op Hr Hop) as (t' & -> & Hr'). cbn.
  destruct (spec m op) as [m' a]. cbn [fst snd] in *.
  destruct (IH t' m' Hr' Hops) as (t'' & -> & Hr''). cbn.
  destruct (specAll m' ops) as [m'' l]. by exists t''.
Qed.

Lemma radix_entries_perm t m : represents t m -> entries t ≡ₚ map_to_list m.
Proof.
  intros [Hw Hm]. apply NoDup_Permutation.
  - eapply (NoDup_fmap_1 fst). by apply entries_keys_NoDup.
  - apply NoDup_map_to_list.
  - intros [s q]. by rewrite entries_maps, elem_of_map_to_list, Hm.
Qed.

(** C30: every sequence of operations ends, with the replies and the bindings of a
    finite map, and iterating visits exactly the bindings, each of them once. *)
Theorem radix_tree_refines ops :
  Forall wfOp ops ->
  exists t, execAll newTree ops = Some (t, snd (specAll ∅ ops)) /\ wf t /\
    (forall s q, maps t s q <-> fst (specAll ∅ ops) !! s = Some q) /\
    iterate (fun l s q => (true, l ++ [(s, q)])) t [] ≡ₚ map_to_list (fst (specAll ∅ ops)).
Proof.
  intros Hops. destruct (radix_execAll_spec ops newTree ∅ represents_new Hops) as (t & E & Hr).
  exists t. split; [done|]. split; [apply Hr|]. split; [apply Hr|].
  rewrite <- (radix_entries_perm t _ Hr), iterate_spec.
  assert (forall l k, runWalker (fun l s q => (true, l ++ [(s, q)])) l k = (true, k ++ l)) as ->; [|done].
  induction l as [|[s q] l IH]; intros k; cbn; [by rewrite app_nil_r|]. by rewrite IH, <- app_assoc.
Qed.

(** Words that share prefixes, a duplicate, and a removal that merges a node. *)
Definition exampleOps : list Op :=
  [OpAdd (lit "abc") 1; OpAdd (lit "abd") 2; OpAdd (lit "ab") 4; OpAdd (lit "x") 8; OpAdd (lit "abc") 3;
   OpFind (lit "abd"); OpRemove (lit "abd"); OpFind (lit "abd"); OpRemove (lit "ab"); OpFind (lit "abc")].

Lemma exampleOps_wf : Forall wfOp exampleOps.
Proof. repeat constructor; vm_compute; discriminate. Qed.

Lemma radix_tree_refines_witness :
  exists t, execAll newTree exampleOps =
    Some (t, [RAdd OK; RAdd OK; RAdd OK; RAdd OK; RAdd ADDED; RFind 2; RRemove true; RFind 0; RRemove true; RFind 1]) /\
    wf t.
Proof.
  destruct (radix_tree_refines exampleOps exampleOps_wf) as (t & E & Hw & _). exists t. split; [|exact Hw].
  vm_compute in E. vm_compute. exact E.
Defined.

End RadixTree.
