(* ===== verification/RadixPacked.v ===== *)
(** The packed form of the radix tree (src/unicode/radix_tree.h,
    src/unicode/radix_tree.cpp): nodes in breadth-first order in one array of bytes,
    with the offsets of the children in two or three bytes each. *)
From stdpp Require Import sorting list_numbers.
From S2P Require Import Prelude Unicode StringRef CodePointSet RadixTree.

Module RadixPacked.
Import RadixTree.

Definition META_BYTES : Z := 3.

(** ** Big-endian numbers *)

(** The low [n] bytes of a number, most significant first. *)
Fixpoint pushBytes (n : nat) (v : Z) : bytes :=
  match n with
  | O => []
  | S n' => Z.land (Z.shiftr v (8 * Z.of_nat n')) 0xFF :: pushBytes n' v
  end.

(** [childOffset]: [ret <<= 8; ret |= byte]. *)
Definition readBytes (l : bytes) : Z := fold_left (fun ret b => Z.lor (u32 (Z.shiftl ret 8)) b) l 0.

(** ** Serialization *)

Definition packedSize (t : RadixTree) (childOffsetBytes : nat) : Z :=
  u32 (META_BYTES + zlen (getPrefix t) + 1 + zlen (getChildren t) * Z.of_nat childOffsetBytes).

(** The children in the order of their first bytes. *)
Definition firstByte (t : RadixTree) : Z := nth 0 (getPrefix t) 0.
Definition byFirstByte (x y : RadixTree) : Prop := firstByte x <= firstByte y.

#[export] Instance byFirstByte_dec : RelDecision byFirstByte.
Proof. intros x y. unfold byFirstByte. apply _. Defined.

Definition sortChildren (children : list (Z * RadixTree)) : list RadixTree :=
  merge_sort byFirstByte (map snd children).

(** The loop over the children; [back] is [targets.back()].  The result, the entries
    added to [targets], and the bytes pushed to the buffer. *)
Fixpoint writeChildren (childOffsetBytes : nat) (children : list RadixTree) (back : RadixTree * Z)
    : bool * list (RadixTree * Z) * bytes :=
  match children with
  | [] => (true, [], [])
  | e :: r =>
      let childOffset := u32 (snd back + packedSize (fst back) childOffsetBytes) in
      if Z.shiftl 1 (8 * Z.of_nat childOffsetBytes) - 1 <? childOffset then (false, [(e, childOffset)], [])
      else
        let '(ok, targets, out) := writeChildren childOffsetBytes r (e, childOffset) in
        (ok, (e, childOffset) :: targets, pushBytes childOffsetBytes childOffset ++ out)
  end.

(** [None] when the fuel runs out, or for a failed assertion. *)
Fixpoint serializeLoop (fuel : nat) (childOffsetBytes : nat) (targets : list (RadixTree * Z)) (buf : bytes)
    : option (bool * bytes) :=
  match fuel with
  | O => None
  | S fuel' =>
      match targets with
      | [] => Some (true, buf)
      | (Tree prefix property children as tree, offset) :: rest =>
          if negb ((zlen prefix <=? MAX_STRING_SIZE) && (zlen children <=? MAX_N_CHILDREN)) then None
          else if existsb (fun e => isNil (getPrefix (snd e))) children then None
          else
            let meta := Z.lor (Z.shiftl (zlen prefix) 9) (zlen children) in
            let buf := buf ++ pushBytes 3 meta ++ prefix ++ [property] in
            let back := default (tree, offset) (last rest) in
            let '(ok, new, out) := writeChildren childOffsetBytes (sortChildren children) back in
            if ok : bool then serializeLoop fuel' childOffsetBytes (rest ++ new) (buf ++ out)
            else Some (false, buf ++ out)
      end
  end.

Fixpoint nodeCount (t : RadixTree) : nat :=
  let '(Tree _ _ children) := t in
  S ((fix go (l : list (Z * RadixTree)) : nat :=
        match l with [] => O | (_, u) :: r => (nodeCount u + go r)%nat end) children).

(** The overload with a width: the buffer is cleared first. *)
Definition serializeWith (childOffsetBytes : nat) (t : RadixTree) : option (bool * bytes) :=
  serializeLoop (S (nodeCount t)) childOffsetBytes [(t, 1)] [Z.of_nat childOffsetBytes].

Definition serialize (t : RadixTree) : option (bool * bytes) :=
  r ← serializeWith 2 t;
  if fst r : bool then Some r else serializeWith 3 t.

(** ** The packed tree *)

Record PackedRadixTree := { ptr : bytes; getMaxCodePointCount : Z; size : Z }.

(** The packed tree of a buffer whose strings have at most [count] code points. *)
Definition ofBuffer (count : Z) (buf : bytes) : PackedRadixTree :=
  {| ptr := buf; getMaxCodePointCount := count; size := zlen buf |}.

(** The bytes [[offset, offset + n)]; [None] when they are not in the array. *)
Definition slice (buf : bytes) (offset : Z) (n : nat) : option bytes :=
  if (0 <=? offset) && (offset + Z.of_nat n <=? zlen buf)
  then Some (take n (drop (Z.to_nat offset) buf)) else None.

Definition byteAt (buf : bytes) (offset : Z) : option Z := if offset <? 0 then None else buf !! Z.to_nat offset.

(** The node at an offset: its prefix, its property, the number of its children, and
    the offset of what follows. *)
Definition readNode (buf : bytes) (offset : Z) : option (bytes * Z * Z * Z) :=
  m ← slice buf offset 3;
  match m with
  | [a; b; c] =>
      let meta := Z.lor (Z.lor (Z.shiftl a 16) (Z.shiftl b 8)) c in
      let offset := offset + META_BYTES in
      let prefixLen := Z.shiftr meta 9 in
      prefix ← slice buf offset (Z.to_nat prefixLen);
      property ← byteAt buf (offset + prefixLen);
      Some (prefix, property, Z.land meta 0x1FF, offset + prefixLen + 1)
  | _ => None
  end.

(** The iterators from begin to end: the offset of each child, and the first byte of
    its prefix, which [operator*] reads (and which an iteration does not look at). *)
Definition readChild (buf : bytes) (childOffsetBytes : nat) (offset : Z) (i : nat) : option (Z * Z) :=
  l ← slice buf (offset + Z.of_nat (i * childOffsetBytes)) childOffsetBytes;
  let childOffset := readBytes l in
  b ← byteAt buf (childOffset + META_BYTES);
  Some (childOffset, b).

Fixpoint collect {A} (f : nat -> option A) (i n : nat) : option (list A) :=
  match n with
  | O => Some []
  | S n' => x ← f i; l ← collect f (S i) n'; Some (x :: l)
  end.

Definition readChildren (buf : bytes) (childOffsetBytes : nat) (offset n : Z) : option (list (Z * Z)) :=
  collect (readChild buf childOffsetBytes offset) 0 (Z.to_nat n).

(** std::lower_bound and the test of what it found. *)
Definition findChild (children : list (Z * Z)) (p : Z) : option Z :=
  match children !! CodePointSet.lowerBound (length children) (fun e => snd e <? p) children 0 (length children) with
  | Some (childOffset, b) => if b =? p then Some childOffset else None
  | None => None
  end.

(** The loop of [findLongestMatched]. *)
Fixpoint matchLoop (fuel : nat) (t : PackedRadixTree) (childOffsetBytes : nat) (orgSize offset : Z)
    (ref : bytes) (latestMatchedSize latestProperty : Z) : option (Z * Z) :=
  match fuel with
  | O => None
  | S fuel' =>
      if size t <=? offset then Some (latestMatchedSize, latestProperty)
      else
        '(prefix, property, n, offset) ← readNode (ptr t) offset;
        if negb (StringRef.startsWith ref prefix) then Some (latestMatchedSize, latestProperty)
        else
          let ref := drop (length prefix) ref in
          let '(matched, latest) :=
            if property =? 0 then (latestMatchedSize, latestProperty)
            else (u16 (orgSize - zlen ref), property) in
          match ref with
          | [] => Some (matched, latest)
          | p :: _ =>
              children ← readChildren (ptr t) childOffsetBytes offset n;
              match findChild children p with
              | Some offset =>
                  if size t <=? offset then None
                  else matchLoop fuel' t childOffsetBytes orgSize offset ref matched latest
              | None => Some (matched, latest)
              end
          end
  end.

Definition findLongestMatched (t : PackedRadixTree) (ref : bytes) : option (Z * Z) :=
  childOffsetBytes ← byteAt (ptr t) 0;
  matchLoop (2 + length ref) t (Z.to_nat childOffsetBytes) (zlen ref) 1 ref 0 0.

(** [find] *)
Definition findPacked (t : PackedRadixTree) (ref : bytes) : option Z :=
  '(len, p) ← findLongestMatched t ref;
  Some (if zlen ref =? len then p else 0).

Section iterate.
Context {X : Type} (walker : X -> bytes -> Z -> bool * X) (t : PackedRadixTree) (childOffsetBytes : nat).

(** The recursion on an offset, and the loop over the children. *)
Fixpoint iterateAt (fuel : nat) (buf : bytes) (offset : Z) (x : X) : option (bool * X) :=
  match fuel with
  | O => None
  | S fuel' =>
      if size t <=? offset then Some (true, x)
      else
        '(prefix, property, n, offset) ← readNode (ptr t) offset;
        let buf := buf ++ prefix in
        '(continue, x) ← (if property =? 0 then Some (true, x) else Some (walker x buf property));
        if continue : bool then
          children ← readChildren (ptr t) childOffsetBytes offset n;
          (fix visit (l : list (Z * Z)) (x : X) : option (bool * X) :=
             match l with
             | [] => Some (true, x)
             | (childOffset, _) :: r =>
                 '(continue, x) ← iterateAt fuel' buf childOffset x;
                 if continue : bool then visit r x else Some (false, x)
             end) children x
        else Some (false, x)
  end.
End iterate.

Definition iteratePacked {X} (walker : X -> bytes -> Z -> bool * X) (t : PackedRadixTree) (x : X) : option X :=
  childOffsetBytes ← byteAt (ptr t) 0;
  r ← iterateAt walker t (Z.to_nat childOffsetBytes) (S (Z.to_nat (size t))) [] 1 x;
  Some (snd r).

(** * Properties *)

(** ** Big-endian numbers *)

Lemma pushBytes_length n v : length (pushBytes n v) = n.
Proof. by induction n as [|n IH]; cbn; [|rewrite IH]. Qed.

Lemma push_read n : forall a v, 0 <= a -> (a + 1) * 2 ^ (8 * Z.of_nat n) <= 2 ^ 32 ->
  fold_left (fun ret b => Z.lor (u32 (Z.shiftl ret 8)) b) (pushBytes n v) a =
  a * 2 ^ (8 * Z.of_nat n) + v mod 2 ^ (8 * Z.of_nat n).
Proof.
  induction n as [|n IH]; intros a v Ha Hb.
  { cbn. rewrite Z.mod_1_r. lia. }
  cbn [pushBytes fold_left].
  assert (2 ^ (8 * Z.of_nat (S n)) = 256 * 2 ^ (8 * Z.of_nat n)) as Hpow.
  { rewrite Nat2Z.inj_succ. replace (8 * Z.succ (Z.of_nat n)) with (8 + 8 * Z.of_nat n) by lia.
    rewrite Z.pow_add_r by lia. done. }
  rewrite Hpow in *. set (w := 2 ^ (8 * Z.of_nat n)) in *.
  assert (0 < w) as Hw by (subst w; lia).
  set (b := Z.land (Z.shiftr v (8 * Z.of_nat n)) 0xFF).
  assert (b = (v / w) mod 256) as Eb.
  { subst b. change 0xFF with (Z.ones 8). rewrite Z.land_ones, Z.shiftr_div_pow2 by lia. done. }
  assert (0 <= b < 256) as Hbr by (rewrite Eb; apply Z.mod_pos_bound; lia).
  change (2 ^ 32) with 4294967296 in *.
  assert (a < 16777216) as Ha' by nia.
  assert (Z.lor (u32 (Z.shiftl a 8)) b = a * 256 + b) as ->.
  { rewrite wrap_small.
    - change 256 with (2 ^ 8). apply lor_shift_add; [lia|]. change (2 ^ 8) with 256. lia.
    - unfold in_unsigned. rewrite Z.shiftl_mul_pow2 by lia. change (2 ^ 8) with 256.
      change (2 ^ 32) with 4294967296. lia. }
  rewrite IH; [|lia|nia]. rewrite Eb.
  assert (v mod (256 * w) = w * ((v / w) mod 256) + v mod w) as ->; [|lia].
  rewrite (Z.mul_comm 256 w), Z.rem_mul_r by lia. lia.
Qed.

Lemma read_push n v : (n <= 3)%nat -> 0 <= v < 2 ^ (8 * Z.of_nat n) -> readBytes (pushBytes n v) = v.
Proof.
  intros Hn Hv. unfold readBytes. rewrite push_read; [rewrite Z.mod_small by done; lia|lia|].
  assert (8 * Z.of_nat n <= 32) by lia. rewrite Z.mul_1_l. apply Z.pow_le_mono_r; lia.
Qed.

Lemma read_meta meta : 0 <= meta < 2 ^ 24 ->
  match pushBytes 3 meta with
  | [a; b; c] => Z.lor (Z.lor (Z.shiftl a 16) (Z.shiftl b 8)) c = meta
  | _ => False
  end.
Proof.
  intros Hm. cbn [pushBytes]. change (8 * Z.of_nat 2) with 16. change (8 * Z.of_nat 1) with 8.
  change (8 * Z.of_nat 0) with 0. change 0xFF with (Z.ones 8). rewrite !Z.land_ones by lia.
  rewrite Z.shiftr_0_r, !Z.shiftr_div_pow2 by lia. change (2 ^ 24) with 16777216 in Hm.
  change (2 ^ 8) with 256. change (2 ^ 16) with 65536.
  set (a := (meta / 65536) mod 256). set (b := (meta / 256) mod 256). set (c := meta mod 256).
  change 16 with (8 + 8). rewrite <- Z.shiftl_shiftl, <- Z.shiftl_lor by lia.
  assert (0 <= b < 2 ^ 8) as Hb by (by apply Z.mod_pos_bound).
  assert (0 <= c < 2 ^ 8) as Hc by (by apply Z.mod_pos_bound).
  rewrite lor_shift_add by (done || lia). rewrite lor_shift_add by (done || lia).
  change (2 ^ 8) with 256. subst a b c. Z.div_mod_to_equations. lia.
Qed.

(** ** Trees that the packed form can hold *)

Fixpoint fits (t : RadixTree) : Prop :=
  let '(Tree prefix _ children) := t in
  zlen prefix <= MAX_STRING_SIZE /\ zlen children <= MAX_N_CHILDREN /\
  (fix all (l : list (Z * RadixTree)) : Prop :=
     match l with [] => True | (_, u) :: r => fits u /\ all r end) children.

Lemma fits_unfold prefix property children :
  fits (Tree prefix property children) <->
  zlen prefix <= MAX_STRING_SIZE /\ zlen children <= MAX_N_CHILDREN /\ Forall (fun e => fits (snd e)) children.
Proof.
  cbn [fits]. do 2 (apply and_iff_compat_l).
  induction children as [|[k u] r IH]; [by rewrite Forall_nil|]. by rewrite Forall_cons, IH.
Qed.

(** Every node but the empty tree leads to a string. *)
Lemma wf_inhabited t : wf t -> t = newTree \/ exists s q, maps t s q.
Proof.
  induction t as [prefix property children IH] using RadixTree_nested_ind.
  intros (Hp & Hd & H2 & Hc)%wf_unfold. destruct (Z.eq_dec property 0) as [->|Hq].
  - destruct (H2 eq_refl) as [Hlen|[-> ->]]; [right|by left].
    destruct children as [|[k u] r]; [cbn in Hlen; lia|].
    apply Forall_cons in IH as [IH _]. apply Forall_cons in Hc as [[Hk Hw] _]. cbn in *.
    destruct (IH Hw) as [->|(s & q & Hm)]; [done|]. exists (prefix ++ s), q. econstructor; [by left|done].
  - right. exists prefix, property. by constructor.
Qed.

Lemma distinct_bytes (l : list Z) : NoDup l -> Forall is_byte l -> zlen l <= MAX_N_CHILDREN.
Proof.
  intros Hd Hb. change MAX_N_CHILDREN with 256.
  assert (length l <= length (seqZ 0 256))%nat as H; [|rewrite length_seqZ in H; unfold zlen; lia].
  apply submseteq_length, NoDup_submseteq; [done|]. intros b Hin. apply elem_of_seqZ.
  by eapply Forall_forall in Hb.
Qed.

Lemma fits_of_maps t :
  wf t -> (forall s q, maps t s q -> Forall is_byte s /\ zlen s <= MAX_STRING_SIZE) -> fits t.
Proof.
  induction t as [prefix property children IH] using RadixTree_nested_ind. intros Hw Hm.
  pose proof Hw as (Hp & Hd & H2 & Hc)%wf_unfold.
  assert (forall k u s q, (k, u) ∈ children -> maps u s q ->
    Forall is_byte (prefix ++ s) /\ zlen (prefix ++ s) <= MAX_STRING_SIZE) as Hsub.
  { intros k u s q Hin Hu. apply (Hm _ q). by econstructor. }
  apply fits_unfold. split; [|split].
  - destruct (wf_inhabited _ Hw) as [Heq|(s & q & H)]; [injection Heq as -> _ _; done|].
    destruct (maps_prefix _ _ _ H) as [s' ->]. apply Hm in H as [_ H]. cbn in H.
    rewrite zlen_app in H. pose proof (zlen_nonneg s'). lia.
  - replace (zlen children) with (zlen (map fst children)) by (unfold zlen; by rewrite length_map).
    apply distinct_bytes; [done|]. apply Forall_forall. intros k ([j u] & -> & Hin)%list_elem_of_fmap. cbn.
    destruct (wfChildren_elem _ _ _ Hc Hin) as [Hk Hwu].
    destruct (wf_inhabited u Hwu) as [->|(s & q & Hu)]; [done|].
    destruct (Hsub _ _ _ _ Hin Hu) as [Hb _]. apply Forall_app in Hb as [_ Hb].
    destruct (keyed_maps _ _ _ _ Hk Hu) as [s' ->]. by apply Forall_cons in Hb as [Hb _].
  - apply Forall_forall. intros [k u] Hin. eapply Forall_forall in IH; [|exact Hin]. apply IH.
    + by apply (wfChildren_elem _ _ _ Hc Hin).
    + intros s q Hu. destruct (Hsub _ _ _ _ Hin Hu) as [Hb Hl]. apply Forall_app in Hb as [_ Hb].
      rewrite zlen_app in Hl. pose proof (zlen_nonneg prefix). split; [done|lia].
Qed.

(** ** Sizes *)

Section pack.
Context (k : nat) (Hk : (k <= 3)%nat).

(** The bytes of a node, and of a whole tree. *)
Definition nodeSize (t : RadixTree) : nat := 4 + length (getPrefix t) + length (getChildren t) * k.

Fixpoint totalSize (t : RadixTree) : nat :=
  let '(Tree prefix _ children) := t in
  (4 + length prefix + length children * k +
  (fix go (l : list (Z * RadixTree)) : nat :=
     match l with [] => O | (_, u) :: r => totalSize u + go r end) children)%nat.

Lemma totalSize_unfold prefix property children :
  totalSize (Tree prefix property children) =
  (nodeSize (Tree prefix property children) + sum_list_with totalSize (map snd children))%nat.
Proof.
  cbn [totalSize]. unfold nodeSize. cbn [getPrefix getChildren]. f_equal.
  by induction children as [|[j u] r IH]; cbn; [|rewrite IH].
Qed.

Lemma nodeCount_unfold prefix property children :
  nodeCount (Tree prefix property children) = S (sum_list_with nodeCount (map snd children)).
Proof. cbn [nodeCount]. f_equal. by induction children as [|[j u] r IH]; cbn; [|rewrite IH]. Qed.

Lemma sortChildren_perm children : sortChildren children ≡ₚ map snd children.
Proof. apply merge_sort_Permutation. Qed.

Lemma packedSize_nodeSize t : fits t -> packedSize t k = Z.of_nat (nodeSize t) /\ Z.of_nat (nodeSize t) <= 33600.
Proof.
  destruct t as [prefix property children]. intros (Hp & Hc & _)%fits_unfold.
  unfold packedSize, nodeSize. cbn [getPrefix getChildren]. unfold zlen in *.
  change MAX_STRING_SIZE with 32767 in Hp. change MAX_N_CHILDREN with 256 in Hc.
  assert (Z.of_nat (4 + length prefix + length children * k) =
    META_BYTES + Z.of_nat (length prefix) + 1 + Z.of_nat (length children) * Z.of_nat k) as ->
    by (unfold META_BYTES; lia).
  assert (0 <= Z.of_nat (length children) * Z.of_nat k <= 256 * 3) as Hck by nia.
  unfold META_BYTES. split; [|lia]. apply wrap_small. unfold in_unsigned.
  change (2 ^ 32) with 4294967296. lia.
Qed.

Definition limit : Z := 2 ^ (8 * Z.of_nat k).

Lemma limit_bound : limit <= 2 ^ 24.
Proof. unfold limit. apply Z.pow_le_mono_r; lia. Qed.

(** ** What serialization writes *)

Definition nodeBytes (prefix : bytes) (property : Z) (offs : list Z) : bytes :=
  pushBytes 3 (Z.lor (Z.shiftl (zlen prefix) 9) (zlen offs)) ++ prefix ++ [property] ++
  flat_map (pushBytes k) offs.

(** The node of a tree is at an offset of the array, and so are its children, further on. *)
Inductive packedAt (buf : bytes) : Z -> RadixTree -> Prop :=
| packed_node o prefix property children offs tail :
    0 <= o -> drop (Z.to_nat o) buf = nodeBytes prefix property offs ++ tail ->
    length offs = length (sortChildren children) ->
    (forall i o' t, offs !! i = Some o' -> sortChildren children !! i = Some t ->
       o < o' /\ o' < limit /\ packedAt buf o' t) ->
    packedAt buf o (Tree prefix property children).

(** Consecutive nodes. *)
Fixpoint chain (e : Z) (targets : list (RadixTree * Z)) : Prop :=
  match targets with
  | [] => True
  | (t, o) :: r => o = e /\ e < limit /\ chain (e + Z.of_nat (nodeSize t)) r
  end.

Definition endOf (e : Z) (targets : list (RadixTree * Z)) : Z :=
  e + Z.of_nat (sum_list_with (fun x => nodeSize (fst x)) targets).

Lemma chain_app e l m : chain e (l ++ m) <-> chain e l /\ chain (endOf e l) m.
Proof.
  revert e. induction l as [|[t o] l IH]; intros e; cbn [chain app].
  - unfold endOf. cbn. rewrite Z.add_0_r. tauto.
  - rewrite IH. unfold endOf. cbn [sum_list_with fst].
    replace (e + Z.of_nat (nodeSize t) + Z.of_nat (sum_list_with (fun x => nodeSize (fst x)) l)) with
      (e + Z.of_nat (nodeSize t + sum_list_with (fun x => nodeSize (fst x)) l)) by lia. tauto.
Qed.

Lemma chain_ge e l t o : chain e l -> (t, o) ∈ l -> e <= o < limit.
Proof.
  revert e. induction l as [|[u p] l IH]; intros e; [by intros _ ?%elem_of_nil|].
  intros (-> & Hlim & Hc) [Heq|Hin]%elem_of_cons; [simplify_eq; lia|].
  specialize (IH _ Hc Hin). lia.
Qed.

Lemma writeChildren_spec children : forall back e,
  Forall fits children -> 0 <= snd back <= 2 ^ 24 -> fits (fst back) ->
  e = snd back + Z.of_nat (nodeSize (fst back)) ->
  let '(ok, new, out) := writeChildren k children back in
  (ok = true ->
     map fst new = children /\ out = flat_map (pushBytes k) (map snd new) /\ chain e new) /\
  (endOf e (map (fun t => (t, 0)) children) <= limit -> ok = true).
Proof.
  induction children as [|c r IH]; intros back e Hf Hb Hfb He; cbn [writeChildren].
  { done. }
  apply Forall_cons in Hf as [Hc Hr]. destruct (packedSize_nodeSize _ Hfb) as [-> Hs].
  change (2 ^ 24) with 16777216 in *.
  assert (u32 (snd back + Z.of_nat (nodeSize (fst back))) = e) as ->.
  { rewrite He. apply wrap_small. unfold in_unsigned. change (2 ^ 32) with 4294967296. lia. }
  rewrite Z.shiftl_mul_pow2, Z.mul_1_l by lia. fold limit.
  pose proof limit_bound as Hl. change (2 ^ 24) with 16777216 in Hl.
  destruct (Z.ltb_spec (limit - 1) e).
  { split; [done|]. unfold endOf. cbn [map sum_list_with fst]. unfold nodeSize at 1. lia. }
  specialize (IH (c, e) (e + Z.of_nat (nodeSize c)) Hr ltac:(cbn; lia) Hc eq_refl).
  destruct (writeChildren k r (c, e)) as [[ok new] out]. destruct IH as [IH IHl]. split.
  - intros Hok. destruct (IH Hok) as (<- & -> & Hch). cbn. split_and!; try done. lia.
  - intros Hend. apply IHl. unfold endOf in *. cbn [map sum_list_with fst] in *. lia.
Qed.

Definition good (t : RadixTree) : Prop := wf t /\ fits t.

Lemma good_children prefix property children :
  good (Tree prefix property children) -> Forall good (sortChildren children).
Proof.
  intros [(_ & _ & _ & Hc)%wf_unfold (_ & _ & Hf)%fits_unfold]. rewrite sortChildren_perm.
  apply Forall_forall. intros u ([j v] & -> & Hin)%list_elem_of_fmap. cbn. split.
  - by apply (wfChildren_elem _ _ _ Hc Hin).
  - exact (proj1 (Forall_forall _ _) Hf _ Hin).
Qed.

Lemma chain_back e t o rest :
  chain e ((t, o) :: rest) -> Forall (fun x => good (fst x)) ((t, o) :: rest) -> 0 <= e ->
  let back := default (t, o) (last rest) in
  snd back + Z.of_nat (nodeSize (fst back)) = endOf e ((t, o) :: rest) /\
  0 <= snd back <= 2 ^ 24 /\ good (fst back).
Proof.
  pose proof limit_bound as Hl. revert e t o. induction rest as [|[u p] rest IH]; intros e t o Hc Hg He.
  - destruct Hc as (-> & Hlim & _). apply Forall_cons in Hg as [Hg _]. cbn. unfold endOf. cbn. split; [lia|]. split; [lia|exact Hg].
  - assert (default (t, o) (last ((u, p) :: rest)) = default (u, p) (last rest)) as ->.
    { rewrite last_cons. by destruct (last rest). }
    destruct Hc as (-> & Hlim & Hc). apply Forall_cons in Hg as [_ Hg].
    destruct (IH _ u p Hc Hg) as (H1 & H2 & H3); [lia|]. cbv zeta in *. rewrite H1. split; [|done].
    unfold endOf. cbn [sum_list_with fst]. lia.
Qed.

Lemma nodeBytes_length prefix property offs :
  length (nodeBytes prefix property offs) = (4 + length prefix + length offs * k)%nat.
Proof.
  unfold nodeBytes. rewrite !length_app, pushBytes_length. cbn [length].
  assert (length (flat_map (pushBytes k) offs) = length offs * k)%nat as ->; [|lia].
  induction offs as [|x offs IH]; [done|]. cbn [flat_map length]. rewrite length_app, pushBytes_length, IH. lia.
Qed.

Lemma sum_prefixed (f : RadixTree -> nat) (l : list (RadixTree * Z)) :
  sum_list_with (fun x => f (fst x)) l = sum_list_with f (map fst l).
Proof. induction l as [|x l IH]; cbn; congruence. Qed.

Lemma nodes_total (l : list (RadixTree * Z)) :
  (sum_list_with (fun x => nodeSize (fst x)) l <= sum_list_with totalSize (map fst l))%nat.
Proof. induction l as [|[[p q c] o] l IH]; [done|]. cbn [map sum_list_with fst]. rewrite totalSize_unfold. lia. Qed.

Lemma children_not_empty children : wfChildren children ->
  existsb (fun e => isNil (getPrefix (snd e))) children = false.
Proof.
  intros Hw. apply not_true_iff_false. intros ([j u] & Hin & Hnil)%existsb_exists. cbn in Hnil.
  rewrite <- list_elem_of_In in Hin. destruct (wfChildren_elem _ _ _ Hw Hin) as [[r Hr]%keyed_spec _].
  by rewrite Hr in Hnil.
Qed.

Lemma serializeLoop_spec fuel : forall targets buf,
  Forall (fun x => good (fst x)) targets -> chain (zlen buf) targets ->
  (sum_list_with nodeCount (map fst targets) < fuel)%nat ->
  exists ok out, serializeLoop fuel k targets buf = Some (ok, out) /\
    (ok = true -> (exists rest, out = buf ++ rest) /\ (zlen buf <= limit + 33600 -> zlen out <= limit + 33600) /\
       forall t o, (t, o) ∈ targets -> packedAt out o t) /\
    (zlen buf + Z.of_nat (sum_list_with totalSize (map fst targets)) <= limit -> ok = true).
Proof.
  induction fuel as [|fuel IH]; intros targets buf Hg Hc Hfuel; [lia|].
  destruct targets as [|[t o] rest]; cbn [serializeLoop].
  { exists true, buf. split; [done|]. split; [|done]. intros _. split; [exists []; by rewrite app_nil_r|].
    split; [done|]. by intros t o ?%elem_of_nil. }
  destruct t as [prefix property children].
  destruct (chain_back _ _ _ _ Hc Hg (zlen_nonneg buf)) as (Hend & Hback & Hgb).
  set (back := default (Tree prefix property children, o) (last rest)) in *.
  destruct Hc as (-> & Hlim & Hc). apply Forall_cons in Hg as [Hgt Hg]. cbn [fst] in Hgt.
  pose proof (good_children _ _ _ Hgt) as Hgc. destruct Hgt as [Hw Hf].
  pose proof Hf as (Hp & Hn & _)%fits_unfold. pose proof Hw as (_ & _ & _ & Hwc)%wf_unfold.
  rewrite (proj2 (Z.leb_le _ _) Hp), (proj2 (Z.leb_le _ _) Hn). cbn [negb andb].
  rewrite (children_not_empty _ Hwc).
  cbv zeta.
  assert (Forall fits (sortChildren children)) as Hfc by (eapply Forall_impl; [exact Hgc|]; by intros ? []).
  pose proof (writeChildren_spec (sortChildren children) back _ Hfc Hback (proj2 Hgb) eq_refl) as Hwr.
  destruct (writeChildren k (sortChildren children) back) as [[ok new] out]. destruct Hwr as [Hwr Hwl].
  assert (length (sortChildren children) = length children) as Hlen.
  { rewrite sortChildren_perm. by rewrite length_map. }
  rewrite Hend in *.
  set (node := Tree prefix property children) in *.
  pose proof (nodes_total (map (fun t => (t, 0)) (sortChildren children))) as Hsum.
  assert (sum_list_with totalSize (map fst (map (fun t => (t, 0)) (sortChildren children))) =
    sum_list_with totalSize (map snd children)) as Hperm.
  { rewrite map_map, <- (sortChildren_perm children). cbn. by rewrite map_id. }
  rewrite Hperm in Hsum. pose proof (nodes_total rest) as Hsum'.
  assert (sum_list_with totalSize (map fst ((node, zlen buf) :: rest)) =
    (nodeSize node + sum_list_with totalSize (map snd children) + sum_list_with totalSize (map fst rest))%nat) as Htotal.
  { cbn [map sum_list_with fst]. subst node. rewrite totalSize_unfold. lia. }
  destruct ok.
  2: { exists false, ((buf ++ pushBytes 3 (Z.lor (Z.shiftl (zlen prefix) 9) (zlen children)) ++ prefix ++ [property]) ++ out).
       split; [done|]. split; [done|]. intros Hfit. apply Hwl. rewrite Htotal in Hfit.
       unfold endOf in *. cbn [sum_list_with fst]. lia. }
  destruct (Hwr eq_refl) as (Hnew & -> & Hch).
  assert (length (map snd new) = length children) as Hlen2 by (rewrite <- Hlen, <- Hnew, !length_map; done).
  assert ((buf ++ pushBytes 3 (Z.lor (Z.shiftl (zlen prefix) 9) (zlen children)) ++ prefix ++ [property]) ++
    flat_map (pushBytes k) (map snd new) = buf ++ nodeBytes prefix property (map snd new)) as ->.
  { unfold nodeBytes. assert (zlen (map snd new) = zlen children) as -> by (unfold zlen; by rewrite Hlen2).
    rewrite <- !app_assoc. done. }
  set (nb := nodeBytes prefix property (map snd new)).
  assert (zlen nb = Z.of_nat (nodeSize node)) as Hnb.
  { unfold zlen, nb. rewrite nodeBytes_length, Hlen2. done. }
  destruct (IH (rest ++ new) (buf ++ nb)) as (ok & out' & -> & Hok & Hfit).
  - apply Forall_app. split; [done|]. apply Forall_forall. intros [u p] Hin.
    assert (u ∈ sortChildren children) as Hu by (rewrite <- Hnew; apply list_elem_of_fmap; by exists (u, p)).
    exact (proj1 (Forall_forall _ _) Hgc _ Hu).
  - rewrite zlen_app, Hnb. apply chain_app. split; [done|].
    assert (endOf (zlen buf + Z.of_nat (nodeSize node)) rest = endOf (zlen buf) ((node, zlen buf) :: rest)) as ->; [|done].
    unfold endOf. cbn [sum_list_with fst]. lia.
  - rewrite map_app, sum_list_with_app, Hnew, (sortChildren_perm children).
    cbn [map sum_list_with fst] in Hfuel. subst node. rewrite nodeCount_unfold in Hfuel. lia.
  - exists ok, out'. split; [done|]. split.
    + intros Hoktrue. destruct (Hok Hoktrue) as ([rest' ->] & Hsz & Hall). split; [exists (nb ++ rest'); by rewrite app_assoc|].
      split; [intros _; apply Hsz; rewrite zlen_app, Hnb; pose proof (proj2 (packedSize_nodeSize node Hf)); lia|].
      intros t o [Heq|Hin]%elem_of_cons; [|apply Hall, elem_of_app; auto]. simplify_eq.
      apply (packed_node _ _ _ _ _ (map snd new) rest'); [unfold zlen; lia| | |].
      * unfold zlen. rewrite Nat2Z.id, <- app_assoc. by rewrite drop_app_length.
      * congruence.
      * intros i o' t Ho Ht. rewrite <- Hnew in Ht. rewrite list_lookup_fmap in Ho. rewrite list_lookup_fmap in Ht.
        destruct (new !! i) as [[u p]|] eqn:E; [|done]. cbn in Ho, Ht. simplify_eq.
        apply list_elem_of_lookup_2 in E.
        assert ((t, o') ∈ rest ++ new) as Hin by (apply elem_of_app; auto).
        pose proof (chain_ge _ _ _ _ Hch E) as [Hge Hl]. split; [|split; [done|auto]].
        unfold endOf in Hge. cbn [sum_list_with fst] in Hge. unfold nodeSize in Hge. lia.
    + intros H. apply Hfit. rewrite map_app, sum_list_with_app, Hnew, (sortChildren_perm children).
      rewrite zlen_app, Hnb. rewrite Htotal in H. lia.
Qed.
End pack.

(** ** Reading *)

Lemma slice_at buf o a b tail :
  0 <= o <= zlen buf -> drop (Z.to_nat o) buf = a ++ b ++ tail -> slice buf (o + zlen a) (length b) = Some b.
Proof.
  intros Ho H. unfold slice. pose proof (f_equal length H) as Hl. rewrite length_drop, !length_app in Hl.
  rewrite (proj2 (Z.leb_le 0 _)) by (unfold zlen; lia). cbn [andb].
  destruct (Z.leb_spec (o + zlen a + Z.of_nat (length b)) (zlen buf)) as [_|Hlt].
  - replace (Z.to_nat (o + zlen a)) with (Z.to_nat o + length a)%nat by (unfold zlen; lia).
    rewrite <- drop_drop, H, drop_app_length. by rewrite take_app_length.
  - unfold zlen in *. lia.
Qed.

Lemma byteAt_at buf o a b tail :
  0 <= o -> drop (Z.to_nat o) buf = a ++ b :: tail -> byteAt buf (o + zlen a) = Some b.
Proof.
  intros Ho H. unfold byteAt. rewrite (proj2 (Z.ltb_ge _ _)) by (unfold zlen; lia).
  replace (Z.to_nat (o + zlen a)) with (Z.to_nat o + length a)%nat by (unfold zlen; lia).
  rewrite <- lookup_drop, H. by rewrite list_lookup_middle.
Qed.

Lemma sorted_lookup {A} (R : A -> A -> Prop) l i j x y :
  StronglySorted R l -> (i < j)%nat -> l !! i = Some x -> l !! j = Some y -> R x y.
Proof.
  intros Hs. revert i j. induction Hs as [|z l Hs IH Hz]; intros i j Hij Hx Hy; [done|].
  destruct j as [|j]; [lia|]. cbn in Hy. destruct i as [|i]; cbn in Hx.
  - simplify_eq. eapply Forall_forall; [exact Hz|]. by eapply list_elem_of_lookup_2.
  - apply (IH i j); [lia|done..].
Qed.

Lemma collect_map {A B} (f : nat -> option A) (g : B -> A) l i :
  (forall j x, l !! j = Some x -> f (i + j)%nat = Some (g x)) -> collect f i (length l) = Some (map g l).
Proof.
  revert i. induction l as [|x l IH]; intros i Hf; [done|]. cbn.
  pose proof (Hf 0%nat x eq_refl) as Hx. rewrite Nat.add_0_r in Hx. rewrite Hx. cbn. rewrite IH; [done|].
  intros j y Hj. rewrite <- (Hf (S j) y Hj). f_equal. lia.
Qed.

Section read.
Context (k : nat) (Hk : (k <= 3)%nat) (buf : bytes).

Lemma readNode_spec o prefix property offs tail :
  0 <= o <= zlen buf -> drop (Z.to_nat o) buf = nodeBytes k prefix property offs ++ tail ->
  zlen prefix <= MAX_STRING_SIZE -> zlen offs <= MAX_N_CHILDREN ->
  readNode buf o = Some (prefix, property, zlen offs, o + META_BYTES + zlen prefix + 1).
Proof.
  intros Ho H Hp Hn. unfold readNode. unfold nodeBytes in H.
  change MAX_STRING_SIZE with 32767 in Hp. change MAX_N_CHILDREN with 256 in Hn.
  set (meta := Z.lor (Z.shiftl (zlen prefix) 9) (zlen offs)) in *.
  pose proof (zlen_nonneg prefix). pose proof (zlen_nonneg offs).
  assert (meta = zlen prefix * 512 + zlen offs) as Hmeta.
  { subst meta. change 512 with (2 ^ 9). apply lor_shift_add; [lia|]. change (2 ^ 9) with 512. lia. }
  assert (length (pushBytes 3 meta) = 3%nat) as Hlen by apply pushBytes_length.
  pose proof (slice_at buf o [] (pushBytes 3 meta) _ Ho ltac:(rewrite H, <- !app_assoc; reflexivity)) as Hm.
  rewrite zlen_nil, Z.add_0_r, Hlen in Hm. rewrite Hm. cbn [option_bind mbind].
  pose proof (read_meta meta ltac:(change (2 ^ 24) with 16777216; lia)) as Hr.
  assert (zlen (pushBytes 3 meta) = META_BYTES) as Hz by (unfold zlen; by rewrite Hlen).
  pose proof (slice_at buf o (pushBytes 3 meta) prefix _ Ho ltac:(rewrite H, <- !app_assoc; reflexivity)) as Hs.
  pose proof (byteAt_at buf o (pushBytes 3 meta ++ prefix) property _ (proj1 Ho)
    ltac:(rewrite H, <- !app_assoc; reflexivity)) as Hb.
  rewrite zlen_app, Hz in *.
  destruct (pushBytes 3 meta) as [|a [|b [|c [|]]]]; try done. cbn [mbind option_bind]. rewrite Hr.
  assert (Z.shiftr meta 9 = zlen prefix) as ->.
  { rewrite Z.shiftr_div_pow2 by lia. change (2 ^ 9) with 512. rewrite Hmeta. Z.div_mod_to_equations. lia. }
  assert (Z.land meta 511 = zlen offs) as ->.
  { change 511 with (Z.ones 9). rewrite Z.land_ones by lia. change (2 ^ 9) with 512. rewrite Hmeta.
    Z.div_mod_to_equations. lia. }
  replace (Z.to_nat (zlen prefix)) with (length prefix) by (unfold zlen; lia).
  rewrite Hs. cbn [mbind option_bind]. rewrite Z.add_assoc in Hb. by rewrite Hb.
Qed.

(** What a node of the array says. *)
Lemma packed_read o prefix property children :
  packedAt k buf o (Tree prefix property children) -> good (Tree prefix property children) ->
  0 <= o < zlen buf /\
  exists n offset cs, readNode buf o = Some (prefix, property, n, offset) /\
    readChildren buf k offset n = Some cs /\
    map snd cs = map firstByte (sortChildren children) /\
    length cs = length (sortChildren children) /\
    (forall i o' b t, cs !! i = Some (o', b) -> sortChildren children !! i = Some t ->
       o < o' /\ packedAt k buf o' t).
Proof.
  intros Hp Hg. inversion Hp as [? ? ? ? offs tail Ho Hd Hlen Hch]; subst.
  destruct Hg as [(_ & _ & _ & Hwc)%wf_unfold (Hpf & Hcf & Hfc)%fits_unfold].
  pose proof (good_children prefix property children) as Hgc.
  assert (zlen offs = zlen children) as Hz.
  { unfold zlen. rewrite Hlen, sortChildren_perm. by rewrite length_map. }
  assert (0 <= o < zlen buf) as Hrange.
  { split; [done|]. pose proof (f_equal length Hd) as Hl. rewrite length_drop, length_app, nodeBytes_length in Hl by done.
    unfold zlen. lia. }
  split; [done|].
  set (sorted := sortChildren children) in *.
  exists (zlen offs), (o + META_BYTES + zlen prefix + 1), (zip offs (map firstByte sorted)).
  split; [eapply readNode_spec; [lia|exact Hd|done|by rewrite Hz]|].
  assert (length (zip offs (map firstByte sorted)) = length offs) as Hzl.
  { rewrite length_zip_with_l_eq; [done|]. by rewrite length_map. }
  split.
  - unfold readChildren. replace (Z.to_nat (zlen offs)) with (length (zip offs (map firstByte sorted)))
      by (rewrite Hzl; unfold zlen; lia).
    rewrite (collect_map _ id), map_id; [done|].
    intros j [o' b] Hj. cbn [Nat.add]. apply lookup_zip_Some in Hj as [Hj1 Hj2].
    rewrite list_lookup_fmap in Hj2. destruct (sorted !! j) as [t|] eqn:Et; [|done]. cbn in Hj2. simplify_eq.
    destruct (Hch j o' t Hj1 Et) as (Hlt & Hlim & Hpt). unfold readChild.
    assert (slice buf (o + META_BYTES + zlen prefix + 1 + Z.of_nat (j * k)) k = Some (pushBytes k o')) as ->.
    { rewrite <- (take_drop_middle _ _ _ Hj1) in Hd.
      set (before := take j offs) in *. set (after := drop (S j) offs) in *.
      assert (length before = j) as Hbl.
      { subst before. rewrite length_take. apply lookup_lt_Some in Hj1. lia. }
      set (a := pushBytes 3 (Z.lor (Z.shiftl (zlen prefix) 9) (zlen (before ++ o' :: after))) ++ prefix ++
                [property] ++ flat_map (pushBytes k) before).
      pose proof (slice_at buf o a (pushBytes k o') (flat_map (pushBytes k) after ++ tail) ltac:(lia)) as Hs.
      rewrite pushBytes_length in Hs.
      assert (zlen a = META_BYTES + zlen prefix + 1 + Z.of_nat (j * k)) as Ha.
      { subst a. rewrite !zlen_app. change (zlen [property]) with 1. unfold zlen. rewrite pushBytes_length.
        assert (length (flat_map (pushBytes k) before) = j * k)%nat as ->; [|unfold META_BYTES; lia].
        rewrite <- Hbl. clear. generalize before. intros l. induction l as [|x l IH]; [done|]. cbn [flat_map length].
        rewrite length_app, pushBytes_length, IH. lia. }
      rewrite Ha in Hs. rewrite <- !Z.add_assoc in *. apply Hs. rewrite Hd. unfold nodeBytes, a.
      rewrite flat_map_app. cbn [flat_map]. rewrite <- !app_assoc. done. }
    cbn [mbind option_bind]. rewrite read_push by (done || (unfold limit in Hlim; lia)).
    inversion Hpt as [? ? ? ? offs' tail' Ho' Hd' _ _]; subst.
    assert (exists b r, prefix0 = b :: r) as (b & r & ->).
    { apply list_elem_of_lookup_2 in Et. unfold sorted in Et. rewrite (sortChildren_perm children) in Et.
      apply list_elem_of_fmap in Et as ([j' u] & Heq & Hin). cbn in Heq. subst u.
      destruct (wfChildren_elem _ _ _ Hwc Hin) as [[r Hr]%keyed_spec _]. cbn in Hr. eauto. }
    unfold nodeBytes in Hd'. rewrite <- !app_assoc in Hd'.
    apply (byteAt_at _ _ (pushBytes 3 _) b) in Hd'; [|lia]. unfold zlen in Hd' at 1.
    rewrite pushBytes_length in Hd'. change (Z.of_nat 3) with META_BYTES in Hd'. rewrite Hd'. done.
  - split; [rewrite snd_zip; [done|by rewrite length_map, Hlen]|].
    split; [by rewrite Hzl|]. intros i o' b t Hi Ht. apply lookup_zip_Some in Hi as [Hi _].
    destruct (Hch i o' t Hi Ht) as (? & _ & ?). done.
Qed.

End read.

(** Binary search among the children. *)
Lemma findChild_spec children cs p :
  NoDup (map fst children) -> wfChildren children ->
  map snd cs = map firstByte (sortChildren children) -> length cs = length (sortChildren children) ->
  match childAt children p with
  | Some t => exists i o' b, cs !! i = Some (o', b) /\ sortChildren children !! i = Some t /\ findChild cs p = Some o'
  | None => findChild cs p = None
  end.
Proof.
  intros Hd Hc Hsnd Hlen. set (sorted := sortChildren children) in *.
  assert (forall t, t ∈ sorted <-> exists j, (j, t) ∈ children /\ firstByte t = j) as Hin.
  { intros t. unfold sorted. rewrite (sortChildren_perm children), list_elem_of_fmap. split.
    - intros ([j u] & -> & Hin). exists j. split; [done|]. destruct (wfChildren_elem _ _ _ Hc Hin) as [[r Hr]%keyed_spec _].
      unfold firstByte. cbn. by rewrite Hr.
    - intros (j & Hin & _). by exists (j, t). }
  assert (StronglySorted byFirstByte sorted) as Hs.
  { apply StronglySorted_merge_sort.
    - intros x y z. unfold byFirstByte. lia.
    - intros x y. unfold byFirstByte. lia. }
  assert (forall i e t, cs !! i = Some e -> sorted !! i = Some t -> snd e = firstByte t) as Hkey.
  { intros i e t He Ht. apply (f_equal (fun l => l !! i)) in Hsnd. rewrite !list_lookup_fmap, He, Ht in Hsnd.
    by simplify_eq. }
  assert (forall i e, cs !! i = Some e -> exists t, sorted !! i = Some t) as Hex.
  { intros i e He. apply lookup_lt_is_Some_2. rewrite <- Hlen. by eapply lookup_lt_Some. }
  assert (forall i j x y, (i < j)%nat -> cs !! i = Some x -> cs !! j = Some y -> snd x <= snd y) as Hmono.
  { intros i j x y Hij Hx Hy. destruct (Hex i x Hx) as [t Ht], (Hex j y Hy) as [u Hu].
    rewrite (Hkey _ _ _ Hx Ht), (Hkey _ _ _ Hy Hu).
    exact (sorted_lookup _ _ _ _ _ _ Hs Hij Ht Hu). }
  destruct (CodePointSet.lowerBound_spec (fun e : Z * Z => snd e <? p) cs) with (fuel := length cs) (first := 0%nat) (len := length cs)
    as [Hlo Hhi]; [|lia|lia|lia| |].
  { intros i j x y Hij Hx Hy Hb. zbool. apply Z.ltb_lt. pose proof (Hmono i j x y Hij Hx Hy). lia. }
  { intros x Hx. apply lookup_lt_Some in Hx. lia. }
  unfold findChild. set (r := CodePointSet.lowerBound _ _ _ _ _) in *.
  destruct (childAt children p) as [t|] eqn:Hch.
  - apply childAt_elem in Hch; [|done].
    destruct (wfChildren_elem _ _ _ Hc Hch) as [[rp Hr]%keyed_spec _].
    assert (firstByte t = p) as Hfp by (unfold firstByte; by rewrite Hr).
    assert (t ∈ sorted) as Ht by (apply Hin; eauto).
    apply list_elem_of_lookup_1 in Ht as [i Hi].
    destruct (lookup_lt_is_Some_2 cs i) as [[o' b] He]; [rewrite Hlen; by eapply lookup_lt_Some|].
    pose proof (Hkey _ _ _ He Hi) as Hb. cbn in Hb. rewrite Hfp in Hb. subst b.
    assert (r <= i)%nat as Hri.
    { destruct (decide (i < r)%nat) as [Hlt|]; [|lia]. apply (Hlo i (o', p)) in He; [|done]. cbn in He. zbool. lia. }
    destruct (lookup_lt_is_Some_2 cs r) as [[o2 b2] He2]; [apply lookup_lt_Some in He; lia|]. rewrite He2.
    pose proof (Hhi _ He2) as Hge. cbn in Hge. zbool.
    assert (b2 = p) as ->.
    { destruct (decide (r = i)) as [->|]; [by simplify_eq|]. assert (r < i)%nat as Hlt by lia.
      pose proof (Hmono _ _ _ _ Hlt He2 He) as Hle. cbn in Hle. lia. }
    destruct (Hex r _ He2) as [t2 Ht2]. pose proof (Hkey _ _ _ He2 Ht2) as Hk2. cbn in Hk2.
    assert (t2 = t) as ->.
    { assert (t2 ∈ sorted) as Hin2 by (by eapply list_elem_of_lookup_2). apply Hin in Hin2 as (j & Hj & Hj').
      rewrite <- Hk2 in Hj'. subst j. apply childAt_elem in Hj; [|done]. apply childAt_elem in Hch; [|done]. congruence. }
    exists r, o2, p. split_and!; [done..|]. by rewrite Z.eqb_refl.
  - destruct (cs !! r) as [[o' b]|] eqn:He; [|done]. destruct (Z.eqb_spec b p) as [->|]; [|done].
    exfalso. destruct (Hex r _ He) as [t Ht]. pose proof (Hkey _ _ _ He Ht) as Hb. cbn in Hb.
    assert (t ∈ sorted) as Hint by (by eapply list_elem_of_lookup_2). apply Hin in Hint as (j & Hj & Hj').
    rewrite <- Hb in Hj'. subst j. apply childAt_elem in Hj; [|done]. congruence.
Qed.

(** ** The longest match *)

(** The longest string of the tree that the text begins with. *)
Definition isLongest (t : RadixTree) (ref : bytes) (r : option (bytes * Z)) : Prop :=
  match r with
  | None => forall s rest q, ref = s ++ rest -> ~ maps t s q
  | Some (s, p) =>
      (exists rest, ref = s ++ rest) /\ maps t s p /\
      forall s' rest' q', ref = s' ++ rest' -> maps t s' q' -> (length s' <= length s)%nat
  end.

(** From the child that the search goes to, to the node. *)
Definition extendMatch (prefix : bytes) (property : Z) (r : option (bytes * Z)) : option (bytes * Z) :=
  match r with
  | Some (s, p) => Some (prefix ++ s, p)
  | None => if property =? 0 then None else Some (prefix, property)
  end.

Lemma isLongest_mismatch prefix property children ref :
  StringRef.startsWith ref prefix = false -> isLongest (Tree prefix property children) ref None.
Proof.
  intros Hs s rest q -> [s' Hs']%maps_prefix. cbn in Hs'. subst s.
  assert (StringRef.startsWith ((prefix ++ s') ++ rest) prefix = true); [|congruence].
  apply StringRef.startsWith_spec. exists (s' ++ rest). by rewrite app_assoc.
Qed.

(** The strings that fit are those of the child of the next byte, and the node's own. *)
Lemma isLongest_node prefix property children rest r :
  wf (Tree prefix property children) ->
  match rest with
  | [] => r = None
  | ch :: _ => match childAt children ch with Some t => isLongest t rest r | None => r = None end
  end ->
  isLongest (Tree prefix property children) (prefix ++ rest) (extendMatch prefix property r).
Proof.
  intros (_ & Hd & _ & Hc)%wf_unfold Hr.
  assert (forall s rest' q, prefix ++ rest = s ++ rest' -> maps (Tree prefix property children) s q ->
    (s = prefix /\ q = property /\ property <> 0) \/
    exists ch tl t s', rest = ch :: tl /\ childAt children ch = Some t /\ maps t s' q /\
      s = prefix ++ s' /\ rest = s' ++ rest') as Hcases.
  { intros s rest' q Heq Hm. apply maps_inv in Hm as [?|(j & t & s' & Hin & Hm & ->)]; [by left|right].
    rewrite <- app_assoc in Heq. apply app_inv_head in Heq.
    destruct (wfChildren_elem _ _ _ Hc Hin) as [Hk _]. destruct (keyed_maps _ _ _ _ Hk Hm) as [s2 ->].
    exists j, (s2 ++ rest'), t, (j :: s2). split_and!; try done. by apply childAt_elem. }
  destruct r as [[s p]|]; cbn [extendMatch].
  - destruct rest as [|ch tl]; [done|]. destruct (childAt children ch) as [t|] eqn:Hch; [|done].
    destruct Hr as ([rest' E] & Hm & Hmax). split; [exists rest'; by rewrite E, app_assoc|]. split.
    { econstructor; [by apply childAt_elem|done]. }
    intros s' rest2 q' Heq Hm'. rewrite length_app.
    destruct (Hcases s' rest2 q' Heq Hm') as [(-> & _)|(ch' & tl' & t' & s2 & Heq' & Hch' & Hm2 & -> & Hs)]; [lia|].
    injection Heq' as <- <-. rewrite Hch in Hch'. simplify_eq. rewrite length_app.
    enough (length s2 <= length s)%nat by lia. by apply (Hmax s2 rest2 q').
  - assert (forall s rest' q, prefix ++ rest = s ++ rest' -> maps (Tree prefix property children) s q ->
      s = prefix /\ q = property /\ property <> 0) as Honly.
    { intros s rest' q Heq Hm.
      destruct (Hcases s rest' q Heq Hm) as [?|(ch' & tl' & t' & s2 & -> & Hch' & Hm2 & -> & Hs)]; [done|].
      rewrite Hch' in Hr. exfalso. by apply (Hr s2 rest' q). }
    destruct (Z.eqb_spec property 0) as [->|Hq].
    + intros s rest' q Heq Hm. by destruct (Honly s rest' q Heq Hm) as (_ & _ & ?).
    + split; [by eexists|]. split; [by constructor|]. intros s' rest' q' Heq Hm.
      destruct (Honly s' rest' q' Heq Hm) as (-> & _). done.
Qed.

Section search.
Context (k : nat) (Hk : (k <= 3)%nat) (pt : PackedRadixTree) (Hsize : size pt = zlen (ptr pt)).

(** What the search reports: the size of the match that the children or the node found,
    or what was found before. *)
Definition report (orgSize : Z) (ref : bytes) (m l : Z) (r : option (bytes * Z)) : Z * Z :=
  match r with
  | Some (s, p) => (orgSize - zlen ref + zlen s, p)
  | None => (m, l)
  end.

Lemma matchLoop_spec fuel : forall o t ref m l orgSize,
  packedAt k (ptr pt) o t -> good t -> enough fuel t ref -> zlen ref <= orgSize ->
  (forall s q, maps t s q -> orgSize - zlen ref + zlen s <= MAX_STRING_SIZE) ->
  exists r, matchLoop fuel pt k orgSize o ref m l = Some (report orgSize ref m l r) /\ isLongest t ref r.
Proof.
  induction fuel as [|fuel IH]; intros o [prefix property children] ref m l orgSize Hp Hg He Horg Hmax;
    [unfold enough in He; lia|].
  cbn [matchLoop].
  destruct (packed_read k Hk _ _ _ _ _ Hp Hg) as (Hr & n & offset & cs & -> & Hcs & Hsnd & Hlen & Hch).
  pose proof Hg as [Hw Hf]. pose proof Hw as (Hpr & Hd & H2 & Hc)%wf_unfold.
  rewrite Hsize, (proj2 (Z.leb_gt _ _)) by lia. cbn [mbind option_bind].
  destruct (StringRef.startsWith ref prefix) eqn:Hs; cbn [negb].
  2: { exists None. split; [done|]. by apply isLongest_mismatch. }
  apply StringRef.startsWith_spec in Hs as [rest ->]. rewrite drop_app_length. cbv zeta.
  (* the match at the node *)
  set (m1 := if property =? 0 then m else u16 (orgSize - zlen rest)).
  set (l1 := if property =? 0 then l else property).
  assert ((if property =? 0 then (m, l) else (u16 (orgSize - zlen rest), property)) = (m1, l1)) as ->
    by (subst m1 l1; by (case_match)).
  assert (forall r, report orgSize rest m1 l1 r = report orgSize (prefix ++ rest) m l (extendMatch prefix property r)) as Hrep.
  { intros [[s p]|]; cbn [report extendMatch]; [f_equal; rewrite !zlen_app; lia|].
    subst m1 l1. destruct (Z.eqb_spec property 0) as [->|Hq]; [done|]. cbn [report]. f_equal.
    specialize (Hmax prefix property ltac:(by constructor)). rewrite !zlen_app in *.
    pose proof (zlen_nonneg prefix). pose proof (zlen_nonneg rest).
    change MAX_STRING_SIZE with 32767 in Hmax. rewrite wrap_small; [lia|]. unfold in_unsigned.
    change (2 ^ 16) with 65536. lia. }
  assert (forall r, match rest with
      | [] => r = None
      | ch :: _ => match childAt children ch with Some t => isLongest t rest r | None => r = None end
      end ->
    exists r', Some (report orgSize rest m1 l1 r) = Some (report orgSize (prefix ++ rest) m l r') /\
      isLongest (Tree prefix property children) (prefix ++ rest) r') as Hdone.
  { intros r H. exists (extendMatch prefix property r). rewrite Hrep. split; [done|]. by apply isLongest_node. }
  destruct rest as [|ch tl]; [by apply (Hdone None)|].
  rewrite Hcs. cbn [mbind option_bind].
  pose proof (findChild_spec children cs ch Hd Hc Hsnd Hlen) as Hfind.
  destruct (childAt children ch) as [t|] eqn:Hchild; [|rewrite Hfind; by apply (Hdone None)].
  destruct Hfind as (i & o' & b & Hi & Ht & ->). destruct (Hch i o' b t Hi Ht) as [_ Hpt].
  apply childAt_elem in Hchild as Hin; [|done]. destruct (wfChildren_elem _ _ _ Hc Hin) as [Hkey Hwt].
  assert (good t) as Hgt.
  { split; [done|]. apply fits_unfold in Hf as (_ & _ & Hf). exact (proj1 (Forall_forall _ _) Hf _ Hin). }
  assert (o' < zlen (ptr pt)) as Hlt by (destruct t; by apply (packed_read k Hk _ _ _ _ _ Hpt Hgt)).
  rewrite (proj2 (Z.leb_gt _ _)) by lia.
  destruct (IH o' t (ch :: tl) m1 l1 orgSize Hpt Hgt) as (r & -> & Hlong).
  - by eapply enough_child.
  - rewrite zlen_app in Horg. pose proof (zlen_nonneg prefix). lia.
  - intros s q Hm. specialize (Hmax (prefix ++ s) q ltac:(by econstructor)). rewrite !zlen_app in *. lia.
  - by apply Hdone.
Qed.

End search.

(** ** Iteration *)

Fixpoint height (t : RadixTree) : nat :=
  let '(Tree _ _ children) := t in
  S ((fix go (l : list (Z * RadixTree)) : nat :=
        match l with [] => O | (_, u) :: r => Nat.max (height u) (go r) end) children).

Lemma height_child prefix property children t : t ∈ map snd children ->
  (height t < height (Tree prefix property children))%nat.
Proof.
  intros Hin. cbn [height]. apply -> Nat.succ_le_mono. induction children as [|[j u] r IH]; cbn in Hin.
  - by apply elem_of_nil in Hin.
  - apply elem_of_cons in Hin as [->|Hin]; [lia|]. specialize (IH Hin). lia.
Qed.

(** The bindings in the order of the packed form: the children by their first bytes. *)
Fixpoint packedEntries (fuel : nat) (t : RadixTree) : list (bytes * Z) :=
  match fuel with
  | O => []
  | S fuel' =>
      let '(Tree prefix property children) := t in
      under prefix ((if property =? 0 then [] else [([], property)]) ++
        flat_map (packedEntries fuel') (sortChildren children))
  end.

Section walk.
Context (k : nat) (Hk : (k <= 3)%nat) (pt : PackedRadixTree) (Hsize : size pt = zlen (ptr pt)).
Context {X : Type} (walker : X -> bytes -> Z -> bool * X).

Lemma iterateAt_spec fuel : forall o t buf x,
  packedAt k (ptr pt) o t -> good t -> (height t <= fuel)%nat ->
  iterateAt walker pt k fuel buf o x = Some (runWalker walker (under buf (packedEntries fuel t)) x).
Proof.
  induction fuel as [|fuel IH]; intros o [prefix property children] buf x Hp Hg Hh; [cbn in Hh; lia|].
  cbn [iterateAt packedEntries].
  destruct (packed_read k Hk _ _ _ _ _ Hp Hg) as (Hr & n & offset & cs & -> & Hcs & Hsnd & Hlen & Hch).
  rewrite Hsize, (proj2 (Z.leb_gt _ _)) by lia. cbn [mbind option_bind].
  rewrite under_app. unfold under at 1. rewrite map_app, runWalker_app.
  set (visit := fix visit (l : list (Z * Z)) (x : X) : option (bool * X) := _).
  assert (forall x, visit cs x =
    Some (runWalker walker (under (buf ++ prefix) (flat_map (packedEntries fuel) (sortChildren children))) x)) as Hv.
  { clear x. pose proof (good_children _ _ _ Hg) as Hgc.
    assert (Forall (fun t => (height t <= fuel)%nat) (sortChildren children)) as Hhc.
    { rewrite sortChildren_perm. apply Forall_forall. intros t Ht.
      apply (height_child prefix property) in Ht. lia. }
    clear Hsnd Hcs. revert cs Hlen Hch. induction (sortChildren children) as [|t r IHr]; intros [|[o' b] cs] Hlen Hch x; try done.
    apply Forall_cons in Hgc as [Hgt Hgc]. apply Forall_cons in Hhc as [Hht Hhc].
    destruct (Hch 0%nat o' b t eq_refl eq_refl) as [_ Hpt].
    cbn [visit flat_map]. rewrite (IH o' t _ _ Hpt Hgt Hht). cbn [mbind option_bind].
    unfold under. rewrite map_app, runWalker_app. fold (under (buf ++ prefix)).
    destruct (runWalker walker _ x) as [[] x']; [|done]. fold visit. apply IHr; [done|done|cbn in Hlen; lia|].
    intros i o2 b2 t2 H1 H2. by apply (Hch (S i) o2 b2 t2). }
  destruct (property =? 0); cbn [map runWalker]; [by rewrite Hcs; cbn [mbind option_bind]; rewrite Hv|].
  cbn [fst snd]. rewrite app_nil_r. cbn [mbind option_bind].
  destruct (walker x (buf ++ prefix) property) as [[] x']; [|done]. rewrite Hcs. cbn [mbind option_bind]. by rewrite Hv.
Qed.
End walk.


(** ** The order of the iteration *)

(** The order of byte strings. *)
Fixpoint lexLt (x y : bytes) : Prop :=
  match x, y with
  | _, [] => False
  | [], _ :: _ => True
  | a :: x', b :: y' => a < b \/ (a = b /\ lexLt x' y')
  end.

Definition entryLt (x y : bytes * Z) : Prop := lexLt (fst x) (fst y).

Lemma lexLt_app a x y : lexLt (a ++ x) (a ++ y) <-> lexLt x y.
Proof. induction a as [|c a IH]; [done|]. cbn. rewrite IH. split; [intros [?|[_ ?]]; [lia|done]|auto]. Qed.

Lemma under_sorted a l : StronglySorted entryLt l -> StronglySorted entryLt (under a l).
Proof.
  unfold under. induction 1 as [|x l Hs IH Hx]; cbn; constructor; [done|].
  apply Forall_map. eapply Forall_impl; [exact Hx|]. intros y. unfold entryLt. cbn. by rewrite lexLt_app.
Qed.

Lemma flat_map_perm {A B} (f g : A -> list B) l k :
  l ≡ₚ k -> Forall (fun x => f x ≡ₚ g x) l -> flat_map f l ≡ₚ flat_map g k.
Proof.
  intros HP Hf. rewrite <- HP. clear k HP. induction Hf as [|x l Hx _ IH]; [done|]. cbn. by rewrite Hx, IH.
Qed.

Lemma packedEntries_perm fuel : forall t, (height t <= fuel)%nat -> packedEntries fuel t ≡ₚ entries t.
Proof.
  induction fuel as [|fuel IH]; intros [prefix property children] Hh; [cbn in Hh; lia|].
  rewrite entries_unfold. cbn [packedEntries]. unfold under. apply Permutation_map, Permutation_app; [done|].
  unfold childEntries.
  assert (flat_map (fun e : Z * RadixTree => entries (snd e)) children = flat_map entries (map snd children)) as ->
    by (clear; induction children as [|e r IHr]; cbn; congruence).
  apply flat_map_perm; [apply sortChildren_perm|].
  apply Forall_forall. intros t Ht. apply IH. rewrite (sortChildren_perm children) in Ht.
  apply (height_child prefix property) in Ht. lia.
Qed.

Lemma packedEntries_sorted fuel : forall t, wf t -> (height t <= fuel)%nat ->
  StronglySorted entryLt (packedEntries fuel t).
Proof.
  induction fuel as [|fuel IH]; intros [prefix property children] Hw Hh; [cbn in Hh; lia|].
  pose proof Hw as (_ & Hd & _ & Hc)%wf_unfold. cbn [packedEntries]. apply under_sorted.
  assert (forall t, t ∈ sortChildren children -> exists j, (j, t) ∈ children /\ keyed j t /\ wf t /\
    (height t <= fuel)%nat /\ firstByte t = j) as Hin.
  { intros t Ht. rewrite (sortChildren_perm children) in Ht.
    pose proof (height_child prefix property _ _ Ht). apply list_elem_of_fmap in Ht as ([j u] & -> & Hin). cbn in *.
    destruct (wfChildren_elem _ _ _ Hc Hin) as [Hk Hwu]. exists j. split_and!; try done; [lia|].
    apply keyed_spec in Hk as [r Hr]. unfold firstByte. by rewrite Hr. }
  assert (forall t x, t ∈ sortChildren children -> x ∈ packedEntries fuel t ->
    exists r, fst x = firstByte t :: r) as Hfirst.
  { intros t [s q] Ht Hx. destruct (Hin t Ht) as (j & _ & Hk & _ & Hh' & <-).
    rewrite packedEntries_perm in Hx by done. apply entries_maps in Hx.
    destruct (keyed_maps _ _ _ _ Hk Hx) as [r ->]. by exists r. }
  assert (StronglySorted entryLt (flat_map (packedEntries fuel) (sortChildren children))) as Hs.
  { assert (StronglySorted (fun t u => firstByte t < firstByte u) (sortChildren children)) as Hss.
    { assert (StronglySorted byFirstByte (sortChildren children)) as H0.
      { apply StronglySorted_merge_sort; [intros x y z|intros x y]; unfold byFirstByte; lia. }
      assert (NoDup (map firstByte (sortChildren children))) as Hnd.
      { rewrite (sortChildren_perm children).
        assert (map firstByte (map snd children) = map fst children) as ->; [|done].
        rewrite map_map. apply map_ext_in. intros [j u] Hju. rewrite <- list_elem_of_In in Hju.
        destruct (wfChildren_elem _ _ _ Hc Hju) as [[r Hr]%keyed_spec _]. unfold firstByte. cbn. by rewrite Hr. }
      clear Hin Hfirst. induction H0 as [|t l H0 IHs Ht]; [constructor|]. cbn in Hnd. apply NoDup_cons in Hnd as [Hn Hnd].
      constructor; [auto|]. apply Forall_forall. intros u Hu.
      pose proof (proj1 (Forall_forall _ _) Ht u Hu) as Hle. unfold byFirstByte in Hle.
      enough (firstByte t <> firstByte u) by lia. intros Heq. apply Hn. rewrite Heq. apply list_elem_of_fmap. eauto. }
    induction (sortChildren children) as [|t l IHl]; [constructor|]. cbn [flat_map].
    apply StronglySorted_inv in Hss as [Hss Ht]. apply StronglySorted_app. split; [|split].
    - intros x y Hx Hy. rewrite list_elem_of_In, in_flat_map in Hy. destruct Hy as (u & Hu & Hy).
      rewrite <- list_elem_of_In in Hu. rewrite <- list_elem_of_In in Hy.
      destruct (Hfirst t x) as [r1 E1]; [by left|done|].
      destruct (Hfirst u y) as [r2 E2]; [by right|done|]. unfold entryLt. rewrite E1, E2. left.
      exact (proj1 (Forall_forall _ _) Ht u Hu).
    - destruct (Hin t) as (j & _ & _ & Hwt & Hht & _); [by left|]. by apply IH.
    - apply IHl; [intros u Hu; apply Hin; by right|intros u x Hu; apply Hfirst; by right|done]. }
  destruct (property =? 0); [done|]. cbn [app]. constructor; [done|]. apply Forall_forall. intros [s q] Hx.
  rewrite list_elem_of_In, in_flat_map in Hx. destruct Hx as (t & Ht & Hx).
  rewrite <- list_elem_of_In in Ht. rewrite <- list_elem_of_In in Hx.
  destruct (Hfirst t _ Ht Hx) as [r Hr]. cbn in Hr. unfold entryLt. cbn. by rewrite Hr.
Qed.

(** Every level of a packed tree is further on in the array. *)
Lemma packed_height k (Hk : (k <= 3)%nat) buf fuel : forall o t,
  (Z.to_nat (zlen buf - o) <= fuel)%nat -> packedAt k buf o t -> good t -> Z.of_nat (height t) + o <= zlen buf.
Proof.
  induction fuel as [|fuel IH]; intros o [prefix property children] Hf Hp Hg;
    destruct (packed_read k Hk _ _ _ _ _ Hp Hg) as (Hr & n & offset & cs & _ & _ & _ & Hlen & Hch); [lia|].
  pose proof (good_children _ _ _ Hg) as Hgc.
  assert (forall t, t ∈ map snd children -> Z.of_nat (height t) + o + 1 <= zlen buf) as Hall.
  { intros t Ht. rewrite <- (sortChildren_perm children) in Ht.
    pose proof (proj1 (Forall_forall _ _) Hgc t Ht) as Hgt.
    apply list_elem_of_lookup_1 in Ht as [i Hi].
    destruct (lookup_lt_is_Some_2 cs i) as [[o' b] He]; [rewrite Hlen; by eapply lookup_lt_Some|].
    destruct (Hch i o' b t He Hi) as [Hlt Hpt]. specialize (IH o' t ltac:(lia) Hpt Hgt). lia. }
  cbn [height]. clear -Hall Hr. induction children as [|[j u] r IHr]; [lia|].
  pose proof (Hall u ltac:(by left)). specialize (IHr ltac:(intros t Ht; apply Hall; by right)). lia.
Qed.

(** ** The whole *)

(** Serialization yields an array that holds the tree. *)
Definition packs (t : RadixTree) (buf : bytes) : Prop :=
  exists k, (k <= 3)%nat /\ byteAt buf 0 = Some (Z.of_nat k) /\ zlen buf <= limit k + 33600 /\ packedAt k buf 1 t.

Lemma serializeWith_spec k t : (1 <= k <= 3)%nat -> good t ->
  exists ok buf, serializeWith k t = Some (ok, buf) /\ (ok = true -> packs t buf) /\
    (1 + Z.of_nat (totalSize k t) <= limit k -> ok = true).
Proof.
  intros Hk Hg. unfold serializeWith.
  destruct (serializeLoop_spec k ltac:(lia) (S (nodeCount t)) [(t, 1)] [Z.of_nat k]) as (ok & buf & -> & Hok & Hfit).
  - by apply Forall_singleton.
  - cbn [chain]. split; [done|]. split; [|done]. unfold limit. apply (Z.pow_gt_1 2); lia.
  - cbn. lia.
  - exists ok, buf. split; [done|]. split.
    + intros E. destruct (Hok E) as ([rest ->] & Hsz & Hall). exists k. split; [lia|]. split; [done|].
      split; [apply Hsz; unfold limit; pose proof (Z.pow_nonneg 2 (8 * Z.of_nat k)); unfold zlen; cbn [length]; lia|].
      apply Hall. by left.
    + intros H. apply Hfit. cbn. unfold zlen. cbn. lia.
Qed.

Lemma serialize_spec t : good t -> 1 + Z.of_nat (totalSize 3 t) <= 2 ^ 24 ->
  exists buf, serialize t = Some (true, buf) /\ packs t buf.
Proof.
  intros Hg Hfit. unfold serialize.
  destruct (serializeWith_spec 2 t ltac:(lia) Hg) as (ok & buf & -> & Hp & _). cbn [mbind option_bind fst].
  destruct ok; [eauto|].
  destruct (serializeWith_spec 3 t ltac:(lia) Hg) as (ok & buf' & -> & Hp' & Hfit').
  assert (ok = true) as -> by (apply Hfit'; done). eauto.
Qed.

(** The strings of the tree are byte strings that [add] accepts, and the packed form is
    at most 16 megabytes. *)
Definition packable (t : RadixTree) : Prop :=
  wf t /\ (forall s q, maps t s q -> Forall is_byte s /\ zlen s <= MAX_STRING_SIZE) /\
  1 + Z.of_nat (totalSize 3 t) <= 2 ^ 24.

(** What [serialize] wrote, for any size. *)
Lemma serialize_packs t buf : good t -> serialize t = Some (true, buf) -> packs t buf.
Proof.
  intros Hg E. unfold serialize in E.
  destruct (serializeWith_spec 2 t ltac:(lia) Hg) as (ok & b & Eb & Hp & _). rewrite Eb in E. cbn [mbind option_bind fst] in E.
  destruct ok; [injection E as <-; by apply Hp|].
  destruct (serializeWith_spec 3 t ltac:(lia) Hg) as (ok & b' & Eb' & Hp' & _). rewrite Eb' in E.
  injection E as -> ->. by apply Hp'.
Qed.

Lemma packs_size t buf : packs t buf -> zlen buf <= UINT32_MAX.
Proof. intros (k & Hk & _ & Hsz & _). pose proof (limit_bound k Hk). unfold UINT32_MAX. lia. Qed.

Lemma packs_longest n t buf ref : good t -> (forall s q, maps t s q -> zlen s <= MAX_STRING_SIZE) -> packs t buf ->
  exists r, findLongestMatched (ofBuffer n buf) ref = Some (match r with Some (s, p) => (zlen s, p) | None => (0, 0) end) /\
    isLongest t ref r.
Proof.
  intros Hg Hm (k & Hk & Hb & _ & Hp).
  destruct (matchLoop_spec k Hk (ofBuffer n buf) eq_refl (2 + length ref) 1 t ref 0 0 (zlen ref) Hp Hg) as (r & Er & Hl).
  - unfold enough. destruct (getPrefix t); lia.
  - lia.
  - intros s q Hs. apply Hm in Hs. lia.
  - exists r. split; [|done]. unfold findLongestMatched. cbn [ofBuffer ptr]. rewrite Hb. cbn [mbind option_bind].
    rewrite Nat2Z.id, Er. unfold report. destruct r as [[s p]|]; [|done]. do 2 f_equal. lia.
Qed.

Lemma packs_iterate {X} (walker : X -> bytes -> Z -> bool * X) n t buf x : good t -> packs t buf ->
  exists l, iteratePacked walker (ofBuffer n buf) x = Some (snd (runWalker walker l x)) /\
    StronglySorted entryLt l /\ forall s q, (s, q) ∈ l <-> maps t s q.
Proof.
  intros Hg (k & Hk & Hb & _ & Hp). pose proof Hg as [Hw _].
  assert (height t <= S (Z.to_nat (zlen buf)))%nat as Hh.
  { pose proof (packed_height k Hk buf _ 1 t (Nat.le_refl _) Hp Hg). lia. }
  exists (packedEntries (S (Z.to_nat (zlen buf))) t). split.
  - unfold iteratePacked. cbn [ofBuffer ptr size]. rewrite Hb. cbn [mbind option_bind]. rewrite Nat2Z.id.
    change (zlen buf) with (size (ofBuffer n buf)) at 1.
    rewrite (iterateAt_spec k Hk (ofBuffer n buf) eq_refl _ _ 1 t [] x Hp Hg Hh). by rewrite under_nil.
  - split; [by apply packedEntries_sorted|]. intros s q. rewrite packedEntries_perm by done. apply entries_maps.
Qed.

(** The longest string that is the whole text decides [find]. *)
Lemma longest_find t ref r q : wf t -> isLongest t ref r -> find t ref = Some q ->
  match r with Some (s, p) => if zlen ref =? zlen s then p else 0 | None => 0 end = q.
Proof.
  intros Hw Hl E. destruct (radix_find_spec t ref Hw) as (q' & Eq & Hq & Hq'). rewrite E in Eq. injection Eq as <-.
  destruct r as [[s p]|].
  - destruct Hl as ([rest ->] & Hs & Hmax). destruct (Z.eqb_spec (zlen (s ++ rest)) (zlen s)) as [Heq|Hne].
    + rewrite zlen_app in Heq. assert (rest = []) as -> by (destruct rest; [done|unfold zlen in Heq; cbn in Heq; lia]).
      rewrite app_nil_r in *. by rewrite (Hq' p Hs).
    + destruct (Z.eq_dec q 0) as [->|Hnz]; [done|]. specialize (Hq Hnz).
      pose proof (Hmax (s ++ rest) [] q ltac:(by rewrite app_nil_r) Hq) as Hlen.
      rewrite length_app in Hlen. rewrite zlen_app in Hne. unfold zlen in Hne. lia.
  - destruct (Z.eq_dec q 0) as [->|Hnz]; [done|]. exfalso. apply (Hl ref [] q); [by rewrite app_nil_r|auto].
Qed.


(** A property of the state that the walker keeps, whatever the array holds. *)
Lemma iteratePacked_keeps {X} (P : X -> Prop) (walker : X -> bytes -> Z -> bool * X) t x y :
  (forall x s q, P x -> P (snd (walker x s q))) -> P x -> iteratePacked walker t x = Some y -> P y.
Proof.
  intros Hw Hx. unfold iteratePacked. destruct (byteAt (ptr t) 0) as [k|]; [|done]. cbn [mbind option_bind].
  assert (forall fuel buf o x r, P x -> iterateAt walker t (Z.to_nat k) fuel buf o x = Some r -> P (snd r)) as Hall.
  2: { destruct (iterateAt _ _ _ _ _ _ _) as [r|] eqn:E; [|done]. cbn. intros [= <-]. by eapply Hall. }
  clear x y Hx. induction fuel as [|fuel IH]; intros buf o x r Hx; cbn [iterateAt]; [done|].
  case_match; [by intros [= <-]|]. destruct (readNode _ _) as [[[[prefix property] n] offset]|]; [|done].
  cbn [mbind option_bind].
  assert (forall c, (if property =? 0 then Some (true, x) else Some (walker x (buf ++ prefix) property)) = Some c -> P (snd c)) as Hc.
  { intros c. case_match; intros [= <-]; [done|]. by apply Hw. }
  destruct (if property =? 0 then _ else _) as [[continue x1]|]; [|done]. specialize (Hc _ eq_refl). cbn [snd mbind option_bind] in *.
  destruct continue; [|by intros [= <-]]. destruct (readChildren _ _ _ _) as [children|]; [|done]. cbn [mbind option_bind].
  revert x1 Hc. induction children as [|[co b] children IHc]; intros x1 Hc; [by intros [= <-]|].
  destruct (iterateAt _ _ _ _ _ _ _) as [[continue x2]|] eqn:E; [|done]. cbn [mbind option_bind].
  pose proof (IH _ _ _ _ Hc E) as H2. destruct continue; [by apply IHc|by intros [= <-]].
Qed.

(** Iterating over the array visits exactly the bindings of the tree, in the
    order of the strings. *)
Theorem packed_iterate_sorted t n :
  packable t ->
  exists buf l, serialize t = Some (true, buf) /\
    iteratePacked (fun l s q => (true, l ++ [(s, q)])) (ofBuffer n buf) [] = Some l /\
    StronglySorted entryLt l /\ forall s q, (s, q) ∈ l <-> maps t s q.
Proof.
  intros (Hw & Hm & Hfit). pose proof (conj Hw (fits_of_maps t Hw Hm) : good t) as Hg.
  destruct (serialize_spec t Hg Hfit) as (buf & E & Hp). exists buf.
  destruct (packs_iterate (fun l s q => (true, l ++ [(s, q)])) n t buf [] Hg Hp) as (l & El & Hl).
  exists l. split; [done|]. split; [|done]. rewrite El.
  assert (forall a k, runWalker (fun l s q => (true, l ++ [(s, q)])) a k = (true, k ++ a)) as ->; [|done].
  clear. induction a as [|[s q] a IH]; intros k'; cbn; [by rewrite app_nil_r|]. by rewrite IH, <- app_assoc.
Qed.

Definition exampleTree : RadixTree :=
  Tree [] 0 [(120, Tree [120] 8 []); (97, Tree [97; 98] 4 [(99, Tree [99] 1 []); (100, Tree [100] 2 [])])].

Lemma exampleTree_packable : packable exampleTree.
Proof.
  assert (wf exampleTree) as Hw.
  { cbn [wf exampleTree]. unfold keyed, UINT8_MAX. cbn [getPrefix head length].
    repeat match goal with |- _ /\ _ => split end;
      solve [done|lia|(intros _; left; lia)|(apply (bool_decide_unpack _); vm_compute; exact I)]. }
  split; [done|]. split; [|vm_compute; discriminate].
  intros s q Hm. apply entries_maps in Hm. vm_compute in Hm.
  repeat (apply elem_of_cons in Hm as [Hm|Hm]; [simplify_eq; split; [repeat constructor; done|vm_compute; discriminate]|]).
  by apply elem_of_nil in Hm.
Qed.


Example packed_bytes :
  (r ← serialize exampleTree; findLongestMatched (ofBuffer 4 (snd r)) (lit "abdz")) = Some (3, 2).
Proof. reflexivity. Qed.

Lemma packed_iterate_sorted_witness :
  exists buf l, serialize exampleTree = Some (true, buf) /\
    iteratePacked (fun l s q => (true, l ++ [(s, q)])) (ofBuffer 4 buf) [] = Some l /\
    StronglySorted entryLt l /\ forall s q, (s, q) ∈ l <-> maps exampleTree s q.
Proof. exact (packed_iterate_sorted exampleTree 4 exampleTree_packable). Defined.

End RadixPacked.
