(* ===== verification/RegexMatcher.v ===== *)
(** Character tests of the regular expression engine (src/regex/matcher.h):
    line terminators, word characters, AsciiSet, and the packed Matcher, with
    tryToGenerateAsciiSet of src/regex/emit.cpp. *)
From stdpp Require Import list_numbers.
From S2P Require Import Prelude Unicode CodePointSet RadixPacked.

Module RegexMatcher.
Import CodePointSet.

Definition isLineTerminator (c : Z) : bool :=
  (c =? 10) || (c =? 13) || (c =? 0x2028) || (c =? 0x2029).

(** The Unicode tables, which are generated at build time: case folding and its
    inverse, the two lone properties the engine asks for, and the packed trie of the
    emoji sequences. *)
Class Ucd := {
  doSimpleCaseFolding : Z -> Z;
  doSimpleCaseUnfold : Z -> list Z;
  isExtendWord : Z -> bool;
  isRegexSpace : Z -> bool;
  getEmojiTrie : RadixPacked.PackedRadixTree
}.

(** What the engine relies on: the unfolding of a code point lists the others that
    fold to it, and folding maps code points to code points. *)
Class UcdLaws `{Ucd} : Prop := {
  unfold_folding : forall c d, doSimpleCaseFolding d = c -> d = c \/ d ∈ doSimpleCaseUnfold c;
  fold_codePoint : forall c, UnicodeUtil.isCodePoint c = true -> UnicodeUtil.isCodePoint (doSimpleCaseFolding c) = true
}.

(** RGIEmojiSeq: no sequences, and the flag that is not a set of sequences. *)
Definition emojiNone : Z := 0.
Definition CASE_IGNORE : Z := 128.

Definition hasEmoji (emoji : Z) : bool := negb (unsetFlag emoji CASE_IGNORE =? 0).

Definition isWord (c : Z) : bool :=
  ((65 <=? c) && (c <=? 90)) || ((97 <=? c) && (c <=? 122)) ||
  ((48 <=? c) && (c <=? 57)) || (c =? 95).

(** ** AsciiSet: two 64-bit words *)

Record AsciiSet := { set0 : Z; set1 : Z }.

Definition ASCII_MIN : Z := 0.
Definition ASCII_MAX : Z := 127.

Definition asciiBit (c : Z) : Z := u64 (Z.shiftl 1 (u32 c mod 64)).

Definition asciiAdd (s : AsciiSet) (c : Z) : AsciiSet :=
  if (c <=? ASCII_MAX) && (ASCII_MIN <=? c) then
    if u32 c / 64 =? 0
    then {| set0 := setFlag (set0 s) (asciiBit c); set1 := set1 s |}
    else {| set0 := set0 s; set1 := setFlag (set1 s) (asciiBit c) |}
  else s.

Definition asciiContains (s : AsciiSet) (c : Z) : bool :=
  if (c <=? ASCII_MAX) && (ASCII_MIN <=? c) then
    hasFlag (if u32 c / 64 =? 0 then set0 s else set1 s) (asciiBit c)
  else false.

(** ** Matcher: a tagged 64-bit word and a pointer or a second word *)

Inductive MatcherType :=
  ASCII | OWNED_CODE_POINT_SET | BORROWED_CODE_POINT_SET | RADIX_TREE | STRING.

Definition typeTag (t : MatcherType) : Z :=
  match t with
  | ASCII => 0 | OWNED_CODE_POINT_SET => 1 | BORROWED_CODE_POINT_SET => 2
  | RADIX_TREE => 3 | STRING => 4
  end.

(** The union: [second], [ptr], [radix] or [str]. *)
Inductive Payload :=
| Second (v : Z)
| Ptr (p : list Z)
| Radix (r : bytes)
| Str (s : bytes).

Record Matcher := { first : Z; payload : Payload }.

Definition withinAsciiSet (c : Z) : bool := (8 <=? c) && (c <=? 127).

Definition ofCodePointSet (owned : bool) (s : CodePointSetRef) : Matcher := {|
  first := Z.lor (Z.lor (Z.lor (u64 (Z.shiftl (bmpSize s) 48))
                               (u64 (Z.shiftl (packedNonBmpSize s) 32)))
                        (u64 (Z.shiftl (size s) 8)))
                 (typeTag (if owned then OWNED_CODE_POINT_SET else BORROWED_CODE_POINT_SET));
  payload := Ptr (ptr s)
|}.

Definition ofAsciiSet (s : AsciiSet) : Matcher := {|
  first := Z.lor (Z.land (set0 s) (Z.lxor UINT64_MAX 0xFF)) (typeTag ASCII);
  payload := Second (set1 s)
|}.

Definition ofRadix (radixBuf : bytes) (longestStringSize : Z) : Matcher := {|
  first := Z.lor (Z.lor (u64 (Z.shiftl (zlen radixBuf) 32)) (u64 (Z.shiftl longestStringSize 16)))
                 (typeTag RADIX_TREE);
  payload := Radix radixBuf
|}.

Definition ofBytes (s : bytes) : Matcher := {|
  first := Z.lor (u64 (Z.shiftl (zlen s) 32)) (typeTag STRING);
  payload := Str s
|}.

Definition tag (m : Matcher) : Z := Z.land (first m) 0xFF.
Definition getBMPSize (m : Matcher) : Z := u16 (Z.shiftr (first m) 48).
Definition getPackedBMPSize (m : Matcher) : Z := u16 (Z.land (Z.shiftr (first m) 32) 0xFFFF).
Definition getSize (m : Matcher) : Z := u32 (Z.land (Z.shiftr (first m) 8) 0xFFFFFF).
Definition getLongestStringSize (m : Matcher) : Z := u16 (Z.land (Z.shiftr (first m) 16) 0xFFFF).
Definition getRadixSize (m : Matcher) : Z := u32 (Z.shiftr (first m) 32).

Definition asCodePointSetRef (m : Matcher) : CodePointSetRef := {|
  bmpSize := getBMPSize m;
  packedNonBmpSize := getPackedBMPSize m;
  ptr := match payload m with Ptr p => p | _ => [] end;
  size := getSize m
|}.

Definition asAsciiSet (m : Matcher) : AsciiSet := {|
  set0 := first m;
  set1 := match payload m with Second v => v | _ => 0 end
|}.

Definition asRadixTree (m : Matcher) : RadixPacked.PackedRadixTree := {|
  RadixPacked.ptr := match payload m with Radix r => r | _ => [] end;
  RadixPacked.getMaxCodePointCount := getLongestStringSize m;
  RadixPacked.size := getRadixSize m
|}.

Definition asStrRef (m : Matcher) : bytes :=
  take (Z.to_nat (getRadixSize m)) (match payload m with Str s => s | _ => [] end).

Definition matcherContains (m : Matcher) (c : Z) : bool :=
  if tag m =? typeTag ASCII then asciiContains (asAsciiSet m) c
  else contains (asCodePointSetRef m) c.

(** ** tryToGenerateAsciiSet of the code generator *)

Fixpoint addRanges (ranges : list Z) (set : AsciiSet) : option AsciiSet :=
  match ranges with
  | [] => Some set
  | e :: rest =>
      if withinAsciiSet (firstBMP e) && withinAsciiSet (lastBMP e)
      then addRanges rest (fold_left asciiAdd (seqZ (firstBMP e) (lastBMP e - firstBMP e + 1)) set)
      else None
  end.

Definition tryToGenerateAsciiSet (r : CodePointSetRef) : option AsciiSet :=
  if negb (size r =? bmpSize r) then None
  else addRanges (getBMPRanges r) {| set0 := 0; set1 := 0 |}.

(** * Properties *)

(** The bit a code point occupies. *)
Definition asciiTest (s : AsciiSet) (c : Z) : bool :=
  Z.testbit (if c <? 64 then set0 s else set1 s) (c mod 64).

Lemma asciiBit_shift c : 0 <= c <= 127 -> asciiBit c = Z.shiftl 1 (c mod 64).
Proof.
  intros. unfold asciiBit. rewrite (wrap_small 32) by (unfold in_unsigned; change (2 ^ 32) with 4294967296; lia).
  rewrite Z.shiftl_1_l. apply wrap_small.
  pose proof (Z.mod_pos_bound c 64 ltac:(lia)). unfold in_unsigned.
  assert (0 < 2 ^ (c mod 64)) by lia. assert (2 ^ (c mod 64) < 2 ^ 64) by (apply Z.pow_lt_mono_r; lia). lia.
Qed.

Lemma asciiContains_test s c : asciiContains s c = (0 <=? c) && (c <=? 127) && asciiTest s c.
Proof.
  unfold asciiContains, asciiTest, ASCII_MIN, ASCII_MAX.
  destruct (Z.leb_spec 0 c), (Z.leb_spec c 127); try done. cbn [andb].
  rewrite asciiBit_shift, hasFlag_bit by (try lia; apply Z.mod_pos_bound; lia).
  rewrite (wrap_small 32) by (unfold in_unsigned; change (2 ^ 32) with 4294967296; lia).
  destruct (Z.ltb_spec c 64); [rewrite Z.div_small by lia; done|].
  destruct (Z.eqb_spec (c / 64) 0); [|done].
  apply Z.div_small_iff in e; lia.
Qed.

Lemma asciiTest_add s c d :
  0 <= c <= 127 -> 0 <= d <= 127 -> asciiTest (asciiAdd s c) d = asciiTest s d || (c =? d).
Proof.
  intros Hc Hd. unfold asciiAdd, asciiTest, ASCII_MIN, ASCII_MAX.
  destruct (Z.leb_spec 0 c), (Z.leb_spec c 127); try lia. cbn [andb].
  rewrite asciiBit_shift by lia.
  rewrite (wrap_small 32) by (unfold in_unsigned; change (2 ^ 32) with 4294967296; lia).
  pose proof (Z.mod_pos_bound c 64 ltac:(lia)). pose proof (Z.mod_pos_bound d 64 ltac:(lia)).
  assert (Hcd : forall x, x = 64 * (x / 64) + x mod 64) by (intros; apply Z.div_mod; lia).
  pose proof (Hcd c). pose proof (Hcd d).
  destruct (Z.eqb_spec (c / 64) 0), (Z.ltb_spec d 64); simpl.
  - rewrite setFlag_bit by lia. f_equal.
    assert (d / 64 = 0) by (apply Z.div_small; lia).
    destruct (Z.eqb_spec (c mod 64) (d mod 64)), (Z.eqb_spec c d); congruence || lia.
  - destruct (Z.eqb_spec c d); [|by rewrite orb_false_r]. lia.
  - assert (d / 64 = 0) by (apply Z.div_small; lia).
    destruct (Z.eqb_spec c d); [congruence|by rewrite orb_false_r].
  - rewrite setFlag_bit by lia. f_equal.
    assert (c / 64 = 1 /\ d / 64 = 1) as [] by lia.
    destruct (Z.eqb_spec (c mod 64) (d mod 64)), (Z.eqb_spec c d); congruence || lia.
Qed.


(** Sizes that fit the fields of the packed word; the code relies on it. *)
Definition fits (s : CodePointSetRef) : Prop :=
  in_unsigned 16 (bmpSize s) /\ in_unsigned 16 (packedNonBmpSize s) /\ in_unsigned 24 (size s).

Lemma word_of_set owned s : fits s ->
  first (ofCodePointSet owned s) =
    bmpSize s * 2 ^ 48 + packedNonBmpSize s * 2 ^ 32 + size s * 2 ^ 8 +
    typeTag (if owned then OWNED_CODE_POINT_SET else BORROWED_CODE_POINT_SET).
Proof.
  unfold fits, in_unsigned. intros (Hb & Hp & Hs). simpl.
  change (2 ^ 16) with 65536 in *. change (2 ^ 24) with 16777216 in *.
  assert (0 <= typeTag (if owned then OWNED_CODE_POINT_SET else BORROWED_CODE_POINT_SET) < 2 ^ 8)
    as Ht by (destruct owned; simpl; lia).
  set (t := typeTag _) in *. change (2 ^ 8) with 256 in *.
  rewrite !wrap_small by (unfold in_unsigned; rewrite Z.shiftl_mul_pow2 by lia;
    change (2 ^ 48) with 281474976710656; change (2 ^ 32) with 4294967296;
    change (2 ^ 8) with 256; change (2 ^ 64) with 18446744073709551616; lia).
  rewrite <- !Z.lor_assoc.
  change (2 ^ 8) with 256.
  rewrite (lor_shift_add (size s) 8 t) by (change (2 ^ 8) with 256; lia). change (2 ^ 8) with 256.
  rewrite (lor_shift_add (packedNonBmpSize s) 32) by (change (2 ^ 32) with 4294967296; lia).
  change (2 ^ 32) with 4294967296.
  rewrite (lor_shift_add (bmpSize s) 48) by (change (2 ^ 48) with 281474976710656; lia). lia.
Qed.

Ltac Zify.zify_post_hook ::= Z.to_euclidean_division_equations.

Lemma matcher_fields owned s : fits s ->
  let m := ofCodePointSet owned s in
  tag m <> typeTag ASCII /\ asCodePointSetRef m = s.
Proof.
  intros Hf m. pose proof (word_of_set owned s Hf) as Hw. fold m in Hw.
  destruct Hf as (Hb & Hp & Hs). unfold in_unsigned in *.
  change (2 ^ 48) with 281474976710656 in *. change (2 ^ 32) with 4294967296 in *.
  change (2 ^ 8) with 256 in *. change (2 ^ 16) with 65536 in *. change (2 ^ 24) with 16777216 in *.
  assert (1 <= typeTag (if owned then OWNED_CODE_POINT_SET else BORROWED_CODE_POINT_SET) <= 2)
    as Ht by (destruct owned; simpl; lia).
  set (t := typeTag _) in *.
  assert (H1 : forall x, Z.land x 0xFF = x mod 256) by (intros; by apply (Z.land_ones x 8)).
  assert (H2 : forall x, Z.land x 0xFFFF = x mod 65536) by (intros; by apply (Z.land_ones x 16)).
  assert (H3 : forall x, Z.land x 0xFFFFFF = x mod 16777216) by (intros; by apply (Z.land_ones x 24)).
  split.
  - unfold tag. rewrite H1, Hw. simpl typeTag at 1. lia.
  - unfold asCodePointSetRef, getBMPSize, getPackedBMPSize, getSize.
    rewrite H2, H3, Hw, !Z.shiftr_div_pow2 by lia. unfold wrap.
    change (2 ^ 48) with 281474976710656. change (2 ^ 32) with 4294967296.
    change (2 ^ 8) with 256. change (2 ^ 16) with 65536.
    destruct s as [p b k n]. simpl in *. f_equal; lia.
Qed.

Ltac Zify.zify_post_hook ::= idtac.

Lemma matcherContains_set owned s c :
  fits s -> matcherContains (ofCodePointSet owned s) c = contains s c.
Proof.
  intros Hf. destruct (matcher_fields owned s Hf) as [Ht Hr].
  unfold matcherContains. destruct (Z.eqb_spec (tag (ofCodePointSet owned s)) (typeTag ASCII)); [done|].
  by rewrite Hr.
Qed.

(** Packing a code point set into a Matcher word is transparent. *)
Theorem matcher_of_set owned s c :
  fits s -> matcherContains (ofCodePointSet owned s) c = contains s c.
Proof. apply matcherContains_set. Qed.

Lemma sampleSet_fits : fits sampleSet.
Proof. split; [|split]; split; (reflexivity || (vm_compute; discriminate)). Qed.

Lemma matcher_of_set_witness :
  contains sampleSet 0x10001 = true /\
  matcherContains (ofCodePointSet true sampleSet) 0x10001 = contains sampleSet 0x10001.
Proof. split; [reflexivity|]. apply (matcher_of_set true sampleSet 0x10001 sampleSet_fits). Defined.

Lemma asciiTest_fold l : forall s d,
  (forall c, c ∈ l -> 0 <= c <= 127) -> 0 <= d <= 127 ->
  asciiTest (fold_left asciiAdd l s) d = asciiTest s d || bool_decide (d ∈ l).
Proof.
  induction l as [|c l IH]; intros s d Hl Hd; cbn [fold_left].
  { rewrite bool_decide_false by apply not_elem_of_nil. by rewrite orb_false_r. }
  rewrite IH, asciiTest_add by (try done; intros; apply Hl; set_solver).
  rewrite <- orb_assoc. f_equal.
  destruct (Z.eqb_spec c d); simpl; symmetry; [apply bool_decide_true; set_solver|].
  apply bool_decide_ext. set_solver.
Qed.

Lemma addRanges_spec ranges : forall s s',
  addRanges ranges s = Some s' ->
  (forall e, e ∈ ranges -> 8 <= firstBMP e <= 127 /\ 8 <= lastBMP e <= 127) /\
  forall d, 0 <= d <= 127 ->
    asciiTest s' d = true <->
    asciiTest s d = true \/ exists e, e ∈ ranges /\ firstBMP e <= d <= lastBMP e.
Proof.
  induction ranges as [|e rest IH]; cbn [addRanges]; intros s s' H.
  { simplify_eq. split; [intros e He; by apply not_elem_of_nil in He|].
    intros d Hd. split; [auto|]. by intros [|(e & He & _)]; [|apply not_elem_of_nil in He]. }
  case_match eqn:Hw; [|done]. unfold withinAsciiSet in Hw. zbool.
  destruct (IH _ _ H) as [Hr Ht]. split.
  { intros x Hx. apply elem_of_cons in Hx as [->|Hx]; [lia|by apply Hr]. }
  intros d Hd. rewrite Ht by done. rewrite asciiTest_fold; [|intros c Hc; apply elem_of_seqZ in Hc; lia|done].
  rewrite orb_true_iff, bool_decide_eq_true, elem_of_seqZ. split.
  - intros [[|]|(x & Hx & ?)]; [by left| |].
    + right. exists e. rewrite elem_of_cons. split; [by left|lia].
    + right. exists x. rewrite elem_of_cons. by split; [right|].
  - intros [|(x & Hx & ?)]; [auto|]. apply elem_of_cons in Hx as [->|Hx]; [left; right; lia|].
    right. by exists x.
Qed.

(** The low byte of the first word is overwritten by the tag, so only code
    points from 8 on survive in a packed ASCII set. *)
Lemma asciiTest_packed s c :
  8 <= c <= 127 -> asciiTest (asAsciiSet (ofAsciiSet s)) c = asciiTest s c.
Proof.
  intros Hc. unfold asciiTest, asAsciiSet, ofAsciiSet. simpl.
  destruct (Z.ltb_spec c 64); [|done].
  rewrite Z.lor_0_r, Z.land_spec, Z.lxor_spec. rewrite Z.mod_small by lia.
  change UINT64_MAX with (Z.ones 64). change 255 with (Z.ones 8).
  rewrite Z.ones_spec_low, Z.ones_spec_high by lia. by rewrite andb_true_r.
Qed.

Lemma matcherContains_ascii owned r s c :
  wf r -> fits r -> bmpSize r + packedNonBmpSize r <= size r ->
  tryToGenerateAsciiSet r = Some s ->
  matcherContains (ofAsciiSet s) c = matcherContains (ofCodePointSet owned r) c.
Proof.
  intros Hwf Hfit Hsz H. rewrite matcherContains_set by done.
  unfold tryToGenerateAsciiSet in H. case_match eqn:Hs; [done|]. zbool.
  destruct (addRanges_spec _ _ _ H) as [Hr Ht].
  assert (Htag : tag (ofAsciiSet s) = typeTag ASCII).
  { unfold tag. simpl. rewrite Z.lor_0_r, <- Z.land_assoc.
    change (Z.land (Z.lxor UINT64_MAX 0xFF) 0xFF) with 0. by rewrite Z.land_0_r. }
  unfold matcherContains. rewrite Htag, Z.eqb_refl.
  apply eq_true_iff_eq. rewrite contains_iff by done. rewrite asciiContains_test. unfold covered.
  assert (Hp0 : packedNonBmpSize r = 0) by (destruct Hfit as (? & [] & ?); lia).
  rewrite !andb_true_iff, Z.leb_le, Z.leb_le. split.
  - intros [[H0 H1] Htc]. split; [done|]. unfold UINT16_MAX. rewrite decide_True by lia.
    assert (8 <= c) as H8.
    { destruct (Z_lt_dec c 8); [|lia]. exfalso. revert Htc. unfold asciiTest, asAsciiSet, ofAsciiSet. simpl.
      destruct (Z.ltb_spec c 64); [|lia].
      rewrite Z.lor_0_r, Z.land_spec, Z.lxor_spec, Z.mod_small by lia.
      change UINT64_MAX with (Z.ones 64). change 255 with (Z.ones 8).
      rewrite !Z.ones_spec_low by lia. by rewrite andb_false_r. }
    rewrite asciiTest_packed in Htc by lia. apply Ht in Htc; [|lia].
    destruct Htc as [Htc|?]; [|done]. exfalso. unfold asciiTest in Htc. simpl in Htc.
    destruct (c <? 64); by rewrite Z.bits_0 in Htc.
  - intros [H0 Hc]. case_decide as Hu.
    + destruct Hc as (e & He & Hce). destruct (Hr e He) as [].
      split; [lia|]. rewrite asciiTest_packed by lia. apply Ht; [lia|]. right. by exists e.
    + exfalso. destruct Hc as [(x & Hx & _)|(x & Hx & _)].
      * unfold getPackedNonBMPRanges in Hx. rewrite Hp0 in Hx. by apply not_elem_of_nil in Hx.
      * unfold getNonBMPRanges in Hx.
        assert ((size r - bmpSize r - packedNonBmpSize r) / 2 = 0) as Hz by (rewrite Hp0, Hs, Z.sub_diag; done).
        rewrite Hz in Hx. by apply not_elem_of_nil in Hx.
Qed.

(** When the code generator replaces a code point set by an ASCII bit set,
    the character class still matches the same code points. *)
Theorem ascii_matcher_equiv owned r s c :
  wf r -> fits r -> bmpSize r + packedNonBmpSize r <= size r ->
  tryToGenerateAsciiSet r = Some s ->
  matcherContains (ofAsciiSet s) c = matcherContains (ofCodePointSet owned r) c.
Proof. apply matcherContains_ascii. Qed.

(** The digits, and the letters A to Z. *)
Definition sampleAscii : CodePointSetRef := {|
  ptr := [bmpRange 0x30 0x39; bmpRange 0x41 0x5A]; bmpSize := 2; packedNonBmpSize := 0; size := 2
|}.

Lemma sampleAscii_wf : wf sampleAscii.
Proof.
  split; [|split].
  - split.
    + intros x Hx. vm_compute in Hx. repeat (apply elem_of_cons in Hx as [->|Hx]; [vm_compute; discriminate|]).
      by apply not_elem_of_nil in Hx.
    + intros [|[|i]] [|[|j]] x y Hij Hx Hy; try lia; try done.
      vm_compute in Hx, Hy. simplify_eq. reflexivity.
  - split; [intros x Hx; by apply not_elem_of_nil in Hx|intros i j x y _ Hx; done].
  - split; [intros x Hx; by apply not_elem_of_nil in Hx|intros i j x y _ Hx; done].
Qed.

Lemma ascii_matcher_equiv_witness :
  exists s, tryToGenerateAsciiSet sampleAscii = Some s /\
    matcherContains (ofAsciiSet s) 0x35 = matcherContains (ofCodePointSet true sampleAscii) 0x35.
Proof.
  eexists. split; [vm_compute; reflexivity|].
  apply (ascii_matcher_equiv true sampleAscii _ 0x35 sampleAscii_wf);
    [split; [|split]; split; (reflexivity || (vm_compute; discriminate))
    |vm_compute; discriminate|vm_compute; reflexivity].
Defined.

(** A string matcher gives back its string. *)
Lemma asStrRef_ofBytes s : zlen s <= UINT32_MAX -> asStrRef (ofBytes s) = s.
Proof.
  intros Hs. unfold asStrRef, getRadixSize, ofBytes. cbn [first payload typeTag]. unfold UINT32_MAX in Hs.
  pose proof (zlen_nonneg s).
  rewrite (wrap_small 64) by (unfold in_unsigned; rewrite Z.shiftl_mul_pow2 by lia;
    change (2 ^ 32) with 4294967296; change (2 ^ 64) with 18446744073709551616; lia).
  rewrite lor_shift_add by (change (2 ^ 32) with 4294967296; lia).
  rewrite Z.shiftr_div_pow2 by lia. change (2 ^ 32) with 4294967296.
  rewrite Z.div_add_l, Z.div_small, Z.add_0_r by lia.
  rewrite wrap_small by (unfold in_unsigned; change (2 ^ 32) with 4294967296; lia).
  unfold zlen. rewrite Nat2Z.id. by rewrite firstn_all.
Qed.

Lemma asRadixTree_ofRadix buf n : zlen buf <= UINT32_MAX -> in_unsigned 16 n ->
  asRadixTree (ofRadix buf n) = RadixPacked.ofBuffer n buf.
Proof.
  unfold UINT32_MAX, in_unsigned. change (2 ^ 16) with 65536. intros Hb Hn. pose proof (zlen_nonneg buf).
  unfold asRadixTree, getLongestStringSize, getRadixSize, ofRadix, RadixPacked.ofBuffer. cbn [first payload typeTag].
  rewrite !(wrap_small 64) by (unfold in_unsigned; rewrite Z.shiftl_mul_pow2 by lia;
    change (2 ^ 32) with 4294967296; change (2 ^ 16) with 65536; change (2 ^ 64) with 18446744073709551616; lia).
  assert (Z.lor (Z.lor (Z.shiftl (zlen buf) 32) (Z.shiftl n 16)) 3 = (zlen buf * 65536 + n) * 65536 + 3) as ->.
  { rewrite <- Z.lor_assoc, (lor_shift_add n 16 3) by (change (2 ^ 16) with 65536; lia). change (2 ^ 16) with 65536.
    rewrite (lor_shift_add (zlen buf) 32) by (change (2 ^ 32) with 4294967296; lia). change (2 ^ 32) with 4294967296. lia. }
  change 0xFFFF with (Z.ones 16). rewrite Z.land_ones, !Z.shiftr_div_pow2 by lia.
  change (2 ^ 16) with 65536. change (2 ^ 32) with 4294967296.
  rewrite !wrap_small by (unfold in_unsigned; change (2 ^ 16) with 65536; change (2 ^ 32) with 4294967296; Z.div_mod_to_equations; lia).
  f_equal; Z.div_mod_to_equations; lia.
Qed.
(** ** Tables for ASCII, as an example *)

Definition asciiUcd : Ucd := {|
  doSimpleCaseFolding c := if (65 <=? c) && (c <=? 90) then c + 32 else c;
  doSimpleCaseUnfold c := if (97 <=? c) && (c <=? 122) then [c - 32] else [];
  isExtendWord := isWord;
  isRegexSpace c := (c =? 32) || (9 <=? c) && (c <=? 13);
  getEmojiTrie := RadixPacked.ofBuffer 0 [2; 0; 0; 0; 0]
|}.

Lemma asciiLaws : @UcdLaws asciiUcd.
Proof.
  split; [intros c d; cbn|intros c; rewrite !UnicodeUtil.isCodePoint_range; cbn; case_match; zbool; lia].
  destruct (Z.leb_spec 65 d), (Z.leb_spec d 90); cbn [andb]; intros <-; auto.
  right. rewrite !(proj2 (Z.leb_le _ _)) by lia. cbn [andb]. apply list_elem_of_singleton. lia.
Qed.

End RegexMatcher.
