(* ===== verification/SetBuilder.v ===== *)
(** Building sets of code points (src/unicode/set_builder.h,
    src/unicode/set_builder.cpp): a vector of ranges that is sorted and compacted
    when it is needed, the set operations on it, and the conversion to the packed
    form of CodePointSet. *)
From stdpp Require Import sorting.
From S2P Require Import Prelude Unicode CodePointSet RegexMatcher.

Module SetBuilder.
Import UnicodeUtil CodePointSet RegexMatcher.

Abbreviation Ranges := (list (Z * Z)).

(** The members of CodePointSetBuilder. *)
Record Builder := { dirty : bool; codePointRanges : Ranges }.

Definition emptyBuilder : Builder := {| dirty := false; codePointRanges := [] |}.

(** [operator bool] *)
Definition notEmpty (b : Builder) : bool :=
  match codePointRanges b with [] => false | _ => true end.

Definition clear (b : Builder) : Builder := {| dirty := dirty b; codePointRanges := [] |}.

(** ** Sorting and compacting *)

(** [Compare] *)
Definition compare (x y : Z * Z) : bool :=
  (fst x <? fst y) || ((fst x =? fst y) && (snd x <? snd y)).

(** The order std::sort arranges the ranges in; equal ranges are identical. *)
Definition notAfter (x y : Z * Z) : Prop := compare y x = false.

#[export] Instance notAfter_dec : RelDecision notAfter.
Proof. intros x y. unfold notAfter. solve_decision. Defined.

(** The loop of [sortAndCompact]: [last] is what the iterator of that name points to. *)
Fixpoint compactLoop (last : Z * Z) (rest : Ranges) : Ranges :=
  match rest with
  | [] => [last]
  | x :: r =>
      if fst x <=? snd last + 1 then compactLoop (fst last, Z.max (snd last) (snd x)) r
      else last :: compactLoop x r
  end.

Definition sortAndCompact (l : Ranges) : Ranges :=
  if zlen l <? 2 then l
  else match merge_sort notAfter l with [] => [] | x :: r => compactLoop x r end.

Definition tryToSortAndCompact (b : Builder) : Builder :=
  if dirty b then {| dirty := false; codePointRanges := sortAndCompact (codePointRanges b) |} else b.

(** ** Adding *)

Definition append (b : Builder) (l : Ranges) : Builder :=
  {| dirty := true; codePointRanges := codePointRanges b ++ l |}.

(** The ranges of a set, in the order [add] reads them. *)
Definition refRanges (ref : CodePointSetRef) : Ranges :=
  map (fun e => (firstBMP e, lastBMP e)) (getBMPRanges ref) ++
  map (fun e => (firstPacked e, lastPacked e)) (getPackedNonBMPRanges ref) ++
  map (fun e => (i32 (fst e), i32 (snd e))) (getNonBMPRanges ref).

Definition addRef (b : Builder) (ref : CodePointSetRef) : Builder := append b (refRanges ref).

Definition addBuilder (b other : Builder) : Builder := append b (codePointRanges other).

(** The code points from [first] to [last]. *)
Definition pointsFrom (first last : Z) : list Z := seqZ first (last - first + 1).

Definition single (c : Z) : Z * Z := (c, c).

Definition addRange `{Ucd} (b : Builder) (first last : Z) (caseFold : bool) : Builder :=
  let actualFirst := Z.max 0 (Z.min first last) in
  let actualLast := Z.min CODE_POINT_MAX (Z.max first last) in
  append b (if caseFold then map (fun c => single (doSimpleCaseFolding c)) (pointsFrom actualFirst actualLast)
            else [(actualFirst, actualLast)]).

Definition addData (b : Builder) (data : list Z) : Builder :=
  append b (map single (List.filter isCodePoint data)).

(** ** Complement

    [None] is a failed assertion.  [previous] is [codePointRanges[i - 1].second]
    for a range that is not the first. *)
Fixpoint complementLoop (previous : option Z) (l : Ranges) : option Ranges :=
  match l with
  | [] => Some []
  | (first, last) :: r =>
      let emit newFirst newLast :=
        if newFirst <=? newLast
        then rest ← complementLoop (Some last) r; Some ((newFirst, newLast) :: rest)
        else None in
      match previous with
      | None => if first =? 0 then complementLoop (Some last) r else emit 0 (first - 1)
      | Some p => emit (p + 1) (first - 1)
      end
  end.

Definition complementTail (l : Ranges) : Ranges :=
  match last l with
  | Some (_, e) => if e =? CODE_POINT_MAX then [] else [(e + 1, CODE_POINT_MAX)]
  | None => [(0, CODE_POINT_MAX)]
  end.

Definition complement (b : Builder) : option Builder :=
  let b' := tryToSortAndCompact b in
  buf ← complementLoop None (codePointRanges b');
  Some {| dirty := dirty b'; codePointRanges := buf ++ complementTail (codePointRanges b') |}.

(** ** Removing

    One range [cur, last] against the ranges from [index] on: the new ranges, and
    the ranges from the new [index] on. *)
Fixpoint removeOne (invert : bool) (targets : Ranges) (cur last : Z) : Ranges * Ranges :=
  if last <? cur then ([], targets)
  else
    match targets with
    | [] => (if invert then [] else [(cur, last)], [])
    | (tfirst, tlast) :: r =>
        if tlast <? cur then removeOne invert r cur last
        else if last <? tfirst then (if invert then [] else [(cur, last)], targets)
        else
          let overlapFirst := Z.max cur tfirst in
          let overlapLast := Z.min last tlast in
          let new := if invert then [(overlapFirst, overlapLast)]
                     else if cur <? overlapFirst then [(cur, overlapFirst - 1)] else [] in
          if tlast <=? last then
            let '(out, rest) := removeOne invert r (overlapLast + 1) last in (new ++ out, rest)
          else (* overlapLast is last: the loop ends *) (new, targets)
    end.

Fixpoint removeAll (invert : bool) (l targets : Ranges) : Ranges :=
  match l with
  | [] => []
  | (first, last) :: r =>
      let '(out, rest) := removeOne invert targets first last in
      out ++ removeAll invert r rest
  end.

(** [remove(builder, invert)]: the argument is sorted and compacted too. *)
Definition remove (b builder : Builder) (invert : bool) : Builder * Builder :=
  let b' := tryToSortAndCompact b in
  let builder' := tryToSortAndCompact builder in
  ({| dirty := dirty b';
      codePointRanges := removeAll invert (codePointRanges b') (codePointRanges builder') |}, builder').

Definition removeRef (b : Builder) (ref : CodePointSetRef) (invert : bool) : Builder :=
  fst (remove b (addRef emptyBuilder ref) invert).

Definition subRef (b : Builder) (ref : CodePointSetRef) : Builder := removeRef b ref false.
Definition sub (b builder : Builder) : Builder * Builder := remove b builder false.
Definition intersectRef (b : Builder) (ref : CodePointSetRef) : Builder := removeRef b ref true.
Definition intersect (b builder : Builder) : Builder * Builder := remove b builder true.

(** ** Case folding *)

(** The code points of the ranges that folding changes. *)
Definition affected `{Ucd} (l : Ranges) : list Z :=
  flat_map (fun '(first, last) =>
    List.filter (fun c => negb (c =? doSimpleCaseFolding c)) (pointsFrom first last)) l.

Definition foldCase `{Ucd} (b : Builder) : Builder :=
  let b' := tryToSortAndCompact b in
  let before := affected (codePointRanges b') in
  let oldBuilder := fold_left (fun old c => addRange old c c false) before emptyBuilder in
  let folds := map doSimpleCaseFolding before in
  match folds with
  | [] => b'
  | _ => addData (fst (sub b' oldBuilder)) folds
  end.

Definition complementWithFoldCase `{Ucd} (b : Builder) : Builder :=
  let newBuilder := foldCase (addRange emptyBuilder 0 CODE_POINT_MAX false) in
  fst (sub newBuilder b).

(** ** The packed set *)

Fixpoint buildNonBMP (l : Ranges) : option (list Z) :=
  match l with
  | [] => Some []
  | (first, last) :: r =>
      if negb (isSupplementaryCodePoint first && isSupplementaryCodePoint last) then None
      else w ← buildNonBMP r; Some (u32 first :: u32 last :: w)
  end.

(** The words, and how many of them are BMP ranges. *)
Fixpoint buildBMP (l : Ranges) (bmpSize : Z) : option (list Z * Z) :=
  match l with
  | [] => Some ([], bmpSize)
  | (first, last) :: r =>
      if isBmpCodePoint first then
        if isBmpCodePoint last then
          '(w, n) ← buildBMP r (u16 (bmpSize + 1)); Some (bmpRange (u16 first) (u16 last) :: w, n)
        else
          w ← buildNonBMP r;
          Some (bmpRange (u16 first) UINT16_MAX :: UINT16_MAX + 1 :: u32 last :: w, u16 (bmpSize + 1))
      else w ← buildNonBMP l; Some (w, bmpSize)
  end.

Definition build (b : Builder) : option (Builder * CodePointSetRef) :=
  let b' := tryToSortAndCompact b in
  '(w, n) ← buildBMP (codePointRanges b') 0;
  Some (b', {| ptr := w; bmpSize := n; packedNonBmpSize := 0; CodePointSet.size := zlen w |}).

(** * Properties *)

(** ** Membership, and compact ranges *)

Definition mem (c : Z) (l : Ranges) : Prop := Exists (fun r => fst r <= c <= snd r) l.

(** Ranges from [lo] on, in order, with a gap between any two. *)
Fixpoint compactFrom (lo : Z) (l : Ranges) : Prop :=
  match l with
  | [] => True
  | (a, z) :: r => lo <= a <= z /\ compactFrom (z + 2) r
  end.

Definition proper (l : Ranges) : Prop := Forall (fun r => 0 <= fst r <= snd r /\ snd r <= CODE_POINT_MAX) l.

Definition bounded (l : Ranges) : Prop := Forall (fun r => snd r <= CODE_POINT_MAX) l.

Definition compact (l : Ranges) : Prop := compactFrom 0 l /\ bounded l.

Lemma mem_nil c : mem c [] <-> False.
Proof. unfold mem. by rewrite Exists_nil. Qed.

Lemma mem_cons c a z l : mem c ((a, z) :: l) <-> a <= c <= z \/ mem c l.
Proof. unfold mem. by rewrite Exists_cons. Qed.

Lemma mem_app c l k : mem c (l ++ k) <-> mem c l \/ mem c k.
Proof. apply Exists_app. Qed.

Lemma mem_elem c l : mem c l <-> exists a z, (a, z) ∈ l /\ a <= c <= z.
Proof.
  unfold mem. rewrite Exists_exists. split; [intros ([a z] & ? & ?)|intros (a & z & ? & ?)]; eauto.
Qed.

Lemma compactFrom_weaken lo lo' l : lo' <= lo -> compactFrom lo l -> compactFrom lo' l.
Proof. destruct l as [|[a z] l]; cbn; [done|]. intuition lia. Qed.

Lemma compactFrom_mem lo l c : compactFrom lo l -> mem c l -> lo <= c.
Proof.
  revert lo. induction l as [|[a z] l IH]; cbn [compactFrom]; intros lo; [by rewrite mem_nil|].
  intros [H Hl]. rewrite mem_cons. intros [|Hm]; [lia|]. specialize (IH _ Hl Hm). lia.
Qed.

Lemma compactFrom_elem lo l a z : compactFrom lo l -> (a, z) ∈ l -> lo <= a /\ a <= z.
Proof.
  revert lo. induction l as [|[p q] l IH]; intros lo; [by intros _ ?%not_elem_of_nil|].
  intros [H Hl] [Heq|Hin]%elem_of_cons; [simplify_eq; lia|]. specialize (IH _ Hl Hin). lia.
Qed.

Lemma compactFrom_proper lo l : 0 <= lo -> compactFrom lo l -> bounded l -> proper l.
Proof.
  revert lo. induction l as [|[a z] l IH]; cbn [compactFrom]; intros lo Hlo; [by constructor|].
  intros [H Hl] Hb. inversion_clear Hb. constructor; [cbn in *; lia|]. eapply IH; [|done..]. lia.
Qed.

Lemma compact_proper l : compact l -> proper l.
Proof. intros [H Hb]. by eapply compactFrom_proper. Qed.

(** Compact ranges are determined by their members. *)
Lemma compact_unique lo l k :
  compactFrom lo l -> compactFrom lo k -> (forall c, mem c l <-> mem c k) -> l = k.
Proof.
  revert lo k. induction l as [|[a z] l IH]; intros lo [|[b y] k]; cbn [compactFrom]; intros Hl Hk Heq; [done| | |].
  - destruct (Heq b) as [_ H]. rewrite mem_nil, mem_cons in H. exfalso. apply H. left. lia.
  - destruct (Heq a) as [H _]. rewrite mem_nil, mem_cons in H. exfalso. apply H. left. lia.
  - destruct Hl as [Ha Hl], Hk as [Hb Hk].
    assert (forall c, mem c l -> z + 2 <= c) as Ml by (intros; by eapply compactFrom_mem).
    assert (forall c, mem c k -> y + 2 <= c) as Mk by (intros; by eapply compactFrom_mem).
    assert (forall c, (a <= c <= z \/ mem c l) <-> (b <= c <= y \/ mem c k)) as E
      by (intros c; specialize (Heq c); by rewrite !mem_cons in Heq).
    assert (a = b) as <-.
    { destruct (E a) as [Ea _], (E b) as [_ Eb].
      destruct Ea as [?|?%Mk]; [lia| |]; destruct Eb as [?|?%Ml]; lia. }
    assert (z = y) as <-.
    { destruct (Z.lt_trichotomy z y) as [|[|]]; [|done|].
      - destruct (E (z + 1)) as [_ [?|?%Ml]]; lia.
      - destruct (E (y + 1)) as [[?|?%Mk] _]; lia. }
    f_equal. apply (IH (z + 2)); [done..|]. intros c. split; intros Hm.
    + destruct (E c) as [[?|?] _]; [by right|apply Ml in Hm; lia|done].
    + destruct (E c) as [_ [?|?]]; [by right|apply Mk in Hm; lia|done].
Qed.

(** ** Sorting and compacting *)

Lemma notAfter_spec x y : notAfter x y <-> fst x < fst y \/ (fst x = fst y /\ snd x <= snd y).
Proof.
  unfold notAfter, compare. rewrite orb_false_iff, andb_false_iff, !Z.ltb_ge, Z.eqb_neq. lia.
Qed.

#[export] Instance notAfter_total : Total notAfter.
Proof. intros x y. rewrite !notAfter_spec. lia. Qed.

#[export] Instance notAfter_trans : Transitive notAfter.
Proof. intros x y z. rewrite !notAfter_spec. lia. Qed.

Lemma mem_perm c l k : l ≡ₚ k -> mem c l <-> mem c k.
Proof. intros H. unfold mem. by rewrite H. Qed.

Lemma compactLoop_spec rest : forall a z,
  a <= z -> Forall (fun r => a <= fst r <= snd r) rest -> StronglySorted notAfter rest ->
  compactFrom a (compactLoop (a, z) rest) /\
  (forall c, mem c (compactLoop (a, z) rest) <-> mem c ((a, z) :: rest)) /\
  (forall m, z <= m -> Forall (fun r => snd r <= m) rest ->
   Forall (fun r => snd r <= m) (compactLoop (a, z) rest)).
Proof.
  induction rest as [|[b y] rest IH]; intros a z Haz Hr Hs; cbn [compactLoop fst snd].
  { split; [cbn; lia|]. split; [done|]. intros m Hz _. by repeat constructor. }
  apply Forall_cons in Hr as [Hb Hr]. cbn [fst snd] in Hb.
  apply StronglySorted_inv in Hs as [Hs Hle].
  assert (Forall (fun r => b <= fst r <= snd r) rest) as Hr'.
  { rewrite Forall_forall in Hr, Hle |- *. intros x Hx. specialize (Hr x Hx). specialize (Hle x Hx).
    apply notAfter_spec in Hle. cbn [fst snd] in Hle. lia. }
  destruct (Z.leb_spec b (z + 1)).
  - destruct (IH a (Z.max z y)) as (Hc & Hm & Hbd); [lia|done..|]. split; [done|]. split.
    + intros c. rewrite Hm, !mem_cons. destruct (decide (mem c rest)); [tauto|]. intuition lia.
    + intros m Hz Hf. apply Forall_cons in Hf as [Hy Hf]. apply Hbd; [cbn in Hy; lia|done].
  - destruct (IH b y) as (Hc & Hm & Hbd); [lia|done..|]. split.
    + cbn [compactFrom]. split; [lia|]. eapply compactFrom_weaken; [|done]. lia.
    + split.
      * intros c. by rewrite mem_cons, Hm, !mem_cons.
      * intros m Hz Hf. apply Forall_cons in Hf as [Hy Hf]. constructor; [done|]. by apply Hbd.
Qed.

Lemma sortAndCompact_spec l :
  proper l -> compact (sortAndCompact l) /\ (forall c, mem c (sortAndCompact l) <-> mem c l).
Proof.
  intros Hp. unfold sortAndCompact. case_match eqn:Hlen.
  - apply Z.ltb_lt in Hlen.
    destruct l as [|[a z] [|? ?]]; unfold zlen in Hlen; cbn [length] in Hlen; [| |lia];
      (split; [|done]).
    + by repeat constructor.
    + apply Forall_cons in Hp as [? _]. split; [cbn in *; lia|]. constructor; [lia|done].
  - pose proof (merge_sort_Permutation notAfter l) as HP.
    pose proof (StronglySorted_merge_sort notAfter l) as HS.
    assert (proper (merge_sort notAfter l)) as Hp' by (unfold proper in *; by rewrite HP).
    assert (forall c, mem c (merge_sort notAfter l) <-> mem c l) as Hm by (intros; by apply mem_perm).
    destruct (merge_sort notAfter l) as [|[a z] r]; [by split; [repeat constructor|]|].
    apply Forall_cons in Hp' as [Ha Hr]. apply StronglySorted_inv in HS as [HS Hle].
    cbn [fst snd] in Ha.
    destruct (compactLoop_spec r a z) as (Hc & Hm' & Hb); [lia| |done|].
    { rewrite Forall_forall in Hr, Hle |- *. intros x Hx. specialize (Hr x Hx). specialize (Hle x Hx).
      apply notAfter_spec in Hle. cbn [fst snd] in Hle. lia. }
    split; [|intros c; by rewrite Hm', Hm]. split.
    + eapply compactFrom_weaken; [|done]. lia.
    + apply Hb; [lia|]. eapply Forall_impl; [exact Hr|]. cbn. lia.
Qed.

(** ** The invariant of the builder *)

(** The ranges are proper, and compact unless the builder is marked. *)
Definition inv (b : Builder) : Prop :=
  proper (codePointRanges b) /\ (dirty b = false -> compact (codePointRanges b)).

Definition has (b : Builder) (c : Z) : Prop := mem c (codePointRanges b).

Lemma inv_empty : inv emptyBuilder.
Proof. by repeat constructor. Qed.

Lemma tidy_spec b :
  inv b -> compact (codePointRanges (tryToSortAndCompact b)) /\
  dirty (tryToSortAndCompact b) = false /\ forall c, has (tryToSortAndCompact b) c <-> has b c.
Proof.
  intros [Hp Hc]. unfold tryToSortAndCompact. destruct (dirty b) eqn:Hd; [|by rewrite Hd; auto].
  destruct (sortAndCompact_spec _ Hp). done.
Qed.

Lemma inv_compact b : compact (codePointRanges b) -> inv b.
Proof. intros. split; [by apply compact_proper|done]. Qed.

Lemma appendRanges_spec b l :
  inv b -> proper l -> inv (append b l) /\ forall c, has (append b l) c <-> has b c \/ mem c l.
Proof.
  intros [Hp _] Hl. unfold inv, has, append. cbn. split; [|intros; apply mem_app].
  split; [by apply Forall_app|done].
Qed.

(** ** Complement *)

Lemma complementLoop_spec l : forall lo previous,
  compactFrom lo l ->
  match previous with Some p => lo = p + 2 | None => lo = 0 end ->
  let from := match previous with Some p => p + 1 | None => 0 end in
  exists buf, complementLoop previous l = Some buf /\ compactFrom from buf /\
    let last := match last l with Some (_, z) => z | None => from - 1 end in
    Forall (fun r => snd r <= last - 1) buf /\ from - 1 <= last /\
    (forall c, mem c l -> c <= last) /\
    (forall c, mem c buf <-> from <= c <= last /\ ~ mem c l).
Proof.
  induction l as [|[a z] l IH]; intros lo previous Hl Hprev from; cbn [complementLoop].
  { exists []. split; [done|]. split; [done|]. cbn. split; [constructor|]. split; [lia|].
    split; intros c; rewrite mem_nil; lia. }
  destruct Hl as [Ha Hl].
  destruct (IH (z + 2) (Some z) Hl eq_refl) as (buf & -> & Hc & Hb & Hlast & Hup & Hm).
  assert (match last ((a, z) :: l) with Some (_, y) => y | None => from - 1 end =
    match last l with Some (_, y) => y | None => z + 1 - 1 end) as ->.
  { rewrite last_cons. destruct (last l) as [[]|]; lia. }
  set (e := match last l with Some (_, y) => y | None => z + 1 - 1 end) in *.
  assert (forall c, from <= c <= a - 1 -> ~ mem c l) as Hout.
  { intros c Hr Hin. apply (compactFrom_mem _ _ _ Hl) in Hin. lia. }
  assert (exists buf0, (from = a /\ buf0 = buf \/ from <= a - 1 /\ buf0 = (from, a - 1) :: buf) /\
    match previous with
    | None => if a =? 0 then Some buf
              else if 0 <=? a - 1 then Some ((0, a - 1) :: buf) else None
    | Some p => if p + 1 <=? a - 1 then Some ((p + 1, a - 1) :: buf) else None
    end = Some buf0) as (buf0 & Hbuf & Heq).
  { subst from. destruct previous as [p|].
    - rewrite (proj2 (Z.leb_le (p + 1) (a - 1))) by lia. eexists. split; [right|done]. split; [lia|done].
    - destruct (Z.eqb_spec a 0); [exists buf; split; [left|]; done|].
      rewrite (proj2 (Z.leb_le 0 (a - 1))) by lia. eexists. split; [right|done]. split; [lia|done]. }
  exists buf0. split.
  { rewrite <- Heq. destruct previous; cbn; repeat case_match; done. }
  assert (forall c, mem c ((a, z) :: l) -> c <= e) as Hup'.
  { intros c. rewrite mem_cons. intros [?|?]; [lia|auto]. }
  destruct Hbuf as [[-> ->]|[Hfrom ->]].
  - split; [eapply compactFrom_weaken; [|done]; lia|]. split; [done|]. split; [lia|].
    split; [intros c Hin; by apply Hup'|]. intros c. rewrite Hm, mem_cons. intuition lia.
  - cbn [compactFrom]. split.
    { split; [lia|]. eapply compactFrom_weaken; [|done]. lia. }
    split; [constructor; [cbn; lia|done]|]. split; [lia|].
    split; [intros c Hin; by apply Hup'|]. intros c. rewrite mem_cons, Hm, mem_cons. split.
    + intros [H|[H Hn]]; (split; [lia|]); [|intuition lia].
      intros [?|Hin]; [lia|]. by apply (Hout c).
    + intros [H Hn]. destruct (decide (c <= a - 1)); [by left; lia|right].
      split; [|tauto]. destruct (decide (c <= z)); [exfalso; apply Hn; left; lia|lia].
Qed.

Lemma compactFrom_app lo l k m :
  compactFrom lo l -> Forall (fun r => snd r <= m - 2) l -> compactFrom m k -> lo <= m ->
  compactFrom lo (l ++ k).
Proof.
  revert lo. induction l as [|[a z] l IH]; cbn [compactFrom app]; intros lo Hl Hb Hk Hm.
  { eapply compactFrom_weaken; [|done]. done. }
  apply Forall_cons in Hb as [Hz Hb]. cbn [snd] in Hz. destruct Hl. split; [done|]. apply IH; [done..|lia].
Qed.

Lemma bounded_last l a z : bounded l -> last l = Some (a, z) -> z <= CODE_POINT_MAX.
Proof. intros Hb Hl. apply last_Some_elem_of in Hl. by eapply Forall_forall in Hl; [|exact Hb]. Qed.

Lemma complement_spec b :
  inv b -> exists b', complement b = Some b' /\ inv b' /\
    forall c, has b' c <-> isCodePoint c = true /\ ~ has b c.
Proof.
  intros Hb. unfold complement. destruct (tidy_spec b Hb) as ([Hc Hbd] & Hd & Hh).
  set (b1 := tryToSortAndCompact b) in *.
  destruct (complementLoop_spec _ _ None Hc eq_refl) as (buf & E & Hcb & Hbb & Hlast & Hup & Hm).
  cbv zeta in *. cbn match in *. rewrite E. cbn.
  set (l := codePointRanges b1) in *.
  assert (compact (buf ++ complementTail l) /\
    forall c, mem c (buf ++ complementTail l) <-> 0 <= c <= CODE_POINT_MAX /\ ~ mem c l) as [Hcl Hml].
  { unfold complementTail. destruct (last l) as [[a z]|] eqn:El.
    - pose proof (bounded_last _ _ _ Hbd El) as Hz.
      case_match; zbool.
      + rewrite app_nil_r. split; [split; [done|]|].
        * eapply Forall_impl; [exact Hbb|]. cbn. lia.
        * intros c. rewrite Hm. intuition lia.
      + split; [split|].
        * apply (compactFrom_app _ _ _ (z + 1)); [done| |cbn; lia|lia].
          eapply Forall_impl; [exact Hbb|]. cbn. lia.
        * apply Forall_app. split; [|by repeat constructor].
          eapply Forall_impl; [exact Hbb|]. cbn. lia.
        * intros c. rewrite mem_app, Hm, mem_cons, mem_nil.
          specialize (Hup c). destruct (decide (c <= z)); intuition lia.
    - apply last_None in El. rewrite El in *. cbn in E. simplify_eq. cbn [app].
      split; [by repeat constructor|]. intros c. rewrite mem_cons, mem_nil. tauto. }
  eexists. split; [done|]. split; [by apply inv_compact|].
  intros c. unfold has. cbn. rewrite Hml. unfold isCodePoint. rewrite andb_true_iff, !Z.leb_le.
  unfold has in Hh. fold l in Hh. by rewrite Hh.
Qed.

(** ** Removing *)

(** What is kept of the code points that the targets hold, or do not hold. *)
Definition kept (invert : bool) (held : Prop) : Prop := if invert then held else ~ held.

Lemma kept_iff invert P Q : (P <-> Q) -> kept invert P <-> kept invert Q.
Proof. unfold kept. destruct invert; tauto. Qed.

Lemma removeOne_spec invert targets : forall lo cur last,
  compactFrom lo targets ->
  (forall c, mem c (fst (removeOne invert targets cur last)) <->
     cur <= c <= last /\ kept invert (mem c targets)) /\
  compactFrom (if invert then Z.max cur lo else cur) (fst (removeOne invert targets cur last)) /\
  compactFrom lo (snd (removeOne invert targets cur last)) /\
  (forall c, last < c -> mem c (snd (removeOne invert targets cur last)) <-> mem c targets).
Proof.
  induction targets as [|[a z] r IH]; intros lo cur last Hc; cbn [removeOne].
  { destruct (Z.ltb_spec last cur), invert; cbn; rewrite ?mem_nil; split_and!; try done; try lia;
      intros c; rewrite ?mem_cons, ?mem_nil; intuition lia. }
  destruct (Z.ltb_spec last cur).
  { cbn [fst snd]. split_and!; [|by destruct invert|done|done].
    intros c. rewrite mem_nil. intuition lia. }
  destruct Hc as [Ha Hr].
  assert (forall c, mem c r -> z + 2 <= c) as Hmr by (intros; by eapply compactFrom_mem).
  destruct (Z.ltb_spec z cur).
  { destruct (IH (z + 2) cur last Hr) as (Hm & Ho & Hk & Hrest). split_and!.
    - intros c. rewrite Hm. split; intros [? Hkept]; (split; [done|]); revert Hkept;
        apply kept_iff; rewrite mem_cons; intuition lia.
    - destruct invert; [|done]. eapply compactFrom_weaken; [|done]. lia.
    - eapply compactFrom_weaken; [|done]. lia.
    - intros c Hcl. rewrite Hrest, mem_cons by done. intuition lia. }
  destruct (Z.ltb_spec last a).
  { cbn [fst snd]. assert (forall c, cur <= c <= last -> ~ mem c ((a, z) :: r)) as Hno.
    { intros c Hcl. rewrite mem_cons. intros [?|?%Hmr]; lia. }
    split_and!; [|destruct invert; cbn; lia|by split|done].
    intros c. specialize (Hno c). destruct invert; rewrite ?mem_cons, mem_nil in *; cbn [kept]; tauto. }
  destruct (Z.leb_spec z last).
  - rewrite Z.min_r by lia.
    destruct (IH (z + 2) (z + 1) last Hr) as (Hm & Ho & Hk & Hrest).
    destruct (removeOne invert r (z + 1) last) as [out rest]. cbn [fst snd] in *. split_and!.
    + intros c. rewrite mem_app, Hm. specialize (Hmr c). destruct invert; cbn [kept].
      * rewrite !mem_cons, mem_nil. intuition lia.
      * assert (mem c (if cur <? Z.max cur a then [(cur, Z.max cur a - 1)] else []) <->
          cur <= c <= Z.max cur a - 1) as ->
          by (destruct (Z.ltb_spec cur (Z.max cur a)); rewrite ?mem_cons, mem_nil; lia).
        rewrite mem_cons. destruct (decide (c <= z)); intuition lia.
    + destruct invert.
      * cbn [app compactFrom]. split; [lia|]. eapply compactFrom_weaken; [|done]. lia.
      * destruct (Z.ltb_spec cur (Z.max cur a)); cbn [app compactFrom];
          [split; [lia|]|]; (eapply compactFrom_weaken; [|done]); lia.
    + eapply compactFrom_weaken; [|done]. lia.
    + intros c Hcl. rewrite Hrest, mem_cons by done. intuition lia.
  - rewrite Z.min_l by lia. cbn [fst snd]. split_and!.
    + intros c. specialize (Hmr c). destruct invert; cbn [kept]; [rewrite !mem_cons, mem_nil; intuition lia|].
      destruct (Z.ltb_spec cur (Z.max cur a)); rewrite ?mem_cons, mem_nil; intuition lia.
    + destruct invert; [cbn; lia|]. case_match; zbool; cbn; lia.
    + by split.
    + done.
Qed.

Lemma removeAll_spec invert l : forall lo lo' targets,
  compactFrom lo l -> compactFrom lo' targets ->
  compactFrom lo (removeAll invert l targets) /\
  (forall c, mem c (removeAll invert l targets) <-> mem c l /\ kept invert (mem c targets)).
Proof.
  induction l as [|[a z] l IH]; intros lo lo' targets Hl Ht; cbn [removeAll].
  { split; [done|]. intros c. rewrite mem_nil. tauto. }
  destruct Hl as [Ha Hl].
  destruct (removeOne_spec invert targets lo' a z Ht) as (Hm & Ho & Hk & Hrest).
  destruct (removeOne invert targets a z) as [out rest]. cbn [fst snd] in *.
  destruct (IH (z + 2) lo' rest Hl Hk) as (Hc & Hm').
  assert (forall c, mem c l -> z + 2 <= c) as Hml by (intros c Hin; apply (compactFrom_mem _ _ _ Hl Hin)).
  split.
  - apply (compactFrom_app _ _ _ (z + 2)); [| |done|lia].
    + eapply compactFrom_weaken; [|exact Ho]. destruct invert; lia.
    + apply Forall_forall. intros [p q] Hin.
      assert (a <= q <= z) as ?; [|cbn; lia].
      apply (Hm q). apply mem_elem. exists p, q. split; [done|]. cut (p <= q); [lia|].
      by apply (compactFrom_elem _ _ _ _ Ho) in Hin as [_ ?].
  - intros c. rewrite mem_app, Hm, Hm', mem_cons. destruct (decide (z < c)) as [Hz|Hz].
    + rewrite (kept_iff _ _ _ (Hrest c Hz)). intuition lia.
    + specialize (Hml c). intuition lia.
Qed.

(** The ranges of compact ranges end where the members end. *)
Lemma compactFrom_bounded lo l m : compactFrom lo l -> (forall c, mem c l -> c <= m) ->
  Forall (fun r => snd r <= m) l.
Proof.
  revert lo. induction l as [|[a z] l IH]; intros lo; [constructor|]. cbn [compactFrom]. intros [Ha Hl] Hm.
  constructor; [apply Hm, mem_cons; cbn; lia|]. eapply IH; [done|]. intros c Hc. apply Hm, mem_cons. auto.
Qed.

Lemma bounded_mem l c : bounded l -> mem c l -> c <= CODE_POINT_MAX.
Proof.
  intros Hb Hm. apply mem_elem in Hm as (a & z & Hin & Hc).
  pose proof (proj1 (Forall_forall _ _) Hb _ Hin). cbn in *. lia.
Qed.

Lemma remove_spec b builder invert :
  inv b -> inv builder ->
  inv (fst (remove b builder invert)) /\ dirty (fst (remove b builder invert)) = false /\
  forall c, has (fst (remove b builder invert)) c <-> has b c /\ kept invert (has builder c).
Proof.
  intros Hb Hb'. destruct (tidy_spec b Hb) as ([Hc Hbd] & Hd & Hh).
  destruct (tidy_spec builder Hb') as ([Hc' _] & _ & Hh').
  unfold remove. cbn. set (l := codePointRanges (tryToSortAndCompact b)) in *.
  destruct (removeAll_spec invert l 0 0 (codePointRanges (tryToSortAndCompact builder)) Hc Hc') as [Hr Hm].
  split.
  - apply inv_compact. cbn. split; [done|]. eapply compactFrom_bounded; [done|].
    intros c Hcm. apply Hm in Hcm as [Hcm _]. by eapply bounded_mem.
  - split; [done|]. intros c. unfold has in *. cbn. fold l in Hh. rewrite Hm, Hh. by rewrite (kept_iff _ _ _ (Hh' c)).
Qed.

(** ** Adding *)

(** A set whose packed and wide ranges are supplementary code points. *)
Definition wfRef (ref : CodePointSetRef) : Prop :=
  wf ref /\
  Forall (fun x => UINT16_MAX < firstPacked x /\ lastPacked x <= CODE_POINT_MAX) (getPackedNonBMPRanges ref) /\
  Forall (fun x => UINT16_MAX < i32 (fst x) /\ i32 (snd x) <= CODE_POINT_MAX) (getNonBMPRanges ref).

Lemma u16_range x : 0 <= u16 x <= UINT16_MAX.
Proof. pose proof (wrap_range 16 x). unfold in_unsigned in *. change (2 ^ 16) with 65536 in *. unfold UINT16_MAX. lia. Qed.

Lemma mem_map {A} (f g : A -> Z) l c :
  mem c (map (fun x => (f x, g x)) l) <-> exists x, x ∈ l /\ f x <= c <= g x.
Proof.
  unfold mem. rewrite Exists_exists. setoid_rewrite list_elem_of_fmap. split.
  - intros (? & (x & -> & Hx) & Hc). eauto.
  - intros (x & Hx & Hc). eexists. split; [eexists; done|done].
Qed.

Lemma proper_map {A} (f g : A -> Z) l :
  sortedRanges f g l -> Forall (fun x => 0 <= f x /\ g x <= CODE_POINT_MAX) l ->
  proper (map (fun x => (f x, g x)) l).
Proof.
  intros [Hle _] Hb. apply Forall_forall. intros ? (x & -> & Hx)%list_elem_of_fmap.
  specialize (Hle x Hx). pose proof (proj1 (Forall_forall _ _) Hb x Hx). cbn in *. lia.
Qed.

Lemma refRanges_spec ref : wfRef ref ->
  proper (refRanges ref) /\ forall c, mem c (refRanges ref) <-> contains ref c = true.
Proof.
  intros (Hw & Hp & Hn). pose proof Hw as (Sb & Sp & Sn). split.
  - unfold refRanges. apply Forall_app. split; [|apply Forall_app; split]; apply proper_map; try done.
    + apply Forall_forall. intros x _. pose proof (u16_range (Z.shiftr x 16)).
      pose proof (u16_range (Z.land x 0xFFFF)).
      unfold firstBMP, lastBMP, UINT16_MAX, CODE_POINT_MAX in *. lia.
    + eapply Forall_impl; [exact Hp|]. cbn. unfold UINT16_MAX. lia.
    + eapply Forall_impl; [exact Hn|]. cbn. unfold UINT16_MAX. lia.
  - intros c. rewrite contains_iff by done. unfold refRanges, covered.
    rewrite !mem_app, !mem_map.
    rewrite Forall_forall in Hp. rewrite Forall_forall in Hn.
    assert (forall x, 0 <= firstBMP x /\ lastBMP x <= UINT16_MAX) as Hbmp.
    { intros x. split; apply u16_range. }
    case_decide as Hc.
    + split; [|naive_solver]. intros [(x & Hx & ?)|[(x & Hx & ?)|(x & Hx & ?)]].
      * pose proof (Hbmp x). split; [lia|eauto].
      * apply Hp in Hx. lia.
      * apply Hn in Hx. lia.
    + split.
      * intros [(x & Hx & ?)|H]; [pose proof (Hbmp x); lia|].
        split; [unfold UINT16_MAX in Hc; lia|exact H].
      * intros [_ H]. by right.
Qed.

Lemma mem_single l c : mem c (map single l) <-> c ∈ l.
Proof.
  change single with (fun x : Z => (x, x)). rewrite mem_map. split; [|eauto with lia].
  intros (x & Hx & Hc). by assert (c = x) as -> by lia.
Qed.

Lemma proper_single l : Forall (fun c => isCodePoint c = true) l -> proper (map single l).
Proof.
  intros Hl. apply Forall_forall. intros ? (x & -> & Hx)%list_elem_of_fmap.
  pose proof (proj1 (Forall_forall _ _) Hl x Hx) as H. cbn in *. unfold isCodePoint in H. zbool. lia.
Qed.

Lemma elem_filter {A} (f : A -> bool) l x : x ∈ List.filter f l <-> x ∈ l /\ f x = true.
Proof. rewrite !list_elem_of_In. apply filter_In. Qed.

Lemma addData_spec b data : inv b ->
  inv (addData b data) /\
  forall c, has (addData b data) c <-> has b c \/ (c ∈ data /\ isCodePoint c = true).
Proof.
  intros Hb. destruct (appendRanges_spec b (map single (List.filter isCodePoint data)) Hb) as [Hi Hm].
  { apply proper_single, Forall_forall. by intros c [_ ?]%elem_filter. }
  split; [done|]. intros c. unfold addData. by rewrite Hm, mem_single, elem_filter.
Qed.

Lemma addRef_spec b ref : inv b -> wfRef ref ->
  inv (addRef b ref) /\ forall c, has (addRef b ref) c <-> has b c \/ contains ref c = true.
Proof.
  intros Hb Hr. destruct (refRanges_spec ref Hr) as [Hp Hm].
  destruct (appendRanges_spec b _ Hb Hp) as [Hi Hm']. split; [done|].
  intros c. unfold addRef. by rewrite Hm', Hm.
Qed.

Lemma addBuilder_spec b other : inv b -> inv other ->
  inv (addBuilder b other) /\ forall c, has (addBuilder b other) c <-> has b c \/ has other c.
Proof. intros Hb [Hp _]. by apply appendRanges_spec. Qed.

Section fold.
Context `{UcdLaws}.

(** The code points that [addRange] adds. *)
Definition ranged (first last : Z) (caseFold : bool) (c : Z) : Prop :=
  if caseFold
  then exists d, Z.min first last <= d <= Z.max first last /\ isCodePoint d = true /\ doSimpleCaseFolding d = c
  else Z.min first last <= c <= Z.max first last /\ isCodePoint c = true.

Lemma elem_pointsFrom first last c : c ∈ pointsFrom first last <-> first <= c <= last.
Proof. unfold pointsFrom. rewrite elem_of_seqZ. lia. Qed.

Lemma isCodePoint_spec c : isCodePoint c = true <-> 0 <= c <= CODE_POINT_MAX.
Proof. unfold isCodePoint. by rewrite andb_true_iff, !Z.leb_le. Qed.

(** At least one of the code points is in the interval. *)
Definition overlaps (first last : Z) : Prop := Z.min first last <= CODE_POINT_MAX /\ 0 <= Z.max first last.

Lemma addRange_spec b first last caseFold : inv b -> overlaps first last ->
  inv (addRange b first last caseFold) /\
  forall c, has (addRange b first last caseFold) c <-> has b c \/ ranged first last caseFold c.
Proof.
  intros Hb [Ho Ho']. unfold addRange.
  set (a := Z.max 0 (Z.min first last)). set (z := Z.min CODE_POINT_MAX (Z.max first last)).
  assert (0 <= a /\ a <= z /\ z <= CODE_POINT_MAX) as Haz by (unfold CODE_POINT_MAX in *; lia).
  assert (forall c, a <= c <= z <-> Z.min first last <= c <= Z.max first last /\ isCodePoint c = true) as Hin.
  { intros c. rewrite isCodePoint_spec. lia. }
  set (l := if caseFold then _ else _).
  destruct (appendRanges_spec b l Hb) as [Hi Hm].
  { subst l. destruct caseFold; [|by repeat constructor; cbn; lia].
    rewrite <- (map_map doSimpleCaseFolding single). apply proper_single, Forall_forall.
    intros ? (d & -> & Hd)%list_elem_of_fmap. apply fold_codePoint.
    apply elem_pointsFrom, Hin in Hd. tauto. }
  split; [done|]. intros c. rewrite Hm. subst l. unfold ranged. destruct caseFold.
  - rewrite <- (map_map doSimpleCaseFolding single), mem_single.
    setoid_rewrite list_elem_of_fmap. setoid_rewrite elem_pointsFrom. setoid_rewrite Hin. naive_solver.
  - rewrite mem_cons, mem_nil, Hin. tauto.
Qed.

Lemma elem_affected l c : c ∈ affected l <-> mem c l /\ doSimpleCaseFolding c <> c.
Proof.
  unfold affected. rewrite list_elem_of_In, in_flat_map, mem_elem. split.
  - intros ([a z] & Hin & Hc). apply list_elem_of_In in Hin. apply list_elem_of_In in Hc.
    apply elem_filter in Hc as [Hc Hf]. apply elem_pointsFrom in Hc. zbool. naive_solver.
  - intros ((a & z & Hin & Hc) & Hf). exists (a, z). rewrite <- !list_elem_of_In. split; [done|].
    apply elem_filter. split; [by apply elem_pointsFrom|].
    apply negb_true_iff, Z.eqb_neq. congruence.
Qed.

Lemma collect_spec data : forall b, inv b -> Forall (fun c => isCodePoint c = true) data ->
  inv (fold_left (fun old c => addRange old c c false) data b) /\
  forall c, has (fold_left (fun old c => addRange old c c false) data b) c <-> has b c \/ c ∈ data.
Proof.
  induction data as [|d data IH]; intros b Hb Hd; cbn [fold_left].
  { split; [done|]. intros c. rewrite elem_of_nil. tauto. }
  apply Forall_cons in Hd as [Hd Hrest]. apply isCodePoint_spec in Hd as Hd'.
  destruct (addRange_spec b d d false Hb) as [Hi Hm]; [split; lia|].
  destruct (IH _ Hi Hrest) as [Hi' Hm']. split; [done|]. intros c. rewrite Hm', Hm, elem_of_cons.
  unfold ranged. rewrite Z.min_id, Z.max_id. split; [|naive_solver lia].
  intros [[?|[? _]]|?]; [tauto| |tauto]. right. left. lia.
Qed.

Lemma has_codePoint b c : inv b -> has b c -> isCodePoint c = true.
Proof.
  intros [Hp _] Hm. apply isCodePoint_spec. apply mem_elem in Hm as (a & z & Hin & Hc).
  pose proof (proj1 (Forall_forall _ _) Hp _ Hin). cbn in *. lia.
Qed.

Lemma foldCase_spec b : inv b ->
  inv (foldCase b) /\
  forall c, has (foldCase b) c <-> exists d, has b d /\ doSimpleCaseFolding d = c.
Proof.
  intros Hb. unfold foldCase. destruct (tidy_spec b Hb) as (Hc & Hd & Hh).
  pose proof (inv_compact _ Hc) as Hb1.
  set (b1 := tryToSortAndCompact b) in *. set (before := affected (codePointRanges b1)).
  assert (forall c, c ∈ before <-> has b c /\ doSimpleCaseFolding c <> c) as Hbefore.
  { intros c. subst before. rewrite elem_affected. unfold has in Hh. by rewrite Hh. }
  destruct (map doSimpleCaseFolding before) as [|f folds] eqn:Efolds.
  - split; [done|]. apply map_eq_nil in Efolds. intros c. rewrite Hh. split.
    + intros Hin. exists c. split; [done|]. apply dec_stable. intros Hne.
      assert (c ∈ before) as Hx by (apply Hbefore; auto). rewrite Efolds in Hx. by apply elem_of_nil in Hx.
    + intros (d & Hin & <-). destruct (decide (doSimpleCaseFolding d = d)) as [->|Hne]; [done|].
      assert (d ∈ before) as Hx by (apply Hbefore; auto). rewrite Efolds in Hx. by apply elem_of_nil in Hx.
  - rewrite <- Efolds. clear f folds Efolds.
    destruct (collect_spec before emptyBuilder inv_empty) as [Hi Hm].
    { apply Forall_forall. intros c [Hin _]%Hbefore. by apply (has_codePoint b). }
    destruct (remove_spec b1 _ false Hb1 Hi) as (Hi' & _ & Hm').
    destruct (addData_spec _ (map doSimpleCaseFolding before) Hi') as [Hi'' Hm''].
    split; [done|]. intros c. unfold sub. rewrite Hm'', Hm', Hh, Hm, Hbefore.
    assert (has emptyBuilder c <-> False) as -> by apply mem_nil.
    rewrite list_elem_of_fmap. setoid_rewrite Hbefore. cbn [kept]. split.
    + intros [[Hin Hn]|[(d & -> & Hin & _) _]]; [|by exists d].
      exists c. split; [done|]. apply dec_stable. tauto.
    + intros (d & Hin & <-). destruct (decide (doSimpleCaseFolding d = d)) as [E|Hne].
      * left. rewrite E. tauto.
      * right. split; [by exists d|]. apply fold_codePoint. by apply (has_codePoint b).
Qed.

Lemma complementWithFoldCase_spec b : inv b ->
  inv (complementWithFoldCase b) /\
  forall c, has (complementWithFoldCase b) c <->
    (exists d, isCodePoint d = true /\ doSimpleCaseFolding d = c) /\ ~ has b c.
Proof.
  intros Hb. unfold complementWithFoldCase.
  destruct (addRange_spec emptyBuilder 0 CODE_POINT_MAX false inv_empty) as [Hi Hm]; [done|].
  destruct (foldCase_spec _ Hi) as [Hi' Hm']. destruct (remove_spec _ b false Hi' Hb) as (Hi'' & _ & Hm'').
  split; [done|]. intros c. unfold sub. rewrite Hm'', Hm'. setoid_rewrite Hm. cbn [kept].
  assert (forall d, has emptyBuilder d <-> False) as He by (intros; apply mem_nil).
  assert (forall d, (has emptyBuilder d \/ ranged 0 CODE_POINT_MAX false d) <-> isCodePoint d = true) as Hall.
  { intros d. rewrite He. cbn [ranged]. change (Z.min 0 CODE_POINT_MAX) with 0.
    change (Z.max 0 CODE_POINT_MAX) with CODE_POINT_MAX. rewrite isCodePoint_spec. tauto. }
  by setoid_rewrite Hall.
Qed.
End fold.

(** ** The packed set *)

Fixpoint flatten (l : Ranges) : list Z :=
  match l with [] => [] | (a, z) :: r => a :: z :: flatten r end.

Lemma pairUp_flatten l : pairUp (flatten l) = l.
Proof. induction l as [|[a z] l IH]; cbn; congruence. Qed.

Lemma zlen_flatten l : zlen (flatten l) = 2 * zlen l.
Proof. induction l as [|[a z] l IH]; [done|]. cbn [flatten]. rewrite !zlen_cons, IH. lia. Qed.

Lemma u32_point c : 0 <= c <= CODE_POINT_MAX -> u32 c = c.
Proof.
  intros H. apply wrap_small. unfold in_unsigned, CODE_POINT_MAX in *.
  change (2 ^ 32) with 4294967296. lia.
Qed.

Lemma buildNonBMP_spec l lo :
  UINT16_MAX < lo -> compactFrom lo l -> bounded l -> buildNonBMP l = Some (flatten l).
Proof.
  revert lo. induction l as [|[a z] l IH]; intros lo Hlo; [done|]. intros [Ha Hl] Hb.
  apply Forall_cons in Hb as [Hz Hb]. cbn [snd] in Hz. unfold UINT16_MAX in Hlo. cbn [buildNonBMP flatten].
  assert (forall c, a <= c <= z -> isSupplementaryCodePoint c = true) as Hs.
  { intros c Hc. unfold isSupplementaryCodePoint. apply andb_true_iff. rewrite Z.ltb_lt, Z.leb_le. lia. }
  rewrite !Hs by lia. cbn [negb andb]. rewrite (IH (z + 2)) by (done || (unfold UINT16_MAX; lia)).
  cbn. by rewrite !u32_point by lia.
Qed.

(** The words of the BMP ranges. *)
Definition packBMP (r : Z * Z) : Z := bmpRange (fst r) (snd r).

Lemma u16_point c : 0 <= c <= UINT16_MAX -> u16 c = c.
Proof. intros H. apply wrap_small. unfold in_unsigned, UINT16_MAX in *. change (2 ^ 16) with 65536. lia. Qed.

Lemma packBMP_spec a z : 0 <= a <= UINT16_MAX -> 0 <= z <= UINT16_MAX ->
  firstBMP (packBMP (a, z)) = a /\ lastBMP (packBMP (a, z)) = z.
Proof.
  intros Ha Hz. unfold packBMP, firstBMP, lastBMP, bmpRange. cbn [fst snd].
  rewrite lor_shift_add by (unfold UINT16_MAX in *; change (2 ^ 16) with 65536; lia).
  change 0xFFFF with (Z.ones 16). rewrite Z.land_ones, Z.shiftr_div_pow2 by lia.
  change (2 ^ 16) with 65536. unfold UINT16_MAX in *.
  rewrite Z.div_add_l, Z.div_small, Z.add_0_r by lia.
  rewrite Z.add_comm, Z.mod_add, Z.mod_small by lia. split; apply u16_point; unfold UINT16_MAX; lia.
Qed.

(** The ranges are cut at the end of the BMP. *)
Lemma buildBMP_spec l : forall lo n,
  0 <= n -> 2 * n <= lo -> compactFrom lo l -> bounded l ->
  exists bl nl, buildBMP l n = Some (map packBMP bl ++ flatten nl, n + zlen bl) /\
    compactFrom lo bl /\ Forall (fun r => snd r <= UINT16_MAX) bl /\
    compactFrom (UINT16_MAX + 1) nl /\ bounded nl /\
    forall c, mem c l <-> mem c bl \/ mem c nl.
Proof.
  induction l as [|[a z] l IH]; intros lo n Hn Hlo Hl Hb; cbn [buildBMP].
  { exists [], []. rewrite zlen_nil, Z.add_0_r. split_and!; try done. intros c. rewrite mem_nil. tauto. }
  pose proof Hl as [Ha Hl']. pose proof Hb as [Hz Hb']%Forall_cons. cbn [snd] in Hz.
  unfold isBmpCodePoint. change 65535 with UINT16_MAX.
  rewrite (proj2 (Z.leb_le 0 a)), (proj2 (Z.leb_le 0 z)) by lia. cbn [andb].
  destruct (Z.leb_spec a UINT16_MAX).
  - assert (u16 (n + 1) = n + 1) as E by (apply u16_point; unfold UINT16_MAX in *; lia).
    destruct (Z.leb_spec z UINT16_MAX).
    + destruct (IH (z + 2) (n + 1)) as (bl & nl & Eb & Hbl & Hbb & Hnl & Hbn & Hm); [lia..|done|done|].
      rewrite E, Eb. cbn. rewrite !u16_point by lia. exists ((a, z) :: bl), nl. split.
      { cbn. rewrite zlen_cons. do 2 f_equal. lia. }
      split_and!; [done|by constructor|done|done|].
      intros c. rewrite !mem_cons, Hm. tauto.
    + rewrite (buildNonBMP_spec l (z + 2)) by (done || lia). cbn.
      rewrite E, u16_point, u32_point by lia. exists [(a, UINT16_MAX)], ((UINT16_MAX + 1, z) :: l). split.
      { done. }
      split_and!; [cbn; lia|repeat constructor; done|split; [lia|done]|by constructor|].
      intros c. rewrite !mem_cons, mem_nil. intuition lia.
  - change (buildNonBMP ((a, z) :: l)) with (buildNonBMP ((a, z) :: l)).
    rewrite (buildNonBMP_spec ((a, z) :: l) a) by (lia || done || (split; [lia|done])).
    exists [], ((a, z) :: l). rewrite zlen_nil, Z.add_0_r. split_and!; try done.
    + split; [lia|done].
    + intros c. rewrite mem_nil. tauto.
Qed.

Lemma compactFrom_sorted lo l : compactFrom lo l -> sortedRanges fst snd l.
Proof.
  intros Hl. split; [intros [a z] Hin; by eapply compactFrom_elem|].
  revert lo Hl. induction l as [|[a z] l IH]; intros lo Hl i j x y Hij Hx Hy; [done|].
  destruct Hl as [Ha Hl], j as [|j]; [lia|]. cbn in Hy. destruct i as [|i]; cbn in Hx.
  - simplify_eq. apply list_elem_of_lookup_2 in Hy. destruct y as [p q].
    apply (compactFrom_elem _ _ _ _ Hl) in Hy. cbn. lia.
  - eapply (IH _ Hl i j); [lia|done..].
Qed.

Lemma sortedRanges_map {A} (f g : A -> Z) (h : Z * Z -> A) l :
  (forall x, x ∈ l -> f (h x) = fst x /\ g (h x) = snd x) ->
  sortedRanges fst snd l -> sortedRanges f g (map h l).
Proof.
  intros Hh [Hle Hs]. split.
  - intros ? (x & -> & Hx)%list_elem_of_fmap. destruct (Hh x Hx) as [-> ->]. auto.
  - intros i j x y Hij Hx Hy. rewrite list_lookup_fmap in Hx, Hy.
    destruct (l !! i) as [x'|] eqn:Ei, (l !! j) as [y'|] eqn:Ej; cbn in *; simplify_eq.
    rewrite (proj2 (Hh _ (list_elem_of_lookup_2 _ _ _ Ei))), (proj1 (Hh _ (list_elem_of_lookup_2 _ _ _ Ej))).
    eauto.
Qed.

Lemma i32_point c : 0 <= c <= CODE_POINT_MAX -> i32 c = c.
Proof.
  intros H. apply swrap_small; [lia|]. unfold in_signed, CODE_POINT_MAX in *.
  change (2 ^ (32 - 1)) with 2147483648. lia.
Qed.

Lemma build_spec b : inv b ->
  exists b' s, build b = Some (b', s) /\ b' = tryToSortAndCompact b /\
    wfRef s /\ packedNonBmpSize s = 0 /\ bmpSize s <= CodePointSet.size s /\
    (forall c, contains s c = true <-> has b c).
Proof.
  intros Hb. destruct (tidy_spec b Hb) as ([Hc Hbd] & Hd & Hh). unfold build.
  destruct (buildBMP_spec _ 0 0 (Z.le_refl 0) (Z.le_refl 0) Hc Hbd) as (bl & nl & E & Hbl & Hbb & Hnl & Hbn & Hm).
  rewrite E. cbn [option_bind mbind option_bind]. cbn. eexists _, _. split; [done|]. split; [done|].
  rewrite Z.add_0_l. set (s := Build_CodePointSetRef _ _ _ _).
  assert (Z.to_nat (zlen bl) = length (map packBMP bl)) as Elen by (rewrite length_map; unfold zlen; lia).
  assert (getBMPRanges s = map packBMP bl) as Gb.
  { unfold getBMPRanges. subst s. cbn. by rewrite Elen, take_app_length. }
  assert (getPackedNonBMPRanges s = []) as Gp by done.
  assert (getNonBMPRanges s = nl) as Gn.
  { unfold getNonBMPRanges. subst s. cbn. rewrite Z.add_0_r, Elen, drop_app_length, pairUp_flatten.
    rewrite zlen_app, zlen_flatten. apply take_ge.
    replace (zlen (map packBMP bl) + 2 * zlen nl - zlen bl - 0) with (zlen nl * 2)
      by (unfold zlen; rewrite length_map; lia).
    rewrite Z.div_mul by lia. unfold zlen. lia. }
  assert (forall x, x ∈ bl -> 0 <= fst x <= UINT16_MAX /\ 0 <= snd x <= UINT16_MAX) as Hin.
  { intros [a z] Hx. pose proof (compactFrom_elem _ _ _ _ Hbl Hx).
    pose proof (proj1 (Forall_forall _ _) Hbb _ Hx). cbn in *. lia. }
  assert (forall x, x ∈ nl -> UINT16_MAX < fst x <= CODE_POINT_MAX /\ UINT16_MAX < snd x <= CODE_POINT_MAX) as Hin'.
  { intros [a z] Hx. pose proof (compactFrom_elem _ _ _ _ Hnl Hx).
    pose proof (proj1 (Forall_forall _ _) Hbn _ Hx). cbn in *. lia. }
  assert (forall x, x ∈ nl -> i32 (fst x) = fst x /\ i32 (snd x) = snd x) as Hi.
  { intros x Hx. apply Hin' in Hx. unfold UINT16_MAX in Hx. split; apply i32_point; lia. }
  assert (forall x, x ∈ bl -> firstBMP (packBMP x) = fst x /\ lastBMP (packBMP x) = snd x) as Hp.
  { intros [a z] Hx. apply Hin in Hx as [? ?]. by apply packBMP_spec. }
  assert (wf s) as Hw.
  { split; [|split].
    - rewrite Gb. apply sortedRanges_map; [done|]. by eapply compactFrom_sorted.
    - rewrite Gp. split; [by intros x ?%elem_of_nil|]. intros i j x y ? Hx. done.
    - rewrite Gn. rewrite <- (map_id nl). apply sortedRanges_map; [done|]. by eapply compactFrom_sorted. }
  split_and!.
  - split; [done|]. rewrite Gp, Gn. split; [constructor|]. apply Forall_forall. intros x Hx.
    destruct (Hi x Hx) as [-> ->]. apply Hin' in Hx. lia.
  - done.
  - subst s. cbn. rewrite zlen_app. pose proof (zlen_nonneg (flatten nl)). unfold zlen in *.
    rewrite length_map. lia.
  - intros c. rewrite contains_iff by done. unfold covered. rewrite Gb, Gp, Gn.
    rewrite <- Hh. unfold has. rewrite Hm, !mem_elem. case_decide as Hcm.
    + split.
      * intros [_ (? & (x & -> & Hx)%list_elem_of_fmap & Hr)]. left. destruct (Hp x Hx) as [E1 E2].
        rewrite E1, E2 in Hr. destruct x. eauto.
      * intros [(a & z & Hx & Hr)|(a & z & Hx & Hr)]; [|apply Hin' in Hx; cbn in Hx; lia].
        pose proof (Hin _ Hx). cbn in *. split; [lia|]. exists (packBMP (a, z)). split.
        { apply list_elem_of_fmap. eauto. }
        destruct (Hp _ Hx) as [-> ->]. done.
    + split.
      * intros [_ [(x & ?%elem_of_nil & _)|([a z] & Hx & Hr)]]; [done|]. right. exists a, z.
        split; [done|]. destruct (Hi _ Hx) as [E1 E2]. by rewrite E1, E2 in Hr.
      * intros [(a & z & Hx & Hr)|(a & z & Hx & Hr)]; [apply Hin in Hx; cbn in Hx; lia|].
        split; [unfold UINT16_MAX in *; lia|]. right. exists (a, z). split; [done|].
        destruct (Hi _ Hx) as [-> ->]. done.
Qed.

(** ** Sequences of operations

    An expression is how a builder came to be; every operation with its arguments. *)

Inductive SetExpr :=
| NoPoints
| AddRef (e : SetExpr) (ref : CodePointSetRef)
| AddRange (e : SetExpr) (first last : Z) (caseFold : bool)
| AddData (e : SetExpr) (data : list Z)
| AddBuilder (e other : SetExpr)
| Clear (e : SetExpr)
| SubRef (e : SetExpr) (ref : CodePointSetRef)
| Sub (e other : SetExpr)
| IntersectRef (e : SetExpr) (ref : CodePointSetRef)
| Intersect (e other : SetExpr)
| Complement (e : SetExpr)
| FoldCase (e : SetExpr)
| ComplementWithFoldCase (e : SetExpr).

Section expr.
Context `{Ucd}.

(** The builder. *)
Fixpoint construct (e : SetExpr) : option Builder :=
  match e with
  | NoPoints => Some emptyBuilder
  | AddRef e ref => b ← construct e; Some (addRef b ref)
  | AddRange e first last caseFold => b ← construct e; Some (addRange b first last caseFold)
  | AddData e data => b ← construct e; Some (addData b data)
  | AddBuilder e other => b ← construct e; o ← construct other; Some (addBuilder b o)
  | Clear e => b ← construct e; Some (clear b)
  | SubRef e ref => b ← construct e; Some (subRef b ref)
  | Sub e other => b ← construct e; o ← construct other; Some (fst (sub b o))
  | IntersectRef e ref => b ← construct e; Some (intersectRef b ref)
  | Intersect e other => b ← construct e; o ← construct other; Some (fst (intersect b o))
  | Complement e => b ← construct e; complement b
  | FoldCase e => b ← construct e; Some (foldCase b)
  | ComplementWithFoldCase e => b ← construct e; Some (complementWithFoldCase b)
  end.

(** The set. *)
Fixpoint denotes (e : SetExpr) (c : Z) : Prop :=
  match e with
  | NoPoints => False
  | AddRef e ref => denotes e c \/ contains ref c = true
  | AddRange e first last caseFold => denotes e c \/ ranged first last caseFold c
  | AddData e data => denotes e c \/ (c ∈ data /\ isCodePoint c = true)
  | AddBuilder e other => denotes e c \/ denotes other c
  | Clear e => False
  | SubRef e ref => denotes e c /\ contains ref c <> true
  | Sub e other => denotes e c /\ ~ denotes other c
  | IntersectRef e ref => denotes e c /\ contains ref c = true
  | Intersect e other => denotes e c /\ denotes other c
  | Complement e => isCodePoint c = true /\ ~ denotes e c
  | FoldCase e => exists d, denotes e d /\ doSimpleCaseFolding d = c
  | ComplementWithFoldCase e =>
      (exists d, isCodePoint d = true /\ doSimpleCaseFolding d = c) /\ ~ denotes e c
  end.

(** The sets that are passed are well-formed, and the ranges hold code points. *)
Fixpoint wfExpr (e : SetExpr) : Prop :=
  match e with
  | NoPoints => True
  | AddRef e ref | SubRef e ref | IntersectRef e ref => wfExpr e /\ wfRef ref
  | AddRange e first last _ => wfExpr e /\ overlaps first last
  | AddBuilder e other | Sub e other | Intersect e other => wfExpr e /\ wfExpr other
  | AddData e _ | Clear e | Complement e | FoldCase e | ComplementWithFoldCase e => wfExpr e
  end.

Lemma removeRef_spec b ref invert : inv b -> wfRef ref ->
  inv (removeRef b ref invert) /\
  forall c, has (removeRef b ref invert) c <-> has b c /\ kept invert (contains ref c = true).
Proof.
  intros Hb Hr. destruct (addRef_spec emptyBuilder ref inv_empty Hr) as [Hi Hm].
  destruct (remove_spec b _ invert Hb Hi) as (Hi' & _ & Hm'). split; [done|].
  intros c. unfold removeRef. rewrite Hm'.
  assert (has (addRef emptyBuilder ref) c <-> contains ref c = true) as E.
  { rewrite Hm. assert (has emptyBuilder c <-> False) as -> by apply mem_nil. tauto. }
  by rewrite (kept_iff _ _ _ E).
Qed.

Lemma construct_spec `{!UcdLaws} e : wfExpr e ->
  exists b, construct e = Some b /\ inv b /\ forall c, has b c <-> denotes e c.
Proof.
  induction e as [|e IH ref|e IH a z f|e IH data|e IH o IHo|e IH|e IH ref|e IH o IHo|e IH ref|e IH o IHo|e IH|e IH|e IH];
    cbn [wfExpr construct denotes]; intros Hw.
  { exists emptyBuilder. split; [done|]. split; [apply inv_empty|]. intros c. apply mem_nil. }
  all: try (destruct Hw as [Hw Hw2]); destruct (IH Hw) as (b & -> & Hb & Hm);
    try (destruct (IHo Hw2) as (b' & -> & Hb' & Hm')); cbn.
  - eexists. split; [done|]. destruct (addRef_spec b ref Hb Hw2) as [Hi E]. split; [done|].
    intros c. by rewrite E, Hm.
  - eexists. split; [done|]. destruct (addRange_spec b a z f Hb Hw2) as [Hi E]. split; [done|].
    intros c. by rewrite E, Hm.
  - eexists. split; [done|]. destruct (addData_spec b data Hb) as [Hi E]. split; [done|].
    intros c. by rewrite E, Hm.
  - eexists. split; [done|]. destruct (addBuilder_spec b b' Hb Hb') as [Hi E]. split; [done|].
    intros c. by rewrite E, Hm, Hm'.
  - eexists. split; [done|]. split; [by repeat constructor|]. intros c. apply mem_nil.
  - eexists. split; [done|]. destruct (removeRef_spec b ref false Hb Hw2) as [Hi E]. split; [done|].
    intros c. by unfold subRef; rewrite E, Hm.
  - eexists. split; [done|]. destruct (remove_spec b b' false Hb Hb') as (Hi & _ & E). split; [done|].
    intros c. unfold sub. rewrite E, Hm. cbn [kept]. by rewrite Hm'.
  - eexists. split; [done|]. destruct (removeRef_spec b ref true Hb Hw2) as [Hi E]. split; [done|].
    intros c. by unfold intersectRef; rewrite E, Hm.
  - eexists. split; [done|]. destruct (remove_spec b b' true Hb Hb') as (Hi & _ & E). split; [done|].
    intros c. unfold intersect. rewrite E, Hm. cbn [kept]. by rewrite Hm'.
  - destruct (complement_spec b Hb) as (b1 & -> & Hi & E). eexists. split; [done|]. split; [done|].
    intros c. by rewrite E, Hm.
  - eexists. split; [done|]. destruct (foldCase_spec b Hb) as [Hi E]. split; [done|].
    intros c. rewrite E. by setoid_rewrite Hm.
  - eexists. split; [done|]. destruct (complementWithFoldCase_spec b Hb) as [Hi E]. split; [done|].
    intros c. by rewrite E, Hm.
Qed.


(** The ranges of a compacted builder are canonical: two ways to make the same
    set give the same ranges. *)
Theorem builder_canonical `{!UcdLaws} e1 e2 :
  wfExpr e1 -> wfExpr e2 -> (forall c, denotes e1 c <-> denotes e2 c) ->
  exists b1 b2, construct e1 = Some b1 /\ construct e2 = Some b2 /\
    tryToSortAndCompact b1 = tryToSortAndCompact b2.
Proof.
  intros H1 H2 Heq. destruct (construct_spec e1 H1) as (b1 & -> & Hb1 & Hm1).
  destruct (construct_spec e2 H2) as (b2 & -> & Hb2 & Hm2). exists b1, b2. do 2 (split; [done|]).
  destruct (tidy_spec b1 Hb1) as ([Hc1 _] & Hd1 & Hh1), (tidy_spec b2 Hb2) as ([Hc2 _] & Hd2 & Hh2).
  destruct (tryToSortAndCompact b1) as [d1 l1], (tryToSortAndCompact b2) as [d2 l2]. cbn in *.
  subst. f_equal. eapply compact_unique; [done..|]. intros c. unfold has in *. cbn in *.
  by rewrite Hh1, Hh2, Hm1, Hm2.
Qed.
End expr.

(** All but the letters from i to z, from the upper case letters by folding. *)
Definition exampleExpr : SetExpr :=
  Complement (Intersect (AddRef (FoldCase (AddRange NoPoints 0x41 0x5A false)) sampleSet)
                        (AddRange NoPoints 0x49 0x5A true)).

(** One set, written in two ways. *)
Definition lettersSub : SetExpr := Sub (AddRange NoPoints 97 122 false) (AddRange NoPoints 105 122 false).
Definition lettersRange : SetExpr := AddRange (AddRange NoPoints 101 104 false) 100 97 false.

Lemma sampleSet_wfRef : wfRef sampleSet.
Proof.
  split; [apply sampleSet_wf|]. split; apply Forall_singleton; (split; vm_compute; [done|discriminate]).
Qed.

Lemma exampleExpr_wf : wfExpr exampleExpr.
Proof. cbn. split_and!; try done; try apply sampleSet_wfRef; split; vm_compute; discriminate. Qed.


(** The example runs. *)
Example exampleExpr_ranges :
  (b ← @construct asciiUcd exampleExpr; r ← build b; Some (codePointRanges (fst r), ptr (snd r))) =
  Some ([(0, 0x68); (0x7B, CODE_POINT_MAX)],
        [0x68; 0x7BFFFF; 0x10000; CODE_POINT_MAX]).
Proof. vm_compute; reflexivity. Qed.

Lemma letters_equal c : @denotes asciiUcd lettersSub c <-> @denotes asciiUcd lettersRange c.
Proof. cbn. rewrite isCodePoint_spec. unfold CODE_POINT_MAX. intuition lia. Qed.

Lemma builder_canonical_witness :
  exists b1 b2, @construct asciiUcd lettersSub = Some b1 /\ @construct asciiUcd lettersRange = Some b2 /\
    tryToSortAndCompact b1 = tryToSortAndCompact b2.
Proof.
  apply (@builder_canonical asciiUcd asciiLaws lettersSub lettersRange); [| |exact letters_equal];
    cbn; unfold overlaps, CODE_POINT_MAX; lia.
Defined.

End SetBuilder.
