(* ===== verification/RegexNode.v ===== *)
(** The lowered syntax tree of the regular expression engine: the nodes of
    src/regex/node.h and src/regex/transform.h that the code generator accepts,
    the flags of src/regex/flag.h, the capture tables of src/regex/capture.h, and
    the counting of the groups in the body of a loop (src/regex/parser.cpp). *)
From S2P Require Import Prelude CodePointSet RadixTree.

Module RegexNode.

(** ** Modifiers *)

Inductive Mode := BMP | UNICODE | UNICODE_SET.

Definition IGNORE_CASE : Z := 1.
Definition MULTILINE : Z := 2.
Definition DOT_ALL : Z := 4.

(** ** Captures *)

Record Capture := { cap_offset : Z; cap_size : Z }.

Definition unsetCapture : Capture := {| cap_offset := UINT32_MAX; cap_size := UINT32_MAX |}.
Definition isUnset (c : Capture) : bool :=
  (cap_offset c =? UINT32_MAX) && (cap_size c =? UINT32_MAX).
Definition endOffset (c : Capture) : Z := u32 (cap_offset c + cap_size c).

(** One index, or the several indices of a duplicated name. *)
Inductive NamedCaptureEntry :=
| SingleIndex (index : Z)
| MultipleIndices (indices : list Z).

Definition hasMultipleIndices (e : NamedCaptureEntry) : bool :=
  match e with SingleIndex _ => false | MultipleIndices _ => true end.

Definition NamedCaptureGroups : Type := list (bytes * NamedCaptureEntry).

Definition find (g : NamedCaptureGroups) (name : bytes) : option NamedCaptureEntry :=
  match list_find (fun e => fst e = name) g with
  | Some (_, (_, e)) => Some e
  | None => None
  end.

Definition findByIndex (g : NamedCaptureGroups) (index : Z) : option NamedCaptureEntry :=
  if index <? zlen g then snd <$> g !! Z.to_nat index else None.

(** [captures[i]]; reading past the array is undefined, hence [None]. *)
Definition captureAt (captures : list Capture) (i : Z) : option Capture :=
  if i <? 0 then None else captures !! Z.to_nat i.

(** The first set capture among the indices, the unset one if there is none. *)
Fixpoint firstValid (indices : list Z) (captures : list Capture) : option Capture :=
  match indices with
  | [] => Some unsetCapture
  | i :: rest =>
      c ← captureAt captures i;
      if isUnset c then firstValid rest captures else Some c
  end.

Definition findValidNamedCapture (e : NamedCaptureEntry) (captures : list Capture)
    : option Capture :=
  match e with
  | MultipleIndices l => firstValid l captures
  | SingleIndex i => captureAt captures i
  end.

(** ** Nodes *)

Inductive BoundaryType := START | END | WORD | NOT_WORD.
Inductive LookAroundType := LOOK_AHEAD | LOOK_AHEAD_NOT | LOOK_BEHIND | LOOK_BEHIND_NOT.
Inductive GroupType := CAPTURE | NON_CAPTURE | MODIFIER.

Definition UNLIMIT : Z := UINT32_MAX.
Definition QUANTIFIER_MAX : Z := UINT16_MAX.
Definition LOOP_INDEX_MAX : Z := UINT16_MAX.
Definition CAPTURE_GROUP_INDEX_MAX : Z := UINT16_MAX.

(** The fields of RepeatNode besides its pattern. *)
Record Quantifier := {
  loopIndex : Z;
  qmin : Z;
  qmax : Z;
  greedy : bool;
  firstGroupIndex : Z;  (* 0 when the body has no capture group *)
  lastGroupIndex : Z
}.

Inductive Node :=
| EmptyNode
| AnyNode (modifier : Z)
| CharNode (codePoint : Z)
| BoundaryNode (type : BoundaryType) (modifier : Z)
| BackRefNode (named : bool) (index : Z) (ignoreCase : bool)
| RepeatNode (q : Quantifier) (pattern : Node)
| SeqNode (patterns : list Node)
| AltNode (patterns : list Node)
| LookAroundNode (type : LookAroundType) (pattern : Node)
| GroupNode (type : GroupType) (groupIndex : Z) (pattern : Node)
| FoldCharNode (codePoint : Z)
| CharSetNode (set : CodePointSet.CodePointSetRef) (invert ignoreCase : bool)
| StrSetNode (emoji : Z) (radix : RadixTree.RadixTree) (chars : option Node) (ignoreCase : bool)
| GraphemeNode  (* PropertyNode of type GRAPHEME *).

Definition isLookAhead (t : LookAroundType) : bool :=
  match t with LOOK_AHEAD | LOOK_AHEAD_NOT => true | LOOK_BEHIND | LOOK_BEHIND_NOT => false end.
Definition isNegate (t : LookAroundType) : bool :=
  match t with LOOK_AHEAD_NOT | LOOK_BEHIND_NOT => true | LOOK_AHEAD | LOOK_BEHIND => false end.

Definition isCharNode (n : Node) : bool := match n with CharNode _ => true | _ => false end.
Definition isEmptyNode (n : Node) : bool := match n with EmptyNode => true | _ => false end.

Definition hasInnerCaptureGroups (q : Quantifier) : bool := negb (firstGroupIndex q =? 0).
Definition isUnlimited (q : Quantifier) : bool := qmax q =? UNLIMIT.

(** [countGroupsImpl]: [(first, last)] updated by the groups of a node. *)
Fixpoint countGroupsImpl (n : Node) (count : Z * Z) : Z * Z :=
  match n with
  | RepeatNode q _ =>
      if firstGroupIndex q =? 0 then count
      else (if fst count =? 0 then firstGroupIndex q else fst count, lastGroupIndex q)
  | SeqNode l | AltNode l =>
      (fix go l count := match l with [] => count | e :: r => go r (countGroupsImpl e count) end) l count
  | LookAroundNode _ p => countGroupsImpl p count
  | GroupNode t i p =>
      countGroupsImpl p
        (match t with
         | CAPTURE => (if fst count =? 0 then u16 i else fst count, u16 i)
         | _ => count
         end)
  | _ => count
  end.

Definition countGroups (n : Node) : Z * Z := countGroupsImpl n (0, 0).

(** The RepeatNode constructor, and its three short forms. *)
Definition mkRepeat (loopIndex : Z) (pattern : Node) (min max : Z) (greedy : bool) : Node :=
  let '(first, last) := countGroups pattern in
  RepeatNode {| loopIndex := loopIndex; qmin := min; qmax := max; greedy := greedy;
                firstGroupIndex := first; lastGroupIndex := last |} pattern.

Definition option_ (loopIndex : Z) (p : Node) (greedy : bool) : Node :=
  mkRepeat loopIndex p 0 1 greedy.
Definition zeroOrMore (loopIndex : Z) (p : Node) (greedy : bool) : Node :=
  mkRepeat loopIndex p 0 UNLIMIT greedy.
Definition oneOrMore (loopIndex : Z) (p : Node) (greedy : bool) : Node :=
  mkRepeat loopIndex p 1 UNLIMIT greedy.

(** What the parser and the lowering pass hand to the code generator. *)
Record SyntaxTree := {
  loopCount : Z;
  captureGroupCount : Z;
  pattern : Node;
  namedCaptureGroups : NamedCaptureGroups
}.

(** ** Induction over nested nodes *)

Section node_ind.
Context (P : Node -> Prop).
Context (Hempty : P EmptyNode) (Hany : forall m, P (AnyNode m)) (Hchar : forall c, P (CharNode c)).
Context (Hbound : forall t m, P (BoundaryNode t m)).
Context (Hback : forall n i ic, P (BackRefNode n i ic)).
Context (Hrep : forall q p, P p -> P (RepeatNode q p)).
Context (Hseq : forall l, Forall P l -> P (SeqNode l)).
Context (Halt : forall l, Forall P l -> P (AltNode l)).
Context (Hlook : forall t p, P p -> P (LookAroundNode t p)).
Context (Hgroup : forall t i p, P p -> P (GroupNode t i p)).
Context (Hfold : forall c, P (FoldCharNode c)).
Context (Hset : forall s i ic, P (CharSetNode s i ic)).
Context (Hstr : forall e r chars ic, (forall c, chars = Some c -> P c) -> P (StrSetNode e r chars ic)).
Context (Hgraph : P GraphemeNode).

Fixpoint Node_nested_ind (n : Node) : P n :=
  let go := fix go (l : list Node) : Forall P l :=
    match l with
    | [] => Forall_nil_2 P
    | x :: r => Forall_cons_2 P x r (Node_nested_ind x) (go r)
    end in
  match n with
  | EmptyNode => Hempty
  | AnyNode m => Hany m
  | CharNode c => Hchar c
  | BoundaryNode t m => Hbound t m
  | BackRefNode nm i ic => Hback nm i ic
  | RepeatNode q p => Hrep q p (Node_nested_ind p)
  | SeqNode l => Hseq l (go l)
  | AltNode l => Halt l (go l)
  | LookAroundNode t p => Hlook t p (Node_nested_ind p)
  | GroupNode t i p => Hgroup t i p (Node_nested_ind p)
  | FoldCharNode c => Hfold c
  | CharSetNode s i ic => Hset s i ic
  | StrSetNode e r chars ic =>
      Hstr e r chars ic
        match chars as o return forall c, o = Some c -> P c with
        | Some c0 => fun c E => eq_ind c0 P (Node_nested_ind c0) c (f_equal (default c0) E)
        | None => fun c E => False_ind _ (eq_ind None (fun o => match o with None => True | Some _ => False end) I _ E)
        end
  | GraphemeNode => Hgraph
  end.
End node_ind.

End RegexNode.
