(* ===== verification/RegexInput.v ===== *)
(** The input cursor of the matcher (src/regex/input.h): WTF-8 text, read in
    both directions one code point at a time.  A [const char *] into the text is
    the byte offset from its beginning. *)
From S2P Require Import Prelude Unicode StringRef.

Module RegexInput.
Import UnicodeUtil.

(** The byte at an offset; reading outside of the text is undefined, 0 here. *)
Definition byteAt (t : bytes) (i : Z) : Z := if i <? 0 then 0 else nth (Z.to_nat i) t 0.

(** [unsafeNextUtf8(iter)]: the code point and the advanced iterator. *)
Definition unsafeNextUtf8 (t : bytes) (iter : Z) : Z * Z :=
  let b := byteAt t iter in
  if b <? 128 then (b, iter + 1)
  else
    let b1 := byteAt t (iter + 1) in
    let b2 := byteAt t (iter + 2) in
    let b3 := byteAt t (iter + 3) in
    let len := utf8ByteSize b in
    let codePoint :=
      if len =? 2 then Z.lor (Z.shiftl (Z.land b 0x1F) 6) (Z.land b1 0x3F)
      else if len =? 3 then
        Z.lor (Z.lor (Z.shiftl (Z.land b 0x0F) 12) (Z.shiftl (Z.land b1 0x3F) 6)) (Z.land b2 0x3F)
      else
        Z.lor (Z.lor (Z.lor (Z.shiftl (Z.land b 0x07) 18) (Z.shiftl (Z.land b1 0x3F) 12))
          (Z.shiftl (Z.land b2 0x3F) 6)) (Z.land b3 0x3F) in
    (codePoint, iter + len).

Definition unsafeNextUtf8Noreturn (t : bytes) (iter : Z) : Z := iter + utf8ByteSize (byteAt t iter).

(** [masks[len - 1]] *)
Definition prevMask (len : Z) : Z := nth (Z.to_nat (len - 1)) [0xFF; 0x1F; 0x0F; 0x07] 0.

(** The loop of [unsafePrevUtf8]; it ends at the latest at the start of the text. *)
Fixpoint prevLoop (fuel : nat) (t : bytes) (iter codePoint shift : Z) : Z * Z :=
  match fuel with
  | O => (codePoint, iter)
  | S fuel' =>
      let iter := iter - 1 in
      let b := byteAt t iter in
      let len := utf8ByteSize b in
      if len =? 0
      then prevLoop fuel' t iter (Z.lor codePoint (Z.shiftl (Z.land b 0x3F) shift)) (shift + 6)
      else (Z.lor codePoint (Z.shiftl (Z.land b (prevMask len)) shift), iter)
  end.

Definition unsafePrevUtf8 (t : bytes) (iter : Z) : Z * Z := prevLoop (Z.to_nat iter) t iter 0 0.

(** On a string: a shorter one. *)
Definition unsafeRemovePrefixUtf8 (ref : bytes) : bytes := drop (Z.to_nat (utf8ByteSize (byteAt ref 0))) ref.
Definition unsafeRemoveSuffixUtf8 (ref : bytes) : bytes :=
  take (Z.to_nat (snd (unsafePrevUtf8 ref (zlen ref)))) ref.

(** ** Input *)

Record Input := { text : bytes; iter : Z }.

Definition INPUT_MAX : Z := UINT32_MAX.

Inductive Error := TOO_LARGE | INVALID_UTF8.

(** The validation loop of [Input::create]: the byte offset of the
    [codePointOffset]-th code point, [None] for invalid text. *)
Fixpoint validate (fuel : nat) (rest : bytes) (count codePointOffset offset : Z) : option Z :=
  match rest with
  | [] => Some offset
  | _ :: _ =>
      match fuel with
      | O => None
      | S fuel' =>
          let len := wtf8ValidateChar rest in
          if len =? 0 then None
          else validate fuel' (drop (Z.to_nat len) rest) (u32 (count + 1)) codePointOffset
                 (if count <? codePointOffset then u32 (offset + len) else offset)
      end
  end.

Definition create (t : bytes) (codePointOffset : Z) : Error + Input :=
  if INPUT_MAX <? zlen t then inl TOO_LARGE
  else match validate (length t) t 0 codePointOffset 0 with
       | Some offset => inr {| text := t; iter := offset |}
       | None => inl INVALID_UTF8
       end.

Definition available (i : Input) : bool := negb (iter i =? zlen (text i)).
Definition availableBackward (i : Input) : bool := negb (iter i =? 0).
Definition isBegin (i : Input) : bool := iter i =? 0.
Definition isEnd (i : Input) : bool := iter i =? zlen (text i).
Definition setIter (i : Input) (p : Z) : Input := {| text := text i; iter := p |}.
Definition getOffset (i : Input) : Z := u32 (iter i).

Definition cur (i : Input) : Z := fst (unsafeNextUtf8 (text i) (iter i)).
Definition consumeForward (i : Input) : Z * Input :=
  let '(c, p) := unsafeNextUtf8 (text i) (iter i) in (c, setIter i p).
Definition prev (i : Input) : Z := fst (unsafePrevUtf8 (text i) (iter i)).
Definition consumeBackward (i : Input) : Z * Input :=
  let '(c, p) := unsafePrevUtf8 (text i) (iter i) in (c, setIter i p).

Definition remainForward (i : Input) : bytes := drop (Z.to_nat (iter i)) (text i).
Definition remainBackward (i : Input) : bytes := take (Z.to_nat (iter i)) (text i).

(** The loops of [remainForwardOfCodePoints] and [remainBackwardOfCodePoints] after
    [codePointCount - n] rounds. *)
Fixpoint forwardBy (n : nat) (t : bytes) (cur : Z) : Z :=
  match n with
  | O => cur
  | S n' => if cur <? zlen t then forwardBy n' t (cur + utf8ByteSize (byteAt t cur)) else cur
  end.
Fixpoint backwardBy (n : nat) (t : bytes) (cur : Z) : Z :=
  match n with
  | O => cur
  | S n' => if 0 <? cur then backwardBy n' t (snd (unsafePrevUtf8 t cur)) else cur
  end.

(** The [n] bytes from the cursor, and before it. *)
Definition bytesForward (i : Input) (n : Z) : bytes := take (Z.to_nat n) (drop (Z.to_nat (iter i)) (text i)).
Definition bytesBackward (i : Input) (n : Z) : bytes :=
  take (Z.to_nat n) (drop (Z.to_nat (iter i - n)) (text i)).

Definition remainForwardOfCodePoints (i : Input) (codePointCount : Z) : bytes :=
  bytesForward i (forwardBy (Z.to_nat codePointCount) (text i) (iter i) - iter i).
Definition remainBackwardOfCodePoints (i : Input) (codePointCount : Z) : bytes :=
  bytesBackward i (iter i - backwardBy (Z.to_nat codePointCount) (text i) (iter i)).

(** [expectForward needle]: the input past the needle, or [None]. *)
Definition expectForward (i : Input) (needle : bytes) : option Input :=
  if StringRef.startsWith (remainForward i) needle
  then Some (setIter i (iter i + zlen needle)) else None.

Definition expectBackward (i : Input) (needle : bytes) : option Input :=
  if StringRef.endsWith (remainBackward i) needle
  then Some (setIter i (iter i - zlen needle)) else None.

End RegexInput.
