(* ===== verification/RegexText.v ===== *)
(** Text as a list of code points: what the byte cursor of src/regex/input.h
    reads at the boundaries of well-formed WTF-8 text, in both directions.  The
    regular expression semantics is stated over code points, the virtual machine
    runs on byte offsets, and [off] relates the two. *)
From S2P Require Import Prelude Unicode StringRef RegexInput.

Module RegexText.
Import UnicodeUtil RegexInput.

(** The bytes of a list of code points. *)
Definition encodes (cs : list Z) : bytes := flat_map codePointToUtf8 cs.

Definition codePoints (cs : list Z) : Prop := Forall (fun c => isCodePoint c = true) cs.

(** The byte offset of the [k]-th code point. *)
Definition off (cs : list Z) (k : nat) : Z := zlen (encodes (take k cs)).

Lemma encodes_app a b : encodes (a ++ b) = encodes a ++ encodes b.
Proof. apply flat_map_app. Qed.

Lemma encodes_cons c r : encodes (c :: r) = codePointToUtf8 c ++ encodes r.
Proof. done. Qed.

(** ** Decoding at a boundary *)

Lemma byteAt_app t s i : byteAt (t ++ s) (zlen t + Z.of_nat i) = nth i s 0.
Proof.
  unfold byteAt. destruct (Z.ltb_spec (zlen t + Z.of_nat i) 0); [pose proof (zlen_nonneg t); lia|].
  replace (Z.to_nat (zlen t + Z.of_nat i)) with (length t + i)%nat by (unfold zlen; lia).
  by rewrite app_nth2_plus.
Qed.

Lemma byteAt_0 t s : byteAt (t ++ s) (zlen t) = nth 0 s 0.
Proof. rewrite <- (byteAt_app t s 0). f_equal. lia. Qed.

Ltac Zify.zify_post_hook ::= Z.to_euclidean_division_equations.

(** What [encode] writes, by size. *)
Lemma encode_cases c : isCodePoint c = true ->
  (encode c = [c] /\ 0 <= c < 0x80) \/
  (exists b0 b1, encode c = [b0; b1] /\ 0xC2 <= b0 < 0xE0 /\ 0x80 <= b1 < 0xC0 /\
     c = b0 mod 32 * 64 + b1 mod 64) \/
  (exists b0 b1 b2, encode c = [b0; b1; b2] /\ 0xE0 <= b0 < 0xF0 /\ 0x80 <= b1 < 0xC0 /\
     0x80 <= b2 < 0xC0 /\ c = b0 mod 16 * 4096 + b1 mod 64 * 64 + b2 mod 64) \/
  (exists b0 b1 b2 b3, encode c = [b0; b1; b2; b3] /\ 0xF0 <= b0 < 0xF5 /\ 0x80 <= b1 < 0xC0 /\
     0x80 <= b2 < 0xC0 /\ 0x80 <= b3 < 0xC0 /\
     c = b0 mod 8 * 262144 + b1 mod 64 * 4096 + b2 mod 64 * 64 + b3 mod 64).
Proof.
  rewrite isCodePoint_range. intros Hc. unfold encode.
  destruct (Z.ltb_spec c 0x80); [left; split; [done|lia]|right].
  destruct (Z.ltb_spec c 0x800); [left; do 2 eexists; split; [done|lia]|right].
  destruct (Z.ltb_spec c 0x10000); [left; do 3 eexists; split; [done|lia]|right].
  do 4 eexists. split; [done|lia].
Qed.

Lemma size_of_byte b : 0 <= b < 0x100 -> utf8ByteSize b =
    (if b <? 0x80 then 1 else if b <? 0xC0 then 0 else if b <? 0xE0 then 2
     else if b <? 0xF0 then 3 else if b <? 0xF8 then 4 else 0).
Proof. apply byteSize_ranges. Qed.

Ltac byte_size := rewrite size_of_byte by lia; repeat (case_on; zbool; try lia).

Lemma byteSize_lead1 b : 0 <= b < 0x80 -> utf8ByteSize b = 1.
Proof. intros; byte_size. Qed.
Lemma byteSize_lead2 b : 0xC2 <= b < 0xE0 -> utf8ByteSize b = 2.
Proof. intros; byte_size. Qed.
Lemma byteSize_lead3 b : 0xE0 <= b < 0xF0 -> utf8ByteSize b = 3.
Proof. intros; byte_size. Qed.
Lemma byteSize_lead4 b : 0xF0 <= b < 0xF5 -> utf8ByteSize b = 4.
Proof. intros; byte_size. Qed.
Lemma byteSize_cont b : 0x80 <= b < 0xC0 -> utf8ByteSize b = 0.
Proof. intros; byte_size. Qed.

(** Reading forward at the beginning of a character gives it and steps past it. *)
Lemma next_encode t c r : isCodePoint c = true ->
  unsafeNextUtf8 (t ++ codePointToUtf8 c ++ r) (zlen t) = (c, zlen t + zlen (codePointToUtf8 c)).
Proof.
  intros Hc. rewrite codePointToUtf8_encode by done. unfold unsafeNextUtf8.
  rewrite byteAt_0, (byteAt_app t _ 1), (byteAt_app t _ 2), (byteAt_app t _ 3).
  destruct (encode_cases c Hc) as [[-> H]|[(b0&b1&->&H0&H1&Hv)|[(b0&b1&b2&->&H0&H1&H2&Hv)|
    (b0&b1&b2&b3&->&H0&H1&H2&H3&Hv)]]]; cbn [app nth].
  - destruct (Z.ltb_spec c 128); [done|lia].
  - destruct (Z.ltb_spec b0 128); [lia|]. rewrite byteSize_lead2 by lia.
    cbn [Z.eqb Pos.eqb]. rewrite land_1F, land_3F, lor_shift_add by (change (2 ^ 6) with 64; lia).
    rewrite Hv. done.
  - destruct (Z.ltb_spec b0 128); [lia|]. rewrite byteSize_lead3 by lia.
    cbn [Z.eqb Pos.eqb]. pose proof (payload3 b0 b1 b2 []) as Hp. unfold payload in Hp.
    cbn [Z.eqb Pos.eqb nth] in Hp. rewrite Hp, Hv. done.
  - destruct (Z.ltb_spec b0 128); [lia|]. rewrite byteSize_lead4 by lia.
    cbn [Z.eqb Pos.eqb]. pose proof (payload4 b0 b1 b2 b3 []) as Hp. unfold payload in Hp.
    cbn [Z.eqb Pos.eqb nth] in Hp. rewrite Hp, Hv. done.
Qed.

Lemma prevLoop_cont fuel t b r cp sh :
  0x80 <= b < 0xC0 ->
  prevLoop (S fuel) (t ++ b :: r) (zlen t + 1) cp sh =
  prevLoop fuel (t ++ b :: r) (zlen t) (Z.lor cp (Z.shiftl (b mod 64) sh)) (sh + 6).
Proof.
  intros Hb. cbn [prevLoop]. replace (zlen t + 1 - 1) with (zlen t) by lia.
  rewrite byteAt_0. cbn [nth]. rewrite byteSize_cont by done. cbn [Z.eqb]. by rewrite land_3F.
Qed.

Lemma prevLoop_lead fuel t b r cp sh :
  utf8ByteSize b <> 0 ->
  prevLoop (S fuel) (t ++ b :: r) (zlen t + 1) cp sh =
  (Z.lor cp (Z.shiftl (Z.land b (prevMask (utf8ByteSize b))) sh), zlen t).
Proof.
  intros Hb. cbn [prevLoop]. replace (zlen t + 1 - 1) with (zlen t) by lia.
  rewrite byteAt_0. cbn [nth]. by destruct (Z.eqb_spec (utf8ByteSize b) 0).
Qed.

Lemma lor_low x y n : 0 <= n -> 0 <= x < 2 ^ n -> Z.lor x (Z.shiftl y n) = y * 2 ^ n + x.
Proof. intros. rewrite Z.lor_comm. by apply lor_shift_add. Qed.

(** Reading backward at the end of a character gives it and steps before it. *)
Lemma prev_encode t c r : isCodePoint c = true ->
  unsafePrevUtf8 (t ++ codePointToUtf8 c ++ r) (zlen t + zlen (codePointToUtf8 c)) = (c, zlen t).
Proof.
  intros Hc. rewrite codePointToUtf8_encode by done. unfold unsafePrevUtf8.
  destruct (encode_cases c Hc) as [[-> H]|[(b0&b1&->&H0&H1&Hv)|[(b0&b1&b2&->&H0&H1&H2&Hv)|
    (b0&b1&b2&b3&->&H0&H1&H2&H3&Hv)]]]; autorewrite with zlen; cbn [app];
    pose proof (zlen_nonneg t).
  - rewrite Z.add_0_r. replace (Z.to_nat (zlen t + 1)) with (S (Z.to_nat (zlen t))) by lia.
    rewrite prevLoop_lead by (rewrite byteSize_lead1; lia). rewrite byteSize_lead1 by done.
    change (prevMask 1) with (Z.ones 8). rewrite Z.land_ones by lia. rewrite Z.shiftl_0_r.
    rewrite Z.mod_small by (change (2 ^ 8) with 256; lia). done.
  - replace (zlen t + (1 + (1 + 0))) with (zlen (t ++ [b0]) + 1) by (autorewrite with zlen; lia).
    replace (Z.to_nat (zlen (t ++ [b0]) + 1)) with (S (S (Z.to_nat (zlen t)))) by (autorewrite with zlen; lia).
    change (b0 :: b1 :: r) with ([b0] ++ b1 :: r). rewrite app_assoc.
    rewrite prevLoop_cont by done. rewrite <- app_assoc. cbn [app].
    replace (zlen (t ++ [b0])) with (zlen t + 1) by (autorewrite with zlen; lia).
    rewrite prevLoop_lead by (rewrite byteSize_lead2; lia). rewrite byteSize_lead2 by done.
    change (prevMask 2) with 0x1F. rewrite land_1F, Z.lor_0_l, Z.shiftl_0_r.
    change (0 + 6) with 6. rewrite lor_low by (change (2 ^ 6) with 64; lia).
    change (2 ^ 6) with 64. f_equal. lia.
  - replace (zlen t + (1 + (1 + (1 + 0)))) with (zlen (t ++ [b0; b1]) + 1) by (autorewrite with zlen; lia).
    replace (Z.to_nat (zlen (t ++ [b0; b1]) + 1)) with (S (S (S (Z.to_nat (zlen t)))))
      by (autorewrite with zlen; lia).
    change (b0 :: b1 :: b2 :: r) with ([b0; b1] ++ b2 :: r). rewrite app_assoc.
    rewrite prevLoop_cont by done. rewrite <- app_assoc. cbn [app].
    change (b0 :: b1 :: b2 :: r) with ([b0] ++ b1 :: b2 :: r). rewrite app_assoc.
    replace (zlen (t ++ [b0; b1])) with (zlen (t ++ [b0]) + 1) by (autorewrite with zlen; lia).
    rewrite prevLoop_cont by done. rewrite <- app_assoc. cbn [app].
    replace (zlen (t ++ [b0])) with (zlen t + 1) by (autorewrite with zlen; lia).
    rewrite prevLoop_lead by (rewrite byteSize_lead3; lia). rewrite byteSize_lead3 by done.
    change (prevMask 3) with 0x0F. rewrite land_0F, Z.lor_0_l, Z.shiftl_0_r.
    change (0 + 6) with 6. change (6 + 6) with 12.
    rewrite !lor_low by (try rewrite lor_low by (change (2 ^ 6) with 64; lia);
      change (2 ^ 6) with 64; change (2 ^ 12) with 4096; lia).
    change (2 ^ 6) with 64; change (2 ^ 12) with 4096. f_equal. lia.
  - replace (zlen t + (1 + (1 + (1 + (1 + 0))))) with (zlen (t ++ [b0; b1; b2]) + 1)
      by (autorewrite with zlen; lia).
    replace (Z.to_nat (zlen (t ++ [b0; b1; b2]) + 1)) with (S (S (S (S (Z.to_nat (zlen t))))))
      by (autorewrite with zlen; lia).
    change (b0 :: b1 :: b2 :: b3 :: r) with ([b0; b1; b2] ++ b3 :: r). rewrite app_assoc.
    rewrite prevLoop_cont by done. rewrite <- app_assoc. cbn [app].
    change (b0 :: b1 :: b2 :: b3 :: r) with ([b0; b1] ++ b2 :: b3 :: r). rewrite app_assoc.
    replace (zlen (t ++ [b0; b1; b2])) with (zlen (t ++ [b0; b1]) + 1) by (autorewrite with zlen; lia).
    rewrite prevLoop_cont by done. rewrite <- app_assoc. cbn [app].
    change (b0 :: b1 :: b2 :: b3 :: r) with ([b0] ++ b1 :: b2 :: b3 :: r). rewrite app_assoc.
    replace (zlen (t ++ [b0; b1])) with (zlen (t ++ [b0]) + 1) by (autorewrite with zlen; lia).
    rewrite prevLoop_cont by done. rewrite <- app_assoc. cbn [app].
    replace (zlen (t ++ [b0])) with (zlen t + 1) by (autorewrite with zlen; lia).
    rewrite prevLoop_lead by (rewrite byteSize_lead4; lia). rewrite byteSize_lead4 by done.
    change (prevMask 4) with 0x07. rewrite land_07, Z.lor_0_l, Z.shiftl_0_r.
    change (0 + 6) with 6. change (6 + 6) with 12. change (12 + 6) with 18.
    rewrite (lor_low (b3 mod 64)) by (change (2 ^ 6) with 64; lia).
    rewrite (lor_low (_ + b3 mod 64)) by (change (2 ^ 6) with 64; change (2 ^ 12) with 4096; lia).
    rewrite lor_low by (change (2 ^ 6) with 64; change (2 ^ 12) with 4096; change (2 ^ 18) with 262144; lia).
    change (2 ^ 6) with 64; change (2 ^ 12) with 4096; change (2 ^ 18) with 262144. f_equal. lia.
Qed.

Lemma encode_pos c : isCodePoint c = true -> 1 <= zlen (codePointToUtf8 c) <= 4.
Proof.
  intros Hc. rewrite codePointToUtf8_encode by done.
  destruct (encode_cases c Hc) as [[-> _]|[(?&?&->&_)|[(?&?&?&->&_)|(?&?&?&?&->&_)]]]; autorewrite with zlen; lia.
Qed.

Ltac Zify.zify_post_hook ::= idtac.

(** ** Positions *)

Lemma codePoints_app a b : codePoints (a ++ b) <-> codePoints a /\ codePoints b.
Proof. apply Forall_app. Qed.

Lemma codePoints_take cs k : codePoints cs -> codePoints (take k cs).
Proof. apply Forall_take. Qed.

Lemma codePoints_drop cs k : codePoints cs -> codePoints (drop k cs).
Proof. apply Forall_drop. Qed.

Lemma codePoints_lookup cs k c : codePoints cs -> cs !! k = Some c -> isCodePoint c = true.
Proof. intros H. apply (Forall_lookup_1 _ _ _ _ H). Qed.

Lemma encodes_length cs : codePoints cs -> zlen cs <= zlen (encodes cs).
Proof.
  induction 1 as [|c r Hc _ IH]; [reflexivity|].
  rewrite encodes_cons, zlen_app, zlen_cons. pose proof (encode_pos c Hc). lia.
Qed.

Lemma encodes_bound ys : codePoints ys -> zlen (encodes ys) <= 4 * zlen ys.
Proof.
  induction 1 as [|c ys Hc _ IH]; [reflexivity|].
  rewrite encodes_cons, zlen_app, zlen_cons. pose proof (encode_pos c Hc). lia.
Qed.

Lemma encodes_nil_inv cs : codePoints cs -> encodes cs = [] -> cs = [].
Proof.
  intros H E. pose proof (encodes_length cs H) as Hl. rewrite E in Hl.
  destruct cs; [done|]. rewrite zlen_cons in Hl. change (zlen (@nil Z)) with 0 in Hl.
  pose proof (zlen_nonneg cs). lia.
Qed.

(** The first character of a text determines it. *)
Lemma encode_prefix c d r s : isCodePoint c = true -> isCodePoint d = true ->
  codePointToUtf8 c ++ r = codePointToUtf8 d ++ s -> c = d /\ r = s.
Proof.
  intros Hc Hd E. pose proof (next_encode [] c r Hc) as H1. pose proof (next_encode [] d s Hd) as H2.
  cbn [app] in *. rewrite E, H2 in H1. simplify_eq. split; [done|]. by simplify_list_eq.
Qed.

(** So does the last one. *)
Lemma encode_suffix c d r s : isCodePoint c = true -> isCodePoint d = true ->
  r ++ codePointToUtf8 c = s ++ codePointToUtf8 d -> c = d /\ r = s.
Proof.
  intros Hc Hd E. pose proof (prev_encode r c [] Hc) as H1. pose proof (prev_encode s d [] Hd) as H2.
  rewrite app_nil_r, <- zlen_app in H1, H2. rewrite E, H2 in H1. simplify_eq.
  split; [done|]. by simplify_list_eq.
Qed.

Lemma encodes_prefix xs ys r : codePoints xs -> codePoints ys ->
  encodes xs = encodes ys ++ r <-> exists zs, xs = ys ++ zs /\ r = encodes zs.
Proof.
  intros Hx Hy. split; [|intros (zs & -> & ->); apply encodes_app].
  revert xs Hx. induction Hy as [|y ys Hy Hys IH]; intros xs Hx E; [by exists xs|].
  destruct Hx as [|x xs Hx Hxs].
  { rewrite encodes_cons in E. symmetry in E. apply app_nil in E as [E _]. apply app_nil in E as [E _].
    pose proof (encode_pos y Hy) as Hp. rewrite E in Hp. change (zlen (@nil Z)) with 0 in Hp. lia. }
  rewrite !encodes_cons, <- app_assoc in E.
  apply encode_prefix in E as [-> E]; [|done|done].
  apply IH in E as (zs & -> & ->); [|done]. by exists zs.
Qed.

Lemma encodes_inj xs ys : codePoints xs -> codePoints ys -> encodes xs = encodes ys -> xs = ys.
Proof.
  intros Hx Hy E. rewrite <- (app_nil_r (encodes ys)) in E.
  apply encodes_prefix in E as (zs & -> & E); [|done|done].
  apply codePoints_app in Hx as [_ Hz]. symmetry in E.
  apply encodes_nil_inv in E as ->; [by rewrite app_nil_r|done].
Qed.

Lemma encodes_suffix xs ys r : codePoints xs -> codePoints ys ->
  encodes xs = r ++ encodes ys <-> exists zs, xs = zs ++ ys /\ r = encodes zs.
Proof.
  intros Hx Hy. split; [|intros (zs & -> & ->); apply encodes_app].
  revert xs Hx r. induction ys as [|y ys IH] using rev_ind; intros xs Hx r E.
  { exists xs. rewrite app_nil_r in *. by rewrite E. }
  apply codePoints_app in Hy as [Hys Hy]. inversion_clear Hy as [|? ? Hy' _].
  destruct xs as [|x xs _] using rev_ind.
  { rewrite encodes_app in E. symmetry in E. apply app_nil in E as [_ E].
    apply app_nil in E as [_ E]. rewrite encodes_cons in E. apply app_nil in E as [E _].
    pose proof (encode_pos y Hy') as Hp. rewrite E in Hp. change (zlen (@nil Z)) with 0 in Hp. lia. }
  apply codePoints_app in Hx as [Hxs Hx]. inversion_clear Hx as [|? ? Hx' _].
  rewrite !encodes_app, app_assoc in E. cbn [encodes flat_map] in E. rewrite !app_nil_r in E.
  apply encode_suffix in E as [-> E]; [|done|done].
  apply IH in E as (zs & -> & ->); [|done|done]. exists zs. by rewrite app_assoc.
Qed.

Section text.
Context (cs : list Z) (Hcs : codePoints cs).

Lemma off_0 : off cs 0 = 0.
Proof. done. Qed.

Lemma off_length : off cs (length cs) = zlen (encodes cs).
Proof. unfold off. by rewrite firstn_all. Qed.

Lemma off_S k c : cs !! k = Some c -> off cs (S k) = off cs k + zlen (codePointToUtf8 c).
Proof.
  intros H. unfold off. rewrite (take_S_r _ _ _ H), encodes_app, zlen_app, encodes_cons.
  cbn [encodes flat_map]. by rewrite app_nil_r.
Qed.

Lemma off_app j k : off cs (j + k) = off cs j + zlen (encodes (take k (drop j cs))).
Proof. unfold off. by rewrite <- take_take_drop, encodes_app, zlen_app. Qed.

Lemma off_mono j k : (j <= k)%nat -> off cs j <= off cs k.
Proof.
  intros H. replace k with (j + (k - j))%nat by lia. rewrite off_app.
  pose proof (zlen_nonneg (encodes (take (k - j) (drop j cs)))). lia.
Qed.

Lemma off_strict j k : (j < k <= length cs)%nat -> off cs j < off cs k.
Proof.
  intros H. destruct (lookup_lt_is_Some_2 cs j) as [c Hc]; [lia|].
  pose proof (off_S j c Hc). pose proof (encode_pos c (codePoints_lookup _ _ _ Hcs Hc)).
  pose proof (off_mono (S j) k). lia.
Qed.

Lemma off_eq j k : (j <= length cs)%nat -> (k <= length cs)%nat -> off cs j = off cs k <-> j = k.
Proof.
  intros Hj Hk. split; [|by intros ->]. intros E.
  destruct (Nat.lt_trichotomy j k) as [H|[H|H]]; [|done|];
    [pose proof (off_strict j k)|pose proof (off_strict k j)]; lia.
Qed.

Lemma off_range k : 0 <= off cs k <= zlen (encodes cs).
Proof.
  split; [apply zlen_nonneg|]. rewrite <- off_length.
  destruct (decide (k <= length cs)%nat); [by apply off_mono|].
  unfold off. by rewrite !take_ge by lia.
Qed.

Lemma split_off k : encodes cs = encodes (take k cs) ++ encodes (drop k cs).
Proof. by rewrite <- encodes_app, take_drop. Qed.

Lemma drop_off k : drop (Z.to_nat (off cs k)) (encodes cs) = encodes (drop k cs).
Proof. rewrite (split_off k) at 1. apply drop_app_length'. unfold off, zlen. lia. Qed.

Lemma take_off k : take (Z.to_nat (off cs k)) (encodes cs) = encodes (take k cs).
Proof. rewrite (split_off k) at 1. apply take_app_length'. unfold off, zlen. lia. Qed.

Lemma slice_off j k : (j <= k)%nat ->
  take (Z.to_nat (off cs k - off cs j)) (drop (Z.to_nat (off cs j)) (encodes cs)) =
  encodes (take (k - j) (drop j cs)).
Proof.
  intros H. rewrite drop_off. replace k with (j + (k - j))%nat at 1 by lia. rewrite off_app.
  rewrite <- (take_drop (k - j) (drop j cs)) at 2. rewrite encodes_app.
  apply take_app_length'. unfold zlen. lia.
Qed.

Lemma next_off k c : cs !! k = Some c -> unsafeNextUtf8 (encodes cs) (off cs k) = (c, off cs (S k)).
Proof.
  intros H. rewrite (off_S k c H), (split_off k), (drop_S _ _ _ H), encodes_cons. unfold off.
  apply next_encode. by eapply codePoints_lookup.
Qed.

Lemma prev_off k c : cs !! k = Some c -> unsafePrevUtf8 (encodes cs) (off cs (S k)) = (c, off cs k).
Proof.
  intros H. rewrite (off_S k c H), (split_off k), (drop_S _ _ _ H), encodes_cons. unfold off.
  apply prev_encode. by eapply codePoints_lookup.
Qed.
End text.

(** ** The cursor at a boundary *)

Definition at_off (cs : list Z) (k : nat) : Input := {| text := encodes cs; iter := off cs k |}.

Section cursor.
Context (cs : list Z) (Hcs : codePoints cs) (k : nat) (Hk : (k <= length cs)%nat).

Lemma isEnd_off : isEnd (at_off cs k) = (k =? length cs)%nat.
Proof.
  unfold isEnd, at_off. cbn [text iter]. rewrite <- off_length.
  destruct (Nat.eqb_spec k (length cs)) as [->|Hn]; [apply Z.eqb_refl|].
  apply Z.eqb_neq. by rewrite off_eq.
Qed.

Lemma isBegin_off : isBegin (at_off cs k) = (k =? 0)%nat.
Proof.
  unfold isBegin, at_off. cbn [text iter]. rewrite <- (off_0 cs).
  destruct (Nat.eqb_spec k 0) as [->|Hn]; [apply Z.eqb_refl|].
  apply Z.eqb_neq. rewrite off_eq by (done || lia). done.
Qed.

Lemma available_off : available (at_off cs k) = bool_decide (k < length cs)%nat.
Proof.
  unfold available. change (iter _ =? zlen _) with (isEnd (at_off cs k)). rewrite isEnd_off.
  destruct (Nat.eqb_spec k (length cs)); symmetry; [apply bool_decide_false|apply bool_decide_true]; lia.
Qed.

Lemma availableBackward_off : availableBackward (at_off cs k) = bool_decide (0 < k)%nat.
Proof.
  unfold availableBackward. change (iter _ =? 0) with (isBegin (at_off cs k)). rewrite isBegin_off.
  destruct (Nat.eqb_spec k 0); symmetry; [apply bool_decide_false|apply bool_decide_true]; lia.
Qed.

Lemma forward_off c : cs !! k = Some c -> consumeForward (at_off cs k) = (c, at_off cs (S k)).
Proof. intros H. unfold consumeForward, at_off. cbn [text iter]. by rewrite (next_off _ Hcs _ _ H). Qed.

Lemma cur_off c : cs !! k = Some c -> cur (at_off cs k) = c.
Proof. intros H. unfold cur, at_off. cbn [text iter]. by rewrite (next_off _ Hcs _ _ H). Qed.

Lemma expectForward_off ys : codePoints ys ->
  expectForward (at_off cs k) (encodes ys) =
    if bool_decide (take (length ys) (drop k cs) = ys) then Some (at_off cs (k + length ys)) else None.
Proof.
  intros Hy. unfold expectForward, remainForward. cbn [text iter at_off]. rewrite drop_off.
  destruct (StringRef.startsWith _ _) eqn:E.
  - apply StringRef.startsWith_spec in E as [r E].
    apply encodes_prefix in E as (zs & E & _); [|by apply codePoints_drop|done].
    rewrite E, take_app_length, bool_decide_true by done.
    unfold at_off, setIter. cbn [text]. by rewrite off_app, E, take_app_length.
  - rewrite bool_decide_false; [done|]. intros E'.
    assert (StringRef.startsWith (encodes (drop k cs)) (encodes ys) = true); [|congruence].
    apply StringRef.startsWith_spec. exists (encodes (drop (length ys) (drop k cs))).
    by rewrite <- E' at 1; rewrite <- encodes_app, take_drop.
Qed.

Lemma expectBackward_off ys : codePoints ys ->
  expectBackward (at_off cs k) (encodes ys) =
    if bool_decide (length ys <= k /\ drop (k - length ys) (take k cs) = ys)%nat
    then Some (at_off cs (k - length ys)) else None.
Proof.
  intros Hy. unfold expectBackward, remainBackward. cbn [text iter at_off]. rewrite take_off.
  assert (length (take k cs) = k) as Hl by (rewrite length_take; lia).
  destruct (StringRef.endsWith _ _) eqn:E.
  - apply StringRef.endsWith_spec in E as [r E].
    apply encodes_suffix in E as (zs & E & _); [|by apply codePoints_take|done].
    pose proof Hl as Hl'. rewrite E, length_app in Hl'.
    rewrite bool_decide_true by (rewrite E; split; [lia|apply drop_app_length'; lia]).
    unfold at_off, setIter. cbn [text]. do 2 f_equal.
    assert (take (k - length ys) cs = zs) as Ht.
    { replace (take (k - length ys) cs) with (take (k - length ys) (take k cs)) by (rewrite take_take; f_equal; lia).
      rewrite E. apply take_app_length'. lia. }
    unfold off. rewrite E, Ht, encodes_app, zlen_app. lia.
  - rewrite bool_decide_false; [done|]. intros [Hle E'].
    assert (StringRef.endsWith (encodes (take k cs)) (encodes ys) = true); [|congruence].
    apply StringRef.endsWith_spec. exists (encodes (take (k - length ys) (take k cs))).
    by rewrite <- E' at 2; rewrite <- encodes_app, take_drop.
Qed.
End cursor.

Lemma backward_off cs k c : codePoints cs -> cs !! k = Some c ->
  consumeBackward (at_off cs (S k)) = (c, at_off cs k).
Proof. intros Hcs H. unfold consumeBackward, at_off. cbn [text iter]. by rewrite (prev_off _ Hcs _ _ H). Qed.

Lemma prev_cursor cs k c : codePoints cs -> cs !! k = Some c -> prev (at_off cs (S k)) = c.
Proof. intros Hcs H. unfold prev, at_off. cbn [text iter]. by rewrite (prev_off _ Hcs _ _ H). Qed.

(** ** Validation *)

Lemma validate_next s : Forall is_byte s -> wtf8ValidateChar s <> 0 ->
  exists c r, isCodePoint c = true /\ s = codePointToUtf8 c ++ r /\
    wtf8ValidateChar s = zlen (codePointToUtf8 c).
Proof.
  intros Hs H. destruct (validate_cases s true _ Hs eq_refl H) as (Hn & Hl & Hc & _ & He).
  exists (payload (utf8ValidateChar s true) s), (drop (Z.to_nat (utf8ValidateChar s true)) s).
  rewrite codePointToUtf8_encode, He by done. split_and!; [done|by rewrite take_drop|].
  unfold zlen, wtf8ValidateChar. rewrite length_take. lia.
Qed.

Lemma validate_encoded c r : isCodePoint c = true ->
  wtf8ValidateChar (codePointToUtf8 c ++ r) = zlen (codePointToUtf8 c).
Proof.
  intros Hc. rewrite codePointToUtf8_encode by done.
  pose proof (decode_encode c r true Hc (or_introl eq_refl)) as H. by injection H.
Qed.

Lemma validate_decodes fuel rest : forall count n offset r,
  Forall is_byte rest -> 0 <= count -> count + zlen rest < 2 ^ 32 ->
  0 <= offset -> offset + zlen rest < 2 ^ 32 ->
  validate fuel rest count n offset = Some r ->
  exists cs, codePoints cs /\ rest = encodes cs /\ r = offset + off cs (Z.to_nat (n - count)).
Proof.
  revert rest. induction fuel as [|fuel IH]; intros rest count n offset r Hb Hc Hcl Ho Hol H.
  { destruct rest; [|done]. simplify_eq/=. exists []. unfold off. rewrite take_nil.
    split_and!; [constructor|done|]. change (zlen (encodes [])) with 0. lia. }
  destruct rest as [|b rest'].
  { simplify_eq/=. exists []. unfold off. rewrite take_nil. split_and!; [constructor|done|]. change (zlen (encodes [])) with 0. lia. }
  set (s := b :: rest') in *. cbn [validate] in H. change (b :: rest') with s in H.
  assert (s <> []) as Hne by done. clearbody s. destruct s as [|b' s']; [done|]. clear Hne.
  destruct (Z.eqb_spec (wtf8ValidateChar (b' :: s')) 0) as [|Hv]; [done|].
  destruct (validate_next _ Hb Hv) as (c & s & Hcp & Hs & Hl). rewrite Hl, Hs in *.
  pose proof (encode_pos c Hcp) as Hp. rewrite zlen_app in *. pose proof (zlen_nonneg s).
  rewrite drop_app_length' in H by (unfold zlen; lia).
  apply Forall_app in Hb as [_ Hb].
  rewrite (wrap_small 32 (count + 1)) in H by (unfold in_unsigned; lia).
  apply IH in H as (cs & Hcs & -> & ->); [|done|lia|lia| |].
  2,3: destruct (count <? n); try lia; rewrite wrap_small by (unfold in_unsigned; lia); lia.
  exists (c :: cs). split_and!; [by constructor|done|]. unfold off.
  destruct (Z.ltb_spec count n).
  - rewrite wrap_small by (unfold in_unsigned; lia).
    replace (Z.to_nat (n - count)) with (S (Z.to_nat (n - (count + 1)))) by lia.
    cbn [firstn]. rewrite encodes_cons, zlen_app. lia.
  - replace (Z.to_nat (n - count)) with O by lia. replace (Z.to_nat (n - (count + 1))) with O by lia. done.
Qed.

Lemma validate_complete fuel cs : forall count n offset,
  codePoints cs -> 0 <= count -> count + zlen cs < 2 ^ 32 ->
  0 <= offset -> offset + zlen (encodes cs) < 2 ^ 32 -> (length cs <= fuel)%nat ->
  validate fuel (encodes cs) count n offset = Some (offset + off cs (Z.to_nat (n - count))).
Proof.
  revert cs. induction fuel as [|fuel IH]; intros cs count n offset Hcs Hc Hcl Ho Hol Hf;
    (destruct Hcs as [|c cs Hcp Hcs]; [unfold off; rewrite take_nil; change (zlen (encodes [])) with 0; by rewrite Z.add_0_r|]);
    [simpl in Hf; lia|].
  rewrite zlen_cons, encodes_cons, zlen_app in *. pose proof (encode_pos c Hcp) as Hp.
  pose proof (zlen_nonneg cs). pose proof (zlen_nonneg (encodes cs)).
  assert (exists b s, codePointToUtf8 c ++ encodes cs = b :: s) as (b & s & E).
  { destruct (codePointToUtf8 c) as [|b s]; [change (zlen (@nil Z)) with 0 in Hp; lia|eauto]. }
  rewrite E. cbn [validate]. rewrite <- E. rewrite validate_encoded by done.
  destruct (Z.eqb_spec (zlen (codePointToUtf8 c)) 0); [lia|].
  rewrite drop_app_length' by (unfold zlen; lia).
  rewrite (wrap_small 32 (count + 1)) by (unfold in_unsigned; lia).
  simpl in Hf. destruct (Z.ltb_spec count n).
  - rewrite (wrap_small 32) by (unfold in_unsigned; lia). rewrite IH by (done || lia). f_equal.
    replace (Z.to_nat (n - count)) with (S (Z.to_nat (n - (count + 1)))) by lia.
    unfold off. cbn [firstn]. rewrite encodes_cons, zlen_app. lia.
  - rewrite IH by (done || lia). f_equal.
    replace (Z.to_nat (n - count)) with O by lia. replace (Z.to_nat (n - (count + 1))) with O by lia. done.
Qed.

Lemma create_at_off cs n : codePoints cs -> zlen (encodes cs) <= INPUT_MAX -> 
  create (encodes cs) n = inr (at_off cs (Z.to_nat n)).
Proof.
  intros Hcs Hl. unfold create. change INPUT_MAX with 4294967295 in *.
  destruct (Z.ltb_spec 4294967295 (zlen (encodes cs))); [lia|].
  pose proof (encodes_length cs Hcs) as Hle.
  rewrite validate_complete; [by rewrite Z.sub_0_r|done|lia| |lia| |unfold zlen in Hle; lia];
    change (2 ^ 32) with 4294967296; lia.
Qed.

Lemma create_decodes t n i : Forall is_byte t -> create t n = inr i ->
  zlen t <= INPUT_MAX /\ exists cs, codePoints cs /\ t = encodes cs /\ i = at_off cs (Z.to_nat n).
Proof.
  intros Hb. unfold create. destruct (Z.ltb_spec INPUT_MAX (zlen t)) as [|Hl]; [done|].
  destruct (validate _ _ _ _ _) as [r|] eqn:E; [|done]. intros H. simplify_eq.
  change INPUT_MAX with 4294967295 in *.
  apply validate_decodes in E as (cs & Hcs & -> & ->); [|done|lia| |lia| ];
    [|change (2 ^ 32) with 4294967296; lia..].
  split; [done|]. exists cs. split_and!; [done..|]. by rewrite Z.sub_0_r.
Qed.

(** C5: the matcher accepts exactly the well-formed WTF-8 texts of at most
    [INPUT_MAX] bytes, and places the cursor at the requested code point, or at
    the end of a shorter text. *)
Theorem create_iff_wellformed t n i :
  Forall is_byte t ->
  create t n = inr i <->
  zlen t <= INPUT_MAX /\
  exists cs, codePoints cs /\ t = encodes cs /\ i = at_off cs (Z.to_nat n).
Proof.
  intros Hb. split; [by apply create_decodes|].
  intros (Hl & cs & Hcs & -> & ->). by apply create_at_off.
Qed.

Lemma create_iff_wellformed_witness :
  create [0x41; 0xC3; 0xA9] 1 = inr (at_off [0x41; 0xE9] 1) <->
  zlen [0x41; 0xC3; 0xA9] <= INPUT_MAX /\
  exists cs, codePoints cs /\ [0x41; 0xC3; 0xA9] = encodes cs /\
    at_off [0x41; 0xE9] 1 = at_off cs (Z.to_nat 1).
Proof.
  apply (create_iff_wellformed [0x41; 0xC3; 0xA9] 1 (at_off [0x41; 0xE9] 1)).
  repeat (constructor; [split; (reflexivity || discriminate)|]). constructor.
Defined.

End RegexText.
