(* ===== verification/RegexSpec.v ===== *)
(** The meaning of the lowered syntax tree, independent of the virtual machine:
    a node maps a state, a position in the list of code points and the ranges of
    the capture groups, to the states a backtracking matcher reaches, in the order
    it tries them (the list of successes of the ECMAScript semantics). *)
From S2P Require Import Prelude Unicode CodePointSet RadixTree RadixPacked RegexMatcher RegexNode GraphemeRules.

Module RegexSpec.
Import UnicodeUtil RegexMatcher RegexNode.

(** The range of a capture group, in code points; [None] when it is not set. *)
Abbreviation Range := (option (nat * nat)).

Record St := { pos : nat; caps : list Range }.

Definition setPos (st : St) (p : nat) : St := {| pos := p; caps := caps st |}.
Definition setCaps (st : St) (c : list Range) : St := {| pos := pos st; caps := c |}.

(** Unsets [n] groups from [i]. *)
Fixpoint clear (n i : nat) (c : list Range) : list Range :=
  match n with
  | O => c
  | S n' => clear n' (S i) (<[i := None]> c)
  end.

Section sem.
Context `{Ucd} (cs : list Z) (groups : NamedCaptureGroups).

(** ** One code point *)

Definition curChar (st : St) : option Z := cs !! pos st.
Definition prevChar (st : St) : option Z :=
  match pos st with O => None | S p => cs !! p end.

Definition testChar (lb : bool) (test : Z -> bool) (st : St) : list St :=
  if lb then
    match prevChar st with
    | Some c => if test c then [setPos st (pos st - 1)] else []
    | None => []
    end
  else
    match curChar st with
    | Some c => if test c then [setPos st (pos st + 1)] else []
    | None => []
    end.

(** ** Assertions *)

Definition check (b : bool) (st : St) : list St := if b then [st] else [].

Definition atEdge (multiline : bool) (c : option Z) : bool :=
  match c with None => true | Some c => multiline && isLineTerminator c end.

Definition wordChar (isW : Z -> bool) (c : option Z) : bool :=
  match c with None => false | Some c => isW c end.

Definition atWordBoundary (isW : Z -> bool) (st : St) : bool :=
  negb (Bool.eqb (wordChar isW (prevChar st)) (wordChar isW (curChar st))).

Definition boundary (t : BoundaryType) (m : Z) (st : St) : bool :=
  let isW := if hasFlag m IGNORE_CASE then isExtendWord else isWord in
  match t with
  | START => atEdge (hasFlag m MULTILINE) (prevChar st)
  | END => atEdge (hasFlag m MULTILINE) (curChar st)
  | WORD => atWordBoundary isW st
  | NOT_WORD => negb (atWordBoundary isW st)
  end.

(** ** Back references *)

(** The groups a reference stands for; [None] for a reference to nothing. *)
Definition refIndices (isNamed : bool) (index : Z) : option (list nat) :=
  if isNamed then
    match findByIndex groups index with
    | Some (SingleIndex i) => Some [Z.to_nat i]
    | Some (MultipleIndices l) => Some (map Z.to_nat l)
    | None => None
    end
  else Some [Z.to_nat index].

(** The first of them that is set. *)
Fixpoint firstSet (l : list nat) (c : list Range) : Range :=
  match l with
  | [] => None
  | i :: rest => match c !! i with Some (Some r) => Some r | _ => firstSet rest c end
  end.

Definition refRange (isNamed : bool) (index : Z) (c : list Range) : Range :=
  match refIndices isNamed index with Some l => firstSet l c | None => None end.

Definition fold_ (ignoreCase : bool) (c : Z) : Z := if ignoreCase then doSimpleCaseFolding c else c.

(** An unset group matches the empty string. *)
Definition backRef (lb ignoreCase : bool) (r : Range) (st : St) : list St :=
  match r with
  | None => [st]
  | Some (a, b) =>
      let xs := take (b - a) (drop a cs) in
      let n := length xs in
      let same ys := bool_decide (map (fold_ ignoreCase) ys = map (fold_ ignoreCase) xs) in
      if lb then
        if bool_decide (n <= pos st)%nat && same (drop (pos st - n) (take (pos st) cs))
        then [setPos st (pos st - n)] else []
      else
        if same (take n (drop (pos st) cs)) then [setPos st (pos st + n)] else []
  end.

(** ** Sets of strings *)

(** How far a state is from the end of the text in the direction of the match, and the
    state [n] code points further, with what is between. *)
Definition room (lb : bool) (st : St) : nat := if lb then pos st else length cs - pos st.
Definition skip (lb : bool) (n : nat) (st : St) : St := setPos st (if lb then pos st - n else pos st + n)%nat.
Definition segment (lb : bool) (n : nat) (st : St) : list Z :=
  take n (drop (if lb then pos st - n else pos st)%nat cs).

Definition inStrSet (emoji : Z) (radix : RadixTree.RadixTree) (s : bytes) : bool :=
  (match RadixTree.find radix s with Some p => negb (p =? 0) | None => false end) ||
  hasEmoji emoji &&
    match RadixPacked.findPacked getEmojiTrie s with Some p => negb (p =? 0) && hasFlag emoji p | None => false end.

(** The strings of at most [n] code points that satisfy a test, the longest first. *)
Fixpoint strings (lb : bool) (test : list Z -> bool) (n : nat) (st : St) : list St :=
  match n with
  | O => []
  | S n' => (if test (segment lb n st) then [skip lb n st] else []) ++ strings lb test n' st
  end.

Definition strTest (emoji : Z) (radix : RadixTree.RadixTree) (ignoreCase : bool) (s : list Z) : bool :=
  inStrSet emoji radix (flat_map codePointToUtf8 (map (fold_ ignoreCase) s)).

(** ** Grapheme clusters

    The code points of a text that join what is before them, up to the next boundary of
    the rules ([GraphemeRules.joinedb]). *)
Fixpoint followers (pre rest : list Z) : nat :=
  match rest with
  | [] => O
  | c :: rest' => if GraphemeRules.joinedb pre c then S (followers (c :: pre) rest') else O
  end.

(** The first cluster of what is after the position; the parser takes no cluster in a
    look-behind. *)
Definition cluster (lb : bool) (st : St) : list St :=
  match drop (pos st) cs with
  | c :: rest => if lb then [] else [setPos st (pos st + S (followers [c] rest))]
  | [] => []
  end.

(** ** Sequences, alternatives and repetition *)

Fixpoint seqM (fs : list (St -> list St)) (st : St) : list St :=
  match fs with
  | [] => [st]
  | f :: rest => flat_map (seqM rest) (f st)
  end.

Definition altM (fs : list (St -> list St)) (st : St) : list St := flat_map (fun f => f st) fs.

Definition resetGroups (q : Quantifier) (st : St) : St :=
  if hasInnerCaptureGroups q
  then setCaps st (clear (Z.to_nat (lastGroupIndex q - firstGroupIndex q + 1))
                     (Z.to_nat (firstGroupIndex q)) (caps st))
  else st.

(** [count] iterations are done, the last of them began at [start].  An iteration
    past the minimum that matched nothing is rejected. *)
Fixpoint iterate (fuel : nat) (body : St -> list St) (q : Quantifier) (count : Z) (start : nat)
    (st : St) : list St :=
  match fuel with
  | O => []
  | S fuel' =>
      let again :=
        flat_map (fun r => iterate fuel' body q (count + 1) (pos st) r) (body (resetGroups q st)) in
      if (qmin q <? count) && (start =? pos st)%nat then []
      else if count <? qmin q then again
      else if count =? qmax q then [st]
      else if greedy q then again ++ [st]
      else [st] ++ again
  end.

(** Enough rounds: the required ones, and one for each code point and the end. *)
Definition loopFuel (q : Quantifier) : nat := S (S (Z.to_nat (qmin q) + length cs)).

(** The ranges of a group are written in the order of the text. *)
Definition closeGroup (lb : bool) (i start : nat) (r : St) : St :=
  setCaps r (<[i := Some (if lb then (pos r, start) else (start, pos r))]> (caps r)).

Definition lookAround (negate : bool) (st : St) (rs : list St) : list St :=
  match rs with
  | [] => if negate then [st] else []
  | r :: _ => if negate then [] else [setPos r (pos st)]
  end.

Fixpoint sem (lb : bool) (n : Node) (st : St) : list St :=
  match n with
  | EmptyNode => [st]
  | AnyNode m => testChar lb (fun c => hasFlag m DOT_ALL || negb (isLineTerminator c)) st
  | CharNode c => testChar lb (fun d => d =? c) st
  | FoldCharNode c => testChar lb (fun d => doSimpleCaseFolding d =? c) st
  | CharSetNode set invert ignoreCase =>
      testChar lb (fun d =>
        negb (Bool.eqb (CodePointSet.contains set (fold_ ignoreCase d)) invert)) st
  | StrSetNode emoji radix chars ignoreCase =>
      strings lb (strTest emoji radix ignoreCase) (room lb st) st ++
      match chars with Some c => sem lb c st | None => [] end
  | GraphemeNode => cluster lb st
  | BoundaryNode t m => check (boundary t m st) st
  | BackRefNode isNamed index ignoreCase =>
      backRef lb ignoreCase (refRange isNamed index (caps st)) st
  | RepeatNode q p => iterate (loopFuel q) (sem lb p) q 0 0 st
  | SeqNode l =>
      let fs := map (fun x => sem lb x) l in seqM (if lb then rev fs else fs) st
  | AltNode [p] => sem lb p st ++ [st]
  | AltNode l => altM (map (fun x => sem lb x) l) st
  | LookAroundNode t p => lookAround (isNegate t) st (sem (negb (isLookAhead t)) p st)
  | GroupNode CAPTURE i p =>
      map (closeGroup lb (Z.to_nat i) (pos st)) (sem lb p st)
  | GroupNode _ _ _ => []
  end.

(** ** The search for the first position that matches *)

Section search.
Context (pattern : Node) (groupCount : Z).

Definition initSt (k : nat) : St :=
  {| pos := k; caps := replicate (Z.to_nat (groupCount + 1)) None |}.

(** The start of the match and its final state. *)
Fixpoint searchFrom (n k : nat) : option (nat * St) :=
  match sem false pattern (initSt k) with
  | r :: _ => Some (k, r)
  | [] => match n with O => None | S n' => searchFrom n' (S k) end
  end.

Definition search (k : nat) : option (nat * St) := searchFrom (length cs - k) k.
End search.
End sem.

(** ** The groups and the loops of a node *)

Fixpoint groupsOf (n : Node) : list nat :=
  match n with
  | RepeatNode _ p | LookAroundNode _ p => groupsOf p
  | SeqNode l | AltNode l => flat_map groupsOf l
  | GroupNode CAPTURE i p => Z.to_nat i :: groupsOf p
  | GroupNode _ _ p => groupsOf p
  | _ => []
  end.

Fixpoint loopsOf (n : Node) : list nat :=
  match n with
  | RepeatNode q p => Z.to_nat (loopIndex q) :: loopsOf p
  | SeqNode l | AltNode l => flat_map loopsOf l
  | LookAroundNode _ p | GroupNode _ _ p => loopsOf p
  | _ => []
  end.

(** The loops inside and outside of look-arounds. *)
Fixpoint innerLoops (n : Node) : list nat :=
  match n with
  | RepeatNode _ p | GroupNode _ _ p => innerLoops p
  | SeqNode l | AltNode l => flat_map innerLoops l
  | LookAroundNode _ p => loopsOf p
  | _ => []
  end.
Fixpoint outerLoops (n : Node) : list nat :=
  match n with
  | RepeatNode q p => Z.to_nat (loopIndex q) :: outerLoops p
  | SeqNode l | AltNode l => flat_map outerLoops l
  | GroupNode _ _ p => outerLoops p
  | _ => []
  end.

Lemma flat_map_split {A B} (f g h : A -> list B) l :
  Forall (fun x => f x ≡ₚ g x ++ h x) l ->
  flat_map f l ≡ₚ flat_map g l ++ flat_map h l.
Proof.
  induction 1 as [|x l Hx _ IH]; [done|]. cbn. rewrite Hx, IH. solve_Permutation.
Qed.

Lemma loops_split n : loopsOf n ≡ₚ outerLoops n ++ innerLoops n.
Proof.
  induction n using Node_nested_ind; cbn [loopsOf outerLoops innerLoops]; try done.
  - by rewrite IHn.
  - by apply flat_map_split.
  - by apply flat_map_split.
Qed.

(** ** What the parser and the lowering pass guarantee

    The length of a sequence bounds the size field of a string matcher. *)

(** Nodes that match one code point. *)
Definition isTest (n : Node) : bool :=
  match n with AnyNode _ | CharNode _ | FoldCharNode _ | CharSetNode _ _ _ => true | _ => false end.

(** A string of two or more code points that the radix tree takes, even when folding
    shortens its code points. *)
Definition isString (s : bytes) : Prop :=
  exists l, s = flat_map codePointToUtf8 l /\ Forall (fun c => isCodePoint c = true) l /\
    2 <= zlen l /\ 4 * zlen l <= RadixTree.MAX_STRING_SIZE.

Section wf.
Context (groups : NamedCaptureGroups) (loopCount groupCount : Z).

(** [lb]: whether the node is matched backward; [open]: the groups around it.  A reference never is inside its group
    (the lowering pass replaces it by the empty node). *)
Fixpoint wfNode (lb : bool) (open : list nat) (n : Node) : Prop :=
  match n with
  | CharNode c => isCodePoint c = true
  | CharSetNode s _ _ =>
      CodePointSet.wf s /\ fits s /\
      CodePointSet.bmpSize s + CodePointSet.packedNonBmpSize s <= CodePointSet.size s
  | StrSetNode emoji radix chars _ =>
      emoji = emojiNone /\ RadixTree.empty radix = false /\ RadixTree.wf radix /\
      (forall s q, RadixTree.maps radix s q -> isString s) /\
      match chars with Some c => isTest c = true /\ wfNode lb open c | None => True end
  | GraphemeNode => lb = false
  | BackRefNode isNamed index _ =>
      0 <= index <= UINT16_MAX /\
      match refIndices groups isNamed index with
      | Some l => Forall (fun i => Z.of_nat i <= groupCount /\ i ∉ open) l
      | None => False
      end
  | RepeatNode q p =>
      wfNode lb open p /\ 0 <= loopIndex q < loopCount /\
      0 <= qmin q <= qmax q /\ qmax q <= UNLIMIT /\
      (if hasInnerCaptureGroups q
       then 0 < firstGroupIndex q /\ firstGroupIndex q <= lastGroupIndex q /\
            groupsOf p = seq (Z.to_nat (firstGroupIndex q))
              (Z.to_nat (lastGroupIndex q - firstGroupIndex q + 1))
       else groupsOf p = [])
  | SeqNode l => 4 * zlen l <= UINT32_MAX /\ foldr (fun x r => wfNode lb open x /\ r) True l
  | AltNode l => l <> [] /\ foldr (fun x r => wfNode lb open x /\ r) True l
  | LookAroundNode t p => wfNode (negb (isLookAhead t)) open p /\ (isNegate t = false -> groupsOf p = [])
  | GroupNode CAPTURE i p => 0 < i <= groupCount /\ wfNode lb (Z.to_nat i :: open) p
  | GroupNode _ _ _ => False
  | _ => True
  end.
End wf.

(** The indices of a duplicated name are non-negative. *)
Definition entryIndices (e : NamedCaptureEntry) : list Z :=
  match e with SingleIndex i => [i] | MultipleIndices l => l end.

Definition wfTree (t : SyntaxTree) : Prop :=
  wfNode (namedCaptureGroups t) (loopCount t) (captureGroupCount t) false [] (pattern t) /\
  NoDup (groupsOf (pattern t)) /\ NoDup (loopsOf (pattern t)) /\
  0 <= captureGroupCount t <= UINT16_MAX /\ 0 <= loopCount t /\
  Forall (fun e => Forall (fun i => 0 <= i) (entryIndices (snd e))) (namedCaptureGroups t).

(** * Properties *)

Abbreviation dist := room.

(** Ranges inside of the text. *)
Definition rangesOk (cs : list Z) (c : list Range) : Prop :=
  forall i a b, c !! i = Some (Some (a, b)) -> (a <= b <= length cs)%nat.

(** What a matcher does to a state: it stays in the text, never moves against its
    direction, and changes only its own groups. *)
Definition moves (cs : list Z) (lb : bool) (gs : list nat) (st r : St) : Prop :=
  (pos r <= length cs)%nat /\ (dist cs lb r <= dist cs lb st)%nat /\
  length (caps r) = length (caps st) /\
  (forall i, i ∉ gs -> caps r !! i = caps st !! i) /\
  (rangesOk cs (caps st) -> rangesOk cs (caps r)).

Section facts.
Context `{Ucd} (cs : list Z) (groups : NamedCaptureGroups).

Lemma moves_refl lb gs st : (pos st <= length cs)%nat -> moves cs lb gs st st.
Proof. intros. by split_and!. Qed.

Lemma moves_trans lb gs a b c : moves cs lb gs a b -> moves cs lb gs b c -> moves cs lb gs a c.
Proof.
  intros (Hp & Hd & Hl & Hc & Ho) (Hp' & Hd' & Hl' & Hc' & Ho').
  split_and!; [lia|lia|congruence| |auto]. intros i Hi. by rewrite Hc', Hc.
Qed.

Lemma moves_weaken lb gs gs' a b :
  moves cs lb gs a b -> (forall i, i ∈ gs -> i ∈ gs') -> moves cs lb gs' a b.
Proof.
  intros (Hp & Hd & Hl & Hc & Ho) Hs. split_and!; [done|done|done| |done]. intros i Hi. apply Hc. auto.
Qed.

Lemma moves_pos lb gs a b :
  moves cs lb gs a b -> (pos a <= length cs)%nat ->
  if lb then (pos b <= pos a)%nat else (pos a <= pos b)%nat.
Proof. intros (Hp & Hd & _) Ha. unfold room in Hd. destruct lb; lia. Qed.

Definition sound (lb : bool) (gs : list nat) (f : St -> list St) : Prop :=
  forall st r, (pos st <= length cs)%nat -> r ∈ f st -> moves cs lb gs st r.

Lemma sound_testChar lb gs test : sound lb gs (testChar cs lb test).
Proof.
  intros st r Hp Hr. unfold testChar, prevChar, curChar in Hr. destruct lb.
  - destruct (pos st) as [|p] eqn:E; [by apply not_elem_of_nil in Hr|].
    destruct (cs !! p); [|by apply not_elem_of_nil in Hr].
    case_in Hr; [|by apply not_elem_of_nil in Hr]. apply list_elem_of_singleton in Hr as ->.
    unfold moves, room. cbn. split_and!; try done; lia.
  - destruct (cs !! pos st) eqn:E; [|by apply not_elem_of_nil in Hr].
    apply lookup_lt_Some in E.
    case_in Hr; [|by apply not_elem_of_nil in Hr]. apply list_elem_of_singleton in Hr as ->.
    unfold moves, room. cbn. split_and!; try done; lia.
Qed.

Lemma sound_backRef lb gs ic r : sound lb gs (backRef cs lb ic r).
Proof.
  intros st x Hp Hx. unfold backRef in Hx. destruct r as [[a b]|].
  2: { apply list_elem_of_singleton in Hx as ->. by apply moves_refl. }
  cbv zeta in Hx. set (xs := take (b - a) (drop a cs)) in *. destruct lb.
  - case_in Hx; [|by apply not_elem_of_nil in Hx]. apply list_elem_of_singleton in Hx as ->.
    unfold moves, room. cbn. split_and!; try done; lia.
  - case_in Hx; [|by apply not_elem_of_nil in Hx]. apply list_elem_of_singleton in Hx as ->.
    apply bool_decide_eq_true in Heqb0. apply (f_equal length) in Heqb0.
    rewrite !length_map, length_take, length_drop in Heqb0.
    unfold moves, room. cbn. split_and!; try done; lia.
Qed.

Lemma sound_strings lb gs test n : forall st r,
  (pos st <= length cs)%nat -> (n <= room cs lb st)%nat -> r ∈ strings cs lb test n st -> moves cs lb gs st r.
Proof.
  induction n as [|n IH]; intros st r Hp Hn Hr; [by apply not_elem_of_nil in Hr|].
  cbn [strings] in Hr. apply elem_of_app in Hr as [Hr|Hr]; [|by apply IH; [done|lia|]].
  case_in Hr; [|by apply not_elem_of_nil in Hr]. apply list_elem_of_singleton in Hr as ->.
  unfold moves, room, skip in *. destruct lb; cbn; split_and!; try done; lia.
Qed.

Lemma followers_le rest : forall pre, (followers pre rest <= length rest)%nat.
Proof.
  induction rest as [|c rest IH]; intros pre; cbn [followers length]; [lia|].
  destruct (GraphemeRules.joinedb pre c); [specialize (IH (c :: pre)); lia|lia].
Qed.

Lemma sound_cluster lb gs : sound lb gs (cluster cs lb).
Proof.
  intros st r Hp Hr. unfold cluster in Hr. destruct (drop (pos st) cs) as [|c rest] eqn:E; [by apply not_elem_of_nil in Hr|].
  destruct lb; [by apply not_elem_of_nil in Hr|].
  apply list_elem_of_singleton in Hr as ->. apply (f_equal length) in E. rewrite length_drop in E. cbn [length] in E.
  pose proof (followers_le rest [c]). unfold moves, room. cbn [pos caps setPos]. split_and!; try done; lia.
Qed.

Lemma sound_nil lb gs : sound lb gs (fun st => [st]).
Proof. intros st r Hp Hr. apply list_elem_of_singleton in Hr as ->. by apply moves_refl. Qed.

Lemma sound_weaken lb gs gs' f :
  sound lb gs f -> (forall i, i ∈ gs -> i ∈ gs') -> sound lb gs' f.
Proof. intros Hf Hs st r Hp Hr. eapply moves_weaken; [by apply Hf|done]. Qed.

Lemma elem_flat_map {A B} (f : A -> list B) l y : y ∈ flat_map f l <-> exists x, x ∈ l /\ y ∈ f x.
Proof.
  rewrite !list_elem_of_In, in_flat_map. split; intros (x & Hx & Hy); exists x;
    rewrite ?list_elem_of_In in *; done.
Qed.

Lemma sound_bind lb gs f g :
  sound lb gs f -> sound lb gs g -> sound lb gs (fun st => flat_map g (f st)).
Proof.
  intros Hf Hg st r Hp Hr. apply elem_flat_map in Hr as (x & Hx & Hr).
  pose proof (Hf st x Hp Hx) as Hm. eapply moves_trans; [done|]. apply Hg; [apply Hm|done].
Qed.

Lemma sound_seqM lb gs fs : Forall (sound lb gs) fs -> sound lb gs (seqM fs).
Proof.
  induction 1 as [|f fs Hf _ IH]; [apply sound_nil|].
  intros st r Hp Hr. by apply (sound_bind lb gs f (seqM fs) Hf IH).
Qed.

Lemma sound_altM lb gs fs : Forall (sound lb gs) fs -> sound lb gs (altM fs).
Proof.
  intros Hfs st r Hp Hr. apply elem_flat_map in Hr as (f & Hf & Hr).
  rewrite Forall_forall in Hfs. by apply (Hfs f Hf).
Qed.

Lemma clear_length n : forall i c, length (clear n i c) = length c.
Proof. induction n as [|n IH]; intros i c; cbn; [done|]. by rewrite IH, length_insert. Qed.

Lemma clear_lookup n : forall i c j,
  clear n i c !! j = if decide (i <= j < i + n)%nat then (fun _ => None) <$> c !! j else c !! j.
Proof.
  induction n as [|n IH]; intros i c j; cbn [clear].
  { rewrite decide_False by lia. done. }
  rewrite IH. destruct (decide (j = i)) as [->|Hne].
  - rewrite decide_False, decide_True by lia. destruct (c !! i) eqn:E; cbn.
    + by apply list_lookup_insert_eq, (lookup_lt_Some _ _ _ E).
    + by apply list_lookup_insert_None.
  - repeat case_decide; try lia; by rewrite list_lookup_insert_ne by done.
Qed.

Lemma resetGroups_moves lb gs q st :
  (pos st <= length cs)%nat ->
  (forall i, (Z.to_nat (firstGroupIndex q) <= i <
              Z.to_nat (firstGroupIndex q) + Z.to_nat (lastGroupIndex q - firstGroupIndex q + 1))%nat ->
     hasInnerCaptureGroups q = true -> i ∈ gs) ->
  moves cs lb gs st (resetGroups q st).
Proof.
  intros Hp Hgs. unfold resetGroups. destruct (hasInnerCaptureGroups q); [|by apply moves_refl].
  split_and!; [done|done|apply clear_length| |]; cbn [setCaps caps].
  - intros i Hi. rewrite clear_lookup, decide_False; [done|]. intros Hr. by apply Hi, Hgs.
  - intros Ho i a b. rewrite clear_lookup. case_decide; [|by apply Ho].
    destruct (caps st !! i); cbn; [|done]. intros; simplify_eq.
Qed.

Lemma sound_iterate lb gs body q :
  sound lb gs body ->
  (forall st, (pos st <= length cs)%nat -> moves cs lb gs st (resetGroups q st)) ->
  forall fuel count start, sound lb gs (iterate fuel body q count start).
Proof.
  intros Hb Hr. induction fuel as [|fuel IH]; intros count start st r Hp Hx; cbn [iterate] in Hx;
    [by apply not_elem_of_nil in Hx|].
  assert (forall x, x ∈ flat_map (fun r => iterate fuel body q (count + 1) (pos st) r)
            (body (resetGroups q st)) -> moves cs lb gs st x) as Ha.
  { intros x Hy. apply elem_flat_map in Hy as (y & Hy & Hx').
    pose proof (Hr st Hp) as Hm. eapply moves_trans; [done|].
    pose proof (Hb _ y (proj1 Hm) Hy) as Hm'. eapply moves_trans; [done|].
    eapply IH; [apply Hm'|done]. }
  assert (moves cs lb gs st st) by by apply moves_refl.
  repeat case_in Hx; try (by apply not_elem_of_nil in Hx); [by apply Ha| | |].
  - by apply list_elem_of_singleton in Hx as ->.
  - apply elem_of_app in Hx as [Hx|Hx]; [by apply Ha|by apply list_elem_of_singleton in Hx as ->].
  - cbn [app] in Hx. apply elem_of_cons in Hx as [->|Hx]; [done|by apply Ha].
Qed.

Context (loopCount groupCount : Z).
Notation wf := (wfNode groups loopCount groupCount).

Lemma foldr_Forall {A} (P : A -> Prop) l : foldr (fun x r => P x /\ r) True l <-> Forall P l.
Proof. induction l; cbn; [done|]. rewrite IHl. by rewrite Forall_cons. Qed.

Lemma Forall_sound lb gs (l : list Node) open :
  Forall (fun n => forall lb open, wf lb open n -> sound lb (groupsOf n) (sem cs groups lb n)) l ->
  Forall (wf lb open) l -> (forall i, i ∈ flat_map groupsOf l -> i ∈ gs) ->
  Forall (sound lb gs) (map (fun x => sem cs groups lb x) l).
Proof.
  intros Hl Hw Hgs. apply Forall_forall. intros f Hf. rewrite Forall_forall in Hl, Hw.
  apply list_elem_of_fmap in Hf as (n & -> & Hn).
  eapply sound_weaken; [by eapply (Hl n Hn), Hw|]. intros i Hi. apply Hgs, elem_flat_map. eauto.
Qed.

(** The results of a node are reached by moves in its direction. *)
Lemma sem_sound n : forall lb open, wf lb open n -> sound lb (groupsOf n) (sem cs groups lb n).
Proof.
  induction n as [|m|c|t m|nm i ic|q p IH|l IH|l IH|t p IH|t i p IH|c|s i ic|e t chars ic IH|] using Node_nested_ind;
    intros lb open Hw st r Hp Hr; cbn [sem groupsOf wfNode] in *.
  - by eapply sound_nil.
  - by eapply sound_testChar.
  - by eapply sound_testChar.
  - unfold check in Hr. case_in Hr; [|by apply not_elem_of_nil in Hr]. by eapply sound_nil.
  - by eapply sound_backRef.
  - destruct Hw as (Hw & _ & _ & _ & Hg). eapply sound_iterate in Hr; [done|by eapply IH| |done].
    intros st' Hp'. apply resetGroups_moves; [done|]. intros j Hj Hi. rewrite Hi in Hg.
    destruct Hg as (_ & _ & ->). apply elem_of_seq. lia.
  - destruct Hw as [_ Hw]. rewrite foldr_Forall in Hw.
    assert (Forall (sound lb (flat_map groupsOf l)) (map (fun x => sem cs groups lb x) l)) as Hf
      by (by eapply Forall_sound).
    eapply sound_seqM; [|done|exact Hr]. destruct lb; [by apply Forall_rev|done].
  - destruct Hw as [_ Hw]. rewrite foldr_Forall in Hw.
    assert (Forall (sound lb (flat_map groupsOf l)) (map (fun x => sem cs groups lb x) l)) as Hf
      by (by eapply Forall_sound).
    destruct l as [|p [|p' l]]; [by eapply sound_altM| |by eapply sound_altM].
    inversion_clear Hf as [|? ? Hs _].
    apply elem_of_app in Hr as [Hr|Hr]; [by apply Hs|by eapply sound_nil].
  - destruct Hw as [Hw _]. unfold lookAround in Hr.
    destruct (sem _ _ _ _ _) as [|x xs] eqn:E; case_in Hr; try (by apply not_elem_of_nil in Hr).
    + by eapply sound_nil.
    + apply list_elem_of_singleton in Hr as ->.
      destruct (IH (negb (isLookAhead t)) _ Hw st x Hp) as (_ & _ & Hl & Hc & Hok); [rewrite E; by left|].
      by split_and!.
  - destruct t; [|done..]. destruct Hw as [Hi Hw].
    apply list_elem_of_fmap in Hr as (x & -> & Hx).
    pose proof (IH lb _ Hw st x Hp Hx) as Hm. pose proof (moves_pos _ _ _ _ Hm Hp) as Hpos.
    destruct Hm as (Hpx & Hd & Hl & Hc & Ho).
    split_and!; [done|done|cbn; by rewrite length_insert| |]; cbn.
    + intros j Hj. rewrite not_elem_of_cons in Hj. rewrite list_lookup_insert_ne by naive_solver.
      apply Hc. naive_solver.
    + intros Hok j a b Hj. apply list_lookup_insert_Some in Hj as [(_ & Hj & _)|[_ Hj]].
      * destruct lb; simplify_eq; lia.
      * by apply Ho in Hj.
  - by eapply sound_testChar.
  - by eapply sound_testChar.
  - apply elem_of_app in Hr as [Hr|Hr]; [by eapply sound_strings|]. destruct Hw as (_ & _ & _ & _ & Hw).
    destruct chars as [c|]; [|by apply not_elem_of_nil in Hr]. destruct Hw as [Ht Hw].
    eapply moves_weaken; [by eapply IH|]. destruct c; try done; by intros i ?%not_elem_of_nil.
  - by eapply sound_cluster.
Qed.
End facts.

(** ** Lists of successes *)

Lemma flat_map_flat_map {A B D} (f : B -> list D) (g : A -> list B) l :
  flat_map f (flat_map g l) = flat_map (fun x => flat_map f (g x)) l.
Proof. induction l as [|x l IH]; [done|]. cbn. by rewrite flat_map_app, IH. Qed.

Lemma flat_map_single {A} (f : A -> list A) l : (forall x, x ∈ l -> f x = [x]) -> flat_map f l = l.
Proof.
  induction l as [|x l IH]; intros Hf; [done|]. cbn. rewrite Hf by (by left). cbn. f_equal. apply IH. intros y Hy. apply Hf. by right.
Qed.

Lemma seqM_app fs gs st : seqM (fs ++ gs) st = flat_map (seqM gs) (seqM fs st).
Proof.
  revert st. induction fs as [|f fs IH]; intros st; [cbn; by rewrite app_nil_r|].
  cbn [app seqM]. rewrite flat_map_flat_map. apply flat_map_ext. intros x. apply IH.
Qed.

End RegexSpec.
