(* ===== verification/RegexInst.v ===== *)
(** The instruction set (src/regex/instruction.h) and the compiled program
    (src/regex/regex.h).  An instruction is addressed by its byte offset in the
    code buffer, so the offsets, sizes and jump targets are the code's. *)
From S2P Require Import Prelude RegexMatcher RegexNode.

Module RegexInst.
Import RegexNode RegexMatcher.

(** The constructors carry the fields the C++ structs store as bytes. *)
Inductive Inst :=
| NopIns
| MatchIns
| JumpIns (target : Z)
| AltIns (second : Z)
| StartIns (multiline : bool)
| EndIns (multiline : bool)
| WordIns (invert : bool)
| IWordIns (invert : bool)
| AnyIns
| AnyExceptNLIns
| GraphemeIns
| LBAnyIns (dotAll : bool)
| CharIns (codePoint : Z)
| ICharIns (codePoint : Z)
| LBCharIns (codePoint : Z) (ignoreCase : bool)
| CharSetIns (matcherIndex : Z) (invert : bool)
| ICharSetIns (matcherIndex : Z) (invert : bool)
| LBCharSetIns (matcherIndex : Z) (invert ignoreCase : bool)
| PrepareRadixIns
| RadixOrEmojiIns (emoji : Z) (hasRadix : bool) (index nextOffset : Z)
| PrepareLBRadixIns
| LBRadixOrEmojiIns (emoji : Z) (hasRadix : bool) (index nextOffset : Z)
| StringIns (index : Z)
| LBStringIns (index : Z)
| BeginCaptureIns (captureIndex : Z)
| EndCaptureIns (captureIndex : Z)
| LBEndCaptureIns (captureIndex : Z)
| ResetCapturesIns (firstIndex lastIndex : Z)
| BackRefIns (refIndex : Z) (named : bool)
| IBackRefIns (refIndex : Z) (named : bool)
| LBBackRefIns (refIndex : Z) (named ignoreCase : bool)
| BeginLoopIns (loopIndex min max : Z) (greedy : bool) (outer : Z)
| EndLoopIns (target : Z)
| BeginLookAroundIns (target : Z) (negate : bool)
| EndLookAroundIns.

(** [sizeof] of each instruction: one opcode byte and its fields. *)
Definition sizeOfInst (i : Inst) : Z :=
  match i with
  | NopIns | MatchIns | AnyIns | AnyExceptNLIns | GraphemeIns | EndLookAroundIns | PrepareRadixIns | PrepareLBRadixIns => 1
  | StartIns _ | EndIns _ | WordIns _ | IWordIns _ | LBAnyIns _ => 2
  | StringIns _ | LBStringIns _ | BeginCaptureIns _ | EndCaptureIns _ | LBEndCaptureIns _ => 3
  | CharSetIns _ _ | ICharSetIns _ _ | BackRefIns _ _ | IBackRefIns _ _ => 4
  | JumpIns _ | AltIns _ | CharIns _ | ICharIns _ | LBCharSetIns _ _ _ | ResetCapturesIns _ _
  | LBBackRefIns _ _ _ | EndLoopIns _ => 5
  | LBCharIns _ _ | BeginLookAroundIns _ _ | RadixOrEmojiIns _ _ _ _ | LBRadixOrEmojiIns _ _ _ _ => 6
  | BeginLoopIns _ _ _ _ _ => 14
  end.

(** A code buffer: the instruction that starts at a byte offset. *)
Abbreviation code := (gmap Z Inst).

Record Regex := {
  regexLoopCount : Z;
  regexCaptureGroupCount : Z;
  instSeq : code;
  firstBitSet : Z;        (* std::bitset<256> *)
  matchers : list Matcher;
  named : NamedCaptureGroups
}.

(** [matchers[i]] *)
Definition matcherAt (ms : list Matcher) (i : Z) : option Matcher :=
  if i <? 0 then None else ms !! Z.to_nat i.

Definition MAX_STACK_DEPTH : Z := 0xFFFFFF.
Definition TIMER_CHECK_INTERVAL : Z := Z.shiftr UINT16_MAX 1.

Inductive MatchStatus :=
  OK | FAIL | INVALID_UTF8 | INPUT_LIMIT | CANCEL | TIMEOUT | STACK_LIMIT
| CONSUMED_LIMIT | INVALID_REPLACE_PATTERN.

#[export] Instance MatchStatus_eq_dec : EqDecision MatchStatus.
Proof. solve_decision. Defined.

Inductive TimerStatus := NoneStatus | Canceled | Expired.

End RegexInst.
