(* ===== verification/RegexPrefilter.v ===== *)
(** The prefilter (src/regex/prefilter.cpp): the set of the bytes a match can
    begin with, collected from the instructions.  A [std::bitset<256>] is a [Z]. *)
From stdpp Require Import list_numbers.
From S2P Require Import Prelude Unicode CodePointSet RadixPacked RegexMatcher RegexNode RegexInst.

Module RegexPrefilter.
Import UnicodeUtil CodePointSet RegexMatcher RegexNode RegexInst.

Abbreviation FirstBitSet := Z (only parsing).

Definition setByte (set : FirstBitSet) (b : Z) : FirstBitSet := Z.setbit set b.

(** [buf[0]] after [codePointToUtf8]. *)
Definition firstByte (c : Z) : Z := nth 0 (codePointToUtf8 c) 0.

Section unicode.
Context `{Ucd}.

Definition fill (fold : bool) (set : FirstBitSet) (codePoint : Z) : FirstBitSet :=
  let set := setByte set (firstByte codePoint) in
  if fold then fold_left (fun s e => setByte s (firstByte e)) (doSimpleCaseUnfold codePoint) set
  else set.

Definition fillRange (fold : bool) (set : FirstBitSet) (first last : Z) : FirstBitSet :=
  fold_left (fill fold) (seqZ first (last - first + 1)) set.

Definition fillSet (fold : bool) (set : FirstBitSet) (r : CodePointSetRef) : FirstBitSet :=
  let set := fold_left (fun s e => fillRange fold s (firstBMP e) (lastBMP e)) (getBMPRanges r) set in
  let set := fold_left (fun s e => fillRange fold s (i32 (fst e)) (i32 (snd e))) (getNonBMPRanges r) set in
  fold_left (fun s e => fillRange fold s (firstPacked e) (lastPacked e)) (getPackedNonBMPRanges r) set.

Definition fillAscii (fold : bool) (set : FirstBitSet) (a : AsciiSet) : FirstBitSet :=
  fold_left (fun s c => if asciiContains a c then fill fold s c else s)
    (seqZ ASCII_MIN (ASCII_MAX - ASCII_MIN + 1)) set.

Definition fillString (fold : bool) (set : FirstBitSet) (s : bytes) : FirstBitSet :=
  fill fold set (snd (wtf8ToCodePoint s)).

(** The walkers over the packed trees of emoji sequences and of strings. *)
Definition fillEmoji (fold : bool) (set : FirstBitSet) (emoji : Z) : option FirstBitSet :=
  RadixPacked.iteratePacked (fun s ref p => (true, if hasFlag emoji p then fillString fold s ref else s))
    getEmojiTrie set.

Definition fillRadix (fold : bool) (set : FirstBitSet) (radix : RadixPacked.PackedRadixTree) : option FirstBitSet :=
  RadixPacked.iteratePacked (fun s ref _ => (true, fillString fold s ref)) radix set.

Definition fillMatcher (fold : bool) (set : FirstBitSet) (m : Matcher) : FirstBitSet :=
  if tag m =? typeTag ASCII then fillAscii fold set (asAsciiSet m)
  else fillSet fold set (asCodePointSetRef m).

(** [collect begin end]: the extended set, [None] for [false] (the caller then
    drops the set).  Each call starts at a later instruction. *)
Fixpoint collect (fuel : nat) (instSeq : code) (ms : list Matcher) (set : FirstBitSet)
    (begin end_ : Z) : option FirstBitSet :=
  match fuel with
  | O => None
  | S fuel' =>
      if begin =? end_ then None
      else
        match instSeq !! begin with
        | None => None
        | Some ins =>
            let next := begin + sizeOfInst ins in
            match ins with
            | NopIns | MatchIns | JumpIns _ | WordIns _ | IWordIns _ | PrepareRadixIns | BeginCaptureIns _
            | EndCaptureIns _ | ResetCapturesIns _ _ | EndLoopIns _ | EndLookAroundIns =>
                collect fuel' instSeq ms set next end_
            | AltIns second =>
                set ← collect fuel' instSeq ms set next second;
                collect fuel' instSeq ms set second end_
            | StartIns _ | EndIns _ | AnyIns | AnyExceptNLIns | GraphemeIns | BackRefIns _ _ | IBackRefIns _ _
            | LBAnyIns _ | LBCharIns _ _ | LBCharSetIns _ _ _ | PrepareLBRadixIns
            | LBRadixOrEmojiIns _ _ _ _ | LBStringIns _ | LBEndCaptureIns _ | LBBackRefIns _ _ _ => None
            | CharIns c => Some (fill false set c)
            | ICharIns c => Some (fill true set c)
            | CharSetIns index invert =>
                if invert then None
                else m ← matcherAt ms index; Some (fillMatcher false set m)
            | ICharSetIns index invert =>
                if invert then None
                else m ← matcherAt ms index; Some (fillMatcher true set m)
            | RadixOrEmojiIns emoji hasRadix index nextOffset =>
                let fold := hasFlag emoji CASE_IGNORE in
                set ← (if hasEmoji emoji then fillEmoji fold set emoji else Some set);
                set ← (if hasRadix : bool
                       then m ← matcherAt ms index; fillRadix fold set (asRadixTree m) else Some set);
                if negb (nextOffset =? 0) then collect fuel' instSeq ms set next end_ else Some set
            | StringIns index =>
                m ← matcherAt ms index; Some (fillString false set (asStrRef m))
            | BeginLoopIns _ min _ _ outer =>
                if 0 <? min then collect fuel' instSeq ms set next outer else None
            | BeginLookAroundIns target _ => collect fuel' instSeq ms set target end_
            end
        end
  end.

(** The empty set when the collection fails. *)
Definition createFirstBitSet (instSeq : code) (size : Z) (ms : list Matcher) : FirstBitSet :=
  match collect (S (Z.to_nat size)) instSeq ms 0 0 size with
  | Some set => set
  | None => 0
  end.
End unicode.

End RegexPrefilter.
