(* ===== verification/RegexEmit.v ===== *)
(** The code generator of the regular expression engine (src/regex/emit.h and
    src/regex/emit.cpp): the instruction buffer with its reserved points, one
    definition per [generate] function. *)
From S2P Require Import Prelude Unicode CodePointSet RadixTree RadixPacked RegexMatcher RegexNode RegexInst.
From S2P Require Import RegexPrefilter.

Module RegexEmit.
Import UnicodeUtil RegexMatcher RegexNode RegexInst RegexPrefilter.

(** ** CodeGen state: the buffer, the matchers and the direction stack

    A reserved point is its offset.  [None] is a [false] of the generator: the
    errors are the number of matchers and the size of a string set, [err] being their
    message; a failed assertion is [None], too.  The buffer's
    allocation failure is not modelled. *)
Record Builder := {
  buf : code;
  bufSize : Z;
  bMatchers : list Matcher;
  directions : list bool  (* back first; true: forward *)
}.

Definition M (A : Type) : Type := Builder -> option (A * Builder).
#[export] Instance M_ret : MRet M := fun A x b => Some (x, b).
#[export] Instance M_bind : MBind M := fun A B f m b =>
  match m b with Some (x, b') => f x b' | None => None end.
Definition err {A} : M A := fun _ => None.

Definition currentAddr : M Z := fun b => Some (bufSize b, b).

Definition emitReservedPoint (size : Z) : M Z := fun b =>
  Some (bufSize b, {| buf := buf b; bufSize := bufSize b + size;
                      bMatchers := bMatchers b; directions := directions b |}).

Definition emitAt (point : Z) (i : Inst) : M unit := fun b =>
  Some (tt, {| buf := <[point := i]> (buf b); bufSize := bufSize b;
               bMatchers := bMatchers b; directions := directions b |}).

Definition emit (i : Inst) : M unit :=
  point ← emitReservedPoint (sizeOfInst i); emitAt point i.

Definition inLookBehind : M bool := fun b =>
  Some (match directions b with d :: _ => negb d | [] => false end, b).

Definition pushDirection (d : bool) : M unit := fun b =>
  Some (tt, {| buf := buf b; bufSize := bufSize b; bMatchers := bMatchers b;
               directions := d :: directions b |}).
Definition popDirection : M unit := fun b =>
  Some (tt, {| buf := buf b; bufSize := bufSize b; bMatchers := bMatchers b;
               directions := tail (directions b) |}).

Definition emitMatcher (m : Matcher) : M Z := fun b =>
  let index := zlen (bMatchers b) in
  if UINT16_MAX <? index then None
  else Some (index, {| buf := buf b; bufSize := bufSize b; bMatchers := bMatchers b ++ [m];
                       directions := directions b |}).

(** ** The generate functions

    A child is the pair of the node and of its generator. *)

Definition generateCharSet (set : CodePointSet.CodePointSetRef) (invert ignoreCase : bool) : M unit :=
  matcherIndex ← emitMatcher (match tryToGenerateAsciiSet set with
                              | Some s => ofAsciiSet s
                              | None => ofCodePointSet true set
                              end);
  lb ← inLookBehind;
  emit (if lb : bool then LBCharSetIns matcherIndex invert ignoreCase
        else if ignoreCase then ICharSetIns matcherIndex invert
        else CharSetIns matcherIndex invert).

(** The code points of the leading run of character nodes. *)
Fixpoint charRun (items : list (Node * M unit)) : list Z :=
  match items with
  | (CharNode c, _) :: rest => c :: charRun rest
  | _ => []
  end.

Definition utf8OfRun (cs : list Z) : bytes := flat_map codePointToUtf8 cs.

Definition headIsChar (items : list (Node * M unit)) : bool :=
  match items with (n, _) :: _ => isCharNode n | [] => false end.

(** One loop for both directions: [items] is the sequence in the order of the
    iterator, [inRun] skips the rest of a run that has been emitted as a string. *)
Fixpoint seqItems (lb inRun : bool) (items : list (Node * M unit)) : M unit :=
  match items with
  | [] => mret tt
  | (n, g) :: rest =>
      if inRun && isCharNode n then seqItems lb true rest
      else if isCharNode n && headIsChar rest then
        let run := charRun items in
        (index ← emitMatcher (ofBytes (utf8OfRun (if lb then rev run else run)));
         emit (if lb then LBStringIns index else StringIns index)) ;;
        seqItems lb true rest
      else g ;; seqItems lb false rest
  end.

Definition generateSeq (items : list (Node * M unit)) : M unit :=
  lb ← inLookBehind;
  seqItems lb false (if lb : bool then rev items else items).

(** The alternatives but the last: their [Alt], and the jumps to the end. *)
Fixpoint altItems (items : list (Node * M unit)) : M (list Z) :=
  match items with
  | [] => mret []
  | [(_, g)] => g ;; mret []
  | (_, g) :: (((next, _) :: more) as rest) =>
      point ← emitReservedPoint (sizeOfInst (AltIns 0));
      g ;;
      jump ← (if negb (isEmptyNode next) || negb (length more =? 0)%nat
              then j ← emitReservedPoint (sizeOfInst (JumpIns 0)); mret [j]
              else mret []);
      addr ← currentAddr;
      emitAt point (AltIns addr) ;;
      jumps ← altItems rest;
      mret (jump ++ jumps)
  end.

Fixpoint emitJumps (jumps : list Z) (addr : Z) : M unit :=
  match jumps with
  | [] => mret tt
  | e :: rest => emitAt e (JumpIns addr) ;; emitJumps rest addr
  end.

Definition generateAlt (items : list (Node * M unit)) : M unit :=
  match items with
  | [(_, g)] =>
      point ← emitReservedPoint (sizeOfInst (AltIns 0));
      g ;;
      addr ← currentAddr;
      emitAt point (AltIns addr)
  | _ =>
      jumps ← altItems items;
      addr ← currentAddr;
      emitJumps jumps addr
  end.

(** Non-capturing groups are removed by the lowering pass. *)
Definition generateGroup (type : GroupType) (groupIndex : Z) (g : M unit) : M unit :=
  match type with
  | CAPTURE =>
      emit (BeginCaptureIns (u16 groupIndex)) ;;
      g ;;
      lb ← inLookBehind;
      emit (if lb : bool then LBEndCaptureIns (u16 groupIndex) else EndCaptureIns (u16 groupIndex))
  | NON_CAPTURE | MODIFIER => err
  end.

(** [chars]: the generator of the code points of the set, when there are some. *)
Definition generateStrSet (emoji : Z) (radix : RadixTree.RadixTree) (chars : option (M unit)) (ignoreCase : bool) : M unit :=
  let emoji := if ignoreCase then setFlag emoji CASE_IGNORE else emoji in
  radixIndex ← (if RadixTree.empty radix then mret None : M (option Z)
                else match RadixPacked.serialize radix with
                     | Some (true, buf) =>
                         index ← emitMatcher (ofRadix buf (u16 (RadixTree.maxCodePointCount radix))); mret (Some index)
                     | _ => err
                     end);
  lb ← inLookBehind;
  emit (if lb : bool then PrepareLBRadixIns else PrepareRadixIns) ;;
  reservedPoint ← emitReservedPoint (sizeOfInst (RadixOrEmojiIns 0 false 0 0));
  oldAddr ← currentAddr;
  (match chars with Some g => g | None => mret tt : M unit end) ;;
  addr ← currentAddr;
  let nextOffset := addr - oldAddr in
  if UINT8_MAX <? nextOffset then err
  else
    let hasRadix := match radixIndex with Some _ => true | None => false end in
    let index := default 0 radixIndex in
    emitAt reservedPoint (if lb : bool then LBRadixOrEmojiIns emoji hasRadix index nextOffset
                          else RadixOrEmojiIns emoji hasRadix index nextOffset).

Definition generateRepeat (q : Quantifier) (g : M unit) : M unit :=
  beginAddr ← currentAddr;
  p ← emitReservedPoint (sizeOfInst (BeginLoopIns 0 0 0 false 0));
  (if hasInnerCaptureGroups q
   then emit (ResetCapturesIns (firstGroupIndex q) (lastGroupIndex q)) else mret tt) ;;
  g ;;
  emit (EndLoopIns beginAddr) ;;
  outerAddr ← currentAddr;
  emitAt p (BeginLoopIns (loopIndex q) (qmin q) (qmax q) (greedy q) outerAddr).

Definition generateLookAround (type : LookAroundType) (g : M unit) : M unit :=
  p ← emitReservedPoint (sizeOfInst (BeginLookAroundIns 0 false));
  pushDirection (isLookAhead type) ;;
  g ;;
  popDirection ;;
  endAddr ← currentAddr;
  emit EndLookAroundIns ;;
  emitAt p (BeginLookAroundIns endAddr (isNegate type)).

(** The node kinds with no child. *)
Definition generateLeaf (n : Node) : M unit :=
  lb ← inLookBehind;
  match n with
  | AnyNode m =>
      let dotAll := hasFlag m DOT_ALL in
      emit (if lb : bool then LBAnyIns dotAll else if dotAll then AnyIns else AnyExceptNLIns)
  | CharNode c => emit (if lb : bool then LBCharIns c false else CharIns c)
  | BoundaryNode t m =>
      emit (match t with
            | START => StartIns (hasFlag m MULTILINE)
            | END => EndIns (hasFlag m MULTILINE)
            | WORD => if hasFlag m IGNORE_CASE then IWordIns false else WordIns false
            | NOT_WORD => if hasFlag m IGNORE_CASE then IWordIns true else WordIns true
            end)
  | BackRefNode named index ignoreCase =>
      emit (if lb : bool then LBBackRefIns (u16 index) named ignoreCase
            else if ignoreCase then IBackRefIns (u16 index) named
            else BackRefIns (u16 index) named)
  | FoldCharNode c => emit (if lb : bool then LBCharIns c true else ICharIns c)
  | GraphemeNode => emit GraphemeIns
  | _ => mret tt
  end.

Fixpoint generate (n : Node) : M unit :=
  match n with
  | RepeatNode q p => generateRepeat q (generate p)
  | SeqNode l => generateSeq (map (fun x => (x, generate x)) l)
  | AltNode l => generateAlt (map (fun x => (x, generate x)) l)
  | LookAroundNode t p => generateLookAround t (generate p)
  | GroupNode t i p => generateGroup t i (generate p)
  | CharSetNode set invert ignoreCase => generateCharSet set invert ignoreCase
  | StrSetNode emoji radix chars ignoreCase =>
      generateStrSet emoji radix (match chars with Some c => Some (generate c) | None => None end) ignoreCase
  | _ => generateLeaf n
  end.

(** [CodeGen::operator()] after the lowering pass. *)
Definition codeGen `{Ucd} (tree : SyntaxTree) : option Regex :=
  let start := {| buf := ∅; bufSize := 0; bMatchers := []; directions := [true] |} in
  match (generate (pattern tree) ;; emit MatchIns) start with
  | Some (_, b) =>
      Some {| regexLoopCount := loopCount tree;
              regexCaptureGroupCount := captureGroupCount tree;
              instSeq := buf b;
              firstBitSet := createFirstBitSet (buf b) (bufSize b) (bMatchers b);
              matchers := bMatchers b;
              named := namedCaptureGroups tree |}
  | None => None
  end.

End RegexEmit.
