(* ===== verification/RegexLayout.v ===== *)
(** Where the code generator puts the code of a node: the relation [comp] between a
    node and a region of the instruction sequence, and the proof that [generate]
    establishes it whatever is emitted or patched around the region. *)
From S2P Require Import Prelude Unicode CodePointSet RadixTree RadixPacked RegexMatcher RegexNode RegexInst.
From S2P Require Import RegexSpec RegexPrefilter RegexEmit.

Module RegexLayout.
Import UnicodeUtil RegexMatcher RegexNode RegexInst RegexPrefilter RegexEmit.

(** The instruction of a node without children. *)
Definition leafIns (lb : bool) (n : Node) : option Inst :=
  match n with
  | AnyNode m =>
      Some (if lb then LBAnyIns (hasFlag m DOT_ALL)
            else if hasFlag m DOT_ALL then AnyIns else AnyExceptNLIns)
  | CharNode c => Some (if lb then LBCharIns c false else CharIns c)
  | FoldCharNode c => Some (if lb then LBCharIns c true else ICharIns c)
  | BoundaryNode t m =>
      Some (match t with
            | START => StartIns (hasFlag m MULTILINE)
            | END => EndIns (hasFlag m MULTILINE)
            | WORD => if hasFlag m IGNORE_CASE then IWordIns false else WordIns false
            | NOT_WORD => if hasFlag m IGNORE_CASE then IWordIns true else WordIns true
            end)
  | BackRefNode named index ignoreCase =>
      Some (if lb then LBBackRefIns (u16 index) named ignoreCase
            else if ignoreCase then IBackRefIns (u16 index) named
            else BackRefIns (u16 index) named)
  | GraphemeNode => Some GraphemeIns
  | _ => None
  end.

Definition setIns (lb : bool) (index : Z) (invert ignoreCase : bool) : Inst :=
  if lb then LBCharSetIns index invert ignoreCase
  else if ignoreCase then ICharSetIns index invert
  else CharSetIns index invert.

Definition setMatcher (set : CodePointSet.CodePointSetRef) : Matcher :=
  match tryToGenerateAsciiSet set with
  | Some s => ofAsciiSet s
  | None => ofCodePointSet true set
  end.

(** The instructions of a set of strings. *)
Definition prepareIns (lb : bool) : Inst := if lb then PrepareLBRadixIns else PrepareRadixIns.

Definition radixIns (lb : bool) (emoji : Z) (ic : bool) (hasRadix : bool) (index nextOffset : Z) : Inst :=
  let emoji := if ic then setFlag emoji CASE_IGNORE else emoji in
  if lb then LBRadixOrEmojiIns emoji hasRadix index nextOffset else RadixOrEmojiIns emoji hasRadix index nextOffset.

Section layout.
Context (C : code) (ms : list Matcher).

Definition radixAt (radix : RadixTree.RadixTree) (index : Z) : Prop :=
  if RadixTree.empty radix then index = 0
  else exists buf, RadixPacked.serialize radix = Some (true, buf) /\
    matcherAt ms index = Some (ofRadix buf (u16 (RadixTree.maxCodePointCount radix))).

(** A set of strings from [a], its code points up to [z]. *)
Definition strSetAt (lb : bool) (emoji : Z) (radix : RadixTree.RadixTree) (ic : bool) (a z : Z) : Prop :=
  C !! a = Some (prepareIns lb) /\
  exists index, radixAt radix index /\
    C !! (a + 1) = Some (radixIns lb emoji ic (negb (RadixTree.empty radix)) index (z - (a + 7))).

(** The address of the body of a loop. *)
Definition bodyAddr (q : Quantifier) (a : Z) : Z :=
  if hasInnerCaptureGroups q then a + 19 else a + 14.

Definition resetAt (q : Quantifier) (a : Z) : Prop :=
  hasInnerCaptureGroups q = true ->
  C !! (a + 14) = Some (ResetCapturesIns (firstGroupIndex q) (lastGroupIndex q)).

(** [comp lb n a z]: the code of [n] begins at [a] and ends before [z].  The nodes
    of a sequence are in the order of their code, the end of alternatives is given
    first. *)
Inductive comp : bool -> Node -> Z -> Z -> Prop :=
| comp_empty (lb : bool) a : comp lb EmptyNode a a
| comp_leaf (lb : bool) n i a z :
    leafIns lb n = Some i -> C !! a = Some i -> z = a + sizeOfInst i -> comp lb n a z
| comp_set (lb : bool) s invert ic index a z :
    matcherAt ms index = Some (setMatcher s) ->
    C !! a = Some (setIns lb index invert ic) -> z = a + sizeOfInst (setIns lb index invert ic) ->
    comp lb (CharSetNode s invert ic) a z
| comp_repeat (lb : bool) q p a e z :
    C !! a = Some (BeginLoopIns (loopIndex q) (qmin q) (qmax q) (greedy q) z) ->
    resetAt q a -> comp lb p (bodyAddr q a) e ->
    C !! e = Some (EndLoopIns a) -> z = e + 5 -> comp lb (RepeatNode q p) a z
| comp_seq (lb : bool) l a z : compSeq lb (if lb then rev l else l) a z -> comp lb (SeqNode l) a z
| comp_opt (lb : bool) p a z : C !! a = Some (AltIns z) -> comp lb p (a + 5) z -> comp lb (AltNode [p]) a z
| comp_alt (lb : bool) l a z : (2 <= length l)%nat -> compAlt lb z l a -> comp lb (AltNode l) a z
| comp_look (lb : bool) t p a e z :
    C !! a = Some (BeginLookAroundIns e (isNegate t)) ->
    comp (negb (isLookAhead t)) p (a + 6) e ->
    C !! e = Some EndLookAroundIns -> z = e + 1 -> comp lb (LookAroundNode t p) a z
| comp_group (lb : bool) i p a e z :
    C !! a = Some (BeginCaptureIns (u16 i)) -> comp lb p (a + 3) e ->
    C !! e = Some (if lb then LBEndCaptureIns (u16 i) else EndCaptureIns (u16 i)) ->
    z = e + 3 -> comp lb (GroupNode CAPTURE i p) a z
| comp_strs (lb : bool) emoji radix ic a :
    strSetAt lb emoji radix ic a (a + 7) -> comp lb (StrSetNode emoji radix None ic) a (a + 7)
| comp_strChars (lb : bool) emoji radix c ic a z :
    strSetAt lb emoji radix ic a z -> comp lb c (a + 7) z -> comp lb (StrSetNode emoji radix (Some c) ic) a z
with compSeq : bool -> list Node -> Z -> Z -> Prop :=
| cs_nil lb a : compSeq lb [] a a
| cs_run (lb : bool) run rest index a z :
    (2 <= length run)%nat ->
    C !! a = Some (if lb then LBStringIns index else StringIns index) ->
    matcherAt ms index = Some (ofBytes (utf8OfRun (if lb then rev run else run))) ->
    compSeq lb rest (a + 3) z -> compSeq lb (map CharNode run ++ rest) a z
| cs_cons lb n rest a b z : comp lb n a b -> compSeq lb rest b z -> compSeq lb (n :: rest) a z
with compAlt : bool -> Z -> list Node -> Z -> Prop :=
| ca_last lb z n a : comp lb n a z -> compAlt lb z [n] a
| ca_jump lb z n rest a e :
    C !! a = Some (AltIns (e + 5)) -> comp lb n (a + 5) e -> C !! e = Some (JumpIns z) ->
    compAlt lb z rest (e + 5) -> compAlt lb z (n :: rest) a
| ca_skip lb z n a :
    C !! a = Some (AltIns z) -> comp lb n (a + 5) z -> compAlt lb z [n; EmptyNode] a.

Scheme comp_mind := Minimality for comp Sort Prop
with compSeq_mind := Minimality for compSeq Sort Prop
with compAlt_mind := Minimality for compAlt Sort Prop.
Combined Scheme comp_all_ind from comp_mind, compSeq_mind, compAlt_mind.
End layout.

(** * The generator establishes the layout *)

(** A generator only appends, and leaves the direction as it was. *)
Definition grows (b b' : Builder) : Prop :=
  bufSize b <= bufSize b' /\ directions b' = directions b /\
  bMatchers b `prefix_of` bMatchers b' /\
  forall x, x < bufSize b -> buf b' !! x = buf b !! x.

#[export] Instance grows_preorder : PreOrder grows.
Proof.
  split.
  - intros b. split_and!; (done || lia).
  - intros a b c (H1 & H2 & H3 & H4) (K1 & K2 & K3 & K4). split_and!; [lia|congruence|by etrans|].
    intros x Hx. rewrite K4, H4 by lia. done.
Qed.

(** The final code agrees with the buffer from [a] to [z]. *)
Definition agrees (C : code) (a z : Z) (b : Builder) : Prop :=
  forall x, a <= x < z -> C !! x = buf b !! x.

Lemma agrees_sub C a z b a' z' b' :
  agrees C a z b -> a <= a' -> z' <= z ->
  (forall x, a' <= x < z' -> buf b !! x = buf b' !! x) -> agrees C a' z' b'.
Proof. intros H Ha Hz Hb x Hx. rewrite <- Hb by done. apply H. lia. Qed.

Lemma agrees_before C a z b b' z' :
  agrees C a z b -> grows b' b -> z' <= bufSize b' -> z' <= z -> agrees C a z' b'.
Proof. intros H (_ & _ & _ & Hg) Hz Hzz. eapply agrees_sub; [done|lia|done|]. intros; apply Hg. lia. Qed.

Lemma bind_inv {A B} (m : M A) (f : A -> M B) b y b'' :
  (m ≫= f) b = Some (y, b'') -> exists x b', m b = Some (x, b') /\ f x b' = Some (y, b'').
Proof.
  unfold mbind, M_bind. destruct (m b) as [[x b']|]; [|done]. intros H. eauto.
Qed.

Lemma emit_inv i b u b' : emit i b = Some (u, b') ->
  b' = {| buf := <[bufSize b := i]> (buf b); bufSize := bufSize b + sizeOfInst i;
          bMatchers := bMatchers b; directions := directions b |}.
Proof. unfold emit, emitReservedPoint, emitAt, mbind, M_bind. intros. by simplify_eq. Qed.

Lemma size_pos i : 1 <= sizeOfInst i.
Proof. destruct i; cbn; lia. Qed.

Lemma emit_spec i b u b' : emit i b = Some (u, b') ->
  grows b b' /\ bufSize b' = bufSize b + sizeOfInst i /\ bMatchers b' = bMatchers b /\
  (forall C, agrees C (bufSize b) (bufSize b') b' -> C !! bufSize b = Some i).
Proof.
  intros H. apply emit_inv in H as ->. pose proof (size_pos i). unfold grows. cbn.
  split_and!; try done; [lia| |].
  - intros x Hx. by rewrite lookup_insert_ne by lia.
  - intros C HC. rewrite HC by (cbn; lia). cbn. by rewrite lookup_insert_eq.
Qed.

Lemma emitMatcher_spec m b i b' : emitMatcher m b = Some (i, b') ->
  grows b b' /\ bufSize b' = bufSize b /\ buf b' = buf b /\
  (forall ms, bMatchers b' `prefix_of` ms -> matcherAt ms i = Some m).
Proof.
  unfold emitMatcher. case_on; [done|]. intros. simplify_eq. unfold grows. cbn.
  split_and!; try done; [by apply prefix_app_r|].
  intros ms [k ->]. unfold matcherAt. pose proof (zlen_nonneg (bMatchers b)).
  destruct (Z.ltb_spec (zlen (bMatchers b)) 0); [lia|].
  unfold zlen. rewrite Nat2Z.id, <- app_assoc, lookup_app_r by lia. by rewrite Nat.sub_diag.
Qed.

(** The direction on top of the stack. *)
Definition facing (lb : bool) (b : Builder) : Prop := head (directions b) = Some (negb lb).

Lemma inLookBehind_spec lb b : facing lb b -> inLookBehind b = Some (lb, b).
Proof.
  unfold facing, inLookBehind. destruct (directions b); [done|]. cbn. intros. simplify_eq.
  by rewrite negb_involutive.
Qed.

Lemma facing_grows lb b b' : facing lb b -> grows b b' -> facing lb b'.
Proof. intros H (_ & Hd & _). unfold facing. by rewrite Hd. Qed.

(** The test of a code point has code. *)
Lemma test_size C ms lb c a z : RegexSpec.isTest c = true -> comp C ms lb c a z -> a < z.
Proof.
  intros Ht Hc. destruct c; try done; inversion Hc; subst;
    match goal with |- _ < _ + sizeOfInst ?i => pose proof (size_pos i) end; lia.
Qed.

(** What is proved of each generator. *)
Definition lays (lb : bool) (g : M unit) (P : code -> list Matcher -> Z -> Z -> Prop) : Prop :=
  forall b u b', g b = Some (u, b') -> facing lb b ->
  grows b b' /\
  forall C ms, agrees C (bufSize b) (bufSize b') b' -> bMatchers b' `prefix_of` ms ->
    P C ms (bufSize b) (bufSize b').

Abbreviation good lb n := (lays lb (generate n) (fun C ms a z => comp C ms lb n a z)).

(** A reserved point and the patch that fills it. *)
Definition patch (b : Builder) (p : Z) (i : Inst) : Builder :=
  {| buf := <[p := i]> (buf b); bufSize := bufSize b; bMatchers := bMatchers b;
     directions := directions b |}.
Definition reserve (b : Builder) (size : Z) : Builder :=
  {| buf := buf b; bufSize := bufSize b + size; bMatchers := bMatchers b; directions := directions b |}.

Lemma reserve_grows b n : 0 <= n -> grows b (reserve b n).
Proof. intros. unfold grows, reserve. cbn. split_and!; (done || lia). Qed.

Lemma patch_grows b b' p i : grows b b' -> bufSize b <= p -> grows b (patch b' p i).
Proof.
  intros (H1 & H2 & H3 & H4) Hp. unfold grows, patch. cbn. split_and!; try done.
  intros x Hx. rewrite lookup_insert_ne by lia. by apply H4.
Qed.

Lemma patch_at b p i C a z : agrees C a z (patch b p i) -> a <= p < z -> C !! p = Some i.
Proof. intros H Hp. rewrite H by done. cbn. by rewrite lookup_insert_eq. Qed.

Lemma patch_agrees b p i C a z a' z' :
  agrees C a z (patch b p i) -> a <= a' -> z' <= z -> (p < a' \/ z' <= p) -> agrees C a' z' b.
Proof.
  intros H Ha Hz Hp. eapply agrees_sub; [done|done|done|]. intros x Hx. cbn.
  rewrite lookup_insert_ne by lia. done.
Qed.

(** ** Leaves *)

Lemma lays_emit lb i : lays lb (emit i) (fun C _ a z => C !! a = Some i /\ z = a + sizeOfInst i).
Proof.
  intros b u b' H _. destruct (emit_spec _ _ _ _ H) as (Hg & Hs & _ & HC).
  split; [done|]. intros C ms Ha _. split; [by apply HC|done].
Qed.

Lemma lays_weaken lb g P Q :
  lays lb g P -> (forall C ms a z, P C ms a z -> Q C ms a z) -> lays lb g Q.
Proof. intros H HPQ b u b' Hb Hf. destruct (H b u b' Hb Hf) as [Hg HP]. split; [done|]. eauto. Qed.

Lemma lays_ask lb (g : bool -> M unit) P : lays lb (g lb) P -> lays lb (d ← inLookBehind; g d) P.
Proof.
  intros H b u b' Hb Hf. refine (H b u b' _ Hf). unfold mbind, M_bind in Hb.
  by rewrite (inLookBehind_spec lb b Hf) in Hb.
Qed.

Lemma good_leaf lb n i : generate n = generateLeaf n -> leafIns lb n = Some i -> good lb n.
Proof.
  intros Hn Hi. rewrite Hn. unfold generateLeaf. apply lays_ask.
  apply (lays_weaken _ _ (fun C _ a z => C !! a = Some i /\ z = a + sizeOfInst i)).
  2: { intros C ms a z [Hc Hz]. by eapply comp_leaf. }
  destruct n; cbn in Hi; simplify_eq; apply lays_emit.
Qed.

Lemma good_set lb s invert ic : good lb (CharSetNode s invert ic).
Proof.
  intros b u b' H Hf. cbn [generate] in H. unfold generateCharSet in H.
  apply bind_inv in H as (idx & b1 & H1 & H). apply emitMatcher_spec in H1 as (Hg1 & Hs1 & Hb1 & Hm).
  fold (setMatcher s) in Hm.
  apply bind_inv in H as (d & b2 & H2 & H).
  rewrite (inLookBehind_spec lb) in H2 by (by eapply facing_grows). simplify_eq.
  apply emit_spec in H as (Hg & Hs & Hms & HC).
  split; [by etrans|]. intros C ms Ha Hp. rewrite <- Hs1 in *.
  eapply comp_set; [apply Hm; by rewrite Hms in Hp|by apply HC|by rewrite Hs].
Qed.
(** ** Composition *)

Lemma lays_bind lb g1 g2 P Q : lays lb g1 P -> lays lb g2 Q ->
  lays lb (g1 ;; g2) (fun C ms a z => exists e, a <= e <= z /\ P C ms a e /\ Q C ms e z).
Proof.
  intros H1 H2 b u b' H Hf. apply bind_inv in H as (u1 & b1 & Hb1 & Hb2).
  destruct (H1 _ _ _ Hb1 Hf) as [Hg1 HP]. pose proof (facing_grows _ _ _ Hf Hg1) as Hf1.
  destruct (H2 _ _ _ Hb2 Hf1) as [Hg2 HQ]. split; [by etrans|]. intros C ms Ha Hp.
  exists (bufSize b1). pose proof (proj1 Hg1). pose proof (proj1 Hg2). split; [done|]. split.
  - apply HP; [|etrans; [apply Hg2|done]]. eapply agrees_before; [done|exact Hg2|lia|lia].
  - apply HQ; [|done]. eapply agrees_sub; [done|lia|lia|done].
Qed.

Lemma good_empty lb : good lb EmptyNode.
Proof.
  intros b u b' H Hf. unfold generate, generateLeaf in H.
  apply bind_inv in H as (d & b1 & H1 & H). rewrite (inLookBehind_spec lb) in H1 by done.
  cbn in H. unfold M_ret, mret in H. simplify_eq. split; [done|]. intros. constructor.
Qed.

Lemma good_group lb i p : good lb p -> good lb (GroupNode CAPTURE i p).
Proof.
  intros Hp. cbn [generate]. unfold generateGroup.
  eapply lays_weaken.
  { apply lays_bind; [apply lays_emit|]. apply lays_bind; [apply Hp|].
    apply (lays_ask lb (fun d : bool => emit (if d then LBEndCaptureIns (u16 i) else EndCaptureIns (u16 i)))).
    apply lays_emit. }
  intros C ms a z (e & _ & [Hb ->] & e' & _ & Hc & He & ->).
  eapply comp_group; [done|exact Hc|done|]. by destruct lb.
Qed.

(** A generator between a reserved point and its patch, with a tail. *)
Lemma bindReserve {B} n (f : Z -> M B) b :
  (p ← emitReservedPoint n; f p) b = f (bufSize b) (reserve b n).
Proof. done. Qed.
Lemma bindAddr {B} (f : Z -> M B) b : (p ← currentAddr; f p) b = f (bufSize b) b.
Proof. done. Qed.
Lemma emitAt_inv p i b u b' : emitAt p i b = Some (u, b') -> b' = patch b p i.
Proof. unfold emitAt. intros. by simplify_eq. Qed.

Lemma lays_reset lb q :
  lays lb (if hasInnerCaptureGroups q
           then emit (ResetCapturesIns (firstGroupIndex q) (lastGroupIndex q)) else mret tt)
    (fun C _ a z => (hasInnerCaptureGroups q = true ->
        C !! a = Some (ResetCapturesIns (firstGroupIndex q) (lastGroupIndex q))) /\
      z = if hasInnerCaptureGroups q then a + 5 else a).
Proof.
  destruct (hasInnerCaptureGroups q).
  - eapply lays_weaken; [apply lays_emit|]. intros C ms a z [HC ->]. by split.
  - intros b u b' H _. unfold mret, M_ret in H. simplify_eq. split; [done|]. by intros.
Qed.

Lemma good_repeat lb q p : good lb p -> good lb (RepeatNode q p).
Proof.
  intros Hp b u b' H Hf. cbn [generate] in H. unfold generateRepeat in H.
  rewrite bindAddr, bindReserve in H. change (sizeOfInst _) with 14 in H.
  set (b1 := reserve b 14) in *.
  assert (grows b b1) as Hg1 by (by apply reserve_grows).
  assert (bufSize b1 = bufSize b + 14) as Hs1 by done.
  apply bind_inv in H as ([] & b2 & H2 & H). apply bind_inv in H as ([] & b3 & H3 & H).
  apply bind_inv in H as ([] & b4 & H4 & H). rewrite bindAddr in H. apply emitAt_inv in H as ->.
  pose proof (facing_grows _ _ _ Hf Hg1) as Hf1.
  destruct (lays_reset lb q _ _ _ H2 Hf1) as [Hg2 HP2].
  pose proof (facing_grows _ _ _ Hf1 Hg2) as Hf2.
  destruct (Hp _ _ _ H3 Hf2) as [Hg3 HP3].
  destruct (emit_spec _ _ _ _ H4) as (Hg4 & Hs4 & Hm4 & HP4). change (sizeOfInst _) with 5 in Hs4.
  assert (grows b b4) as Hg by (by do 3 (etrans; [eassumption|])).
  split; [apply patch_grows; [done|lia]|]. intros C ms Ha Hpre.
  pose proof (proj1 Hg2). pose proof (proj1 Hg3). cbn [bufSize patch bMatchers] in *.
  rewrite Hm4 in Hpre.
  destruct (HP2 C ms) as [Hr Hz].
  { eapply agrees_before; [|exact Hg3|lia|]; [|apply Z.le_refl].
    eapply agrees_before; [|exact Hg4|lia|]; [|apply Z.le_refl].
    eapply patch_agrees; [exact Ha|lia|lia|lia]. }
  { etrans; [apply Hg3|done]. }
  rewrite Hs1 in *.
  eapply comp_repeat with (e := bufSize b3).
  - by eapply patch_at; [exact Ha|lia].
  - unfold resetAt. done.
  - replace (bodyAddr q (bufSize b)) with (bufSize b2)
      by (rewrite Hz; unfold bodyAddr; destruct (hasInnerCaptureGroups q); lia).
    apply HP3; [|done]. eapply agrees_before; [|exact Hg4|lia|]; [|apply Z.le_refl].
    eapply patch_agrees; [exact Ha|lia|lia|lia].
  - apply HP4. eapply patch_agrees; [exact Ha|lia|lia|lia].
  - lia.
Qed.

Lemma good_look lb t p : good (negb (isLookAhead t)) p -> good lb (LookAroundNode t p).
Proof.
  intros Hp b u b' H Hf. cbn [generate] in H. unfold generateLookAround in H.
  rewrite bindReserve in H. change (sizeOfInst _) with 6 in H.
  apply bind_inv in H as ([] & b1 & H1 & H). apply bind_inv in H as ([] & b2 & H2 & H).
  apply bind_inv in H as ([] & b3 & H3 & H). rewrite bindAddr in H.
  apply bind_inv in H as ([] & b4 & H4 & H). apply emitAt_inv in H as ->.
  unfold pushDirection in H1. injection H1 as <-. unfold popDirection in H3. injection H3 as <-.
  destruct (Hp _ _ _ H2) as [Hg2 HP2]; [unfold facing; cbn; by rewrite negb_involutive|].
  set (b1 := {| buf := _; bufSize := _; bMatchers := _; directions := isLookAhead t :: _ |}) in *.
  set (b3 := {| buf := _; bufSize := _; bMatchers := _; directions := tail _ |}) in *.
  destruct (emit_spec _ _ _ _ H4) as (Hg4 & Hs4 & Hm4 & HP4). change (sizeOfInst _) with 1 in Hs4.
  assert (grows b b3) as Hg3.
  { destruct Hg2 as (K1 & K2 & K3 & K4). split_and!; [cbn in *; lia|cbn; by rewrite K2|done|].
    intros x Hx. apply K4. cbn. lia. }
  assert (bufSize b3 = bufSize b2) as Hs3 by done.
  assert (bufSize b1 = bufSize b + 6) as Hs1 by done.
  pose proof (proj1 Hg2). pose proof (proj1 Hg3).
  split; [apply patch_grows; [by etrans|lia]|]. intros C ms Ha Hpre.
  cbn [bufSize patch bMatchers] in *. rewrite Hm4 in Hpre.
  eapply comp_look with (e := bufSize b2).
  - eapply patch_at; [exact Ha|lia].
  - rewrite <- Hs1. apply HP2; [|done].
    assert (agrees C (bufSize b1) (bufSize b3) b3) as Ha3; [|done].
    eapply agrees_before; [|exact Hg4|lia|]; [|apply Z.le_refl].
    eapply patch_agrees; [exact Ha|lia|lia|lia].
  - rewrite <- Hs3. apply HP4. eapply patch_agrees; [exact Ha|lia|lia|lia].
  - lia.
Qed.

(** ** Sets of strings *)

Lemma radixIndex_spec radix b ri b1 :
  (if RadixTree.empty radix then mret None : M (option Z)
   else match RadixPacked.serialize radix with
        | Some (true, buf) =>
            index ← emitMatcher (ofRadix buf (u16 (RadixTree.maxCodePointCount radix))); mret (Some index)
        | _ => err
        end) b = Some (ri, b1) ->
  grows b b1 /\ bufSize b1 = bufSize b /\
  match ri with Some _ => true | None => false end = negb (RadixTree.empty radix) /\
  forall ms, bMatchers b1 `prefix_of` ms -> radixAt ms radix (default 0 ri).
Proof.
  intros E. unfold radixAt. destruct (RadixTree.empty radix).
  - unfold mret, M_ret in E. simplify_eq. by split_and!.
  - destruct (RadixPacked.serialize radix) as [[[] buf]|]; [|done|done].
    apply bind_inv in E as (index & b2 & E2 & E). unfold mret, M_ret in E. simplify_eq.
    apply emitMatcher_spec in E2 as (Hg & Hs & _ & Hm). split_and!; [done|done|done|]. intros ms Hp. eauto.
Qed.

Lemma good_strSet lb emoji radix chars ic :
  (forall c, chars = Some c -> good lb c) -> good lb (StrSetNode emoji radix chars ic).
Proof.
  intros Hc b u b' H Hf. cbn [generate] in H. unfold generateStrSet in H.
  apply bind_inv in H as (ri & b1 & H1 & H). apply radixIndex_spec in H1 as (Hg1 & Hs1 & Hri & Hm).
  pose proof (facing_grows _ _ _ Hf Hg1) as Hf1.
  apply bind_inv in H as (d & b2 & H2 & H). rewrite (inLookBehind_spec lb) in H2 by done. injection H2 as <- <-.
  apply bind_inv in H as ([] & b2 & H2 & H). apply emit_spec in H2 as (Hg2 & Hs2 & Hm2 & HP2).
  replace (sizeOfInst _) with 1 in Hs2 by (by destruct lb).
  rewrite bindReserve in H. change (sizeOfInst _) with 6 in H. rewrite bindAddr in H.
  set (b3 := reserve b2 6) in *. assert (grows b2 b3) as Hg3 by (by apply reserve_grows).
  assert (bufSize b3 = bufSize b2 + 6) as Hs3 by done.
  pose proof (facing_grows _ _ _ (facing_grows _ _ _ Hf1 Hg2) Hg3) as Hf3.
  apply bind_inv in H as ([] & b4 & H4 & H). rewrite bindAddr in H. cbv zeta in H. rewrite Hri in H.
  destruct (UINT8_MAX <? _); [done|]. apply emitAt_inv in H.
  assert (b' = patch b4 (bufSize b2) (radixIns lb emoji ic (negb (RadixTree.empty radix)) (default 0 ri)
    (bufSize b4 - (bufSize b + 7)))) as ->.
  { rewrite H. f_equal. unfold radixIns. replace (bufSize b4 - bufSize b3) with (bufSize b4 - (bufSize b + 7)) by lia.
    by destruct lb. }
  clear H. assert (grows b b2) as Hg02 by (by etrans). pose proof (proj1 Hg02).
  assert (lays lb (match chars with Some c => generate c | None => mret tt : M unit end)
    (fun C ms a z => match chars with Some c => comp C ms lb c a z | None => z = a end)) as HL.
  { destruct chars as [c|]; [by apply Hc|]. intros b0 u0 b0' E _. unfold mret, M_ret in E. by simplify_eq. }
  destruct (HL b3 tt b4) as [Hg4 HP4]; [by destruct chars|done|].
  assert (grows b b4) as Hg by (etrans; [exact Hg02|by etrans]). pose proof (proj1 Hg4).
  split; [apply patch_grows; [done|lia]|]. intros C ms Ha Hp. cbn [bufSize patch bMatchers] in *.
  assert (strSetAt C ms lb emoji radix ic (bufSize b) (bufSize b4)) as Hat.
  { split.
    - rewrite <- Hs1. apply HP2. eapply agrees_before; [|exact (transitivity Hg3 Hg4)|lia|apply Z.le_refl].
      eapply patch_agrees; [exact Ha|lia|lia|lia].
    - exists (default 0 ri). split.
      + apply Hm. rewrite <- Hm2. etrans; [apply (transitivity Hg3 Hg4)|done].
      + replace (bufSize b + 1) with (bufSize b2) by lia. eapply patch_at; [exact Ha|lia]. }
  assert (agrees C (bufSize b3) (bufSize b4) b4) as Ha4 by (eapply patch_agrees; [exact Ha|lia|lia|lia]).
  specialize (HP4 C ms Ha4 Hp). replace (bufSize b3) with (bufSize b + 7) in HP4 by lia. destruct chars as [c|].
  - by apply comp_strChars.
  - rewrite HP4 in Hat |- *. by apply comp_strs.
Qed.

(** ** Sequences *)

(** A child with its generator. *)
Definition item (n : Node) : Node * M unit := (n, generate n).

Fixpoint dropChars (l : list Node) : list Node :=
  match l with
  | CharNode _ :: rest => dropChars rest
  | _ => l
  end.

Lemma seqItems_true lb l :
  seqItems lb true (map item l) = seqItems lb false (map item (dropChars l)).
Proof. induction l as [|n l IH]; [done|]. by destruct n. Qed.

Lemma charRun_split l : l = map CharNode (charRun (map item l)) ++ dropChars l.
Proof. induction l as [|n l IH]; [done|]. destruct n; try done. cbn. by f_equal. Qed.

Lemma dropChars_length l : (length (dropChars l) <= length l)%nat.
Proof. induction l as [|n l IH]; [done|]. destruct n; cbn [dropChars length]; lia. Qed.

Lemma dropChars_Forall (P : Node -> Prop) l : Forall P l -> Forall P (dropChars l).
Proof. induction 1 as [|n l Hn Hl IH]; [constructor|]. destruct n; try done; by constructor. Qed.

(** The instruction that matches a run of characters. *)
Lemma lays_string lb s :
  lays lb (index ← emitMatcher (ofBytes s); emit (if lb then LBStringIns index else StringIns index))
    (fun C ms a z => exists index, matcherAt ms index = Some (ofBytes s) /\
       C !! a = Some (if lb then LBStringIns index else StringIns index) /\ z = a + 3).
Proof.
  intros b u b' H Hf. apply bind_inv in H as (index & b1 & H1 & H).
  apply emitMatcher_spec in H1 as (Hg1 & Hs1 & _ & Hm).
  apply emit_spec in H as (Hg & Hs & Hms & HC). split; [by etrans|].
  intros C ms Ha Hp. exists index. rewrite <- Hs1 in *. split_and!.
  - apply Hm. by rewrite Hms in Hp.
  - by apply HC.
  - rewrite Hs. by destruct lb.
Qed.

Lemma lays_seq lb : forall k l, (length l <= k)%nat -> Forall (fun n => good lb n) l ->
  lays lb (seqItems lb false (map item l)) (fun C ms a z => compSeq C ms lb l a z).
Proof.
  induction k as [|k IH]; intros l Hl Hgood.
  { destruct l; [|simpl in Hl; lia]. intros b u b' H _. cbn in H. unfold mret, M_ret in H.
    simplify_eq. split; [done|]. intros. constructor. }
  destruct Hgood as [|n rest Hn Hrest].
  { intros b u b' H _. cbn in H. unfold mret, M_ret in H.
    simplify_eq. split; [done|]. intros. constructor. }
  cbn [map]. change (item n :: map item rest) with (map item (n :: rest)).
  cbn [map item seqItems]. cbn [andb]. simpl in Hl.
  destruct (isCharNode n && headIsChar (map item rest)) eqn:Hrun.
  - apply andb_true_iff in Hrun as [Hc Hh].
    pose proof (charRun_split (n :: rest)) as Hsplit.
    change ((n, generate n) :: map item rest) with (map item (n :: rest)).
    rewrite seqItems_true.
    eapply lays_weaken.
    { apply lays_bind; [apply lays_string|].
      apply (IH (dropChars rest)); [pose proof (dropChars_length rest); lia|by apply dropChars_Forall]. }
    intros C ms a z (e & _ & (index & Hm & Hi & ->) & Hs). rewrite Hsplit.
    destruct n; try done. eapply cs_run; [|exact Hi|exact Hm|exact Hs].
    destruct rest as [|n' rest]; [done|]. destruct n'; try done. cbn. lia.
  - eapply lays_weaken; [apply lays_bind; [apply Hn|apply IH; [lia|done]]|].
    intros C ms a z (e & _ & Hc & Hs). by eapply cs_cons.
Qed.

Lemma good_seq lb l : Forall (fun n => good lb n) l -> good lb (SeqNode l).
Proof.
  intros Hl. cbn [generate]. unfold generateSeq. apply lays_ask.
  change (map (fun x => (x, generate x)) l) with (map item l). rewrite <- map_rev.
  destruct lb.
  - eapply lays_weaken; [apply (lays_seq true (length (rev l))); [lia|by apply Forall_rev]|].
    intros. by apply comp_seq.
  - eapply lays_weaken; [by apply (lays_seq false (length l))|]. intros. by apply comp_seq.
Qed.

(** ** Alternatives *)

(** The final code agrees with the buffer but at the jumps. *)
Definition agreesBut (C : code) (a z : Z) (jumps : list Z) (b : Builder) : Prop :=
  forall x, a <= x < z -> x ∉ jumps -> C !! x = buf b !! x.

Lemma emitJumps_spec jumps z : forall b u b',
  emitJumps jumps z b = Some (u, b') ->
  bufSize b' = bufSize b /\ directions b' = directions b /\ bMatchers b' = bMatchers b /\
  (forall x, x ∉ jumps -> buf b' !! x = buf b !! x) /\
  (forall x, x ∈ jumps -> buf b' !! x = Some (JumpIns z)).
Proof.
  induction jumps as [|j jumps IH]; intros b u b' H; cbn [emitJumps] in H.
  { unfold mret, M_ret in H. simplify_eq. split_and!; try done. intros x Hx. by apply not_elem_of_nil in Hx. }
  apply bind_inv in H as ([] & b1 & H1 & H). apply emitAt_inv in H1 as ->.
  apply IH in H as (Hs & Hd & Hm & Ho & Hj). split_and!; try done.
  - intros x Hx. rewrite not_elem_of_cons in Hx. rewrite Ho by naive_solver. cbn.
    by rewrite lookup_insert_ne by naive_solver.
  - intros x Hx. destruct (decide (x ∈ jumps)) as [|Hn]; [by apply Hj|].
    apply elem_of_cons in Hx as [->|]; [|done]. rewrite Ho by done. cbn. by rewrite lookup_insert_eq.
Qed.

Definition altSpec (lb : bool) (l : list Node) : Prop :=
  forall b jumps b', altItems (map item l) b = Some (jumps, b') -> facing lb b ->
  grows b b' /\ Forall (fun j => bufSize b <= j < bufSize b') jumps /\
  forall C ms, agreesBut C (bufSize b) (bufSize b') jumps b' ->
    Forall (fun j => C !! j = Some (JumpIns (bufSize b'))) jumps ->
    bMatchers b' `prefix_of` ms -> compAlt C ms lb (bufSize b') l (bufSize b).

Lemma altSpec_one lb n : good lb n -> altSpec lb [n].
Proof.
  intros Hn b jumps b' H Hf. cbn [map item altItems] in H.
  apply bind_inv in H as ([] & b1 & H1 & H). unfold mret, M_ret in H. simplify_eq.
  destruct (Hn _ _ _ H1 Hf) as [Hg HP]. split_and!; [done|constructor|].
  intros C ms Ha _ Hp. constructor. apply HP; [|done]. intros x Hx. apply Ha; [done|].
  apply not_elem_of_nil.
Qed.

(** The first alternative, up to the patch of its [Alt]. *)
Lemma alt_head lb n b b1 b2 u p j :
  good lb n -> facing lb b -> generate n (reserve b 5) = Some (u, b1) ->
  0 <= j -> b2 = patch (reserve b1 j) (bufSize b) (AltIns p) ->
  grows b b2 /\ bufSize b2 = bufSize b1 + j /\ bufSize b + 5 <= bufSize b1 /\
  forall C ms, agrees C (bufSize b) (bufSize b1) b2 -> bMatchers b1 `prefix_of` ms ->
    C !! bufSize b = Some (AltIns p) /\ comp C ms lb n (bufSize b + 5) (bufSize b1).
Proof.
  intros Hn Hf H Hj ->. pose proof (reserve_grows b 5 ltac:(lia)) as Hg0.
  destruct (Hn _ _ _ H (facing_grows _ _ _ Hf Hg0)) as [Hg HP].
  pose proof (proj1 Hg) as Hle. cbn in Hle.
  assert (grows b (reserve b1 j)) as Hg1
    by (etrans; [exact Hg0|etrans; [exact Hg|by apply reserve_grows]]).
  split_and!; [by apply patch_grows|done|done|].
  intros C ms Ha Hp. split; [eapply patch_at; [exact Ha|lia]|].
  apply (HP C ms); [|done]. cbn.
  assert (agrees C (bufSize b + 5) (bufSize b1) (reserve b1 j)) as Ha'
    by (eapply patch_agrees; [exact Ha|lia|lia|lia]).
  done.
Qed.

Lemma altItems_cons n next more b :
  altItems (item n :: item next :: map item more) b =
  (point ← emitReservedPoint 5;
   generate n ;;
   jump ← (if negb (isEmptyNode next) || negb (length (map item more) =? 0)%nat
           then j ← emitReservedPoint 5; mret [j] else mret []);
   addr ← currentAddr;
   emitAt point (AltIns addr) ;;
   jumps ← altItems (map item (next :: more));
   mret (jump ++ jumps)) b.
Proof. done. Qed.

Lemma altSpec_cons lb n next more :
  good lb n -> good lb next -> altSpec lb (next :: more) -> altSpec lb (n :: next :: more).
Proof.
  intros Hn Hnext IH b jumps b' H Hf. cbn [map] in H. rewrite altItems_cons, bindReserve in H.
  apply bind_inv in H as ([] & b1 & H1 & H).
  destruct (negb (isEmptyNode next) || negb (length (map item more) =? 0)%nat) eqn:Hj.
  - apply bind_inv in H as (jump & b2 & H2 & H). rewrite bindReserve in H2.
    unfold mret, M_ret in H2. injection H2 as <- <-. rewrite bindAddr in H.
    apply bind_inv in H as ([] & b3 & H3 & H). apply emitAt_inv in H3.
    apply bind_inv in H as (jumps' & b4 & H4 & H). unfold mret, M_ret in H. injection H as <- <-.
    destruct (alt_head lb n b b1 b3 _ _ 5 Hn Hf H1 ltac:(lia) H3) as (Hg3 & Hs3 & Hl & HP).
    destruct (IH _ _ _ H4 (facing_grows _ _ _ Hf Hg3)) as (Hg4 & Hjs & HC).
    pose proof (proj1 Hg4) as Hle. rewrite Hs3 in *. rewrite Forall_forall in Hjs.
    split_and!; [by etrans| |].
    { constructor; [lia|]. apply Forall_forall. intros x Hx. specialize (Hjs x Hx). lia. }
    intros C ms Ha Hj' Hp. inversion_clear Hj' as [|? ? Hj1 Hj2].
    assert (bMatchers b1 `prefix_of` ms) as Hp1.
    { etrans; [|exact Hp]. destruct Hg4 as (_ & _ & Hm & _). by rewrite H3 in Hm. }
    destruct (HP C ms) as [HA HN]; [|done|].
    { intros x Hx. rewrite Ha; [apply Hg4; lia|lia|].
      rewrite not_elem_of_cons. split; [lia|]. intros Hx'. specialize (Hjs x Hx'). lia. }
    eapply ca_jump with (e := bufSize b1); [exact HA|exact HN|exact Hj1|].
    apply HC; [|done|done].
    intros x Hx Hn'. apply Ha; [lia|]. rewrite not_elem_of_cons. split; [lia|done].
  - apply orb_false_iff in Hj as [He Hm]. apply negb_false_iff in He, Hm.
    destruct next; try done. destruct more; [|done].
    apply bind_inv in H as (jump & b2 & H2 & H). unfold mret, M_ret in H2. injection H2 as <- <-.
    rewrite bindAddr in H.
    apply bind_inv in H as ([] & b3 & H3 & H). apply emitAt_inv in H3.
    apply bind_inv in H as (jumps' & b4 & H4 & H). unfold mret, M_ret in H. injection H as <- <-.
    assert (jumps' = [] /\ b4 = b3) as [-> ->].
    { cbn [map item altItems] in H4. apply bind_inv in H4 as ([] & b5 & H5 & H4).
      unfold mret, M_ret in H4. injection H4 as <- <-. split; [done|].
      cbn [generate] in H5. unfold generateLeaf in H5. apply bind_inv in H5 as (d & b6 & H6 & H5).
      unfold inLookBehind in H6. unfold mret, M_ret in H5. by simplify_eq. }
    assert (b3 = patch (reserve b1 0) (bufSize b) (AltIns (bufSize b1))) as H3'.
    { rewrite H3. unfold reserve, patch. cbn. by rewrite Z.add_0_r. }
    destruct (alt_head lb n b b1 b3 _ _ 0 Hn Hf H1 ltac:(lia) H3') as (Hg3 & Hs3 & Hl & HP).
    rewrite Z.add_0_r in Hs3. split_and!; [done|constructor|]. rewrite Hs3.
    intros C ms Ha _ Hp. destruct (HP C ms) as [HA HN].
    { intros x Hx. apply Ha; [done|apply not_elem_of_nil]. }
    { by rewrite H3 in Hp. }
    by apply ca_skip.
Qed.

Lemma altSpec_all lb l : l <> [] -> Forall (fun n => good lb n) l -> altSpec lb l.
Proof.
  intros Hne Hl. induction Hl as [|n l Hn Hl IH]; [done|].
  destruct l as [|next more]; [by apply altSpec_one|].
  inversion Hl as [|? ? Hnext _]; subst. apply altSpec_cons; [done|done|by apply IH].
Qed.

Lemma good_alt lb l : l <> [] -> Forall (fun n => good lb n) l -> good lb (AltNode l).
Proof.
  intros Hne Hl b u b' H Hf. cbn [generate] in H.
  change (map (fun x => (x, generate x)) l) with (map item l) in H.
  destruct l as [|n [|next more]]; [done| |].
  - cbn [map item generateAlt] in H. rewrite bindReserve in H. change (sizeOfInst _) with 5 in H.
    apply bind_inv in H as ([] & b1 & H1 & H). rewrite bindAddr in H. apply emitAt_inv in H.
    inversion_clear Hl as [|? ? Hn _].
    assert (b' = patch (reserve b1 0) (bufSize b) (AltIns (bufSize b1))) as H'.
    { rewrite H. unfold reserve, patch. cbn. by rewrite Z.add_0_r. }
    destruct (alt_head lb n b b1 b' _ _ 0 Hn Hf H1 ltac:(lia) H') as (Hg & Hs & _ & HP).
    rewrite Z.add_0_r in Hs. split; [done|]. rewrite Hs. intros C ms Ha Hp.
    destruct (HP C ms Ha) as [HA HN]; [by rewrite H in Hp|]. by apply comp_opt.
  - unfold generateAlt in H. cbn [map item] in H. change (?x :: ?y :: map item more) with (map item (n :: next :: more)) in H.
    apply bind_inv in H as (jumps & b1 & H1 & H). rewrite bindAddr in H.
    destruct (altSpec_all lb _ Hne Hl _ _ _ H1 Hf) as (Hg & Hjs & HP).
    destruct (emitJumps_spec _ _ _ _ _ H) as (Hs & Hd & Hm & Ho & Hj).
    rewrite Forall_forall in Hjs. rewrite Hs in *. pose proof (proj1 Hg).
    split.
    { destruct Hg as (K1 & K2 & K3 & K4). split_and!; [lia|congruence|by rewrite Hm|].
      intros x Hx. rewrite Ho; [by apply K4|]. intros Hx'. specialize (Hjs x Hx'). lia. }
    intros C ms Ha Hp. apply comp_alt; [cbn; lia|]. apply HP.
    + intros x Hx Hn. rewrite Ha by done. by apply Ho.
    + apply Forall_forall. intros x Hx. rewrite Ha by (by apply Hjs). by apply Hj.
    + by rewrite <- Hm.
Qed.

(** ** Every node *)

(** Non-capturing groups are gone and alternatives have a branch. *)
Fixpoint lowered (n : Node) : Prop :=
  match n with
  | RepeatNode _ p | LookAroundNode _ p => lowered p
  | SeqNode l => foldr (fun x r => lowered x /\ r) True l
  | AltNode l => l <> [] /\ foldr (fun x r => lowered x /\ r) True l
  | GroupNode t _ p => t = CAPTURE /\ lowered p
  | StrSetNode _ _ chars _ => match chars with Some c => lowered c | None => True end
  | _ => True
  end.

Lemma generate_lays n : lowered n -> forall lb, good lb n.
Proof.
  induction n as [|m|c|t m|nm i ic|q p IH|l IH|l IH|t p IH|t i p IH|c|s i ic|e r chars ic IH|] using Node_nested_ind;
    intros Hw lb; cbn [lowered] in Hw.
  - apply good_empty.
  - by eapply good_leaf.
  - by eapply good_leaf.
  - by eapply good_leaf.
  - by eapply good_leaf.
  - apply good_repeat. by apply IH.
  - apply good_seq. induction IH as [|n l Hn _ IH]; [constructor|]. destruct Hw as [Hw Hl].
    constructor; [by apply Hn|by apply IH].
  - destruct Hw as [Hne Hw]. apply good_alt; [done|]. clear Hne.
    induction IH as [|n l Hn _ IH]; [constructor|]. destruct Hw as [Hw Hl].
    constructor; [by apply Hn|by apply IH].
  - apply good_look. by apply IH.
  - destruct Hw as [-> Hw]. apply good_group. by apply IH.
  - by eapply good_leaf.
  - apply good_set.
  - apply good_strSet. intros c ->. by apply IH.
  - by eapply good_leaf.
Qed.

(** The whole program: the code of the pattern from 0, then [Match]. *)
Lemma codeGen_layout `{Ucd} tree re : lowered (pattern tree) -> codeGen tree = Some re ->
  exists z, comp (instSeq re) (matchers re) false (pattern tree) 0 z /\
    instSeq re !! z = Some MatchIns /\
    firstBitSet re = createFirstBitSet (instSeq re) (z + 1) (matchers re) /\
    regexLoopCount re = loopCount tree /\ regexCaptureGroupCount re = captureGroupCount tree /\
    named re = namedCaptureGroups tree.
Proof.
  intros Hw Hg. unfold codeGen in Hg.
  set (start := {| buf := ∅; bufSize := 0; bMatchers := []; directions := [true] |}) in *.
  destruct ((generate (pattern tree) ;; emit MatchIns) start) as [[u b]|] eqn:E; [|done].
  injection Hg as <-. cbn [instSeq matchers regexLoopCount regexCaptureGroupCount named firstBitSet].
  pose proof (lays_bind false _ _ _ _ (generate_lays _ Hw false) (lays_emit false MatchIns)) as HL.
  destruct (HL _ _ _ E) as [Hgr HP]; [done|].
  destruct (HP (buf b) (bMatchers b)) as (z & _ & Hc & Hm & Hz); [by intros x Hx|done|].
  exists z. split_and!; try done. by rewrite Hz.
Qed.

End RegexLayout.
