(* ===== verification/RegexVM.v ===== *)
(** The backtracking virtual machine (src/regex/vm.cpp, src/regex/match_context.h):
    the backtrack stack, one definition per group of instructions, the dispatch
    loop with its restarts, and the [match] entry point. *)
From S2P Require Import Prelude Unicode StringRef RadixTree RadixPacked RegexMatcher RegexNode RegexInput RegexInst Grapheme.

Module RegexVM.
Import UnicodeUtil RegexMatcher RegexNode RegexInput RegexInst.

Record LoopState := { count : Z; inputOffset : Z }.

Definition emptyLoop : LoopState := {| count := 0; inputOffset := 0 |}.

(** ** The backtrack stack *)

(** The union [Backtrack].  A pointer into the code or into the text is its offset. *)
Inductive Backtrack :=
| SetIns (target iter : Z)
| SetCapture (index : Z) (capture : Capture)
| SetLoopState (index : Z) (state : LoopState)
| NonGreedyLoop (index : Z) (state : LoopState)
| LookAround (negate matched : bool) (target iter : Z)
| RadixState (consumedSize : Z).

Definition INIT_CAP : Z := 6.

(** The loop of [computeMaxStackCap]; each round adds at least a third. *)
Fixpoint maxCapLoop (fuel : nat) (newCap cap : Z) : Z :=
  match fuel with
  | O => cap
  | S fuel' =>
      if newCap <=? MAX_STACK_DEPTH
      then maxCapLoop fuel' (newCap + Z.shiftr newCap 1) newCap else cap
  end.

Definition computeMaxStackCap : Z := maxCapLoop 64 INIT_CAP 0.

(** [ptr] and [size] as a list, top first. *)
Record BacktrackStack := { entries : list Backtrack; stackCap : Z }.

Definition emptyStack : BacktrackStack := {| entries := []; stackCap := INIT_CAP |}.

(** [None] when the stack has its maximal size. *)
Definition push (bts : BacktrackStack) (bt : Backtrack) : option BacktrackStack :=
  if zlen (entries bts) =? stackCap bts then
    if zlen (entries bts) =? computeMaxStackCap then None
    else Some {| entries := bt :: entries bts;
                 stackCap := stackCap bts + Z.shiftr (stackCap bts) 1 |}
  else Some {| entries := bt :: entries bts; stackCap := stackCap bts |}.

(** A [push] whose result is ignored. *)
Definition pushNeverFail (bts : BacktrackStack) (bt : Backtrack) : BacktrackStack :=
  match push bts bt with Some bts' => bts' | None => bts end.

(** ** The machine *)

Record VM := {
  inst : Z;
  input : Input;
  captures : list Capture;
  loopStates : list LoopState;
  bts : BacktrackStack
}.

Definition setInst (s : VM) (i : Z) : VM :=
  {| inst := i; input := input s; captures := captures s; loopStates := loopStates s; bts := bts s |}.
Definition setInput (s : VM) (i : Input) : VM :=
  {| inst := inst s; input := i; captures := captures s; loopStates := loopStates s; bts := bts s |}.
Definition setCaptures (s : VM) (c : list Capture) : VM :=
  {| inst := inst s; input := input s; captures := c; loopStates := loopStates s; bts := bts s |}.
Definition setLoops (s : VM) (l : list LoopState) : VM :=
  {| inst := inst s; input := input s; captures := captures s; loopStates := l; bts := bts s |}.
Definition setBts (s : VM) (b : BacktrackStack) : VM :=
  {| inst := inst s; input := input s; captures := captures s; loopStates := loopStates s; bts := b |}.
Definition advance (s : VM) (i : Inst) : VM := setInst s (inst s + sizeOfInst i).

(** What one instruction does: go on, jump to BACKTRACK, return, or an
    operation whose behaviour is undefined (an index past its array). *)
Inductive Outcome :=
| Next (s : VM)
| Back (s : VM)
| Return (status : MatchStatus) (s : VM)
| Stuck.

(** The TRY macro. *)
Definition tryPush (s : VM) (bt : Backtrack) (k : VM -> Outcome) : Outcome :=
  match push (bts s) bt with
  | Some b => k (setBts s b)
  | None => Return STACK_LIMIT s
  end.

(** An array access, undefined out of bounds. *)
Definition at_ {A} (l : list A) (i : Z) : option A := if i <? 0 then None else l !! Z.to_nat i.
Definition set_ {A} (l : list A) (i : Z) (x : A) : list A := <[Z.to_nat i := x]> l.
Definition with_ {A} (o : option A) (k : A -> Outcome) : Outcome :=
  match o with Some x => k x | None => Stuck end.

Definition orBack (c : bool) (s s' : VM) : Outcome := if c then Next s' else Back s.

(** *** Loops *)

(** [prepareLoopBody] after its push. *)
Definition enterBody (loop : LoopState) (i : Input) : LoopState :=
  {| count := u32 (count loop + 1); inputOffset := getOffset i |}.

Definition prepareLoopBody (s : VM) (loopIndex : Z) (loop : LoopState) (k : VM -> Outcome) : Outcome :=
  tryPush s (SetLoopState loopIndex loop) (fun s =>
    k (setLoops s (set_ (loopStates s) loopIndex (enterBody loop (input s))))).

Definition prepareGreedyLoop (s : VM) (loopIndex outer : Z) (loop : LoopState) (k : VM -> Outcome)
    : Outcome :=
  tryPush s (SetIns outer (iter (input s))) (fun s => prepareLoopBody s loopIndex loop k).

(** [beginInst] is the current instruction. *)
Definition prepareNonGreedyLoop (s : VM) (loopIndex : Z) (loop : LoopState) (k : VM -> Outcome)
    : Outcome :=
  tryPush s (SetIns (inst s) (iter (input s))) (fun s =>
    tryPush s (NonGreedyLoop loopIndex loop) k).

(** The label LOOP, with [inst] at a BeginLoop. *)
Definition execLoop (code : code) (s : VM) : Outcome :=
  match code !! inst s with
  | Some (BeginLoopIns loopIndex min max greedy outer) =>
      with_ (at_ (loopStates s) loopIndex) (fun loop =>
        if (inputOffset loop =? getOffset (input s)) && (min <? count loop) then Back s
        else if count loop <? min then
          prepareLoopBody s loopIndex loop (fun s => Next (setInst s (inst s + 14)))
        else if count loop =? max then Next (setInst s outer)
        else if greedy then
          prepareGreedyLoop s loopIndex outer loop (fun s => Next (setInst s (inst s + 14)))
        else
          prepareNonGreedyLoop s loopIndex loop (fun s => Next (setInst s outer)))
  | _ => Stuck
  end.

Definition execBeginLoop (code : code) (s : VM) (loopIndex : Z) : Outcome :=
  with_ (at_ (loopStates s) loopIndex) (fun loop =>
    tryPush s (SetLoopState loopIndex loop) (fun s =>
      execLoop code (setLoops s (set_ (loopStates s) loopIndex emptyLoop)))).

Definition execEndLoop (code : code) (s : VM) (target : Z) : Outcome :=
  execLoop code (setInst s target).

(** *** Look-around *)

(** The [negate] of the topmost look-around entry. *)
Fixpoint topNegate (l : list Backtrack) : bool :=
  match l with
  | [] => false
  | LookAround negate _ _ _ :: _ => negate
  | _ :: rest => topNegate rest
  end.

(** The loop that discards the entries above the look-around: the captures and
    the remaining entries. *)
Fixpoint discardTo (negate : bool) (l : list Backtrack) (caps : list Capture)
    : list Capture * list Backtrack :=
  match l with
  | [] => (caps, [])
  | LookAround _ _ _ _ :: _ => (caps, l)
  | SetCapture i c :: rest => discardTo negate rest (if negate then set_ caps i c else caps)
  | _ :: rest => discardTo negate rest caps
  end.

(** The machine after the pop, and the [matched] of the entry. *)
Definition cleanupLookAround (s : VM) : option (bool * VM) :=
  let l := entries (bts s) in
  let '(caps, l') := discardTo (topNegate l) l (captures s) in
  match l' with
  | LookAround _ matched _ p :: rest =>
      Some (matched, {| inst := inst s; input := setIter (input s) p; captures := caps;
                        loopStates := loopStates s;
                        bts := {| entries := rest; stackCap := stackCap (bts s) |} |})
  | _ => None
  end.

Definition execBeginLookAround (s : VM) (i : Inst) (target : Z) (negate : bool) : Outcome :=
  tryPush s (LookAround negate (negb negate) target (iter (input s))) (fun s => Next (advance s i)).

Definition execEndLookAround (s : VM) : Outcome :=
  match cleanupLookAround s with
  | Some (true, s') => Next (advance s' EndLookAroundIns)
  | Some (false, s') => Back s'
  | None => Stuck
  end.

(** *** Backtracking *)

Inductive Resume :=
| Resumed (s : VM)
| Exhausted (s : VM)
| BadStack.

(** [BacktrackStack::backtrack]: pops until an entry resumes the machine. *)
Fixpoint backtrackLoop (l : list Backtrack) (s : VM) : Resume :=
  match l with
  | [] => Exhausted (setBts s {| entries := []; stackCap := stackCap (bts s) |})
  | bt :: rest =>
      let popped := {| entries := rest; stackCap := stackCap (bts s) |} in
      match bt with
      | SetIns target p =>
          Resumed (setBts (setInput (setInst s target) (setIter (input s) p)) popped)
      | SetCapture i c => backtrackLoop rest (setCaptures s (set_ (captures s) i c))
      | SetLoopState i st => backtrackLoop rest (setLoops s (set_ (loopStates s) i st))
      | NonGreedyLoop i st =>
          match rest with
          | SetIns target p :: rest' =>
              let input' := setIter (input s) p in
              Resumed {|
                inst := target + 14;
                input := input';
                captures := captures s;
                loopStates := set_ (loopStates s) i (enterBody st input');
                bts := pushNeverFail {| entries := rest'; stackCap := stackCap (bts s) |}
                         (SetLoopState i st)
              |}
          | _ => BadStack
          end
      | LookAround negate _ target p =>
          Resumed (setBts (setInst s target)
                     (pushNeverFail popped (LookAround negate negate target p)))
      | RadixState _ => backtrackLoop rest s
      end
  end.

Definition backtrack (s : VM) : Resume := backtrackLoop (entries (bts s)) s.

(** *** Assertions *)

Definition execStart (s : VM) (i : Inst) (multiline : bool) : Outcome :=
  orBack (isBegin (input s) || (multiline && isLineTerminator (prev (input s)))) s (advance s i).

Definition execEnd (s : VM) (i : Inst) (multiline : bool) : Outcome :=
  orBack (isEnd (input s) || (multiline && isLineTerminator (cur (input s)))) s (advance s i).

Definition execWord (isW : Z -> bool) (s : VM) (i : Inst) (invert : bool) : Outcome :=
  let prevIsWord := negb (isBegin (input s)) && isW (prev (input s)) in
  let curIsWord := negb (isEnd (input s)) && isW (cur (input s)) in
  orBack (if invert then Bool.eqb prevIsWord curIsWord else negb (Bool.eqb prevIsWord curIsWord))
    s (advance s i).

(** *** One code point *)

(** The forward and the backward forms: test the code point that is read. *)
Definition execForward (s : VM) (i : Inst) (test : Z -> bool) : Outcome :=
  if available (input s) then
    let '(c, input') := consumeForward (input s) in
    let s' := setInput s input' in
    orBack (test c) s' (advance s' i)
  else Back s.

Definition execBackward (s : VM) (i : Inst) (test : Z -> bool) : Outcome :=
  if availableBackward (input s) then
    let '(c, input') := consumeBackward (input s) in
    let s' := setInput s input' in
    orBack (test c) s' (advance s' i)
  else Back s.

(** *** Strings, captures and back references *)

Definition execExpect (s : VM) (i : Inst) (r : option Input) : Outcome :=
  match r with
  | Some input' => Next (advance (setInput s input') i)
  | None => Back s
  end.

(** The size of the first cluster of what remains: the consumer keeps the last size. *)
Definition clusterBytes (ref : bytes) : option Z :=
  snd <$> Grapheme.iterateGraphemeUntil (fun _ g => (zlen (Grapheme.ref g), true)) ref 1 true 0.

Definition execGrapheme (s : VM) (i : Inst) : Outcome :=
  if available (input s) then
    with_ (clusterBytes (remainForward (input s))) (fun byteSize =>
      Next (advance (setInput s (setIter (input s) (iter (input s) + byteSize))) i))
  else Back s.

Definition execBeginCapture (s : VM) (i : Inst) (index : Z) : Outcome :=
  with_ (at_ (captures s) index) (fun _ =>
    let s := setCaptures s (set_ (captures s) index
               {| cap_offset := getOffset (input s); cap_size := 0 |}) in
    tryPush s (SetCapture index unsetCapture) (fun s => Next (advance s i))).

Definition execEndCapture (s : VM) (i : Inst) (index : Z) : Outcome :=
  with_ (at_ (captures s) index) (fun c =>
    Next (advance (setCaptures s (set_ (captures s) index
      {| cap_offset := cap_offset c;
         cap_size := u32 (getOffset (input s) - cap_offset c) |})) i)).

Definition execLBEndCapture (s : VM) (i : Inst) (index : Z) : Outcome :=
  with_ (at_ (captures s) index) (fun c =>
    let actualEndOffset := endOffset c in
    Next (advance (setCaptures s (set_ (captures s) index
      {| cap_offset := getOffset (input s);
         cap_size := u32 (actualEndOffset - getOffset (input s)) |})) i)).

(** Counts [n] groups from [index]. *)
Fixpoint resetCaptures (n : nat) (index : Z) (s : VM) (k : VM -> Outcome) : Outcome :=
  match n with
  | O => k s
  | S n' =>
      with_ (at_ (captures s) index) (fun c =>
        tryPush s (SetCapture index c) (fun s =>
          resetCaptures n' (index + 1) (setCaptures s (set_ (captures s) index unsetCapture)) k))
  end.

Definition execResetCaptures (s : VM) (i : Inst) (firstIndex lastIndex : Z) : Outcome :=
  resetCaptures (Z.to_nat (lastIndex - firstIndex + 1)) firstIndex s (fun s => Next (advance s i)).

Definition resolveBackRef (groups : NamedCaptureGroups) (caps : list Capture)
    (refIndex : Z) (named : bool) : option Capture :=
  if named then
    match findByIndex groups refIndex with
    | Some e => findValidNamedCapture e caps
    | None => None
    end
  else captureAt caps refIndex.

Definition captureText (i : Input) (c : Capture) : bytes :=
  take (Z.to_nat (cap_size c)) (drop (Z.to_nat (cap_offset c)) (text i)).

Section unicode.
Context `{Ucd}.

(** The loops of the case-insensitive references.  [iter] and [end_] bound the
    part of the capture that is left; each round reads at least a byte. *)
Fixpoint foldForward (fuel : nat) (iter end_ : Z) (i : Input) : option Input * Input :=
  match fuel with
  | O => (None, i)
  | S fuel' =>
      if iter =? end_ then (Some i, i)
      else if available i then
        let '(c, iter') := unsafeNextUtf8 (text i) iter in
        let '(d, i') := consumeForward i in
        if doSimpleCaseFolding c =? doSimpleCaseFolding d
        then foldForward fuel' iter' end_ i' else (None, i')
      else (None, i)
  end.

Fixpoint foldBackward (fuel : nat) (begin iter : Z) (i : Input) : option Input * Input :=
  match fuel with
  | O => (None, i)
  | S fuel' =>
      if iter =? begin then (Some i, i)
      else if availableBackward i then
        let '(c, iter') := unsafePrevUtf8 (text i) iter in
        let '(d, i') := consumeBackward i in
        if doSimpleCaseFolding c =? doSimpleCaseFolding d
        then foldBackward fuel' begin iter' i' else (None, i')
      else (None, i)
  end.

Definition execFold (s : VM) (i : Inst) (r : option Input * Input) : Outcome :=
  match r with
  | (Some input', _) => Next (advance (setInput s input') i)
  | (None, input') => Back (setInput s input')
  end.

Definition execBackRef (groups : NamedCaptureGroups) (s : VM) (i : Inst) (refIndex : Z)
    (named : bool) : Outcome :=
  with_ (resolveBackRef groups (captures s) refIndex named) (fun c =>
    if isUnset c then Next (advance s i)
    else execExpect s i (expectForward (input s) (captureText (input s) c))).

Definition execIBackRef (groups : NamedCaptureGroups) (s : VM) (i : Inst) (refIndex : Z)
    (named : bool) : Outcome :=
  with_ (resolveBackRef groups (captures s) refIndex named) (fun c =>
    if isUnset c then Next (advance s i)
    else execFold s i (foldForward (S (Z.to_nat (cap_size c))) (cap_offset c)
                         (cap_offset c + cap_size c) (input s))).

Definition execLBBackRef (groups : NamedCaptureGroups) (s : VM) (i : Inst) (refIndex : Z)
    (named ignoreCase : bool) : Outcome :=
  with_ (resolveBackRef groups (captures s) refIndex named) (fun c =>
    if isUnset c then Next (advance s i)
    else if ignoreCase
    then execFold s i (foldBackward (S (Z.to_nat (cap_size c))) (cap_offset c)
                         (cap_offset c + cap_size c) (input s))
    else execExpect s i (expectBackward (input s) (captureText (input s) c))).

(** *** Sets of strings

    The buffer for folded text is cleared before each use. *)

Fixpoint foldText (fuel : nat) (ref : bytes) (iter : Z) : option bytes :=
  match fuel with
  | O => None
  | S fuel' =>
      if iter =? zlen ref then Some []
      else
        let '(codePoint, iter) := unsafeNextUtf8 ref iter in
        let data := codePointToUtf8 (doSimpleCaseFolding codePoint) in
        if RadixTree.isNil data then None
        else r ← foldText fuel' ref iter; Some (data ++ r)
  end.

(** The original size of a folded prefix: both strings are read in step. *)
Fixpoint remapLoop (fuel : nat) (ref : bytes) (begin : Z) (old : bytes) (oldBegin : Z) : Z :=
  match fuel with
  | O => oldBegin
  | S fuel' =>
      if negb (begin =? zlen ref) && negb (oldBegin =? zlen old)
      then remapLoop fuel' ref (unsafeNextUtf8Noreturn ref begin) old (unsafeNextUtf8Noreturn old oldBegin)
      else oldBegin
  end.

(** [s] after "remap to original byte size". *)
Definition remap (caseFold : bool) (ref old : bytes) (s p : Z) : Z :=
  if caseFold && negb (p =? 0)
  then u16 (remapLoop (length old) (take (Z.to_nat s) ref) 0 old 0) else s.

Definition findLongestMatched (tree : RadixPacked.PackedRadixTree) (ref : bytes) (caseFold : bool) : option (Z * Z) :=
  let old := ref in
  ref ← (if caseFold then foldText (S (length ref)) ref 0 else Some ref);
  '(s, p) ← RadixPacked.findLongestMatched tree ref;
  Some (remap caseFold ref old s p, p).

Fixpoint backwardLoop (fuel : nat) (tree : RadixPacked.PackedRadixTree) (caseFold : bool) (ref old : bytes) : option (Z * Z) :=
  match fuel with
  | O => None
  | S fuel' =>
      if RadixTree.isNil ref then Some (0, 0)
      else
        '(s, p) ← RadixPacked.findLongestMatched tree ref;
        let s := remap caseFold ref old s p in
        if s =? zlen old then Some (s, p)
        else
          let ref := unsafeRemovePrefixUtf8 ref in
          backwardLoop fuel' tree caseFold ref (if caseFold then unsafeRemovePrefixUtf8 old else ref)
  end.

Definition findBackwardLongestMatched (tree : RadixPacked.PackedRadixTree) (ref : bytes) (caseFold : bool)
    : option (Z * Z) :=
  let old := ref in
  ref ← (if caseFold then foldText (S (length ref)) ref 0 else Some ref);
  backwardLoop (S (length ref)) tree caseFold ref old.

Definition radixState (s : VM) : option Z :=
  match entries (bts s) with RadixState n :: _ => Some n | _ => None end.
Definition updateRadixState (s : VM) (newSize : Z) : VM :=
  setBts s {| entries := RadixState newSize :: tail (entries (bts s)); stackCap := stackCap (bts s) |}.

(** The greatest number of code points of a string of the set. *)
Definition codePointCount (ms : list Matcher) (emoji : Z) (hasRadix : bool) (index : Z) : option Z :=
  let count := if hasEmoji emoji then RadixPacked.getMaxCodePointCount getEmojiTrie else 0 in
  if hasRadix then
    m ← matcherAt ms index;
    Some (Z.max count (RadixPacked.getMaxCodePointCount (asRadixTree m)))
  else Some count.

Definition consumedSize (lb : bool) (ms : list Matcher) (emoji : Z) (hasRadix : bool) (index : Z) (ref : bytes)
    : option Z :=
  let find tree :=
    (if lb then findBackwardLongestMatched else findLongestMatched) tree ref (hasFlag emoji CASE_IGNORE) in
  size ← (if hasEmoji emoji then
            '(s, p) ← find getEmojiTrie;
            Some (if negb (p =? 0) && hasFlag emoji p then s else 0)
          else Some 0);
  if hasRadix then
    m ← matcherAt ms index;
    '(s, p) ← find (asRadixTree m);
    Some (if negb (p =? 0) then Z.max size s else size)
  else Some size.

(** The labels RADIX_OR_EMOJI and LBRADIX_OR_EMOJI: the longest string within the bytes of
    the radix state; a shorter one is tried when the machine backtracks, and the code points
    of the set when there is none. *)
Definition radixOrEmoji (lb : bool) (ms : list Matcher) (s : VM) (emoji : Z) (hasRadix : bool) (index nextOffset : Z)
    : Outcome :=
  with_ (radixState s) (fun strSize =>
    if negb (strSize =? 0) && (if lb then availableBackward (input s) else available (input s)) then
      let ref := (if lb then bytesBackward else bytesForward) (input s) strSize in
      with_ (consumedSize lb ms emoji hasRadix index ref) (fun size =>
        if negb (size =? 0) then
          let s := updateRadixState s size in
          tryPush s (SetIns (inst s) (iter (input s))) (fun s =>
            let p := if lb then iter (input s) - size else iter (input s) + size in
            Next (setInst (setInput s (setIter (input s) p)) (inst s + 6 + nextOffset)))
        else if negb (nextOffset =? 0) then Next (setInst s (inst s + 6))
        else Back s)
    else Back s).

Definition prepareRadix (lb : bool) (ms : list Matcher) (s : VM) (emoji : Z) (hasRadix : bool) (index nextOffset : Z)
    : Outcome :=
  let s := setInst s (inst s + 1) in
  with_ (codePointCount ms emoji hasRadix index) (fun count =>
    let size := u32 (zlen ((if lb then remainBackwardOfCodePoints else remainForwardOfCodePoints) (input s) count)) in
    tryPush s (RadixState size) (fun s => radixOrEmoji lb ms s emoji hasRadix index nextOffset)).

Definition execPrepareRadix (re : Regex) (s : VM) : Outcome :=
  match instSeq re !! (inst s + 1) with
  | Some (RadixOrEmojiIns emoji hasRadix index nextOffset) =>
      prepareRadix false (matchers re) s emoji hasRadix index nextOffset
  | _ => Stuck
  end.

Definition execPrepareLBRadix (re : Regex) (s : VM) : Outcome :=
  match instSeq re !! (inst s + 1) with
  | Some (LBRadixOrEmojiIns emoji hasRadix index nextOffset) =>
      prepareRadix true (matchers re) s emoji hasRadix index nextOffset
  | _ => Stuck
  end.

(** Back from a string that was tried: one code point less. *)
Definition execRadixOrEmoji (re : Regex) (s : VM) (emoji : Z) (hasRadix : bool) (index nextOffset : Z) : Outcome :=
  with_ (radixState s) (fun size =>
    let ref := unsafeRemoveSuffixUtf8 (bytesForward (input s) size) in
    radixOrEmoji false (matchers re) (updateRadixState s (zlen ref)) emoji hasRadix index nextOffset).

Definition execLBRadixOrEmoji (re : Regex) (s : VM) (emoji : Z) (hasRadix : bool) (index nextOffset : Z) : Outcome :=
  with_ (radixState s) (fun size =>
    let ref := unsafeRemovePrefixUtf8 (bytesBackward (input s) size) in
    radixOrEmoji true (matchers re) (updateRadixState s (zlen ref)) emoji hasRadix index nextOffset).

(** ** Dispatch *)

Definition fold_ (ignoreCase : bool) (c : Z) : Z :=
  if ignoreCase then doSimpleCaseFolding c else c.

Definition execInst (re : Regex) (oldIter : Z) (s : VM) (i : Inst) : Outcome :=
  match i with
  | NopIns => Next (advance s i)
  | MatchIns =>
      with_ (at_ (captures s) 0) (fun _ =>
        Return OK (setCaptures s (set_ (captures s) 0
          {| cap_offset := u32 oldIter; cap_size := u32 (iter (input s) - oldIter) |})))
  | JumpIns target => Next (setInst s target)
  | AltIns second =>
      tryPush s (SetIns second (iter (input s))) (fun s => Next (advance s i))
  | StartIns multiline => execStart s i multiline
  | EndIns multiline => execEnd s i multiline
  | WordIns invert => execWord isWord s i invert
  | IWordIns invert => execWord isExtendWord s i invert
  | AnyIns => execForward s i (fun _ => true)
  | AnyExceptNLIns => execForward s i (fun c => negb (isLineTerminator c))
  | GraphemeIns => execGrapheme s i
  | LBAnyIns dotAll => execBackward s i (fun c => dotAll || negb (isLineTerminator c))
  | CharIns codePoint => execForward s i (fun c => c =? codePoint)
  | ICharIns codePoint => execForward s i (fun c => doSimpleCaseFolding c =? codePoint)
  | LBCharIns codePoint ignoreCase => execBackward s i (fun c => fold_ ignoreCase c =? codePoint)
  | CharSetIns index invert =>
      with_ (matcherAt (matchers re) index) (fun m =>
        execForward s i (fun c => negb (Bool.eqb (matcherContains m c) invert)))
  | ICharSetIns index invert =>
      with_ (matcherAt (matchers re) index) (fun m =>
        execForward s i (fun c =>
          negb (Bool.eqb (matcherContains m (doSimpleCaseFolding c)) invert)))
  | LBCharSetIns index invert ignoreCase =>
      with_ (matcherAt (matchers re) index) (fun m =>
        execBackward s i (fun c =>
          negb (Bool.eqb (matcherContains m (fold_ ignoreCase c)) invert)))
  | PrepareRadixIns => execPrepareRadix re s
  | RadixOrEmojiIns emoji hasRadix index nextOffset => execRadixOrEmoji re s emoji hasRadix index nextOffset
  | PrepareLBRadixIns => execPrepareLBRadix re s
  | LBRadixOrEmojiIns emoji hasRadix index nextOffset => execLBRadixOrEmoji re s emoji hasRadix index nextOffset
  | StringIns index =>
      with_ (matcherAt (matchers re) index) (fun m =>
        execExpect s i (expectForward (input s) (asStrRef m)))
  | LBStringIns index =>
      with_ (matcherAt (matchers re) index) (fun m =>
        execExpect s i (expectBackward (input s) (asStrRef m)))
  | BeginCaptureIns index => execBeginCapture s i index
  | EndCaptureIns index => execEndCapture s i index
  | LBEndCaptureIns index => execLBEndCapture s i index
  | ResetCapturesIns firstIndex lastIndex => execResetCaptures s i firstIndex lastIndex
  | BackRefIns refIndex isNamed => execBackRef (named re) s i refIndex isNamed
  | IBackRefIns refIndex isNamed => execIBackRef (named re) s i refIndex isNamed
  | LBBackRefIns refIndex isNamed ignoreCase =>
      execLBBackRef (named re) s i refIndex isNamed ignoreCase
  | BeginLoopIns loopIndex _ _ _ _ => execBeginLoop (instSeq re) s loopIndex
  | EndLoopIns target => execEndLoop (instSeq re) s target
  | BeginLookAroundIns target negate => execBeginLookAround s i target negate
  | EndLookAroundIns => execEndLookAround s
  end.
End unicode.

(** ** The prefix search *)

(** The scan for a byte of the first set, up to the end of the text. *)
Fixpoint scanFirst (firstSet : Z) (rest : bytes) (iter : Z) : bool * Z :=
  match rest with
  | [] => (false, iter)
  | b :: rest' =>
      if Z.testbit firstSet b then (true, iter) else scanFirst firstSet rest' (iter + 1)
  end.

(** The result, the machine and [oldIter]; [None] past the matchers. *)
Definition searchPrefix (re : Regex) (s : VM) (oldIter : Z) : option (bool * VM * Z) :=
  let searchNeedle (i : Inst) (needle : bytes) :=
    let retPos := StringRef.find (remainForward (input s)) needle 0 in
    let s' := advance s i in
    if retPos =? StringRef.npos then (false, s', zlen (text (input s)))
    else let oldIter := iter (input s) + retPos in
         (true, setInput s' (setIter (input s) (oldIter + zlen needle)), oldIter) in
  match instSeq re !! inst s with
  | Some (CharIns c as i) => Some (searchNeedle i (codePointToUtf8 c))
  | Some (StringIns index as i) =>
      match matcherAt (matchers re) index with
      | Some m => Some (searchNeedle i (asStrRef m))
      | None => None
      end
  | _ =>
      if negb (firstBitSet re =? 0) then
        let '(matched, p) := scanFirst (firstBitSet re) (remainForward (input s)) (iter (input s)) in
        Some (matched, setInput s (setIter (input s) p), p)
      else Some (true, s, oldIter)
  end.

(** ** MatchContext *)

Record MatchContext := {
  ctxInput : Input;
  ctxGroupCount : Z;
  prefilter : bool;
  ctxCaptures : list Capture;
  ctxLoops : list LoopState
}.

Definition setPrefilter (ctx : MatchContext) (set : bool) : MatchContext :=
  {| ctxInput := ctxInput ctx; ctxGroupCount := ctxGroupCount ctx; prefilter := set;
     ctxCaptures := ctxCaptures ctx; ctxLoops := ctxLoops ctx |}.

Definition tryToCreateMatchContext (re : Regex) (t : bytes) (codePointOffset : Z)
    (caps : list Capture) : MatchStatus + MatchContext :=
  match create t codePointOffset with
  | inl TOO_LARGE => inl INPUT_LIMIT
  | inl RegexInput.INVALID_UTF8 => inl INVALID_UTF8
  | inr i => inr {| ctxInput := i; ctxGroupCount := regexCaptureGroupCount re;
                    prefilter := true; ctxCaptures := caps;
                    ctxLoops := replicate (Z.to_nat (regexLoopCount re)) emptyLoop |}
  end.

(** [resetState]: the captures and the loop states all unset. *)
Definition resetCaps (groupCount : Z) : list Capture :=
  replicate (Z.to_nat (groupCount + 1)) unsetCapture.
Definition resetLoops (loops : list LoopState) : list LoopState :=
  replicate (length loops) emptyLoop.

(** ** match *)

(** The local variables besides the machine, and the number of timer checks. *)
Record Search := { oldIter : Z; btCount : Z; checks : nat }.

Inductive Result :=
| Finished (status : MatchStatus) (s : VM)
| Undefined
| OutOfFuel.

Section match_.
Context `{Ucd}.
(** [timer->check()] as a function of the number of earlier checks. *)
Context (timer : option (nat -> TimerStatus)).
Context (re : Regex) (isPrefilter : bool).

(** Where the loop is: at a dispatch, at BACKTRACK, or after the [while]. *)
Inductive Label := START_ | DISPATCH | BACKTRACK | RESTART.

Definition timerStatus (n : nat) : TimerStatus :=
  match timer with Some check => check n | None => NoneStatus end.

(** [++btCount] and the timer after a successful backtrack. *)
Definition countBacktrack (m : Search) : MatchStatus + Search :=
  let n := btCount m + 1 in
  if n =? TIMER_CHECK_INTERVAL then
    match timerStatus (checks m) with
    | NoneStatus => inr {| oldIter := oldIter m; btCount := 0; checks := S (checks m) |}
    | Canceled => inl CANCEL
    | Expired => inl TIMEOUT
    end
  else inr {| oldIter := oldIter m; btCount := n; checks := checks m |}.

Definition setOldIter (m : Search) (p : Z) : Search :=
  {| oldIter := p; btCount := btCount m; checks := checks m |}.

(** One transition of the loop: the final result or the next label. *)
Definition step (l : Label) (s : VM) (m : Search) : Result + Label * VM * Search :=
  match l with
  | START_ =>
      if isPrefilter then
        match searchPrefix re s (oldIter m) with
        | Some (true, s', p) => inr (DISPATCH, s', setOldIter m p)
        | Some (false, s', p) => inr (BACKTRACK, s', setOldIter m p)
        | None => inl Undefined
        end
      else inr (DISPATCH, s, m)
  | DISPATCH =>
      match instSeq re !! inst s with
      | Some i =>
          match execInst re (oldIter m) s i with
          | Next s' => inr (DISPATCH, s', m)
          | Back s' => inr (BACKTRACK, s', m)
          | Return status s' => inl (Finished status s')
          | Stuck => inl Undefined
          end
      | None => inl Undefined
      end
  | BACKTRACK =>
      match backtrack s with
      | Resumed s' =>
          match countBacktrack m with
          | inr m' => inr (DISPATCH, s', m')
          | inl status => inl (Finished status s')
          end
      | Exhausted s' => inr (RESTART, s', m)
      | BadStack => inl Undefined
      end
  | RESTART =>
      let i := setIter (input s) (oldIter m) in
      if available i then
        let '(_, i') := consumeForward i in
        inr (START_,
             {| inst := 0; input := i'; captures := resetCaps (regexCaptureGroupCount re);
                loopStates := resetLoops (loopStates s); bts := bts s |},
             setOldIter m (iter i'))
      else inl (Finished FAIL (setInput s i))
  end.

Fixpoint run (fuel : nat) (l : Label) (s : VM) (m : Search) : Result :=
  match fuel with
  | O => OutOfFuel
  | S fuel' =>
      match step l s m with
      | inl r => r
      | inr (l', s', m') => run fuel' l' s' m'
      end
  end.

Definition initVM (ctx : MatchContext) : VM := {|
  inst := 0; input := ctxInput ctx;
  captures := resetCaps (ctxGroupCount ctx);
  loopStates := resetLoops (ctxLoops ctx);
  bts := emptyStack
|}.

Definition initSearch (ctx : MatchContext) : Search :=
  {| oldIter := iter (ctxInput ctx); btCount := 0; checks := 0 |}.
End match_.

(** [match] on a context: the status and the context it leaves. *)
Definition matchCtx `{Ucd} (fuel : nat) (timer : option (nat -> TimerStatus)) (re : Regex)
    (ctx : MatchContext) : option (MatchStatus * MatchContext) :=
  match run timer re (prefilter ctx) fuel START_ (initVM ctx) (initSearch ctx) with
  | Finished status s =>
      let synced := match status with OK | FAIL => true | _ => false end in
      Some (status, {| ctxInput := if synced then input s else ctxInput ctx;
                       ctxGroupCount := ctxGroupCount ctx;
                       prefilter := prefilter ctx;
                       ctxCaptures := captures s; ctxLoops := loopStates s |})
  | Undefined | OutOfFuel => None
  end.

(** ** The bounds of the backtrack stack *)

Definition grow (cap : Z) : Z := cap + Z.shiftr cap 1.

(** The capacities the stack goes through. *)
Definition capAfter (n : nat) : Z := Nat.iter n grow INIT_CAP.

Definition stackInv (b : BacktrackStack) : Prop :=
  zlen (entries b) <= stackCap b /\ exists n, (n <= 36)%nat /\ stackCap b = capAfter n.

Lemma computeMaxStackCap_after : computeMaxStackCap = capAfter 36.
Proof. vm_compute. reflexivity. Qed.

Lemma capAfter_pos n : 6 <= capAfter n.
Proof.
  unfold capAfter. induction n as [|n IH]; [done|]. rewrite Nat.iter_succ. unfold grow at 1.
  pose proof (proj2 (Z.shiftr_nonneg (Nat.iter n grow INIT_CAP) 1)). lia.
Qed.

Lemma capAfter_lt n k : capAfter n < capAfter (n + S k).
Proof.
  induction k as [|k IH].
  - rewrite Nat.add_1_r. pose proof (capAfter_pos n) as Hp. unfold capAfter in *. rewrite Nat.iter_succ.
    unfold grow at 2. rewrite Z.shiftr_div_pow2 by lia. change (2 ^ 1) with 2.
    pose proof (Z.div_le_lower_bound (Nat.iter n grow INIT_CAP) 2 3). lia.
  - rewrite Nat.add_succ_r. pose proof (capAfter_pos (n + S k)) as Hp. unfold capAfter in *.
    rewrite Nat.iter_succ. unfold grow at 2.
    pose proof (proj2 (Z.shiftr_nonneg (Nat.iter (n + S k) grow INIT_CAP) 1)). lia.
Qed.

Lemma stackInv_empty : stackInv emptyStack.
Proof. split; [done|]. exists O. split; [lia|done]. Qed.

(** A push writes inside of the array, whose capacity takes only the values the growth rule gives; it fails exactly when the stack holds [computeMaxStackCap] entries, which is within MAX_STACK_DEPTH, and otherwise puts the entry on top. *)
Theorem backtrack_stack_bounds b bt : stackInv b ->
  computeMaxStackCap <= MAX_STACK_DEPTH /\
  match push b bt with
  | Some b' => stackInv b' /\ entries b' = bt :: entries b /\ zlen (entries b) < stackCap b' <= computeMaxStackCap
  | None => zlen (entries b) = computeMaxStackCap
  end.
Proof.
  intros (Hsz & n & Hn & Hc). split; [vm_compute; discriminate|]. rewrite computeMaxStackCap_after.
  assert (capAfter n <= capAfter 36) as Hle.
  { destruct (decide (n = 36)%nat) as [->|]; [done|]. pose proof (capAfter_lt n (35 - n)) as Hlt.
    replace (n + S (35 - n))%nat with 36%nat in Hlt by lia. lia. }
  unfold push. rewrite computeMaxStackCap_after.
  destruct (Z.eqb_spec (zlen (entries b)) (stackCap b)) as [E|E].
  - destruct (Z.eqb_spec (zlen (entries b)) (capAfter 36)) as [E'|E']; [done|].
    assert (n <> 36%nat) as Hn36 by (intros ->; congruence).
    change (stackCap b + Z.shiftr (stackCap b) 1) with (grow (stackCap b)).
    assert (grow (stackCap b) = capAfter (S n)) as Hg by (by rewrite Hc).
    pose proof (capAfter_lt n 0) as H1. rewrite Nat.add_1_r in H1.
    assert (capAfter (S n) <= capAfter 36) as H2.
    { destruct (decide (S n = 36)%nat) as [->|]; [done|]. pose proof (capAfter_lt (S n) (34 - n)) as Hlt.
      replace (S n + S (34 - n))%nat with 36%nat in Hlt by lia. lia. }
    cbn [entries stackCap]. rewrite Hg. unfold stackInv. cbn [entries stackCap]. rewrite zlen_cons.
    split_and!; [lia| |done|lia|done]. exists (S n). split; [lia|done].
  - cbn [entries stackCap]. unfold stackInv. cbn [entries stackCap]. rewrite zlen_cons.
    split_and!; [lia|by exists n|done|lia|lia].
Qed.

Lemma backtrack_stack_bounds_witness :
  stackInv emptyStack /\
  computeMaxStackCap <= MAX_STACK_DEPTH /\
  match push emptyStack (SetIns 0 0) with
  | Some b' => stackInv b' /\ entries b' = [SetIns 0 0] /\
      zlen (entries emptyStack) < stackCap b' <= computeMaxStackCap
  | None => zlen (entries emptyStack) = computeMaxStackCap
  end.
Proof. split; [exact stackInv_empty|]. apply (backtrack_stack_bounds emptyStack (SetIns 0 0)), stackInv_empty. Defined.

End RegexVM.
