(* ===== verification/RegexStrings.v ===== *)
(** Sets of strings in the virtual machine (src/regex/vm.cpp): on text at a boundary of code
    points, the search in the packed radix tree, folded or not, forward or backward, finds
    the longest string of the set within the radix state. *)
From S2P Require Import Prelude Unicode StringRef RadixTree RadixPacked RegexMatcher RegexNode RegexInput.
From S2P Require Import RegexText RegexSpec RegexInst RegexVM.

Module RegexStrings.
Import UnicodeUtil RegexMatcher RegexNode RegexInput RegexText RegexSpec RegexInst.

(** ** The greatest length that satisfies a test, 0 when there is none *)

Fixpoint greatest (test : nat -> bool) (n : nat) : nat :=
  match n with O => O | S n' => if test n then n else greatest test n' end.

Lemma greatest_le test n : (greatest test n <= n)%nat.
Proof. induction n as [|n IH]; cbn; [lia|]. case_on; lia. Qed.

Lemma greatest_unique test n k : (k <= n)%nat -> (k <> 0 -> test k = true)%nat ->
  (forall j, (k < j <= n)%nat -> test j = false) -> greatest test n = k.
Proof.
  induction n as [|n IH]; intros Hk Ht Hj; cbn; [lia|].
  destruct (decide (k = S n)) as [->|Hne]; [by rewrite Ht|]. rewrite Hj by lia. apply IH; [lia|done|]. intros. apply Hj. lia.
Qed.

Lemma greatest_true test n : (greatest test n <> 0)%nat -> test (greatest test n) = true.
Proof. induction n as [|n IH]; cbn; [done|]. destruct (test (S n)) eqn:E; [done|apply IH]. Qed.

Lemma greatest_above test n j : (greatest test n < j <= n)%nat -> test j = false.
Proof.
  induction n as [|n IH]; cbn; [lia|]. destruct (test (S n)) eqn:E; intros Hj; [lia|].
  destruct (decide (j = S n)) as [->|]; [done|]. apply IH. lia.
Qed.

Lemma greatest_ext f g n : (forall j, (0 < j <= n)%nat -> f j = g j) -> greatest f n = greatest g n.
Proof. induction n as [|n IH]; intros H; cbn; [done|]. rewrite H, IH by (try lia; intros; apply H; lia). done. Qed.

(** The results of a set from the longest on. *)
Lemma strings_greatest cs lb test n st :
  strings cs lb test n st =
    match greatest (fun k => test (segment cs lb k st)) n with
    | O => []
    | S k => skip lb (S k) st :: strings cs lb test k st
    end.
Proof. induction n as [|n IH]; [done|]. cbn [strings greatest]. by destruct (test _); [|rewrite IH]. Qed.

(** ** Segments of the text *)

Lemma take_segment cs lb n k st : lb = false -> (k <= n)%nat -> take k (segment cs lb n st) = segment cs lb k st.
Proof. intros -> Hk. unfold segment. rewrite take_take. f_equal. lia. Qed.

Lemma drop_segment cs lb n k st : lb = true -> (k <= n <= pos st)%nat ->
  drop (n - k) (segment cs lb n st) = segment cs lb k st.
Proof.
  intros -> Hk. unfold segment. rewrite skipn_firstn_comm, drop_drop. f_equal; [|f_equal]; lia.
Qed.

Lemma segment_length cs lb n st : (pos st <= length cs)%nat -> (n <= room cs lb st)%nat ->
  length (segment cs lb n st) = n.
Proof. intros Hp Hn. unfold segment, room in *. rewrite length_take, length_drop. destruct lb; lia. Qed.

Lemma segment_codePoints cs lb n st : codePoints cs -> codePoints (segment cs lb n st).
Proof. intros Hc. by apply codePoints_take, codePoints_drop. Qed.

(** ** Cursors *)

Lemma size_encode c r t : isCodePoint c = true ->
  unsafeNextUtf8Noreturn (t ++ codePointToUtf8 c ++ r) (zlen t) = zlen t + zlen (codePointToUtf8 c).
Proof.
  intros Hc. unfold unsafeNextUtf8Noreturn. rewrite byteAt_0, codePointToUtf8_encode by done.
  destruct (encode_cases c Hc) as [[-> Hr]|[(b0&b1&->&Hr&_)|[(b0&b1&b2&->&Hr&_)|(b0&b1&b2&b3&->&Hr&_)]]];
    cbn [app nth];
    [rewrite byteSize_lead1 by lia|rewrite byteSize_lead2 by lia|rewrite byteSize_lead3 by lia|rewrite byteSize_lead4 by lia];
    done.
Qed.

Lemma size_off cs k c : codePoints cs -> cs !! k = Some c ->
  unsafeNextUtf8Noreturn (encodes cs) (off cs k) = off cs (S k).
Proof.
  intros Hcs H. rewrite (off_S cs k c H), (split_off cs k), (drop_S _ _ _ H), encodes_cons. unfold off.
  apply size_encode. by eapply codePoints_lookup.
Qed.

Lemma removePrefix_encodes c r : isCodePoint c = true -> unsafeRemovePrefixUtf8 (encodes (c :: r)) = encodes r.
Proof.
  intros Hc. unfold unsafeRemovePrefixUtf8. rewrite encodes_cons.
  pose proof (size_encode c (encodes r) [] Hc) as E. unfold unsafeNextUtf8Noreturn in E. cbn [app] in E.
  change (zlen []) with 0 in E. rewrite !Z.add_0_l in E. rewrite E. apply drop_app_length'. unfold zlen. lia.
Qed.

Lemma removeSuffix_encodes r c : codePoints (r ++ [c]) -> unsafeRemoveSuffixUtf8 (encodes (r ++ [c])) = encodes r.
Proof.
  intros Hc. unfold unsafeRemoveSuffixUtf8. rewrite <- off_length.
  assert ((r ++ [c]) !! length r = Some c) as Hl by (rewrite lookup_app_r, Nat.sub_diag by lia; done).
  replace (length (r ++ [c])) with (S (length r)) by (rewrite length_app; cbn; lia).
  rewrite (prev_off _ Hc _ _ Hl). cbn [snd]. rewrite take_off, take_app_length. done.
Qed.

Section cursor.
Context (cs : list Z) (Hcs : codePoints cs).

Lemma forwardBy_off n : forall k, (k <= length cs)%nat ->
  forwardBy n (encodes cs) (off cs k) = off cs (Nat.min (k + n) (length cs)).
Proof.
  induction n as [|n IH]; intros k Hk; cbn [forwardBy]; [f_equal; lia|]. rewrite <- off_length.
  destruct (Z.ltb_spec (off cs k) (off cs (length cs))) as [Hlt|Hge].
  - destruct (decide (k = length cs)) as [->|]; [lia|].
    destruct (lookup_lt_is_Some_2 cs k) as [c Hc]; [lia|]. pose proof (size_off _ _ _ Hcs Hc) as E.
    unfold unsafeNextUtf8Noreturn in E. rewrite E, IH by lia. f_equal. lia.
  - destruct (decide (k = length cs)) as [->|]; [f_equal; lia|]. pose proof (off_strict cs Hcs k (length cs)). lia.
Qed.

Lemma backwardBy_off n : forall k, (k <= length cs)%nat ->
  backwardBy n (encodes cs) (off cs k) = off cs (k - n).
Proof.
  induction n as [|n IH]; intros k Hk; cbn [backwardBy]; [f_equal; lia|].
  destruct k as [|k]; [done|]. pose proof (off_strict cs Hcs 0 (S k) ltac:(lia)) as Hpos. rewrite off_0 in Hpos.
  rewrite (proj2 (Z.ltb_lt _ _) Hpos). destruct (lookup_lt_is_Some_2 cs k) as [c Hc]; [lia|].
  rewrite (prev_off _ Hcs _ _ Hc). cbn [snd]. rewrite IH by lia. done.
Qed.

(** The bytes of a segment at the cursor. *)
Lemma bytes_segment (lb : bool) n st : (pos st <= length cs)%nat -> (n <= room cs lb st)%nat ->
  (if lb then bytesBackward else bytesForward) (at_off cs (pos st)) (zlen (encodes (segment cs lb n st))) =
    encodes (segment cs lb n st).
Proof.
  intros Hp Hn. unfold room, segment in *. destruct lb; unfold bytesBackward, bytesForward, at_off; cbn [text iter].
  - assert (off cs (pos st) - zlen (encodes (take n (drop (pos st - n) cs))) = off cs (pos st - n)) as ->.
    { replace (pos st) with (pos st - n + n)%nat at 1 by lia. rewrite off_app. lia. }
    assert (zlen (encodes (take n (drop (pos st - n) cs))) = off cs (pos st) - off cs (pos st - n)) as ->.
    { replace (pos st) with (pos st - n + n)%nat at 2 by lia. rewrite off_app. lia. }
    rewrite slice_off by lia. do 2 f_equal. lia.
  - assert (zlen (encodes (take n (drop (pos st) cs))) = off cs (pos st + n) - off cs (pos st)) as ->
      by (rewrite off_app; lia).
    rewrite slice_off by lia. do 2 f_equal. lia.
Qed.

Lemma remain_segment (lb : bool) n st : (pos st <= length cs)%nat -> 0 <= n ->
  (if lb then remainBackwardOfCodePoints else remainForwardOfCodePoints) (at_off cs (pos st)) n =
    encodes (segment cs lb (Nat.min (Z.to_nat n) (room cs lb st)) st).
Proof.
  intros Hp Hn. unfold room, segment. destruct lb; unfold remainBackwardOfCodePoints, remainForwardOfCodePoints,
    bytesBackward, bytesForward, at_off; cbn [text iter].
  - rewrite backwardBy_off by done.
    replace (off cs (pos st) - (off cs (pos st) - off cs (pos st - Z.to_nat n))) with (off cs (pos st - Z.to_nat n)) by lia.
    rewrite slice_off by lia. do 2 f_equal; [lia|f_equal; lia].
  - rewrite forwardBy_off by done. rewrite slice_off by lia. do 2 f_equal. lia.
Qed.

(** Moving the cursor over a segment. *)
Lemma skip_off (lb : bool) n st : (pos st <= length cs)%nat -> (n <= room cs lb st)%nat ->
  setIter (at_off cs (pos st))
    (if lb then off cs (pos st) - zlen (encodes (segment cs lb n st))
     else off cs (pos st) + zlen (encodes (segment cs lb n st))) = at_off cs (pos (skip lb n st)).
Proof.
  intros Hp Hn. unfold setIter, at_off, skip, segment, room in *. cbn [text]. f_equal. destruct lb; cbn [setPos pos].
  - replace (pos st) with (pos st - n + n)%nat at 1 by lia. rewrite off_app. lia.
  - rewrite off_app. lia.
Qed.
End cursor.

(** ** The radix tree of a set *)

Section radix.
Context `{Ucd} `{!UcdLaws} (radix : RadixTree.RadixTree).
Context (Hw : RadixTree.wf radix) (Hstr : forall s q, RadixTree.maps radix s q -> isString s).

Lemma string_size s : isString s -> zlen s <= RadixTree.MAX_STRING_SIZE.
Proof. intros (l & -> & Hl & _ & Hz). pose proof (encodes_bound l Hl). unfold encodes in *. lia. Qed.

Lemma radix_good : RadixPacked.good radix.
Proof.
  split; [done|]. apply RadixPacked.fits_of_maps; [done|]. intros s q Hs%Hstr. split; [|by apply string_size].
  destruct Hs as (l & -> & Hl & _). clear -Hl. induction Hl as [|c l Hc _ IH]; [constructor|]. cbn [flat_map].
  apply Forall_app. split; [|done]. rewrite codePointToUtf8_encode by done. by apply encode_is_byte.
Qed.

Lemma inStrSet_maps s : inStrSet emojiNone radix s = true <-> exists q, RadixTree.maps radix s q.
Proof.
  unfold inStrSet. change (hasEmoji emojiNone) with false. cbn [andb]. rewrite orb_false_r.
  destruct (RadixTree.radix_find_spec radix s Hw) as (q & -> & Hq & Hq').
  rewrite negb_true_iff, Z.eqb_neq. split; [eauto|]. intros [q' Hm]. rewrite <- (Hq' _ Hm). by eapply RadixTree.maps_nonzero.
Qed.

(** *** The number of code points *)

Lemma countCodePoints_encodes l : codePoints l -> forall fuel c, (length (encodes l) <= fuel)%nat -> 0 <= c ->
  c + zlen l <= UINT32_MAX -> RadixTree.countCodePoints fuel (encodes l) c = c + zlen l.
Proof.
  induction 1 as [|x l Hx Hl IH]; intros fuel c Hf Hc Hb.
  { rewrite zlen_nil. destruct fuel; cbn; lia. }
  pose proof (encode_pos x Hx) as Hp. rewrite encodes_cons in *. rewrite length_app in Hf. rewrite zlen_cons in *.
  pose proof (zlen_nonneg l). destruct fuel as [|fuel]; [unfold zlen in Hp; lia|]. cbn [RadixTree.countCodePoints].
  destruct (codePointToUtf8 x ++ encodes l) as [|b r] eqn:E.
  { apply app_nil in E as [E _]. rewrite E in Hp. cbn in Hp. unfold zlen in Hp. cbn in Hp. lia. }
  rewrite <- E. rewrite validate_encoded by done. destruct (Z.eqb_spec (zlen (codePointToUtf8 x)) 0); [lia|].
  rewrite drop_app_length' by (unfold zlen; lia). rewrite (wrap_small 32).
  2: { unfold in_unsigned. change (2 ^ 32) with (UINT32_MAX + 1). lia. }
  rewrite IH; [lia|unfold zlen in Hp; lia|lia|lia].
Qed.

Lemma maxCodePointCount_spec :
  0 <= RadixTree.maxCodePointCount radix <= UINT16_MAX /\
  forall l q, codePoints l -> RadixTree.maps radix (encodes l) q -> zlen l <= RadixTree.maxCodePointCount radix.
Proof.
  unfold RadixTree.maxCodePointCount. rewrite RadixTree.iterate_spec, (RadixTree.runWalker_fold
    (fun count ref _ => Z.max count (RadixTree.countCodePoints (length ref) ref 0))). cbn [snd].
  assert (forall es : list (bytes * Z), (forall s q, (s, q) ∈ es -> isString s) -> forall x, 0 <= x <= UINT16_MAX ->
    let m := fold_left (fun x e => Z.max x (RadixTree.countCodePoints (length (fst e)) (fst e) 0)) es x in
    x <= m <= UINT16_MAX /\ forall l q, codePoints l -> (encodes l, q) ∈ es -> zlen l <= m) as Hall.
  { induction es as [|[s q] es IH]; intros Hs x Hx; cbn [fold_left].
    { split; [lia|]. by intros l q _ ?%not_elem_of_nil. }
    destruct (Hs s q) as (l & -> & Hl & _ & Hz); [by left|]. change (flat_map codePointToUtf8 l) with (encodes l) in *.
    change RadixTree.MAX_STRING_SIZE with 32767 in Hz. pose proof (zlen_nonneg l) as Hnn.
    assert (RadixTree.countCodePoints (length (encodes l)) (encodes l) 0 = zlen l) as Ec.
    { rewrite countCodePoints_encodes; [lia|done|lia|lia|unfold UINT32_MAX; lia]. }
    cbn [fst]. rewrite Ec. unfold UINT16_MAX in *.
    destruct (IH ltac:(intros s' q' Hin; apply (Hs s' q'); by right) (Z.max x (zlen l)) ltac:(lia)) as [Hm Hle].
    split; [lia|]. intros l' q' Hl' [Heq|Hin]%elem_of_cons; [|by eapply Hle].
    injection Heq as Heq _. apply encodes_inj in Heq as ->; [lia|done|done]. }
  destruct (Hall (RadixTree.entries radix)) with (x := 0) as [Hm Hle].
  - intros s q Hin. apply RadixTree.entries_maps in Hin. by eapply Hstr.
  - by unfold UINT16_MAX.
  - split; [done|]. intros l q Hl Hmap. apply (Hle l q Hl). by apply RadixTree.entries_maps.
Qed.

(** *** Folding *)

Context (ic : bool).
Abbreviation test := (strTest emojiNone radix ic).
Abbreviation foldings := (map (RegexSpec.fold_ ic)).

Lemma foldings_codePoints xs : codePoints xs -> codePoints (foldings xs).
Proof.
  intros Hx. apply Forall_map. eapply Forall_impl; [exact Hx|]. intros c Hc. unfold RegexSpec.fold_.
  destruct ic; [by apply fold_codePoint|done].
Qed.

Lemma foldText_off xs : codePoints xs -> forall k fuel, (k <= length xs)%nat -> (length xs - k < fuel)%nat ->
  RegexVM.foldText fuel (encodes xs) (off xs k) = Some (encodes (map doSimpleCaseFolding (drop k xs))).
Proof.
  intros Hx k fuel. revert k. induction fuel as [|fuel IH]; intros k Hk Hf; [lia|]. cbn [RegexVM.foldText].
  rewrite <- off_length. destruct (decide (k = length xs)) as [->|Hne].
  { rewrite Z.eqb_refl, drop_all. done. }
  rewrite (proj2 (Z.eqb_neq _ _)) by (rewrite off_eq by (done || lia); done).
  destruct (lookup_lt_is_Some_2 xs k) as [c Hc]; [lia|]. rewrite (next_off _ Hx _ _ Hc).
  pose proof (fold_codePoint c (codePoints_lookup _ _ _ Hx Hc)) as Hfc. pose proof (encode_pos _ Hfc) as Hpos.
  rewrite (drop_S _ _ _ Hc). cbn [map]. rewrite encodes_cons.
  destruct (codePointToUtf8 (doSimpleCaseFolding c)) as [|b d] eqn:E; [by unfold zlen in Hpos; cbn in Hpos; lia|].
  cbn [RadixTree.isNil]. rewrite IH by lia. done.
Qed.

Lemma remapLoop_off us xs fuel : codePoints us -> codePoints xs -> (length us <= length xs)%nat -> forall k,
  (k <= length us)%nat -> (length us - k <= fuel)%nat ->
  RegexVM.remapLoop fuel (encodes us) (off us k) (encodes xs) (off xs k) = off xs (length us).
Proof.
  intros Hu Hx Hl. induction fuel as [|fuel IH]; intros k Hk Hf; cbn [RegexVM.remapLoop]; [f_equal; lia|].
  rewrite <- !off_length. destruct (decide (k = length us)) as [->|Hne].
  { by rewrite Z.eqb_refl. }
  rewrite (proj2 (Z.eqb_neq _ _)) by (rewrite off_eq by (done || lia); done).
  rewrite (proj2 (Z.eqb_neq _ _)) by (rewrite off_eq by (done || lia); lia). cbn [negb andb].
  destruct (lookup_lt_is_Some_2 us k) as [c Hc]; [lia|]. destruct (lookup_lt_is_Some_2 xs k) as [d Hd]; [lia|].
  rewrite (size_off _ _ _ Hu Hc), (size_off _ _ _ Hx Hd). apply IH; lia.
Qed.

(** *** Finding *)

Section packed.
Context (n : Z) (buf : bytes) (Hp : RadixPacked.packs radix buf).
Abbreviation tree := (RadixPacked.ofBuffer n buf).

(** The longest prefix that is in the set. *)
Definition longest (xs : list Z) : nat := greatest (fun j => test (take j xs)) (length xs).

Lemma longest_bound xs : codePoints xs -> 4 * Z.of_nat (longest xs) <= RadixTree.MAX_STRING_SIZE.
Proof.
  intros Hx. destruct (decide (longest xs = 0)%nat) as [->|Hne]; [by vm_compute|].
  pose proof (greatest_true _ _ Hne) as Ht. pose proof (greatest_le (fun j => test (take j xs)) (length xs)) as Hle.
  fold (longest xs) in Ht, Hle. apply inStrSet_maps in Ht as [q Hm]. destruct (Hstr _ _ Hm) as (l & E & Hl & _ & Hz).
  apply encodes_inj in E as <-; [|by apply foldings_codePoints, codePoints_take|done].
  unfold zlen in Hz. rewrite length_map, length_take in Hz. lia.
Qed.

Lemma longest_fold xs : codePoints xs ->
  exists p, RadixPacked.findLongestMatched tree (encodes (foldings xs)) =
      Some (zlen (encodes (take (longest xs) (foldings xs))), p) /\ (p = 0 <-> longest xs = O).
Proof.
  intros Hx. pose proof (foldings_codePoints xs Hx) as Hy.
  destruct (RadixPacked.packs_longest n radix buf (encodes (foldings xs)) radix_good) as (r & -> & Hr);
    [intros s q Hs; by apply string_size, (Hstr s q)|done|].
  assert (forall j l q rest, RadixTree.maps radix (encodes l) q -> codePoints l -> encodes (foldings xs) = encodes l ++ rest ->
    j = length l -> take j (foldings xs) = l /\ (j <= length xs)%nat) as Hpre.
  { intros j l q rest _ Hl E ->. apply encodes_prefix in E as (zs & E & _); [|done|done].
    rewrite E, take_app_length. split; [done|]. pose proof (length_map (RegexSpec.fold_ ic) xs) as El. rewrite E, length_app in El. lia. }
  assert (forall j, (j <= length xs)%nat -> test (take j xs) = true <-> exists q, RadixTree.maps radix (encodes (take j (foldings xs))) q) as Htest.
  { intros j Hj. rewrite <- fmap_take. apply inStrSet_maps. }
  destruct r as [[s p]|].
  - destruct Hr as ([rest E] & Hm & Hmax). destruct (Hstr _ _ Hm) as (l & -> & Hl & Hz & _). fold (encodes l) in *.
    destruct (Hpre _ l p rest Hm Hl E eq_refl) as [Ht Hle].
    assert (longest xs = length l) as ->.
    { apply greatest_unique; [done| |].
      - intros _. apply Htest; [done|]. rewrite Ht. eauto.
      - intros j Hj. apply not_true_iff_false. intros [q Hq]%Htest; [|lia].
        assert (encodes (foldings xs) = encodes (take j (foldings xs)) ++ encodes (drop j (foldings xs))) as E'
          by (by rewrite <- encodes_app, take_drop).
        pose proof (Hmax _ _ _ E' Hq) as Hlen. pose proof E' as E2. rewrite E in E2.
        assert (encodes (take j (foldings xs)) = encodes l ++ encodes (drop (length l) (take j (foldings xs)))) as Esplit.
        { rewrite <- encodes_app. f_equal. rewrite <- (take_drop (length l) (take j (foldings xs))) at 1.
          f_equal. rewrite take_take, Nat.min_l by lia. exact Ht. }
        rewrite Esplit, length_app in Hlen.
        assert (codePoints (drop (length l) (take j (foldings xs)))) as Hd by (by apply codePoints_drop, codePoints_take).
        pose proof (encodes_length _ Hd) as Hll. unfold zlen in Hll. rewrite length_drop, length_take, length_map in Hll. lia. }
    exists p. rewrite Ht. split; [done|]. pose proof (RadixTree.maps_nonzero _ _ _ Hm). unfold zlen in Hz. split; [done|lia].
  - assert (longest xs = O) as ->; [|by exists 0].
    apply greatest_unique; [lia|done|]. intros j Hj. apply not_true_iff_false. intros [q Hq]%Htest; [|lia].
    apply (Hr (encodes (take j (foldings xs))) (encodes (drop j (foldings xs))) q); [|done].
    by rewrite <- encodes_app, take_drop.
Qed.

Lemma remap_fold xs p : codePoints xs -> (p = 0 <-> longest xs = O) ->
  RegexVM.remap ic (encodes (foldings xs)) (encodes xs) (zlen (encodes (take (longest xs) (foldings xs)))) p =
    zlen (encodes (take (longest xs) xs)).
Proof.
  intros Hx Hpk. unfold RegexVM.remap. pose proof (foldings_codePoints xs Hx) as Hy.
  pose proof (longest_bound xs Hx) as Hb. pose proof (greatest_le (fun j => test (take j xs)) (length xs)) as Hle.
  fold (longest xs) in Hle.
  destruct (Z.eqb_spec p 0) as [->|Hne]; [rewrite (proj1 Hpk eq_refl); by destruct ic|].
  destruct ic eqn:Eic; cbn [andb negb]; [|f_equal; f_equal; by rewrite map_id].
  change (zlen (encodes (take ?k ?l))) with (off l k). rewrite take_off.
  assert (length (take (longest xs) (map (RegexSpec.fold_ true) xs)) = longest xs) as Elen
    by (rewrite length_take, length_map; lia).
  pose proof (remapLoop_off (take (longest xs) (map (RegexSpec.fold_ true) xs)) xs (length (encodes xs))) as E.
  rewrite Elen in E. specialize (E ltac:(by apply codePoints_take) Hx Hle 0%nat ltac:(lia)).
  pose proof (encodes_length xs Hx) as Hlx. rewrite !off_0 in E. rewrite E by (unfold zlen in Hlx; lia).
  apply wrap_small. unfold in_unsigned, off. change (2 ^ 16) with 65536.
  change RadixTree.MAX_STRING_SIZE with 32767 in Hb. pose proof (encodes_bound _ (codePoints_take xs (longest xs) Hx)) as Hz.
  unfold zlen in *. rewrite length_take in Hz. lia.
Qed.

Lemma fold_ref xs : codePoints xs ->
  (if ic then RegexVM.foldText (S (length (encodes xs))) (encodes xs) 0 else Some (encodes xs)) = Some (encodes (foldings xs)).
Proof.
  intros Hx. pose proof (encodes_length xs Hx) as Hl. unfold zlen in Hl. destruct ic.
  - rewrite <- (off_0 xs), foldText_off by (done || lia). done.
  - by rewrite map_id.
Qed.

Lemma findLongest_spec xs : codePoints xs ->
  exists p, RegexVM.findLongestMatched tree (encodes xs) ic = Some (zlen (encodes (take (longest xs) xs)), p) /\
    (p = 0 <-> longest xs = O).
Proof.
  intros Hx. unfold RegexVM.findLongestMatched. rewrite fold_ref by done. cbn [mbind option_bind].
  destruct (longest_fold xs Hx) as (p & -> & Hpk). exists p. cbn [mbind option_bind]. by rewrite remap_fold.
Qed.

(** The longest suffix: the suffixes are tried from the longest one on. *)
Definition longestEnd (zs : list Z) : nat := greatest (fun j => test (drop (length zs - j) zs)) (length zs).

Lemma longest_all zs : test zs = true -> longest zs = length zs.
Proof. intros Ht. apply greatest_unique; [done| |lia]. by rewrite firstn_all. Qed.

Lemma longest_whole zs : codePoints zs -> zs <> [] ->
  (zlen (encodes (take (longest zs) zs)) =? zlen (encodes zs)) = test zs.
Proof.
  intros Hz Hne. rewrite <- (off_length zs). change (zlen (encodes (take (longest zs) zs))) with (off zs (longest zs)).
  pose proof (greatest_le (fun j => test (take j zs)) (length zs)) as Hle. fold (longest zs) in Hle.
  apply eq_true_iff_eq. rewrite Z.eqb_eq, off_eq by (done || lia). split.
  - intros E. pose proof (greatest_true (fun j => test (take j zs)) (length zs)) as Ht. fold (longest zs) in Ht.
    rewrite E, firstn_all in Ht. apply Ht. by destruct zs.
  - by apply longest_all.
Qed.

Lemma longestEnd_cons z zs : longestEnd (z :: zs) = if test (z :: zs) then length (z :: zs) else longestEnd zs.
Proof.
  unfold longestEnd. cbn [length greatest]. rewrite Nat.sub_diag. cbn [drop]. case_on; [done|].
  apply greatest_ext. intros j Hj. rewrite Nat.sub_succ_l by lia. done.
Qed.

Lemma backwardLoop_spec zs : codePoints zs -> forall fuel, (length zs < fuel)%nat ->
  exists p, RegexVM.backwardLoop fuel tree ic (encodes (foldings zs)) (encodes zs) =
      Some (zlen (encodes (drop (length zs - longestEnd zs) zs)), p) /\ (p = 0 <-> longestEnd zs = O).
Proof.
  induction 1 as [|z zs Hz Hzs IH]; intros fuel Hf; (destruct fuel as [|fuel]; [cbn in Hf; lia|]); cbn [RegexVM.backwardLoop].
  { by exists 0. }
  assert (codePoints (z :: zs)) as Hx by by constructor. pose proof (foldings_codePoints _ Hx) as Hy.
  assert (RadixTree.isNil (encodes (foldings (z :: zs))) = false) as ->.
  { destruct (encodes (foldings (z :: zs))) eqn:E; [by apply encodes_nil_inv in E|reflexivity]. }
  destruct (longest_fold _ Hx) as (p & -> & Hpk). cbn [mbind option_bind].
  rewrite remap_fold, longest_whole, longestEnd_cons by done. destruct (test (z :: zs)) eqn:Et.
  - exists p. rewrite Nat.sub_diag, (longest_all _ Et), firstn_all. split; [done|]. by rewrite Hpk, (longest_all _ Et).
  - cbn [map]. cbn [map] in Hy. apply Forall_cons in Hy as [Hfz _].
    rewrite !removePrefix_encodes by done.
    destruct (IH fuel) as (q & Eq & Hq); [cbn in Hf; lia|]. exists q. split; [|done].
    assert ((if ic then encodes zs else encodes (foldings zs)) = encodes zs) as Ec
      by (destruct ic; [done|by rewrite map_id]).
    cbn [map encodes] in *. rewrite Ec, Eq. cbn [length]. pose proof (greatest_le (fun j => test (drop (length zs - j) zs)) (length zs)) as Hle.
    fold (longestEnd zs) in Hle. rewrite Nat.sub_succ_l by lia. done.
Qed.

Lemma findBackward_spec zs : codePoints zs ->
  exists p, RegexVM.findBackwardLongestMatched tree (encodes zs) ic =
      Some (zlen (encodes (drop (length zs - longestEnd zs) zs)), p) /\ (p = 0 <-> longestEnd zs = O).
Proof.
  intros Hz. unfold RegexVM.findBackwardLongestMatched. rewrite fold_ref by done. cbn [mbind option_bind].
  apply backwardLoop_spec; [done|]. pose proof (encodes_length _ (foldings_codePoints _ Hz)) as Hl.
  unfold zlen in Hl. rewrite length_map in Hl. lia.
Qed.
End packed.

(** ** The radix state *)

Section machine.
Context (buf : bytes) (Hp : RadixPacked.packs radix buf) (ms : list Matcher) (index : Z).
Context (Hm : matcherAt ms index = Some (ofRadix buf (u16 (RadixTree.maxCodePointCount radix)))).
Context (cs : list Z) (Hcs : codePoints cs).

(** The flags of the instruction. *)
Definition setEmoji : Z := if ic then setFlag emojiNone CASE_IGNORE else emojiNone.

Lemma setEmoji_none : hasEmoji setEmoji = false /\ hasFlag setEmoji CASE_IGNORE = ic.
Proof. unfold setEmoji. by destruct ic. Qed.

Abbreviation K := (RadixTree.maxCodePointCount radix).
Abbreviation inSet lb st := (fun j => test (segment cs lb j st)).

Lemma matcher_tree : asRadixTree (ofRadix buf (u16 K)) = RadixPacked.ofBuffer K buf.
Proof.
  destruct maxCodePointCount_spec as [Hk _]. assert (in_unsigned 16 K) as Hu.
  { unfold in_unsigned. change (2 ^ 16) with (UINT16_MAX + 1). lia. }
  rewrite wrap_small by done. apply asRadixTree_ofRadix; [by eapply RadixPacked.packs_size|done].
Qed.

Lemma codePointCount_spec : RegexVM.codePointCount ms setEmoji true index = Some K.
Proof.
  destruct maxCodePointCount_spec as [Hk _]. unfold RegexVM.codePointCount.
  rewrite (proj1 setEmoji_none), Hm. cbn [mbind option_bind]. rewrite matcher_tree. cbn [RadixPacked.getMaxCodePointCount RadixPacked.ofBuffer].
  f_equal. lia.
Qed.

Lemma consumedSize_spec (lb : bool) n st : (pos st <= length cs)%nat -> (n <= room cs lb st)%nat ->
  RegexVM.consumedSize lb ms setEmoji true index (encodes (segment cs lb n st)) =
    Some (zlen (encodes (segment cs lb (greatest (inSet lb st) n) st))).
Proof.
  intros Hpos Hn. unfold RegexVM.consumedSize. destruct setEmoji_none as [-> ->]. rewrite Hm. cbn [mbind option_bind].
  rewrite matcher_tree. pose proof (segment_codePoints cs lb n st Hcs) as Hc. pose proof (segment_length cs lb n st Hpos Hn) as Hl.
  pose proof (greatest_le (inSet lb st) n) as Hle.
  assert (exists p, (if lb then RegexVM.findBackwardLongestMatched else RegexVM.findLongestMatched) (RadixPacked.ofBuffer K buf)
    (encodes (segment cs lb n st)) ic = Some (zlen (encodes (segment cs lb (greatest (inSet lb st) n) st)), p) /\
    (p = 0 <-> greatest (inSet lb st) n = O)) as (p & -> & Hpk).
  { destruct lb.
    - destruct (findBackward_spec K buf Hp _ Hc) as (p & -> & Hpk). exists p.
      assert (longestEnd (segment cs true n st) = greatest (inSet true st) n) as <-.
      { unfold longestEnd. rewrite Hl. apply greatest_ext. intros j Hj. by rewrite drop_segment by (unfold room in Hn; lia). }
      split; [|done]. rewrite Hl, drop_segment; [done|done|]. unfold longestEnd. rewrite Hl.
      pose proof (greatest_le (fun j => test (drop (n - j) (segment cs true n st))) n). unfold room in Hn. lia.
    - destruct (findLongest_spec K buf Hp _ Hc) as (p & -> & Hpk). exists p.
      assert (longest (segment cs false n st) = greatest (inSet false st) n) as <-.
      { unfold longest. rewrite Hl. apply greatest_ext. intros j Hj. by rewrite take_segment by (done || lia). }
      split; [|done]. rewrite take_segment; [done|done|]. unfold longest. rewrite Hl. apply greatest_le. }
  cbn [mbind option_bind]. f_equal. destruct (Z.eqb_spec p 0) as [E|]; cbn [negb].
  - by rewrite (proj1 Hpk E).
  - pose proof (zlen_nonneg (encodes (segment cs lb (greatest (inSet lb st) n) st))). lia.
Qed.

Lemma segment_size lb k st : (pos st <= length cs)%nat -> (k <= room cs lb st)%nat ->
  (zlen (encodes (segment cs lb k st)) =? 0) = (k =? 0)%nat.
Proof.
  intros Hpos Hk. pose proof (encodes_length _ (segment_codePoints cs lb k st Hcs)) as Hl.
  pose proof (segment_length cs lb k st Hpos Hk) as E. unfold zlen in Hl. destruct (Nat.eqb_spec k 0) as [->|]; [done|].
  apply Z.eqb_neq. unfold zlen. lia.
Qed.

(** What the labels do in front of [n] code points. *)
Lemma radixOrEmoji_spec (lb : bool) n st s next Ks :
  (pos st <= length cs)%nat -> (0 < n <= room cs lb st)%nat -> RegexVM.input s = at_off cs (pos st) ->
  RegexVM.entries (RegexVM.bts s) = RegexVM.RadixState (zlen (encodes (segment cs lb n st))) :: Ks ->
  RegexVM.radixOrEmoji lb ms s setEmoji true index next =
    match greatest (inSet lb st) n with
    | O => if negb (next =? 0) then RegexVM.Next (RegexVM.setInst s (RegexVM.inst s + 6)) else RegexVM.Back s
    | k =>
        RegexVM.tryPush (RegexVM.updateRadixState s (zlen (encodes (segment cs lb k st))))
          (RegexVM.SetIns (RegexVM.inst s) (off cs (pos st)))
          (fun s' => RegexVM.Next (RegexVM.setInst (RegexVM.setInput s' (at_off cs (pos (skip lb k st)))) (RegexVM.inst s' + 6 + next)))
    end.
Proof.
  intros Hpos Hn Hin He. unfold RegexVM.radixOrEmoji, RegexVM.radixState. rewrite He. cbn [RegexVM.with_].
  rewrite segment_size by (done || lia). destruct (Nat.eqb_spec n 0); [lia|]. cbn [negb andb]. rewrite Hin.
  assert ((if lb then availableBackward (at_off cs (pos st)) else available (at_off cs (pos st))) = true) as ->.
  { unfold room in Hn. destruct lb; [rewrite availableBackward_off by done|rewrite available_off by done]; apply bool_decide_true; lia. }
  rewrite (bytes_segment cs lb n st Hpos ltac:(lia)), consumedSize_spec by (done || lia). cbn [RegexVM.with_].
  pose proof (greatest_le (inSet lb st) n) as Hle. rewrite segment_size by (done || lia).
  destruct (greatest (inSet lb st) n) as [|k] eqn:Ek; [done|]. cbn [Nat.eqb negb].
  unfold RegexVM.tryPush. cbn [RegexVM.updateRadixState RegexVM.setBts RegexVM.input RegexVM.inst RegexVM.bts]. rewrite Hin.
  destruct (RegexVM.push _ _) as [b|]; [|done]. cbn [RegexVM.setBts RegexVM.input RegexVM.inst].
  do 3 f_equal. rewrite <- (skip_off cs lb (S k) st Hpos ltac:(lia)). done.
Qed.

(** Strings of the set are not longer than [K]. *)
Lemma strings_within (lb : bool) st : (pos st <= length cs)%nat ->
  strings cs lb test (room cs lb st) st = strings cs lb test (Nat.min (Z.to_nat K) (room cs lb st)) st.
Proof.
  intros Hpos. destruct maxCodePointCount_spec as [Hk Hmax].
  assert (forall d n, (n + d <= room cs lb st)%nat -> (Z.to_nat K <= n)%nat ->
    strings cs lb test (n + d) st = strings cs lb test n st) as Hd.
  { induction d as [|d IH]; intros n Hn HK; [by rewrite Nat.add_0_r|]. rewrite Nat.add_succ_r. cbn [strings].
    rewrite IH by lia. destruct (test (segment cs lb (S (n + d)) st)) eqn:Et; [|done].
    apply inStrSet_maps in Et as [q Hq]. apply Hmax in Hq; [|by apply foldings_codePoints, segment_codePoints].
    unfold zlen in Hq. rewrite length_map, segment_length in Hq by (done || lia). lia. }
  destruct (decide (room cs lb st <= Z.to_nat K)%nat) as [Hr|Hr]; [by rewrite Nat.min_r by lia|].
  rewrite Nat.min_l by lia. rewrite <- (Hd (room cs lb st - Z.to_nat K)%nat (Z.to_nat K)) by lia. f_equal. lia.
Qed.
End machine.

End radix.

End RegexStrings.
