(* ===== verification/RegexCluster.v ===== *)
(** What the instruction for grapheme clusters (src/regex/vm.cpp) consumes: of text in WTF-8,
    the code points up to the first boundary. *)
From S2P Require Import Prelude Unicode Segment Grapheme GraphemeRules GraphemeSpec GraphemeScan.
From S2P Require Import RegexText RegexMatcher RegexNode RegexSpec RegexVM.

Module RegexCluster.
Import UnicodeUtil Segment RegexText RegexSpec RegexVM.

(** The characters of an encoded text, surrogates included. *)
Definition charsOf (cs : list Z) : list char := map (fun c => (c, codePointToUtf8 c)) cs.

Lemma chars_encodes cs : codePoints cs -> chars (encodes cs) true = charsOf cs.
Proof.
  induction 1 as [|c cs Hc _ IH]; [done|]. rewrite encodes_cons. pose proof (encode_pos c Hc) as Hp.
  assert (codePointToUtf8 c <> []) as Hne by (intros E; rewrite E in Hp; unfold zlen in Hp; cbn in Hp; lia).
  assert (nextCodePoint (codePointToUtf8 c ++ encodes cs) true = (c, encodes cs)) as E.
  { unfold nextCodePoint. rewrite codePointToUtf8_encode in Hp |- * by done. rewrite decode_encode by auto.
    rewrite (proj2 (Z.ltb_ge _ _)) by lia. f_equal. unfold zlen. by rewrite Nat2Z.id, drop_app_length. }
  destruct (chars_cons (codePointToUtf8 c ++ encodes cs) true c (encodes cs)) as (b & _ & Eb & ->); [by destruct (codePointToUtf8 c)|done|].
  apply app_inv_tail in Eb as <-. cbn [charsOf map]. by rewrite IH.
Qed.

Lemma text_part (g g' : list char) cs : g ++ g' = charsOf cs -> Segment.text g = encodes (codes g).
Proof.
  revert cs. induction g as [|[c b] g IH]; intros [|d cs] E; try done. cbn [charsOf map app] in E. injection E as -> -> E.
  change (codePointToUtf8 d ++ Segment.text g = codePointToUtf8 d ++ encodes (codes g)). f_equal. by apply (IH cs).
Qed.

Lemma codes_charsOf cs : codes (charsOf cs) = cs.
Proof. unfold codes, charsOf. rewrite map_map. apply map_id. Qed.

(** The code points that a cluster takes are the followers of its first one. *)
Lemma followers_together g : forall pre rest,
  together GraphemeScan.joined pre g rest ->
  (forall c r, rest = c :: r -> ~ GraphemeScan.joined (reverse g ++ pre) c r) ->
  followers pre (g ++ rest) = length g.
Proof.
  induction g as [|d g IH]; intros pre rest; cbn [together app followers length].
  - intros _ Hb. destruct rest as [|c r]; [done|]. cbn [followers].
    destruct (GraphemeRules.joinedb pre c) eqn:E; [|done]. exfalso. apply (Hb c r eq_refl).
    unfold GraphemeScan.joined. by apply GraphemeSpec.joinedb_spec.
  - intros [Hd Ht] Hb. unfold GraphemeScan.joined in Hd. apply GraphemeSpec.joinedb_spec in Hd. rewrite Hd. f_equal.
    apply IH; [done|]. intros c r E. specialize (Hb c r E). by rewrite reverse_cons, <- app_assoc in Hb.
Qed.

Lemma first_cluster c rest gs :
  segmented GraphemeScan.joined [] gs -> mjoin gs = charsOf (c :: rest) ->
  exists g gs', gs = g :: gs' /\ codes g = c :: take (followers [c] rest) rest.
Proof.
  intros Hs0 E. inversion Hs0 as [|pre d b g gs0 Hd Ht Hs]; subst; [done|]. clear Hs0 Hd. rename gs0 into gs. exists ((d, b) :: g), gs. split; [done|].
  change (mjoin (((d, b) :: g) :: gs)) with ((d, b) :: (g ++ mjoin gs)) in E. apply (f_equal codes) in E.
  rewrite codes_charsOf in E. cbn [codes map fst] in E |- *. injection E as -> E. unfold codes in E. rewrite map_app in E.
  f_equal. rewrite <- E. change (codes g = take (followers [c] (codes g ++ codes (mjoin gs))) (codes g ++ codes (mjoin gs))).
  rewrite (followers_together (codes g) [c] (codes (mjoin gs)) Ht), take_app_length; [done|].
  intros c' r Ec. inversion Hs as [|pre' c0 b0 g0 gs0 Hc0 _ _]; subst; [done|].
  change (codes (mjoin (((c0, b0) :: g0) :: gs0))) with (c0 :: codes (g0 ++ mjoin gs0)) in Ec. injection Ec as -> <-.
  apply Hc0. by destruct (reverse (codes g)).
Qed.

Lemma clusterBytes_spec c rest : codePoints (c :: rest) ->
  clusterBytes (encodes (c :: rest)) = Some (zlen (encodes (c :: take (followers [c] rest) rest))).
Proof.
  intros Hcs. unfold clusterBytes, Grapheme.iterateGraphemeUntil.
  destruct (GraphemeScan.start_yields true (encodes (c :: rest))) as (gs & Hgs & Hs & Hy).
  rewrite chars_encodes in Hgs by done. destruct (first_cluster c rest gs Hs Hgs) as (g & gs' & -> & Eg).
  erewrite GraphemeScan.iterateLoop_yields; [|exact Hy|unfold UINT64_MAX; lia| |lia].
  - change (mjoin (g :: gs')) with (g ++ mjoin gs') in Hgs. rewrite <- Eg, <- (text_part g _ _ Hgs). by destruct gs'.
  - rewrite GraphemeScan.clustersOf_length. apply segmented_length in Hs. rewrite Hgs in Hs. unfold charsOf in Hs. rewrite length_map in Hs.
    pose proof (encodes_length _ Hcs) as Hl. unfold zlen in Hl. lia.
Qed.
End RegexCluster.
