(* ===== verification/RegexFirst.v ===== *)
(** Soundness of the prefilter (src/regex/prefilter.cpp): every match of a compiled
    pattern begins with a byte of the collected set, or with the needle that its
    first instruction is. *)
From stdpp Require Import list_numbers.
From S2P Require Import Prelude Unicode CodePointSet RadixTree RadixPacked RegexMatcher RegexNode RegexInput RegexText.
From S2P Require Import RegexSpec RegexInst RegexPrefilter RegexEmit RegexLayout RegexStrings.

Module RegexFirst.
Import UnicodeUtil CodePointSet RegexMatcher RegexNode RegexText RegexSpec RegexInst RegexPrefilter
  RegexEmit RegexLayout RegexStrings.

Definition subset (a b : Z) : Prop := forall i, Z.testbit a i = true -> Z.testbit b i = true.

#[export] Instance subset_preorder : PreOrder subset.
Proof. split; [by intros a i|]. intros a b c H1 H2 i Hi. auto. Qed.

(** ** The fill functions *)

Section fill.
Context `{Ucd}.

Lemma setByte_bit set b i : 0 <= b -> Z.testbit (setByte set b) i = (b =? i) || Z.testbit set i.
Proof. intros Hb. unfold setByte. by rewrite Z.setbit_eqb. Qed.

Lemma firstByte_encode c : isCodePoint c = true ->
  exists r, codePointToUtf8 c = firstByte c :: r /\ 0 <= firstByte c < 256 /\
    ~ (0x80 <= firstByte c < 0xC0).
Proof.
  intros Hc. unfold firstByte. rewrite codePointToUtf8_encode by done.
  destruct (encode_cases c Hc) as [[-> Hr]|[(b0&b1&->&Hr&_)|[(b0&b1&b2&->&Hr&_)|(b0&b1&b2&b3&->&Hr&_)]]];
    cbn [nth]; eexists; (split; [reflexivity|lia]).
Qed.

Lemma firstByte_range c : 0 <= firstByte c /\ ~ (0x80 <= firstByte c < 0xC0).
Proof.
  destruct (isCodePoint c) eqn:E.
  - destruct (firstByte_encode c E) as (r & _ & Hr). lia.
  - unfold firstByte, codePointToUtf8. rewrite E. cbn. lia.
Qed.

(** What a function that adds code points to the set promises. *)
Definition adds (f : Z -> Z) (P : Z -> Prop) : Prop :=
  forall set, subset set (f set) /\
    (forall c, P c -> Z.testbit (f set) (firstByte c) = true) /\
    (forall i, 0x80 <= i < 0xC0 -> Z.testbit set i = false -> Z.testbit (f set) i = false).

Lemma adds_ext f g P Q : adds f P -> (forall s, f s = g s) -> (forall c, Q c -> P c) -> adds g Q.
Proof.
  intros Hf Hg HQ set. destruct (Hf set) as (H1 & H2 & H3). rewrite <- Hg. split_and!; [done| |done]. auto.
Qed.

Lemma adds_id : adds (fun s => s) (fun _ => False).
Proof. intros set. by split_and!. Qed.

Lemma adds_comp f g P Q : adds f P -> adds g Q -> adds (fun s => g (f s)) (fun c => P c \/ Q c).
Proof.
  intros Hf Hg set. destruct (Hf set) as (H1 & H2 & H3). destruct (Hg (f set)) as (K1 & K2 & K3).
  split_and!; [by etrans| |auto]. intros c [Hc|Hc]; auto.
Qed.

Lemma adds_fold {A} (f : Z -> A -> Z) (P : A -> Z -> Prop) l :
  (forall x, x ∈ l -> adds (fun s => f s x) (P x)) ->
  adds (fun s => fold_left f l s) (fun c => exists x, x ∈ l /\ P x c).
Proof.
  induction l as [|x l IH]; intros Hl; cbn [fold_left].
  - eapply adds_ext; [apply adds_id|done|]. intros c (x & Hx & _). by apply not_elem_of_nil in Hx.
  - eapply adds_ext; [apply (adds_comp _ _ _ _ (Hl x ltac:(by left)) (IH ltac:(intros; apply Hl; by right)))|done|].
    intros c (y & Hy & Hc). apply elem_of_cons in Hy as [->|Hy]; [by left|right; eauto].
Qed.

Lemma adds_byte c : adds (fun s => setByte s (firstByte c)) (fun d => d = c).
Proof.
  pose proof (firstByte_range c) as [Hr Hn]. intros set. split_and!.
  - intros i Hi. rewrite setByte_bit, Hi by done. apply orb_true_r.
  - intros d ->. by rewrite setByte_bit, Z.eqb_refl by done.
  - intros i Hi Hs. rewrite setByte_bit, Hs, orb_false_r by done. apply Z.eqb_neq. lia.
Qed.

(** The code points a filled code point stands for. *)
Definition stands (fold : bool) (c d : Z) : Prop :=
  d = c \/ fold = true /\ d ∈ doSimpleCaseUnfold c.

Lemma adds_fill fold c : adds (fun s => fill fold s c) (stands fold c).
Proof.
  unfold fill. destruct fold.
  - eapply adds_ext; [apply (adds_comp _ _ _ _ (adds_byte c)
      (adds_fold (fun s e => setByte s (firstByte e)) (fun e d => d = e) (doSimpleCaseUnfold c)
         (fun e _ => adds_byte e)))|done|].
    intros d [->|[_ Hd]]; [by left|right; eauto].
  - eapply adds_ext; [apply (adds_byte c)|done|]. by intros d [->|[? _]].
Qed.

Lemma adds_range fold first last :
  adds (fun s => fillRange fold s first last) (fun d => exists c, first <= c <= last /\ stands fold c d).
Proof.
  unfold fillRange.
  eapply adds_ext; [apply (adds_fold (fill fold) (stands fold)); intros c _; apply adds_fill|done|].
  intros d (c & Hc & Hd). exists c. split; [|done]. apply elem_of_seqZ. lia.
Qed.

(** A list of ranges. *)
Lemma adds_ranges {A} fold (lo hi : A -> Z) l :
  adds (fun s => fold_left (fun s e => fillRange fold s (lo e) (hi e)) l s)
    (fun d => exists e, e ∈ l /\ exists c, lo e <= c <= hi e /\ stands fold c d).
Proof.
  apply (adds_fold (fun s e => fillRange fold s (lo e) (hi e))
    (fun e d => exists c, lo e <= c <= hi e /\ stands fold c d)).
  intros e _. apply adds_range.
Qed.

Lemma adds_set fold s : wf s ->
  adds (fun set => fillSet fold set s) (fun d => exists c, contains s c = true /\ stands fold c d).
Proof.
  intros Hw. unfold fillSet.
  eapply adds_ext; [|done|].
  { exact (adds_comp _ _ _ _
      (adds_comp _ _ _ _ (adds_ranges fold firstBMP lastBMP (getBMPRanges s))
        (adds_ranges fold (fun e => i32 (fst e)) (fun e => i32 (snd e)) (getNonBMPRanges s)))
      (adds_ranges fold firstPacked lastPacked (getPackedNonBMPRanges s))). }
  intros d (c & Hc & Hd). apply (contains_iff s c Hw) in Hc as [_ Hc]. unfold covered in Hc. case_decide.
  - destruct Hc as (e & He & Hr). left. left. eauto.
  - destruct Hc as [(e & He & Hr)|(e & He & Hr)]; [right; eauto|left; right; eauto].
Qed.

Lemma adds_ascii fold a :
  adds (fun set => fillAscii fold set a) (fun d => exists c, asciiContains a c = true /\ stands fold c d).
Proof.
  unfold fillAscii.
  eapply adds_ext.
  { apply (adds_fold (fun s c => if asciiContains a c then fill fold s c else s)
      (fun c d => asciiContains a c = true /\ stands fold c d)).
    intros c _. destruct (asciiContains a c); [|eapply adds_ext; [apply adds_id|done|by intros ? []]].
    eapply adds_ext; [apply adds_fill|done|by intros ? []]. }
  { done. }
  intros d (c & Hc & Hd). exists c. split; [|done]. apply elem_of_seqZ.
  unfold asciiContains in Hc. case_in Hc; [|done]. unfold ASCII_MAX, ASCII_MIN in *. zbool. lia.
Qed.

Lemma adds_matcher fold s : wf s -> fits s -> bmpSize s + packedNonBmpSize s <= size s ->
  adds (fun set => fillMatcher fold set (setMatcher s))
    (fun d => exists c, contains s c = true /\ stands fold c d).
Proof.
  intros Hw Hf Hs. unfold fillMatcher, setMatcher. destruct (tryToGenerateAsciiSet s) as [x|] eqn:E.
  - assert (Ht : tag (ofAsciiSet x) = typeTag ASCII).
    { unfold tag. cbn [ofAsciiSet first typeTag]. rewrite Z.lor_0_r, <- Z.land_assoc.
      change (Z.land (Z.lxor UINT64_MAX 0xFF) 0xFF) with 0. by rewrite Z.land_0_r. }
    rewrite Ht, Z.eqb_refl. eapply adds_ext; [apply adds_ascii|done|].
    intros d (c & Hc & Hd). exists c. split; [|done].
    pose proof (matcherContains_ascii true s x c Hw Hf Hs E) as Hm.
    rewrite (matcherContains_set true s c Hf), Hc in Hm. unfold matcherContains in Hm.
    by rewrite Ht, Z.eqb_refl in Hm.
  - destruct (matcher_fields true s Hf) as [Ht Hr].
    destruct (Z.eqb_spec (tag (ofCodePointSet true s)) (typeTag ASCII)); [done|].
    rewrite Hr. by apply adds_set.
Qed.

Lemma adds_string fold c r : isCodePoint c = true ->
  adds (fun set => fillString fold set (codePointToUtf8 c ++ r)) (stands fold c).
Proof.
  intros Hc. unfold fillString, wtf8ToCodePoint. rewrite codePointToUtf8_encode by done.
  rewrite decode_encode by auto. apply adds_fill.
Qed.

(** The first code points of the strings of a tree. *)
Lemma adds_radix fold (l : list (bytes * Z)) : (forall s q, (s, q) ∈ l -> isString s) ->
  adds (fun set => fold_left (fun x e => fillString fold x (fst e)) l set)
    (fun d => exists c r q, (codePointToUtf8 c ++ r, q) ∈ l /\ isCodePoint c = true /\ stands fold c d).
Proof.
  intros Hl. eapply adds_ext; [|done|].
  { apply (adds_fold (fun x e => fillString fold x (fst e))
      (fun e d => exists c r, fst e = codePointToUtf8 c ++ r /\ isCodePoint c = true /\ stands fold c d)).
    intros [s q] Hin. destruct (Hl s q Hin) as (codes & -> & Hc & H2 & _).
    destruct codes as [|c codes]; [by vm_compute in H2|]. apply Forall_cons in Hc as [Hc _]. cbn [fst flat_map].
    eapply adds_ext; [by apply adds_string|done|]. intros d (c' & r' & E & Hc' & Hd).
    by apply encode_prefix in E as [-> _]. }
  intros d (c & r & q & Hin & Hc & Hd). exists (codePointToUtf8 c ++ r, q). split; [done|]. eauto.
Qed.
End fill.

(** ** Collection

    Along the code of a node, the collection either ends, and then every result of
    the node begins with a collected byte, or it goes on behind the node, and then
    a result that moved begins with a collected byte. *)

Section collect.
Context `{Ucd} `{!UcdLaws}.
Context (cs : list Z) (Hcs : codePoints cs) (C : code) (ms : list Matcher).
Context (groups : NamedCaptureGroups) (loopCount groupCount : Z).

Abbreviation wfN := (wfNode groups loopCount groupCount).
Abbreviation semF n := (sem cs groups false n).

Definition startsIn (set : Z) (st : St) : Prop :=
  exists c, cs !! pos st = Some c /\ Z.testbit set (firstByte c) = true.

Lemma startsIn_mono a b st : subset a b -> startsIn a st -> startsIn b st.
Proof. intros Hs (c & Hc & Hb). exists c. eauto. Qed.

Lemma startsIn_pos set st st' : pos st' = pos st -> startsIn set st' -> startsIn set st.
Proof. intros Hp (c & Hc & Hb). exists c. by rewrite <- Hp. Qed.

Definition stops (n : Node) (set' : Z) : Prop :=
  forall st r, r ∈ semF n st -> startsIn set' st.
Definition passes (n : Node) (set' : Z) : Prop :=
  forall st r, r ∈ semF n st -> pos r = pos st \/ startsIn set' st.

Definition Filter (lb : bool) (n : Node) (a z : Z) : Prop :=
  lb = false -> forall open, wfN false open n -> forall fuel set E set',
  collect fuel C ms set a E = Some set' ->
  stops n set' \/
  (passes n set' /\ exists fuel' set1, collect fuel' C ms set1 z E = Some set').

(** One step of the collection. *)
Lemma collect_at fuel set a E set' i :
  C !! a = Some i -> collect fuel C ms set a E = Some set' ->
  exists fuel', fuel = S fuel' /\ a <> E.
Proof.
  intros HC. destruct fuel as [|fuel]; [done|]. cbn. destruct (Z.eqb_spec a E); [done|eauto].
Qed.

Lemma collect_end fuel set a set' : collect fuel C ms set a a <> Some set'.
Proof. destruct fuel; [done|]. cbn. by rewrite Z.eqb_refl. Qed.

Ltac step_collect Hcol HC :=
  let f := fresh "fuel" in let Hn := fresh "Hne" in
  destruct (collect_at _ _ _ _ _ _ HC Hcol) as (f & -> & Hn);
  cbn [collect] in Hcol; rewrite (proj2 (Z.eqb_neq _ _) Hn), HC in Hcol.

Lemma adds_starts f P set st c : adds f P -> cs !! pos st = Some c -> P c -> startsIn (f set) st.
Proof. intros Hf Hc HP. destruct (Hf set) as (_ & H2 & _). exists c. auto. Qed.

Lemma testChar_first test st r : r ∈ testChar cs false test st ->
  exists c, cs !! pos st = Some c /\ test c = true.
Proof.
  unfold testChar, curChar. destruct (cs !! pos st) as [c|]; [|by intros ?%not_elem_of_nil].
  destruct (test c) eqn:E; [eauto|by intros ?%not_elem_of_nil].
Qed.

Lemma filter_leaf lb n i a z : leafIns lb n = Some i -> C !! a = Some i -> z = a + sizeOfInst i ->
  Filter lb n a z.
Proof.
  intros Hi HC -> -> open Hw fuel set E set' Hcol.
  destruct n; cbn [leafIns] in Hi; simplify_eq.
  - exfalso. destruct (hasFlag modifier DOT_ALL); step_collect Hcol HC; done.
  - step_collect Hcol HC. simplify_eq. left.
    intros st r Hr. apply testChar_first in Hr as (c & Hc & Ht). apply Z.eqb_eq in Ht as ->.
    eapply (adds_starts (fun s => fill false s codePoint)); [apply adds_fill|exact Hc|by left].
  - destruct type; [exfalso; step_collect Hcol HC; done..| |]; right;
      (split; [intros st r Hr; cbn [sem] in Hr; unfold check in Hr; case_in Hr;
               [apply list_elem_of_singleton in Hr as ->; by left|by apply not_elem_of_nil in Hr]|]);
      (destruct (hasFlag modifier IGNORE_CASE); step_collect Hcol HC;
       (eexists _, set; exact Hcol)).
  - exfalso. destruct ignoreCase; step_collect Hcol HC; done.
  - step_collect Hcol HC. simplify_eq. left.
    intros st r Hr. apply testChar_first in Hr as (c & Hc & Ht). apply Z.eqb_eq in Ht.
    eapply (adds_starts (fun s => fill true s codePoint)); [apply adds_fill|exact Hc|].
    destruct (unfold_folding _ _ Ht); [by left|by right].
  - exfalso. by step_collect Hcol HC.
Qed.

Lemma filter_set lb s invert ic index a z :
  matcherAt ms index = Some (setMatcher s) -> C !! a = Some (setIns lb index invert ic) ->
  Filter lb (CharSetNode s invert ic) a z.
Proof.
  intros Hm HC -> open (Hw & Hf & Hs) fuel set E set' Hcol. unfold setIns in HC.
  assert (exists fold, fold = ic /\ invert = false /\ set' = fillMatcher fold set (setMatcher s)) as (fold & Hfo & -> & ->).
  { exists ic. destruct ic; step_collect Hcol HC; (destruct invert; [done|]);
      rewrite Hm in Hcol; cbn [mbind option_bind] in Hcol; by simplify_eq. }
  subst fold. left.
  intros st r Hr. apply testChar_first in Hr as (c & Hc & Ht).
  eapply (adds_starts (fun x => fillMatcher ic x (setMatcher s))); [by apply adds_matcher|exact Hc|].
  destruct (contains s (RegexSpec.fold_ ic c)) eqn:Ec; [|done]. eexists. split; [exact Ec|].
  destruct ic; [|by left]. cbn [RegexSpec.fold_].
  destruct (unfold_folding (doSimpleCaseFolding c) c eq_refl); [by left|by right].
Qed.

Definition FilterSeq (lb : bool) (l : list Node) (a z : Z) : Prop :=
  lb = false -> forall open, Forall (wfN false open) l -> forall fuel set E set',
  collect fuel C ms set a E = Some set' ->
  (forall st r, r ∈ seqM (map (fun x => semF x) l) st -> startsIn set' st) \/
  ((forall st r, r ∈ seqM (map (fun x => semF x) l) st -> pos r = pos st \/ startsIn set' st) /\
   exists fuel' set1, collect fuel' C ms set1 z E = Some set').

Lemma filterSeq_cons lb n rest a b z :
  Filter lb n a b -> FilterSeq lb rest b z -> FilterSeq lb (n :: rest) a z.
Proof.
  intros Hn Hrest Hlb open Hw fuel set E set' Hcol. apply Forall_cons in Hw as [Hwn Hwr].
  cbn [map seqM].
  destruct (Hn Hlb open Hwn _ _ _ _ Hcol) as [Hs|[Hp (fuel1 & set1 & Hcol1)]].
  { left. intros st r Hr. apply elem_flat_map in Hr as (x & Hx & _). by eapply Hs. }
  destruct (Hrest Hlb open Hwr _ _ _ _ Hcol1) as [Hs|[Hp' (fuel2 & set2 & Hcol2)]].
  - left. intros st r Hr. apply elem_flat_map in Hr as (x & Hx & Hr).
    destruct (Hp st x Hx) as [Hpos|]; [|done]. eapply startsIn_pos; [exact Hpos|]. by eapply Hs.
  - right. split; [|by exists fuel2, set2].
    intros st r Hr. apply elem_flat_map in Hr as (x & Hx & Hr).
    destruct (Hp st x Hx) as [Hpos|]; [|by right].
    destruct (Hp' x r Hr) as [Hpos'|Hs]; [left; congruence|right]. by eapply startsIn_pos.
Qed.

Lemma run_first ys y st r : r ∈ seqM (map (fun x => semF x) (map CharNode (y :: ys))) st ->
  cs !! pos st = Some y.
Proof.
  cbn [map seqM sem]. intros Hr. apply elem_flat_map in Hr as (x & Hx & _).
  apply testChar_first in Hx as (c & Hc & Ht). apply Z.eqb_eq in Ht as ->. done.
Qed.

Lemma seqM_split fs gs st r : r ∈ seqM (fs ++ gs) st -> exists x, x ∈ seqM fs st.
Proof.
  revert st. induction fs as [|f fs IH]; intros st Hr; [exists st; by left|].
  cbn [app seqM] in *. apply elem_flat_map in Hr as (x & Hx & Hr). destruct (IH x Hr) as [y Hy].
  exists y. apply elem_flat_map. eauto.
Qed.

Lemma chars_codePoints open run : Forall (wfN false open) (map CharNode run) -> codePoints run.
Proof.
  induction run as [|c run IH]; [constructor|]. intros Hw. apply Forall_cons in Hw as [Hc Hw].
  constructor; [exact Hc|by apply IH].
Qed.

Lemma filterSeq_run (lb : bool) run rest index a z :
  (2 <= length run)%nat -> C !! a = Some (if lb then LBStringIns index else StringIns index) ->
  matcherAt ms index = Some (ofBytes (utf8OfRun (if lb then rev run else run))) ->
  4 * zlen run <= UINT32_MAX -> FilterSeq lb (map CharNode run ++ rest) a z.
Proof.
  intros Hl HC Hm Hz -> open Hw fuel set E set' Hcol. step_collect Hcol HC.
  rewrite Hm in Hcol. cbn [mbind option_bind] in Hcol. simplify_eq.
  destruct run as [|y ys]; [simpl in Hl; lia|].
  apply Forall_app in Hw as [Hw _]. pose proof Hw as Hw'. apply Forall_cons in Hw as [Hy _].
  assert (codePoints (y :: ys)) as Hcp.
  { by eapply chars_codePoints. }
  assert (zlen (encodes (y :: ys)) <= UINT32_MAX) as Hzl.
  { pose proof (encodes_bound _ Hcp). lia. }
  change (utf8OfRun (y :: ys)) with (encodes (y :: ys)) in *.
  rewrite asStrRef_ofBytes by done. rewrite encodes_cons. left.
  intros st r Hr. rewrite map_app in Hr. apply seqM_split in Hr as [x Hx].
  eapply (adds_starts (fun x => fillString false x _)); [by apply adds_string|by eapply run_first|by left].
Qed.

(** ** The set grows *)

Definition grownBy (set set' : Z) : Prop :=
  subset set set' /\ forall i, 0x80 <= i < 0xC0 -> Z.testbit set i = false -> Z.testbit set' i = false.

#[local] Instance grownBy_preorder : PreOrder grownBy.
Proof.
  split; [split; [done|done]|]. intros a b c [H1 H2] [K1 K2]. split; [by etrans|]. auto.
Qed.

Lemma adds_grown f P set : adds f P -> grownBy set (f set).
Proof. intros Hf. destruct (Hf set) as (H1 & _ & H3). by split. Qed.

Lemma fillMatcher_grown fold set m : grownBy set (fillMatcher fold set m).
Proof.
  unfold fillMatcher. case_on; [exact (adds_grown _ _ set (adds_ascii fold (asAsciiSet m)))|].
  unfold fillSet. set (r := asCodePointSetRef m).
  pose proof (adds_grown _ _ set (adds_ranges fold firstBMP lastBMP (getBMPRanges r))) as H1.
  etrans; [exact H1|].
  etrans; [exact (adds_grown _ _ _ (adds_ranges fold (fun e => i32 (fst e)) (fun e => i32 (snd e)) (getNonBMPRanges r)))|].
  exact (adds_grown _ _ _ (adds_ranges fold firstPacked lastPacked (getPackedNonBMPRanges r))).
Qed.

Lemma fillString_grown fold set s : grownBy set (fillString fold set s).
Proof. exact (adds_grown _ _ set (adds_fill fold _)). Qed.

Lemma fillRadix_grown fold set t set' : fillRadix fold set t = Some set' -> grownBy set set'.
Proof.
  apply (RadixPacked.iteratePacked_keeps (grownBy set)); [|done]. intros x s q Hx. cbn.
  etrans; [exact Hx|apply fillString_grown].
Qed.

Lemma fillEmoji_grown fold set emoji set' : fillEmoji fold set emoji = Some set' -> grownBy set set'.
Proof.
  apply (RadixPacked.iteratePacked_keeps (grownBy set)); [|done]. intros x s q Hx. cbn.
  case_on; [|done]. etrans; [exact Hx|apply fillString_grown].
Qed.

Lemma collect_grown fuel : forall set a E set', collect fuel C ms set a E = Some set' -> grownBy set set'.
Proof.
  induction fuel as [|fuel IH]; intros set a E set' Hcol; [done|]. cbn [collect] in Hcol.
  case_in Hcol; [done|]. destruct (C !! a) as [i|]; [|done].
  destruct i; try done; try (by eapply IH).
  - destruct (collect fuel C ms set _ second) as [set1|] eqn:E1; [|done]. cbn in Hcol.
    etrans; [by eapply IH|by eapply IH].
  - simplify_eq. exact (adds_grown _ _ set (adds_fill false codePoint)).
  - simplify_eq. exact (adds_grown _ _ set (adds_fill true codePoint)).
  - case_in Hcol; [done|]. destruct (matcherAt ms matcherIndex); [|done]. cbn in Hcol. simplify_eq.
    apply fillMatcher_grown.
  - case_in Hcol; [done|]. destruct (matcherAt ms matcherIndex); [|done]. cbn in Hcol. simplify_eq.
    apply fillMatcher_grown.
  - apply bind_Some in Hcol as (set1 & E1 & Hcol). apply bind_Some in Hcol as (set2 & E2 & Hcol).
    assert (grownBy set set1) as H1 by (case_in E1; [by eapply fillEmoji_grown|by injection E1 as <-]).
    assert (grownBy set1 set2) as H2.
    { case_in E2; [|by injection E2 as <-]. destruct (matcherAt ms index); [|done]. by eapply fillRadix_grown. }
    etrans; [exact H1|]. etrans; [exact H2|]. case_in Hcol; [by eapply IH|by injection Hcol as <-].
  - destruct (matcherAt ms index); [|done]. cbn in Hcol. simplify_eq.
    exact (adds_grown _ _ set (adds_fill false _)).
  - case_in Hcol; [|done]. by eapply IH.
Qed.

Lemma collect_starts fuel set a E set' st :
  collect fuel C ms set a E = Some set' -> startsIn set st -> startsIn set' st.
Proof. intros Hcol. apply startsIn_mono. by apply collect_grown in Hcol as [? _]. Qed.

(** ** Forks *)

(** The first branch must end the collection, which stops at its end. *)
Lemma filter_branch n a b E fuel set set' :
  Filter false n a b -> (forall f s s', collect f C ms s b E <> Some s') ->
  forall open, wfN false open n -> collect fuel C ms set a E = Some set' -> stops n set'.
Proof.
  intros Hn Hend open Hw Hcol.
  destruct (Hn eq_refl open Hw _ _ _ _ Hcol) as [|[_ (f & s & Hcol')]]; [done|].
  by apply Hend in Hcol'.
Qed.

Lemma collect_fork fuel set a E set' t :
  C !! a = Some (AltIns t) -> collect fuel C ms set a E = Some set' ->
  exists f set1, collect f C ms set (a + 5) t = Some set1 /\ collect f C ms set1 t E = Some set'.
Proof.
  intros HC Hcol. step_collect Hcol HC. change (sizeOfInst (AltIns t)) with 5 in Hcol.
  destruct (collect fuel0 C ms set (a + 5) t) as [set1|] eqn:E1; [|done]. cbn in Hcol. eauto.
Qed.

(** An optional branch. *)
Lemma filter_skip n a z fuel set E set' : C !! a = Some (AltIns z) -> Filter false n (a + 5) z ->
  forall open, wfN false open n -> collect fuel C ms set a E = Some set' ->
  stops n set' /\ exists fuel' set1, collect fuel' C ms set1 z E = Some set'.
Proof.
  intros HC Hn open Hw Hcol. destruct (collect_fork _ _ _ _ _ _ HC Hcol) as (f & set1 & H1 & H2).
  pose proof (filter_branch _ _ _ z _ _ _ Hn (fun f s s' => collect_end f s z s') open Hw H1) as Hs.
  split; [|eauto]. intros st r Hr. eapply collect_starts; [exact H2|]. by eapply Hs.
Qed.

Definition FilterAlt (lb : bool) (z : Z) (l : list Node) (a : Z) : Prop :=
  lb = false -> forall open, Forall (wfN false open) l -> forall fuel set E set',
  collect fuel C ms set a E = Some set' ->
  (forall n, n ∈ l -> stops n set') \/
  ((forall n, n ∈ l -> passes n set') /\ exists fuel' set1, collect fuel' C ms set1 z E = Some set').

Lemma stops_passes n set' : stops n set' -> passes n set'.
Proof. intros Hs st r Hr. right. by eapply Hs. Qed.

Lemma filterAlt_last lb z n a : Filter lb n a z -> FilterAlt lb z [n] a.
Proof.
  intros Hn Hlb open Hw fuel set E set' Hcol. apply Forall_cons in Hw as [Hw _].
  destruct (Hn Hlb open Hw _ _ _ _ Hcol) as [Hs|[Hp Hf]].
  - left. intros n' Hn'. by apply list_elem_of_singleton in Hn' as ->.
  - right. split; [|done]. intros n' Hn'. by apply list_elem_of_singleton in Hn' as ->.
Qed.

Lemma filterAlt_jump lb z n rest a e :
  C !! a = Some (AltIns (e + 5)) -> Filter lb n (a + 5) e -> C !! e = Some (JumpIns z) ->
  FilterAlt lb z rest (e + 5) -> FilterAlt lb z (n :: rest) a.
Proof.
  intros HC Hn HJ Hrest -> open Hw fuel set E set' Hcol. apply Forall_cons in Hw as [Hwn Hwr].
  destruct (collect_fork _ _ _ _ _ _ HC Hcol) as (f & set1 & H1 & H2).
  assert (stops n set1) as Hs.
  { eapply filter_branch; [exact Hn| |exact Hwn|exact H1]. intros f' s s' Hcol'.
    step_collect Hcol' HJ. by apply collect_end in Hcol'. }
  assert (stops n set') as Hs' by (intros st r Hr; eapply collect_starts; [exact H2|]; by eapply Hs).
  destruct (Hrest eq_refl open Hwr _ _ _ _ H2) as [Hr|[Hp Hf]]; [left|right; split; [|done]];
    intros n' Hn'; apply elem_of_cons in Hn' as [->|Hn']; auto. by apply stops_passes.
Qed.

Lemma passes_empty set' : passes EmptyNode set'.
Proof. intros st r Hr. cbn in Hr. apply list_elem_of_singleton in Hr as ->. by left. Qed.

Lemma filterAlt_skip lb z n a :
  C !! a = Some (AltIns z) -> Filter lb n (a + 5) z -> FilterAlt lb z [n; EmptyNode] a.
Proof.
  intros HC Hn -> open Hw fuel set E set' Hcol. apply Forall_cons in Hw as [Hwn _].
  destruct (filter_skip _ _ _ _ _ _ _ HC Hn open Hwn Hcol) as [Hs Hf].
  right. split; [|done]. intros n' Hn'. apply elem_of_cons in Hn' as [->|Hn'].
  - by apply stops_passes.
  - apply list_elem_of_singleton in Hn' as ->. apply passes_empty.
Qed.

Lemma filter_alt lb l a z : (2 <= length l)%nat -> FilterAlt lb z l a -> Filter lb (AltNode l) a z.
Proof.
  intros Hl Ha Hlb open [_ Hw] fuel set E set' Hcol. apply foldr_Forall in Hw.
  assert (forall st r, r ∈ semF (AltNode l) st -> exists n, n ∈ l /\ r ∈ semF n st) as Hsem.
  { destruct l as [|n [|n' l]]; [simpl in Hl; lia..|]. intros st r Hr.
    cbn [sem] in Hr. unfold altM in Hr. apply elem_flat_map in Hr as (f & Hf & Hr).
    apply list_elem_of_fmap in Hf as (x & -> & Hx). eauto. }
  destruct (Ha Hlb open Hw _ _ _ _ Hcol) as [Hs|[Hp Hf]]; [left|right; split; [|done]];
    intros st r Hr; destruct (Hsem st r Hr) as (n & Hn & Hr'); [by eapply Hs|by eapply Hp].
Qed.

Lemma filter_opt lb p a z : C !! a = Some (AltIns z) -> Filter lb p (a + 5) z ->
  Filter lb (AltNode [p]) a z.
Proof.
  intros HC Hn -> open [_ [Hw _]] fuel set E set' Hcol.
  destruct (filter_skip _ _ _ _ _ _ _ HC Hn open Hw Hcol) as [Hs Hf].
  right. split; [|done]. intros st r Hr. cbn [sem] in Hr. apply elem_of_app in Hr as [Hr|Hr].
  - right. by eapply Hs.
  - apply list_elem_of_singleton in Hr as ->. by left.
Qed.

(** ** The other nodes *)

Lemma filter_repeat lb q p a e z :
  C !! a = Some (BeginLoopIns (loopIndex q) (qmin q) (qmax q) (greedy q) z) ->
  resetAt C q a -> Filter lb p (bodyAddr q a) e -> C !! e = Some (EndLoopIns a) -> z = e + 5 ->
  Filter lb (RepeatNode q p) a z.
Proof.
  intros HC Hreset Hp HE -> -> open (Hw & _) fuel set E set' Hcol.
  step_collect Hcol HC. destruct (Z.ltb_spec 0 (qmin q)) as [Hmin|]; [|done].
  change (sizeOfInst _) with 14 in Hcol.
  assert (exists f, collect f C ms set (bodyAddr q a) (e + 5) = Some set') as [f Hbody].
  { unfold bodyAddr. destruct (hasInnerCaptureGroups q) eqn:Eh; [|eauto].
    specialize (Hreset Eh). step_collect Hcol Hreset. change (sizeOfInst _) with 5 in Hcol.
    replace (a + 19) with (a + 14 + 5) by lia. eauto. }
  left. assert (stops p set') as Hs.
  { eapply filter_branch; [exact Hp| |exact Hw|exact Hbody]. intros f' s s' Hcol'.
    step_collect Hcol' HE. by apply collect_end in Hcol'. }
  intros st r Hr. cbn [sem] in Hr. unfold loopFuel in Hr. cbn [iterate] in Hr.
  rewrite (proj2 (Z.ltb_ge (qmin q) 0)), (proj2 (Z.ltb_lt 0 (qmin q))) in Hr by lia. cbn [andb] in Hr.
  apply elem_flat_map in Hr as (x & Hx & _). apply Hs in Hx.
  eapply startsIn_pos; [|exact Hx]. unfold resetGroups. by case_on.
Qed.

Lemma strings_elem test n : forall st r, r ∈ strings cs false test n st ->
  exists k, (0 < k <= n)%nat /\ test (segment cs false k st) = true.
Proof.
  induction n as [|n IH]; intros st r Hr; [by apply not_elem_of_nil in Hr|]. cbn [strings] in Hr.
  apply elem_of_app in Hr as [Hr|Hr].
  - exists (S n). split; [lia|]. by case_in Hr; [|apply not_elem_of_nil in Hr].
  - destruct (IH st r Hr) as (k & Hk & Ht). exists k. split; [lia|done].
Qed.

(** The strings of a set are collected, and its code points come next. *)
Lemma collect_strs radix ic a z fuel set E set' :
  strSetAt C ms false emojiNone radix ic a z -> RadixTree.empty radix = false -> RadixTree.wf radix ->
  (forall s q, RadixTree.maps radix s q -> isString s) -> collect fuel C ms set a E = Some set' ->
  exists set1, (forall st r, r ∈ strings cs false (strTest emojiNone radix ic) (room cs false st) st -> startsIn set1 st) /\
    if z =? a + 7 then set' = set1 else exists fuel', collect fuel' C ms set1 (a + 7) E = Some set'.
Proof.
  intros [HC (index & Hr & HC1)] Hne Hw Hs Hcol. unfold radixIns in HC1. cbn [prepareIns] in HC. cbv zeta in HC1.
  fold (setEmoji ic) in HC1. unfold radixAt in Hr. rewrite Hne in *. destruct Hr as (buf & Eb & Hm).
  step_collect Hcol HC. change (sizeOfInst _) with 1 in Hcol. step_collect Hcol HC1.
  destruct (setEmoji_none ic) as [E1 E2]. rewrite E1, E2, Hm in Hcol. cbn [mbind option_bind negb] in Hcol.
  pose proof (radix_good radix Hw Hs) as Hg. pose proof (RadixPacked.serialize_packs _ _ Hg Eb) as Hp.
  rewrite (matcher_tree radix Hs buf Hp) in Hcol. unfold fillRadix in Hcol.
  destruct (RadixPacked.packs_iterate (fun s ref _ => (true, fillString ic s ref)) (RadixTree.maxCodePointCount radix) radix buf set Hg Hp)
    as (l & El & _ & Hl). rewrite El, (RadixTree.runWalker_fold (fun s ref _ => fillString ic s ref)) in Hcol. cbn [snd mbind option_bind] in Hcol.
  exists (fold_left (fun x e => fillString ic x (fst e)) l set). split.
  - intros st r Hr. apply strings_elem in Hr as (k & Hk & Ht). apply (inStrSet_maps radix Hw) in Ht as [q Hq].
    unfold room in Hk. destruct (lookup_lt_is_Some_2 cs (pos st)) as [c Hc]; [lia|].
    pose proof (codePoints_lookup _ _ _ Hcs Hc) as Hcp.
    assert (exists rest, segment cs false k st = c :: rest) as [rest Eseg].
    { unfold segment. rewrite (drop_S _ _ _ Hc). destruct k; [lia|]. cbn [firstn]. eauto. }
    eapply (adds_starts (fun x => fold_left (fun x e => fillString ic x (fst e)) l x)); [apply (adds_radix ic)|exact Hc|].
    { intros s q' Hin. apply Hl in Hin. by eapply Hs. }
    rewrite Eseg in Hq. cbn [map flat_map] in Hq. do 3 eexists. split; [by apply Hl|]. split.
    + unfold RegexSpec.fold_. destruct ic; [by apply fold_codePoint|done].
    + unfold RegexSpec.fold_. destruct ic; [|by left].
      destruct (unfold_folding (doSimpleCaseFolding c) c eq_refl); [by left|by right].
  - destruct (Z.eqb_spec z (a + 7)) as [->|Hz].
    + rewrite Z.sub_diag in Hcol. cbn in Hcol. by injection Hcol as <-.
    + rewrite (proj2 (Z.eqb_neq _ _)) in Hcol by lia. cbn [negb] in Hcol. change (sizeOfInst _) with 6 in Hcol.
      replace (a + 1 + 6) with (a + 7) in Hcol by lia. eauto.
Qed.

Lemma filter_strs lb emoji radix ic a : strSetAt C ms lb emoji radix ic a (a + 7) ->
  Filter lb (StrSetNode emoji radix None ic) a (a + 7).
Proof.
  intros Hat -> open (-> & Hne & Hw & Hs & _) fuel set E set' Hcol.
  destruct (collect_strs _ _ _ _ _ _ _ _ Hat Hne Hw Hs Hcol) as (set1 & H1 & H2). rewrite Z.eqb_refl in H2. subst set1.
  left. intros st r Hr. cbn [sem] in Hr. rewrite app_nil_r in Hr. by eapply H1.
Qed.

Lemma filter_strChars lb emoji radix c ic a z : strSetAt C ms lb emoji radix ic a z -> comp C ms lb c (a + 7) z ->
  Filter lb c (a + 7) z -> Filter lb (StrSetNode emoji radix (Some c) ic) a z.
Proof.
  intros Hat Hc Hf -> open (-> & Hne & Hw & Hs & Ht & Hwc) fuel set E set' Hcol.
  destruct (collect_strs _ _ _ _ _ _ _ _ Hat Hne Hw Hs Hcol) as (set1 & Hs1 & Hs2).
  pose proof (test_size _ _ _ _ _ _ Ht Hc). rewrite (proj2 (Z.eqb_neq _ _)) in Hs2 by lia. destruct Hs2 as [fuel' Hs2].
  assert (forall st r, r ∈ strings cs false (strTest emojiNone radix ic) (room cs false st) st -> startsIn set' st) as Hs3
    by (intros st r Hr; eapply collect_starts; [exact Hs2|by eapply Hs1]).
  destruct (Hf eq_refl open Hwc _ _ _ _ Hs2) as [Hst|[Hps Hcont]]; [left|right; split; [|done]];
    intros st r Hr; cbn [sem] in Hr; apply elem_of_app in Hr as [Hr|Hr]; eauto.
Qed.

Lemma filter_look lb t p a e z :
  C !! a = Some (BeginLookAroundIns e (isNegate t)) -> C !! e = Some EndLookAroundIns -> z = e + 1 ->
  Filter lb (LookAroundNode t p) a z.
Proof.
  intros HC HE -> -> open _ fuel set E set' Hcol. step_collect Hcol HC. step_collect Hcol HE.
  right. split; [|eauto]. intros st r Hr. left. cbn [sem] in Hr. unfold lookAround in Hr.
  repeat case_in Hr; try (by apply not_elem_of_nil in Hr); by apply list_elem_of_singleton in Hr as ->.
Qed.

Lemma filter_group (lb : bool) i p a e z :
  C !! a = Some (BeginCaptureIns (u16 i)) -> Filter lb p (a + 3) e ->
  C !! e = Some (if lb then LBEndCaptureIns (u16 i) else EndCaptureIns (u16 i)) ->
  z = e + 3 -> Filter lb (GroupNode CAPTURE i p) a z.
Proof.
  intros HC Hp HE -> -> open [_ Hw] fuel set E set' Hcol. step_collect Hcol HC.
  destruct (Hp eq_refl _ Hw _ _ _ _ Hcol) as [Hs|[Hps (f & set1 & Hcol1)]].
  - left. intros st r Hr. cbn [sem] in Hr. apply list_elem_of_fmap in Hr as (x & -> & Hx). by eapply Hs.
  - right. step_collect Hcol1 HE. split; [|eauto]. intros st r Hr. cbn [sem] in Hr.
    apply list_elem_of_fmap in Hr as (x & -> & Hx). destruct (Hps st x Hx); [by left|by right].
Qed.

Lemma filter_all lb n a z : comp C ms lb n a z -> (exists open, wfN false open n) -> Filter lb n a z.
Proof.
  intros Hc _. revert lb n a z Hc.
  apply (comp_mind C ms Filter (fun lb l a z => 4 * zlen l <= UINT32_MAX -> FilterSeq lb l a z) FilterAlt).
  - intros lb a _ open _ fuel set E set' Hcol. right. split; [apply passes_empty|eauto].
  - intros. by eapply filter_leaf.
  - intros. by eapply filter_set.
  - intros. by eapply filter_repeat.
  - intros lb l a z _ Hs -> open [Hsz Hw] fuel set E set' Hcol. apply foldr_Forall in Hw.
    exact (Hs Hsz eq_refl open Hw _ _ _ _ Hcol).
  - intros. by eapply filter_opt.
  - intros. by eapply filter_alt.
  - intros. by eapply filter_look.
  - intros. by eapply filter_group.
  - intros. by eapply filter_strs.
  - intros. by eapply filter_strChars.
  - intros lb a _ _ open _ fuel set E set' Hcol. right. split; [|eauto].
    intros st r Hr. apply list_elem_of_singleton in Hr as ->. by left.
  - intros lb run rest index a z Hl HC Hm _ _ Hsz. eapply filterSeq_run; [done|done|done|].
    rewrite zlen_app in Hsz. unfold zlen in *. rewrite length_map in Hsz. lia.
  - intros lb n rest a b z _ Hn _ Hs Hsz. rewrite zlen_cons in Hsz.
    eapply filterSeq_cons; [exact Hn|apply Hs; lia].
  - intros. by eapply filterAlt_last.
  - intros. by eapply filterAlt_jump.
  - intros. by eapply filterAlt_skip.
Qed.

(** The whole program: a result of the pattern begins with a byte of the set, and
    no continuation byte is in the set. *)
Lemma firstBitSet_sound open n z st r :
  wfN false open n -> comp C ms false n 0 z -> C !! z = Some MatchIns ->
  createFirstBitSet C (z + 1) ms <> 0 -> r ∈ semF n st ->
  startsIn (createFirstBitSet C (z + 1) ms) st.
Proof.
  intros Hw Hc HM Hne Hr. unfold createFirstBitSet in *.
  destruct (collect _ C ms 0 0 (z + 1)) as [set'|] eqn:Hcol; [|done].
  destruct (filter_all false n 0 z Hc (ex_intro _ open Hw) eq_refl open Hw _ _ _ _ Hcol) as [Hs|[_ (f & s & Hcol')]].
  - by eapply Hs.
  - step_collect Hcol' HM. by apply collect_end in Hcol'.
Qed.

Lemma firstBitSet_lead size i : 0x80 <= i < 0xC0 -> Z.testbit (createFirstBitSet C size ms) i = false.
Proof.
  intros Hi. unfold createFirstBitSet.
  destruct (collect _ C ms 0 0 size) as [set'|] eqn:Hcol; [|apply Z.bits_0].
  apply collect_grown in Hcol as [_ Hg]. apply Hg; [done|apply Z.bits_0].
Qed.

(** ** The needle of the first instruction *)

Definition isNeedle (i : Inst) : bool :=
  match i with CharIns _ | StringIns _ => true | _ => false end.

(** The code points an instruction compares with. *)
Definition needleOf (i : Inst) (ys : list Z) : Prop :=
  match i with
  | CharIns c => ys = [c]
  | StringIns index => matcherAt ms index = Some (ofBytes (encodes ys))
  | _ => False
  end.

(** Every result of [f] begins with [ys]. *)
Definition beginsWith (ys : list Z) (f : St -> list St) : Prop :=
  forall st r, r ∈ f st -> take (length ys) (drop (pos st) cs) = ys.

Definition Needled (a : Z) (f : St -> list St) : Prop :=
  exists i ys, C !! a = Some i /\ needleOf i ys /\ ys <> [] /\ codePoints ys /\
    zlen (encodes ys) <= UINT32_MAX /\ beginsWith ys f.

Definition Needle (lb : bool) (n : Node) (a z : Z) : Prop :=
  lb = false -> forall open, wfN false open n -> forall i, C !! a = Some i -> isNeedle i = true ->
  Needled a (semF n) \/ a = z /\ forall st, semF n st = [st].

Definition NeedleSeq (lb : bool) (l : list Node) (a z : Z) : Prop :=
  lb = false -> forall open, Forall (wfN false open) l -> 4 * zlen l <= UINT32_MAX ->
  forall i, C !! a = Some i -> isNeedle i = true ->
  Needled a (seqM (map (fun x => semF x) l)) \/
  a = z /\ forall st, seqM (map (fun x => semF x) l) st = [st].

Lemma run_take run : forall st r, r ∈ seqM (map (fun x => semF x) (map CharNode run)) st ->
  take (length run) (drop (pos st) cs) = run.
Proof.
  induction run as [|c run IH]; intros st r Hr; [done|].
  cbn [map seqM sem] in Hr. apply elem_flat_map in Hr as (x & Hx & Hr).
  pose proof Hx as Hx'. apply testChar_first in Hx' as (d & Hd & Ht). apply Z.eqb_eq in Ht as ->.
  unfold testChar, curChar in Hx. rewrite Hd, Z.eqb_refl in Hx. apply list_elem_of_singleton in Hx as ->.
  apply IH in Hr. cbn [setPos pos] in Hr. rewrite (drop_S cs c _ Hd). cbn [length firstn].
  f_equal. by rewrite Nat.add_1_r in Hr.
Qed.

Lemma Needled_weaken a f g : Needled a f -> (forall st r, r ∈ g st -> exists x, x ∈ f st) -> Needled a g.
Proof.
  intros (i & ys & HC & Hn & Hne & Hcp & Hz & Hb) Hfg. exists i, ys. split_and!; try done.
  intros st r Hr. destruct (Hfg st r Hr) as [x Hx]. by eapply Hb.
Qed.

Lemma needle_leaf lb n i a z : leafIns lb n = Some i -> C !! a = Some i -> Needle lb n a z.
Proof.
  intros Hi HC -> open Hw i' HC' Hn. rewrite HC in HC'. injection HC' as <-.
  destruct n; cbn [leafIns] in Hi; simplify_eq.
  - by destruct (hasFlag modifier DOT_ALL).
  - left. eexists _, [codePoint]. split_and!; [exact HC|done|done|by repeat constructor| |].
    + pose proof (encode_pos codePoint Hw). cbn [encodes flat_map]. rewrite app_nil_r.
      unfold UINT32_MAX. lia.
    + intros st r Hr. apply (run_take [codePoint] st r). cbn [map seqM]. apply elem_flat_map.
      exists r. split; [exact Hr|by left].
  - by destruct type, (hasFlag modifier IGNORE_CASE).
  - by destruct ignoreCase.
Qed.

Lemma needle_seq_cons lb n rest a b z : Needle lb n a b -> NeedleSeq lb rest b z ->
  NeedleSeq lb (n :: rest) a z.
Proof.
  intros Hn Hrest Hlb open Hw Hz i HC Hi. apply Forall_cons in Hw as [Hwn Hwr]. rewrite zlen_cons in Hz.
  destruct (Hn Hlb open Hwn i HC Hi) as [Hs|[-> Hs]].
  - left. eapply Needled_weaken; [exact Hs|]. intros st r Hr. cbn [map seqM] in Hr.
    apply elem_flat_map in Hr as (x & Hx & _). eauto.
  - destruct (Hrest Hlb open Hwr ltac:(lia) i HC Hi) as [Hb|[-> Hb]]; [left|right; split; [done|]].
    + eapply Needled_weaken; [exact Hb|]. intros st r Hr. cbn [map seqM] in Hr. rewrite Hs in Hr.
      cbn in Hr. rewrite app_nil_r in Hr. eauto.
    + intros st. cbn [map seqM]. rewrite Hs. cbn. by rewrite app_nil_r.
Qed.

Lemma needle_seq_run (lb : bool) run rest index a z :
  (2 <= length run)%nat -> C !! a = Some (if lb then LBStringIns index else StringIns index) ->
  matcherAt ms index = Some (ofBytes (utf8OfRun (if lb then rev run else run))) ->
  NeedleSeq lb (map CharNode run ++ rest) a z.
Proof.
  intros Hl HC Hm -> open Hw Hz i HC' Hi. left. apply Forall_app in Hw as [Hw _].
  pose proof (chars_codePoints _ _ Hw) as Hcp. pose proof (encodes_bound run Hcp).
  rewrite zlen_app in Hz. pose proof (zlen_nonneg rest).
  assert (zlen (map CharNode run) = zlen run) as Hzr by (unfold zlen; by rewrite length_map).
  eexists _, run. split_and!; [exact HC|exact Hm|by intros ->; simpl in Hl; lia|done|lia|].
  intros st r Hr. rewrite map_app in Hr. apply seqM_split in Hr as [x Hx]. by eapply run_take.
Qed.

Lemma needle_all lb n a z : comp C ms lb n a z -> Needle lb n a z.
Proof.
  apply (comp_mind C ms Needle NeedleSeq (fun _ _ _ _ => True)); try done;
    try (intros * HC; intros; intros _ open _ i HC' Hi; rewrite HC in HC'; injection HC' as <-; done).
  - intros lb' a' _ open _ i _ _. by right.
  - intros. by eapply needle_leaf.
  - intros lb' s invert ic index a' z' _ HC _ _ open _ i HC' Hi. rewrite HC in HC'. injection HC' as <-.
    unfold setIns in Hi. by destruct lb', ic.
  - intros lb' l a' z' _ Hs -> open [Hz Hw] i HC Hi. apply foldr_Forall in Hw. by eapply Hs.
  - intros lb' l a' z' Hl Ha _ _ open _ i HC' Hi.
    inversion Ha as [? ? n1 a0 Hn|? ? n1 rest a0 e HC|? ? n1 a0 HC]; subst; [simpl in Hl; lia|..];
      rewrite HC in HC'; injection HC' as <-; done.
  - intros lb' i p a' e z' HC _ _ _ _ _ open _ i' HC' Hi. rewrite HC in HC'. by injection HC' as <-.
  - intros lb' emoji radix ic a' [HC _] -> open _ i HC' Hi. rewrite HC in HC'. by injection HC' as <-.
  - intros lb' emoji radix c ic a' z' [HC _] _ _ -> open _ i HC' Hi. rewrite HC in HC'. by injection HC' as <-.
  - intros lb' a' _ open _ _ i _ _. by right.
  - intros lb' run rest index a' z' Hl HC Hm _ _. by eapply needle_seq_run.
  - intros lb' n' rest a' b z' _ Hn _ Hs. by eapply needle_seq_cons.
Qed.

(** The needle of the whole program. *)
Lemma needle_sound open n z i :
  wfN false open n -> comp C ms false n 0 z -> C !! z = Some MatchIns ->
  C !! 0 = Some i -> isNeedle i = true -> Needled 0 (semF n).
Proof.
  intros Hw Hc HM HC Hi. destruct (needle_all _ _ _ _ Hc eq_refl open Hw i HC Hi) as [|[<- _]]; [done|].
  rewrite HC in HM. by injection HM as ->.
Qed.
End collect.
End RegexFirst.
