(* ===== verification/RegexSim.v ===== *)
(** The simulation: started on the code of a node, the virtual machine produces
    the results of the node one after the other, in order, each time it is made to
    backtrack, and finally gives back the stack it was started with.  The only
    other ends are the limits the machine reports. *)
From stdpp Require Import relations.
From S2P Require Import Prelude Unicode StringRef CodePointSet RegexMatcher RegexNode RegexInput.
From S2P Require Import RegexText RegexSpec RegexInst RegexEmit RegexLayout RegexVM RadixTree RadixPacked RegexStrings RegexCluster.

Module RegexSim.
Import UnicodeUtil RegexMatcher RegexNode RegexInput RegexText RegexSpec RegexInst RegexLayout RegexVM RegexStrings.

Section sim.
Context `{Ucd} `{Hlaws : !UcdLaws} (timer : option (nat -> TimerStatus)) (re : Regex) (isPrefilter : bool).
Context (cs : list Z) (Hcs : codePoints cs) (Hlen : zlen (encodes cs) <= INPUT_MAX).
(** The start of the attempt. *)
Context (o : Z).

Abbreviation C := (instSeq re).

(** ** Execution *)

Definition Config : Type := Label * VM * Search.

Definition stp (c : Config) : Result + Config :=
  let '(l, s, m) := c in step timer re isPrefilter l s m.

Definition reaches : Config -> Config -> Prop := rtc (fun c c' => stp c = inr c').

(** [c] reaches a configuration that behaves as [c']. *)
Definition leads (c c' : Config) : Prop := exists d, reaches c d /\ stp d = stp c'.

(** The limits: the stack always, the others with a timer only. *)
Definition isLimit (st : MatchStatus) : Prop :=
  st = STACK_LIMIT \/ timer <> None /\ (st = CANCEL \/ st = TIMEOUT).

Definition aborts (c : Config) : Prop :=
  exists d status s, reaches c d /\ stp d = inl (Finished status s) /\ isLimit status.

Lemma leads_refl c : leads c c.
Proof. exists c. split; [apply rtc_refl|done]. Qed.

Lemma leads_same c c' : stp c = stp c' -> leads c c'.
Proof. intros E. exists c. split; [apply rtc_refl|done]. Qed.

Lemma leads_step c c' : stp c = inr c' -> leads c c'.
Proof. intros E. exists c'. split; [by apply rtc_once|done]. Qed.

Lemma leads_trans a b c : leads a b -> leads b c -> leads a c.
Proof.
  intros (d & Hd & Ed) (e & He & Ee). inversion He as [|? b' ? Hb Hr]; subst.
  - exists d. split; [done|congruence].
  - exists e. split; [|done]. etrans; [exact Hd|]. eapply rtc_l; [|exact Hr]. congruence.
Qed.

Lemma leads_aborts c c' : leads c c' -> aborts c' -> aborts c.
Proof.
  intros (d & Hd & Ed) (e & status & s & He & Ee & Hl). inversion He as [|? b' ? Hb Hr]; subst.
  - exists d, status, s. split_and!; [done|congruence|done].
  - exists e, status, s. split_and!; [|done|done]. etrans; [exact Hd|]. eapply rtc_l; [|exact Hr]. congruence.
Qed.

Lemma aborts_now c status s : stp c = inl (Finished status s) -> isLimit status -> aborts c.
Proof. intros. exists c, status, s. split_and!; [apply rtc_refl|done|done]. Qed.

(** ** How the states correspond *)

Definition render (r : Range) : Capture :=
  match r with
  | None => unsetCapture
  | Some (a, b) => {| cap_offset := off cs a; cap_size := off cs b - off cs a |}
  end.

(** A group that is entered but not left: only the place it began at is known. *)
Definition anchored (lb : bool) (p : nat) (x : Capture) : Prop :=
  if lb then endOffset x = off cs p else cap_offset x = off cs p.

(** [O]: the open groups with their direction and start. *)
Definition capsRel (O : gmap nat (bool * nat)) (c : list Range) (vc : list Capture) : Prop :=
  length vc = length c /\
  forall i, match O !! i with
            | Some (lb, p) => exists x, vc !! i = Some x /\ anchored lb p x
            | None => vc !! i = render <$> c !! i
            end.

(** Equal loop states except for [J]. *)
Definition loopsEq (J : list nat) (l1 l2 : list LoopState) : Prop :=
  length l1 = length l2 /\ forall i, i ∉ J -> l1 !! i = l2 !! i.

Definition stackOk (s : VM) (K : list Backtrack) : Prop :=
  entries (bts s) = K /\ zlen K <= stackCap (bts s) /\ INIT_CAP <= stackCap (bts s).

Definition notLook (b : Backtrack) : Prop := match b with LookAround _ _ _ _ => False | _ => True end.

Fixpoint undoCaps (K : list Backtrack) (vc : list Capture) : list Capture :=
  match K with
  | [] => vc
  | SetCapture i x :: r => undoCaps r (set_ vc i x)
  | _ :: r => undoCaps r vc
  end.

(** The machine is about to backtrack into [K] in the state it had when [K] was
    the stack. *)
Definition failing (J : list nat) (O : gmap nat (bool * nat)) (K : list Backtrack)
    (c0 : list Range) (l0 : list LoopState) (s : VM) : Prop :=
  stackOk s K /\ text (input s) = encodes cs /\ capsRel O c0 (captures s) /\
  loopsEq J (loopStates s) l0.

(** The machine is about to execute [a] in the state [st]. *)
Definition running (O : gmap nat (bool * nat)) (K : list Backtrack) (st : St) (a : Z) (s : VM) : Prop :=
  inst s = a /\ input s = at_off cs (pos st) /\ stackOk s K /\ capsRel O (caps st) (captures s).

(** [Yield rs c]: from [c] the machine arrives at [z] with each of [rs] in turn.
    [J]: the loops whose state does not matter, [A]: the loops that may change. *)
Inductive Yield (z : Z) (J A : list nat) (O : gmap nat (bool * nat)) (K : list Backtrack)
    (c0 : list Range) (l0 : list LoopState) : list St -> Config -> Prop :=
| Y_abort rs c : aborts c -> Yield z J A O K c0 l0 rs c
| Y_nil c s m :
    leads c (BACKTRACK, s, m) -> oldIter m = o -> failing J O K c0 l0 s ->
    Yield z J A O K c0 l0 [] c
| Y_cons r rs c s m K1 :
    leads c (DISPATCH, s, m) -> oldIter m = o -> running O (K1 ++ K) r z s ->
    loopsEq (A ++ J) (loopStates s) l0 -> Forall notLook K1 ->
    (forall vc, capsRel O (caps r) vc -> capsRel O c0 (undoCaps K1 vc)) ->
    (forall s' m', oldIter m' = o -> failing J O (K1 ++ K) (caps r) (loopStates s) s' ->
       Yield z J A O K c0 l0 rs (BACKTRACK, s', m')) ->
    Yield z J A O K c0 l0 (r :: rs) c.

Lemma undoCaps_app K1 K2 vc : undoCaps (K1 ++ K2) vc = undoCaps K2 (undoCaps K1 vc).
Proof. revert vc. induction K1 as [|b K1 IH]; intros vc; [done|]. destruct b; cbn; apply IH. Qed.

Lemma loopsEq_refl J l : loopsEq J l l.
Proof. done. Qed.

Lemma loopsEq_trans J l1 l2 l3 : loopsEq J l1 l2 -> loopsEq J l2 l3 -> loopsEq J l1 l3.
Proof. intros [H1 H2] [K1 K2]. split; [congruence|]. intros i Hi. by rewrite H2, K2. Qed.

Lemma loopsEq_sym J l1 l2 : loopsEq J l1 l2 -> loopsEq J l2 l1.
Proof. intros [H1 H2]. split; [done|]. intros i Hi. by rewrite H2. Qed.

Lemma loopsEq_weaken J J' l1 l2 : loopsEq J l1 l2 -> (forall i, i ∈ J -> i ∈ J') -> loopsEq J' l1 l2.
Proof. intros [H1 H2] HJ. split; [done|]. intros i Hi. apply H2. auto. Qed.

Lemma loopsEq_insert J i x l : i ∈ J -> loopsEq J (<[i := x]> l) l.
Proof.
  intros Hi. split; [by rewrite length_insert|]. intros j Hj.
  apply list_lookup_insert_ne. by intros ->.
Qed.

Lemma Yield_leads z J A O K c0 l0 rs c c' :
  leads c c' -> Yield z J A O K c0 l0 rs c' -> Yield z J A O K c0 l0 rs c.
Proof.
  intros Hl Hy. destruct Hy as [rs c' Ha|c' s m Hl'|r rs c' s m K1 Hl'].
  - apply Y_abort. by eapply leads_aborts.
  - eapply Y_nil; [by eapply leads_trans|done|done].
  - eapply Y_cons; [by eapply leads_trans|done..].
Qed.

(** The results above a part [K2] of the stack, then what follows when the machine
    backtracks into [K2]. *)
Lemma Yield_app z J A1 A O K K2 c0 c1 l0 l1 rs1 rs2 c :
  Yield z J A1 O (K2 ++ K) c1 l1 rs1 c ->
  (forall i, i ∈ A1 -> i ∈ A) -> Forall notLook K2 ->
  (forall vc, capsRel O c1 vc -> capsRel O c0 (undoCaps K2 vc)) ->
  loopsEq (A ++ J) l1 l0 ->
  (forall s m, oldIter m = o -> failing J O (K2 ++ K) c1 l1 s ->
     Yield z J A O K c0 l0 rs2 (BACKTRACK, s, m)) ->
  Yield z J A O K c0 l0 (rs1 ++ rs2) c.
Proof.
  intros Hy HA HK Hc Hl Hrest. induction Hy as [rs c Ha|c s m Hlead Ho Hf|r rs c s m K1 Hlead Ho Hr Hls HK1 Hu Hcont IH].
  - by apply Y_abort.
  - eapply Yield_leads; [done|]. by apply Hrest.
  - cbn [app]. eapply (Y_cons _ _ _ _ _ _ _ _ _ _ s m (K1 ++ K2)); [done|done| | | | |].
    + by rewrite <- app_assoc.
    + eapply loopsEq_trans; [|exact Hl]. eapply loopsEq_weaken; [exact Hls|].
      intros i. rewrite !elem_of_app. naive_solver.
    + by apply Forall_app.
    + intros vc Hvc. rewrite undoCaps_app. by apply Hc, Hu.
    + intros s' m' Ho' Hf. rewrite <- app_assoc in Hf. by apply IH.
Qed.

(** Each result is the start of another part of the code. *)
Lemma Yield_bind z1 z2 J A1 A2 A O K c0 l0 rs f c :
  Yield z1 J A1 O K c0 l0 rs c ->
  (forall i, i ∈ A1 -> i ∈ A) -> (forall i, i ∈ A2 -> i ∈ A) ->
  (forall r s m K', r ∈ rs -> oldIter m = o -> running O K' r z1 s ->
     loopsEq (A1 ++ J) (loopStates s) l0 ->
     Yield z2 J A2 O K' (caps r) (loopStates s) (f r) (DISPATCH, s, m)) ->
  Yield z2 J A O K c0 l0 (flat_map f rs) c.
Proof.
  intros Hy H1 H2 Hf. induction Hy as [rs c Ha|c s m Hlead Ho Hfail|r rs c s m K1 Hlead Ho Hr Hls HK1 Hu Hcont IH].
  - by apply Y_abort.
  - by eapply Y_nil.
  - cbn [flat_map]. eapply Yield_leads; [done|].
    eapply (Yield_app _ _ A2 _ _ _ K1); [apply Hf; [by left|done|done|done]|done|done|done| |].
    + eapply loopsEq_weaken; [exact Hls|]. intros i. rewrite !elem_of_app. naive_solver.
    + intros s' m' Ho' Hfail. apply IH; [done|done|]. intros r' s'' m'' K' Hr'. apply Hf. by right.
Qed.

Lemma Yield_weaken z J A1 A O K c0 l0 rs c :
  Yield z J A1 O K c0 l0 rs c -> (forall i, i ∈ A1 -> i ∈ A) -> Yield z J A O K c0 l0 rs c.
Proof.
  intros Hy HA. rewrite <- (app_nil_r rs).
  eapply (Yield_app _ _ A1 A _ K [] c0 c0 l0 l0); [exact Hy|done|constructor|done|done|].
  intros s m Ho Hf. eapply Y_nil; [apply leads_refl|done|done].
Qed.

Lemma Yield_one z J A O K st s m :
  oldIter m = o -> running O K st z s ->
  Yield z J A O K (caps st) (loopStates s) [st] (DISPATCH, s, m).
Proof.
  intros Ho Hr. eapply (Y_cons _ _ _ _ _ _ _ _ _ _ s m []); [apply leads_refl|done|done|done|constructor|done|].
  intros s' m' Ho' Hf. eapply Y_nil; [apply leads_refl|done|done].
Qed.

(** ** Single steps *)

(** The transition an outcome stands for. *)
Definition outc (x : Outcome) (m : Search) : Result + Config :=
  match x with
  | Next s => inr (DISPATCH, s, m)
  | Back s => inr (BACKTRACK, s, m)
  | Return status s => inl (Finished status s)
  | Stuck => inl Undefined
  end.

Lemma stp_dispatch s m i :
  C !! inst s = Some i -> stp (DISPATCH, s, m) = outc (execInst re (oldIter m) s i) m.
Proof. intros E. cbn. rewrite E. by destruct (execInst _ _ _ _). Qed.

Lemma Yield_next z J A O K c0 l0 rs c s m :
  stp c = outc (Next s) m -> Yield z J A O K c0 l0 rs (DISPATCH, s, m) -> Yield z J A O K c0 l0 rs c.
Proof. intros E. by apply Yield_leads, leads_step. Qed.

Lemma Yield_back z J A O K c0 l0 c s m :
  stp c = outc (Back s) m -> oldIter m = o -> failing J O K c0 l0 s -> Yield z J A O K c0 l0 [] c.
Proof. intros E. by apply Y_nil, leads_step. Qed.

Lemma push_ok s b K b' : stackOk s K -> push (bts s) b = Some b' -> stackOk (setBts s b') (b :: K).
Proof.
  intros (He & Hc & Hi) Hp. unfold push in Hp. rewrite He in Hp. pose proof (zlen_nonneg K).
  unfold stackOk, INIT_CAP in *. cbn [setBts bts]. rewrite zlen_cons.
  destruct (Z.eqb_spec (zlen K) (stackCap (bts s))).
  - destruct (zlen K =? computeMaxStackCap); [done|]. simplify_eq. cbn [entries stackCap].
    rewrite Z.shiftr_div_pow2 by lia. change (2 ^ 1) with 2.
    pose proof (Z.div_le_lower_bound (stackCap (bts s)) 2 3 ltac:(lia) ltac:(lia)). split_and!; (done || lia).
  - simplify_eq. cbn [entries stackCap]. split_and!; (done || lia).
Qed.

(** A push into the place of a popped entry succeeds. *)
Lemma pushNeverFail_ok cap b K :
  1 + zlen K <= cap ->
  pushNeverFail {| entries := K; stackCap := cap |} b = {| entries := b :: K; stackCap := cap |}.
Proof.
  intros Hc. unfold pushNeverFail, push. cbn [entries stackCap].
  by destruct (Z.eqb_spec (zlen K) cap); [lia|].
Qed.

Lemma Yield_push z J A O K0 c0 l0 rs c s bt k m K :
  stp c = outc (tryPush s bt k) m -> stackOk s K ->
  (forall b, stackOk (setBts s b) (bt :: K) -> forall c', stp c' = outc (k (setBts s b)) m ->
     Yield z J A O K0 c0 l0 rs c') ->
  Yield z J A O K0 c0 l0 rs c.
Proof.
  intros E HK Hk. unfold tryPush in E. destruct (push (bts s) bt) as [b|] eqn:Ep.
  - by apply (Hk b); [eapply push_ok|].
  - apply Y_abort. eapply aborts_now; [exact E|by left].
Qed.

(** ** Backtracking *)

Fixpoint undoLoops (K : list Backtrack) (l : list LoopState) : list LoopState :=
  match K with
  | [] => l
  | SetLoopState i x :: r => undoLoops r (set_ l i x)
  | _ :: r => undoLoops r l
  end.

(** Entries that only restore. *)
Definition isTrail (b : Backtrack) : Prop :=
  match b with SetCapture _ _ | SetLoopState _ _ | RadixState _ => True | _ => False end.

Lemma trail_notLook K : Forall isTrail K -> Forall notLook K.
Proof. intros HK. eapply Forall_impl; [exact HK|]. by intros []. Qed.

Lemma backtrackLoop_bts l : forall s e,
  backtrackLoop l (setBts s {| entries := e; stackCap := stackCap (bts s) |}) = backtrackLoop l s.
Proof.
  induction l as [|b l IH]; intros s e; [done|]. destruct b; cbn [backtrackLoop]; try done.
  - apply (IH (setCaptures s (set_ (captures s) index capture))).
  - apply (IH (setLoops s (set_ (loopStates s) index state))).
Qed.

Definition undone (K2 K : list Backtrack) (s : VM) : VM := {|
  inst := inst s; input := input s; captures := undoCaps K2 (captures s);
  loopStates := undoLoops K2 (loopStates s);
  bts := {| entries := K; stackCap := stackCap (bts s) |}
|}.

Lemma backtrack_trail K2 K s : Forall isTrail K2 -> entries (bts s) = K2 ++ K ->
  backtrack s = backtrack (undone K2 K s).
Proof.
  intros HK He. unfold backtrack. rewrite He. cbn [undone bts entries].
  assert (forall s0, captures s0 = captures s -> loopStates s0 = loopStates s -> inst s0 = inst s ->
    input s0 = input s -> stackCap (bts s0) = stackCap (bts s) ->
    backtrackLoop (K2 ++ K) s0 = backtrackLoop K (undone K2 K s)) as Hall; [|by apply Hall].
  clear He. revert s. induction HK as [|b K2 Hb _ IH]; intros s s0 Hcs0 Hls Hin Hi Hst; cbn [app].
  - rewrite <- (backtrackLoop_bts K s0 K). f_equal. unfold setBts, undone. cbn. by rewrite Hcs0, Hls, Hin, Hi, Hst.
  - destruct b; try done; cbn [backtrackLoop].
    + rewrite (IH (setCaptures s (set_ (captures s) index capture))); cbn; try done. by rewrite Hcs0.
    + rewrite (IH (setLoops s (set_ (loopStates s) index state))); cbn; try done. by rewrite Hls.
    + by rewrite (IH s).
Qed.

Lemma stp_trail K2 K s m : Forall isTrail K2 -> entries (bts s) = K2 ++ K ->
  stp (BACKTRACK, s, m) = stp (BACKTRACK, undone K2 K s, m).
Proof. intros HK He. cbn. by rewrite (backtrack_trail K2 K). Qed.

Lemma undone_stack K2 K s : stackOk s (K2 ++ K) -> stackOk (undone K2 K s) K.
Proof.
  intros (He & Hc & Hi). unfold stackOk, undone. cbn. rewrite zlen_app in Hc.
  pose proof (zlen_nonneg K2). split_and!; (done || lia).
Qed.

Lemma Yield_resume z J A O K c0 l0 rs s s' m :
  backtrack s = Resumed s' -> oldIter m = o ->
  (forall m', oldIter m' = o -> Yield z J A O K c0 l0 rs (DISPATCH, s', m')) ->
  Yield z J A O K c0 l0 rs (BACKTRACK, s, m).
Proof.
  intros Hb Ho Hk.
  assert (stp (BACKTRACK, s, m) = match countBacktrack timer m with
            | inr m' => inr (DISPATCH, s', m') | inl status => inl (Finished status s') end) as E
    by (cbn; by rewrite Hb).
  destruct (countBacktrack timer m) as [status|m'] eqn:Ec; unfold countBacktrack in Ec.
  - apply Y_abort. eapply aborts_now; [exact E|]. unfold isLimit, timerStatus in *.
    repeat case_in Ec; simplify_eq; (right; split; [by destruct timer|auto]).
  - eapply Yield_leads; [by apply leads_step|]. apply Hk. repeat case_in Ec; simplify_eq; done.
Qed.

(** Backtracking into an alternative that was set aside. *)
Lemma Yield_setIns z J A O K K' c0 l0 rs s m c1 l1 t st :
  failing J O (SetIns t (off cs (pos st)) :: K') c1 l1 s -> oldIter m = o -> caps st = c1 ->
  (forall s' m', oldIter m' = o -> running O K' st t s' -> loopsEq J (loopStates s') l1 ->
     Yield z J A O K c0 l0 rs (DISPATCH, s', m')) ->
  Yield z J A O K c0 l0 rs (BACKTRACK, s, m).
Proof.
  intros (Hs & Ht & Hc & Hl) Ho <- Hk. pose proof Hs as (He & Hcap & Hi).
  eapply Yield_resume; [unfold backtrack; by rewrite He|done|]. intros m' Ho'. apply Hk; [done| |done].
  split_and!; [done| |split_and!; [done| |done]|done]; cbn.
  - unfold setIter, at_off. by rewrite Ht.
  - rewrite zlen_cons in Hcap. lia.
Qed.

(** ** Nodes without children *)

Lemma Yield_result z J A O K st s r s' m c :
  stp c = outc (Next s') m -> oldIter m = o -> caps r = caps st -> loopStates s' = loopStates s ->
  running O K r z s' -> Yield z J A O K (caps st) (loopStates s) [r] c.
Proof.
  intros E Ho <- <- Hr. eapply Yield_next; [exact E|]. by apply Yield_one.
Qed.

Lemma Yield_none z J A O K st s s' m c a :
  stp c = outc (Back s') m -> oldIter m = o -> running O K st a s ->
  text (input s') = encodes cs -> bts s' = bts s -> captures s' = captures s ->
  loopStates s' = loopStates s -> Yield z J A O K (caps st) (loopStates s) [] c.
Proof.
  intros E Ho (_ & _ & Hs & Hc) Ht Hb Hcs' Hls. eapply Yield_back; [exact E|done|].
  unfold failing, stackOk in *. rewrite Hb, Hcs', Hls. by split_and!; [apply Hs..| | |].
Qed.

Lemma off_u32 k : u32 (off cs k) = off cs k.
Proof.
  pose proof (off_range cs k). change INPUT_MAX with 4294967295 in Hlen.
  apply wrap_small. unfold in_unsigned. change (2 ^ 32) with 4294967296. lia.
Qed.

Lemma getOffset_off k : getOffset (at_off cs k) = off cs k.
Proof. apply off_u32. Qed.

Lemma running_advance O K st r s i a :
  running O K st a s -> caps r = caps st ->
  running O K r (a + sizeOfInst i) (advance (setInput s (at_off cs (pos r))) i).
Proof. intros (<- & Hi & Hs & Hc) Hr. split_and!; [done|done|done|by rewrite Hr]. Qed.

Lemma sim_forward z J A O K st s m c a i test test' :
  stp c = outc (execForward s i test') m -> oldIter m = o -> running O K st a s ->
  (pos st <= length cs)%nat -> (forall d, test d = test' d) -> z = a + sizeOfInst i ->
  Yield z J A O K (caps st) (loopStates s) (testChar cs false test st) c.
Proof.
  intros E Ho Hr Hp Ht ->. pose proof Hr as (Ha & Hi & Hs & Hc).
  unfold execForward in E. rewrite Hi, available_off in E by done.
  unfold testChar, curChar. destruct (cs !! pos st) as [d|] eqn:Ed.
  - rewrite bool_decide_true in E by (by eapply lookup_lt_Some).
    rewrite (forward_off cs Hcs (pos st) d Ed) in E. rewrite Ht. unfold orBack in E.
    destruct (test' d).
    + eapply Yield_result; [exact E|done|done|done|]. rewrite Nat.add_1_r.
      by apply (running_advance O K st (setPos st (S (pos st)))).
    + by eapply Yield_none.
  - rewrite bool_decide_false in E by (apply lookup_ge_None in Ed; lia).
    eapply Yield_none; [exact E|done|exact Hr|by rewrite Hi|done..].
Qed.

Lemma sim_backward z J A O K st s m c a i test test' :
  stp c = outc (execBackward s i test') m -> oldIter m = o -> running O K st a s ->
  (pos st <= length cs)%nat -> (forall d, test d = test' d) -> z = a + sizeOfInst i ->
  Yield z J A O K (caps st) (loopStates s) (testChar cs true test st) c.
Proof.
  intros E Ho Hr Hp Ht ->. pose proof Hr as (Ha & Hi & Hs & Hc).
  unfold execBackward in E. rewrite Hi, availableBackward_off in E by done.
  unfold testChar, prevChar. destruct (pos st) as [|k] eqn:Ek.
  - rewrite bool_decide_false in E by lia.
    eapply Yield_none; [exact E|done|exact Hr|by rewrite Hi|done..].
  - rewrite bool_decide_true in E by lia.
    destruct (lookup_lt_is_Some_2 cs k) as [d Ed]; [lia|]. rewrite Ed.
    rewrite (backward_off cs k d Hcs Ed) in E. rewrite Ht. unfold orBack in E.
    destruct (test' d).
    + eapply Yield_result; [exact E|done|done|done|].
      replace (S k - 1)%nat with k by lia.
      by apply (running_advance O K st (setPos st k)).
    + by eapply Yield_none.
Qed.

(** The string tests. *)
Definition forwardMatch (ys : list Z) (st : St) : list St :=
  if bool_decide (take (length ys) (drop (pos st) cs) = ys)
  then [setPos st (pos st + length ys)] else [].
Definition backwardMatch (ys : list Z) (st : St) : list St :=
  if bool_decide (length ys <= pos st /\ drop (pos st - length ys) (take (pos st) cs) = ys)%nat
  then [setPos st (pos st - length ys)] else [].

Lemma sim_expectForward z J A O K st s m c a i ys :
  stp c = outc (execExpect s i (expectForward (input s) (encodes ys))) m -> oldIter m = o ->
  running O K st a s -> (pos st <= length cs)%nat -> codePoints ys -> z = a + sizeOfInst i ->
  Yield z J A O K (caps st) (loopStates s) (forwardMatch ys st) c.
Proof.
  intros E Ho Hr Hp Hy ->. pose proof Hr as (Ha & Hi & Hs & Hc).
  rewrite Hi, expectForward_off in E by done. unfold forwardMatch. case_on; cbn [execExpect] in E.
  - eapply Yield_result; [exact E|done|done|done|].
    by apply (running_advance O K st (setPos st (pos st + length ys))).
  - eapply Yield_none; [exact E|done|exact Hr|by rewrite Hi|done..].
Qed.

Lemma sim_expectBackward z J A O K st s m c a i ys :
  stp c = outc (execExpect s i (expectBackward (input s) (encodes ys))) m -> oldIter m = o ->
  running O K st a s -> (pos st <= length cs)%nat -> codePoints ys -> z = a + sizeOfInst i ->
  Yield z J A O K (caps st) (loopStates s) (backwardMatch ys st) c.
Proof.
  intros E Ho Hr Hp Hy ->. pose proof Hr as (Ha & Hi & Hs & Hc).
  rewrite Hi, expectBackward_off in E by done. unfold backwardMatch. case_on; cbn [execExpect] in E.
  - eapply Yield_result; [exact E|done|done|done|].
    by apply (running_advance O K st (setPos st (pos st - length ys))).
  - eapply Yield_none; [exact E|done|exact Hr|by rewrite Hi|done..].
Qed.

(** Assertions. *)
Lemma sim_check z J A O K st s m c a i b :
  stp c = outc (orBack b s (advance s i)) m -> oldIter m = o ->
  running O K st a s -> z = a + sizeOfInst i ->
  Yield z J A O K (caps st) (loopStates s) (check b st) c.
Proof.
  intros E Ho Hr ->. pose proof Hr as (Ha & Hi & Hs & Hc). unfold check. destruct b; cbn [orBack] in E.
  - eapply Yield_result; [exact E|done|done|done|]. by split_and!; [rewrite <- Ha|..].
  - eapply Yield_none; [exact E|done|exact Hr|by rewrite Hi|done..].
Qed.

Lemma prev_char st : (pos st <= length cs)%nat -> (pos st <> 0)%nat ->
  prevChar cs st = Some (prev (at_off cs (pos st))).
Proof.
  intros Hp H0. unfold prevChar. destruct (pos st) as [|k]; [done|].
  destruct (lookup_lt_is_Some_2 cs k) as [d Ed]; [lia|]. by rewrite Ed, (prev_cursor cs k d Hcs Ed).
Qed.

Lemma cur_char st : (pos st <= length cs)%nat -> (pos st <> length cs)%nat ->
  curChar cs st = Some (cur (at_off cs (pos st))).
Proof.
  intros Hp H0. unfold curChar.
  destruct (lookup_lt_is_Some_2 cs (pos st)) as [d Ed]; [lia|]. by rewrite Ed, (cur_off cs Hcs _ d Ed).
Qed.

Lemma prev_none st : pos st = O -> prevChar cs st = None.
Proof. unfold prevChar. by intros ->. Qed.
Lemma cur_none st : pos st = length cs -> curChar cs st = None.
Proof. intros Hp. unfold curChar. apply lookup_ge_None. lia. Qed.

Lemma atEdge_prev st multiline : (pos st <= length cs)%nat ->
  isBegin (at_off cs (pos st)) || (multiline && isLineTerminator (prev (at_off cs (pos st)))) =
  atEdge multiline (prevChar cs st).
Proof.
  intros Hp. rewrite isBegin_off by done. destruct (Nat.eqb_spec (pos st) 0).
  - by rewrite prev_none.
  - by rewrite prev_char.
Qed.

Lemma atEdge_cur st multiline : (pos st <= length cs)%nat ->
  isEnd (at_off cs (pos st)) || (multiline && isLineTerminator (cur (at_off cs (pos st)))) =
  atEdge multiline (curChar cs st).
Proof.
  intros Hp. rewrite isEnd_off by done. destruct (Nat.eqb_spec (pos st) (length cs)).
  - by rewrite cur_none.
  - by rewrite cur_char.
Qed.

Lemma word_prev st isW : (pos st <= length cs)%nat ->
  negb (isBegin (at_off cs (pos st))) && isW (prev (at_off cs (pos st))) = wordChar isW (prevChar cs st).
Proof.
  intros Hp. rewrite isBegin_off by done. destruct (Nat.eqb_spec (pos st) 0).
  - by rewrite prev_none.
  - by rewrite prev_char.
Qed.

Lemma word_cur st isW : (pos st <= length cs)%nat ->
  negb (isEnd (at_off cs (pos st))) && isW (cur (at_off cs (pos st))) = wordChar isW (curChar cs st).
Proof.
  intros Hp. rewrite isEnd_off by done. destruct (Nat.eqb_spec (pos st) (length cs)).
  - by rewrite cur_none.
  - by rewrite cur_char.
Qed.

(** *** Back references *)

Lemma render_unset r : (forall a b, r = Some (a, b) -> (a <= b <= length cs)%nat) ->
  isUnset (render r) = match r with None => true | Some _ => false end.
Proof.
  intros Hr. destruct r as [[a b]|]; [|done]. specialize (Hr a b eq_refl).
  unfold isUnset, render. cbn [cap_offset cap_size]. change UINT32_MAX with 4294967295.
  change INPUT_MAX with 4294967295 in Hlen.
  pose proof (off_range cs a). pose proof (off_range cs b). pose proof (off_mono cs a b ltac:(lia)).
  destruct (Z.eqb_spec (off cs a) 4294967295), (Z.eqb_spec (off cs b - off cs a) 4294967295); (done || lia).
Qed.

Lemma capsRel_lookup O c vc i : capsRel O c vc -> O !! i = None -> vc !! i = render <$> c !! i.
Proof. intros [_ Hc] Hi. specialize (Hc i). by rewrite Hi in Hc. Qed.

Lemma rangesOk_at c i r : rangesOk cs c -> c !! i = Some r ->
  forall a b, r = Some (a, b) -> (a <= b <= length cs)%nat.
Proof. intros Hc Hi a b ->. by eapply Hc. Qed.

Lemma captureAt_spec O c vc i :
  capsRel O c vc -> 0 <= i -> i < zlen c -> O !! Z.to_nat i = None ->
  exists r, c !! Z.to_nat i = Some r /\ captureAt vc i = Some (render r).
Proof.
  intros Hc H0 Hi HO. destruct (lookup_lt_is_Some_2 c (Z.to_nat i)) as [r Hr]; [unfold zlen in Hi; lia|].
  exists r. split; [done|]. unfold captureAt. destruct (Z.ltb_spec i 0); [lia|].
  by rewrite (capsRel_lookup _ _ _ _ Hc HO), Hr.
Qed.

Lemma firstValid_spec O c vc l :
  capsRel O c vc -> rangesOk cs c -> Forall (fun i => 0 <= i) l ->
  Forall (fun i => Z.of_nat i < zlen c /\ O !! i = None) (map Z.to_nat l) ->
  firstValid l vc = Some (render (firstSet (map Z.to_nat l) c)).
Proof.
  intros Hc Hok Hl. induction Hl as [|i l Hi Hl IH]; intros Hb; [done|].
  cbn [map] in Hb. inversion_clear Hb as [|? ? [Hlt HO] Hb'].
  destruct (captureAt_spec O c vc i Hc Hi ltac:(lia) HO) as (r & Hr & Hat).
  cbn [firstValid map firstSet]. rewrite Hat. cbn [mbind option_bind].
  rewrite render_unset by (by eapply rangesOk_at). rewrite Hr. destruct r; [done|by apply IH].
Qed.

Definition entriesOk : Prop :=
  Forall (fun e => Forall (fun i => 0 <= i) (entryIndices (snd e))) (named re).

Lemma resolve_spec O c vc isNamed index l :
  capsRel O c vc -> rangesOk cs c -> entriesOk -> 0 <= index <= UINT16_MAX ->
  refIndices (named re) isNamed index = Some l ->
  Forall (fun i => Z.of_nat i < zlen c /\ O !! i = None) l ->
  resolveBackRef (named re) vc (u16 index) isNamed = Some (render (firstSet l c)).
Proof.
  intros Hc Hok He Hi Hl Hb.
  rewrite wrap_small by (unfold in_unsigned, UINT16_MAX in *; change (2 ^ 16) with 65536; lia).
  unfold refIndices, resolveBackRef in *. destruct isNamed.
  - unfold findByIndex in *. case_in Hl; [|done].
    destruct (named re !! Z.to_nat index) as [e|] eqn:En; [|done]. cbn in Hl |- *.
    pose proof (proj1 (Forall_lookup _ _) He _ _ En) as Hen.
    cbn beta in Hen. destruct e as [nm e]. cbn [snd] in *. destruct e as [i|il]; simplify_eq; cbn [findValidNamedCapture entryIndices] in *.
    + apply Forall_cons in Hen as [Hi0 _]. apply Forall_cons in Hb as [[Hlt HO] _].
      destruct (captureAt_spec O c vc i Hc Hi0 ltac:(lia) HO) as (r & Hr & ->).
      cbn [firstSet]. rewrite Hr. by destruct r.
    + by eapply firstValid_spec.
  - simplify_eq. inversion_clear Hb as [|? ? [Hlt HO] _].
    destruct (captureAt_spec O c vc index Hc ltac:(lia) ltac:(lia) HO) as (r & Hr & ->).
    cbn [firstSet]. rewrite Hr. by destruct r.
Qed.

(** The code points of a range. *)
Definition rangeText (a b : nat) : list Z := take (b - a) (drop a cs).

Lemma captureText_spec k a b : (a <= b)%nat ->
  captureText (at_off cs k) (render (Some (a, b))) = encodes (rangeText a b).
Proof. intros Hab. unfold captureText. cbn. by apply slice_off. Qed.

Lemma rangeText_length a b : (a <= b <= length cs)%nat -> length (rangeText a b) = (b - a)%nat.
Proof. intros. unfold rangeText. rewrite length_take, length_drop. lia. Qed.

Abbreviation fold := doSimpleCaseFolding.

Lemma foldForward_spec fuel : forall a b k,
  (a <= b <= length cs)%nat -> (k <= length cs)%nat -> off cs b - off cs a < Z.of_nat fuel ->
  exists i, text i = encodes cs /\
    foldForward fuel (off cs a) (off cs b) (at_off cs k) =
    (if bool_decide (map fold (take (b - a) (drop k cs)) = map fold (rangeText a b))
     then Some (at_off cs (k + (b - a))) else None, i).
Proof.
  induction fuel as [|fuel IH]; intros a b k Hab Hk Hf;
    [pose proof (off_mono cs a b ltac:(lia)); lia|].
  cbn [foldForward]. destruct (Z.eqb_spec (off cs a) (off cs b)) as [E|E].
  { apply off_eq in E as ->; [|done|lia|lia]. exists (at_off cs k). split; [done|].
    unfold rangeText. rewrite Nat.sub_diag. cbn. by rewrite Nat.add_0_r. }
  assert (a < b)%nat as Hlt by (destruct (decide (a = b)); [by subst|lia]).
  rewrite available_off by done. unfold rangeText.
  destruct (lookup_lt_is_Some_2 cs a) as [c Hc]; [lia|].
  replace (b - a)%nat with (S (b - S a)) by lia.
  rewrite (drop_S cs c a Hc). cbn [firstn map].
  destruct (decide (k < length cs)%nat) as [Hkl|Hkl].
  2: { rewrite bool_decide_false by done. exists (at_off cs k). split; [done|].
       rewrite drop_ge by lia. cbn. done. }
  rewrite bool_decide_true by done.
  destruct (lookup_lt_is_Some_2 cs k) as [d Hd]; [lia|].
  rewrite (forward_off cs Hcs k d Hd). cbn [text at_off]. rewrite (next_off cs Hcs a c Hc).
  rewrite (drop_S cs d k Hd). cbn [firstn map].
  pose proof (off_strict cs Hcs a (S a) ltac:(lia)).
  destruct (IH (S a) b (S k)) as (i & Hi & Hs); [lia|lia|lia|].
  destruct (Z.eqb_spec (fold c) (fold d)) as [Ef|Ef].
  - exists i. split; [done|]. rewrite Hs. rewrite Ef.
    unfold rangeText. replace (S k + (b - S a))%nat with (k + S (b - S a))%nat by lia.
    repeat case_bool_decide; congruence.
  - exists (at_off cs (S k)). split; [done|]. rewrite bool_decide_false; [done|]. congruence.
Qed.

Lemma take_range_last a b c : (a < b)%nat -> cs !! (b - 1)%nat = Some c ->
  take (b - a) (drop a cs) = take (b - 1 - a) (drop a cs) ++ [c].
Proof.
  intros Hab Hc. replace (b - a)%nat with (S (b - 1 - a)) by lia.
  apply take_S_r. rewrite lookup_drop. rewrite <- Hc. f_equal. lia.
Qed.

Lemma drop_take_last k n d : (0 < n <= k)%nat -> cs !! (k - 1)%nat = Some d ->
  drop (k - n) (take k cs) = drop (k - 1 - (n - 1)) (take (k - 1) cs) ++ [d].
Proof.
  intros Hn Hd. pose proof (lookup_lt_Some _ _ _ Hd).
  replace k with (S (k - 1)) at 2 by lia. rewrite (take_S_r _ _ _ Hd).
  rewrite drop_app_le by (rewrite length_take; lia). do 2 f_equal. lia.
Qed.

Lemma foldBackward_spec fuel : forall a b k,
  (a <= b <= length cs)%nat -> (k <= length cs)%nat -> off cs b - off cs a < Z.of_nat fuel ->
  exists i, text i = encodes cs /\
    foldBackward fuel (off cs a) (off cs b) (at_off cs k) =
    (if bool_decide (b - a <= k)%nat &&
        bool_decide (map fold (drop (k - (b - a)) (take k cs)) = map fold (rangeText a b))
     then Some (at_off cs (k - (b - a))) else None, i).
Proof.
  induction fuel as [|fuel IH]; intros a b k Hab Hk Hf;
    [pose proof (off_mono cs a b ltac:(lia)); lia|].
  cbn [foldBackward]. destruct (Z.eqb_spec (off cs b) (off cs a)) as [E|E].
  { apply off_eq in E as ->; [|done|lia|lia]. exists (at_off cs k). split; [done|].
    unfold rangeText. rewrite Nat.sub_diag, Nat.sub_0_r. cbn.
    rewrite drop_ge by (rewrite length_take; lia). cbn. done. }
  assert (a < b)%nat as Hlt by (destruct (decide (a = b)); [by subst|lia]).
  rewrite availableBackward_off by done.
  destruct (decide (0 < k)%nat) as [Hk0|Hk0].
  2: { rewrite bool_decide_false by done. exists (at_off cs k). split; [done|].
       rewrite bool_decide_false by lia. done. }
  rewrite bool_decide_true by done.
  destruct (lookup_lt_is_Some_2 cs (b - 1)) as [c Hc]; [lia|].
  destruct (lookup_lt_is_Some_2 cs (k - 1)) as [d Hd]; [lia|].
  pose proof (prev_off cs Hcs _ _ Hc) as Hprev. replace (S (b - 1)) with b in Hprev by lia.
  pose proof (backward_off cs _ _ Hcs Hd) as Hback. replace (S (k - 1)) with k in Hback by lia.
  rewrite Hback. cbn [text at_off]. rewrite Hprev.
  pose proof (off_strict cs Hcs (b - 1) b ltac:(lia)).
  destruct (IH a (b - 1)%nat (k - 1)%nat) as (i & Hi & Hs); [lia|lia|lia|].
  unfold rangeText in *. rewrite (take_range_last a b c Hlt Hc).
  destruct (decide (b - a <= k)%nat) as [Hle|Hle].
  - rewrite (bool_decide_true (b - a <= k)%nat) by done. cbn [andb].
    rewrite (drop_take_last k (b - a) d ltac:(lia) Hd), !map_app. cbn [map].
    replace (b - a - 1)%nat with (b - 1 - a)%nat by lia.
    destruct (Z.eqb_spec (fold c) (fold d)) as [Ef|Ef].
    + exists i. split; [done|]. rewrite Hs, Ef. rewrite (bool_decide_true (b - 1 - a <= k - 1)%nat) by lia. cbn [andb].
      replace (k - 1 - (b - 1 - a))%nat with (k - (b - a))%nat by lia. clear Hs.
      case_bool_decide as H1; case_bool_decide as H2; try congruence; exfalso.
      by apply app_inv_tail in H2.
    + exists (at_off cs (k - 1)). split; [done|]. rewrite bool_decide_false; [done|].
      intros Happ. apply app_inj_tail in Happ as [_ Happ]. congruence.
  - rewrite (bool_decide_false (b - a <= k)%nat) by done. cbn [andb].
    destruct (fold c =? fold d); [|by exists (at_off cs (k - 1))].
    exists i. split; [done|]. rewrite Hs. by rewrite (bool_decide_false (b - 1 - a <= k - 1)%nat) by lia.
Qed.

(** ** The simulation of a node *)

Context (Hentries : entriesOk).

(** What holds when the code of a node with groups [gs] and loops [ls] is entered. *)
Record Pre (O : gmap nat (bool * nat)) (J gs ls inner outer : list nat) (st : St) (s : VM) : Prop := {
  pre_ranges : rangesOk cs (caps st);
  pre_pos : (pos st <= length cs)%nat;
  pre_caps : zlen (caps st) = regexCaptureGroupCount re + 1;
  pre_loops : zlen (loopStates s) = regexLoopCount re;
  pre_gs : NoDup gs;
  pre_unset : forall i, i ∈ gs -> caps st !! i = Some None /\ O !! i = None;
  pre_ls : NoDup ls;
  pre_inner : forall i, i ∈ inner -> i ∈ J;
  pre_outer : forall i, i ∈ outer -> i ∉ J
}.

Abbreviation wf := (wfNode (named re) (regexLoopCount re) (regexCaptureGroupCount re)).
Abbreviation semN := (sem cs (named re)).

(** The open groups of the state are among those of the syntax. *)
Definition openIn (O : gmap nat (bool * nat)) (open : list nat) : Prop :=
  forall i, is_Some (O !! i) -> i ∈ open.

Definition Sim (lb : bool) (n : Node) (a z : Z) : Prop :=
  forall open O J K st s m,
  wf lb open n -> openIn O open ->
  Pre O J (groupsOf n) (loopsOf n) (innerLoops n) (outerLoops n) st s ->
  oldIter m = o -> running O K st a s ->
  Yield z J (loopsOf n) O K (caps st) (loopStates s) (semN lb n st) (DISPATCH, s, m).

Lemma openIn_none O open i : openIn O open -> i ∉ open -> O !! i = None.
Proof. intros HO Hi. destruct (O !! i) eqn:E; [|done]. exfalso. apply Hi, HO. by rewrite E. Qed.

Lemma sim_empty lb a : Sim lb EmptyNode a a.
Proof. intros open O J K st s m _ _ _ Ho Hr. by apply Yield_one. Qed.

Lemma stp_running O K st a s m i : running O K st a s -> C !! a = Some i ->
  stp (DISPATCH, s, m) = outc (execInst re (oldIter m) s i) m.
Proof. intros (<- & _) Hi. by apply stp_dispatch. Qed.

Lemma sim_any lb md a i z : leafIns lb (AnyNode md) = Some i -> C !! a = Some i ->
  z = a + sizeOfInst i -> Sim lb (AnyNode md) a z.
Proof.
  intros Hi HC Hz open O J K st s m _ _ Hp Ho Hr. pose proof (stp_running _ _ _ _ _ m _ Hr HC) as E.
  cbn [sem leafIns] in *. destruct lb.
  - simplify_eq. eapply sim_backward; [exact E|done|exact Hr|apply Hp|done|done].
  - destruct (hasFlag md DOT_ALL); simplify_eq;
      (eapply sim_forward; [exact E|done|exact Hr|apply Hp|done|done]).
Qed.

Lemma sim_char lb c a i z : leafIns lb (CharNode c) = Some i -> C !! a = Some i ->
  z = a + sizeOfInst i -> Sim lb (CharNode c) a z.
Proof.
  intros Hi HC Hz open O J K st s m _ _ Hp Ho Hr. pose proof (stp_running _ _ _ _ _ m _ Hr HC) as E.
  cbn [sem leafIns] in *. destruct lb; simplify_eq.
  - eapply sim_backward; [exact E|done|exact Hr|apply Hp|done|done].
  - eapply sim_forward; [exact E|done|exact Hr|apply Hp|done|done].
Qed.

Lemma sim_foldChar lb c a i z : leafIns lb (FoldCharNode c) = Some i -> C !! a = Some i ->
  z = a + sizeOfInst i -> Sim lb (FoldCharNode c) a z.
Proof.
  intros Hi HC Hz open O J K st s m _ _ Hp Ho Hr. pose proof (stp_running _ _ _ _ _ m _ Hr HC) as E.
  cbn [sem leafIns] in *. destruct lb; simplify_eq.
  - eapply sim_backward; [exact E|done|exact Hr|apply Hp|done|done].
  - eapply sim_forward; [exact E|done|exact Hr|apply Hp|done|done].
Qed.

Lemma sim_grapheme lb a : C !! a = Some GraphemeIns -> Sim lb GraphemeNode a (a + 1).
Proof.
  intros HC open O J K st s m Hw _ Hp Ho Hr. cbn [wfNode] in Hw. subst lb. cbn [sem].
  pose proof (stp_running _ _ _ _ _ m _ Hr HC) as E. pose proof (pre_pos _ _ _ _ _ _ _ _ Hp) as Hpos.
  pose proof Hr as (Ha & Hi & Hs & Hc). cbn [execInst] in E. unfold execGrapheme in E. rewrite Hi, available_off in E by done.
  unfold cluster. destruct (drop (pos st) cs) as [|c rest] eqn:Ed.
  - apply (f_equal length) in Ed. rewrite length_drop in Ed. cbn [length] in Ed. rewrite bool_decide_false in E by lia.
    eapply Yield_none; [exact E|done|exact Hr|by rewrite Hi|done..].
  - assert (pos st < length cs)%nat as Hlt by (apply (f_equal length) in Ed; rewrite length_drop in Ed; cbn [length] in Ed; lia).
    rewrite bool_decide_true in E by done. unfold remainForward in E. cbn [RegexInput.text iter at_off] in E.
    rewrite drop_off, Ed in E. rewrite RegexCluster.clusterBytes_spec in E by (rewrite <- Ed; by apply codePoints_drop).
    cbn [with_] in E. eapply Yield_result; [exact E|done|done|done|].
    set (n := followers [c] rest). replace (setIter _ _) with (at_off cs (pos st + S n)).
    { by apply (running_advance O K st (setPos st (pos st + S n))). }
    unfold at_off, setIter. cbn [RegexInput.text]. f_equal. by rewrite off_app, Ed.
Qed.

Lemma setMatcher_contains set c :
  CodePointSet.wf set -> fits set ->
  CodePointSet.bmpSize set + CodePointSet.packedNonBmpSize set <= CodePointSet.size set ->
  matcherContains (setMatcher set) c = CodePointSet.contains set c.
Proof.
  intros Hw Hf Hs. unfold setMatcher. destruct (tryToGenerateAsciiSet set) eqn:E.
  - rewrite (matcherContains_ascii true set) by done. by apply matcherContains_set.
  - by apply matcherContains_set.
Qed.

Lemma sim_set lb set invert ic index a z :
  matcherAt (matchers re) index = Some (setMatcher set) ->
  C !! a = Some (setIns lb index invert ic) -> z = a + sizeOfInst (setIns lb index invert ic) ->
  Sim lb (CharSetNode set invert ic) a z.
Proof.
  intros Hm HC Hz open O J K st s m (Hw & Hf & Hs) _ Hp Ho Hr.
  pose proof (stp_running _ _ _ _ _ m _ Hr HC) as E. cbn [sem]. unfold setIns in *.
  destruct lb; [|destruct ic]; cbn [execInst] in E; rewrite Hm in E; cbn [with_] in E.
  - eapply sim_backward; [exact E|done|exact Hr|apply Hp| |done].
    intros d. cbn beta. by rewrite setMatcher_contains.
  - eapply sim_forward; [exact E|done|exact Hr|apply Hp| |done].
    intros d. cbn beta. by rewrite setMatcher_contains.
  - eapply sim_forward; [exact E|done|exact Hr|apply Hp| |done].
    intros d. cbn beta. by rewrite setMatcher_contains.
Qed.

Lemma sim_boundary lb t md a i z : leafIns lb (BoundaryNode t md) = Some i -> C !! a = Some i ->
  z = a + sizeOfInst i -> Sim lb (BoundaryNode t md) a z.
Proof.
  intros Hi HC Hz open O J K st s m _ _ Hp Ho Hr. pose proof (stp_running _ _ _ _ _ m _ Hr HC) as E.
  pose proof (pre_pos _ _ _ _ _ _ _ _ Hp) as Hpos. pose proof Hr as (_ & Hin & _).
  cbn [sem leafIns] in *. injection Hi as <-. unfold boundary. destruct t; cbn [execInst] in E.
  - unfold execStart in E. rewrite Hin, atEdge_prev in E by done. by eapply sim_check.
  - unfold execEnd in E. rewrite Hin, atEdge_cur in E by done. by eapply sim_check.
  - destruct (hasFlag md IGNORE_CASE); cbn [execInst] in E; unfold execWord in E;
      rewrite Hin, word_prev, word_cur in E by done; by eapply sim_check.
  - destruct (hasFlag md IGNORE_CASE); cbn [execInst] in E; unfold execWord in E;
      rewrite Hin, word_prev, word_cur in E by done; unfold atWordBoundary; rewrite negb_involutive;
      by eapply sim_check.
Qed.

Lemma map_fold_false l : map (RegexSpec.fold_ false) l = l.
Proof. apply map_id. Qed.

Lemma fold_result z J A O K st s m c a i (r : option Input * Input) st' (b : bool) inp :
  stp c = outc (execFold s i r) m -> oldIter m = o -> running O K st a s ->
  r = (if b then Some (at_off cs (pos st')) else None, inp) -> text inp = encodes cs ->
  caps st' = caps st -> z = a + sizeOfInst i ->
  Yield z J A O K (caps st) (loopStates s) (if b then [st'] else []) c.
Proof.
  intros E Ho Hr -> Ht Hc ->. destruct b; cbn [execFold] in E.
  - eapply Yield_result; [exact E|done|done|done|]. by apply (running_advance O K st).
  - eapply Yield_none; [exact E|done|exact Hr|done..].
Qed.

Lemma sim_backRef lb nm index ic a i z :
  leafIns lb (BackRefNode nm index ic) = Some i -> C !! a = Some i ->
  z = a + sizeOfInst i -> Sim lb (BackRefNode nm index ic) a z.
Proof.
  intros Hi HC Hz open O J K st s m [Hidx Hw] HO Hp Ho Hr.
  pose proof (stp_running _ _ _ _ _ m _ Hr HC) as E.
  pose proof (pre_pos _ _ _ _ _ _ _ _ Hp) as Hpos. pose proof Hr as (Ha & Hin & Hst & Hcp).
  pose proof (pre_ranges _ _ _ _ _ _ _ _ Hp) as Hok.
  cbn [sem]. unfold refRange. destruct (refIndices (named re) nm index) as [l|] eqn:El; [|done].
  assert (Forall (fun i => Z.of_nat i < zlen (caps st) /\ O !! i = None) l) as Hl.
  { eapply Forall_impl; [exact Hw|]. cbn. intros j [Hj Hn]. rewrite (pre_caps _ _ _ _ _ _ _ _ Hp).
    split; [lia|by eapply openIn_none]. }
  pose proof (resolve_spec _ _ _ _ _ _ Hcp Hok Hentries Hidx El Hl) as Hres.
  assert (forall a b, firstSet l (caps st) = Some (a, b) -> (a <= b <= length cs)%nat) as Hb.
  { clear -Hok. induction l as [|j l IH]; [done|]. cbn [firstSet]. intros x y Hxy.
    destruct (caps st !! j) as [[[x' y']|]|] eqn:Ej; [|by apply IH..]. simplify_eq. by eapply Hok. }
  destruct (firstSet l (caps st)) as [[x y]|] eqn:Er.
  2: { assert (stp (DISPATCH, s, m) = outc (Next (advance s i)) m) as E'.
       { rewrite E. cbn [leafIns] in Hi. destruct lb; [|destruct ic]; simplify_eq; cbn [execInst];
           unfold execBackRef, execIBackRef, execLBBackRef; rewrite Hres; cbn [with_]; done. }
       cbn [backRef]. subst z. eapply Yield_result; [exact E'|done|done|done|].
       by split_and!; [rewrite <- Ha|..]. }
  specialize (Hb x y eq_refl).
  assert (isUnset (render (Some (x, y))) = false) as Hun.
  { rewrite render_unset; [done|]. intros ? ? ?; by simplify_eq. }
  assert (length (rangeText x y) = y - x)%nat as Hlen' by (by apply rangeText_length).
  assert (codePoints (rangeText x y)) as Hcpt by (by apply codePoints_take, codePoints_drop).
  pose proof (off_mono cs x y ltac:(lia)) as Hoff.
  unfold backRef. fold (rangeText x y). cbv zeta.
  cbn [leafIns] in Hi. destruct lb; [destruct ic|destruct ic]; simplify_eq; cbn [execInst] in E;
    unfold execBackRef, execIBackRef, execLBBackRef in E; rewrite Hres in E; cbn [with_] in E;
    rewrite Hun in E.
  - cbn [render cap_offset cap_size] in E. rewrite Hin in E.
    replace (off cs x + (off cs y - off cs x)) with (off cs y) in E by lia.
    destruct (foldBackward_spec (S (Z.to_nat (off cs y - off cs x))) x y (pos st)) as (inp & Ht & Hf); [lia..|].
    change (map (RegexSpec.fold_ true)) with (map doSimpleCaseFolding). rewrite Hlen'.
    eapply fold_result; [exact E|done|exact Hr|exact Hf|done|done|done].
  - rewrite Hin, captureText_spec, <- Hin in E by lia. rewrite !map_fold_false.
    replace (bool_decide (length (rangeText x y) <= pos st)%nat && _) with
      (bool_decide (length (rangeText x y) <= pos st /\
         drop (pos st - length (rangeText x y)) (take (pos st) cs) = rangeText x y)%nat)
      by (rewrite bool_decide_and; done).
    by eapply sim_expectBackward.
  - cbn [render cap_offset cap_size] in E. rewrite Hin in E.
    replace (off cs x + (off cs y - off cs x)) with (off cs y) in E by lia.
    destruct (foldForward_spec (S (Z.to_nat (off cs y - off cs x))) x y (pos st)) as (inp & Ht & Hf); [lia..|].
    change (map (RegexSpec.fold_ true)) with (map doSimpleCaseFolding). rewrite Hlen'.
    eapply fold_result; [exact E|done|exact Hr|exact Hf|done|done|done].
  - rewrite Hin, captureText_spec, <- Hin in E by lia. rewrite !map_fold_false.
    by eapply sim_expectForward.
Qed.

(** ** Sequences *)

Lemma Yield_rebase z J A1 A O K c0 l1 l0 rs c :
  Yield z J A1 O K c0 l1 rs c -> (forall i, i ∈ A1 -> i ∈ A) -> loopsEq J l1 l0 ->
  Yield z J A O K c0 l0 rs c.
Proof.
  intros Hy HA Hl. rewrite <- (app_nil_r rs).
  eapply (Yield_app _ _ A1 A _ K [] c0 c0 l0 l1); [exact Hy|done|constructor|done| |].
  - eapply loopsEq_weaken; [exact Hl|]. intros i. rewrite elem_of_app. auto.
  - intros s m Ho (Hs & Ht & Hc & Hls). eapply Y_nil; [apply leads_refl|done|].
    split_and!; [apply Hs..|done|done|by eapply loopsEq_trans].
Qed.

Lemma setPos_same st k : k = pos st -> setPos st k = st.
Proof. intros ->. by destruct st. Qed.

Lemma run_forward ys : forall st, (pos st <= length cs)%nat ->
  seqM (map (semN false) (map CharNode ys)) st = forwardMatch ys st.
Proof.
  induction ys as [|y ys IH]; intros st Hp; unfold forwardMatch.
  { cbn. by rewrite setPos_same by lia. }
  cbn [map seqM sem testChar]. unfold curChar.
  destruct (cs !! pos st) as [d|] eqn:Ed.
  - pose proof (lookup_lt_Some _ _ _ Ed). rewrite (drop_S cs d _ Ed). cbn [length firstn].
    destruct (Z.eqb_spec d y) as [->|Hne]; cbn [flat_map].
    + rewrite app_nil_r, IH by (cbn; lia). unfold forwardMatch. cbn [setPos pos caps].
      rewrite Nat.add_1_r. replace (pos st + S (length ys))%nat with (S (pos st) + length ys)%nat by lia.
      repeat case_bool_decide; (done || congruence).
    + rewrite bool_decide_false; [done|congruence].
  - apply lookup_ge_None in Ed. rewrite drop_ge by lia. cbn. done.
Qed.

Lemma run_backward ys : forall st, (pos st <= length cs)%nat ->
  seqM (map (semN true) (map CharNode ys)) st = backwardMatch (rev ys) st.
Proof.
  induction ys as [|y ys IH]; intros st Hp; unfold backwardMatch.
  { cbn. rewrite bool_decide_true; [by rewrite setPos_same by lia|]. split; [lia|].
    rewrite Nat.sub_0_r, drop_ge; [done|]. rewrite length_take. lia. }
  cbn [map seqM sem testChar rev]. unfold prevChar. rewrite length_app. cbn [length].
  destruct (pos st) as [|k] eqn:Ek.
  { rewrite bool_decide_false by lia. done. }
  destruct (lookup_lt_is_Some_2 cs k) as [d Hd]; [lia|]. rewrite Hd.
  replace (S k - (length (rev ys) + 1))%nat with (k - length (rev ys))%nat by lia.
  destruct (decide (length (rev ys) <= k)%nat) as [Hle|Hle].
  - rewrite (take_S_r cs k d Hd), drop_app_le by (rewrite length_take; lia).
    destruct (Z.eqb_spec d y) as [->|Hne]; cbn [flat_map].
    + replace (S k - 1)%nat with k by lia.
      rewrite app_nil_r, IH by (cbn; lia). unfold backwardMatch. cbn [setPos pos caps].
      case_bool_decide as H1; case_bool_decide as H2; try done; exfalso; [apply H2|apply H1].
      * destruct H1 as [? ->]. split; [lia|done].
      * destruct H2 as [_ H2]. by apply app_inv_tail in H2.
    + rewrite bool_decide_false; [done|]. intros [_ Happ]. apply app_inj_tail in Happ as [_ ->]. done.
  - rewrite (bool_decide_false (_ /\ _)) by lia.
    destruct (Z.eqb_spec d y) as [->|Hne]; cbn [flat_map]; [|done].
    replace (S k - 1)%nat with k by lia.
    rewrite app_nil_r, IH by (cbn; lia). unfold backwardMatch. cbn [setPos pos caps].
    by rewrite bool_decide_false by lia.
Qed.

Lemma Pre_left O J gs1 gs2 ls1 ls2 in1 in2 out1 out2 st s :
  Pre O J (gs1 ++ gs2) (ls1 ++ ls2) (in1 ++ in2) (out1 ++ out2) st s ->
  Pre O J gs1 ls1 in1 out1 st s.
Proof.
  intros [Hr Hp Hc Hl Hg Hu Hls Hi Ho]. apply NoDup_app in Hg as (Hg & _ & _).
  apply NoDup_app in Hls as (Hls & _ & _).
  split; try done; intros i Hin; [apply Hu|apply Hi|apply Ho]; apply elem_of_app; by left.
Qed.

Lemma Pre_right lb O J gs1 gs2 ls1 ls2 in1 in2 out1 out2 st s r s' :
  Pre O J (gs1 ++ gs2) (ls1 ++ ls2) (in1 ++ in2) (out1 ++ out2) st s ->
  moves cs lb gs1 st r -> length (loopStates s') = length (loopStates s) ->
  Pre O J gs2 ls2 in2 out2 r s'.
Proof.
  intros [Hr Hp Hc Hl Hg Hu Hls Hi Ho] (Hmp & Hmd & Hml & Hmc & Hmr) Hlen'.
  apply NoDup_app in Hg as (_ & Hd & Hg). apply NoDup_app in Hls as (_ & _ & Hls).
  split; [by apply Hmr|done|unfold zlen in *; congruence|unfold zlen in *; congruence|done| |done| |].
  - intros i Hin. rewrite Hmc by (intros Hin'; by apply (Hd i)). apply Hu, elem_of_app. by right.
  - intros i Hin. apply Hi, elem_of_app. by right.
  - intros i Hin. apply Ho, elem_of_app. by right.
Qed.

Lemma Pre_perm O J gs gs' ls ls' inn inn' out out' st s :
  Pre O J gs ls inn out st s -> gs ≡ₚ gs' -> ls ≡ₚ ls' -> inn ≡ₚ inn' -> out ≡ₚ out' ->
  Pre O J gs' ls' inn' out' st s.
Proof.
  intros [Hr Hp Hc Hl Hg Hu Hls Hi Ho] H1 H2 H3 H4. split; try done.
  - by rewrite <- H1.
  - intros i. rewrite <- H1. apply Hu.
  - by rewrite <- H2.
  - intros i. rewrite <- H3. apply Hi.
  - intros i. rewrite <- H4. apply Ho.
Qed.

Definition SimSeq (lb : bool) (l : list Node) (a z : Z) : Prop :=
  forall open O J K st s m,
  Forall (wf lb open) l -> 4 * zlen l <= UINT32_MAX -> openIn O open ->
  Pre O J (flat_map groupsOf l) (flat_map loopsOf l) (flat_map innerLoops l) (flat_map outerLoops l) st s ->
  oldIter m = o -> running O K st a s ->
  Yield z J (flat_map loopsOf l) O K (caps st) (loopStates s)
    (seqM (map (fun x => semN lb x) l) st) (DISPATCH, s, m).

Lemma simSeq_cons lb n rest a b z : Sim lb n a b -> SimSeq lb rest b z -> SimSeq lb (n :: rest) a z.
Proof.
  intros Hn Hrest open O J K st s m Hw Hsz HO Hp Ho Hr. apply Forall_cons in Hw as [Hwn Hwr].
  cbn [map seqM flat_map] in *. rewrite zlen_cons in Hsz.
  pose proof (Pre_left _ _ _ _ _ _ _ _ _ _ _ _ Hp) as Hpn.
  eapply Yield_bind; [by eapply Hn| | |].
  - intros i Hi. apply elem_of_app. by left.
  - intros i Hi. apply elem_of_app. right. exact Hi.
  - intros r s' m' K' Hin Ho' Hr' Hls. eapply Hrest; [done|lia|done| |done|done].
    eapply Pre_right; [exact Hp| |apply Hls].
    eapply sem_sound; [exact Hwn|apply Hp|exact Hin].
Qed.

Lemma flat_map_chars {B} (f : Node -> list B) run rest :
  (forall c, f (CharNode c) = []) -> flat_map f (map CharNode run ++ rest) = flat_map f rest.
Proof. intros Hf. induction run as [|c run IH]; [done|]. cbn. by rewrite Hf. Qed.

Lemma codePoints_run lb open run rest : Forall (wf lb open) (map CharNode run ++ rest) ->
  codePoints run /\ Forall (wf lb open) rest.
Proof.
  intros Hw. apply Forall_app in Hw as [Hw Hr]. split; [|done].
  induction run as [|c run IH]; [constructor|]. apply Forall_cons in Hw as [Hc Hw].
  constructor; [exact Hc|by apply IH].
Qed.

Lemma simSeq_run (lb : bool) run rest index a z :
  C !! a = Some (if lb then LBStringIns index else StringIns index) ->
  matcherAt (matchers re) index = Some (ofBytes (RegexEmit.utf8OfRun (if lb then rev run else run))) ->
  SimSeq lb rest (a + 3) z -> SimSeq lb (map CharNode run ++ rest) a z.
Proof.
  intros HC Hm Hrest open O J K st s m Hw Hsz HO Hp Ho Hr.
  apply codePoints_run in Hw as [Hcp Hwr].
  rewrite !flat_map_chars in * by done. rewrite zlen_app in Hsz.
  pose proof (zlen_nonneg rest). pose proof (zlen_nonneg run).
  assert (zlen (map CharNode run) = zlen run) as Hzr by (unfold zlen; by rewrite length_map).
  set (ys := if lb then rev run else run) in *.
  assert (codePoints ys) as Hys by (unfold ys; destruct lb; [by apply Forall_rev|done]).
  assert (zlen ys = zlen run) as Hzy by (unfold ys, zlen; destruct lb; [by rewrite length_rev|done]).
  pose proof (encodes_bound ys Hys) as Hbd.
  assert (asStrRef (ofBytes (encodes ys)) = encodes ys) as Hstr by (apply asStrRef_ofBytes; lia).
  change (RegexEmit.utf8OfRun ys) with (encodes ys) in Hm.
  pose proof (stp_running _ _ _ _ _ m _ Hr HC) as E.
  rewrite map_app, seqM_app.
  assert (Yield (a + 3) J [] O K (caps st) (loopStates s)
            (seqM (map (fun x => semN lb x) (map CharNode run)) st) (DISPATCH, s, m)) as Hy.
  { unfold ys in *. destruct lb; cbn [execInst] in E; rewrite Hm in E; cbn [with_] in E; rewrite Hstr in E.
    - rewrite run_backward by apply Hp.
      by eapply sim_expectBackward; [exact E|done|exact Hr|apply Hp|..].
    - rewrite run_forward by apply Hp.
      by eapply sim_expectForward; [exact E|done|exact Hr|apply Hp|..]. }
  eapply Yield_bind; [exact Hy|intros i Hi; by apply not_elem_of_nil in Hi|done|].
  intros r s' m' K' Hin Ho' Hr' Hls. eapply Hrest; [done|lia|done| |done|done].
  eapply (Pre_right lb O J [] _ [] _ [] _ []); [exact Hp| |apply Hls].
  eapply sound_seqM; [|apply Hp|exact Hin].
  apply Forall_forall. intros f Hf. apply list_elem_of_fmap in Hf as (n & -> & Hn).
  apply list_elem_of_fmap in Hn as (c & -> & Hc). apply sound_testChar.
Qed.

Lemma sim_seq (lb : bool) l a z : SimSeq lb (if lb then rev l else l) a z -> Sim lb (SeqNode l) a z.
Proof.
  intros Hs open O J K st s m [Hsz Hw] HO Hp Ho Hr. apply foldr_Forall in Hw.
  cbn [sem groupsOf loopsOf innerLoops outerLoops] in *.
  destruct lb; [|by eapply Hs].
  rewrite <- map_rev.
  assert (forall f : Node -> list nat, flat_map f l ≡ₚ flat_map f (rev l)) as Hperm
    by (intros f; apply Permutation_flat_map, Permutation_rev).
  eapply Yield_weaken.
  - eapply Hs; [by apply Forall_rev|unfold zlen in *; by rewrite length_rev|done| |done|done].
    by eapply Pre_perm.
  - intros i. by rewrite <- (Hperm loopsOf).
Qed.

(** ** Alternatives *)

Lemma Yield_fork z J A O K st s m a t rs1 rs2 :
  C !! a = Some (AltIns t) -> oldIter m = o -> running O K st a s ->
  (forall s', running O (SetIns t (off cs (pos st)) :: K) st (a + 5) s' ->
     loopStates s' = loopStates s ->
     Yield z J A O (SetIns t (off cs (pos st)) :: K) (caps st) (loopStates s) rs1 (DISPATCH, s', m)) ->
  (forall s' m', oldIter m' = o -> running O K st t s' -> loopsEq J (loopStates s') (loopStates s) ->
     Yield z J A O K (caps st) (loopStates s) rs2 (DISPATCH, s', m')) ->
  Yield z J A O K (caps st) (loopStates s) (rs1 ++ rs2) (DISPATCH, s, m).
Proof.
  intros HC Ho Hr H1 H2. pose proof (stp_running _ _ _ _ _ m _ Hr HC) as E. cbn [execInst] in E.
  pose proof Hr as (Ha & Hi & Hs & Hc).
  eapply Yield_push; [exact E|exact Hs|]. intros b Hb c' E'.
  rewrite Hi in Hb. change (iter (at_off cs (pos st))) with (off cs (pos st)) in Hb.
  eapply Yield_next; [exact E'|].
  eapply (Yield_app _ _ A A _ K [SetIns t (off cs (pos st))]); [apply H1| | | |apply loopsEq_refl|].
  - split_and!; [by cbn; rewrite Ha|done|apply Hb..|done].
  - done.
  - done.
  - repeat constructor.
  - done.
  - intros s' m' Ho' Hf. eapply Yield_setIns; [exact Hf|done|done|]. intros s'' m'' Ho'' Hr'' Hl''.
    by apply H2.
Qed.

Definition SimAlt (lb : bool) (z : Z) (l : list Node) (a : Z) : Prop :=
  forall open O J K st s m,
  Forall (wf lb open) l -> openIn O open ->
  Pre O J (flat_map groupsOf l) (flat_map loopsOf l) (flat_map innerLoops l) (flat_map outerLoops l) st s ->
  oldIter m = o -> running O K st a s ->
  Yield z J (flat_map loopsOf l) O K (caps st) (loopStates s)
    (altM (map (fun x => semN lb x) l) st) (DISPATCH, s, m).

Lemma simAlt_last lb z n a : Sim lb n a z -> SimAlt lb z [n] a.
Proof.
  intros Hn open O J K st s m Hw HO Hp Ho Hr. apply Forall_cons in Hw as [Hw _].
  unfold altM. cbn [map flat_map] in *. rewrite !app_nil_r in *. by eapply Hn.
Qed.

Lemma simAlt_jump lb z n rest a e :
  C !! a = Some (AltIns (e + 5)) -> Sim lb n (a + 5) e -> C !! e = Some (JumpIns z) ->
  SimAlt lb z rest (e + 5) -> SimAlt lb z (n :: rest) a.
Proof.
  intros HC Hn HJ Hrest open O J K st s m Hw HO Hp Ho Hr. apply Forall_cons in Hw as [Hwn Hwr].
  unfold altM in *. cbn [map flat_map] in *.
  pose proof (Pre_left _ _ _ _ _ _ _ _ _ _ _ _ Hp) as Hpn.
  eapply Yield_fork; [exact HC|done|exact Hr| |].
  - intros s' Hr' Hls. rewrite <- (flat_map_single (fun x => [x]) (semN lb n st)) by done.
    eapply (Yield_bind e z J (loopsOf n) []).
    + rewrite <- Hls. eapply Hn; [done|done| |done|done].
      destruct Hpn. split; try done. by rewrite Hls.
    + intros i Hi. apply elem_of_app. by left.
    + intros i Hi. by apply not_elem_of_nil in Hi.
    + intros r s'' m'' K' _ Ho'' Hr'' _. pose proof (stp_running _ _ _ _ _ m'' _ Hr'' HJ) as E.
      cbn [execInst] in E. eapply Yield_result; [exact E|done|done|done|].
      destruct Hr'' as (Ha & Hi & Hs & Hc). by split_and!.
  - intros s' m' Ho' Hr' Hls. eapply Yield_rebase.
    + eapply Hrest; [done|done| |done|done].
      eapply (Pre_right lb); [exact Hp|apply moves_refl, Hp|apply Hls].
    + intros i Hi. apply elem_of_app. by right.
    + done.
Qed.

Lemma simAlt_skip lb z n a :
  C !! a = Some (AltIns z) -> Sim lb n (a + 5) z -> SimAlt lb z [n; EmptyNode] a.
Proof.
  intros HC Hn open O J K st s m Hw HO Hp Ho Hr. apply Forall_cons in Hw as [Hwn _].
  unfold altM. cbn [map flat_map groupsOf loopsOf innerLoops outerLoops sem] in *. rewrite !app_nil_r in *.
  cbn [app].
  eapply Yield_fork; [exact HC|done|exact Hr| |].
  - intros s' Hr' Hls. rewrite <- Hls. eapply Hn; [done|done| |done|done].
    destruct Hp. split; try done. by rewrite Hls.
  - intros s' m' Ho' Hr' Hls. eapply Yield_rebase; [by apply Yield_one|intros i Hi; exact Hi|done].
Qed.

Lemma sim_opt lb p a z : C !! a = Some (AltIns z) -> Sim lb p (a + 5) z -> Sim lb (AltNode [p]) a z.
Proof.
  intros HC Hn open O J K st s m [_ [Hw _]] HO Hp Ho Hr.
  cbn [flat_map groupsOf loopsOf innerLoops outerLoops sem] in *. rewrite !app_nil_r in *.
  eapply Yield_fork; [exact HC|done|exact Hr| |].
  - intros s' Hr' Hls. rewrite <- Hls. eapply Hn; [done|done| |done|done].
    destruct Hp. split; try done. by rewrite Hls.
  - intros s' m' Ho' Hr' Hls. eapply Yield_rebase; [by apply Yield_one|intros i Hi; exact Hi|done].
Qed.

Lemma sim_alt lb l a z : (2 <= length l)%nat -> SimAlt lb z l a -> Sim lb (AltNode l) a z.
Proof.
  intros Hl Hs open O J K st s m [_ Hw] HO Hp Ho Hr. apply foldr_Forall in Hw.
  destruct l as [|n [|n' l]]; [simpl in Hl; lia..|]. by eapply Hs.
Qed.

(** ** Capture groups *)

Context (Hgc : regexCaptureGroupCount re <= UINT16_MAX).

(** The range of a group that begins at [start] and is left in [r]. *)
Definition closed (lb : bool) (start : nat) (r : St) : Range :=
  Some (if lb then (pos r, start) else (start, pos r)).

Definition ordered (lb : bool) (start : nat) (r : St) : Prop :=
  if lb then (pos r <= start)%nat else (start <= pos r)%nat.

Lemma anchored_closed (lb : bool) start r : ordered lb start r ->
  anchored lb start (render (closed lb start r)).
Proof.
  intros Ho. destruct lb; [|done]. cbn. unfold endOffset. cbn.
  replace (off cs (pos r) + (off cs start - off cs (pos r))) with (off cs start) by lia.
  apply off_u32.
Qed.

Lemma capsRel_open O c vc i lb start x :
  capsRel O c vc -> (i < length c)%nat -> anchored lb start x ->
  capsRel (<[i := (lb, start)]> O) c (<[i := x]> vc).
Proof.
  intros [Hl Hc] Hi Ha. split; [by rewrite length_insert|]. intros j.
  destruct (decide (j = i)) as [->|Hne].
  - rewrite lookup_insert_eq, list_lookup_insert_eq by lia. eauto.
  - rewrite lookup_insert_ne, list_lookup_insert_ne by done. apply Hc.
Qed.

Lemma capsRel_reopen O c vc i lb start r :
  capsRel O (<[i := closed lb start r]> c) vc -> O !! i = None -> (i < length c)%nat ->
  ordered lb start r -> capsRel (<[i := (lb, start)]> O) c vc.
Proof.
  intros [Hl Hc] HO Hi Ho. split; [by rewrite Hl, length_insert|]. intros j.
  specialize (Hc j). destruct (decide (j = i)) as [->|Hne].
  - rewrite HO, list_lookup_insert_eq in Hc by done. rewrite lookup_insert_eq. cbn in Hc.
    eexists. split; [exact Hc|]. by apply anchored_closed.
  - rewrite list_lookup_insert_ne in Hc by done. by rewrite lookup_insert_ne.
Qed.

Lemma capsRel_close O c vc i lb start r :
  capsRel (<[i := (lb, start)]> O) c vc -> O !! i = None -> (i < length c)%nat ->
  capsRel O (<[i := closed lb start r]> c) (<[i := render (closed lb start r)]> vc).
Proof.
  intros [Hl Hc] HO Hi. split; [by rewrite !length_insert|]. intros j.
  specialize (Hc j). destruct (decide (j = i)) as [->|Hne].
  - rewrite HO, !list_lookup_insert_eq by lia. done.
  - rewrite lookup_insert_ne in Hc by done. by rewrite !list_lookup_insert_ne.
Qed.

Lemma capsRel_unset O c vc i lb start :
  capsRel (<[i := (lb, start)]> O) c vc -> O !! i = None -> c !! i = Some None ->
  capsRel O c (<[i := unsetCapture]> vc).
Proof.
  intros [Hl Hc] HO Hi. split; [by rewrite length_insert|]. intros j.
  specialize (Hc j). destruct (decide (j = i)) as [->|Hne].
  - pose proof (lookup_lt_Some _ _ _ Hi). by rewrite HO, list_lookup_insert_eq, Hi by lia.
  - rewrite lookup_insert_ne in Hc by done. by rewrite list_lookup_insert_ne.
Qed.

Definition endIns (lb : bool) (i : Z) : Inst := if lb then LBEndCaptureIns i else EndCaptureIns i.

(** The end of a group writes its range. *)
Lemma exec_end lb i start r s x O K e :
  running O K r e s -> captures s !! Z.to_nat i = Some x -> 0 <= i ->
  anchored lb start x -> ordered lb start r ->
  execInst re o s (endIns lb i) =
    Next (advance (setCaptures s (<[Z.to_nat i := render (closed lb start r)]> (captures s))) (endIns lb i)).
Proof.
  intros (_ & Hin & _) Hx Hi Ha Ho. unfold endIns. pose proof (off_range cs start).
  pose proof (off_range cs (pos r)). change INPUT_MAX with 4294967295 in Hlen.
  destruct lb; cbn [execInst]; unfold execEndCapture, execLBEndCapture, at_;
    destruct (Z.ltb_spec i 0); [lia| |lia|]; rewrite Hx; cbn [with_]; unfold set_; do 3 f_equal;
    cbn in Ha, Ho; rewrite Hin, getOffset_off, Ha; cbn [closed render].
  - pose proof (off_mono cs (pos r) start Ho). rewrite (wrap_small 32) by
      (unfold in_unsigned; change (2 ^ 32) with 4294967296; lia). done.
  - pose proof (off_mono cs start (pos r) Ho). rewrite (wrap_small 32) by
      (unfold in_unsigned; change (2 ^ 32) with 4294967296; lia). done.
Qed.

Lemma Yield_close lb i start e z J A O K c0 l0 rs c :
  Yield e J A (<[Z.to_nat i := (lb, start)]> O) (SetCapture i unsetCapture :: K) c0 l0 rs c ->
  C !! e = Some (endIns lb i) -> z = e + 3 -> 0 <= i ->
  O !! Z.to_nat i = None -> c0 !! Z.to_nat i = Some None ->
  Forall (fun r => ordered lb start r /\ length (caps r) = length c0) rs ->
  Yield z J A O K c0 l0 (map (closeGroup lb (Z.to_nat i) start) rs) c.
Proof.
  intros Hy HC -> Hi HO Hc0. pose proof (lookup_lt_Some _ _ _ Hc0) as Hlt.
  induction Hy as [rs c Ha|c s m Hlead Ho Hf|r rs c s m K1 Hlead Ho Hr Hls HK1 Hu Hcont IH]; intros Hrs.
  - by apply Y_abort.
  - cbn [map]. destruct Hf as (Hs & Ht & Hc & Hl).
    eapply (Y_nil _ _ _ _ _ _ _ c (undone [SetCapture i unsetCapture] K s) m); [|done|].
    + eapply leads_trans; [exact Hlead|]. apply leads_same, stp_trail; [by repeat constructor|apply Hs].
    + split_and!; [apply undone_stack, Hs|done| |done]. cbn. by eapply capsRel_unset.
  - apply Forall_cons in Hrs as [[Hord Hlen'] Hrs]. cbn [map].
    pose proof Hr as (Ha & Hin & Hs & Hc).
    pose proof (proj2 Hc (Z.to_nat i)) as Hci. rewrite lookup_insert_eq in Hci.
    destruct Hci as (x & Hx & Hanch).
    pose proof (stp_running _ _ _ _ _ m _ Hr HC) as E. rewrite Ho in E.
    rewrite (exec_end lb i start r s x _ _ _ Hr Hx Hi Hanch Hord) in E.
    set (s1 := advance _ _) in E.
    assert (forall vc, capsRel O (caps (closeGroup lb (Z.to_nat i) start r)) vc ->
              capsRel (<[Z.to_nat i := (lb, start)]> O) (caps r) vc) as Hre.
    { intros vc Hvc. eapply capsRel_reopen; [exact Hvc|done|lia|done]. }
    eapply (Y_cons _ _ _ _ _ _ _ _ _ _ s1 m (K1 ++ [SetCapture i unsetCapture]));
      [eapply leads_trans; [exact Hlead|by apply leads_step]|done| |exact Hls| | |].
    + unfold s1. rewrite <- app_assoc. split_and!; [|done|apply Hs..|].
      * cbn. rewrite Ha. by destruct lb.
      * by eapply capsRel_close; [exact Hc|done|lia].
    + apply Forall_app. split; [done|by repeat constructor].
    + intros vc Hvc. rewrite undoCaps_app. cbn [undoCaps]. unfold set_.
      eapply capsRel_unset; [by apply Hu, Hre|done|done].
    + intros s' m' Ho' (Hs' & Ht' & Hc' & Hl'). apply IH; [done| |done].
      split_and!; [rewrite <- app_assoc in Hs'; apply Hs'..|done|by apply Hre|done].
Qed.

Lemma sim_group lb i p a e z :
  C !! a = Some (BeginCaptureIns (u16 i)) -> Sim lb p (a + 3) e ->
  C !! e = Some (endIns lb (u16 i)) -> z = e + 3 -> Sim lb (GroupNode CAPTURE i p) a z.
Proof.
  intros HC Hp He Hz open O J K st s m [Hi Hw] HO Hpre Ho Hr.
  rewrite wrap_small in HC, He
    by (unfold in_unsigned, UINT16_MAX in *; change (2 ^ 16) with 65536; lia).
  pose proof (stp_running _ _ _ _ _ m _ Hr HC) as E. pose proof Hr as (Ha & Hin & Hs & Hc).
  cbn [groupsOf loopsOf innerLoops outerLoops sem] in *.
  destruct (pre_unset _ _ _ _ _ _ _ _ Hpre (Z.to_nat i)) as [Hun HOi]; [by left|].
  pose proof (lookup_lt_Some _ _ _ Hun) as Hlt.
  cbn [execInst] in E. unfold execBeginCapture, at_ in E. destruct (Z.ltb_spec i 0); [lia|].
  rewrite (capsRel_lookup _ _ _ _ Hc HOi), Hun in E. cbn [with_ fmap option_fmap option_map] in E.
  set (s1 := setCaptures s _) in E.
  eapply Yield_push; [exact E|exact Hs|]. intros b Hb c' E'. cbn beta in E'.
  eapply Yield_next; [exact E'|]. clear E E'.
  eapply (Yield_close lb i (pos st) e z J _ O K); [| |exact Hz|lia|done|done|].
  - change (loopStates s) with (loopStates (advance (setBts s1 b) (BeginCaptureIns i))).
    eapply (Hp (Z.to_nat i :: open)); [exact Hw| | |done|].
    + intros j [[lb' q] Hj]. destruct (decide (j = Z.to_nat i)) as [->|Hne]; [by left|].
      rewrite lookup_insert_ne in Hj by done. right. apply HO. by rewrite Hj.
    + destruct Hpre as [H1 H2 H3 H4 H5 H6 H7 H8 H9]. apply NoDup_cons in H5 as [Hnin H5].
      split; try done. intros j Hj. destruct (H6 j) as [Hj1 Hj2]; [by right|].
      split; [done|]. rewrite lookup_insert_ne by (intros <-; done). done.
    + split_and!; [cbn; by rewrite Ha|done|apply Hb..|].
      cbn [advance setInst setBts setCaptures captures s1]. unfold s1. cbn. unfold set_.
      eapply capsRel_open; [exact Hc|done|]. rewrite Hin, getOffset_off.
      destruct lb; [|done]. cbn. unfold endOffset. cbn. rewrite Z.add_0_r. apply off_u32.
  - exact He.
  - apply Forall_forall. intros r Hin'. pose proof (pre_pos _ _ _ _ _ _ _ _ Hpre) as Hpos.
    pose proof (sem_sound cs (named re) _ _ p lb _ Hw st r Hpos Hin') as Hm.
    split; [|apply Hm]. pose proof (moves_pos _ _ _ _ _ Hm Hpos) as Hd. by destruct lb.
Qed.

(** ** Look-around *)

Lemma topNegate_app K1 negate matched target p K : Forall notLook K1 ->
  topNegate (K1 ++ LookAround negate matched target p :: K) = negate.
Proof. induction 1 as [|b K1 Hb _ IH]; [done|]. by destruct b. Qed.

Lemma discardTo_app K1 negate neg matched target p K : Forall notLook K1 -> forall vc,
  discardTo negate (K1 ++ LookAround neg matched target p :: K) vc =
  (if negate then undoCaps K1 vc else vc, LookAround neg matched target p :: K).
Proof.
  induction 1 as [|b K1 Hb _ IH]; intros vc; [by destruct negate|].
  destruct b; try done; cbn [app discardTo undoCaps]; rewrite IH; by destruct negate.
Qed.

Lemma cleanup_spec s K1 negate matched target p K :
  Forall notLook K1 -> entries (bts s) = K1 ++ LookAround negate matched target p :: K ->
  cleanupLookAround s =
    Some (matched, {| inst := inst s; input := setIter (input s) p;
                      captures := if negate then undoCaps K1 (captures s) else captures s;
                      loopStates := loopStates s;
                      bts := {| entries := K; stackCap := stackCap (bts s) |} |}).
Proof.
  intros HK He. unfold cleanupLookAround. rewrite He, topNegate_app by done. by rewrite discardTo_app.
Qed.

(** At the end of the body. *)
Lemma stp_end s m e K1 negate matched target p K :
  Forall notLook K1 -> entries (bts s) = K1 ++ LookAround negate matched target p :: K ->
  inst s = e -> C !! e = Some EndLookAroundIns ->
  let s' := {| inst := inst s; input := setIter (input s) p;
               captures := if negate then undoCaps K1 (captures s) else captures s;
               loopStates := loopStates s;
               bts := {| entries := K; stackCap := stackCap (bts s) |} |} in
  stp (DISPATCH, s, m) = outc (if matched then Next (advance s' EndLookAroundIns) else Back s') m.
Proof.
  intros HK He <- HC. rewrite (stp_dispatch _ _ _ HC). cbn [execInst]. unfold execEndLookAround.
  rewrite (cleanup_spec _ _ _ _ _ _ _ HK He). by destruct matched.
Qed.

Lemma stackOk_drop s K2 K (i : Z) inp c l : stackOk s (K2 ++ K) ->
  stackOk {| inst := i; input := inp; captures := c; loopStates := l;
             bts := {| entries := K; stackCap := stackCap (bts s) |} |} K.
Proof. apply undone_stack. Qed.

Lemma sim_look lb t p a e z :
  C !! a = Some (BeginLookAroundIns e (isNegate t)) -> Sim (negb (isLookAhead t)) p (a + 6) e ->
  C !! e = Some EndLookAroundIns -> z = e + 1 -> Sim lb (LookAroundNode t p) a z.
Proof.
  intros HC Hp He -> open O J K st s m [Hw Hpos] HO Hpre Ho Hr.
  cbn [groupsOf loopsOf innerLoops outerLoops sem] in *.
  pose proof (stp_running _ _ _ _ _ m _ Hr HC) as E. cbn [execInst] in E.
  pose proof Hr as (Ha & Hin & Hs & Hc). set (neg := isNegate t) in *.
  eapply Yield_push; [exact E|exact Hs|]. intros b Hb c' E'. cbn beta in E'.
  rewrite Hin in Hb. change (iter (at_off cs (pos st))) with (off cs (pos st)) in Hb.
  set (look := LookAround neg (negb neg) e (off cs (pos st))) in *.
  eapply Yield_next; [exact E'|]. clear E E' c'. set (s1 := advance _ _).
  pose proof (loops_split p) as Hsplit.
  pose proof (pre_ls _ _ _ _ _ _ _ _ Hpre) as Hnd. rewrite Hsplit in Hnd.
  apply NoDup_app in Hnd as (_ & Hdis & _).
  assert (Yield e (innerLoops p) (loopsOf p) O (look :: K) (caps st) (loopStates s)
            (semN (negb (isLookAhead t)) p st) (DISPATCH, s1, m)) as Hbody.
  { change (loopStates s) with (loopStates s1). eapply Hp; [exact Hw|exact HO| |done|].
    - destruct Hpre as [H1 H2 H3 H4 H5 H6 H7 H8 H9]. by split.
    - split_and!; [cbn; by rewrite Ha|done|apply Hb..|done]. }
  assert (forall i, i ∈ loopsOf p ++ innerLoops p -> i ∈ J) as HJ.
  { intros i Hi. apply (pre_inner _ _ _ _ _ _ _ _ Hpre). apply elem_of_app in Hi as [|Hi]; [done|].
    rewrite Hsplit. apply elem_of_app. by right. }
  assert (loopsEq (innerLoops p) (loopStates s) (loopStates s)) as Hl0 by done.
  assert (forall r, In r (semN (negb (isLookAhead t)) p st) ->
    moves cs (negb (isLookAhead t)) (groupsOf p) st r) as Hm.
  { intros r Hr'. eapply sem_sound; [exact Hw|apply Hpre|by apply list_elem_of_In]. }
  destruct Hbody as [rs c Hab|c s2 m2 Hlead Ho2 (Hs2 & Ht2 & Hc2 & Hl2)|r rs c s2 m2 K1 Hlead Ho2 Hr2 Hls2 HK1 Hu _].
  - by apply Y_abort.
  - eapply Yield_leads; [exact Hlead|]. pose proof Hs2 as (He2 & Hcap2 & Hi2).
    rewrite zlen_cons in Hcap2.
    eapply Yield_resume; [unfold backtrack; rewrite He2; done|done|]. intros m3 Ho3.
    cbn [stackCap]. rewrite pushNeverFail_ok by done. set (s3 := setBts _ _).
    pose proof (stp_end s3 m3 e [] neg neg e (off cs (pos st)) K ltac:(constructor) eq_refl eq_refl He) as E.
    assert (input (setBts s3 (bts s3)) = input s2) as Hin3 by done.
    assert (loopsEq J (loopStates s2) (loopStates s)) as Hl3.
    { eapply loopsEq_weaken; [exact Hl2|]. intros i Hi. apply HJ, elem_of_app. by right. }
    unfold lookAround. fold neg. destruct neg.
    + eapply Yield_next; [exact E|]. eapply (Yield_rebase _ _ []);
        [apply (Yield_one (e + 1) J [] O K st); [done|]|intros i Hi; by apply not_elem_of_nil in Hi|exact Hl3].
      split_and!; [done| |split_and!; [done|cbn; lia|done]|done].
      cbn. unfold setIter, at_off. by rewrite Ht2.
    + eapply Yield_back; [exact E|done|].
      split_and!; [split_and!; [done|cbn; lia|done]|done|done|done].
  - eapply Yield_leads; [exact Hlead|]. destruct Hr2 as (Ha2 & Hin2 & Hs2 & Hc2).
    pose proof (stp_end s2 m2 e K1 neg (negb neg) e (off cs (pos st)) K HK1 (proj1 Hs2) Ha2 He) as E.
    replace (K1 ++ look :: K) with ((K1 ++ [look]) ++ K) in Hs2 by (by rewrite <- app_assoc).
    assert (loopsEq J (loopStates s2) (loopStates s)) as Hl3.
    { eapply loopsEq_weaken; [exact Hls2|done]. }
    unfold lookAround. fold neg. destruct neg eqn:Eneg; cbn [negb] in E.
    + eapply Yield_back; [exact E|done|].
      split_and!; [by eapply stackOk_drop..|cbn; by rewrite Hin2|by apply Hu|done].
    + assert (caps r = caps st) as Hcr.
      { apply list_eq. intros i. apply (Hm r (or_introl eq_refl)). rewrite (Hpos eq_refl).
        apply not_elem_of_nil. }
      eapply Yield_next; [exact E|]. rewrite <- Hcr. eapply (Yield_rebase _ _ []);
        [apply (Yield_one (e + 1) J [] O K (setPos r (pos st))); [done|]
        |intros i Hi; by apply not_elem_of_nil in Hi|exact Hl3].
      split_and!; [cbn; by rewrite Ha2|cbn; by rewrite Hin2|by eapply stackOk_drop..|done].
Qed.

(** ** Loops *)

(** Dropping a part of the stack that only restores. *)
Lemma Yield_trail z J A O K K2 c0 c1 l0 l1 rs c :
  Yield z J A O (K2 ++ K) c1 l1 rs c -> Forall isTrail K2 ->
  (forall vc, capsRel O c1 vc -> capsRel O c0 (undoCaps K2 vc)) ->
  loopsEq (A ++ J) l1 l0 ->
  (forall l, loopsEq J l l1 -> loopsEq J (undoLoops K2 l) l0) ->
  Yield z J A O K c0 l0 rs c.
Proof.
  intros Hy HK Hc Hl Hu. rewrite <- (app_nil_r rs).
  eapply (Yield_app _ _ A A _ K K2); [exact Hy|done|by apply trail_notLook|exact Hc|exact Hl|].
  intros s m Ho (Hs & Ht & Hcs' & Hls).
  eapply (Y_nil _ _ _ _ _ _ _ _ (undone K2 K s) m); [apply leads_same, stp_trail; [done|apply Hs]|done|].
  split_and!; [by apply undone_stack|done|by apply Hc|by apply Hu].
Qed.

Lemma capsRel_clear O c vc i : capsRel O c vc -> O !! i = None -> (i < length c)%nat ->
  capsRel O (<[i := None]> c) (<[i := unsetCapture]> vc).
Proof.
  intros [Hl Hc] HO Hi. split; [by rewrite !length_insert|]. intros j. specialize (Hc j).
  destruct (decide (j = i)) as [->|Hne].
  - by rewrite HO, !list_lookup_insert_eq by lia.
  - by rewrite !list_lookup_insert_ne.
Qed.

Lemma capsRel_restore O c vc i r : capsRel O (<[i := None]> c) vc -> O !! i = None ->
  c !! i = Some r -> capsRel O c (<[i := render r]> vc).
Proof.
  intros [Hl Hc] HO Hi. rewrite length_insert in Hl. pose proof (lookup_lt_Some _ _ _ Hi).
  split; [by rewrite length_insert|]. intros j. specialize (Hc j).
  destruct (decide (j = i)) as [->|Hne].
  - by rewrite HO, list_lookup_insert_eq, Hi by lia.
  - rewrite list_lookup_insert_ne in Hc by done. by rewrite list_lookup_insert_ne.
Qed.

(** What ResetCaptures leaves: the groups unset, and their ranges on the stack. *)
Record IsReset (O : gmap nat (bool * nat)) (K2 K : list Backtrack) (c c' : list Range) (s s' : VM)
    : Prop := {
  ir_trail : Forall isTrail K2;
  ir_inst : inst s' = inst s;
  ir_input : input s' = input s;
  ir_loops : loopStates s' = loopStates s;
  ir_stack : stackOk s' (K2 ++ K);
  ir_caps : capsRel O c' (captures s');
  ir_undo : forall vc, capsRel O c' vc -> capsRel O c (undoCaps K2 vc);
  ir_undoLoops : forall l, undoLoops K2 l = l
}.

Lemma undoLoops_app K1 K2 l : undoLoops (K1 ++ K2) l = undoLoops K2 (undoLoops K1 l).
Proof. revert l. induction K1 as [|b K1 IH]; intros l; [done|]. destruct b; cbn; apply IH. Qed.

Lemma Yield_reset z J A O K0 c0 l0 rs m k K : forall n i s c cfg,
  stp cfg = outc (resetCaptures n i s k) m -> 0 <= i -> stackOk s K -> capsRel O c (captures s) ->
  (forall j, (Z.to_nat i <= j < Z.to_nat i + n)%nat -> (j < length c)%nat /\ O !! j = None) ->
  (forall K2 s', IsReset O K2 K c (clear n (Z.to_nat i) c) s s' ->
     forall cfg', stp cfg' = outc (k s') m -> Yield z J A O K0 c0 l0 rs cfg') ->
  Yield z J A O K0 c0 l0 rs cfg.
Proof.
  intros n. revert K. induction n as [|n IH]; intros K i s c cfg E Hi Hs Hc Hj Hk; cbn [resetCaptures] in E.
  { by apply (Hk [] s). }
  destruct (Hj (Z.to_nat i)) as [Hlt HO]; [lia|].
  destruct (lookup_lt_is_Some_2 c (Z.to_nat i) Hlt) as [r Hr].
  unfold at_ in E. destruct (Z.ltb_spec i 0); [lia|].
  rewrite (capsRel_lookup _ _ _ _ Hc HO), Hr in E. cbn [fmap option_fmap option_map with_] in E.
  eapply Yield_push; [exact E|exact Hs|]. intros b Hb c' E'. cbn beta in E'.
  eapply (IH _ _ _ (<[Z.to_nat i := None]> c)); [exact E'|lia|exact Hb| | |].
  - by apply capsRel_clear.
  - intros j Hjr. rewrite length_insert. apply Hj. lia.
  - replace (Z.to_nat (i + 1)) with (S (Z.to_nat i)) by lia.
    intros K2 s' [H1 H2 H3 H4 H5 H6 H7 H8] cfg' Ecfg.
    apply (Hk (K2 ++ [SetCapture i (render r)]) s'); [|exact Ecfg]. split; try done.
    + apply Forall_app. split; [done|by repeat constructor].
    + by rewrite <- app_assoc.
    + intros vc Hvc. rewrite undoCaps_app. cbn [undoCaps]. unfold set_.
      eapply capsRel_restore; [by apply H7|done|done].
    + intros l. by rewrite undoLoops_app, H8.
Qed.

Section loop.
Context (lb : bool) (q : Quantifier) (p : Node) (a e z : Z).
Context (HC : C !! a = Some (BeginLoopIns (loopIndex q) (qmin q) (qmax q) (greedy q) z)).
Context (Hreset : resetAt C q a) (Hbody : Sim lb p (bodyAddr q a) e).
Context (HE : C !! e = Some (EndLoopIns a)).
Context (open : list nat) (O : gmap nat (bool * nat)) (J : list nat).
Context (Hw : wf lb open p) (HO : openIn O open).
Context (Hli : 0 <= loopIndex q < regexLoopCount re).
Context (Hq : 0 <= qmin q <= qmax q) (Hmax : qmax q <= UNLIMIT).
Context (Hg : if hasInnerCaptureGroups q
              then 0 < firstGroupIndex q /\ firstGroupIndex q <= lastGroupIndex q /\
                   groupsOf p = seq (Z.to_nat (firstGroupIndex q))
                     (Z.to_nat (lastGroupIndex q - firstGroupIndex q + 1))
              else groupsOf p = []).
Context (Hgroups : forall i, i ∈ groupsOf p -> O !! i = None /\ Z.of_nat i <= regexCaptureGroupCount re).
Context (Hnd : NoDup (Z.to_nat (loopIndex q) :: loopsOf p)).
Context (HliJ : Z.to_nat (loopIndex q) ∉ J).
Context (Hinner : forall i, i ∈ innerLoops p -> i ∈ J) (Houter : forall i, i ∈ outerLoops p -> i ∉ J).

Abbreviation li := (Z.to_nat (loopIndex q)).
Abbreviation A := (li :: loopsOf p).
Abbreviation body := (semN lb p).

(** The part of [Pre] that does not mention the groups. *)
Definition Frame (st : St) (l : list LoopState) : Prop :=
  rangesOk cs (caps st) /\ (pos st <= length cs)%nat /\
  zlen (caps st) = regexCaptureGroupCount re + 1 /\ zlen l = regexLoopCount re.

Definition measure (count : Z) (start : nat) (st : St) : nat :=
  Z.to_nat (qmin q - count) + dist cs lb st +
  (if (qmin q <? count) && (start =? pos st)%nat then 0 else 1).

(** The loop state after [count] iterations, the last begun at [start]. *)
Definition loopAt (count : Z) (start : nat) (x : LoopState) : Prop :=
  RegexVM.count x = count /\ (count = 0 \/ (start <= length cs)%nat /\ inputOffset x = off cs start).

Definition LoopSim (fuel : nat) : Prop :=
  forall count start st K s m x cfg,
  (measure count start st < fuel)%nat -> 0 <= count <= qmax q ->
  stp cfg = outc (execLoop C s) m -> oldIter m = o -> running O K st a s ->
  loopStates s !! li = Some x -> loopAt count start x -> Frame st (loopStates s) ->
  Yield z J A O K (caps st) (loopStates s) (iterate fuel body q count start st) cfg.

Lemma groups_range i :
  hasInnerCaptureGroups q = true ->
  (Z.to_nat (firstGroupIndex q) <= i <
   Z.to_nat (firstGroupIndex q) + Z.to_nat (lastGroupIndex q - firstGroupIndex q + 1))%nat ->
  i ∈ groupsOf p.
Proof. intros Hi Hr. rewrite Hi in Hg. destruct Hg as (_ & _ & ->). apply elem_of_seq. lia. Qed.

Lemma reset_moves st : (pos st <= length cs)%nat -> moves cs lb (groupsOf p) st (resetGroups q st).
Proof. intros Hp. apply resetGroups_moves; [done|]. intros i Hi Hh. by apply groups_range. Qed.

(** After the reset, all the groups of the body are unset. *)
Lemma reset_unset st i : zlen (caps st) = regexCaptureGroupCount re + 1 -> i ∈ groupsOf p ->
  caps (resetGroups q st) !! i = Some None.
Proof.
  intros Hl Hi. destruct (Hgroups i Hi) as [_ Hb]. unfold resetGroups.
  destruct (hasInnerCaptureGroups q) eqn:Eh; [|rewrite Hg in Hi; by apply not_elem_of_nil in Hi].
  destruct Hg as (_ & _ & Hgr). rewrite Hgr in Hi. apply elem_of_seq in Hi.
  cbn [setCaps caps]. rewrite clear_lookup, decide_True by lia.
  destruct (lookup_lt_is_Some_2 (caps st) i) as [r ->]; [unfold zlen in Hl; lia|]. done.
Qed.

(** The body, from the state that ResetCaptures leaves or from the beginning. *)
Lemma body_sim fuel count st K' K2 s m x l0 :
  LoopSim fuel -> (forall r, r ∈ body (resetGroups q st) -> (measure (count + 1) (pos st) r < fuel)%nat) ->
  0 <= count < qmax q -> oldIter m = o -> running O (K2 ++ K') (resetGroups q st) (bodyAddr q a) s ->
  Frame st l0 -> l0 !! li = Some x ->
  loopStates s = <[li := {| RegexVM.count := count + 1; inputOffset := off cs (pos st) |}]> l0 ->
  Yield z J A O (K2 ++ K') (caps (resetGroups q st)) (loopStates s)
    (flat_map (fun r => iterate fuel body q (count + 1) (pos st) r) (body (resetGroups q st)))
    (DISPATCH, s, m).
Proof.
  intros Hloop Hmeas Hcount Ho Hr (Hok & Hpos & Hcl & Hll) Hx Hls.
  pose proof (reset_moves st Hpos) as Hm. pose proof Hm as (Hmp & _ & Hml & _ & Hmo).
  apply NoDup_cons in Hnd as [Hnin Hndp].
  assert (zlen (loopStates s) = regexLoopCount re) as Hll'
    by (rewrite Hls; unfold zlen in *; by rewrite length_insert).
  eapply (Yield_bind e z J (loopsOf p) A).
  - eapply Hbody; [exact Hw|exact HO| |done|done].
    split; [by apply Hmo|done|unfold zlen in *; by rewrite Hml|done| | |done|done|done].
    + destruct (hasInnerCaptureGroups q); [destruct Hg as (_ & _ & ->); apply NoDup_seq|].
      rewrite Hg. constructor.
    + intros i Hi. split; [by apply reset_unset|by apply Hgroups].
  - intros i Hi. by right.
  - done.
  - intros r s' m' K3 Hin Ho' Hr' Hl'.
    pose proof (sem_sound cs (named re) _ _ p lb _ Hw _ r Hmp Hin) as Hmr.
    destruct Hmr as (Hrp & Hrd & Hrl & _ & Hro).
    assert (stp (DISPATCH, s', m') = outc (execLoop C (setInst s' a)) m') as E.
    { rewrite (stp_running _ _ _ _ _ _ _ Hr' HE). done. }
    change (loopStates s') with (loopStates (setInst s' a)).
    eapply Hloop with (x := {| RegexVM.count := count + 1; inputOffset := off cs (pos st) |});
      [by apply Hmeas|lia|exact E|done| | | |].
    + destruct Hr' as (_ & Hi & Hs & Hc). by split_and!.
    + cbn. rewrite (proj2 Hl') by (rewrite elem_of_app; intros [?|?]; done).
      rewrite Hls. apply list_lookup_insert_eq. by eapply lookup_lt_Some.
    + split; [done|]. right. by split.
    + split_and!; [by apply Hro, Hmo|done|unfold zlen in *; rewrite Hrl, Hml; done|].
      cbn. unfold zlen in *. by rewrite (proj1 Hl').
Qed.

(** Entering the body: the old loop state is on the stack. *)
Lemma enter_sim fuel count st K' s m x l0 :
  LoopSim fuel -> (forall r, r ∈ body (resetGroups q st) -> (measure (count + 1) (pos st) r < fuel)%nat) ->
  0 <= count < qmax q -> oldIter m = o ->
  running O (SetLoopState (loopIndex q) x :: K') st (a + 14) s ->
  Frame st l0 -> l0 !! li = Some x ->
  loopStates s = <[li := {| RegexVM.count := count + 1; inputOffset := off cs (pos st) |}]> l0 ->
  Yield z J A O K' (caps st) l0
    (flat_map (fun r => iterate fuel body q (count + 1) (pos st) r) (body (resetGroups q st)))
    (DISPATCH, s, m).
Proof.
  intros Hloop Hmeas Hcount Ho Hr HF Hx Hls. pose proof Hr as (Ha & Hin & Hs & Hc).
  assert (forall K2 s' m', oldIter m' = o -> IsReset O K2 (SetLoopState (loopIndex q) x :: K') (caps st) (caps (resetGroups q st)) s s' ->
    running O (K2 ++ SetLoopState (loopIndex q) x :: K') (resetGroups q st) (bodyAddr q a) (setInst s' (bodyAddr q a)) ->
    Yield z J A O K' (caps st) l0
      (flat_map (fun r => iterate fuel body q (count + 1) (pos st) r) (body (resetGroups q st)))
      (DISPATCH, setInst s' (bodyAddr q a), m')) as Hgo.
  { intros K2 s' m' Ho' [H1 H2 H3 H4 H5 H6 H7 H8] Hr'.
    eapply (Yield_trail _ _ _ _ _ (K2 ++ [SetLoopState (loopIndex q) x])).
    - rewrite <- app_assoc. cbn [app]. eapply body_sim; [exact Hloop|done|done|done|exact Hr'|exact HF|exact Hx|].
      cbn. by rewrite H4.
    - apply Forall_app. split; [done|by repeat constructor].
    - intros vc Hvc. rewrite undoCaps_app. cbn. by apply H7.
    - cbn. rewrite H4, Hls. apply loopsEq_insert. by left.
    - intros l [Hl1 Hl2]. rewrite undoLoops_app, H8. cbn [undoLoops]. unfold set_.
      cbn in Hl1, Hl2. rewrite H4, Hls in Hl1, Hl2. rewrite length_insert in Hl1.
      split; [by rewrite length_insert|]. intros i Hi. destruct (decide (i = li)) as [->|Hne].
      + rewrite Hx. apply list_lookup_insert_eq. rewrite Hl1. by eapply lookup_lt_Some.
      + rewrite list_lookup_insert_ne by done. rewrite Hl2 by done. by apply list_lookup_insert_ne. }
  destruct (sumbool_of_bool (hasInnerCaptureGroups q)) as [Eh|Eh].
  - assert (0 < firstGroupIndex q) as Hfirst by (pose proof Hg as Hg'; rewrite Eh in Hg'; apply Hg').
    pose proof (stp_running _ _ _ _ _ m _ Hr (Hreset Eh)) as E. cbn [execInst] in E.
    unfold execResetCaptures in E. pose proof HF as (_ & _ & Hcl & _).
    eapply Yield_reset; [exact E|lia|exact Hs|exact Hc| |].
    + intros j Hj. apply groups_range in Hj; [|done]. destruct (Hgroups j Hj) as [? ?].
      split; [unfold zlen in Hcl; lia|done].
    + intros K2 s' Hreset' cfg' E'. cbn beta in E'. eapply Yield_next; [exact E'|].
      pose proof Hreset' as [H1 H2 H3 H4 H5 H6 H7 H8].
      assert (advance s' (ResetCapturesIns (firstGroupIndex q) (lastGroupIndex q)) =
              setInst s' (bodyAddr q a)) as ->.
      { unfold advance, bodyAddr. rewrite H2, Ha, Eh. cbn [sizeOfInst]. f_equal. lia. }
      assert (clear (Z.to_nat (lastGroupIndex q - firstGroupIndex q + 1)) (Z.to_nat (firstGroupIndex q)) (caps st)
              = caps (resetGroups q st)) as Hcr by (unfold resetGroups; by rewrite Eh).
      rewrite Hcr in Hreset', H6. apply (Hgo K2); [done|done|].
      split_and!; [done|cbn; rewrite H3, Hin; unfold resetGroups; by rewrite Eh|apply H5..|done].
  - assert (resetGroups q st = st) as Hrst by (unfold resetGroups; by rewrite Eh).
    replace s with (setInst s (bodyAddr q a)) by (destruct s; cbn in *; unfold bodyAddr; rewrite Eh, <- Ha; done).
    apply (Hgo []); [done| |].
    + rewrite Hrst. by split.
    + rewrite Hrst. by split_and!.
Qed.

(** An iteration makes the measure smaller, or is the last one to be tried. *)
Lemma measure_step count start st r fuel :
  (measure count start st < S fuel)%nat -> 0 <= count ->
  (qmin q <? count) && (start =? pos st)%nat = false ->
  (pos st <= length cs)%nat -> r ∈ body (resetGroups q st) ->
  (measure (count + 1) (pos st) r < fuel)%nat.
Proof.
  intros Hm H0 Hz Hp Hr. pose proof (reset_moves st Hp) as Hmv.
  pose proof (sem_sound cs (named re) _ _ p lb _ Hw _ r (proj1 Hmv) Hr) as Hmr.
  pose proof (moves_trans cs lb _ _ _ _ Hmv Hmr) as Hms. pose proof (moves_pos _ _ _ _ _ Hms Hp) as Hpos.
  destruct Hms as (Hrp & Hd & _).
  unfold measure in *. rewrite Hz in Hm. unfold dist in *.
  destruct (Z.ltb_spec (qmin q) (count + 1)), (Nat.eqb_spec (pos st) (pos r)); cbn [andb];
    destruct lb; try lia.
Qed.

(** The state that [prepareLoopBody] leaves. *)
Lemma loop_enter fuel count st K' s m x b :
  LoopSim fuel -> (forall r, r ∈ body (resetGroups q st) -> (measure (count + 1) (pos st) r < fuel)%nat) ->
  0 <= count < qmax q -> oldIter m = o -> running O K' st a s ->
  loopStates s !! li = Some x -> RegexVM.count x = count -> Frame st (loopStates s) ->
  stackOk (setBts s b) (SetLoopState (loopIndex q) x :: K') ->
  let s1 := setLoops (setBts s b) (set_ (loopStates s) (loopIndex q) (enterBody x (input s))) in
  forall cfg, stp cfg = outc (Next (setInst s1 (inst s1 + 14))) m ->
  Yield z J A O K' (caps st) (loopStates s)
    (flat_map (fun r => iterate fuel body q (count + 1) (pos st) r) (body (resetGroups q st))) cfg.
Proof.
  intros Hloop Hmeas Hcount Ho (Ha & Hin & Hs & Hc) Hx Hxc HF Hb s1 cfg E.
  eapply Yield_next; [exact E|]. eapply enter_sim; [exact Hloop|exact Hmeas|exact Hcount|done| |exact HF|exact Hx|].
  - split_and!; [cbn; by rewrite Ha|done|exact Hb|done].
  - cbn. unfold set_, enterBody. rewrite Hin, getOffset_off, Hxc. rewrite wrap_small; [done|].
    change UNLIMIT with 4294967295 in Hmax. unfold in_unsigned. change (2 ^ 32) with 4294967296. lia.
Qed.

Lemma loop_all fuel : LoopSim fuel.
Proof.
  induction fuel as [|fuel IH]; intros count start st K s m x cfg Hm Hcount E Ho Hr Hx [Hxc Hxo] HF; [lia|].
  pose proof Hr as (Ha & Hin & Hs & Hc). pose proof HF as (Hok & Hpos & Hcl & Hll).
  unfold execLoop in E. rewrite Ha, HC in E.
  unfold at_ in E. destruct (Z.ltb_spec (loopIndex q) 0); [lia|]. rewrite Hx in E. cbn [with_] in E.
  rewrite Hin, getOffset_off, Hxc in E.
  assert ((inputOffset x =? off cs (pos st)) && (qmin q <? count) =
          (qmin q <? count) && (start =? pos st)%nat) as Hcond.
  { destruct (Z.ltb_spec (qmin q) count); [|apply andb_false_r]. rewrite andb_true_r. cbn [andb].
    destruct Hxo as [|[Hst ->]]; [lia|].
    destruct (Nat.eqb_spec start (pos st)) as [->|Hne]; [apply Z.eqb_refl|].
    apply Z.eqb_neq. by rewrite off_eq. }
  rewrite Hcond in E. cbn [iterate].
  destruct ((qmin q <? count) && (start =? pos st)%nat) eqn:Hzero.
  { eapply Yield_back; [exact E|done|]. split_and!; [done|by rewrite Hin|done|done]. }
  assert (forall r, r ∈ body (resetGroups q st) -> (measure (count + 1) (pos st) r < fuel)%nat) as Hmeas
    by (intros r Hr'; eapply measure_step; [exact Hm|lia|done|done|done]).
  unfold prepareGreedyLoop, prepareNonGreedyLoop, prepareLoopBody in E.
  destruct (Z.ltb_spec count (qmin q)).
  { eapply Yield_push; [exact E|exact Hs|]. intros b Hb cfg' E'. cbn beta in E'.
    eapply (loop_enter fuel count st K s m x b); [exact IH|done|lia|done|done|done|done|done|exact Hb|exact E']. }
  destruct (Z.eqb_spec count (qmax q)).
  { eapply Yield_next; [exact E|]. eapply (Yield_rebase _ _ []);
      [apply (Yield_one z J [] O K st); [done|]|intros i Hi; by apply not_elem_of_nil in Hi|done].
    by split_and!. }
  destruct (greedy q).
  - eapply Yield_push; [exact E|exact Hs|]. intros b Hb cfg' E'. cbn beta in E'.
    rewrite Hin in Hb. change (iter (at_off cs (pos st))) with (off cs (pos st)) in Hb.
    eapply Yield_push; [exact E'|exact Hb|]. intros b' Hb' cfg'' E''. cbn beta in E''.
    eapply (Yield_app _ _ A A _ K [SetIns z (off cs (pos st))]); [|done|by repeat constructor|done|apply loopsEq_refl|].
    + eapply (loop_enter fuel count st _ (setBts s b) m x b');
        [exact IH|done|lia|done| |done|done|done|exact Hb'|exact E''].
      by split_and!.
    + intros s' m' Ho' Hf. eapply Yield_setIns; [exact Hf|done|done|]. intros s'' m'' Ho'' Hr'' Hl''.
      eapply (Yield_rebase _ _ []); [by apply (Yield_one z J [] O K st)|intros i Hi; by apply not_elem_of_nil in Hi|done].
  - eapply Yield_push; [exact E|exact Hs|]. intros b Hb cfg' E'. cbn beta in E'.
    rewrite Hin, Ha in Hb. change (iter (at_off cs (pos st))) with (off cs (pos st)) in Hb.
    eapply Yield_push; [exact E'|exact Hb|]. intros b' Hb' cfg'' E''. cbn beta in E''.
    cbn [app]. eapply (Y_cons _ _ _ _ _ _ _ _ _ _ _ m [NonGreedyLoop (loopIndex q) x; SetIns a (off cs (pos st))]);
      [by apply leads_step|done| |done|by repeat constructor|done|].
    + by split_and!.
    + intros s' m' Ho' (Hs' & Ht' & Hc' & Hl'). pose proof Hs' as (He' & Hcap' & Hi').
      cbn [app] in He', Hcap'. rewrite !zlen_cons in Hcap'.
      eapply Yield_resume; [unfold backtrack; rewrite He'; done|done|]. intros m'' Ho''.
      rewrite pushNeverFail_ok by lia. cbn [stackCap].
      assert (loopStates s' !! li = Some x) as Hx' by (by rewrite (proj2 Hl')).
      eapply (Yield_rebase _ _ A A _ _ _ (loopStates s')); [|done|exact Hl'].
      eapply enter_sim; [exact IH|exact Hmeas|lia|done| | |exact Hx'|].
      * split_and!; [done|cbn; unfold setIter, at_off; by rewrite Ht'|split_and!; [done|cbn; rewrite zlen_cons; lia|done]|done].
      * split_and!; [done|done|done|]. unfold zlen in *. by rewrite (proj1 Hl').
      * cbn. unfold set_, enterBody. rewrite Hxc. f_equal. unfold setIter. rewrite Ht'.
        change {| text := encodes cs; iter := off cs (pos st) |} with (at_off cs (pos st)).
        rewrite getOffset_off, wrap_small; [done|].
        change UNLIMIT with 4294967295 in Hmax. unfold in_unsigned. change (2 ^ 32) with 4294967296. lia.
Qed.
End loop.

Lemma sim_repeat lb q p a e z :
  C !! a = Some (BeginLoopIns (loopIndex q) (qmin q) (qmax q) (greedy q) z) ->
  resetAt C q a -> Sim lb p (bodyAddr q a) e -> C !! e = Some (EndLoopIns a) ->
  Sim lb (RepeatNode q p) a z.
Proof.
  intros HC Hreset Hbody HE open O J K st s m (Hw & Hli & Hq & Hmax & Hg) HO Hpre Ho Hr.
  pose proof (stp_running _ _ _ _ _ m _ Hr HC) as E. pose proof Hr as (Ha & Hin & Hs & Hc).
  cbn [groupsOf loopsOf innerLoops outerLoops sem] in *.
  destruct Hpre as [H1 H2 H3 H4 H5 H6 H7 H8 H9].
  set (li := Z.to_nat (loopIndex q)) in *.
  destruct (lookup_lt_is_Some_2 (loopStates s) li) as [x Hx]; [unfold zlen in H4; lia|].
  pose proof (lookup_lt_Some _ _ _ Hx) as Hlt.
  assert (li ∉ J) as HliJ by (apply H9; by left).
  cbn [execInst] in E. unfold execBeginLoop, at_ in E. destruct (Z.ltb_spec (loopIndex q) 0); [lia|].
  fold li in E. rewrite Hx in E. cbn [with_] in E.
  eapply Yield_push; [exact E|exact Hs|]. intros b Hb cfg' E'. cbn beta in E'. unfold set_ in E'. fold li in E'.
  eapply (Yield_trail _ _ _ _ _ [SetLoopState (loopIndex q) x]).
  - eapply (loop_all lb q p a e z HC Hreset Hbody HE open O J) with
      (s := setLoops (setBts s b) (<[li := emptyLoop]> (loopStates (setBts s b)))) (x := emptyLoop);
      [done|done|done|done|done|exact Hg| |done|done|done| | |lia|exact E'|done| | |by split; [|left]|].
    + intros i Hi. destruct (H6 i Hi) as [Hun HOi]. split; [done|].
      apply lookup_lt_Some in Hun. unfold zlen in H3. lia.
    + intros i Hi. apply H9. by right.
    + unfold measure, loopFuel, dist. destruct (_ && _), lb; lia.
    + by split_and!.
    + cbn. by apply list_lookup_insert_eq.
    + split_and!; [done|done|done|]. cbn. unfold zlen in *. by rewrite length_insert.
  - by repeat constructor.
  - done.
  - cbn. apply loopsEq_insert. by left.
  - intros l [Hl1 Hl2]. cbn in Hl1, Hl2. rewrite length_insert in Hl1. cbn [undoLoops]. unfold set_. fold li.
    split; [by rewrite length_insert|]. intros i Hi. destruct (decide (i = li)) as [->|Hne].
    + rewrite Hx. apply list_lookup_insert_eq. lia.
    + rewrite list_lookup_insert_ne by done. rewrite Hl2 by done. by apply list_lookup_insert_ne.
Qed.

(** ** Sets of strings *)

Lemma stackOk_updateRadixState s k k' K : stackOk s (RadixState k :: K) ->
  stackOk (updateRadixState s k') (RadixState k' :: K).
Proof. intros (He & Hc & Hi). unfold updateRadixState. rewrite He. by split_and!. Qed.

(** Dropping the radix state. *)
Lemma Yield_radix z J A O K c0 l0 n rs c :
  Yield z J A O (RadixState n :: K) c0 l0 rs c -> Yield z J A O K c0 l0 rs c.
Proof. intros Hy. eapply (Yield_trail _ _ _ _ _ [RadixState n]); [exact Hy|by repeat constructor|done|done|done]. Qed.

Lemma segment_shorter lb k st : (pos st <= length cs)%nat -> (S k <= room cs lb st)%nat ->
  (if lb then unsafeRemovePrefixUtf8 else unsafeRemoveSuffixUtf8) (encodes (segment cs lb (S k) st)) =
    encodes (segment cs lb k st).
Proof.
  intros Hpos Hk. pose proof (segment_codePoints cs lb (S k) st Hcs) as Hc. unfold segment, room in *. destruct lb.
  - destruct (lookup_lt_is_Some_2 cs (pos st - S k)) as [x Hx]; [lia|].
    rewrite (drop_S _ _ _ Hx) in Hc |- *. cbn [firstn] in *. rewrite removePrefix_encodes by (by apply Forall_cons in Hc as [? _]).
    do 3 f_equal. lia.
  - destruct (lookup_lt_is_Some_2 cs (pos st + k)) as [x Hx]; [lia|].
    rewrite (take_S_r _ _ x) in Hc |- * by (by rewrite lookup_drop). by rewrite removeSuffix_encodes.
Qed.

(** The tests of one code point have no groups and no loops, and fail at the end of the text. *)
Lemma isTest_leaf c : isTest c = true -> groupsOf c = [] /\ loopsOf c = [] /\ innerLoops c = [] /\ outerLoops c = [].
Proof. by destruct c. Qed.

Lemma isTest_end lb c st : isTest c = true -> (pos st <= length cs)%nat -> room cs lb st = O -> semN lb c st = [].
Proof.
  intros Ht Hpos Hr. unfold room in Hr.
  assert (forall test, testChar cs lb test st = []) as E; [|destruct c; try done; apply E].
  intros test. unfold testChar. destruct lb; [by rewrite prev_none|by rewrite cur_none by lia].
Qed.

Section strSet.
Context (lb : bool) (radix : RadixTree.RadixTree) (ic : bool) (buf : bytes) (index a z : Z) (chars : option Node).
Context (Hrw : RadixTree.wf radix) (Hre : RadixTree.empty radix = false).
Context (Hrs : forall s q, RadixTree.maps radix s q -> isString s).
Context (Hpk : RadixPacked.packs radix buf).
Context (Hmt : matcherAt (matchers re) index = Some (ofRadix buf (u16 (RadixTree.maxCodePointCount radix)))).
Context (Hprep : C !! a = Some (prepareIns lb)).
Context (Hcode : C !! (a + 1) = Some (radixIns lb emojiNone ic true index (z - (a + 7)))).
Context (Hchars : match chars with
                  | Some c => isTest c = true /\ a + 7 < z /\ Sim lb c (a + 7) z
                  | None => z = a + 7
                  end).

Abbreviation test := (strTest emojiNone radix ic).
Abbreviation charsOf := (fun st => match chars with Some c => semN lb c st | None => [] end).

(** What the labels make of the radix state of [n] code points. *)
Lemma sim_radix open O J : match chars with Some c => wf lb open c | None => True end -> openIn O open ->
  forall n K st s m cfg, Pre O J [] [] [] [] st s -> (0 < n <= room cs lb st)%nat -> oldIter m = o ->
  running O (RadixState (zlen (encodes (segment cs lb n st))) :: K) st (a + 1) s ->
  stp cfg = outc (radixOrEmoji lb (matchers re) s (setEmoji ic) true index (z - (a + 7))) m ->
  Yield z J [] O K (caps st) (loopStates s) (strings cs lb test n st ++ charsOf st) cfg.
Proof.
  intros Hwc HO n. induction (lt_wf n) as [n _ IH]. intros K st s m cfg Hpre Hn Ho Hr E.
  pose proof (pre_pos _ _ _ _ _ _ _ _ Hpre) as Hpos. pose proof Hr as (Ha & Hin & Hs & Hc).
  rewrite (radixOrEmoji_spec radix Hrw Hrs ic buf Hpk (matchers re) index Hmt cs Hcs lb n st s _ K) in E
    by (try done; apply Hs).
  rewrite strings_greatest. pose proof (greatest_le (fun k => test (segment cs lb k st)) n) as Hle.
  pose proof (greatest_true (fun k => test (segment cs lb k st)) n) as Ht.
  destruct (greatest (fun k => test (segment cs lb k st)) n) as [|k] eqn:Ek; cbn [app].
  - destruct chars as [c|].
    + destruct Hchars as (Hct & Haz & Hcs'). rewrite (proj2 (Z.eqb_neq _ _)) in E by lia. cbn [negb] in E.
      destruct (isTest_leaf c Hct) as (Eg & El & Ei & Eo). eapply Yield_radix, Yield_next; [exact E|].
      change (loopStates s) with (loopStates (setInst s (inst s + 6))). rewrite <- El.
      eapply Hcs'; [exact Hwc|done|rewrite Eg, El, Ei, Eo; by destruct Hpre; split|done|].
      split_and!; [cbn; rewrite Ha; lia|done|apply Hs..|done].
    + rewrite (proj2 (Z.eqb_eq _ _)) in E by lia. cbn [negb] in E.
      eapply Yield_radix, Yield_back; [exact E|done|]. split_and!; [apply Hs..|by rewrite Hin|done|done].
  - specialize (Ht ltac:(done)). apply (inStrSet_maps radix Hrw) in Ht as [q Hq].
    assert (0 < k)%nat as Hk.
    { destruct (Hrs _ _ Hq) as (l & El & Hl & Hz & _). apply encodes_inj in El as <-; [|by apply foldings_codePoints, segment_codePoints|done].
      unfold zlen in Hz. rewrite length_map, segment_length in Hz by (done || lia). lia. }
    eapply Yield_push; [exact E|by eapply stackOk_updateRadixState|]. intros b Hb c' E'. cbn beta in E'. rewrite Ha in Hb.
    eapply (Y_cons _ _ _ _ _ _ _ _ _ _ _ m [SetIns (a + 1) (off cs (pos st)); RadixState (zlen (encodes (segment cs lb (S k) st)))]);
      [by apply leads_step|done| |done|by repeat constructor|done|].
    + cbn [app]. split_and!; [cbn; rewrite Ha; lia|done|apply Hb..|done].
    + cbn [app]. intros s' m' Ho' Hf. eapply Yield_setIns; [exact Hf|done|done|].
      intros s'' m'' Ho'' Hr'' Hl''. cbn in Hl''. pose proof Hr'' as (Ha'' & Hin'' & Hs'' & Hc'').
      assert (stp (DISPATCH, s'', m'') =
        outc (radixOrEmoji lb (matchers re) (updateRadixState s'' (zlen (encodes (segment cs lb k st)))) (setEmoji ic) true index (z - (a + 7))) m'') as E2.
      { rewrite (stp_dispatch _ _ _ ltac:(rewrite Ha''; exact Hcode)). pose proof (segment_shorter lb k st Hpos ltac:(lia)) as Esh.
        pose proof (bytes_segment cs lb (S k) st Hpos ltac:(lia)) as Eby. rewrite <- Hin'' in Eby.
        unfold radixIns. fold (setEmoji ic). destruct lb; cbn [execInst]; unfold execLBRadixOrEmoji, execRadixOrEmoji, radixState;
          rewrite (proj1 Hs''); cbn [with_]; by rewrite Eby, Esh. }
      eapply (Yield_rebase _ _ [] []); [|done|exact Hl''].
      eapply (IH k ltac:(lia) K st (updateRadixState s'' _) m''); [|lia|done| |exact E2].
      * destruct Hpre as [H1 H2 H3 H4 H5 H6 H7 H8 H9]. split; try done. cbn. unfold zlen in *. by rewrite (proj1 Hl'').
      * split_and!; [done|done|by eapply stackOk_updateRadixState|done].
Qed.

Lemma sim_strSet : Sim lb (StrSetNode emojiNone radix chars ic) a z.
Proof.
  intros open O J K st s m (_ & _ & _ & _ & Hwc) HO Hpre Ho Hr.
  pose proof (stp_running _ _ _ _ _ m _ Hr Hprep) as E. pose proof Hr as (Ha & Hin & Hs & Hc).
  pose proof (pre_pos _ _ _ _ _ _ _ _ Hpre) as Hpos.
  assert (match chars with Some c => wf lb open c | None => True end) as Hwc' by (destruct chars; [apply Hwc|done]).
  set (n := Nat.min (Z.to_nat (RadixTree.maxCodePointCount radix)) (room cs lb st)).
  destruct (maxCodePointCount_spec radix Hrs) as [Hk Hmax].
  assert (stp (DISPATCH, s, m) = outc (tryPush (setInst s (a + 1)) (RadixState (zlen (encodes (segment cs lb n st))))
    (fun s => radixOrEmoji lb (matchers re) s (setEmoji ic) true index (z - (a + 7)))) m) as E'.
  { rewrite E. unfold prepareIns. pose proof (remain_segment cs Hcs lb (RadixTree.maxCodePointCount radix) st Hpos ltac:(lia)) as Er.
    fold n in Er. rewrite <- Hin in Er.
    assert (u32 (zlen (encodes (segment cs lb n st))) = zlen (encodes (segment cs lb n st))) as Eu.
    { apply wrap_small. unfold in_unsigned. change (2 ^ 32) with 4294967296. change INPUT_MAX with 4294967295 in Hlen.
      pose proof (zlen_nonneg (encodes (segment cs lb n st))).
      pose proof (split_off cs (if lb then pos st - n else pos st)%nat) as Es.
      pose proof (split_off (drop (if lb then pos st - n else pos st)%nat cs) n) as Es2. fold (segment cs lb n st) in Es2.
      rewrite Es, Es2, !zlen_app in Hlen. pose proof (zlen_nonneg (encodes (take (if lb then pos st - n else pos st)%nat cs))).
      pose proof (zlen_nonneg (encodes (drop n (drop (if lb then pos st - n else pos st)%nat cs)))). lia. }
    pose proof (codePointCount_spec radix Hrs ic buf Hpk (matchers re) index Hmt) as Ec.
    destruct lb; cbn [execInst]; unfold execPrepareLBRadix, execPrepareRadix; rewrite Ha, Hcode; unfold radixIns; fold (setEmoji ic);
      cbv iota; unfold prepareRadix; rewrite Ec; cbn [with_ setInst input inst]; by rewrite Er, Eu, Ha. }
  eapply Yield_push; [exact E'|exact Hs|]. intros b Hb c' E2. cbn beta in E2. clear E E'. cbn [loopsOf sem].
  assert (loopsOf (StrSetNode emojiNone radix chars ic) = []) as El by done.
  destruct (decide (room cs lb st = 0%nat)) as [Hroom|Hroom].
  - assert (n = 0%nat) as En by (unfold n; lia). rewrite Hroom. cbn [strings app].
    assert (match chars with Some c => semN lb c st | None => [] end = []) as ->.
    { destruct chars as [c|]; [|done]. by apply isTest_end; [apply Hwc|..]. }
    unfold radixOrEmoji, radixState in E2. rewrite (proj1 Hb) in E2. cbn [with_] in E2.
    rewrite (segment_size cs Hcs) in E2 by (done || lia). rewrite En in E2. cbn in E2.
    eapply Yield_radix, Yield_back; [exact E2|done|]. split_and!; [apply Hb..|cbn; by rewrite Hin|done|done].
  - rewrite (strings_within radix Hrw Hrs ic cs Hcs lb st Hpos). fold n.
    change (loopStates s) with (loopStates (setBts (setInst s (a + 1)) b)).
    eapply sim_radix; [exact Hwc'|exact HO|by destruct Hpre; split| |exact Ho| |exact E2].
    + destruct (RadixPacked.wf_inhabited radix Hrw) as [->|(s0 & q0 & Hq0)]; [done|].
      destruct (Hrs _ _ Hq0) as (l & El0 & Hl & Hz & _). rewrite El0 in Hq0. pose proof (Hmax l q0 Hl Hq0). unfold n. lia.
    + by split_and!.
Qed.
End strSet.

Lemma sim_strSetAt lb emoji radix chars ic a z :
  strSetAt C (matchers re) lb emoji radix ic a z ->
  match chars with Some c => comp C (matchers re) lb c (a + 7) z /\ Sim lb c (a + 7) z | None => z = a + 7 end ->
  Sim lb (StrSetNode emoji radix chars ic) a z.
Proof.
  intros (Hp & index & Hra & Hc) Hch open O J K st s m Hw. pose proof Hw as (-> & He & Hrw & Hrs & Hwc).
  unfold radixAt in Hra. rewrite He in Hra, Hc. destruct Hra as (buf & Hbuf & Hm).
  eapply sim_strSet; [exact Hrw|done|exact Hrs| |exact Hm|exact Hp|exact Hc| |exact Hw].
  - eapply RadixPacked.serialize_packs; [|exact Hbuf]. by apply radix_good.
  - destruct chars as [c|]; [|done]. split_and!; [apply Hwc|eapply test_size; [apply Hwc|apply Hch]|apply Hch].
Qed.

(** ** Every node *)

Lemma simulation lb n a z : comp C (matchers re) lb n a z -> Sim lb n a z.
Proof.
  apply (comp_mind C (matchers re) Sim SimSeq SimAlt).
  - apply sim_empty.
  - intros lb' n' i a' z' Hi HC Hz. destruct n'; try done.
    + by eapply sim_any.
    + by eapply sim_char.
    + by eapply sim_boundary.
    + by eapply sim_backRef.
    + by eapply sim_foldChar.
    + injection Hi as <-. subst z'. by apply sim_grapheme.
  - intros. by eapply sim_set.
  - intros lb' q p a' e z' HC Hr _ Hp HE ->. by eapply sim_repeat.
  - intros lb' l a' z' _ Hs. by apply sim_seq.
  - intros lb' p a' z' HC _ Hp. by apply sim_opt.
  - intros lb' l a' z' Hl _ Hs. by apply sim_alt.
  - intros lb' t p a' e z' HC _ Hp HE ->. by eapply sim_look.
  - intros lb' i p a' e z' HC _ Hp HE ->. eapply sim_group; [exact HC|exact Hp|exact HE|done].
  - intros lb' emoji radix ic a' Hat. by apply sim_strSetAt.
  - intros lb' emoji radix c ic a' z' Hat Hcc Hc. by apply sim_strSetAt.
  - intros lb' a' open O J K st s m _ _ _ _ Ho Hr. by apply Yield_one.
  - intros lb' run rest index a' z' _ HC Hm _ Hs. by eapply simSeq_run.
  - intros lb' n' rest a' b z' _ Hn _ Hs. by eapply simSeq_cons.
  - intros lb' z' n' a' _ Hn. by apply simAlt_last.
  - intros lb' z' n' rest a' e HC _ Hn HJ _ Hs. by eapply simAlt_jump.
  - intros lb' z' n' a' HC _ Hn. by apply simAlt_skip.
Qed.
End sim.
End RegexSim.
