(* ===== verification/RegexCorrect.v ===== *)
(** Correctness of the matcher: the virtual machine on the code of a pattern finds
    the match of the specification, the first in the text and the preferred one at
    its position, or reports that there is none, or reports a limit; it always
    ends. *)
From stdpp Require Import relations.
From S2P Require Import Prelude Unicode StringRef CodePointSet RegexMatcher RegexNode RegexInput.
From S2P Require Import RegexText RegexSpec RegexInst RegexPrefilter RegexEmit RegexLayout.
From S2P Require Import RegexFirst RegexVM RegexSim.

Module RegexCorrect.
Import UnicodeUtil RegexMatcher RegexNode RegexInput RegexText RegexSpec RegexInst RegexPrefilter
  RegexEmit RegexLayout RegexFirst RegexVM RegexSim.

(** ** Bytes at code point boundaries *)

Lemma encode_tail c i b : isCodePoint c = true -> codePointToUtf8 c !! S i = Some b -> 0x80 <= b < 0xC0.
Proof.
  intros Hc Hi. rewrite codePointToUtf8_encode in Hi by done.
  destruct (encode_cases c Hc) as [[E _]|[(?&?&E&_&?&_)|[(?&?&?&E&_&?&?&_)|(?&?&?&?&E&_&?&?&?&_)]]];
    rewrite E in Hi; cbn [lookup list_lookup] in Hi;
    repeat (destruct i as [|i]; cbn [lookup list_lookup] in Hi; [injection Hi as <-; assumption|]);
    discriminate.
Qed.

(** A byte that is no continuation byte begins a code point. *)
Lemma lead_boundary cs n b : codePoints cs -> encodes cs !! n = Some b -> ~ (0x80 <= b < 0xC0) ->
  exists j, (j < length cs)%nat /\ Z.of_nat n = off cs j.
Proof.
  intros Hcs. revert n. induction Hcs as [|c cs Hc Hcs IH]; intros n Hn Hb; [done|].
  rewrite encodes_cons in Hn. destruct (decide (n < length (codePointToUtf8 c))%nat) as [Hl|Hl].
  - rewrite lookup_app_l in Hn by done. destruct n as [|n]; [exists O; split; [simpl; lia|done]|].
    by apply encode_tail in Hn.
  - rewrite lookup_app_r in Hn by lia. destruct (IH _ Hn Hb) as (j & Hj & E).
    exists (S j). split; [simpl; lia|]. unfold off in *. cbn [firstn]. rewrite encodes_cons, zlen_app.
    unfold zlen at 1. lia.
Qed.

Lemma encodes_head c cs : isCodePoint c = true -> encodes (c :: cs) !! O = Some (firstByte c).
Proof. intros Hc. destruct (firstByte_encode c Hc) as (r & E & _). by rewrite encodes_cons, E. Qed.

(** An occurrence of an encoded string begins and ends at boundaries. *)
Lemma occurrence_boundary cs ys n t : codePoints cs -> codePoints ys -> ys <> [] ->
  drop n (encodes cs) = encodes ys ++ t ->
  exists j, (j < length cs)%nat /\ Z.of_nat n = off cs j /\ take (length ys) (drop j cs) = ys.
Proof.
  intros Hcs Hys Hne E. destruct ys as [|y ys]; [done|]. pose proof (Forall_inv Hys) as Hy.
  destruct (lead_boundary cs n (firstByte y)) as (j & Hj & Ho); [done| |apply firstByte_range|].
  { rewrite <- (Nat.add_0_r n), <- lookup_drop, E. rewrite lookup_app_l.
    - by apply encodes_head.
    - eapply lookup_lt_Some. by apply encodes_head. }
  exists j. split_and!; [done|done|].
  assert (n = Z.to_nat (off cs j)) as -> by lia. rewrite drop_off in E.
  apply encodes_prefix in E as (zs & -> & _); [|by apply codePoints_drop|done].
  by rewrite take_app_length.
Qed.

Lemma scanFirst_spec fs rest : forall p,
  (exists n b, scanFirst fs rest p = (true, p + Z.of_nat n) /\ rest !! n = Some b /\ Z.testbit fs b = true /\
     forall m b', (m < n)%nat -> rest !! m = Some b' -> Z.testbit fs b' = false) \/
  scanFirst fs rest p = (false, p + zlen rest) /\
    forall m b', rest !! m = Some b' -> Z.testbit fs b' = false.
Proof.
  induction rest as [|b rest IH]; intros p; cbn [scanFirst].
  { right. split; [change (zlen []) with 0; f_equal; lia|]. intros m b' Hm. by rewrite lookup_nil in Hm. }
  destruct (Z.testbit fs b) eqn:Hb.
  - left. exists O, b. split_and!; [f_equal; lia|done|done|lia].
  - destruct (IH (p + 1)) as [(n & b1 & -> & Hn & Hb1 & Hall)|[-> Hall]].
    + left. exists (S n), b1. split_and!; [f_equal; lia|done|done|].
      intros [|m] b' Hm E; [by injection E as <-|]. eapply Hall; [|exact E]. lia.
    + right. split; [rewrite zlen_cons; f_equal; lia|]. intros [|m] b' E; [by injection E as <-|]. by eapply Hall.
Qed.

(** ** What a well-formed tree gives *)

Lemma wfNode_lowered groups lc gc n : forall lb open, wfNode groups lc gc lb open n -> lowered n.
Proof.
  induction n as [|m|c|t m|nm i ic|q p IH|l IH|l IH|t p IH|t i p IH|c|s i ic|e r chars ic IH|] using Node_nested_ind;
    intros lb open Hw; cbn [lowered wfNode] in *; try done.
  - destruct Hw as [Hw _]. by eapply IH.
  - destruct Hw as [_ Hw]. induction IH as [|n l Hn _ IH]; [done|]. cbn [foldr] in *.
    destruct Hw as [Hw Hl]. split; [by eapply Hn|by apply IH].
  - destruct Hw as [Hne Hw]. split; [done|]. clear Hne.
    induction IH as [|n l Hn _ IH]; [done|]. cbn [foldr] in *.
    destruct Hw as [Hw Hl]. split; [by eapply Hn|by apply IH].
  - destruct Hw as [Hw _]. by eapply IH.
  - destruct t; try done. destruct Hw as [_ Hw]. split; [done|by eapply IH].
  - destruct Hw as (_ & _ & _ & _ & Hw). destruct chars as [c|]; [|done]. destruct Hw as [_ Hw]. by eapply IH.
Qed.

Lemma wfNode_groups groups lc gc n : forall lb open i, wfNode groups lc gc lb open n -> i ∈ groupsOf n ->
  Z.of_nat i <= gc.
Proof.
  assert (forall l, Forall (fun n => forall lb open i, wfNode groups lc gc lb open n -> i ∈ groupsOf n ->
    Z.of_nat i <= gc) l -> forall lb open i, foldr (fun x r => wfNode groups lc gc lb open x /\ r) True l ->
    i ∈ flat_map groupsOf l -> Z.of_nat i <= gc) as Hlist.
  { intros l IH lb open i Hw Hi. apply foldr_Forall in Hw. apply elem_flat_map in Hi as (x & Hx & Hi).
    rewrite Forall_forall in IH, Hw. eapply IH; [done|by apply Hw|done]. }
  induction n as [|m|c|t m|nm i ic|q p IH|l IH|l IH|t p IH|t j p IH|c|s i ic|e r chars ic IH|] using Node_nested_ind;
    intros lb open k Hw Hk; cbn [wfNode groupsOf] in *; try by apply not_elem_of_nil in Hk.
  - destruct Hw as [Hw _]. by eapply IH.
  - destruct Hw as [_ Hw]. by eapply Hlist.
  - destruct Hw as [_ Hw]. by eapply Hlist.
  - destruct Hw as [Hw _]. by eapply IH.
  - destruct t; try done. destruct Hw as [Hj Hw].
    apply elem_of_cons in Hk as [->|Hk]; [lia|by eapply IH].
Qed.

(** ** Runs that end *)

Section ends.
Context `{Ucd} (timer : option (nat -> TimerStatus)) (re : Regex) (isPrefilter : bool).

Abbreviation stp := (stp timer re isPrefilter).
Abbreviation reaches := (reaches timer re isPrefilter).
Abbreviation leads := (leads timer re isPrefilter).
Abbreviation aborts := (aborts timer re isPrefilter).

Definition fin (c : Config) (R : Result) : Prop := exists d, reaches c d /\ stp d = inl R.

Lemma fin_leads c c' R : leads c c' -> fin c' R -> fin c R.
Proof.
  intros (d & Hd & Ed) (e & He & Ee). inversion He as [|? b' ? Hb Hr]; subst.
  - exists d. split; [done|congruence].
  - exists e. split; [|done]. etrans; [exact Hd|]. eapply rtc_l; [|exact Hr]. congruence.
Qed.

Lemma fin_reaches c d R : reaches c d -> fin c R <-> fin d R.
Proof.
  intros Hr. split.
  - induction Hr as [|c x d Hx _ IH]; [done|]. intros (e & He & Ee). apply IH.
    inversion He as [|? y ? Hy Hr']; subst; [congruence|]. exists e. split; [|done].
    rewrite Hx in Hy. by injection Hy as <-.
  - intros (e & He & Ee). exists e. split; [by etrans|done].
Qed.

Lemma run_fin l s m R : fin (l, s, m) R ->
  exists n, forall fuel, (n <= fuel)%nat -> run timer re isPrefilter fuel l s m = R.
Proof.
  intros (d & Hd & Ed). remember (l, s, m) as c eqn:Ec. revert l s m Ec.
  induction Hd as [c|c x d Hx _ IH]; intros l s m ->.
  - exists 1%nat. intros [|fuel] Hf; [lia|]. cbn [run]. cbn in Ed. by rewrite Ed.
  - destruct x as [[l' s'] m']. destruct (IH Ed _ _ _ eq_refl) as [n Hn]. exists (S n).
    intros [|fuel] Hf; [lia|]. cbn [run]. cbn in Hx. rewrite Hx. apply Hn. lia.
Qed.
End ends.

(** ** One attempt *)

Section correct.
Context `{Ucd} `{!UcdLaws} (timer : option (nat -> TimerStatus)) (re : Regex) (isPrefilter : bool).
Context (tree : SyntaxTree) (Hwf : wfTree tree) (Hgen : codeGen tree = Some re).
Context (cs : list Z) (Hcs : codePoints cs) (Hlen : zlen (encodes cs) <= INPUT_MAX).

Abbreviation stp := (stp timer re isPrefilter).
Abbreviation reaches := (reaches timer re isPrefilter).
Abbreviation leads := (leads timer re isPrefilter).
Abbreviation aborts := (aborts timer re isPrefilter).
Abbreviation fin := (fin timer re isPrefilter).
Abbreviation gc := (captureGroupCount tree).
Abbreviation semP k := (sem cs (namedCaptureGroups tree) false (pattern tree) (initSt gc k)).
Abbreviation find_ n k := (searchFrom cs (namedCaptureGroups tree) (pattern tree) gc n k).

(** The machine at the beginning of an attempt at [k]. *)
Definition ready (k : nat) (s : VM) (m : Search) : Prop :=
  inst s = 0 /\ input s = at_off cs k /\ captures s = resetCaps gc /\
  zlen (loopStates s) = loopCount tree /\ stackOk s [] /\ oldIter m = off cs k.

(** The captures of a match of the pattern from [i]. *)
Definition capturesOf (i : nat) (r : St) : list Capture :=
  map (render cs) (<[0%nat := Some (i, pos r)]> (caps r)).

(** How the machine ends for a result of the search. *)
Definition Ends (c : Config) (res : option (nat * St)) : Prop :=
  aborts c \/
  match res with
  | Some (i, r) => exists s, fin c (Finished OK s) /\ input s = at_off cs (pos r) /\
      captures s = capturesOf i r /\ zlen (loopStates s) = loopCount tree
  | None => exists s, fin c (Finished FAIL s) /\ input s = at_off cs (length cs) /\
      zlen (loopStates s) = loopCount tree
  end.

Lemma aborts_fin c : aborts c <-> exists status s, fin c (Finished status s) /\ isLimit timer status.
Proof.
  split.
  - intros (d & status & s & Hd & Ed & Hl). exists status, s. split; [by exists d|done].
  - intros (status & s & (d & Hd & Ed) & Hl). by exists d, status, s.
Qed.

Lemma Ends_iff c c' res : (forall R, fin c R <-> fin c' R) -> Ends c res <-> Ends c' res.
Proof.
  intros Hf. unfold Ends. rewrite !aborts_fin. destruct res as [[i r]|]; setoid_rewrite Hf; done.
Qed.

Lemma Ends_reaches c d res : reaches c d -> Ends c res <-> Ends d res.
Proof. intros Hr. apply Ends_iff. intros R. by apply fin_reaches. Qed.

Lemma Ends_leads c c' res : leads c c' -> Ends c' res -> Ends c res.
Proof.
  intros Hl [Ha|Hr]; [left; by eapply leads_aborts|right].
  destruct res as [[i r]|]; destruct Hr as (s & Hf & Hs); exists s; (split; [by eapply fin_leads|done]).
Qed.

Lemma capsRel_render c vc : capsRel cs ∅ c vc -> vc = map (render cs) c.
Proof.
  intros [_ Hv]. apply list_eq. intros i. specialize (Hv i). rewrite lookup_empty in Hv.
  by rewrite list_lookup_fmap.
Qed.

Lemma initial_caps : capsRel cs ∅ (caps (initSt gc 0)) (resetCaps gc).
Proof.
  unfold resetCaps, initSt. cbn [caps]. split; [by rewrite !length_replicate|]. intros i.
  rewrite lookup_empty.
  destruct (decide (i < Z.to_nat (gc + 1))%nat).
  - by rewrite !lookup_replicate_2 by done.
  - by rewrite !lookup_ge_None_2 by (rewrite length_replicate; lia).
Qed.

Lemma codeGen_wf : exists z,
  comp (instSeq re) (matchers re) false (pattern tree) 0 z /\ instSeq re !! z = Some MatchIns /\
  firstBitSet re = createFirstBitSet (instSeq re) (z + 1) (matchers re) /\
  regexLoopCount re = loopCount tree /\ regexCaptureGroupCount re = gc /\
  named re = namedCaptureGroups tree.
Proof. apply codeGen_layout; [|done]. by eapply wfNode_lowered, Hwf. Qed.

Lemma initial_Pre k s : (k <= length cs)%nat -> zlen (loopStates s) = loopCount tree ->
  Pre re cs ∅ (innerLoops (pattern tree)) (groupsOf (pattern tree)) (loopsOf (pattern tree))
    (innerLoops (pattern tree)) (outerLoops (pattern tree)) (initSt gc k) s.
Proof.
  intros Hk Hl. destruct codeGen_wf as (z & _ & _ & _ & Elc & Egc & _).
  destruct Hwf as (Hw & Hg & Hnl & Hgc & _ & _). constructor; try done.
  - intros i a b Hi. apply lookup_replicate in Hi as [Hi _]. done.
  - cbn [initSt caps]. unfold zlen. rewrite length_replicate. lia.
  - lia.
  - intros i Hi. split; [|done]. pose proof (wfNode_groups _ _ _ _ _ _ _ Hw Hi).
    apply lookup_replicate_2. lia.
  - intros i Ho Hi. rewrite loops_split in Hnl. apply NoDup_app in Hnl as (_ & Hd & _). by apply (Hd i).
Qed.

(** The machine after the [Match] instruction. *)
Definition matched (s : VM) (k : nat) (r : St) : VM :=
  setCaptures s (set_ (captures s) 0 (render cs (Some (k, pos r)))).

Lemma matched_captures s k r : capsRel cs ∅ (caps r) (captures s) ->
  captures (matched s k r) = capturesOf k r.
Proof.
  intros Hc. unfold matched, capturesOf, set_. cbn [captures setCaptures].
  rewrite (capsRel_render _ _ Hc). change (Z.to_nat 0) with O. by rewrite list_fmap_insert.
Qed.

Lemma fin_match z K s m k r : instSeq re !! z = Some MatchIns -> running cs ∅ K r z s ->
  oldIter m = off cs k -> (k <= length cs)%nat -> moves cs false (groupsOf (pattern tree)) (initSt gc k) r ->
  fin (DISPATCH, s, m) (Finished OK (matched s k r)).
Proof.
  intros HM (Hi & Hin & _ & Hlc & _) Ho Hk Hm. exists (DISPATCH, s, m). split; [apply rtc_refl|].
  rewrite (stp_dispatch _ _ _ _ _ MatchIns) by (by rewrite Hi). cbn [execInst].
  pose proof (moves_pos _ _ _ _ _ Hm Hk) as Hp. cbn [initSt pos] in Hp.
  destruct Hm as (Hle & _ & Hcl & _). destruct Hwf as (_ & _ & _ & Hgc & _).
  assert (0 < length (captures s))%nat as Hpos.
  { rewrite Hlc, Hcl. cbn [initSt caps]. rewrite length_replicate. lia. }
  unfold at_. change (0 <? 0) with false. change (Z.to_nat 0) with O. cbn [negb].
  destruct (lookup_lt_is_Some_2 (captures s) 0 Hpos) as [x ->]. cbn [with_ outc]. do 2 f_equal.
  unfold matched, render. do 2 f_equal. rewrite Ho, Hin. cbn [iter at_off].
  rewrite (off_u32 cs Hlen). f_equal. apply wrap_small. unfold in_unsigned.
  pose proof (off_mono cs k (pos r) Hp). pose proof (off_range cs k). pose proof (off_range cs (pos r)).
  unfold INPUT_MAX, UINT32_MAX in Hlen. change (2 ^ 32) with 4294967296. lia.
Qed.

(** The attempt fails and leaves an empty stack, or it gives the first result. *)
Lemma attempt k s m res : ready k s m -> (k <= length cs)%nat ->
  (forall r rs, semP k = r :: rs -> res = Some (k, r)) ->
  (forall s' m', semP k = [] -> oldIter m' = off cs k -> text (input s') = encodes cs ->
     zlen (loopStates s') = loopCount tree -> stackOk s' [] ->
     Ends (BACKTRACK, s', m') res) ->
  Ends (DISPATCH, s, m) res.
Proof.
  intros (Hi & Hin & Hc & Hl & Hst & Ho) Hk Hsome Hnone.
  destruct codeGen_wf as (z & Hcomp & HM & _ & Elc & Egc & En).
  pose proof (initial_Pre k s Hk Hl) as HP. destruct Hwf as (Hw & _ & _ & Hgc & _ & Hent).
  assert (capsRel cs ∅ (caps (initSt gc k)) (captures s)) as Hcr by (rewrite Hc; apply initial_caps).
  pose proof (simulation timer re isPrefilter cs Hcs Hlen (off cs k) ltac:(by unfold entriesOk; rewrite En)
    ltac:(rewrite Egc; apply Hgc) false (pattern tree) 0 z Hcomp [] ∅ (innerLoops (pattern tree)) []
    (initSt gc k) s m) as HY.
  rewrite Elc, Egc, En in HY. specialize (HY Hw ltac:(by intros i [? ?]) HP Ho (conj Hi (conj Hin (conj Hst Hcr)))).
  inversion HY as [rs c Ha|c s1 m1 Hlead Ho1 Hf|r rs c s1 m1 K1 Hlead Ho1 Hr Hls HK1 Hu Hcont]; subst.
  - by left.
  - eapply Ends_leads; [exact Hlead|]. destruct Hf as (Hst1 & Ht1 & _ & [Hl1 _]).
    apply Hnone; try done. unfold zlen in *. lia.
  - eapply Ends_leads; [exact Hlead|]. pose proof Hr as (Hi1 & Hin1 & _ & Hc1).
    rewrite (Hsome r rs) by done. right. exists (matched s1 k r).
    split_and!; [eapply fin_match; [exact HM|exact Hr|done|done|]|exact Hin1|by apply matched_captures|];
      [|destruct Hls as [Hls _]; unfold zlen in *; cbn; lia].
    eapply sem_sound; [exact Hw|done|]. match goal with E : _ :: _ = _ |- _ => rewrite <- E end. by left.
Qed.

(** ** Restarts and the prefilter *)

Lemma searchFrom_skip k j : (k <= j <= length cs)%nat ->
  (forall i, (k <= i < j)%nat -> semP i = []) ->
  find_ (length cs - k) k = find_ (length cs - j) j.
Proof.
  intros Hj Hno. remember (j - k)%nat as n eqn:En. revert k Hj Hno En.
  induction n as [|n IH]; intros k Hj Hno En; [by replace j with k by lia|].
  replace (length cs - k)%nat with (S (length cs - S k)) by lia. cbn [searchFrom].
  rewrite Hno by lia. apply IH; [lia| |lia]. intros i Hi. apply Hno. lia.
Qed.

(** After a failure the machine moves to the next code point, up to the end. *)
Lemma restart k s m : (k <= length cs)%nat -> oldIter m = off cs k -> text (input s) = encodes cs ->
  zlen (loopStates s) = loopCount tree -> stackOk s [] ->
  (k = length cs /\ forall res, res = None -> Ends (BACKTRACK, s, m) res) \/
  (k < length cs)%nat /\ exists s' m', ready (S k) s' m' /\ reaches (BACKTRACK, s, m) (START_, s', m').
Proof.
  intros Hk Ho Ht Hl (He & Hcap & Hini). set (s0 := setBts s {| entries := []; stackCap := stackCap (bts s) |}).
  assert (stp (BACKTRACK, s, m) = inr (RESTART, s0, m)) as E1.
  { cbn. unfold backtrack. by rewrite He. }
  assert (setIter (input s0) (oldIter m) = at_off cs k) as Ei by (unfold setIter, at_off; by rewrite Ho, <- Ht).
  destruct (decide (k = length cs)) as [->|Hne]; [left|right; split; [lia|]].
  - split; [done|]. intros res ->. rewrite (Ends_reaches _ (RESTART, s0, m)) by (by apply rtc_once).
    right. exists (setInput s0 (at_off cs (length cs))). split; [|by split].
    eexists. split; [apply rtc_refl|]. cbn [RegexSim.stp step]. rewrite Ei, available_off by done.
    by rewrite bool_decide_false by lia.
  - destruct (lookup_lt_is_Some_2 cs k) as [c Hc]; [lia|].
    eexists _, _. split; cycle 1.
    + eapply rtc_l; [exact E1|]. apply rtc_once. cbn [RegexSim.stp step].
      rewrite Ei, available_off by (done || lia). rewrite bool_decide_true by lia.
      by rewrite (forward_off _ Hcs k c Hc).
    + destruct codeGen_wf as (z & _ & _ & _ & _ & Egc & _). rewrite Egc.
      unfold ready. cbn. split_and!; try done. unfold resetLoops, zlen in *. by rewrite length_replicate.
Qed.

(** What the prefilter may do: go to a later attempt when all that it skips fail,
    or give up when all fail. *)
Definition Filtered (k : nat) (s : VM) (m : Search) : Prop :=
  (exists j s' m' d, (k <= j <= length cs)%nat /\ (forall i, (k <= i < j)%nat -> semP i = []) /\
     ready j s' m' /\ reaches (START_, s, m) d /\ reaches (DISPATCH, s', m') d) \/
  (forall i, (k <= i <= length cs)%nat -> semP i = []) /\
  exists s' m', reaches (START_, s, m) (BACKTRACK, s', m') /\ oldIter m' = off cs (length cs) /\
    text (input s') = encodes cs /\ zlen (loopStates s') = loopCount tree /\ stackOk s' [].

Abbreviation C := (instSeq re).
Abbreviation ms := (matchers re).

Lemma encodes_one c : encodes [c] = codePointToUtf8 c.
Proof. unfold encodes. cbn [flat_map]. apply app_nil_r. Qed.

Lemma searchPrefix_needle i ys s old : C !! inst s = Some i -> needleOf ms i ys ->
  zlen (encodes ys) <= UINT32_MAX ->
  searchPrefix re s old = Some (
    let retPos := StringRef.find (remainForward (input s)) (encodes ys) 0 in
    if retPos =? StringRef.npos then (false, advance s i, zlen (text (input s)))
    else (true, setInput (advance s i) (setIter (input s) (iter (input s) + retPos + zlen (encodes ys))),
          iter (input s) + retPos)).
Proof.
  intros Hi Hn Hz. unfold searchPrefix. rewrite Hi. destruct i; cbn [needleOf] in Hn; try done.
  - subst ys. by rewrite encodes_one.
  - rewrite Hn, asStrRef_ofBytes by done. done.
Qed.

(** The instruction reads the needle where it occurs. *)
Lemma execInst_needle i ys j s old : needleOf ms i ys -> codePoints ys -> ys <> [] ->
  zlen (encodes ys) <= UINT32_MAX -> take (length ys) (drop j cs) = ys -> input s = at_off cs j ->
  execInst re old s i = Next (setInput (advance s i) (at_off cs (j + length ys))).
Proof.
  intros Hn Hcp Hne Hz Ht Hi.
  assert (j < length cs)%nat as Hj.
  { destruct (decide (j < length cs)%nat); [done|]. rewrite drop_ge, firstn_nil in Ht by lia. by subst ys. }
  destruct i; cbn [needleOf] in Hn; try done; cbn [execInst].
  - subst ys. unfold execForward. rewrite Hi, available_off by (done || lia).
    rewrite bool_decide_true by done. destruct (lookup_lt_is_Some_2 cs j Hj) as [c Hc].
    rewrite (drop_S _ _ _ Hc) in Ht. cbn in Ht. injection Ht as ->.
    rewrite (forward_off _ Hcs j _ Hc), Z.eqb_refl. cbn [orBack length].
    by rewrite Nat.add_1_r.
  - rewrite Hn. cbn [with_]. rewrite asStrRef_ofBytes, Hi by done. unfold execExpect.
    rewrite expectForward_off by (done || lia). by rewrite bool_decide_true.
Qed.

Lemma needle_at j ys : codePoints ys -> take (length ys) (drop j cs) = ys ->
  exists t, encodes (drop j cs) = encodes ys ++ t.
Proof.
  intros Hy Ht. exists (encodes (drop (length ys) (drop j cs))).
  rewrite <- encodes_app. f_equal. rewrite <- (take_drop (length ys) (drop j cs)) at 1. by rewrite Ht.
Qed.

Lemma needle_filter i ys k s m : isPrefilter = true -> C !! 0 = Some i -> needleOf ms i ys ->
  ys <> [] -> codePoints ys -> zlen (encodes ys) <= UINT32_MAX ->
  beginsWith cs ys (sem cs (namedCaptureGroups tree) false (pattern tree)) ->
  ready k s m -> (k <= length cs)%nat -> Filtered k s m.
Proof.
  intros Hp Hi Hn Hne Hcp Hz Hb (Hi0 & Hin & Hc & Hl & Hst & Ho) Hk.
  assert (forall j, (k <= j)%nat -> (forall t, drop (Z.to_nat (off cs j - off cs k)) (encodes (drop k cs)) <>
    encodes ys ++ t) -> semP j = []) as Hskip.
  { intros j Hj Hno. destruct (semP j) as [|r rs] eqn:E; [done|]. exfalso.
    assert (take (length ys) (drop j cs) = ys) as Ht by (apply (Hb (initSt gc j) r); rewrite E; by left).
    destruct (needle_at j ys Hcp Ht) as [t Et]. apply (Hno t). rewrite <- Et, <- !drop_off, drop_drop.
    f_equal. pose proof (off_mono cs k j Hj). pose proof (off_range cs k). lia. }
  assert (remainForward (input s) = encodes (drop k cs)) as Hrem
    by (rewrite Hin; unfold remainForward; cbn [text iter at_off]; apply drop_off).
  assert (encodes ys <> []) as Hne' by (intros E; by apply encodes_nil_inv in E).
  pose proof (off_app cs k (length cs - k)) as Hoff. replace (k + (length cs - k))%nat with (length cs) in Hoff by lia.
  rewrite firstn_all2 in Hoff by (rewrite length_drop; lia).
  pose proof (off_range cs k). pose proof (off_range cs (length cs)).
  pose proof (searchPrefix_needle i ys s (oldIter m) ltac:(by rewrite Hi0) Hn Hz) as HS. rewrite Hrem in HS.
  unfold INPUT_MAX, UINT32_MAX in Hlen.
  destruct (StringRef.find_spec (encodes (drop k cs)) (encodes ys) 0) as [[Hf Hno]|(n & t & Hf & Hkn & Hd & Hmin)];
    [done|pose proof (zlen_nonneg (encodes (drop k cs))); lia|change StringRef.npos with 18446744073709551615; lia| |];
    cbv zeta in HS; rewrite Hf in HS.
  - right. split; [intros j Hj; apply Hskip; [lia|]; intros t; apply Hno; lia|].
    rewrite Z.eqb_refl in HS. eexists _, _. split; [apply rtc_once; cbn [RegexSim.stp step]; rewrite Hp, HS; done|].
    cbn. rewrite Hin. cbn [text at_off]. by rewrite off_length.
  - left. destruct (occurrence_boundary (drop k cs) ys n t) as (j & Hj & En & Ht);
      [by apply codePoints_drop|done|done|done|]. rewrite length_drop in Hj. rewrite drop_drop in Ht.
    pose proof (off_app cs k j) as Hj'. fold (off (drop k cs) j) in Hj'.
    assert (Z.of_nat n <> StringRef.npos) as Hnp
      by (pose proof (off_range cs (k + j)); change StringRef.npos with 18446744073709551615; lia).
    destruct (Z.eqb_spec (Z.of_nat n) StringRef.npos); [done|].
    assert (iter (input s) + Z.of_nat n = off cs (k + j)) as Eo by (rewrite Hin, En; cbn [iter at_off]; lia).
    rewrite Eo in HS.
    assert (off cs (k + j) + zlen (encodes ys) = off cs (k + j + length ys)) as Ee
      by (rewrite (off_app cs (k + j) (length ys)); by rewrite Ht).
    rewrite Ee in HS. exists (k + j)%nat, (setInput s (at_off cs (k + j))), (setOldIter m (off cs (k + j))).
    eexists. split_and!; [lia|lia| | | |].
    + intros j' Hj2. apply Hskip; [lia|]. intros u. apply Hmin.
      pose proof (off_strict cs Hcs j' (k + j) ltac:(lia)). pose proof (off_mono cs k j' ltac:(lia)). lia.
    + unfold ready. by split_and!.
    + apply rtc_once. cbn [RegexSim.stp step]. by rewrite Hp, HS.
    + apply rtc_once. rewrite (stp_dispatch _ _ _ _ _ i) by (cbn [inst setInput]; by rewrite Hi0).
      rewrite (execInst_needle i ys (k + j)) by done. cbn [outc]. do 3 f_equal.
      unfold setIter. cbn. by rewrite Hin.
Qed.

Lemma Filtered_here k s m s' : ready k s' m -> (k <= length cs)%nat ->
  reaches (START_, s, m) (DISPATCH, s', m) -> Filtered k s m.
Proof.
  intros Hr Hk Hs. left. exists k, s', m, (DISPATCH, s', m). split_and!; [lia|lia| |done|done|apply rtc_refl].
  intros i Hi. lia.
Qed.

Lemma searchPrefix_other s old : (forall i, C !! inst s = Some i -> isNeedle i = false) ->
  searchPrefix re s old =
    if negb (firstBitSet re =? 0) then
      let '(matched, p) := scanFirst (firstBitSet re) (remainForward (input s)) (iter (input s)) in
      Some (matched, setInput s (setIter (input s) p), p)
    else Some (true, s, old).
Proof.
  intros Hn. unfold searchPrefix. destruct (C !! inst s) as [i|]; [|done].
  specialize (Hn i eq_refl). by destruct i.
Qed.

(** The scan for a byte of the first set. *)
Lemma scan_filter k s m : isPrefilter = true -> firstBitSet re <> 0 ->
  (forall i, C !! 0 = Some i -> isNeedle i = false) ->
  (forall st r, r ∈ sem cs (namedCaptureGroups tree) false (pattern tree) st -> startsIn cs (firstBitSet re) st) ->
  (forall b, 0x80 <= b < 0xC0 -> Z.testbit (firstBitSet re) b = false) ->
  ready k s m -> (k <= length cs)%nat -> Filtered k s m.
Proof.
  intros Hp Hf Hnn Hst Hlead (Hi0 & Hin & Hc & Hl & Hsk & Ho) Hk.
  assert (remainForward (input s) = encodes (drop k cs)) as Hrem
    by (rewrite Hin; unfold remainForward; cbn [text iter at_off]; apply drop_off).
  pose proof (scanFirst_spec (firstBitSet re) (encodes (drop k cs)) (off cs k)) as Hscan.
  assert (searchPrefix re s (oldIter m) =
    let '(matched, p) := scanFirst (firstBitSet re) (encodes (drop k cs)) (off cs k) in
    Some (matched, setInput s (setIter (input s) p), p)) as HS.
  { rewrite searchPrefix_other by (by rewrite Hi0). rewrite (proj2 (Z.eqb_neq _ _) Hf), Hrem, Hin. done. }
  assert (forall j, (k <= j)%nat -> (forall b, encodes (drop k cs) !! Z.to_nat (off cs j - off cs k) = Some b ->
    Z.testbit (firstBitSet re) b = false) -> semP j = []) as Hskip.
  { intros j Hj Hno. destruct (semP j) as [|r rs] eqn:E; [done|]. exfalso.
    destruct (Hst (initSt gc j) r) as (c & Hcj & Hb); [rewrite E; by left|]. cbn [initSt pos] in Hcj.
    rewrite (Hno (firstByte c)) in Hb; [done|]. rewrite <- drop_off, lookup_drop.
    replace (Z.to_nat (off cs k) + Z.to_nat (off cs j - off cs k))%nat with (Z.to_nat (off cs j) + 0)%nat
      by (pose proof (off_mono cs k j Hj); pose proof (off_range cs k); lia).
    rewrite <- lookup_drop, drop_off, (drop_S _ _ _ Hcj). apply encodes_head. by eapply codePoints_lookup. }
  destruct Hscan as [(n & b & E & Hn & Hb & Hmin)|[E Hno]]; rewrite E in HS.
  - left. destruct (lead_boundary (drop k cs) n b) as (j & Hj & En); [by apply codePoints_drop|done| |].
    { intros Hb'. by rewrite Hlead in Hb. }
    rewrite length_drop in Hj. pose proof (off_app cs k j) as Hj'. fold (off (drop k cs) j) in Hj'.
    replace (off cs k + Z.of_nat n) with (off cs (k + j)) in HS by lia.
    eexists (k + j)%nat, (setInput s (at_off cs (k + j))), (setOldIter m (off cs (k + j))), _.
    split_and!; [lia|lia| | |apply rtc_once|apply rtc_refl].
    + intros j' Hj2. apply Hskip; [lia|]. intros b' Hb'. eapply Hmin; [|exact Hb'].
      pose proof (off_strict cs Hcs j' (k + j) ltac:(lia)). pose proof (off_mono cs k j' ltac:(lia)). lia.
    + unfold ready. by split_and!.
    + cbn [RegexSim.stp step]. rewrite Hp, HS, Hin. done.
  - right. split; [intros j Hj; apply Hskip; [lia|]; intros b; apply Hno|].
    eexists _, _. split; [apply rtc_once; cbn [RegexSim.stp step]; rewrite Hp, HS; done|].
    cbn. rewrite Hin. cbn [text at_off]. split_and!; try done.
    pose proof (off_app cs k (length cs - k)) as Hoff.
    replace (k + (length cs - k))%nat with (length cs) in Hoff by lia.
    by rewrite firstn_all2 in Hoff by (rewrite length_drop; lia).
Qed.

Lemma start_filter k s m : ready k s m -> (k <= length cs)%nat -> Filtered k s m.
Proof.
  intros Hr Hk. destruct (sumbool_of_bool isPrefilter) as [Hp|Hp].
  2: { apply (Filtered_here k s m s Hr Hk). apply rtc_once. cbn [RegexSim.stp step]. by rewrite Hp. }
  destruct codeGen_wf as (z & Hcomp & HM & Hfbs & _ & _ & _). pose proof (proj1 Hwf) as Hw.
  assert ((exists i, C !! 0 = Some i /\ isNeedle i = true) \/ (forall i, C !! 0 = Some i -> isNeedle i = false))
    as [(i & Hi & Hni)|Hno].
  { destruct (C !! 0) as [i|]; [|by right]. destruct (isNeedle i) eqn:E; [eauto|].
    right. intros j Hj. by injection Hj as <-. }
  - destruct (needle_sound cs C ms _ _ _ _ _ _ _ Hw Hcomp HM Hi Hni)
      as (i' & ys & Hi' & Hn & Hne & Hcp & Hz & Hb).
    by apply (needle_filter i' ys).
  - destruct (decide (firstBitSet re = 0)) as [Hz|Hz].
    + apply (Filtered_here k s m s Hr Hk). apply rtc_once. cbn [RegexSim.stp step]. rewrite Hp.
      rewrite searchPrefix_other by (destruct Hr as [-> _]; exact Hno). rewrite Hz. cbn [Z.eqb negb].
      by destruct m.
    + apply scan_filter; try done.
      * intros st r Hr'. rewrite Hfbs in *. by eapply firstBitSet_sound.
      * intros b Hb. rewrite Hfbs. by apply firstBitSet_lead.
Qed.

(** ** The search *)

Lemma searchFrom_here n k r rs : semP k = r :: rs -> find_ n k = Some (k, r).
Proof. intros E. destruct n; cbn [searchFrom]; by rewrite E. Qed.

Lemma search_ends k s m : (k <= length cs)%nat -> ready k s m ->
  Ends (START_, s, m) (find_ (length cs - k) k).
Proof.
  remember (length cs - k)%nat as n eqn:En. revert k s m En.
  induction n as [n IH] using lt_wf_ind. intros k s m En Hk Hr. rewrite En.
  destruct (start_filter k s m Hr Hk) as
    [(j & s1 & m1 & d & Hj & Hno & Hr1 & Hd & Hd1)|(Hno & s1 & m1 & Hd & Ho & Ht & Hl & Hst)].
  - rewrite (Ends_reaches _ _ _ Hd), <- (Ends_reaches _ _ _ Hd1), (searchFrom_skip k j) by (done || lia).
    apply (attempt j); [done|lia|intros r rs E; by eapply searchFrom_here|].
    intros s2 m2 E Ho2 Ht2 Hl2 Hst2.
    destruct (restart j s2 m2) as [[-> Hend]|(Hlt & s3 & m3 & Hr3 & Hd3)]; try done; [lia| |].
    + apply Hend. rewrite Nat.sub_diag. cbn [searchFrom]. by rewrite E.
    + rewrite (Ends_reaches _ _ _ Hd3). replace (length cs - j)%nat with (S (length cs - S j)) by lia.
      cbn [searchFrom]. rewrite E. by apply (IH (length cs - S j)%nat); [lia|done|lia|].
  - rewrite (Ends_reaches _ _ _ Hd). destruct (restart (length cs) s1 m1) as [[_ Hend]|[Hlt _]]; try done; [|lia].
    apply Hend. rewrite (searchFrom_skip k (length cs)) by (lia || (intros; apply Hno; lia)).
    rewrite Nat.sub_diag. cbn [searchFrom]. rewrite Hno by lia. done.
Qed.

Lemma searchFrom_sound n : forall k i r, find_ n k = Some (i, r) -> (k + n <= length cs)%nat ->
  (k <= i <= length cs)%nat /\ r ∈ semP i.
Proof.
  induction n as [|n IH]; intros k i r Hf Hn; cbn [searchFrom] in Hf;
    destruct (semP k) as [|r' rs] eqn:E; try done.
  2: apply IH in Hf as [Hi Hr]; [split; [lia|done]|lia].
  all: injection Hf as <- <-; split; [lia|]; rewrite E; by left.
Qed.

(** ** The entry point *)

(** A context of the text [cs] at a position, as the library makes it and as a
    match leaves it. *)
Definition validCtx (k : nat) (ctx : MatchContext) : Prop :=
  ctxInput ctx = at_off cs k /\ (k <= length cs)%nat /\
  ctxGroupCount ctx = regexCaptureGroupCount re /\ zlen (ctxLoops ctx) = regexLoopCount re.

(** What the specification says a match from the [k]-th code point reports. *)
Definition Reports (k : nat) (status : MatchStatus) (ctx : MatchContext) : Prop :=
  match search cs (namedCaptureGroups tree) (pattern tree) gc k with
  | Some (i, r) => status = OK /\ ctxCaptures ctx = capturesOf i r /\ validCtx (pos r) ctx
  | None => status = FAIL /\ validCtx (length cs) ctx
  end.

Lemma init_ready k ctx : validCtx k ctx -> ready k (initVM ctx) (initSearch ctx).
Proof.
  intros (Hi & Hk & Hg & Hl). destruct codeGen_wf as (z & _ & _ & _ & Elc & Egc & _).
  unfold ready, initVM, initSearch. cbn. rewrite Hi, Hg, Egc.
  assert (stackOk {| inst := 0; input := at_off cs k; captures := resetCaps gc;
    loopStates := resetLoops (ctxLoops ctx); bts := emptyStack |} []) as Hs by (split_and!; [done|discriminate|discriminate]).
  split_and!; try done. unfold resetLoops, zlen in *. rewrite length_replicate. lia.
Qed.

End correct.

Lemma match_core `{Ucd} `{!UcdLaws} timer tree re cs k ctx :
  wfTree tree -> codeGen tree = Some re -> codePoints cs -> zlen (encodes cs) <= INPUT_MAX ->
  validCtx re cs k ctx ->
  exists fuel0, forall fuel, (fuel0 <= fuel)%nat -> exists status ctx',
    matchCtx fuel timer re ctx = Some (status, ctx') /\
    (isLimit timer status \/ Reports re tree cs k status ctx').
Proof.
  intros Hwf Hgen Hcs Hlen Hv. pose proof Hv as (Hi & Hk & Hg & Hl).
  pose proof (init_ready re tree Hwf Hgen cs k ctx Hv) as Hr.
  pose proof (search_ends timer re (prefilter ctx) tree Hwf Hgen cs Hcs Hlen k _ _ Hk Hr) as [Ha|He].
  - apply aborts_fin in Ha as (status & s & Hf & Hlim).
    apply run_fin in Hf as [n Hn]. exists n. intros fuel Hfuel. unfold matchCtx. rewrite Hn by done.
    eexists _, _. split; [done|by left].
  - unfold Reports, search. destruct (codeGen_wf re tree Hwf Hgen) as (z & _ & _ & _ & Elc & _ & _).
    destruct (searchFrom _ _ _ _ _ _) as [[i r]|] eqn:Es; destruct He as (s & Hf & Hin & Hrest);
      apply run_fin in Hf as [n Hn]; exists n; intros fuel Hfuel; unfold matchCtx; rewrite Hn by done;
      eexists _, _; (split; [done|right]); unfold validCtx; rewrite Elc.
    + destruct Hrest as [Hc Hls].
      apply searchFrom_sound in Es as [Hpos Hrs]; [|lia].
      eapply sem_sound in Hrs; [|apply Hwf|cbn; lia]. destruct Hrs as [Hle _]. by split_and!.
    + by split_and!.
Qed.

(** C1: started on any valid context of a compiled well-formed pattern, the machine ends; unless it reports a limit, it reports exactly the leftmost match that the specification prefers, with its capture groups, or FAIL when the specification has none, and leaves the cursor at the end of the match. *)
Theorem regex_match_correct `{Ucd} `{!UcdLaws} timer tree re cs k ctx :
  wfTree tree -> codeGen tree = Some re -> codePoints cs -> zlen (encodes cs) <= INPUT_MAX ->
  validCtx re cs k ctx ->
  exists fuel0, forall fuel, (fuel0 <= fuel)%nat -> exists status ctx',
    matchCtx fuel timer re ctx = Some (status, ctx') /\
    (isLimit timer status \/ Reports re tree cs k status ctx').
Proof. apply match_core. Qed.

(** C4: the prefilter is transparent: with and without it, the machine reports the same status, the same cursor and, on a match, the same captures, unless one of the runs meets a limit. *)
Theorem prefilter_transparent `{Ucd} `{!UcdLaws} timer tree re cs k ctx :
  wfTree tree -> codeGen tree = Some re -> codePoints cs -> zlen (encodes cs) <= INPUT_MAX ->
  validCtx re cs k ctx ->
  exists fuel0, forall fuel, (fuel0 <= fuel)%nat -> exists s1 c1 s2 c2,
    matchCtx fuel timer re (setPrefilter ctx true) = Some (s1, c1) /\
    matchCtx fuel timer re (setPrefilter ctx false) = Some (s2, c2) /\
    (isLimit timer s1 \/ isLimit timer s2 \/
     s1 = s2 /\ ctxInput c1 = ctxInput c2 /\ (s1 = OK -> ctxCaptures c1 = ctxCaptures c2)).
Proof.
  intros Hwf Hgen Hcs Hlen Hv.
  destruct (match_core timer tree re cs k (setPrefilter ctx true) Hwf Hgen Hcs Hlen Hv) as [n1 H1].
  destruct (match_core timer tree re cs k (setPrefilter ctx false) Hwf Hgen Hcs Hlen Hv) as [n2 H2].
  exists (n1 `max` n2)%nat. intros fuel Hf.
  destruct (H1 fuel ltac:(lia)) as (s1 & c1 & E1 & [Hl1|R1]), (H2 fuel ltac:(lia)) as (s2 & c2 & E2 & [Hl2|R2]);
    exists s1, c1, s2, c2; (split_and!; [done|done|]); try (by left); try (by right; left); right; right.
  unfold Reports in *. destruct (search _ _ _ _ _) as [[i r]|].
  - destruct R1 as (-> & Hc1 & Hi1 & _), R2 as (-> & Hc2 & Hi2 & _). split_and!; congruence.
  - destruct R1 as (-> & Hi1 & _), R2 as (-> & Hi2 & _). split_and!; [done|congruence|done].
Qed.

(** ** A concrete pattern: [(a|b)+c] *)

Definition exampleTree : SyntaxTree := {|
  loopCount := 1; captureGroupCount := 1;
  pattern := SeqNode [
    RepeatNode {| loopIndex := 0; qmin := 1; qmax := UNLIMIT; greedy := true;
                  firstGroupIndex := 1; lastGroupIndex := 1 |}
      (GroupNode CAPTURE 1 (AltNode [CharNode 97; CharNode 98]));
    CharNode 99];
  namedCaptureGroups := []
|}.

Lemma exampleTree_wf : wfTree exampleTree.
Proof.
  unfold wfTree. cbn. split_and!; try done; try (repeat constructor; set_solver).
Qed.

Definition exampleText : list Z := lit "xabac".

(** A fresh context at the beginning of the text. *)
Definition exampleCtx (re : Regex) (cs : list Z) : MatchContext := {|
  ctxInput := at_off cs 0; ctxGroupCount := regexCaptureGroupCount re; prefilter := true;
  ctxCaptures := []; ctxLoops := replicate (Z.to_nat (regexLoopCount re)) emptyLoop
|}.

Lemma exampleCtx_valid re cs : 0 <= regexLoopCount re -> validCtx re cs 0 (exampleCtx re cs).
Proof.
  intros Hl. unfold validCtx, exampleCtx. cbn. split_and!; [done|lia|done|].
  unfold zlen. rewrite length_replicate. lia.
Qed.

Example example_search :
  @search asciiUcd exampleText [] (pattern exampleTree) 1 0 =
  Some (1%nat, {| pos := 5; caps := [None; Some (3, 4)%nat] |}).
Proof. reflexivity. Qed.

Lemma regex_match_correct_witness :
  match @codeGen asciiUcd exampleTree with
  | Some re => exists fuel0, forall fuel, (fuel0 <= fuel)%nat -> exists status ctx',
      @matchCtx asciiUcd fuel None re (exampleCtx re exampleText) = Some (status, ctx') /\
      (isLimit None status \/ @Reports asciiUcd re exampleTree exampleText 0 status ctx')
  | None => False
  end.
Proof.
  destruct (@codeGen asciiUcd exampleTree) as [re|] eqn:E; [|vm_compute in E; discriminate].
  apply (@regex_match_correct asciiUcd asciiLaws None exampleTree re exampleText 0 (exampleCtx re exampleText));
    [exact exampleTree_wf|exact E|repeat constructor|vm_compute; discriminate|].
  apply exampleCtx_valid. vm_compute in E. injection E as <-. vm_compute. discriminate.
Defined.

Lemma prefilter_transparent_witness :
  match @codeGen asciiUcd exampleTree with
  | Some re => exists fuel0, forall fuel, (fuel0 <= fuel)%nat -> exists s1 c1 s2 c2,
      @matchCtx asciiUcd fuel None re (setPrefilter (exampleCtx re exampleText) true) = Some (s1, c1) /\
      @matchCtx asciiUcd fuel None re (setPrefilter (exampleCtx re exampleText) false) = Some (s2, c2) /\
      (isLimit None s1 \/ isLimit None s2 \/
       s1 = s2 /\ ctxInput c1 = ctxInput c2 /\ (s1 = OK -> ctxCaptures c1 = ctxCaptures c2))
  | None => False
  end.
Proof.
  destruct (@codeGen asciiUcd exampleTree) as [re|] eqn:E; [|vm_compute in E; discriminate].
  apply (@prefilter_transparent asciiUcd asciiLaws None exampleTree re exampleText 0 (exampleCtx re exampleText));
    [exact exampleTree_wf|exact E|repeat constructor|vm_compute; discriminate|].
  apply exampleCtx_valid. vm_compute in E. injection E as <-. vm_compute. discriminate.
Defined.

End RegexCorrect.
