(* ===== verification/RegexSyntax.v ===== *)
(** The syntax tree the regular expression parser builds (src/regex/node.h and the
    node operations of src/regex/parser.cpp), with the source positions of
    src/misc/token.hpp, and the flags and modifiers of src/regex/flag.cpp.  A null
    [std::unique_ptr<Node>] is [None]; only an AltNode holds one. *)
From Stdlib Require Import Ascii.
From S2P Require Import Prelude Unicode RegexNode.
Import UnicodeUtil RegexNode.

Module RegexSyntax.

(** ** Flags (flag.h, flag.cpp) *)

Record Flag := { mode : Mode; modifiers : Z }.

#[export] Instance Mode_eq_dec : EqDecision Mode.
Proof. solve_decision. Defined.

Definition is_ (f : Flag) (m : Mode) : bool := bool_decide (mode f = m).
Definition isEitherUnicodeMode (f : Flag) : bool :=
  match mode f with BMP => false | UNICODE | UNICODE_SET => true end.

Definition NONE : Z := 0.

(** [EACH_RE_MODIFIER]: the flag and its letter. *)
Definition modifierTable : list (Z * Z) :=
  [(IGNORE_CASE, chr "i"); (MULTILINE, chr "m"); (DOT_ALL, chr "s")].

Definition modifierOf (codePoint : Z) : option Z :=
  fst <$> List.find (fun e => codePoint =? snd e) modifierTable.

(** The loop of [Flag::parse] on the rest of the string: the flag, or the message. *)
Fixpoint parseFlagLoop (fuel : nat) (rest : bytes) (m : option Mode) (modifiers : Z)
    (defaultMode : Mode) (onlyModifier : bool) : option (bytes + Flag) :=
  match rest with
  | [] => Some (inr {| mode := default defaultMode m; modifiers := modifiers |})
  | _ :: _ =>
      match fuel with
      | O => None
      | S fuel' =>
          let '(len, codePoint) := wtf8ToCodePoint rest in
          if len =? 0 then Some (inl (lit "invalid UTF-8 byte"))
          else
            let utf8 := take (Z.to_nat len) rest in
            let rest' := drop (Z.to_nat len) rest in
            let invalid :=
              inl ((if onlyModifier then lit "invalid modifier: `" else lit "invalid regex flag: `")
                   ++ utf8 ++ lit "'") in
            let setMode newMode :=
              if onlyModifier : bool then Some invalid
              else match m with
                   | Some _ => Some (inl (lit "flag has already been specified"))
                   | None => parseFlagLoop fuel' rest' (Some newMode) modifiers defaultMode onlyModifier
                   end in
            match modifierOf codePoint with
            | Some f =>
                if hasFlag modifiers f
                then Some (inl (lit "`" ++ [codePoint] ++ lit "' modifier has already been specified"))
                else parseFlagLoop fuel' rest' m (setFlag modifiers f) defaultMode onlyModifier
            | None =>
                if codePoint =? chr "u" then setMode UNICODE
                else if codePoint =? chr "v" then setMode UNICODE_SET
                else Some invalid
            end
      end
  end.

Definition parseFlag (ref : bytes) (defaultMode : Mode) (onlyModifier : bool) : option (bytes + Flag) :=
  parseFlagLoop (length ref) ref None NONE defaultMode onlyModifier.

Definition parseModifier (ref : bytes) : option (bytes + Z) :=
  r ← parseFlag ref BMP true;
  Some (match r with inl err => inl err | inr f => inr (modifiers f) end).

(** [Flag::str]: the letters in alphabetical order. *)
Definition flagStr (f : Flag) : bytes :=
  (if hasFlag (modifiers f) IGNORE_CASE then [chr "i"] else []) ++
  (if hasFlag (modifiers f) MULTILINE then [chr "m"] else []) ++
  (if hasFlag (modifiers f) DOT_ALL then [chr "s"] else []) ++
  (match mode f with BMP => [] | UNICODE => [chr "u"] | UNICODE_SET => [chr "v"] end).

(** ** Tokens *)

Record Token := { pos : Z; size : Z }.

Definition endPos (t : Token) : Z := u32 (pos t + size t).

(** [Node::updateToken] on the token of a node. *)
Definition extendToken (old t : Token) : Token :=
  if endPos old <? endPos t then {| pos := pos old; size := u32 (endPos t - pos old) |} else old.

(** ** Nodes *)

(** [PropertyNode::Type]; the three operators stand between the operands of a class. *)
Inductive PropertyType :=
| RANGE | INTERSECT | SUBTRACT
| DIGIT | NOT_DIGIT | WORD_ | NOT_WORD_ | SPACE | NOT_SPACE
| UNICODE_ | NOT_UNICODE | EMOJI | GRAPHEME.

(** [CharClassNode::Type] *)
Inductive ClassType := CLASS_UNION | CLASS_RANGE | CLASS_INTERSECT | CLASS_SUBTRACT.

#[export] Instance PropertyType_eq_dec : EqDecision PropertyType.
Proof. solve_decision. Defined.
#[export] Instance ClassType_eq_dec : EqDecision ClassType.
Proof. solve_decision. Defined.

Inductive Node :=
| EmptyNode (token : Token)
| AnyNode (token : Token)
| CharNode (token : Token) (codePoint : Z)
| PropertyNode (token : Token) (type : PropertyType) (value : Z)
| CharClassNode (token : Token) (invert : bool) (type : ClassType) (strings : bool) (chars : list Node)
| BoundaryNode (token : Token) (type : BoundaryType)
| BackRefNode (token : Token) (name : bytes) (index : Z)
| RepeatNode (token : Token) (q : Quantifier) (pattern : Node)
| SeqNode (token : Token) (patterns : list Node)
| AltNode (token : Token) (patterns : list (option Node))
| LookAroundNode (token : Token) (type : LookAroundType) (pattern : Node)
| GroupNode (token : Token) (type : GroupType) (groupIndex setModifiers unsetModifiers : Z) (pattern : Node).

Definition getToken (n : Node) : Token :=
  match n with
  | EmptyNode t | AnyNode t | CharNode t _ | PropertyNode t _ _ | CharClassNode t _ _ _ _
  | BoundaryNode t _ | BackRefNode t _ _ | RepeatNode t _ _ | SeqNode t _ | AltNode t _
  | LookAroundNode t _ _ | GroupNode t _ _ _ _ _ => t
  end.

Definition isChar (n : Node) : bool := match n with CharNode _ _ => true | _ => false end.
Definition isEmpty (n : Node) : bool := match n with EmptyNode _ => true | _ => false end.
Definition isAlt (n : Node) : bool := match n with AltNode _ _ => true | _ => false end.
Definition isSeq (n : Node) : bool := match n with SeqNode _ _ => true | _ => false end.

Definition isProperty (n : Node) (t : PropertyType) : bool :=
  match n with PropertyNode _ t' _ => bool_decide (t' = t) | _ => false end.

(** [PropertyNode::isCharClassOp] *)
Definition isOpType (t : PropertyType) : bool :=
  match t with RANGE | INTERSECT | SUBTRACT => true | _ => false end.
Definition isCharClassOp (n : Node) : bool :=
  match n with PropertyNode _ t _ => isOpType t | _ => false end.

Definition getNormalizedType (t : PropertyType) : PropertyType :=
  match t with
  | NOT_DIGIT => DIGIT | NOT_WORD_ => WORD_ | NOT_SPACE => SPACE | NOT_UNICODE => UNICODE_
  | _ => t
  end.

Definition isInvertType (t : PropertyType) : bool :=
  match t with NOT_DIGIT | NOT_WORD_ | NOT_SPACE | NOT_UNICODE => true | _ => false end.

(** [PropertyNode::mayContainString] *)
Definition mayContainString (t : PropertyType) : bool :=
  match getNormalizedType t with EMOJI | GRAPHEME => true | _ => false end.

(** The property name and value packed in 16 bits, and back. *)
Definition packProperty (name value : Z) : Z := u16 (Z.lor (Z.shiftl name 8) value).
Definition getUCP (u : Z) : Z * Z := (Z.shiftr u 8, Z.land u 0xFF).

(** The loop of [mayContainStringsImpl] on alternatives: [None] is the use of a null
    pointer. *)
Fixpoint altStrings (l : list (option Node)) : option bool :=
  match l with
  | [] => Some false
  | None :: _ => None
  | Some (EmptyNode _) :: _ | Some (SeqNode _ _) :: _ => Some true
  | Some _ :: r => altStrings r
  end.

(** [mayContainStringsImpl]; an empty list of alternatives fails an assertion. *)
Definition mayContainStrings (n : Node) : option bool :=
  match n with
  | PropertyNode _ t _ => Some (mayContainString t)
  | CharClassNode _ _ _ strings _ => Some strings
  | AltNode _ [] => None
  | AltNode _ l => altStrings l
  | _ => Some false
  end.

(** The loops of [CharClassNode::finalize]. *)
Fixpoint anyStrings (chars : list Node) : option bool :=
  match chars with
  | [] => Some false
  | e :: r => b ← mayContainStrings e; if b : bool then Some true else anyStrings r
  end.

Fixpoint allStrings (chars : list Node) : option bool :=
  match chars with
  | [] => Some true
  | e :: r =>
      if isCharClassOp e then allStrings r
      else b ← mayContainStrings e; if b : bool then allStrings r else Some false
  end.

(** [CharClassNode::finalize] without the token: the string bit. *)
Definition classStrings (type : ClassType) (chars : list Node) : option bool :=
  match type with
  | CLASS_UNION | CLASS_RANGE => anyStrings chars
  | CLASS_INTERSECT => allStrings chars
  | CLASS_SUBTRACT => e ← head chars; mayContainStrings e
  end.

(** [CharClassNode::isUnionOrRange], [hasUnterminatedCharOp], [isCompatible] *)
Definition isUnionOrRange (type : ClassType) : bool :=
  match type with CLASS_UNION | CLASS_RANGE => true | _ => false end.

Definition hasUnterminatedCharOp (chars : list Node) : bool :=
  match last chars with Some n => isCharClassOp n | None => false end.

Definition isCompatible (type : ClassType) (chars : list Node) (other : ClassType) : bool :=
  (zlen chars =? 1) || bool_decide (type = other) ||
  match type, other with
  | CLASS_UNION, CLASS_RANGE | CLASS_RANGE, CLASS_UNION => true
  | _, _ => false
  end.

(** [SeqNode::append] *)
Definition seqAppend (t : Token) (l : list Node) (n : Node) : Node :=
  SeqNode (extendToken t (getToken n)) (l ++ [n]).

(** The SeqNode constructor of two nodes. *)
Definition mkSeq (left right : Node) : Node :=
  SeqNode (extendToken (extendToken (getToken left) (getToken left)) (getToken right)) [left; right].

(** The AltNode constructor of one node. *)
Definition mkAlt (n : Node) : Node := AltNode (extendToken (getToken n) (getToken n)) [Some n].

(** [AltNode::appendToLast]; the list of alternatives is not empty. *)
Definition appendToLast (t : Token) (l : list (option Node)) (n : Node) : option Node :=
  e ← last l;
  let e' := match e with
            | None => n
            | Some (SeqNode t' l') => seqAppend t' l' n
            | Some p => mkSeq p n
            end in
  Some (AltNode (extendToken t (getToken n)) (removelast l ++ [Some e'])).

Section count.
Context (countGroupsImpl : Node -> Z * Z -> option (Z * Z)).

Fixpoint countList (l : list Node) (count : Z * Z) : option (Z * Z) :=
  match l with
  | [] => Some count
  | e :: r => c ← countGroupsImpl e count; countList r c
  end.

Fixpoint countAlts (l : list (option Node)) (count : Z * Z) : option (Z * Z) :=
  match l with
  | [] => Some count
  | None :: _ => None
  | Some e :: r => c ← countGroupsImpl e count; countAlts r c
  end.
End count.

(** A group that ends the interval [count] that is known so far: the first index is
    not null, and the last index is past the interval. *)
Definition countNext (count : Z * Z) (first last : Z) : option (Z * Z) :=
  if negb (first =? 0) && (snd count <? last)
  then Some (if fst count =? 0 then u16 first else fst count, u16 last)
  else None.

(** [countGroupsImpl]: the indices of the first and the last group of a node; [None]
    is a failed assertion or the use of a null pointer. *)
Fixpoint countGroupsImpl (n : Node) (count : Z * Z) : option (Z * Z) :=
  match n with
  | RepeatNode _ q _ =>
      if firstGroupIndex q =? 0 then Some count
      else if lastGroupIndex q =? 0 then None
      else countNext count (firstGroupIndex q) (lastGroupIndex q)
  | SeqNode _ l => countList countGroupsImpl l count
  | AltNode _ l => countAlts countGroupsImpl l count
  | LookAroundNode _ _ p => countGroupsImpl p count
  | GroupNode _ t i _ _ p =>
      c ← (match t with CAPTURE => countNext count i i | _ => Some count end);
      countGroupsImpl p c
  | _ => Some count
  end.

Definition countGroups (n : Node) : option (Z * Z) := countGroupsImpl n (0, 0).

(** The RepeatNode constructor; [option], [zeroOrMore] and [oneOrMore] are its uses
    with (0, 1), (0, UNLIMIT) and (1, UNLIMIT). *)
Definition mkRepeat (loopIndex : Z) (pattern : Node) (min max : Z) (greedy : bool) (end_ : Token) : option Node :=
  '(first, last) ← countGroups pattern;
  Some (RepeatNode (extendToken (getToken pattern) end_)
    {| loopIndex := loopIndex; qmin := min; qmax := max; greedy := greedy;
       firstGroupIndex := first; lastGroupIndex := last |} pattern).

Definition mkGroup (start : Token) (type : GroupType) (groupIndex set unset : Z) (p : Node)
    (end_ : Token) : Node :=
  GroupNode (extendToken start end_) type groupIndex set unset p.

Definition mkLookAround (start : Token) (type : LookAroundType) (p : Node) (end_ : Token) : Node :=
  LookAroundNode (extendToken start end_) type p.

(** The result of the parser; the pattern is null when there is an error. *)
Record SyntaxTree := {
  flag : Flag;
  loopCount : Z;
  pattern : option Node;
  namedCaptureGroups : NamedCaptureGroups;
  captureGroupCount : Z
}.

(** ** Induction over nested nodes *)

Section node_ind.
Context (P : Node -> Prop) (Q : option Node -> Prop).
Context (Hempty : forall t, P (EmptyNode t)) (Hany : forall t, P (AnyNode t)).
Context (Hchar : forall t c, P (CharNode t c)) (Hprop : forall t p v, P (PropertyNode t p v)).
Context (Hclass : forall t i ty s l, Forall P l -> P (CharClassNode t i ty s l)).
Context (Hbound : forall t b, P (BoundaryNode t b)).
Context (Hback : forall t n i, P (BackRefNode t n i)).
Context (Hrep : forall t q p, P p -> P (RepeatNode t q p)).
Context (Hseq : forall t l, Forall P l -> P (SeqNode t l)).
Context (Halt : forall t l, Forall Q l -> P (AltNode t l)).
Context (Hlook : forall t ty p, P p -> P (LookAroundNode t ty p)).
Context (Hgroup : forall t ty i s u p, P p -> P (GroupNode t ty i s u p)).
Context (Hnone : Q None) (Hsome : forall n, P n -> Q (Some n)).

Fixpoint Node_nested_ind (n : Node) : P n :=
  let go := fix go (l : list Node) : Forall P l :=
    match l with
    | [] => Forall_nil_2 P
    | x :: r => Forall_cons_2 P x r (Node_nested_ind x) (go r)
    end in
  let goAlt := fix goAlt (l : list (option Node)) : Forall Q l :=
    match l with
    | [] => Forall_nil_2 Q
    | x :: r =>
        Forall_cons_2 Q x r
          (match x with None => Hnone | Some n => Hsome n (Node_nested_ind n) end) (goAlt r)
    end in
  match n with
  | EmptyNode t => Hempty t
  | AnyNode t => Hany t
  | CharNode t c => Hchar t c
  | PropertyNode t p v => Hprop t p v
  | CharClassNode t i ty s l => Hclass t i ty s l (go l)
  | BoundaryNode t b => Hbound t b
  | BackRefNode t n i => Hback t n i
  | RepeatNode t q p => Hrep t q p (Node_nested_ind p)
  | SeqNode t l => Hseq t l (go l)
  | AltNode t l => Halt t l (goAlt l)
  | LookAroundNode t ty p => Hlook t ty p (Node_nested_ind p)
  | GroupNode t ty i s u p => Hgroup t ty i s u p (Node_nested_ind p)
  end.
End node_ind.

End RegexSyntax.
