(* ===== verification/RegexParser.v ===== *)
(** The regular expression parser (src/regex/parser.h, src/regex/parser.cpp): a
    state monad over the members of [Parser], one definition per member function.
    [None] is undefined behaviour of the source: a failed assertion, a cast of a
    node to the wrong class, or a read outside of the pattern.  An error of the
    pattern is the member [error], as in the source. *)
From stdpp Require Import sorting.
From Stdlib Require Import Ascii.
From S2P Require Import Prelude NumUtil Unicode StringRef RegexNode RegexSyntax.
Import NumUtil UnicodeUtil RegexNode RegexSyntax.

Module RegexParser.

(** The tables of the Unicode character database (src/unicode/property.cpp): the
    properties are found by name, and the two sets of identifiers. *)
Class Ucp := {
  parseProperty : bytes -> bytes -> bytes + Z * Z;
  parseEmojiProperty : bytes -> option Z;
  isIdStart : Z -> bool;
  isIdContinue : Z -> bool
}.

(** ** State *)

Record Error := { errToken : Token; message : bytes }.

(** [FrameType] with the member of the union it selects. *)
Inductive FrameType :=
| FRAME_NONE
| FRAME_GROUP (groupType : GroupType)
| FRAME_LOOK_AROUND (lookaroundType : LookAroundType).

Record Frame := {
  type : FrameType;
  setModifiers : Z;
  unsetModifiers : Z;
  groupIndex : Z;
  start : Token;
  node : option Node;
  existingGroupNames : gset bytes;
  mergedExistingGroupNames : gset bytes
}.

Definition newFrame (type : FrameType) (start : Token) (set unset groupIndex : Z)
    (node : option Node) : Frame := {|
  type := type; setModifiers := set; unsetModifiers := unset; groupIndex := groupIndex;
  start := start; node := node; existingGroupNames := ∅; mergedExistingGroupNames := ∅
|}.

Definition noToken : Token := {| pos := 0; size := 0 |}.
(** The constructors of Frame. *)
Definition emptyFrame : Frame := newFrame FRAME_NONE noToken NONE NONE 0 None.
Definition nodeFrame (n : Node) : Frame := newFrame FRAME_NONE noToken NONE NONE 0 (Some n).
Definition lookAroundFrame (start : Token) (t : LookAroundType) : Frame :=
  newFrame (FRAME_LOOK_AROUND t) start NONE NONE 0 None.
Definition groupFrame (start : Token) (t : GroupType) (groupIndex : Z) : Frame :=
  newFrame (FRAME_GROUP t) start NONE NONE groupIndex None.
Definition modifierFrame (start : Token) (set unset : Z) : Frame :=
  newFrame (FRAME_GROUP MODIFIER) start set unset 0 None.

Definition withNode (f : Frame) (n : option Node) : Frame := {|
  type := type f; setModifiers := setModifiers f; unsetModifiers := unsetModifiers f;
  groupIndex := groupIndex f; start := start f; node := n;
  existingGroupNames := existingGroupNames f;
  mergedExistingGroupNames := mergedExistingGroupNames f
|}.

Definition withNames (f : Frame) (existing merged : gset bytes) : Frame := {|
  type := type f; setModifiers := setModifiers f; unsetModifiers := unsetModifiers f;
  groupIndex := groupIndex f; start := start f; node := node f;
  existingGroupNames := existing; mergedExistingGroupNames := merged
|}.

Definition clearAndMergeGroupNames (f : Frame) : Frame :=
  withNames f ∅ (mergedExistingGroupNames f ∪ existingGroupNames f).

Definition STACK_DEPTH_LIMIT : Z := 256.

(** The members that change while parsing; [frames] and [directions] have their
    last element first. *)
Record State := {
  iter : Z;
  captureGroupResolved : bool;
  captureGroupCount_ : Z;
  prefetchedCaptureGroupCount : Z;
  prefetchedNamedCaptureGroupCount : Z;
  namedCaptureGroups_ : gmap bytes (list Z);
  namedRefNodes : list (Token * bytes);
  loopCount_ : Z;
  error : option Error;
  frames : list Frame;
  directions : list bool
}.

(** What [operator()] resets them to. *)
Definition initial : State := {|
  iter := 0; captureGroupResolved := false; captureGroupCount_ := 0;
  prefetchedCaptureGroupCount := 0; prefetchedNamedCaptureGroupCount := 0;
  namedCaptureGroups_ := ∅; namedRefNodes := []; loopCount_ := 0; error := None;
  frames := []; directions := [true]
|}.

Definition setIter (i : Z) (s : State) : State := {|
  iter := i; captureGroupResolved := captureGroupResolved s;
  captureGroupCount_ := captureGroupCount_ s;
  prefetchedCaptureGroupCount := prefetchedCaptureGroupCount s;
  prefetchedNamedCaptureGroupCount := prefetchedNamedCaptureGroupCount s;
  namedCaptureGroups_ := namedCaptureGroups_ s; namedRefNodes := namedRefNodes s;
  loopCount_ := loopCount_ s; error := error s; frames := frames s; directions := directions s
|}.

Definition setResolved (count named : Z) (s : State) : State := {|
  iter := iter s; captureGroupResolved := true; captureGroupCount_ := captureGroupCount_ s;
  prefetchedCaptureGroupCount := count; prefetchedNamedCaptureGroupCount := named;
  namedCaptureGroups_ := namedCaptureGroups_ s; namedRefNodes := namedRefNodes s;
  loopCount_ := loopCount_ s; error := error s; frames := frames s; directions := directions s
|}.

Definition setGroups (count : Z) (groups : gmap bytes (list Z)) (s : State) : State := {|
  iter := iter s; captureGroupResolved := captureGroupResolved s; captureGroupCount_ := count;
  prefetchedCaptureGroupCount := prefetchedCaptureGroupCount s;
  prefetchedNamedCaptureGroupCount := prefetchedNamedCaptureGroupCount s;
  namedCaptureGroups_ := groups; namedRefNodes := namedRefNodes s;
  loopCount_ := loopCount_ s; error := error s; frames := frames s; directions := directions s
|}.

Definition addNamedRef (t : Token) (name : bytes) (s : State) : State := {|
  iter := iter s; captureGroupResolved := captureGroupResolved s;
  captureGroupCount_ := captureGroupCount_ s;
  prefetchedCaptureGroupCount := prefetchedCaptureGroupCount s;
  prefetchedNamedCaptureGroupCount := prefetchedNamedCaptureGroupCount s;
  namedCaptureGroups_ := namedCaptureGroups_ s; namedRefNodes := namedRefNodes s ++ [(t, name)];
  loopCount_ := loopCount_ s; error := error s; frames := frames s; directions := directions s
|}.

Definition setLoopCount (n : Z) (s : State) : State := {|
  iter := iter s; captureGroupResolved := captureGroupResolved s;
  captureGroupCount_ := captureGroupCount_ s;
  prefetchedCaptureGroupCount := prefetchedCaptureGroupCount s;
  prefetchedNamedCaptureGroupCount := prefetchedNamedCaptureGroupCount s;
  namedCaptureGroups_ := namedCaptureGroups_ s; namedRefNodes := namedRefNodes s;
  loopCount_ := n; error := error s; frames := frames s; directions := directions s
|}.

Definition setError (e : Error) (s : State) : State := {|
  iter := iter s; captureGroupResolved := captureGroupResolved s;
  captureGroupCount_ := captureGroupCount_ s;
  prefetchedCaptureGroupCount := prefetchedCaptureGroupCount s;
  prefetchedNamedCaptureGroupCount := prefetchedNamedCaptureGroupCount s;
  namedCaptureGroups_ := namedCaptureGroups_ s; namedRefNodes := namedRefNodes s;
  loopCount_ := loopCount_ s; error := Some e; frames := frames s; directions := directions s
|}.

Definition setStack (fs : list Frame) (ds : list bool) (s : State) : State := {|
  iter := iter s; captureGroupResolved := captureGroupResolved s;
  captureGroupCount_ := captureGroupCount_ s;
  prefetchedCaptureGroupCount := prefetchedCaptureGroupCount s;
  prefetchedNamedCaptureGroupCount := prefetchedNamedCaptureGroupCount s;
  namedCaptureGroups_ := namedCaptureGroups_ s; namedRefNodes := namedRefNodes s;
  loopCount_ := loopCount_ s; error := error s; frames := fs; directions := ds
|}.

(** ** The monad *)

Definition M (A : Type) : Type := State -> option (A * State).

#[export] Instance M_ret : MRet M := fun A a s => Some (a, s).
#[export] Instance M_bind : MBind M := fun A B f m s =>
  match m s with Some (a, s') => f a s' | None => None end.

Definition undefined {A} : M A := fun _ => None.
Definition gets {A} (f : State -> A) : M A := fun s => Some (f s, s).
Definition modify (f : State -> State) : M unit := fun s => Some (tt, f s).
(** The assertions and casts of the source. *)
Definition assert_ (b : bool) : M unit := if b then mret tt else undefined.
Definition expect {A} (o : option A) : M A := match o with Some a => mret a | None => undefined end.

(** A C string ends at the first zero byte. *)
Fixpoint cstr (s : bytes) : bytes :=
  match s with [] => [] | b :: r => if b =? 0 then [] else b :: cstr r end.

Definition upperHex (v : Z) : Z := if v <? 10 then chr "0" + v else chr "A" + (v - 10).

(** [%02X] of an unsigned int: at least two digits. *)
Fixpoint hexUpper (fuel : nat) (v : Z) : bytes :=
  match fuel with
  | O => []
  | S fuel' => (if v <? 16 then [] else hexUpper fuel' (v / 16)) ++ [upperHex (v mod 16)]
  end.
Definition format02X (v : Z) : bytes := if v <? 16 then chr "0" :: hexUpper 1 v else hexUpper 8 v.

Section parser.
Context `{Ucp} (ref : bytes) (flag : Flag) (extension : bool).

Definition isEnd : M bool := gets (fun s => iter s =? zlen ref).
Definition hasError : M bool := gets (fun s => match error s with Some _ => true | None => false end).

(** [*this->iter] *)
Definition deref : M Z :=
  i ← gets iter;
  expect (if i <? 0 then None else ref !! Z.to_nat i).

(** [this->iter = i]; a pointer stays within the pattern or one past its end. *)
Definition jump (i : Z) : M unit :=
  assert_ ((0 <=? i) && (i <=? zlen ref));;
  modify (setIter i).
Definition advance (n : Z) : M unit := i ← gets iter; jump (i + n).

Definition remain : M bytes := i ← gets iter; mret (drop (Z.to_nat i) ref).
Definition startsWith (prefix : bytes) : M bool := r ← remain; mret (StringRef.startsWith r prefix).

Definition curPos : M Z := i ← gets iter; mret (u32 i).
Definition curToken (len : Z) : M Token := p ← curPos; mret {| pos := p; size := len |}.
Definition getTokenFrom (begin : Z) : M Token :=
  i ← gets iter; mret {| pos := u32 begin; size := u32 (i - begin) |}.
Definition getStrRefFrom (begin : Z) : M bytes :=
  i ← gets iter; mret (StringRef.slice ref begin i).
Definition toStrRef (t : Token) : bytes := StringRef.slice ref (pos t) (endPos t).

(** The message is formatted by the caller. *)
Definition reportError (t : Token) (message : bytes) : M unit :=
  e ← hasError;
  assert_ (negb e);;
  modify (setError {| errToken := t; message := cstr message |}).

Definition quoted (prefix s : bytes) : bytes := prefix ++ lit "`" ++ cstr s ++ lit "'".

Definition reportOverflow (t : Token) : M unit :=
  reportError t (lit "deeply nested regular expression").
Definition reportUndefinedNamedRef (t : Token) (name : bytes) : M unit :=
  reportError t (quoted (lit "undefined capture group name: ") name).
Definition reportUnclosedGroup (t : Token) : M unit := reportError t (lit "unclosed group").

Definition direction : M bool := ds ← gets directions; expect (head ds).

(** [this->frames.back()] *)
Definition topFrame : M Frame := fs ← gets frames; expect (head fs).
Definition setTop (f : Frame) : M unit :=
  fs ← gets frames; ds ← gets directions;
  match fs with _ :: r => modify (setStack (f :: r) ds) | [] => undefined end.
Definition pushFrame (f : Frame) : M unit :=
  fs ← gets frames; ds ← gets directions; modify (setStack (f :: fs) ds).
Definition popFrame : M unit :=
  fs ← gets frames; ds ← gets directions;
  match fs with _ :: r => modify (setStack r ds) | [] => undefined end.
Definition pushDirection (d : bool) : M unit :=
  fs ← gets frames; ds ← gets directions; modify (setStack fs (d :: ds)).
Definition popDirection : M unit :=
  fs ← gets frames; ds ← gets directions;
  match ds with _ :: r => modify (setStack fs r) | [] => undefined end.

Definition curNode : M (option Node) := f ← topFrame; mret (node f).
Definition setCurNode (n : option Node) : M unit := f ← topFrame; setTop (withNode f n).

Definition nextValidCodePoint : M Z :=
  r ← remain;
  let '(len, codePoint) := wtf8ToCodePoint r in
  if 0 <? len then advance len;; mret codePoint
  else
    t ← curToken 1; ch ← deref;
    reportError t (lit "invalid UTF-8 byte: `" ++ format02X (u32 (swrap 8 ch)) ++ lit "'");;
    mret (-1).

Definition append (n : Node) : M unit :=
  f ← topFrame;
  n' ← expect (match node f with
               | None => Some n
               | Some (AltNode t l) => appendToLast t l n
               | Some (SeqNode t l) => Some (seqAppend t l n)
               | Some p => Some (mkSeq p n)
               end);
  setTop (withNode f (Some n')).

(** ** Escapes *)

Definition isSyntaxChar (ch : Z) : bool := existsb (Z.eqb ch) (lit "^$\.*+?()[]{}|").
Definition isClassSetReservedPunctuator (ch : Z) : bool :=
  existsb (Z.eqb ch) (lit "&-!#%,:;<=>@`~").
Definition isClassSetSyntaxCharacter (ch : Z) : bool := existsb (Z.eqb ch) (lit "()[]{}/-\|").
Definition startsWithClassSetReservedDoublePunctuator (r : bytes) : bool :=
  match r with
  | a :: b :: _ => existsb (Z.eqb a) (lit "&!#$%*+,.:;<=>?@^`~") && (a =? b)
  | _ => false
  end.

(** [isLetter] of src/misc/format.hpp *)
Definition isLetter (ch : Z) : bool :=
  ((chr "a" <=? ch) && (ch <=? chr "z")) || ((chr "A" <=? ch) && (ch <=? chr "Z")).

Inductive EscapeParseOp := DEFAULT | IN_CHAR_CLASS | IN_CLASS_STRING.
Definition inCharClass (op : EscapeParseOp) : bool :=
  match op with DEFAULT => false | IN_CHAR_CLASS | IN_CLASS_STRING => true end.
Definition inClassString (op : EscapeParseOp) : bool :=
  match op with IN_CLASS_STRING => true | _ => false end.

(** At most [n] hexadecimal digits; [None] is the jump on another character, which
    is consumed. *)
Fixpoint hexDigits (n : nat) (codePoint : Z) : M (option Z) :=
  match n with
  | O => mret (Some codePoint)
  | S n' =>
      e ← isEnd;
      if e : bool then mret (Some codePoint)
      else
        ch ← deref; advance 1;;
        if isHex ch then hexDigits n' (codePoint * 16 + hexToNum ch) else mret None
  end.

Definition parseUnicodeEscapeBMP (ignoreError : bool) : M Z :=
  old ← gets iter;
  let invalid :=
    b ← startsWith (lit "\");
    (if b : bool then advance 1 else mret tt);;
    (if ignoreError then mret tt
     else t ← getTokenFrom old; s ← getStrRefFrom old;
          reportError t (quoted (lit "invalid unicode escape: ") s));;
    mret (-1) in
  b ← startsWith (lit "\u");
  if negb b then invalid
  else
    advance 2;;
    r ← hexDigits 4 0;
    match r with
    | None => invalid
    | Some codePoint => i ← gets iter; if i - old =? 6 then mret codePoint else invalid
    end.

(** The digits between the braces: whether the value left the range of int, and it. *)
Fixpoint bracedDigits (fuel : nat) (arithOverflow : bool) (codePoint : Z) : M (bool * Z) :=
  match fuel with
  | O => undefined
  | S fuel' =>
      e ← isEnd;
      if e : bool then mret (arithOverflow, codePoint)
      else
        ch ← deref;
        if isHex ch then
          advance 1;;
          if arithOverflow then bracedDigits fuel' true codePoint
          else
            let '(o1, c1) := smul_overflow 32 codePoint 16 in
            if o1 : bool then bracedDigits fuel' true c1
            else let '(o2, c2) := sadd_overflow 32 c1 (hexToNum ch) in bracedDigits fuel' o2 c2
        else mret (arithOverflow, codePoint)
  end.

Definition parseUnicodeEscape (mayIgnoreError forceUnicodeMode : bool) : M Z :=
  old ← gets iter;
  b ← startsWith (lit "\u{");
  if (isEitherUnicodeMode flag || forceUnicodeMode) && b then
    advance 3;;
    '(arithOverflow, codePoint) ← bracedDigits (S (length ref)) false 0;
    e ← isEnd; i ← gets iter;
    closed ← (if e : bool then mret false else ch ← deref; mret (ch =? chr "}"));
    if arithOverflow || e || negb closed || (i - old =? 3) || negb (isCodePoint codePoint) then
      (if e : bool then mret tt else advance 1);;
      (if mayIgnoreError then mret tt
       else t ← getTokenFrom old; s ← getStrRefFrom old;
            reportError t (quoted (lit "invalid unicode escape: ") s));;
      mret (-1)
    else advance 1;; mret codePoint
  else
    codePoint ← parseUnicodeEscapeBMP mayIgnoreError;
    if codePoint <? 0 then mret (-1)
    else if isHighSurrogate codePoint then
      old2 ← gets iter;
      low ← parseUnicodeEscapeBMP true;
      let c := utf16ToCodePoint codePoint low in
      if isCodePoint c then mret c else jump old2;; mret codePoint
    else mret codePoint.

(** The loops [while (!isEnd() && *iter != ...) iter++]. *)
Fixpoint skipWhile (fuel : nat) (p : Z -> bool) : M unit :=
  match fuel with
  | O => undefined
  | S fuel' =>
      e ← isEnd;
      if e : bool then mret tt
      else ch ← deref; if p ch then advance 1;; skipWhile fuel' p else mret tt
  end.

Definition skip (p : Z -> bool) : M unit := skipWhile (S (length ref)) p.

(** [INVALID] of [parseUnicodePropertyEscape]. *)
Definition invalidProperty (old : Z) : M (option Node) :=
  t ← getTokenFrom old; s ← getStrRefFrom old;
  reportError t (quoted (lit "invalid unicode property escape: ") s);;
  mret None.

(** The node of [\p{left=right}], or of [\p{right}] with [left] empty. *)
Definition propertyNode (old : Z) (left right : bytes) (invert : bool) : M (option Node) :=
  t ← getTokenFrom old;
  match parseProperty left right with
  | inr (name, value) =>
      mret (Some (PropertyNode t (if invert then NOT_UNICODE else UNICODE_) (packProperty name value)))
  | inl err => reportError t (cstr err);; mret None
  end.

Definition parseUnicodePropertyEscape : M (option Node) :=
  old ← gets iter;
  b ← deref; assert_ (b =? chr "\");; advance 1;;
  p ← deref; assert_ ((p =? chr "p") || (p =? chr "P"));;
  let invert := p =? chr "P" in
  advance 1;;
  open ← startsWith (lit "{");
  if open : bool then
    advance 1;;
    leftStart ← gets iter;
    skip (fun ch => negb (ch =? chr "}") && negb (ch =? chr "="));;
    left ← getStrRefFrom leftStart;
    e ← isEnd;
    if e : bool then invalidProperty old
    else
      ch ← deref;
      if ch =? chr "}" then
        advance 1;;
        match (if is_ flag UNICODE_SET && negb invert then parseEmojiProperty left else None) with
        | Some seq => t ← getTokenFrom old; mret (Some (PropertyNode t EMOJI seq))
        | None => propertyNode old [] left invert
        end
      else (* = *)
        advance 1;;
        rightStart ← gets iter;
        skip (fun ch => negb (ch =? chr "}"));;
        e ← isEnd;
        if e || (zlen left =? 0) then invalidProperty old
        else
          right ← getStrRefFrom rightStart;
          advance 1;;
          propertyNode old left right invert
  else invalidProperty old.

(** ** Capture groups *)

(** The scan of [resolveCaptureGroups]: the counts of groups and of named groups
    that open after [i], at nesting level [classLevel] of classes. *)
Fixpoint scanGroups (fuel : nat) (i classLevel count named : Z) : option (Z * Z) :=
  match fuel with
  | O => None
  | S fuel' =>
      match ref !! Z.to_nat i with
      | None => Some (count, named)
      | Some ch =>
          if ch =? chr "\" then
            scanGroups fuel' (if i + 1 <? zlen ref then i + 2 else i + 1) classLevel count named
          else if ch =? chr "(" then
            let rest := drop (Z.to_nat (i + 1)) ref in
            if negb (classLevel =? 0) then scanGroups fuel' (i + 1) classLevel count named
            else if StringRef.startsWith rest (lit "?") then
              if StringRef.startsWith rest (lit "?<") then
                if negb (StringRef.startsWith rest (lit "?<=")) &&
                   negb (StringRef.startsWith rest (lit "?<!"))
                then scanGroups fuel' (i + 3) classLevel (u32 (count + 1)) (u32 (named + 1))
                else scanGroups fuel' (i + 3) classLevel count named
              else scanGroups fuel' (i + 2) classLevel count named
            else scanGroups fuel' (i + 1) classLevel (u32 (count + 1)) named
          else if ch =? chr "[" then
            scanGroups fuel' (i + 1)
              (if (classLevel =? 0) || is_ flag UNICODE_SET then classLevel + 1 else classLevel)
              count named
          else if ch =? chr "]" then
            scanGroups fuel' (i + 1)
              (if classLevel =? 0 then classLevel else classLevel - 1) count named
          else scanGroups fuel' (i + 1) classLevel count named
      end
  end.

Definition resolveCaptureGroups : M unit :=
  done ← gets captureGroupResolved;
  if done : bool then mret tt
  else
    i ← gets iter;
    count ← gets captureGroupCount_;
    groups ← gets namedCaptureGroups_;
    '(count, named) ← expect (scanGroups (S (length ref)) i 0 count (Z.of_nat (base.size groups)));
    modify (setResolved count named).

Definition newCaptureGroup (prefixStart : Z) : M Z :=
  count ← gets captureGroupCount_;
  groups ← gets namedCaptureGroups_;
  if count =? CAPTURE_GROUP_INDEX_MAX then
    t ← getTokenFrom prefixStart;
    reportError t (lit "number of capture group reaches limit");; mret 0
  else modify (setGroups (u32 (count + 1)) groups);; mret (u32 (count + 1)).

Definition newNamedCaptureGroup (prefixStart : Z) (name : bytes) : M Z :=
  fs ← gets frames;
  if existsb (fun f => bool_decide (name ∈ existingGroupNames f)) fs then
    t ← getTokenFrom prefixStart;
    reportError t (quoted (lit "duplicated capture group name: ") name);; mret 0
  else
    index ← newCaptureGroup prefixStart;
    if index =? 0 then mret 0
    else
      f ← topFrame;
      setTop (withNames f ({[name]} ∪ existingGroupNames f) (mergedExistingGroupNames f));;
      count ← gets captureGroupCount_;
      groups ← gets namedCaptureGroups_;
      modify (setGroups count (<[name := default [] (groups !! name) ++ [index]]> groups));;
      mret index.

Definition isJSIdStartAscii (c : Z) : bool :=
  ((chr "a" <=? c) && (c <=? chr "z")) || ((chr "A" <=? c) && (c <=? chr "Z")) ||
  (c =? chr "_") || (c =? chr "$").
Definition isJSIdStart (c : Z) : bool := if c <=? 127 then isJSIdStartAscii c else isIdStart c.
Definition isJSIdContinue (c : Z) : bool :=
  if c <=? 127 then isJSIdStartAscii c || ((chr "0" <=? c) && (c <=? chr "9")) else isIdContinue c.

(** One code point of a group name after the opening bracket: the jump to [END] on
    the end of the pattern, the return of an empty name, the closing bracket, or
    the code point. *)
Inductive NameChar := NAME_END | NAME_FAIL | NAME_CLOSE | NAME_CHAR (codePoint : Z).

Definition nameChar (mayIgnoreError : bool) : M NameChar :=
  e ← isEnd;
  if e : bool then mret NAME_END
  else
    codePoint ← nextValidCodePoint;
    if codePoint <? 0 then mret NAME_FAIL
    else if codePoint =? chr ">" then mret NAME_CLOSE
    else if codePoint =? chr "\" then
      advance (-1);;
      c ← parseUnicodeEscape mayIgnoreError true;
      mret (if c <? 0 then NAME_FAIL else NAME_CHAR c)
    else mret (NAME_CHAR codePoint).

Section name.
Context (old : Z) (mayIgnoreError : bool).

Definition invalidName (name : bytes) : M bytes :=
  (if mayIgnoreError then mret tt
   else t ← getTokenFrom old;
        reportError t (quoted (lit "capture group name must contain valid identifier: ") name));;
  mret [].

Definition endOfName (name : bytes) : M bytes :=
  match name with
  | [] => invalidName name
  | _ =>
      (if mayIgnoreError then mret tt
       else t ← getTokenFrom old;
            reportError t (quoted (lit "unclosed capture group name: ") name));;
      mret []
  end.

(** The rest of the name. *)
Fixpoint idContinue (fuel : nat) (name : bytes) : M bytes :=
  match fuel with
  | O => undefined
  | S fuel' =>
      r ← nameChar mayIgnoreError;
      match r with
      | NAME_END => endOfName name
      | NAME_FAIL => mret []
      | NAME_CLOSE => mret name
      | NAME_CHAR c =>
          assert_ (isCodePoint c);;
          let name := name ++ codePointToUtf8 c in
          if isJSIdContinue c then idContinue fuel' name else invalidName name
      end
  end.
End name.

(** The empty name is the failure. *)
Definition parseCaptureGroupName (prefixStart : Z) (mayIgnoreError : bool) : M bytes :=
  old ← gets iter;
  b ← startsWith (lit "<");
  if negb b then
    (if mayIgnoreError then mret tt
     else t ← getTokenFrom prefixStart; s ← getStrRefFrom prefixStart;
          reportError t (cstr s ++ lit " is not followed by <"));;
    mret []
  else
    advance 1;;
    r ← nameChar mayIgnoreError;
    match r with
    | NAME_END => endOfName old mayIgnoreError []
    | NAME_FAIL => mret []
    | NAME_CLOSE => invalidName old mayIgnoreError []
    | NAME_CHAR c =>
        assert_ (isCodePoint c);;
        let name := codePointToUtf8 c in
        if isJSIdStart c then idContinue old mayIgnoreError (S (length ref)) name
        else invalidName old mayIgnoreError name
    end.

(** ** Atoms *)

(** [CHAR] and [INVALID_ESCAPE] of [parseAtomEscape]. *)
Definition escapedChar (start codePoint : Z) : M (option Node) :=
  assert_ (isCodePoint codePoint);;
  t ← getTokenFrom start;
  mret (Some (CharNode t codePoint)).

Definition invalidEscape (start : Z) : M (option Node) :=
  t ← getTokenFrom start; s ← getStrRefFrom start;
  reportError t (quoted (lit "invalid escape: ") s);;
  mret None.

(** At most [n] octal digits, as long as the value fits in a byte. *)
Fixpoint octalDigits (n : nat) (codePoint : Z) : M Z :=
  match n with
  | O => mret codePoint
  | S n' =>
      e ← isEnd;
      if e : bool then mret codePoint
      else
        ch ← deref;
        if isOctal ch then
          let c := codePoint * 8 + (ch - chr "0") in
          if UINT8_MAX <? c then mret codePoint else advance 1;; octalDigits n' c
        else mret codePoint
  end.

Definition invalidDecimal (start : Z) (digits : bytes) : M (option Node) :=
  t ← getTokenFrom start;
  reportError t (quoted (lit "invalid decimal escape: ") digits);;
  mret None.

(** The digits from [old] as an octal escape. *)
Definition octalEscape (start old : Z) (digits : bytes) : M (option Node) :=
  if isEitherUnicodeMode flag then invalidDecimal start digits
  else
    jump old;;
    ch ← deref;
    if negb (isOctal ch) then
      advance 1;; t ← getTokenFrom start; mret (Some (CharNode t ch))
    else
      c ← octalDigits 3 0;
      t ← getTokenFrom start; mret (Some (CharNode t c)).

Definition parseBackRefOrOctal (inCharClass : bool) : M (option Node) :=
  b ← startsWith (lit "\"); assert_ b;;
  start ← gets iter;
  advance 1;;
  old ← gets iter;
  skip isDecimal;;
  tmp ← getStrRefFrom old;
  first ← expect (head tmp);
  if bool_decide (tmp = lit "0") then t ← getTokenFrom start; mret (Some (CharNode t 0))
  else if first =? chr "0" then
    if isEitherUnicodeMode flag then invalidDecimal start tmp else octalEscape start old tmp
  else if negb inCharClass then
    let ret := convertToNum10 32 tmp in
    resolveCaptureGroups;;
    count ← gets prefetchedCaptureGroupCount;
    if bool_decide (kind ret = OK) && (value ret <=? count) && (0 <? value ret) then
      t ← getTokenFrom start; mret (Some (BackRefNode t [] (value ret)))
    else if isEitherUnicodeMode flag then
      t ← getTokenFrom start;
      reportError t (quoted (lit "backref index is greater than capture group count: ") tmp);;
      mret None
    else octalEscape start old tmp
  else octalEscape start old tmp.

Definition parseNamedBackRef (inCharClass : bool) : M (option Node) :=
  b ← startsWith (lit "\k"); assert_ b;;
  old ← gets iter;
  advance 2;;
  if inCharClass then
    t ← getTokenFrom old;
    if isEitherUnicodeMode flag then reportError t (lit "invalid escape: `\k'");; mret None
    else mret (Some (CharNode t (chr "k")))
  else
    name ← parseCaptureGroupName old (is_ flag BMP);
    (if 0 <? zlen name then resolveCaptureGroups else mret tt);;
    named ← gets prefetchedNamedCaptureGroupCount;
    if (zlen name =? 0) || negb (0 <? named) then
      failed ← hasError;
      if is_ flag BMP && negb failed then
        jump (old + 2);;
        t ← getTokenFrom old; mret (Some (CharNode t (chr "k")))
      else
        (if 0 <? zlen name then t ← getTokenFrom old; reportUndefinedNamedRef t name else mret tt);;
        mret None
    else
      t ← getTokenFrom old;
      modify (addNamedRef t name);;
      mret (Some (BackRefNode t name 0)).

(** The class escapes [\d], [\D], [\s], [\S], [\w] and [\W]. *)
Definition classEscape (ch : Z) : option PropertyType :=
  if ch =? chr "d" then Some DIGIT
  else if ch =? chr "D" then Some NOT_DIGIT
  else if ch =? chr "s" then Some SPACE
  else if ch =? chr "S" then Some NOT_SPACE
  else if ch =? chr "w" then Some WORD_
  else if ch =? chr "W" then Some NOT_WORD_
  else None.

(** The control escapes [\f], [\n], [\r], [\t] and [\v]. *)
Definition controlEscape (ch : Z) : option Z :=
  if ch =? chr "f" then Some 12
  else if ch =? chr "n" then Some 10
  else if ch =? chr "r" then Some 13
  else if ch =? chr "t" then Some 9
  else if ch =? chr "v" then Some 11
  else None.

(** The [default] case of the switch. *)
Definition identityEscape (op : EscapeParseOp) (start ch : Z) : M (option Node) :=
  if isEitherUnicodeMode flag && (ch =? chr "X") && extension && negb (inCharClass op) then
    advance 1;;
    d ← direction;
    t ← getTokenFrom start;
    if negb d then
      reportError t (lit "variable length class escape is not allowed in lookbehind");; mret None
    else mret (Some (PropertyNode t GRAPHEME 0))
  else if isEitherUnicodeMode flag && (isSyntaxChar ch || (ch =? chr "/")) then
    advance 1;; escapedChar start ch
  else if inCharClass op && is_ flag UNICODE_SET && isClassSetReservedPunctuator ch then
    advance 1;; escapedChar start ch
  else
    codePoint ← nextValidCodePoint;
    if -1 <? codePoint then
      if is_ flag BMP then escapedChar start codePoint
      else
        t ← getTokenFrom start;
        reportError t (quoted (lit "invalid escape: ") (lit "\" ++ codePointToUtf8 codePoint));;
        mret None
    else mret None.

Definition parseAtomEscape (op : EscapeParseOp) : M (option Node) :=
  b ← startsWith (lit "\"); assert_ b;;
  start ← gets iter;
  advance 1;;
  e ← isEnd;
  if e : bool then
    t ← getTokenFrom start; reportError t (lit "\ at end of pattern");; mret None
  else
    ch ← deref;
    match controlEscape ch with
    | Some c => advance 1;; escapedChar start c
    | None =>
    match classEscape ch with
    | Some ty =>
        advance 1;;
        if inClassString op then invalidEscape start
        else t ← getTokenFrom start; mret (Some (PropertyNode t ty 0))
    | None =>
    if ch =? chr "c" then
      advance 1;;
      e ← isEnd;
      letter ← (if e : bool then mret None
                else c ← deref; mret (if isLetter c then Some c else None));
      match letter with
      | Some c => advance 1;; escapedChar start (c mod 32)
      | None =>
          if is_ flag BMP then advance (-1);; escapedChar start (chr "\")
          else
            r ← remain;
            let len := wtf8ValidateChar r in
            advance len;;
            t ← getTokenFrom start;
            reportError t (quoted (lit "invalid escape: ")
                             (lit "\c" ++ take (Z.to_nat len) r));;
            mret None
      end
    else if isDecimal ch then advance (-1);; parseBackRefOrOctal (inCharClass op)
    else if ch =? chr "b" then
      advance 1;; t ← getTokenFrom start;
      mret (Some (if inCharClass op then CharNode t 8 else BoundaryNode t WORD))
    else if ch =? chr "B" then
      advance 1;;
      if inCharClass op then
        if isEitherUnicodeMode flag then invalidEscape start
        else t ← getTokenFrom start; mret (Some (CharNode t (chr "B")))
      else t ← getTokenFrom start; mret (Some (BoundaryNode t NOT_WORD))
    else if (ch =? chr "p") || (ch =? chr "P") then
      if inClassString op then advance 1;; invalidEscape start
      else if is_ flag BMP then advance 1;; escapedChar start ch
      else advance (-1);; parseUnicodePropertyEscape
    else if ch =? chr "x" then
      advance 1;;
      old ← gets iter;
      r ← hexDigits 2 0;
      i ← gets iter;
      match (if i - old =? 2 then r else None) with
      | Some codePoint => escapedChar start codePoint
      | None =>
          if is_ flag BMP then jump old;; escapedChar start (chr "x") else invalidEscape start
      end
    else if ch =? chr "u" then
      advance (-1);;
      codePoint ← parseUnicodeEscape (is_ flag BMP) false;
      if isCodePoint codePoint then escapedChar start codePoint
      else
        failed ← hasError;
        if is_ flag BMP && negb failed then jump (start + 2);; escapedChar start (chr "u")
        else mret None
    else if ch =? chr "k" then advance (-1);; parseNamedBackRef (inCharClass op)
    else if ch =? chr "-" then
      advance 1;;
      if inCharClass op || negb (isEitherUnicodeMode flag) then
        t ← getTokenFrom start; mret (Some (CharNode t (chr "-")))
      else invalidEscape start
    else identityEscape op start ch
    end
    end.

(** ** Quantifiers *)

Definition isRepeatable (n : option Node) : bool :=
  match n with
  | None => false
  | Some (LookAroundNode _ t _) => is_ flag BMP && isLookAhead t
  | Some _ => true
  end.

Definition checkRepeatable (n : option Node) (prefixStart : Z) : M bool :=
  if isRepeatable n then mret true
  else
    t ← getTokenFrom prefixStart; s ← getStrRefFrom prefixStart;
    reportError t (lit "`" ++ cstr s ++ lit "' quantifier does not follow atom");;
    mret false.

Definition newLoopIndex (prefixStart : Z) : M (option Z) :=
  n ← gets loopCount_;
  if n =? LOOP_INDEX_MAX then
    t ← getTokenFrom prefixStart;
    reportError t (lit "number of quantifier reaches limit");; mret None
  else modify (setLoopCount (u16 (n + 1)));; mret (Some n).

Definition parseQuantifierDigits (prefixStart : Z) (ignoreError : bool) (end_ : Z) : M (option Z) :=
  old ← gets iter;
  skip (fun ch => negb (ch =? end_) && negb (ch =? chr "}"));;
  digits ← getStrRefFrom old;
  if zlen digits =? 0 then
    e ← isEnd;
    (if e : bool then mret tt else advance 1);;
    (if ignoreError then mret tt
     else t ← getTokenFrom prefixStart; s ← getStrRefFrom prefixStart;
          reportError t (quoted (lit "invalid quantifier: ") s));;
    mret None
  else
    let ret := convertToNum10 64 digits in
    if negb (bool_decide (kind ret = OK)) then
      (if ignoreError then mret tt
       else t ← getTokenFrom old;
            reportError t (quoted (lit "must be positive decimal number: ") digits));;
      mret None
    else if QUANTIFIER_MAX <? value ret then
      (if ignoreError then mret tt
       else t ← getTokenFrom old;
            reportError t (quoted (lit "too large number in {} quantifier: ") digits));;
      mret None
    else mret (Some (u16 (value ret))).

(** The [?] after a quantifier. *)
Definition parseGreedy : M bool :=
  b ← startsWith (lit "?");
  if b : bool then advance 1;; mret false else mret true.

(** The last step of each case: the quantified atom. *)
Definition repeatNode (n : option Node) (old min max : Z) (greedy : bool) : M (option Node) :=
  ok ← checkRepeatable n old;
  if negb ok then mret None
  else
    p ← expect n;
    loopIndex ← newLoopIndex old;
    match loopIndex with
    | Some i =>
        t ← getTokenFrom old;
        n ← expect (mkRepeat i p min max greedy t);
        mret (Some n)
    | None => mret None
    end.

(** The braces; [giveUp] leaves the atom without a quantifier in legacy mode. *)
Definition parseBraces (n : option Node) (ignoreError : bool) (old : Z) : M (option Node) :=
  let giveUp := jump old;; mret n in
  let unclosed :=
    t ← getTokenFrom old; s ← getStrRefFrom old;
    reportError t (quoted (lit "unclosed quantifier: ") s);; mret None in
  min ← parseQuantifierDigits old ignoreError (chr ",");
  match min with
  | None => if ignoreError then giveUp else mret None
  | Some min =>
      e ← isEnd;
      if e : bool then (if ignoreError then giveUp else unclosed)
      else
        ch ← deref;
        max ← (if ch =? chr "," then
                 advance 1;;
                 b ← startsWith (lit "}");
                 if b : bool then mret (Some UNLIMIT)
                 else parseQuantifierDigits old ignoreError (chr "}")
               else mret (Some min));
        match max with
        | None => if ignoreError then giveUp else mret None
        | Some max =>
            b ← startsWith (lit "}");
            if negb b then
              e ← isEnd;
              (if e : bool then mret tt else advance 1);;
              if ignoreError then giveUp else unclosed
            else
              advance 1;;
              greedy ← parseGreedy;
              if max <? min then
                t ← getTokenFrom old;
                reportError t (lit "numbers out of order in {} quantifier");; mret None
              else repeatNode n old min max greedy
        end
  end.

Definition tryToParseQuantifier (n : option Node) (ignoreError : bool) : M (option Node) :=
  e ← isEnd;
  if e : bool then p ← expect n; mret (Some p)
  else
    old ← gets iter;
    ch ← deref;
    if ch =? chr "?" then advance 1;; greedy ← parseGreedy; repeatNode n old 0 1 greedy
    else if ch =? chr "*" then advance 1;; greedy ← parseGreedy; repeatNode n old 0 UNLIMIT greedy
    else if ch =? chr "+" then advance 1;; greedy ← parseGreedy; repeatNode n old 1 UNLIMIT greedy
    else if ch =? chr "{" then advance 1;; parseBraces n ignoreError old
    else p ← expect n; mret (Some p).

(** ** Groups *)

Definition parseModifiers (end_ : Z) : M (option Z) :=
  old ← gets iter;
  skip (fun ch => negb (ch =? end_) && negb (ch =? chr ":") && negb (ch =? chr ")"));;
  value ← getStrRefFrom old;
  ret ← expect (parseModifier value);
  match ret with
  | inr m => mret (Some m)
  | inl err => t ← getTokenFrom old; reportError t (cstr err);; mret None
  end.

Definition invalidGroup (old : Z) : M bool :=
  t ← getTokenFrom old; s ← getStrRefFrom old;
  reportError t (quoted (lit "invalid group: ") s);; mret false.

Definition enterLookAround (old n : Z) (t : LookAroundType) : M bool :=
  advance n;;
  token ← getTokenFrom old;
  pushFrame (lookAroundFrame token t);;
  pushDirection (isLookAhead t);;
  mret true.

Definition enterCapture (old index : Z) : M bool :=
  if index =? 0 then mret false
  else token ← getTokenFrom old; pushFrame (groupFrame token CAPTURE index);; mret true.

Definition enterModifiers (old : Z) : M bool :=
  set ← parseModifiers (chr "-");
  match set with
  | None => mret false
  | Some set =>
      b ← startsWith (lit "-");
      unset ← (if b : bool then advance 1;; parseModifiers (chr ":") else mret (Some NONE));
      match unset with
      | None => mret false
      | Some unset =>
          closed ← startsWith (lit ":");
          if (set =? unset) && (set =? NONE) then invalidGroup old
          else if negb closed then invalidGroup old
          else
            advance 1;;
            t ← getTokenFrom old;
            match List.find (fun e => hasFlag set (fst e) && hasFlag unset (fst e)) modifierTable with
            | Some (_, c) =>
                reportError t (lit "repeated modifier in group: `" ++ [c] ++ lit "'");; mret false
            | None => pushFrame (modifierFrame t set unset);; mret true
            end
      end
  end.

Definition enterGroup : M bool :=
  b ← startsWith (lit "("); assert_ b;;
  old ← gets iter;
  advance 1;;
  fs ← gets frames;
  question ← startsWith (lit "?");
  if zlen fs =? STACK_DEPTH_LIMIT then
    t ← getTokenFrom old; reportOverflow t;; mret false
  else if negb question then
    index ← newCaptureGroup old;
    enterCapture old index
  else
    advance 1;;
    e ← isEnd;
    if e : bool then invalidGroup old
    else
      ch ← deref;
      behind ← startsWith (lit "<=");
      behindNot ← startsWith (lit "<!");
      if ch =? chr "=" then enterLookAround old 1 LOOK_AHEAD
      else if ch =? chr "!" then enterLookAround old 1 LOOK_AHEAD_NOT
      else if ch =? chr ":" then
        advance 1;;
        t ← getTokenFrom old; pushFrame (groupFrame t NON_CAPTURE 0);; mret true
      else if behind : bool then enterLookAround old 2 LOOK_BEHIND
      else if behindNot : bool then enterLookAround old 2 LOOK_BEHIND_NOT
      else if ch =? chr "<" then
        name ← parseCaptureGroupName old false;
        if zlen name =? 0 then mret false
        else
          index ← newNamedCaptureGroup old name;
          enterCapture old index
      else enterModifiers old.

(** The body of a frame that ends at [p]: an empty last alternative gets its node. *)
Definition closeBody (n : option Node) (p : Z) : option Node :=
  let empty := EmptyNode {| pos := p; size := 0 |} in
  match n with
  | None => Some empty
  | Some (AltNode t l) =>
      match last l with
      | Some None => appendToLast t l empty
      | Some (Some _) => n
      | None => None
      end
  | Some _ => n
  end.

Definition exitGroup : M (option Node) :=
  b ← startsWith (lit ")"); assert_ b;;
  fs ← gets frames;
  if zlen fs =? 1 then
    t ← curToken 1; reportError t (lit "unmatched `)'");; mret None
  else
    old ← gets iter;
    advance 1;;
    frame ← topFrame;
    t ← getTokenFrom old;
    body ← expect (closeBody (node frame) (pos t));
    n ← match type frame with
        | FRAME_NONE => undefined
        | FRAME_GROUP g =>
            mret (mkGroup (start frame) g (groupIndex frame) (setModifiers frame)
                    (unsetModifiers frame) body t)
        | FRAME_LOOK_AROUND l => popDirection;; mret (mkLookAround (start frame) l body t)
        end;
    let merged := mergedExistingGroupNames (clearAndMergeGroupNames frame) in
    popFrame;;
    below ← topFrame;
    setTop (withNames below (existingGroupNames below ∪ merged) (mergedExistingGroupNames below));;
    mret (Some n).

(** ** Character classes *)

Record CharClass := {
  classToken : Token;
  classInvert : bool;
  classType : ClassType;
  classChars : list Node
}.

(** [curCharClass()]: the node of the last frame, cast to its class; the string bit
    is set when the class is closed. *)
Definition curCharClass : M CharClass :=
  n ← curNode;
  expect (match n with
          | Some (CharClassNode t i ty _ l) =>
              Some {| classToken := t; classInvert := i; classType := ty; classChars := l |}
          | _ => None
          end).

Definition setCharClass (c : CharClass) : M unit :=
  setCurNode (Some (CharClassNode (classToken c) (classInvert c) (classType c) false (classChars c))).

(** [CharClassNode::add] *)
Definition classAdd (n : Node) : M unit :=
  c ← curCharClass;
  setCharClass {| classToken := extendToken (classToken c) (getToken n);
                  classInvert := classInvert c; classType := classType c;
                  classChars := classChars c ++ [n] |}.

Definition classSetType (t : ClassType) : M unit :=
  c ← curCharClass;
  setCharClass {| classToken := classToken c; classInvert := classInvert c; classType := t;
                  classChars := classChars c |}.

Definition isPos (n : Node) : Z := pos (getToken n).

Definition parseCodePointInCharClass : M (option Node) :=
  let char :=
    o ← gets iter;
    codePoint ← nextValidCodePoint;
    if codePoint =? -1 then mret None
    else t ← getTokenFrom o; mret (Some (CharNode t codePoint)) in
  if is_ flag UNICODE_SET then
    old ← gets iter;
    rem ← remain;
    if startsWithClassSetReservedDoublePunctuator rem then
      advance 2;;
      t ← getTokenFrom old;
      reportError t (quoted (lit "invalid set operation in character class: ") (take 2 rem));;
      mret None
    else
      e ← isEnd;
      syntax ← (if e : bool then mret None
                else ch ← deref; mret (if isClassSetSyntaxCharacter ch then Some ch else None));
      match syntax with
      | Some ch =>
          advance 1;;
          t ← getTokenFrom old;
          reportError t (lit "invalid character in character class: `" ++ [ch] ++ lit "'");;
          mret None
      | None => char
      end
  else char.

(** The loop of [parseClassString] on the alternatives so far. *)
Fixpoint classStringLoop (fuel : nat) (t : Token) (l : list (option Node)) : M (option Node) :=
  let appendTo n :=
    match appendToLast t l n with
    | Some (AltNode t' l') => Some (t', l')
    | _ => None
    end in
  let closed p :=
    match last l with
    | Some None => appendTo (EmptyNode {| pos := p; size := 0 |})
    | Some (Some _) => Some (t, l)
    | None => None
    end in
  match fuel with
  | O => undefined
  | S fuel' =>
      e ← isEnd;
      if e : bool then reportError t (lit "unclosed substring");; mret None
      else
        ch ← deref;
        if ch =? chr "\" then
          n ← parseAtomEscape IN_CLASS_STRING;
          match n with
          | None => mret None
          | Some n =>
              assert_ (isChar n);;
              '(t', l') ← expect (appendTo n); classStringLoop fuel' t' l'
          end
        else if ch =? chr "}" then
          p ← curPos;
          '(t', l') ← expect (closed p);
          token ← curToken 1;
          advance 1;;
          mret (Some (AltNode (extendToken t' token) l'))
        else if ch =? chr "|" then
          p ← curPos;
          '(t', l') ← expect (closed p);
          advance 1;;
          classStringLoop fuel' t' (l' ++ [None])
        else
          n ← parseCodePointInCharClass;
          match n with
          | None => mret None
          | Some n => '(t', l') ← expect (appendTo n); classStringLoop fuel' t' l'
          end
  end.

Definition parseClassString : M (option Node) :=
  assert_ (is_ flag UNICODE_SET);;
  b ← startsWith (lit "\q"); assert_ b;;
  old ← gets iter;
  advance 2;;
  open ← startsWith (lit "{");
  if negb open then invalidEscape old
  else
    advance 1;;
    t ← getTokenFrom old;
    classStringLoop (S (length ref)) t [None].

(** The next operand of a class: an operand, the closed class of an outer level, the
    end of the outermost class, the opening of a class, or an error. *)
Inductive Operand :=
| OPERAND (n : Node) (classLevel : Z)
| CLASS_OPENED (classLevel : Z)
| CLASS_CLOSED (n : Node)
| OPERAND_ERROR.

Definition toOperand (classLevel : Z) (n : option Node) : Operand :=
  match n with Some n => OPERAND n classLevel | None => OPERAND_ERROR end.

Definition openClass (classLevel : Z) : M Operand :=
  old ← gets iter;
  advance 1;;
  fs ← gets frames;
  if zlen fs =? STACK_DEPTH_LIMIT then
    t ← getTokenFrom old; reportOverflow t;; mret OPERAND_ERROR
  else
    invert ← startsWith (lit "^");
    (if invert : bool then advance 1 else mret tt);;
    t ← getTokenFrom old;
    pushFrame (nodeFrame (CharClassNode t invert CLASS_UNION false []));;
    mret (CLASS_OPENED (classLevel + 1)).

Definition closeClass (classLevel : Z) : M Operand :=
  c ← curCharClass;
  end_ ← curToken 1;
  let token := extendToken (classToken c) end_ in
  strings ← expect (classStrings (classType c) (classChars c));
  if classInvert c && strings then
    reportError token (lit "negated character class may contain strings");; mret OPERAND_ERROR
  else
    advance 1;;
    let n := CharClassNode token (classInvert c) (classType c) strings (classChars c) in
    popFrame;;
    mret (if classLevel - 1 =? 0 then CLASS_CLOSED n else OPERAND n (classLevel - 1)).

Definition parseOperand (classLevel : Z) : M Operand :=
  ch ← deref;
  if ch =? chr "\" then
    q ← startsWith (lit "\q");
    n ← (if is_ flag UNICODE_SET && q then parseClassString else parseAtomEscape IN_CHAR_CLASS);
    mret (toOperand classLevel n)
  else if ch =? chr "[" then
    if (classLevel =? 0) || is_ flag UNICODE_SET then openClass classLevel
    else
      t ← curToken 1; advance 1;; mret (OPERAND (CharNode t (chr "[")) classLevel)
  else if ch =? chr "]" then closeClass classLevel
  else n ← parseCodePointInCharClass; mret (toOperand classLevel n).

(** The check of a range whose upper bound is [n]. *)
Definition checkRange (n : Node) : M bool :=
  c ← curCharClass;
  let chars := classChars c in
  if hasUnterminatedCharOp chars && isUnionOrRange (classType c) then
    left ← expect (chars !! (length chars - 2)%nat);
    leftCode ← expect (match left with
                       | CharNode _ v => if (2 <=? length chars)%nat then Some v else None
                       | _ => None
                       end);
    match n with
    | CharNode _ rightCode =>
        if rightCode <? leftCode then
          t ← getTokenFrom (isPos left);
          reportError t (lit "character range out of order");; mret false
        else mret true
    | _ =>
        if is_ flag BMP then
          back ← expect (last chars);
          setCharClass {| classToken := classToken c; classInvert := classInvert c;
                          classType := classType c; classChars := removelast chars |};;
          classAdd (CharNode (getToken back) (chr "-"));;
          mret true
        else
          t ← getTokenFrom (isPos left);
          reportError t (lit "invalid character range");; mret false
    end
  else mret true.

(** The operator at the cursor, in set mode. *)
Definition parseSetOperator : M (option (option (PropertyType * ClassType * Token))) :=
  old ← gets iter;
  intersect ← startsWith (lit "&&");
  subtract ← startsWith (lit "--");
  range ← startsWith (lit "-");
  if intersect : bool then
    advance 2;;
    third ← startsWith (lit "&");
    if third : bool then
      old2 ← gets iter;
      ch ← deref;
      advance 1;;
      t ← getTokenFrom old2;
      reportError t (lit "invalid character in character class: `" ++ [ch] ++ lit "'");;
      mret None
    else t ← getTokenFrom old; mret (Some (Some (INTERSECT, CLASS_INTERSECT, t)))
  else if subtract : bool then
    advance 2;; t ← getTokenFrom old; mret (Some (Some (SUBTRACT, CLASS_SUBTRACT, t)))
  else if range : bool then
    advance 1;; t ← getTokenFrom old; mret (Some (Some (RANGE, CLASS_RANGE, t)))
  else mret (Some None).

Definition combineError : M bool :=
  c ← curCharClass;
  t ← getTokenFrom (pos (classToken c));
  reportError t (lit "cannot combine different set operation");; mret false.

(** An operand in set mode, and the operator that follows it. *)
Definition addSetOperand (n : Node) : M bool :=
  c ← curCharClass;
  if negb (hasUnterminatedCharOp (classChars c) || isUnionOrRange (classType c)) then combineError
  else
    classAdd n;;
    old ← gets iter;
    op ← parseSetOperator;
    match op with
    | None => mret false
    | Some None => mret true
    | Some (Some (opType, ty, token)) =>
        c ← curCharClass;
        let chars := classChars c in
        if negb (isCompatible (classType c) chars ty) then combineError
        else
          classSetType ty;;
          back ← expect (last chars);
          let cur :=
            if negb (bool_decide (ty = CLASS_RANGE)) then None
            else if negb (isChar back) then Some (isPos back)
            else match (if 1 <? zlen chars then chars !! (length chars - 2)%nat else None) with
                 | Some n => if isProperty n RANGE then Some old else None
                 | None => None
                 end in
          match cur with
          | Some cur =>
              t ← getTokenFrom cur; reportError t (lit "invalid character range");; mret false
          | None =>
              classAdd (PropertyNode token opType 0);;
              e ← isEnd;
              b ← startsWith (lit "]");
              if e || b then
                reportError token (quoted (lit "set operation needs operand: ") (toStrRef token));;
                mret false
              else mret true
          end
    end.

(** An operand in the other modes, and the hyphen that may follow it. *)
Definition addOperand (n : Node) : M bool :=
  classAdd n;;
  b ← startsWith (lit "-");
  if negb b then mret true
  else
    token ← curToken 1;
    advance 1;;
    e ← isEnd;
    close ← startsWith (lit "]");
    if e || close then classAdd (CharNode token (chr "-"));; mret true
    else
      c ← curCharClass;
      let chars := classChars c in
      back ← expect (last chars);
      if negb (isChar back) then
        if is_ flag BMP then classAdd (CharNode token (chr "-"));; mret true
        else
          t ← getTokenFrom (isPos back);
          reportError t (lit "invalid character range");; mret false
      else
        let afterRange :=
          if zlen chars =? 1 then Some false
          else (fun n => isProperty n RANGE) <$> chars !! (length chars - 2)%nat in
        after ← expect afterRange;
        if after : bool then classAdd (CharNode token (chr "-"));; mret true
        else classSetType CLASS_RANGE;; classAdd (PropertyNode token RANGE 0);; mret true.

(** Its loop; each round consumes a character. *)
Fixpoint charClassLoop (fuel : nat) (classLevel : Z) : M (option Node) :=
  match fuel with
  | O => undefined
  | S fuel' =>
      e ← isEnd;
      if e : bool then
        c ← curCharClass;
        reportError (classToken c) (lit "unclosed character class");; mret None
      else
        o ← parseOperand classLevel;
        match o with
        | OPERAND_ERROR => mret None
        | CLASS_OPENED level => charClassLoop fuel' level
        | CLASS_CLOSED n => mret (Some n)
        | OPERAND n level =>
            ok ← checkRange n;
            ok ← (if negb ok then mret false
                  else if is_ flag UNICODE_SET then addSetOperand n else addOperand n);
            if ok : bool then charClassLoop fuel' level else mret None
        end
  end.

Definition parseCharClass : M (option Node) :=
  b ← startsWith (lit "["); assert_ b;;
  charClassLoop (S (length ref)) 0.

(** ** The pattern *)

(** [REPEAT]: the quantifier of an atom, which is then appended; the result is false
    for the return of a null pattern. *)
Definition repeatAtom (atom : option Node) : M bool :=
  r ← tryToParseQuantifier atom (is_ flag BMP);
  match r with
  | Some n => append n;; mret true
  | None =>
      failed ← hasError;
      if failed : bool then mret false
      else
        ch ← deref;
        assert_ (ch =? chr "{");;
        assert_ (is_ flag BMP);;
        t ← curToken 1;
        advance 1;;
        append (CharNode t ch);;
        mret true
  end.

Definition atomOrFail (n : option Node) : M bool :=
  match n with Some n => repeatAtom (Some n) | None => mret false end.

Definition appendBoundary (t : BoundaryType) : M bool :=
  token ← curToken 1; append (BoundaryNode token t);; advance 1;; mret true.

(** The bracket that is an ordinary character in legacy mode. *)
Definition closeBracket (ch : Z) (message : bytes) : M bool :=
  t ← curToken 1;
  if isEitherUnicodeMode flag then reportError t message;; mret false
  else advance 1;; repeatAtom (Some (CharNode t ch)).

Definition nextAlternative : M bool :=
  p ← curPos;
  n ← curNode;
  let empty := EmptyNode {| pos := p; size := 0 |} in
  n' ← expect (match default empty n with
               | AltNode t l =>
                   match last l with
                   | Some None => appendToLast t l empty
                   | Some (Some _) => Some (AltNode t l)
                   | None => None
                   end
               | m => Some (mkAlt m)
               end);
  n'' ← expect (match n' with AltNode t l => Some (AltNode t (l ++ [None])) | _ => None end);
  setCurNode (Some n'');;
  f ← topFrame;
  setTop (clearAndMergeGroupNames f);;
  advance 1;;
  mret true.

(** One round of the loop of [parse]. *)
Definition parseStep : M bool :=
  ch ← deref;
  if ch =? chr "^" then appendBoundary START
  else if ch =? chr "$" then appendBoundary END
  else if ch =? chr "\" then
    r ← parseAtomEscape DEFAULT;
    match r with
    | Some (BoundaryNode _ _ as n) => append n;; mret true
    | _ => atomOrFail r
    end
  else if ch =? chr "." then
    t ← curToken 1; advance 1;; repeatAtom (Some (AnyNode t))
  else if (ch =? chr "*") || (ch =? chr "+") || (ch =? chr "?") then repeatAtom None
  else if ch =? chr "(" then enterGroup
  else if ch =? chr ")" then n ← exitGroup; atomOrFail n
  else if ch =? chr "[" then n ← parseCharClass; atomOrFail n
  else if ch =? chr "]" then closeBracket ch (lit "unmatched `]'")
  else if ch =? chr "{" then repeatAtom None
  else if ch =? chr "}" then closeBracket ch (lit "lone quantifier bracket `}'")
  else if ch =? chr "|" then nextAlternative
  else
    old ← gets iter;
    codePoint ← nextValidCodePoint;
    if -1 <? codePoint then
      t ← getTokenFrom old; repeatAtom (Some (CharNode t codePoint))
    else mret false.

Fixpoint parseLoop (fuel : nat) : M bool :=
  match fuel with
  | O => undefined
  | S fuel' =>
      e ← isEnd;
      if e : bool then mret true
      else
        ok ← parseStep;
        if ok : bool then parseLoop fuel' else mret false
  end.

Definition parse : M (option Node) :=
  pushFrame emptyFrame;;
  ok ← parseLoop (S (length ref));
  if negb ok then mret None
  else
    fs ← gets frames;
    if 1 <? zlen fs then
      i ← gets iter; t ← getTokenFrom i; reportUnclosedGroup t;; mret None
    else
      n ← curNode;
      popFrame;;
      p ← curPos;
      body ← expect (closeBody n p);
      mret (Some body).

(** ** Named groups *)

Definition toEntry (e : bytes * list Z) : option (bytes * NamedCaptureEntry) :=
  match snd e with
  | [] => None
  | [i] => Some (fst e, SingleIndex i)
  | l => Some (fst e, MultipleIndices l)
  end.

Definition firstIndex (e : bytes * NamedCaptureEntry) : Z :=
  match snd e with SingleIndex i => i | MultipleIndices l => default 0 (head l) end.

Definition byFirstIndex (x y : bytes * NamedCaptureEntry) : Prop := firstIndex x <= firstIndex y.

#[export] Instance byFirstIndex_dec : RelDecision byFirstIndex.
Proof. intros x y. unfold byFirstIndex. apply _. Defined.

(** The entries, ordered by their first group. *)
Definition namedEntries (groups : gmap bytes (list Z)) : option NamedCaptureGroups :=
  l ← mapM toEntry (map_to_list groups);
  Some (merge_sort byFirstIndex l).

(** [offsetMap]: the position of the entry of a name. *)
Definition offsetOf (entries : NamedCaptureGroups) (name : bytes) : option Z :=
  match list_find (fun e => fst e = name) entries with
  | Some (i, _) => Some (u16 (Z.of_nat i))
  | None => None
  end.

(** [setIndex] on the named references of a tree. *)
Fixpoint setNamedRefs (entries : NamedCaptureGroups) (n : Node) : Node :=
  match n with
  | BackRefNode t name i =>
      if zlen name =? 0 then n else BackRefNode t name (default i (offsetOf entries name))
  | RepeatNode t q p => RepeatNode t q (setNamedRefs entries p)
  | SeqNode t l => SeqNode t (map (setNamedRefs entries) l)
  | AltNode t l => AltNode t (map (fun e => match e with Some p => Some (setNamedRefs entries p) | None => None end) l)
  | LookAroundNode t ty p => LookAroundNode t ty (setNamedRefs entries p)
  | GroupNode t ty i s u p => GroupNode t ty i s u (setNamedRefs entries p)
  | _ => n
  end.

Fixpoint checkNamedRefs (entries : NamedCaptureGroups) (refs : list (Token * bytes)) : M bool :=
  match refs with
  | [] => mret true
  | (t, name) :: r =>
      match offsetOf entries name with
      | Some _ => checkNamedRefs entries r
      | None => reportUndefinedNamedRef t name;; mret false
      end
  end.

(** [operator()] from the initial state: the tree, and the state with the error. *)
Definition parseTree : M SyntaxTree :=
  n ← parse;
  groups ← gets namedCaptureGroups_;
  entries ← expect (namedEntries groups);
  n ← match n with
      | None => mret None
      | Some n =>
          refs ← gets namedRefNodes;
          ok ← checkNamedRefs entries refs;
          mret (if ok : bool then Some (setNamedRefs entries n) else None)
      end;
  loops ← gets loopCount_;
  count ← gets captureGroupCount_;
  mret {| RegexSyntax.flag := flag; loopCount := loops; pattern := n;
          namedCaptureGroups := entries; captureGroupCount := count |}.

Definition run : option (SyntaxTree * State) := parseTree initial.
End parser.
End RegexParser.
