(* ===== verification/RegexScan.v ===== *)
(** Reasoning about the parser monad: a weakest-precondition calculus for its
    operations, what the reading functions consume, and the scan for capture groups
    that [resolveCaptureGroups] makes ahead of the parser. *)
From Stdlib Require Import Ascii.
From S2P Require Import Prelude NumUtil Unicode StringRef RegexNode RegexSyntax RegexParser.
Import NumUtil UnicodeUtil RegexNode RegexSyntax RegexParser.

Module RegexScan.

(** ** Weakest preconditions *)

Definition wp {A} (m : M A) (Q : A -> State -> Prop) (s : State) : Prop :=
  match m s with Some (a, s') => Q a s' | None => False end.

Lemma wp_bind {A B} (m : M A) (f : A -> M B) Q s :
  wp m (fun a s' => wp (f a) Q s') s -> wp (m ≫= f) Q s.
Proof. unfold wp, mbind, M_bind. by destruct (m s) as [[a s']|]. Qed.

Lemma wp_ret {A} (a : A) (Q : A -> State -> Prop) s : Q a s -> wp (mret a) Q s.
Proof. done. Qed.

Lemma wp_gets {A} (f : State -> A) (Q : A -> State -> Prop) s : Q (f s) s -> wp (gets f) Q s.
Proof. done. Qed.

Lemma wp_modify f (Q : unit -> State -> Prop) s : Q tt (f s) -> wp (modify f) Q s.
Proof. done. Qed.

Lemma wp_assert b (Q : unit -> State -> Prop) s : b = true -> Q tt s -> wp (assert_ b) Q s.
Proof. by intros ->. Qed.

Lemma wp_expect {A} (o : option A) a (Q : A -> State -> Prop) s : o = Some a -> Q a s -> wp (expect o) Q s.
Proof. by intros ->. Qed.

Lemma wp_mono {A} (m : M A) (Q Q' : A -> State -> Prop) s :
  wp m Q s -> (forall a s', Q a s' -> Q' a s') -> wp m Q' s.
Proof. unfold wp. destruct (m s) as [[a s']|]; auto. Qed.

Lemma wp_elim {A} (m : M A) Q s : wp m Q s -> exists a s', m s = Some (a, s') /\ Q a s'.
Proof. unfold wp. destruct (m s) as [[a s']|]; [eauto|done]. Qed.

Section scan.
Context `{Ucp} (ref : bytes) (flag : Flag) (extension : bool).

Definition byteAt (i : Z) : option Z := if i <? 0 then None else ref !! Z.to_nat i.

Lemma byteAt_Some i : 0 <= i < zlen ref -> exists b, byteAt i = Some b.
Proof.
  unfold byteAt, zlen. intros ?. destruct (Z.ltb_spec i 0); [lia|].
  apply lookup_lt_is_Some. lia.
Qed.

Lemma byteAt_range i b : byteAt i = Some b -> 0 <= i < zlen ref.
Proof.
  unfold byteAt, zlen. destruct (Z.ltb_spec i 0); [done|]. intros E%lookup_lt_Some. lia.
Qed.

(** *** The reading operations on a state whose cursor is set *)

Lemma wp_isEnd Q s : Q (iter s =? zlen ref) s -> wp (isEnd ref) Q s.
Proof. done. Qed.

Lemma wp_hasError Q s : error s = None -> Q false s -> wp hasError Q s.
Proof. intros E. unfold wp, hasError, gets. by rewrite E. Qed.

Lemma wp_failed e Q s : error s = Some e -> Q true s -> wp hasError Q s.
Proof. intros E. unfold wp, hasError, gets. by rewrite E. Qed.

Lemma wp_deref b Q s : byteAt (iter s) = Some b -> Q b s -> wp (deref ref) Q s.
Proof. intros E ?. apply wp_bind, wp_gets, (wp_expect _ b); done. Qed.

Lemma wp_jump i (Q : unit -> State -> Prop) s : 0 <= i <= zlen ref -> Q tt (setIter i s) -> wp (jump ref i) Q s.
Proof. intros ? ?. apply wp_bind, wp_assert; [lia|]. by apply wp_modify. Qed.

Lemma wp_advance n (Q : unit -> State -> Prop) s :
  0 <= iter s + n <= zlen ref -> Q tt (setIter (iter s + n) s) -> wp (advance ref n) Q s.
Proof. intros ? ?. by apply wp_bind, wp_gets, wp_jump. Qed.

Definition restAt (i : Z) : bytes := drop (Z.to_nat i) ref.

Lemma wp_remain (Q : bytes -> State -> Prop) s : Q (restAt (iter s)) s -> wp (remain ref) Q s.
Proof. done. Qed.

Lemma wp_startsWith p (Q : bool -> State -> Prop) s :
  Q (StringRef.startsWith (restAt (iter s)) p) s -> wp (startsWith ref p) Q s.
Proof. done. Qed.

Lemma wp_curToken n (Q : Token -> State -> Prop) s :
  Q {| pos := u32 (iter s); size := n |} s -> wp (curToken n) Q s.
Proof. done. Qed.

Lemma wp_getTokenFrom b (Q : Token -> State -> Prop) s :
  Q {| pos := u32 b; size := u32 (iter s - b) |} s -> wp (getTokenFrom b) Q s.
Proof. done. Qed.

Lemma wp_getStrRefFrom b (Q : bytes -> State -> Prop) s :
  Q (StringRef.slice ref b (iter s)) s -> wp (getStrRefFrom ref b) Q s.
Proof. done. Qed.

(** The tokens that lie in the pattern. *)
Definition tokOk (t : Token) : Prop := 0 <= pos t /\ 0 <= size t /\ pos t + size t <= zlen ref.

Lemma wp_reportError t msg (Q : unit -> State -> Prop) s :
  error s = None -> Q tt (setError {| errToken := t; message := cstr msg |} s) ->
  wp (reportError t msg) Q s.
Proof. intros E ?. apply wp_bind, wp_hasError, wp_bind, wp_assert; [done..|]. by apply wp_modify. Qed.

(** ** The scan *)

(** [scans i level count named r]: the scan from [i] gives [r]. *)
Definition scans (i level count named : Z) (r : Z * Z) : Prop :=
  exists fuel, scanGroups ref flag fuel i level count named = Some r.

(** No group opens between two positions. *)
Definition Quiet (i level j level' : Z) : Prop :=
  forall c n r, scans i level c n r <-> scans j level' c n r.

Lemma Quiet_refl i level : Quiet i level i level.
Proof. done. Qed.
Lemma Quiet_trans i l j l' k l'' : Quiet i l j l' -> Quiet j l' k l'' -> Quiet i l k l''.
Proof. intros H1 H2 c n r. by rewrite (H1 c n r). Qed.
Lemma Quiet_sym i l j l' : Quiet i l j l' -> Quiet j l' i l.
Proof. intros H1 c n r. by rewrite (H1 c n r). Qed.

(** One step of the scan that opens nothing. *)
Lemma Quiet_step i level j level' :
  (forall fuel c n, scanGroups ref flag (S fuel) i level c n = scanGroups ref flag fuel j level' c n) ->
  Quiet i level j level'.
Proof.
  intros Hs c n r. split; intros [fuel E].
  - destruct fuel; [done|]. rewrite Hs in E. by exists fuel.
  - exists (S fuel). by rewrite Hs.
Qed.

Definition plain (b : Z) : bool :=
  negb ((b =? chr "\") || (b =? chr "(") || (b =? chr "[") || (b =? chr "]")).

Ltac scan_step Hb :=
  apply Quiet_step; intros fuel c n; cbn [scanGroups];
  let E := fresh "E" in
  pose proof Hb as E; unfold byteAt in E; case_in E; [discriminate|]; rewrite E.

Lemma Quiet_plain i b level : byteAt i = Some b -> plain b = true -> Quiet i level (i + 1) level.
Proof.
  intros Hb Hp. unfold plain in Hp. zbool. scan_step Hb.
  by repeat (rewrite (proj2 (Z.eqb_neq _ _)) by done).
Qed.

Lemma Quiet_escape i level :
  byteAt i = Some (chr "\") -> i + 1 < zlen ref -> Quiet i level (i + 2) level.
Proof.
  intros Hb Hl. scan_step Hb. cbn -[scanGroups]. destruct (Z.ltb_spec (i + 1) (zlen ref)); [done|lia].
Qed.

(** Inside of a class a parenthesis is a character. *)
Lemma Quiet_class_char i b level :
  byteAt i = Some b -> level <> 0 -> b <> chr "\" -> b <> chr "[" -> b <> chr "]" ->
  Quiet i level (i + 1) level.
Proof.
  intros Hb Hl H1 H2 H3. scan_step Hb.
  rewrite (proj2 (Z.eqb_neq b (chr "\"))), (proj2 (Z.eqb_neq b (chr "["))), (proj2 (Z.eqb_neq b (chr "]"))) by done.
  rewrite (proj2 (Z.eqb_neq level 0)) by done. by destruct (b =? _).
Qed.

Lemma Quiet_open_class i level :
  byteAt i = Some (chr "[") -> level = 0 \/ is_ flag UNICODE_SET = true ->
  Quiet i level (i + 1) (level + 1).
Proof.
  intros Hb Hl. scan_step Hb. cbn -[scanGroups].
  destruct (Z.eqb_spec level 0); [done|]. destruct Hl as [->| ->]; done.
Qed.

Lemma Quiet_inner_bracket i level :
  byteAt i = Some (chr "[") -> level <> 0 -> is_ flag UNICODE_SET = false ->
  Quiet i level (i + 1) level.
Proof.
  intros Hb Hl Hf. scan_step Hb. cbn -[scanGroups]. rewrite Hf.
  destruct (Z.eqb_spec level 0); done.
Qed.

Lemma Quiet_close_class i level :
  byteAt i = Some (chr "]") -> level <> 0 -> Quiet i level (i + 1) (level - 1).
Proof.
  intros Hb Hl. scan_step Hb. cbn -[scanGroups]. destruct (Z.eqb_spec level 0); done.
Qed.

Lemma Quiet_lone_bracket i : byteAt i = Some (chr "]") -> Quiet i 0 (i + 1) 0.
Proof. intros Hb. by scan_step Hb. Qed.

(** The segment [i, j) of the pattern. *)
Definition segment (P : Z -> Prop) (i j : Z) : Prop :=
  forall k b, i <= k < j -> byteAt k = Some b -> P b.

Lemma Quiet_segment i j level :
  0 <= i -> i <= j -> j <= zlen ref -> segment (fun b => plain b = true) i j ->
  Quiet i level j level.
Proof.
  intros Hi Hij Hj Hs. remember (Z.to_nat (j - i)) as n eqn:Hn.
  revert i Hi Hij Hs Hn. induction n as [|n IH]; intros i Hi Hij Hs Hn.
  { replace j with i by lia. apply Quiet_refl. }
  destruct (byteAt_Some i) as [b Hb]; [lia|].
  eapply Quiet_trans; [apply (Quiet_plain i b); [done|]|].
  { apply (Hs i b); [lia|done]. }
  apply IH; [lia..| |lia]. intros k b' ? ?. apply (Hs k b'); [lia|done].
Qed.

(** A capture group opens. *)
Lemma scans_capture i c n r :
  byteAt i = Some (chr "(") -> StringRef.startsWith (restAt (i + 1)) (lit "?") = false ->
  scans i 0 c n r -> scans (i + 1) 0 (u32 (c + 1)) n r.
Proof.
  intros Hb Hq [fuel E]. destruct fuel as [|fuel]; [done|]. exists fuel.
  revert E. cbn [scanGroups]. unfold byteAt in Hb. case_in Hb; [done|]. rewrite Hb.
  cbn -[scanGroups StringRef.startsWith lit]. fold (restAt (i + 1)). by rewrite Hq.
Qed.

Lemma scans_named i c n r :
  byteAt i = Some (chr "(") -> StringRef.startsWith (restAt (i + 1)) (lit "?<") = true ->
  StringRef.startsWith (restAt (i + 1)) (lit "?<=") = false ->
  StringRef.startsWith (restAt (i + 1)) (lit "?<!") = false ->
  scans i 0 c n r -> scans (i + 3) 0 (u32 (c + 1)) (u32 (n + 1)) r.
Proof.
  intros Hb H1 H2 H3 [fuel E]. destruct fuel as [|fuel]; [done|]. exists fuel.
  revert E. cbn [scanGroups]. unfold byteAt in Hb. case_in Hb; [done|]. rewrite Hb.
  cbn -[scanGroups StringRef.startsWith lit]. fold (restAt (i + 1)).
  assert (StringRef.startsWith (restAt (i + 1)) (lit "?") = true) as ->.
  { apply StringRef.startsWith_spec in H1 as [t ->]. reflexivity. }
  by rewrite H1, H2, H3.
Qed.

(** The groups that do not capture. *)
Lemma Quiet_noncapture i :
  byteAt i = Some (chr "(") -> StringRef.startsWith (restAt (i + 1)) (lit "?") = true ->
  StringRef.startsWith (restAt (i + 1)) (lit "?<") = false -> Quiet i 0 (i + 2) 0.
Proof.
  intros Hb H1 H2. scan_step Hb. cbn -[scanGroups StringRef.startsWith lit]. fold (restAt (i + 1)).
  by rewrite H1, H2.
Qed.

Lemma Quiet_lookbehind i :
  byteAt i = Some (chr "(") ->
  StringRef.startsWith (restAt (i + 1)) (lit "?<=") = true \/
  StringRef.startsWith (restAt (i + 1)) (lit "?<!") = true -> Quiet i 0 (i + 3) 0.
Proof.
  intros Hb Hl. scan_step Hb. cbn -[scanGroups StringRef.startsWith lit]. fold (restAt (i + 1)).
  destruct Hl as [Hl|Hl]; pose proof Hl as Hl';
    apply StringRef.startsWith_spec in Hl' as [t Ht]; rewrite Ht; reflexivity.
Qed.

End scan.

(** ** Automation *)

(** Projections of the modified states. *)
Ltac st :=
  cbn [iter error captureGroupResolved captureGroupCount_ prefetchedCaptureGroupCount
       prefetchedNamedCaptureGroupCount namedCaptureGroups_ namedRefNodes loopCount_ frames directions
       setIter setResolved setGroups addNamedRef setLoopCount setError setStack] in *.

(** One operation of the monad without a side condition. *)
Ltac wp1 :=
  lazymatch goal with
  | |- wp (mbind _ _) _ _ => apply wp_bind
  | |- wp (mret _) _ _ => apply wp_ret
  | |- wp (gets _) _ _ => apply wp_gets
  | |- wp (modify _) _ _ => apply wp_modify
  | |- wp (isEnd _) _ _ => apply wp_isEnd
  | |- wp (remain _) _ _ => apply wp_remain
  | |- wp (startsWith _ _) _ _ => apply wp_startsWith
  | |- wp (curToken _) _ _ => apply wp_curToken
  | |- wp (getTokenFrom _) _ _ => apply wp_getTokenFrom
  | |- wp (getStrRefFrom _ _) _ _ => apply wp_getStrRefFrom
  | |- wp (let _ := _ in _) _ _ => cbv zeta
  end; st.
Ltac wps := repeat wp1.

Section leaf.
Context `{Ucp} (ref : bytes) (flag : Flag) (extension : bool).
Context (Hbytes : Forall is_byte ref) (Hlen : zlen ref <= UINT32_MAX).
Abbreviation byteAt := (byteAt ref).
Abbreviation restAt := (restAt ref).
Abbreviation tokOk := (tokOk ref).
Abbreviation Quiet := (Quiet ref flag).
Abbreviation segment := (segment ref).
Abbreviation len := (zlen ref).

Lemma u32_len z : 0 <= z <= len -> u32 z = z.
Proof. intros. apply wrap_small. unfold in_unsigned, UINT32_MAX in *. lia. Qed.

Lemma tok_from b i : 0 <= b <= i -> i <= len -> tokOk {| pos := u32 b; size := u32 (i - b) |}.
Proof. intros. unfold tokOk; cbn [pos size]. rewrite !u32_len by lia. lia. Qed.

Lemma tok_cur i n : 0 <= i -> 0 <= n -> i + n <= len -> tokOk {| pos := u32 i; size := n |}.
Proof. intros. unfold tokOk; cbn [pos size]. rewrite u32_len by lia. lia. Qed.

Lemma endPos_ok t : tokOk t -> endPos t = pos t + size t.
Proof. intros (? & ? & ?). apply u32_len. lia. Qed.

Lemma extendToken_ok old t : tokOk old -> tokOk t -> tokOk (extendToken old t).
Proof.
  intros Ho Ht. unfold extendToken. rewrite (endPos_ok _ Ho), (endPos_ok _ Ht).
  destruct (Z.ltb_spec (pos old + size old) (pos t + size t)); [|done].
  destruct Ho as (? & ? & ?), Ht as (? & ? & ?). unfold tokOk; cbn [pos size].
  rewrite u32_len by lia. lia.
Qed.

(** The two ways a reading function leaves the state. *)
Definition Moved (s s' : State) : Prop := exists i, s' = setIter i s /\ 0 <= i <= len.
Definition ErrAt (s s' : State) : Prop :=
  exists i e, s' = setError e (setIter i s) /\ tokOk (errToken e).

Definition atPos (s : State) : Prop := 0 <= iter s <= len /\ error s = None.

(** *** Bytes *)

Lemma restAt_byte i b : byteAt i = Some b -> restAt i = b :: restAt (i + 1).
Proof.
  intros Hb. pose proof (byteAt_range _ _ _ Hb). unfold RegexScan.byteAt in Hb.
  case_in Hb; [done|]. unfold RegexScan.restAt. rewrite (drop_S _ b) by done.
  by replace (Z.to_nat (i + 1)) with (S (Z.to_nat i)) by lia.
Qed.

Lemma restAt_end i : len <= i -> restAt i = [].
Proof. intros. apply drop_ge. unfold zlen in *. lia. Qed.

Lemma restAt_zlen i : 0 <= i <= len -> zlen (restAt i) = len - i.
Proof. intros. unfold RegexScan.restAt, zlen in *. rewrite length_drop. lia. Qed.

Lemma restAt_bytes i : Forall is_byte (restAt i).
Proof. by apply Forall_drop. Qed.

Lemma byteAt_is_byte i b : byteAt i = Some b -> is_byte b.
Proof.
  unfold RegexScan.byteAt. case_on; [done|]. intros E. exact (Forall_lookup_1 _ _ _ _ Hbytes E).
Qed.

Lemma byteAt_restAt i k : 0 <= i -> 0 <= k -> byteAt (i + k) = restAt i !! Z.to_nat k.
Proof.
  intros. unfold RegexScan.byteAt, RegexScan.restAt. destruct (Z.ltb_spec (i + k) 0); [lia|].
  rewrite lookup_drop. f_equal. lia.
Qed.

Lemma starts_len i p : 0 <= i <= len -> StringRef.startsWith (restAt i) p = true -> i + zlen p <= len.
Proof.
  intros Hi (t & Ht)%StringRef.startsWith_spec. pose proof (restAt_zlen i Hi) as E.
  rewrite Ht in E. autorewrite with zlen in E. pose proof (zlen_nonneg t). lia.
Qed.

Lemma starts_byte i p k b :
  0 <= i -> StringRef.startsWith (restAt i) p = true -> 0 <= k -> p !! Z.to_nat k = Some b ->
  byteAt (i + k) = Some b.
Proof.
  intros ? (t & Ht)%StringRef.startsWith_spec ? Hk. rewrite byteAt_restAt, Ht by lia.
  by apply lookup_app_l_Some.
Qed.

Lemma starts_first i p b :
  0 <= i -> StringRef.startsWith (restAt i) p = true -> head p = Some b -> byteAt i = Some b.
Proof.
  intros Hi Hs Hp. replace i with (i + 0) by lia. apply (starts_byte i p); [done..|].
  by destruct p.
Qed.

Lemma encode_high c k b : isCodePoint c = true -> 128 <= c -> encode c !! k = Some b -> 128 <= b.
Proof.
  rewrite isCodePoint_range. intros Hc Hh Hk. unfold encode in Hk.
  repeat case_in Hk; zbool; try lia;
    do 4 (destruct k as [|k]; [cbn in Hk; try discriminate Hk; injection Hk as <-; Z.to_euclidean_division_equations; lia|]); discriminate Hk.
Qed.

Lemma decode_facts i n c :
  0 <= i -> wtf8ToCodePoint (restAt i) = (n, c) -> 0 < n ->
  i + n <= len /\ isCodePoint c = true /\ n <= 4 /\
  (c < 128 -> n = 1 /\ byteAt i = Some c) /\ (128 <= c -> segment (fun b => 128 <= b) i (i + n)).
Proof.
  intros Hi E Hn. unfold wtf8ToCodePoint, utf8ToCodePoint in E. simplify_eq.
  set (n := utf8ValidateChar (restAt i) true) in *.
  destruct (validate_cases (restAt i) true n (restAt_bytes i) eq_refl ltac:(lia))
    as (Hn4 & Hl & Hc & _ & He).
  assert (i + n <= len).
  { unfold RegexScan.restAt in Hl. rewrite length_drop in Hl. unfold zlen. lia. }
  split_and!; [done..|lia| |].
  - intros Hc'. apply isCodePoint_range in Hc as Hr. unfold encode in He.
    destruct (Z.ltb_spec (payload n (restAt i)) 128); [|lia].
    assert (n = 1) as Hn1.
    { apply (f_equal length) in He. rewrite length_take in He. cbn in He. lia. }
    split; [done|]. replace i with (i + 0) at 1 by lia. rewrite byteAt_restAt by lia.
    set (c := payload n (restAt i)) in *. clearbody c. rewrite Hn1 in He.
    change (Z.to_nat 1) with 1%nat in He. change (Z.to_nat 0) with 0%nat.
    destruct (restAt i) as [|b r]; [discriminate He|]. cbn in He |- *. by injection He as <-.
  - intros Hc' k b Hk Hb. replace k with (i + (k - i)) in Hb by lia.
    rewrite byteAt_restAt in Hb by lia.
    apply (encode_high (payload n (restAt i)) (Z.to_nat (k - i))); [done..|].
    rewrite He. rewrite lookup_take_lt by lia. done.
Qed.

Lemma plain_high b : 128 <= b -> plain b = true.
Proof. intros. unfold plain. by repeat (rewrite (proj2 (Z.eqb_neq _ _)) by lia). Qed.

Lemma segment_mono (P P' : Z -> Prop) i j :
  (forall b, P b -> P' b) -> segment P i j -> segment P' i j.
Proof. intros HP Hs k b ? ?. eapply HP, Hs; eauto. Qed.

Lemma segment_app P i j k : segment P i j -> segment P j k -> segment P i k.
Proof. intros H1 H2 x b ? ?. destruct (Z.lt_ge_cases x j); [eapply H1|eapply H2]; eauto; lia. Qed.

Lemma segment_nil P i : segment P i i.
Proof. intros k b ?. lia. Qed.

Lemma segment_one (P : Z -> Prop) i b : byteAt i = Some b -> P b -> segment P i (i + 1).
Proof. intros Hb HP k b' ? Hb'. replace k with i in Hb' by lia. congruence. Qed.

Lemma Quiet_high i j l : 0 <= i <= j -> j <= len -> segment (fun b => 128 <= b) i j -> Quiet i l j l.
Proof.
  intros ? ? Hs. apply Quiet_segment; [lia..|]. eapply segment_mono; [|exact Hs]. apply plain_high.
Qed.

(** *** Reading functions *)

Definition readsChar (s : State) (c : Z) (s' : State) : Prop :=
  exists i, s' = setIter i s /\ iter s < i <= len /\ isCodePoint c = true /\
    (c < 128 -> i = iter s + 1 /\ byteAt (iter s) = Some c) /\
    (128 <= c -> segment (fun b => 128 <= b) (iter s) i).

Lemma nextValidCodePoint_spec s b :
  atPos s -> byteAt (iter s) = Some b ->
  wp (nextValidCodePoint ref) (fun c s' => readsChar s c s' \/ (c = -1 /\ ErrAt s s')) s.
Proof.
  intros [Hi He] Hb. pose proof (byteAt_range _ _ _ Hb) as Hr. unfold nextValidCodePoint. wps.
  destruct (wtf8ToCodePoint (restAt (iter s))) as [n c] eqn:Hd.
  destruct (Z.ltb_spec 0 n).
  - destruct (decode_facts _ _ _ (proj1 Hi) Hd ltac:(lia)) as (Hl & Hc & _ & H1 & H2).
    wps. apply wp_advance; [lia|]. wps. left. exists (iter s + n). split_and!; try done; try lia.
    intros Hc'. destruct (H1 Hc') as [-> ?]. done.
  - wps. eapply wp_deref; [done|]. wps. apply wp_reportError; [done|]. wps. right. split; [done|].
    eexists (iter s), _. split; [by destruct s|]. apply tok_cur; lia.
Qed.

Definition hexRange (c : Z) (n : nat) (v : Z) : Prop := 0 <= c -> 0 <= v < (c + 1) * 16 ^ Z.of_nat n.

Lemma isHex_num ch : isHex ch = true -> 0 <= hexToNum ch < 16 /\ plain ch = true /\ ch < 128.
Proof.
  unfold isHex, hexToNum, plain. intros Hh. repeat case_on; zbool; try lia; split_and!; try lia.
  all: repeat (rewrite (proj2 (Z.eqb_neq _ _)) by lia); done.
Qed.

Lemma hexDigits_spec n : forall s c,
  0 <= iter s <= len ->
  wp (hexDigits ref n c) (fun r s' => exists i, s' = setIter i s /\
    iter s <= i <= iter s + Z.of_nat n /\ i <= len /\
    match r with
    | Some v => segment (fun b => isHex b = true) (iter s) i /\ hexRange c n v
    | None => True
    end) s.
Proof.
  induction n as [|n IH]; intros s c Hi; cbn [hexDigits].
  - wps. exists (iter s). split_and!; [by destruct s|lia..|apply segment_nil|]. intros ?.
    change (16 ^ Z.of_nat 0) with 1. lia.
  - wps. assert (0 < 16 ^ Z.of_nat n) by (apply Z.pow_pos_nonneg; lia).
    destruct (Z.eqb_spec (iter s) len).
    { wps. exists (iter s). split_and!; [by destruct s|lia..|apply segment_nil|]. intros ?.
      rewrite Nat2Z.inj_succ, Z.pow_succ_r by lia. nia. }
    destruct (byteAt_Some ref (iter s)) as [b Hb]; [lia|]. wps.
    apply (wp_deref _ b); [done|]. wps. apply wp_advance; [lia|].
    destruct (isHex b) eqn:Hh.
    + apply isHex_num in Hh as Hnum. eapply wp_mono; [apply IH; st; lia|]. st.
      intros r s' (i & -> & ? & ? & Hr). exists i. split_and!; [done|lia..|].
      destruct r as [v|]; [|done]. destruct Hr as [Hs Hv]. split.
      * eapply segment_app; [by eapply segment_one|done].
      * intros ?. unfold hexRange in Hv. specialize (Hv ltac:(lia)).
        rewrite Nat2Z.inj_succ, Z.pow_succ_r by lia. nia.
    + wps. exists (iter s + 1). split_and!; [done|lia..|done].
Qed.

Lemma setIter_setIter i j s : setIter i (setIter j s) = setIter i s.
Proof. done. Qed.

Lemma setIter_self s : setIter (iter s) s = s.
Proof. by destruct s. Qed.

(** Reporting an error for the text from [b] to the cursor. *)
Lemma report_from b msg s (Q : unit -> State -> Prop) i s0 :
  s = setIter i s0 -> error s0 = None -> 0 <= b <= i -> i <= len ->
  (forall s', ErrAt s0 s' -> Q tt s') ->
  wp (reportError {| pos := u32 b; size := u32 (i - b) |} msg) Q s.
Proof.
  intros -> He ? ? HQ. apply wp_reportError; [done|]. apply HQ.
  eexists i, _. split; [done|]. by apply tok_from.
Qed.

(** What an escape that fails leaves. *)
Definition escapeFails (ignoreError : bool) (s s' : State) : Prop :=
  if ignoreError then Moved s s' else ErrAt s s'.

Lemma Moved_intro i s : 0 <= i <= len -> Moved s (setIter i s).
Proof. intros. by exists i. Qed.
Lemma ErrAt_setIter i s s' : ErrAt (setIter i s) s' -> ErrAt s s'.
Proof. intros (j & e & -> & ?). by exists j, e. Qed.

Definition escapeText (i : Z) : Prop := byteAt i = Some (chr "\") /\ byteAt (i + 1) = Some (chr "u").

Lemma escape_quiet i j l :
  0 <= i -> escapeText i -> i + 2 <= j -> j <= len ->
  segment (fun b => plain b = true) (i + 2) j -> Quiet i l j l.
Proof.
  intros ? [Hb Hu] ? ? Hs. pose proof (byteAt_range _ _ _ Hu).
  eapply Quiet_trans; [apply Quiet_escape; [done|lia]|]. apply Quiet_segment; [lia..|done].
Qed.

Lemma starts_escape i : 0 <= i <= len -> StringRef.startsWith (restAt i) (lit "\u") = true ->
  escapeText i /\ i + 2 <= len.
Proof.
  intros Hi Hs. split; [split|exact (starts_len _ _ Hi Hs)].
  - replace i with (i + 0) by lia. by apply (starts_byte _ _ _ _ (proj1 Hi) Hs).
  - by apply (starts_byte _ _ _ _ (proj1 Hi) Hs).
Qed.

Lemma hex_segment_plain i j :
  segment (fun b => isHex b = true) i j -> segment (fun b => plain b = true) i j.
Proof. apply segment_mono. intros b Hb. by apply isHex_num in Hb as (_ & ? & _). Qed.

Lemma parseUnicodeEscapeBMP_spec ign s :
  atPos s ->
  wp (parseUnicodeEscapeBMP ref ign) (fun c s' =>
    (s' = setIter (iter s + 6) s /\ 0 <= c <= 0xFFFF /\ iter s + 6 <= len /\
     (forall l, Quiet (iter s) l (iter s + 6) l)) \/
    (c = -1 /\ escapeFails ign s s')) s.
Proof.
  intros [Hi He]. unfold parseUnicodeEscapeBMP. wps.
  match goal with |- context [if _ then ?m else _] => set (invalid := m) end.
  assert (forall i (Q : Z -> State -> Prop), iter s <= i <= len ->
    (forall s', escapeFails ign s s' -> Q (-1) s') -> wp invalid Q (setIter i s)) as Hinv.
  { intros i Q Hi' HQ. subst invalid. wps.
    assert (forall (Q' : unit -> State -> Prop),
      (forall j, iter s <= j <= len -> Q' tt (setIter j s)) ->
      wp (if StringRef.startsWith (restAt i) (lit "\") then advance ref 1 else mret tt) Q' (setIter i s)) as Hadv.
    { intros Q' HQ'. destruct (StringRef.startsWith _ _) eqn:Hs.
      - apply starts_len in Hs; [|lia]. change (zlen (lit "\")) with 1 in Hs.
        apply wp_advance; st; [lia|]. apply HQ'. lia.
      - wps. by apply HQ'. }
    apply Hadv. intros j Hj. wps. destruct ign; wps.
    - apply HQ, Moved_intro. lia.
    - eapply report_from; [done..|lia|lia|]. intros s' Hs'. wps. by apply HQ. }
  destruct (StringRef.startsWith _ _) eqn:Hs; cbn [negb].
  2: { specialize (Hinv (iter s)). rewrite setIter_self in Hinv. apply Hinv; [lia|]. eauto. }
  apply starts_escape in Hs as [Ht Hl]; [|lia]. wps.
  apply wp_advance; [lia|]. wps.
  eapply wp_mono; [apply hexDigits_spec; st; lia|]. st. intros r s' (i & -> & ? & ? & Hr).
  rewrite setIter_setIter. destruct r as [v|].
  - destruct Hr as [Hseg Hv]. wps. destruct (Z.eqb_spec (i - iter s) 6).
    + wps. left. replace (iter s + 6) with i by lia. specialize (Hv ltac:(lia)).
      change (16 ^ Z.of_nat 4) with 65536 in Hv. split_and!; [done|lia..|].
      * intros l. apply escape_quiet; [lia|done|lia..|]. by apply hex_segment_plain.
    + apply Hinv; [lia|]. eauto.
  - apply Hinv; [lia|]. eauto.
Qed.

Lemma bracedDigits_spec fuel : forall o c s,
  0 <= iter s <= len -> len - iter s < Z.of_nat fuel ->
  wp (bracedDigits ref fuel o c) (fun _ s' => exists i, s' = setIter i s /\ iter s <= i <= len /\
    segment (fun b => isHex b = true) (iter s) i) s.
Proof.
  induction fuel as [|fuel IH]; intros o c s Hi Hf; cbn [bracedDigits]; [lia|].
  wps. destruct (Z.eqb_spec (iter s) len).
  { wps. exists (iter s). rewrite setIter_self. split_and!; [done|lia..|apply segment_nil]. }
  destruct (byteAt_Some ref (iter s)) as [b Hb]; [lia|].
  apply wp_bind, (wp_deref _ b); [done|]. destruct (isHex b) eqn:Hh.
  2: { wps. exists (iter s). rewrite setIter_self. split_and!; [done|lia..|apply segment_nil]. }
  apply wp_bind, wp_advance; [lia|].
  assert (forall o' c', wp (bracedDigits ref fuel o' c') (fun _ s' => exists i, s' = setIter i s /\
    iter s <= i <= len /\ segment (fun b => isHex b = true) (iter s) i) (setIter (iter s + 1) s)) as Hrec.
  { intros o' c'. eapply wp_mono; [apply IH; st; lia|]. st. intros _ s' (i & -> & ? & ?).
    exists i. split_and!; [done|lia..|]. eapply segment_app; [by eapply segment_one|done]. }
  destruct o; [apply Hrec|]. destruct (smul_overflow 32 c 16) as [[] ?]; [apply Hrec|].
  destruct (sadd_overflow 32 _ _). apply Hrec.
Qed.

Lemma parseUnicodeEscape_spec ign force s :
  atPos s ->
  wp (parseUnicodeEscape ref flag ign force) (fun c s' =>
    (exists i, s' = setIter i s /\ iter s < i <= len /\ isCodePoint c = true /\
       (forall l, Quiet (iter s) l i l)) \/
    (c = -1 /\ escapeFails ign s s')) s.
Proof.
  intros [Hi He]. unfold parseUnicodeEscape. wps.
  destruct (_ && _) eqn:Hb.
  - zbool. match goal with H : StringRef.startsWith _ _ = true |- _ => rename H into Hs end.
    pose proof (starts_len _ _ Hi Hs) as Hl. change (zlen (lit "\u{")) with 3 in Hl.
    wps. apply wp_advance; [lia|]. wps. eapply wp_mono; [apply bracedDigits_spec; st; [lia|unfold zlen in *; lia]|].
    st. intros [o c] s' (i & -> & Hi' & Hseg). rewrite setIter_setIter. wps.
    assert (forall Q : bool -> State -> Prop,
      (forall b, (b = true -> byteAt i = Some (chr "}")) -> Q b (setIter i s)) ->
      wp (if i =? len then mret false else ch ← deref ref; mret (ch =? chr "}")) Q (setIter i s)) as Hcl.
    { intros Q HQ. destruct (Z.eqb_spec i len); [wps; by apply HQ|].
      destruct (byteAt_Some ref i) as [b Hb']; [lia|]. apply wp_bind, (wp_deref _ b); [done|].
      wps. apply HQ. intros E. apply Z.eqb_eq in E. by subst b. }
    apply Hcl. intros closed Hc.
    destruct (_ || negb (isCodePoint c)) eqn:Hbad.
    + assert (forall Q : unit -> State -> Prop, (forall j, iter s <= j <= len -> Q tt (setIter j s)) ->
        wp (if i =? len then mret tt else advance ref 1) Q (setIter i s)) as Hadv.
      { intros Q HQ. destruct (Z.eqb_spec i len); [wps; apply HQ; lia|].
        apply wp_advance; st; [lia|]. apply HQ. lia. }
      apply wp_bind, Hadv. intros j Hj. wps. destruct ign; wps.
      * right. split; [done|]. apply Moved_intro. lia.
      * eapply report_from; [done..|lia|lia|]. intros s' Hs'. wps. by right.
    + zbool. rewrite <- (Z.eqb_refl 0) in *. destruct closed; [|done].
      pose proof (Hc eq_refl) as Hcb. apply byteAt_range in Hcb as Hcr.
      wps. apply wp_advance; st; [lia|]. wps. left. exists (i + 1). split_and!; [done|lia..|done|].
      intros l.
      assert (escapeText (iter s)) as Ht.
      { apply starts_escape; [lia|]. apply StringRef.startsWith_spec in Hs as [t Et]. rewrite Et. done. }
      apply escape_quiet; [lia|done|lia..|].
      eapply segment_app; [apply (segment_one _ _ (chr "{")); [|done]|].
      * by apply (starts_byte _ _ 2 _ (proj1 Hi) Hs).
      * replace (iter s + 2 + 1) with (iter s + 3) by lia.
        eapply segment_app; [apply hex_segment_plain, Hseg|]. by eapply segment_one.
  - wps. eapply wp_mono; [by apply parseUnicodeEscapeBMP_spec|].
    intros c s' [(-> & Hc & Hl & Hq)|[-> Hf]].
    + destruct (Z.ltb_spec c 0); [lia|]. destruct (isHighSurrogate c).
      * wps. eapply wp_mono; [apply parseUnicodeEscapeBMP_spec; split; st; [lia|done]|].
        st. intros low s' Hlow. assert (0 <= iter s + 6 <= len) as Hi6 by lia.
        cbv zeta. destruct (isCodePoint (utf16ToCodePoint c low)) eqn:Hcp.
        -- destruct Hlow as [(-> & Hlow & Hl2 & Hq2)|[-> _]].
           ++ wps. left. exists (iter s + 6 + 6). split_and!; [done|lia..|done|].
              intros l. eapply Quiet_trans; [apply Hq|apply Hq2].
           ++ exfalso. revert Hcp. unfold utf16ToCodePoint. change (isLowSurrogate (-1)) with false.
              rewrite andb_false_r. done.
        -- assert (exists k, s' = setIter k s) as [k ->].
           { destruct Hlow as [(-> & _)|[_ (k & -> & _)]]; eauto. }
           apply wp_bind, wp_jump; [lia|]. wps. left. exists (iter s + 6).
           split_and!; [done|lia..| |done]. apply isCodePoint_range. lia.
      * wps. left. exists (iter s + 6). split_and!; [done|lia..| |done]. apply isCodePoint_range. lia.
    + cbn. wps. right. by split.
Qed.

Lemma skip_spec p s : 0 <= iter s <= len ->
  wp (skip ref p) (fun _ s' => exists i, s' = setIter i s /\ iter s <= i <= len /\
    segment (fun b => p b = true) (iter s) i /\
    (i = len \/ exists b, byteAt i = Some b /\ p b = false)) s.
Proof.
  intros Hi. unfold skip. assert (len - iter s < Z.of_nat (S (length ref))) as Hf by (unfold zlen in *; lia).
  revert s Hi Hf. generalize (S (length ref)) as fuel.
  induction fuel as [|fuel IH]; intros s Hi Hf; cbn [skipWhile]; [lia|].
  wps. destruct (Z.eqb_spec (iter s) len).
  { wps. exists (iter s). rewrite setIter_self. split_and!; [done|lia..|apply segment_nil|by left]. }
  destruct (byteAt_Some ref (iter s)) as [b Hb]; [lia|].
  apply wp_bind, (wp_deref _ b); [done|]. destruct (p b) eqn:Hp.
  2: { wps. exists (iter s). rewrite setIter_self.
       split_and!; [done|lia..|apply segment_nil|right; eauto]. }
  apply wp_bind, wp_advance; [lia|]. eapply wp_mono; [apply IH; st; lia|].
  st. intros _ s' (i & -> & ? & ? & ?). exists i. split_and!; [done|lia..| |done].
  eapply segment_app; [by eapply segment_one|done].
Qed.

Lemma slice_bytes i j k b : 0 <= i <= j -> j <= len ->
  StringRef.slice ref i j !! k = Some b -> byteAt (i + Z.of_nat k) = Some b /\ i + Z.of_nat k < j.
Proof.
  intros ? ? Hk. unfold StringRef.slice, StringRef.substr in Hk.
  apply lookup_take_Some in Hk as [Hk Hl]. rewrite lookup_drop in Hk.
  unfold RegexScan.byteAt. destruct (Z.ltb_spec (i + Z.of_nat k) 0); [lia|].
  split; [|lia]. rewrite <- Hk. f_equal. lia.
Qed.

Lemma slice_zlen i j : 0 <= i <= j -> j <= len -> zlen (StringRef.slice ref i j) = j - i.
Proof.
  intros. unfold StringRef.slice, StringRef.substr, zlen in *. rewrite length_take, length_drop. lia.
Qed.

Lemma slice_segment (P : Z -> Prop) i j : 0 <= i <= j -> j <= len ->
  Forall P (StringRef.slice ref i j) -> segment P i j.
Proof.
  intros ? ? HP k b ? Hb. rewrite Forall_lookup in HP. apply (HP (Z.to_nat (k - i))).
  unfold RegexScan.byteAt in Hb. case_in Hb; [done|].
  unfold StringRef.slice, StringRef.substr. rewrite lookup_take_lt by (unfold zlen in *; lia).
  rewrite lookup_drop, <- Hb. f_equal. lia.
Qed.

End leaf.
End RegexScan.
