(* ===== verification/RegexParserInv.v ===== *)
(** The well-formedness of what the parser builds, and the invariant of its state:
    the stack of frames, the numbering of groups and loops in the order they are met,
    and the agreement of the count of groups that was read ahead. *)
From stdpp Require Import sorting.
From Stdlib Require Import Ascii.
From S2P Require Import Prelude NumUtil Unicode StringRef RegexNode RegexSyntax RegexParser RegexScan.
Import NumUtil UnicodeUtil RegexNode RegexSyntax RegexParser RegexScan.

Module RegexParserInv.

(** Conjunction over a list. *)
Section All.
Context {A : Type} (P : A -> Prop).
Fixpoint All (l : list A) : Prop := match l with [] => True | x :: r => P x /\ All r end.
Lemma All_Forall l : All l <-> Forall P l.
Proof. induction l as [|x r IH]; cbn; [by rewrite Forall_nil|by rewrite Forall_cons, IH]. Qed.
Lemma All_app l k : All (l ++ k) <-> All l /\ All k.
Proof. by rewrite !All_Forall, Forall_app. Qed.
End All.

Lemma All_impl {A} (P Q : A -> Prop) l : (forall x, P x -> Q x) -> All P l -> All Q l.
Proof. intros. rewrite All_Forall in *. by eapply Forall_impl. Qed.

(** ** Groups and loops of a tree *)

(** The indices of the capture groups in the order their parentheses open. *)
Fixpoint groups (n : Node) : list Z :=
  match n with
  | RepeatNode _ _ p | LookAroundNode _ _ p => groups p
  | SeqNode _ l => concat (map groups l)
  | AltNode _ l => concat (map (fun e => match e with Some p => groups p | None => [] end) l)
  | GroupNode _ ty i _ _ p => (match ty with CAPTURE => [i] | _ => [] end) ++ groups p
  | _ => []
  end.

(** The loop indices in the order the quantifiers are met. *)
Fixpoint loops (n : Node) : list Z :=
  match n with
  | RepeatNode _ q p => loops p ++ [loopIndex q]
  | LookAroundNode _ _ p | GroupNode _ _ _ _ _ p => loops p
  | SeqNode _ l => concat (map loops l)
  | AltNode _ l => concat (map (fun e => match e with Some p => loops p | None => [] end) l)
  | _ => []
  end.

Definition indexRange (i : Z) : Prop := 0 < i <= CAPTURE_GROUP_INDEX_MAX.

(** ** Character classes *)

(** What a class ends with while its operands are collected. *)
Inductive Shape := START_SHAPE | AFTER_CHAR | AFTER_OPERAND | PENDING_OP.

#[export] Instance Shape_eq_dec : EqDecision Shape.
Proof. solve_decision. Defined.

Definition opOf (ty : ClassType) : PropertyType :=
  match ty with CLASS_UNION | CLASS_RANGE => RANGE | CLASS_INTERSECT => INTERSECT | CLASS_SUBTRACT => SUBTRACT end.

Definition afterOperand (n : Node) : Shape := if isChar n then AFTER_CHAR else AFTER_OPERAND.

Definition shapeStep (ty : ClassType) (st : option Shape) (n : Node) : option Shape :=
  match st with
  | None => None
  | Some st =>
      if isUnionOrRange ty then
        match st with
        | PENDING_OP => if isChar n then Some AFTER_OPERAND else None
        | _ =>
            if isCharClassOp n
            then if isProperty n RANGE && bool_decide (st = AFTER_CHAR) then Some PENDING_OP else None
            else Some (afterOperand n)
        end
      else
        match st with
        | START_SHAPE | PENDING_OP => if isCharClassOp n then None else Some AFTER_OPERAND
        | _ => if isProperty n (opOf ty) then Some PENDING_OP else None
        end
  end.

Definition shape (ty : ClassType) (l : list Node) : option Shape :=
  foldl (shapeStep ty) (Some START_SHAPE) l.

Lemma shape_snoc ty l n : shape ty (l ++ [n]) = shapeStep ty (shape ty l) n.
Proof. unfold shape. by rewrite foldl_app. Qed.

Section wf.
Context (ref : bytes) (B : Z -> Prop) (N : bytes -> Prop).
Abbreviation tokOk := (tokOk ref).

(** A character. *)
Definition wfChar (n : Node) : Prop :=
  match n with CharNode t c => tokOk t /\ isCodePoint c = true | _ => False end.

(** An alternative of [\q{...}]. *)
Definition wfString (e : option Node) : Prop :=
  match e with
  | Some (EmptyNode t) => tokOk t
  | Some (SeqNode t l) => tokOk t /\ (2 <= length l)%nat /\ All wfChar l
  | Some n => wfChar n
  | None => False
  end.

(** The operands of a class that is complete. *)
Definition closedClass (ty : ClassType) (l : list Node) : Prop :=
  exists st, shape ty l = Some st /\ st <> PENDING_OP /\ (isUnionOrRange ty = false -> st <> START_SHAPE).

(** An element of a class. *)
Fixpoint wfElem (n : Node) : Prop :=
  match n with
  | CharNode t c => tokOk t /\ isCodePoint c = true
  | PropertyNode t ty _ => tokOk t /\ ty <> GRAPHEME
  | CharClassNode t invert ty strings l =>
      tokOk t /\ closedClass ty l /\ classStrings ty l = Some strings /\
      invert && strings = false /\ All wfElem l
  | AltNode t l => tokOk t /\ l <> [] /\ All wfString l
  | _ => False
  end.

(** The bounds of a quantifier, and the groups of its body. *)
Record wfQuantifier (q : Quantifier) (gs : list Z) : Prop := {
  q_index : 0 <= loopIndex q < LOOP_INDEX_MAX;
  q_min : 0 <= qmin q <= QUANTIFIER_MAX;
  q_order : qmin q <= qmax q;
  q_max : qmax q <= QUANTIFIER_MAX \/ qmax q = UNLIMIT;
  q_first : firstGroupIndex q = default 0 (head gs);
  q_last : lastGroupIndex q = default 0 (last gs)
}.

Definition modifierRange (m : Z) : Prop := 0 <= m < 8.

Definition wfGroup (ty : GroupType) (i set unset : Z) : Prop :=
  modifierRange set /\ modifierRange unset /\
  match ty with
  | CAPTURE => indexRange i
  | NON_CAPTURE => i = 0
  | MODIFIER => i = 0 /\ Z.land set unset = 0
  end.

Fixpoint wfn (n : Node) : Prop :=
  match n with
  | EmptyNode t | AnyNode t | BoundaryNode t _ => tokOk t
  | CharNode t c => tokOk t /\ isCodePoint c = true
  | PropertyNode t ty _ => tokOk t /\ isOpType ty = false
  | CharClassNode _ _ _ _ _ => wfElem n
  | BackRefNode t name i => tokOk t /\ match name with [] => B i | _ => N name end
  | RepeatNode t q p => tokOk t /\ wfQuantifier q (groups p) /\ wfn p
  | SeqNode t l => tokOk t /\ (2 <= length l)%nat /\ All wfn l
  | AltNode t l => tokOk t /\ l <> [] /\ All (fun e => match e with Some p => wfn p | None => False end) l
  | LookAroundNode t _ p => tokOk t /\ wfn p
  | GroupNode t ty i set unset p => tokOk t /\ wfGroup ty i set unset /\ wfn p
  end.

Definition wfAlt (e : option Node) : Prop := match e with Some p => wfn p | None => False end.

(** The node of a frame: an alternation may end with an alternative not begun. *)
Definition wfOpen (o : option Node) : Prop :=
  match o with
  | None => True
  | Some (AltNode t l) => tokOk t /\ exists l0 e, l = l0 ++ [e] /\ All wfAlt l0 /\ (e = None \/ wfAlt e)
  | Some n => wfn n
  end.

Lemma wfn_token n : wfn n -> tokOk (getToken n).
Proof. destruct n; cbn; tauto. Qed.
Lemma wfOpen_token n : wfOpen (Some n) -> tokOk (getToken n).
Proof. destruct n; cbn; tauto. Qed.
End wf.

Lemma wfElem_token ref n : wfElem ref n -> tokOk ref (getToken n).
Proof. destruct n; cbn; tauto. Qed.

Lemma wfn_mono ref (B B' : Z -> Prop) (N N' : bytes -> Prop) n :
  (forall i, B i -> B' i) -> (forall x, N x -> N' x) -> wfn ref B N n -> wfn ref B' N' n.
Proof.
  intros HB HN. revert n.
  refine (Node_nested_ind _ (fun e => wfAlt ref B N e -> wfAlt ref B' N' e) _ _ _ _ _ _ _ _ _ _ _ _ _ _);
    cbn [wfn]; try tauto.
  - intros t name i [? H]. split; [done|]. destruct name; auto.
  - intros t l Hl (? & ? & H). split_and!; [done..|]. rewrite All_Forall in *.
    rewrite Forall_forall in *. eauto.
  - intros t l Hl (? & ? & H). split_and!; [done..|].
    change (All (wfAlt ref B N) l) in H. change (All (wfAlt ref B' N') l).
    rewrite All_Forall in *. rewrite Forall_forall in *. eauto.
Qed.

Lemma wfOpen_mono ref (B B' : Z -> Prop) (N N' : bytes -> Prop) o :
  (forall i, B i -> B' i) -> (forall x, N x -> N' x) -> wfOpen ref B N o -> wfOpen ref B' N' o.
Proof.
  intros HB HN. destruct o as [n|]; [|done].
  assert (wfn ref B N n -> wfn ref B' N' n) as Hm by (by apply wfn_mono).
  destruct n; try exact Hm. cbn. intros (? & l0 & e & -> & ? & He). split; [done|].
  exists l0, e. split_and!; [done| |].
  - eapply All_impl; [|done]. intros [?|]; [by apply wfn_mono|done].
  - destruct He as [He|He]; [by left|right]. destruct e; [by apply (wfn_mono _ B _ N)|done].
Qed.

(** Elements of a class hold no group and no loop. *)
Lemma wfChar_quiet ref n : wfChar ref n -> groups n = [] /\ loops n = [].
Proof. by destruct n. Qed.

(** ** [countGroups] *)

Definition countWith (c : Z * Z) (gs : list Z) : Z * Z :=
  match gs with
  | [] => c
  | g :: _ => (if fst c =? 0 then g else fst c, default 0 (last gs))
  end.

Lemma countWith_app c g1 g2 :
  Forall indexRange (g1 ++ g2) -> countWith (countWith c g1) g2 = countWith c (g1 ++ g2).
Proof.
  intros Hr. destruct g1 as [|a r1]; [done|]. destruct g2 as [|b r2]; [by rewrite app_nil_r|].
  cbn [countWith fst app]. inversion_clear Hr as [|? ? Ha _]. unfold indexRange in Ha.
  f_equal.
  - destruct (Z.eqb_spec (fst c) 0); [|by rewrite (proj2 (Z.eqb_neq _ _)) by done].
    by rewrite (proj2 (Z.eqb_neq a 0)) by lia.
  - change (a :: r1 ++ b :: r2) with ((a :: r1) ++ b :: r2). rewrite last_app_cons. done.
Qed.

(** Groups in order, all past the interval [c]. *)
Definition ordered (c : Z * Z) (gs : list Z) : Prop :=
  Forall indexRange gs /\ Forall (fun g => snd c < g) gs /\ StronglySorted Z.lt gs.

Lemma ordered_app c g1 g2 : ordered c (g1 ++ g2) -> ordered c g1 /\ ordered (countWith c g1) g2.
Proof.
  intros (Hr & Hc & Hs). apply Forall_app in Hr as [Hr1 Hr2]. apply Forall_app in Hc as [Hc1 Hc2].
  apply StronglySorted_app in Hs as (H12 & H1 & H2). split; [done|]. split; [done|]. split; [|done].
  destruct g1 as [|a r1]; [done|]. cbn [countWith snd]. apply Forall_forall. intros y Hy. apply H12; [|done].
  apply last_Some_elem_of. by destruct (last (a :: r1)) eqn:E; [|by apply last_None in E].
Qed.

Lemma u16_index i : indexRange i -> u16 i = i.
Proof.
  intros. apply wrap_small. unfold indexRange, CAPTURE_GROUP_INDEX_MAX, UINT16_MAX, in_unsigned in *.
  change (2 ^ 16) with 65536. lia.
Qed.

Lemma countNext_spec c gs : gs <> [] -> ordered c gs ->
  countNext c (default 0 (head gs)) (default 0 (last gs)) = Some (countWith c gs).
Proof.
  intros Hne (Hr & Hc & _). destruct gs as [|g r]; [done|]. rewrite Forall_forall in Hr, Hc.
  destruct (last (g :: r)) as [l|] eqn:El; [|by apply last_None in El].
  pose proof (last_Some_elem_of _ _ El) as Hl. unfold countNext. cbn [head default from_option id].
  pose proof (Hr g ltac:(set_solver)) as Hg. pose proof (Hr l Hl) as Hll. pose proof (Hc l Hl) as Hcl.
  cbn [countWith]. rewrite El. cbn [default from_option id]. rewrite !u16_index by done.
  unfold indexRange in Hg. rewrite (proj2 (Z.eqb_neq g 0)) by lia.
  by rewrite (proj2 (Z.ltb_lt _ _) Hcl).
Qed.

Lemma countGroupsImpl_spec ref B N n :
  wfn ref B N n -> forall c, ordered c (groups n) -> countGroupsImpl n c = Some (countWith c (groups n)).
Proof.
  revert n.
  refine (Node_nested_ind _ (fun e => match e with
     | Some p => wfn ref B N p -> forall c, ordered c (groups p) ->
                 countGroupsImpl p c = Some (countWith c (groups p))
     | None => True end) _ _ _ _ _ _ _ _ _ _ _ _ _ _); try done.
  - intros t q p _ (? & Hq & _) c. cbn [groups countGroupsImpl]. intros Ho.
    destruct Hq as [_ _ _ _ -> ->]. destruct (groups p) as [|g r] eqn:E; [done|]. rewrite <- E in *.
    pose proof (countNext_spec c (groups p) ltac:(by rewrite E) Ho) as <-.
    destruct Ho as (Hr & _). rewrite Forall_forall in Hr.
    assert (default 0 (head (groups p)) =? 0 = false) as ->.
    { rewrite E. cbn. pose proof (Hr g ltac:(rewrite E; set_solver)). unfold indexRange in *. lia. }
    destruct (last (groups p)) as [l|] eqn:El; [|apply last_None in El; congruence].
    pose proof (Hr l (last_Some_elem_of _ _ El)). cbn. unfold indexRange in *.
    by rewrite (proj2 (Z.eqb_neq l 0)) by lia.
  - intros t l Hl (_ & _ & Hw). cbn [groups countGroupsImpl]. rewrite All_Forall in Hw.
    induction l as [|x r IH]; [done|]. cbn [map concat countList]. intros c Hr.
    inversion_clear Hl as [|? ? Hx Hl']. inversion_clear Hw as [|? ? Hwx Hw'].
    pose proof Hr as (Hrange & _). apply ordered_app in Hr as [Hr1 Hr2].
    rewrite Hx by done. cbn [mbind option_bind]. rewrite IH by done. by rewrite countWith_app.
  - intros t l Hl (_ & _ & Hw). cbn [groups countGroupsImpl]. rewrite All_Forall in Hw.
    induction l as [|x r IH]; [done|]. cbn [map concat]. intros c Hr.
    inversion_clear Hl as [|? ? Hx Hl']. inversion_clear Hw as [|? ? Hwx Hw'].
    pose proof Hr as (Hrange & _). apply ordered_app in Hr as [Hr1 Hr2].
    destruct x as [p|]; [|done]. cbn [countAlts].
    rewrite Hx by done. cbn [mbind option_bind]. rewrite IH by done. by rewrite countWith_app.
  - intros t ty p Hp (_ & Hw) c Hr. by apply Hp.
  - intros t ty i s u p Hp (_ & Hg & Hw) c. cbn [groups countGroupsImpl].
    destruct ty; cbn [app mbind option_bind]; try by apply Hp.
    change (i :: groups p) with ([i] ++ groups p). intros Hr. pose proof Hr as (Hrange & _).
    apply ordered_app in Hr as [Hr1 Hr2]. pose proof (countNext_spec c [i] ltac:(done) Hr1) as E.
    cbn [head last default from_option id] in E. rewrite E. cbn [mbind option_bind].
    rewrite Hp by done. by rewrite countWith_app.
Qed.

Lemma countGroups_spec ref B N n :
  wfn ref B N n -> Forall indexRange (groups n) -> StronglySorted Z.lt (groups n) ->
  countGroups n = Some (default 0 (head (groups n)), default 0 (last (groups n))).
Proof.
  intros Hw Hr Hs. unfold countGroups. rewrite (countGroupsImpl_spec _ _ _ _ Hw).
  - by destruct (groups n).
  - split; [done|]. split; [|done]. eapply Forall_impl; [exact Hr|]. unfold indexRange. cbn. lia.
Qed.

(** ** The invariant *)

(** The frames from the last: the groups and loops they hold, in order. *)
Definition nodeList {A} (f : Node -> list A) (o : option Node) : list A :=
  match o with Some n => f n | None => [] end.

Definition frameGroups (f : Frame) : list Z :=
  (match type f with FRAME_GROUP CAPTURE => [groupIndex f] | _ => [] end) ++ nodeList groups (node f).

Fixpoint stackGroups (fs : list Frame) : list Z :=
  match fs with [] => [] | f :: r => stackGroups r ++ frameGroups f end.

Fixpoint stackLoops (fs : list Frame) : list Z :=
  match fs with [] => [] | f :: r => stackLoops r ++ nodeList loops (node f) end.

Fixpoint stackDirections (fs : list Frame) : list bool :=
  match fs with
  | [] => [true]
  | f :: r =>
      match type f with
      | FRAME_LOOK_AROUND t => isLookAhead t :: stackDirections r
      | _ => stackDirections r
      end
  end.

(** The indices 1, ..., count and 0, ..., count - 1. *)
Definition upto (first count : Z) : list Z := map (fun k => first + Z.of_nat k) (seq 0 (Z.to_nat count)).

Lemma upto_snoc first count : 0 <= count -> upto first (count + 1) = upto first count ++ [first + count].
Proof.
  intros. unfold upto. replace (Z.to_nat (count + 1)) with (S (Z.to_nat count)) by lia.
  rewrite seq_S, map_app. cbn. do 3 f_equal. lia.
Qed.

Lemma upto_range first count : Forall (fun i => first <= i < first + count) (upto first count).
Proof. apply Forall_forall. intros x (k & <- & Hk)%list_elem_of_In%in_map_iff. apply in_seq in Hk. lia. Qed.

(** The indices of each name. *)
Definition namesOk (gm : gmap bytes (list Z)) : Prop := map_Forall (fun _ l => l <> []) gm.

(** The indices a numeric reference may have, and the names of the named ones. *)
Definition refIndex (s : State) (i : Z) : Prop :=
  captureGroupResolved s = true /\ 0 < i <= prefetchedCaptureGroupCount s.
Definition refName (s : State) (name : bytes) : Prop := name ∈ map snd (namedRefNodes s).

Lemma upto_sorted first count : StronglySorted Z.lt (upto first count).
Proof.
  unfold upto. induction (Z.to_nat count) as [|n IH]; [constructor|].
  rewrite seq_S, map_app. apply StronglySorted_app. split; [|split; [exact IH|repeat constructor]].
  intros x y (i & <- & Hi)%list_elem_of_In%in_map_iff (j & <- & Hj)%list_elem_of_In%in_map_iff.
  apply in_seq in Hi. destruct Hj as [<-|[]]. lia.
Qed.

Section inv.
Context `{Ucp} (ref : bytes) (flag : Flag) (extension : bool).
Context (Hbytes : Forall is_byte ref) (Hlen : zlen ref <= UINT32_MAX).
Abbreviation byteAt := (byteAt ref).
Abbreviation restAt := (restAt ref).
Abbreviation tokOk := (tokOk ref).
Abbreviation Quiet := (Quiet ref flag).
Abbreviation segment := (segment ref).
Abbreviation len := (zlen ref).
Abbreviation wfAt s := (wfn ref (refIndex s) (refName s)).
Abbreviation wfOpenAt s := (wfOpen ref (refIndex s) (refName s)).

Definition groupFrameOk (f : Frame) : Prop :=
  tokOk (start f) /\
  match type f with
  | FRAME_NONE => False
  | FRAME_GROUP ty => wfGroup ty (groupIndex f) (setModifiers f) (unsetModifiers f)
  | FRAME_LOOK_AROUND _ => True
  end.

(** A class that is still open: what it holds, and what it ends with. *)
Definition classFrame (f : Frame) (ty : ClassType) (l : list Node) (st : Shape) : Prop :=
  type f = FRAME_NONE /\
  exists t invert, node f = Some (CharClassNode t invert ty false l) /\ tokOk t /\
    All (wfElem ref) l /\ shape ty l = Some st.

Fixpoint groupStack (P : option Node -> Prop) (fs : list Frame) : Prop :=
  match fs with
  | [] => False
  | f :: r =>
      P (node f) /\
      match r with [] => type f = FRAME_NONE | _ => groupFrameOk f /\ groupStack P r end
  end.

(** [k] classes are open above the groups. *)
Fixpoint stackOk (P : option Node -> Prop) (k : nat) (fs : list Frame) : Prop :=
  match k with
  | O => groupStack P fs
  | S k' => match fs with
            | f :: r => (exists ty l st, classFrame f ty l st) /\ stackOk P k' r
            | [] => False
            end
  end.

(** [pend] are the nodes that are built and not yet in a frame. *)
Record Inv (k : nat) (pend : list Node) (s : State) : Prop := {
  inv_iter : 0 <= iter s <= len;
  inv_error : error s = None;
  inv_live : captureGroupResolved s = true -> exists named,
    scans ref flag (iter s) (Z.of_nat k) (captureGroupCount_ s) named
      (prefetchedCaptureGroupCount s, prefetchedNamedCaptureGroupCount s);
  inv_count : 0 <= captureGroupCount_ s <= CAPTURE_GROUP_INDEX_MAX;
  inv_loopCount : 0 <= loopCount_ s <= LOOP_INDEX_MAX;
  inv_depth : zlen (frames s) <= STACK_DEPTH_LIMIT;
  inv_stack : stackOk (wfOpenAt s) k (frames s);
  inv_dirs : directions s = stackDirections (frames s);
  inv_names : namesOk (namedCaptureGroups_ s);
  inv_named : map_Forall (fun _ l => Forall (fun i => 0 < i <= captureGroupCount_ s) l) (namedCaptureGroups_ s);
  inv_size : Z.of_nat (base.size (namedCaptureGroups_ s)) <= captureGroupCount_ s;
  inv_refs : Forall (fun e => tokOk (fst e)) (namedRefNodes s);
  inv_pend : Forall (wfAt s) pend;
  inv_groups : stackGroups (frames s) ++ concat (map groups pend) = upto 1 (captureGroupCount_ s);
  inv_loops : stackLoops (frames s) ++ concat (map loops pend) = upto 0 (loopCount_ s)
}.

(** A pattern with an error. *)
Definition Failed (s : State) : Prop :=
  (exists e, error s = Some e /\ tokOk (errToken e)) /\ namesOk (namedCaptureGroups_ s).

Lemma Inv_at k pend s : Inv k pend s -> atPos ref s.
Proof. intros Hi. split; [apply (inv_iter _ _ _ Hi)|apply (inv_error _ _ _ Hi)]. Qed.

Lemma Inv_err k pend s s' : Inv k pend s -> ErrAt ref s s' -> Failed s'.
Proof.
  intros Hi (i & e & -> & He). split; [|apply (inv_names _ _ _ Hi)]. by exists e.
Qed.

(** Moving the cursor over a part of the pattern that opens no group. *)
Lemma Inv_move k pend s i :
  Inv k pend s -> 0 <= i <= len -> Quiet (iter s) (Z.of_nat k) i (Z.of_nat k) -> Inv k pend (setIter i s).
Proof.
  intros [] Hi Hq. constructor; st; try done. intros Hr.
  destruct (inv_live0 Hr) as [named Hs]. exists named. by apply Hq.
Qed.

Lemma Inv_push k pend s n :
  Inv k pend s -> wfAt s n -> groups n = [] -> loops n = [] -> Inv k (pend ++ [n]) s.
Proof.
  intros [] Hn Hg Hl. constructor; try done.
  - apply Forall_app. split; [done|by constructor].
  - rewrite map_app, concat_app. cbn. by rewrite Hg, !app_nil_r.
  - rewrite map_app, concat_app. cbn. by rewrite Hl, !app_nil_r.
Qed.

Lemma indexes_in_range k pend s :
  Inv k pend s -> Forall indexRange (stackGroups (frames s) ++ concat (map groups pend)).
Proof.
  intros Hi. rewrite (inv_groups _ _ _ Hi). pose proof (inv_count _ _ _ Hi) as Hc.
  eapply Forall_impl; [apply upto_range|]. intros i. unfold indexRange. cbn. lia.
Qed.

Lemma indexes_sorted k pend s :
  Inv k pend s -> StronglySorted Z.lt (stackGroups (frames s) ++ concat (map groups pend)).
Proof. intros Hi. rewrite (inv_groups _ _ _ Hi). apply upto_sorted. Qed.

(** *** The groups read ahead *)

Lemma scanGroups_total fuel : forall i level c n,
  0 <= i -> (Z.to_nat (len - i) < fuel)%nat -> exists r, scanGroups ref flag fuel i level c n = Some r.
Proof.
  induction fuel as [|fuel IH]; [lia|]. intros i level c n Hi Hf. cbn [scanGroups].
  destruct (ref !! Z.to_nat i) as [b|] eqn:Hb; [|eauto].
  apply lookup_lt_Some in Hb. assert (i < len) by (unfold zlen; lia).
  repeat case_on; apply IH; unfold zlen in *; lia.
Qed.

Lemma stackOk_impl (P P' : option Node -> Prop) k : forall fs,
  (forall o, P o -> P' o) -> stackOk P k fs -> stackOk P' k fs.
Proof.
  induction k as [|k IH]; cbn [stackOk].
  - induction fs as [|f r IHf]; [done|]. cbn [groupStack]. intros HP [Hf Hr].
    split; [by apply HP|]. destruct r; [done|]. destruct Hr. split; [done|]. by apply IHf.
  - intros [|f r] HP; [done|]. intros [? ?]. split; [done|]. by apply IH.
Qed.

(** A state in which the references of the nodes stay valid. *)
Definition refsGrow (s s' : State) : Prop :=
  (forall i, refIndex s i -> refIndex s' i) /\ (forall name, refName s name -> refName s' name).

Lemma wfAt_grow s s' n : refsGrow s s' -> wfAt s n -> wfAt s' n.
Proof. intros [? ?]. by apply wfn_mono. Qed.

Lemma Inv_resolve pend s :
  Inv 0 pend s ->
  wp (resolveCaptureGroups ref flag) (fun _ s' =>
    Inv 0 pend s' /\ refsGrow s s' /\ captureGroupResolved s' = true /\
    frames s' = frames s /\ directions s' = directions s /\ iter s' = iter s /\
    namedRefNodes s' = namedRefNodes s) s.
Proof.
  intros Hi. unfold resolveCaptureGroups. wps. destruct (captureGroupResolved s) eqn:Hr.
  { wps. split_and!; [done| |done..]. by split. }
  wps. destruct Hi.
  destruct (scanGroups_total (S (length ref)) (iter s) 0 (captureGroupCount_ s)
    (Z.of_nat (base.size (namedCaptureGroups_ s)))) as [[count named] Hs];
    [lia|unfold zlen in *; lia|].
  eapply wp_expect; [exact Hs|]. wps.
  assert (refsGrow s (setResolved count named s)) as Hg.
  { split; [|done]. intros i [Hc _]. congruence. }
  split_and!; [|done..]. constructor; st; try done.
  - intros _. eexists _, _. exact Hs.
  - eapply stackOk_impl; [|done]. intros o. destruct Hg. by apply wfOpen_mono.
  - eapply Forall_impl; [done|]. intros n. by apply wfAt_grow.
Qed.

(** A named reference is remembered for the check at the end. *)
Lemma Inv_addNamedRef k pend s t name :
  Inv k pend s -> tokOk t ->
  Inv k pend (addNamedRef t name s) /\ refsGrow s (addNamedRef t name s) /\
  refName (addNamedRef t name s) name.
Proof.
  intros [] Ht. assert (refsGrow s (addNamedRef t name s)) as Hg.
  { split; [done|]. intros x Hx. unfold refName in *. cbn. rewrite map_app. set_solver. }
  split_and!; [|done|].
  - constructor; st; try done.
    + eapply stackOk_impl; [|done]. intros o. destruct Hg. by apply wfOpen_mono.
    + apply Forall_app. split; [done|by constructor].
    + eapply Forall_impl; [done|]. intros n. by apply wfAt_grow.
  - unfold refName. cbn. rewrite map_app. set_solver.
Qed.
End inv.

End RegexParserInv.
