(* ===== verification/RegexEscape.v ===== *)
(** The escapes of the parser: every one consumes its text, opens no group for the
    scan, and yields a well-formed node, or reports an error that lies in the
    pattern. *)
From Stdlib Require Import Ascii.
From S2P Require Import Prelude NumUtil Unicode StringRef RegexNode RegexSyntax RegexParser RegexScan RegexParserInv.
Import NumUtil UnicodeUtil RegexNode RegexSyntax RegexParser RegexScan RegexParserInv.

Module RegexEscape.

(** The names of Unicode properties hold none of the characters that the scan for
    groups looks at: they are made of letters, digits and underscores. *)
Class UcpLaws `{Ucp} : Prop := {
  property_plain : forall l r v, parseProperty l r = inr v ->
    Forall (fun b => plain b = true) l /\ Forall (fun b => plain b = true) r;
  emoji_plain : forall l v, parseEmojiProperty l = Some v -> Forall (fun b => plain b = true) l
}.

Section escape.
Context `{UcpLaws} (ref : bytes) (flag : Flag) (extension : bool).
Context (Hbytes : Forall is_byte ref) (Hlen : zlen ref <= UINT32_MAX).
Abbreviation byteAt := (byteAt ref).
Abbreviation restAt := (restAt ref).
Abbreviation tokOk := (tokOk ref).
Abbreviation Quiet := (Quiet ref flag).
Abbreviation segment := (segment ref).
Abbreviation len := (zlen ref).
Abbreviation Inv := (Inv ref flag).
Abbreviation ErrAt := (ErrAt ref).
Abbreviation Failed := (Failed ref).
Abbreviation wfAt s := (wfn ref (refIndex s) (refName s)).
Abbreviation plainSegment := (segment (fun b => plain b = true)).

(** The nodes of an escape that is no reference. *)
Definition escapeNode (op : EscapeParseOp) (n : Node) : Prop :=
  match n with
  | CharNode t c => tokOk t /\ isCodePoint c = true
  | PropertyNode t ty _ =>
      tokOk t /\ isOpType ty = false /\ op <> IN_CLASS_STRING /\ (op <> DEFAULT -> ty <> GRAPHEME)
  | BoundaryNode t _ => tokOk t /\ op = DEFAULT
  | _ => False
  end.

(** The token of a node starts at the cursor of a state. *)
Definition startsAt (s : State) (n : Node) : Prop := pos (getToken n) = iter s.

Definition leafOut (op : EscapeParseOp) (s : State) (o : option Node) (s' : State) : Prop :=
  match o with
  | Some n => exists i, s' = setIter i s /\ iter s < i <= len /\
                (forall l, Quiet (iter s) l i l) /\ startsAt s n /\ escapeNode op n
  | None => ErrAt s s'
  end.

Lemma start_u32 b : 0 <= b <= len -> u32 b = b.
Proof. apply (u32_len ref Hlen). Qed.

(** *** The ends of an escape that starts at [b], with the cursor at [i] *)

Lemma leaf_char op b i s c s0 :
  s = setIter i s0 -> b = iter s0 -> 0 <= b < i -> i <= len -> (forall l, Quiet b l i l) ->
  isCodePoint c = true -> wp (escapedChar b c) (leafOut op s0) s.
Proof.
  intros -> -> ? ? Hq Hc. unfold escapedChar. apply wp_bind, wp_assert; [done|]. wps.
  exists i. split_and!; [done|lia..|done|by apply start_u32; lia|]. split; [apply tok_from; lia|done].
Qed.

Lemma leaf_error b msg i s s0 :
  s = setIter i s0 -> error s0 = None -> 0 <= b <= i -> i <= len ->
  wp (reportError {| pos := u32 b; size := u32 (i - b) |} msg) (fun _ => ErrAt s0) s.
Proof. intros -> ? ? ?. eapply report_from; [done..|lia|lia|]. done. Qed.

Lemma leaf_invalid op b i s s0 :
  s = setIter i s0 -> error s0 = None -> 0 <= b <= i -> i <= len ->
  wp (invalidEscape ref b) (leafOut op s0) s.
Proof. intros -> ? ? ?. unfold invalidEscape. wps. by eapply leaf_error. Qed.

(** The escape of a single character after the backslash. *)
Lemma escape2_quiet i : 0 <= i -> byteAt i = Some (chr "\") -> i + 1 < len -> forall l, Quiet i l (i + 2) l.
Proof. intros ? Hb ? l. by apply Quiet_escape. Qed.

Lemma escape_plain i j :
  0 <= i -> byteAt i = Some (chr "\") -> i + 2 <= j -> j <= len -> plainSegment (i + 2) j ->
  forall l, Quiet i l j l.
Proof.
  intros ? Hb ? ? Hs l. eapply Quiet_trans; [apply Quiet_escape; [done|lia]|].
  apply Quiet_segment; [lia..|done].
Qed.

Lemma invalidProperty_spec op i s :
  error s = None -> 0 <= iter s <= i -> i <= len ->
  wp (invalidProperty ref (iter s)) (leafOut op s) (setIter i s).
Proof. intros. unfold invalidProperty. wps. by eapply leaf_error. Qed.

Lemma propertyNode_spec op left right invert j s :
  error s = None -> 0 <= iter s -> iter s + 2 < j <= len -> op <> IN_CLASS_STRING ->
  byteAt (iter s) = Some (chr "\") ->
  (forall v, parseProperty left right = inr v -> plainSegment (iter s + 2) j) ->
  wp (propertyNode (iter s) left right invert) (leafOut op s) (setIter j s).
Proof.
  intros He Hi Hj Hop Hb Hp. unfold propertyNode. wps.
  destruct (parseProperty left right) as [err|[nm v]] eqn:E; wps.
  - eapply leaf_error; [done..|lia|lia].
  - exists j. split_and!; [done|lia..| | |].
    + apply escape_plain; [lia|done|lia..|by eapply Hp].
    + apply start_u32. lia.
    + split_and!; [apply tok_from; lia|by destruct invert|done|by destruct invert].
Qed.

Lemma parseUnicodePropertyEscape_spec op s p :
  atPos ref s -> byteAt (iter s) = Some (chr "\") -> byteAt (iter s + 1) = Some p ->
  (p =? chr "p") || (p =? chr "P") = true -> op <> IN_CLASS_STRING ->
  wp (parseUnicodePropertyEscape ref flag) (leafOut op s) s.
Proof.
  intros [Hi He] Hb Hp Hpp Hop. unfold parseUnicodePropertyEscape. apply byteAt_range in Hp as Hr.
  wps. apply (wp_deref _ (chr "\")); [done|]. apply wp_bind, wp_assert; [done|].
  apply wp_bind, wp_advance; [lia|]. apply wp_bind, (wp_deref _ p); [done|].
  apply wp_bind, wp_assert; [done|]. apply wp_bind, wp_advance; st; [lia|]. wps.
  rewrite setIter_setIter. replace (iter s + 1 + 1) with (iter s + 2) by lia.
  destruct (StringRef.startsWith _ _) eqn:Ho; [|apply invalidProperty_spec; [done|lia..]].
  apply starts_len in Ho as Hol; [|lia]. change (zlen (lit "{")) with 1 in Hol.
  assert (byteAt (iter s + 2) = Some (chr "{")) as Hob.
  { eapply starts_first; [|exact Ho|done]. lia. }
  apply wp_bind, wp_advance; st; [lia|]. rewrite setIter_setIter.
  replace (iter s + 2 + 1) with (iter s + 3) by lia. wps.
  eapply wp_mono; [apply skip_spec; st; lia|]. st. intros _ s' (i & -> & Hi' & Hseg & Hend).
  rewrite setIter_setIter. wps.
  destruct (Z.eqb_spec i len) as [->|Hne]; [apply invalidProperty_spec; [done|lia..]|].
  destruct Hend as [?|(b & Hbi & Hpb)]; [done|]. apply byteAt_range in Hbi as Hir.
  apply wp_bind, (wp_deref _ b); [done|].
  assert (forall j, i < j <= len -> plainSegment (i + 1) j -> plain b = true ->
    Forall (fun b => plain b = true) (StringRef.slice ref (iter s + 3) i) ->
    plainSegment (iter s + 2) j) as Hplain.
  { intros j ? Hj Hb' Hl. eapply segment_app; [by apply (segment_one _ _ _ (chr "{"))|].
    replace (iter s + 2 + 1) with (iter s + 3) by lia.
    apply (segment_app _ _ _ i); [apply slice_segment; [lia..|exact Hl]|].
    eapply segment_app; [by eapply segment_one|done]. }
  destruct (Z.eqb_spec b (chr "}")) as [->|Hbne].
  - apply wp_bind, wp_advance; st; [lia|]. rewrite setIter_setIter.
    destruct (if _ && _ then _ else _) as [v|] eqn:E.
    + wps. exists (i + 1). split_and!; [done|lia..| | |].
      * apply escape_plain; [lia|done|lia..|]. apply Hplain; [lia|apply segment_nil|done|].
        case_in E; [|done]. by eapply emoji_plain.
      * apply start_u32. lia.
      * split_and!; [apply tok_from; lia|done..].
    + apply propertyNode_spec; [done|lia..|done|done|]. intros v E'.
      apply Hplain; [lia|apply segment_nil|done|]. by apply property_plain in E' as [_ ?].
  - assert (b = chr "=") as ->.
    { by apply negb_false_iff, Z.eqb_eq in Hpb. }
    apply wp_bind, wp_advance; st; [lia|]. rewrite setIter_setIter. wps.
    eapply wp_mono; [apply skip_spec; st; lia|]. st. intros _ s' (j & -> & Hj & _ & Hend').
    rewrite setIter_setIter. wps.
    destruct (Z.eqb_spec j len) as [->|Hjne]; cbn [orb]; [apply invalidProperty_spec; [done|lia..]|].
    destruct (Z.eqb_spec (zlen (StringRef.slice ref (iter s + 3) i)) 0);
      [apply invalidProperty_spec; [done|lia..]|].
    destruct Hend' as [?|(b' & Hbj & Hpb')]; [done|]. apply negb_false_iff, Z.eqb_eq in Hpb' as ->.
    wps. apply wp_advance; st; [lia|]. rewrite setIter_setIter.
    apply propertyNode_spec; [done|lia..|done|done|]. intros v E'.
    apply property_plain in E' as [Hl Hr']. apply Hplain; [lia| |done|done].
    apply (segment_app _ _ _ j); [apply slice_segment; [lia..|exact Hr']|]. by apply (segment_one _ _ _ (chr "}")).
Qed.

(** ** Escapes that may read the groups ahead *)

(** What an escape leaves, with the invariant. *)
Definition escOut (op : EscapeParseOp) (k : nat) (pend : list Node) (s : State) (o : option Node)
    (s' : State) : Prop :=
  match o with
  | Some n => Inv k pend s' /\ iter s < iter s' /\ frames s' = frames s /\
                wfAt s' n /\ startsAt s n /\ groups n = [] /\ loops n = [] /\ (op <> DEFAULT -> escapeNode op n)
  | None => Failed s'
  end.

Lemma escapeNode_wf op n B N :
  escapeNode op n -> wfn ref B N n /\ groups n = [] /\ loops n = [].
Proof. destruct n; cbn; tauto. Qed.

Lemma escapeNode_elem op n : op <> DEFAULT -> escapeNode op n -> wfElem ref n /\ isCharClassOp n = false.
Proof. destruct n; cbn; tauto. Qed.

Lemma leaf_esc op k pend s o s' : Inv k pend s -> leafOut op s o s' -> escOut op k pend s o s'.
Proof.
  intros Hi. destruct o as [n|]; cbn.
  - intros (i & -> & Hr & Hq & Hst & Hn). pose proof (inv_iter _ _ _ _ _ Hi).
    split; [by apply Inv_move; [|lia|]|]. st. split; [lia|]. split; [done|].
    destruct (escapeNode_wf op n (refIndex (setIter i s)) (refName (setIter i s)) Hn) as (? & ? & ?). done.
  - intros ?. by eapply Inv_err.
Qed.

Lemma isDecimal_plain b : isDecimal b = true -> plain b = true.
Proof.
  unfold isDecimal, plain. intros Hd. zbool. by repeat (rewrite (proj2 (Z.eqb_neq _ _)) by lia).
Qed.

Lemma octalDigits_spec n c s :
  0 <= iter s <= len -> 0 <= c <= 255 ->
  wp (octalDigits ref n c) (fun v s' => exists i, s' = setIter i s /\ iter s <= i <= len /\ 0 <= v <= 255 /\
    segment (fun b => isDecimal b = true) (iter s) i /\
    (forall b, (0 < n)%nat -> byteAt (iter s) = Some b -> isOctal b = true -> c = 0 -> iter s < i)) s.
Proof.
  revert s c. induction n as [|n IH]; intros s c Hi Hc; cbn [octalDigits].
  { wps. exists (iter s). rewrite setIter_self. split_and!; [done|lia..|apply segment_nil|lia]. }
  wps. destruct (Z.eqb_spec (iter s) len) as [Heq|].
  { wps. exists (iter s). rewrite setIter_self. split_and!; [done|lia..|apply segment_nil|].
    intros b _ Hb%byteAt_range. lia. }
  destruct (byteAt_Some ref (iter s)) as [b Hb]; [lia|].
  apply wp_bind, (wp_deref _ b); [done|]. destruct (isOctal b) eqn:Ho.
  2: { wps. exists (iter s). rewrite setIter_self. split_and!; [done|lia..|apply segment_nil|]. congruence. }
  assert (48 <= b < 56) as Hb' by (unfold isOctal in Ho; lia).
  cbv zeta. unfold UINT8_MAX. destruct (Z.ltb_spec 255 (c * 8 + (b - chr "0"))).
  { wps. exists (iter s). rewrite setIter_self. split_and!; [done|lia..|apply segment_nil|].
    intros b' _ Hb'' _ ->. lia. }
  apply wp_bind, wp_advance; [lia|]. eapply wp_mono; [apply IH; st; lia|].
  st. intros v s' (i & -> & ? & ? & Hseg & _). exists i. split_and!; [done|lia..| |lia].
  eapply segment_app; [|done]. eapply segment_one; [done|]. unfold isDecimal. lia.
Qed.

(** The digits of an escape that starts at [b] end at [j]. *)
Definition digitsOf (b j : Z) : Prop :=
  0 <= b /\ b + 1 < j <= len /\ byteAt b = Some (chr "\") /\ segment (fun c => isDecimal c = true) (b + 1) j.

Lemma digits_quiet b j i : digitsOf b j -> b + 2 <= i <= j -> forall l, Quiet b l i l.
Proof.
  intros (? & ? & Hb & Hs) ? . apply escape_plain; [lia|done|lia..|].
  intros k c ? Hc. apply isDecimal_plain, (Hs k c); [lia|done].
Qed.

Lemma octalEscape_spec op k pend b s digits :
  Inv k pend s -> digitsOf b (iter s) ->
  wp (octalEscape ref flag b (b + 1) digits)
    (fun o s' => match o with
     | Some n => Inv k pend s' /\ b < iter s' /\ frames s' = frames s /\ wfAt s' n /\ pos (getToken n) = b /\
                   groups n = [] /\ loops n = [] /\ escapeNode op n
     | None => Failed s' end) s.
Proof.
  intros Hi Hd. pose proof Hd as (Hb0 & Hr & Hb & Hs). unfold octalEscape.
  destruct (isEitherUnicodeMode flag).
  { unfold invalidDecimal. wps. eapply wp_mono.
    - apply (leaf_error b _ (iter s) s s); [by rewrite setIter_self|apply (inv_error _ _ _ _ _ Hi)|lia|lia].
    - intros [] s' He. wps. by apply (Inv_err _ _ _ _ _ _ Hi He). }
  assert (forall i c, b + 2 <= i <= iter s -> isCodePoint c = true ->
    wp (t ← getTokenFrom b; mret (Some (CharNode t c)))
      (fun o s' => match o with
       | Some n => Inv k pend s' /\ b < iter s' /\ frames s' = frames s /\ wfAt s' n /\ pos (getToken n) = b /\
                     groups n = [] /\ loops n = [] /\ escapeNode op n
       | None => Failed s' end) (setIter i s)) as Hchar.
  { intros i c ? Hc. wps. split.
    { apply Inv_move; [done|lia|]. eapply Quiet_trans; [apply Quiet_sym, (digits_quiet b (iter s)); [done|lia]|].
      by apply (digits_quiet b (iter s)); [|lia]. }
    split; [lia|]. split; [done|]. assert (tokOk {| pos := u32 b; size := u32 (i - b) |}) by (apply tok_from; lia).
    split; [done|]. split; [by apply start_u32; lia|done]. }
  apply wp_bind, wp_jump; [lia|]. destruct (byteAt_Some ref (b + 1)) as [d Hd1]; [lia|].
  assert (isDecimal d = true) as Hdd by (apply (Hs (b + 1)); [lia|done]).
  assert (48 <= d <= 57) by (unfold isDecimal in Hdd; lia).
  apply wp_bind, (wp_deref _ d); [done|]. destruct (isOctal d) eqn:Ho; cbn [negb].
  - apply wp_bind. eapply wp_mono; [apply octalDigits_spec; st; lia|]. st.
    intros v s' (i & -> & ? & ? & Hseg & Hpos). rewrite setIter_setIter.
    specialize (Hpos d ltac:(lia) Hd1 Ho eq_refl).
    destruct (Z.le_gt_cases i (iter s)).
    + apply Hchar; [lia|]. apply isCodePoint_range. lia.
    + wps. assert (digitsOf b i) as Hdi by (split_and!; done || lia).
      split.
      { apply Inv_move; [done|lia|].
        eapply Quiet_trans; [apply Quiet_sym, (digits_quiet b (iter s)); [done|lia]|].
        apply (digits_quiet b i); [done|lia]. }
      split; [lia|]. split; [done|].
      assert (tokOk {| pos := u32 b; size := u32 (i - b) |}) by (apply tok_from; lia).
      assert (isCodePoint v = true) by (apply isCodePoint_range; lia).
      split; [done|]. split; [by apply start_u32; lia|done].
  - apply wp_bind, wp_advance; st; [lia|]. rewrite setIter_setIter.
    replace (b + 1 + 1) with (b + 2) by lia. apply Hchar; [lia|]. apply isCodePoint_range. lia.
Qed.

Lemma parseBackRefOrOctal_spec op k pend s d :
  Inv k pend s -> byteAt (iter s) = Some (chr "\") -> byteAt (iter s + 1) = Some d -> isDecimal d = true ->
  (op = DEFAULT -> k = 0%nat) ->
  wp (parseBackRefOrOctal ref flag (inCharClass op)) (escOut op k pend s) s.
Proof.
  intros Hi Hb Hd Hdd Hk. pose proof (Inv_at _ _ _ _ _ Hi) as [Hir He]. apply byteAt_range in Hd as Hr.
  unfold parseBackRefOrOctal. wps. apply wp_assert.
  { rewrite (restAt_byte _ _ _ Hb). done. }
  wps. apply wp_advance; [lia|]. wps. eapply wp_mono; [apply skip_spec; st; lia|]. st.
  intros _ s' (j & -> & Hj & Hseg & Hend). rewrite setIter_setIter. wps.
  assert (iter s + 1 < j) as Hj1.
  { destruct (Z.eq_dec j (iter s + 1)) as [->|]; [|lia]. destruct Hend as [?|(b & Hb' & Hp)]; [lia|].
    congruence. }
  assert (digitsOf (iter s) j) as Hds by (split_and!; done || lia).
  set (tmp := StringRef.slice ref (iter s + 1) j).
  assert (zlen tmp = j - (iter s + 1)) as Htl by (apply slice_zlen; lia).
  destruct tmp as [|first rest] eqn:Htmp; [change (zlen []) with 0 in Htl; lia|].
  eapply wp_expect; [reflexivity|]. rewrite <- Htmp.
  assert (Inv k pend (setIter j s)) as Hij.
  { apply Inv_move; [done|lia|]. apply (digits_quiet _ j); [done|lia]. }
  assert (forall s1, Inv k pend s1 -> iter s1 = j -> frames s1 = frames s ->
    wp (octalEscape ref flag (iter s) (iter s + 1) tmp) (escOut op k pend s) s1) as Hoct.
  { intros s1 H1 Hij1 Hf. eapply wp_mono; [apply (octalEscape_spec op k pend); [done|by rewrite Hij1]|].
    intros [n|] s2; [|done]. intros (? & ? & Hf2 & ? & ? & ? & ? & ?). split_and!; try done. by rewrite Hf2. }
  assert (forall msg s1, Inv k pend s1 -> iter s1 = j ->
    wp (t ← getTokenFrom (iter s); reportError t msg;; mret None) (escOut op k pend s) s1) as Herr.
  { intros msg s1 H1 Hij1. wps. rewrite Hij1. eapply wp_mono.
    - apply (leaf_error (iter s) _ j s1 s1); [by rewrite <- Hij1, setIter_self|apply (inv_error _ _ _ _ _ H1)|lia..].
    - intros [] s2 He2. by apply (Inv_err _ _ _ _ _ _ H1 He2). }
  case_on.
  { wps. unfold escOut. st. split_and!; [done|lia|done| |by apply start_u32; lia|done..|]; assert (tokOk {| pos := u32 (iter s); size := u32 (j - iter s) |})
      by (apply tok_from; lia); done. }
  destruct (first =? chr "0").
  { destruct (isEitherUnicodeMode flag); [by apply Herr|by apply Hoct]. }
  destruct op; cbn [inCharClass negb]; [|by apply Hoct..].
  rewrite (Hk eq_refl) in *. cbv zeta. apply wp_bind.
  eapply wp_mono; [by apply Inv_resolve|]. intros _ s1 (H1 & Hg & Hres & Hf & _ & Hi1 & _). st.
  wps. case_on.
  - zbool. wps. unfold escOut. rewrite Hi1. split_and!; [done|lia|done| |by apply start_u32; lia|done..].
    assert (tokOk {| pos := u32 (iter s); size := u32 (j - iter s) |}) by (apply tok_from; lia).
    split; [done|]. split; [done|lia].
  - destruct (isEitherUnicodeMode flag); [by apply Herr|by apply Hoct].
Qed.

(** ** Group names *)

(** A failure: an error, or only a move when errors are ignored. *)
Definition softFail (mayIgnoreError : bool) (s s' : State) : Prop :=
  ErrAt s s' \/ (mayIgnoreError = true /\ Moved ref s s').

Lemma escapeFails_soft ign s s' : escapeFails ref ign s s' -> softFail ign s s'.
Proof. destruct ign; cbn; [by right|by left]. Qed.

Lemma softFail_move ign i s s' : softFail ign (setIter i s) s' -> softFail ign s s'.
Proof.
  intros [(j & e & -> & ?)|(? & j & -> & ?)]; [left|right].
  - by exists j, e.
  - split; [done|]. by exists j.
Qed.

Definition nameCharOut (ign : bool) (s : State) (r : NameChar) (s' : State) : Prop :=
  match r with
  | NAME_END => s' = s /\ iter s = len
  | NAME_FAIL => softFail ign s s'
  | NAME_CLOSE => s' = setIter (iter s + 1) s /\ iter s + 1 <= len /\ (forall l, Quiet (iter s) l (iter s + 1) l)
  | NAME_CHAR c => isCodePoint c = true /\ exists i, s' = setIter i s /\ iter s < i <= len /\
                     (plain c = true -> forall l, Quiet (iter s) l i l)
  end.

Lemma readsChar_quiet s c s' i :
  readsChar ref s c s' -> s' = setIter i s -> 0 <= iter s -> plain c = true -> iter s < i <= len ->
  forall l, Quiet (iter s) l i l.
Proof.
  intros (j & -> & Hj & Hc & H1 & H2) E Hi Hp Hr l. apply (f_equal iter) in E. st. subst j.
  destruct (Z.lt_ge_cases c 128).
  - destruct H1 as [-> ?]; [done|]. by apply (Quiet_plain _ _ _ c).
  - apply Quiet_high; [lia|lia|]. auto.
Qed.

Lemma nameChar_spec ign s : atPos ref s -> wp (nameChar ref flag ign) (nameCharOut ign s) s.
Proof.
  intros [Hi He]. unfold nameChar. wps. destruct (Z.eqb_spec (iter s) len); [by wps|].
  destruct (byteAt_Some ref (iter s)) as [b Hb]; [lia|].
  apply wp_bind. eapply wp_mono; [by eapply nextValidCodePoint_spec|].
  intros c s' [Hc|[-> Hf]]; [|cbn; wps; by left].
  pose proof Hc as (i & -> & Hr & Hcp & H1 & H2). apply isCodePoint_range in Hcp as Hcr.
  destruct (Z.ltb_spec c 0); [lia|].
  assert (plain c = true -> forall l, Quiet (iter s) l i l) as Hq.
  { intros Hp. by apply (readsChar_quiet s c (setIter i s) i); [..|lia|done|]. }
  destruct (Z.eqb_spec c (chr ">")) as [->|].
  { destruct H1 as [-> _]; [lia|]. wps. split_and!; [done|lia|]. by apply Hq. }
  destruct (Z.eqb_spec c (chr "\")) as [->|].
  - destruct H1 as [-> _]; [lia|]. apply wp_bind, wp_advance; st; [lia|]. rewrite setIter_setIter.
    replace (iter s + 1 + -1) with (iter s) by lia. rewrite setIter_self.
    apply wp_bind. eapply wp_mono; [by apply parseUnicodeEscape_spec|].
    intros c s' [(j & -> & Hj & Hc' & Hq')|[-> Hf]]; wps.
    + apply isCodePoint_range in Hc' as Hcr'. destruct (Z.ltb_spec c 0); [lia|].
      split; [done|]. by exists j.
    + by apply escapeFails_soft.
  - wps. split; [done|]. by exists i.
Qed.

Lemma idStart_plain c : isCodePoint c = true -> isJSIdStart c = true -> plain c = true.
Proof.
  unfold isJSIdStart. destruct (Z.leb_spec c 127); [|intros; apply plain_high; lia].
  unfold isJSIdStartAscii, plain. intros _ Hc. by repeat (rewrite (proj2 (Z.eqb_neq _ _)) by lia).
Qed.

Lemma idContinue_plain c : isCodePoint c = true -> isJSIdContinue c = true -> plain c = true.
Proof.
  unfold isJSIdContinue. destruct (Z.leb_spec c 127); [|intros; apply plain_high; lia].
  unfold isJSIdStartAscii, plain. intros _ Hc. by repeat (rewrite (proj2 (Z.eqb_neq _ _)) by lia).
Qed.

Lemma utf8_nonempty c : isCodePoint c = true -> codePointToUtf8 c <> [].
Proof. intros Hc. rewrite codePointToUtf8_encode by done. unfold encode. by repeat case_on. Qed.

(** A name is read, or the failure is reported unless it is ignored. *)
Definition nameOut (ign : bool) (s : State) (name : bytes) (s' : State) : Prop :=
  (name <> [] /\ exists i, s' = setIter i s /\ iter s < i <= len /\ (forall l, Quiet (iter s) l i l)) \/
  (name = [] /\ softFail ign s s').

Lemma invalidName_spec old ign name s0 s i :
  s = setIter i s0 -> error s0 = None -> 0 <= old <= i -> i <= len ->
  wp (invalidName old ign name) (nameOut ign s0) s.
Proof.
  intros -> He ? ?. unfold invalidName. wps. destruct ign; wps.
  - right. split; [done|]. right. split; [done|]. by apply Moved_intro; lia.
  - eapply report_from; [done..|lia|lia|]. intros s' ?. wps. right. split; [done|]. by left.
Qed.

Lemma endOfName_spec old ign name s0 s i :
  s = setIter i s0 -> error s0 = None -> 0 <= old <= i -> i <= len ->
  wp (endOfName old ign name) (nameOut ign s0) s.
Proof.
  intros -> He ? ?. unfold endOfName. destruct name; [by eapply invalidName_spec|]. wps. destruct ign; wps.
  - right. split; [done|]. right. split; [done|]. by apply Moved_intro; lia.
  - eapply report_from; [done..|lia|lia|]. intros s' ?. wps. right. split; [done|]. by left.
Qed.

Lemma idContinue_spec fuel old ign : forall name s0 i,
  atPos ref s0 -> 0 <= old <= i -> iter s0 < i <= len -> len - i < Z.of_nat fuel -> name <> [] ->
  (forall l, Quiet (iter s0) l i l) ->
  wp (idContinue ref flag old ign fuel name) (nameOut ign s0) (setIter i s0).
Proof.
  induction fuel as [|fuel IH]; intros name s0 i Hs0 Ho Hi Hf Hn Hq; [lia|].
  pose proof Hs0 as [Hi0 He]. cbn [idContinue]. apply wp_bind.
  eapply wp_mono; [apply nameChar_spec; split; st; [lia|done]|]. intros r s' Hr.
  destruct r as [| | |c]; cbn [nameCharOut] in Hr; st.
  - destruct Hr as [-> ?]. eapply endOfName_spec; [done|done|lia|lia].
  - wps. right. split; [done|]. by eapply softFail_move.
  - destruct Hr as (-> & ? & Hq'). wps. left. split; [done|]. exists (i + 1).
    split_and!; [done|lia..|]. intros l. eapply Quiet_trans; [apply Hq|apply Hq'].
  - destruct Hr as (Hc & j & -> & Hj & Hq'). apply wp_bind, wp_assert; [done|]. cbv zeta.
    rewrite setIter_setIter. destruct (isJSIdContinue c) eqn:Hid.
    + apply IH; [done|lia..| |].
      * intros [? _]%app_eq_nil. done.
      * intros l. eapply Quiet_trans; [apply Hq|]. by apply Hq', idContinue_plain.
    + eapply invalidName_spec; [done|done|lia|lia].
Qed.

Lemma parseCaptureGroupName_spec prefixStart ign s :
  atPos ref s -> 0 <= prefixStart <= iter s ->
  wp (parseCaptureGroupName ref flag prefixStart ign) (nameOut ign s) s.
Proof.
  intros [Hi He] Hp. unfold parseCaptureGroupName. wps.
  destruct (StringRef.startsWith _ _) eqn:Hs; cbn [negb].
  2: { wps. destruct ign; wps.
       - right. split; [done|]. right. split; [done|]. exists (iter s). by rewrite setIter_self.
       - rewrite <- (setIter_self s) at 3. eapply report_from; [done..|lia|lia|]. intros s' ?. wps.
         right. split; [done|]. by left. }
  assert (byteAt (iter s) = Some (chr "<")) as Hb by (eapply starts_first; [lia|exact Hs|done]).
  apply byteAt_range in Hb as Hbr.
  apply wp_bind, wp_advance; [lia|]. apply wp_bind.
  eapply wp_mono; [apply nameChar_spec; split; st; [lia|done]|]. intros r s' Hr.
  assert (forall l, Quiet (iter s) l (iter s + 1) l) as Hq0 by (intros l; by eapply Quiet_plain).
  destruct r as [| | |c]; cbn [nameCharOut] in Hr; st.
  - destruct Hr as [-> ?]. eapply endOfName_spec; [done|done|lia|lia].
  - wps. right. split; [done|]. by eapply softFail_move.
  - destruct Hr as (-> & ? & Hq'). eapply invalidName_spec; [done|done|lia|lia].
  - destruct Hr as (Hc & j & -> & Hj & Hq'). apply wp_bind, wp_assert; [done|]. cbv zeta.
    rewrite setIter_setIter. destruct (isJSIdStart c) eqn:Hid.
    + apply idContinue_spec; [done|lia..| | |].
      * unfold zlen in *. lia.
      * by apply utf8_nonempty.
      * intros l. eapply Quiet_trans; [apply Hq0|]. by apply Hq', idStart_plain.
    + eapply invalidName_spec; [done|done|lia|lia].
Qed.

Lemma parseNamedBackRef_spec op k pend s :
  Inv k pend s -> byteAt (iter s) = Some (chr "\") -> byteAt (iter s + 1) = Some (chr "k") ->
  (op = DEFAULT -> k = 0%nat) ->
  wp (parseNamedBackRef ref flag (inCharClass op)) (escOut op k pend s) s.
Proof.
  intros Hi Hb Hb1 Hk. pose proof (Inv_at _ _ _ _ _ Hi) as [Hir He]. apply byteAt_range in Hb1 as Hr.
  unfold parseNamedBackRef. wps. apply wp_assert.
  { by rewrite (restAt_byte _ _ _ Hb), (restAt_byte _ _ _ Hb1). }
  wps. apply wp_advance; [lia|].
  assert (forall l, Quiet (iter s) l (iter s + 2) l) as Hq2 by (apply escape2_quiet; [lia|done|lia]).
  assert (tokOk {| pos := u32 (iter s); size := u32 (iter s + 2 - iter s) |}) as Ht2 by (apply tok_from; lia).
  assert (forall s1, Inv k pend s1 -> frames s1 = frames s -> iter s1 = iter s + 2 ->
    wp (t ← getTokenFrom (iter s); mret (Some (CharNode t (chr "k")))) (escOut op k pend s) s1) as Hchar.
  { intros s1 H1 Hf Hi1. wps. unfold escOut. rewrite Hi1. split_and!; [done|lia|done| |by apply start_u32; lia|done|done|]; done. }
  destruct (inCharClass op) eqn:Hop.
  { wps. destruct (isEitherUnicodeMode flag); wps.
    - eapply wp_mono; [eapply leaf_error; [done|done|lia|lia]|].
      intros [] s' He'. wps. by apply (Inv_err _ _ _ _ _ _ Hi He').
    - apply (Hchar (setIter (iter s + 2) s)); [|done|done]. apply Inv_move; [done|lia|]. apply Hq2. }
  destruct op; try done. rewrite (Hk eq_refl) in *.
  apply wp_bind. eapply wp_mono; [apply parseCaptureGroupName_spec; [split|]; st; [lia|done|lia]|].
  intros name s' [(Hn & i & -> & Hi' & Hq)|(-> & Hf)]; st.
  - rewrite setIter_setIter in *.
    assert (Inv 0 pend (setIter i s)) as Hinv0.
    { apply Inv_move; [done|lia|]. eapply Quiet_trans; [apply Hq2|apply Hq]. }
    assert (0 <? zlen name = true) as ->.
    { destruct name; [done|]. rewrite zlen_cons. pose proof (zlen_nonneg name). lia. }
    assert (zlen name =? 0 = false) as ->.
    { destruct name; [done|]. rewrite zlen_cons. pose proof (zlen_nonneg name). lia. }
    apply wp_bind. eapply wp_mono; [by apply Inv_resolve|].
    intros _ s1 (H1 & Hg & Hres & Hfr & _ & Hi1 & _). st. cbn [orb]. wps.
    assert (tokOk {| pos := u32 (iter s); size := u32 (i - iter s) |}) as Ht by (apply tok_from; lia).
    case_on.
    + wps. apply wp_hasError; [apply (inv_error _ _ _ _ _ H1)|].
      case_on.
      * apply wp_bind, wp_jump; [lia|]. apply (Hchar (setIter (iter s + 2) s1)); [|done|done].
        apply Inv_move; [done|lia|]. rewrite Hi1. eapply Quiet_sym, Hq.
      * wps. rewrite Hi1. eapply wp_mono.
        -- unfold reportUndefinedNamedRef.
           apply (leaf_error (iter s) _ i s1 s1); [by rewrite <- Hi1, setIter_self|apply (inv_error _ _ _ _ _ H1)|lia..].
        -- intros [] s2 He2. wps. by apply (Inv_err _ _ _ _ _ _ H1 He2).
    + wps. rewrite Hi1. edestruct Inv_addNamedRef as (H2 & Hg2 & Hnm); [..|exact H1|exact Ht|]; [done..|].
      unfold escOut. st. split_and!; [done|lia|done| |by apply start_u32; lia|done|done|done].
      split; [done|]. by destruct name.
  - change (zlen (@nil Z)) with 0. cbn [Z.ltb Z.compare Z.eqb orb]. wps.
    destruct Hf as [Hf|[Hbmp Hm]].
    + destruct Hf as (j & e & -> & He'). eapply wp_failed; [done|]. cbn [negb]. rewrite andb_false_r. wps.
      apply (Inv_err ref flag 0 pend s); [done|]. by exists j, e.
    + destruct Hm as (j & -> & Hj). rewrite setIter_setIter. apply wp_hasError; [done|]. rewrite Hbmp. cbn [negb andb].
      apply wp_bind, wp_jump; [lia|]. rewrite setIter_setIter.
      apply (Hchar (setIter (iter s + 2) s)); [|done|done]. apply Inv_move; [done|lia|]. apply Hq2.
Qed.

(** ** [parseAtomEscape] *)

Lemma stackDirections_head fs : exists d, head (stackDirections fs) = Some d.
Proof. induction fs as [|f r IH]; cbn; [eauto|]. destruct (type f); cbn; eauto. Qed.

Section atom.
Context (op : EscapeParseOp) (k : nat) (pend : list Node) (s : State).
Context (Hi : Inv k pend s) (Hb : byteAt (iter s) = Some (chr "\")) (Hl : iter s + 1 < len).

Lemma atom_pos : 0 <= iter s <= len /\ error s = None.
Proof. exact (Inv_at _ _ _ _ _ Hi). Qed.

(** The cursor after the backslash and one character. *)
Lemma atom_char2 c : isCodePoint c = true ->
  wp (escapedChar (iter s) c) (escOut op k pend s) (setIter (iter s + 2) s).
Proof.
  pose proof atom_pos as [? ?]. intros Hc. eapply wp_mono.
  - eapply (leaf_char op); [done|done|lia|lia| |done]. apply escape2_quiet; [lia|done|lia].
  - intros o s'. by apply leaf_esc.
Qed.

Lemma atom_node2 n :
  (forall t, tokOk t -> escapeNode op (n t) /\ getToken (n t) = t) ->
  wp (t ← getTokenFrom (iter s); mret (Some (n t))) (escOut op k pend s) (setIter (iter s + 2) s).
Proof.
  pose proof atom_pos as [? ?]. intros Hn. wps. eapply leaf_esc; [done|].
  destruct (Hn {| pos := u32 (iter s); size := u32 (iter s + 2 - iter s) |}) as [Hesc Htok]; [apply tok_from; lia|].
  exists (iter s + 2). split_and!; [done|lia..| | |done].
  - apply escape2_quiet; [lia|done|lia].
  - unfold startsAt. rewrite Htok. apply start_u32. lia.
Qed.

Lemma atom_invalid i : iter s <= i <= len ->
  wp (invalidEscape ref (iter s)) (escOut op k pend s) (setIter i s).
Proof.
  pose proof atom_pos as [? ?]. intros. eapply wp_mono.
  - apply (leaf_invalid op _ i _ s); [done|done|lia..].
  - intros o s'. by apply leaf_esc.
Qed.

Lemma atom_error msg i : iter s <= i <= len ->
  wp (t ← getTokenFrom (iter s); reportError t msg;; mret None) (escOut op k pend s) (setIter i s).
Proof.
  pose proof atom_pos as [? ?]. intros. wps. eapply wp_mono; [by eapply leaf_error; [done|done|lia|lia]|].
  intros [] s' He. by apply (Inv_err _ _ _ _ _ _ Hi He).
Qed.

Lemma wtf8ValidateChar_len i : 0 <= i <= len -> 0 <= wtf8ValidateChar (restAt i) /\ i + wtf8ValidateChar (restAt i) <= len.
Proof.
  intros Hr. destruct (Z.eq_dec (wtf8ValidateChar (restAt i)) 0) as [->|Hne]; [lia|].
  destruct (validate_cases (restAt i) true _ (restAt_bytes _ Hbytes i) eq_refl Hne) as (? & Hle & _).
  unfold wtf8ValidateChar. split; [lia|]. unfold RegexScan.restAt in Hle at 2. rewrite length_drop in Hle.
  unfold zlen. lia.
Qed.

Lemma identityEscape_spec b :
  byteAt (iter s + 1) = Some b ->
  wp (identityEscape ref flag extension op (iter s) b) (escOut op k pend s) (setIter (iter s + 1) s).
Proof.
  pose proof atom_pos as [Hir He]. intros Hb1. unfold identityEscape.
  assert (0 <= b < 256) as Hbb by by eapply byteAt_is_byte.
  assert (isCodePoint b = true) as Hbc by (apply isCodePoint_range; lia).
  destruct (_ && negb (inCharClass op)) eqn:HX.
  { apply wp_bind, wp_advance; st; [lia|]. rewrite setIter_setIter.
    replace (iter s + 1 + 1) with (iter s + 2) by lia.
    apply wp_bind. unfold direction. wps. destruct (stackDirections_head (frames s)) as [d Hd].
    eapply wp_expect; [rewrite (inv_dirs _ _ _ _ _ Hi); exact Hd|].
    destruct d; cbn [negb].
    - apply (atom_node2 (fun t => PropertyNode t GRAPHEME 0)). intros t Ht. cbn.
      destruct op; [|by rewrite andb_false_r in HX..]. split; done.
    - apply atom_error. lia. }
  destruct (_ && (isSyntaxChar b || _)).
  { apply wp_bind, wp_advance; st; [lia|]. rewrite setIter_setIter.
    replace (iter s + 1 + 1) with (iter s + 2) by lia. by apply atom_char2. }
  destruct (_ && isClassSetReservedPunctuator b).
  { apply wp_bind, wp_advance; st; [lia|]. rewrite setIter_setIter.
    replace (iter s + 1 + 1) with (iter s + 2) by lia. by apply atom_char2. }
  apply wp_bind. eapply wp_mono; [eapply nextValidCodePoint_spec; [done|done|split; st; [lia|done]|done]|].
  intros c s' [Hc|[-> Hf]].
  - pose proof Hc as (i & -> & Hr & Hcp & H1 & H2). st. rewrite setIter_setIter in *.
    apply isCodePoint_range in Hcp as Hcr. destruct (Z.ltb_spec (-1) c); [|lia].
    destruct (is_ flag BMP); [|apply atom_error; lia].
    eapply wp_mono.
    + eapply (leaf_char op); [done|done|lia|lia| |done]. destruct (Z.lt_ge_cases c 128).
      * destruct H1 as [-> _]; [done|]. replace (iter s + 1 + 1) with (iter s + 2) by lia.
        apply escape2_quiet; [lia|done|lia].
      * apply escape_plain; [lia|done| |lia|].
        -- assert (iter s + 1 < i) by lia. lia.
        -- intros x y ? Hy. apply plain_high, (H2 ltac:(lia) x); [lia|done].
    + intros o s'. by apply leaf_esc.
  - cbn. wps. destruct Hf as (j & e & -> & Ht). apply (Inv_err ref flag k pend s); [done|].
    by exists j, e.
Qed.
End atom.

Lemma parseAtomEscape_spec op k pend s :
  Inv k pend s -> byteAt (iter s) = Some (chr "\") -> (op = DEFAULT -> k = 0%nat) ->
  wp (parseAtomEscape ref flag extension op) (escOut op k pend s) s.
Proof.
  intros Hi Hb Hk. pose proof (Inv_at _ _ _ _ _ Hi) as [Hir He]. apply byteAt_range in Hb as Hbr.
  unfold parseAtomEscape. wps. apply wp_assert; [by rewrite (restAt_byte _ _ _ Hb)|].
  wps. apply wp_advance; [lia|]. wps. destruct (Z.eqb_spec (iter s + 1) len).
  { apply (atom_error op k pend s Hi). lia. }
  destruct (byteAt_Some ref (iter s + 1)) as [b Hb1]; [lia|].
  assert (0 <= b < 256) as Hbb by by eapply byteAt_is_byte.
  assert (isCodePoint b = true) as Hbc by (apply isCodePoint_range; lia).
  assert (forall i, iter s + 1 = i + 1 -> i = iter s) as Hback by lia.
  apply wp_bind, (wp_deref _ b); [done|].
  assert (Hadv : forall (Q : unit -> State -> Prop), Q tt (setIter (iter s + 2) s) ->
    wp (advance ref 1) Q (setIter (iter s + 1) s)).
  { intros Q HQ. apply wp_advance; st; [lia|]. replace (iter s + 1 + 1) with (iter s + 2) by lia. done. }
  assert (Hret : forall (Q : unit -> State -> Prop), Q tt s -> wp (advance ref (-1)) Q (setIter (iter s + 1) s)).
  { intros Q HQ. apply wp_advance; st; [lia|]. replace (iter s + 1 + -1) with (iter s) by lia.
    by rewrite setIter_setIter, setIter_self. }
  destruct (controlEscape b) as [c|] eqn:Hctl.
  { apply wp_bind, Hadv, atom_char2; [done..|lia|]. apply isCodePoint_range.
    unfold controlEscape in Hctl. repeat case_in Hctl; simplify_eq; lia. }
  destruct (classEscape b) as [ty|] eqn:Hcls.
  { apply wp_bind, Hadv. destruct (inClassString op) eqn:Hop; [by apply atom_invalid; [|lia]|].
    apply (atom_node2 op k pend s Hi Hb ltac:(lia) (fun t => PropertyNode t ty 0)). intros t Ht.
    unfold classEscape in Hcls. cbn. split; [|done]. split; [done|]. destruct op; try done;
      repeat case_in Hcls; simplify_eq; done. }
  destruct (Z.eqb_spec b (chr "c")) as [->|].
  { apply wp_bind, Hadv. wps.
    assert (wp (if is_ flag BMP then advance ref (-1);; escapedChar (iter s) (chr "\")
         else
            r ← remain ref;
            let len := wtf8ValidateChar r in
            advance ref len;;
            t ← getTokenFrom (iter s);
            reportError t (quoted (lit "invalid escape: ") (lit "\c" ++ take (Z.to_nat len) r));;
            mret None) (escOut op k pend s) (setIter (iter s + 2) s)) as Hno.
    { destruct (is_ flag BMP).
      - apply wp_bind, wp_advance; st; [lia|]. rewrite setIter_setIter.
        replace (iter s + 2 + -1) with (iter s + 1) by lia. eapply wp_mono.
        + eapply (leaf_char op); [done|done|lia|lia| |apply isCodePoint_range; lia].
          intros l. eapply Quiet_trans; [apply Quiet_escape; [done|lia]|]. apply Quiet_sym.
          replace (iter s + 2) with (iter s + 1 + 1) by lia. by eapply Quiet_plain.
        + intros o s'. by apply leaf_esc.
      - wps. pose proof (wtf8ValidateChar_len (iter s + 2) ltac:(lia)) as [? ?].
        apply wp_advance; st; [lia|]. rewrite setIter_setIter. apply (atom_error op k pend s Hi). lia. }
    destruct (Z.eqb_spec (iter s + 2) len).
    { wps. exact Hno. }
    destruct (byteAt_Some ref (iter s + 2)) as [c Hc]; [lia|].
    wps. apply (wp_deref _ c); [done|]. wps. destruct (isLetter c) eqn:Hlt; [|exact Hno].
    apply wp_bind, wp_advance; st; [lia|]. rewrite setIter_setIter.
    replace (iter s + 2 + 1) with (iter s + 3) by lia.
    assert (0 <= c mod 32 < 32) by (apply Z.mod_pos_bound; lia). eapply wp_mono.
    + eapply (leaf_char op); [done|done|lia|lia| |apply isCodePoint_range; lia].
      apply escape_plain; [lia|done|lia..|]. replace (iter s + 3) with (iter s + 2 + 1) by lia.
      eapply segment_one; [done|]. unfold isLetter in Hlt. unfold plain.
      by repeat (rewrite (proj2 (Z.eqb_neq _ _)) by lia).
    + intros o s'. by apply leaf_esc. }
  destruct (isDecimal b) eqn:Hdec.
  { apply wp_bind, Hret. by eapply parseBackRefOrOctal_spec. }
  destruct (Z.eqb_spec b (chr "b")) as [->|].
  { apply wp_bind, Hadv.
    apply (atom_node2 op k pend s Hi Hb ltac:(lia) (fun t => if inCharClass op then CharNode t 8 else BoundaryNode t WORD)).
    intros t Ht. by destruct op. }
  destruct (Z.eqb_spec b (chr "B")) as [->|].
  { apply wp_bind, Hadv. destruct (inCharClass op) eqn:Hop.
    - destruct (isEitherUnicodeMode flag); [by apply atom_invalid; [|lia]|].
      by apply (atom_node2 op k pend s Hi Hb ltac:(lia) (fun t => CharNode t (chr "B"))).
    - apply (atom_node2 op k pend s Hi Hb ltac:(lia) (fun t => BoundaryNode t NOT_WORD)).
      intros t Ht. by destruct op. }
  destruct (_ || _) eqn:Hp.
  { destruct (inClassString op) eqn:Hop.
    - apply wp_bind, Hadv. by apply atom_invalid; [|lia].
    - destruct (is_ flag BMP).
      + apply wp_bind, Hadv. by apply atom_char2; [..|lia|].
      + apply wp_bind, Hret. eapply wp_mono.
        * eapply (parseUnicodePropertyEscape_spec op); [done|done|done|done|]. by destruct op.
        * intros o s'. by apply leaf_esc. }
  destruct (Z.eqb_spec b (chr "x")) as [->|].
  { apply wp_bind, Hadv. wps. eapply wp_mono; [apply hexDigits_spec; st; lia|]. st.
    intros r s' (i & -> & ? & ? & Hr). rewrite setIter_setIter. wps.
    assert (wp (if is_ flag BMP then jump ref (iter s + 2);; escapedChar (iter s) (chr "x")
                else invalidEscape ref (iter s)) (escOut op k pend s) (setIter i s)) as Hno.
    { destruct (is_ flag BMP); [|by apply atom_invalid; [|lia]].
      apply wp_bind, wp_jump; [lia|]. rewrite setIter_setIter. by apply atom_char2; [..|lia|]. }
    destruct (Z.eqb_spec (i - (iter s + 2)) 2); [|exact Hno].
    destruct r as [v|]; [|exact Hno]. destruct Hr as [Hseg Hv]. eapply wp_mono.
    + eapply (leaf_char op); [done|done|lia|lia| |].
      * apply escape_plain; [lia|done|lia..|]. by apply hex_segment_plain.
      * specialize (Hv ltac:(lia)). change (16 ^ Z.of_nat 2) with 256 in Hv. apply isCodePoint_range. lia.
    + intros o s'. by apply leaf_esc. }
  destruct (Z.eqb_spec b (chr "u")) as [->|].
  { apply wp_bind, Hret. apply wp_bind. eapply wp_mono; [by apply parseUnicodeEscape_spec|].
    intros c s' [(i & -> & Hi' & Hc & Hq)|[-> Hf]].
    - rewrite Hc. eapply wp_mono; [by eapply (leaf_char op); [done|done|lia|lia| |done]|].
      intros o s'. by apply leaf_esc.
    - change (isCodePoint (-1)) with false. cbv iota. destruct (is_ flag BMP); cbn in Hf.
      + destruct Hf as (j & -> & Hj). apply wp_bind, wp_hasError; [done|]. cbn [negb andb].
        apply wp_bind, wp_jump; [lia|]. rewrite setIter_setIter. by apply atom_char2; [..|lia|].
      + destruct Hf as (j & e & -> & Ht). eapply wp_bind, wp_failed; [done|]. cbn [andb]. wps.
        apply (Inv_err ref flag k pend s); [done|]. by exists j, e. }
  destruct (Z.eqb_spec b (chr "k")) as [->|].
  { apply wp_bind, Hret. by eapply parseNamedBackRef_spec. }
  destruct (Z.eqb_spec b (chr "-")) as [->|].
  { apply wp_bind, Hadv.
    destruct (inCharClass op || negb (isEitherUnicodeMode flag)); [|by apply atom_invalid; [|lia]].
    by apply (atom_node2 op k pend s Hi Hb ltac:(lia) (fun t => CharNode t (chr "-"))). }
  by apply identityEscape_spec; [..|lia|].
Qed.
End escape.
End RegexEscape.
