(* ===== verification/RegexParserSpec.v ===== *)
(** The parser keeps its invariant: quantifiers, groups, character classes and the
    main loop. *)
From stdpp Require Import sorting.
From Stdlib Require Import Ascii.
From S2P Require Import Prelude NumUtil Unicode StringRef RegexNode RegexSyntax RegexParser RegexScan RegexParserInv RegexEscape.
Import NumUtil UnicodeUtil RegexNode RegexSyntax RegexParser RegexScan RegexParserInv RegexEscape.

Module RegexParserSpec.

Lemma decimal_plain w s :
  kind (convertToNum10 w s) = OK -> Forall (fun b => plain b = true) s.
Proof.
  unfold convertToNum10, parseInteger. intros Hk.
  assert (forall acc l, fst (fst (parseDigits w 10 acc l)) = OK -> Forall (fun b => plain b = true) l) as Hd.
  { intros acc l. revert acc. induction l as [|c r IH]; intros acc Hl; [constructor|].
    cbn [parseDigits] in Hl. destruct (digitValue c) as [v|] eqn:Hv; [|done].
    destruct (Z.leb_spec 10 v); [done|]. destruct (mul_overflow _ _ _) as [[] m]; [done|].
    destruct (add_overflow _ _ _) as [[] a]; [done|]. constructor; [|by eapply IH].
    unfold digitValue in Hv. unfold plain. repeat case_in Hv; simplify_eq; zbool; lia. }
  assert (forall l, kind (fst (let '(base, s2) := (10, l) in
      match s2 with
      | [] => ({| kind := ILLEGAL_CHAR; consumedSize := u32 (zlen s - zlen s2); value := 0 |}, s2)
      | _ :: _ =>
          if (base <? 2) || (36 <? base)
          then ({| kind := ILLEGAL_RADIX; consumedSize := u32 (zlen s - zlen s2); value := 0 |}, s2)
          else let '(k, v, rest) := parseDigits w base 0 s2 in
               ({| kind := k; consumedSize := u32 (zlen s - zlen rest); value := v |}, rest)
      end)) = OK -> Forall (fun b => plain b = true) l) as Hl.
  { intros l. destruct l as [|c r]; [done|]. cbn [Z.ltb Z.compare Pos.compare Pos.compare_cont orb].
    destruct (parseDigits w 10 0 (c :: r)) as [[k v] rest] eqn:E. cbn. intros ->. apply (Hd 0). by rewrite E. }
  destruct s as [|c r]; [constructor|]. destruct (Z.eqb_spec c 43) as [->|].
  - constructor; [done|]. by apply Hl.
  - by apply Hl.
Qed.

Section spec.
Context `{UcpLaws} (ref : bytes) (flag : Flag) (extension : bool).
Context (Hbytes : Forall is_byte ref) (Hlen : zlen ref <= UINT32_MAX).
Abbreviation byteAt := (byteAt ref).
Abbreviation restAt := (restAt ref).
Abbreviation tokOk := (tokOk ref).
Abbreviation Quiet := (Quiet ref flag).
Abbreviation segment := (segment ref).
Abbreviation len := (zlen ref).
Abbreviation Inv := (Inv ref flag).
Abbreviation ErrAt := (ErrAt ref).
Abbreviation Failed := (Failed ref).
Abbreviation wfAt s := (wfn ref (refIndex s) (refName s)).
Abbreviation wfOpenAt s := (wfOpen ref (refIndex s) (refName s)).
Abbreviation plainSegment := (segment (fun b => plain b = true)).

Lemma Inv_report k pend s b msg (Q : unit -> State -> Prop) :
  Inv k pend s -> 0 <= b <= iter s -> (forall s', Failed s' -> Q tt s') ->
  wp (reportError {| pos := u32 b; size := u32 (iter s - b) |} msg) Q s.
Proof.
  intros Hi Hb HQ. pose proof (Inv_at _ _ _ _ _ Hi) as [? ?].
  eapply wp_mono; [apply (leaf_error ref Hlen b msg (iter s) s s); [by rewrite setIter_self|done|lia..]|].
  intros [] s' He. by apply HQ, (Inv_err _ _ _ _ _ _ Hi He).
Qed.

(** ** Quantifiers *)

Lemma parseQuantifierDigits_spec prefixStart ign end_ s :
  atPos ref s -> 0 <= prefixStart <= iter s ->
  wp (parseQuantifierDigits ref prefixStart ign end_) (fun r s' =>
    match r with
    | Some v => exists i, s' = setIter i s /\ iter s <= i <= len /\ 0 <= v <= QUANTIFIER_MAX /\
                  plainSegment (iter s) i
    | None => escapeFails ref ign s s'
    end) s.
Proof.
  intros [Hi He] Hp. unfold parseQuantifierDigits. wps. eapply wp_mono; [by apply skip_spec|].
  intros _ s' (i & -> & Hi' & Hseg & _). wps.
  assert (forall b msg j, iter s <= j <= len -> 0 <= b <= j ->
    wp ((if ign then mret tt else t ← getTokenFrom b; reportError t msg);; mret None)
      (fun r s' => match r with
    | Some v => exists i, s' = setIter i s /\ iter s <= i <= len /\ 0 <= v <= QUANTIFIER_MAX /\
                  plainSegment (iter s) i
    | None => escapeFails ref ign s s'
    end) (setIter j s)) as Hfail.
  { intros b msg j Hj Hb. wps. destruct ign; wps; [apply Moved_intro; lia|].
    eapply report_from; [done..|lia|lia|]. intros s' ?. by wps. }
  destruct (Z.eqb_spec (zlen (StringRef.slice ref (iter s) i)) 0).
  - wps. destruct (Z.eqb_spec i len).
    + wps. destruct ign; wps; [apply Moved_intro; lia|].
      eapply report_from; [done..|lia|lia|]. intros s' ?. by wps.
    + apply wp_advance; st; [lia|]. rewrite setIter_setIter. wps.
      destruct ign; wps; [apply Moved_intro; lia|].
      eapply report_from; [done..|lia|lia|]. intros s' ?. by wps.
  - cbv zeta. set (ret := convertToNum10 64 (StringRef.slice ref (iter s) i)).
    destruct (bool_decide (kind ret = OK)) eqn:Hk; cbn [negb]; [|apply Hfail; lia].
    apply bool_decide_eq_true in Hk. apply decimal_plain in Hk as Hpl.
    destruct (Z.ltb_spec QUANTIFIER_MAX (value ret)); [apply Hfail; lia|].
    wps. exists i. split_and!; [done|lia..| | |apply slice_segment; [lia..|done]].
    + apply (wrap_range 16). lia.
    + pose proof (wrap_range 16 (value ret) ltac:(lia)) as Hr. unfold in_unsigned in Hr.
      change (2 ^ 16) with 65536 in Hr. change QUANTIFIER_MAX with 65535. lia.
Qed.

Definition optList (o : option Node) : list Node := match o with Some n => [n] | None => [] end.

(** What a quantifier leaves: the atom, quantified or not; or an error; or, in
    legacy mode, an opening brace that is a character. *)
Definition quantOut (atom : option Node) (s : State) (r : option Node) (s' : State) : Prop :=
  match r with
  | Some n => Inv 0 [n] s' /\ iter s <= iter s' /\ frames s' = frames s /\ atom <> None
  | None => Failed s' \/
      (atom = None /\ s' = s /\ is_ flag BMP = true /\ byteAt (iter s) = Some (chr "{"))
  end.

Lemma wfAt_repeat s n q t :
  wfAt s n -> Forall indexRange (groups n) -> StronglySorted Z.lt (groups n) -> tokOk t ->
  0 <= loopIndex q < LOOP_INDEX_MAX -> 0 <= qmin q <= QUANTIFIER_MAX -> qmin q <= qmax q ->
  qmax q <= QUANTIFIER_MAX \/ qmax q = UNLIMIT ->
  exists m, mkRepeat (loopIndex q) n (qmin q) (qmax q) (greedy q) t = Some m /\ wfAt s m /\
    groups m = groups n /\ loops m = loops n ++ [loopIndex q].
Proof.
  intros Hn Hg Hs Ht H1 H2 H3 H4. unfold mkRepeat. rewrite (countGroups_spec _ _ _ _ Hn Hg Hs).
  cbn [mbind option_bind]. eexists. split; [done|]. split; [|done]. cbn [wfn].
  split; [|split; [|done]].
  - apply extendToken_ok; [done| |done]. by eapply wfn_token.
  - by constructor.
Qed.

Lemma repeatNode_spec atom old min max greedy s0 i :
  Inv 0 (optList atom) s0 -> 0 <= old <= i -> iter s0 <= i <= len -> (forall l, Quiet (iter s0) l i l) ->
  0 <= min <= QUANTIFIER_MAX -> min <= max -> max <= QUANTIFIER_MAX \/ max = UNLIMIT ->
  wp (repeatNode ref flag atom old min max greedy) (quantOut atom s0) (setIter i s0).
Proof.
  intros Hi0 Ho Hr Hq Hmin Hord Hmax.
  assert (Inv 0 (optList atom) (setIter i s0)) as Hi.
  { apply Inv_move; [done|lia|apply Hq]. }
  unfold repeatNode. apply wp_bind. unfold checkRepeatable.
  destruct (isRepeatable flag atom) eqn:Hrep.
  2: { wps. eapply (Inv_report 0 _ (setIter i s0)); [done|st; lia|]. intros s' ?. wps. cbn [negb]. wps. by left. }
  destruct atom as [n|]; [|done]. wps. cbn [negb]. apply wp_bind, (wp_expect _ n); [done|].
  apply wp_bind. unfold newLoopIndex. wps.
  destruct (Z.eqb_spec (loopCount_ s0) LOOP_INDEX_MAX) as [|Hne].
  { wps. eapply (Inv_report 0 _ (setIter i s0)); [done|st; lia|]. intros s' ?. wps. by left. }
  wps. pose proof (inv_loopCount _ _ _ _ _ Hi) as Hlc. st.
  assert (u16 (loopCount_ s0 + 1) = loopCount_ s0 + 1) as ->.
  { apply wrap_small. unfold in_unsigned, LOOP_INDEX_MAX, UINT16_MAX in *. change (2 ^ 16) with 65536. lia. }
  pose proof (indexes_in_range _ _ _ _ _ Hi) as Hix. cbn in Hix. rewrite app_nil_r in Hix.
  apply Forall_app in Hix as [_ Hix].
  pose proof (indexes_sorted _ _ _ _ _ Hi) as Hso. cbn in Hso. rewrite app_nil_r in Hso.
  apply StronglySorted_app in Hso as (_ & _ & Hso).
  assert (wfAt (setIter i s0) n) as Hn by (pose proof (inv_pend _ _ _ _ _ Hi) as Hp; by inversion Hp).
  set (q := {| loopIndex := loopCount_ s0; qmin := min; qmax := max; RegexNode.greedy := greedy;
               firstGroupIndex := 0; lastGroupIndex := 0 |}).
  destruct (wfAt_repeat (setIter i s0) n q {| pos := u32 old; size := u32 (i - old) |} Hn Hix Hso)
    as (m & Em & Hm & Hmg & Hml); [apply tok_from; lia|cbn; lia|done..|].
  cbn [q loopIndex qmin qmax RegexNode.greedy] in Em, Hml. eapply wp_expect; [exact Em|]. wps.
  split; [|by split_and!; [st; lia| |]].
  destruct Hi. st. constructor; st; try done.
  - lia.
  - by constructor.
  - cbn [optList map concat] in *. by rewrite Hmg.
  - cbn [optList map concat] in *.
    rewrite app_nil_r in *. by rewrite upto_snoc, Hml, app_assoc, inv_loops0 by lia.
Qed.

Lemma greedy_spec (Q : bool -> State -> Prop) i s :
  0 <= i <= len -> (forall g j, i <= j <= len -> plainSegment i j -> Q g (setIter j s)) ->
  wp (parseGreedy ref) Q (setIter i s).
Proof.
  intros Hi HQ. unfold parseGreedy. wps. destruct (StringRef.startsWith _ _) eqn:Hs; wps.
  - pose proof (starts_len _ _ _ Hi Hs) as Hl. change (zlen (lit "?")) with 1 in Hl.
    apply wp_advance; st; [lia|]. wps. apply HQ; [lia|].
    apply (segment_one _ _ _ (chr "?")); [|done]. by eapply starts_first; [lia|exact Hs|].
  - apply HQ; [lia|]. apply segment_nil.
Qed.

Lemma giveUp_spec atom s j :
  Inv 0 (optList atom) s -> is_ flag BMP = true -> byteAt (iter s) = Some (chr "{") ->
  wp (jump ref (iter s);; mret atom) (quantOut atom s) (setIter j s).
Proof.
  intros Hi Hf Hb. pose proof (inv_iter _ _ _ _ _ Hi). apply wp_bind, wp_jump; [lia|]. wps.
  rewrite setIter_setIter, setIter_self. destruct atom as [n|]; [|right; done].
  split; [done|]. by split_and!; [lia| |].
Qed.

Lemma parseBraces_spec atom s :
  Inv 0 (optList atom) s -> byteAt (iter s) = Some (chr "{") ->
  wp (parseBraces ref flag atom (is_ flag BMP) (iter s)) (quantOut atom s) (setIter (iter s + 1) s).
Proof.
  intros Hi Hb. pose proof (Inv_at _ _ _ _ _ Hi) as [Hir He]. apply byteAt_range in Hb as Hbr.
  unfold parseBraces. cbv zeta.
  assert (forall i, iter s <= i <= len ->
    wp (if is_ flag BMP then jump ref (iter s);; mret atom
        else t ← getTokenFrom (iter s); s ← getStrRefFrom ref (iter s);
             reportError t (quoted (lit "unclosed quantifier: ") s);; mret None)
      (quantOut atom s) (setIter i s)) as Hun.
  { intros i ?. destruct (is_ flag BMP) eqn:Hf; [by apply giveUp_spec|]. wps.
    eapply report_from; [done..|lia|lia|]. intros s' He'. wps. left. by apply (Inv_err _ _ _ _ _ _ Hi He'). }
  assert (forall i s', iter s <= i <= len -> escapeFails ref (is_ flag BMP) (setIter i s) s' ->
    wp (if is_ flag BMP then jump ref (iter s);; mret atom else mret None) (quantOut atom s) s') as Hdig.
  { intros i s' ? Hf. destruct (is_ flag BMP) eqn:Hf'; cbn in Hf.
    - destruct Hf as (j & -> & _). rewrite setIter_setIter. by apply giveUp_spec.
    - wps. left. apply (Inv_err _ _ _ _ _ _ Hi). by eapply ErrAt_setIter. }
  apply wp_bind. eapply wp_mono; [apply parseQuantifierDigits_spec; [split|]; st; [lia|done|lia]|].
  st. intros [min|] s' Hr; [|by eapply Hdig; [|exact Hr]; lia].
  destruct Hr as (i & -> & Hi' & Hmin & Hseg). rewrite setIter_setIter. wps.
  destruct (Z.eqb_spec i len); [apply Hun; lia|].
  destruct (byteAt_Some ref i) as [b Hbi]; [lia|]. apply wp_bind, (wp_deref _ b); [done|].
  assert (plainSegment (iter s) i) as Hseg0.
  { eapply segment_app; [by apply (segment_one _ _ _ (chr "{"))|done]. }
  set (rest := fun max : option Z => match max with
     | Some max => _ | None => if is_ flag BMP then jump ref (iter s);; mret atom else mret None end).
  assert (forall max j, i <= j <= len -> plainSegment (iter s) j -> 0 <= max ->
    max <= QUANTIFIER_MAX \/ max = UNLIMIT -> wp (rest (Some max)) (quantOut atom s) (setIter j s)) as Hfin.
  { intros max j Hj Hsj Hmax Hmax'. subst rest. cbn beta iota. wps.
    destruct (StringRef.startsWith _ _) eqn:Hs; cbn [negb].
    2: { wps. destruct (Z.eqb_spec j len); wps; [apply Hun; lia|].
         apply wp_advance; st; [lia|]. rewrite setIter_setIter. apply Hun. lia. }
    apply starts_len in Hs as Hl; [|lia]. change (zlen (lit "}")) with 1 in Hl.
    assert (byteAt j = Some (chr "}")) as Hbj by (eapply starts_first; [|exact Hs|done]; lia).
    apply wp_bind, wp_advance; st; [lia|]. rewrite setIter_setIter.
    apply wp_bind, greedy_spec; [lia|]. intros g j' Hj' Hsj'.
    assert (plainSegment (iter s) j') as Hall.
    { eapply segment_app; [exact Hsj|]. eapply segment_app; [by eapply segment_one|exact Hsj']. }
    destruct (Z.ltb_spec max min).
    - wps. eapply report_from; [done..|lia|lia|]. intros s' He'. wps. left.
      by apply (Inv_err _ _ _ _ _ _ Hi He').
    - apply repeatNode_spec; [done|lia..| |lia|lia|done]. intros l. apply Quiet_segment; [lia..|done]. }
  assert (rest None = (if is_ flag BMP then jump ref (iter s);; mret atom else mret None)) as Hnone by done.
  clearbody rest. apply wp_bind. destruct (Z.eqb_spec b (chr ",")) as [->|].
  - apply wp_bind, wp_advance; st; [lia|]. rewrite setIter_setIter. wps.
    assert (plainSegment (iter s) (i + 1)) as Hs1.
    { eapply segment_app; [exact Hseg0|]. by eapply segment_one. }
    destruct (StringRef.startsWith _ _).
    + wps. apply Hfin; [lia|done|unfold UNLIMIT, UINT32_MAX; lia|by right].
    + eapply wp_mono; [apply parseQuantifierDigits_spec; [split|]; st; [lia|done|lia]|].
      st. intros [max|] s' Hr.
      * destruct Hr as (j & -> & Hj & Hmax & Hsj). rewrite setIter_setIter.
        apply Hfin; [lia| |lia|by left; lia]. by eapply segment_app.
      * rewrite Hnone. eapply Hdig; [|exact Hr]. lia.
  - wps. apply Hfin; [lia|done|lia|left; lia].
Qed.

Lemma tryToParseQuantifier_spec atom s :
  Inv 0 (optList atom) s ->
  (atom = None -> exists b, byteAt (iter s) = Some b /\ b ∈ [chr "*"; chr "+"; chr "?"; chr "{"]) ->
  wp (tryToParseQuantifier ref flag atom (is_ flag BMP)) (quantOut atom s) s.
Proof.
  intros Hi Hn. pose proof (Inv_at _ _ _ _ _ Hi) as [Hir He]. unfold tryToParseQuantifier. wps.
  assert (forall p, atom = Some p -> quantOut atom s (Some p) s) as Hkeep.
  { intros p ->. split; [done|]. by split_and!; [lia| |]. }
  destruct (Z.eqb_spec (iter s) len).
  { destruct atom as [p|]; [|destruct Hn as (b & Hb%byteAt_range & _); [done|lia]].
    apply wp_bind, (wp_expect _ p); [done|]. wps. by apply Hkeep. }
  wps. destruct (byteAt_Some ref (iter s)) as [b Hb]; [lia|]. apply (wp_deref _ b); [done|].
  assert (forall min max, 0 <= min <= QUANTIFIER_MAX -> min <= max ->
    max <= QUANTIFIER_MAX \/ max = UNLIMIT -> plain b = true -> 
    wp (advance ref 1;; greedy ← parseGreedy ref; repeatNode ref flag atom (iter s) min max greedy)
      (quantOut atom s) s) as Hsimple.
  { intros min max Hmin Hord Hmax Hp. apply wp_bind, wp_advance; [lia|].
    apply wp_bind, greedy_spec; [lia|]. intros g j Hj Hsj.
    apply repeatNode_spec; [done|lia..| |done|done|done].
    intros l. apply Quiet_segment; [lia..|]. eapply segment_app; [by eapply segment_one|done]. }
  assert (0 <= 1 <= QUANTIFIER_MAX /\ 0 <= 0 <= QUANTIFIER_MAX /\ 0 <= UNLIMIT /\ 1 <= UNLIMIT /\ 1 <= QUANTIFIER_MAX) as (? & ? & ? & ? & ?).
  { unfold QUANTIFIER_MAX, UNLIMIT, UINT16_MAX, UINT32_MAX. lia. }
  destruct (Z.eqb_spec b (chr "?")) as [->|]; [apply Hsimple; [done|lia|by left|done]|].
  destruct (Z.eqb_spec b (chr "*")) as [->|]; [apply Hsimple; [done|done|by right|done]|].
  destruct (Z.eqb_spec b (chr "+")) as [->|]; [apply Hsimple; [done|done|by right|done]|].
  destruct (Z.eqb_spec b (chr "{")) as [->|].
  { apply wp_bind, wp_advance; [lia|]. by apply parseBraces_spec. }
  destruct atom as [p|].
  - apply wp_bind, (wp_expect _ p); [done|]. wps. by apply Hkeep.
  - destruct Hn as (b' & Hb' & Hin); [done|]. set_solver.
Qed.
End spec.
End RegexParserSpec.
