(* ===== verification/RegexGroupSpec.v ===== *)
(** The parser keeps its invariant, continued: the frames of groups, and what is
    appended to them. *)
From Stdlib Require Import Ascii.
From S2P Require Import Prelude NumUtil Unicode StringRef RegexNode RegexSyntax RegexParser RegexScan RegexParserInv RegexEscape RegexParserSpec.
Import NumUtil UnicodeUtil RegexNode RegexSyntax RegexParser RegexScan RegexParserInv RegexEscape RegexParserSpec.

Module RegexGroupSpec.

(** ** Building nodes *)

(** What a list of alternatives holds. *)
Definition altList {A} (f : Node -> list A) (l : list (option Node)) : list A :=
  concat (map (fun e => match e with Some p => f p | None => [] end) l).

Lemma altList_app {A} (f : Node -> list A) l k : altList f (l ++ k) = altList f l ++ altList f k.
Proof. unfold altList. by rewrite map_app, concat_app. Qed.

Lemma altList_one {A} (f : Node -> list A) e : altList f [e] = nodeList f e.
Proof. unfold altList. cbn. rewrite app_nil_r. by destruct e. Qed.

Section build.
Context (ref : bytes) (B : Z -> Prop) (N : bytes -> Prop) (Hlen : zlen ref <= UINT32_MAX).
Abbreviation wf := (wfn ref B N).
Abbreviation wfO := (wfOpen ref B N).
Abbreviation tokOk := (tokOk ref).

(** [n] is well-formed and holds what [o] and then [m] hold. *)
Definition joins (o : option Node) (m n : Node) : Prop :=
  groups n = nodeList groups o ++ groups m /\ loops n = nodeList loops o ++ loops m.

Lemma seqAppend_ok t l n : wf (SeqNode t l) -> wf n ->
  wf (seqAppend t l n) /\ joins (Some (SeqNode t l)) n (seqAppend t l n).
Proof.
  intros (Ht & Hl & Hw) Hn. unfold seqAppend. split.
  - split; [|split].
    + apply extendToken_ok; [done..|]. by eapply wfn_token.
    + rewrite length_app. cbn. lia.
    + apply All_app. by split.
  - split; cbn; rewrite map_app, concat_app; cbn; by rewrite app_nil_r.
Qed.

Lemma mkSeq_ok p n : wf p -> wf n -> wf (mkSeq p n) /\ joins (Some p) n (mkSeq p n).
Proof.
  intros Hp Hn. unfold mkSeq. split.
  - split; [|split].
    + repeat apply extendToken_ok; try done; by eapply wfn_token.
    + done.
    + by split; [|split].
  - split; cbn; by rewrite app_nil_r.
Qed.

(** The alternative [e] with [n] appended. *)
Lemma appendToLast_ok t l0 e n :
  tokOk t -> All (wfAlt ref B N) l0 -> (e = None \/ wfAlt ref B N e) -> wf n ->
  exists t' e', appendToLast t (l0 ++ [e]) n = Some (AltNode t' (l0 ++ [Some e'])) /\ tokOk t' /\
    wf e' /\ joins (Some (AltNode t (l0 ++ [e]))) n (AltNode t' (l0 ++ [Some e'])).
Proof.
  intros Ht Hl He Hn. unfold appendToLast. rewrite last_snoc. rewrite removelast_last.
  assert (tokOk (extendToken t (getToken n))) as Ht'.
  { apply extendToken_ok; [done..|]. by eapply wfn_token. }
  assert (forall e', joins e n e' ->
    joins (Some (AltNode t (l0 ++ [e]))) n (AltNode (extendToken t (getToken n)) (l0 ++ [Some e']))) as Hj.
  { intros e' [H1 H2]. split; cbn [groups loops nodeList];
      [change (altList groups (l0 ++ [Some e']) = altList groups (l0 ++ [e]) ++ groups n)
      |change (altList loops (l0 ++ [Some e']) = altList loops (l0 ++ [e]) ++ loops n)];
      rewrite !altList_app, !altList_one, <- app_assoc; f_equal; done. }
  destruct e as [p|].
  - destruct He as [?|Hp]; [done|]. cbn in Hp.
    assert (exists e', match p with SeqNode t' l' => seqAppend t' l' n | _ => mkSeq p n end = e' /\
      wf e' /\ joins (Some p) n e') as (e' & Ee & He' & Hje).
    { eexists. split; [done|]. destruct p; try by apply mkSeq_ok. by apply seqAppend_ok. }
    eexists _, e'. split; [|split; [exact Ht'|]; split; [done|by apply Hj]].
    cbn. by rewrite <- Ee; destruct p.
  - eexists _, n. split; [done|]. split; [exact Ht'|]. split; [done|]. by apply Hj.
Qed.

Lemma append_node o n : wfO o -> wf n ->
  exists n', match o with
    | None => Some n
    | Some (AltNode t l) => appendToLast t l n
    | Some (SeqNode t l) => Some (seqAppend t l n)
    | Some p => Some (mkSeq p n)
    end = Some n' /\ wfO (Some n') /\ joins o n n'.
Proof.
  intros Ho Hn.
  assert (forall n', wf n' -> wfO (Some n')) as Hopen.
  { intros n' Hn'. destruct n'; try done. destruct Hn' as (? & Hne & Hw). split; [done|].
    destruct (exists_last Hne) as (l0 & e & ->). exists l0, e.
    change (All (wfAlt ref B N) (l0 ++ [e])) in Hw. apply All_app in Hw as [? [? _]].
    split_and!; [done..|by right]. }
  destruct o as [p|].
  2: { exists n. split_and!; [done|by apply Hopen|done..]. }
  destruct p; try (eexists; split; [done|]; destruct (mkSeq_ok _ _ Ho Hn); split; [by apply Hopen|done]).
  - eexists. split; [done|]. destruct (seqAppend_ok _ _ _ Ho Hn). split; [by apply Hopen|done].
  - destruct Ho as (Ht & l0 & e & -> & Hl & He).
    destruct (appendToLast_ok _ _ _ _ Ht Hl He Hn) as (t' & e' & E & Ht' & He' & Hj).
    eexists. split; [exact E|]. split; [|done]. split; [done|]. exists l0, (Some e').
    split_and!; [done..|]. by right.
Qed.

Lemma closeBody_ok o p : wfO o -> 0 <= p <= zlen ref ->
  exists n, closeBody o p = Some n /\ wf n /\
    groups n = nodeList groups o /\ loops n = nodeList loops o.
Proof.
  intros Ho Hp. assert (wf (EmptyNode {| pos := p; size := 0 |})) as He by (cbn; split_and!; cbn; lia).
  destruct o as [n|]; [|by eexists].
  destruct n; try by eexists. destruct Ho as (Ht & l0 & e & -> & Hl & Hw). cbn [closeBody].
  rewrite last_snoc. destruct e as [e|].
  - eexists. split; [done|]. split; [|done]. split; [done|]. split; [by destruct l0|].
    change (All (wfAlt ref B N) (l0 ++ [Some e])). apply All_app. split; [done|]. cbn.
    destruct Hw as [?|?]; [done|done].
  - destruct (appendToLast_ok _ _ _ _ Ht Hl Hw He) as (t' & e' & E & Ht' & He' & [Hg Hj]).
    eexists. split; [exact E|]. split; [|by rewrite Hg, Hj, !app_nil_r].
    split; [done|]. split; [by destruct l0|]. change (All (wfAlt ref B N) (l0 ++ [Some e'])).
    apply All_app. by split.
Qed.
End build.

Section spec.
Context `{UcpLaws} (ref : bytes) (flag : Flag) (extension : bool).
Context (Hbytes : Forall is_byte ref) (Hlen : zlen ref <= UINT32_MAX).
Abbreviation byteAt := (byteAt ref).
Abbreviation restAt := (restAt ref).
Abbreviation tokOk := (tokOk ref).
Abbreviation Quiet := (Quiet ref flag).
Abbreviation segment := (segment ref).
Abbreviation len := (zlen ref).
Abbreviation Inv := (Inv ref flag).
Abbreviation ErrAt := (ErrAt ref).
Abbreviation Failed := (Failed ref).
Abbreviation wfAt s := (wfn ref (refIndex s) (refName s)).
Abbreviation wfOpenAt s := (wfOpen ref (refIndex s) (refName s)).
Abbreviation plainSegment := (segment (fun b => plain b = true)).

Lemma groupStack_cons P f r : groupStack ref P (f :: r) ->
  P (node f) /\ (r = [] -> type f = FRAME_NONE) /\ (r <> [] -> groupFrameOk ref f /\ groupStack ref P r).
Proof. intros [Hp Hr]. split; [done|]. destruct r; split; intros; done. Qed.

Lemma groupStack_top P f f' r :
  groupStack ref P (f :: r) -> P (node f') -> (groupFrameOk ref f -> groupFrameOk ref f') ->
  type f' = type f -> groupStack ref P (f' :: r).
Proof.
  intros [_ Hr] Hp Hg Ht. split; [done|]. destruct r; [by rewrite Ht|]. destruct Hr. split; [auto|done].
Qed.

Lemma frames_top pend s : Inv 0 pend s -> exists f r, frames s = f :: r.
Proof. intros Hi. pose proof (inv_stack _ _ _ _ _ Hi) as Hs. cbn in Hs. destruct (frames s); [done|eauto]. Qed.

(** Replacing the last frame by one of the same kind. *)
Lemma Inv_setTop pend pend' s f f' r :
  Inv 0 pend s -> frames s = f :: r -> type f' = type f ->
  (groupFrameOk ref f -> groupFrameOk ref f') -> wfOpenAt s (node f') -> Forall (wfAt s) pend' ->
  frameGroups f' ++ concat (map groups pend') = frameGroups f ++ concat (map groups pend) ->
  nodeList loops (node f') ++ concat (map loops pend') = nodeList loops (node f) ++ concat (map loops pend) ->
  Inv 0 pend' (setStack (f' :: r) (directions s) s).
Proof.
  intros Hi Hf Ht Hg Hn Hp E1 E2. destruct Hi. rewrite Hf in *. constructor; st; try done.
  - by eapply groupStack_top.
  - cbn. rewrite Ht. exact inv_dirs0.
  - cbn [stackGroups] in *. by rewrite <- app_assoc, E1, app_assoc.
  - cbn [stackLoops] in *. by rewrite <- app_assoc, E2, app_assoc.
Qed.

Lemma append_spec s n :
  Inv 0 [n] s -> wp (append n) (fun _ s' => Inv 0 [] s' /\ iter s' = iter s) s.
Proof.
  intros Hi. destruct (frames_top _ _ Hi) as (f & r & Hf).
  unfold append. apply wp_bind. unfold topFrame. wps. apply (wp_expect _ f); [by rewrite Hf|].
  pose proof (inv_stack _ _ _ _ _ Hi) as Hs. rewrite Hf in Hs. apply groupStack_cons in Hs as (Ho & _).
  pose proof (inv_pend _ _ _ _ _ Hi) as Hp. rewrite Forall_singleton in Hp.
  destruct (append_node ref _ _ Hlen _ _ Ho Hp) as (n' & E & Hn' & [Hg Hl]).
  apply wp_bind, (wp_expect _ n'); [done|]. unfold setTop. wps. rewrite Hf. wps. split; [|done].
  eapply Inv_setTop; [exact Hi|exact Hf|done|done|done|constructor|..].
  - unfold frameGroups. cbn. rewrite !app_nil_r, Hg. by rewrite app_assoc.
  - cbn. rewrite !app_nil_r. done.
Qed.

(** *** Leaving a group *)

Lemma exitGroup_spec s :
  Inv 0 [] s -> byteAt (iter s) = Some (chr ")") ->
  wp (exitGroup ref) (fun o s' => match o with
     | Some n => Inv 0 [n] s' /\ iter s' = iter s + 1
     | None => Failed s'
     end) s.
Proof.
  intros Hi Hb. pose proof (Inv_at _ _ _ _ _ Hi) as [Hir He]. apply byteAt_range in Hb as Hbr.
  unfold exitGroup. wps. apply wp_assert; [by rewrite (restAt_byte _ _ _ Hb)|]. wps.
  destruct (frames_top _ _ Hi) as (f & r & Hf). rewrite Hf.
  pose proof (inv_stack _ _ _ _ _ Hi) as Hs. rewrite Hf in Hs.
  destruct r as [|g r].
  { change (zlen [f] =? 1) with true. cbv iota. wps. apply wp_reportError; [done|]. wps.
    apply (Inv_err ref flag 0 [] s); [done|]. eexists (iter s), _. rewrite setIter_self. split; [done|].
    apply tok_cur; [done|lia..]. }
  assert (zlen (f :: g :: r) =? 1 = false) as ->.
  { rewrite !zlen_cons. pose proof (zlen_nonneg r). lia. }
  apply groupStack_cons in Hs as (Ho & _ & Hs). destruct Hs as [Hgf Hs]; [done|].
  apply groupStack_cons in Hs as Hs'. destruct Hs' as (Hog & Hgt & Hgs).
  wps. apply wp_advance; [lia|]. apply wp_bind. unfold topFrame. wps. apply (wp_expect _ f); [by rewrite Hf|]. wps.
  replace (iter s + 1 - iter s) with 1 by lia. rewrite (u32_len ref Hlen) by lia. change (u32 1) with 1.
  cbn [pos].
  destruct (closeBody_ok ref _ _ Hlen _ (iter s) Ho ltac:(lia)) as (body & E & Hbody & Hbg & Hbl).
  eapply wp_expect; [exact E|].
  set (tok := {| pos := iter s; size := 1 |}).
  assert (tokOk tok) as Htok by (split_and!; cbn; lia).
  destruct Hgf as [Hst Hty].
  set (merged := mergedExistingGroupNames (clearAndMergeGroupNames f)).
  (* what is left once the node of the group is built *)
  assert (forall n ds, wfAt s n -> frameGroups f = groups n -> nodeList loops (node f) = loops n ->
    ds = stackDirections (g :: r) ->
    wp (popFrame;; below ← topFrame;
        setTop (withNames below (existingGroupNames below ∪ merged) (mergedExistingGroupNames below));;
        mret (Some n))
      (fun o s' => match o with
         | Some n => Inv 0 [n] s' /\ iter s' = iter s + 1
         | None => Failed s' end)
      (setStack (f :: g :: r) ds (setIter (iter s + 1) s))) as Hpop.
  { intros n ds Hn Hg Hl Hds. apply wp_bind. unfold popFrame. wps. apply wp_bind. unfold topFrame. wps.
    apply (wp_expect _ g); [done|]. apply wp_bind. unfold setTop. wps. split; [|done].
    assert (Quiet (iter s) 0 (iter s + 1) 0) as Hq by (eapply Quiet_plain; [exact Hb|done]).
    destruct Hi. rewrite Hf in *. constructor; st; try done.
    - lia.
    - intros Hr. destruct (inv_live0 Hr) as [named Hsc]. exists named. by apply Hq.
    - rewrite !zlen_cons in *. lia.
    - by constructor.
    - cbn [stackGroups map concat] in *. rewrite app_nil_r in *. rewrite Hg in inv_groups0. exact inv_groups0.
    - cbn [stackLoops map concat] in *. rewrite app_nil_r in *. rewrite Hl in inv_loops0. exact inv_loops0. }
  assert (setStack (f :: g :: r) (directions s) (setIter (iter s + 1) s) = setIter (iter s + 1) s) as Hsame.
  { rewrite <- Hf. by destruct s. }
  pose proof (inv_dirs _ _ _ _ _ Hi) as Hd. rewrite Hf in Hd. cbn [stackDirections] in Hd.
  apply wp_bind. destruct (type f) as [|gt|lt] eqn:Htf; [done| |].
  - wps. rewrite <- Hsame. apply Hpop; [| | |exact Hd].
    + split; [by apply extendToken_ok|by split].
    + unfold frameGroups. rewrite Htf. cbn. by rewrite Hbg.
    + done.
  - apply wp_bind. unfold popDirection. wps. rewrite Hf, Hd. wps.
    apply (Hpop (mkLookAround (start f) lt body tok)); [| | |done].
    + split; [by apply extendToken_ok|done].
    + unfold frameGroups. rewrite Htf. cbn. by rewrite Hbg.
    + done.
Qed.

(** *** Entering a group *)

(** The letters of the modifiers. *)
Lemma parseFlagLoop_modifiers fuel : forall rest m mods,
  Forall is_byte rest -> (length rest <= fuel)%nat -> 0 <= mods < 8 ->
  exists r, parseFlagLoop fuel rest m mods BMP true = Some r /\
    match r with
    | inl _ => True
    | inr f => 0 <= modifiers f < 8 /\ Forall (fun b => plain b = true) rest
    end.
Proof.
  induction fuel as [|fuel IH]; intros rest m mods Hb Hl Hm.
  { destruct rest; [|cbn in Hl; lia]. eexists. split; [done|]. by split. }
  destruct rest as [|b0 rest0]; [eexists; split; [done|]; by split|].
  set (rest := b0 :: rest0) in *. cbn [parseFlagLoop]. change (b0 :: rest0) with rest.
  destruct (wtf8ToCodePoint rest) as [n c] eqn:Hd. unfold wtf8ToCodePoint, utf8ToCodePoint in Hd.
  destruct (Z.eqb_spec n 0) as [|Hn]; [by eexists|].
  assert (utf8ValidateChar rest true = n) as Hv by congruence.
  destruct (validate_cases rest true n Hb Hv Hn) as (Hn4 & Hln & Hc & _ & He).
  assert (payload n rest = c) as Hpc by congruence. rewrite Hpc in *.
  assert (forall f, fst <$> List.find (fun e => c =? snd e) modifierTable = Some f ->
    0 <= f < 8 /\ (c = 105 \/ c = 109 \/ c = 115)) as Hmod.
  { intros f. cbn [modifierTable List.find fst snd]. repeat case_on; zbool; intros E;
      cbn in E; simplify_eq; unfold IGNORE_CASE, MULTILINE, DOT_ALL; lia. }
  unfold modifierOf. destruct (fst <$> _) as [f|] eqn:Ef.
  2: { destruct (c =? chr "u"); [by eexists|]. destruct (c =? chr "v"); by eexists. }
  destruct (Hmod f eq_refl) as [Hf Hcm]. destruct (hasFlag mods f); [by eexists|].
  assert (0 <= setFlag mods f < 8) as Hset.
  { unfold setFlag. split; [apply Z.lor_nonneg; lia|]. change 8 with (2 ^ 3).
    destruct (Z.eq_dec (Z.lor mods f) 0) as [->|]; [done|].
    assert (0 <= Z.lor mods f) by (apply Z.lor_nonneg; lia).
    apply Z.log2_lt_pow2; [lia|]. rewrite Z.log2_lor by lia.
    assert (forall x, 0 <= x < 8 -> Z.log2 x < 3) as Hlog.
    { intros x Hx. destruct (Z.eq_dec x 0) as [->|]; [done|]. apply Z.log2_lt_pow2; [lia|]. change (2 ^ 3) with 8. lia. }
    pose proof (Hlog mods Hm). pose proof (Hlog f Hf). lia. }
  destruct (IH (drop (Z.to_nat n) rest) m (setFlag mods f)) as (r & Er & Hr); [by apply Forall_drop| |done|].
  { rewrite length_drop. cbn in Hl. cbn. lia. }
  exists r. split; [done|]. destruct r as [|fl]; [done|]. destruct Hr as [? Hpl]. split; [done|].
  rewrite <- (take_drop (Z.to_nat n) rest). apply Forall_app. split; [|done].
  rewrite <- He. unfold encode. destruct (Z.ltb_spec c 128); [|lia].
  constructor; [|constructor]. by destruct Hcm as [->|[->| ->]].
Qed.

Lemma parseModifiers_spec end_ s :
  atPos ref s ->
  wp (parseModifiers ref end_) (fun r s' => match r with
     | Some m => modifierRange m /\ exists i, s' = setIter i s /\ iter s <= i <= len /\ plainSegment (iter s) i
     | None => ErrAt s s'
     end) s.
Proof.
  intros [Hi He]. unfold parseModifiers. wps. eapply wp_mono; [by apply skip_spec|].
  intros _ s' (i & -> & Hi' & _ & _). wps.
  set (value := StringRef.slice ref (iter s) i).
  assert (Forall is_byte value) as Hv.
  { unfold value, StringRef.slice, StringRef.substr. by apply Forall_take, Forall_drop. }
  destruct (parseFlagLoop_modifiers (length value) value None NONE Hv (le_n _) ltac:(unfold NONE; lia))
    as (r & Er & Hr).
  unfold parseModifier, parseFlag. eapply wp_expect.
  { cbn. rewrite Er. reflexivity. }
  destruct r as [err|f]; wps.
  - eapply wp_mono; [by eapply leaf_error; [done|done|done|lia|lia]|]. done.
  - destruct Hr as [Hm Hpl]. split; [exact Hm|]. exists i. split_and!; [done|lia..|].
    apply slice_segment; [lia..|done].
Qed.

Lemma disjoint_modifiers set unset :
  modifierRange set -> modifierRange unset ->
  List.find (fun e => hasFlag set (fst e) && hasFlag unset (fst e)) modifierTable = None ->
  Z.land set unset = 0.
Proof.
  unfold modifierRange. intros Hs Hu.
  assert (set ∈ map Z.of_nat (seq 0 8)) as Hs'.
  { apply list_elem_of_In, in_map_iff. exists (Z.to_nat set). split; [lia|]. apply in_seq. lia. }
  assert (unset ∈ map Z.of_nat (seq 0 8)) as Hu'.
  { apply list_elem_of_In, in_map_iff. exists (Z.to_nat unset). split; [lia|]. apply in_seq. lia. }
  revert set unset Hs' Hu' Hs Hu.
  assert (forallb (fun set => forallb (fun unset =>
    match List.find (fun e => hasFlag set (fst e) && hasFlag unset (fst e)) modifierTable with
    | None => Z.land set unset =? 0 | _ => true end) (map Z.of_nat (seq 0 8))) (map Z.of_nat (seq 0 8)) = true)
    as Hall by (vm_compute; reflexivity).
  intros set unset Hs Hu _ _ Hf. rewrite forallb_forall in Hall.
  apply list_elem_of_In in Hs, Hu. specialize (Hall _ Hs). rewrite forallb_forall in Hall.
  specialize (Hall _ Hu). rewrite Hf in Hall. lia.
Qed.

(** Two frames that differ in their names only. *)
Definition sameFrame (f g : Frame) : Prop :=
  type f = type g /\ node f = node g /\ start f = start g /\ groupIndex f = groupIndex g /\
  setModifiers f = setModifiers g /\ unsetModifiers f = unsetModifiers g.

Lemma Inv_enter s s' f g g' r :
  Inv 0 [] s -> frames s = g :: r -> frames s' = f :: g' :: r -> sameFrame g g' ->
  zlen (frames s) <> STACK_DEPTH_LIMIT ->
  directions s' = stackDirections (f :: frames s) -> node f = None -> groupFrameOk ref f ->
  error s' = None -> 0 <= iter s' <= len ->
  captureGroupResolved s' = captureGroupResolved s ->
  prefetchedCaptureGroupCount s' = prefetchedCaptureGroupCount s ->
  prefetchedNamedCaptureGroupCount s' = prefetchedNamedCaptureGroupCount s ->
  namedRefNodes s' = namedRefNodes s -> loopCount_ s' = loopCount_ s ->
  captureGroupCount_ s' <= CAPTURE_GROUP_INDEX_MAX ->
  (frameGroups f = [] /\ captureGroupCount_ s' = captureGroupCount_ s) \/
  (frameGroups f = [captureGroupCount_ s + 1] /\ captureGroupCount_ s' = captureGroupCount_ s + 1) ->
  namesOk (namedCaptureGroups_ s') ->
  map_Forall (fun _ l => Forall (fun i => 0 < i <= captureGroupCount_ s') l) (namedCaptureGroups_ s') ->
  Z.of_nat (base.size (namedCaptureGroups_ s')) <= captureGroupCount_ s' ->
  (captureGroupResolved s = true -> exists named,
    scans ref flag (iter s') 0 (captureGroupCount_ s') named
      (prefetchedCaptureGroupCount s, prefetchedNamedCaptureGroupCount s)) ->
  Inv 0 [] s'.
Proof.
  intros Hi Hf Hf' (Hg1 & Hg2 & Hg3 & Hg4 & Hg5 & Hg6) Hd Hds Hn Hgf He Hit Hr Hp Hpn Hnr Hlc Hcm Hc Hno Hnd Hsz Hlive.
  destruct Hi. rewrite Hf in *.
  assert (refIndex s' = refIndex s) as HB by (unfold refIndex; by rewrite Hr, Hp).
  assert (refName s' = refName s) as HN by (unfold refName; by rewrite Hnr).
  assert (frameGroups g' = frameGroups g) as Hfg by (unfold frameGroups; by rewrite Hg1, Hg2, Hg4).
  constructor; rewrite ?Hf', ?HB, ?HN, ?Hr, ?Hp, ?Hpn, ?Hnr, ?Hlc; try done.
  - destruct Hc as [[_ E]|[_ E]]; lia.
  - rewrite !zlen_cons in *. lia.
  - split; [by rewrite Hn|]. split; [done|]. eapply groupStack_top; [exact inv_stack0| | |done].
    + rewrite <- Hg2. by apply groupStack_cons in inv_stack0 as [? _].
    + unfold groupFrameOk. by rewrite Hg1, Hg3, Hg4, Hg5, Hg6.
  - rewrite Hds. cbn [stackDirections]. by rewrite Hg1.
  - cbn [stackGroups map concat] in *. rewrite app_nil_r in *. rewrite Hfg, inv_groups0.
    destruct Hc as [[-> ->]|[-> ->]]; [by rewrite app_nil_r|]. rewrite upto_snoc by lia. do 2 f_equal. lia.
  - cbn [stackLoops map concat] in *. rewrite app_nil_r in *. rewrite <- Hg2, Hn. cbn. by rewrite app_nil_r.
Qed.

Lemma sameFrame_refl f : sameFrame f f.
Proof. done. Qed.

(** What entering a group leaves. *)
Definition enterOut (s : State) (ok : bool) (s' : State) : Prop :=
  if ok then Inv 0 [] s' /\ iter s < iter s' else Failed s'.

Section enter.
Context (s : State) (Hi : Inv 0 [] s) (Hdepth : zlen (frames s) <> STACK_DEPTH_LIMIT).

(** A frame that opens no capture group, with the cursor at [i]. *)
Lemma enter_quiet f i d :
  node f = None -> groupFrameOk ref f -> frameGroups f = [] -> d = stackDirections (f :: frames s) ->
  iter s < i <= len -> Quiet (iter s) 0 i 0 ->
  enterOut s true (setStack (f :: frames s) d (setIter i s)).
Proof.
  intros Hn Hg Hfg Hd Hr Hq. split; [|st; lia]. destruct (frames_top _ _ Hi) as (g & r & Hf).
  pose proof Hi as Hi'. destruct Hi'. eapply (Inv_enter s _ f g g r); try done; st.
  - by rewrite Hf.
  - lia.
  - lia.
  - by left.
  - intros Hres. destruct (inv_live0 Hres) as [named Hs]. exists named. by apply Hq.
Qed.

Lemma enter_error b msg i : 0 <= b <= i -> iter s <= i <= len ->
  wp (reportError {| pos := u32 b; size := u32 (i - b) |} msg) (fun _ s' => Failed s') (setIter i s).
Proof.
  intros. pose proof (Inv_at _ _ _ _ _ Hi) as [? ?].
  eapply report_from; [done..|lia|]. intros s' He. by apply (Inv_err _ _ _ _ _ _ Hi He).
Qed.

Lemma invalidGroup_spec i : iter s <= i <= len ->
  wp (invalidGroup ref (iter s)) (enterOut s) (setIter i s).
Proof.
  intros. pose proof (Inv_at _ _ _ _ _ Hi) as [? ?]. unfold invalidGroup. wps.
  eapply wp_mono; [apply enter_error; lia|]. intros [] s' ?. by wps.
Qed.

Lemma group_tok i : iter s <= i <= len -> tokOk {| pos := u32 (iter s); size := u32 (i - iter s) |}.
Proof. intros. pose proof (Inv_at _ _ _ _ _ Hi) as [? ?]. apply tok_from; lia. Qed.

Lemma enterLookAround_spec i n t :
  iter s <= i -> iter s < i + n <= len -> Quiet (iter s) 0 (i + n) 0 ->
  wp (enterLookAround ref (iter s) n t) (enterOut s) (setIter i s).
Proof.
  intros Hr Hn Hq. pose proof (Inv_at _ _ _ _ _ Hi) as [? ?].
  unfold enterLookAround. apply wp_bind, wp_advance; st; [lia|]. rewrite setIter_setIter. wps.
  unfold pushFrame. wps. unfold pushDirection. wps.
  apply (enter_quiet (lookAroundFrame _ t) (i + n) (isLookAhead t :: directions s)); try done.
  - split; [apply group_tok; lia|done].
  - cbn. by rewrite (inv_dirs _ _ _ _ _ Hi).
Qed.

(** The capture group that gets the next index. *)
Lemma enterCapture_spec s1 g g' r i gm :
  frames s = g :: r -> frames s1 = g' :: r -> sameFrame g g' ->
  s1 = setStack (g' :: r) (directions s) (setGroups (captureGroupCount_ s + 1) gm (setIter i s)) ->
  iter s < i <= len -> captureGroupCount_ s < CAPTURE_GROUP_INDEX_MAX ->
  namesOk gm ->
  map_Forall (fun _ l => Forall (fun x => 0 < x <= captureGroupCount_ s + 1) l) gm ->
  Z.of_nat (base.size gm) <= captureGroupCount_ s + 1 ->
  (forall c n rr, scans ref flag (iter s) 0 c n rr -> exists n', scans ref flag i 0 (u32 (c + 1)) n' rr) ->
  wp (enterCapture (iter s) (captureGroupCount_ s + 1)) (enterOut s) s1.
Proof.
  intros Hf Hf1 Hsf Hs1 Hr Hc Hn Hnd Hsz Hsc. pose proof Hi as Hi'. destruct Hi'.
  unfold enterCapture. rewrite (proj2 (Z.eqb_neq _ 0)) by lia. wps. unfold pushFrame. wps.
  assert (iter s1 = i) as Hi1 by by rewrite Hs1. rewrite Hi1, Hf1.
  split; [|rewrite Hs1; st; lia]. subst s1.
  eapply (Inv_enter s _ (groupFrame _ CAPTURE (captureGroupCount_ s + 1)) g g' r); try done; st; try lia.
  - split; [apply group_tok; lia|]. cbn. unfold wfGroup, modifierRange, NONE, indexRange. lia.
  - by right.
  - intros Hres. destruct (inv_live0 Hres) as [named Hs]. destruct (Hsc _ _ _ Hs) as [n' Hs'].
    exists n'. assert (u32 (captureGroupCount_ s + 1) = captureGroupCount_ s + 1) as Eu.
    { apply wrap_small. unfold in_unsigned, CAPTURE_GROUP_INDEX_MAX, UINT16_MAX in *. lia. }
    by rewrite <- Eu.
Qed.

Lemma newCaptureGroup_spec i (Q : Z -> State -> Prop) :
  iter s <= i <= len ->
  (captureGroupCount_ s < CAPTURE_GROUP_INDEX_MAX ->
     Q (captureGroupCount_ s + 1) (setGroups (captureGroupCount_ s + 1) (namedCaptureGroups_ s) (setIter i s))) ->
  (forall s', Failed s' -> Q 0 s') ->
  wp (newCaptureGroup (iter s)) Q (setIter i s).
Proof.
  intros Hr HQ HF. pose proof (inv_count _ _ _ _ _ Hi) as Hc. pose proof (Inv_at _ _ _ _ _ Hi) as [? ?].
  unfold newCaptureGroup. wps. destruct (Z.eqb_spec (captureGroupCount_ s) CAPTURE_GROUP_INDEX_MAX).
  - wps. eapply wp_mono; [apply enter_error; lia|]. intros [] s' ?. wps. by apply HF.
  - assert (u32 (captureGroupCount_ s + 1) = captureGroupCount_ s + 1) as ->.
    { apply wrap_small. unfold in_unsigned, CAPTURE_GROUP_INDEX_MAX, UINT16_MAX in *. lia. }
    wps. apply HQ. lia.
Qed.

Lemma failed_capture s' : Failed s' -> wp (enterCapture (iter s) 0) (enterOut s) s'.
Proof. intros. unfold enterCapture. cbn [Z.eqb]. by wps. Qed.

Lemma enterUnnamed_spec :
  byteAt (iter s) = Some (chr "(") -> StringRef.startsWith (restAt (iter s + 1)) (lit "?") = false ->
  wp (index ← newCaptureGroup (iter s); enterCapture (iter s) index) (enterOut s) (setIter (iter s + 1) s).
Proof.
  intros Hb Hq. apply byteAt_range in Hb as Hbr. destruct (frames_top _ _ Hi) as (g & r & Hf).
  apply wp_bind, newCaptureGroup_spec; [lia| |apply failed_capture].
  intros Hc. pose proof (inv_names _ _ _ _ _ Hi). pose proof (inv_named _ _ _ _ _ Hi) as Hnd.
  eapply (enterCapture_spec _ g g r (iter s + 1) (namedCaptureGroups_ s)); try done; [by rewrite <- Hf; destruct s|lia| | |].
  - eapply map_Forall_impl; [exact Hnd|]. intros ? l Hl. eapply Forall_impl; [exact Hl|]. cbn. lia.
  - pose proof (inv_size _ _ _ _ _ Hi). lia.
  - intros c n rr Hs. exists n. by apply scans_capture.
Qed.

Lemma enterNamed_spec j name :
  iter s < j <= len ->
  (forall c n rr, scans ref flag (iter s) 0 c n rr -> exists n', scans ref flag j 0 (u32 (c + 1)) n' rr) ->
  wp (index ← newNamedCaptureGroup (iter s) name; enterCapture (iter s) index) (enterOut s) (setIter j s).
Proof.
  intros Hj Hsc. destruct (frames_top _ _ Hi) as (g & r & Hf). pose proof (Inv_at _ _ _ _ _ Hi) as [Hir He].
  unfold newNamedCaptureGroup. wps.
  destruct (existsb _ _).
  { wps. eapply wp_mono; [apply enter_error; lia|]. intros [] s' Hs'. wps. by apply failed_capture. }
  wps. apply newCaptureGroup_spec; [lia| |].
  2: { intros s' Hs'. cbn [Z.eqb]. wps. by apply failed_capture. }
  intros Hc. pose proof (inv_count _ _ _ _ _ Hi). rewrite (proj2 (Z.eqb_neq _ 0)) by lia.
  wps. unfold topFrame. wps. apply (wp_expect _ g); [by rewrite Hf|]. wps. unfold setTop. wps.
  rewrite Hf. wps.
  eapply (enterCapture_spec _ g _ r j
    (<[name := default [] (namedCaptureGroups_ s !! name) ++ [captureGroupCount_ s + 1]]> (namedCaptureGroups_ s)));
    [done|st; reflexivity|done|reflexivity|done|done| | | |done].
  - apply map_Forall_insert_2; [|apply (inv_names _ _ _ _ _ Hi)]. by intros [_ ?]%app_eq_nil.
  - assert (map_Forall (fun _ l => Forall (fun x => 0 < x <= captureGroupCount_ s + 1) l) (namedCaptureGroups_ s)) as Hm.
    { eapply map_Forall_impl; [apply (inv_named _ _ _ _ _ Hi)|]. intros ? l Hl.
      eapply Forall_impl; [exact Hl|]. cbn. lia. }
    apply map_Forall_insert_2; [|done]. apply Forall_app. split; [|constructor; [lia|done]].
    destruct (namedCaptureGroups_ s !! name) as [l|] eqn:El; [|done]. by apply (Hm name l).
  - pose proof (inv_size _ _ _ _ _ Hi). rewrite map_size_insert. destruct (namedCaptureGroups_ s !! name); cbn [id]; lia.
Qed.

Lemma enterModifiers_spec i :
  iter s < i <= len -> Quiet (iter s) 0 i 0 ->
  wp (enterModifiers ref (iter s)) (enterOut s) (setIter i s).
Proof.
  intros Hr Hq. pose proof (Inv_at _ _ _ _ _ Hi) as [Hir He].
  assert (forall j s', ErrAt (setIter j s) s' -> Failed s') as HF.
  { intros j s' Hs'. eapply Inv_err; [exact Hi|]. by eapply ErrAt_setIter. }
  unfold enterModifiers. apply wp_bind. eapply wp_mono; [apply parseModifiers_spec; split; st; [lia|done]|].
  intros [set|] s' Hs'; [|wps; by eapply HF]. destruct Hs' as (Hset & i1 & -> & Hi1 & Hp1). st.
  rewrite setIter_setIter.
  assert (Quiet (iter s) 0 i1 0) as Hq1.
  { eapply Quiet_trans; [exact Hq|]. apply Quiet_segment; [lia..|done]. }
  (* after the optional modifiers to unset *)
  assert (forall unset i2, modifierRange unset -> i <= i2 <= len -> Quiet (iter s) 0 i2 0 ->
    wp (closed ← startsWith ref (lit ":");
        if (set =? unset) && (set =? NONE) then invalidGroup ref (iter s)
        else if negb closed then invalidGroup ref (iter s)
        else
          advance ref 1;;
          t ← getTokenFrom (iter s);
          match List.find (fun e => hasFlag set (fst e) && hasFlag unset (fst e)) modifierTable with
          | Some (_, c) =>
              reportError t (lit "repeated modifier in group: `" ++ [c] ++ lit "'");; mret false
          | None => pushFrame (modifierFrame t set unset);; mret true
          end) (enterOut s) (setIter i2 s)) as Htail.
  { intros unset i2 Hu Hi2 Hq2. wps. case_on; [apply invalidGroup_spec; lia|].
    destruct (StringRef.startsWith _ _) eqn:Hs; cbn [negb]; [|apply invalidGroup_spec; lia].
    assert (byteAt i2 = Some (chr ":")) as Hb by (eapply starts_first; [lia|exact Hs|done]).
    apply byteAt_range in Hb as Hbr. wps. apply wp_advance; st; [lia|]. wps.
    destruct (List.find _ _) as [[f c]|] eqn:Ef.
    - wps. eapply wp_mono; [apply enter_error; lia|]. intros [] s' ?. by wps.
    - unfold pushFrame. wps. st. apply (enter_quiet (modifierFrame _ set unset) (i2 + 1)); try done.
      + split; [apply group_tok; lia|]. split; [exact Hset|]. split; [exact Hu|]. split; [done|].
        by apply disjoint_modifiers.
      + cbn. apply (inv_dirs _ _ _ _ _ Hi).
      + lia.
      + eapply Quiet_trans; [exact Hq2|]. by eapply Quiet_plain. }
  wps. destruct (StringRef.startsWith _ _) eqn:Hs.
  2: { wps. apply Htail; [done|lia|done]. }
  assert (byteAt i1 = Some (chr "-")) as Hb by (eapply starts_first; [lia|exact Hs|done]).
  apply byteAt_range in Hb as Hbr. wps. apply wp_advance; st; [lia|]. rewrite setIter_setIter.
  eapply wp_mono; [apply parseModifiers_spec; split; st; [lia|done]|].
  intros [unset|] s' Hs'; [|wps; by eapply HF].
  destruct Hs' as (Hunset & i2 & -> & Hi2 & Hp2). st. rewrite setIter_setIter.
  apply Htail; [done|lia|]. eapply Quiet_trans; [exact Hq1|].
  eapply Quiet_trans; [by eapply Quiet_plain|]. apply Quiet_segment; [lia..|done].
Qed.
End enter.

Lemma enterGroup_spec s :
  Inv 0 [] s -> byteAt (iter s) = Some (chr "(") -> wp (enterGroup ref flag) (enterOut s) s.
Proof.
  intros Hi Hb. pose proof (Inv_at _ _ _ _ _ Hi) as [Hir He]. apply byteAt_range in Hb as Hbr.
  unfold enterGroup. wps. apply wp_assert; [by rewrite (restAt_byte _ _ _ Hb)|]. wps.
  apply wp_advance; [lia|]. wps. st.
  destruct (Z.eqb_spec (zlen (frames s)) STACK_DEPTH_LIMIT) as [|Hd].
  { wps. unfold reportOverflow. eapply wp_mono; [apply enter_error; [done|lia..]|]. intros [] s' ?. by wps. }
  destruct (StringRef.startsWith (restAt (iter s + 1)) (lit "?")) eqn:Hq; cbn [negb].
  2: { by apply enterUnnamed_spec. }
  assert (byteAt (iter s + 1) = Some (chr "?")) as Hb1 by (eapply starts_first; [lia|exact Hq|done]).
  apply byteAt_range in Hb1 as Hbr1.
  wps. apply wp_advance; st; [lia|]. rewrite setIter_setIter. replace (iter s + 1 + 1) with (iter s + 2) by lia.
  wps. st. case_on; [apply invalidGroup_spec; [done..|lia]|]. zbool.
  destruct (byteAt_Some ref (iter s + 2)) as [b Hb2]; [lia|].
  wps. apply (wp_deref _ b); [done|]. wps. st.
  pose proof (restAt_byte _ _ _ Hb1) as E1. replace (iter s + 1 + 1) with (iter s + 2) in E1 by lia.
  pose proof (restAt_byte _ _ _ Hb2) as E2. replace (iter s + 2 + 1) with (iter s + 3) in E2 by lia.
  assert (forall p, StringRef.startsWith (restAt (iter s + 1)) (chr "?" :: p) =
                    StringRef.startsWith (restAt (iter s + 2)) p) as Es by (intros p; by rewrite E1).
  assert (StringRef.startsWith (restAt (iter s + 2)) (lit "<") = (b =? chr "<")) as Elt.
  { rewrite E2. cbn. by rewrite andb_true_r. }
  (* the groups whose third character is not an angle bracket *)
  assert (b <> chr "<" -> Quiet (iter s) 0 (iter s + 2) 0) as Hquiet.
  { intros Hne. apply Quiet_noncapture; [done..|]. change (lit "?<") with (chr "?" :: lit "<").
    rewrite Es, Elt. lia. }
  assert (forall c, b = c -> plain c = true -> c <> chr "<" -> Quiet (iter s) 0 (iter s + 2 + 1) 0) as Hquiet3.
  { intros c -> Hc Hne. eapply Quiet_trans; [by apply Hquiet|]. by eapply Quiet_plain. }
  apply byteAt_range in Hb2 as Hbr2.
  case_on; zbool. { apply enterLookAround_spec; [done..|lia|lia|by eapply Hquiet3]. }
  case_on; zbool. { apply enterLookAround_spec; [done..|lia|lia|by eapply Hquiet3]. }
  case_on; zbool.
  { wps. apply wp_advance; st; [lia|]. wps. unfold pushFrame. wps. rewrite setIter_setIter.
    apply (enter_quiet s Hi Hd (groupFrame _ NON_CAPTURE 0) (iter s + 2 + 1)); try done.
    - split; [apply group_tok; [done|lia]|]. cbn. unfold wfGroup, modifierRange, NONE. lia.
    - cbn. apply (inv_dirs _ _ _ _ _ Hi).
    - lia.
    - by eapply Hquiet3. }
  destruct (StringRef.startsWith (restAt (iter s + 2)) (lit "<=")) eqn:Hle.
  { apply starts_len in Hle as Hl; [|lia]. change (zlen (lit "<=")) with 2 in Hl.
    apply enterLookAround_spec; [done..|lia|lia|].
    replace (iter s + 2 + 2) with (iter s + 3 + 1) by lia.
    eapply Quiet_trans; [apply Quiet_lookbehind; [done|left; exact (eq_trans (Es _) Hle)]|].
    apply (Quiet_plain _ _ _ (chr "=")); [|done]. replace (iter s + 3) with (iter s + 2 + 1) by lia.
    by apply (starts_byte _ _ (lit "<=")); [lia|..]. }
  destruct (StringRef.startsWith (restAt (iter s + 2)) (lit "<!")) eqn:Hln.
  { apply starts_len in Hln as Hl; [|lia]. change (zlen (lit "<!")) with 2 in Hl.
    apply enterLookAround_spec; [done..|lia|lia|].
    replace (iter s + 2 + 2) with (iter s + 3 + 1) by lia.
    eapply Quiet_trans; [apply Quiet_lookbehind; [done|right; exact (eq_trans (Es _) Hln)]|].
    apply (Quiet_plain _ _ _ (chr "!")); [|done]. replace (iter s + 3) with (iter s + 2 + 1) by lia.
    by apply (starts_byte _ _ (lit "<!")); [lia|..]. }
  case_on; zbool; [|apply enterModifiers_spec; [done..|lia|by apply Hquiet]].
  apply wp_bind. eapply wp_mono.
  { apply parseCaptureGroupName_spec; [done..|split; st; [lia|done]|st; lia]. }
  intros name s' [(Hn & j & -> & Hj & Hqj)|(-> & [Hs'|(? & _)])]; st; [|wps; by eapply Inv_err, ErrAt_setIter|done].
  rewrite setIter_setIter. destruct (Z.eqb_spec (zlen name) 0) as [Hz|].
  { destruct name; [done|]. rewrite zlen_cons in Hz. pose proof (zlen_nonneg name). lia. }
  apply enterNamed_spec; [done..|lia|]. intros c n0 rr Hs. exists (u32 (n0 + 1)).
  apply scans_named in Hs; [|done|exact (eq_trans (Es _) Elt)|exact (eq_trans (Es _) Hle)|exact (eq_trans (Es _) Hln)].
  apply (Quiet_trans _ _ (iter s + 3) 0 (iter s + 2) 0 j 0); [|apply Hqj|done].
  apply Quiet_sym. replace (iter s + 3) with (iter s + 2 + 1) by lia. subst b. by eapply Quiet_plain.
Qed.

(** *** The next alternative *)

Lemma nextAlternative_spec s :
  Inv 0 [] s -> byteAt (iter s) = Some (chr "|") ->
  wp (nextAlternative ref) (fun ok s' => ok = true /\ Inv 0 [] s' /\ iter s' = iter s + 1) s.
Proof.
  intros Hi Hb. pose proof (Inv_at _ _ _ _ _ Hi) as [Hir He]. apply byteAt_range in Hb as Hbr.
  destruct (frames_top _ _ Hi) as (f & r & Hf).
  pose proof (inv_stack _ _ _ _ _ Hi) as Hs. rewrite Hf in Hs. apply groupStack_cons in Hs as (Ho & _).
  unfold nextAlternative, curPos. wps. unfold curNode, topFrame. wps. apply (wp_expect _ f); [by rewrite Hf|]. wps.
  rewrite (u32_len ref Hlen) by lia. set (empty := EmptyNode _).
  assert (wfAt s empty) as Hempty by (cbn; split_and!; cbn; lia).
  assert (exists t l, match default empty (node f) with
      | AltNode t l =>
          match last l with
          | Some None => appendToLast t l empty
          | Some (Some _) => Some (AltNode t l)
          | None => None
          end
      | m => Some (mkAlt m)
      end = Some (AltNode t l) /\ tokOk t /\ All (wfAlt ref (refIndex s) (refName s)) l /\
      altList groups l = nodeList groups (node f) /\ altList loops l = nodeList loops (node f))
    as (t & l & E & Ht & Hw & Hg & Hl).
  { assert (forall m, wfAt s m -> isAlt m = false ->
      exists t l, Some (mkAlt m) = Some (AltNode t l) /\ tokOk t /\
        All (wfAlt ref (refIndex s) (refName s)) l /\ altList groups l = groups m /\ altList loops l = loops m) as Hm.
    { intros m Hm _. eexists _, _. split; [done|]. split; [|split; [by split|by rewrite !altList_one]].
      apply extendToken_ok; [done..| |]; by eapply wfn_token. }
    destruct (node f) as [m|]; cbn [default]; [|by apply (Hm empty)].
    destruct (isAlt m) eqn:Ha; [|by destruct m; try done; apply Hm].
    destruct m; try done. destruct Ho as (Ht & l0 & e & -> & Hl0 & Hle). cbn [from_option id]. rewrite last_snoc.
    destruct e as [e|].
    - eexists _, _. split; [done|]. split; [done|]. split; [|done]. apply All_app. split; [done|].
      by destruct Hle.
    - destruct (appendToLast_ok _ _ _ Hlen _ _ _ _ Ht Hl0 Hle Hempty) as (t' & e' & E & Ht' & He' & [Hg Hl]).
      eexists _, _. split; [exact E|]. split; [done|]. split; [apply All_app; by split|].
      cbn in Hg, Hl. rewrite app_nil_r in Hg, Hl. done. }
  eapply wp_expect; [exact E|]. wps. eapply wp_expect; [reflexivity|].
  wps. unfold setCurNode, topFrame. wps. apply (wp_expect _ f); [by rewrite Hf|].
  unfold setTop. wps. rewrite Hf. wps. eapply wp_expect; [reflexivity|]. wps. apply wp_advance; st; [lia|]. wps.
  split; [done|]. split; [|done].
  assert (Inv 0 [] (setStack (withNode (clearAndMergeGroupNames f) (Some (AltNode t (l ++ [None]))) :: r)
    (directions s) s)) as Hi'.
  { eapply Inv_setTop; [exact Hi|exact Hf|done|done| |done|..].
    - split; [done|]. exists l, None. split_and!; [done..|by left].
    - unfold frameGroups. cbn. rewrite !app_nil_r. f_equal. rewrite <- Hg.
      change (altList groups (l ++ [None]) = altList groups l). rewrite altList_app. cbn. by rewrite app_nil_r.
    - cbn. rewrite !app_nil_r. rewrite <- Hl.
      change (altList loops (l ++ [None]) = altList loops l). rewrite altList_app. cbn. by rewrite app_nil_r. }
  apply (Inv_move _ _ _ _ _ (iter s + 1)) in Hi'; [exact Hi'|lia|]. st. by eapply Quiet_plain.
Qed.
End spec.
End RegexGroupSpec.
