(* ===== verification/RegexClassSpec.v ===== *)
(** The parser keeps its invariant, continued: character classes.  The operands of an
    open class follow the automaton [shape]; a class that is closed ends with an
    operand, so that every operator stands between two of them. *)
From Stdlib Require Import Ascii.
From S2P Require Import Prelude NumUtil Unicode StringRef RegexNode RegexSyntax RegexParser RegexScan RegexParserInv RegexEscape RegexParserSpec RegexGroupSpec.
Import NumUtil UnicodeUtil RegexNode RegexSyntax RegexParser RegexScan RegexParserInv RegexEscape RegexParserSpec RegexGroupSpec.

Module RegexClassSpec.

(** ** The shape of a class *)

Lemma afterOperand_neq n : afterOperand n <> PENDING_OP /\ afterOperand n <> START_SHAPE.
Proof. unfold afterOperand. by destruct (isChar n). Qed.

Lemma property_is_op n t : isOpType t = true -> isProperty n t = true -> isCharClassOp n = true.
Proof. destruct n; try done. cbn. intros Ht E%bool_decide_eq_true. by subst. Qed.

(** Steps on a class whose last element is known. *)
Lemma shapeStep_pending ty st n :
  shapeStep ty (Some st) n = Some PENDING_OP -> isCharClassOp n = true.
Proof.
  cbn. destruct (afterOperand_neq n) as [Ha _]. destruct (isUnionOrRange ty), st; repeat case_on;
    try done; intros; simplify_eq; try congruence; by eapply property_is_op; [|done]; destruct ty.
Qed.

Lemma shapeStep_operand ty st st' n :
  shapeStep ty (Some st) n = Some st' -> isCharClassOp n = true -> st' = PENDING_OP.
Proof.
  cbn. intros E Hn. assert (isChar n = false) as Hc by by destruct n.
  revert E. destruct (isUnionOrRange ty), st; rewrite ?Hn, ?Hc; repeat case_on; congruence.
Qed.

Lemma shape_prefix ty l n st : shape ty (l ++ [n]) = Some st -> exists st0, shape ty l = Some st0.
Proof. rewrite shape_snoc. destruct (shape ty l); [eauto|done]. Qed.

(** [hasUnterminatedCharOp] tells whether an operand is missing. *)
Lemma unterminated_shape ty l st :
  shape ty l = Some st -> hasUnterminatedCharOp l = bool_decide (st = PENDING_OP).
Proof.
  induction l as [|n l0 _] using rev_ind; [by intros [= <-]|].
  intros E. pose proof E as [st0 E0]%shape_prefix. rewrite shape_snoc, E0 in E.
  unfold hasUnterminatedCharOp. rewrite last_snoc. destruct (isCharClassOp n) eqn:Hn.
  - apply shapeStep_operand in E; [|done]. by rewrite bool_decide_eq_true_2.
  - rewrite bool_decide_eq_false_2; [done|]. intros ->. apply shapeStep_pending in E. congruence.
Qed.

Lemma shape_start ty l : shape ty l = Some START_SHAPE -> l = [].
Proof.
  induction l as [|n l0 _] using rev_ind; [done|].
  intros E. pose proof E as [st0 E0]%shape_prefix. rewrite shape_snoc, E0 in E. exfalso. revert E. cbn.
  destruct (afterOperand_neq n) as [_ Ha]. destruct (isUnionOrRange ty), st0; repeat case_on; congruence.
Qed.

(** A class of the kind union or range that ends with a character. *)
Lemma shape_after_char ty l st :
  isUnionOrRange ty = true -> shape ty l = Some st -> st = AFTER_CHAR ->
  exists l0 n, l = l0 ++ [n] /\ isChar n = true /\ hasUnterminatedCharOp l0 = false.
Proof.
  intros Hu E ->. induction l as [|n l0 _] using rev_ind; [done|].
  exists l0, n. split; [done|]. pose proof E as [st0 E0]%shape_prefix. rewrite shape_snoc, E0 in E.
  rewrite (unterminated_shape _ _ _ E0). revert E. cbn. rewrite Hu. unfold afterOperand.
  destruct st0; repeat case_on; try congruence; by rewrite ?bool_decide_eq_false_2.
Qed.

(** After a range the class ends with its upper bound. *)
Lemma shape_after_operand ty l n :
  isUnionOrRange ty = true -> shape ty (l ++ [n]) = Some AFTER_OPERAND -> isChar n = true ->
  exists l0 op, l = l0 ++ [op] /\ isProperty op RANGE = true.
Proof.
  intros Hu E Hc. pose proof E as [st0 E0]%shape_prefix. rewrite shape_snoc, E0 in E.
  assert (isCharClassOp n = false) as Hn by by destruct n.
  revert E. cbn. rewrite Hu, Hn, Hc. unfold afterOperand. rewrite Hc. destruct st0; try congruence. intros _.
  induction l as [|op l0 _] using rev_ind; [done|]. exists l0, op. split; [done|].
  pose proof E0 as [st1 E1]%shape_prefix. rewrite shape_snoc, E1 in E0. revert E0. cbn. rewrite Hu.
  destruct (afterOperand_neq op) as [Ha _]. destruct st1; repeat case_on; zbool; try congruence; naive_solver.
Qed.

(** A range that misses its upper bound: the lower bound is a character. *)
Lemma shape_pending ty l :
  isUnionOrRange ty = true -> shape ty l = Some PENDING_OP ->
  exists l0 c op, l = l0 ++ [c; op] /\ isChar c = true /\ isProperty op RANGE = true /\
    shape ty (l0 ++ [c]) = Some AFTER_CHAR.
Proof.
  intros Hu E. induction l as [|op l1 _] using rev_ind; [done|].
  pose proof E as [st0 E0]%shape_prefix. rewrite shape_snoc, E0 in E.
  assert (st0 = AFTER_CHAR /\ isProperty op RANGE = true) as [-> Hop].
  { revert E. cbn. rewrite Hu. destruct (afterOperand_neq op) as [Ha _].
    destruct st0; repeat case_on; zbool; try congruence; naive_solver. }
  destruct (shape_after_char _ _ _ Hu E0 eq_refl) as (l0 & c & -> & Hc & _).
  exists l0, c, op. by rewrite <- app_assoc.
Qed.

(** The kinds union and range have the same automaton. *)
Lemma shape_union ty ty' l :
  isUnionOrRange ty = isUnionOrRange ty' -> opOf ty = opOf ty' -> shape ty l = shape ty' l.
Proof.
  intros Hu Ho. induction l as [|l n IH] using rev_ind; [done|].
  rewrite !shape_snoc, IH. unfold shapeStep. by rewrite Hu, Ho.
Qed.

Lemma shape_compatible ty ty' l st :
  isCompatible ty l ty' = true -> shape ty l = Some st -> st <> PENDING_OP -> l <> [] ->
  exists st', shape ty' l = Some st' /\ st' <> PENDING_OP /\ st' <> START_SHAPE /\
    (isUnionOrRange ty' = true -> isUnionOrRange ty = true -> st' = st).
Proof.
  unfold isCompatible. intros Hc E Hp Hl. assert (st <> START_SHAPE) as Hs.
  { intros ->. by apply shape_start in E. }
  rewrite !orb_true_iff in Hc.
  assert (isUnionOrRange ty = isUnionOrRange ty' /\ opOf ty = opOf ty' \/ exists n, l = [n]) as [[Hu Ho]|[n ->]].
  { destruct Hc as [[Hc|Hc]|Hc].
    - right. destruct l as [|n [|]]; [done|eauto|]. rewrite !zlen_cons in Hc. pose proof (zlen_nonneg l). lia.
    - left. by apply bool_decide_eq_true in Hc as ->.
    - left. by destruct ty, ty'. }
  - exists st. rewrite <- (shape_union ty ty'); done.
  - assert (isCharClassOp n = false) as Hn.
    { pose proof (unterminated_shape _ _ _ E) as Hu. cbn in Hu. rewrite Hu. by rewrite bool_decide_eq_false_2. }
    cbn in E. rewrite Hn in E. destruct (afterOperand_neq n) as [Ha Hb].
    cbn. rewrite Hn. destruct (isUnionOrRange ty'); eexists; (split; [done|]); split; try done; split; try done.
    intros _ Hu. rewrite Hu in E. congruence.
Qed.

(** An operand after [l]. *)
Lemma shape_add ty l st n :
  shape ty l = Some st -> isCharClassOp n = false ->
  (isUnionOrRange ty = true -> st = PENDING_OP -> isChar n = true) ->
  (isUnionOrRange ty = false -> st = PENDING_OP) ->
  exists st', shape ty (l ++ [n]) = Some st' /\ st' <> PENDING_OP /\
    (isUnionOrRange ty = true -> st' = AFTER_OPERAND -> isChar n = true -> st = PENDING_OP).
Proof.
  intros E Hn H1 H2. rewrite shape_snoc, E. cbn. rewrite Hn. destruct (isUnionOrRange ty).
  - destruct (afterOperand_neq n) as [Ha _]. destruct st; try (eexists; split; [done|]; split; [done|]).
    + intros _. unfold afterOperand. by destruct (isChar n).
    + intros _. unfold afterOperand. by destruct (isChar n).
    + intros _. unfold afterOperand. by destruct (isChar n).
    + rewrite H1 by done. by eexists.
  - rewrite H2 by done. by eexists.
Qed.

Section spec.
Context `{UcpLaws} (ref : bytes) (flag : Flag) (extension : bool).
Context (Hbytes : Forall is_byte ref) (Hlen : zlen ref <= UINT32_MAX).
Abbreviation byteAt := (byteAt ref).
Abbreviation restAt := (restAt ref).
Abbreviation tokOk := (tokOk ref).
Abbreviation Quiet := (Quiet ref flag).
Abbreviation segment := (segment ref).
Abbreviation len := (zlen ref).
Abbreviation Inv := (Inv ref flag).
Abbreviation ErrAt := (ErrAt ref).
Abbreviation Failed := (Failed ref).
Abbreviation wfAt s := (wfn ref (refIndex s) (refName s)).
Abbreviation wfOpenAt s := (wfOpen ref (refIndex s) (refName s)).

(** ** The class that is collected *)

(** What else holds of the class [c] of a frame while the cursor is at [i]. *)
Definition classOk (i : Z) (c : CharClass) : Prop :=
  pos (classToken c) <= i /\ Forall (fun n => isPos n <= i) (classChars c) /\
  (is_ flag UNICODE_SET = false -> isUnionOrRange (classType c) = true) /\
  (isUnionOrRange (classType c) = false -> classChars c <> []).

Definition classNode (c : CharClass) : Node :=
  CharClassNode (classToken c) (classInvert c) (classType c) false (classChars c).

Definition frameClass (i : Z) (f : Frame) : Prop := exists c, node f = Some (classNode c) /\ classOk i c.

(** The invariant with [k] open classes. *)
Definition ClassInv (k : nat) (s : State) : Prop :=
  Inv k [] s /\ Forall (frameClass (iter s)) (take k (frames s)) /\
  ((2 <= k)%nat -> is_ flag UNICODE_SET = true).

(** The last class. *)
Record topClass (s : State) (c : CharClass) (st : Shape) : Prop := {
  top_frame : exists f r, frames s = f :: r /\ type f = FRAME_NONE /\ node f = Some (classNode c);
  top_token : tokOk (classToken c);
  top_elems : All (wfElem ref) (classChars c);
  top_shape : shape (classType c) (classChars c) = Some st;
  top_ok : classOk (iter s) c
}.

Lemma ClassInv_top k s : ClassInv (S k) s -> exists c st, topClass s c st.
Proof.
  intros (Hi & Hf & _). pose proof (inv_stack _ _ _ _ _ Hi) as Hs. cbn [stackOk] in Hs.
  destruct (frames s) as [|f r] eqn:E; [done|]. destruct Hs as [(ty & l & st & Ht & t & invert & Hn & ? & ? & ?) _].
  cbn [take] in Hf. inversion_clear Hf as [|? ? (c & Hc & Hok) _].
  rewrite Hn in Hc. injection Hc as -> -> -> ->. exists c, st. constructor; try done. by eexists _, _.
Qed.

Lemma wp_curCharClass s c st (Q : CharClass -> State -> Prop) :
  topClass s c st -> Q c s -> wp curCharClass Q s.
Proof.
  intros [(f & r & Hf & _ & Hn) _ _ _ _] HQ. unfold curCharClass, curNode, topFrame. wps.
  apply (wp_expect _ f); [by rewrite Hf|]. wps. rewrite Hn. apply (wp_expect _ c); [by destruct c|done].
Qed.

(** Replacing the last class. *)
Lemma setCharClass_spec k s c st c' st' :
  ClassInv (S k) s -> topClass s c st ->
  tokOk (classToken c') -> All (wfElem ref) (classChars c') ->
  shape (classType c') (classChars c') = Some st' -> classOk (iter s) c' ->
  wp (setCharClass c') (fun _ s' => ClassInv (S k) s' /\ topClass s' c' st' /\ iter s' = iter s) s.
Proof.
  intros (Hi & Hk & Hset) [(f & r & Hf & Htf & Hn) _ _ _ _] Ht Hw Hs Hok.
  unfold setCharClass, setCurNode, topFrame, setTop. wps. apply (wp_expect _ f); [by rewrite Hf|]. wps.
  rewrite Hf. wps. rewrite Hf in Hk. cbn [take] in Hk. inversion_clear Hk as [|? ? _ Hk'].
  split; [|split; [|done]].
  - split; [|split; [|done]].
    + destruct Hi. rewrite Hf in *. constructor; st; try done.
      * cbn [stackOk] in *. destruct inv_stack0 as [_ Hr]. split; [|exact Hr].
        exists (classType c'), (classChars c'), st'. split; [done|]. by eexists _, _.
      * cbn [stackGroups] in *. unfold frameGroups in *. cbn [type node withNode] in *.
        rewrite Htf, Hn in *. done.
      * cbn [stackLoops] in *. cbn [node withNode]. rewrite Hn in *. done.
    + st. cbn [take]. constructor; [|done]. by exists c'.
  - constructor; try done. by eexists _, _.
Qed.

Definition withChars (c : CharClass) (l : list Node) : CharClass := {|
  classToken := classToken c; classInvert := classInvert c; classType := classType c; classChars := l |}.

Lemma pos_extend old t : pos (extendToken old t) = pos old.
Proof. unfold extendToken. by case_on. Qed.

(** An element is appended; [st'] is what the class ends with. *)
Lemma classAdd_spec k s c st n st' :
  ClassInv (S k) s -> topClass s c st -> wfElem ref n -> isPos n <= iter s ->
  shape (classType c) (classChars c ++ [n]) = Some st' ->
  wp (classAdd n) (fun _ s' => exists c', ClassInv (S k) s' /\ topClass s' c' st' /\ iter s' = iter s /\
    classChars c' = classChars c ++ [n] /\ classType c' = classType c) s.
Proof.
  intros Hi Hc Hn Hp Hs. unfold classAdd. apply wp_bind. eapply wp_curCharClass; [done|].
  destruct Hc as [Hf Ht Hw Hsh (H1 & H2 & H3 & H4)] eqn:E. clear E.
  eapply wp_mono; [eapply setCharClass_spec; [done|done|..|exact Hs|]|].
  - apply extendToken_ok; [done..|]. exact (wfElem_token _ _ Hn).
  - apply All_app. by split; [|split].
  - split; [cbn; by rewrite pos_extend|]. split; [apply Forall_app; by split; [|constructor]|].
    split; [done|]. intros _. by destruct (classChars c).
  - intros _ s' (? & ? & ?). eexists. split_and!; [done|done|done|done|done].
Qed.

Lemma classSetType_spec k s c st ty st' :
  ClassInv (S k) s -> topClass s c st -> shape ty (classChars c) = Some st' ->
  (is_ flag UNICODE_SET = false -> isUnionOrRange ty = true) -> classChars c <> [] ->
  wp (classSetType ty) (fun _ s' => exists c', ClassInv (S k) s' /\ topClass s' c' st' /\ iter s' = iter s /\
    classChars c' = classChars c /\ classType c' = ty) s.
Proof.
  intros Hi Hc Hs Hu Hne. unfold classSetType. apply wp_bind. eapply wp_curCharClass; [done|].
  destruct Hc as [Hf Ht Hw Hsh (H1 & H2 & H3 & H4)] eqn:E. clear E.
  eapply wp_mono; [eapply setCharClass_spec; [done|done|done|done|exact Hs|]|].
  - split; [done|]. split; [done|]. by split.
  - intros _ s' (? & ? & ?). eexists. split_and!; [done|done|done|done|done].
Qed.

(** Moving the cursor forward. *)
Lemma classOk_mono i j c : i <= j -> classOk i c -> classOk j c.
Proof.
  intros Hij (? & Hl & ? & ?). split; [lia|]. split; [|done].
  eapply Forall_impl; [exact Hl|]. cbn. lia.
Qed.

Lemma frameClass_mono i j f : i <= j -> frameClass i f -> frameClass j f.
Proof. intros ? (c & ? & ?). exists c. split; [done|]. by eapply classOk_mono. Qed.

Lemma ClassInv_move k s i :
  ClassInv k s -> iter s <= i <= len -> Quiet (iter s) (Z.of_nat k) i (Z.of_nat k) -> ClassInv k (setIter i s).
Proof.
  intros (Hi & Hf & Hs) Hr Hq. pose proof (inv_iter _ _ _ _ _ Hi). split; [by apply Inv_move; [|lia|]|].
  split; [|done]. st. eapply Forall_impl; [exact Hf|]. intros f. apply frameClass_mono. lia.
Qed.

Lemma topClass_move s c st i : topClass s c st -> iter s <= i -> topClass (setIter i s) c st.
Proof. intros [] ?. constructor; try done. by eapply classOk_mono. Qed.

(** An error of the text from [b] to the cursor. *)
Lemma class_error k s b msg (Q : unit -> State -> Prop) :
  ClassInv k s -> 0 <= b <= iter s -> (forall s', Failed s' -> Q tt s') ->
  wp (reportError {| pos := u32 b; size := u32 (iter s - b) |} msg) Q s.
Proof. intros (Hi & _) ? HQ. by eapply Inv_report. Qed.

Lemma elem_pos s c st n : topClass s c st -> n ∈ classChars c -> wfElem ref n /\ 0 <= isPos n <= iter s.
Proof.
  intros [_ _ Hw _ (_ & Hp & _)] Hn. rewrite All_Forall in Hw. rewrite Forall_forall in Hw, Hp.
  pose proof (Hw n Hn) as Hwn. pose proof (wfElem_token _ _ Hwn) as (? & _). split; [done|].
  split; [done|by apply Hp].
Qed.

(** ** An operand of the last class *)

Definition operandAt (s : State) (n : Node) : Prop :=
  wfElem ref n /\ isCharClassOp n = false /\ isPos n <= iter s.

(** A range that waits for its upper bound gets a character. *)
Definition fits (c : CharClass) (st : Shape) (n : Node) : Prop :=
  isUnionOrRange (classType c) = true -> st = PENDING_OP -> isChar n = true.

Lemma class_report k s t msg (Q : unit -> State -> Prop) :
  ClassInv k s -> tokOk t -> (forall s', Failed s' -> Q tt s') -> wp (reportError t msg) Q s.
Proof.
  intros (Hi & _) Ht HQ. pose proof (Inv_at _ _ _ _ _ Hi) as [? ?]. apply wp_reportError; [done|].
  apply HQ. eapply Inv_err; [exact Hi|]. eexists (iter s), _. by rewrite setIter_self.
Qed.

Lemma lookup_before_last {A} (l0 : list A) x y : (l0 ++ [x; y]) !! (length (l0 ++ [x; y]) - 2)%nat = Some x.
Proof.
  rewrite length_app. cbn. replace (length l0 + 2 - 2)%nat with (length l0) by lia. by apply list_lookup_middle.
Qed.

Lemma checkRange_spec k s c st n :
  ClassInv (S k) s -> topClass s c st -> operandAt s n ->
  wp (checkRange flag n) (fun ok s' =>
    if ok : bool then exists c' st', ClassInv (S k) s' /\ topClass s' c' st' /\ iter s' = iter s /\ fits c' st' n
    else Failed s') s.
Proof.
  intros Hi Hc (Hn & Hop & Hp). unfold checkRange. apply wp_bind. eapply wp_curCharClass; [done|].
  pose proof (top_shape _ _ _ Hc) as Hs. rewrite (unterminated_shape _ _ _ Hs).
  destruct (bool_decide_reflect (st = PENDING_OP)) as [->|Hst].
  2: { wps. exists c, st. split_and!; try done. by intros _ ?. }
  destruct (isUnionOrRange (classType c)) eqn:Hu; cbn [andb].
  2: { wps. exists c, PENDING_OP. split_and!; try done. intros ?. congruence. }
  destruct (shape_pending _ _ Hu Hs) as (l0 & left & op & El & Hleft & Hrange & Hs0).
  assert (left ∈ classChars c /\ op ∈ classChars c) as [Hlin Hoin] by (rewrite El; set_solver).
  destruct (elem_pos _ _ _ _ Hc Hlin) as [Hwl Hpl]. destruct (elem_pos _ _ _ _ Hc Hoin) as [Hwo Hpo].
  apply wp_bind, (wp_expect _ left); [rewrite El; apply lookup_before_last|].
  destruct left as [| |lt leftCode| | | | | | | | |]; try done.
  apply wp_bind, (wp_expect _ leftCode).
  { rewrite El, length_app. cbn [length]. destruct (Nat.leb_spec 2 (length l0 + 2)); [done|lia]. }
  assert (forall msg, wp (t ← getTokenFrom (isPos (CharNode lt leftCode)); reportError t msg;; mret false)
    (fun ok s' => if ok : bool then exists c' st', ClassInv (S k) s' /\ topClass s' c' st' /\ iter s' = iter s /\ fits c' st' n
      else Failed s') s) as Herr.
  { intros msg. wps. eapply class_error; [done|done|]. intros s' ?. by wps. }
  destruct (isChar n) eqn:Hch.
  - destruct n; try done. case_on; [apply Herr|]. wps. exists c, PENDING_OP. by split_and!.
  - assert (wp (if is_ flag BMP then
        back ← expect (last (classChars c));
        setCharClass {| classToken := classToken c; classInvert := classInvert c;
                        classType := classType c; classChars := removelast (classChars c) |};;
        classAdd (CharNode (getToken back) (chr "-"));; mret true
      else t ← getTokenFrom (isPos (CharNode lt leftCode)); reportError t (lit "invalid character range");; mret false)
      (fun ok s' => if ok : bool then exists c' st', ClassInv (S k) s' /\ topClass s' c' st' /\ iter s' = iter s /\ fits c' st' n
        else Failed s') s) as Hw.
    { destruct (is_ flag BMP); [|apply Herr].
      assert (removelast (classChars c) = l0 ++ [CharNode lt leftCode]) as Er.
      { rewrite El. rewrite removelast_app; done. }
      apply wp_bind, (wp_expect _ op).
      { rewrite El. change [CharNode lt leftCode; op] with ([CharNode lt leftCode] ++ [op]).
        by rewrite app_assoc, last_snoc. }
      rewrite Er. apply wp_bind. pose proof Hc as [_ Ht Hwc _ Hok]. rewrite El in Hwc.
      change [CharNode lt leftCode; op] with ([CharNode lt leftCode] ++ [op]) in Hwc.
      rewrite app_assoc in Hwc. apply All_app in Hwc as [Hwc _].
      eapply wp_mono; [eapply setCharClass_spec; [done|done|done|exact Hwc|exact Hs0|]|].
      { destruct Hok as (? & Hps & Hset & _). split; [done|]. split; [|split; [done|]].
        - cbn. rewrite El in Hps. rewrite Forall_app in *. destruct Hps as [? Hps]. split; [done|].
          inversion_clear Hps. by constructor.
        - intros _. cbn. by destruct l0. }
      intros [] s1 (Hi1 & Hc1 & E1). apply wp_bind. eapply wp_mono.
      { eapply (classAdd_spec _ _ _ _ _ AFTER_CHAR Hi1 Hc1).
        - split; [by apply wfElem_token|done].
        - rewrite E1. apply Hpo.
        - cbn [classType classChars]. rewrite shape_snoc, Hs0. cbn. by rewrite Hu. }
      intros [] s2 (c2 & Hi2 & Hc2 & E2 & _). wps. exists c2, AFTER_CHAR. split_and!; [done..|congruence|].
      intros _ ?. done. }
    destruct n; try exact Hw. done.
Qed.

(** What a class holds after an operand and what may follow it; a missing operand is
    still to come. *)
Definition nextOk (s : State) : Prop := iter s <> len /\ byteAt (iter s) <> Some (chr "]").

Definition addOut (k : nat) (s : State) (ok : bool) (s' : State) : Prop :=
  if ok then exists c st, ClassInv k s' /\ topClass s' c st /\ iter s <= iter s' /\ (st = PENDING_OP -> nextOk s')
  else Failed s'.

Lemma add_failed k s t msg s1 :
  ClassInv k s1 -> tokOk t ->
  wp (reportError t msg;; mret false) (addOut k s) s1.
Proof. intros. wps. eapply class_report; [done..|]. intros s' ?. by wps. Qed.

Lemma add_failed_from k s b msg s1 :
  ClassInv k s1 -> 0 <= b <= iter s1 ->
  wp (t ← getTokenFrom b; reportError t msg;; mret false) (addOut k s) s1.
Proof. intros. wps. eapply class_error; [done..|]. intros s' ?. by wps. Qed.

Lemma class_quiet i b l :
  byteAt i = Some b -> plain b = true -> Quiet i l (i + 1) l.
Proof. apply Quiet_plain. Qed.

(** The operator at the cursor. *)
Definition operatorOut (s : State) (r : option (option (PropertyType * ClassType * Token))) (s' : State) : Prop :=
  match r with
  | None => Failed s'
  | Some None => s' = s
  | Some (Some (op, ty, t)) =>
      exists i, s' = setIter i s /\ iter s < i <= len /\ (forall l, Quiet (iter s) l i l) /\
        tokOk t /\ pos t = iter s /\ ty <> CLASS_UNION /\ op = opOf ty
  end.

Lemma parseSetOperator_spec k s :
  ClassInv k s -> wp (parseSetOperator ref) (operatorOut s) s.
Proof.
  intros Hi. pose proof Hi as (Hinv & _). pose proof (Inv_at _ _ _ _ _ Hinv) as [Hir He].
  unfold parseSetOperator. wps.
  assert (forall c, plain c = true -> StringRef.startsWith (restAt (iter s)) [c; c] = true ->
    iter s + 2 <= len /\ (forall l, Quiet (iter s) l (iter s + 2) l)) as Htwo.
  { intros c Hc Hs. pose proof (starts_len ref (iter s) _ Hir Hs) as Hl.
    rewrite !zlen_cons in Hl. change (zlen (@nil Z)) with 0 in Hl. split; [lia|]. intros l.
    replace (iter s + 2) with (iter s + 1 + 1) by lia. eapply Quiet_trans; eapply Quiet_plain; try exact Hc.
    - by apply (starts_byte _ _ _ 0 c) in Hs; [rewrite Z.add_0_r in Hs|lia..|].
    - by apply (starts_byte _ _ _ 1 c) in Hs; [|lia..|]. }
  assert (forall i, iter s < i <= len -> (forall l, Quiet (iter s) l i l) ->
    tokOk {| pos := u32 (iter s); size := u32 (i - iter s) |} /\ u32 (iter s) = iter s) as Htok.
  { intros. split; [apply tok_from; lia|apply u32_len with ref; lia]. }
  destruct (StringRef.startsWith (restAt (iter s)) (lit "&&")) eqn:H1.
  { destruct (Htwo (chr "&")) as [Hl Hq]; [done..|]. wps. apply wp_advance; [lia|]. wps.
    destruct (StringRef.startsWith (restAt (iter s + 2)) (lit "&")) eqn:H3.
    - assert (byteAt (iter s + 2) = Some (chr "&")) as Hb by (eapply starts_first; [lia|exact H3|done]).
      apply byteAt_range in Hb as Hbr. wps. apply (wp_deref _ (chr "&")); [done|].
      wps. apply wp_advance; st; [lia|]. wps. rewrite setIter_setIter.
      eapply report_from with (i := iter s + 2 + 1) (s0 := s); [done..|lia|lia|]. intros s' ?. wps. by eapply Inv_err.
    - wps. destruct (Htok (iter s + 2)); [lia|done|]. exists (iter s + 2). by split_and!; [done|lia..|done| | | |]. }
  destruct (StringRef.startsWith (restAt (iter s)) (lit "--")) eqn:H2.
  { destruct (Htwo (chr "-")) as [Hl Hq]; [done..|]. wps. apply wp_advance; [lia|]. wps.
    destruct (Htok (iter s + 2)); [lia|done|]. exists (iter s + 2). by split_and!; [done|lia..|done| | | |]. }
  destruct (StringRef.startsWith (restAt (iter s)) (lit "-")) eqn:H3; [|wps; done].
  assert (byteAt (iter s) = Some (chr "-")) as Hb by (eapply starts_first; [lia|exact H3|done]).
  apply byteAt_range in Hb as Hbr. wps. apply wp_advance; [lia|]. wps.
  assert (forall l, Quiet (iter s) l (iter s + 1) l) as Hq by (intros l; by eapply Quiet_plain).
  destruct (Htok (iter s + 1)); [lia|done|]. exists (iter s + 1). by split_and!; [done|lia..|done| | | |].
Qed.

Lemma combineError_spec k s s0 : ClassInv (S k) s -> wp combineError (addOut (S k) s0) s.
Proof.
  intros Hi. destruct (ClassInv_top _ _ Hi) as (c & st & Hc). unfold combineError.
  apply wp_bind. eapply wp_curCharClass; [done|]. eapply add_failed_from; [done|].
  destruct Hc as [_ (? & _) _ _ (? & _)]. lia.
Qed.

Lemma operand_shape c s st n :
  topClass s c st -> operandAt s n -> fits c st n ->
  (isUnionOrRange (classType c) = false -> st = PENDING_OP) ->
  exists st', shape (classType c) (classChars c ++ [n]) = Some st' /\ st' <> PENDING_OP /\
    (isUnionOrRange (classType c) = true -> st' = AFTER_OPERAND -> isChar n = true -> st = PENDING_OP).
Proof. intros Hc (_ & Hn & _) Hf Hu. by apply shape_add; [apply (top_shape _ _ _ Hc)|..]. Qed.

Lemma add_ok k s s' c st :
  ClassInv (S k) s' -> topClass s' c st -> iter s <= iter s' -> (st = PENDING_OP -> nextOk s') ->
  addOut (S k) s true s'.
Proof. intros ? ? ? ?. exists c, st. by split_and!. Qed.

(** The operator [op] at [t] that is appended to the last class. *)
Lemma addOperator_shape c s st op :
  topClass s c st -> st <> PENDING_OP -> classChars c <> [] ->
  (isUnionOrRange (classType c) = true -> st = AFTER_CHAR) ->
  forall t v, op = opOf (classType c) ->
  shape (classType c) (classChars c ++ [PropertyNode t op v]) = Some PENDING_OP.
Proof.
  intros Hc Hp Hne Hu t v ->. pose proof (top_shape _ _ _ Hc) as Hs.
  assert (st <> START_SHAPE) as Hst by (intros ->; by apply shape_start in Hs).
  rewrite shape_snoc, Hs. cbn. destruct (isUnionOrRange (classType c)) eqn:E.
  - rewrite Hu by done. by destruct (classType c).
  - destruct st; try done; by destruct (classType c).
Qed.

(** Appending the operator, which must be followed by an operand. *)
Lemma addOperator_spec k s s0 c st token op :
  ClassInv (S k) s -> topClass s c st -> st <> PENDING_OP -> classChars c <> [] ->
  (isUnionOrRange (classType c) = true -> st = AFTER_CHAR) -> op = opOf (classType c) ->
  tokOk token -> pos token <= iter s -> iter s0 <= iter s ->
  wp (classAdd (PropertyNode token op 0);;
      e ← isEnd ref;
      b ← startsWith ref (lit "]");
      if e || b then
        reportError token (quoted (lit "set operation needs operand: ") (toStrRef ref token));; mret false
      else mret true) (addOut (S k) s0) s.
Proof.
  intros Hi Hc Hp Hne Hu Hop Ht Hpos Hs0. apply wp_bind. eapply wp_mono.
  { eapply (classAdd_spec _ _ _ _ _ PENDING_OP Hi Hc); [split; [done|]|done|by eapply addOperator_shape].
    rewrite Hop. by destruct (classType c). }
  intros [] s1 (c1 & Hi1 & Hc1 & E1 & _). wps. case_on; [by apply add_failed|].
  apply orb_false_iff in Heqb as [He Hb]. zbool. wps. eapply add_ok; [done|done|lia|].
  intros _. split; [done|]. intros Hb1. by rewrite (restAt_byte _ _ _ Hb1) in Hb.
Qed.

Lemma addSetOperand_spec k s c st n :
  is_ flag UNICODE_SET = true ->
  ClassInv (S k) s -> topClass s c st -> operandAt s n -> fits c st n ->
  wp (addSetOperand ref n) (addOut (S k) s) s.
Proof.
  intros Hset Hi Hc Hn Hfit. unfold addSetOperand. apply wp_bind. eapply wp_curCharClass; [done|].
  pose proof (top_shape _ _ _ Hc) as Hs. rewrite (unterminated_shape _ _ _ Hs).
  destruct (negb _) eqn:Hcomb; [by apply combineError_spec|].
  apply negb_false_iff, orb_true_iff in Hcomb. rewrite bool_decide_eq_true in Hcomb.
  destruct (operand_shape _ _ _ _ Hc Hn Hfit) as (st1 & Hs1 & Hp1 & Hr1).
  { intros Hu. destruct Hcomb; [done|congruence]. }
  destruct Hn as (Hwn & Hop & Hpn). apply wp_bind. eapply wp_mono.
  { by eapply classAdd_spec. }
  intros [] s1 (c1 & Hi1 & Hc1 & E1 & Hl1 & Ht1). wps. eapply wp_mono; [by eapply parseSetOperator_spec|].
  intros [[[[opType ty] token]|]|] s2; cbn [operatorOut].
  2: { intros ->. wps. eapply add_ok; [done|done|lia|done]. }
  2: { intros ?. by wps. }
  intros (i & -> & Hr & Hq & Htok & Hpos & Hty & ->).
  pose proof Hi1 as (Hinv1 & _). pose proof (inv_iter _ _ _ _ _ Hinv1) as Hir1.
  assert (ClassInv (S k) (setIter i s1)) as Hi2 by (apply ClassInv_move; [done|lia|apply Hq]).
  assert (topClass (setIter i s1) c1 st1) as Hc2 by (apply topClass_move; [done|lia]).
  apply wp_bind. eapply wp_curCharClass; [done|]. cbv zeta.
  destruct (isCompatible _ _ _) eqn:Hcompat; cbn [negb]; [|by apply combineError_spec].
  assert (classChars c1 <> []) as Hne by (rewrite Hl1; by destruct (classChars c)).
  destruct (shape_compatible _ _ _ _ Hcompat (top_shape _ _ _ Hc1) Hp1 Hne) as (st2 & Hs2 & Hp2 & Hst2 & _).
  apply wp_bind. eapply wp_mono; [eapply classSetType_spec; [exact Hi2|exact Hc2|exact Hs2|congruence|exact Hne]|].
  intros [] s3 (c3 & Hi3 & Hc3 & E3 & Hl3 & Ht3). st.
  apply wp_bind, (wp_expect _ n); [by rewrite Hl1, last_snoc|].
  assert (isPos n <= iter s3 /\ 0 <= isPos n) as [Hpn3 Hpn0].
  { split; [lia|]. by apply wfElem_token in Hwn as (? & _). }
  assert (isUnionOrRange (classType c3) = false -> wp (classAdd (PropertyNode token (opOf ty) 0);;
      e ← isEnd ref;
      b ← startsWith ref (lit "]");
      if e || b then
        reportError token (quoted (lit "set operation needs operand: ") (toStrRef ref token));; mret false
      else mret true) (addOut (S k) s) s3) as Hnot.
  { intros Hu. eapply addOperator_spec; [done|done|done|by rewrite Hl3|congruence|by rewrite Ht3|done|lia|lia]. }
  destruct (bool_decide_reflect (ty = CLASS_RANGE)) as [->|Hnr]; cbn [negb].
  2: { apply Hnot. rewrite Ht3. by destruct ty. }
  destruct (isChar n) eqn:Hch; cbn [negb]; [|by eapply add_failed_from].
  rewrite Hl1. rewrite length_app. cbn [length].
  destruct (match (if 1 <? zlen (classChars c ++ [n]) then _ else None) with Some _ => _ | None => None end)
    as [cur|] eqn:Ecur.
  { eapply add_failed_from; [done|]. repeat case_in Ecur; try done. injection Ecur as <-. lia. }
  eapply addOperator_spec; [done|done|done|by rewrite Hl3| |by rewrite Ht3|done|lia|lia].
  intros _. assert (st2 <> AFTER_OPERAND) as Hno; [|by destruct st2].
  intros ->. rewrite Hl1 in Hs2. destruct (shape_after_operand CLASS_RANGE _ _ eq_refl Hs2 Hch) as (l0 & op & E & Hrange).
  rewrite E in Ecur. rewrite !length_app in Ecur; cbn [length] in Ecur.
  replace (length l0 + 1 + 1 - 2)%nat with (length l0) in Ecur by lia.
  rewrite <- app_assoc in Ecur. cbn [app] in Ecur. rewrite list_lookup_middle in Ecur by done.
  rewrite zlen_app in Ecur. pose proof (zlen_nonneg l0).
  change (zlen [op; n]) with 2 in Ecur. destruct (Z.ltb_spec 1 (zlen l0 + 2)); [|lia].
  by rewrite Hrange in Ecur.
Qed.

Lemma addHyphen_spec k s s0 c st token :
  ClassInv (S k) s -> topClass s c st -> st <> PENDING_OP -> isUnionOrRange (classType c) = true ->
  tokOk token -> pos token <= iter s -> iter s0 <= iter s ->
  wp (classAdd (CharNode token (chr "-"));; mret true) (addOut (S k) s0) s.
Proof.
  intros Hi Hc Hp Hu Ht Hpos Hs0.
  destruct (shape_add _ _ _ (CharNode token (chr "-")) (top_shape _ _ _ Hc)) as (st' & Hs & Hp' & _);
    [done|done|congruence|].
  apply wp_bind. eapply wp_mono; [by eapply classAdd_spec|].
  intros [] s1 (c1 & Hi1 & Hc1 & E1 & _). wps. eapply add_ok; [done|done|lia|done].
Qed.

Lemma addOperand_spec k s c st n :
  is_ flag UNICODE_SET = false ->
  ClassInv (S k) s -> topClass s c st -> operandAt s n -> fits c st n ->
  wp (addOperand ref flag n) (addOut (S k) s) s.
Proof.
  intros Hset Hi Hc Hn Hfit. unfold addOperand.
  assert (isUnionOrRange (classType c) = true) as Hu by (destruct Hc as [_ _ _ _ (_ & _ & Hu & _)]; by apply Hu).
  destruct (operand_shape _ _ _ _ Hc Hn Hfit) as (st1 & Hs1 & Hp1 & Hr1); [congruence|].
  destruct Hn as (Hwn & Hop & Hpn). apply wp_bind. eapply wp_mono.
  { by eapply classAdd_spec. }
  intros [] s1 (c1 & Hi1 & Hc1 & E1 & Hl1 & Ht1). wps.
  pose proof Hi1 as (Hinv1 & _). pose proof (inv_iter _ _ _ _ _ Hinv1) as Hir1.
  destruct (StringRef.startsWith _ _) eqn:Hh; cbn [negb].
  2: { wps. eapply add_ok; [done|done|lia|done]. }
  assert (byteAt (iter s1) = Some (chr "-")) as Hb by (eapply starts_first; [lia|exact Hh|done]).
  apply byteAt_range in Hb as Hbr. wps. apply wp_advance; [lia|]. wps.
  set (token := {| pos := u32 (iter s1); size := 1 |}).
  assert (u32 (iter s1) = iter s1) as Eu by (apply u32_len with ref; lia).
  assert (tokOk token) as Htok by (split_and!; cbn; lia).
  set (s2 := setIter (iter s1 + 1) s1).
  assert (ClassInv (S k) s2) as Hi2 by (apply ClassInv_move; [done|lia|by eapply Quiet_plain]).
  assert (topClass s2 c1 st1) as Hc2 by (apply topClass_move; [done|lia]).
  assert (iter s2 = iter s1 + 1) as E2 by done.
  assert (pos token <= iter s2) as Hpos by (cbn; lia).
  assert (wp (classAdd (CharNode token (chr "-"));; mret true) (addOut (S k) s) s2) as Hhyphen.
  { eapply addHyphen_spec; [done|done|done|by rewrite Ht1|done|done|lia]. }
  destruct (_ || _) eqn:Hend; [exact Hhyphen|]. apply orb_false_iff in Hend as [Hend1 Hend2]. zbool.
  apply wp_bind. eapply wp_curCharClass; [done|].
  apply wp_bind, (wp_expect _ n); [by rewrite Hl1, last_snoc|].
  assert (0 <= isPos n) as Hpn0 by (by apply wfElem_token in Hwn as (? & _)).
  destruct (isChar n) eqn:Hch; cbn [negb].
  2: { destruct (is_ flag BMP); [exact Hhyphen|]. eapply add_failed_from; [done|lia]. }
  assert (exists after, (if zlen (classChars c1) =? 1 then Some false
     else (fun n => isProperty n RANGE) <$> classChars c1 !! (length (classChars c1) - 2)%nat) = Some after /\
     (after = false -> st1 <> AFTER_OPERAND)) as (after & Ea & Hafter).
  { rewrite Hl1. rewrite zlen_app, length_app. change (zlen [n]) with 1. cbn [length].
    rewrite (shape_union _ CLASS_RANGE) in Hs1; [|by rewrite Hu|by destruct (classType c)].
    destruct (classChars c) as [|x l _] using rev_ind.
    - exists false. split; [done|]. intros _ ->. cbn in Hs1.
      destruct (isCharClassOp n); [done|]. unfold afterOperand in Hs1. by rewrite Hch in Hs1.
    - exists (isProperty x RANGE). pose proof (zlen_nonneg l). rewrite zlen_app. change (zlen [x]) with 1.
      rewrite length_app. cbn [length]. destruct (Z.eqb_spec (zlen l + 1 + 1) 1); [lia|].
      replace (length l + 1 + 1 - 2)%nat with (length l) by lia.
      rewrite <- app_assoc. cbn [app]. rewrite list_lookup_middle by done. split; [done|].
      intros Hx ->. destruct (shape_after_operand CLASS_RANGE _ _ eq_refl Hs1 Hch) as (l0 & op & E & Hr).
      apply app_inj_tail in E as [_ ->]. congruence. }
  cbv zeta. eapply wp_bind, wp_expect; [exact Ea|]. destruct after; [exact Hhyphen|].
  assert (classChars c1 <> []) as Hne by (rewrite Hl1; by destruct (classChars c)).
  apply wp_bind. eapply wp_mono.
  { eapply (classSetType_spec _ _ _ _ CLASS_RANGE st1 Hi2 Hc2); [|done|done].
    rewrite Hl1. by rewrite <- (shape_union (classType c)); [|rewrite Hu|destruct (classType c)]. }
  intros [] s3 (c3 & Hi3 & Hc3 & E3 & Hl3 & Ht3).
  assert (st1 = AFTER_CHAR) as ->.
  { specialize (Hafter eq_refl). assert (st1 <> START_SHAPE).
    { intros ->. apply Hne, (shape_start _ _ (top_shape _ _ _ Hc1)). }
    by destruct st1. }
  apply wp_bind. eapply wp_mono.
  { eapply (classAdd_spec _ _ _ _ (PropertyNode token RANGE 0) PENDING_OP Hi3 Hc3); [done|cbn; lia|].
    eapply addOperator_shape; [done|done|by rewrite Hl3|done|by rewrite Ht3]. }
  intros [] s4 (c4 & Hi4 & Hc4 & E4 & _). wps. eapply add_ok; [done|done|lia|]. intros _.
  split; [lia|]. intros Hb4. rewrite E4, E3, E2 in Hb4. by rewrite (restAt_byte _ _ _ Hb4) in Hend2.
Qed.

(** ** Characters and strings of a class *)

Definition charOut (s : State) (o : option Node) (s' : State) : Prop :=
  match o with
  | Some n => exists i, s' = setIter i s /\ iter s < i <= len /\ (forall l, l <> 0 -> Quiet (iter s) l i l) /\
                wfChar ref n /\ pos (getToken n) = iter s
  | None => ErrAt s s'
  end.

Lemma readsChar_class s c s' i :
  readsChar ref s c s' -> s' = setIter i s -> 0 <= iter s -> i <= len ->
  (forall b, byteAt (iter s) = Some b -> b <> chr "\" /\ b <> chr "[" /\ b <> chr "]") ->
  forall l, l <> 0 -> Quiet (iter s) l i l.
Proof.
  intros (i' & -> & Hr & _ & H1 & H2) E ? ? Hb l Hl.
  assert (i' = i) as -> by (apply (f_equal iter) in E; exact E).
  destruct (Z.lt_ge_cases c 128).
  - destruct H1 as [-> Hc]; [done|]. destruct (Hb _ Hc) as (? & ? & ?). by eapply Quiet_class_char.
  - apply Quiet_high; [lia..|by apply H2].
Qed.

Lemma parseCodePointInCharClass_spec s b :
  atPos ref s -> byteAt (iter s) = Some b ->
  (is_ flag UNICODE_SET = false -> b <> chr "\" /\ b <> chr "[" /\ b <> chr "]") ->
  wp (parseCodePointInCharClass ref flag) (charOut s) s.
Proof.
  intros [Hi He] Hb Hset. unfold parseCodePointInCharClass. apply byteAt_range in Hb as Hbr.
  assert ((b <> chr "\" /\ b <> chr "[" /\ b <> chr "]") ->
    wp (o ← gets iter;
        codePoint ← nextValidCodePoint ref;
        if codePoint =? -1 then mret None
        else t ← getTokenFrom o; mret (Some (CharNode t codePoint))) (charOut s) s) as Hchar.
  { intros Hne. wps. eapply wp_mono; [by eapply nextValidCodePoint_spec|]. intros c s' [Hc|[-> ?]]; [|by wps].
    pose proof Hc as (i & -> & Hr & Hcp & _). apply isCodePoint_range in Hcp as Hcr.
    destruct (Z.eqb_spec c (-1)); [lia|]. wps. exists i. split; [done|]. split; [done|]. split; [|split; [split; [|done]|]].
    - eapply readsChar_class; [done|done|lia|lia|]. intros b' Hb'. by simplify_eq.
    - apply tok_from; lia.
    - apply u32_len with ref; lia. }
  destruct (is_ flag UNICODE_SET); [|apply Hchar; by apply Hset]. wps.
  destruct (startsWithClassSetReservedDoublePunctuator _) eqn:Hd.
  { assert (iter s + 2 <= len).
    { destruct (restAt (iter s)) as [|x [|y r]] eqn:E; [done..|].
      pose proof (restAt_zlen ref (iter s) Hi) as Hz. rewrite E, !zlen_cons in Hz. pose proof (zlen_nonneg r). lia. }
    wps. apply wp_advance; [lia|]. wps. eapply report_from; [done..|lia|lia|]. intros s' ?. by wps. }
  wps. destruct (Z.eqb_spec (iter s) len); [lia|]. wps. apply (wp_deref _ b); [done|]. wps.
  destruct (isClassSetSyntaxCharacter b) eqn:Hsyn.
  { wps. apply wp_advance; [lia|]. wps. eapply report_from; [done..|lia|lia|]. intros s' ?. by wps. }
  apply Hchar. split_and!; by intros ->.
Qed.

Definition openString (e : option Node) : Prop :=
  match e with
  | Some (SeqNode t l) => tokOk t /\ (2 <= length l)%nat /\ All (wfChar ref) l
  | Some n => wfChar ref n
  | None => True
  end.

Lemma wfChar_token n : wfChar ref n -> tokOk (getToken n).
Proof. destruct n; cbn; tauto. Qed.

Lemma string_append t l0 e n :
  tokOk t -> All (wfString ref) l0 -> openString e -> wfChar ref n ->
  exists t' e', appendToLast t (l0 ++ [e]) n = Some (AltNode t' (l0 ++ [Some e'])) /\ tokOk t' /\
    openString (Some e') /\ pos t' = pos t.
Proof.
  intros Ht Hl He Hn. apply wfChar_token in Hn as Hnt. unfold appendToLast. rewrite last_snoc, removelast_last.
  cbn [mbind option_bind]. assert (tokOk (extendToken t (getToken n))) by by apply extendToken_ok.
  assert (forall p, wfChar ref p -> openString (Some (mkSeq p n))) as Hseq.
  { intros p Hp. apply wfChar_token in Hp as Hpt. split; [|split; [done|by split; [|split]]].
    by repeat apply extendToken_ok. }
  assert (forall e', openString (Some e') -> exists t' e'',
    Some (AltNode (extendToken t (getToken n)) (l0 ++ [Some e'])) = Some (AltNode t' (l0 ++ [Some e''])) /\ tokOk t' /\
    openString (Some e'') /\ pos t' = pos t) as Hdone.
  { intros e' He'. eexists _, e'. split_and!; [done|done|done|apply pos_extend]. }
  destruct e as [p|]; [|apply Hdone; by destruct n].
  destruct p; try (by apply Hdone, Hseq). destruct He as (? & ? & ?). apply Hdone. split; [by apply extendToken_ok|].
  split; [rewrite length_app; cbn; lia|]. apply All_app. by split; [|split].
Qed.

Lemma openString_wf e : openString (Some e) -> wfString ref (Some e).
Proof. by destruct e. Qed.

(** The alternative that is ended at [p]. *)
Lemma string_close t l0 e p :
  tokOk t -> All (wfString ref) l0 -> openString e -> 0 <= p <= len ->
  exists t' l', (match last (l0 ++ [e]) with
     | Some None =>
         match appendToLast t (l0 ++ [e]) (EmptyNode {| pos := p; size := 0 |}) with
         | Some (AltNode t' l') => Some (t', l')
         | _ => None
         end
     | Some (Some _) => Some (t, l0 ++ [e])
     | None => None
     end) = Some (t', l') /\ tokOk t' /\ l' <> [] /\ All (wfString ref) l' /\ pos t' = pos t.
Proof.
  intros Ht Hl He Hp. rewrite last_snoc. assert (tokOk {| pos := p; size := 0 |}) as Hpt by (split_and!; cbn; lia).
  destruct e as [e|].
  - eexists _, _. split_and!; [done|done|by destruct l0| |done]. apply All_app. split; [done|].
    split; [|done]. by apply openString_wf.
  - unfold appendToLast. rewrite last_snoc, removelast_last. cbn [mbind option_bind].
    eexists _, _. split_and!; [done|by apply extendToken_ok|by destruct l0| |apply pos_extend].
    apply All_app. by split.
Qed.

(** *** States in which only the cursor and what was read ahead differ *)

Lemma ClassInv_next k s s' : ClassInv k s -> Inv k [] s' -> frames s' = frames s -> iter s <= iter s' -> ClassInv k s'.
Proof.
  intros (_ & Hf & Hs) Hi E Hr. split; [done|]. split; [|done]. rewrite E.
  eapply Forall_impl; [exact Hf|]. intros f. by apply frameClass_mono.
Qed.

(** An operand is read; the classes stay as they are. *)
Definition operandOut (k : nat) (s : State) (o : option Node) (s' : State) : Prop :=
  match o with
  | Some n => ClassInv k s' /\ iter s < iter s' /\ operandAt s' n
  | None => Failed s'
  end.

Lemma charOut_operand k s o s' :
  ClassInv (S k) s -> charOut s o s' -> operandOut (S k) s o s'.
Proof.
  intros Hi. pose proof Hi as (Hinv & _). destruct o as [n|]; cbn.
  - intros (i & -> & Hr & Hq & Hn & Hp). split; [apply ClassInv_move; [done|lia|apply Hq; lia]|].
    split; [st; lia|]. split; [by destruct n|]. split; [by destruct n|]. unfold isPos. st. lia.
  - intros ?. by eapply Inv_err.
Qed.

Lemma escape_operand op k s o s' :
  op <> DEFAULT -> ClassInv (S k) s -> escOut ref flag op (S k) [] s o s' -> operandOut (S k) s o s'.
Proof.
  intros Hop Hi. destruct o as [n|]; [|done]. intros (Hinv & Hr & Hf & _ & Hst & _ & _ & Hesc).
  split; [eapply ClassInv_next; [exact Hi|exact Hinv|exact Hf|lia]|]. split; [done|].
  destruct (escapeNode_elem _ op n Hop (Hesc Hop)). split; [done|]. split; [done|].
  unfold startsAt in Hst. unfold isPos. lia.
Qed.

Lemma operandOut_trans k s s1 o s' :
  iter s <= iter s1 -> operandOut k s1 o s' -> operandOut k s o s'.
Proof. destruct o as [n|]; [|done]. intros ? (? & ? & ?). by split; [|split; [lia|]]. Qed.

(** The loop of a string, with the alternatives [l0] and [e] that are read. *)
Lemma classStringLoop_spec k fuel : forall s t l0 e,
  is_ flag UNICODE_SET = true -> ClassInv (S k) s -> len - iter s < Z.of_nat fuel ->
  tokOk t -> pos t <= iter s -> All (wfString ref) l0 -> openString e ->
  wp (classStringLoop ref flag extension fuel t (l0 ++ [e])) (operandOut (S k) s) s.
Proof.
  induction fuel as [|fuel IH]; intros s t l0 e Hset Hi Hf Ht Hp Hl He;
    pose proof Hi as (Hinv & _); pose proof (Inv_at _ _ _ _ _ Hinv) as [Hir Her]; [lia|].
  cbn [classStringLoop]. wps. destruct (Z.eqb_spec (iter s) len) as [|Hend].
  { wps. eapply class_report; [done|done|]. intros s' ?. by wps. }
  destruct (byteAt_Some ref (iter s)) as [b Hb]; [lia|]. apply wp_bind, (wp_deref _ b); [done|].
  (* a character after the last alternative *)
  assert (forall o s1, operandOut (S k) s o s1 -> (forall n, o = Some n -> wfChar ref n) ->
    wp (match o with
        | None => mret None
        | Some n =>
            '(t', l') ← expect (match appendToLast t (l0 ++ [e]) n with
                                | Some (AltNode t' l') => Some (t', l')
                                | _ => None end);
            classStringLoop ref flag extension fuel t' l'
        end) (operandOut (S k) s) s1) as Hchar.
  { intros [n|] s1 Ho Hn; [|by wps]. destruct Ho as (Hi1 & Hr1 & _).
    destruct (string_append t l0 e n Ht Hl He (Hn n eq_refl)) as (t' & e' & E & Ht' & He' & Hp').
    apply wp_bind. eapply wp_expect; [by rewrite E|]. cbv beta iota.
    eapply wp_mono; [apply IH; [done|done|lia|done|lia|done|done]|].
    intros o s2. apply operandOut_trans. lia. }
  destruct (Z.eqb_spec b (chr "\")) as [->|Hb1].
  { apply wp_bind. eapply wp_mono; [apply parseAtomEscape_spec; [done..|]; done|].
    intros o s1 Ho. assert (operandOut (S k) s o s1) as Hop by by eapply (escape_operand IN_CLASS_STRING).
    destruct o as [n|]; [|by wps].
    assert (isChar n = true /\ wfChar ref n) as [Hch Hn].
    { destruct Ho as (_ & _ & _ & _ & _ & _ & _ & Hesc). specialize (Hesc ltac:(done)). destruct n; try done; cbn in Hesc; naive_solver. }
    apply wp_bind, wp_assert; [done|]. apply (Hchar (Some n)); [done|]. by intros ? [= <-]. }
  destruct (Z.eqb_spec b (chr "}")) as [->|Hb2].
  { unfold curPos. wps. rewrite (u32_len ref Hlen) by lia.
    destruct (string_close t l0 e (iter s) Ht Hl He ltac:(lia)) as (t' & l' & E & Ht' & Hne & Hl' & Hp').
    eapply wp_expect; [exact E|]. cbv beta iota. wps. apply wp_advance; [lia|]. wps.
    rewrite (u32_len ref Hlen) by lia.
    split; [apply ClassInv_move; [done|lia|by eapply Quiet_plain]|]. split; [st; lia|].
    split; [|split; [done|]].
    - split; [|by split]. apply extendToken_ok; [done..|]. split_and!; cbn; lia.
    - unfold isPos. cbn [getToken]. rewrite pos_extend. st. lia. }
  destruct (Z.eqb_spec b (chr "|")) as [->|Hb3].
  { unfold curPos. wps. rewrite (u32_len ref Hlen) by lia.
    destruct (string_close t l0 e (iter s) Ht Hl He ltac:(lia)) as (t' & l' & E & Ht' & Hne & Hl' & Hp').
    eapply wp_expect; [exact E|]. cbv beta iota. wps. apply wp_advance; [lia|].
    eapply wp_mono; [apply IH; [done| |st; lia|done|st; lia|done|done]|].
    - apply ClassInv_move; [done|lia|by eapply Quiet_plain].
    - intros o s2. apply operandOut_trans. st. lia. }
  apply wp_bind. eapply wp_mono; [eapply parseCodePointInCharClass_spec; [by split|done|congruence]|].
  intros o s1 Ho. apply Hchar; [by apply charOut_operand|]. intros n ->. by destruct Ho as (? & _ & _ & _ & ? & _).
Qed.

Lemma parseClassString_spec k s :
  is_ flag UNICODE_SET = true -> ClassInv (S k) s ->
  StringRef.startsWith (restAt (iter s)) (lit "\q") = true ->
  wp (parseClassString ref flag extension) (operandOut (S k) s) s.
Proof.
  intros Hset Hi Hs. pose proof Hi as (Hinv & _). pose proof (Inv_at _ _ _ _ _ Hinv) as [Hir He].
  pose proof (starts_len ref (iter s) _ Hir Hs) as Hl. change (zlen (lit "\q")) with 2 in Hl.
  assert (byteAt (iter s) = Some (chr "\")) as Hb by (eapply starts_first; [lia|exact Hs|done]).
  unfold parseClassString. apply wp_bind, wp_assert; [done|]. wps. rewrite Hs.
  apply wp_assert; [done|]. wps. apply wp_advance; [lia|]. wps.
  assert (forall l, Quiet (iter s) l (iter s + 2) l) as Hq by (apply escape2_quiet; [lia|done|lia]).
  destruct (StringRef.startsWith (restAt (iter s + 2)) (lit "{")) eqn:Ho; cbn [negb].
  2: { unfold invalidEscape. wps. eapply report_from; [done..|lia|lia|]. intros s' ?. wps. by eapply Inv_err. }
  assert (byteAt (iter s + 2) = Some (chr "{")) as Hob by (eapply starts_first; [lia|exact Ho|done]).
  apply byteAt_range in Hob as Hobr. wps. apply wp_advance; st; [lia|]. wps.
  rewrite setIter_setIter. eapply wp_mono.
  - apply (classStringLoop_spec k _ _ _ [] None Hset).
    + apply ClassInv_move; [done|lia|]. eapply Quiet_trans; [apply Hq|]. by eapply Quiet_plain.
    + st. unfold zlen in *. lia.
    + apply tok_from; lia.
    + st. cbn [pos]. rewrite (u32_len ref Hlen) by lia. lia.
    + done.
    + done.
  - intros o s2. apply operandOut_trans. st. lia.
Qed.

(** ** Opening and closing a class *)

Lemma mayContainStrings_total n : wfElem ref n -> exists b, mayContainStrings n = Some b.
Proof.
  destruct n as [| | | | | | | | |t l| |]; try (intros; by eexists). intros (_ & Hne & Hw).
  destruct l as [|e l]; [done|]. clear Hne. cbn [mayContainStrings]. revert Hw. generalize (e :: l). clear e l.
  induction l as [|e l IH]; [by eexists|]. intros [He Hl]. destruct (IH Hl) as [b Eb].
  destruct e as [p|]; [|done]. cbn [altStrings]. destruct p; eauto.
Qed.

Lemma classStrings_total ty l :
  All (wfElem ref) l -> (ty = CLASS_SUBTRACT -> l <> []) -> exists b, classStrings ty l = Some b.
Proof.
  intros Hw Hne.
  assert (exists b, anyStrings l = Some b) as Hany.
  { clear Hne. induction l as [|e l IH]; [by eexists|]. destruct Hw as [He Hl].
    destruct (mayContainStrings_total e He) as [b Eb]. cbn. rewrite Eb. destruct b; cbn; eauto. }
  assert (exists b, allStrings l = Some b) as Hall.
  { clear Hne Hany. induction l as [|e l IH]; [by eexists|]. destruct Hw as [He Hl].
    destruct (mayContainStrings_total e He) as [b Eb]. cbn. rewrite Eb.
    destruct (isCharClassOp e), b; cbn; eauto. }
  destruct ty; [done..|]. cbn. destruct l as [|e l]; [by destruct Hne|]. by apply mayContainStrings_total; destruct Hw.
Qed.

Definition operandResult (s : State) (o : Operand) (s' : State) : Prop :=
  match o with
  | OPERAND n level => exists k, level = Z.of_nat (S k) /\ operandOut (S k) s (Some n) s'
  | CLASS_OPENED level => exists k c, level = Z.of_nat (S k) /\ ClassInv (S k) s' /\ iter s < iter s' /\
                            topClass s' c START_SHAPE
  | CLASS_CLOSED n => Inv 0 [n] s' /\ iter s < iter s'
  | OPERAND_ERROR => Failed s'
  end.

(** What opening a class gives. *)
Definition openOut (s : State) (o : Operand) (s' : State) : Prop :=
  match o with OPERAND _ _ | CLASS_CLOSED _ => False | _ => operandResult s o s' end.

Lemma openOut_result s o s' : openOut s o s' -> operandResult s o s'.
Proof. by destruct o. Qed.

Lemma pushClass_inv k s i t invert :
  ClassInv k s -> byteAt (iter s) = Some (chr "[") -> (k = 0%nat \/ is_ flag UNICODE_SET = true) ->
  zlen (frames s) <> STACK_DEPTH_LIMIT -> iter s < i <= len ->
  (forall l, Quiet (iter s + 1) l i l) -> tokOk t -> pos t <= i ->
  let f := nodeFrame (CharClassNode t invert CLASS_UNION false []) in
  let s' := setStack (f :: frames s) (directions s) (setIter i s) in
  ClassInv (S k) s' /\ exists c, topClass s' c START_SHAPE.
Proof.
  intros (Hi & Hf & Hset) Hb Hk Hd Hr Hq Ht Hp f s'.
  set (c := {| classToken := t; classInvert := invert; classType := CLASS_UNION; classChars := [] |}).
  assert (classOk i c) as Hok by (split; [done|]; by split).
  split; [|exists c; constructor; try done; by exists f, (frames s)].
  split; [|split].
  - destruct Hi. subst s'. constructor; st; try done.
    + lia.
    + intros Hres. destruct (inv_live0 Hres) as [named Hs]. exists named.
      assert (Quiet (iter s) (Z.of_nat k) i (Z.of_nat (S k))) as Hq'; [|by apply Hq'].
      eapply Quiet_trans; [apply Quiet_open_class; [done|]|].
      * destruct Hk as [->|?]; [by left|by right].
      * replace (Z.of_nat (S k)) with (Z.of_nat k + 1) by lia. apply Hq.
    + rewrite zlen_cons. lia.
    + split; [|done]. exists CLASS_UNION, [], START_SHAPE. split; [done|]. by exists t, invert.
    + cbn [stackGroups]. change (frameGroups f) with (@nil Z). by rewrite app_nil_r.
    + cbn [stackLoops]. change (nodeList loops (node f)) with (@nil Z). by rewrite app_nil_r.
  - subst s'. st. cbn [take]. constructor; [by exists c|]. eapply Forall_impl; [exact Hf|]. intros g. apply frameClass_mono. lia.
  - intros ?. destruct Hk as [->|?]; [lia|done].
Qed.

Lemma openClass_spec k s :
  ClassInv k s -> byteAt (iter s) = Some (chr "[") -> (k = 0%nat \/ is_ flag UNICODE_SET = true) ->
  wp (openClass ref (Z.of_nat k)) (openOut s) s.
Proof.
  intros Hi Hb Hk. pose proof Hi as (Hinv & _). pose proof (Inv_at _ _ _ _ _ Hinv) as [Hir He].
  apply byteAt_range in Hb as Hbr. unfold openClass. wps. apply wp_advance; [lia|]. wps.
  destruct (Z.eqb_spec (zlen (frames s)) STACK_DEPTH_LIMIT) as [|Hd].
  { unfold reportOverflow. wps. eapply report_from; [done..|lia|lia|]. intros s' ?. wps. by eapply Inv_err. }
  assert (forall i, iter s < i <= len -> (forall l, Quiet (iter s + 1) l i l) -> forall invert,
    wp (t ← getTokenFrom (iter s);
        pushFrame (nodeFrame (CharClassNode t invert CLASS_UNION false []));;
        mret (CLASS_OPENED (Z.of_nat k + 1))) (openOut s) (setIter i s)) as Hpush.
  { intros i Hr Hq invert. wps. unfold pushFrame. wps.
    destruct (pushClass_inv k s i {| pos := u32 (iter s); size := u32 (i - iter s) |} invert) as (Hi' & c & Hc);
      [done..|apply tok_from; lia|cbn; rewrite (u32_len ref Hlen) by lia; lia|].
    exists k, c. split_and!; [lia|done|st; lia|done]. }
  wps. destruct (StringRef.startsWith _ _) eqn:Hs.
  - assert (byteAt (iter s + 1) = Some (chr "^")) as Hc by (eapply starts_first; [lia|exact Hs|done]).
    apply byteAt_range in Hc as Hcr. apply wp_advance; st; [lia|]. rewrite setIter_setIter.
    apply Hpush; [lia|]. intros l. by eapply Quiet_plain.
  - wps. apply (Hpush (iter s + 1)); [lia|]. intros l. apply Quiet_refl.
Qed.

Lemma popClass_inv k s c st :
  ClassInv (S k) s -> topClass s c st -> byteAt (iter s) = Some (chr "]") ->
  exists f r, frames s = f :: r /\ ClassInv k (setStack r (directions s) (setIter (iter s + 1) s)).
Proof.
  intros (Hi & Hf & Hset) Hc Hb. apply byteAt_range in Hb as Hbr.
  destruct (top_frame _ _ _ Hc) as (f & r & E & Htf & Hn). exists f, r. split; [done|].
  split; [|split; [|intros; apply Hset; lia]].
  - destruct Hi. rewrite E in *. constructor; st; try done.
    + lia.
    + intros Hres. destruct (inv_live0 Hres) as [named Hs]. exists named.
      assert (Quiet (iter s) (Z.of_nat (S k)) (iter s + 1) (Z.of_nat k)) as Hq'; [|by apply Hq'].
      replace (Z.of_nat k) with (Z.of_nat (S k) - 1) by lia. apply Quiet_close_class; [done|lia].
    + rewrite zlen_cons in inv_depth0. lia.
    + by destruct inv_stack0.
    + cbn [stackDirections] in inv_dirs0. by rewrite Htf in inv_dirs0.
    + cbn [stackGroups] in inv_groups0. unfold frameGroups in inv_groups0. rewrite Htf, Hn in inv_groups0.
      cbn in inv_groups0. rewrite !app_nil_r in *. done.
    + cbn [stackLoops] in inv_loops0. rewrite Hn in inv_loops0. cbn in inv_loops0. rewrite !app_nil_r in *. done.
  - st. rewrite E in Hf. cbn [take] in Hf. inversion_clear Hf as [|? ? _ Hr].
    eapply Forall_impl; [exact Hr|]. intros g. apply frameClass_mono. lia.
Qed.

Lemma closeClass_spec k s c st :
  ClassInv (S k) s -> topClass s c st -> st <> PENDING_OP -> byteAt (iter s) = Some (chr "]") ->
  wp (closeClass ref (Z.of_nat (S k))) (operandResult s) s.
Proof.
  intros Hi Hc Hst Hb. pose proof Hi as (Hinv & _). pose proof (Inv_at _ _ _ _ _ Hinv) as [Hir He].
  apply byteAt_range in Hb as Hbr. unfold closeClass. apply wp_bind. eapply wp_curCharClass; [done|]. wps.
  pose proof Hc as [_ Ht Hw Hs (Hp & _ & _ & Hne)]. rewrite (u32_len ref Hlen) by lia.
  set (token := extendToken _ _).
  assert (tokOk token) as Htok by (apply extendToken_ok; [done..|]; split_and!; cbn; lia).
  assert (exists strings, classStrings (classType c) (classChars c) = Some strings) as [strings Estr].
  { apply classStrings_total; [exact Hw|]. intros E. apply Hne. by rewrite E. }
  cbv zeta. eapply wp_expect; [exact Estr|].
  destruct (classInvert c && strings) eqn:Hinvert.
  { wps. eapply class_report; [done|done|]. intros s' ?. by wps. }
  wps. apply wp_advance; [lia|]. unfold popFrame. wps.
  set (n := CharClassNode token (classInvert c) (classType c) strings (classChars c)).
  assert (wfElem ref n) as Hn.
  { split; [done|]. split; [|by split; [|split]]. exists st. split; [done|]. split; [done|].
    intros Hu ->. apply shape_start in Hs. by apply Hne. }
  destruct (popClass_inv k s c st Hi Hc Hb) as (f & r & E & Hi'). rewrite E. wps.
  replace (Z.of_nat (S k) - 1) with (Z.of_nat k) by lia.
  destruct (Z.eqb_spec (Z.of_nat k) 0) as [Hk|Hk].
  - assert (k = 0%nat) as -> by lia. split; [|st; lia]. destruct Hi' as (Hi' & _).
    by apply (Inv_push _ _ _ []) with (n := n) in Hi'.
  - exists (Nat.pred k). replace (S (Nat.pred k)) with k by lia. split; [done|]. split; [done|].
    split; [st; lia|]. split; [done|]. split; [done|]. unfold isPos. cbn [getToken n]. unfold token.
    rewrite pos_extend. st. lia.
Qed.

(** ** The loop of a class *)

(** A class whose last operator still gets its operand. *)
Definition ready (s : State) : Prop := exists c st, topClass s c st /\ (st = PENDING_OP -> nextOk s).

Lemma toOperand_spec k s o s' :
  operandOut (S k) s o s' -> operandResult s (toOperand (Z.of_nat (S k)) o) s'.
Proof. destruct o as [n|]; [|done]. intros ?. by exists k. Qed.

Lemma parseOperand_spec k s :
  ClassInv (S k) s -> ready s -> iter s <> len ->
  wp (parseOperand ref flag extension (Z.of_nat (S k))) (operandResult s) s.
Proof.
  intros Hi (c & st & Hc & Hst) Hend. pose proof Hi as (Hinv & _).
  pose proof (Inv_at _ _ _ _ _ Hinv) as [Hir He].
  destruct (byteAt_Some ref (iter s)) as [b Hb]; [lia|].
  unfold parseOperand. apply wp_bind, (wp_deref _ b); [done|].
  destruct (Z.eqb_spec b (chr "\")) as [->|Hb1].
  { wps. destruct (is_ flag UNICODE_SET && _) eqn:Hq.
    - apply andb_true_iff in Hq as [Hset Hq]. eapply wp_mono; [by apply parseClassString_spec|].
      intros o s'. wps. apply toOperand_spec.
    - eapply wp_mono; [apply (parseAtomEscape_spec _ _ _ Hbytes Hlen IN_CHAR_CLASS (S k) []); done|].
      intros o s' Ho. wps. apply toOperand_spec. by eapply (escape_operand IN_CHAR_CLASS). }
  destruct (Z.eqb_spec b (chr "[")) as [->|Hb2].
  { destruct (Z.eqb_spec (Z.of_nat (S k)) 0); [lia|]. cbn [orb].
    destruct (is_ flag UNICODE_SET) eqn:Hset; [eapply wp_mono; [apply openClass_spec; [done..|by right]|apply openOut_result]|].
    wps. apply byteAt_range in Hb as Hbr. apply wp_advance; [lia|]. wps. exists k. split; [done|].
    split; [apply ClassInv_move; [done|lia|]|split; [st; lia|split; [split; [|done]|split; [done|]]]].
    - apply Quiet_inner_bracket; [done|lia|done].
    - apply tok_cur; lia.
    - unfold isPos. cbn [getToken pos]. rewrite (u32_len ref Hlen) by lia. st. lia. }
  destruct (Z.eqb_spec b (chr "]")) as [->|Hb3].
  { eapply closeClass_spec; [done|done| |done]. intros Hp. by destruct (Hst Hp). }
  apply wp_bind. eapply wp_mono; [by eapply parseCodePointInCharClass_spec|].
  intros o s' Ho. wps. apply toOperand_spec. by apply charOut_operand.
Qed.

Definition classOut (s : State) (o : option Node) (s' : State) : Prop :=
  match o with
  | Some n => Inv 0 [n] s' /\ iter s < iter s'
  | None => Failed s'
  end.

Lemma classOut_trans s s1 o s' : iter s <= iter s1 -> classOut s1 o s' -> classOut s o s'.
Proof. destruct o as [n|]; [|done]. intros ? [? ?]. split; [done|lia]. Qed.

Lemma addOperands_spec k s n :
  ClassInv (S k) s -> operandAt s n ->
  wp (ok ← checkRange flag n;
      if negb ok then mret false
      else if is_ flag UNICODE_SET then addSetOperand ref n else addOperand ref flag n) (addOut (S k) s) s.
Proof.
  intros Hi Hn. destruct (ClassInv_top _ _ Hi) as (c & st & Hc). apply wp_bind.
  eapply wp_mono; [by eapply checkRange_spec|]. intros [|] s1; cbn [negb]; [|intros ?; by wps].
  intros (c1 & st1 & Hi1 & Hc1 & E1 & Hfit).
  assert (operandAt s1 n) as Hn1 by (destruct Hn as (? & ? & ?); split; [done|]; split; [done|lia]).
  assert (forall ok s2, addOut (S k) s1 ok s2 -> addOut (S k) s ok s2) as Hout.
  { intros [|] s2; [|done]. intros (c2 & st2 & ? & ? & ? & ?). exists c2, st2. split_and!; [done|done|lia|done]. }
  destruct (is_ flag UNICODE_SET) eqn:Hset.
  - eapply wp_mono; [by eapply addSetOperand_spec|]. apply Hout.
  - eapply wp_mono; [by eapply addOperand_spec|]. apply Hout.
Qed.

Lemma charClassLoop_spec fuel : forall k s,
  ClassInv (S k) s -> ready s -> len - iter s < Z.of_nat fuel ->
  wp (charClassLoop ref flag extension fuel (Z.of_nat (S k))) (classOut s) s.
Proof.
  induction fuel as [|fuel IH]; intros k s Hi Hready Hf;
    pose proof Hi as (Hinv & _); pose proof (Inv_at _ _ _ _ _ Hinv) as [Hir He]; [lia|].
  cbn [charClassLoop]. wps. destruct (Z.eqb_spec (iter s) len) as [|Hend].
  { destruct Hready as (c & st & Hc & _). apply wp_bind. eapply wp_curCharClass; [done|]. wps.
    eapply class_report; [done|apply Hc|]. intros s' ?. by wps. }
  apply wp_bind. eapply wp_mono; [by apply parseOperand_spec|].
  intros [n level|level|n|] s1; cbn [operandResult].
  - intros (k1 & -> & Hi1 & Hr1 & Hn). pose proof (addOperands_spec k1 s1 n Hi1 Hn) as Hadd.
    apply wp_elim in Hadd as (ok & s2 & Hadd & Hout).
    assert (forall (f : bool -> M (option Node)) Q, wp (f ok) Q s2 -> wp (ok ← checkRange flag n;
        ok ← (if negb ok then mret false
              else if is_ flag UNICODE_SET then addSetOperand ref n else addOperand ref flag n);
        f ok) Q s1) as Hwpf.
    { intros f Q HQ. unfold wp. unfold mbind, M_bind, mret, M_ret in *.
      revert Hadd. destruct (checkRange flag n s1) as [[b s']|]; [|done]. intros ->. exact HQ. }
    apply Hwpf. destruct ok; [|by wps].
    destruct Hout as (c2 & st2 & Hi2 & Hc2 & Hr2 & Hst2).
    eapply wp_mono; [apply IH; [done|by exists c2, st2|lia]|]. intros o s3. apply classOut_trans. lia.
  - intros (k1 & c1 & -> & Hi1 & Hr1 & Hc1).
    eapply wp_mono; [apply IH; [done|by exists c1, START_SHAPE|lia]|]. intros o s3. apply classOut_trans. lia.
  - intros ?. by wps.
  - intros ?. by wps.
Qed.

Lemma parseCharClass_spec s :
  Inv 0 [] s -> byteAt (iter s) = Some (chr "[") ->
  wp (parseCharClass ref flag extension) (classOut s) s.
Proof.
  intros Hi Hb. pose proof (Inv_at _ _ _ _ _ Hi) as [Hir He]. apply byteAt_range in Hb as Hbr.
  unfold parseCharClass. wps. apply wp_assert; [by rewrite (restAt_byte _ _ _ Hb)|].
  cbn [charClassLoop]. wps. destruct (Z.eqb_spec (iter s) len) as [|_]; [lia|].
  unfold parseOperand. wps. apply (wp_deref _ (chr "[")); [done|]. cbn [Z.eqb Pos.eqb orb].
  eapply wp_mono; [apply (openClass_spec 0); [|done|by left]|].
  { split; [done|]. split; [done|lia]. }
  intros [n level|level|n|] s1; cbn [openOut operandResult]; [done| |done|].
  - intros (k1 & c1 & -> & Hi1 & Hr1 & Hc1).
    eapply wp_mono; [apply charClassLoop_spec; [done|by exists c1, START_SHAPE|unfold zlen in *; lia]|].
    intros o s3. apply classOut_trans. lia.
  - intros ?. by wps.
Qed.
End spec.

End RegexClassSpec.
