(* ===== verification/RegexParserTotal.v ===== *)
(** The parser as a whole: it always ends, with a tree that is well-formed or with an
    error that points into the pattern. *)
From stdpp Require Import sorting.
From Stdlib Require Import Ascii.
From S2P Require Import Prelude NumUtil Unicode StringRef RegexNode RegexSyntax RegexParser RegexScan RegexParserInv RegexEscape RegexParserSpec RegexGroupSpec RegexClassSpec.
Import NumUtil UnicodeUtil RegexNode RegexSyntax RegexParser RegexScan RegexParserInv RegexEscape RegexParserSpec RegexGroupSpec RegexClassSpec.

Module RegexParserTotal.

Section spec.
Context `{UcpLaws} (ref : bytes) (flag : Flag) (extension : bool).
Context (Hbytes : Forall is_byte ref) (Hlen : zlen ref <= UINT32_MAX).
Abbreviation byteAt := (byteAt ref).
Abbreviation restAt := (restAt ref).
Abbreviation tokOk := (tokOk ref).
Abbreviation Quiet := (Quiet ref flag).
Abbreviation len := (zlen ref).
Abbreviation Inv := (Inv ref flag).
Abbreviation Failed := (Failed ref).
Abbreviation wfAt s := (wfn ref (refIndex s) (refName s)).

(** ** One round *)

(** What is true after a round that started in [s]. *)
Definition stepOut (s : State) (ok : bool) (s' : State) : Prop :=
  if ok then Inv 0 [] s' /\ iter s < iter s' else Failed s'.

Lemma repeatAtom_some s s0 n :
  Inv 0 [n] s -> iter s0 < iter s -> wp (repeatAtom ref flag (Some n)) (stepOut s0) s.
Proof.
  intros Hi Hr. unfold repeatAtom. apply wp_bind. eapply wp_mono; [by apply tryToParseQuantifier_spec|].
  intros [n'|] s1; cbn [quantOut].
  - intros (Hi1 & Hr1 & _). apply wp_bind. eapply wp_mono; [by apply append_spec|].
    intros [] s2 (Hi2 & E2). wps. split; [done|lia].
  - intros [Hf|(? & _)]; [|done]. pose proof Hf as ((e & He & _) & _). apply wp_bind. eapply wp_failed; [done|].
    by wps.
Qed.

(** A quantifier without an atom: an error, or an opening brace. *)
Lemma repeatAtom_none s b :
  Inv 0 [] s -> byteAt (iter s) = Some b -> b ∈ [chr "*"; chr "+"; chr "?"; chr "{"] ->
  wp (repeatAtom ref flag None) (stepOut s) s.
Proof.
  intros Hi Hb Hin. apply byteAt_range in Hb as Hbr. unfold repeatAtom. apply wp_bind.
  eapply wp_mono; [apply tryToParseQuantifier_spec; [done..|by exists b]|].
  intros [n'|] s1; cbn [quantOut].
  - intros (_ & _ & _ & ?). done.
  - intros [Hf|(_ & -> & Hbmp & Hb1)].
    + pose proof Hf as ((e & He & _) & _). apply wp_bind. eapply wp_failed; [done|]. by wps.
    + apply wp_bind, wp_hasError; [apply (inv_error _ _ _ _ _ Hi)|].
      apply wp_bind, (wp_deref _ (chr "{")); [done|]. rewrite Hbmp.
      apply wp_bind, wp_assert; [done|]. apply wp_bind, wp_assert; [done|]. wps.
      apply wp_advance; [lia|]. apply wp_bind. eapply wp_mono; [apply append_spec|].
      * done.
      * assert (Inv 0 [] (setIter (iter s + 1) s)) as Hi' by (apply Inv_move; [done|lia|by eapply Quiet_plain]).
        apply (Inv_push _ _ _ [] _ (CharNode {| pos := u32 (iter s); size := 1 |} (chr "{"))) in Hi'; [exact Hi'| |done..].
        split; [apply tok_cur; lia|done].
      * intros [] s2 (Hi2 & E2). wps. split; [done|]. st. lia.
Qed.

(** An atom of one character. *)
Lemma atom_here s n b :
  Inv 0 [] s -> byteAt (iter s) = Some b -> plain b = true ->
  wfAt (setIter (iter s + 1) s) n -> groups n = [] -> loops n = [] ->
  wp (repeatAtom ref flag (Some n)) (stepOut s) (setIter (iter s + 1) s).
Proof.
  intros Hi Hb Hp Hn Hg Hl. apply byteAt_range in Hb as Hbr. apply repeatAtom_some; [|st; lia].
  apply (Inv_push _ _ _ [] _ n); [|done..]. apply Inv_move; [done|lia|by eapply Quiet_plain].
Qed.

Lemma atom_token s b : byteAt (iter s) = Some b -> tokOk {| pos := u32 (iter s); size := 1 |}.
Proof. intros Hb. apply byteAt_range in Hb. apply tok_cur; lia. Qed.

Lemma appendBoundary_spec s t b :
  Inv 0 [] s -> byteAt (iter s) = Some b -> plain b = true ->
  wp (appendBoundary ref t) (stepOut s) s.
Proof.
  intros Hi Hb Hp. apply byteAt_range in Hb as Hbr. unfold appendBoundary. wps.
  eapply wp_mono; [apply append_spec; [done..|]|].
  - apply (Inv_push _ _ _ [] _ (BoundaryNode _ t)); [done| |done..]. by apply (atom_token s b).
  - intros [] s1 (Hi1 & E1). rewrite <- E1 in Hb. wps. apply wp_advance; [lia|]. wps.
    split; [|st; lia]. apply Inv_move; [done|lia|by eapply Quiet_plain].
Qed.

Lemma atomOrFail_spec s s0 o :
  match o with Some n => Inv 0 [n] s /\ iter s0 < iter s | None => Failed s end ->
  wp (atomOrFail ref flag o) (stepOut s0) s.
Proof. destruct o as [n|]; [|intros ?; cbn [atomOrFail]; by wps]. intros [? ?]. by apply repeatAtom_some. Qed.

Lemma closeBracket_spec s b msg :
  Inv 0 [] s -> byteAt (iter s) = Some b -> isCodePoint b = true ->
  (forall n, wfAt (setIter (iter s + 1) s) n -> groups n = [] -> loops n = [] ->
     wp (repeatAtom ref flag (Some n)) (stepOut s) (setIter (iter s + 1) s)) ->
  wp (closeBracket ref flag b msg) (stepOut s) s.
Proof.
  intros Hi Hb Hc Hatom. pose proof (Inv_at _ _ _ _ _ Hi) as [Hir He]. apply byteAt_range in Hb as Hbr.
  unfold closeBracket. wps. destruct (isEitherUnicodeMode flag).
  - wps. apply wp_reportError; [done|]. wps. eapply Inv_err; [exact Hi|]. eexists (iter s), _.
    rewrite setIter_self. split; [done|]. by apply (atom_token s b).
  - wps. apply wp_advance; [lia|]. apply Hatom; [|done..]. split; [by apply (atom_token s b)|done].
Qed.

Lemma parseStep_spec s : Inv 0 [] s -> iter s <> len -> wp (parseStep ref flag extension) (stepOut s) s.
Proof.
  intros Hi Hend. pose proof (Inv_at _ _ _ _ _ Hi) as [Hir He].
  destruct (byteAt_Some ref (iter s)) as [b Hb]; [lia|].
  assert (0 <= b < 256) as Hbb by by eapply byteAt_is_byte.
  assert (isCodePoint b = true) as Hbc by (apply isCodePoint_range; lia).
  unfold parseStep. apply wp_bind, (wp_deref _ b); [done|].
  destruct (Z.eqb_spec b (chr "^")) as [->|H1]; [by eapply appendBoundary_spec|].
  destruct (Z.eqb_spec b (chr "$")) as [->|H2]; [by eapply appendBoundary_spec|].
  destruct (Z.eqb_spec b (chr "\")) as [->|H3].
  { apply wp_bind. eapply wp_mono; [apply (parseAtomEscape_spec _ _ _ Hbytes Hlen DEFAULT 0 []); done|].
    intros o s1 Ho.
    assert (match o with Some n => Inv 0 [n] s1 /\ iter s < iter s1 | None => Failed s1 end) as Hatom.
    { destruct o as [n|]; [|done]. destruct Ho as (Hi1 & Hr1 & _ & Hn & _ & Hg & Hl & _).
      split; [|done]. by apply (Inv_push _ _ _ [] _ n). }
    destruct o as [n|]; [|by apply atomOrFail_spec].
    destruct n; try by apply atomOrFail_spec.
    destruct Hatom as [Hi1 Hr1]. apply wp_bind. eapply wp_mono; [by apply append_spec|].
    intros [] s2 (Hi2 & E2). wps. split; [done|lia]. }
  destruct (Z.eqb_spec b (chr ".")) as [->|H4].
  { apply byteAt_range in Hb as Hbr. wps. apply wp_advance; [lia|]. eapply atom_here; [done|done|done| |done..].
    by eapply atom_token. }
  destruct (_ || _) eqn:Hquant.
  { eapply repeatAtom_none; [done|done|].
    assert (b = chr "*" \/ b = chr "+" \/ b = chr "?") as [->|[->| ->]] by lia; set_solver. }
  destruct (Z.eqb_spec b (chr "(")) as [->|H5].
  { eapply wp_mono; [by apply enterGroup_spec|]. done. }
  destruct (Z.eqb_spec b (chr ")")) as [->|H6].
  { apply wp_bind. eapply wp_mono; [by apply exitGroup_spec|]. intros [n|] s1 Ho; apply atomOrFail_spec; [|done].
    destruct Ho. split; [done|lia]. }
  destruct (Z.eqb_spec b (chr "[")) as [->|H7].
  { apply wp_bind. eapply wp_mono; [by apply parseCharClass_spec|]. intros o s1 Ho. apply atomOrFail_spec.
    by destruct o. }
  destruct (Z.eqb_spec b (chr "]")) as [->|H8].
  { eapply closeBracket_spec; [done..|]. intros n Hn Hg Hl. apply byteAt_range in Hb as Hbr.
    apply repeatAtom_some; [|st; lia]. apply (Inv_push _ _ _ [] _ n); [|done..].
    apply Inv_move; [done|lia|]. by apply Quiet_lone_bracket. }
  destruct (Z.eqb_spec b (chr "{")) as [->|H9].
  { eapply repeatAtom_none; [done|done|]. set_solver. }
  destruct (Z.eqb_spec b (chr "}")) as [->|H10].
  { eapply closeBracket_spec; [done..|]. intros n Hn Hg Hl. by eapply atom_here. }
  destruct (Z.eqb_spec b (chr "|")) as [->|H11].
  { eapply wp_mono; [by apply nextAlternative_spec|]. intros ok s1 (-> & Hi1 & E1). split; [done|lia]. }
  wps. eapply wp_mono; [by eapply nextValidCodePoint_spec|]. intros c s1 [Hc|[-> Hf]].
  2: { cbn. wps. by eapply Inv_err. }
  pose proof Hc as (i & -> & Hr & Hcp & Hlow & Hhigh). apply isCodePoint_range in Hcp as Hcr.
  destruct (Z.ltb_spec (-1) c); [|lia]. wps.
  apply repeatAtom_some; [|st; lia]. apply (Inv_push _ _ _ [] _ (CharNode _ c)); [|split; [apply tok_from; lia|done]|done..].
  apply Inv_move; [done|lia|]. destruct (Z.lt_ge_cases c 128).
  - destruct Hlow as [-> Hbc']; [done|]. assert (b = c) as -> by congruence. eapply Quiet_plain; [done|].
    unfold plain. by repeat (rewrite (proj2 (Z.eqb_neq _ _)) by done).
  - apply Quiet_high; [lia..|by apply Hhigh].
Qed.

Lemma parseLoop_spec fuel : forall s,
  Inv 0 [] s -> len - iter s < Z.of_nat fuel ->
  wp (parseLoop ref flag extension fuel)
    (fun ok s' => if ok : bool then Inv 0 [] s' /\ iter s' = len else Failed s') s.
Proof.
  induction fuel as [|fuel IH]; intros s Hi Hf; pose proof (Inv_at _ _ _ _ _ Hi) as [Hir He]; [lia|].
  cbn [parseLoop]. wps. destruct (Z.eqb_spec (iter s) len); [by wps|].
  apply wp_bind. eapply wp_mono; [by apply parseStep_spec|]. intros [|] s1; cbn [stepOut].
  - intros [Hi1 Hr1]. apply IH; [done|lia].
  - intros ?. by wps.
Qed.

(** ** The whole pattern *)

(** A tree of the whole pattern; its named references have no index yet. *)
Record Parsed (n : Node) (s : State) : Prop := {
  parsed_error : error s = None;
  parsed_wf : wfn ref (fun i => 0 < i <= captureGroupCount_ s) (refName s) n;
  parsed_groups : groups n = upto 1 (captureGroupCount_ s);
  parsed_loops : loops n = upto 0 (loopCount_ s)
}.

(** What holds of the names, with or without an error. *)
Record Names (s : State) : Prop := {
  names_ok : namesOk (namedCaptureGroups_ s);
  names_range : map_Forall (fun _ l => Forall (fun i => 0 < i <= captureGroupCount_ s) l) (namedCaptureGroups_ s);
  names_size : Z.of_nat (base.size (namedCaptureGroups_ s)) <= captureGroupCount_ s;
  names_count : 0 <= captureGroupCount_ s <= CAPTURE_GROUP_INDEX_MAX;
  names_loops : 0 <= loopCount_ s <= LOOP_INDEX_MAX;
  names_refs : Forall (fun e => tokOk (fst e)) (namedRefNodes s)
}.

Definition parseOut (o : option Node) (s : State) : Prop :=
  match o with Some n => Parsed n s /\ Names s | None => Failed s end.

Lemma initial_inv : Inv 0 [] (setStack [emptyFrame] (directions initial) initial).
Proof.
  constructor; st; cbn; try done.
Qed.

(** The scan ends with what was counted. *)
Lemma resolved_count s :
  Inv 0 [] s -> iter s = len -> captureGroupResolved s = true ->
  prefetchedCaptureGroupCount s = captureGroupCount_ s.
Proof.
  intros Hi E Hr. destruct (inv_live _ _ _ _ _ Hi Hr) as (named & fuel & Hs). rewrite E in Hs.
  destruct fuel as [|fuel]; [done|]. cbn [scanGroups] in Hs.
  rewrite lookup_ge_None_2 in Hs by (unfold zlen; lia). congruence.
Qed.

Lemma Inv_names k pend s : Inv k pend s -> Names s.
Proof. intros []. by constructor. Qed.

Lemma Inv_parsed s f p n :
  Inv 0 [] s -> iter s = len -> frames s = [f] -> closeBody (node f) p = Some n -> 0 <= p <= len ->
  Parsed n (setStack [] (directions s) s).
Proof.
  intros Hi E Hf Hc Hp. pose proof (inv_stack _ _ _ _ _ Hi) as Hs. rewrite Hf in Hs.
  apply groupStack_cons in Hs as (Ho & Hn & _). specialize (Hn eq_refl).
  destruct (closeBody_ok ref _ _ Hlen _ p Ho Hp) as (n' & E' & Hw & Hg & Hl).
  assert (n' = n) as -> by congruence.
  pose proof (inv_groups _ _ _ _ _ Hi) as Hig. pose proof (inv_loops _ _ _ _ _ Hi) as Hil.
  rewrite Hf in Hig, Hil. cbn in Hig, Hil. rewrite !app_nil_r in Hig, Hil.
  unfold frameGroups in Hig. rewrite Hn in Hig. cbn [app] in Hig.
  constructor; st.
  - apply (inv_error _ _ _ _ _ Hi).
  - eapply wfn_mono; [| |exact Hw]; [|done]. intros i [Hr Hi']. by rewrite (resolved_count s) in Hi'.
  - by rewrite Hg.
  - by rewrite Hl.
Qed.

Lemma parse_spec : wp (parse ref flag extension) parseOut initial.
Proof.
  unfold parse, pushFrame. wps. change (frames initial) with (@nil Frame).
  eapply wp_mono; [apply parseLoop_spec; [apply initial_inv|cbn; unfold zlen; lia]|].
  intros [|] s; cbn [negb]; [|intros ?; by wps]. intros [Hi E]. wps.
  destruct (frames_top _ _ _ _ Hi) as (f & r & Hf). rewrite Hf.
  case_on; zbool.
  - wps. unfold reportUnclosedGroup. eapply Inv_report; [done|done|pose proof (inv_iter _ _ _ _ _ Hi); lia|].
    intros s' ?. by wps.
  - assert (r = []) as -> by (destruct r; [done|]; rewrite !zlen_cons in *; pose proof (zlen_nonneg r); lia).
    unfold curNode, topFrame. wps. apply (wp_expect _ f); [by rewrite Hf|]. wps.
    unfold popFrame. wps. rewrite Hf. wps. unfold curPos. wps. rewrite E, (u32_len ref Hlen) by (pose proof (zlen_nonneg ref); lia).
    pose proof (inv_stack _ _ _ _ _ Hi) as Hs. rewrite Hf in Hs. apply groupStack_cons in Hs as (Ho & _).
    destruct (closeBody_ok ref _ _ Hlen _ len Ho) as (n & En & _); [pose proof (zlen_nonneg ref); lia|].
    eapply wp_expect; [exact En|]. wps. split.
    + eapply Inv_parsed; [done|done|done|done|pose proof (zlen_nonneg ref); lia].
    + apply Inv_names in Hi. by destruct Hi; constructor.
Qed.

(** ** The named references *)

Lemma toEntry_total gm : namesOk gm -> exists l, mapM toEntry (map_to_list gm) = Some l /\ map fst l = (map_to_list gm).*1.
Proof.
  intros Hn. assert (Forall (fun e => snd e <> []) (map_to_list gm)) as Hall.
  { apply Forall_forall. intros [name l] Hin%elem_of_map_to_list. by apply (Hn name). }
  induction Hall as [|[name l] r He _ IH]; [by exists []|].
  destruct IH as (l' & E & Hf). destruct l as [|i [|j l]]; [done| |]; cbn; rewrite E; cbn; eexists; (split; [done|]); cbn; by f_equal.
Qed.

Lemma namedEntries_total gm : namesOk gm ->
  exists l, namedEntries gm = Some l /\ Permutation (map fst l) (map_to_list gm).*1.
Proof.
  intros Hn. destruct (toEntry_total gm Hn) as (l & E & Hf). unfold namedEntries. rewrite E. cbn [mbind option_bind].
  eexists. split; [done|]. rewrite <- Hf. apply Permutation_map. apply merge_sort_Permutation.
Qed.

Lemma checkNamedRefs_spec entries refs s :
  Forall (fun e => tokOk (fst e)) refs -> error s = None ->
  wp (checkNamedRefs entries refs) (fun ok s' =>
    if ok : bool then s' = s /\ Forall (fun e => offsetOf entries (snd e) <> None) refs
    else exists e, s' = setError e s /\ tokOk (errToken e)) s.
Proof.
  intros Hr He. induction Hr as [|[t name] r Ht _ IH]; cbn [checkNamedRefs]; [by wps|].
  destruct (offsetOf entries name) as [i|] eqn:E.
  - eapply wp_mono; [exact IH|]. intros [|] s'; [|done]. intros [-> ?]. split; [done|]. constructor; [|done].
    cbn. congruence.
  - unfold reportUndefinedNamedRef. wps. apply wp_reportError; [done|]. wps. by eexists.
Qed.
End spec.

(** The references of a tree: the name, which is empty for a numeric one, and the index. *)
Fixpoint backRefs (n : Node) : list (bytes * Z) :=
  match n with
  | BackRefNode _ name i => [(name, i)]
  | RepeatNode _ _ p | LookAroundNode _ _ p | GroupNode _ _ _ _ _ p => backRefs p
  | SeqNode _ l => concat (map backRefs l)
  | AltNode _ l => concat (map (fun e => match e with Some p => backRefs p | None => [] end) l)
  | _ => []
  end.

Definition refOk (B : Z -> Prop) (N : bytes -> Prop) (e : bytes * Z) : Prop :=
  match fst e with [] => B (snd e) | _ => N (fst e) end.

Lemma backRefs_ok ref B N n : wfn ref B N n -> Forall (refOk B N) (backRefs n).
Proof.
  revert n. refine (Node_nested_ind _ (fun e => match e with
     | Some p => wfn ref B N p -> Forall (refOk B N) (backRefs p)
     | None => True end) _ _ _ _ _ _ _ _ _ _ _ _ _ _); try done; cbn [wfn backRefs].
  - intros t name i (_ & ?). by constructor.
  - intros t q p IH (_ & _ & ?). by apply IH.
  - intros t l Hl (_ & _ & Hw). rewrite All_Forall in Hw. induction Hl as [|x r Hx _ IH]; [done|].
    cbn. inversion_clear Hw. apply Forall_app. split; [by apply Hx|by apply IH].
  - intros t l Hl (_ & _ & Hw). rewrite All_Forall in Hw. induction Hl as [|x r Hx _ IH]; [done|].
    cbn. inversion_clear Hw. apply Forall_app. destruct x as [p|]; [|done]. split; [by apply Hx|by apply IH].
  - intros t ty p IH (_ & ?). by apply IH.
  - intros t ty i u v p IH (_ & _ & ?). by apply IH.
Qed.

Section named.
Context (entries : NamedCaptureGroups).
Abbreviation setRefs := (setNamedRefs entries).
Abbreviation setAlt := (fun e => match e with Some p => Some (setRefs p) | None => None end).

Lemma setNamedRefs_groups n : groups (setRefs n) = groups n /\ loops (setRefs n) = loops n.
Proof.
  revert n. refine (Node_nested_ind _ (fun e => match e with
     | Some p => groups (setRefs p) = groups p /\ loops (setRefs p) = loops p
     | None => True end) _ _ _ _ _ _ _ _ _ _ _ _ _ _); try done; cbn [setNamedRefs].
  - intros t name i. by case_on.
  - intros t q p [Hg Hl]. cbn. by rewrite Hg, Hl.
  - intros t l Hl. cbn. split; f_equal; induction Hl as [|x r [Hx Hx'] _ IH]; cbn; congruence.
  - intros t l Hl. cbn. split; f_equal; induction Hl as [|[p|] r Hx _ IH]; cbn; try congruence;
      destruct Hx; congruence.
  - intros t ty i u v p [Hg Hl]. cbn. by rewrite Hg, Hl.
Qed.

Lemma setNamedRefs_token n : getToken (setRefs n) = getToken n.
Proof. destruct n; try done. cbn. by case_on. Qed.

Lemma setNamedRefs_wf ref B N n : wfn ref B N n -> wfn ref B N (setRefs n).
Proof.
  revert n. refine (Node_nested_ind _ (fun e => wfAlt ref B N e -> wfAlt ref B N (setAlt e)) _ _ _ _ _ _ _ _ _ _ _ _ _ _);
    try done; cbn [setNamedRefs wfn].
  - intros t name i [? H]. case_on; [done|]. by destruct name.
  - intros t q p IH (? & Hq & ?). rewrite (proj1 (setNamedRefs_groups p)). split; [done|]. split; [done|]. by apply IH.
  - intros t l Hl (? & ? & Hw). split; [done|]. split; [by rewrite length_map|].
    rewrite All_Forall in *. rewrite Forall_map. clear -Hl Hw. induction Hl; inversion_clear Hw; constructor; auto.
  - intros t l Hl (? & ? & Hw). split; [done|]. split; [by destruct l|].
    change (All (wfAlt ref B N) l) in Hw. change (All (wfAlt ref B N) (map setAlt l)).
    rewrite All_Forall in *. rewrite Forall_map. clear -Hl Hw.
    induction Hl as [|x r Hx _ IH]; inversion_clear Hw; constructor; auto.
  - intros t ty p IH (? & ?). split; [done|]. by apply IH.
  - intros t ty i u v p IH (? & ? & ?). split; [done|]. split; [done|]. by apply IH.
Qed.

(** A reference of the tree after its name is looked up. *)
Definition setRef (e : bytes * Z) : bytes * Z :=
  if zlen (fst e) =? 0 then e else (fst e, default (snd e) (offsetOf entries (fst e))).

Lemma backRefs_set n : backRefs (setRefs n) = map setRef (backRefs n).
Proof.
  revert n. refine (Node_nested_ind _ (fun e => match e with
     | Some p => backRefs (setRefs p) = map setRef (backRefs p)
     | None => True end) _ _ _ _ _ _ _ _ _ _ _ _ _ _); try done; cbn [setNamedRefs].
  - intros t name i. cbn. unfold setRef. cbn. by case_on.
  - intros t l Hl. cbn. induction Hl as [|x r Hx _ IH]; [done|]. cbn. by rewrite map_app, Hx, IH.
  - intros t l Hl. cbn. induction Hl as [|[p|] r Hx _ IH]; [done| |]; cbn; rewrite ?map_app, IH; [by rewrite Hx|done].
Qed.

(** The offset is the position of the name. *)
Lemma offsetOf_Some name i :
  zlen entries <= UINT16_MAX -> offsetOf entries name = Some i ->
  0 <= i < zlen entries /\ exists e, entries !! Z.to_nat i = Some (name, e).
Proof.
  intros Hl. unfold offsetOf. destruct (list_find _ _) as [[k e]|] eqn:E; [|done]. intros [= <-].
  apply list_find_Some in E as (Hk & Hn & _). apply lookup_lt_Some in Hk as Hlt.
  assert (u16 (Z.of_nat k) = Z.of_nat k) as ->.
  { apply wrap_small. unfold in_unsigned, UINT16_MAX, zlen in *. change (2 ^ 16) with 65536. lia. }
  rewrite Nat2Z.id. split; [unfold zlen; lia|]. exists (snd e). by destruct e; cbn in Hn; subst.
Qed.
End named.

(** ** The result *)

(** The tree [n] of a pattern: it is well-formed, its groups and its quantifiers are
    numbered in the order of the pattern, and each reference finds its group. *)
Record wfTree (ref : bytes) (t : SyntaxTree) (n : Node) : Prop := {
  tree_nodes : wfn ref (fun i => 0 < i <= captureGroupCount t)
                 (fun name => name ∈ map fst (namedCaptureGroups t)) n;
  tree_groups : groups n = upto 1 (captureGroupCount t);
  tree_loops : loops n = upto 0 (loopCount t);
  tree_counts : 0 <= captureGroupCount t <= CAPTURE_GROUP_INDEX_MAX /\ 0 <= loopCount t <= LOOP_INDEX_MAX;
  tree_names : NoDup (map fst (namedCaptureGroups t)) /\
    StronglySorted byFirstIndex (namedCaptureGroups t);
  tree_refs : Forall (refOk (fun i => 0 < i <= captureGroupCount t) (fun _ => True)) (backRefs n) /\
    Forall (fun e => fst e <> [] -> exists entry,
      namedCaptureGroups t !! Z.to_nat (snd e) = Some (fst e, entry)) (backRefs n)
}.

#[export] Instance byFirstIndex_total : Total byFirstIndex.
Proof. intros x y. unfold byFirstIndex. lia. Qed.
#[export] Instance byFirstIndex_trans : Transitive byFirstIndex.
Proof. intros x y z. unfold byFirstIndex. lia. Qed.

Lemma namedEntries_sorted gm l : namedEntries gm = Some l -> StronglySorted byFirstIndex l.
Proof.
  unfold namedEntries. destruct (mapM _ _) as [l0|]; [|done]. intros [= <-].
  apply Sorted_StronglySorted; [apply _|]. apply Sorted_merge_sort. apply _.
Qed.

Section total.
Context `{UcpLaws} (ref : bytes) (flag : Flag) (extension : bool).
Context (Hbytes : Forall is_byte ref) (Hlen : zlen ref <= UINT32_MAX).

(** The outcome of the parser. *)
Definition outcome (t : SyntaxTree) (s : State) : Prop :=
  match pattern t, error s with
  | Some n, None => wfTree ref t n
  | None, Some e => tokOk ref (errToken e)
  | _, _ => False
  end.

Lemma Parsed_tree n s entries :
  Parsed ref n s -> Names ref s -> namedEntries (namedCaptureGroups_ s) = Some entries ->
  Forall (fun e => offsetOf entries (snd e) <> None) (namedRefNodes s) ->
  wfTree ref {| RegexSyntax.flag := flag; loopCount := loopCount_ s; pattern := Some (setNamedRefs entries n);
                namedCaptureGroups := entries; captureGroupCount := captureGroupCount_ s |} (setNamedRefs entries n).
Proof.
  intros [He Hw Hg Hl] [Hok Hrange Hsize Hcount Hloops Hrefs] Hent Hoff.
  destruct (setNamedRefs_groups entries n) as [Eg El].
  destruct (namedEntries_total _ Hok) as (entries' & E' & Hperm). assert (entries' = entries) as -> by congruence.
  assert (zlen entries <= UINT16_MAX) as Hsmall.
  { apply Permutation_length in Hperm. rewrite length_map, length_fmap in Hperm.
    rewrite length_map_to_list in Hperm. unfold CAPTURE_GROUP_INDEX_MAX in *. unfold zlen. rewrite Hperm. lia. }
  assert (forall name, refName s name -> exists i, offsetOf entries name = Some i) as Hname.
  { intros name Hn. unfold refName in Hn. rewrite Forall_forall in Hoff.
    apply list_elem_of_fmap in Hn as (e & -> & Hin). specialize (Hoff e Hin).
    destruct (offsetOf entries (snd e)); [eauto|done]. }
  pose proof (backRefs_ok _ _ _ _ Hw) as Hbr.
  constructor; cbn [RegexSyntax.captureGroupCount RegexSyntax.loopCount RegexSyntax.namedCaptureGroups].
  - apply setNamedRefs_wf. eapply wfn_mono; [| |exact Hw]; [done|]. intros name Hn.
    destruct (Hname name Hn) as [i Hi]. destruct (offsetOf_Some _ _ _ Hsmall Hi) as (_ & e & He').
    apply list_elem_of_fmap. exists (name, e). split; [done|]. by eapply list_elem_of_lookup_2.
  - by rewrite Eg.
  - by rewrite El.
  - done.
  - split; [|by eapply namedEntries_sorted]. rewrite Hperm. apply NoDup_fst_map_to_list.
  - rewrite backRefs_set. rewrite !Forall_map. split; (eapply Forall_impl; [exact Hbr|]).
    + intros [name i]. unfold refOk, setRef. cbn. by destruct name.
    + intros [name i]. unfold refOk, setRef. cbn. destruct name as [|b name]; [done|]. intros Hn _.
      rewrite zlen_cons. pose proof (zlen_nonneg name). destruct (Z.eqb_spec (1 + zlen name) 0); [lia|].
      destruct (Hname _ Hn) as [j Hj]. rewrite Hj. cbn. by destruct (offsetOf_Some _ _ _ Hsmall Hj) as (_ & ?).
Qed.

Lemma parseTree_spec : wp (parseTree ref flag extension) outcome initial.
Proof.
  unfold parseTree. apply wp_bind. eapply wp_mono; [by apply parse_spec|].
  intros [n|] s; cbn [parseOut].
  - intros [Hp Hn]. destruct (namedEntries_total _ (names_ok _ _ Hn)) as (entries & E & _).
    wps. eapply wp_expect; [exact E|]. wps.
    eapply wp_mono; [apply checkNamedRefs_spec; [apply (names_refs _ _ Hn)|apply (parsed_error _ _ _ Hp)]|].
    intros [|] s'.
    + intros [-> Hoff]. wps. unfold outcome. cbn [pattern]. rewrite (parsed_error _ _ _ Hp).
      by apply Parsed_tree.
    + intros (e & -> & He). wps. done.
  - intros Hf. pose proof Hf as ((e & He & Htok) & Hok). destruct (namedEntries_total _ Hok) as (entries & E & _).
    wps. eapply wp_expect; [exact E|]. wps. unfold outcome. cbn. by rewrite He.
Qed.

Lemma run_outcome : exists t s, run ref flag extension = Some (t, s) /\ outcome t s.
Proof. exact (wp_elim _ _ _ parseTree_spec). Qed.

Lemma run_tree t s n : run ref flag extension = Some (t, s) -> pattern t = Some n -> wfTree ref t n.
Proof.
  intros E Hp. destruct run_outcome as (t' & s' & E' & Ho). assert (t' = t /\ s' = s) as [-> ->] by (split; congruence).
  unfold outcome in Ho. rewrite Hp in Ho. by destruct (error s).
Qed.

(** ** Properties *)

(** C25: on every pattern, whatever its bytes and in every mode, the parser ends and
    meets no undefined behaviour: no failed assertion or cast, and no read outside of
    the pattern; it gives a tree exactly when it reports no error. *)
Theorem parser_total :
  exists t s, run ref flag extension = Some (t, s) /\ (pattern t = None <-> error s <> None).
Proof.
  destruct run_outcome as (t & s & E & Ho). exists t, s. split; [done|]. revert Ho. unfold outcome.
  by destruct (pattern t), (error s).
Qed.

(** C29: an error of the parser lies in the pattern: its position and its size, which
    are computed with 32-bit subtractions, do not wrap around. *)
Theorem parser_error_inside t s e :
  run ref flag extension = Some (t, s) -> error s = Some e ->
  pattern t = None /\ 0 <= pos (errToken e) /\ 0 <= size (errToken e) /\
  pos (errToken e) + size (errToken e) <= zlen ref.
Proof.
  intros E He. destruct run_outcome as (t' & s' & E' & Ho).
  assert (t' = t /\ s' = s) as [-> ->] by (split; congruence). revert Ho. unfold outcome. rewrite He.
  by destruct (pattern t).
Qed.

(** C26: the tree of a pattern is well-formed: the code points are valid, the bounds of
    quantifiers are in order and within their limits and their group interval is that
    of their body, sequences have two elements or more, alternatives are never null,
    every operator of a character class stands between two operands and the ends of a
    range are characters, a negated class holds no strings, and numeric references
    are at most the number of groups. *)
Theorem parser_tree_wellformed t s n :
  run ref flag extension = Some (t, s) -> pattern t = Some n ->
  wfn ref (fun i => 0 < i <= captureGroupCount t) (fun name => name ∈ map fst (namedCaptureGroups t)) n.
Proof. intros E Hp. apply (run_tree _ _ _ E Hp). Qed.

(** C27: the capture groups of a tree are numbered 1, 2, ... in the order of their opening
    parentheses, and the loops 0, 1, ... in the order of their quantifiers, up to the
    counts of the tree; both counts keep their limits. *)
Theorem parser_numbering t s n :
  run ref flag extension = Some (t, s) -> pattern t = Some n ->
  groups n = upto 1 (captureGroupCount t) /\ loops n = upto 0 (loopCount t) /\
  captureGroupCount t <= CAPTURE_GROUP_INDEX_MAX /\ loopCount t <= LOOP_INDEX_MAX.
Proof. intros E Hp. destruct (run_tree _ _ _ E Hp) as [_ ? ? [? ?] _ _]. split_and!; [done..|lia|lia]. Qed.

(** C28: in the tree of a pattern each reference finds its group: a numeric one is the
    index of a group of the pattern, also of one that follows it, and a named one has
    the position of its name in the table of names, where each name stands once. *)
Theorem parser_references_resolved t s n :
  run ref flag extension = Some (t, s) -> pattern t = Some n ->
  NoDup (map fst (namedCaptureGroups t)) /\
  Forall (fun e => match fst e with
    | [] => snd e ∈ groups n
    | name => exists entry, namedCaptureGroups t !! Z.to_nat (snd e) = Some (name, entry)
    end) (backRefs n).
Proof.
  intros E Hp. destruct (run_tree _ _ _ E Hp) as [_ Hg _ [Hc _] [Hn _] [H1 H2]]. split; [done|].
  rewrite Forall_forall in *. intros [name i] Hin. specialize (H1 _ Hin). specialize (H2 _ Hin). cbn in *.
  destruct name as [|b name]; [|by apply H2]. unfold refOk in H1. cbn in H1. rewrite Hg.
  apply list_elem_of_In, in_map_iff. exists (Z.to_nat (i - 1)). split; [lia|]. apply in_seq. lia.
Qed.
End total.

(** ** Instances of the properties *)

(** A character database with one property and one emoji property. *)
#[export] Instance sampleUcp : Ucp := {|
  parseProperty l r :=
    if bool_decide (l = [] /\ r = lit "L") then inr (1, 2) else inl (lit "unknown property");
  parseEmojiProperty l := if bool_decide (l = lit "Emoji_Keycap_Sequence") then Some 3 else None;
  isIdStart c := 256 <=? c;
  isIdContinue c := 256 <=? c
|}.

#[export] Instance sampleLaws : UcpLaws.
Proof.
  constructor.
  - intros l r v. cbn. case_bool_decide as Hd; [|done]. destruct Hd as [-> ->]. intros _.
    by split; vm_compute; repeat constructor.
  - intros l v. cbn. case_bool_decide as Hd; [|done]. subst. intros _. by vm_compute; repeat constructor.
Defined.

Definition sample : bytes := lit "(?<n>a{2,3}?)*|\k<n>[^a-z\d]\p{L}(?=\2)(b)".
Definition sampleFlag : Flag := {| mode := UNICODE; modifiers := 0 |}.

Lemma sample_bytes : Forall is_byte sample.
Proof. vm_compute. by repeat constructor. Defined.
Lemma sample_len : zlen sample <= UINT32_MAX.
Proof. by vm_compute. Defined.

Lemma parser_total_witness :
  exists t s, run sample sampleFlag true = Some (t, s) /\ (pattern t = None <-> error s <> None).
Proof. apply parser_total; [apply sample_bytes|apply sample_len]. Defined.

Lemma parser_error_inside_witness :
  exists t s e, run (lit "a(b") sampleFlag true = Some (t, s) /\ error s = Some e /\
    pattern t = None /\ 0 <= pos (errToken e) /\ 0 <= size (errToken e) /\
    pos (errToken e) + size (errToken e) <= zlen (lit "a(b").
Proof.
  eexists _, _, _. split; [vm_compute; reflexivity|]. split; [reflexivity|].
  eapply (parser_error_inside (lit "a(b") sampleFlag true); [|by vm_compute|vm_compute; reflexivity|reflexivity].
  vm_compute. by repeat constructor.
Defined.

Lemma parser_tree_wellformed_witness :
  exists t s n, run sample sampleFlag true = Some (t, s) /\ pattern t = Some n /\
    wfn sample (fun i => 0 < i <= captureGroupCount t) (fun name => name ∈ map fst (namedCaptureGroups t)) n.
Proof.
  eexists _, _, _. split; [vm_compute; reflexivity|]. split; [reflexivity|].
  eapply (parser_tree_wellformed sample sampleFlag true);
    [apply sample_bytes|apply sample_len|vm_compute; reflexivity|reflexivity].
Defined.

Lemma parser_numbering_witness :
  exists t s n, run sample sampleFlag true = Some (t, s) /\ pattern t = Some n /\
    groups n = upto 1 (captureGroupCount t) /\ loops n = upto 0 (loopCount t) /\
    captureGroupCount t <= CAPTURE_GROUP_INDEX_MAX /\ loopCount t <= LOOP_INDEX_MAX.
Proof.
  eexists _, _, _. split; [vm_compute; reflexivity|]. split; [reflexivity|].
  eapply (parser_numbering sample sampleFlag true);
    [apply sample_bytes|apply sample_len|vm_compute; reflexivity|reflexivity].
Defined.

Lemma parser_references_resolved_witness :
  exists t s n, run sample sampleFlag true = Some (t, s) /\ pattern t = Some n /\
    NoDup (map fst (namedCaptureGroups t)) /\
    Forall (fun e => match fst e with
      | [] => snd e ∈ groups n
      | name => exists entry, namedCaptureGroups t !! Z.to_nat (snd e) = Some (name, entry)
      end) (backRefs n).
Proof.
  eexists _, _, _. split; [vm_compute; reflexivity|]. split; [reflexivity|].
  eapply (parser_references_resolved sample sampleFlag true);
    [apply sample_bytes|apply sample_len|vm_compute; reflexivity|reflexivity].
Defined.

End RegexParserTotal.
