(* ===== verification/RegexStrSet.v ===== *)
(** The sets of strings of the regular expression engine (regex/transform.h and the
    StrSetBuilder of regex/transform.cpp): code points, longer strings in a radix tree,
    sets of emoji sequences by their flags, and the empty string, with the union, the
    intersection and the difference of such sets. *)
From S2P Require Import Prelude Unicode CodePointSet RegexMatcher SetBuilder RadixTree RadixPacked.

Module RegexStrSet.
Import UnicodeUtil RegexMatcher SetBuilder RadixTree RadixPacked.

(** The tables generated from the Unicode character database: the sets of properties,
    and those of the character classes. *)
Class Ucs := {
  getPropertySet : Z * Z -> CodePointSet.CodePointSetRef;
  ESRegexClassDigit : CodePointSet.CodePointSetRef;
  ESRegexClassWord : CodePointSet.CodePointSetRef;
  ESRegexClassExtendWord : CodePointSet.CodePointSetRef;
  ESRegexClassSpace : CodePointSet.CodePointSetRef
}.

Record StrSetBuilder := {
  codePoints : Builder;
  radix : RadixTree;
  emoji : Z;
  emptySeq : bool
}.

Definition withCodePoints (b : StrSetBuilder) (c : Builder) : StrSetBuilder :=
  {| codePoints := c; radix := radix b; emoji := emoji b; emptySeq := emptySeq b |}.
Definition withRadix (b : StrSetBuilder) (r : RadixTree) : StrSetBuilder :=
  {| codePoints := codePoints b; radix := r; emoji := emoji b; emptySeq := emptySeq b |}.
Definition withEmoji (b : StrSetBuilder) (e : Z) : StrSetBuilder :=
  {| codePoints := codePoints b; radix := radix b; emoji := e; emptySeq := emptySeq b |}.
Definition withEmptySeq (b : StrSetBuilder) (e : bool) : StrSetBuilder :=
  {| codePoints := codePoints b; radix := radix b; emoji := emoji b; emptySeq := e |}.

Definition newStrSetBuilder (ignoreCase : bool) : StrSetBuilder :=
  {| codePoints := emptyBuilder; radix := newTree;
     emoji := if ignoreCase then setFlag emojiNone CASE_IGNORE else emojiNone; emptySeq := false |}.

Section sets.
Context `{Ucd} `{Ucs}.

(** ** Walking over a set

    A function that may fail (a failed assertion, or running out of fuel) as a walker. *)
Definition walk {X} (f : X -> bytes -> option (bool * X)) (x : option X) (ref : bytes) (_ : Z) : bool * option X :=
  match x with
  | Some x => match f x ref with Some (continue, x) => (continue, Some x) | None => (false, None) end
  | None => (false, None)
  end.

Definition iterateRadix {X} (f : X -> bytes -> option (bool * X)) (t : RadixTree) (x : X) : option X :=
  iterate (walk f) t (Some x).

(** The loops of [iterateCodes] on the code points of the compacted ranges. *)
Fixpoint codesLoop {X} (f : X -> bytes -> Z -> option (bool * X)) (codes : list Z) (x : X) : option X :=
  match codes with
  | [] => Some x
  | c :: r =>
      let buf := codePointToUtf8 c in
      if zlen buf =? 0 then None
      else '(continue, x) ← f x buf c; if continue : bool then codesLoop f r x else Some x
  end.

Definition iterateCodes {X} (builder : Builder) (f : X -> bytes -> Z -> option (bool * X)) (x : X) : option X :=
  codesLoop f (flat_map (fun '(first, last) => pointsFrom first last)
                 (codePointRanges (tryToSortAndCompact builder))) x.

Definition iterateEmoji {X} (emoji : Z) (f : X -> bytes -> option (bool * X)) (x : X) : option X :=
  if hasEmoji emoji then
    x ← iteratePacked (fun x ref p => if hasFlag emoji p then walk f x ref p else (true, x)) getEmojiTrie (Some x);
    x
  else Some x.

Definition findFromEmoji (emoji : Z) (ref : bytes) : option bool :=
  p ← findPacked getEmojiTrie ref;
  Some (negb (p =? 0) && hasFlag emoji p).

Definition tryToCodePoint (ref : bytes) : option Z :=
  let '(len, codePoint) := wtf8ToCodePoint ref in
  if negb (len =? 0) && (len =? zlen ref) then Some codePoint else None.

(** ** Adding *)

Definition inEmoji (b : StrSetBuilder) (ref : bytes) : option bool :=
  if hasEmoji (emoji b) then findFromEmoji (emoji b) ref else Some false.

Definition radixAdd (b : StrSetBuilder) (ref : bytes) : option StrSetBuilder :=
  '(t, _) ← RadixTree.add (radix b) ref 1; Some (withRadix b t).

Definition addEmoji (b : StrSetBuilder) (e : Z) : StrSetBuilder := withEmoji b (setFlag (emoji b) e).

Definition addRange_ (b : StrSetBuilder) (first last : Z) (fold : bool) : StrSetBuilder :=
  withCodePoints b (addRange (codePoints b) first last fold).

Definition addCodePoint (b : StrSetBuilder) (codePoint : Z) : StrSetBuilder := addRange_ b codePoint codePoint false.

(** [add(StringRef)] *)
Definition addString (b : StrSetBuilder) (ref : bytes) : option StrSetBuilder :=
  found ← inEmoji b ref;
  if found : bool then Some b else radixAdd b ref.

(** [add(StrSetBuilder)]: every string of a radix tree has the property 1. *)
Definition addStrSet (b builder : StrSetBuilder) : option StrSetBuilder :=
  let b := addEmoji b (emoji builder) in
  let b := if emptySeq builder then withEmptySeq b true else b in
  let b := withCodePoints b (addBuilder (codePoints b) (codePoints builder)) in
  iterateRadix (fun b ref => b ← addString b ref; Some (true, b)) (radix builder) b.

(** ** Intersection *)

(** The strings of the other set that are emoji sequences of this one. *)
Definition intersectEmoji (emoji : Z) (builder new : StrSetBuilder) : option StrSetBuilder :=
  if hasEmoji emoji then
    new ← iterateRadix (fun new ref =>
        found ← findFromEmoji emoji ref;
        new ← (if found : bool then radixAdd new ref else Some new); Some (true, new)) (radix builder) new;
    iterateCodes (codePoints builder) (fun new ref codePoint =>
        found ← findFromEmoji emoji ref;
        Some (true, if found : bool then addCodePoint new codePoint else new)) new
  else Some new.

(** Those that are in the radix tree of this one. *)
Definition intersectRadix (t : RadixTree) (builder new : StrSetBuilder) : option StrSetBuilder :=
  if empty t then Some new
  else
    let addFound (new : StrSetBuilder) ref :=
      p ← find t ref;
      new ← (if negb (p =? 0) then radixAdd new ref else Some new); Some (true, new) in
    new ← iterateEmoji (emoji builder) addFound new;
    new ← iterateRadix addFound (radix builder) new;
    iterateCodes (codePoints builder) (fun new ref codePoint =>
      p ← find t ref;
      Some (true, if negb (p =? 0) then addCodePoint new codePoint else new)) new.

(** Those that are code points of this one. *)
Definition intersectCodePoints (codes : Builder) (builder new : StrSetBuilder) : option StrSetBuilder :=
  if notEmpty codes then
    '(codes, set) ← build codes;
    let addFound (new : StrSetBuilder) ref :=
      Some (true, match tryToCodePoint ref with
                  | Some c => if CodePointSet.contains set c then addCodePoint new c else new
                  | None => new
                  end) in
    new ← iterateEmoji (emoji builder) addFound new;
    new ← iterateRadix addFound (radix builder) new;
    Some (if notEmpty (codePoints builder)
          then withCodePoints new (addBuilder (codePoints new) (fst (intersect codes (codePoints builder))))
          else new)
  else Some new.

Definition intersectStrSet (b builder : StrSetBuilder) : option StrSetBuilder :=
  let ignoreCase := hasFlag (emoji b) CASE_IGNORE in
  let new := withEmptySeq (newStrSetBuilder ignoreCase) (emptySeq b && emptySeq builder) in
  let both := Z.land (emoji b) (emoji builder) in
  let new := withEmoji new (if ignoreCase then setFlag both CASE_IGNORE else both) in
  new ← intersectEmoji (emoji b) builder new;
  new ← intersectRadix (radix b) builder new;
  intersectCodePoints (codePoints b) builder new.

(** ** Difference *)

Definition mergeEmoji (b : StrSetBuilder) : option StrSetBuilder :=
  b ← iterateEmoji (emoji b) (fun b ref => b ← radixAdd b ref; Some (true, b)) b;
  Some (withEmoji b emojiNone).

(** A string to remove that is an emoji sequence of the set: they become strings. *)
Definition mergeIfFound (b : StrSetBuilder) (ref : bytes) : option (bool * StrSetBuilder) :=
  found ← findFromEmoji (emoji b) ref;
  if found : bool then b ← mergeEmoji b; Some (false, b) else Some (true, b).

Definition radixRemove (b : StrSetBuilder) (ref : bytes) : option (bool * StrSetBuilder) :=
  '(_, t) ← RadixTree.remove (radix b) ref; Some (negb (empty t), withRadix b t).

Definition subEmoji (b builder : StrSetBuilder) : option StrSetBuilder :=
  let ignoreCase := hasFlag (emoji b) CASE_IGNORE in
  let rest := unsetFlag (emoji b) (emoji builder) in
  let b := withEmoji b (if ignoreCase then setFlag rest CASE_IGNORE else rest) in
  b ← (if hasEmoji (emoji b) then iterateRadix mergeIfFound (radix builder) b else Some b);
  if hasEmoji (emoji b) then iterateCodes (codePoints builder) (fun b ref _ => mergeIfFound b ref) b else Some b.

Definition subRadix (b builder : StrSetBuilder) : option StrSetBuilder :=
  b ← (if empty (radix b) then Some b else iterateEmoji (emoji builder) radixRemove b);
  b ← (if empty (radix b) then Some b else iterateRadix radixRemove (radix builder) b);
  if empty (radix b) then Some b else iterateCodes (codePoints builder) (fun b ref _ => radixRemove b ref) b.

Definition collectCodePoint (targets : Builder) (ref : bytes) : option (bool * Builder) :=
  Some (true, match tryToCodePoint ref with Some c => addRange targets c c false | None => targets end).

Definition subCodePoints (b builder : StrSetBuilder) : option StrSetBuilder :=
  b ← (if notEmpty (codePoints b) then
         targets ← iterateEmoji (emoji builder) collectCodePoint emptyBuilder;
         Some (withCodePoints b (fst (sub (codePoints b) targets)))
       else Some b);
  b ← (if notEmpty (codePoints b) then
         targets ← iterateRadix collectCodePoint (radix builder) emptyBuilder;
         Some (withCodePoints b (fst (sub (codePoints b) targets)))
       else Some b);
  Some (if notEmpty (codePoints b)
        then withCodePoints b (fst (sub (codePoints b) (codePoints builder))) else b).

Definition subStrSet (b builder : StrSetBuilder) : option StrSetBuilder :=
  let b := if Bool.eqb (emptySeq b) (emptySeq builder) && emptySeq b then withEmptySeq b false else b in
  b ← subEmoji b builder;
  b ← subRadix b builder;
  subCodePoints b builder.

End sets.
End RegexStrSet.
