(* ===== verification/RegexLowering.v ===== *)
(** The lowering pass of the regular expression engine (regex/transform.h,
    regex/transform.cpp): from the syntax tree of the parser to the nodes the code
    generator takes.  It embeds the modifiers into the nodes, replaces character
    classes by sets, resolves back references and removes what matches nothing. *)
From S2P Require Import Prelude Unicode CodePointSet RegexMatcher SetBuilder RadixTree RadixPacked.
From S2P Require Import RegexNode RegexSyntax RegexStrSet.

Module RegexLowering.
Import UnicodeUtil RegexMatcher SetBuilder RegexNode RegexSyntax RegexStrSet.

(** ** Lowered nodes

    The kinds that remain: FoldChar, CharSet and StrSet are new, CharClass and the
    non-capturing groups are gone, and of the properties only GRAPHEME is left. *)
Inductive Lowered :=
| LEmpty
| LAny (modifier : Z)
| LChar (codePoint : Z)
| LBoundary (type : BoundaryType) (modifier : Z)
| LBackRef (named : bool) (index : Z) (ignoreCase : bool)
| LRepeat (q : Quantifier) (pattern : Lowered)
| LSeq (patterns : list Lowered)
| LAlt (patterns : list Lowered)
| LLookAround (type : LookAroundType) (pattern : Lowered)
| LGroup (groupIndex : Z) (pattern : Lowered)
| LFoldChar (codePoint : Z)
| LCharSet (set : CodePointSet.CodePointSetRef) (invert ignoreCase : bool)
| LStrSet (emoji : Z) (radix : RadixTree.RadixTree) (chars : option Lowered) (ignoreCase : bool)
| LGrapheme.

Definition isLEmpty (n : Lowered) : bool := match n with LEmpty => true | _ => false end.
Definition isLChar (n : Lowered) : bool := match n with LChar _ => true | _ => false end.
Definition isLFoldChar (n : Lowered) : bool := match n with LFoldChar _ => true | _ => false end.

(** An alternative of a string class: a character, the empty string, or a string.  The
    flag of a character says that it is a FoldChar. *)
Inductive AltItem := ItemChar (folded : bool) (codePoint : Z) | ItemEmpty | ItemSeq (codes : list (bool * Z)).

Definition charOf (n : Node) : option (bool * Z) := match n with CharNode _ c => Some (false, c) | _ => None end.

Definition itemOf (n : Node) : option AltItem :=
  match n with
  | CharNode _ c => Some (ItemChar false c)
  | EmptyNode _ => Some ItemEmpty
  | SeqNode _ l => ItemSeq <$> mapM charOf l
  | _ => None
  end.

Definition charOfLowered (n : Lowered) : option (bool * Z) :=
  match n with LChar c => Some (false, c) | LFoldChar c => Some (true, c) | _ => None end.

Definition itemOfLowered (n : Lowered) : option AltItem :=
  match n with
  | LChar c => Some (ItemChar false c)
  | LFoldChar c => Some (ItemChar true c)
  | LEmpty => Some ItemEmpty
  | LSeq l => ItemSeq <$> mapM charOfLowered l
  | _ => None
  end.

(** ** Classes *)

Section lowering.
Context `{Ucd} `{Ucs} (mode : Mode).

Definition has (modifiers m : Z) : bool := hasFlag modifiers m.

Definition needSimpleCaseFolding (modifiers : Z) : bool :=
  bool_decide (mode = UNICODE_SET) && has modifiers IGNORE_CASE.

Definition mayBeSimpleCaseFolding (modifiers : Z) (b : Builder) : Builder :=
  if needSimpleCaseFolding modifiers then foldCase b else b.

Definition complement_ (modifiers : Z) (b : Builder) : option Builder :=
  if needSimpleCaseFolding modifiers then Some (complementWithFoldCase b) else complement b.

Definition toCodePointSet (modifiers : Z) (t : PropertyType) (value : Z) : option CodePointSet.CodePointSetRef :=
  match getNormalizedType t with
  | DIGIT => Some ESRegexClassDigit
  | WORD_ => Some (if has modifiers IGNORE_CASE then ESRegexClassExtendWord else ESRegexClassWord)
  | SPACE => Some ESRegexClassSpace
  | UNICODE_ => Some (getPropertySet (getUCP value))
  | _ => None
  end.

Definition emojiOf (value : Z) : Z := wrap 8 value.

Definition tryToGenerateCharSetNode (modifiers : Z) (b : Builder) (invert : bool) : option Lowered :=
  let b := tryToSortAndCompact b in
  let charSet := '(_, set) ← build b; Some (LCharSet set invert (has modifiers IGNORE_CASE)) in
  match codePointRanges b with
  | [] => if invert then Some (LAny DOT_ALL) else charSet
  | [(first, last)] =>
      if invert then charSet
      else if first =? last then
        Some (if has modifiers IGNORE_CASE then LFoldChar (doSimpleCaseFolding first) else LChar first)
      else if (first =? 0) && (last =? CODE_POINT_MAX) then Some (LAny DOT_ALL)
      else charSet
  | _ => charSet
  end.

(** The code point of a character in a string, folded whatever the mode is. *)
Definition strCodePoint (modifiers : Z) (c : bool * Z) : Z :=
  if fst c then snd c else if has modifiers IGNORE_CASE then doSimpleCaseFolding (snd c) else snd c.

Definition generateChar (modifiers : Z) (b : StrSetBuilder) (folded : bool) (codePoint : Z) : StrSetBuilder :=
  addCodePoint b (if folded then codePoint
                  else if needSimpleCaseFolding modifiers then doSimpleCaseFolding codePoint else codePoint).

(** The case of an AltNode: [\q{...}], or the alternatives of an optimized one. *)
Fixpoint generateItems (modifiers : Z) (items : list AltItem) (b : StrSetBuilder) : option StrSetBuilder :=
  match items with
  | [] => Some b
  | ItemChar folded c :: r => generateItems modifiers r (generateChar modifiers b folded c)
  | ItemEmpty :: r => generateItems modifiers r (withEmptySeq b true)
  | ItemSeq codes :: r =>
      if zlen codes <=? 1 then None
      else
        b ← addString b (flat_map (fun c => codePointToUtf8 (strCodePoint modifiers c)) codes);
        generateItems modifiers r b
  end.

Definition generateProperty (modifiers : Z) (t : PropertyType) (value : Z) (b : StrSetBuilder) : option StrSetBuilder :=
  if mayContainString t then
    if bool_decide (getNormalizedType t = EMOJI) then
      Some (addEmoji b (if needSimpleCaseFolding modifiers then setFlag (emojiOf value) CASE_IGNORE else emojiOf value))
    else None
  else
    set ← toCodePointSet modifiers t value;
    if isInvertType t || has modifiers IGNORE_CASE then
      let s := mayBeSimpleCaseFolding modifiers (addRef emptyBuilder set) in
      s ← (if isInvertType t then complement_ modifiers s else Some s);
      Some (withCodePoints b (addBuilder (codePoints b) s))
    else Some (withCodePoints b (addRef (codePoints b) set)).

(** The loops over the members of a class, and of its operands after the first. *)
Section members.
Context (generate : Node -> StrSetBuilder -> option StrSetBuilder).

Fixpoint generateUnion (fold isRange : bool) (l : list Node) (b : StrSetBuilder) : option StrSetBuilder :=
  match l with
  | [] => Some b
  | e :: r =>
      match isRange, e, r with
      | true, CharNode _ first, p :: CharNode _ last :: r' =>
          if isProperty p RANGE then generateUnion fold isRange r' (addRange_ b first last fold)
          else b ← generate e b; generateUnion fold isRange r b
      | _, _, _ => b ← generate e b; generateUnion fold isRange r b
      end
  end.

Fixpoint generateOperands (op : StrSetBuilder -> StrSetBuilder -> option StrSetBuilder) (new : StrSetBuilder)
    (l : list Node) (b : StrSetBuilder) : option StrSetBuilder :=
  match l with
  | [] => Some b
  | e :: r =>
      if isProperty e INTERSECT || isProperty e SUBTRACT then generateOperands op new r b
      else
        operand ← generate e new;
        b ← op b operand;
        generateOperands op new r b
  end.
End members.

(** [generateStrSet]; [level] says that the node is inside of another class. *)
Fixpoint generateStrSet (modifiers : Z) (level : bool) (n : Node) (b : StrSetBuilder) : option StrSetBuilder :=
  match n with
  | CharNode _ c => Some (generateChar modifiers b false c)
  | PropertyNode _ t value => generateProperty modifiers t value b
  | CharClassNode _ invert type _ chars =>
      let new := newStrSetBuilder (has modifiers IGNORE_CASE) in
      let union isRange :=
        generateUnion (generateStrSet modifiers true) (needSimpleCaseFolding modifiers) isRange chars in
      let operands op b :=
        match chars with
        | [] => None
        | e :: r =>
            b ← generateStrSet modifiers true e b;
            generateOperands (generateStrSet modifiers false) op new r b
        end in
      let class b :=
        b ← match type with
            | CLASS_UNION => union false b
            | CLASS_RANGE => union true b
            | CLASS_INTERSECT => operands intersectStrSet b
            | CLASS_SUBTRACT => operands subStrSet b
            end;
        if invert && bool_decide (mode = UNICODE_SET)
        then c ← complement_ modifiers (codePoints b); Some (withCodePoints b c) else Some b in
      if level then s ← class new; addStrSet b s else class b
  | AltNode _ l =>
      items ← mapM (fun e => e ← e; itemOf e) l;
      generateItems modifiers items b
  | _ => None
  end.

(** [isSingleCharClass]; the type does not matter. *)
Definition isSingleCharClass (invert : bool) (chars : list Node) : bool :=
  match chars with [e] => negb invert && negb (isAlt e) | _ => false end.

(** [normalizeStrCharClass]: string classes first, in a stable order. *)
Definition stringRank (n : Node) : Z := if isProperty n EMOJI then 0 else if isAlt n then 1 else 2.

Definition sortStrings (chars : list Node) : list Node :=
  let rank k := List.filter (fun n => stringRank n =? k) chars in
  rank 0 ++ rank 1 ++ rank 2.

Fixpoint normalizeStrCharClass (n : Node) : Node :=
  match n with
  | CharClassNode t invert type strings chars =>
      if negb strings || negb (isUnionOrRange type) then n
      else CharClassNode t invert type strings (sortStrings (map normalizeStrCharClass chars))
  | _ => n
  end.

Definition optionalOf (emptySeq : bool) (n : Lowered) : Lowered := if emptySeq then LAlt [n] else n.

(** What a class is once its set is known. *)
Definition finishClass (modifiers : Z) (invert strings : bool) (s : StrSetBuilder) : option Lowered :=
  let s := if has modifiers IGNORE_CASE then withCodePoints s (foldCase (codePoints s)) else s in
  if RadixTree.empty (radix s) && negb (hasEmoji (emoji s)) then
    if emptySeq s && negb (notEmpty (codePoints s)) then Some LEmpty
    else
      node ← tryToGenerateCharSetNode modifiers (codePoints s) invert;
      Some (optionalOf (emptySeq s) node)
  else if negb strings then None
  else
    chars ← (if notEmpty (codePoints s)
             then Some <$> tryToGenerateCharSetNode modifiers (codePoints s) invert else Some None);
    Some (optionalOf (emptySeq s)
            (LStrSet (unsetFlag (emoji s) CASE_IGNORE) (radix s) chars
               (has modifiers IGNORE_CASE || hasFlag (emoji s) CASE_IGNORE))).

(** [generateClassSet(CharClassNode)] *)
Definition generateClassSet (modifiers : Z) (n : Node) : option Lowered :=
  match n with
  | CharClassNode _ invert _ strings _ =>
      s ← generateStrSet modifiers false n (newStrSetBuilder (has modifiers IGNORE_CASE));
      finishClass modifiers (invert && negb (bool_decide (mode = UNICODE_SET))) strings s
  | _ => None
  end.

(** [generateClassSet(PropertyNode)] *)
Definition generatePropertySet (modifiers : Z) (t : PropertyType) (value : Z) : option Lowered :=
  let ignoreCase := has modifiers IGNORE_CASE in
  if mayContainString t then
    if bool_decide (getNormalizedType t = EMOJI)
    then Some (LStrSet (unsetFlag (emojiOf value) CASE_IGNORE) RadixTree.newTree None
                 (ignoreCase || hasFlag (emojiOf value) CASE_IGNORE))
    else None
  else
    set ← toCodePointSet modifiers t value;
    set ← (if isInvertType t || ignoreCase then
             let b := mayBeSimpleCaseFolding modifiers (addRef emptyBuilder set) in
             b ← (if isInvertType t then complement_ modifiers b else Some b);
             '(_, set) ← build (if ignoreCase then foldCase b else b);
             Some set
           else Some set);
    Some (LCharSet set false ignoreCase).

(** ** Back references *)

Inductive CaptureState := NOT_OPENED | NOT_CLOSED | CLOSED.

#[export] Instance CaptureState_eq_dec : EqDecision CaptureState.
Proof. solve_decision. Defined.

Context (namedCaptureGroups : NamedCaptureGroups).

Definition stateOf (resolved : list CaptureState) (i : Z) : option CaptureState :=
  if i <? 0 then None else resolved !! Z.to_nat i.

(** The loop over the indices of a name, with the number of closed groups so far. *)
Fixpoint checkIndices (resolved : list CaptureState) (indices : list Z) (closedCount : Z) : option bool :=
  match indices with
  | [] => Some (0 <? closedCount)
  | i :: r =>
      s ← stateOf resolved i;
      match s with
      | CLOSED => checkIndices resolved r (closedCount + 1)
      | NOT_CLOSED => Some false
      | NOT_OPENED => checkIndices resolved r closedCount
      end
  end.

Definition checkBackRef (resolved : list CaptureState) (name : bytes) (index : Z) : option bool :=
  match name with
  | [] => s ← stateOf resolved index; Some (bool_decide (s = CLOSED))
  | _ =>
      entry ← RegexNode.find namedCaptureGroups name;
      match entry with
      | MultipleIndices indices => checkIndices resolved indices 0
      | SingleIndex i => s ← stateOf resolved i; Some (bool_decide (s = CLOSED))
      end
  end.

(** ** The visitor

    The stacks of modifiers and directions are arguments; the states of the captures
    are threaded. *)

(** [visit(SeqNode)] after the members were visited: flatten, and remove the empty ones. *)
Definition flattenSeq (patterns : list Lowered) : list Lowered :=
  flat_map (fun n => match n with LSeq l => l | _ => [n] end) patterns.

Definition removeEmpty (patterns : list Lowered) : list Lowered :=
  List.filter (fun n => negb (isLEmpty n)) patterns.

(** [visit] on a SeqNode: what replaces the node. *)
Definition finishSeq (patterns : list Lowered) : Lowered :=
  match removeEmpty (flattenSeq patterns) with
  | [] => LEmpty
  | [n] => n
  | l => LSeq l
  end.

(** Of consecutive empty alternatives the first stays; [previous] says that the
    alternative before is empty. *)
Fixpoint uniqueEmpty (previous : bool) (patterns : list Lowered) : list Lowered :=
  match patterns with
  | [] => []
  | n :: r => if previous && isLEmpty n then uniqueEmpty true r else n :: uniqueEmpty (isLEmpty n) r
  end.

(** A last alternative that is itself an alternation is spliced. *)
Definition spliceLast (patterns : list Lowered) : list Lowered :=
  match last patterns with
  | Some (LAlt l) =>
      if (1 <? zlen patterns) && (1 <? zlen l) then removelast patterns ++ l else patterns
  | _ => patterns
  end.

Definition finishAlt (patterns : list Lowered) : Lowered := LAlt (spliceLast (uniqueEmpty false patterns)).

Definition setCapture (resolved : list CaptureState) (i : Z) (s : CaptureState) : option (list CaptureState) :=
  _ ← stateOf resolved i; Some (<[Z.to_nat i := s]> resolved).

Definition newModifiers (modifiers set unset : Z) : Z :=
  let m := if set =? NONE then modifiers else setFlag modifiers set in
  if unset =? NONE then m else unsetFlag m unset.

Abbreviation Resolved := (list CaptureState).

(** The members of a sequence in the order of the direction, and the alternatives. *)
Section members_visit.
Context (visit : Node -> Resolved -> option (Lowered * Resolved)).

Fixpoint visitSeq (forward : bool) (l : list Node) (resolved : Resolved) : option (list Lowered * Resolved) :=
  match l with
  | [] => Some ([], resolved)
  | e :: r =>
      if forward then
        '(e', resolved) ← visit e resolved;
        '(r', resolved) ← visitSeq forward r resolved;
        Some (e' :: r', resolved)
      else
        '(r', resolved) ← visitSeq forward r resolved;
        '(e', resolved) ← visit e resolved;
        Some (e' :: r', resolved)
  end.

Fixpoint visitAlt (l : list (option Node)) (resolved : Resolved) : option (list Lowered * Resolved) :=
  match l with
  | [] => Some ([], resolved)
  | None :: _ => None
  | Some e :: r =>
      '(e', resolved) ← visit e resolved;
      '(r', resolved) ← visitAlt r resolved;
      Some (e' :: r', resolved)
  end.
End members_visit.

Fixpoint visit (modifiers : Z) (forward : bool) (n : Node) (resolved : Resolved) : option (Lowered * Resolved) :=
  match n with
  | EmptyNode _ => Some (LEmpty, resolved)
  | AnyNode _ => Some (LAny modifiers, resolved)
  | CharNode _ c =>
      Some (if has modifiers IGNORE_CASE then LFoldChar (doSimpleCaseFolding c) else LChar c, resolved)
  | CharClassNode _ invert _ _ chars =>
      (* the only member of a class is visited instead of it; sorting it changes nothing *)
      let set := node ← generateClassSet modifiers (normalizeStrCharClass n); Some (node, resolved) in
      match chars with
      | [e] => if isSingleCharClass invert chars then visit modifiers forward e resolved else set
      | _ => set
      end
  | PropertyNode _ t value =>
      if bool_decide (getNormalizedType t = GRAPHEME) then Some (LGrapheme, resolved)
      else node ← generatePropertySet modifiers t value; Some (node, resolved)
  | BoundaryNode _ t => Some (LBoundary t modifiers, resolved)
  | BackRefNode _ name index =>
      valid ← checkBackRef resolved name index;
      Some (if valid : bool
            then LBackRef (negb (bool_decide (name = []))) index (has modifiers IGNORE_CASE) else LEmpty, resolved)
  | SeqNode _ l =>
      '(l', resolved) ← visitSeq (visit modifiers forward) forward l resolved;
      Some (finishSeq l', resolved)
  | AltNode _ l =>
      '(l', resolved) ← visitAlt (visit modifiers forward) l resolved;
      Some (finishAlt l', resolved)
  | LookAroundNode _ t p =>
      '(p', resolved) ← visit modifiers (isLookAhead t) p resolved;
      Some (if isLEmpty p' && negb (isNegate t) then LEmpty else LLookAround t p', resolved)
  | RepeatNode _ q p =>
      if qmax q =? 0 then Some (LEmpty, resolved)
      else
        '(p', resolved) ← visit modifiers forward p resolved;
        Some (if (qmin q =? 1) && (qmax q =? 1) && negb (hasInnerCaptureGroups q) then p'
              else if (qmin q =? 0) && (qmax q =? 1) && negb (hasInnerCaptureGroups q) && greedy q
              then finishAlt [p'; LEmpty]
              else LRepeat q p', resolved)
  | GroupNode _ CAPTURE i _ _ p =>
      resolved ← (if i =? 0 then None else setCapture resolved i NOT_CLOSED);
      '(p', resolved) ← visit modifiers forward p resolved;
      resolved ← setCapture resolved i CLOSED;
      Some (LGroup i p', resolved)
  | GroupNode _ NON_CAPTURE _ _ _ p => visit modifiers forward p resolved
  | GroupNode _ MODIFIER _ set unset p => visit (newModifiers modifiers set unset) forward p resolved
  end.

(** ** Optimization *)

Definition isCharSeq (n : Lowered) : bool :=
  match n with LChar _ => true | LSeq l => forallb isLChar l | _ => false end.
Definition isFoldCharSeq (n : Lowered) : bool :=
  match n with LFoldChar _ => true | LSeq l => forallb isLFoldChar l | _ => false end.

Fixpoint dropEmpty (rev : list Lowered) : list Lowered :=
  match rev with n :: r => if isLEmpty n then dropEmpty r else rev | [] => [] end.

(** The first code point of a string, and its length; [None] is a failed assertion. *)
Definition prefixCode (n : Lowered) : option (Z * Z) :=
  match n with
  | LChar c | LFoldChar c => Some (c, 1)
  | LSeq (e :: r) => '(_, c) ← charOfLowered e; Some (c, 1 + zlen r)
  | _ => None
  end.

(** The strings with the same first code point do not get longer: [false] is the jump to
    the fallback. *)
Fixpoint checkOrder (patterns : list Lowered) (prefixCodeMap : gmap Z Z) : option bool :=
  match patterns with
  | [] => Some true
  | n :: r =>
      if isLEmpty n then checkOrder r prefixCodeMap
      else
        '(codePoint, len) ← prefixCode n;
        match prefixCodeMap !! codePoint with
        | Some known => if len <=? known then checkOrder r (<[codePoint := len]> prefixCodeMap) else Some false
        | None => checkOrder r (<[codePoint := len]> prefixCodeMap)
        end
  end.

(** The alternatives as the set of a class, if they are strings in such an order. *)
Definition strAlt (patterns : list Lowered) : option (option Lowered) :=
  let trimmed := rev (dropEmpty (rev patterns)) in
  if (zlen patterns <=? 1) || negb (forallb isCharSeq trimmed || forallb isFoldCharSeq trimmed) then Some None
  else
    ordered ← checkOrder patterns ∅;
    if ordered : bool then
      first ← head patterns;
      let modifiers := if isFoldCharSeq first then IGNORE_CASE else NONE in
      items ← mapM itemOfLowered patterns;
      s ← generateItems modifiers items (newStrSetBuilder (has modifiers IGNORE_CASE));
      let strings := existsb (fun i => match i with ItemChar _ _ => false | _ => true end) items in
      Some <$> finishClass modifiers false strings s
    else Some None.

Fixpoint optimizeStrAlt (forward : bool) (n : Lowered) : option Lowered :=
  if negb forward then Some n
  else
    match n with
    | LLookAround t p => LLookAround t <$> optimizeStrAlt (isLookAhead t) p
    | LRepeat q p => LRepeat q <$> optimizeStrAlt forward p
    | LGroup i p => LGroup i <$> optimizeStrAlt forward p
    | LSeq l => LSeq <$> mapM (optimizeStrAlt forward) l
    | LAlt l =>
        set ← strAlt l;
        match set with
        | Some n' => Some n'
        | None => LAlt <$> mapM (optimizeStrAlt forward) l
        end
    | _ => Some n
    end.

Fixpoint optimizeFoldChar (n : Lowered) : Lowered :=
  match n with
  | LFoldChar c => match doSimpleCaseUnfold c with [] => LChar c | _ => n end
  | LRepeat q p => LRepeat q (optimizeFoldChar p)
  | LLookAround t p => LLookAround t (optimizeFoldChar p)
  | LGroup i p => LGroup i (optimizeFoldChar p)
  | LSeq l => LSeq (map optimizeFoldChar l)
  | LAlt l => LAlt (map optimizeFoldChar l)
  | _ => n
  end.

Definition optimize (n : Lowered) : option Lowered := optimizeFoldChar <$> optimizeStrAlt true n.

End lowering.

(** [transform]: the pattern of the tree. *)
Definition transform `{Ucd} `{Ucs} (tree : SyntaxTree) : option Lowered :=
  p ← pattern tree;
  let f := flag tree in
  let resolved := replicate (Z.to_nat (captureGroupCount tree + 1)) NOT_OPENED in
  '(n, _) ← visit (mode f) (namedCaptureGroups tree) (modifiers f) true p resolved;
  optimize (mode f) n.

End RegexLowering.
