(* ===== verification/RegexSource.v ===== *)
(** The meaning of the syntax tree the parser builds, read off ECMAScript: a node maps a
    state to the states a backtracking matcher reaches, in order, under the modifiers in
    force.  It shares the steps on one code point, the assertions and the repetition with
    the meaning of lowered trees (RegexSpec), and knows nothing of lowering. *)
From S2P Require Import Prelude Unicode CodePointSet RegexMatcher RegexNode RegexSpec RegexSyntax RegexStrSet.

Module RegexSource.
Import UnicodeUtil RegexMatcher RegexNode RegexSyntax RegexSpec RegexStrSet.

(** ** Observational equivalence

    What a continuation can tell of a list of states: the first one that satisfies a
    predicate.  The order of the first occurrences counts, repetitions do not. *)
Definition obs {A} (l k : list A) : Prop := forall P, List.find P l = List.find P k.

Infix "≈" := obs (at level 70, no associativity).

Lemma find_app {A} (P : A -> bool) (l k : list A) :
  List.find P (l ++ k) = match List.find P l with Some x => Some x | None => List.find P k end.
Proof. induction l as [|x l IH]; [done|]. cbn. by destruct (P x). Qed.

Section obs.
Context {A B : Type}.
Implicit Types (l k : list A).

#[export] Instance obs_equivalence : Equivalence (@obs A).
Proof. split; [done|by intros l k H P|]. intros a b c H1 H2 P. by rewrite H1. Qed.

#[export] Instance obs_app : Proper (obs ==> obs ==> obs) (@app A).
Proof. intros l l' Hl k k' Hk P. by rewrite !find_app, Hl, Hk. Qed.

Lemma obs_head l k : l ≈ k -> head l = head k.
Proof. intros H. specialize (H (fun _ => true)). by destruct l, k. Qed.

Lemma obs_elem l k x : EqDecision A -> l ≈ k -> x ∈ l -> x ∈ k.
Proof.
  intros Hd H Hx. apply list_elem_of_In in Hx.
  destruct (List.find (fun y => bool_decide (y = x)) l) as [y|] eqn:E.
  - pose proof (find_some _ _ E) as [_ Hy]. apply bool_decide_eq_true in Hy as ->. rewrite H in E.
    by apply find_some in E as [? _]; apply list_elem_of_In.
  - pose proof (find_none _ _ E x Hx) as Hn. cbn in Hn. by apply bool_decide_eq_false in Hn.
Qed.

(** A state that was reached before can be dropped. *)
Lemma obs_repeat l x : l ++ [x; x] ≈ l ++ [x].
Proof. intros P. rewrite !find_app. cbn. by destruct (P x). Qed.

Lemma find_flat_map (f : A -> list B) (P : B -> bool) l :
  List.find P (flat_map f l) =
    match List.find (fun x => match List.find P (f x) with Some _ => true | None => false end) l with
    | Some x => List.find P (f x)
    | None => None
    end.
Proof.
  induction l as [|x l IH]; [done|]. cbn [flat_map]. rewrite find_app, IH. cbn.
  destruct (List.find P (f x)) eqn:E; [by rewrite E|done].
Qed.

Lemma obs_flat_map (f g : A -> list B) l k :
  l ≈ k -> (forall x, x ∈ k -> f x ≈ g x) -> flat_map f l ≈ flat_map g k.
Proof.
  intros Hl Hf P. rewrite !find_flat_map, Hl. clear Hl l. induction k as [|x k IH]; [done|]. cbn.
  rewrite (Hf x) by (by left). destruct (List.find P (g x)) eqn:E.
  - by rewrite (Hf x), E by (by left).
  - apply IH. intros y Hy. apply Hf. by right.
Qed.

Lemma find_map (g : A -> B) (P : B -> bool) l : List.find P (map g l) = g <$> List.find (fun x => P (g x)) l.
Proof. induction l as [|x l IH]; [done|]. cbn. by destruct (P (g x)). Qed.

Lemma obs_map (g : A -> B) l k : l ≈ k -> map g l ≈ map g k.
Proof. intros H P. by rewrite !find_map, H. Qed.
End obs.

(** ** Character classes

    The code points of a class.  In the mode with sets a class that ignores case is a set
    of folded code points. *)
Section source.
Context `{Ucd} `{Ucs} (mode : Mode) (cs : list Z) (groups : NamedCaptureGroups).

Definition folds (m : Z) : bool := bool_decide (mode = UNICODE_SET) && hasFlag m IGNORE_CASE.

(** The image of a set under folding, by the candidates that fold to [c]. *)
Definition foldImage (f : Z -> bool) (c : Z) : bool :=
  existsb (fun d => f d && (doSimpleCaseFolding d =? c)) (c :: doSimpleCaseUnfold c).

Definition mayFold (m : Z) (f : Z -> bool) : Z -> bool := if folds m then foldImage f else f.

(** All code points of the class world: folded ones only, where a class is folded. *)
Definition universe (m : Z) : Z -> bool := mayFold m isCodePoint.

Definition propertySet (m : Z) (t : PropertyType) (value : Z) : option CodePointSet.CodePointSetRef :=
  match getNormalizedType t with
  | DIGIT => Some ESRegexClassDigit
  | WORD_ => Some (if hasFlag m IGNORE_CASE then ESRegexClassExtendWord else ESRegexClassWord)
  | SPACE => Some ESRegexClassSpace
  | UNICODE_ => Some (getPropertySet (getUCP value))
  | _ => None
  end.

Definition propertyHas (m : Z) (t : PropertyType) (value c : Z) : bool :=
  match propertySet m t value with
  | Some s =>
      let f := mayFold m (CodePointSet.contains s) in
      if isInvertType t then universe m c && negb (f c) else f c
  | None => false
  end.

(** The members of a union, where an operator stands between the ends of a range. *)
Section members.
Context (has : Node -> bool) (range : Z -> Z -> bool).

Fixpoint anyMember (l : list Node) : bool :=
  match l with
  | [] => false
  | e :: r =>
      match e, r with
      | CharNode _ first, p :: CharNode _ last :: r' =>
          if isProperty p RANGE then range first last || anyMember r' else has e || anyMember r
      | _, _ => has e || anyMember r
      end
  end.
End members.

Definition isOperator (n : Node) : bool := isProperty n INTERSECT || isProperty n SUBTRACT.

(** The code points from one end of a range to the other. *)
Definition inRange (first last c : Z) : bool := (Z.min first last <=? c) && (c <=? Z.max first last).

Fixpoint classHas (m : Z) (n : Node) (c : Z) : bool :=
  match n with
  | CharNode _ d => mayFold m (Z.eqb d) c
  | PropertyNode _ t value => propertyHas m t value c
  | CharClassNode _ invert type _ chars =>
      let f :=
        match type with
        | CLASS_UNION => existsb (fun e => classHas m e c) chars
        | CLASS_RANGE => anyMember (fun e => classHas m e c) (fun first last => mayFold m (inRange first last) c) chars
        | CLASS_INTERSECT => forallb (fun e => isOperator e || classHas m e c) chars
        | CLASS_SUBTRACT =>
            match chars with
            | [] => false
            | e :: r => classHas m e c && forallb (fun e => isOperator e || negb (classHas m e c)) r
            end
        end in
      if invert && bool_decide (mode = UNICODE_SET) then universe m c && negb f else f
  | _ => false
  end.

(** A code point of the text matches a set if, ignoring case, some member folds alike. *)
Definition matches (m : Z) (f : Z -> bool) (c : Z) : bool :=
  if hasFlag m IGNORE_CASE then foldImage f (doSimpleCaseFolding c) else f c.

Definition isClassInvert (n : Node) : bool :=
  match n with CharClassNode _ invert _ _ _ => invert && negb (bool_decide (mode = UNICODE_SET)) | _ => false end.

(** ** The meaning of a node *)

Definition refsOf (name : bytes) (index : Z) (c : list Range) : Range :=
  refRange groups (negb (bool_decide (name = []))) index c.

Definition modifiersOf (m set unset : Z) : Z := Z.land (Z.lor m set) (Z.lnot unset).

Fixpoint srcSem (m : Z) (lb : bool) (n : Node) (st : St) : list St :=
  match n with
  | EmptyNode _ => [st]
  | AnyNode _ => testChar cs lb (fun c => hasFlag m DOT_ALL || negb (isLineTerminator c)) st
  | CharNode _ d => testChar cs lb (matches m (Z.eqb d)) st
  | PropertyNode _ t _ =>
      if bool_decide (getNormalizedType t = GRAPHEME) then cluster cs lb st
      else testChar cs lb (matches m (classHas m n)) st
  | CharClassNode _ _ _ _ _ => testChar cs lb (fun c => xorb (isClassInvert n) (matches m (classHas m n) c)) st
  | BoundaryNode _ t => check (boundary cs t m st) st
  | BackRefNode _ name index => backRef cs lb (hasFlag m IGNORE_CASE) (refsOf name index (caps st)) st
  | RepeatNode _ q p => iterate (loopFuel cs q) (srcSem m lb p) q 0 0 st
  | SeqNode _ l =>
      let fs := map (fun x => srcSem m lb x) l in seqM (if lb then rev fs else fs) st
  | AltNode _ l => altM (map (fun e => match e with Some x => srcSem m lb x | None => fun _ => [] end) l) st
  | LookAroundNode _ t p => lookAround (isNegate t) st (srcSem m (negb (isLookAhead t)) p st)
  | GroupNode _ CAPTURE i _ _ p => map (closeGroup lb (Z.to_nat i) (pos st)) (srcSem m lb p st)
  | GroupNode _ NON_CAPTURE _ _ _ p => srcSem m lb p st
  | GroupNode _ MODIFIER _ set unset p => srcSem (modifiersOf m set unset) lb p st
  end.

(** ** The search

    The leftmost position that matches, and the preferred state there. *)
Section search.
Context (m : Z) (pattern : Node) (groupCount : Z).

Fixpoint srcSearchFrom (n k : nat) : option (nat * St) :=
  match srcSem m false pattern (initSt groupCount k) with
  | r :: _ => Some (k, r)
  | [] => match n with O => None | S n' => srcSearchFrom n' (S k) end
  end.

Definition srcSearch (k : nat) : option (nat * St) := srcSearchFrom (length cs - k) k.
End search.

End source.
End RegexSource.
