(* ===== verification/RegexLowerClass.v ===== *)
(** The lowering of character classes (RegexLowering.v): the set that is built for a class
    without strings holds the code points of the class, and the node made of it matches
    the code points ECMAScript says. *)
From S2P Require Import Prelude Unicode CodePointSet RegexMatcher SetBuilder RadixTree.
From S2P Require Import RegexNode RegexSpec RegexSyntax RegexStrSet RegexLowering RegexSource.

Module RegexLowerClass.
Import UnicodeUtil RegexMatcher SetBuilder RegexNode RegexSyntax RegexSpec RegexStrSet RegexLowering RegexSource.

(** ** The node of the code generator *)
Fixpoint toNode (n : Lowered) : option RegexNode.Node :=
  match n with
  | LEmpty => Some RegexNode.EmptyNode
  | LAny m => Some (RegexNode.AnyNode m)
  | LChar c => Some (RegexNode.CharNode c)
  | LBoundary t m => Some (RegexNode.BoundaryNode t m)
  | LBackRef named i ic => Some (RegexNode.BackRefNode named i ic)
  | LRepeat q p => RegexNode.RepeatNode q <$> toNode p
  | LSeq l => RegexNode.SeqNode <$> mapM toNode l
  | LAlt l => RegexNode.AltNode <$> mapM toNode l
  | LLookAround t p => RegexNode.LookAroundNode t <$> toNode p
  | LGroup i p => RegexNode.GroupNode CAPTURE i <$> toNode p
  | LFoldChar c => Some (RegexNode.FoldCharNode c)
  | LCharSet s invert ic => Some (RegexNode.CharSetNode s invert ic)
  | LStrSet emoji radix None ic => Some (RegexNode.StrSetNode emoji radix None ic)
  | LStrSet emoji radix (Some c) ic => (fun c => RegexNode.StrSetNode emoji radix (Some c) ic) <$> toNode c
  | LGrapheme => Some RegexNode.GraphemeNode
  end.

(** ** The tables

    Folding is idempotent, and the sets of the properties are well-formed. *)
Class FoldIdem `{Ucd} : Prop :=
  fold_idem : forall c, doSimpleCaseFolding (doSimpleCaseFolding c) = doSimpleCaseFolding c.

Definition goodSet (s : CodePointSet.CodePointSetRef) : Prop :=
  wfRef s /\ fits s /\
  CodePointSet.bmpSize s + CodePointSet.packedNonBmpSize s <= CodePointSet.size s.

Class UcsLaws `{Ucs} : Prop := {
  property_good : forall p, goodSet (getPropertySet p);
  digit_good : goodSet ESRegexClassDigit;
  word_good : goodSet ESRegexClassWord;
  extendWord_good : goodSet ESRegexClassExtendWord;
  space_good : goodSet ESRegexClassSpace
}.

(** ** Elements without strings *)

Definition plainProperty (t : PropertyType) : bool := negb (mayContainString t) && negb (isOpType t).

Section plain.
Context (plain : Node -> bool).

Fixpoint plainRange (l : list Node) : bool :=
  match l with
  | [] => true
  | e :: r =>
      match e, r with
      | CharNode _ first, p :: CharNode _ last :: r' =>
          if isProperty p RANGE then isCodePoint first && isCodePoint last && plainRange r'
          else plain e && plainRange r
      | _, _ => plain e && plainRange r
      end
  end.

Definition plainMembers (type : ClassType) (chars : list Node) : bool :=
  match type with
  | CLASS_UNION => forallb plain chars
  | CLASS_RANGE => plainRange chars
  | CLASS_INTERSECT | CLASS_SUBTRACT =>
      match chars with
      | [] => false
      | e :: r => plain e && negb (isOperator e) && forallb (fun e => isOperator e || plain e) r
      end
  end.
End plain.

(** An element of a class whose members are code points.  Classes are nested in the mode
    with sets only. *)
Fixpoint plainElem (mode : Mode) (n : Node) : bool :=
  match n with
  | CharNode _ c => isCodePoint c
  | PropertyNode _ t _ => plainProperty t
  | CharClassNode _ _ type strings chars =>
      bool_decide (mode = UNICODE_SET) && negb strings && plainMembers (plainElem mode) type chars
  | _ => false
  end.

(** A class of the pattern, in any mode. *)
Definition plainClass (mode : Mode) (n : Node) : bool :=
  match n with
  | CharClassNode _ _ type strings chars => negb strings && plainMembers (plainElem mode) type chars
  | _ => false
  end.

Section class.
Context `{Ucd} `{!UcdLaws} `{!FoldIdem} `{Ucs} `{!UcsLaws} (mode : Mode).

(** ** Builders as sets *)

Definition isSet (b : Builder) (f : Z -> bool) : Prop := inv b /\ forall c, SetBuilder.has b c <-> f c = true.

Lemma isSet_ext b f g : isSet b f -> (forall c, f c = g c) -> isSet b g.
Proof. intros [Hi Hf] E. split; [done|]. intros c. by rewrite Hf, E. Qed.

Lemma isSet_empty : isSet emptyBuilder (fun _ => false).
Proof. split; [apply inv_empty|]. intros c. unfold SetBuilder.has. cbn. by rewrite mem_nil. Qed.

Lemma foldImage_spec f c : foldImage f c = true <-> exists d, f d = true /\ doSimpleCaseFolding d = c.
Proof.
  unfold foldImage. rewrite existsb_exists. split.
  - intros (d & _ & Hd). zbool. eauto.
  - intros (d & Hf & Hd). exists d. split; [|apply andb_true_iff; by rewrite Z.eqb_eq].
    apply list_elem_of_In, elem_of_cons. by apply unfold_folding.
Qed.

Lemma isSet_foldCase b f : isSet b f -> isSet (foldCase b) (foldImage f).
Proof.
  intros [Hi Hf]. destruct (foldCase_spec b Hi) as [Hi' Hm]. split; [done|].
  intros c. rewrite Hm, foldImage_spec. by setoid_rewrite Hf.
Qed.

Lemma isSet_mayFold m b f : isSet b f -> isSet (mayBeSimpleCaseFolding mode m b) (mayFold mode m f).
Proof.
  intros Hs. unfold mayBeSimpleCaseFolding, mayFold, needSimpleCaseFolding, folds, RegexLowering.has.
  destruct (bool_decide (mode = UNICODE_SET) && hasFlag m IGNORE_CASE); [by apply isSet_foldCase|done].
Qed.

Lemma isSet_addRef b f s : isSet b f -> goodSet s -> isSet (addRef b s) (fun c => f c || CodePointSet.contains s c).
Proof.
  intros [Hi Hf] [Hw _]. destruct (addRef_spec b s Hi Hw) as [Hi' Hm]. split; [done|].
  intros c. by rewrite Hm, Hf, orb_true_iff.
Qed.

Lemma isSet_addBuilder b k f g : isSet b f -> isSet k g -> isSet (addBuilder b k) (fun c => f c || g c).
Proof.
  intros [Hi Hf] [Hk Hg]. destruct (addBuilder_spec b k Hi Hk) as [Hi' Hm]. split; [done|].
  intros c. by rewrite Hm, Hf, Hg, orb_true_iff.
Qed.

Lemma isSet_remove invert b k f g : isSet b f -> isSet k g ->
  isSet (fst (remove b k invert)) (fun c => f c && (if invert then g c else negb (g c))).
Proof.
  intros [Hi Hf] [Hk Hg]. destruct (remove_spec b k invert Hi Hk) as (Hi' & _ & Hm). split; [done|].
  intros c. rewrite Hm, Hf, andb_true_iff. unfold kept. destruct invert; rewrite Hg; [done|].
  by rewrite negb_true_iff, not_true_iff_false.
Qed.

Lemma isSet_complement m b f : isSet b f ->
  exists b', complement_ mode m b = Some b' /\ isSet b' (fun c => universe mode m c && negb (f c)).
Proof.
  intros [Hi Hf]. unfold complement_, universe, mayFold, needSimpleCaseFolding, folds, RegexLowering.has.
  destruct (bool_decide (mode = UNICODE_SET) && hasFlag m IGNORE_CASE).
  - destruct (complementWithFoldCase_spec b Hi) as [Hi' Hm]. eexists. split; [done|]. split; [done|].
    intros c. by rewrite Hm, Hf, andb_true_iff, foldImage_spec, negb_true_iff, not_true_iff_false.
  - destruct (complement_spec b Hi) as (b' & -> & Hi' & Hm). eexists. split; [done|]. split; [done|].
    intros c. by rewrite Hm, Hf, andb_true_iff, negb_true_iff, not_true_iff_false.
Qed.

Lemma isSet_addRange m b f first last :
  isSet b f -> isCodePoint first = true -> isCodePoint last = true ->
  isSet (addRange b first last (needSimpleCaseFolding mode m))
    (fun c => f c || mayFold mode m (inRange first last) c).
Proof.
  intros [Hi Hf] Hc1%isCodePoint_spec Hc2%isCodePoint_spec.
  destruct (addRange_spec b first last (needSimpleCaseFolding mode m) Hi) as [Hi' Hm]; [unfold overlaps; lia|].
  split; [done|]. intros c. rewrite Hm, Hf, orb_true_iff. apply or_iff_compat_l.
  unfold ranged, mayFold, needSimpleCaseFolding, folds, RegexLowering.has.
  destruct (bool_decide (mode = UNICODE_SET) && hasFlag m IGNORE_CASE).
  - rewrite foldImage_spec. unfold inRange. split.
    + intros (d & Hd & _ & <-). exists d. split; [lia|done].
    + intros (d & Hd & <-). exists d. rewrite isCodePoint_spec. split_and!; lia.
  - unfold inRange. rewrite isCodePoint_spec. lia.
Qed.

(** ** String sets without strings *)

Definition noEmoji (e : Z) : Prop := e = 0 \/ e = CASE_IGNORE.

Definition plainSet (b : StrSetBuilder) (f : Z -> bool) : Prop :=
  isSet (codePoints b) f /\ radix b = RadixTree.newTree /\ noEmoji (emoji b) /\ emptySeq b = false.

Lemma plainSet_new ic : plainSet (newStrSetBuilder ic) (fun _ => false).
Proof. split; [apply isSet_empty|]. destruct ic; (split_and!; [done| |done]); [by right|by left]. Qed.

Lemma plainSet_ext b f g : plainSet b f -> (forall c, f c = g c) -> plainSet b g.
Proof. intros (? & ? & ? & ?) E. split; [by eapply isSet_ext|done]. Qed.

Lemma plainSet_codePoints b c f g : plainSet b f -> isSet c g -> plainSet (withCodePoints b c) g.
Proof. intros (_ & ? & ? & ?) Hc. by split. Qed.

Lemma noEmoji_has e : noEmoji e -> hasEmoji e = false.
Proof. by intros [->| ->]. Qed.

Lemma noEmoji_set e e' : noEmoji e -> noEmoji e' -> noEmoji (setFlag e e').
Proof. intros [->| ->] [->| ->]; [by left|by right..]. Qed.

Lemma addStrSet_plain b k f g :
  plainSet b f -> plainSet k g -> exists b', addStrSet b k = Some b' /\ plainSet b' (fun c => f c || g c).
Proof.
  intros (Hb & Rb & Eb & Sb) (Hk & Rk & Ek & Sk). unfold addStrSet. rewrite Rk, Sk. eexists. split; [reflexivity|].
  split; [by apply isSet_addBuilder|]. split_and!; [done|by apply noEmoji_set|done].
Qed.

Lemma isSet_notEmpty b f : isSet b f -> notEmpty b = false -> forall c, f c = false.
Proof.
  intros [_ Hf] Hn c. apply not_true_iff_false. rewrite <- Hf. unfold SetBuilder.has.
  destruct b as [d [|r l]]; [|done]. cbn. rewrite mem_nil. tauto.
Qed.

Lemma intersectStrSet_plain b k f g :
  plainSet b f -> plainSet k g -> exists b', intersectStrSet b k = Some b' /\ plainSet b' (fun c => f c && g c).
Proof.
  intros (Hb & Rb & Eb & Sb) (Hk & Rk & Ek & Sk). unfold intersectStrSet. rewrite Rb, Sb. cbn [andb].
  unfold intersectEmoji. rewrite noEmoji_has by done. cbn [mbind option_bind].
  change (intersectRadix RadixTree.newTree k) with (fun new : StrSetBuilder => Some new). cbn [mbind option_bind].
  unfold intersectCodePoints. set (new := withEmoji _ _).
  assert (plainSet new (fun _ => false)) as Hnew.
  { subst new. destruct Eb as [->| ->], Ek as [->| ->]; cbn;
      (split; [apply isSet_empty|]; split_and!; [done| |done]); first [by left|by right]. }
  clearbody new. destruct (notEmpty (codePoints b)) eqn:En.
  - destruct Hb as [Hi Hf]. destruct (build_spec _ Hi) as (c & s & -> & -> & _). cbn [mbind option_bind].
    unfold iterateEmoji. rewrite noEmoji_has by done. cbn [mbind option_bind]. rewrite Rk.
    change (iterateRadix ?f RadixTree.newTree new) with (Some new). cbn [mbind option_bind].
    eexists. split; [reflexivity|]. destruct (tidy_spec _ Hi) as (Hc & _ & Hh).
    assert (isSet (tryToSortAndCompact (codePoints b)) f) as Ht.
    { split; [by apply inv_compact|]. intros c. by rewrite Hh. }
    destruct (notEmpty (codePoints k)) eqn:Ek'.
    + eapply plainSet_codePoints; [done|]. eapply isSet_ext; [apply isSet_addBuilder; [apply Hnew|by apply isSet_remove]|]. done.
    + eapply plainSet_ext; [done|]. intros c. by rewrite (isSet_notEmpty _ _ Hk Ek'), andb_false_r.
  - eexists. split; [reflexivity|]. eapply plainSet_ext; [done|]. intros c. by rewrite (isSet_notEmpty _ _ Hb En).
Qed.

Lemma sub_if b k f g : isSet b f -> isSet k g ->
  isSet (if notEmpty b then fst (sub b k) else b) (fun c => f c && negb (g c)).
Proof.
  intros Hb Hk. destruct (notEmpty b) eqn:E; [by apply (isSet_remove false)|].
  eapply isSet_ext; [done|]. intros c. by rewrite (isSet_notEmpty _ _ Hb E).
Qed.

Lemma sub_step b k :
  (if notEmpty (codePoints b) then Some (withCodePoints b (fst (sub (codePoints b) k))) else Some b) =
  Some (withCodePoints b (if notEmpty (codePoints b) then fst (sub (codePoints b) k) else codePoints b)).
Proof. destruct (notEmpty (codePoints b)); [done|]. by destruct b. Qed.

Lemma subStrSet_plain b k f g :
  plainSet b f -> plainSet k g -> exists b', subStrSet b k = Some b' /\ plainSet b' (fun c => f c && negb (g c)).
Proof.
  intros (Hb & Rb & Eb & Sb) (Hk & Rk & Ek & Sk). unfold subStrSet. rewrite Sb, andb_false_r.
  unfold subEmoji. set (b1 := withEmoji _ _).
  assert (plainSet b1 f) as Hb1.
  { subst b1. destruct Eb as [->| ->], Ek as [->| ->]; (split; [done|]; split_and!; [done| |done]);
      cbn; first [by left|by right]. }
  clearbody b1. destruct Hb1 as (Hs1 & R1 & E1 & S1). rewrite (noEmoji_has _ E1). cbn [mbind option_bind].
  rewrite (noEmoji_has _ E1). cbn [mbind option_bind].
  unfold subRadix. rewrite R1. change (RadixTree.empty RadixTree.newTree) with true. cbn [mbind option_bind]. rewrite R1.
  change (RadixTree.empty RadixTree.newTree) with true. cbn [mbind option_bind]. rewrite R1. change (RadixTree.empty RadixTree.newTree) with true. cbn [mbind option_bind].
  unfold subCodePoints, iterateEmoji. rewrite (noEmoji_has _ Ek). cbn [mbind option_bind].
  rewrite Rk. change (iterateRadix ?f RadixTree.newTree emptyBuilder) with (Some emptyBuilder). cbn [mbind option_bind].
  rewrite sub_step. cbn [mbind option_bind].
  pose proof (sub_if _ _ _ _ Hs1 isSet_empty) as Hs2. set (c2 := if notEmpty (codePoints b1) then _ else _) in *.
  clearbody c2. rewrite sub_step. cbn [mbind option_bind withCodePoints codePoints].
  pose proof (sub_if _ _ _ _ Hs2 isSet_empty) as Hs3. set (c3 := if notEmpty c2 then _ else _) in *. clearbody c3.
  pose proof (sub_if _ _ _ _ Hs3 Hk) as Hs4.
  eexists. split; [reflexivity|].
  destruct (notEmpty c3); (split; [|done]); (eapply isSet_ext; [exact Hs4|]); intros c; cbn; by rewrite !andb_true_r.
Qed.


(** ** The members of a class *)

Definition adds (gen : StrSetBuilder -> option StrSetBuilder) (g : Z -> bool) : Prop :=
  forall b f, plainSet b f -> exists b', gen b = Some b' /\ plainSet b' (fun c => f c || g c).

Lemma adds_same gen g g' : adds gen g -> (forall c, g c = g' c) -> adds gen g'.
Proof.
  intros Ha E b f Hb. destruct (Ha b f Hb) as (b' & -> & Hb'). eexists. split; [done|].
  eapply plainSet_ext; [done|]. intros c. cbv beta. by rewrite E.
Qed.

Lemma adds_bind gen gen' g g' : adds gen g -> adds gen' g' -> adds (fun b => b ← gen b; gen' b) (fun c => g c || g' c).
Proof.
  intros Ha Ha' b f Hb. destruct (Ha b f Hb) as (b1 & -> & Hb1). destruct (Ha' b1 _ Hb1) as (b2 & E & Hb2).
  exists b2. cbn [mbind option_bind]. split; [done|]. eapply plainSet_ext; [done|]. intros c. cbv beta. by rewrite orb_assoc.
Qed.

Lemma adds_one_range m first last :
  isCodePoint first = true -> isCodePoint last = true ->
  adds (fun b => Some (addRange_ b first last (needSimpleCaseFolding mode m))) (mayFold mode m (inRange first last)).
Proof.
  intros Hf Hl b f Hb. eexists. split; [done|]. eapply plainSet_codePoints; [done|]. apply isSet_addRange; [apply Hb|done..].
Qed.

Lemma fold_needs m c : (if needSimpleCaseFolding mode m then doSimpleCaseFolding c else c) =
  if folds mode m then doSimpleCaseFolding c else c.
Proof. done. Qed.

Lemma adds_char m d : isCodePoint d = true ->
  adds (fun b => Some (generateChar mode m b false d)) (mayFold mode m (Z.eqb d)).
Proof.
  intros Hd b f Hb. eexists. split; [done|]. unfold generateChar. rewrite fold_needs.
  eapply plainSet_codePoints; [done|]. destruct Hb as [[Hi Hf] _].
  set (x := if folds mode m then _ else d).
  assert (isCodePoint x = true) as Hx by (subst x; destruct (folds mode m); [by apply fold_codePoint|done]).
  apply isCodePoint_spec in Hx. destruct (addRange_spec (codePoints b) x x false Hi) as [Hi' Hm]; [unfold overlaps; lia|].
  split; [done|]. intros c. rewrite Hm, Hf, orb_true_iff. apply or_iff_compat_l. unfold ranged. rewrite isCodePoint_spec.
  unfold mayFold. subst x. destruct (folds mode m).
  - rewrite foldImage_spec. split; [|intros (e & He & <-); zbool; subst; lia].
    intros [? ?]. exists d. rewrite Z.eqb_refl. split; [done|lia].
  - rewrite Z.eqb_eq. lia.
Qed.

Lemma toCodePointSet_good m t value :
  plainProperty t = true -> exists s, toCodePointSet m t value = Some s /\ propertySet m t value = Some s /\ goodSet s.
Proof.
  intros Hp. unfold toCodePointSet, propertySet, RegexLowering.has.
  destruct t; try done; cbn [getNormalizedType]; eexists; (split; [done|]; split; [done|]);
    try apply digit_good; try apply space_good; try apply property_good;
    destruct (hasFlag m IGNORE_CASE); (apply word_good || apply extendWord_good).
Qed.

(** The set of a property, built on its own. *)
Lemma property_isSet m t value s :
  propertySet m t value = Some s -> goodSet s ->
  exists b, (if isInvertType t then complement_ mode m (mayBeSimpleCaseFolding mode m (addRef emptyBuilder s))
             else Some (mayBeSimpleCaseFolding mode m (addRef emptyBuilder s))) = Some b /\
    isSet b (propertyHas mode m t value).
Proof.
  intros Hs Hg. pose proof (isSet_mayFold m _ _ (isSet_addRef _ _ _ isSet_empty Hg)) as Hf. cbn [orb] in Hf.
  assert (forall c, mayFold mode m (fun c => CodePointSet.contains s c) c = mayFold mode m (CodePointSet.contains s) c) as E by done.
  destruct (isInvertType t) eqn:Ei.
  - destruct (isSet_complement m _ _ Hf) as (b & -> & Hb). exists b. split; [done|].
    eapply isSet_ext; [done|]. intros c. unfold propertyHas. by rewrite Hs, Ei.
  - eexists. split; [done|]. eapply isSet_ext; [done|]. intros c. unfold propertyHas. by rewrite Hs, Ei.
Qed.

Lemma adds_property m t value : plainProperty t = true ->
  adds (generateProperty mode m t value) (propertyHas mode m t value).
Proof.
  intros Hp b f Hb. destruct (toCodePointSet_good m t value Hp) as (s & E & E' & Hg).
  unfold generateProperty. apply andb_true_iff in Hp as [Hs%negb_true_iff _]. rewrite Hs, E. cbn [mbind option_bind].
  destruct (isInvertType t || RegexLowering.has m IGNORE_CASE) eqn:Ei.
  - destruct (property_isSet m t value s E' Hg) as (c & -> & Hc). cbn [mbind option_bind].
    eexists. split; [done|]. eapply plainSet_codePoints; [done|]. apply isSet_addBuilder; [apply Hb|done].
  - apply orb_false_iff in Ei as [Ei Ec]. eexists. split; [done|]. eapply plainSet_codePoints; [done|].
    eapply isSet_ext; [apply isSet_addRef; [apply Hb|done]|]. intros c. cbn. f_equal.
    unfold propertyHas, mayFold, folds. unfold RegexLowering.has in Ec. by rewrite E', Ei, Ec, andb_false_r.
Qed.

Section members.
Context (gen : Node -> StrSetBuilder -> option StrSetBuilder) (hasMember : Node -> Z -> bool) (plain : Node -> bool).
Context (m : Z).

Lemma adds_none : adds Some (fun _ => false).
Proof. intros b f Hb. eexists. split; [done|]. eapply plainSet_ext; [done|]. intros c. cbv beta. by rewrite orb_false_r. Qed.

Lemma adds_union fold l :
  Forall (fun e => plain e = true -> adds (gen e) (hasMember e)) l -> forallb plain l = true ->
  adds (generateUnion gen fold false l) (fun c => existsb (fun e => hasMember e c) l).
Proof.
  induction 1 as [|e r He _ IH]; [intros _; apply adds_none|]. cbn [forallb]. intros [Hp Hr]%andb_true_iff.
  apply (adds_bind (gen e) (generateUnion gen fold false r)); auto.
Qed.

Lemma adds_all_ranges n : forall l, (length l <= n)%nat ->
  Forall (fun e => plain e = true -> adds (gen e) (hasMember e)) l -> plainRange plain l = true ->
  adds (generateUnion gen (needSimpleCaseFolding mode m) true l)
    (fun c => anyMember (fun e => hasMember e c) (fun first last => mayFold mode m (inRange first last) c) l).
Proof.
  induction n as [|n IH]; intros l Hl Hf; [destruct l; [intros _; apply adds_none|cbn in Hl; lia]|].
  destruct Hf as [|e r He Hr]; [intros _; apply adds_none|]. cbn [length] in Hl.
  assert (plain e && plainRange plain r = true ->
    adds (fun b => b ← gen e b; generateUnion gen (needSimpleCaseFolding mode m) true r b)
      (fun c => hasMember e c || anyMember (fun e => hasMember e c) (fun first last => mayFold mode m (inRange first last) c) r)) as Hsingle.
  { intros [Hp Hq]%andb_true_iff. apply adds_bind; [by apply He|]. apply IH; [lia|done..]. }
  cbn [plainRange generateUnion anyMember].
  destruct e; try exact Hsingle. destruct r as [|p [|q r]]; try exact Hsingle.
  destruct q; try exact Hsingle. destruct (isProperty p RANGE); [|exact Hsingle].
  intros [[Hc1 Hc2]%andb_true_iff Hq]%andb_true_iff.
  apply (adds_bind (fun b => Some (addRange_ b codePoint codePoint0 (needSimpleCaseFolding mode m)))
           (generateUnion gen (needSimpleCaseFolding mode m) true r)); [by apply adds_one_range|].
  apply IH; [cbn in Hl; lia| |done]. by inversion_clear Hr as [|? ? ? Hr']; inversion_clear Hr'.
Qed.
End members.

(** A generator that starts from a new builder. *)
Definition makes (gen : StrSetBuilder -> option StrSetBuilder) (g : Z -> bool) : Prop :=
  forall b, plainSet b (fun _ => false) -> exists b', gen b = Some b' /\ plainSet b' g.

Lemma adds_makes gen g : adds gen g -> makes gen g.
Proof. intros Ha b Hb. apply (Ha b _ Hb). Qed.

(** The operands after the first, for an operator that is the operation [combine] on sets. *)
Lemma operands_spec gen hasMember plain m op combine l : forall b f,
  (forall b k f g, plainSet b f -> plainSet k g ->
     exists b', op b k = Some b' /\ plainSet b' (fun c => f c && combine (g c))) ->
  Forall (fun e => plain e = true -> makes (gen e) (hasMember e)) l ->
  forallb (fun e => isOperator e || plain e) l = true -> plainSet b f ->
  exists b', generateOperands gen op (newStrSetBuilder (RegexLowering.has m IGNORE_CASE)) l b = Some b' /\
    plainSet b' (fun c => f c && forallb (fun e => isOperator e || combine (hasMember e c)) l).
Proof.
  induction l as [|e l IH]; intros b f Hop Hl Hp Hb; cbn [generateOperands forallb] in *.
  { exists b. split; [done|]. eapply plainSet_ext; [done|]. intros c. cbv beta. by rewrite andb_true_r. }
  apply Forall_cons in Hl as [He Hl]. apply andb_true_iff in Hp as [Hpe Hp].
  change (isProperty e INTERSECT || isProperty e SUBTRACT) with (isOperator e). destruct (isOperator e); cbn [orb] in *.
  - destruct (IH b f Hop Hl Hp Hb) as (b' & -> & Hb'). by exists b'.
  - destruct (He Hpe (newStrSetBuilder (RegexLowering.has m IGNORE_CASE)) (plainSet_new _)) as (k & -> & Hk). cbn [mbind option_bind].
    destruct (Hop b k f _ Hb Hk) as (b1 & -> & Hb1). cbn [mbind option_bind].
    destruct (IH b1 _ Hop Hl Hp Hb1) as (b2 & -> & Hb2). exists b2. split; [done|].
    eapply plainSet_ext; [done|]. intros c. cbv beta. by rewrite andb_assoc.
Qed.

Lemma operator_not_plain e : isOperator e = true -> plainElem mode e = false.
Proof.
  unfold isOperator, isProperty. destruct e; try done. destruct type; done.
Qed.

(** The elements of a class of a kind, from a new builder. *)
Definition classMembers (m : Z) (type : ClassType) (chars : list Node) (c : Z) : bool :=
  match type with
  | CLASS_UNION => existsb (fun e => classHas mode m e c) chars
  | CLASS_RANGE => anyMember (fun e => classHas mode m e c) (fun first last => mayFold mode m (inRange first last) c) chars
  | CLASS_INTERSECT => forallb (fun e => isOperator e || classHas mode m e c) chars
  | CLASS_SUBTRACT =>
      match chars with
      | [] => false
      | e :: r => classHas mode m e c && forallb (fun e => isOperator e || negb (classHas mode m e c)) r
      end
  end.

Definition classGen (m : Z) (type : ClassType) (chars : list Node) (b : StrSetBuilder) : option StrSetBuilder :=
  let operands op b :=
    match chars with
    | [] => None
    | e :: r =>
        b ← generateStrSet mode m true e b;
        generateOperands (generateStrSet mode m false) op (newStrSetBuilder (RegexLowering.has m IGNORE_CASE)) r b
    end in
  match type with
  | CLASS_UNION => generateUnion (generateStrSet mode m true) (needSimpleCaseFolding mode m) false chars b
  | CLASS_RANGE => generateUnion (generateStrSet mode m true) (needSimpleCaseFolding mode m) true chars b
  | CLASS_INTERSECT => operands intersectStrSet b
  | CLASS_SUBTRACT => operands subStrSet b
  end.

Definition elemSpec (m : Z) (e : Node) : Prop :=
  plainElem mode e = true ->
  adds (generateStrSet mode m true e) (classHas mode m e) /\ makes (generateStrSet mode m false e) (classHas mode m e).

Lemma classGen_makes m type chars :
  Forall (elemSpec m) chars -> plainMembers (plainElem mode) type chars = true ->
  makes (classGen m type chars) (classMembers m type chars).
Proof.
  intros Hl Hp b Hb.
  assert (Forall (fun e => plainElem mode e = true -> adds (generateStrSet mode m true e) (classHas mode m e)) chars) as Ha
    by (eapply Forall_impl; [exact Hl|]; intros e He Hpe; by apply He).
  assert (Forall (fun e => plainElem mode e = true -> makes (generateStrSet mode m false e) (classHas mode m e)) chars) as Hm
    by (eapply Forall_impl; [exact Hl|]; intros e He Hpe; by apply He).
  destruct type; cbn [plainMembers] in Hp; unfold classGen, classMembers.
  - by apply (adds_makes _ _ (adds_union _ _ _ _ _ Ha Hp)).
  - by apply (adds_makes _ _ (adds_all_ranges _ _ _ m _ _ (Nat.le_refl _) Ha Hp)).
  - destruct chars as [|e r]; [done|]. apply andb_true_iff in Hp as [[Hpe Ho%negb_true_iff]%andb_true_iff Hp].
    apply Forall_cons in Ha as [Hae _]. apply Forall_cons in Hm as [_ Hm].
    destruct (adds_makes _ _ (Hae Hpe) b Hb) as (b1 & -> & Hb1). cbn [mbind option_bind].
    destruct (operands_spec _ _ _ m intersectStrSet id r b1 _ intersectStrSet_plain Hm Hp Hb1) as (b2 & -> & Hb2).
    exists b2. split; [done|]. eapply plainSet_ext; [done|]. intros c. cbn. by rewrite Ho.
  - destruct chars as [|e r]; [done|]. apply andb_true_iff in Hp as [[Hpe Ho%negb_true_iff]%andb_true_iff Hp].
    apply Forall_cons in Ha as [Hae _]. apply Forall_cons in Hm as [_ Hm].
    destruct (adds_makes _ _ (Hae Hpe) b Hb) as (b1 & -> & Hb1). cbn [mbind option_bind].
    destruct (operands_spec _ _ _ m subStrSet negb r b1 _ subStrSet_plain Hm Hp Hb1) as (b2 & -> & Hb2).
    exists b2. split; [done|]. eapply plainSet_ext; [done|]. intros c. done.
Qed.

(** With the complement of a negated class in the mode with sets. *)
Definition classBody (m : Z) (invert : bool) (type : ClassType) (chars : list Node) (b : StrSetBuilder) : option StrSetBuilder :=
  b ← classGen m type chars b;
  if invert && bool_decide (mode = UNICODE_SET)
  then c ← complement_ mode m (codePoints b); Some (withCodePoints b c) else Some b.

Lemma classBody_makes m t invert type strings chars :
  Forall (elemSpec m) chars -> plainMembers (plainElem mode) type chars = true ->
  makes (classBody m invert type chars) (classHas mode m (CharClassNode t invert type strings chars)).
Proof.
  intros Hl Hp b Hb. destruct (classGen_makes m type chars Hl Hp b Hb) as (b1 & E & Hb1).
  unfold classBody. rewrite E. cbn [mbind option_bind].
  change (classHas mode m (CharClassNode t invert type strings chars)) with
    (fun c => if invert && bool_decide (mode = UNICODE_SET) then universe mode m c && negb (classMembers m type chars c)
              else classMembers m type chars c).
  destruct (invert && bool_decide (mode = UNICODE_SET)); [|by exists b1].
  destruct (isSet_complement m _ _ (proj1 Hb1)) as (c & -> & Hc). cbn [mbind option_bind].
  eexists. split; [done|]. by eapply plainSet_codePoints.
Qed.

Lemma generateStrSet_class m level t invert type strings chars b :
  generateStrSet mode m level (CharClassNode t invert type strings chars) b =
  if level then s ← classBody m invert type chars (newStrSetBuilder (RegexLowering.has m IGNORE_CASE)); addStrSet b s
  else classBody m invert type chars b.
Proof. by destruct level, type. Qed.

Lemma generateStrSet_plain m n : elemSpec m n.
Proof.
  refine (Node_nested_ind (elemSpec m) (fun _ => True) _ _ _ _ _ _ _ _ _ _ _ _ _ _ n);
    unfold elemSpec; cbn [plainElem]; try done.
  - intros t c Hc. pose proof (adds_char m c Hc) as Ha. split; [exact Ha|exact (adds_makes _ _ Ha)].
  - intros t p v Hp. pose proof (adds_property m p v Hp) as Ha. split; [exact Ha|exact (adds_makes _ _ Ha)].
  - intros t i ty s l Hl Hp. apply andb_true_iff in Hp as [_ Hp].
    pose proof (classBody_makes m t i ty s l Hl Hp) as Hm. split.
    + intros b f Hb. rewrite generateStrSet_class.
      destruct (Hm (newStrSetBuilder (RegexLowering.has m IGNORE_CASE)) (plainSet_new _)) as (k & -> & Hk). cbn [mbind option_bind].
      by apply addStrSet_plain.
    + intros b Hb. rewrite generateStrSet_class. by apply Hm.
Qed.

(** ** The set of a builder fits the node *)

Lemma compact_count l : forall lo hi,
  compactFrom lo l -> Forall (fun r => snd r <= hi) l -> lo <= hi + 2 -> 2 * zlen l <= hi - lo + 2.
Proof.
  induction l as [|[a z] l IH]; intros lo hi Hc Hb Hlo; autorewrite with zlen; [lia|].
  destruct Hc as [Ha Hc]. apply Forall_cons in Hb as [Hz Hb]. cbn [snd] in Hz.
  specialize (IH (z + 2) hi Hc Hb ltac:(lia)). lia.
Qed.

Lemma build_good b f : isSet b f ->
  exists s, build b = Some (tryToSortAndCompact b, s) /\ goodSet s /\ forall c, CodePointSet.contains s c = f c.
Proof.
  intros [Hi Hf]. destruct (build_spec b Hi) as (b' & s & E & -> & Hw & Hp & Hb & Hc). exists s. split; [done|].
  split.
  - split; [done|]. rewrite Hp. split; [|lia]. destruct (tidy_spec b Hi) as ([Hc1 Hc2] & _).
    revert E. unfold build. destruct (buildBMP_spec _ 0 0 (Z.le_refl 0) (Z.le_refl 0) Hc1 Hc2) as (bl & nl & -> & Hbl & Hbb & Hnl & Hbn & _).
    cbn [mbind option_bind]. intros [= <-]. unfold fits. cbn [CodePointSet.bmpSize CodePointSet.packedNonBmpSize CodePointSet.size].
    pose proof (compact_count bl 0 UINT16_MAX Hbl Hbb ltac:(unfold UINT16_MAX; lia)) as N1.
    pose proof (compact_count nl (UINT16_MAX + 1) CODE_POINT_MAX Hnl Hbn ltac:(unfold UINT16_MAX, CODE_POINT_MAX; lia)) as N2.
    pose proof (zlen_nonneg bl). pose proof (zlen_nonneg nl).
    assert (zlen (map packBMP bl) = zlen bl) as El by (unfold zlen; by rewrite length_map).
    rewrite zlen_app, zlen_flatten, El.
    unfold in_unsigned, UINT16_MAX, CODE_POINT_MAX in *. change (2 ^ 16) with 65536. change (2 ^ 24) with 16777216. lia.
  - intros c. apply eq_true_iff_eq. by rewrite Hc.
Qed.

(** ** One code point against a node *)

(** The code points of a lowered tree are code points, those of the folding nodes are
    folded, and a sequence has members, not more than a string of a radix tree holds. *)
Fixpoint loweredOk (n : Lowered) : bool :=
  match n with
  | LChar c => isCodePoint c
  | LFoldChar c => isCodePoint c && (doSimpleCaseFolding c =? c)
  | LRepeat _ p | LLookAround _ p | LGroup _ p => loweredOk p
  | LSeq l => (2 <=? zlen l) && (4 * zlen l <=? RadixTree.MAX_STRING_SIZE) && forallb loweredOk l
  | LAlt l => forallb loweredOk l
  | _ => true
  end.

Definition isLSeq (n : Lowered) : bool := match n with LSeq _ => true | _ => false end.

(** A node that matches one code point of the text that satisfies the test. *)
Definition nodeTests (n : Lowered) (test : Z -> bool) : Prop :=
  exists k, toNode n = Some k /\ loweredOk n && negb (isLSeq n) = true /\
    (forall names lc gc lb open, wfNode names lc gc lb open k) /\ groupsOf k = [] /\ loopsOf k = [] /\
    isTest k = true /\
    forall cs names lb st, Forall (fun c => isCodePoint c = true) cs ->
      sem cs names lb k st = testChar cs lb test st.

Lemma testChar_ext cs lb t t' st :
  Forall (fun c => isCodePoint c = true) cs -> (forall c, isCodePoint c = true -> t c = t' c) ->
  testChar cs lb t st = testChar cs lb t' st.
Proof.
  intros Hcs E. unfold testChar, prevChar, curChar. rewrite Forall_lookup in Hcs.
  destruct lb; [destruct (RegexSpec.pos st) as [|p]; [done|]; destruct (cs !! p) eqn:Ep|destruct (cs !! RegexSpec.pos st) eqn:Ep]; try done;
    rewrite E; eauto.
Qed.

Lemma nodeTests_ext n t t' : nodeTests n t -> (forall c, isCodePoint c = true -> t c = t' c) -> nodeTests n t'.
Proof.
  intros (k & Hk & Hfo & Hw & Hg & Hl & Ht & Hs) E. exists k. split_and!; [done..|]. intros cs names lb st Hcs.
  rewrite Hs by done. by apply testChar_ext.
Qed.

Lemma nodeTests_any : nodeTests (LAny DOT_ALL) (fun _ => true).
Proof. eexists. split; [done|]. split_and!; done. Qed.

Lemma nodeTests_char c : isCodePoint c = true -> nodeTests (LChar c) (fun d => d =? c).
Proof. intros Hc. eexists. split; [done|]. split_and!; try done. cbn. by rewrite Hc. Qed.

Lemma nodeTests_fold c : isCodePoint c = true -> doSimpleCaseFolding c = c ->
  nodeTests (LFoldChar c) (fun d => doSimpleCaseFolding d =? c).
Proof. intros Hc Hf. eexists. split; [done|]. split_and!; try done. cbn. by rewrite Hc, Hf, Z.eqb_refl. Qed.

Lemma nodeTests_set s invert ic f : goodSet s -> (forall c, CodePointSet.contains s c = f c) ->
  nodeTests (LCharSet s invert ic) (fun d => xorb invert (f (fold_ ic d))).
Proof.
  intros ((Hw & _) & Hf & Hs) E. eexists. split; [done|]. split_and!; try done.
  intros cs names lb st Hcs. cbn [sem]. apply testChar_ext; [done|]. intros c _. rewrite E.
  by destruct (f (fold_ ic c)), invert.
Qed.

(** What a class in force matches, for the set [f] of its members: folded ones where case is
    ignored. *)
Lemma charSetNode_spec m b f invert :
  isSet b f -> (RegexLowering.has m IGNORE_CASE = true -> forall c, f c = true -> doSimpleCaseFolding c = c) ->
  exists n, tryToGenerateCharSetNode m b invert = Some n /\
    nodeTests n (fun d => xorb invert (f (fold_ (RegexLowering.has m IGNORE_CASE) d))).
Proof.
  intros Hb Hfold. unfold tryToGenerateCharSetNode. destruct Hb as [Hi Hf].
  destruct (tidy_spec b Hi) as (Hc & _ & Hh). set (b1 := tryToSortAndCompact b) in *.
  assert (isSet b1 f) as Hb1 by (split; [by apply inv_compact|intros c; by rewrite Hh]).
  destruct (build_good b1 f Hb1) as (s & Es & Hg & Hcon). rewrite Es. cbn [mbind option_bind].
  set (ic := RegexLowering.has m IGNORE_CASE) in *.
  assert (exists n, Some (LCharSet s invert ic) = Some n /\ nodeTests n (fun d => xorb invert (f (fold_ ic d)))) as Hset
    by (eexists; split; [done|by apply nodeTests_set]).
  assert (forall c, f c = true <-> mem c (codePointRanges b1)) as Hmem by (intros c; by rewrite <- Hf, <- Hh).
  destruct (codePointRanges b1) as [|[first last] [|? ?]] eqn:El; [| |exact Hset].
  - destruct invert; [|exact Hset]. eexists. split; [done|]. eapply nodeTests_ext; [apply nodeTests_any|].
    intros c _. destruct (f (fold_ ic c)) eqn:E; [|done]. by apply Hmem, mem_nil in E.
  - destruct invert; [exact Hset|]. cbn [xorb] in *.
    assert (forall c, f c = true <-> first <= c <= last) as Hrange by (intros c; rewrite Hmem, mem_cons, mem_nil; tauto).
    destruct (Z.eqb_spec first last) as [<-|].
    + assert (isCodePoint first = true) as Hp.
      { apply (has_codePoint b1); [apply Hb1|]. unfold SetBuilder.has. rewrite El, mem_cons. left. lia. }
      assert (f first = true) as Hff by (apply Hrange; lia).
      assert (forall c, f c = (c =? first)) as Hone by (intros c; apply eq_true_iff_eq; rewrite Hrange; lia).
      destruct ic eqn:Eic; eexists; (split; [done|]).
      * rewrite (Hfold eq_refl first Hff). eapply nodeTests_ext; [apply nodeTests_fold; [done|by apply Hfold]|].
        intros c _. cbn. by rewrite Hone.
      * eapply nodeTests_ext; [by apply nodeTests_char|]. intros c _. cbn. by rewrite Hone.
    + destruct ((first =? 0) && (last =? CODE_POINT_MAX)) eqn:Ea; [|exact Hset].
      eexists. split; [done|]. eapply nodeTests_ext; [apply nodeTests_any|]. intros c Hcp. symmetry. apply Hrange.
      assert (isCodePoint (fold_ ic c) = true) as Hfc by (destruct ic; [by apply fold_codePoint|done]).
      apply isCodePoint_spec in Hfc. zbool. lia.
Qed.

Lemma foldImage_folded f c : foldImage f c = true -> doSimpleCaseFolding c = c.
Proof. rewrite foldImage_spec. intros (d & _ & <-). apply fold_idem. Qed.

Definition effective (m : Z) (f : Z -> bool) : Z -> bool := if RegexLowering.has m IGNORE_CASE then foldImage f else f.

Lemma matches_effective m f d : matches m f d = effective m f (fold_ (RegexLowering.has m IGNORE_CASE) d).
Proof. unfold matches, effective, RegexLowering.has. by destruct (hasFlag m IGNORE_CASE). Qed.

Lemma isSet_effective m b f : isSet b f -> isSet (if RegexLowering.has m IGNORE_CASE then foldCase b else b) (effective m f).
Proof. intros Hb. unfold effective. destruct (RegexLowering.has m IGNORE_CASE); [by apply isSet_foldCase|done]. Qed.

Lemma finishClass_spec m invert strings s f :
  plainSet s f -> exists n, finishClass m invert strings s = Some n /\
    nodeTests n (fun d => xorb invert (matches m f d)).
Proof.
  intros (Hs & Hr & He & Hq). unfold finishClass.
  set (s1 := if RegexLowering.has m IGNORE_CASE then _ else s).
  assert (radix s1 = RadixTree.newTree /\ hasEmoji (emoji s1) = false /\ emptySeq s1 = false /\
    codePoints s1 = if RegexLowering.has m IGNORE_CASE then foldCase (codePoints s) else codePoints s) as (-> & -> & -> & ->).
  { subst s1. destruct (RegexLowering.has m IGNORE_CASE); cbn; rewrite ?(noEmoji_has _ He); done. }
  change (RadixTree.empty RadixTree.newTree) with true. cbn [negb andb].
  destruct (charSetNode_spec m _ _ invert (isSet_effective m _ _ Hs)) as (n & -> & Hn).
  { intros E c. unfold effective. rewrite E. apply foldImage_folded. }
  cbn [mbind option_bind optionalOf]. eexists. split; [done|].
  eapply nodeTests_ext; [exact Hn|]. intros c _. cbv beta. by rewrite matches_effective.
Qed.

Lemma generatePropertySet_spec m t value : plainProperty t = true ->
  exists n, generatePropertySet mode m t value = Some n /\ nodeTests n (matches m (propertyHas mode m t value)).
Proof.
  intros Hp. destruct (toCodePointSet_good m t value Hp) as (s & E & E' & Hg). unfold generatePropertySet.
  unfold plainProperty in Hp. apply andb_true_iff in Hp as [Hs%negb_true_iff _]. rewrite Hs, E. cbn [mbind option_bind].
  destruct (isInvertType t || RegexLowering.has m IGNORE_CASE) eqn:Ei.
  - destruct (property_isSet m t value s E' Hg) as (b & -> & Hb). cbn [mbind option_bind].
    destruct (build_good _ _ (isSet_effective m _ _ Hb)) as (k & -> & Hk & Hc). cbn [mbind option_bind].
    eexists. split; [done|]. eapply nodeTests_ext; [by apply (nodeTests_set _ false _ _ Hk Hc)|].
    intros c _. cbn [xorb]. by rewrite matches_effective.
  - apply orb_false_iff in Ei as [Ei Ec]. eexists. split; [done|].
    eapply nodeTests_ext; [by apply (nodeTests_set _ false _ _ Hg (fun _ => eq_refl))|].
    intros c _. cbn [xorb]. rewrite matches_effective. unfold effective. rewrite Ec.
    unfold propertyHas, mayFold, folds. unfold RegexLowering.has in Ec. by rewrite E', Ei, Ec, andb_false_r.
Qed.

(** ** Visiting a class *)

(** What ECMAScript says an element matches. *)
Definition elemTest (m : Z) (n : Node) (d : Z) : bool := xorb (isClassInvert mode n) (matches m (classHas mode m n) d).

Lemma matches_char m c d : matches m (mayFold mode m (Z.eqb c)) d = matches m (Z.eqb c) d.
Proof.
  unfold matches, mayFold, folds. destruct (hasFlag m IGNORE_CASE); [|by rewrite andb_false_r].
  rewrite andb_true_r. destruct (bool_decide (mode = UNICODE_SET)); [|done].
  apply eq_true_iff_eq. rewrite !foldImage_spec. setoid_rewrite foldImage_spec. split.
  - intros (e & (x & Hx & <-) & He). exists x. by rewrite fold_idem in He.
  - intros (e & He & E). exists (doSimpleCaseFolding d). split; [|apply fold_idem]. eauto.
Qed.

Lemma visit_char m c : isCodePoint c = true ->
  nodeTests (if RegexLowering.has m IGNORE_CASE then LFoldChar (doSimpleCaseFolding c) else LChar c) (matches m (Z.eqb c)).
Proof.
  intros Hc. unfold matches, RegexLowering.has. destruct (hasFlag m IGNORE_CASE).
  - eapply nodeTests_ext; [apply nodeTests_fold; [by apply fold_codePoint|apply fold_idem]|]. intros d _. apply eq_true_iff_eq. rewrite foldImage_spec. split.
    + intros E%Z.eqb_eq. exists c. by rewrite Z.eqb_refl.
    + intros (x & Hx & E). zbool. subst. apply Z.eqb_eq. congruence.
  - eapply nodeTests_ext; [by apply nodeTests_char|]. intros d _. apply Z.eqb_sym.
Qed.

Context (names : NamedCaptureGroups).

Lemma single_members m t type strings e c :
  plainElem mode e = true ->
  classHas mode m (CharClassNode t false type strings [e]) c = classHas mode m e c.
Proof.
  intros Hp. assert (isOperator e = false) as Ho.
  { destruct (isOperator e) eqn:E; [|done]. by rewrite operator_not_plain in Hp. }
  cbn [classHas andb]. destruct type; cbn [existsb forallb anyMember]; rewrite ?Ho, ?orb_false_r, ?andb_true_r; try done.
  destruct e; by rewrite ?orb_false_r.
Qed.

Lemma plainMembers_single type e : plainMembers (plainElem mode) type [e] = true -> plainElem mode e = true.
Proof.
  destruct type; cbn [plainMembers forallb plainRange]; rewrite ?andb_true_r; try done.
  - destruct e; by rewrite ?andb_true_r.
  - by intros [? _]%andb_true_iff.
  - by intros [? _]%andb_true_iff.
Qed.

Lemma class_not_single m t invert type chars :
  plainMembers (plainElem mode) type chars = true ->
  exists n, generateClassSet mode m (normalizeStrCharClass (CharClassNode t invert type false chars)) = Some n /\
    nodeTests n (elemTest m (CharClassNode t invert type false chars)).
Proof.
  intros Hp. change (normalizeStrCharClass _) with (CharClassNode t invert type false chars).
  unfold generateClassSet. rewrite generateStrSet_class.
  destruct (classBody_makes m t invert type false chars) with (b := newStrSetBuilder (RegexLowering.has m IGNORE_CASE))
    as (s & -> & Hs); [|done|apply plainSet_new|].
  { apply Forall_forall. intros e _. apply generateStrSet_plain. }
  cbn [mbind option_bind].
  destruct (finishClass_spec m (invert && negb (bool_decide (mode = UNICODE_SET))) false s _ Hs) as (n & -> & Hn).
  exists n. done.
Qed.

(** A class is replaced by a node that matches the code points the class matches. *)
Lemma visit_class n : forall m forward resolved,
  plainElem mode n = true \/ plainClass mode n = true ->
  exists k, visit mode names m forward n resolved = Some (k, resolved) /\ nodeTests k (elemTest m n).
Proof.
  refine (Node_nested_ind (fun n => forall m forward resolved,
    plainElem mode n = true \/ plainClass mode n = true ->
    exists k, visit mode names m forward n resolved = Some (k, resolved) /\ nodeTests k (elemTest m n))
    (fun _ => True) _ _ _ _ _ _ _ _ _ _ _ _ _ _ n); intros; try (by destruct_or!); try done.
  - destruct H4 as [Hc|]; [|done]. cbn [plainElem visit] in *. eexists. split; [done|].
    eapply nodeTests_ext; [by apply visit_char|]. intros d _. unfold elemTest. cbn [isClassInvert classHas xorb]. by rewrite matches_char.
  - destruct H4 as [Hp|]; [|done]. cbn [plainElem visit] in *.
    rewrite bool_decide_eq_false_2 by (by intros E; unfold plainProperty, mayContainString in Hp; rewrite E in Hp).
    destruct (generatePropertySet_spec m p v Hp) as (k & -> & Hk). cbn [mbind option_bind]. eauto.
  - rename H4 into IH, H5 into Hp.
    assert (s = false /\ plainMembers (plainElem mode) ty l = true) as [-> Hm].
    { destruct Hp as [Hp|Hp]; cbn [plainElem plainClass] in Hp; zbool; done. }
    destruct (class_not_single m t i ty l Hm) as (k & Ek & Hk). cbn [visit]. rewrite Ek. cbn [mbind option_bind].
    destruct l as [|e [|e' r]]; [by eexists| |by eexists].
    destruct (isSingleCharClass i [e]) eqn:Es; [|by eexists].
    apply Forall_cons in IH as [IH _]. pose proof (plainMembers_single _ _ Hm) as He.
    destruct (IH m forward resolved (or_introl He)) as (k' & -> & Hk'). exists k'. split; [done|].
    eapply nodeTests_ext; [exact Hk'|]. intros d _. unfold elemTest.
    cbn [isSingleCharClass] in Es. apply andb_true_iff in Es as [Ei%negb_true_iff _]. subst i.
    cbn [isClassInvert andb]. assert (isClassInvert mode e = false) as ->.
    { destruct e; try done. cbn [plainElem] in He. cbn [isClassInvert]. zbool. rewrite H4. apply andb_false_r. }
    cbn [xorb]. unfold matches. destruct (hasFlag m IGNORE_CASE).
    + apply eq_true_iff_eq. rewrite !foldImage_spec. by setoid_rewrite single_members.
    + by rewrite single_members.
Qed.

End class.
End RegexLowerClass.
