(* ===== verification/RegexLowerSim.v ===== *)
(** The lowering pass keeps the meaning of a pattern: the lowered tree, read by RegexSpec,
    and the syntax tree, read by RegexSource, reach the same states in the same order, as
    far as a continuation can tell. *)
From S2P Require Import Prelude Unicode CodePointSet RegexMatcher SetBuilder RadixTree.
From S2P Require Import RegexNode RegexSpec RegexSyntax RegexParser RegexScan RegexParserInv.
From S2P Require Import RegexStrSet RegexLowering RegexSource RegexLowerClass.

Module RegexLowerSim.
Import UnicodeUtil RegexMatcher RegexNode RegexSyntax RegexSpec RegexStrSet RegexLowering RegexSource RegexLowerClass.

Abbreviation groups := RegexParserInv.groups.

(** ** Patterns the theorem is about *)

(** A node that may match without consuming a code point. *)
Fixpoint nullable (n : Node) : bool :=
  match n with
  | CharNode _ _ | AnyNode _ | PropertyNode _ _ _ | CharClassNode _ _ _ _ _ => false
  | RepeatNode _ q p => (qmin q <=? 0) || nullable p
  | SeqNode _ l => forallb nullable l
  | AltNode _ l => existsb (fun e => match e with Some p => nullable p | None => false end) l
  | GroupNode _ _ _ _ _ p => nullable p
  | _ => true
  end.

Section lowerable.
Context (mode : Mode) (names : NamedCaptureGroups) (groupCount : Z).

Definition groupIndexOk (i : Z) : bool := (0 <? i) && (i <=? groupCount).

(** A reference finds its group; one to several groups does not stand inside of them. *)
Definition refOk (open : list Z) (name : bytes) (index : Z) : bool :=
  (0 <=? index) && (index <=? UINT16_MAX) &&
  match name with
  | [] => groupIndexOk index
  | _ =>
      match names !! Z.to_nat index, RegexNode.find names name with
      | Some (name', SingleIndex i), Some (SingleIndex j) => bool_decide (name' = name) && (i =? j) && groupIndexOk i
      | Some (name', MultipleIndices l), Some (MultipleIndices k) =>
          bool_decide (name' = name) && bool_decide (l = k) &&
          forallb (fun i => groupIndexOk i && negb (bool_decide (i ∈ open))) l
      | _, _ => false
      end
  end.

(** The groups that a loop resets are those of its body. *)
Definition resetsBody (q : Quantifier) (gs : list Z) : bool :=
  if hasInnerCaptureGroups q
  then (0 <? firstGroupIndex q) && (firstGroupIndex q <=? lastGroupIndex q) &&
       bool_decide (gs = seqZ (firstGroupIndex q) (lastGroupIndex q - firstGroupIndex q + 1))
  else bool_decide (gs = []).

Definition isOptional (q : Quantifier) : bool :=
  (qmin q =? 0) && (qmax q =? 1) && negb (hasInnerCaptureGroups q) && greedy q.

(** A pattern without string sets, as the parser builds it; [lb] is the direction.  An
    optional body without groups consumes something: lowering it to an alternation
    changes the meaning otherwise. *)
Fixpoint lowerable (lb : bool) (open : list Z) (n : Node) : bool :=
  match n with
  | EmptyNode _ | AnyNode _ | BoundaryNode _ _ => true
  | CharNode _ c => isCodePoint c
  | PropertyNode _ t _ => plainProperty t || bool_decide (getNormalizedType t = GRAPHEME) && negb lb
  | CharClassNode _ _ _ _ _ => plainClass mode n
  | BackRefNode _ name index => refOk open name index
  | RepeatNode _ q p =>
      (0 <=? qmin q) && (qmin q <=? qmax q) && resetsBody q (groups p) &&
      negb (isOptional q && nullable p) && lowerable lb open p
  | SeqNode _ l => forallb (lowerable lb open) l
  | AltNode _ l =>
      (2 <=? zlen l) && forallb (fun e => match e with Some p => lowerable lb open p | None => false end) l
  | LookAroundNode _ t p => lowerable (negb (isLookAhead t)) open p
  | GroupNode _ CAPTURE i _ _ p => groupIndexOk i && lowerable lb (i :: open) p
  | GroupNode _ _ _ _ _ p => lowerable lb open p
  end.
End lowerable.

(** ** Progress *)

(** Matching moves in its direction. *)
Definition ahead (lb : bool) (st r : St) : Prop :=
  if lb then (RegexSpec.pos r <= RegexSpec.pos st)%nat else (RegexSpec.pos st <= RegexSpec.pos r)%nat.
Definition strictly (lb : bool) (st r : St) : Prop :=
  if lb then (RegexSpec.pos r < RegexSpec.pos st)%nat else (RegexSpec.pos st < RegexSpec.pos r)%nat.

Definition progress (lb null : bool) (st r : St) : Prop := if null then ahead lb st r else strictly lb st r.

Lemma progress_trans lb n1 n2 a b c : progress lb n1 a b -> progress lb n2 b c -> progress lb (n1 && n2) a c.
Proof. unfold progress, ahead, strictly. destruct lb, n1, n2; cbn; lia. Qed.

Lemma progress_weaken lb n1 n2 a b : (n1 = true -> n2 = true) -> progress lb n1 a b -> progress lb n2 a b.
Proof. unfold progress, ahead, strictly. intros Hi. destruct lb, n1, n2; try lia; by specialize (Hi eq_refl). Qed.

Lemma progress_refl lb a : progress lb true a a.
Proof. unfold progress, ahead. destruct lb; lia. Qed.

Definition progresses (lb null : bool) (f : St -> list St) : Prop := forall st r, r ∈ f st -> progress lb null st r.

Lemma progresses_self lb : progresses lb true (fun st => [st]).
Proof. intros st r ->%list_elem_of_singleton. apply progress_refl. Qed.

Lemma progresses_testChar cs lb test : progresses lb false (testChar cs lb test).
Proof.
  intros st r Hr. unfold testChar, prevChar, curChar in Hr. unfold progress, strictly. destruct lb.
  - destruct (RegexSpec.pos st) as [|p]; [by apply not_elem_of_nil in Hr|].
    destruct (cs !! p); [|by apply not_elem_of_nil in Hr]. case_in Hr; [|by apply not_elem_of_nil in Hr].
    apply list_elem_of_singleton in Hr as ->. cbn. lia.
  - destruct (cs !! RegexSpec.pos st); [|by apply not_elem_of_nil in Hr]. case_in Hr; [|by apply not_elem_of_nil in Hr].
    apply list_elem_of_singleton in Hr as ->. cbn. lia.
Qed.

Lemma progresses_cluster cs lb : progresses lb false (cluster cs lb).
Proof.
  intros st r Hr. unfold cluster in Hr. destruct (drop _ cs); [by apply not_elem_of_nil in Hr|].
  destruct lb; [by apply not_elem_of_nil in Hr|]. apply list_elem_of_singleton in Hr as ->. unfold progress, strictly. cbn. lia.
Qed.

Lemma progresses_seqM lb (fs : list (bool * (St -> list St))) :
  Forall (fun f => progresses lb (fst f) (snd f)) fs ->
  progresses lb (forallb fst fs) (seqM (map snd fs)).
Proof.
  induction 1 as [|[null f] fs Hf _ IH]; [apply progresses_self|]. intros st r Hr. cbn [map seqM snd forallb fst] in *.
  apply elem_flat_map in Hr as (x & Hx & Hr). eapply progress_trans; [by apply Hf|by apply IH].
Qed.

Lemma progresses_iterate lb null body q :
  progresses lb null body -> forall fuel count start, 0 <= count ->
  progresses lb ((qmin q <=? count) || null) (iterate fuel body q count start).
Proof.
  intros Hb. induction fuel as [|fuel IH]; intros count start Hc st r Hr; cbn [iterate] in Hr; [by apply not_elem_of_nil in Hr|].
  assert (forall x, x ∈ flat_map (fun r => iterate fuel body q (count + 1) (RegexSpec.pos st) r) (body (resetGroups q st)) ->
    progress lb null st x) as Hagain.
  { intros x (y & Hy & Hx)%elem_flat_map. apply Hb in Hy. apply (IH (count + 1)) in Hx; [|lia].
    assert (RegexSpec.pos (resetGroups q st) = RegexSpec.pos st) as E by (unfold resetGroups; by case_on).
    pose proof (progress_trans lb null true _ _ _ Hy
      (progress_weaken lb ((qmin q <=? count + 1) || null) true _ _ (fun _ => eq_refl) Hx)) as Hp. rewrite andb_true_r in Hp.
    unfold progress, ahead, strictly in *. by rewrite E in Hp. }
  assert (forall x, x = st -> count <? qmin q = false -> progress lb ((qmin q <=? count) || null) st x) as Hst.
  { intros x -> E. replace (qmin q <=? count) with true by lia. apply progress_refl. }
  assert (forall x, progress lb null st x -> progress lb ((qmin q <=? count) || null) st x) as Hw.
  { intros x. apply progress_weaken. intros ->. apply orb_true_r. }
  case_in Hr; [by apply not_elem_of_nil in Hr|]. case_in Hr; [by apply Hw, Hagain|].
  case_in Hr; [by apply Hst; [apply list_elem_of_singleton|]|].
  case_in Hr; [apply elem_of_app in Hr as [Hr|Hr]; [by apply Hw, Hagain|by apply Hst; [apply list_elem_of_singleton|]]|].
  cbn [app] in Hr. apply elem_of_cons in Hr as [->|Hr]; [by apply Hst|by apply Hw, Hagain].
Qed.

Lemma forallb_rev {A} (f : A -> bool) l : forallb f (rev l) = forallb f l.
Proof. induction l as [|x l IH]; [done|]. cbn [rev forallb]. rewrite forallb_app, IH. cbn. by rewrite andb_true_r, andb_comm. Qed.

Lemma forallb_map {A B} (f : B -> bool) (g : A -> B) l : forallb f (map g l) = forallb (fun x => f (g x)) l.
Proof. induction l as [|x l IH]; [done|]. cbn. by rewrite IH. Qed.

Section progress.
Context `{Ucd} `{Ucs} (mode : Mode) (cs : list Z) (names : NamedCaptureGroups).

Lemma progresses_backRef lb ic r : progresses lb true (backRef cs lb ic r).
Proof.
  intros st x Hx. unfold backRef in Hx. destruct r as [[a b]|]; [|apply list_elem_of_singleton in Hx as ->; apply progress_refl].
  cbv zeta in Hx. unfold progress, ahead. destruct lb; case_in Hx; try by apply not_elem_of_nil in Hx.
  all: apply list_elem_of_singleton in Hx as ->; cbn; lia.
Qed.

Lemma srcSem_progress n : forall m lb, progresses lb (nullable n) (srcSem mode cs names m lb n).
Proof.
  refine (Node_nested_ind (fun n => forall m lb, progresses lb (nullable n) (srcSem mode cs names m lb n))
    (fun e => forall m lb, progresses lb (match e with Some p => nullable p | None => false end)
       (match e with Some p => srcSem mode cs names m lb p | None => fun _ => [] end)) _ _ _ _ _ _ _ _ _ _ _ _ _ _ n);
    cbn [nullable srcSem]; clear n.
  - intros t m lb. apply progresses_self.
  - intros t m lb. apply progresses_testChar.
  - intros t c m lb. apply progresses_testChar.
  - intros t p v m lb. case_on; [apply progresses_cluster|apply progresses_testChar].
  - intros t i ty s l _ m lb. apply progresses_testChar.
  - intros t b m lb st r Hr. unfold check in Hr. case_in Hr; [|by apply not_elem_of_nil in Hr]. by apply progresses_self.
  - intros t nm i m lb st r Hr. by apply progresses_backRef in Hr.
  - intros t q p IH m lb. apply progresses_iterate; [apply IH|lia].
  - intros t l Hl m lb. pose (fs := map (fun x => (nullable x, srcSem mode cs names m lb x)) l).
    assert (forallb nullable l = forallb fst (if lb then rev fs else fs)) as ->.
    { subst fs. destruct lb; rewrite ?forallb_rev, forallb_map; done. }
    assert ((if lb then rev (map (fun x => srcSem mode cs names m lb x) l) else map (fun x => srcSem mode cs names m lb x) l) =
      map snd (if lb then rev fs else fs)) as ->.
    { subst fs. destruct lb; rewrite ?map_rev, map_map; done. }
    apply progresses_seqM. assert (Forall (fun f => progresses lb (fst f) (snd f)) fs) as Hfs.
    { subst fs. apply Forall_forall. intros f (x & -> & Hx)%list_elem_of_fmap. rewrite Forall_forall in Hl. by apply Hl. }
    destruct lb; [by apply Forall_rev|done].
  - intros t l Hl m lb st r Hr. apply elem_flat_map in Hr as (f & Hf & Hr). apply list_elem_of_fmap in Hf as (e & -> & He).
    rewrite Forall_forall in Hl. apply (Hl e He) in Hr. eapply progress_weaken; [|exact Hr].
    intros E. apply existsb_exists. exists e. split; [by apply list_elem_of_In|done].
  - intros t ty p _ m lb st r Hr. unfold lookAround in Hr.
    destruct (srcSem _ _ _ _ _ p st) as [|x xs]; case_in Hr; try by apply not_elem_of_nil in Hr.
    + by apply progresses_self.
    + apply list_elem_of_singleton in Hr as ->. unfold progress, ahead. cbn. destruct lb; lia.
  - intros t ty i s u p IH m lb st r Hr. destruct ty.
    + apply list_elem_of_fmap in Hr as (x & -> & Hx). apply IH in Hx. exact Hx.
    + by apply IH in Hr.
    + by apply IH in Hr.
  - intros m lb st r Hr. by apply not_elem_of_nil in Hr.
  - intros p IH m lb. apply IH.
Qed.
End progress.

(** ** Agreement

    Two matchers agree on the states of [I], and the states they reach are in [O]. *)
Definition agree (I O : St -> Prop) (f g : St -> list St) : Prop :=
  forall st, I st -> f st ≈ g st /\ forall r, r ∈ g st -> O r.

Lemma agree_weaken (I I' O O' : St -> Prop) f g :
  agree I O f g -> (forall st, I' st -> I st) -> (forall st, O st -> O' st) -> agree I' O' f g.
Proof. intros Ha HI HO st Hst. destruct (Ha st (HI _ Hst)) as [He Hr]. split; [done|]. intros r ?. by apply HO, Hr. Qed.

Lemma agree_refl (I O : St -> Prop) f : (forall st r, I st -> r ∈ f st -> O r) -> agree I O f f.
Proof. intros H st Hst. split; [done|]. intros r Hr. by eapply H. Qed.

Lemma agree_self (I : St -> Prop) : agree I I (fun st => [st]) (fun st => [st]).
Proof. apply agree_refl. by intros st r Hst ->%list_elem_of_singleton. Qed.

Lemma agree_ext (I O : St -> Prop) f f' g g' :
  agree I O f g -> (forall st, f' st ≈ f st) -> (forall st, g' st = g st) -> agree I O f' g'.
Proof.
  intros Ha Hf Hg st Hst. destruct (Ha st Hst) as [He Hr]. rewrite Hg. split; [|done]. by rewrite Hf.
Qed.

Lemma agree_bind (I J O : St -> Prop) f g f' g' :
  agree I J f g -> agree J O f' g' -> agree I O (fun st => flat_map f' (f st)) (fun st => flat_map g' (g st)).
Proof.
  intros H1 H2 st Hst. destruct (H1 st Hst) as [He Hr]. split.
  - apply obs_flat_map; [done|]. intros x Hx. by apply H2, Hr.
  - intros r (x & Hx & Hxr)%elem_flat_map. by apply (H2 x (Hr x Hx)).
Qed.

Lemma agree_altM_cons (I O : St -> Prop) f g fs gs :
  agree I O f g -> agree I O (altM fs) (altM gs) -> agree I O (altM (f :: fs)) (altM (g :: gs)).
Proof.
  intros H1 H2 st Hst. destruct (H1 st Hst) as [E1 R1], (H2 st Hst) as [E2 R2]. cbn [altM flat_map]. split.
  - unfold altM in *. cbn [flat_map]. by rewrite E1, E2.
  - unfold altM in *. cbn [flat_map]. intros r [Hr|Hr]%elem_of_app; auto.
Qed.

Lemma agree_iterate (I J : St -> Prop) body1 body2 q :
  agree I J body1 body2 -> (forall st, J st -> I (resetGroups q st)) ->
  forall fuel count start, agree J J (iterate fuel body1 q count start) (iterate fuel body2 q count start).
Proof.
  intros Hb Hreset. induction fuel as [|fuel IH]; intros count start st Hst; cbn [iterate].
  { split; [done|]. by intros r ?%not_elem_of_nil. }
  destruct (Hb _ (Hreset st Hst)) as [He Hr].
  assert (flat_map (fun r => iterate fuel body1 q (count + 1) (RegexSpec.pos st) r) (body1 (resetGroups q st)) ≈
    flat_map (fun r => iterate fuel body2 q (count + 1) (RegexSpec.pos st) r) (body2 (resetGroups q st)) /\
    forall x, x ∈ flat_map (fun r => iterate fuel body2 q (count + 1) (RegexSpec.pos st) r) (body2 (resetGroups q st)) -> J x)
    as [Ha Hx].
  { split.
    - apply obs_flat_map; [done|]. intros x Hx. by apply IH, Hr.
    - intros r (x & Hx & Hxr)%elem_flat_map. by apply (IH (count + 1) (RegexSpec.pos st) x (Hr x Hx)). }
  assert (forall r, r ∈ [st] -> J r) as Hs by (by intros r ->%list_elem_of_singleton).
  destruct ((qmin q <? count) && (start =? RegexSpec.pos st)%nat); [split; [done|by intros r ?%not_elem_of_nil]|].
  destruct (count <? qmin q); [done|]. destruct (count =? qmax q); [done|].
  destruct (greedy q); (split; [by rewrite Ha|intros r [?|?]%elem_of_app; auto]).
Qed.

Lemma lookAround_obs negate st l k : l ≈ k -> lookAround negate st l = lookAround negate st k.
Proof. intros E%obs_head. by destruct l, k; cbn in E; try congruence; injection E as ->. Qed.

Lemma agree_lookAround (I O : St -> Prop) negate f g :
  agree I O f g -> (forall st p, O st -> O (setPos st p)) -> (forall st, I st -> O st) ->
  agree I O (fun st => lookAround negate st (f st)) (fun st => lookAround negate st (g st)).
Proof.
  intros Ha HO HI st Hst. destruct (Ha st Hst) as [He Hr]. split; [by rewrite (lookAround_obs _ _ _ _ He)|].
  intros r Hl. unfold lookAround in Hl. destruct (g st) as [|x xs] eqn:Eg; destruct negate; try by apply not_elem_of_nil in Hl.
  - apply list_elem_of_singleton in Hl as ->. by apply HI.
  - apply list_elem_of_singleton in Hl as ->. apply HO, Hr. by left.
Qed.

(** ** Groups that cannot be set yet *)

(** The groups that are not closed are not set. *)
Definition unsetBy (resolved : list CaptureState) (st : St) : Prop :=
  forall i r, caps st !! i = Some (Some r) -> resolved !! i = Some CLOSED.

(** Progress of the visitor: the groups of [gs] are new, the others stay. *)
Definition advances (gs : list Z) (resolved resolved' : list CaptureState) : Prop :=
  length resolved' = length resolved /\
  (forall i, Z.of_nat i ∉ gs -> resolved' !! i = resolved !! i) /\
  (forall i, Z.of_nat i ∈ gs -> resolved' !! i = Some NOT_OPENED \/ resolved' !! i = Some CLOSED).

Definition fresh (gs : list Z) (resolved : list CaptureState) : Prop :=
  Forall (fun i => 0 < i /\ resolved !! Z.to_nat i = Some NOT_OPENED) gs.

Lemma fresh_lookup gs resolved i : fresh gs resolved -> Z.of_nat i ∈ gs -> resolved !! i = Some NOT_OPENED.
Proof. unfold fresh. rewrite Forall_forall. intros Hf Hi. destruct (Hf _ Hi) as [_ E]. by rewrite Nat2Z.id in E. Qed.

Lemma advances_closed gs resolved resolved' i :
  fresh gs resolved -> advances gs resolved resolved' -> resolved !! i = Some CLOSED -> resolved' !! i = Some CLOSED.
Proof.
  intros Hf (_ & Ho & _) Hc. destruct (decide (Z.of_nat i ∈ gs)) as [Hin|Hn]; [|by rewrite Ho].
  by rewrite (fresh_lookup _ _ _ Hf Hin) in Hc.
Qed.

Lemma unsetBy_advances gs resolved resolved' st :
  fresh gs resolved -> advances gs resolved resolved' -> unsetBy resolved st -> unsetBy resolved' st.
Proof. intros Hf Ha Hu i r Hi. by eapply advances_closed, Hu. Qed.

Lemma advances_nil resolved : advances [] resolved resolved.
Proof. split_and!; [done|done|]. by intros i ?%not_elem_of_nil. Qed.

Lemma advances_app gs1 gs2 r1 r2 r3 :
  fresh gs2 r1 -> NoDup (gs1 ++ gs2) -> advances gs1 r1 r2 -> advances gs2 r2 r3 -> advances (gs1 ++ gs2) r1 r3.
Proof.
  intros Hf Hd (L1 & O1 & I1) (L2 & O2 & I2). split_and!; [congruence| |].
  - intros i Hi. rewrite elem_of_app in Hi. rewrite O2, O1 by tauto. done.
  - intros i Hi. apply NoDup_app in Hd as (_ & Hd & _). apply elem_of_app in Hi as [Hi|Hi]; [|by apply I2].
    rewrite O2 by (by apply Hd). by apply I1.
Qed.

Lemma fresh_advances gs1 gs2 r1 r2 :
  fresh gs2 r1 -> (forall i, i ∈ gs2 -> i ∉ gs1) -> advances gs1 r1 r2 -> fresh gs2 r2.
Proof.
  unfold fresh. rewrite !Forall_forall. intros Hf Hd (_ & Ho & _) i Hi. destruct (Hf i Hi) as [H0 E]. split; [done|].
  rewrite Ho; [done|]. rewrite Z2Nat.id by lia. by apply Hd.
Qed.

Lemma fresh_app gs1 gs2 r : fresh (gs1 ++ gs2) r <-> fresh gs1 r /\ fresh gs2 r.
Proof. apply Forall_app. Qed.

(** The groups in force, of the groups around a node. *)
Definition opened (open : list Z) (resolved : list CaptureState) : Prop :=
  forall i, resolved !! i = Some NOT_CLOSED <-> Z.of_nat i ∈ open.

Lemma opened_advances open gs r1 r2 : fresh gs r1 -> advances gs r1 r2 -> opened open r1 -> opened open r2.
Proof.
  intros Hf (_ & Ho & Hi) Hop i. destruct (decide (Z.of_nat i ∈ gs)) as [Hin|Hn]; [|by rewrite Ho].
  pose proof (fresh_lookup _ _ _ Hf Hin) as E. rewrite <- (Hop i), E. destruct (Hi i Hin) as [->| ->]; done.
Qed.

(** ** Flattening sequences *)

Lemma mapM_app_Some {A B} (f : A -> option B) l k l' k' :
  mapM f l = Some l' -> mapM f k = Some k' -> mapM f (l ++ k) = Some (l' ++ k').
Proof.
  revert l'. induction l as [|x l IH]; intros l'; cbn; [by intros [= <-]|].
  destruct (f x) as [y|]; cbn; [|done]. destruct (mapM f l) as [ys|]; cbn; [|done].
  intros [= <-] Hk. by rewrite (IH ys eq_refl Hk).
Qed.

Lemma mapM_cons_Some {A B} (f : A -> option B) x l k :
  mapM f (x :: l) = Some k -> exists y l', k = y :: l' /\ f x = Some y /\ mapM f l = Some l'.
Proof. cbn. destruct (f x); cbn; [|done]. destruct (mapM f l); cbn; [|done]. intros [= <-]. eauto. Qed.

Section finish.
Context `{Ucd} (cs : list Z) (names : NamedCaptureGroups).
Abbreviation sem := (sem cs names).

Definition inOrder {A} (lb : bool) (l : list A) : list A := if lb then rev l else l.

(** The meaning of a sequence in a direction. *)
Definition seqOf (lb : bool) (ks : list RegexNode.Node) (st : St) : list St :=
  seqM (inOrder lb (map (fun x => sem lb x) ks)) st.

Lemma seqOf_app lb a b st :
  seqOf lb (a ++ b) st = if lb then flat_map (seqOf lb a) (seqOf lb b st) else flat_map (seqOf lb b) (seqOf lb a st).
Proof. unfold seqOf, inOrder. rewrite map_app. destruct lb; [rewrite rev_app_distr|]; apply seqM_app. Qed.

Lemma seqOf_single lb k st : seqOf lb [k] st = sem lb k st.
Proof.
  unfold seqOf, inOrder. cbn [map rev app]. destruct lb; cbn [seqM]; induction (sem _ k st) as [|x xs IH]; cbn; congruence.
Qed.

Lemma seqOf_nil lb st : seqOf lb [] st = [st].
Proof. by destruct lb. Qed.

(** The groups and the loops of the nodes that replace others, and what holds of them. *)
Definition additive (f : RegexNode.Node -> list nat) : Prop :=
  f RegexNode.EmptyNode = [] /\ (forall l, f (RegexNode.SeqNode l) = flat_map f l) /\
  (forall l, f (RegexNode.AltNode l) = flat_map f l).

Definition hereditary (P : RegexNode.Node -> Prop) : Prop :=
  (forall l, P (RegexNode.SeqNode l) -> Forall P l) /\ (forall l, P (RegexNode.AltNode l) -> Forall P l).

Definition inherits (a b : list RegexNode.Node) : Prop :=
  (forall f, additive f -> flat_map f b = flat_map f a) /\ (forall P, hereditary P -> Forall P a -> Forall P b).

#[export] Instance inherits_preorder : PreOrder inherits.
Proof.
  split; [done|]. intros a b c [F1 P1] [F2 P2]. split; [intros f Hf; by rewrite F2, F1|auto].
Qed.

Lemma inherits_app a a' b b' : inherits a a' -> inherits b b' -> inherits (a ++ b) (a' ++ b').
Proof.
  intros [F1 P1] [F2 P2]. split.
  - intros f Hf. by rewrite !flat_map_app, F1, F2.
  - intros P HP. rewrite !Forall_app. intros [? ?]. auto.
Qed.

Lemma inherits_empty : inherits [RegexNode.EmptyNode] [].
Proof. split; [intros f (Hf & _); cbn; by rewrite Hf|constructor]. Qed.

Lemma inherits_seq l : inherits [RegexNode.SeqNode l] l.
Proof. split; [intros f (_ & Hf & _); cbn; by rewrite Hf, app_nil_r|intros P [HP _]; rewrite Forall_singleton; apply HP]. Qed.

Lemma inherits_alt l : inherits [RegexNode.AltNode l] l.
Proof. split; [intros f (_ & _ & Hf); cbn; by rewrite Hf, app_nil_r|intros P [_ HP]; rewrite Forall_singleton; apply HP]. Qed.

(** Lists of nodes with the same meaning as a sequence, one made of the other. *)
Definition sameSeq (a b : list RegexNode.Node) : Prop :=
  (forall lb st, seqOf lb a st = seqOf lb b st) /\ inherits a b.

Lemma sameSeq_app a a' b b' : sameSeq a a' -> sameSeq b b' -> sameSeq (a ++ b) (a' ++ b').
Proof.
  intros [Ha Ia] [Hb Ib]. split; [|by apply inherits_app]. intros lb st. rewrite !seqOf_app.
  destruct lb; rewrite ?Ha, ?Hb; apply flat_map_ext; intros x; [apply Ha|apply Hb].
Qed.

Lemma sameSeq_trans a b c : sameSeq a b -> sameSeq b c -> sameSeq a c.
Proof. intros [Ha Ia] [Hb Ib]. split; [intros lb st; by rewrite Ha|by transitivity b]. Qed.

Lemma sameSeq_empty : sameSeq [RegexNode.EmptyNode] [].
Proof. split; [intros lb st; by rewrite seqOf_single, seqOf_nil|apply inherits_empty]. Qed.

Lemma sameSeq_seq l : sameSeq [RegexNode.SeqNode l] l.
Proof. split; [intros lb st; by rewrite seqOf_single|apply inherits_seq]. Qed.

Lemma flattenSeq_same ls : forall ks, mapM toNode ls = Some ks ->
  exists ks', mapM toNode (removeEmpty (flattenSeq ls)) = Some ks' /\ sameSeq ks ks'.
Proof.
  assert (forall l k, mapM toNode l = Some k -> exists k', mapM toNode (removeEmpty l) = Some k' /\ sameSeq k k') as Hrem.
  { induction l as [|x l IH]; intros k Hk; [exists []; cbn in Hk; by injection Hk as <-|].
    apply mapM_cons_Some in Hk as (y & l' & -> & Hx & Hl). destruct (IH l' Hl) as (k' & E & Hs). cbn [removeEmpty List.filter].
    destruct (isLEmpty x) eqn:Ee; cbn [negb].
    - destruct x; try done. injection Hx as <-. exists k'. split; [done|].
      apply (sameSeq_app [RegexNode.EmptyNode] [] l' k' sameSeq_empty Hs).
    - exists (y :: k'). split; [cbn; unfold removeEmpty in E; by rewrite Hx, E|]. by apply (sameSeq_app [y] [y]). }
  induction ls as [|x ls IH]; intros ks Hk; [exists []; cbn in Hk; by injection Hk as <-|].
  apply mapM_cons_Some in Hk as (y & l' & -> & Hx & Hl). destruct (IH l' Hl) as (k' & E & Hs).
  assert (exists xs, mapM toNode (match x with LSeq l => l | _ => [x] end) = Some xs /\ sameSeq [y] xs) as (xs & Hxs & Hsx).
  { destruct x as [|?|?|? ?|? ? ?|? ?|ps|?|? ?|? ?|?|? ? ?|? ? ? ?|];
      try (exists [y]; split; [apply mapM_Some; by constructor|done]).
    cbn [toNode] in Hx. destruct (mapM toNode ps) as [k|] eqn:Ep; [|done]. injection Hx as <-.
    exists k. split; [done|]. apply sameSeq_seq. }
  destruct (Hrem _ _ Hxs) as (xs' & Exs & Hsx').
  exists (xs' ++ k'). split.
  - unfold flattenSeq, removeEmpty in *. cbn [flat_map]. rewrite List.filter_app. by apply mapM_app_Some.
  - change (y :: l') with ([y] ++ l'). apply sameSeq_app; [|done]. by eapply sameSeq_trans.
Qed.

(** The node of a sequence that was flattened means the sequence. *)
Lemma finishSeq_sem ls ks : mapM toNode ls = Some ks ->
  exists k ks', toNode (finishSeq ls) = Some k /\ (forall lb st, sem lb k st = seqOf lb ks st) /\ inherits ks ks' /\
    length ks' = length (removeEmpty (flattenSeq ls)) /\
    (k = RegexNode.EmptyNode /\ ks' = [] \/ ks' = [k] \/ k = RegexNode.SeqNode ks').
Proof.
  intros Hk. destruct (flattenSeq_same ls ks Hk) as (ks' & E & Hs & Hi). pose proof (length_mapM _ _ _ E) as Hlen.
  unfold finishSeq. destruct (removeEmpty (flattenSeq ls)) as [|a [|b l]].
  - injection E as <-. exists RegexNode.EmptyNode, []. split_and!; [done| |done|done|by left]. intros lb st. by rewrite Hs, seqOf_nil.
  - apply mapM_cons_Some in E as (y & l' & -> & Ha & E). injection E as <-.
    exists y, [y]. split_and!; [done| |done|done|by right; left]. intros lb st. by rewrite Hs, seqOf_single.
  - exists (RegexNode.SeqNode ks'), ks'. split_and!; [cbn [toNode]; by rewrite E| |done|done|by right; right].
    intros lb st. by rewrite Hs.
Qed.

(** ** Alternatives *)

Definition altOf (lb : bool) (ks : list RegexNode.Node) (st : St) : list St := altM (map (fun x => sem lb x) ks) st.

Lemma altOf_app lb a b st : altOf lb (a ++ b) st = altOf lb a st ++ altOf lb b st.
Proof. unfold altOf, altM. by rewrite map_app, flat_map_app. Qed.

Lemma altOf_cons lb a b st : altOf lb (a :: b) st = sem lb a st ++ altOf lb b st.
Proof. done. Qed.

Lemma sem_alt lb l st : (1 < length l)%nat -> sem lb (RegexNode.AltNode l) st = altOf lb l st.
Proof. destruct l as [|a [|b l]]; cbn [length]; [lia|lia|done]. Qed.

(** Dropping repeated empty alternatives; [previous] as in [uniqueEmpty]. *)
Lemma uniqueEmpty_same ls : forall previous ks, mapM toNode ls = Some ks ->
  exists us, mapM toNode (uniqueEmpty previous ls) = Some us /\ inherits ks us /\
    forall lb st, (if previous then [st] else []) ++ altOf lb us st ≈ (if previous then [st] else []) ++ altOf lb ks st.
Proof.
  induction ls as [|x ls IH]; intros previous ks Hk; [exists []; cbn in Hk; injection Hk as <-; by split_and!|].
  apply mapM_cons_Some in Hk as (y & l' & -> & Hx & Hl). cbn [uniqueEmpty].
  destruct (previous && isLEmpty x) eqn:E.
  - apply andb_true_iff in E as [-> E]. destruct x; try done. injection Hx as <-.
    destruct (IH true l' Hl) as (us & Eu & Hi & Hu). exists us.
    split_and!; [done|exact (inherits_app _ _ _ _ inherits_empty Hi)|]. intros lb st. rewrite Hu, altOf_cons.
    intros P. cbn. by destruct (P st).
  - destruct (IH (isLEmpty x) l' Hl) as (us & Eu & Hi & Hu). exists (y :: us).
    split_and!; [cbn; by rewrite Hx, Eu|by apply (inherits_app [y] [y])|]. intros lb st. rewrite !altOf_cons. apply obs_app; [done|].
    specialize (Hu lb st). destruct (isLEmpty x) eqn:Ex.
    + destruct x; try done. injection Hx as <-. exact Hu.
    + by apply obs_app.
Qed.

Lemma uniqueEmpty_length ls : forall previous,
  (2 <= length ls)%nat -> (2 <= length (uniqueEmpty previous ls))%nat \/
    (previous = false /\ uniqueEmpty previous ls = [LEmpty]) \/ previous = true.
Proof.
  intros [|] Hl; [by right; right|]. destruct ls as [|a [|b l]]; cbn [length] in Hl; [lia|lia|]. cbn [uniqueEmpty andb].
  destruct (isLEmpty a) eqn:Ea.
  - assert (forall l, uniqueEmpty true l = [] \/ (1 <= length (uniqueEmpty true l))%nat) as Hn.
    { intros k. destruct (uniqueEmpty true k); [by left|right; cbn; lia]. }
    destruct (Hn (b :: l)) as [E|E].
    + right; left. split; [done|]. cbn [uniqueEmpty] in E. destruct a; try done. by rewrite E.
    + left. cbn [uniqueEmpty length] in *. lia.
  - left. cbn [length]. destruct (isLEmpty b); cbn; lia.
Qed.

Lemma spliceLast_same ls ks : mapM toNode ls = Some ks -> (2 <= length ls)%nat ->
  exists us, mapM toNode (spliceLast ls) = Some us /\ (2 <= length us)%nat /\ inherits ks us /\
    forall lb st, altOf lb us st = altOf lb ks st.
Proof.
  intros Hk Hlen. assert (length ks = length ls) as Hkl by (by apply length_mapM in Hk).
  assert (exists us, mapM toNode ls = Some us /\ (2 <= length us)%nat /\ inherits ks us /\
    forall lb st, altOf lb us st = altOf lb ks st) as Hsame by (exists ks; split_and!; [done|lia|done|done]).
  unfold spliceLast. destruct (last ls) as [x|] eqn:El; [|exact Hsame].
  destruct x as [|?|?|? ?|? ? ?|? ?|?|ps|? ?|? ?|?|? ? ?|? ? ? ?|]; try exact Hsame.
  destruct ((1 <? zlen ls) && (1 <? zlen ps)) eqn:E; [|exact Hsame]. clear Hsame.
  apply last_Some in El as [l0 ->]. apply andb_true_iff in E as [_ E%Z.ltb_lt]. rewrite removelast_last.
  apply mapM_Some, Forall2_app_inv_l in Hk as (k0 & k1 & H0' & H1' & ->).
  inversion H1' as [|? y ? ? Ey Hnil]; subst. inversion Hnil; subst. cbn [toNode] in Ey.
  destruct (mapM toNode ps) as [kp|] eqn:Ep; [|done]. injection Ey as <-.
  assert (length kp = length ps) as Hlp by (by apply length_mapM in Ep).
  exists (k0 ++ kp). split_and!.
  - apply mapM_Some. apply Forall2_app; [done|by apply mapM_Some].
  - rewrite length_app. unfold zlen in *. lia.
  - apply inherits_app; [done|apply inherits_alt].
  - intros lb st. rewrite !altOf_app. f_equal. rewrite altOf_cons, sem_alt by (unfold zlen in *; lia). by rewrite app_nil_r.
Qed.

Lemma finishAlt_sem ls ks : mapM toNode ls = Some ks -> (2 <= length ls)%nat ->
  exists ks', toNode (finishAlt ls) = Some (RegexNode.AltNode ks') /\ ks' <> [] /\ inherits ks ks' /\
    forall lb st, sem lb (RegexNode.AltNode ks') st ≈ altOf lb ks st.
Proof.
  intros Hk Hlen. destruct (uniqueEmpty_same ls false ks Hk) as (us & Eu & Hi & Hu). cbn [app] in Hu. unfold finishAlt.
  destruct (uniqueEmpty_length ls false Hlen) as [Hl|[[_ E]|]]; [| |done].
  - destruct (spliceLast_same _ us Eu Hl) as (vs & Ev & Hvl & Hiv & Hv). exists vs.
    split_and!; [cbn [toNode]; by rewrite Ev|by intros ->; cbn in Hvl; lia|by transitivity us|].
    intros lb st. rewrite sem_alt by lia. by rewrite Hv, Hu.
  - rewrite E in Eu |- *. cbn in Eu. injection Eu as <-. eexists. split_and!; [reflexivity|done|done|].
    intros lb st. rewrite <- Hu. intros P. cbn. by destruct (P st).
Qed.
End finish.

End RegexLowerSim.
