(* ===== verification/RegexLowerVisit.v ===== *)
(** The visitor of the lowering pass: for a pattern without string sets it returns a tree,
    the tree is one the code generator takes, and its meaning (RegexSpec) is that of the
    syntax tree (RegexSource). *)
From S2P Require Import Prelude Unicode CodePointSet RegexMatcher SetBuilder RadixTree.
From S2P Require Import RegexNode RegexSpec RegexSyntax RegexParser RegexScan RegexParserInv.
From S2P Require Import RegexStrSet RegexLowering RegexSource RegexLowerClass RegexLowerSim.

Module RegexLowerVisit.
Import UnicodeUtil RegexMatcher RegexNode RegexSyntax RegexSpec RegexStrSet RegexLowering RegexSource RegexLowerClass.
Import RegexLowerSim.

Abbreviation loops := RegexParserInv.loops.

(** ** What the code generator takes *)

Fixpoint nodeSize (n : Node) : Z :=
  match n with
  | RepeatNode _ _ p => 2 + nodeSize p
  | LookAroundNode _ _ p | GroupNode _ _ _ _ _ p => 1 + nodeSize p
  | SeqNode _ l => 1 + foldr (fun x a => nodeSize x + a) 0 l
  | AltNode _ l => 1 + foldr (fun e a => (match e with Some x => nodeSize x | None => 0 end) + a) 0 l
  | _ => 1
  end.

(** The numbers that the parser assigns, no groups in look-arounds that match (the virtual
    machine forgets them) or in a body that is never matched, and a bound on sequences: a
    longer string is dropped by the radix tree. *)
Fixpoint emittable (loopCount : Z) (n : Node) : bool :=
  match n with
  | RepeatNode _ q p =>
      (0 <=? loopIndex q) && (loopIndex q <? loopCount) && (qmax q <=? UNLIMIT) &&
      (negb (qmax q =? 0) || bool_decide (groups p = [])) && emittable loopCount p
  | SeqNode _ l => (4 * nodeSize n <=? RadixTree.MAX_STRING_SIZE) && forallb (emittable loopCount) l
  | AltNode _ l => forallb (fun e => match e with Some p => emittable loopCount p | None => true end) l
  | LookAroundNode _ t p => (isNegate t || bool_decide (groups p = [])) && emittable loopCount p
  | GroupNode _ _ _ _ _ p => emittable loopCount p
  | _ => true
  end.

(** The nodes of nested sequences. *)
Fixpoint seqSize (l : Lowered) : Z :=
  match l with LSeq ps => 1 + foldr (fun x a => seqSize x + a) 0 ps | _ => 1 end.

Definition seqSizes (ls : list Lowered) : Z := foldr (fun x a => seqSize x + a) 0 ls.

Lemma seqSizes_app a b : seqSizes (a ++ b) = seqSizes a + seqSizes b.
Proof. unfold seqSizes. induction a as [|x a IH]; [done|]. cbn. lia. Qed.

Lemma seqSize_pos l : 0 < seqSize l.
Proof.
  revert l. fix rec 1. intros [|?|?|? ?|? ? ?|? ?|ps|?|? ?|? ?|?|? ? ?|? ? ? ?|]; try reflexivity. cbn [seqSize].
  enough (0 <= foldr (fun x a => seqSize x + a) 0 ps) by lia. induction ps as [|x ps IH]; [done|]. cbn. specialize (rec x). lia.
Qed.

Lemma seqSizes_length ls : zlen ls <= seqSizes ls.
Proof. unfold seqSizes, zlen. induction ls as [|x ls IH]; [done|]. cbn. pose proof (seqSize_pos x). lia. Qed.

Lemma seqSizes_removeEmpty ls : seqSizes (removeEmpty ls) <= seqSizes ls.
Proof.
  unfold seqSizes, removeEmpty. induction ls as [|x ls IH]; [done|]. cbn. pose proof (seqSize_pos x). case_on; cbn; lia.
Qed.

Lemma flattenSeq_size ls : seqSizes (removeEmpty (flattenSeq ls)) <= seqSizes ls.
Proof.
  etrans; [apply seqSizes_removeEmpty|]. unfold flattenSeq. induction ls as [|x ls IH]; [done|].
  cbn [flat_map]. rewrite seqSizes_app. change (seqSizes (x :: ls)) with (seqSize x + seqSizes ls).
  enough (seqSizes (match x with LSeq l => l | _ => [x] end) <= seqSize x) by lia.
  destruct x as [|?|?|? ?|? ? ?|? ?|ps|?|? ?|? ?|?|? ? ?|? ? ? ?|]; cbn; try lia. unfold seqSizes. lia.
Qed.

Lemma nodeSize_pos n : 0 < nodeSize n.
Proof.
  refine (Node_nested_ind (fun n => 0 < nodeSize n)
    (fun e => 0 <= match e with Some x => nodeSize x | None => 0 end) _ _ _ _ _ _ _ _ _ _ _ _ _ _ n);
    cbn [nodeSize]; try lia; intros; try lia.
  - enough (0 <= foldr (fun x a => nodeSize x + a) 0 l) by lia. by induction H; cbn; lia.
  - match goal with |- 0 < 1 + ?x => enough (0 <= x) by lia end. by induction H; cbn; lia.
Qed.

(** ** The tree that is made of a node *)

Section outcome.
Context `{Ucd} (names : NamedCaptureGroups) (loopCount groupCount : Z).

Abbreviation wf lb open := (wfNode names loopCount groupCount lb (map Z.to_nat open)).

(** [emit]: the source is emittable; its groups, loops and size. *)
Definition outcome (lb : bool) (open : list Z) (emit : bool) (gs lps : list Z) (size : Z) (l : Lowered) (k : RegexNode.Node) : Prop :=
  emit = true -> loweredOk l = true /\ wf lb open k /\
    groupsOf k = map Z.to_nat gs /\ loopsOf k ⊆+ map Z.to_nat lps /\ seqSize l <= size.

Definition outcomes (lb : bool) (open : list Z) (emit : bool) (gs lps : list Z) (size : Z)
    (ls : list Lowered) (ks : list RegexNode.Node) : Prop :=
  emit = true -> forallb loweredOk ls = true /\ Forall (wf lb open) ks /\
    flat_map groupsOf ks = map Z.to_nat gs /\ flat_map loopsOf ks ⊆+ map Z.to_nat lps /\ seqSizes ls <= size.

Lemma outcomes_nil lb open : outcomes lb open true [] [] 0 [] [].
Proof. by intros _. Qed.

Lemma outcomes_cons lb open em1 em2 gs1 gs2 lps1 lps2 sz1 sz2 l k ls ks :
  outcome lb open em1 gs1 lps1 sz1 l k -> outcomes lb open em2 gs2 lps2 sz2 ls ks ->
  outcomes lb open (em1 && em2) (gs1 ++ gs2) (lps1 ++ lps2) (sz1 + sz2) (l :: ls) (k :: ks).
Proof.
  intros H1 H2 [E1 E2]%andb_true_iff.
  destruct (H1 E1) as (F1 & W1 & G1 & L1 & S1), (H2 E2) as (F2 & W2 & G2 & L2 & S2). split_and!.
  - cbn. by rewrite F1, F2.
  - by constructor.
  - cbn [flat_map]. by rewrite G1, G2, map_app.
  - cbn [flat_map]. rewrite map_app. by apply submseteq_app.
  - change (seqSize l + seqSizes ls <= sz1 + sz2). lia.
Qed.

Lemma additive_groups : additive groupsOf.
Proof. done. Qed.
Lemma additive_loops : additive loopsOf.
Proof. done. Qed.
Lemma hereditary_wf lb open : hereditary (wf lb open).
Proof. split; intros l; cbn [wfNode]; intros [_ Hw]; by apply foldr_Forall in Hw. Qed.

Lemma loweredOk_flatten ls : forallb loweredOk ls = true -> forallb loweredOk (removeEmpty (flattenSeq ls)) = true.
Proof.
  unfold flattenSeq, removeEmpty. rewrite !forallb_forall. intros Hl x [Hx _]%filter_In.
  apply in_flat_map in Hx as (y & Hy & Hx). specialize (Hl y Hy).
  destruct y as [|?|?|? ?|? ? ?|? ?|ps|?|? ?|? ?|?|? ? ?|? ? ? ?|]; try (by destruct Hx as [<-|[]]).
  apply andb_true_iff in Hl as [_ Hl]. rewrite forallb_forall in Hl. by apply Hl.
Qed.

Lemma finishSeq_outcome lb open emit gs lps size ls ks k ks' :
  outcomes lb open emit gs lps size ls ks -> inherits ks ks' -> length ks' = length (removeEmpty (flattenSeq ls)) ->
  (k = RegexNode.EmptyNode /\ ks' = [] \/ ks' = [k] \/ k = RegexNode.SeqNode ks') ->
  outcome lb open ((4 * (1 + size) <=? RadixTree.MAX_STRING_SIZE) && emit) gs lps (1 + size) (finishSeq ls) k.
Proof.
  intros Ho [Hin HP] Hlen Hk [Hb%Z.leb_le E]%andb_true_iff. pose proof (flattenSeq_size ls) as Hsz.
  destruct (Ho E) as (Hf%loweredOk_flatten & W & G & L & S). apply (HP _ (hereditary_wf lb open)) in W.
  rewrite <- (Hin _ additive_groups) in G. rewrite <- (Hin _ additive_loops) in L.
  pose proof (seqSizes_length (removeEmpty (flattenSeq ls))) as Hzl.
  assert (seqSize (finishSeq ls) <= 1 + size) as Hs.
  { unfold finishSeq. pose proof (seqSizes_length ls) as Hp. unfold zlen in Hp.
    destruct (removeEmpty (flattenSeq ls)) as [|a [|b r]] eqn:El; [cbn; lia|cbn in Hsz; lia|].
    change (1 + seqSizes (a :: b :: r) <= 1 + size). lia. }
  split.
  { unfold finishSeq, zlen in *. destruct (removeEmpty (flattenSeq ls)) as [|a [|b r]]; [done| |].
    - cbn in Hf. by rewrite andb_true_r in Hf.
    - cbn [loweredOk]. rewrite Hf, andb_true_r. apply andb_true_iff. unfold zlen. rewrite !Z.leb_le. cbn [length] in *. lia. }
  destruct Hk as [[-> ->]|[->| ->]]; cbn [flat_map app] in *; rewrite ?app_nil_r in *.
  - by split_and!.
  - split_and!; [by rewrite Forall_singleton in W|done|done|done].
  - split_and!; [|done|done|done]. cbn [wfNode]. split; [|by apply foldr_Forall].
    assert (RadixTree.MAX_STRING_SIZE <= UINT32_MAX) by (by vm_compute). unfold zlen in *. lia.
Qed.

Lemma loweredOk_finishAlt ls : forallb loweredOk ls = true -> loweredOk (finishAlt ls) = true.
Proof.
  intros Hl. cbn [finishAlt loweredOk]. assert (forall p, forallb loweredOk (uniqueEmpty p ls) = true) as Hu.
  { induction ls as [|x ls IH]; [done|]. cbn in Hl. apply andb_true_iff in Hl as [Hx Hl]. intros p. cbn [uniqueEmpty].
    case_on; [by apply IH|]. cbn. by rewrite Hx, IH. }
  specialize (Hu false). unfold spliceLast. destruct (last _) as [x|] eqn:El; [|done].
  destruct x as [|?|?|? ?|? ? ?|? ?|?|ps|? ?|? ?|?|? ? ?|? ? ? ?|]; try done. case_on; [|done].
  apply last_Some in El as [l0 El]. rewrite El in Hu |- *. rewrite removelast_last. rewrite forallb_app in Hu |- *.
  apply andb_true_iff in Hu as [-> Hu]. cbn in Hu. by rewrite andb_true_r in Hu.
Qed.

Lemma finishAlt_outcome lb open emit gs lps size ls ks ks' :
  outcomes lb open emit gs lps size ls ks -> inherits ks ks' -> ks' <> [] ->
  outcome lb open emit gs lps (1 + size) (finishAlt ls) (RegexNode.AltNode ks').
Proof.
  intros Ho [Hin HP] Hne E. destruct (Ho E) as (Hf & W & G & L & S). split_and!.
  - by apply loweredOk_finishAlt.
  - cbn [wfNode]. split; [done|]. apply foldr_Forall, HP; [apply hereditary_wf|done].
  - cbn [groupsOf]. by rewrite (Hin _ additive_groups).
  - cbn [loopsOf]. by rewrite (Hin _ additive_loops).
  - unfold finishAlt. cbn [seqSize]. pose proof (seqSizes_length ls). unfold zlen in *. lia.
Qed.
(** What a node that is passed on loses of its source. *)
Lemma outcome_weaken lb open em em' gs lps lps' sz sz' l k :
  outcome lb open em gs lps sz l k -> (em' = true -> em = true) -> lps ⊆+ lps' -> sz <= sz' -> outcome lb open em' gs lps' sz' l k.
Proof.
  intros Ho He Hl Hs E. destruct (Ho (He E)) as (Hf & W & G & L & S). split_and!; [done|done|done| |lia]. etrans; [exact L|by apply fmap_submseteq].
Qed.

Lemma outcome_leaf lb open em l k size : loweredOk l = true -> seqSize l <= size -> wf lb open k ->
  groupsOf k = [] -> loopsOf k = [] -> outcome lb open em [] [] size l k.
Proof. intros. intros _. split_and!; [done|done|done| |done]. by match goal with E : loopsOf k = [] |- _ => rewrite E end. Qed.

Lemma outcome_empty lb open : outcome lb open true [] [] 1 LEmpty RegexNode.EmptyNode.
Proof. by apply outcome_leaf. Qed.

Lemma map_seqZ a b : 0 <= a -> map Z.to_nat (seqZ a b) = seq (Z.to_nat a) (Z.to_nat b).
Proof.
  intros Ha. unfold seqZ. replace (seq (Z.to_nat a)) with (seq (Z.to_nat a + 0)) by (f_equal; lia).
  rewrite <- fmap_add_seq, map_map. apply map_ext. intros i. lia.
Qed.

Lemma repeat_outcome lb open q em gs lps size p k :
  0 <= qmin q <= qmax q -> resetsBody q gs = true -> outcome lb open em gs lps size p k ->
  outcome lb open ((0 <=? loopIndex q) && (loopIndex q <? loopCount) && (qmax q <=? UNLIMIT) && em)
    gs (lps ++ [loopIndex q]) (2 + size) (LRepeat q p) (RegexNode.RepeatNode q k).
Proof.
  intros Hq Hr Ho E. zbool. destruct Ho as (Hf & W & G & L & S); [done|]. split_and!.
  - done.
  - cbn [wfNode]. split_and!; try done; try lia. unfold resetsBody in Hr. destruct (hasInnerCaptureGroups q).
    + apply andb_true_iff in Hr as [Hr ->%bool_decide_eq_true]. zbool. split_and!; [done..|]. by rewrite G, map_seqZ by lia.
    + apply bool_decide_eq_true in Hr as ->. done.
  - done.
  - cbn [loopsOf]. rewrite map_app. rewrite (Permutation_app_comm (map Z.to_nat lps)). by apply submseteq_skip.
  - cbn [seqSize]. pose proof (seqSize_pos p). lia.
Qed.
End outcome.

(** ** The visitor *)

Lemma advances_ext gs gs' r r' : (forall i, i ∈ gs <-> i ∈ gs') -> advances gs r r' -> advances gs' r r'.
Proof. intros E (L & O & I). split_and!; [done|intros i Hi; apply O|intros i Hi; apply I]; by rewrite E. Qed.

Lemma advances_same gs r : fresh gs r -> advances gs r r.
Proof. intros Hf. split_and!; [done|done|]. intros i Hi. left. by eapply fresh_lookup. Qed.

(** A state of the captures from which a node with the groups [gs] can be visited. *)
Definition ready (count : nat) (open gs : list Z) (resolved : list CaptureState) : Prop :=
  NoDup gs /\ fresh gs resolved /\ opened open resolved /\ length resolved = count.

Lemma ready_app count open gs1 gs2 r :
  ready count open (gs1 ++ gs2) r -> ready count open gs1 r /\ ready count open gs2 r.
Proof.
  intros (Hd & [Hf1 Hf2]%fresh_app & Ho & Hl). apply NoDup_app in Hd as (Hd1 & _ & Hd2).
  split; by split_and!.
Qed.

Lemma ready_after count open gs1 gs2 r1 r2 :
  ready count open (gs1 ++ gs2) r1 -> advances gs1 r1 r2 -> ready count open gs2 r2.
Proof.
  intros (Hd & [Hf1 Hf2]%fresh_app & Ho & Hl) Ha. apply NoDup_app in Hd as (Hd1 & Hn & Hd2).
  split_and!; [done| |exact (opened_advances _ _ _ _ Hf1 Ha Ho)|by destruct Ha as [-> _]].
  eapply fresh_advances; [done| |done]. intros i Hi Hi'. by apply (Hn i).
Qed.

Lemma ready_swap count open gs1 gs2 r : ready count open (gs1 ++ gs2) r -> ready count open (gs2 ++ gs1) r.
Proof.
  intros (Hd & [Hf1 Hf2]%fresh_app & Ho & Hl). split_and!; [|by apply fresh_app|done|done].
  by rewrite (Permutation_app_comm gs2 gs1).
Qed.

Lemma ready_advances count open gs1 gs2 r1 r2 r3 :
  ready count open (gs1 ++ gs2) r1 -> advances gs1 r1 r2 -> advances gs2 r2 r3 -> advances (gs1 ++ gs2) r1 r3.
Proof. intros (Hd & [_ Hf]%fresh_app & _) Ha Hb. by eapply advances_app. Qed.

Lemma ready_unset count open gs r r' st :
  ready count open gs r -> advances gs r r' -> unsetBy r st -> unsetBy r' st.
Proof. intros (_ & Hf & _) Ha. by eapply unsetBy_advances. Qed.

(** [f] is the lowered matcher, [g] that of the source. *)
Definition simulates (gs : list Z) (f g : St -> list St) (r r' : list CaptureState) : Prop :=
  advances gs r r' /\ agree (unsetBy r) (unsetBy r') f g.

Lemma simulates_self f r : (forall st x, x ∈ f st -> caps x = caps st) -> simulates [] f f r r.
Proof.
  intros Hf. split; [apply advances_nil|]. apply agree_refl. intros st x Hu Hx i rg. rewrite (Hf st x Hx). apply Hu.
Qed.

Lemma simulates_ext gs f f' g g' r r' : simulates gs f g r r' ->
  (forall st, f' st ≈ f st) -> (forall st, g' st = g st) -> simulates gs f' g' r r'.
Proof. intros [Ha Hs] Hf Hg. split; [done|]. by eapply agree_ext. Qed.

Lemma simulates_bind count open gs1 gs2 f g f' g' r1 r2 r3 :
  ready count open (gs1 ++ gs2) r1 -> simulates gs1 f g r1 r2 -> simulates gs2 f' g' r2 r3 ->
  simulates (gs1 ++ gs2) (fun st => flat_map f' (f st)) (fun st => flat_map g' (g st)) r1 r3.
Proof.
  intros Hr [Ha H1] [Hb H2]. split; [by eapply ready_advances|]. by eapply agree_bind.
Qed.

Lemma seqM_inOrder_cons lb f fs st :
  seqM (inOrder lb (f :: fs)) st =
    if lb then flat_map f (seqM (inOrder lb fs) st) else flat_map (seqM (inOrder lb fs)) (f st).
Proof.
  destruct lb; [|done]. cbn [inOrder rev]. rewrite seqM_app. apply flat_map_ext. intros x. cbn [seqM].
  induction (f x) as [|y ys IH]; [done|]. cbn. by rewrite IH.
Qed.

Lemma caps_testChar cs lb t st x : x ∈ testChar cs lb t st -> caps x = caps st.
Proof.
  unfold testChar. destruct lb; destruct (_ cs st); try case_on; intros Hx;
    try (by apply not_elem_of_nil in Hx); by apply list_elem_of_singleton in Hx as ->.
Qed.

Lemma caps_cluster cs lb st x : x ∈ cluster cs lb st -> caps x = caps st.
Proof.
  unfold cluster. destruct (drop _ cs); [by intros ?%not_elem_of_nil|].
  destruct lb; [by intros ?%not_elem_of_nil|]. by intros ->%list_elem_of_singleton.
Qed.

Lemma caps_check b st x : x ∈ check b st -> caps x = caps st.
Proof. unfold check. destruct b; intros Hx; [by apply list_elem_of_singleton in Hx as ->|by apply not_elem_of_nil in Hx]. Qed.

Lemma caps_backRef `{Ucd} cs lb ic r st x : x ∈ backRef cs lb ic r st -> caps x = caps st.
Proof.
  unfold backRef. destruct r as [[a b]|]; cbv zeta; [destruct lb; case_on|]; intros Hx;
    try (by apply not_elem_of_nil in Hx); by apply list_elem_of_singleton in Hx as ->.
Qed.

Section visit.
Context `{Ucd} `{!UcdLaws} `{!FoldIdem} `{Ucs} `{!UcsLaws} (mode : Mode).
Context (names : NamedCaptureGroups) (loopCount groupCount : Z) (cs : list Z).
Context (Hcs : Forall (fun c => isCodePoint c = true) cs).

Abbreviation ready := (ready (Z.to_nat (groupCount + 1))).
Abbreviation sem := (RegexSpec.sem cs names).
Abbreviation srcSem := (RegexSource.srcSem mode cs names).

Abbreviation outcome := (outcome names loopCount groupCount).
Abbreviation outcomes := (outcomes names loopCount groupCount).

Definition lowers (m : Z) (open : list Z) (fwd : bool) (n : Node) (r : list CaptureState) : Prop :=
  exists l r' k, visit mode names m fwd n r = Some (l, r') /\ toNode l = Some k /\
    outcome (negb fwd) open (emittable loopCount n) (groups n) (loops n) (nodeSize n) l k /\
    simulates (groups n) (sem (negb fwd) k) (srcSem m (negb fwd) n) r r'.

Definition visits (n : Node) : Prop := forall m open fwd r,
  lowerable mode names groupCount (negb fwd) open n = true -> ready open (groups n) r -> lowers m open fwd n r.

Lemma visit_seq_sim m open fwd l : Forall visits l -> forallb (lowerable mode names groupCount (negb fwd) open) l = true ->
  forall r, ready open (concat (map groups l)) r ->
  exists ls r' ks, visitSeq (visit mode names m fwd) fwd l r = Some (ls, r') /\ mapM toNode ls = Some ks /\
    outcomes (negb fwd) open (forallb (emittable loopCount) l) (concat (map groups l)) (concat (map loops l))
      (foldr (fun x a => nodeSize x + a) 0 l) ls ks /\
    simulates (concat (map groups l)) (seqOf cs names (negb fwd) ks)
      (seqM (inOrder (negb fwd) (map (fun x => srcSem m (negb fwd) x) l))) r r'.
Proof.
  induction 1 as [|e l He Hl IH]; intros Hlow r Hr.
  { exists [], r, []. split_and!; [done|done|apply outcomes_nil|]. eapply simulates_ext; [apply (simulates_self (fun st => [st]))| |].
    - by intros st x ->%list_elem_of_singleton.
    - intros st. by rewrite seqOf_nil.
    - intros st. by destruct fwd. }
  cbn [forallb] in Hlow. apply andb_true_iff in Hlow as [Hle Hll]. cbn [map concat visitSeq] in *. destruct fwd; cbn [negb] in *.
  - destruct (He m open true r Hle (proj1 (ready_app _ _ _ _ _ Hr))) as (e' & r1 & k & -> & Ek & Hoc & Hs).
    destruct (IH Hll r1 (ready_after _ _ _ _ _ _ Hr (proj1 Hs))) as (ls & r2 & ks & E2 & Eks & Hocs & Hs2).
    cbn [mbind option_bind]. rewrite E2. cbn [mbind option_bind]. exists (e' :: ls), r2, (k :: ks).
    split_and!; [done|apply mapM_Some; constructor; [done|by apply mapM_Some]|by apply outcomes_cons|].
    eapply simulates_ext; [by eapply simulates_bind| |]; intros st; [done|apply seqM_inOrder_cons].
  - apply ready_swap in Hr.
    destruct (IH Hll r (proj1 (ready_app _ _ _ _ _ Hr))) as (ls & r1 & ks & -> & Eks & Hocs & Hs).
    destruct (He m open false r1 Hle (ready_after _ _ _ _ _ _ Hr (proj1 Hs))) as (e' & r2 & k & E2 & Ek & Hoc & Hs2).
    cbn [mbind option_bind]. rewrite E2. cbn [mbind option_bind]. exists (e' :: ls), r2, (k :: ks).
    split_and!; [done|apply mapM_Some; constructor; [done|by apply mapM_Some]|by apply outcomes_cons|].
    pose proof (simulates_bind _ _ _ _ _ _ _ _ _ _ _ Hr Hs Hs2) as [Ha Hb]. split.
    + eapply advances_ext; [|exact Ha]. intros i. rewrite !elem_of_app. tauto.
    + eapply agree_ext; [exact Hb| |]; intros st; [|apply (seqM_inOrder_cons true)].
      unfold seqOf. cbn [map]. by rewrite (seqM_inOrder_cons true).
Qed.

Abbreviation altSem := (fun m lb (e : option Node) => match e with Some x => srcSem m lb x | None => fun _ => [] end).
Abbreviation altGroups := (fun e : option Node => match e with Some p => groups p | None => [] end).

Lemma visit_alt_sim m open fwd l :
  Forall (fun e => match e with Some p => visits p | None => True end) l ->
  forallb (fun e => match e with Some p => lowerable mode names groupCount (negb fwd) open p | None => false end) l = true ->
  forall r, ready open (concat (map altGroups l)) r ->
  exists ls r' ks, visitAlt (visit mode names m fwd) l r = Some (ls, r') /\ mapM toNode ls = Some ks /\
    length ls = length l /\
    outcomes (negb fwd) open (forallb (fun e => match e with Some p => emittable loopCount p | None => true end) l)
      (concat (map altGroups l)) (concat (map (fun e => match e with Some p => loops p | None => [] end) l))
      (foldr (fun e a => (match e with Some x => nodeSize x | None => 0 end) + a) 0 l) ls ks /\
    simulates (concat (map altGroups l)) (altOf cs names (negb fwd) ks) (altM (map (altSem m (negb fwd)) l)) r r'.
Proof.
  induction 1 as [|e l He Hl IH]; intros Hlow r Hr.
  { exists [], r, []. split_and!; [done|done|done|apply outcomes_nil|]. apply (simulates_self (fun _ => [])). by intros st x ?%not_elem_of_nil. }
  cbn [forallb] in Hlow. apply andb_true_iff in Hlow as [Hle Hll]. destruct e as [e|]; [|done]. cbn [map concat visitAlt] in *.
  destruct (He m open fwd r Hle (proj1 (ready_app _ _ _ _ _ Hr))) as (e' & r1 & k & -> & Ek & Hoc & Hs).
  pose proof (ready_after _ _ _ _ _ _ Hr (proj1 Hs)) as Hr1.
  destruct (IH Hll r1 Hr1) as (ls & r2 & ks & E2 & Eks & Hlen & Hocs & Hs2).
  cbn [mbind option_bind]. rewrite E2. cbn [mbind option_bind]. exists (e' :: ls), r2, (k :: ks).
  split_and!; [done|apply mapM_Some; constructor; [done|by apply mapM_Some]|cbn; by rewrite Hlen|by apply outcomes_cons|].
  destruct Hs as [Ha Hs], Hs2 as [Ha2 Hs2]. split; [by eapply ready_advances|].
  apply agree_altM_cons.
  - eapply agree_weaken; [exact Hs|done|]. intros st Hu. by eapply ready_unset.
  - eapply agree_weaken; [exact Hs2| |done]. intros st Hu. eapply ready_unset; [|exact Ha|exact Hu].
    by apply ready_app in Hr as [? _].
Qed.
(** *** References *)

Lemma stateOf_spec r i : 0 <= i -> stateOf r i = r !! Z.to_nat i.
Proof. intros Hi. unfold stateOf. by replace (i <? 0) with false by lia. Qed.

(** Groups that were not closed are not set. *)
Lemma firstSet_unset r l st :
  unsetBy r st -> Forall (fun i => r !! i <> Some CLOSED) l -> firstSet l (caps st) = None.
Proof.
  intros Hu. induction 1 as [|i l Hi _ IH]; [done|]. cbn [firstSet]. destruct (caps st !! i) as [[rg|]|] eqn:E; [|done|done].
  by destruct (Hi (Hu i rg E)).
Qed.

Lemma checkIndices_spec open r l : opened open r ->
  Forall (fun i => (groupIndexOk groupCount i && negb (bool_decide (i ∈ open))) = true) l ->
  length r = Z.to_nat (groupCount + 1) ->
  forall n, 0 <= n ->
  exists b, checkIndices r l n = Some b /\
    (b = false -> n = 0 /\ Forall (fun i => r !! Z.to_nat i <> Some CLOSED) l).
Proof.
  intros Hop Hl Hlen. induction Hl as [|i l Hi _ IH]; intros n Hn; cbn [checkIndices].
  { exists (0 <? n). split; [done|]. intros E. split; [lia|constructor]. }
  apply andb_true_iff in Hi as [Hi Ho%negb_true_iff%bool_decide_eq_false]. unfold groupIndexOk in Hi. zbool.
  rewrite stateOf_spec by lia. destruct (r !! Z.to_nat i) as [s|] eqn:E; [|apply lookup_ge_None in E; lia]. cbn [mbind option_bind].
  destruct s.
  - destruct (IH n Hn) as (b & -> & Hb). exists b. split; [done|]. intros Eb. destruct (Hb Eb) as [-> Hf]. split; [done|].
    constructor; [by rewrite E|done].
  - apply Hop in E. rewrite Z2Nat.id in E by lia. done.
  - destruct (IH (n + 1) ltac:(lia)) as (b & -> & Hb). exists b. split; [done|]. intros Eb. destruct (Hb Eb). lia.
Qed.

Lemma not_open open i : groupIndexOk groupCount i = true -> i ∉ open ->
  Z.of_nat (Z.to_nat i) <= groupCount /\ Z.to_nat i ∉ map Z.to_nat open.
Proof.
  unfold groupIndexOk. intros Hi Hn. zbool. split; [lia|]. intros (j & E & Hj)%list_elem_of_fmap.
  apply Hn. by replace i with j by lia.
Qed.

(** One group: unset unless it is closed, and then it is not around the node. *)
Lemma stateOf_group open r i :
  groupIndexOk groupCount i = true -> opened open r -> length r = Z.to_nat (groupCount + 1) ->
  exists s, stateOf r i = Some s /\
    (s <> CLOSED -> forall st, unsetBy r st -> firstSet [Z.to_nat i] (caps st) = None) /\
    (s = CLOSED -> i ∉ open).
Proof.
  unfold groupIndexOk. intros Hi Hop Hlen. zbool. rewrite stateOf_spec by lia.
  destruct (r !! Z.to_nat i) as [s|] eqn:E; [|apply lookup_ge_None in E; lia]. exists s. split_and!; [done| |].
  - intros Hs st Hu. eapply firstSet_unset; [done|]. repeat constructor. by rewrite E; intros [= ->].
  - intros -> Ho. replace i with (Z.of_nat (Z.to_nat i)) in Ho by lia. apply Hop in Ho. congruence.
Qed.

Lemma checkBackRef_spec open r name index :
  refOk names groupCount open name index = true -> opened open r -> length r = Z.to_nat (groupCount + 1) ->
  exists b, checkBackRef names r name index = Some b /\
    (b = false -> forall st, unsetBy r st -> refsOf names name index (caps st) = None) /\
    (b = true -> forall ic lb, wfNode names loopCount groupCount lb (map Z.to_nat open)
      (RegexNode.BackRefNode (negb (bool_decide (name = []))) index ic)).
Proof.
  intros Hok Hop Hlen. apply andb_true_iff in Hok as [Hidx Hok].
  assert (0 <= index <= UINT16_MAX) as Hrange by (zbool; lia). clear Hidx.
  unfold checkBackRef, refsOf, refRange. cbn [wfNode]. unfold refIndices. destruct name as [|c name]; cbn [bool_decide] in *.
  - rewrite bool_decide_eq_true_2 by done. cbn [negb]. destruct (stateOf_group open r index Hok Hop Hlen) as (s & -> & Hs & Hc).
    eexists. split_and!; [done|by intros E%bool_decide_eq_false; apply Hs|].
    intros E%bool_decide_eq_true ic. split; [done|]. rewrite Forall_singleton; apply not_open; [done|by apply Hc].
  - rewrite bool_decide_eq_false_2 by done. cbn [negb]. unfold findByIndex.
    destruct (names !! Z.to_nat index) as [[name' [i|l]]|] eqn:En; [| |done].
    all: assert (index <? zlen names = true) as -> by (apply lookup_lt_Some in En; unfold zlen; lia).
    all: cbn [fmap option_fmap option_map snd].
    + destruct (RegexNode.find names (c :: name)) as [[j|k]|]; [|done|done].
      apply andb_true_iff in Hok as [[_ ->%Z.eqb_eq]%andb_true_iff Hj].
      destruct (stateOf_group open r j Hj Hop Hlen) as (s & Es & Hs & Hc). cbn [mbind option_bind]. rewrite Es.
      eexists. split_and!; [done|by intros E%bool_decide_eq_false; apply Hs|].
      intros E%bool_decide_eq_true ic. split; [done|]. rewrite Forall_singleton; apply not_open; [done|by apply Hc].
    + destruct (RegexNode.find names (c :: name)) as [[j|k]|]; [done| |done].
      apply andb_true_iff in Hok as [[_ <-%bool_decide_eq_true]%andb_true_iff Hall]. cbn [mbind option_bind].
      assert (Forall (fun i => (groupIndexOk groupCount i && negb (bool_decide (i ∈ open))) = true) l) as Hl.
      { apply Forall_forall. intros i Hi. rewrite forallb_forall in Hall. by apply Hall, list_elem_of_In. }
      destruct (checkIndices_spec open r l Hop Hl Hlen 0 ltac:(lia)) as (b & -> & Hb). exists b. split_and!; [done| |].
      * intros E st Hu. destruct (Hb E) as [_ Hf]. eapply firstSet_unset; [done|]. by apply Forall_map.
      * intros _ _. split; [done|]. apply Forall_map. eapply Forall_impl; [exact Hl|].
        intros i [Hi Ho%negb_true_iff%bool_decide_eq_false]%andb_true_iff. by apply not_open.
Qed.

(** *** Loops *)

Lemma iterate_zero body q st : qmin q = 0 -> qmax q = 0 -> iterate (loopFuel cs q) body q 0 0 st = [st].
Proof.
  intros Hmin Hmax. unfold loopFuel. rewrite Hmin. cbn [iterate]. by rewrite Hmin, Hmax.
Qed.

Lemma iterate_once body q st : qmin q = 1 -> qmax q = 1 -> hasInnerCaptureGroups q = false ->
  iterate (loopFuel cs q) body q 0 0 st = body st.
Proof.
  intros Hmin Hmax Hin. unfold loopFuel. rewrite Hmin. cbn [iterate]. rewrite Hmin, Hmax. cbn [Z.ltb Z.compare andb].
  unfold resetGroups. rewrite Hin. apply flat_map_single. intros x _. done.
Qed.

Lemma iterate_option lb body q st : isOptional q = true -> progresses lb false body ->
  iterate (loopFuel cs q) body q 0 0 st = body st ++ [st].
Proof.
  unfold isOptional. intros Hq Hb. zbool. unfold loopFuel. cbn [iterate].
  match goal with Hm : qmin q = 0, HM : qmax q = 1, Hg : greedy q = true |- _ => rewrite Hm, HM, Hg end.
  unfold resetGroups. match goal with Hi : hasInnerCaptureGroups q = false |- _ => rewrite Hi end. cbn [Z.ltb Z.compare andb Z.eqb].
  f_equal. apply flat_map_single. intros x Hx. apply Hb in Hx. unfold progress, strictly in Hx. cbn [iterate Z.add].
  assert ((RegexSpec.pos st =? RegexSpec.pos x)%nat = false) as -> by (apply Nat.eqb_neq; destruct lb; lia). done.
Qed.

(** The reset of a loop unsets the groups that its body has closed. *)
Lemma reset_closed q gs r r' st :
  resetsBody q gs = true -> fresh gs r -> advances gs r r' -> unsetBy r' st -> unsetBy r (resetGroups q st).
Proof.
  unfold resetsBody, resetGroups. intros Hq Hf (_ & Ho & _) Hu i rg. destruct (hasInnerCaptureGroups q).
  - apply andb_true_iff in Hq as [Hq ->%bool_decide_eq_true]. zbool. cbn [setCaps caps]. rewrite clear_lookup.
    case_decide as Hd; [by destruct (caps st !! i)|]. intros Hi. rewrite <- Ho; [by eapply Hu|]. rewrite elem_of_seqZ. lia.
  - apply bool_decide_eq_true in Hq as ->. intros Hi. rewrite <- Ho by apply not_elem_of_nil. by eapply Hu.
Qed.

Lemma visit_repeat t q p : visits p -> visits (RepeatNode t q p).
Proof.
  intros IH m open fwd r Hlow Hr. cbn [lowerable groups] in *. unfold lowers. cbn [visit RegexSource.srcSem groups].
  apply andb_true_iff in Hlow as [Hlow Hp]. apply andb_true_iff in Hlow as [Hlow Hopt%negb_true_iff].
  apply andb_true_iff in Hlow as [Hlow Hreset]. apply andb_true_iff in Hlow as [Hmin%Z.leb_le Hmax%Z.leb_le].
  pose proof Hr as (_ & Hf & _). destruct (qmax q =? 0) eqn:Ez.
  { exists LEmpty, r, RegexNode.EmptyNode. split_and!; [done|done| |].
    { unfold outcome, RegexLowerVisit.outcome. cbn [emittable]. rewrite Ez. intros [[_ Hnil%bool_decide_eq_true]%andb_true_iff _]%andb_true_iff. rewrite Hnil.
      split_and!; [done|done|done|apply submseteq_nil_l|]. cbn. pose proof (nodeSize_pos p). lia. }
    split; [by apply advances_same|]. apply (agree_ext _ _ (fun st => [st]) _ (fun st => [st])); [|done|intros st; apply iterate_zero; lia].
    apply agree_refl. by intros st x Hu ->%list_elem_of_singleton. }
  destruct (IH m open fwd r Hp Hr) as (p' & r' & k & -> & Ek & Hoc & Ha & Hs). cbn [mbind option_bind].
  pose proof (nodeSize_pos p) as Hsz.
  assert (forall st, unsetBy r st -> unsetBy r' st) as Hmono by (intros st; by eapply ready_unset).
  assert (agree (unsetBy r) (unsetBy r') (fun st => [st]) (fun st => [st])) as Hself.
  { apply agree_refl. intros st x Hu ->%list_elem_of_singleton. by apply Hmono. }
  case_on; [|case_on].
  - exists p', r', k. split_and!; [done|done| |].
    { eapply outcome_weaken; [exact Hoc|by intros [_ E]%andb_true_iff|by apply submseteq_inserts_r|cbn [nodeSize]; lia]. }
    split; [done|]. eapply agree_ext; [exact Hs|done|]. intros st. by apply iterate_once; zbool.
  - destruct (finishAlt_sem cs names [p'; LEmpty] [k; RegexNode.EmptyNode]) as (ks & Ek' & Hne & Hin & Hk');
      [apply mapM_Some; by repeat constructor|cbn; lia|].
    exists (finishAlt [p'; LEmpty]), r', (RegexNode.AltNode ks). split_and!; [done|done| |].
    { pose proof (finishAlt_outcome _ _ _ _ _ _ _ _ _ _ _ _
        (outcomes_cons _ _ _ _ _ _ _ _ _ _ _ _ _ _ _ _ _ Hoc
          (outcomes_cons _ _ _ _ _ _ _ _ _ _ _ _ _ _ _ _ _ (outcome_empty _ _ _ _ open) (outcomes_nil _ _ _ _ open))) Hin Hne) as Hfa.
      rewrite !app_nil_r, !andb_true_r in Hfa.
      eapply outcome_weaken; [exact Hfa|by intros [_ E]%andb_true_iff|by apply submseteq_inserts_r|cbn; lia]. }
    split; [done|].
    apply (agree_ext _ _ (altM [sem (negb fwd) k; fun st => [st]]) _ (altM [srcSem m (negb fwd) p; fun st => [st]])).
    + apply agree_altM_cons; [done|]. apply agree_altM_cons; [done|]. apply agree_refl. by intros st x _ ?%not_elem_of_nil.
    + intros st. apply Hk'.
    + intros st. apply (iterate_option (negb fwd)); [done|]. intros x y Hy. apply srcSem_progress in Hy.
      enough (nullable p = false) as E by (by rewrite E in Hy). by apply andb_false_iff in Hopt as [Ho|?]; [unfold isOptional in Ho; congruence|].
  - exists (LRepeat q p'), r', (RegexNode.RepeatNode q k). split_and!; [done|cbn [toNode]; by rewrite Ek| |].
    { eapply outcome_weaken; [by eapply repeat_outcome| |done|cbn; lia].
      intros [[E _]%andb_true_iff Hem]%andb_true_iff. by apply andb_true_iff. }
    split; [done|]. cbn [RegexSpec.sem].
    apply (agree_weaken (unsetBy r') (unsetBy r) (unsetBy r') (unsetBy r')); [|done|done].
    apply (agree_iterate (unsetBy r)); [done|]. intros st. by apply (reset_closed q (groups p)).
Qed.
(** *** Groups *)

Lemma setCapture_spec r i s x : 0 <= i -> r !! Z.to_nat i = Some x -> setCapture r i s = Some (<[Z.to_nat i := s]> r).
Proof. intros Hi E. unfold setCapture. by rewrite stateOf_spec, E by done. Qed.

Lemma visit_capture t i s u p : visits p -> visits (GroupNode t CAPTURE i s u p).
Proof.
  intros IH m open fwd r Hlow (Hd & Hf & Ho & Hlen). cbn [lowerable groups app] in *.
  apply andb_true_iff in Hlow as [Hi Hp]. unfold groupIndexOk in Hi. zbool.
  apply NoDup_cons in Hd as [Hni Hd]. unfold fresh in Hf. apply Forall_cons in Hf as [[_ Ei] Hf].
  assert (Z.of_nat (Z.to_nat i) = i) as Hof by lia.
  unfold lowers. cbn [visit RegexSource.srcSem groups app]. replace (i =? 0) with false by lia.
  rewrite (setCapture_spec r i _ _ ltac:(lia) Ei). cbn [mbind option_bind].
  set (r0 := <[Z.to_nat i := NOT_CLOSED]> r).
  assert (forall j, j <> Z.to_nat i -> r0 !! j = r !! j) as Hr0 by (intros j Hj; by apply list_lookup_insert_ne).
  assert (r0 !! Z.to_nat i = Some NOT_CLOSED) as Hr0i by (apply list_lookup_insert_eq; by eapply lookup_lt_Some).
  destruct (IH m (i :: open) fwd r0) as (p' & r1 & k & -> & Ek & Hoc & Ha & Hs); [done| |].
  { split_and!; [done| | |by unfold r0; rewrite length_insert].
    - unfold fresh in *. rewrite Forall_forall in Hf |- *. intros j Hj. destruct (Hf j Hj) as [? Ej]. split; [done|].
      rewrite Hr0; [done|]. intros E. apply Hni. assert (j = i) as -> by lia. done.
    - intros j. rewrite elem_of_cons. destruct (decide (j = Z.to_nat i)) as [->|Hj].
      + rewrite Hr0i, Hof. tauto.
      + rewrite Hr0, (Ho j) by done. split; [tauto|]. intros [E|?]; [lia|done]. }
  cbn [mbind option_bind]. destruct Ha as (L1 & O1 & I1). assert (r1 !! Z.to_nat i = Some NOT_CLOSED) as Er1.
  { rewrite O1 by by rewrite Hof. done. }
  rewrite (setCapture_spec r1 i _ _ ltac:(lia) Er1). cbn [mbind option_bind].
  set (r2 := <[Z.to_nat i := CLOSED]> r1).
  assert (forall j, j <> Z.to_nat i -> r2 !! j = r1 !! j) as Hr2 by (intros j Hj; by apply list_lookup_insert_ne).
  assert (r2 !! Z.to_nat i = Some CLOSED) as Hr2i by (apply list_lookup_insert_eq; by eapply lookup_lt_Some).
  exists (LGroup i p'), r2, (RegexNode.GroupNode CAPTURE i k). split_and!; [done|cbn [toNode]; by rewrite Ek| |].
  { intros E. destruct (Hoc E) as (F & W & G & L & S). split_and!; [done| |cbn; by rewrite G|done|].
    - cbn [wfNode]. split; [lia|done].
    - cbn [seqSize nodeSize]. pose proof (nodeSize_pos p). lia. }
  split; [split_and!|].
  - unfold r2. rewrite length_insert, L1. unfold r0. by rewrite length_insert.
  - intros j Hj. rewrite elem_of_cons in Hj. assert (j <> Z.to_nat i) by lia. by rewrite Hr2, O1, Hr0 by tauto.
  - intros j Hj. apply elem_of_cons in Hj as [Hj|Hj]; [right; by replace j with (Z.to_nat i) by lia|].
    destruct (decide (j = Z.to_nat i)) as [->|Hne]; [by right|]. rewrite Hr2 by done. by apply I1.
  - cbn [RegexSpec.sem]. intros st Hu. destruct (Hs st) as [He Hout].
    { intros j rg Hj. rewrite Hr0; [by eapply Hu|]. intros ->. pose proof (Hu _ _ Hj) as E. congruence. }
    split; [by apply obs_map|]. intros x (y & -> & Hy)%list_elem_of_fmap. intros j rg. unfold closeGroup. cbn [setCaps caps].
    destruct (decide (j = Z.to_nat i)) as [->|Hne]; [done|]. rewrite list_lookup_insert_ne by done. intros Hj.
    rewrite Hr2 by done. by eapply Hout.
Qed.

Lemma visit_look t ty p : visits p -> visits (LookAroundNode t ty p).
Proof.
  intros IH m open fwd r Hlow Hr. cbn [lowerable groups] in *. unfold lowers. cbn [visit RegexSource.srcSem groups].
  destruct (IH m open (isLookAhead ty) r Hlow Hr) as (p' & r' & k & -> & Ek & Hoc & Ha & Hs). cbn [mbind option_bind].
  pose proof (nodeSize_pos p) as Hsz.
  assert (simulates (groups p) (fun st => lookAround (isNegate ty) st (sem (negb (isLookAhead ty)) k st))
    (fun st => lookAround (isNegate ty) st (srcSem m (negb (isLookAhead ty)) p st)) r r') as Hl.
  { split; [done|]. apply agree_lookAround; [done|done|]. intros st. by eapply ready_unset. }
  case_on; [|exists (LLookAround ty p'), r', (RegexNode.LookAroundNode ty k); split_and!; [done|cbn [toNode]; by rewrite Ek| |done]].
  2: { intros [Hg E]%andb_true_iff. destruct (Hoc E) as (F & W & G & L & S).
    split_and!; [done| |done|done|cbn; lia]. cbn [wfNode]. split; [done|]. intros En. rewrite En in Hg.
    apply bool_decide_eq_true in Hg. by rewrite G, Hg. }
  zbool. destruct p'; try done. injection Ek as <-. exists LEmpty, r', RegexNode.EmptyNode. split_and!; [done..| |].
  { eapply outcome_weaken; [exact Hoc|by intros [_ E]%andb_true_iff|done|cbn; lia]. }
  eapply simulates_ext; [exact Hl| |done]. intros st. cbn [RegexSpec.sem lookAround]. 
  match goal with E : isNegate ty = false |- _ => rewrite E end. by destruct st.
Qed.

Lemma lowers_tests m open fwd n r k test :
  visit mode names m fwd n r = Some (k, r) -> nodeTests k test -> groups n = [] -> loops n = [] ->
  (forall st, srcSem m (negb fwd) n st = testChar cs (negb fwd) test st) -> lowers m open fwd n r.
Proof.
  intros Hv (x & Hx & Hfo & Hw & Hgx & Hlx & _ & Hs) Hg Hl Hsrc. exists k, r, x. rewrite Hg, Hl. split_and!; [done..| |].
  { apply andb_true_iff in Hfo as [Hfo Hq]. apply outcome_leaf; try done. pose proof (nodeSize_pos n). destruct k; done || cbn; lia. }
  eapply simulates_ext; [apply (simulates_self (testChar cs (negb fwd) test)); intros; by eapply caps_testChar| |done].
  intros st. by rewrite Hs.
Qed.

(** A node is lowered, and the matcher of the result agrees with the one of the node on the
    states where the groups that are not closed are not set. *)
Lemma visits_all n : visits n.
Proof.
  refine (Node_nested_ind visits (fun e => match e with Some p => visits p | None => True end)
    _ _ _ _ _ _ _ _ _ _ _ _ I (fun _ Hn => Hn) n); clear n.
  - intros t m open fwd r _ _. exists LEmpty, r, RegexNode.EmptyNode. split_and!; [done..|by apply outcome_leaf|].
    apply (simulates_self (fun st => [st])). by intros st x ->%list_elem_of_singleton.
  - intros t m open fwd r _ _. exists (LAny m), r, (RegexNode.AnyNode m). split_and!; [done..|by apply outcome_leaf|].
    apply simulates_self. intros st x. apply caps_testChar.
  - intros t c m open fwd r Hc _. eapply lowers_tests; [done|by apply visit_char|done|done|done].
  - intros t p v m open fwd r Hp _. cbn [lowerable] in Hp. destruct (decide (getNormalizedType p = GRAPHEME)) as [E|E].
    { rewrite (bool_decide_eq_true_2 _ E) in Hp. apply orb_true_iff in Hp as [Hp|Hp].
      { exfalso. unfold plainProperty, mayContainString in Hp. by rewrite E in Hp. }
      exists LGrapheme, r, RegexNode.GraphemeNode. cbn [visit RegexSource.srcSem]. rewrite !(bool_decide_eq_true_2 _ E).
      split_and!; [done|done|apply outcome_leaf; try done; by destruct fwd|]. apply simulates_self. intros st x. apply caps_cluster. }
    rewrite (bool_decide_eq_false_2 _ E), orb_false_r in Hp.
    destruct (visit_class mode names (PropertyNode t p v) m fwd r (or_introl Hp)) as (k & Hk & Ht).
    eapply lowers_tests; [done..|]. intros st. cbn [RegexSource.srcSem]. by rewrite bool_decide_eq_false_2.
  - intros t i ty s l _ m open fwd r Hp _. cbn [lowerable] in Hp.
    destruct (visit_class mode names (CharClassNode t i ty s l) m fwd r (or_intror Hp)) as (k & Hk & Ht).
    by eapply lowers_tests.
  - intros t b m open fwd r _ _. exists (LBoundary b m), r, (RegexNode.BoundaryNode b m). split_and!; [done..|by apply outcome_leaf|].
    apply simulates_self. intros st x. apply caps_check.
  - intros t name i m open fwd r Hok (_ & _ & Ho & Hlen). cbn [lowerable] in Hok. unfold lowers.
    destruct (checkBackRef_spec open r name i Hok Ho Hlen) as (b & Eb & Hb & Hw). cbn [visit RegexSource.srcSem groups].
    rewrite Eb. cbn [mbind option_bind]. destruct b.
    + do 3 eexists. split_and!; [done..|apply outcome_leaf; [done|done|by apply Hw|done|done]|]. cbn [RegexSpec.sem]. apply simulates_self. intros st x. apply caps_backRef.
    + exists LEmpty, r, RegexNode.EmptyNode. split_and!; [done..|by apply outcome_leaf|]. split; [apply advances_nil|]. intros st Hu.
      rewrite (Hb eq_refl st Hu). cbn. split; [done|]. by intros x ->%list_elem_of_singleton.
  - intros t q p IH. by apply visit_repeat.
  - intros t l Hl m open fwd r Hlow Hr. cbn [lowerable groups] in *.
    destruct (visit_seq_sim m open fwd l Hl Hlow r Hr) as (ls & r' & ks & Ev & Eks & Hoc & Hs).
    destruct (finishSeq_sem cs names ls ks Eks) as (k & ks' & Ek & Hk & Hin & Hlen & Hform).
    exists (finishSeq ls), r', k. cbn [visit]. rewrite Ev. split_and!; [done..|by eapply finishSeq_outcome|]. eapply simulates_ext; [exact Hs| |done].
    intros st. by rewrite Hk.
  - intros t l Hl m open fwd r Hlow Hr. cbn [lowerable groups] in *. apply andb_true_iff in Hlow as [Hlen Hlow].
    destruct (visit_alt_sim m open fwd l Hl Hlow r Hr) as (ls & r' & ks & Ev & Eks & El & Hoc & Hs).
    destruct (finishAlt_sem cs names ls ks Eks) as (ks' & Ek & Hne & Hin & Hk); [unfold zlen in *; lia|].
    exists (finishAlt ls), r', (RegexNode.AltNode ks'). cbn [visit]. rewrite Ev. split_and!; [done..|by eapply finishAlt_outcome|]. by eapply simulates_ext.
  - intros t ty p IH. by apply visit_look.
  - intros t ty i s u p IH. destruct ty; [by apply visit_capture| |].
    + intros m open fwd r Hlow Hr. destruct (IH m open fwd r Hlow Hr) as (l & r' & k & Ev & Ek & Hoc & Hs).
      exists l, r', k. split_and!; [done..| |done]. eapply outcome_weaken; [exact Hoc|done|done|cbn; lia].
    + intros m open fwd r Hlow Hr. destruct (IH (newModifiers m s u) open fwd r Hlow Hr) as (l & r' & k & Ev & Ek & Hoc & Hs).
      assert (newModifiers m s u = modifiersOf m s u) as E.
      { unfold newModifiers, modifiersOf, setFlag, unsetFlag, NONE. repeat case_on; zbool; subst;
          by rewrite ?Z.lor_0_r, ?Z.lnot_0, ?Z.land_m1_r. }
      exists l, r', k. split_and!; [done..|eapply outcome_weaken; [exact Hoc|done|done|cbn; lia]|].
      cbn [RegexSource.srcSem groups app]. by rewrite <- E.
Qed.
End visit.


End RegexLowerVisit.
