(* ===== verification/RegexLowerStr.v ===== *)
(** Alternations of strings: where the strings with the same first character do not get
    longer, trying them in turn is trying the matching ones from the longest on, as the
    set of strings that replaces the alternation does. *)
From Stdlib Require Import Sorted.
From S2P Require Import Prelude Unicode CodePointSet RegexMatcher RadixTree RegexNode RegexText RegexSpec.
From S2P Require Import RegexStrSet RegexLowering RegexSource RegexLowerClass RegexLowerSim.

Module RegexLowerStr.
Import UnicodeUtil RegexMatcher RegexNode RegexSpec RegexStrSet RegexLowering RegexSource RegexLowerClass RegexLowerSim.

(** ** Lists of lengths from the greatest on *)

Abbreviation descending := (StronglySorted ge).

Lemma find_descending P l : descending l ->
  match List.find P l with
  | Some x => x ∈ l /\ P x = true /\ forall y, y ∈ l -> P y = true -> (y <= x)%nat
  | None => forall y, y ∈ l -> P y = false
  end.
Proof.
  induction 1 as [|x l Hl IH Hx]; cbn; [by intros y ?%not_elem_of_nil|]. destruct (P x) eqn:E.
  - split_and!; [by left|done|]. intros y [->|Hy]%elem_of_cons _; [lia|]. rewrite Forall_forall in Hx. by apply Hx.
  - destruct (List.find P l) as [z|].
    + destruct IH as (Hz & Hpz & Hall). split_and!; [by right|done|]. intros y [->|Hy]%elem_of_cons Hy'; [congruence|auto].
    + intros y [->|Hy]%elem_of_cons; auto.
Qed.

Lemma descending_obs l k : descending l -> descending k -> (forall x, x ∈ l <-> x ∈ k) -> l ≈ k.
Proof.
  intros Hl Hk E P. pose proof (find_descending P l Hl) as Fl. pose proof (find_descending P k Hk) as Fk.
  destruct (List.find P l) as [x|], (List.find P k) as [y|]; [| | |done].
  - destruct Fl as (Hx & Px & Mx), Fk as (Hy & Py & My). f_equal.
    apply Nat.le_antisymm; [apply My|apply Mx]; try done; by apply E.
  - destruct Fl as (Hx%E & Px & _). rewrite Fk in Px; done.
  - destruct Fk as (Hy%E & Py & _). rewrite Fl in Py; done.
Qed.

Lemma descending_app l k : descending l -> descending k -> (forall x y, x ∈ l -> y ∈ k -> (y <= x)%nat) ->
  descending (l ++ k).
Proof.
  induction 1 as [|x l Hl IH Hx]; intros Hk Hlk; [done|]. cbn. constructor.
  - apply IH; [done|]. intros y z Hy Hz. apply Hlk; [by right|done].
  - apply Forall_app. split; [done|]. apply Forall_forall. intros y Hy. apply Hlk; [by left|done].
Qed.

(** ** Words *)

(** A word with the same first character is not longer than an earlier one. *)
Definition shorter (w w' : list Z) : Prop := head w = head w' -> (length w' <= length w)%nat.

Definition charNode (fold : bool) (c : Z) : RegexNode.Node :=
  if fold then RegexNode.FoldCharNode c else RegexNode.CharNode c.

Definition wordNode (fold : bool) (w : list Z) : RegexNode.Node :=
  match w with [c] => charNode fold c | _ => RegexNode.SeqNode (map (charNode fold) w) end.

Section words.
Context `{Ucd} (cs : list Z) (Hcs : RegexText.codePoints cs) (fold : bool).

Definition charTest (c d : Z) : bool := fold_ fold d =? c.

Definition matchesWord (st : St) (w : list Z) : bool :=
  bool_decide (map (fold_ fold) (take (length w) (drop (RegexSpec.pos st) cs)) = w).

Lemma charNode_sem names lb c st : sem cs names lb (charNode fold c) st = testChar cs lb (charTest c) st.
Proof. unfold charTest, fold_. by destruct fold. Qed.

Lemma matchesWord_cons st c w : matchesWord st (c :: w) =
  match cs !! RegexSpec.pos st with
  | Some d => charTest c d && matchesWord (setPos st (S (RegexSpec.pos st))) w
  | None => false
  end.
Proof.
  unfold matchesWord, charTest. destruct (cs !! RegexSpec.pos st) as [d|] eqn:E.
  - rewrite (drop_S _ _ _ E). cbn [length firstn map setPos RegexSpec.pos].
    apply eq_true_iff_eq. rewrite andb_true_iff, !bool_decide_eq_true, Z.eqb_eq. split; [by intros [= -> ->]|by intros [-> ->]].
  - apply lookup_ge_None in E. rewrite drop_ge by done. by apply bool_decide_eq_false.
Qed.

Lemma word_forward names w : forall st,
  seqM (map (fun x => sem cs names false x) (map (charNode fold) w)) st =
    if matchesWord st w then [skip false (length w) st] else [].
Proof.
  induction w as [|c w IH]; intros st.
  { cbn. unfold skip. rewrite Nat.add_0_r. by destruct st. }
  cbn [map seqM]. rewrite charNode_sem, matchesWord_cons. unfold testChar, curChar.
  destruct (cs !! RegexSpec.pos st) as [d|]; [|done]. destruct (charTest c d); [|done]. cbn [flat_map andb].
  rewrite Nat.add_1_r, app_nil_r, IH. destruct (matchesWord _ w); [|done]. unfold skip, setPos. cbn. do 2 f_equal. lia.
Qed.

Lemma wordNode_sem names w st : w <> [] ->
  sem cs names false (wordNode fold w) st = if matchesWord st w then [skip false (length w) st] else [].
Proof.
  intros Hw. rewrite <- (word_forward names). destruct w as [|c [|d w]]; [done| |done].
  cbn [wordNode map seqM]. generalize (sem cs names false (charNode fold c) st). induction l as [|x l IH]; [done|]. cbn. by f_equal.
Qed.

(** The lengths of the words that match, in the order of the words. *)
Fixpoint lengths (words : list (list Z)) (st : St) : list nat :=
  match words with
  | [] => []
  | w :: r => (if matchesWord st w then [length w] else []) ++ lengths r st
  end.

Lemma altOf_words names words st : Forall (fun w => w <> []) words ->
  altOf cs names false (map (wordNode fold) words) st = map (fun k => skip false k st) (lengths words st).
Proof.
  induction 1 as [|w words Hw _ IH]; [done|]. cbn [map lengths]. rewrite altOf_cons, IH, wordNode_sem, map_app by done.
  by destruct (matchesWord st w).
Qed.

Lemma elem_lengths words st k : k ∈ lengths words st <-> exists w, w ∈ words /\ matchesWord st w = true /\ k = length w.
Proof.
  induction words as [|w words IH]; cbn [lengths]; [split; [by intros ?%not_elem_of_nil|by intros (w & ?%not_elem_of_nil & _)]|].
  rewrite elem_of_app, IH. split.
  - intros [Hk|(x & Hx & Hm & ->)]; [|exists x; split; [by right|done]].
    case_in Hk; [|by apply not_elem_of_nil in Hk]. apply list_elem_of_singleton in Hk as ->. exists w. split; [by left|done].
  - intros (x & [->|Hx]%elem_of_cons & Hm & ->); [left; rewrite Hm; by left|right; eauto].
Qed.

Lemma matches_head st w : matchesWord st w = true -> w <> [] -> head w = fold_ fold <$> cs !! RegexSpec.pos st.
Proof.
  destruct w as [|c w]; [done|]. intros Hm _. rewrite matchesWord_cons in Hm. destruct (cs !! RegexSpec.pos st); [|done].
  apply andb_true_iff in Hm as [Hc _]. apply Z.eqb_eq in Hc. by subst.
Qed.

Lemma lengths_descending words st : StronglySorted shorter words -> Forall (fun w => w <> []) words ->
  descending (lengths words st).
Proof.
  induction 1 as [|w words Hs IH Hw]; intros Hne; [constructor|]. apply Forall_cons in Hne as [Hn Hne]. cbn [lengths].
  destruct (matchesWord st w) eqn:Em; [|by apply IH]. constructor; [by apply IH|]. apply Forall_forall.
  intros k (x & Hx & Hm & ->)%elem_lengths. rewrite Forall_forall in Hw, Hne.
  apply (Hw x Hx). rewrite (matches_head _ _ Em Hn), (matches_head _ _ Hm (Hne x Hx)). done.
Qed.

(** ** The set of strings *)

Section set.
Context (test : list Z -> bool).

Fixpoint stringLengths (n : nat) (st : St) : list nat :=
  match n with
  | O => []
  | S n' => (if test (segment cs false n st) then [n] else []) ++ stringLengths n' st
  end.

Lemma strings_lengths n st : strings cs false test n st = map (fun k => skip false k st) (stringLengths n st).
Proof. induction n as [|n IH]; [done|]. cbn [strings stringLengths]. rewrite IH, map_app. by destruct (test _). Qed.

Lemma elem_stringLengths n st k : k ∈ stringLengths n st <-> (0 < k <= n)%nat /\ test (segment cs false k st) = true.
Proof.
  induction n as [|n IH]; cbn [stringLengths]; [split; [by intros ?%not_elem_of_nil|lia]|]. rewrite elem_of_app, IH. split.
  - intros [Hk|[Hk Ht]]; [|split; [lia|done]]. case_in Hk; [|by apply not_elem_of_nil in Hk].
    apply list_elem_of_singleton in Hk as ->. split; [lia|done].
  - intros [Hk Ht]. destruct (decide (k = S n)) as [->|]; [left; rewrite Ht; by left|right; split; [lia|done]].
Qed.

Lemma stringLengths_descending n st : descending (stringLengths n st).
Proof.
  induction n as [|n IH]; [constructor|]. cbn [stringLengths]. apply descending_app; [|done|].
  - case_on; repeat constructor.
  - intros x y Hx [Hy _]%elem_stringLengths. case_in Hx; [|by apply not_elem_of_nil in Hx]. apply list_elem_of_singleton in Hx as ->. lia.
Qed.

(** The alternation of words is the set of those of several characters and the test of
    those of one. *)
Lemma words_set names words chars st :
  StronglySorted shorter words -> Forall (fun w => w <> []) words ->
  (forall xs, RegexText.codePoints xs -> test xs = true <-> (2 <= length xs)%nat /\ map (fold_ fold) xs ∈ words) ->
  (forall c, isCodePoint c = true -> chars c = true <-> [fold_ fold c] ∈ words) ->
  altOf cs names false (map (wordNode fold) words) st ≈
    strings cs false test (room cs false st) st ++ testChar cs false chars st.
Proof.
  intros Hs Hne Ht Hc. rewrite altOf_words, strings_lengths by done.
  set (one := if match cs !! RegexSpec.pos st with Some c => chars c | None => false end then [1%nat] else []).
  assert (testChar cs false chars st = map (fun k => skip false k st) one) as ->.
  { unfold one, testChar, curChar. destruct (cs !! RegexSpec.pos st) as [c|]; [|done]. by destruct (chars c). }
  rewrite <- map_app. apply obs_map, descending_obs; [by apply lengths_descending| |].
  - apply descending_app; [apply stringLengths_descending|unfold one; case_on; repeat constructor|].
    intros x y [Hx _]%elem_stringLengths Hy. unfold one in Hy. case_in Hy; [|by apply not_elem_of_nil in Hy].
    apply list_elem_of_singleton in Hy as ->. lia.
  - intros k. rewrite elem_of_app, elem_lengths, elem_stringLengths. split.
    + intros (w & Hw & Hm & ->). rewrite Forall_forall in Hne. pose proof (Hne w Hw) as Hn. destruct w as [|c [|d w]]; [done| |].
      * right. rewrite matchesWord_cons in Hm. unfold one. destruct (cs !! RegexSpec.pos st) as [d|] eqn:E; [|done].
        apply andb_true_iff in Hm as [Hm%Z.eqb_eq _]. subst c. rewrite (proj2 (Hc d (RegexText.codePoints_lookup _ _ _ Hcs E))) by done. by left.
      * left. apply bool_decide_eq_true in Hm. set (w' := c :: d :: w) in *. pose proof (f_equal length Hm) as El.
        rewrite length_map, length_take, length_drop in El. split; [unfold w', room in *; cbn [length] in *; lia|].
        apply Ht; [by apply RegexText.codePoints_take, RegexText.codePoints_drop|]. unfold segment. rewrite Hm.
        split; [|done]. rewrite length_take, length_drop. unfold w' in *. cbn [length] in *. lia.
    + intros [[Hk Htest]|Hone].
      * apply Ht in Htest as [_ Hw]; [|by apply RegexText.codePoints_take, RegexText.codePoints_drop].
        assert (length (segment cs false k st) = k) as El.
        { unfold segment, room in *. rewrite length_take, length_drop. lia. }
        exists (map (fold_ fold) (segment cs false k st)). rewrite length_map, El. split_and!; [done| |done].
        apply bool_decide_eq_true. by rewrite length_map, El.
      * unfold one in Hone. destruct (cs !! RegexSpec.pos st) as [d|] eqn:E; [|by apply not_elem_of_nil in Hone].
        destruct (chars d) eqn:Ed; [|by apply not_elem_of_nil in Hone]. apply list_elem_of_singleton in Hone as ->.
        exists [fold_ fold d]. split_and!; [by apply Hc; [by eapply RegexText.codePoints_lookup|]| |done].
        rewrite matchesWord_cons, E. unfold charTest. by rewrite Z.eqb_refl.
Qed.
End set.
End words.

(** ** The test of the order *)

(** The alternatives with their words. *)
Definition spells (n : Lowered) (w : list Z) : Prop :=
  isLEmpty n = false /\ exists c, head w = Some c /\ prefixCode n = Some (c, zlen w).

Lemma checkOrder_empties e known : Forall (fun n => n = LEmpty) e -> exists b, checkOrder e known = Some b.
Proof. induction 1 as [|n e -> _ IH]; [by eexists|done]. Qed.

Lemma checkOrder_sorted t words e : Forall2 spells t words -> forall known, checkOrder (t ++ e) known = Some true ->
  Forall (fun w => forall c len, head w = Some c -> known !! c = Some len -> zlen w <= len) words /\
  StronglySorted shorter words.
Proof.
  induction 1 as [|n w t words (Hn & c & Hw & Hp) _ IH]; intros known E; [split; constructor|].
  cbn [app checkOrder] in E. rewrite Hn, Hp in E. cbn [mbind option_bind] in E.
  assert ((forall len, known !! c = Some len -> zlen w <= len) /\
    checkOrder (t ++ e) (<[c := zlen w]> known) = Some true) as [Hk E'].
  { destruct (known !! c) as [k|] eqn:Ek; [|split; [congruence|done]]. destruct (Z.leb_spec (zlen w) k); [|done].
    split; [|done]. by intros len [= <-]. }
  destruct (IH _ E') as [Hf Hs]. rewrite Forall_forall in Hf. split; [constructor|constructor; [done|]].
  - intros c' len Hc' Hl. rewrite Hw in Hc'. injection Hc' as <-. by apply Hk.
  - apply Forall_forall. intros x Hx c' len Hc' Hl. destruct (decide (c' = c)) as [->|Hne].
    + etrans; [|by apply Hk]. apply (Hf x Hx c); [done|apply lookup_insert_eq].
    + apply (Hf x Hx c'); [done|]. by rewrite lookup_insert_ne.
  - apply Forall_forall. intros x Hx Hh. enough (zlen x <= zlen w) by (unfold zlen in *; lia).
    apply (Hf x Hx c); [congruence|apply lookup_insert_eq].
Qed.
End RegexLowerStr.
