(* ===== verification/RegexLowerOpt.v ===== *)
(** The optimization of lowered trees keeps their meaning: alternations of single
    characters become character sets, and folding nodes whose character has no other case
    become characters. *)
From Stdlib Require Import Sorted.
From S2P Require Import Prelude Unicode CodePointSet RegexMatcher SetBuilder RadixTree.
From S2P Require Import RegexNode RegexText RegexSpec RegexSyntax RegexStrSet RegexLowering RegexSource RegexLowerClass.
From S2P Require Import RegexLowerSim RegexLowerVisit RegexLowerStr RegexStrings.

Module RegexLowerOpt.
Import UnicodeUtil RegexMatcher SetBuilder RegexNode RegexSpec RegexStrSet RegexLowering RegexSource RegexLowerClass.
Import RegexLowerSim RegexLowerStr.

(** ** Induction over lowered trees *)

Section lowered_ind.
Context (P : Lowered -> Prop).
Context (Hempty : P LEmpty) (Hany : forall m, P (LAny m)) (Hchar : forall c, P (LChar c)).
Context (Hbound : forall t m, P (LBoundary t m)) (Hback : forall n i ic, P (LBackRef n i ic)).
Context (Hrep : forall q p, P p -> P (LRepeat q p)).
Context (Hseq : forall l, Forall P l -> P (LSeq l)) (Halt : forall l, Forall P l -> P (LAlt l)).
Context (Hlook : forall t p, P p -> P (LLookAround t p)) (Hgroup : forall i p, P p -> P (LGroup i p)).
Context (Hfold : forall c, P (LFoldChar c)) (Hset : forall s i ic, P (LCharSet s i ic)).
Context (Hstr : forall e r c ic, P (LStrSet e r c ic)) (Hgraph : P LGrapheme).

Fixpoint Lowered_nested_ind (n : Lowered) : P n :=
  let go := fix go (l : list Lowered) : Forall P l :=
    match l with
    | [] => Forall_nil_2 P
    | x :: r => Forall_cons_2 P x r (Lowered_nested_ind x) (go r)
    end in
  match n with
  | LEmpty => Hempty
  | LAny m => Hany m
  | LChar c => Hchar c
  | LBoundary t m => Hbound t m
  | LBackRef n i ic => Hback n i ic
  | LRepeat q p => Hrep q p (Lowered_nested_ind p)
  | LSeq l => Hseq l (go l)
  | LAlt l => Halt l (go l)
  | LLookAround t p => Hlook t p (Lowered_nested_ind p)
  | LGroup i p => Hgroup i p (Lowered_nested_ind p)
  | LFoldChar c => Hfold c
  | LCharSet s i ic => Hset s i ic
  | LStrSet e r c ic => Hstr e r c ic
  | LGrapheme => Hgraph
  end.
End lowered_ind.

(** ** Nodes that can take the place of others *)

Section keeps.
Context `{Ucd}.

Definition textOk (cs : list Z) : Prop := Forall (fun c => isCodePoint c = true) cs.

(** The direction counts: the set of an optimized alternation takes its place forward only. *)
Definition same (lb : bool) (k k' : RegexNode.Node) : Prop := forall names cs st, textOk cs ->
  sem cs names lb k' st ≈ sem cs names lb k st.

Definition keeps (lb : bool) (k k' : RegexNode.Node) : Prop :=
  same lb k k' /\ (forall names lc gc open, wfNode names lc gc lb open k -> wfNode names lc gc lb open k') /\
  groupsOf k' = groupsOf k /\ loopsOf k' = loopsOf k.

#[export] Instance keeps_preorder lb : PreOrder (keeps lb).
Proof.
  split; [done|]. intros a b c (S1 & W1 & G1 & L1) (S2 & W2 & G2 & L2). split_and!; [|auto|congruence|congruence].
  intros names cs st Hcs. transitivity (sem cs names lb b st); [by apply S2|by apply S1].
Qed.

Lemma same_agree lb k k' : same lb k k' -> forall names cs, textOk cs ->
  agree (fun _ => True) (fun _ => True) (sem cs names lb k') (sem cs names lb k).
Proof. intros Hs names cs Hcs st _. split; [by apply Hs|done]. Qed.

Lemma keeps_repeat lb q k k' : keeps lb k k' -> keeps lb (RegexNode.RepeatNode q k) (RegexNode.RepeatNode q k').
Proof.
  intros (S & W & G & L). split_and!.
  - intros names cs st Hcs. cbn [sem]. by apply (agree_iterate (fun _ => True) (fun _ => True) _ _ _ (same_agree _ _ _ S names cs Hcs)).
  - intros names lc gc open. cbn [wfNode]. rewrite G. naive_solver.
  - done.
  - cbn. by rewrite L.
Qed.

Lemma keeps_look lb t k k' : keeps (negb (isLookAhead t)) k k' -> keeps lb (RegexNode.LookAroundNode t k) (RegexNode.LookAroundNode t k').
Proof.
  intros (S & W & G & L). split_and!; [| |done|done].
  - intros names cs st Hcs. cbn [sem]. rewrite (lookAround_obs _ _ _ _ (S names cs st Hcs)). done.
  - intros names lc gc open. cbn [wfNode]. rewrite G. naive_solver.
Qed.

Lemma keeps_group lb i k k' : keeps lb k k' -> keeps lb (RegexNode.GroupNode CAPTURE i k) (RegexNode.GroupNode CAPTURE i k').
Proof.
  intros (S & W & G & L). split_and!; [| | |done].
  - intros names cs st Hcs. cbn [sem]. by apply obs_map, S.
  - intros names lc gc open. cbn [wfNode]. naive_solver.
  - cbn. by rewrite G.
Qed.

Lemma keeps_lists lb ks ks' : Forall2 (keeps lb) ks ks' ->
  (forall names lc gc open, Forall (wfNode names lc gc lb open) ks -> Forall (wfNode names lc gc lb open) ks') /\
  flat_map groupsOf ks' = flat_map groupsOf ks /\ flat_map loopsOf ks' = flat_map loopsOf ks.
Proof.
  induction 1 as [|k k' ks ks' (S & W & G & L) _ (IW & IG & IL)]; [done|]. split_and!.
  - intros names lc gc open. rewrite !Forall_cons. intros [? ?]. auto.
  - cbn. by rewrite G, IG.
  - cbn. by rewrite L, IL.
Qed.

Lemma keeps_seq lb ks ks' : Forall2 (keeps lb) ks ks' -> keeps lb (RegexNode.SeqNode ks) (RegexNode.SeqNode ks').
Proof.
  intros Hk. pose proof (keeps_lists _ _ _ Hk) as (W & G & L). split_and!; [| |done|done].
  - intros names cs st Hcs. change (seqOf cs names lb ks' st ≈ seqOf cs names lb ks st). unfold seqOf.
    clear W G L. revert st. induction Hk as [|k k' ks ks' Hkk _ IH]; intros st; [done|]. cbn [map]. rewrite !RegexLowerVisit.seqM_inOrder_cons.
    destruct lb; (apply obs_flat_map; [|intros x _]); try apply IH; by apply Hkk.
  - intros names lc gc open. cbn [wfNode]. intros [Hl Hw%foldr_Forall]. split; [|by apply foldr_Forall, W].
    unfold zlen in *. by rewrite <- (Forall2_length _ _ _ Hk).
Qed.

Lemma altOf_keeps names cs lb ks ks' st : textOk cs -> Forall2 (keeps lb) ks ks' ->
  altOf cs names lb ks' st ≈ altOf cs names lb ks st.
Proof.
  intros Hcs. induction 1 as [|k k' ks ks' Hk _ IH]; [done|]. rewrite !altOf_cons. apply obs_app; [by apply Hk|done].
Qed.

Lemma keeps_alt lb ks ks' : Forall2 (keeps lb) ks ks' -> keeps lb (RegexNode.AltNode ks) (RegexNode.AltNode ks').
Proof.
  intros Hk. pose proof (keeps_lists _ _ _ Hk) as (W & G & L). split_and!; [| |done|done].
  - intros names cs st Hcs. pose proof (altOf_keeps names cs lb _ _ st Hcs Hk) as Ha.
    destruct Hk as [|k k' ks ks' Hkk [|? ? ? ? ? ?]]; [done| |done].
    cbn [sem]. apply obs_app; [by apply Hkk|done].
  - intros names lc gc open. cbn [wfNode]. intros [Hl Hw%foldr_Forall]. split; [|by apply foldr_Forall, W].
    intros ->. by inversion Hk; subst.
Qed.
End keeps.

(** ** Folding nodes *)

Section opt.
Context `{Ucd} `{!UcdLaws} `{!FoldIdem} `{Ucs} `{!UcsLaws} (mode : Mode).

Lemma mapM_keeps (f : Lowered -> Lowered) l :
  Forall (fun n => forall k, toNode n = Some k -> loweredOk n = true -> exists k', toNode (f n) = Some k' /\ forall lb, keeps lb k k') l ->
  forall ks, mapM toNode l = Some ks -> forallb loweredOk l = true ->
  exists ks', mapM toNode (map f l) = Some ks' /\ forall lb, Forall2 (keeps lb) ks ks'.
Proof.
  induction 1 as [|n l Hn _ IH]; intros ks Hk Hok; [exists []; cbn in Hk; by injection Hk as <-|].
  apply mapM_cons_Some in Hk as (k & ks0 & -> & Ek & Eks). cbn in Hok. apply andb_true_iff in Hok as [Ho Hok].
  destruct (Hn k Ek Ho) as (k' & Ek' & Hk'), (IH ks0 Eks Hok) as (ks' & Eks' & Hks').
  exists (k' :: ks'). split; [|by constructor]. apply mapM_Some. constructor; [done|by apply mapM_Some].
Qed.

Lemma fold_single lb c : isCodePoint c = true -> doSimpleCaseFolding c = c -> doSimpleCaseUnfold c = [] ->
  keeps lb (RegexNode.FoldCharNode c) (RegexNode.CharNode c).
Proof.
  intros Hc Hf Hu. split_and!; try done. intros names cs st Hcs. cbn [sem]. rewrite (testChar_ext _ _ _ (fun d => doSimpleCaseFolding d =? c)); [done|done|].
  intros d _. apply eq_true_iff_eq. rewrite !Z.eqb_eq. split; [by intros ->|]. intros E.
  destruct (unfold_folding c d E) as [|Hd]; [done|]. rewrite Hu in Hd. by apply not_elem_of_nil in Hd.
Qed.

Lemma optimizeFoldChar_keeps n : forall k, toNode n = Some k -> loweredOk n = true ->
  exists k', toNode (optimizeFoldChar n) = Some k' /\ forall lb, keeps lb k k'.
Proof.
  induction n as [|m|c|t m|nm i ic|q p IH|l IH|l IH|t p IH|i p IH|c|s i ic|e r c ic|] using Lowered_nested_ind;
    intros k Hk Hok; cbn [optimizeFoldChar loweredOk] in *; try (by exists k).
  - cbn in Hk. destruct (toNode p) as [k0|] eqn:E; [|done]. injection Hk as <-. destruct (IH k0 eq_refl Hok) as (k' & E' & Hk).
    eexists. cbn. rewrite E'. split; [done|intros lb; by apply keeps_repeat].
  - cbn in Hk. destruct (mapM toNode l) as [ks|] eqn:E; [|done]. injection Hk as <-. apply andb_true_iff in Hok as [_ Hok].
    destruct (mapM_keeps _ _ IH ks E Hok) as (ks' & E' & Hks). eexists. cbn. rewrite E'. split; [done|intros lb; by apply keeps_seq].
  - cbn in Hk. destruct (mapM toNode l) as [ks|] eqn:E; [|done]. injection Hk as <-.
    destruct (mapM_keeps _ _ IH ks E Hok) as (ks' & E' & Hks). eexists. cbn. rewrite E'. split; [done|intros lb; by apply keeps_alt].
  - cbn in Hk. destruct (toNode p) as [k0|] eqn:E; [|done]. injection Hk as <-. destruct (IH k0 eq_refl Hok) as (k' & E' & Hk).
    eexists. cbn. rewrite E'. split; [done|intros lb; by apply keeps_look].
  - cbn in Hk. destruct (toNode p) as [k0|] eqn:E; [|done]. injection Hk as <-. destruct (IH k0 eq_refl Hok) as (k' & E' & Hk).
    eexists. cbn. rewrite E'. split; [done|intros lb; by apply keeps_group].
  - injection Hk as <-. zbool. destruct (doSimpleCaseUnfold c) eqn:Eu; [|by eexists (RegexNode.FoldCharNode c)]. eexists. split; [done|]. intros lb. by apply fold_single.
Qed.
(** ** Alternations of strings *)

(** A string of plain characters, or one of folding ones. *)
Definition stringOf (fold : bool) (n : Lowered) : bool := if fold then isFoldCharSeq n else isCharSeq n.

Definition modifierOf (fold : bool) : Z := if fold then IGNORE_CASE else RegexSyntax.NONE.

Lemma has_modifierOf fold : RegexLowering.has (modifierOf fold) IGNORE_CASE = fold.
Proof. by destruct fold. Qed.

Lemma dropEmpty_split l : exists t e, l = t ++ e /\ rev (dropEmpty (rev l)) = t /\ Forall (fun n => n = LEmpty) e.
Proof.
  induction l as [|x l IH] using rev_ind; [by exists [], []|]. rewrite rev_app_distr. cbn [rev app dropEmpty].
  destruct (isLEmpty x) eqn:Ex.
  - destruct IH as (t & e & El & Et & He). exists t, (e ++ [x]). destruct x; try done.
    split_and!; [by rewrite app_assoc, <- El|done|]. apply Forall_app. split; [done|]. by constructor.
  - exists (l ++ [x]), []. split_and!; [by rewrite app_nil_r|cbn; by rewrite rev_involutive|done].
Qed.

Lemma string_not_empty fold n : stringOf fold n = true -> isLEmpty n = false.
Proof. destruct fold; by destruct n. Qed.

Lemma string_fold fold n : stringOf fold n = true -> loweredOk n = true -> isFoldCharSeq n = fold.
Proof.
  destruct fold; [done|]. destruct n as [| |c| | | |l| | | |c| | |]; cbn; try done. intros Hl Hok. zbool.
  destruct l as [|x l]; [by unfold zlen in *; cbn in *; lia|]. cbn in *. zbool. by destruct x.
Qed.

(** What an alternative adds to the set. *)
Definition itemCodes (it : AltItem) : list Z := match it with ItemChar _ c => [c] | _ => [] end.
Definition isItemEmpty (it : AltItem) : bool := match it with ItemEmpty => true | _ => false end.
Definition isItemSeq (it : AltItem) : bool := match it with ItemSeq _ => true | _ => false end.
Definition itemWord (it : AltItem) : list Z :=
  match it with ItemChar _ c => [c] | ItemEmpty => [] | ItemSeq l => map snd l end.

Definition codesOk (fold : bool) (l : list (bool * Z)) : Prop :=
  Forall (fun c => fst c = fold /\ isCodePoint (snd c) = true /\ (fold = true -> doSimpleCaseFolding (snd c) = snd c)) l.

Definition itemOk (fold : bool) (it : AltItem) : Prop :=
  match it with
  | ItemChar f c => codesOk fold [(f, c)]
  | ItemEmpty => True
  | ItemSeq l => codesOk fold l /\ 2 <= zlen l /\ 4 * zlen l <= RadixTree.MAX_STRING_SIZE
  end.

Lemma codesOk_points fold l : codesOk fold l -> RegexText.codePoints (map snd l).
Proof. intros Hl. apply Forall_map. eapply Forall_impl; [exact Hl|]. by intros c (_ & ? & _). Qed.

(** An alternative and its item: the empty one, or a word with its node. *)
Definition alternative (fold : bool) (n : Lowered) (it : AltItem) : Prop :=
  n = LEmpty /\ it = ItemEmpty \/
  spells n (itemWord it) /\ toNode n = Some (wordNode fold (itemWord it)) /\ isItemEmpty it = false.

Lemma stringCodes (fold : bool) l :
  forallb (fun n => if fold then isLFoldChar n else isLChar n) (l : list Lowered) = true -> forallb loweredOk l = true ->
  exists codes, mapM charOfLowered l = Some codes /\ codesOk fold codes /\ length codes = length l /\
    mapM toNode l = Some (map (charNode fold) (map snd codes)).
Proof.
  induction l as [|x l IH]; intros Hs Hok; [exists []; split_and!; constructor|]. cbn in Hs, Hok. apply andb_true_iff in Hs as [Hx Hs].
  apply andb_true_iff in Hok as [Hxo Hok]. destruct (IH Hs Hok) as (codes & E & Hc & Hl & Hn).
  assert (exists c, charOfLowered x = Some (fold, c) /\ toNode x = Some (charNode fold c) /\ codesOk fold [(fold, c)]) as (c & Ec & Ex & Hcc).
  { destruct fold, x; try done; eexists; (split; [done|]); (split; [done|]); constructor; try done; cbn in *; zbool; by split_and!. }
  exists ((fold, c) :: codes). split_and!; [cbn; by rewrite Ec, E| |cbn; by rewrite Hl|cbn [mapM map snd]; by rewrite Ex, Hn].
  constructor; [by inversion Hcc|done].
Qed.

Lemma string_item fold n : stringOf fold n = true \/ n = LEmpty -> loweredOk n = true ->
  exists it, itemOfLowered n = Some it /\ itemOk fold it /\ alternative fold n it.
Proof.
  intros [Hs| ->] Hok; [|exists ItemEmpty; split_and!; [done|done|by left]].
  assert (forall c, n = (if fold then LFoldChar c else LChar c) ->
    exists it, itemOfLowered n = Some it /\ itemOk fold it /\ alternative fold n it) as Hchar.
  { intros c ->. exists (ItemChar fold c). split_and!; [by destruct fold| |].
    - constructor; [|done]. destruct fold; cbn in *; zbool; by split_and!.
    - right. split_and!; [|by destruct fold|done]. split; [by destruct fold|]. exists c. by destruct fold. }
  destruct n as [| |c| | | |l| | | |c| | |]; try (by destruct fold); try (apply (Hchar c); by destruct fold).
  cbn in Hok. apply andb_true_iff in Hok as [Hlen Hok]. apply andb_true_iff in Hlen as [Hl1%Z.leb_le Hl2%Z.leb_le].
  destruct (stringCodes fold l) as (codes & E & Hc & Hl & Hn); [by destruct fold|done|].
  exists (ItemSeq codes). split_and!; [cbn; by rewrite E| |].
  - split_and!; [done|unfold zlen in *; lia|unfold zlen in *; lia].
  - right. split_and!; [| |done].
    + split; [done|]. destruct l as [|x l]; [by unfold zlen in Hl1; cbn in Hl1; lia|]. apply mapM_cons_Some in E as ([f c] & r & -> & Ex & _).
      exists c. cbn [itemWord map snd head]. split; [done|]. cbn. rewrite Ex. cbn. do 2 f_equal. unfold zlen. cbn in Hl |- *. rewrite length_map. lia.
    + cbn [toNode itemWord]. rewrite Hn. destruct codes as [|? [|? codes]]; [unfold zlen in Hl1; cbn in *; lia..|done].
Qed.

Lemma strings_items fold l : Forall (fun n => stringOf fold n = true \/ n = LEmpty) l -> forallb loweredOk l = true ->
  exists items, mapM itemOfLowered l = Some items /\ Forall (itemOk fold) items /\ Forall2 (alternative fold) l items.
Proof.
  induction 1 as [|n l Hn _ IH]; intros Hok; [exists []; split_and!; constructor|]. cbn in Hok. apply andb_true_iff in Hok as [Ho Hok].
  destruct (IH Hok) as (items & E & Hi & Hf), (string_item fold n Hn Ho) as (it & Eit & Hit & Hcase).
  exists (it :: items). split_and!; [cbn; by rewrite Eit, E|by constructor|by constructor].
Qed.

Lemma checkOrder_total fold l items : Forall2 (alternative fold) l items -> forall known, exists b, checkOrder l known = Some b.
Proof.
  induction 1 as [|n it l items [[-> _]|[(Hn & c & _ & Hp) _]] _ IH]; intros known; [by eexists|apply IH|].
  cbn [checkOrder]. rewrite Hn, Hp. cbn [mbind option_bind]. destruct (known !! c); [case_match|]; eauto.
Qed.

(** The builder of an optimized alternation: its code points, and the words of its radix tree. *)
Definition buildsStrings (fold : bool) (b : StrSetBuilder) (f : Z -> bool) (ws : list (list Z)) : Prop :=
  isSet (codePoints b) f /\ RadixTree.wf (radix b) /\ emoji b = emoji (newStrSetBuilder fold) /\
  (RadixTree.empty (radix b) = true -> radix b = RadixTree.newTree) /\
  forall s, (exists q, RadixTree.maps (radix b) s q) <-> exists w, w ∈ ws /\ s = RegexText.encodes w.

Lemma isSet_add b f c : isSet b f -> isCodePoint c = true -> isSet (addRange b c c false) (fun d => f d || (d =? c)).
Proof.
  intros [Hi Hf] Hc. pose proof Hc as Hr. apply isCodePoint_spec in Hr.
  destruct (addRange_spec b c c false Hi) as [Hi' Hm]; [unfold overlaps; lia|]. split; [done|].
  intros d. rewrite Hm, Hf, orb_true_iff. apply or_iff_compat_l. unfold ranged. rewrite isCodePoint_spec, Z.eqb_eq. lia.
Qed.

Lemma utf8_words fold codes : codesOk fold codes ->
  flat_map (fun c => codePointToUtf8 (strCodePoint (modifierOf fold) c)) codes = RegexText.encodes (map snd codes).
Proof.
  induction 1 as [|[f c] codes (Hf & _ & _) _ IH]; [done|]. cbn [flat_map map]. rewrite RegexText.encodes_cons, IH. f_equal. f_equal.
  unfold strCodePoint. cbn [fst snd] in *. rewrite has_modifierOf. subst f. by destruct fold.
Qed.

Lemma words_size fold codes : codesOk fold codes -> zlen codes <= zlen (RegexText.encodes (map snd codes)) <= 4 * zlen codes.
Proof.
  intros Hc%codesOk_points. pose proof (RegexText.encodes_length _ Hc). pose proof (RegexText.encodes_bound _ Hc).
  assert (zlen (map snd codes) = zlen codes) as E by (unfold zlen; by rewrite length_map). lia.
Qed.

Lemma radix_grows t seq : RadixTree.wf t -> seq <> [] -> zlen seq <= RadixTree.MAX_STRING_SIZE ->
  exists t' status, RadixTree.add t seq 1 = Some (t', status) /\ RadixTree.wf t' /\ RadixTree.empty t' = false /\
    forall s, (exists q, RadixTree.maps t' s q) <-> (exists q, RadixTree.maps t s q) \/ s = seq.
Proof.
  intros Hw Hne Hl. destruct (RadixTree.radix_add_spec t seq 1 Hw) as (t' & status & -> & Hw' & _ & Ha); [by vm_compute|].
  exists t', status. split; [done|]. split; [done|]. destruct seq as [|c seq]; [done|]. cbn [RadixTree.isNil orb] in Ha.
  replace (RadixTree.MAX_STRING_SIZE <? zlen (c :: seq)) with false in Ha by lia. cbn [Z.eqb orb] in Ha.
  destruct Ha as (Ha & _ & _).
  assert (forall s, (exists q, RadixTree.maps t' s q) <-> (exists q, RadixTree.maps t s q) \/ s = c :: seq) as Hm.
  { intros s. split.
    - intros [q [Hm|(-> & _)]%Ha]; [left; eauto|by right].
    - intros [[q Hm]| ->]; [exists q; apply Ha; by left|].
      destruct (RadixTree.radix_find_spec t (c :: seq) Hw) as (q & _ & Hq & Hq'). destruct (Z.eq_dec q 0) as [->|Hne0].
      + exists 1. apply Ha. right. split_and!; [done|done|]. intros [q0 Hm]. by apply (RadixTree.maps_nonzero _ _ _ Hm), Hq'.
      + exists q. apply Ha. left. by apply Hq. }
  split; [|exact Hm]. apply not_true_iff_false. intros He.
  destruct (proj2 (Hm (c :: seq)) (or_intror eq_refl)) as [q Hq]. destruct t' as [[|? ?] p [|? ?]]; cbn in He; try done.
  apply RadixTree.maps_inv in Hq as [[? _]|(k & u & s & Hin & _)]; [done|by apply not_elem_of_nil in Hin].
Qed.

Lemma generateChar_add fold folded b c : folded = fold -> generateChar mode (modifierOf fold) b folded c = addCodePoint b c.
Proof.
  intros ->. unfold generateChar. destruct fold; [done|]. unfold needSimpleCaseFolding.
  by rewrite has_modifierOf, andb_false_r.
Qed.

Definition seqWords (items : list AltItem) : list (list Z) :=
  flat_map (fun it => match it with ItemSeq l => [map snd l] | _ => [] end) items.

Lemma buildsStrings_ext fold b f g ws us : buildsStrings fold b f ws -> (forall c, f c = g c) ->
  (forall w, w ∈ ws <-> w ∈ us) -> buildsStrings fold b g us.
Proof.
  intros (Hs & Hw & He & Hr & Hm) Hf Hu. split_and!; [by eapply isSet_ext|done..|]. intros s. rewrite Hm. by setoid_rewrite Hu.
Qed.

Lemma newStrings_builds fold : buildsStrings fold (newStrSetBuilder fold) (fun _ => false) [].
Proof.
  destruct (plainSet_new fold) as (? & ? & ? & ?). split_and!; [done|apply RadixTree.wf_new|done|done|].
  intros s. split; [by intros [q ?%RadixTree.maps_new]|by intros (w & ?%not_elem_of_nil & _)].
Qed.

Lemma noEmoji_new fold : noEmoji (emoji (newStrSetBuilder fold)).
Proof. apply plainSet_new. Qed.

Lemma generateItems_spec fold items : Forall (itemOk fold) items -> forall b f ws, buildsStrings fold b f ws ->
  exists b', generateItems mode (modifierOf fold) items b = Some b' /\
    buildsStrings fold b' (fun d => f d || existsb (Z.eqb d) (flat_map itemCodes items)) (ws ++ seqWords items) /\
    emptySeq b' = emptySeq b || existsb isItemEmpty items /\
    RadixTree.empty (radix b') = RadixTree.empty (radix b) && negb (existsb isItemSeq items).
Proof.
  induction 1 as [|it items Hit _ IH]; intros b f ws Hb.
  { exists b. split_and!; [done| |by rewrite orb_false_r|by rewrite andb_true_r].
    eapply buildsStrings_ext; [exact Hb|intros c; by rewrite orb_false_r|intros w; by rewrite app_nil_r]. }
  destruct it as [fo c| |codes]; cbn [generateItems flat_map itemCodes seqWords app existsb isItemEmpty isItemSeq orb].
  - rewrite generateChar_add by (by inversion Hit as [|? ? (E & _) _]).
    destruct Hb as (Hs & Hb). cbn in Hit. inversion Hit as [|? ? (_ & Hc & _) _]; subst. cbn [snd] in Hc.
    destruct (IH (addCodePoint b c) (fun d => f d || (d =? c)) ws) as (b' & E & Hb' & Hq & Hx).
    { split; [by apply isSet_add|done]. }
    exists b'. split_and!; [done| |done|done]. eapply buildsStrings_ext; [exact Hb'| |done]. intros d. by rewrite orb_assoc.
  - destruct (IH (withEmptySeq b true) f ws Hb) as (b' & E & Hb' & Hq & Hx). exists b'. split_and!; [done|done| |done].
    rewrite Hq. cbn. by rewrite orb_true_r.
  - destruct Hit as (Hc & Hl1 & Hl2). replace (zlen codes <=? 1) with false by lia.
    destruct Hb as (Hs & Hw & He & Hr & Hm). unfold addString, inEmoji. rewrite noEmoji_has by (rewrite He; apply noEmoji_new).
    cbn [mbind option_bind]. unfold radixAdd. rewrite (utf8_words fold codes Hc). pose proof (words_size fold codes Hc) as Hu.
    set (seq := RegexText.encodes (map snd codes)) in *.
    destruct (radix_grows (radix b) seq Hw) as (t & s & -> & Hw' & Hne & Ht); [intros E; rewrite E in Hu; unfold zlen in *; cbn [length] in Hu; lia|lia|].
    cbn [mbind option_bind]. destruct (IH (withRadix b t) f (ws ++ [map snd codes])) as (b' & E & Hb' & Hq & Hx).
    { split_and!; [done|done|done|cbn; by rewrite Hne|]. intros x. cbn. rewrite Ht, Hm. split.
      - intros [(w & Hin & ->)| ->]; eexists; (split; [|done]); apply elem_of_app; [by left|right; by left].
      - intros (w & [Hin| ->%list_elem_of_singleton]%elem_of_app & ->); [left; eauto|by right]. }
    exists b'. split_and!; [done|by rewrite <- app_assoc in Hb'|done|]. rewrite Hx. cbn. rewrite Hne. by rewrite andb_false_r.
Qed.

(** The class that is made of the set. *)
Lemma finish_strings fold strings s f ws : buildsStrings fold s f ws -> (RadixTree.empty (radix s) = false -> strings = true) ->
  exists n, finishClass (modifierOf fold) false strings s = Some n /\ loweredOk n = true /\
    (RadixTree.empty (radix s) = false -> exists chars,
      n = optionalOf (emptySeq s) (LStrSet emojiNone (radix s) chars fold) /\
      match chars with
      | Some x => nodeTests x (matches (modifierOf fold) f)
      | None => forall c, matches (modifierOf fold) f c = false
      end) /\
    (RadixTree.empty (radix s) = true ->
      (emptySeq s = true /\ n = LEmpty /\ forall c, matches (modifierOf fold) f c = false) \/
      exists x, n = optionalOf (emptySeq s) x /\ nodeTests x (matches (modifierOf fold) f)).
Proof.
  intros (Hs & Hw & He & Hr & _) Hstr. unfold finishClass. set (m := modifierOf fold).
  set (s1 := if RegexLowering.has m IGNORE_CASE then _ else s).
  assert (radix s1 = radix s /\ emoji s1 = emoji (newStrSetBuilder fold) /\ emptySeq s1 = emptySeq s /\
    codePoints s1 = if RegexLowering.has m IGNORE_CASE then foldCase (codePoints s) else codePoints s) as (-> & -> & -> & Ec).
  { subst s1. destruct (RegexLowering.has m IGNORE_CASE); cbn; done. }
  rewrite (noEmoji_has _ (noEmoji_new fold)).
  pose proof (isSet_effective m _ _ Hs) as Hset. rewrite <- Ec in Hset.
  assert (exists x, tryToGenerateCharSetNode m (codePoints s1) false = Some x /\ nodeTests x (matches m f)) as (x & Ex & Hx).
  { destruct (charSetNode_spec m _ _ false Hset) as (x & Ex & Hx).
    { intros E c. unfold effective. rewrite E. apply foldImage_folded. }
    exists x. split; [done|]. eapply nodeTests_ext; [exact Hx|]. intros c _. cbn [xorb]. by rewrite matches_effective. }
  assert (loweredOk x = true) as Hok by (destruct Hx as (? & _ & Hx & _); by apply andb_true_iff in Hx as [? _]).
  assert (notEmpty (codePoints s1) = false -> forall c, matches m f c = false) as Hnone.
  { intros Hn c. rewrite matches_effective. by apply (isSet_notEmpty _ _ Hset). }
  destruct (RadixTree.empty (radix s)) eqn:Er; cbn [andb negb].
  - destruct (emptySeq s && negb (notEmpty (codePoints s1))) eqn:En.
    + apply andb_true_iff in En as [En Hn%negb_true_iff]. exists LEmpty. split_and!; [done..|]. intros _. left. auto.
    + rewrite Ex. cbn [mbind option_bind]. eexists. split_and!; [done|destruct (emptySeq s); [cbn; by rewrite Hok|done]|done|].
      intros _. right. by exists x.
  - rewrite (Hstr eq_refl). cbn [negb].
    assert (exists chars, (if notEmpty (codePoints s1) then Some <$> tryToGenerateCharSetNode m (codePoints s1) false else Some None) = Some chars /\
      match chars with Some x => nodeTests x (matches m f) | None => forall c, matches m f c = false end) as (chars & -> & Hch).
    { destruct (notEmpty (codePoints s1)); [rewrite Ex; by exists (Some x)|exists None; auto]. }
    cbn [mbind option_bind]. eexists. split; [done|]. split_and!; [by destruct (emptySeq s)| |done]. intros _. exists chars.
    split; [|done]. do 2 f_equal; [by destruct fold|]. unfold m. rewrite has_modifierOf. by destruct fold.
Qed.

(** *** The meaning of the alternatives *)

Lemma altOf_empties {A} names cs lb (e : list A) st :
  altOf cs names lb (map (fun _ => RegexNode.EmptyNode) e) st ≈ if RadixTree.isNil e then [] else [st].
Proof.
  destruct e as [|x e]; [done|]. cbn [map RadixTree.isNil]. rewrite altOf_cons. cbn [sem].
  induction e as [|y e IH]; [done|]. cbn [map]. rewrite altOf_cons. cbn [sem].
  transitivity ([st] ++ [st] ++ []); [|by apply (obs_repeat [])].
  intros P. specialize (IH P). cbn in *. destruct (P st); [done|]. done.
Qed.

Lemma words_nodes fold t items : Forall2 (alternative fold) t items -> Forall (fun n => isLEmpty n = false) t ->
  mapM toNode t = Some (map (wordNode fold) (map itemWord items)) /\ existsb isItemEmpty items = false /\
  Forall2 spells t (map itemWord items).
Proof.
  induction 1 as [|n it t items Hn _ IH]; intros Hne; [done|]. inversion Hne; subst.
  destruct (IH ltac:(done)) as (E & Ee & Hs). destruct Hn as [[-> _]|(Hsp & Hn & He)]; [done|].
  cbn [mapM map existsb]. rewrite Hn, E, He, Ee. split_and!; [done|done|by constructor].
Qed.

Lemma empties_nodes fold e items : Forall2 (alternative fold) e items -> Forall (fun n => n = LEmpty) e ->
  mapM toNode e = Some (map (fun _ => RegexNode.EmptyNode) e) /\ flat_map itemCodes items = [] /\ seqWords items = [] /\
  existsb isItemEmpty items = negb (RadixTree.isNil e) /\ existsb isItemSeq items = false.
Proof.
  induction 1 as [|n it t items Hn _ IH]; intros Hne; [done|]. inversion Hne; subst.
  destruct (IH ltac:(done)) as (E & Ec & Ew & Ee & Es). destruct Hn as [[_ ->]|((Hn & _) & _)]; [|done].
  split_and!; [cbn; by rewrite E|done|done|done|done].
Qed.
(** The alternatives of an optimizable alternation are strings of one kind. *)
Lemma strings_of_one_kind l : forallb loweredOk l = true ->
  forallb isCharSeq (rev (dropEmpty (rev l))) || forallb isFoldCharSeq (rev (dropEmpty (rev l))) = true ->
  exists fold t e, l = t ++ e /\ Forall (fun n => stringOf fold n = true) t /\ Forall (fun n => n = LEmpty) e /\
    forall first, head l = Some first -> (if isFoldCharSeq first then IGNORE_CASE else RegexSyntax.NONE) = modifierOf fold.
Proof.
  intros Hok Hs. destruct (dropEmpty_split l) as (t & e & El & Et & He). rewrite Et in Hs.
  assert (exists fold, forallb (stringOf fold) t = true /\ (t = [] -> fold = false)) as (fold & Ht & Hnil).
  { destruct t as [|x t]; [by exists false|]. apply orb_true_iff in Hs as [Hs|Hs]; [by exists false|by exists true]. }
  exists fold, t, e. split_and!; [done| |done|].
  { apply Forall_forall. intros n Hn. rewrite forallb_forall in Ht. by apply Ht, list_elem_of_In. }
  intros first Hf. rewrite El in Hf, Hok. rewrite forallb_app in Hok. apply andb_true_iff in Hok as [Hok _].
  destruct t as [|x t]; cbn in Hf.
  - rewrite (Hnil eq_refl). destruct e as [|y e]; [done|]. injection Hf as <-. by inversion He; subst.
  - injection Hf as <-. cbn in Ht, Hok. apply andb_true_iff in Ht as [Ht _]. apply andb_true_iff in Hok as [Hok _].
    by rewrite (string_fold fold x).
Qed.

Lemma matches_codes fold codes d : Forall (fun c => fold = true -> doSimpleCaseFolding c = c) codes ->
  matches (modifierOf fold) (fun d => existsb (Z.eqb d) codes) d = existsb (fun c => charTest fold c d) codes.
Proof.
  intros Hc. rewrite matches_effective. unfold effective, charTest. rewrite has_modifierOf. unfold fold_. destruct fold.
  - apply eq_true_iff_eq. rewrite foldImage_spec, existsb_exists. split.
    + intros (x & (c & Hin & E%Z.eqb_eq)%existsb_exists & Ex). exists c. split; [done|]. subst x.
      rewrite Forall_forall in Hc. rewrite <- Ex, Hc by (first [done|by apply list_elem_of_In]). apply Z.eqb_refl.
    + intros (c & Hin & E%Z.eqb_eq). exists c. rewrite Forall_forall in Hc.
      split; [apply existsb_exists; exists c; by rewrite Z.eqb_refl|]. rewrite Hc by (first [done|by apply list_elem_of_In]). done.
  - induction codes as [|c codes IH]; [done|]. inversion Hc; subst. cbn. by rewrite IH.
Qed.

Lemma items_folded fold items : Forall (itemOk fold) items ->
  Forall (fun c => fold = true -> doSimpleCaseFolding c = c) (flat_map itemCodes items).
Proof.
  induction 1 as [|it items Hit _ IH]; [done|]. cbn [flat_map]. apply Forall_app. split; [|done].
  destruct it as [f c| |]; [|done|done]. cbn. constructor; [|done]. inversion Hit as [|? ? (_ & _ & Hf) _]; subst. done.
Qed.

(** The words of the alternatives: the characters, and the strings of the radix tree. *)
Lemma items_words fold items : Forall (itemOk fold) items -> existsb isItemEmpty items = false ->
  (forall c, [c] ∈ map itemWord items <-> c ∈ flat_map itemCodes items) /\
  (forall w, w ∈ seqWords items <-> w ∈ map itemWord items /\ (2 <= length w)%nat) /\
  Forall (fun w => w <> [] /\ RegexText.codePoints w /\ 4 * zlen w <= RadixTree.MAX_STRING_SIZE) (map itemWord items).
Proof.
  induction 1 as [|it items Hit _ IH]; intros He.
  { split_and!; [intros c; cbn; by rewrite !elem_of_nil| |constructor]. intros w. cbn. rewrite !elem_of_nil. tauto. }
  cbn in He. apply orb_false_iff in He as [He Hes]. destruct (IH Hes) as (I1 & I2 & I3).
  destruct it as [f c| |l]; [|done|]; cbn [map itemWord flat_map itemCodes seqWords app].
  - inversion Hit as [|? ? (_ & Hc & _) _]; subst. split_and!.
    + intros d. rewrite !elem_of_cons, I1. naive_solver.
    + intros w. rewrite elem_of_cons. change (flat_map _ items) with (seqWords items). rewrite I2. split; [naive_solver|].
      intros [[->|Hw] Hl]; [cbn in Hl; lia|done].
    + constructor; [|done]. split_and!; [done|by repeat constructor|by vm_compute].
  - destruct Hit as (Hc & Hl1 & Hl2). assert (length (map snd l) = length l) as El by apply length_map.
    split_and!.
    + intros d. rewrite elem_of_cons, I1. split; [|by right]. intros [E|]; [|done]. rewrite <- E in El. unfold zlen in Hl1. cbn in El. lia.
    + intros w. change (flat_map _ items) with (seqWords items). rewrite !elem_of_cons, I2. split; [|naive_solver].
      intros [->|[Hw Hl]]; [|by split; [right|]]. split; [by left|]. unfold zlen in Hl1. lia.
    + constructor; [|done]. split_and!; [|by eapply codesOk_points|].
      * intros E. rewrite E in El. unfold zlen in Hl1. cbn in El. lia.
      * unfold zlen in *. by rewrite El.
Qed.

Lemma wordNode_plain fold w : groupsOf (wordNode fold w) = [] /\ loopsOf (wordNode fold w) = [].
Proof.
  assert (forall f, (forall c, f (charNode fold c) = []) -> forall w : list Z, flat_map f (map (charNode fold) w) = [] :> list nat) as Hf.
  { intros f E. clear w. induction w as [|c w IH]; [done|]. cbn. by rewrite E, IH. }
  destruct w as [|c [|d w]]; [done|by destruct fold|]. split; apply Hf; intros x; by destruct fold.
Qed.

Lemma words_plain {A} fold words (e : list A) :
  let ks := map (wordNode fold) words ++ map (fun _ => RegexNode.EmptyNode) e in
  flat_map groupsOf ks = [] /\ flat_map loopsOf ks = [].
Proof.
  cbv zeta. rewrite !flat_map_app.
  assert (forall f : RegexNode.Node -> list nat, (forall w, f (wordNode fold w) = []) -> f RegexNode.EmptyNode = [] ->
    flat_map f (map (wordNode fold) words) = [] /\ flat_map f (map (fun _ => RegexNode.EmptyNode) e) = []) as Hf.
  { intros f Ew Ee. split; [induction words as [|w words IH]|induction e as [|x e IH]]; try done; cbn; by rewrite ?Ew, ?Ee, IH. }
  destruct (Hf groupsOf) as [-> ->]; [apply wordNode_plain|done|]. destruct (Hf loopsOf) as [-> ->]; [apply wordNode_plain|done|]. done.
Qed.

(** A node that takes strings before single code points. *)
Definition setSem (k : RegexNode.Node) (test : list Z -> bool) (chars : Z -> bool) : Prop :=
  forall names cs st, textOk cs ->
    sem cs names false k st = strings cs false test (room cs false st) st ++ testChar cs false chars st.

(** The set of the alternatives takes the place of the alternation. *)
Lemma strAlt_keeps fold words (e : list Lowered) k test chars :
  let ks := map (wordNode fold) words ++ map (fun _ => RegexNode.EmptyNode) e in
  (1 < length ks)%nat -> StronglySorted shorter words -> Forall (fun w => w <> []) words ->
  (forall xs, RegexText.codePoints xs -> test xs = true <-> (2 <= length xs)%nat /\ map (fold_ fold) xs ∈ words) ->
  (forall c, isCodePoint c = true -> chars c = true <-> [fold_ fold c] ∈ words) ->
  (forall names lc gc lb open, wfNode names lc gc lb open k) -> groupsOf k = [] -> loopsOf k = [] ->
  setSem k test chars ->
  keeps false (RegexNode.AltNode ks) (if RadixTree.isNil e then k else RegexNode.AltNode [k]).
Proof.
  intros ks Hlen Hs Hne Ht Hc Hw Hg Hl Hk. pose proof (words_plain fold words e) as [Gk Lk]. fold ks in Gk, Lk. split_and!.
  - intros names cs st Hcs. rewrite (sem_alt cs names false ks st Hlen). unfold ks. rewrite altOf_app.
    transitivity (sem cs names false k st ++ (if RadixTree.isNil e then [] else [st])).
    + destruct (RadixTree.isNil e); [by rewrite app_nil_r|done].
    + rewrite Hk by done. symmetry. apply obs_app; [by apply words_set|apply altOf_empties].
  - intros names lc gc open _. destruct (RadixTree.isNil e); [done|]. split; [done|]. by split.
  - cbn [groupsOf]. rewrite Gk. destruct (RadixTree.isNil e); [done|]. cbn. by rewrite Hg.
  - cbn [loopsOf]. rewrite Lk. destruct (RadixTree.isNil e); [done|]. cbn. by rewrite Hl.
Qed.

Lemma empties_keep {A} lb (e : list A) : (1 < length (map (fun _ => RegexNode.EmptyNode) e))%nat ->
  keeps lb (RegexNode.AltNode (map (fun _ => RegexNode.EmptyNode) e)) RegexNode.EmptyNode.
Proof.
  intros Hl. destruct (words_plain false [] e) as [Gk Lk]. cbn [map app] in Gk, Lk. split_and!; [|done|by cbn [groupsOf]; rewrite Gk|by cbn [loopsOf]; rewrite Lk].
  intros names cs st _. rewrite (sem_alt cs names lb _ st Hl). symmetry. etransitivity; [apply altOf_empties|].
  by destruct e; [cbn in Hl; lia|].
Qed.

(** The two kinds of nodes: a test of one code point, and a set of strings. *)
Lemma strings_none cs lb n st : strings cs lb (fun _ => false) n st = [].
Proof. by induction n. Qed.

Lemma test_setSem x k t : nodeTests x t -> toNode x = Some k -> setSem k (fun _ => false) t.
Proof.
  intros (k' & Ek & _ & _ & _ & _ & _ & Hs) Ek'. rewrite Ek in Ek'. injection Ek' as <-. intros names cs st Hcs.
  by rewrite strings_none, Hs.
Qed.

Lemma strSet_node radix fold chars t :
  RadixTree.empty radix = false -> RadixTree.wf radix -> (forall s q, RadixTree.maps radix s q -> isString s) ->
  match chars with Some x => nodeTests x t | None => forall c, t c = false end ->
  exists k, toNode (LStrSet emojiNone radix chars fold) = Some k /\
    (forall names lc gc lb open, wfNode names lc gc lb open k) /\ groupsOf k = [] /\ loopsOf k = [] /\
    setSem k (strTest emojiNone radix fold) t.
Proof.
  intros He Hw Hs Ht. destruct chars as [x|].
  - destruct Ht as (kx & Ek & _ & Hwk & _ & _ & Hk & Hsem). eexists. cbn [toNode]. rewrite Ek. split; [done|].
    split_and!; [intros; cbn [wfNode]; by split_and!|done|done|]. intros names cs st Hcs. cbn [sem]. by rewrite Hsem.
  - eexists. split; [done|]. split_and!; [intros; cbn [wfNode]; by split_and!|done|done|]. intros names cs st Hcs. cbn [sem]. f_equal.
    unfold testChar. destruct (curChar cs st) as [c|]; [|done]. by rewrite Ht.
Qed.

Lemma charTest_codes fold codes d : existsb (fun c => charTest fold c d) codes = true <-> fold_ fold d ∈ codes.
Proof.
  rewrite existsb_exists. split.
  - intros (c & Hc & ->%Z.eqb_eq). by apply list_elem_of_In.
  - intros Hd. exists (fold_ fold d). split; [by apply list_elem_of_In|apply Z.eqb_refl].
Qed.

(** What the class is, when the alternatives are those of [items]. *)
Lemma strAlt_set fold strings s items words codes n :
  Forall (itemOk fold) items -> existsb isItemEmpty items = false -> words = map itemWord items -> codes = flat_map itemCodes items ->
  buildsStrings fold s (fun d => existsb (Z.eqb d) codes) (seqWords items) ->
  RadixTree.empty (radix s) = negb (existsb isItemSeq items) ->
  (RadixTree.empty (radix s) = false -> strings = true) -> StronglySorted shorter words ->
  finishClass (modifierOf fold) false strings s = Some n -> 
  forall e : list Lowered, emptySeq s = negb (RadixTree.isNil e) ->
  (1 < length (map (wordNode fold) words ++ map (fun _ => RegexNode.EmptyNode) e))%nat ->
  loweredOk n = true /\ exists k, toNode n = Some k /\
    keeps false (RegexNode.AltNode (map (wordNode fold) words ++ map (fun _ => RegexNode.EmptyNode) e)) k.
Proof.
  intros Hit Hne -> -> Hb Hr Hstr Hsort En e Hq Hlen. set (words := map itemWord items) in *. set (codes := flat_map itemCodes items) in *.
  destruct (items_words fold items Hit Hne) as (W1 & W2 & W3). fold words in W1, W2, W3. fold codes in W1.
  destruct (finish_strings fold strings s _ _ Hb Hstr) as (n' & En' & Hok & Hset & Hnone). rewrite En in En'. injection En' as <-.
  split; [done|]. pose proof (items_folded fold _ Hit) as Hfold. fold codes in Hfold.
  assert (forall c, matches (modifierOf fold) (fun d => existsb (Z.eqb d) codes) c = true <-> [fold_ fold c] ∈ words) as Hchars.
  { intros c. by rewrite matches_codes, charTest_codes, W1 by done. }
  assert (Forall (fun w => w <> []) words) as Hwne by (eapply Forall_impl; [exact W3|]; by intros w [? _]).
  assert (forall k0 test, (forall xs, RegexText.codePoints xs -> test xs = true <-> (2 <= length xs)%nat /\ map (fold_ fold) xs ∈ words) ->
    forall x, toNode x = Some k0 -> (forall names lc gc lb open, wfNode names lc gc lb open k0) -> groupsOf k0 = [] -> loopsOf k0 = [] ->
    setSem k0 test (matches (modifierOf fold) (fun d => existsb (Z.eqb d) codes)) -> n = optionalOf (emptySeq s) x ->
    exists k, toNode n = Some k /\ keeps false (RegexNode.AltNode (map (wordNode fold) words ++ map (fun _ => RegexNode.EmptyNode) e)) k) as Hfin.
  { intros k0 test Ht x Ex Hw Hg Hl Hsem ->. exists (if RadixTree.isNil e then k0 else RegexNode.AltNode [k0]).
    split; [rewrite Hq; destruct e; cbn; by rewrite Ex|].
    by apply (strAlt_keeps fold words e k0 test (matches (modifierOf fold) (fun d => existsb (Z.eqb d) codes)) Hlen Hsort Hwne Ht). }
  destruct (RadixTree.empty (radix s)) eqn:Er.
  - symmetry in Hr. apply negb_true_iff in Hr. assert (seqWords items = []) as Esw.
    { clear -Hr. induction items as [|[] items IH]; cbn in *; try done; by apply IH. }
    destruct (Hnone eq_refl) as [(Es & -> & Hno)|(x & Ex & Hx)].
    + exists RegexNode.EmptyNode. split; [done|]. assert (words = []) as Ew; [|rewrite Ew in Hlen |- *; by apply empties_keep].
      destruct words as [|w ws] eqn:Ew; [done|]. exfalso. apply Forall_cons in Hwne as [Hw _].
      assert (~ (2 <= length w)%nat) as Hl by (intros Hl; assert (w ∈ seqWords items) as Hin by (apply W2; split; [by left|done]); rewrite Esw in Hin; by apply not_elem_of_nil in Hin).
      destruct w as [|c [|d w]]; [done| |cbn in Hl; lia]. assert (c ∈ codes) as Hc by (apply W1; by left).
      assert (fold_ fold c = c) as Ef.
      { rewrite Forall_forall in Hfold. unfold fold_. destruct fold; [by apply Hfold|done]. }
      specialize (Hno c). apply not_true_iff_false in Hno. apply Hno, Hchars. rewrite Ef. by left.
    + pose proof Hx as (k & Ek & _ & Hw & Hg & Hl & _). eapply (Hfin k (fun _ => false)); try done; [|by eapply test_setSem].
      intros xs _. split; [done|]. intros [Hl2 Hin]. assert (map (fold_ fold) xs ∈ seqWords items) as Hx' by (apply W2; by rewrite length_map).
      rewrite Esw in Hx'. by apply not_elem_of_nil in Hx'.
  - destruct (Hset eq_refl) as (chars & Ex & Hch). destruct Hb as (_ & Hwf & _ & _ & Hm). rewrite Forall_forall in W3.
    assert (forall x q, RadixTree.maps (radix s) x q -> isString x) as Hstrs.
    { intros x q Hx. destruct (proj1 (Hm x) (ex_intro _ q Hx)) as (w & [Hin Hl]%W2 & ->). destruct (W3 w Hin) as (_ & Hcp & Hz).
      exists w. split_and!; [done|done|unfold zlen; lia|done]. }
    destruct (strSet_node (radix s) fold chars _ Er Hwf Hstrs Hch) as (k & Ek & Hw & Hg & Hl & Hsem).
    eapply (Hfin k (strTest emojiNone (radix s) fold)); try done. intros xs Hxs.
    unfold strTest. rewrite (RegexStrings.inStrSet_maps _ Hwf), Hm.
    change (flat_map codePointToUtf8 ?l) with (RegexText.encodes l). split.
    + intros (w & [Hin Hl2]%W2 & E). apply RegexText.encodes_inj in E as <-; [|by apply RegexStrings.foldings_codePoints|by apply W3].
      by rewrite length_map in Hl2.
    + intros [Hl2 Hin]. exists (map (fold_ fold) xs). split; [|done]. apply W2. by rewrite length_map.
Qed.

Lemma strAlt_spec l ks : mapM toNode l = Some ks -> forallb loweredOk l = true ->
  exists o, strAlt mode l = Some o /\ forall n', o = Some n' -> loweredOk n' = true /\
    exists k', toNode n' = Some k' /\ keeps false (RegexNode.AltNode ks) k'.
Proof.
  intros Hks Hok. unfold strAlt.
  destruct ((zlen l <=? 1) || _) eqn:Ec; [exists None; split; done|].
  apply orb_false_iff in Ec as [Hlen Hstr%negb_false_iff].
  destruct (strings_of_one_kind l Hok Hstr) as (fold & t & e & El & Ht & He & Hfirst).
  assert (Forall (fun n => stringOf fold n = true \/ n = LEmpty) l) as Hkind.
  { rewrite El. apply Forall_app. split; (eapply Forall_impl; [eassumption|]); intros n ?; [by left|by right]. }
  destruct (strings_items fold l Hkind Hok) as (items & Eitems & Hitems & Halt).
  destruct (checkOrder_total fold l items Halt ∅) as [ordered Eord]. rewrite Eord. cbn [mbind option_bind].
  destruct ordered; [|exists None; split; done].
  destruct (head l) as [first|] eqn:Eh; [|destruct l; [unfold zlen in Hlen; done|done]].
  cbn [mbind option_bind]. rewrite (Hfirst _ eq_refl), has_modifierOf, Eitems. cbn [mbind option_bind].
  destruct (generateItems_spec fold items Hitems (newStrSetBuilder fold) _ _ (newStrings_builds fold)) as (s & -> & Hs & Hq & Hr).
  cbn [mbind option_bind]. set (strings := existsb (fun i => match i with ItemChar _ _ => false | _ => true end) items).
  change (RadixTree.empty (radix (newStrSetBuilder fold))) with true in Hr. change (emptySeq (newStrSetBuilder fold)) with false in Hq.
  cbn [andb orb app] in Hr, Hq, Hs.
  assert (RadixTree.empty (radix s) = false -> strings = true) as Hstrings.
  { rewrite Hr. intros E%negb_false_iff%existsb_exists. destruct E as (it & Hin & E). apply existsb_exists. exists it. by destruct it. }
  destruct (finish_strings fold strings s _ _ Hs Hstrings) as (n & En & _). rewrite En.
  exists (Some n). split; [done|]. intros n' [= <-].
  rewrite El in Hks, Halt, Eord. apply Forall2_app_inv_l in Halt as (it & ie & Hit & Hie & ->).
  destruct (words_nodes fold t it Hit) as (Ekt & Eet & Hsp).
  { eapply Forall_impl; [exact Ht|]. intros x. apply string_not_empty. }
  destruct (empties_nodes fold e ie Hie He) as (Eke & Ece & Ewe & Eee & Ese). pose proof (mapM_app_Some _ _ _ _ _ Ekt Eke) as Eks.
  rewrite Eks in Hks. injection Hks as <-. apply Forall_app in Hitems as [Hitems _].
  rewrite existsb_app, Eet, Eee in Hq. rewrite existsb_app, Ese, orb_false_r in Hr.
  assert (seqWords (it ++ ie) = seqWords it) as Esw by (unfold seqWords in *; by rewrite flat_map_app, Ewe, app_nil_r).
  rewrite flat_map_app, Ece, app_nil_r, Esw in Hs.
  eapply (strAlt_set fold strings s it); try done; [by eapply checkOrder_sorted|].
  pose proof (length_mapM _ _ _ Eks) as E. rewrite <- E, <- El. unfold zlen in Hlen. lia.
Qed.

(** The pass does not fail an assertion, its result has a node, which keeps the meaning. *)
Lemma mapM_optimize fwd l :
  Forall (fun n => forall k, toNode n = Some k -> loweredOk n = true -> exists n' k', optimizeStrAlt mode fwd n = Some n' /\
    loweredOk n' = true /\ toNode n' = Some k' /\ keeps (negb fwd) k k') l ->
  forall ks, mapM toNode l = Some ks -> forallb loweredOk l = true ->
  exists l' ks', mapM (optimizeStrAlt mode fwd) l = Some l' /\ forallb loweredOk l' = true /\ length l' = length l /\
    mapM toNode l' = Some ks' /\ Forall2 (keeps (negb fwd)) ks ks'.
Proof.
  induction 1 as [|n l Hn _ IH]; intros ks Hk Hok.
  { exists [], []. split_and!; try done. cbn in Hk. by injection Hk as <-. }
  apply mapM_cons_Some in Hk as (k & ks0 & -> & Ek & Eks). cbn in Hok. apply andb_true_iff in Hok as [Ho Hok].
  destruct (Hn k Ek Ho) as (n' & k' & En & Hno & Ek' & Hkn), (IH ks0 Eks Hok) as (l' & ks' & El & Hlo & Hlen & Eks' & Hkl).
  exists (n' :: l'), (k' :: ks'). split_and!; [by cbn; rewrite En, El|by cbn; rewrite Hno, Hlo|by cbn; rewrite Hlen| |by constructor].
  cbn. by rewrite Ek', Eks'.
Qed.

Lemma optimizeStrAlt_spec n : forall fwd k, toNode n = Some k -> loweredOk n = true ->
  exists n' k', optimizeStrAlt mode fwd n = Some n' /\ loweredOk n' = true /\ toNode n' = Some k' /\ keeps (negb fwd) k k'.
Proof.
  induction n as [|m|c|t m|nm i ic|q p IH|l IH|l IH|t p IH|i p IH|c|s i ic|e r c ic|] using Lowered_nested_ind;
    intros [|] k Hk Hok; cbn [optimizeStrAlt negb];
    try (match type of Hk with toNode ?x = _ => exists x, k; done end).
  - cbn in Hk, Hok. destruct (toNode p) as [k0|] eqn:E; [|done]. injection Hk as <-.
    destruct (IH true k0 eq_refl Hok) as (n' & k' & -> & Hn & Ek & Hk). exists (LRepeat q n'), (RegexNode.RepeatNode q k').
    split_and!; [done|done|cbn; by rewrite Ek|by apply keeps_repeat].
  - cbn in Hk. destruct (mapM toNode l) as [ks|] eqn:E; [|done]. injection Hk as <-. cbn [loweredOk] in Hok.
    apply andb_true_iff in Hok as [Hlen Hok].
    destruct (mapM_optimize true l) with (ks := ks) as (l' & ks' & El & Hlo & Hll & Ek & Hkl); [|done|done|].
    { eapply Forall_impl; [exact IH|]. intros x Hx. apply Hx. }
    exists (LSeq l'), (RegexNode.SeqNode ks'). split_and!; [cbn; by rewrite El| |cbn; by rewrite Ek|by apply keeps_seq].
    cbn [loweredOk]. unfold zlen in *. by rewrite Hll, Hlen, Hlo.
  - cbn in Hk. destruct (mapM toNode l) as [ks|] eqn:E; [|done]. injection Hk as <-. cbn [loweredOk] in Hok.
    destruct (strAlt_spec l ks E Hok) as (o & -> & Ho). cbn [mbind option_bind]. destruct o as [n'|].
    { destruct (Ho n' eq_refl) as (Hn & k' & Ek & Hk). by exists n', k'. }
    destruct (mapM_optimize true l) with (ks := ks) as (l' & ks' & El & Hlo & Hll & Ek & Hkl); [|done|done|].
    { eapply Forall_impl; [exact IH|]. intros x Hx. apply Hx. }
    exists (LAlt l'), (RegexNode.AltNode ks'). split_and!; [cbn; by rewrite El|done|cbn; by rewrite Ek|by apply keeps_alt].
  - cbn in Hk, Hok. destruct (toNode p) as [k0|] eqn:E; [|done]. injection Hk as <-.
    destruct (IH (isLookAhead t) k0 eq_refl Hok) as (n' & k' & -> & Hn & Ek & Hk). exists (LLookAround t n'), (RegexNode.LookAroundNode t k').
    split_and!; [done|done|cbn; by rewrite Ek|by apply keeps_look].
  - cbn in Hk, Hok. destruct (toNode p) as [k0|] eqn:E; [|done]. injection Hk as <-.
    destruct (IH true k0 eq_refl Hok) as (n' & k' & -> & Hn & Ek & Hk). exists (LGroup i n'), (RegexNode.GroupNode CAPTURE i k').
    split_and!; [done|done|cbn; by rewrite Ek|by apply keeps_group].
Qed.

(** ** Long strings *)

Lemma mapM_charOf codes : mapM charOfLowered (map LChar codes) = Some (map (pair false) codes).
Proof. apply mapM_Some. induction codes as [|c codes IH]; cbn; by constructor. Qed.

Lemma codesOk_plain codes : Forall (fun c => isCodePoint c = true) codes -> codesOk false (map (pair false) codes).
Proof. intros Hc. apply Forall_map. eapply Forall_impl; [exact Hc|]. intros c Hcc. by split_and!. Qed.

Lemma add_too_large t seq : RadixTree.MAX_STRING_SIZE < zlen seq -> RadixTree.add t seq 1 = Some (t, RadixTree.TOO_LARGE).
Proof.
  intros Hl. unfold RadixTree.add. destruct seq as [|c seq]; [by vm_compute in Hl|]. cbn [RadixTree.isNil Z.eqb].
  by replace (RadixTree.MAX_STRING_SIZE <? zlen (c :: seq)) with true by lia.
Qed.

Lemma long_string_core codes b :
  Forall (fun c => isCodePoint c = true) codes -> RadixTree.MAX_STRING_SIZE < zlen codes -> isCodePoint b = true ->
  exists n k, optimize mode (LAlt [LSeq (map LChar codes); LChar b]) = Some n /\ toNode n = Some k /\
    forall cs names lb st, textOk cs -> sem cs names lb k st ≈ testChar cs lb (fun d => d =? b) st.
Proof.
  intros Hc Hlen Hb. unfold optimize. cbn [optimizeStrAlt negb]. unfold strAlt.
  assert (forallb isCharSeq [LSeq (map LChar codes); LChar b] = true) as Hstr.
  { cbn. rewrite forallb_map, andb_true_r. apply forallb_forall. done. }
  change (rev (dropEmpty (rev [LSeq (map LChar codes); LChar b]))) with [LSeq (map LChar codes); LChar b].
  rewrite Hstr. cbn [orb negb zlen]. change (zlen [LSeq (map LChar codes); LChar b] <=? 1) with false. cbn [orb].
  destruct codes as [|c r]; [by vm_compute in Hlen|].
  assert (checkOrder [LSeq (map LChar (c :: r)); LChar b] ∅ = Some true) as ->.
  { cbn [map checkOrder isLEmpty prefixCode charOfLowered mbind option_bind]. rewrite lookup_empty.
    destruct (decide (b = c)) as [->|Hne]; [|by rewrite lookup_insert_ne by done].
    rewrite lookup_insert_eq. pose proof (zlen_nonneg (map LChar r)). by rewrite (proj2 (Z.leb_le _ _)) by lia. }
  set (codes := c :: r) in *. cbn [mbind option_bind head].
  replace (isFoldCharSeq (LSeq (map LChar codes))) with false by done.
  cbn [mapM itemOfLowered]. rewrite mapM_charOf. cbn [fmap option_fmap option_map mbind option_bind mret option_ret].
  cbn [generateItems]. assert (zlen (map (pair false) codes) = zlen codes) as Ez by (unfold zlen; by rewrite length_map).
  rewrite Ez. replace (zlen codes <=? 1) with false by (assert (1 < RadixTree.MAX_STRING_SIZE) by done; lia).
  pose proof (words_size false _ (codesOk_plain _ Hc)) as Hu. rewrite Ez in Hu.
  unfold addString, inEmoji. change (hasEmoji _) with false. cbn [mbind option_bind]. unfold radixAdd.
  change RegexSyntax.NONE with (modifierOf false). rewrite (utf8_words false _ (codesOk_plain _ Hc)), add_too_large by lia. cbn [mbind option_bind].
  rewrite generateChar_add by done. set (s := addCodePoint _ b).
  destruct (finish_strings false true s (fun d => false || (d =? b)) []) as (n & En & Hok & _ & Hset); [|done|].
  { destruct (newStrings_builds false) as [? ?]. split; [by apply isSet_add|done]. }
  cbn [existsb orb]. rewrite En. cbn [fmap option_fmap option_map mbind option_bind].
  destruct (Hset eq_refl) as [(? & _)|(x & -> & Hx)]; [done|]. cbn [optionalOf emptySeq s] in *.
  destruct Hx as (k & Ek & _ & _ & _ & _ & _ & Hs).
  destruct (optimizeFoldChar_keeps x k Ek Hok) as (k' & Ek' & Hk). exists (optimizeFoldChar x), k'.
  split_and!; [done|done|]. intros cs names lb st Hcs. transitivity (sem cs names lb k st); [by apply Hk|].
  rewrite Hs by done. by rewrite (testChar_ext cs lb _ (fun d => d =? b)).
Qed.
End opt.

End RegexLowerOpt.
