(* ===== verification/RegexLowerCorrect.v ===== *)
(** The regular expression engine as a whole: a pattern is parsed, lowered, optimized,
    compiled and run, and the machine reports what ECMAScript's reading of the syntax
    tree says. *)
From S2P Require Import Prelude Unicode StringRef CodePointSet RegexMatcher SetBuilder RadixTree RadixPacked.
From S2P Require Import RegexNode RegexInput RegexText RegexSpec RegexInst RegexPrefilter RegexEmit RegexVM RegexSim RegexCorrect.
From S2P Require Import RegexSyntax RegexParser RegexEscape RegexScan RegexParserInv RegexParserTotal.
From S2P Require Import RegexStrSet RegexLowering RegexSource RegexLowerClass RegexLowerSim RegexLowerVisit RegexLowerOpt.

Module RegexLowerCorrect.
Import UnicodeUtil RegexMatcher SetBuilder RegexNode RegexInput RegexText RegexSpec RegexInst RegexEmit RegexVM RegexSim RegexCorrect.
Import RegexStrSet RegexLowering RegexSource RegexLowerClass RegexLowerSim RegexLowerVisit RegexLowerOpt.

Abbreviation upto := RegexParserInv.upto.

(** The patterns the theorems are about, as a test of a tree: no classes of strings, no
    grapheme clusters, and what the code generator takes. *)
Definition sourceOk (tree : RegexSyntax.SyntaxTree) (p : RegexSyntax.Node) : bool :=
  let names := RegexSyntax.namedCaptureGroups tree in
  let count := RegexSyntax.captureGroupCount tree in
  lowerable (RegexSyntax.mode (RegexSyntax.flag tree)) names count false [] p &&
  emittable (RegexSyntax.loopCount tree) p &&
  forallb (fun e => forallb (Z.leb 0) (entryIndices (snd e))) names.

(** The numbers of the parser. *)
Definition numbered (tree : RegexSyntax.SyntaxTree) (p : RegexSyntax.Node) : Prop :=
  groups p = upto 1 (RegexSyntax.captureGroupCount tree) /\ loops p = upto 0 (RegexSyntax.loopCount tree) /\
  0 <= RegexSyntax.captureGroupCount tree <= UINT16_MAX /\ 0 <= RegexSyntax.loopCount tree.

(** The tree of the code generator. *)
Definition loweredTree (tree : RegexSyntax.SyntaxTree) (k : Node) : SyntaxTree :=
  {| loopCount := RegexSyntax.loopCount tree; captureGroupCount := RegexSyntax.captureGroupCount tree;
     pattern := k; namedCaptureGroups := RegexSyntax.namedCaptureGroups tree |}.

Lemma upto_nat first count : 0 <= first -> map Z.to_nat (upto first count) = seq (Z.to_nat first) (Z.to_nat count).
Proof.
  intros Hf. unfold upto. replace (seq (Z.to_nat first)) with (seq (Z.to_nat first + 0)) by (f_equal; lia).
  rewrite <- fmap_add_seq, map_map. apply map_ext. intros i. lia.
Qed.

Lemma elem_upto first count i : i ∈ upto first count <-> first <= i < first + Z.max 0 count.
Proof.
  unfold upto. rewrite list_elem_of_fmap. split.
  - intros (k & -> & Hk%elem_of_seq). lia.
  - intros Hi. exists (Z.to_nat (i - first)). rewrite elem_of_seq. lia.
Qed.

Lemma NoDup_upto first count : NoDup (upto first count).
Proof. unfold upto. apply NoDup_fmap_2; [|apply NoDup_seq]. intros i j E. lia. Qed.

Lemma NoDup_submseteq_nat (l k : list nat) : l ⊆+ k -> NoDup k -> NoDup l.
Proof.
  intros Hs Hk. apply submseteq_Permutation in Hs as [r Hp]. rewrite Hp in Hk. by apply NoDup_app in Hk as [? _].
Qed.

Section engine.
Context `{Ucd} `{!UcdLaws} `{!FoldIdem} `{Ucs} `{!UcsLaws}.

Definition sourceSem (tree : RegexSyntax.SyntaxTree) (cs : list Z) (p : RegexSyntax.Node) : St -> list St :=
  srcSem (RegexSyntax.mode (RegexSyntax.flag tree)) cs (RegexSyntax.namedCaptureGroups tree)
    (RegexSyntax.modifiers (RegexSyntax.flag tree)) false p.

(** No group is set. *)
Definition fresh_ (st : St) : Prop := forall i r, caps st !! i <> Some (Some r).

Lemma transform_core tree p : RegexSyntax.pattern tree = Some p -> sourceOk tree p = true -> numbered tree p ->
  exists n k, transform tree = Some n /\ toNode n = Some k /\ wfTree (loweredTree tree k) /\
    forall cs st, textOk cs -> fresh_ st ->
      sem cs (RegexSyntax.namedCaptureGroups tree) false k st ≈ sourceSem tree cs p st.
Proof.
  intros Hp Hok (Hg & Hl & Hgc & Hlc). unfold sourceOk in Hok. apply andb_true_iff in Hok as [Hok Hnames].
  apply andb_true_iff in Hok as [Hlow Hemit].
  set (mode := RegexSyntax.mode (RegexSyntax.flag tree)) in *. set (names := RegexSyntax.namedCaptureGroups tree) in *.
  set (count := RegexSyntax.captureGroupCount tree) in *.
  pose (r := replicate (Z.to_nat (count + 1)) NOT_OPENED).
  assert (ready (Z.to_nat (count + 1)) [] (groups p) r) as Hready.
  { split_and!.
    - rewrite Hg. apply NoDup_upto.
    - unfold fresh. rewrite Hg. apply Forall_forall. intros i Hi%elem_upto. split; [lia|].
      apply lookup_replicate_2. lia.
    - intros i. split; [|by intros ?%not_elem_of_nil]. intros E. apply lookup_replicate in E as [? _]. done.
    - apply length_replicate. }
  assert (forall cs, textOk cs -> lowers mode names (RegexSyntax.loopCount tree) count cs
    (RegexSyntax.modifiers (RegexSyntax.flag tree)) [] true p r) as Hlowers.
  { intros cs Hcs. by apply (visits_all mode names (RegexSyntax.loopCount tree) count cs Hcs p). }
  destruct (Hlowers [] ltac:(constructor)) as (n & r' & k & Ev & Ek & Hoc & _).
  destruct (Hoc Hemit) as (Hlo & W & G & L & _).
  destruct (optimizeStrAlt_spec mode n true k Ek Hlo) as (n1 & k1 & E1 & Ho1 & Ek1 & Hk1).
  destruct (optimizeFoldChar_keeps n1 k1 Ek1 Ho1) as (k2 & Ek2 & Hk2). exists (optimizeFoldChar n1), k2.
  split; [|split; [exact Ek2|]].
  { unfold transform. rewrite Hp. cbn [mbind option_bind]. fold mode names count r. rewrite Ev. cbn [mbind option_bind].
    unfold optimize. by rewrite E1. }
  assert (keeps false k k2) as (S & Wk & Gk & Lk) by (transitivity k1; [exact Hk1|by apply Hk2]).
  split.
  - unfold wfTree, loweredTree. cbn. fold names count. split_and!; try done; try lia.
    + by apply Wk.
    + rewrite Gk, G, Hg, upto_nat by lia. apply NoDup_seq.
    + rewrite Lk. eapply NoDup_submseteq_nat; [exact L|]. rewrite Hl, upto_nat by lia. apply NoDup_seq.
    + apply Forall_forall. intros e He. apply Forall_forall. intros i Hi. rewrite forallb_forall in Hnames.
      apply list_elem_of_In in He, Hi. specialize (Hnames e He). rewrite forallb_forall in Hnames. by apply Z.leb_le, Hnames.
  - intros cs st Hcs Hst. transitivity (sem cs names false k st); [by apply S|].
    destruct (Hlowers cs Hcs) as (n' & r2 & k' & Ev' & Ek' & _ & _ & Ha). rewrite Ev in Ev'. injection Ev' as <- <-.
    rewrite Ek in Ek'. injection Ek' as <-. apply Ha. intros i rg Hi. by destruct (Hst i rg).
Qed.
End engine.

(** ** The machine on a parsed pattern *)

Section parsed.
Context `{RegexEscape.UcpLaws} (ref : bytes) (flag : RegexSyntax.Flag) (extension : bool).
Context (Hbytes : Forall is_byte ref) (Hlen : zlen ref <= UINT32_MAX).

Lemma run_numbered t s p :
  RegexParser.run ref flag extension = Some (t, s) -> RegexSyntax.pattern t = Some p -> numbered t p.
Proof.
  intros E Hp. destruct (RegexParserTotal.run_tree ref flag extension Hbytes Hlen t s p E Hp) as [_ Hg Hl [Hc Hlc] _ _].
  split_and!; [done|done|apply Hc|apply Hc|apply Hlc].
Qed.
End parsed.

Section machine.
Context `{Ucd} `{!UcdLaws} `{!FoldIdem} `{Ucs} `{!UcsLaws} `{RegexEscape.UcpLaws}.

Abbreviation sourceSearch t cs p k :=
  (srcSearch (RegexSyntax.mode (RegexSyntax.flag t)) cs (RegexSyntax.namedCaptureGroups t)
    (RegexSyntax.modifiers (RegexSyntax.flag t)) p (RegexSyntax.captureGroupCount t) k).

(** What the reading of the syntax tree says a match from the [k]-th code point reports. *)
Definition SourceReports (re : Regex) (t : RegexSyntax.SyntaxTree) (p : RegexSyntax.Node) (cs : list Z) (k : nat)
    (status : MatchStatus) (ctx : MatchContext) : Prop :=
  match sourceSearch t cs p k with
  | Some (i, r) => status = OK /\ ctxCaptures ctx = capturesOf cs i r /\ validCtx re cs (pos r) ctx
  | None => status = FAIL /\ validCtx re cs (length cs) ctx
  end.

Lemma fresh_init count k : fresh_ (initSt count k).
Proof. intros i r E. cbn in E. apply lookup_replicate in E as [? _]. done. Qed.

Lemma search_source t p k cs j :
  (forall st, fresh_ st -> sem cs (RegexSyntax.namedCaptureGroups t) false k st ≈ sourceSem t cs p st) ->
  search cs (RegexSyntax.namedCaptureGroups t) k (RegexSyntax.captureGroupCount t) j = sourceSearch t cs p j.
Proof.
  intros Hs. unfold search, srcSearch. generalize (length cs - j)%nat as n. intros n. revert j.
  induction n as [|n IH]; intros j; cbn [searchFrom srcSearchFrom].
  all: pose proof (obs_head _ _ (Hs _ (fresh_init (RegexSyntax.captureGroupCount t) j))) as E; unfold sourceSem in E.
  all: destruct (sem _ _ _ _ _), (srcSem _ _ _ _ _ _ _); cbn in E; try done; injection E as ->; try done.
Qed.



(** An alternative of more than 32767 characters is lost: the radix tree refuses the
    string, nobody looks at the status, and the optimized alternation of the string and a
    character [b] matches [b] only. *)
Theorem long_string_dropped mode codes b :
  Forall (fun c => isCodePoint c = true) codes -> RadixTree.MAX_STRING_SIZE < zlen codes -> isCodePoint b = true ->
  exists n k, optimize mode (LAlt [LSeq (map LChar codes); LChar b]) = Some n /\ toNode n = Some k /\
    forall cs names lb st, textOk cs -> sem cs names lb k st ≈ testChar cs lb (fun d => d =? b) st.
Proof. apply long_string_core. Qed.
End machine.

(** ** Instances of the properties *)

Definition digitPoints : SetBuilder.Builder := @addRange asciiUcd emptyBuilder 48 57 false.

Definition setOf (b : SetBuilder.Builder) : CodePointSet.CodePointSetRef :=
  match build b with
  | Some (_, s) => s
  | None => {| CodePointSet.ptr := []; CodePointSet.bmpSize := 0; CodePointSet.packedNonBmpSize := 0; CodePointSet.size := 0 |}
  end.

Lemma digitPoints_set : @isSet digitPoints (fun c => (48 <=? c) && (c <=? 57)).
Proof.
  destruct (@addRange_spec asciiUcd asciiLaws emptyBuilder 48 57 false inv_empty) as [Hi Hm]; [by vm_compute|].
  split; [exact Hi|]. intros c. etransitivity; [apply Hm|]. unfold ranged. rewrite isCodePoint_spec. unfold SetBuilder.has. cbn.
  unfold CODE_POINT_MAX. rewrite andb_true_iff, !Z.leb_le. rewrite mem_nil. lia.
Qed.

Lemma digitSet_good : goodSet (setOf digitPoints).
Proof. unfold setOf. destruct (build_good _ _ digitPoints_set) as (s & -> & Hs & _). exact Hs. Qed.

(** Tables where every class is the digits. *)
#[export] Instance digitUcs : Ucs := {|
  getPropertySet _ := setOf digitPoints;
  ESRegexClassDigit := setOf digitPoints;
  ESRegexClassWord := setOf digitPoints;
  ESRegexClassExtendWord := setOf digitPoints;
  ESRegexClassSpace := setOf digitPoints
|}.

Lemma digitUcs_laws : @UcsLaws digitUcs.
Proof. split; intros; apply digitSet_good. Qed.

Lemma asciiFoldIdem : @FoldIdem asciiUcd.
Proof. intros c. cbn. repeat case_match; zbool; lia. Qed.

#[local] Existing Instance RegexParserTotal.sampleUcp.
#[local] Existing Instance RegexParserTotal.sampleLaws.

Definition examplePattern : bytes := lit "(a|b)+[^c-e]\d\1x?(?:no|yes|y)".

Lemma examplePattern_bytes : Forall is_byte examplePattern.
Proof. repeat constructor; vm_compute; discriminate. Qed.


Definition exampleLine : list Z := lit "xabb7bxyes".


Lemma long_string_dropped_witness :
  RadixTree.MAX_STRING_SIZE < zlen (replicate (Z.to_nat 32768) 97) /\
  exists n k, @optimize asciiUcd UNICODE (LAlt [LSeq (map LChar (replicate (Z.to_nat 32768) 97)); LChar 98]) = Some n /\
    toNode n = Some k /\
    forall cs names lb st, textOk cs -> @sem asciiUcd cs names lb k st ≈ testChar cs lb (fun d => d =? 98) st.
Proof.
  assert (RadixTree.MAX_STRING_SIZE < zlen (replicate (Z.to_nat 32768) 97)) as Hl.
  { unfold zlen. rewrite length_replicate, Z2Nat.id by lia. by vm_compute. }
  split; [exact Hl|].
  apply (@long_string_dropped asciiUcd asciiLaws asciiFoldIdem UNICODE);
    [|exact Hl|reflexivity]. apply Forall_forall. intros c Hc. apply elem_of_replicate in Hc as [-> _]. reflexivity.
Defined.

(** ** Where the lowering pass differs from ECMAScript *)

Definition optionalPattern : bytes := lit "(?:|a)?".

(** A greedy optional body without groups that can match nothing is lowered wrongly:
    for [(?:|a)?] on the text [a] ECMAScript rejects the empty iteration and matches [a],
    and the alternation that the body becomes matches the empty string. *)
Theorem optional_empty_body :
  exists t s p n k, RegexParser.run optionalPattern RegexParserTotal.sampleFlag true = Some (t, s) /\
    RegexSyntax.pattern t = Some p /\ @transform asciiUcd digitUcs t = Some n /\ toNode n = Some k /\
    @srcSearch asciiUcd digitUcs (RegexSyntax.mode (RegexSyntax.flag t)) [97] (RegexSyntax.namedCaptureGroups t)
      (RegexSyntax.modifiers (RegexSyntax.flag t)) p 0 0 = Some (0%nat, {| pos := 1; caps := [None] |}) /\
    @search asciiUcd [97] (RegexSyntax.namedCaptureGroups t) k 0 0 = Some (0%nat, {| pos := 0; caps := [None] |}).
Proof.
  eexists _, _, _, _, _. split; [vm_compute; reflexivity|]. split; [reflexivity|]. split; [vm_compute; reflexivity|].
  split; [reflexivity|]. split; reflexivity.
Qed.

End RegexLowerCorrect.
