(* ===== verification/RegexApi.v ===== *)
(** The operations of the regular expression library (src/regex/regex.cpp):
    replacement with its pattern language, splitting, matching all, and the
    escaping of a literal. *)
From S2P Require Import Prelude NumUtil Unicode StringRef RegexMatcher RegexNode RegexInput.
From S2P Require Import RegexInst RegexVM.

Module RegexApi.
Import NumUtil UnicodeUtil RegexMatcher RegexNode RegexInput RegexInst RegexVM.

Section api.
(** The caller's consumer with its state: [false] stops the operation. *)
Context {X : Type}.
Context (re : Regex).
(** [match(regex, ctx, timer)]; [None] when it does not return. *)
Context (doMatch : MatchContext -> option (MatchStatus * MatchContext)).

(** The text and the pattern of [ReplaceParam], and the message of [err]. *)
Record ReplaceParam := { rpText : bytes; replacement : bytes; global : bool }.

Context (consumer : X -> bytes -> bool * X).

(** The status, the state of the consumer, the message. *)
Definition Reply : Type := MatchStatus * X * bytes.

(** The TRY macro of the file. *)
Definition tryConsume (x : X) (s : bytes) (k : X -> Reply) : Reply :=
  match consumer x s with
  | (true, x') => k x'
  | (false, x') => (CONSUMED_LIMIT, x', [])
  end.

(** What follows a [$]: the text to insert and the next position, or the message. *)
Definition captureSub (t : bytes) (c : Capture) : bytes :=
  if isUnset c then [] else StringRef.substr t (cap_offset c) (cap_size c).

(** The end of the digits from [pos]. *)
Fixpoint skipDecimal (rest : bytes) (pos : Z) : Z :=
  match rest with
  | ch :: rest' => if isDecimal ch then skipDecimal rest' (pos + 1) else pos
  | [] => pos
  end.

Definition groupNumber (p : ReplaceParam) (caps : list Capture) (startPos : Z)
    : bytes + bytes * Z :=
  let retPos := skipDecimal (drop (Z.to_nat (startPos + 1)) (replacement p)) (startPos + 1) in
  let num := StringRef.slice (replacement p) startPos retPos in
  let r := convertToNum10 32 num in
  if bool_decide (kind r = NumUtil.OK) && (value r <=? regexCaptureGroupCount re) && (0 <? value r)
  then match at_ caps (value r) with
       | Some c => inr (captureSub (rpText p) c, retPos)
       | None => inr ([], retPos)
       end
  else inl (lit "undefined capture group index: `" ++ num ++ lit "'").

Definition groupName (p : ReplaceParam) (caps : list Capture) (retPos : Z) : bytes + bytes * Z :=
  let q := StringRef.findChar (replacement p) 62 retPos in
  if q =? StringRef.npos then inl (lit "replace pattern `$<' must end with `>'")
  else
    let name := StringRef.slice (replacement p) retPos q in
    match find (named re) name with
    | Some e =>
        match findValidNamedCapture e caps with
        | Some c => inr (captureSub (rpText p) c, q + 1)
        | None => inr ([], q + 1)
        end
    | None => inl (lit "undefined capture group name: `" ++ name ++ lit "'")
    end.

(** The switch on the character at [retPos]; [capture0] is the whole match. *)
Definition interpretDollar (p : ReplaceParam) (caps : list Capture) (capture0 : Capture)
    (retPos : Z) : bytes + bytes * Z :=
  let ch := nth (Z.to_nat retPos) (replacement p) 0 in
  if ch =? 36 then inr (lit "$", retPos + 1)
  else if ch =? 38
  then inr (StringRef.substr (rpText p) (cap_offset capture0) (cap_size capture0), retPos + 1)
  else if ch =? 96 then inr (StringRef.substr (rpText p) 0 (cap_offset capture0), retPos + 1)
  else if ch =? 39
  then inr (StringRef.substr (rpText p) (endOffset capture0) StringRef.npos, retPos + 1)
  else if isDecimal ch then groupNumber p caps retPos
  else if ch =? 60 then groupName p caps (retPos + 1)
  else inl (lit "invalid replace pattern: `$'").

(** Each round passes a [$], so the length of the pattern bounds the rounds. *)
Fixpoint interpretLoop (fuel : nat) (p : ReplaceParam) (caps : list Capture)
    (capture0 : Capture) (x : X) (pos : Z) : option Reply :=
  match fuel with
  | O => None
  | S fuel' =>
      let retPos := StringRef.findChar (replacement p) 36 pos in
      match consumer x (StringRef.slice (replacement p) pos retPos) with
      | (false, x) => Some (CONSUMED_LIMIT, x, [])
      | (true, x) =>
          if retPos =? StringRef.npos then Some (OK, x, [])
          else
            let retPos := retPos + 1 in
            if retPos =? zlen (replacement p)
            then Some (INVALID_REPLACE_PATTERN, x, lit "invalid replace pattern: `$'")
            else
              match interpretDollar p caps capture0 retPos with
              | inl message => Some (INVALID_REPLACE_PATTERN, x, message)
              | inr (inserting, retPos) =>
                  match consumer x inserting with
                  | (false, x) => Some (CONSUMED_LIMIT, x, [])
                  | (true, x) => interpretLoop fuel' p caps capture0 x retPos
                  end
              end
      end
  end.

Definition interpretReplacePattern (p : ReplaceParam) (ctx : MatchContext) (x : X) : option Reply :=
  capture0 ← at_ (ctxCaptures ctx) 0;
  interpretLoop (S (length (replacement p))) p (ctxCaptures ctx) capture0 x 0.

Definition setCtxInput (ctx : MatchContext) (i : Input) : MatchContext :=
  {| ctxInput := i; ctxGroupCount := ctxGroupCount ctx; prefilter := prefilter ctx;
     ctxCaptures := ctxCaptures ctx; ctxLoops := ctxLoops ctx |}.

(** [input.consumeForward()] on the context: the text passed over too. *)
Definition passOne (ctx : MatchContext) : bytes * MatchContext :=
  let i := ctxInput ctx in
  let i' := snd (consumeForward i) in
  (StringRef.slice (text i) (iter i) (iter i'), setCtxInput ctx i').

(** *** replace

    A round of the [do] loop: the reply when it returns, or the consumer's state,
    the context, and whether the loop goes on. *)
Definition replaceRound (p : ReplaceParam) (ctx : MatchContext) (x : X)
    : option (Reply + X * MatchContext * bool) :=
  let matchStartOffset := getOffset (ctxInput ctx) in
  '(s, ctx1) ← doMatch ctx;
  match s with
  | FAIL => Some (inr (x, setCtxInput ctx1 (setIter (ctxInput ctx1) matchStartOffset), false))
  | OK =>
      capture0 ← at_ (ctxCaptures ctx1) 0;
      match consumer x (StringRef.slice (rpText p) matchStartOffset (cap_offset capture0)) with
      | (false, x) => Some (inl (CONSUMED_LIMIT, x, []))
      | (true, x) =>
          '(s2, x, message) ← interpretReplacePattern p ctx1 x;
          match s2 with
          | OK =>
              let input := ctxInput ctx1 in
              if available input && (matchStartOffset =? getOffset input) then
                let '(passed, ctx2) := passOne ctx1 in
                match consumer x passed with
                | (false, x) => Some (inl (CONSUMED_LIMIT, x, []))
                | (true, x) =>
                    Some (inr (x, ctx2,
                      global p && negb (getOffset (ctxInput ctx2) =? matchStartOffset)))
                end
              else
                Some (inr (x, ctx1, global p && negb (getOffset input =? matchStartOffset)))
          | _ => Some (inl (s2, x, message))
          end
      end
  | _ => Some (inl (s, x, []))
  end.

Fixpoint replaceLoop (fuel : nat) (p : ReplaceParam) (ctx : MatchContext) (x : X) : option Reply :=
  match fuel with
  | O => None
  | S fuel' =>
      r ← replaceRound p ctx x;
      match r with
      | inl reply => Some reply
      | inr (x, ctx, true) => replaceLoop fuel' p ctx x
      | inr (x, ctx, false) =>
          Some (tryConsume x (remainForward (ctxInput ctx)) (fun x => (OK, x, [])))
      end
  end.

(** One round more than the bytes of the text. *)
Definition replace (p : ReplaceParam) (x : X) : option Reply :=
  match tryToCreateMatchContext re (rpText p) 0 [] with
  | inl e => Some (e, x, [])
  | inr ctx => replaceLoop (S (S (length (rpText p)))) p ctx x
  end.

(** *** split *)

Fixpoint splitLoop (n : nat) (t : bytes) (ctx : MatchContext) (x : X) : option Reply :=
  let finish ctx x := tryConsume x (remainForward (ctxInput ctx)) (fun x => (OK, x, [])) in
  match n with
  | O => Some (finish ctx x)
  | S n' =>
      let matchStartOffset := getOffset (ctxInput ctx) in
      '(s, ctx1) ← doMatch ctx;
      match s with
      | FAIL => Some (finish (setCtxInput ctx1 (setIter (ctxInput ctx1) matchStartOffset)) x)
      | OK =>
          let input := ctxInput ctx1 in
          if negb (matchStartOffset =? getOffset input) then
            capture0 ← at_ (ctxCaptures ctx1) 0;
            match consumer x (StringRef.slice t matchStartOffset (cap_offset capture0)) with
            | (false, x) => Some (CONSUMED_LIMIT, x, [])
            | (true, x) => splitLoop n' t ctx1 x
            end
          else if available input then
            let '(passed, ctx2) := passOne ctx1 in
            match consumer x passed with
            | (false, x) => Some (CONSUMED_LIMIT, x, [])
            | (true, x) => splitLoop n' t ctx2 x
            end
          else Some (OK, x, [])
      | _ => Some (s, x, [])
      end
  end.

Definition split (t : bytes) (limit : Z) (x : X) : option Reply :=
  if limit =? 0 then Some (OK, x, [])
  else if limit =? 1 then Some (tryConsume x t (fun x => (OK, x, [])))
  else match tryToCreateMatchContext re t 0 [] with
       | inl e => Some (e, x, [])
       | inr ctx => splitLoop (Z.to_nat (limit - 1)) t ctx x
       end.
End api.

Arguments ReplaceParam : clear implicits.

(** *** matchAll: its consumer takes the captures *)
Section matchAll.
Context {X : Type} (re : Regex).
Context (doMatch : MatchContext -> option (MatchStatus * MatchContext)).
Context (consumer : X -> list Capture -> bool * X).

Fixpoint matchAllLoop (fuel : nat) (ctx : MatchContext) (x : X) : option (MatchStatus * X) :=
  match fuel with
  | O => None
  | S fuel' =>
      let matchStartOffset := getOffset (ctxInput ctx) in
      '(s, ctx1) ← doMatch ctx;
      match s with
      | FAIL => Some (OK, x)
      | OK =>
          match consumer x (ctxCaptures ctx1) with
          | (false, x) => Some (CONSUMED_LIMIT, x)
          | (true, x) =>
              let input := ctxInput ctx1 in
              let ctx2 :=
                if available input && (matchStartOffset =? getOffset input)
                then snd (passOne ctx1) else ctx1 in
              if negb (getOffset (ctxInput ctx2) =? matchStartOffset)
              then matchAllLoop fuel' ctx2 x else Some (OK, x)
          end
      | _ => Some (s, x)
      end
  end.

Definition matchAll (t : bytes) (codePointOffset : Z) (x : X) : option (MatchStatus * X) :=
  match tryToCreateMatchContext re t codePointOffset [] with
  | inl e => Some (e, x)
  | inr ctx => matchAllLoop (S (S (length t))) ctx x
  end.
End matchAll.

(** ** escape *)

Definition isLetter (ch : Z) : bool :=
  ((65 <=? ch) && (ch <=? 90)) || ((97 <=? ch) && (ch <=? 122)).
Definition isDigit (ch : Z) : bool := (48 <=? ch) && (ch <=? 57).
Definition isLetterOrDigit (ch : Z) : bool := isLetter ch || isDigit ch.

Definition hexDigit (v : Z) : Z := if v <? 10 then 48 + v else 87 + v.

(** [snprintf] with [%0<width>x], a number that fits the width.  ([%04x] writes
    five or six digits past U+FFFF, where the tables have no space.) *)
Fixpoint hex (width : nat) (v : Z) : bytes :=
  match width with
  | O => []
  | S n => hex n (v / 16) ++ [hexDigit (v mod 16)]
  end.

(** The characters with a backslash before them, and the ones written in hexadecimal. *)
Definition syntaxChars : bytes := lit "^$\.*+?()[]{}|/".
Definition hexChars : bytes := lit ",-=<>#&!%:;@~'`" ++ [34].

Section escape.
Context `{Ucd}.

(** The switch: what a character is written as, and the bytes it takes. *)
Definition escapeChar (s : bytes) (ch : Z) : bytes * Z :=
  if bool_decide (ch ∈ syntaxChars) then ([92; ch], 1)
  else if bool_decide (ch ∈ hexChars) then ([92; 120; hexDigit (ch / 16); hexDigit (ch mod 16)], 1)
  else if ch =? 12 then (lit "\f", 1)
  else if ch =? 10 then (lit "\n", 1)
  else if ch =? 13 then (lit "\r", 1)
  else if ch =? 9 then (lit "\t", 1)
  else if ch =? 11 then (lit "\v", 1)
  else if ch =? 32 then (lit "\x20", 1)
  else
    let '(byteSize, codePoint) := wtf8ToCodePoint s in
    if byteSize =? 0 then ([ch], 1)
    else if isRegexSpace codePoint || isSurrogate codePoint then
      (if codePoint <=? 0xFF then lit "\x" ++ hex 2 codePoint
       else lit "\u" ++ hex (if codePoint <=? 0xFFFF then 4 else 6) codePoint,
       byteSize)
    else (take (Z.to_nat byteSize) s, byteSize).

(** [false] with the output reached so far when the limit is exceeded. *)
Fixpoint escapeLoop (fuel : nat) (s : bytes) (maxSize : Z) (out : bytes) : bool * bytes :=
  match s, fuel with
  | [], _ => (true, out)
  | _, O => (false, out)
  | ch :: _, S fuel' =>
      let '(piece, n) := escapeChar s ch in
      match StringRef.checkedAppend piece maxSize out with
      | Some out' => escapeLoop fuel' (drop (Z.to_nat n) s) maxSize out'
      | None => (false, out)
      end
  end.

Definition escape (ref : bytes) (maxSize : Z) (out : bytes) : bool * bytes :=
  match ref with
  | ch :: rest =>
      if isLetterOrDigit ch then
        match StringRef.checkedAppend (lit "\x" ++ hex 2 ch) maxSize out with
        | Some out' => escapeLoop (length rest) rest maxSize out'
        | None => (false, out)
        end
      else escapeLoop (length ref) ref maxSize out
  | [] => (true, out)
  end.
End escape.

End RegexApi.
