(* ===== verification/RegexReplace.v ===== *)
(** The operations of the library on top of the matcher: a contract the matcher
    satisfies, and under it the termination of replacement, splitting and matching
    all, and what they produce. *)
From S2P Require Import Prelude NumUtil Unicode StringRef RegexMatcher RegexNode RegexInput.
From S2P Require Import RegexText RegexSpec RegexInst RegexEmit RegexLayout RegexVM RegexSim.
From S2P Require Import RegexCorrect RegexApi.

Module RegexReplace.
Import UnicodeUtil RegexMatcher RegexNode RegexInput RegexText RegexSpec RegexInst RegexEmit.
Import RegexVM RegexSim RegexCorrect RegexApi.

(** ** The contract of the matcher

    [find]: the first match at or after a position, with the final state. *)
Class Contract (re : Regex) (cs : list Z) (doMatch : MatchContext -> option (MatchStatus * MatchContext))
    (find : nat -> option (nat * St)) (limit : MatchStatus -> Prop) : Prop := {
  limit_other : forall s, limit s -> s <> OK /\ s <> FAIL;
  find_range : forall k i r, (k <= length cs)%nat -> find k = Some (i, r) ->
    (k <= i <= pos r)%nat /\ (pos r <= length cs)%nat /\ caps r <> [];
  doMatch_spec : forall k ctx, validCtx re cs k ctx -> exists status ctx',
    doMatch ctx = Some (status, ctx') /\
    (limit status \/
     match find k with
     | Some (i, r) => status = OK /\ ctxCaptures ctx' = capturesOf cs i r /\ validCtx re cs (pos r) ctx'
     | None => status = FAIL /\ validCtx re cs (length cs) ctx'
     end)
}.

(** *** The machine satisfies it *)

Section machine.
Context `{Ucd} `{!UcdLaws} (timer : option (nat -> TimerStatus)) (re : Regex) (tree : SyntaxTree).
Context (Hwf : wfTree tree) (Hgen : codeGen tree = Some re).
Context (cs : list Z) (Hcs : codePoints cs) (Hlen : zlen (encodes cs) <= INPUT_MAX).

(** A match depends on the position and the prefilter flag only. *)
Definition canon (k : nat) (b : bool) : MatchContext := {|
  ctxInput := at_off cs k; ctxGroupCount := regexCaptureGroupCount re; prefilter := b;
  ctxCaptures := []; ctxLoops := replicate (Z.to_nat (regexLoopCount re)) emptyLoop
|}.

Lemma matchCtx_canon fuel k ctx : validCtx re cs k ctx ->
  matchCtx fuel timer re ctx = matchCtx fuel timer re (canon k (prefilter ctx)).
Proof.
  intros (Hi & _ & Hg & Hl). unfold matchCtx, initVM, initSearch, resetLoops, canon. cbn.
  rewrite Hi, Hg, length_replicate. unfold zlen in Hl. by replace (Z.to_nat (regexLoopCount re)) with (length (ctxLoops ctx)) by lia.
Qed.

Lemma canon_valid k b : (k <= length cs)%nat -> 0 <= regexLoopCount re -> validCtx re cs k (canon k b).
Proof.
  intros Hk Hl. unfold validCtx, canon. cbn. split_and!; [done|done|done|].
  unfold zlen. rewrite length_replicate. lia.
Qed.

(** Enough fuel for every position of the text. *)
Lemma uniform_fuel (P : nat -> nat -> Prop) n :
  (forall k, (k <= n)%nat -> exists f0, forall f, (f0 <= f)%nat -> P k f) ->
  exists f0, forall f, (f0 <= f)%nat -> forall k, (k <= n)%nat -> P k f.
Proof.
  induction n as [|n IH]; intros Hn.
  - destruct (Hn O) as [f0 Hf]; [lia|]. exists f0. intros f Hle k Hk. replace k with O by lia. auto.
  - destruct IH as [f1 Hf1]; [intros k Hk; apply Hn; lia|]. destruct (Hn (S n)) as [f2 Hf2]; [lia|].
    exists (f1 `max` f2)%nat. intros f Hle k Hk. destruct (decide (k = S n)) as [->|]; [apply Hf2; lia|].
    apply Hf1; lia.
Qed.

Lemma limit_not_done s : isLimit timer s -> s <> OK /\ s <> FAIL.
Proof. intros [->|[_ [->| ->]]]; done. Qed.

Lemma machine_contract : exists fuel0, forall fuel, (fuel0 <= fuel)%nat ->
  Contract re cs (matchCtx fuel timer re)
    (search cs (namedCaptureGroups tree) (pattern tree) (captureGroupCount tree)) (isLimit timer).
Proof.
  destruct (codeGen_wf re tree Hwf Hgen) as (z & _ & _ & _ & Elc & _ & _).
  pose proof Hwf as (Hw & _ & _ & Hgc & Hlc & _).
  destruct (uniform_fuel (fun k fuel => forall b, exists status ctx',
    matchCtx fuel timer re (canon k b) = Some (status, ctx') /\
    (isLimit timer status \/ Reports re tree cs k status ctx')) (length cs)) as [f0 Hf0].
  { intros k Hk. assert (0 <= regexLoopCount re) as Hl0 by lia.
    destruct (match_core timer tree re cs k _ Hwf Hgen Hcs Hlen (canon_valid k true Hk Hl0)) as [f1 Hf1].
    destruct (match_core timer tree re cs k _ Hwf Hgen Hcs Hlen (canon_valid k false Hk Hl0)) as [f2 Hf2].
    exists (f1 `max` f2)%nat. intros f Hf [|]; [apply Hf1|apply Hf2]; lia. }
  exists f0. intros fuel Hf. split.
  - apply limit_not_done.
  - intros k i r Hk Hfind. unfold search in Hfind. apply searchFrom_sound in Hfind as [Hi Hr]; [|lia].
    eapply sem_sound in Hr; [|exact Hw|cbn; lia]. pose proof (moves_pos _ _ _ _ _ Hr ltac:(cbn; lia)) as Hp.
    destruct Hr as (Hle & _ & Hc & _). cbn in Hp, Hc. split_and!; [lia|lia|done|].
    intros E. rewrite E, length_replicate in Hc. cbn in Hc. lia.
  - intros k ctx Hv. rewrite (matchCtx_canon _ k) by done. apply Hf0; [done|apply Hv].
Qed.
End machine.

(** ** The pattern language of replacement *)

Section pattern_.
Context {X : Type} (re : Regex) (consumer : X -> bytes -> bool * X).

Lemma skipDecimal_range rest : forall pos, pos <= skipDecimal rest pos <= pos + zlen rest.
Proof.
  induction rest as [|ch rest IH]; intros pos; cbn [skipDecimal]; [rewrite zlen_nil; lia|].
  rewrite zlen_cons. specialize (IH (pos + 1)). pose proof (zlen_nonneg rest). case_on; lia.
Qed.

Lemma findChar_range s ch pos : 0 <= pos <= zlen s -> zlen s < StringRef.npos ->
  StringRef.findChar s ch pos = StringRef.npos \/ pos <= StringRef.findChar s ch pos < zlen s.
Proof.
  intros Hp Hs. unfold StringRef.findChar.
  destruct (StringRef.find_spec s [ch] pos) as [[-> _]|(k & t & -> & Hk & Hd & _)]; [done|done|done|by left|].
  right. assert (k < length s)%nat; [|unfold zlen; lia].
  destruct (decide (k < length s)%nat); [done|]. rewrite drop_ge in Hd by lia. done.
Qed.

(** A [$] form is passed, and the position stays in the pattern. *)
Lemma interpretDollar_range p caps c0 pos s q : 0 <= pos < zlen (replacement p) ->
  zlen (replacement p) < StringRef.npos -> interpretDollar re p caps c0 pos = inr (s, q) ->
  pos < q <= zlen (replacement p).
Proof.
  intros Hp Hs. unfold interpretDollar. cbv zeta.
  do 4 (case_on; [intros E; injection E as <- <-; lia|]).
  case_on.
  - unfold groupNumber. cbv zeta.
    pose proof (skipDecimal_range (drop (Z.to_nat (pos + 1)) (replacement p)) (pos + 1)) as Hr.
    assert (zlen (drop (Z.to_nat (pos + 1)) (replacement p)) = zlen (replacement p) - (pos + 1)) as Hd
      by (unfold zlen in *; rewrite length_drop; lia).
    repeat case_on; intros E; try discriminate E; injection E as <- <-; lia.
  - case_on; [|done]. unfold groupName. cbv zeta.
    pose proof (findChar_range (replacement p) 62 (pos + 1) ltac:(lia) Hs) as [->|Hr].
    + by rewrite Z.eqb_refl.
    + repeat case_on; intros E; try discriminate E; injection E as <- <-; lia.
Qed.

(** Every round passes a form, so the length of the pattern bounds them. *)
Lemma interpretLoop_ends p caps c0 : zlen (replacement p) < StringRef.npos ->
  forall fuel x pos, 0 <= pos <= zlen (replacement p) -> zlen (replacement p) - pos < Z.of_nat fuel ->
  exists reply, interpretLoop re consumer fuel p caps c0 x pos = Some reply.
Proof.
  intros Hs. induction fuel as [|fuel IH]; intros x pos Hp Hf; [lia|]. cbn [interpretLoop]. cbv zeta.
  destruct (consumer x _) as [[|] x1]; [|eauto].
  destruct (Z.eqb_spec (StringRef.findChar (replacement p) 36 pos) StringRef.npos) as [E|E]; [eauto|].
  pose proof (findChar_range (replacement p) 36 pos Hp Hs) as [?|Hr]; [done|].
  set (q := StringRef.findChar (replacement p) 36 pos) in *.
  destruct (Z.eqb_spec (q + 1) (zlen (replacement p))); [eauto|].
  destruct (interpretDollar re p caps c0 (q + 1)) as [message|[inserting q']] eqn:Ed; [eauto|].
  apply interpretDollar_range in Ed; [|lia|done].
  destruct (consumer x1 inserting) as [[|] x2]; [|eauto]. apply IH; lia.
Qed.

Lemma interpret_ends p ctx x c0 : zlen (replacement p) < StringRef.npos -> at_ (ctxCaptures ctx) 0 = Some c0 ->
  exists reply, interpretReplacePattern re consumer p ctx x = Some reply.
Proof.
  intros Hs Hc. unfold interpretReplacePattern. rewrite Hc. cbn [mbind option_bind].
  apply interpretLoop_ends; [done|pose proof (zlen_nonneg (replacement p)); lia|unfold zlen; lia].
Qed.
End pattern_.

(** ** Clients of the contract *)

Section client.
Context {X : Type} (re : Regex) (cs : list Z) (Hcs : codePoints cs) (Hlen : zlen (encodes cs) <= INPUT_MAX).
Context (doMatch : MatchContext -> option (MatchStatus * MatchContext)).
Context (find : nat -> option (nat * St)) (limit : MatchStatus -> Prop).
Context `{!Contract re cs doMatch find limit}.

Lemma getOffset_at k : getOffset (at_off cs k) = off cs k.
Proof. by apply (off_u32 cs Hlen). Qed.

Lemma offset_eq j k : (j <= length cs)%nat -> (k <= length cs)%nat -> (off cs j =? off cs k) = (j =? k)%nat.
Proof.
  intros Hj Hk. destruct (Nat.eqb_spec j k) as [->|Hn]; [apply Z.eqb_refl|].
  apply Z.eqb_neq. by rewrite off_eq.
Qed.

Lemma capture0_of i r : caps r <> [] ->
  at_ (capturesOf cs i r) 0 = Some {| cap_offset := off cs i; cap_size := off cs (pos r) - off cs i |}.
Proof.
  intros Hc. unfold capturesOf, at_. change (0 <? 0) with false. cbn [negb].
  change (Z.to_nat 0) with O. by destruct (caps r).
Qed.

Lemma validCtx_input k j ctx : validCtx re cs k ctx -> (j <= length cs)%nat ->
  validCtx re cs j (setCtxInput ctx (at_off cs j)).
Proof. intros (_ & _ & Hg & Hl) Hj. by split_and!. Qed.

Lemma passOne_at k ctx : validCtx re cs k ctx -> (k < length cs)%nat ->
  passOne ctx = (encodes (take 1 (drop k cs)), setCtxInput ctx (at_off cs (S k))).
Proof.
  intros (Hi & _) Hk. unfold passOne. rewrite Hi.
  destruct (lookup_lt_is_Some_2 cs k Hk) as [c Hc]. rewrite (forward_off cs Hcs k c Hc). cbn [snd].
  f_equal. unfold StringRef.slice, StringRef.substr. cbn [text iter at_off].
  pose proof (off_mono cs k (S k) ltac:(lia)). pose proof (off_range cs (S k)).
  rewrite Z.min_r by lia. rewrite (slice_off cs k (S k)) by lia.
  by replace (S k - k)%nat with 1%nat by lia.
Qed.

(** The next position after an empty match, and whether there is one. *)
Definition advanceFrom (k e : nat) : nat := if (e =? k)%nat && bool_decide (e < length cs)%nat then S e else e.

(** A match and the skip of one code point after an empty one. *)
Lemma after_match k ctx ctx1 (r : St) : validCtx re cs k ctx -> validCtx re cs (pos r) ctx1 ->
  available (ctxInput ctx1) && (off cs k =? getOffset (ctxInput ctx1)) =
    (pos r =? k)%nat && bool_decide (pos r < length cs)%nat /\
  ((pos r =? k)%nat && bool_decide (pos r < length cs)%nat = true ->
     passOne ctx1 = (encodes (take 1 (drop k cs)), setCtxInput ctx1 (at_off cs (S k))) /\
     validCtx re cs (S k) (setCtxInput ctx1 (at_off cs (S k)))).
Proof.
  intros (_ & Hk & _) Hv. pose proof Hv as (Hi & Hle & _). split.
  - rewrite Hi, getOffset_at, available_off, offset_eq by done. rewrite andb_comm. f_equal. apply Nat.eqb_sym.
  - intros Ht. apply andb_true_iff in Ht as [He Hlt]. apply Nat.eqb_eq in He. apply bool_decide_eq_true in Hlt.
    rewrite He in *. split; [by apply passOne_at|]. by apply (validCtx_input k).
Qed.

Lemma bytes_at j k : (j <= k <= length cs)%nat ->
  StringRef.slice (encodes cs) (off cs j) (off cs k) = encodes (take (k - j) (drop j cs)).
Proof.
  intros Hk. unfold StringRef.slice, StringRef.substr. pose proof (off_range cs k). rewrite Z.min_r by lia.
  apply slice_off; lia.
Qed.

(** *** replace *)

Section replace.
Context (consumer : X -> bytes -> bool * X) (p : ReplaceParam).
Context (Htext : rpText p = encodes cs) (Hpat : zlen (replacement p) < StringRef.npos).

(** A round returns, or moves forward, strictly when the loop goes on. *)
Lemma replaceRound_ends ctx x k : validCtx re cs k ctx ->
  exists res, replaceRound re doMatch consumer p ctx x = Some res /\
    match res with
    | inl _ => True
    | inr (_, ctx', go) => exists k', validCtx re cs k' ctx' /\ (k <= k')%nat /\ (go = true -> (k < k')%nat)
    end.
Proof.
  intros Hv. pose proof Hv as (Hi & Hk & _). unfold replaceRound. rewrite Hi, getOffset_at. cbv zeta.
  destruct (doMatch_spec k ctx Hv) as (status & ctx1 & -> & [Hl|Hs]); cbn [mbind option_bind].
  { apply limit_other in Hl as [H1 H2]. exists (inl (status, x, [])). split; [by destruct status|done]. }
  destruct (find k) as [[i r]|] eqn:Ef.
  - destruct Hs as (-> & Hc & Hv1). apply find_range in Ef as (Hir & Hr & Hne); [|done].
    rewrite Hc, capture0_of by done. cbn [mbind option_bind cap_offset].
    destruct (consumer x _) as [[|] x1]; [|by eexists].
    destruct (interpret_ends re consumer p ctx1 x1 _ Hpat ltac:(rewrite Hc; by apply capture0_of)) as [[[s2 x2] msg] ->].
    cbn [mbind option_bind]. destruct s2; try by eexists.
    pose proof Hv1 as (Hi1 & _). destruct (after_match k ctx ctx1 r Hv Hv1) as [-> Hpass].
    destruct ((pos r =? k)%nat && bool_decide (pos r < length cs)%nat) eqn:Ea.
    + destruct (Hpass eq_refl) as [-> Hv2]. destruct (consumer x2 _) as [[|] x3]; [|by eexists].
      eexists. split; [done|]. cbn. exists (S k). split_and!; [done|lia|lia].
    + eexists. split; [done|]. cbn. exists (pos r). split_and!; [done|lia|].
      rewrite Hi1, getOffset_at, offset_eq by done. intros Hgo. apply andb_true_iff in Hgo as [_ Hgo].
      apply negb_true_iff, Nat.eqb_neq in Hgo. lia.
  - destruct Hs as (-> & Hv1). eexists. split; [done|]. cbn. exists k. split_and!; [|done|done].
    pose proof Hv1 as (Hi1 & _). unfold setIter. rewrite Hi1. by apply (validCtx_input (length cs) k).
Qed.

Lemma replaceLoop_ends fuel : forall ctx x k, validCtx re cs k ctx -> (length cs - k < fuel)%nat ->
  exists reply, replaceLoop re doMatch consumer fuel p ctx x = Some reply.
Proof.
  induction fuel as [|fuel IH]; intros ctx x k Hv Hf; [lia|]. cbn [replaceLoop].
  destruct (replaceRound_ends ctx x k Hv) as (res & -> & Hr). cbn [mbind option_bind].
  destruct res as [reply|[[x1 ctx1] go]]; [eauto|]. destruct Hr as (k' & Hv' & Hle & Hgo).
  destruct go; [|eauto]. apply (IH _ _ k'); [done|]. specialize (Hgo eq_refl). destruct Hv' as (_ & Hk' & _). lia.
Qed.
End replace.

(** *** The pattern [$&] inserts what matched, so the text is unchanged *)

Definition appendTo (out s : bytes) : bool * bytes := (true, out ++ s).

Definition wholeMatch : bytes := [36; 38].

Lemma interpret_wholeMatch g c0 x caps :
  interpretLoop re appendTo 3 {| rpText := encodes cs; replacement := wholeMatch; global := g |} caps c0 x 0 =
  Some (OK, x ++ StringRef.substr (encodes cs) (cap_offset c0) (cap_size c0), []).
Proof.
  cbn [interpretLoop replacement]. change (StringRef.findChar wholeMatch 36 0) with 0.
  change (0 =? StringRef.npos) with false. change (StringRef.slice wholeMatch 0 0) with (@nil Z).
  unfold appendTo at 1. cbn beta iota zeta. change (0 + 1 =? zlen wholeMatch) with false.
  unfold interpretDollar at 1. change (nth (Z.to_nat (0 + 1)) _ 0) with 38.
  change (38 =? 36) with false. change (38 =? 38) with true. cbn beta iota zeta. cbn [rpText].
  unfold appendTo at 1. cbn beta iota zeta. change (0 + 1 + 1) with 2.
  change (StringRef.findChar wholeMatch 36 2) with StringRef.npos. rewrite Z.eqb_refl.
  change (StringRef.slice wholeMatch 2 StringRef.npos) with (@nil Z). unfold appendTo.
  by rewrite !app_nil_r.
Qed.

Lemma take_step j k : (j <= k)%nat ->
  encodes (take j cs) ++ encodes (take (k - j) (drop j cs)) = encodes (take k cs).
Proof. intros Hj. rewrite <- encodes_app, take_take_drop. f_equal. f_equal. lia. Qed.

Section identity.
Context (g : bool).
Abbreviation p := ({| rpText := encodes cs; replacement := wholeMatch; global := g |}).

Lemma replaceRound_identity ctx k : validCtx re cs k ctx ->
  match replaceRound re doMatch appendTo p ctx (encodes (take k cs)) with
  | Some (inl (status, _, _)) => status <> OK
  | Some (inr (x', ctx', _)) => exists k', validCtx re cs k' ctx' /\ x' = encodes (take k' cs)
  | None => False
  end.
Proof.
  intros Hv. pose proof Hv as (Hi & Hk & _). unfold replaceRound. rewrite Hi, getOffset_at. cbv zeta.
  destruct (doMatch_spec k ctx Hv) as (status & ctx1 & -> & [Hl|Hs]); cbn [mbind option_bind].
  { apply limit_other in Hl as [H1 H2]. by destruct status. }
  destruct (find k) as [[i r]|] eqn:Ef.
  - destruct Hs as (-> & Hc & Hv1). apply find_range in Ef as (Hir & Hr & Hne); [|done].
    rewrite Hc, capture0_of by done. cbn [mbind option_bind cap_offset rpText].
    rewrite bytes_at by lia. unfold appendTo at 1. rewrite take_step by lia.
    unfold interpretReplacePattern. rewrite Hc, capture0_of by done. cbn [mbind option_bind replacement length wholeMatch].
    rewrite interpret_wholeMatch. cbn [mbind option_bind cap_offset cap_size].
    pose proof (bytes_at i (pos r) ltac:(lia)) as Hb. unfold StringRef.slice in Hb. rewrite Hb, take_step by lia.
    pose proof Hv1 as (Hi1 & _). destruct (after_match k ctx ctx1 r Hv Hv1) as [-> Hpass].
    destruct ((pos r =? k)%nat && bool_decide (pos r < length cs)%nat) eqn:Ea.
    + destruct (Hpass eq_refl) as [-> Hv2]. unfold appendTo. exists (S k). split; [done|].
      apply andb_true_iff in Ea as [->%Nat.eqb_eq _]. rewrite <- (take_step k (S k)) by lia.
      by replace (S k - k)%nat with 1%nat by lia.
    + by exists (pos r).
  - destruct Hs as (-> & Hv1). exists k. split; [|done].
    pose proof Hv1 as (Hi1 & _). unfold setIter. rewrite Hi1. by apply (validCtx_input (length cs) k).
Qed.

Lemma replaceLoop_identity fuel : forall ctx k status out msg, validCtx re cs k ctx ->
  replaceLoop re doMatch appendTo fuel p ctx (encodes (take k cs)) = Some (status, out, msg) ->
  status = OK -> out = encodes cs.
Proof.
  induction fuel as [|fuel IH]; intros ctx k status out msg Hv Hr Hs; [done|]. cbn [replaceLoop] in Hr.
  pose proof (replaceRound_identity ctx k Hv) as HR.
  destruct (replaceRound _ _ _ _ _ _) as [[[[s1 x1] m1]|[[x1 ctx1] go]]|]; [|destruct HR as (k' & Hv' & ->)|done];
    cbn [mbind option_bind] in Hr.
  - by simplify_eq.
  - destruct go; [by eapply IH|]. unfold tryConsume, appendTo in Hr. injection Hr as <- <- <-.
    destruct Hv' as (-> & _). unfold remainForward. cbn [text iter at_off]. rewrite drop_off.
    by rewrite <- encodes_app, take_drop.
Qed.
End identity.

(** *** matchAll *)

(** The matches one after the other; after an empty one, from the next code point. *)
Fixpoint allMatches (fuel : nat) (k : nat) : list (nat * St) :=
  match fuel with
  | O => []
  | S fuel' =>
      match find k with
      | None => []
      | Some (i, r) =>
          (i, r) :: (if (advanceFrom k (pos r) =? k)%nat then [] else allMatches fuel' (advanceFrom k (pos r)))
      end
  end.

Definition snoc (out : list (list Capture)) (c : list Capture) : bool * list (list Capture) :=
  (true, out ++ [c]).

Lemma matchAllLoop_spec fuel : forall ctx k out, validCtx re cs k ctx -> (length cs - k < fuel)%nat ->
  exists status out', matchAllLoop doMatch snoc fuel ctx out = Some (status, out') /\
    (status = OK /\ out' = out ++ map (fun m => capturesOf cs (fst m) (snd m)) (allMatches fuel k) \/
     limit status).
Proof.
  induction fuel as [|fuel IH]; intros ctx k out Hv Hf; [lia|]. pose proof Hv as (Hi & Hk & _).
  cbn [matchAllLoop allMatches]. rewrite Hi, getOffset_at. cbv zeta.
  destruct (doMatch_spec k ctx Hv) as (status & ctx1 & -> & [Hl|Hs]); cbn [mbind option_bind].
  { pose proof (limit_other _ Hl) as [H1 H2]. exists status, out. split; [by destruct status|by right]. }
  destruct (find k) as [[i r]|] eqn:Ef.
  2: { destruct Hs as (-> & _). exists OK, out. split; [done|left]. split; [done|]. cbn. by rewrite app_nil_r. }
  destruct Hs as (-> & Hc & Hv1). apply find_range in Ef as (Hir & Hr & _); [|done].
  unfold snoc at 1. pose proof Hv1 as (Hi1 & _). destruct (after_match k ctx ctx1 r Hv Hv1) as [-> Hpass].
  set (ctx2 := if (pos r =? k)%nat && _ then _ else ctx1).
  assert (validCtx re cs (advanceFrom k (pos r)) ctx2) as Hv2.
  { unfold advanceFrom, ctx2. destruct ((pos r =? k)%nat && _) eqn:Ea; [|done].
    destruct (Hpass eq_refl) as [-> Hv2]. apply andb_true_iff in Ea as [->%Nat.eqb_eq _]. done. }
  pose proof Hv2 as (Hi2 & Hk2 & _). rewrite Hi2, getOffset_at, offset_eq by done.
  assert (k <= advanceFrom k (pos r))%nat as Hle by (unfold advanceFrom; case_on; lia).
  destruct (Nat.eqb_spec (advanceFrom k (pos r)) k) as [E|E]; cbn [negb].
  - exists OK, (out ++ [ctxCaptures ctx1]). split; [done|left]. split; [done|]. cbn. by rewrite Hc.
  - destruct (IH ctx2 _ (out ++ [ctxCaptures ctx1]) Hv2 ltac:(lia)) as (status & out' & -> & Hres).
    exists status, out'. split; [done|]. destruct Hres as [[-> ->]|Hl]; [left|by right].
    split; [done|]. cbn [map fst snd]. by rewrite Hc, <- app_assoc.
Qed.

(** *** split *)

Definition collect (out : list bytes) (s : bytes) : bool * list bytes := (true, out ++ [s]).

Lemma splitLoop_bound n t : forall ctx k out, validCtx re cs k ctx ->
  exists status out' msg, splitLoop doMatch collect n t ctx out = Some (status, out', msg) /\
    (length out' <= length out + S n)%nat.
Proof.
  induction n as [|n IH]; intros ctx k out Hv; cbn [splitLoop]; unfold tryConsume, collect at 1.
  { eexists _, _, _. split; [done|]. rewrite length_app. cbn. lia. }
  pose proof Hv as (Hi & Hk & _). rewrite Hi, getOffset_at. cbv zeta.
  destruct (doMatch_spec k ctx Hv) as (status & ctx1 & -> & [Hl|Hs]); cbn [mbind option_bind].
  { pose proof (limit_other _ Hl) as [H1 H2]. exists status, out, []. split; [by destruct status|lia]. }
  destruct (find k) as [[i r]|] eqn:Ef.
  2: { destruct Hs as (-> & Hv1). unfold collect. eexists _, _, _. split; [done|]. rewrite length_app. cbn. lia. }
  destruct Hs as (-> & Hc & Hv1). apply find_range in Ef as (Hir & Hr & Hne); [|done].
  pose proof Hv1 as (Hi1 & _). rewrite Hi1, getOffset_at, offset_eq by done.
  destruct (Nat.eqb_spec k (pos r)) as [E|E]; cbn [negb].
  - rewrite available_off by done. destruct (bool_decide_reflect (pos r < length cs)%nat) as [Hlt|Hlt].
    + rewrite (passOne_at (pos r)) by done. unfold collect at 1.
      destruct (IH (setCtxInput ctx1 (at_off cs (S (pos r)))) (S (pos r))
        (out ++ [encodes (take 1 (drop (pos r) cs))])) as (status & out' & msg & -> & Hb); [by apply (validCtx_input (pos r))|].
      exists status, out', msg. split; [done|]. rewrite length_app in Hb. cbn in Hb. lia.
    + exists OK, out, []. split; [done|lia].
  - rewrite Hc, capture0_of by done. cbn [mbind option_bind cap_offset]. unfold collect at 1.
    edestruct (IH ctx1 (pos r)) as (status & out' & msg & -> & Hb); [done|].
    exists status, out', msg. split; [done|]. rewrite length_app in Hb. cbn in Hb. lia.
Qed.

End client.

(** * Properties of the library on the machine *)

Section library.
Context `{Ucd} `{!UcdLaws} (timer : option (nat -> TimerStatus)) (re : Regex) (tree : SyntaxTree).
Context (Hwf : wfTree tree) (Hgen : codeGen tree = Some re).

Lemma loopCount_nonneg : 0 <= regexLoopCount re.
Proof.
  destruct (codeGen_wf re tree Hwf Hgen) as (z & _ & _ & _ & -> & _ & _). apply Hwf.
Qed.

Lemma off_min cs k : at_off cs (k `min` length cs) = at_off cs k.
Proof.
  destruct (decide (k <= length cs)%nat); [by rewrite Nat.min_l|].
  rewrite Nat.min_r by lia. unfold at_off, off. f_equal. by rewrite !take_ge by lia.
Qed.

(** A context is made of well-formed text only, at the code point that was asked for. *)
Lemma created_valid t n ctx : Forall is_byte t -> tryToCreateMatchContext re t n [] = inr ctx ->
  exists cs, codePoints cs /\ t = encodes cs /\ zlen (encodes cs) <= INPUT_MAX /\
    validCtx re cs (Z.to_nat n `min` length cs) ctx.
Proof.
  intros Ht Hc. unfold tryToCreateMatchContext in Hc.
  destruct (create t n) as [[]|i] eqn:E; try done. injection Hc as <-.
  assert (exists cs, codePoints cs /\ t = encodes cs /\ zlen t <= INPUT_MAX /\ i = at_off cs (Z.to_nat n))
    as (cs & Hcs & -> & Hl & ->) by (apply create_decodes in E; [|done]; naive_solver).
  exists cs. split_and!; [done|done|done|]. unfold validCtx. cbn. rewrite off_min.
  split_and!; [done|lia|done|]. unfold zlen. rewrite length_replicate. pose proof loopCount_nonneg. lia.
Qed.
End library.

(** C24: replacement ends on every text, with any pattern and any consumer: it returns a status after at most one round for each byte of the text, two more for the end. *)
Theorem replace_terminates `{Ucd} `{!UcdLaws} {X} timer tree re (consumer : X -> bytes -> bool * X) p x :
  wfTree tree -> codeGen tree = Some re -> Forall is_byte (rpText p) ->
  zlen (replacement p) < StringRef.npos ->
  exists fuel0, forall fuel, (fuel0 <= fuel)%nat ->
    exists reply, replace re (matchCtx fuel timer re) consumer p x = Some reply.
Proof.
  intros Hwf Hgen Ht Hp. unfold replace. destruct (tryToCreateMatchContext re (rpText p) 0 []) as [e|ctx] eqn:E; [exists O; eauto|].
  destruct (created_valid re tree Hwf Hgen _ _ _ Ht E) as (cs & Hcs & Htx & Hl & Hv).
  destruct (machine_contract timer re tree Hwf Hgen cs Hcs Hl) as [f0 Hf]. exists f0. intros fuel Hfuel.
  specialize (Hf fuel Hfuel).
  apply (replaceLoop_ends re cs Hcs Hl _ (search cs (namedCaptureGroups tree) (pattern tree) (captureGroupCount tree))
    (isLimit timer) consumer p Hp _ ctx x _ Hv).
  rewrite Htx. pose proof (encodes_length cs Hcs). unfold zlen in *. lia.
Qed.



(** Splitting ends and hands at most [limit] pieces to its consumer. *)
Theorem split_bounded `{Ucd} `{!UcdLaws} timer tree re t limit :
  wfTree tree -> codeGen tree = Some re -> Forall is_byte t -> 0 <= limit ->
  exists fuel0, forall fuel, (fuel0 <= fuel)%nat -> exists status out msg,
    split re (matchCtx fuel timer re) collect t limit [] = Some (status, out, msg) /\ zlen out <= limit.
Proof.
  intros Hwf Hgen Ht Hlim. unfold split. destruct (Z.eqb_spec limit 0) as [->|Hl0].
  { exists O. intros. by exists OK, [], []. }
  destruct (Z.eqb_spec limit 1) as [->|Hl1]; [exists O; intros; by exists OK, [t], []|].
  destruct (tryToCreateMatchContext re t 0 []) as [e|ctx] eqn:E.
  { exists O. intros. exists e, [], []. split; [done|]. rewrite zlen_nil. lia. }
  destruct (created_valid re tree Hwf Hgen _ _ _ Ht E) as (cs & Hcs & -> & Hl & Hv).
  destruct (machine_contract timer re tree Hwf Hgen cs Hcs Hl) as [f0 Hf]. exists f0. intros fuel Hfuel.
  specialize (Hf fuel Hfuel).
  destruct (splitLoop_bound re cs Hcs Hl _ (search cs (namedCaptureGroups tree) (pattern tree) (captureGroupCount tree))
    (isLimit timer) (Z.to_nat (limit - 1)) (encodes cs) ctx _ [] Hv)
    as (status & out & msg & Hr & Hb).
  exists status, out, msg. split; [exact Hr|]. unfold zlen. cbn in Hb. lia.
Qed.

(** * The properties on the pattern [(a|b)+c] *)

Definition exampleReplace : ReplaceParam :=
  {| rpText := encodes exampleText; replacement := lit "<$1>"; global := true |}.

Lemma exampleText_bytes : Forall is_byte (encodes exampleText).
Proof. vm_compute. repeat (apply Forall_cons_2; [split; [discriminate|reflexivity]|]). apply Forall_nil_2. Qed.

Lemma replace_terminates_witness :
  match @codeGen asciiUcd exampleTree with
  | Some re => exists fuel0, forall fuel, (fuel0 <= fuel)%nat ->
      exists reply, replace re (@matchCtx asciiUcd fuel None re) appendTo exampleReplace [] = Some reply
  | None => False
  end.
Proof.
  destruct (@codeGen asciiUcd exampleTree) as [re|] eqn:E; [|vm_compute in E; discriminate].
  apply (@replace_terminates asciiUcd asciiLaws bytes None exampleTree re appendTo exampleReplace []);
    [exact exampleTree_wf|exact E|exact exampleText_bytes|reflexivity].
Defined.



Lemma split_bounded_witness :
  match @codeGen asciiUcd exampleTree with
  | Some re => exists fuel0, forall fuel, (fuel0 <= fuel)%nat -> exists status out msg,
      split re (@matchCtx asciiUcd fuel None re) collect (encodes exampleText) 2 [] = Some (status, out, msg) /\
      zlen out <= 2
  | None => False
  end.
Proof.
  destruct (@codeGen asciiUcd exampleTree) as [re|] eqn:E; [|vm_compute in E; discriminate].
  apply (@split_bounded asciiUcd asciiLaws None exampleTree re (encodes exampleText) 2);
    [exact exampleTree_wf|exact E|exact exampleText_bytes|lia].
Defined.

(** ** Two defects, on concrete inputs *)

(** A group captured inside of a positive look-ahead keeps its capture after the
    machine has backtracked out of it: [(?:(?=(a))ab|ac)] on [ac]. *)
Definition leakTree : SyntaxTree := {|
  loopCount := 0; captureGroupCount := 1;
  pattern := AltNode [
    SeqNode [LookAroundNode LOOK_AHEAD (GroupNode CAPTURE 1 (CharNode 97)); CharNode 97; CharNode 98];
    SeqNode [CharNode 97; CharNode 99]];
  namedCaptureGroups := []
|}.

Definition matchTree (tree : SyntaxTree) (cs : list Z) : option (MatchStatus * list Capture) :=
  re ← @codeGen asciiUcd tree;
  '(status, ctx) ← @matchCtx asciiUcd 1000 None re (exampleCtx re cs);
  Some (status, ctxCaptures ctx).

(** A group captured inside a positive look-ahead keeps its capture after the
    machine backtracks out of the alternative it is in: on [ac] the pattern
    [(?:(?=(a))ab|ac)] matches through its second alternative, and the capture of
    the first is still reported, where the semantics has none. *)
Example lookahead_capture_leaks :
  matchTree leakTree (lit "ac") =
    Some (OK, [{| cap_offset := 0; cap_size := 2 |}; {| cap_offset := 0; cap_size := 1 |}]) /\
  @search asciiUcd (lit "ac") [] (pattern leakTree) 1 0 =
    Some (O, {| pos := 2; caps := [None; None] |}).
Proof. split; vm_compute; reflexivity. Qed.

(** The pattern [(?=c)]. *)
Definition emptyTree : SyntaxTree := {|
  loopCount := 0; captureGroupCount := 0;
  pattern := LookAroundNode LOOK_AHEAD (CharNode 99);
  namedCaptureGroups := []
|}.

(** An empty match found after the start of the search is found again by the next
    search: the global replacement of [(?=c)] by [-] in [abc] inserts it twice. *)
Example empty_match_replaced_twice :
  (re ← @codeGen asciiUcd emptyTree;
   replace re (@matchCtx asciiUcd 1000 None re) appendTo
     {| rpText := lit "abc"; replacement := lit "-"; global := true |} []) =
  Some (OK, lit "ab--c", []).
Proof. vm_compute. reflexivity. Qed.

End RegexReplace.
