(* ===== verification/LineBuffer.v ===== *)
(** The line editor's buffer (src/line_buffer.h, src/line_buffer.cpp): the text
    with its cursor, the tracked changes with undo and redo, the lines, and the
    kill ring. *)
From S2P Require Import Prelude StringRef RingBuffer.

Module LineBuffer.
Import RingBuffer.

Inductive ChangeOp :=
| INSERT       (* old_cursor + delta => cursor *)
| DELETE_TO    (* old_cursor - delta => cursor *)
| DELETE_FROM  (* no cursor changed *).

#[export] Instance ChangeOp_eq_dec : EqDecision ChangeOp.
Proof. solve_decision. Defined.

(** The fields of a change without [merge] and [prev]. *)
Record Edit := { editType : ChangeOp; editCursor : Z; editDelta : bytes }.

(** A change and the chain of its [prev], which an atomic edit builds; the
    [merge] flag of the earlier changes is never read. *)
Record Change := {
  chType : ChangeOp;
  chMerge : bool;
  chCursor : Z;  (* cursor after changed *)
  chDelta : bytes;
  chPrev : list Edit
}.

Definition toEdit (c : Change) : Edit :=
  {| editType := chType c; editCursor := chCursor c; editDelta := chDelta c |}.
Definition chain (c : Change) : list Edit := toEdit c :: chPrev c.

Definition withMerge (c : Change) (m : bool) : Change :=
  {| chType := chType c; chMerge := m; chCursor := chCursor c; chDelta := chDelta c;
     chPrev := chPrev c |}.

Record EditOp := { trackChange_ : bool; mergeChange : bool }.

(** [buf] is the whole array, its last byte for the null character. *)
Record LineBuffer := {
  buf : bytes;
  bufSize : Z;
  cursor : Z;
  usedSize : Z;
  newlinePosList : list Z;
  changes : RingBuffer Change;
  changeIndex : Z;
  atomicEdit : bool
}.

(** memmove and memcpy within an array, [None] out of bounds. *)
Definition memmove (b : bytes) (dst src n : Z) : option bytes :=
  if (0 <=? dst) && (0 <=? src) && (0 <=? n) && (dst + n <=? zlen b) && (src + n <=? zlen b)
  then Some (take (Z.to_nat dst) b ++ take (Z.to_nat n) (drop (Z.to_nat src) b) ++
             drop (Z.to_nat (dst + n)) b)
  else None.

Definition memcpy (b : bytes) (dst : Z) (data : bytes) : option bytes :=
  if (0 <=? dst) && (dst + zlen data <=? zlen b)
  then Some (take (Z.to_nat dst) b ++ data ++ drop (Z.to_nat (dst + zlen data)) b)
  else None.

Definition make (b : bytes) (bufSize : Z) : LineBuffer := {|
  buf := <[0%nat := 0]> b; bufSize := bufSize - 1; cursor := 0; usedSize := 0;
  newlinePosList := []; changes := RingBuffer.make 10; changeIndex := 0; atomicEdit := false |}.

Definition get (l : LineBuffer) : bytes := take (Z.to_nat (usedSize l)) (buf l).
Definition getToCursor (l : LineBuffer) : bytes := take (Z.to_nat (cursor l)) (buf l).
Definition getFromCursor (l : LineBuffer) : bytes := StringRef.substr (get l) (cursor l) StringRef.npos.

Definition withText (l : LineBuffer) (b : bytes) (c u : Z) : LineBuffer := {|
  buf := b; bufSize := bufSize l; cursor := c; usedSize := u; newlinePosList := newlinePosList l;
  changes := changes l; changeIndex := changeIndex l; atomicEdit := atomicEdit l |}.
Definition withCursor (l : LineBuffer) (c : Z) : LineBuffer := withText l (buf l) c (usedSize l).
Definition withChanges (l : LineBuffer) (r : RingBuffer Change) (i : Z) : LineBuffer := {|
  buf := buf l; bufSize := bufSize l; cursor := cursor l; usedSize := usedSize l;
  newlinePosList := newlinePosList l; changes := r; changeIndex := i; atomicEdit := atomicEdit l |}.
Definition withNewlines (l : LineBuffer) (p : list Z) : LineBuffer := {|
  buf := buf l; bufSize := bufSize l; cursor := cursor l; usedSize := usedSize l;
  newlinePosList := p; changes := changes l; changeIndex := changeIndex l;
  atomicEdit := atomicEdit l |}.
Definition withAtomic (l : LineBuffer) (a : bool) : LineBuffer := {|
  buf := buf l; bufSize := bufSize l; cursor := cursor l; usedSize := usedSize l;
  newlinePosList := newlinePosList l; changes := changes l; changeIndex := changeIndex l;
  atomicEdit := a |}.

Definition setCursor (l : LineBuffer) (v : Z) : LineBuffer := withCursor l (Z.min v (usedSize l)).

(** ** Changes *)

(** [c.tryMerge(o)]: the merged change, [None] for [false]. *)
Definition tryMerge (c o : Change) : option Change :=
  if negb (chMerge c) || negb (chMerge o) then None
  else if decide (chType c = chType o) then
    match chType c with
    | INSERT =>
        if chCursor c =? chCursor o - zlen (chDelta o)
        then Some {| chType := INSERT; chMerge := chMerge c; chCursor := chCursor o;
                     chDelta := chDelta c ++ chDelta o; chPrev := chPrev c |}
        else None
    | DELETE_TO =>
        if chCursor c =? chCursor o + zlen (chDelta o)
        then Some {| chType := DELETE_TO; chMerge := chMerge c; chCursor := chCursor o;
                     chDelta := chDelta o ++ chDelta c; chPrev := chPrev c |}
        else None
    | DELETE_FROM =>
        if chCursor c =? chCursor o
        then Some {| chType := DELETE_FROM; chMerge := chMerge c; chCursor := chCursor c;
                     chDelta := chDelta c ++ chDelta o; chPrev := chPrev c |}
        else None
    end
  else None.

(** The loop that forgets the changes from [changeIndex] on; [fuel] is their number. *)
Fixpoint popWhile (fuel : nat) (index : Z) (r : RingBuffer Change) : RingBuffer Change :=
  match fuel with
  | O => r
  | S fuel' => if index <? size r then popWhile fuel' index (pop_back r) else r
  end.

Definition forget (l : LineBuffer) : RingBuffer Change :=
  popWhile (Z.to_nat (size (changes l))) (changeIndex l) (changes l).

Definition trackChange (l : LineBuffer) (op : ChangeOp) (delta : bytes) (merge : bool) : LineBuffer :=
  let r := forget l in
  let newChange := {| chType := op; chMerge := merge; chCursor := cursor l; chDelta := delta;
                      chPrev := [] |} in
  let pushed r c := let r := push_back r c in withChanges l r (size r) in
  match (if empty r then None else back r) with
  | None => pushed r newChange
  | Some last =>
      match tryMerge last newChange with
      | Some merged => withChanges l (set_back r (withMerge merged true)) (changeIndex l)
      | None =>
          if atomicEdit l
          then pushed (pop_back r)
                 {| chType := op; chMerge := merge; chCursor := cursor l; chDelta := delta;
                    chPrev := chain last |}
          else pushed (set_back r (withMerge last false)) newChange
      end
  end.

(** ** Edit operations

    [None] is an access out of the bounds of the buffer; the boolean is the
    result of the operation. *)

Definition insertToCursor (l : LineBuffer) (ref : bytes) (op : EditOp) : option (bool * LineBuffer) :=
  if usedSize l + zlen ref <=? bufSize l then
    l' ← match ref with
         | [] => Some l
         | _ =>
             b ← (if cursor l <? usedSize l
                  then memmove (buf l) (cursor l + zlen ref) (cursor l) (usedSize l - cursor l)
                  else Some (buf l));
             b ← memcpy b (cursor l) ref;
             b ← memcpy b (usedSize l + zlen ref) [0];
             Some (withText l b (cursor l + zlen ref) (usedSize l + zlen ref))
         end;
    Some (true, if trackChange_ op then trackChange l' INSERT ref (mergeChange op) else l')
  else Some (false, l).

(** The deleted bytes ([capture]) and the buffer. *)
Definition deleteToCursor (l : LineBuffer) (n : Z) (op : EditOp)
    : option (option bytes * LineBuffer) :=
  if (0 <? cursor l) && (0 <? usedSize l) && (0 <? n) && (n <=? cursor l) then
    let delta := take (Z.to_nat n) (drop (Z.to_nat (cursor l - n)) (buf l)) in
    b ← memmove (buf l) (cursor l - n) (cursor l) (usedSize l - cursor l);
    b ← memcpy b (usedSize l - n) [0];
    let l' := withText l b (cursor l - n) (usedSize l - n) in
    Some (Some delta,
          if trackChange_ op then trackChange l' DELETE_TO delta (mergeChange op) else l')
  else Some (None, l).

Definition deleteFromCursor (l : LineBuffer) (n : Z) (op : EditOp)
    : option (option bytes * LineBuffer) :=
  if (0 <? usedSize l) && (cursor l <? usedSize l) && (0 <? n) && (n <=? usedSize l - cursor l) then
    let delta := take (Z.to_nat n) (drop (Z.to_nat (cursor l)) (buf l)) in
    b ← memmove (buf l) (cursor l) (cursor l + n) (usedSize l - cursor l - n);
    b ← memcpy b (usedSize l - n) [0];
    let l' := withText l b (cursor l) (usedSize l - n) in
    Some (Some delta,
          if trackChange_ op then trackChange l' DELETE_FROM delta (mergeChange op) else l')
  else Some (None, l).

Definition tracked (merge : bool) : EditOp := {| trackChange_ := true; mergeChange := merge |}.
Definition untracked : EditOp := {| trackChange_ := false; mergeChange := false |}.

Definition deleteAll (l : LineBuffer) : option LineBuffer :=
  snd <$> deleteToCursor (withCursor l (usedSize l)) (usedSize l) (tracked false).

(** ** Undo and redo *)

Definition revertEdit (l : LineBuffer) (e : Edit) : option LineBuffer :=
  let l := withCursor l (editCursor e) in
  match editType e with
  | INSERT => snd <$> deleteToCursor l (zlen (editDelta e)) untracked
  | DELETE_TO => snd <$> insertToCursor l (editDelta e) untracked
  | DELETE_FROM =>
      '(_, l) ← insertToCursor l (editDelta e) untracked;
      Some (withCursor l (editCursor e))
  end.

Definition replayEdit (l : LineBuffer) (e : Edit) : option LineBuffer :=
  match editType e with
  | INSERT =>
      snd <$> insertToCursor (withCursor l (editCursor e - zlen (editDelta e))) (editDelta e) untracked
  | DELETE_TO =>
      snd <$> deleteToCursor (withCursor l (editCursor e + zlen (editDelta e)))
                (zlen (editDelta e)) untracked
  | DELETE_FROM =>
      snd <$> deleteFromCursor (withCursor l (editCursor e)) (zlen (editDelta e)) untracked
  end.

(** The latest edit first. *)
Fixpoint revertAll (l : LineBuffer) (es : list Edit) : option LineBuffer :=
  match es with
  | [] => Some l
  | e :: rest => l ← revertEdit l e; revertAll l rest
  end.

Fixpoint replayAll (l : LineBuffer) (es : list Edit) : option LineBuffer :=
  match es with
  | [] => Some l
  | e :: rest => l ← replayEdit l e; replayAll l rest
  end.

Definition undo (l : LineBuffer) : option (bool * LineBuffer) :=
  if changeIndex l =? 0 then Some (false, l)
  else
    let i := changeIndex l - 1 in
    change ← RingBuffer.at_ (changes l) i;
    l' ← revertAll (withChanges l (set_at (changes l) i (withMerge change false)) i) (chain change);
    Some (true, l').

Definition redo (l : LineBuffer) : option (bool * LineBuffer) :=
  if changeIndex l =? size (changes l) then Some (false, l)
  else
    let i := changeIndex l in
    change ← RingBuffer.at_ (changes l) i;
    l' ← replayAll (withChanges l (set_at (changes l) i (withMerge change false)) (i + 1))
           (rev (chain change));
    Some (true, l').

Definition commitLastChange (l : LineBuffer) : option LineBuffer :=
  if 0 <? changeIndex l then
    change ← RingBuffer.at_ (changes l) (changeIndex l - 1);
    Some (withChanges l (set_at (changes l) (changeIndex l - 1) (withMerge change false))
            (changeIndex l))
  else Some l.

(** [func] is the client's edit; its result says whether to keep it. *)
Definition intoAtomicEdit (l : LineBuffer) (func : LineBuffer -> option (bool * LineBuffer))
    : option (bool * LineBuffer) :=
  let old := cursor l in
  '(_, l) ← insertToCursor l [] (tracked false);
  '(r, l) ← func (withAtomic l true);
  let l := withAtomic l false in
  if r : bool then Some (true, l)
  else
    '(_, l) ← undo l;
    Some (false, setCursor (withChanges l (forget l) (changeIndex l)) old).

(** ** Lines *)

(** The positions of the newlines from [pos] on. *)
Fixpoint newlines (fuel : nat) (ref : bytes) (pos : Z) : list Z :=
  match fuel with
  | O => []
  | S fuel' =>
      let retPos := StringRef.findChar ref 10 pos in
      if retPos =? StringRef.npos then [] else retPos :: newlines fuel' ref (retPos + 1)
  end.

Definition syncNewlinePosList (l : LineBuffer) : LineBuffer :=
  withNewlines l (newlines (S (length (get l))) (get l) 0).

Definition isSingleLine (l : LineBuffer) : bool :=
  match newlinePosList l with [] => true | _ => false end.

(** std::lower_bound over the sorted positions. *)
Fixpoint lowerBound (l : list Z) (v : Z) : Z :=
  match l with
  | [] => 0
  | x :: rest => if x <? v then 1 + lowerBound rest v else 0
  end.

Definition findCurNewlineIndex (l : LineBuffer) : Z := lowerBound (newlinePosList l) (cursor l).
Definition newlineAt (l : LineBuffer) (i : Z) : Z := nth (Z.to_nat i) (newlinePosList l) 0.

(** [(pos, len)] *)
Definition findCurLineInterval (l : LineBuffer) (wholeLine : bool) : Z * Z :=
  if isSingleLine l then (0, if wholeLine then usedSize l else cursor l)
  else
    let index := findCurNewlineIndex l in
    if index =? 0 then (0, if wholeLine then newlineAt l index else cursor l)
    else
      let pos := newlineAt l (index - 1) + 1 in
      if index <? zlen (newlinePosList l)
      then (pos, (if wholeLine then newlineAt l index else cursor l) - pos)
      else (pos, (if wholeLine then usedSize l else cursor l) - pos).

Definition getCurLine (l : LineBuffer) (wholeLine : bool) : bytes :=
  let '(pos, len) := findCurLineInterval l wholeLine in
  take (Z.to_nat len) (drop (Z.to_nat pos) (buf l)).

Definition startOfLine (l : LineBuffer) : Z :=
  if isSingleLine l then 0
  else
    let index := findCurNewlineIndex l in
    if index =? 0 then 0 else newlineAt l (index - 1) + 1.

Definition endOfLine (l : LineBuffer) : Z :=
  if isSingleLine l then usedSize l
  else
    let index := findCurNewlineIndex l in
    if index =? zlen (newlinePosList l) then usedSize l else newlineAt l index.

(** Whether the cursor moved. *)
Definition moveTo (l : LineBuffer) (newCursor : Z) : bool * LineBuffer :=
  if negb (cursor l =? newCursor) then (true, withCursor l newCursor) else (false, l).

Definition moveCursorToStartOfLine (l : LineBuffer) : bool * LineBuffer := moveTo l (startOfLine l).
Definition moveCursorToEndOfLine (l : LineBuffer) : bool * LineBuffer := moveTo l (endOfLine l).
Definition moveCursorToStartOfBuf (l : LineBuffer) : bool * LineBuffer := moveTo l 0.
Definition moveCursorToEndOfBuf (l : LineBuffer) : bool * LineBuffer := moveTo l (usedSize l).

Definition deleteLineToCursor (l : LineBuffer) (wholeLine : bool) : option (option bytes * LineBuffer) :=
  let '(pos, len) := findCurLineInterval l wholeLine in
  deleteToCursor (withCursor l (pos + len)) len (tracked false).

Definition deleteLineFromCursor (l : LineBuffer) : option (option bytes * LineBuffer) :=
  let newCursor := cursor (snd (moveCursorToEndOfLine l)) in
  deleteFromCursor l (newCursor - cursor l) (tracked false).

(** *** Completion suffix *)

(** The loop over [offset]: the first suffix before the cursor that begins [prefix]. *)
Fixpoint suffixLoop (fuel : nat) (text prefix : bytes) (cur offset : Z) : option Z :=
  match fuel with
  | O => None
  | S fuel' =>
      if offset <? cur then
        if StringRef.startsWith prefix (StringRef.substr text offset (cur - offset))
        then Some offset else suffixLoop fuel' text prefix cur (offset + 1)
      else None
  end.

(** The start position and the bytes to insert. *)
Definition resolveInsertingSuffix (l : LineBuffer) (prefix : bytes) (single : bool) : Z * bytes :=
  let n := Z.min (cursor l) (zlen prefix) in
  match suffixLoop (Z.to_nat n) (get l) prefix (cursor l) (cursor l - n) with
  | Some offset =>
      let insertingSize := zlen prefix - (cursor l - offset) in
      (offset, drop (Z.to_nat (zlen prefix - insertingSize)) prefix)
  | None => (cursor l, if single then prefix else [])
  end.

(** ** The kill ring *)

Record KillRing := { ring : RingBuffer bytes; rotateIndex : Z }.

Definition KILL_INIT_SIZE : Z := 15.

Definition killRing : KillRing := {| ring := RingBuffer.make KILL_INIT_SIZE; rotateIndex := 0 |}.

Definition killAdd (k : KillRing) (value : bytes) : KillRing :=
  match value with
  | [] => k
  | _ => {| ring := push_back (ring k) value; rotateIndex := rotateIndex k |}
  end.

Definition killReset (k : KillRing) : KillRing :=
  {| ring := ring k; rotateIndex := u32 (size (ring k) - 1) |}.

Definition killCurrent (k : KillRing) : option bytes := RingBuffer.at_ (ring k) (rotateIndex k).

Definition killRotate (k : KillRing) : KillRing :=
  let n := size (ring k) in
  {| ring := ring k;
     rotateIndex :=
       if (0 <? rotateIndex k) && (rotateIndex k <? n) then rotateIndex k - 1 else u32 (n - 1) |}.

(** Moves the entries, the oldest first; [fuel] is their number. *)
Fixpoint moveAll (fuel : nat) (from to : RingBuffer bytes) : RingBuffer bytes :=
  match fuel with
  | O => to
  | S fuel' =>
      match (if empty from then None else front from) with
      | Some v => moveAll fuel' (pop_front from) (push_back to v)
      | None => to
      end
  end.

Definition killExpand (k : KillRing) (afterCap : Z) : KillRing :=
  if allocSize (ring k) =? alignAllocSize afterCap then k
  else
    let r := moveAll (Z.to_nat (size (ring k))) (ring k) (RingBuffer.make afterCap) in
    let k' := {| ring := r; rotateIndex := rotateIndex k |} in
    if empty r then k' else killReset k'.

(** * The raw buffer

    [bufInv l t]: the array holds the text [t] and the null character after it. *)

Record bufInv (l : LineBuffer) (t : bytes) : Prop := {
  bi_buf : exists junk, buf l = t ++ 0 :: junk;
  bi_used : usedSize l = zlen t;
  bi_size : zlen (buf l) = bufSize l + 1;
  bi_cursor : 0 <= cursor l <= zlen t
}.

Lemma bufInv_fits l t : bufInv l t -> zlen t <= bufSize l.
Proof.
  intros [[junk Hb] _ Hs _]. rewrite Hb, zlen_app, zlen_cons in Hs. pose proof (zlen_nonneg junk). lia.
Qed.

Lemma take_zlen {A} (a b : list A) : take (Z.to_nat (zlen a)) (a ++ b) = a.
Proof. unfold zlen. by rewrite Nat2Z.id, take_app_length. Qed.

Lemma drop_zlen {A} (a b : list A) : drop (Z.to_nat (zlen a)) (a ++ b) = b.
Proof. unfold zlen. by rewrite Nat2Z.id, drop_app_length. Qed.

Lemma memcpy_app b x y z data n :
  b = x ++ y ++ z -> zlen y = zlen data -> n = zlen x -> memcpy b n data = Some (x ++ data ++ z).
Proof.
  intros -> Hy ->. unfold memcpy. rewrite !zlen_app, Hy.
  pose proof (zlen_nonneg x). pose proof (zlen_nonneg z).
  destruct (Z.leb_spec 0 (zlen x)), (Z.leb_spec (zlen x + zlen data) (zlen x + (zlen data + zlen z))); try lia.
  cbn [andb]. rewrite take_zlen. do 3 f_equal.
  rewrite <- Hy, app_assoc, <- zlen_app. apply drop_zlen.
Qed.

Lemma memmove_app b s1 m s2 d1 old d2 dst src n :
  b = s1 ++ m ++ s2 -> b = d1 ++ old ++ d2 -> zlen old = zlen m ->
  dst = zlen d1 -> src = zlen s1 -> n = zlen m -> memmove b dst src n = Some (d1 ++ m ++ d2).
Proof.
  intros Es Ed Ho -> -> ->. unfold memmove.
  assert (zlen b = zlen s1 + (zlen m + zlen s2)) as Hs by (by rewrite Es, !zlen_app).
  assert (zlen b = zlen d1 + (zlen m + zlen d2)) as Hd by (by rewrite Ed, !zlen_app, Ho).
  pose proof (zlen_nonneg s1). pose proof (zlen_nonneg s2). pose proof (zlen_nonneg m).
  pose proof (zlen_nonneg d1). pose proof (zlen_nonneg d2).
  rewrite (proj2 (andb_true_iff _ _)).
  - f_equal. f_equal; [rewrite Ed; apply take_zlen|]. f_equal.
    + rewrite Es, drop_zlen. apply take_zlen.
    + rewrite Ed, <- Ho, app_assoc, <- zlen_app. apply drop_zlen.
  - rewrite !andb_true_iff, !Z.leb_le. lia.
Qed.

(** Splitting the end of the array at any length it has room for. *)
Lemma split_at {A} (l : list A) n : 0 <= n <= zlen l -> exists x y, l = x ++ y /\ zlen x = n.
Proof.
  intros Hn. exists (take (Z.to_nat n) l), (drop (Z.to_nat n) l).
  split; [by rewrite take_drop|]. unfold zlen in *. rewrite length_take. lia.
Qed.

Lemma bufInv_withCursor l t c : bufInv l t -> 0 <= c <= zlen t -> bufInv (withCursor l c) t.
Proof. intros [Hb Hu Hs Hc] Hc'. by constructor. Qed.

Lemma bufInv_withChanges l t r i : bufInv l t -> bufInv (withChanges l r i) t.
Proof. intros [Hb Hu Hs Hc]. by constructor. Qed.

(** The untracked insertion is a splice of the text, within the array. *)
Lemma insert_raw l a b d :
  bufInv l (a ++ b) -> cursor l = zlen a -> zlen (a ++ d ++ b) <= bufSize l ->
  exists b', let l' := withText l b' (zlen a + zlen d) (zlen (a ++ d ++ b)) in
    insertToCursor l d untracked = Some (true, l') /\ bufInv l' (a ++ d ++ b).
Proof.
  intros [[junk Hb] Hu Hs Hc] Hcur Hfit. rewrite !zlen_app in *.
  pose proof (zlen_nonneg a). pose proof (zlen_nonneg b). pose proof (zlen_nonneg d).
  unfold insertToCursor. rewrite (proj2 (Z.leb_le _ _)) by lia. cbn [trackChange_ untracked].
  destruct d as [|d0 d'].
  { exists (buf l). cbn [app]. rewrite (zlen_nil (A := Z)), Z.add_0_r. split.
    - destruct l; cbn in *; subst. by rewrite Z.add_0_l.
    - constructor; cbn; rewrite ?zlen_app; eauto; lia. }
  remember (d0 :: d') as d eqn:Ed. clear Ed d0 d'. rewrite Hb, !zlen_app, zlen_cons in Hs.
  destruct (split_at (b ++ 0 :: junk) (zlen d)) as (old & tl & Eo & Ho).
  { rewrite zlen_app, zlen_cons. lia. }
  destruct (split_at tl (zlen b)) as (old2 & tl2 & Eo2 & Ho2).
  { apply (f_equal zlen) in Eo. rewrite !zlen_app, zlen_cons in Eo. lia. }
  assert (zlen tl2 = bufSize l + 1 - zlen a - zlen d - zlen b) as Htl.
  { apply (f_equal zlen) in Eo. rewrite Eo2, !zlen_app, zlen_cons in Eo. lia. }
  destruct (split_at tl2 1) as (z & tl3 & Ez & Hz); [lia|].
  assert (buf l = a ++ old ++ old2 ++ z ++ tl3) as Hb2.
  { rewrite Hb, <- app_assoc, Eo, Eo2, Ez. done. }
  exists (a ++ d ++ b ++ 0 :: tl3).
  assert ((if cursor l <? usedSize l
           then memmove (buf l) (cursor l + zlen d) (cursor l) (usedSize l - cursor l)
           else Some (buf l)) = Some ((a ++ old) ++ b ++ z ++ tl3)) as ->.
  { rewrite Hu, Hcur. destruct (Z.ltb_spec (zlen a) (zlen a + zlen b)).
    - apply (memmove_app _ a b (0 :: junk) (a ++ old) old2 (z ++ tl3)).
      + by rewrite Hb, <- app_assoc.
      + rewrite Hb2. by rewrite <- !app_assoc.
      + done.
      + rewrite zlen_app. lia.
      + done.
      + lia.
    - assert (b = []) as -> by (destruct b; [done|rewrite zlen_cons in *; pose proof (zlen_nonneg b); lia]).
      assert (old2 = []) as -> by (destruct old2; [done|rewrite zlen_cons in *; pose proof (zlen_nonneg old2); change (zlen (@nil Z)) with 0 in *; lia]).
      rewrite Hb2. by rewrite <- !app_assoc. }
  cbn [mbind option_bind].
  rewrite (memcpy_app _ a old (b ++ z ++ tl3) d) by (rewrite ?app_assoc; done || lia).
  cbn [mbind option_bind].
  rewrite (memcpy_app _ (a ++ d ++ b) z tl3 [0]) by (rewrite <- ?app_assoc, ?zlen_app; done || lia).
  cbn [mbind option_bind]. rewrite Hu, Hcur. split.
  - rewrite <- !app_assoc. cbn [app].
    replace (zlen a + zlen b + zlen d) with (zlen (a ++ d ++ b)) by (rewrite !zlen_app; lia). by rewrite !zlen_app.
  - constructor; cbn [buf usedSize bufSize cursor withText].
    + exists tl3. by rewrite <- !app_assoc.
    + by rewrite !zlen_app.
    + rewrite !zlen_app, zlen_cons. rewrite Ez, zlen_app, Hz in Htl. lia.
    + rewrite !zlen_app. lia.
Qed.

(** Both deletions move the tail over the deleted bytes. *)
Lemma delete_raw l a d b c :
  bufInv l (a ++ d ++ b) -> 0 <= c <= zlen (a ++ b) ->
  exists b', memmove (buf l) (zlen a) (zlen a + zlen d) (zlen b) = Some b' /\
    exists b'', memcpy b' (zlen a + zlen b) [0] = Some b'' /\
    bufInv (withText l b'' c (zlen a + zlen b)) (a ++ b).
Proof.
  intros [[junk Hb] Hu Hs Hcur] Hc. rewrite <- !app_assoc in Hb.
  assert (exists old tl, d ++ b ++ 0 :: junk = old ++ tl /\ zlen old = zlen b) as (old & tl & Eo & Ho).
  { destruct (split_at (d ++ b ++ 0 :: junk) (zlen b)) as (x & y & ? & ?); [|eauto].
    rewrite !zlen_app, zlen_cons. pose proof (zlen_nonneg d). pose proof (zlen_nonneg b).
    pose proof (zlen_nonneg junk). lia. }
  assert (zlen tl = zlen d + 1 + zlen junk) as Htl.
  { apply (f_equal zlen) in Eo. rewrite !zlen_app, zlen_cons in Eo. lia. }
  pose proof (zlen_nonneg d). pose proof (zlen_nonneg junk).
  destruct (split_at tl 1) as (z & tl3 & Ez & Hz); [lia|].
  exists (a ++ b ++ tl). split.
  { apply (memmove_app _ (a ++ d) b (0 :: junk) a old tl); try done.
    - by rewrite Hb, <- app_assoc.
    - by rewrite Hb, Eo.
    - by rewrite zlen_app. }
  exists (a ++ b ++ 0 :: tl3). split.
  { rewrite (memcpy_app _ (a ++ b) z tl3 [0]); [by rewrite <- app_assoc| |done|by rewrite zlen_app].
    rewrite Ez. by rewrite <- app_assoc. }
  constructor; cbn [buf usedSize bufSize cursor withText].
  - exists tl3. by rewrite <- app_assoc.
  - by rewrite zlen_app.
  - rewrite Hb, !zlen_app, zlen_cons in Hs. rewrite Ez, zlen_app, Hz in Htl.
    rewrite !zlen_app, zlen_cons. lia.
  - done.
Qed.

Lemma take_drop_app (a d r : bytes) : take (Z.to_nat (zlen d)) (drop (Z.to_nat (zlen a)) (a ++ d ++ r)) = d.
Proof. rewrite drop_zlen. apply take_zlen. Qed.

Lemma deleteTo_raw l a d b op :
  bufInv l (a ++ d ++ b) -> cursor l = zlen a + zlen d -> 0 < zlen d ->
  exists b', let l' := withText l b' (zlen a) (zlen a + zlen b) in
    deleteToCursor l (zlen d) op =
      Some (Some d, if trackChange_ op then trackChange l' DELETE_TO d (mergeChange op) else l') /\
    bufInv l' (a ++ b).
Proof.
  intros B Hcur Hd. pose proof B as [[junk Hb] Hu Hs Hc]. rewrite !zlen_app in *.
  pose proof (zlen_nonneg a). pose proof (zlen_nonneg b).
  unfold deleteToCursor. rewrite Hcur, Hu.
  replace (0 <? _) with true by (symmetry; apply Z.ltb_lt; lia).
  replace (0 <? zlen a + (zlen d + zlen b)) with true by (symmetry; apply Z.ltb_lt; lia).
  replace (0 <? zlen d) with true by (symmetry; apply Z.ltb_lt; lia).
  replace (zlen d <=? _) with true by (symmetry; apply Z.leb_le; lia). cbn [andb].
  replace (zlen a + zlen d - zlen d) with (zlen a) by lia.
  replace (zlen a + (zlen d + zlen b) - (zlen a + zlen d)) with (zlen b) by lia.
  replace (zlen a + (zlen d + zlen b) - zlen d) with (zlen a + zlen b) by lia.
  destruct (delete_raw l a d b (zlen a) B) as (b1 & -> & b2 & E2 & B2); [rewrite zlen_app; lia|].
  cbn [mbind option_bind]. rewrite E2. cbn [mbind option_bind].
  exists b2. split; [|done]. do 2 f_equal; rewrite Hb, <- !app_assoc, take_drop_app; done.
Qed.

Lemma deleteFrom_raw l a d b op :
  bufInv l (a ++ d ++ b) -> cursor l = zlen a -> 0 < zlen d ->
  exists b', let l' := withText l b' (zlen a) (zlen a + zlen b) in
    deleteFromCursor l (zlen d) op =
      Some (Some d, if trackChange_ op then trackChange l' DELETE_FROM d (mergeChange op) else l') /\
    bufInv l' (a ++ b).
Proof.
  intros B Hcur Hd. pose proof B as [[junk Hb] Hu Hs Hc]. rewrite !zlen_app in *.
  pose proof (zlen_nonneg a). pose proof (zlen_nonneg b).
  unfold deleteFromCursor. rewrite Hcur, Hu.
  replace (0 <? _) with true by (symmetry; apply Z.ltb_lt; lia).
  replace (zlen a <? _) with true by (symmetry; apply Z.ltb_lt; lia).
  replace (0 <? zlen d) with true by (symmetry; apply Z.ltb_lt; lia).
  replace (zlen d <=? _) with true by (symmetry; apply Z.leb_le; lia). cbn [andb].
  replace (zlen a + (zlen d + zlen b) - zlen a - zlen d) with (zlen b) by lia.
  replace (zlen a + (zlen d + zlen b) - zlen d) with (zlen a + zlen b) by lia.
  destruct (delete_raw l a d b (zlen a) B) as (b1 & -> & b2 & E2 & B2); [rewrite zlen_app; lia|].
  cbn [mbind option_bind]. rewrite E2. cbn [mbind option_bind].
  exists b2. split; [|done]. do 2 f_equal; rewrite Hb, <- !app_assoc, take_drop_app; done.
Qed.

(** * Edits of the text

    [edits n t e t']: the edit [e] takes [t] to [t'], texts of at most [n] bytes. *)

Definition edits (n : Z) (t : bytes) (e : Edit) (t' : bytes) : Prop :=
  zlen t <= n /\ zlen t' <= n /\
  exists a b, let d := editDelta e in
  match editType e with
  | INSERT => t = a ++ b /\ t' = a ++ d ++ b /\ editCursor e = zlen a + zlen d
  | DELETE_TO | DELETE_FROM =>
      t = a ++ d ++ b /\ t' = a ++ b /\ editCursor e = zlen a /\ 0 < zlen d
  end.

(** A chain of edits, the latest first. *)
Fixpoint editsAll (n : Z) (t : bytes) (es : list Edit) (t' : bytes) : Prop :=
  match es with
  | [] => t = t'
  | e :: rest => exists m, editsAll n t rest m /\ edits n m e t'
  end.

(** Two buffers that differ in their text and cursor only. *)
Definition sameBut (l l' : LineBuffer) : Prop := exists b c u, l' = withText l b c u.

Lemma sameBut_refl l : sameBut l l.
Proof. exists (buf l), (cursor l), (usedSize l). by destruct l. Qed.

Lemma sameBut_trans l1 l2 l3 : sameBut l1 l2 -> sameBut l2 l3 -> sameBut l1 l3.
Proof. intros (b & c & u & ->) (b' & c' & u' & ->). by exists b', c', u'. Qed.

Lemma sameBut_text l b c u : sameBut l (withText l b c u).
Proof. by exists b, c, u. Qed.

Lemma bufInv_cursor l a b c :
  bufInv l (a ++ b) -> c = zlen a -> bufInv (withCursor l c) (a ++ b) /\ cursor (withCursor l c) = zlen a.
Proof.
  intros B ->. split; [|done]. apply bufInv_withCursor; [done|]. rewrite zlen_app.
  pose proof (zlen_nonneg a). pose proof (zlen_nonneg b). lia.
Qed.

Lemma revertEdit_spec l t e t' :
  bufInv l t' -> edits (bufSize l) t e t' ->
  exists l', revertEdit l e = Some l' /\ sameBut l l' /\ bufInv l' t.
Proof.
  intros B (Ht & Ht' & a & b & E). unfold revertEdit. destruct e as [ty c d]. cbn in *.
  destruct ty; destruct E as (-> & -> & E).
  - destruct (bufInv_cursor l (a ++ d) b c) as [B1 C1]; [by rewrite <- app_assoc|by rewrite zlen_app|].
    destruct d as [|d0 d'].
    + rewrite (zlen_nil (A := Z)). unfold deleteToCursor. cbn [Z.ltb Z.compare].
      rewrite !andb_false_r. cbn. eexists. split; [done|]. split; [by eexists _, _, _|]. by rewrite app_nil_r in B1.
    + destruct (deleteTo_raw (withCursor l c) a (d0 :: d') b untracked) as (b' & -> & B').
      * by rewrite <- app_assoc in B1.
      * by rewrite zlen_app in C1.
      * rewrite zlen_cons. pose proof (zlen_nonneg d'). lia.
      * eexists. split; [done|]. split; [by eexists _, _, _|done].
  - destruct E as [-> Hd]. destruct (bufInv_cursor l a b (zlen a)) as [B1 C1]; [done..|].
    destruct (insert_raw (withCursor l (zlen a)) a b d) as (b' & -> & B'); [done..|].
    eexists. split; [done|]. split; [by eexists _, _, _|done].
  - destruct E as [-> Hd]. destruct (bufInv_cursor l a b (zlen a)) as [B1 C1]; [done..|].
    destruct (insert_raw (withCursor l (zlen a)) a b d) as (b' & -> & B'); [done..|].
    cbn [mbind option_bind]. eexists. split; [done|]. split; [by eexists _, _, _|].
    apply bufInv_withCursor; [done|]. rewrite zlen_app. pose proof (zlen_nonneg a).
    pose proof (zlen_nonneg (d ++ b)). lia.
Qed.

Lemma replayEdit_spec l t e t' :
  bufInv l t -> edits (bufSize l) t e t' ->
  exists l', replayEdit l e = Some l' /\ sameBut l l' /\ bufInv l' t' /\ cursor l' = editCursor e.
Proof.
  intros B (Ht & Ht' & a & b & E). unfold replayEdit. destruct e as [ty c d]. cbn in *.
  destruct ty; destruct E as (-> & -> & E).
  - destruct (bufInv_cursor l a b (c - zlen d)) as [B1 C1]; [done|lia|].
    destruct (insert_raw (withCursor l (c - zlen d)) a b d) as (b' & -> & B'); [done..|].
    eexists. split; [done|]. split; [by eexists _, _, _|]. split; [done|]. cbn. lia.
  - destruct E as [-> Hd].
    destruct (bufInv_cursor l (a ++ d) b (zlen a + zlen d)) as [B1 C1]; [by rewrite <- app_assoc|by rewrite zlen_app|].
    destruct (deleteTo_raw (withCursor l (zlen a + zlen d)) a d b untracked) as (b' & -> & B'); [|done..|].
    { by rewrite <- app_assoc in B1. }
    eexists. split; [done|]. split; [by eexists _, _, _|]. done.
  - destruct E as [-> Hd]. destruct (bufInv_cursor l a (d ++ b) (zlen a)) as [B1 C1]; [done..|].
    destruct (deleteFrom_raw (withCursor l (zlen a)) a d b untracked) as (b' & -> & B'); [done..|].
    eexists. split; [done|]. split; [by eexists _, _, _|]. done.
Qed.

Lemma sameBut_bufSize l l' : sameBut l l' -> bufSize l' = bufSize l.
Proof. by intros (b & c & u & ->). Qed.

Lemma revertAll_spec es : forall l t t',
  bufInv l t' -> editsAll (bufSize l) t es t' ->
  exists l', revertAll l es = Some l' /\ sameBut l l' /\ bufInv l' t.
Proof.
  induction es as [|e es IH]; intros l t t' B E; cbn in *; [subst; eauto using sameBut_refl|].
  destruct E as (m & E & E1). destruct (revertEdit_spec l m e t' B E1) as (l1 & -> & S1 & B1).
  cbn [mbind option_bind]. rewrite <- (sameBut_bufSize l l1 S1) in E.
  destruct (IH l1 t m B1 E) as (l2 & -> & S2 & B2). eauto using sameBut_trans.
Qed.

Lemma replayAll_app l es1 es2 :
  replayAll l (es1 ++ es2) = (l' ← replayAll l es1; replayAll l' es2).
Proof.
  revert l. induction es1 as [|e es1 IH]; intros l; [done|]. cbn.
  destruct (replayEdit l e) as [l'|]; [|done]. apply IH.
Qed.

Lemma replayAll_spec es : forall l t t',
  bufInv l t -> editsAll (bufSize l) t es t' ->
  exists l', replayAll l (rev es) = Some l' /\ sameBut l l' /\ bufInv l' t' /\
    (forall e, head es = Some e -> cursor l' = editCursor e).
Proof.
  induction es as [|e es IH]; intros l t t' B E; cbn [editsAll rev] in *.
  { subst. eexists. split; [done|]. split; [apply sameBut_refl|]. done. }
  destruct E as (m & E & E1). rewrite replayAll_app.
  destruct (IH l t m B E) as (l1 & -> & S1 & B1 & _). cbn [mbind option_bind replayAll].
  rewrite <- (sameBut_bufSize l l1 S1) in E1.
  destruct (replayEdit_spec l1 m e t' B1 E1) as (l2 & -> & S2 & B2 & C2). cbn.
  eexists. split; [done|]. split; [by eapply sameBut_trans|]. split; [done|]. by intros ? [= <-].
Qed.

(** * The history

    The specification is a zipper of texts: the texts before each change, the
    current one, and the ones that redo brings back. *)

(** The changes before the index, the latest first, and the texts they changed. *)
Fixpoint linkedPast (n : Z) (cur : bytes) (cs : list Change) (past : list bytes) : Prop :=
  match cs, past with
  | [], [] => True
  | c :: cs', t :: past' => editsAll n t (chain c) cur /\ linkedPast n t cs' past'
  | _, _ => False
  end.

Fixpoint linkedFuture (n : Z) (cur : bytes) (cs : list Change) (future : list bytes) : Prop :=
  match cs, future with
  | [], [] => True
  | c :: cs', t :: future' => editsAll n cur (chain c) t /\ linkedFuture n t cs' future'
  | _, _ => False
  end.

(** [history l past cur future]: the buffer shows [cur], and its changes are the
    steps between the texts of the zipper. *)
Record history (l : LineBuffer) (past : list bytes) (cur : bytes) (future : list bytes) : Prop := {
  hi_buf : bufInv l cur;
  hi_changes : exists before after,
    rep 4 (changes l) (rev before ++ after) /\ changeIndex l = zlen before /\
    linkedPast (bufSize l) cur before past /\ linkedFuture (bufSize l) cur after future
}.

Lemma linkedPast_length n cur cs past : linkedPast n cur cs past -> length cs = length past.
Proof.
  revert cur past. induction cs as [|c cs IH]; intros cur [|t past] L; cbn in *; try done.
  destruct L as [_ L]. by rewrite (IH _ _ L).
Qed.

Lemma linkedFuture_length n cur cs fut : linkedFuture n cur cs fut -> length cs = length fut.
Proof.
  revert cur fut. induction cs as [|c cs IH]; intros cur [|t fut] L; cbn in *; try done.
  destruct L as [_ L]. by rewrite (IH _ _ L).
Qed.

Lemma rep_lookup k {T} (r : RingBuffer T) (a : list T) x b i :
  rep k r (a ++ x :: b) -> i = zlen a -> RingBuffer.at_ r i = Some x.
Proof.
  intros R ->. pose proof (rep_size k r _ R). rewrite zlen_app, zlen_cons in *.
  pose proof (zlen_nonneg a). pose proof (zlen_nonneg b).
  rewrite (rep_at k r _ _ R) by lia. unfold zlen. by rewrite Nat2Z.id, list_lookup_middle.
Qed.

Lemma rep_update k {T} (r : RingBuffer T) (a : list T) x y b i :
  rep k r (a ++ x :: b) -> i = zlen a -> rep k (set_at r i y) (a ++ y :: b).
Proof.
  intros R ->. pose proof (zlen_nonneg a). pose proof (zlen_nonneg b).
  apply (rep_set_at k r _ (zlen a) y) in R; [|rewrite zlen_app, zlen_cons; lia].
  unfold zlen in *. rewrite Nat2Z.id in R. replace (length a) with (length a + 0)%nat in R by lia.
  by rewrite insert_app_r, Nat.add_0_r in R.
Qed.

(** What the operations never change. *)
Definition sameLimits (l l' : LineBuffer) : Prop :=
  bufSize l' = bufSize l /\ atomicEdit l' = atomicEdit l.

(** Undo shows the previous text, and nothing but an empty past makes it fail. *)
Lemma undo_spec l past cur future :
  history l past cur future ->
  match past with
  | [] => undo l = Some (false, l)
  | t :: past' => exists l', undo l = Some (true, l') /\ history l' past' t (cur :: future) /\ sameLimits l l'
  end.
Proof.
  intros [B (before & after & R & Hi & LP & LF)]. unfold undo.
  destruct before as [|c before], past as [|t past]; cbn [linkedPast] in LP; try done.
  { by rewrite Hi. }
  destruct LP as [E LP]. rewrite Hi, zlen_cons. pose proof (zlen_nonneg before).
  rewrite (proj2 (Z.eqb_neq _ 0)) by lia. replace (1 + zlen before - 1) with (zlen before) by lia.
  cbn [rev] in R. rewrite <- app_assoc in R. cbn [app] in R.
  assert (zlen before = zlen (rev before)) as Hz by (unfold zlen; by rewrite length_rev).
  rewrite (rep_lookup 4 (changes l) (rev before) c after) by done. cbn [mbind option_bind].
  pose proof (rep_update 4 (changes l) (rev before) c (withMerge c false) after (zlen before) R Hz) as R1.
  set (l1 := withChanges l _ _).
  destruct (revertAll_spec (chain c) l1 t cur) as (l2 & -> & (b & cc & u & ->) & B2).
  { by apply bufInv_withChanges. }
  { done. }
  cbn [mbind option_bind]. eexists. split; [done|]. split; [|done]. constructor; [done|].
  exists before, (withMerge c false :: after). cbn. done.
Qed.

Lemma redo_spec l past cur future :
  history l past cur future ->
  match future with
  | [] => redo l = Some (false, l)
  | t :: future' => exists l', redo l = Some (true, l') /\ history l' (cur :: past) t future' /\ sameLimits l l'
  end.
Proof.
  intros [B (before & after & R & Hi & LP & LF)]. unfold redo.
  assert (zlen before = zlen (rev before)) as Hz by (unfold zlen; by rewrite length_rev).
  rewrite (rep_size_eq 4 _ _ R), zlen_app, Hi, <- Hz. pose proof (zlen_nonneg after).
  destruct after as [|c after], future as [|t future]; cbn [linkedFuture] in LF; try done.
  { change (zlen (@nil Change)) with 0. rewrite Z.add_0_r, Z.eqb_refl. done. }
  destruct LF as [E LF]. rewrite zlen_cons. pose proof (zlen_nonneg after).
  rewrite (proj2 (Z.eqb_neq _ _)) by lia.
  rewrite (rep_lookup 4 (changes l) (rev before) c after) by done. cbn [mbind option_bind].
  pose proof (rep_update 4 (changes l) (rev before) c (withMerge c false) after (zlen before) R Hz) as R1.
  set (l1 := withChanges l _ _).
  destruct (replayAll_spec (chain c) l1 cur t) as (l2 & -> & (b & cc & u & ->) & B2 & _).
  { by apply bufInv_withChanges. }
  { done. }
  cbn [mbind option_bind]. eexists. split; [done|]. split; [|done]. constructor; [done|].
  exists (withMerge c false :: before), after. cbn. rewrite <- app_assoc. cbn [app].
  rewrite zlen_cons. split; [done|]. split; [lia|]. done.
Qed.

(** ** Tracking a change *)

(** The number of changes the ring keeps. *)
Definition HISTORY : nat := 15.

Lemma app_inj_zlen (a b a' b' : bytes) : a ++ b = a' ++ b' -> zlen a = zlen a' -> a = a' /\ b = b'.
Proof. intros E L. apply app_inj_1; [unfold zlen in L; lia|done]. Qed.

(** Cutting a prefix of a known length. *)
Lemma app_cut (a b x : bytes) y : a ++ b = x ++ y -> zlen x <= zlen a -> exists z, a = x ++ z /\ y = z ++ b.
Proof.
  intros E L. destruct (split_at a (zlen x)) as (x' & z & -> & Hx); [pose proof (zlen_nonneg x); lia|].
  rewrite <- app_assoc in E. apply app_inj_zlen in E as [-> <-]; [|done]. eauto.
Qed.

(** Merging two consecutive changes gives the change from the first text to the last. *)
Lemma tryMerge_spec c o c' n m cur cur' :
  tryMerge c o = Some c' -> edits n m (toEdit c) cur -> edits n cur (toEdit o) cur' ->
  chPrev c' = chPrev c /\ edits n m (toEdit c') cur'.
Proof.
  unfold tryMerge. destruct (negb (chMerge c) || negb (chMerge o)); [done|].
  destruct c as [ty mg cc dc pv], o as [ty' mg' co do pv']. cbn [chType chCursor chDelta chMerge chPrev].
  destruct (decide (ty = ty')) as [<-|]; [|done].
  intros E (Hm & _ & a & b & E1) (_ & Hcur' & a' & b' & E2). cbn in E1, E2.
  destruct ty; cbn in E.
  - revert E. destruct (Z.eqb_spec cc (co - zlen do)); [|done]. intros [= <-]. subst cc. split; [done|].
    split; [done|]. split; [done|]. destruct E1 as (-> & -> & E1), E2 as (E & -> & E2).
    rewrite app_assoc in E. apply app_inj_zlen in E as [<- <-]; [|rewrite zlen_app; lia].
    exists a, b. cbn. rewrite <- !app_assoc, !zlen_app. split; [done|]. split; [done|lia].
  - revert E. destruct (Z.eqb_spec cc (co + zlen do)); [|done]. intros [= <-]. subst cc. split; [done|].
    split; [done|]. split; [done|]. destruct E1 as (-> & -> & E1 & Hd), E2 as (E & -> & E2 & Hd').
    rewrite app_assoc in E. apply app_inj_zlen in E as [-> <-]; [|rewrite zlen_app; lia].
    exists a', b. cbn. rewrite <- !app_assoc, !zlen_app. repeat split; try done; lia.
  - revert E. destruct (Z.eqb_spec cc co); [|done]. intros [= <-]. subst cc. split; [done|].
    split; [done|]. split; [done|]. destruct E1 as (-> & -> & E1 & Hd), E2 as (E & -> & E3 & Hd').
    apply app_inj_zlen in E as [<- ->]; [|lia].
    exists a, b'. cbn. rewrite <- !app_assoc, !zlen_app. repeat split; try done; lia.
Qed.

Lemma popWhile_spec fuel : forall r before after,
  rep 4 r (before ++ after) -> (length after <= fuel)%nat -> rep 4 (popWhile fuel (zlen before) r) before.
Proof.
  induction fuel as [|fuel IH]; intros r before after R Hf; cbn [popWhile].
  { destruct after; [by rewrite app_nil_r in R|cbn in Hf; lia]. }
  rewrite (rep_size_eq 4 _ _ R), zlen_app.
  destruct after as [|x after _] using rev_ind.
  { change (zlen (@nil Change)) with 0. rewrite Z.add_0_r, Z.ltb_irrefl. by rewrite app_nil_r in R. }
  rewrite zlen_app. change (zlen [x]) with 1. pose proof (zlen_nonneg after).
  rewrite (proj2 (Z.ltb_lt _ _)) by lia. apply (IH _ _ after).
  - rewrite app_assoc in R. by apply (rep_pop_back 4 r _ x).
  - rewrite length_app in Hf. cbn in Hf. lia.
Qed.

Lemma zlen_rev {A} (l : list A) : zlen (rev l) = zlen l.
Proof. unfold zlen. by rewrite length_rev. Qed.

Lemma forget_spec l (before after : list Change) :
  rep 4 (changes l) (rev before ++ after) -> changeIndex l = zlen before ->
  rep 4 (forget l) (rev before).
Proof.
  intros R Hi. unfold forget. rewrite Hi, <- (zlen_rev before). apply (popWhile_spec _ _ _ after); [done|].
  rewrite (rep_size_eq 4 _ _ R), zlen_app. unfold zlen. lia.
Qed.

Lemma linkedPast_take n k : forall cur cs past,
  linkedPast n cur cs past -> linkedPast n cur (take k cs) (take k past).
Proof.
  induction k as [|k IH]; intros cur [|c cs] [|t past]; cbn; try done.
  intros [E L]. split; [done|]. by apply IH.
Qed.

(** A pushed change is the latest; the oldest of a full ring is forgotten. *)
Lemma push_change (r : RingBuffer Change) (before : list Change) c :
  rep 4 r (rev before) -> rep 4 (push_back r c) (rev (take HISTORY (c :: before))).
Proof.
  intros R. pose proof (rep_size 4 r _ R) as Hs. rewrite zlen_rev in Hs. change (2 ^ 4 - 1) with 15 in Hs.
  apply (rep_push_back 4 r _ c) in R. change (2 ^ 4 - 1) with 15 in R. unfold pushBounded in R.
  rewrite zlen_rev in R. unfold HISTORY. change (take 15 (c :: before)) with (c :: take 14 before).
  cbn [rev]. unfold zlen in *. destruct (Z.ltb_spec (Z.of_nat (length before)) 15).
  - by rewrite take_ge by lia.
  - replace (tail (rev before)) with (rev (take 14 before)) in R; [done|].
    destruct before as [|x before _] using rev_ind; [done|].
    rewrite length_app in *. cbn in *. rewrite rev_app_distr. cbn.
    by rewrite take_app_length' by lia.
Qed.

(** What an edit does to the zipper: the future is forgotten, and the current text
    becomes a new step, or the last step is extended to reach the new text. *)
Definition editStep (past : list bytes) (cur : bytes) (merge atomic : bool) (past' : list bytes) : Prop :=
  (past' = take HISTORY (cur :: past) \/ past' = past /\ past <> []) /\
  (merge = false -> atomic = false -> past' = take HISTORY (cur :: past)) /\
  (atomic = true -> past <> [] -> past' = past).

(** The text of [l] has been changed by an edit that the history does not have yet. *)
Lemma trackChange_spec l l' op d merge past cur future cur' :
  history l past cur future -> sameBut l l' -> bufInv l' cur' ->
  edits (bufSize l) cur {| editType := op; editCursor := cursor l'; editDelta := d |} cur' ->
  exists past', history (trackChange l' op d merge) past' cur' [] /\
    editStep past cur merge (atomicEdit l) past'.
Proof.
  intros [B (before & after & R & Hi & LP & LF)] (b & cc & u & ->) B' E.
  set (l1 := withText l b cc u) in *.
  pose proof (forget_spec l1 before after R Hi) as Rf. unfold trackChange.
  set (newChange := {| chType := op; chMerge := merge; chCursor := cursor l1; chDelta := d; chPrev := [] |}).
  assert (forall (c' : Change) r' (bs : list Change) ps, rep 4 r' (rev bs) -> linkedPast (bufSize l) cur' (c' :: bs) ps ->
            history (withChanges l1 (push_back r' c') (size (push_back r' c')))
              (take HISTORY ps) cur' []) as Hpush.
  { intros c' r' bs ps R' L. apply push_change with (c := c') in R'. constructor; [by apply bufInv_withChanges|].
    exists (take HISTORY (c' :: bs)), []. rewrite app_nil_r. split; [done|].
    split; [by rewrite (rep_size_eq 4 _ _ R'), zlen_rev|]. split; [by apply linkedPast_take|done]. }
  assert (editsAll (bufSize l) cur (chain newChange) cur') as Enew by (cbn; eauto).
  assert (bool_decide (rev before = []) = bool_decide (before = [])) as Hnil.
  { destruct before as [|x bs]; [done|]. apply bool_decide_ext. cbn. split; [|done].
    by destruct (rev bs). }
  rewrite (rep_empty 4 _ _ Rf), Hnil.
  destruct before as [|last before], past as [|prev past]; cbn [linkedPast] in LP; try done; cbn [bool_decide decide decide_rel].
  { exists (take HISTORY [cur]). split; [by apply (Hpush newChange _ [])|]. by split; [left|split]. }
  rewrite bool_decide_eq_false_2 by done.
  destruct LP as [EL LP]. cbn [rev] in Rf.
  rewrite (rep_back_eq 4 _ _ Rf) by (by destruct (rev before)). rewrite last_snoc.
  destruct (tryMerge last newChange) as [merged|] eqn:Em.
  - exists (prev :: past). split.
    + pose proof (rep_set_back 4 _ _ last (withMerge merged true) Rf) as Rs.
      constructor; [by apply bufInv_withChanges|].
      exists (withMerge merged true :: before), []. rewrite app_nil_r. split; [done|]. split; [done|].
      split; [|done]. split; [|done]. cbn in EL |- *. destruct EL as (m & EL & E1).
      destruct (tryMerge_spec _ _ _ _ _ _ _ Em E1 E) as [-> E2]. by exists m.
    + split; [by right|]. split; [|done]. intros -> _. unfold tryMerge in Em. cbn in Em. by rewrite orb_true_r in Em.
  - change (atomicEdit l1) with (atomicEdit l). destruct (atomicEdit l).
    + apply rep_pop_back in Rf. exists (take HISTORY (prev :: past)). split.
      * apply (Hpush _ _ before); [done|]. split; [|done].
        change (editsAll (bufSize l) prev (toEdit newChange :: chain last) cur'). by exists cur.
      * assert (take HISTORY (prev :: past) = prev :: past) as ->; [|by split; [right|split]].
        rewrite take_ge; [done|]. pose proof (rep_size 4 _ _ R) as Hs. rewrite zlen_app, zlen_rev in Hs.
        pose proof (zlen_nonneg after). apply linkedPast_length in LP. unfold zlen in *.
        change (2 ^ 4 - 1) with 15 in Hs. cbn in Hs |- *. unfold HISTORY. lia.
    + exists (take HISTORY (cur :: prev :: past)). split; [|by split; [left|split]].
      apply (Hpush _ _ (withMerge last false :: before)); [by apply (rep_set_back 4 _ _ last)|]. done.
Qed.

(** ** The operations of the editor *)

Lemma trackChange_cursor l op d merge : cursor (trackChange l op d merge) = cursor l.
Proof. unfold trackChange. by repeat case_on. Qed.

Lemma trackChange_limits l op d merge : sameLimits l (trackChange l op d merge).
Proof. unfold trackChange, sameLimits. by repeat case_on. Qed.

Lemma tracked_insert l d merge l' :
  insertToCursor l d untracked = Some (true, l') ->
  insertToCursor l d (tracked merge) = Some (true, trackChange l' INSERT d merge).
Proof.
  unfold insertToCursor. cbn [trackChange_ tracked untracked mergeChange].
  destruct (usedSize l + zlen d <=? bufSize l); [|done].
  destruct (match d with [] => Some l | _ => _ end) as [l1|]; [|done].
  cbn [mbind option_bind]. by intros [= ->].
Qed.

(** Inserting at the cursor is safe within the array: it fails exactly when the
    text would not fit, leaving the buffer as it is; otherwise the bytes are spliced
    in at the cursor, the cursor follows them, and the change becomes the latest step
    of the history. *)
Lemma insert_step l past cur future d merge :
  history l past cur future ->
  let c := Z.to_nat (cursor l) in
  if zlen cur + zlen d <=? bufSize l then
    exists l' past', insertToCursor l d (tracked merge) = Some (true, l') /\
      history l' past' (take c cur ++ d ++ drop c cur) [] /\
      cursor l' = cursor l + zlen d /\ editStep past cur merge (atomicEdit l) past' /\ sameLimits l l'
  else insertToCursor l d (tracked merge) = Some (false, l).
Proof.
  intros H c. pose proof H as [B _]. pose proof B as [_ Hu _ Hc].
  destruct (Z.leb_spec (zlen cur + zlen d) (bufSize l)).
  2: { unfold insertToCursor. rewrite Hu, (proj2 (Z.leb_gt _ _)) by lia. done. }
  assert (zlen (take c cur) = cursor l) as Ha by (unfold c, zlen in *; rewrite length_take; lia).
  assert (zlen (take c cur ++ d ++ drop c cur) = zlen cur + zlen d) as Hz.
  { rewrite !zlen_app. rewrite <- (take_drop c cur) at 3. rewrite zlen_app. lia. }
  destruct (insert_raw l (take c cur) (drop c cur) d) as (b' & Ei & B').
  { by rewrite take_drop. }
  { done. }
  { lia. }
  pose proof (tracked_insert l d merge _ Ei) as Et.
  destruct (trackChange_spec l (withText l b' (zlen (take c cur) + zlen d) (zlen (take c cur ++ d ++ drop c cur)))
              INSERT d merge past cur future _ H (sameBut_text _ _ _ _) B') as (past' & H' & Hs).
  { split; [pose proof (zlen_nonneg d); lia|]. split; [lia|].
    exists (take c cur), (drop c cur). by rewrite take_drop. }
  eexists _, past'. split; [exact Et|]. split; [done|].
  split; [rewrite trackChange_cursor; cbn; lia|]. split; [done|].
  exact (trackChange_limits (withText l _ _ _) _ _ _).
Qed.

(** The text around the cursor. *)
Lemma cut_before (cur : bytes) c n :
  0 <= n <= c -> c <= zlen cur ->
  exists a d b, cur = a ++ d ++ b /\ zlen a = c - n /\ zlen d = n /\
    a = take (Z.to_nat (c - n)) cur /\ b = drop (Z.to_nat c) cur /\
    d = take (Z.to_nat n) (drop (Z.to_nat (c - n)) cur).
Proof.
  intros Hn Hc. destruct (split_at cur (c - n)) as (a & r & -> & Ha); [lia|].
  rewrite zlen_app in Hc. destruct (split_at r n) as (d & b & -> & Hd); [lia|].
  exists a, d, b. split; [done|]. split; [done|]. split; [done|].
  split; [by rewrite <- Ha, take_zlen|]. split; [|by rewrite <- Ha, drop_zlen, <- Hd, take_zlen].
  replace c with (zlen (a ++ d)) by (rewrite zlen_app; lia). by rewrite app_assoc, drop_zlen.
Qed.

(** Deleting to the left of the cursor fails exactly when there are not that many
    bytes (or none are asked for), and then changes nothing; otherwise it returns the
    deleted bytes, the text is what is left, and the change becomes the latest step. *)
Lemma deleteTo_step l past cur future n merge :
  history l past cur future ->
  if (0 <? n) && (n <=? cursor l) then
    exists l' past', let a := take (Z.to_nat (cursor l - n)) cur in
      deleteToCursor l n (tracked merge) =
        Some (Some (take (Z.to_nat n) (drop (Z.to_nat (cursor l - n)) cur)), l') /\
      history l' past' (a ++ drop (Z.to_nat (cursor l)) cur) [] /\
      cursor l' = cursor l - n /\ editStep past cur merge (atomicEdit l) past' /\ sameLimits l l'
  else deleteToCursor l n (tracked merge) = Some (None, l).
Proof.
  intros H. pose proof H as [B _]. pose proof B as [_ Hu Hsz Hc].
  destruct (Z.ltb_spec 0 n) as [Hn|Hn], (Z.leb_spec n (cursor l)) as [Hnc|Hnc]; cbn [andb].
  2-4: unfold deleteToCursor; 
    destruct (Z.ltb_spec 0 n), (Z.leb_spec n (cursor l)); try lia; by rewrite ?andb_false_r.
  destruct (cut_before cur (cursor l) n) as (a & d & b & -> & Ha & Hd & Ea & Eb & Ed); [lia..|].
  destruct (deleteTo_raw l a d b (tracked merge)) as (b' & Edel & B'); [done|lia|lia|].
  cbn [trackChange_ tracked mergeChange] in Edel. rewrite Hd in Edel.
  destruct (trackChange_spec l (withText l b' (zlen a) (zlen a + zlen b)) DELETE_TO d merge
              past _ future _ H (sameBut_text _ _ _ _) B') as (past' & H' & Hs).
  { rewrite !zlen_app in *. pose proof (zlen_nonneg a). pose proof (zlen_nonneg b).
    destruct B as [[junk Hb] _ _ _]. apply (f_equal zlen) in Hb. rewrite !zlen_app, zlen_cons in Hb.
    pose proof (zlen_nonneg junk).
    split; [rewrite !zlen_app; lia|]. split; [rewrite zlen_app; lia|]. exists a, b. cbn. split; [done|]. split; [done|]. lia. }
  eexists _, past'. cbn zeta. rewrite <- Ea, <- Eb, <- Ed. split; [exact Edel|]. split; [exact H'|].
  split; [rewrite trackChange_cursor; cbn; lia|]. split; [exact Hs|].
  exact (trackChange_limits (withText l _ _ _) _ _ _).
Qed.

(** Deleting to the right of the cursor, likewise; the cursor does not move. *)
Lemma deleteFrom_step l past cur future n merge :
  history l past cur future ->
  if (0 <? n) && (n <=? zlen cur - cursor l) then
    exists l' past',
      deleteFromCursor l n (tracked merge) =
        Some (Some (take (Z.to_nat n) (drop (Z.to_nat (cursor l)) cur)), l') /\
      history l' past' (take (Z.to_nat (cursor l)) cur ++ drop (Z.to_nat (cursor l + n)) cur) [] /\
      cursor l' = cursor l /\ editStep past cur merge (atomicEdit l) past' /\ sameLimits l l'
  else deleteFromCursor l n (tracked merge) = Some (None, l).
Proof.
  intros H. pose proof H as [B _]. pose proof B as [_ Hu Hsz Hc].
  destruct (Z.ltb_spec 0 n) as [Hn|Hn], (Z.leb_spec n (zlen cur - cursor l)) as [Hnc|Hnc]; cbn [andb].
  2-4: unfold deleteFromCursor; rewrite Hu;
    destruct (Z.ltb_spec 0 n), (Z.leb_spec n (zlen cur - cursor l)); try lia; by rewrite ?andb_false_r.
  destruct (cut_before cur (cursor l + n) n) as (a & d & b & -> & Ha & Hd & Ea & Eb & Ed); [lia..|].
  replace (cursor l + n - n) with (cursor l) in * by lia.
  destruct (deleteFrom_raw l a d b (tracked merge)) as (b' & Edel & B'); [done|lia|lia|].
  cbn [trackChange_ tracked mergeChange] in Edel. rewrite Hd in Edel.
  destruct (trackChange_spec l (withText l b' (zlen a) (zlen a + zlen b)) DELETE_FROM d merge
              past _ future _ H (sameBut_text _ _ _ _) B') as (past' & H' & Hs).
  { rewrite !zlen_app in *. pose proof (zlen_nonneg a). pose proof (zlen_nonneg b).
    destruct B as [[junk Hb] _ _ _]. apply (f_equal zlen) in Hb. rewrite !zlen_app, zlen_cons in Hb.
    pose proof (zlen_nonneg junk).
    split; [rewrite !zlen_app; lia|]. split; [rewrite zlen_app; lia|]. exists a, b. cbn. split; [done|]. split; [done|]. lia. }
  eexists _, past'. cbn zeta. rewrite <- Ea, <- Eb, <- Ed. split; [exact Edel|]. split; [exact H'|].
  split; [rewrite trackChange_cursor; cbn; lia|]. split; [exact Hs|].
  exact (trackChange_limits (withText l _ _ _) _ _ _).
Qed.

(** C8: Undo shows the text before the last step and redo brings the undone text back;
    together they leave the history as it was.  They fail exactly at its ends. *)
Theorem undo_redo_roundtrip l past cur future :
  history l past cur future ->
  match past with
  | [] => undo l = Some (false, l)
  | t :: past' =>
      exists l1 l2, undo l = Some (true, l1) /\ history l1 past' t (cur :: future) /\ get l1 = t /\
        redo l1 = Some (true, l2) /\ history l2 past cur future /\ get l2 = cur
  end /\
  (redo l = Some (false, l) <-> future = []).
Proof.
  intros H.
  assert (forall l t p f, history l p t f -> get l = t) as Hget.
  { intros l0 t p f [[[junk Hb] Hu _ _] _]. unfold get. by rewrite Hb, Hu, take_zlen. }
  split.
  - pose proof (undo_spec l past cur future H) as U. destruct past as [|t past]; [done|].
    destruct U as (l1 & U & H1 & _). pose proof (redo_spec l1 past t (cur :: future) H1) as (l2 & R & H2 & _).
    exists l1, l2. eauto 10.
  - pose proof (redo_spec l past cur future H) as R. destruct future as [|t future]; [done|].
    destruct R as (l' & -> & _ & _). done.
Qed.

(** ** Sequences of commands *)

Inductive Cmd :=
| CInsert (d : bytes) (merge : bool)
| CDeleteTo (n : Z) (merge : bool)
| CDeleteFrom (n : Z) (merge : bool)
| CUndo
| CRedo
| CCommit
| CSetCursor (v : Z).

Definition isSome {A} (o : option A) : bool := match o with Some _ => true | None => false end.

(** The result of the operation and the buffer; [None] outside of the array. *)
Definition exec (l : LineBuffer) (c : Cmd) : option (bool * LineBuffer) :=
  match c with
  | CInsert d merge => insertToCursor l d (tracked merge)
  | CDeleteTo n merge => '(o, l) ← deleteToCursor l n (tracked merge); Some (isSome o, l)
  | CDeleteFrom n merge => '(o, l) ← deleteFromCursor l n (tracked merge); Some (isSome o, l)
  | CUndo => undo l
  | CRedo => redo l
  | CCommit => l ← commitLastChange l; Some (true, l)
  | CSetCursor v => Some (true, setCursor l v)
  end.

(** The specification: the zipper of texts and the position of the cursor. *)
Record Editor := { zPast : list bytes; zText : bytes; zFuture : list bytes; zPos : Z }.

Definition sliceTo (t : bytes) (a : Z) : bytes := take (Z.to_nat a) t.
Definition sliceFrom (t : bytes) (a : Z) : bytes := drop (Z.to_nat a) t.

(** An edit that replaces the text; [n] is the size limit. *)
Inductive zstep (n : Z) (atomic : bool) : Cmd -> Editor -> bool -> Editor -> Prop :=
| ZInsert d merge p t f c p' :
    zlen t + zlen d <= n -> editStep p t merge atomic p' ->
    zstep n atomic (CInsert d merge) {| zPast := p; zText := t; zFuture := f; zPos := c |} true
      {| zPast := p'; zText := sliceTo t c ++ d ++ sliceFrom t c; zFuture := []; zPos := c + zlen d |}
| ZInsertFull d merge e :
    n < zlen (zText e) + zlen d -> zstep n atomic (CInsert d merge) e false e
| ZDeleteTo k merge p t f c p' :
    0 < k <= c -> editStep p t merge atomic p' ->
    zstep n atomic (CDeleteTo k merge) {| zPast := p; zText := t; zFuture := f; zPos := c |} true
      {| zPast := p'; zText := sliceTo t (c - k) ++ sliceFrom t c; zFuture := []; zPos := c - k |}
| ZDeleteToNone k merge e :
    ~ 0 < k <= zPos e -> zstep n atomic (CDeleteTo k merge) e false e
| ZDeleteFrom k merge p t f c p' :
    0 < k <= zlen t - c -> editStep p t merge atomic p' ->
    zstep n atomic (CDeleteFrom k merge) {| zPast := p; zText := t; zFuture := f; zPos := c |} true
      {| zPast := p'; zText := sliceTo t c ++ sliceFrom t (c + k); zFuture := []; zPos := c |}
| ZDeleteFromNone k merge e :
    ~ 0 < k <= zlen (zText e) - zPos e -> zstep n atomic (CDeleteFrom k merge) e false e
| ZUndo p prev t f c c' :
    0 <= c' <= zlen prev ->
    zstep n atomic CUndo {| zPast := prev :: p; zText := t; zFuture := f; zPos := c |} true
      {| zPast := p; zText := prev; zFuture := t :: f; zPos := c' |}
| ZUndoNone e : zPast e = [] -> zstep n atomic CUndo e false e
| ZRedo p t next f c c' :
    0 <= c' <= zlen next ->
    zstep n atomic CRedo {| zPast := p; zText := t; zFuture := next :: f; zPos := c |} true
      {| zPast := t :: p; zText := next; zFuture := f; zPos := c' |}
| ZRedoNone e : zFuture e = [] -> zstep n atomic CRedo e false e
| ZCommit e : zstep n atomic CCommit e true e
| ZSetCursor v e :
    zstep n atomic (CSetCursor v) e true
      {| zPast := zPast e; zText := zText e; zFuture := zFuture e; zPos := Z.min v (zlen (zText e)) |}.

(** The buffer represents the editor. *)
Definition represents (l : LineBuffer) (e : Editor) : Prop :=
  history l (zPast e) (zText e) (zFuture e) /\ cursor l = zPos e.

Definition validCmd (c : Cmd) : Prop := match c with CSetCursor v => 0 <= v | _ => True end.

Lemma commit_spec l past cur future :
  history l past cur future ->
  exists l', commitLastChange l = Some l' /\ history l' past cur future /\
    cursor l' = cursor l /\ sameLimits l l'.
Proof.
  intros H. pose proof H as [B (before & after & R & Hi & LP & LF)]. unfold commitLastChange.
  destruct before as [|c before], past as [|prev past]; cbn [linkedPast] in LP; try done.
  { rewrite Hi. cbn. by exists l. }
  rewrite Hi, zlen_cons. pose proof (zlen_nonneg before).
  rewrite (proj2 (Z.ltb_lt _ _)) by lia. replace (1 + zlen before - 1) with (zlen before) by lia.
  cbn [rev] in R. rewrite <- app_assoc in R. cbn [app] in R.
  assert (zlen before = zlen (rev before)) as Hz by (by rewrite zlen_rev).
  rewrite (rep_lookup 4 (changes l) (rev before) c after) by done. cbn [mbind option_bind].
  eexists. split; [done|]. split; [|done]. constructor; [by apply bufInv_withChanges|].
  exists (withMerge c false :: before), after. cbn [rev]. rewrite <- app_assoc. cbn [app].
  split; [by apply (rep_update 4 _ _ c)|]. by rewrite zlen_cons.
Qed.

(** One command of the buffer is one step of the specification. *)
Lemma exec_step l e c :
  represents l e -> validCmd c ->
  exists r l' e', exec l c = Some (r, l') /\ zstep (bufSize l) (atomicEdit l) c e r e' /\
    represents l' e' /\ sameLimits l l'.
Proof.
  destruct e as [p t f pos]. intros [H Hp] Hv. cbn [zPast zText zFuture zPos] in *. subst pos.
  destruct c as [d m|n m|n m| | | |v]; cbn [exec].
  - pose proof (insert_step l p t f d m H) as S. cbn zeta in S.
    destruct (Z.leb_spec (zlen t + zlen d) (bufSize l)).
    + destruct S as (l' & p' & -> & H' & Hc & Hs & Hl). eexists _, _, _. split; [done|].
      split; [by apply ZInsert|]. by split; [split|].
    + rewrite S. eexists _, _, _. split; [done|]. split; [by apply ZInsertFull|]. by split; [split|].
  - pose proof (deleteTo_step l p t f n m H) as S. cbn zeta in S.
    destruct (Z.ltb_spec 0 n), (Z.leb_spec n (cursor l)); cbn [andb] in S;
      [destruct S as (l' & p' & -> & H' & Hc & Hs & Hl); cbn [mbind option_bind];
         eexists _, _, _; split; [done|]; split; [by apply ZDeleteTo|]; by split; [split|]
      |rewrite S; cbn [mbind option_bind]; eexists _, _, _; split; [done|];
         (split; [apply ZDeleteToNone; cbn; lia|]); by split; [split|]..].
  - pose proof (deleteFrom_step l p t f n m H) as S. cbn zeta in S.
    destruct (Z.ltb_spec 0 n), (Z.leb_spec n (zlen t - cursor l)); cbn [andb] in S;
      [destruct S as (l' & p' & -> & H' & Hc & Hs & Hl); cbn [mbind option_bind];
         eexists _, _, _; split; [done|]; split; [by apply ZDeleteFrom|]; by split; [split|]
      |rewrite S; cbn [mbind option_bind]; eexists _, _, _; split; [done|];
         (split; [apply ZDeleteFromNone; cbn; lia|]); by split; [split|]..].
  - pose proof (undo_spec l p t f H) as S. destruct p as [|prev p].
    + rewrite S. eexists _, _, _. split; [done|]. split; [by apply ZUndoNone|]. by split; [split|].
    + destruct S as (l' & -> & H' & Hl). pose proof H' as [[_ _ _ Hc'] _].
      eexists _, _, _. split; [done|]. split; [by apply ZUndo|]. by split; [split|].
  - pose proof (redo_spec l p t f H) as S. destruct f as [|next f].
    + rewrite S. eexists _, _, _. split; [done|]. split; [by apply ZRedoNone|]. by split; [split|].
    + destruct S as (l' & -> & H' & Hl). pose proof H' as [[_ _ _ Hc'] _].
      eexists _, _, _. split; [done|]. split; [by apply ZRedo|]. by split; [split|].
  - destruct (commit_spec l p t f H) as (l' & -> & H' & Hc & Hl). cbn [mbind option_bind].
    eexists _, _, _. split; [done|]. split; [apply ZCommit|]. by split; [split|].
  - eexists _, _, _. split; [done|]. split; [apply ZSetCursor|]. split; [|done].
    destruct H as [B Hch]. pose proof B as [_ Hu _ _]. split; cbn; [|by rewrite Hu].
    split; [|done]. apply bufInv_withCursor; [done|]. cbn in Hv.
    pose proof (zlen_nonneg t). lia.
Qed.

Fixpoint execAll (l : LineBuffer) (cs : list Cmd) : option LineBuffer :=
  match cs with
  | [] => Some l
  | c :: rest => '(_, l) ← exec l c; execAll l rest
  end.

(** Runs of the specification. *)
Inductive zsteps (n : Z) (atomic : bool) : list Cmd -> Editor -> Editor -> Prop :=
| ZNil e : zsteps n atomic [] e e
| ZCons c cs e r e1 e2 :
    zstep n atomic c e r e1 -> zsteps n atomic cs e1 e2 -> zsteps n atomic (c :: cs) e e2.

Lemma execAll_steps cs : forall l e,
  represents l e -> Forall validCmd cs ->
  exists l' e', execAll l cs = Some l' /\ zsteps (bufSize l) (atomicEdit l) cs e e' /\
    represents l' e' /\ sameLimits l l'.
Proof.
  induction cs as [|c cs IH]; intros l e R Hv.
  { exists l, e. split; [done|]. split; [constructor|]. done. }
  apply Forall_cons in Hv as [Hc Hv].
  destruct (exec_step l e c R Hc) as (r & l1 & e1 & E1 & S1 & R1 & L1 & L2).
  destruct (IH l1 e1 R1 Hv) as (l2 & e2 & E2 & S2 & R2 & L3 & L4).
  exists l2, e2. cbn [execAll]. rewrite E1. cbn [mbind option_bind]. split; [done|].
  rewrite L1, L2 in S2. split; [by econstructor|]. split; [done|]. split; congruence.
Qed.

Definition emptyEditor : Editor := {| zPast := []; zText := []; zFuture := []; zPos := 0 |}.

Lemma make_represents b : 0 < zlen b -> represents (make b (zlen b)) emptyEditor.
Proof.
  intros Hb. split; [|done]. destruct b as [|x b]; [done|]. constructor.
  - constructor; cbn; [by exists b|done| |]; rewrite ?zlen_cons in *; [unfold zlen in *; cbn; lia|done].
  - exists [], []. split; [|done]. apply (rep_make 10). lia.
Qed.



(** A failed atomic edit, whatever commands it made (it can neither undo nor redo:
    every step of it extends one change). *)
Definition isEdit (c : Cmd) : bool :=
  match c with CInsert _ _ | CDeleteTo _ _ | CDeleteFrom _ _ | CSetCursor _ => true | _ => false end.

Lemma zsteps_atomic n cs e e' :
  zsteps n true cs e e' -> Forall (fun c => isEdit c = true) cs -> zPast e <> [] -> zFuture e = [] ->
  zPast e' = zPast e /\ zFuture e' = [].
Proof.
  induction 1 as [|c cs e r e1 e2 S _ IH]; intros Hc Hp Hf; [done|].
  apply Forall_cons in Hc as [Hc Hcs].
  assert (zPast e1 = zPast e /\ zFuture e1 = []) as [E1 E2].
  { inversion S; subst; try done; cbn [zPast zFuture] in *;
      match goal with E : editStep _ _ _ true _ |- _ =>
        destruct E as (_ & _ & Hsame); split; [by apply Hsame|done] end. }
  rewrite <- E1. apply IH; [done|by rewrite E1|done].
Qed.

(** C9: When the function of an atomic edit reports a failure, the text and the cursor
    are what they were before it, no matter how many insertions and deletions it made. *)
Theorem atomic_edit_rollback l past cur future cs :
  history l past cur future -> atomicEdit l = false ->
  Forall validCmd cs -> Forall (fun c => isEdit c = true) cs ->
  exists l' past', intoAtomicEdit l (fun l => l ← execAll l cs; Some (false, l)) = Some (false, l') /\
    history l' past' cur [] /\ get l' = cur /\ cursor l' = cursor l /\ atomicEdit l' = false.
Proof.
  intros H Ha Hv He. pose proof (bufInv_fits l cur (hi_buf _ _ _ _ H)) as Hfit. unfold intoAtomicEdit.
  pose proof (insert_step l past cur future [] false H) as S. cbn zeta in S.
  change (zlen (@nil Z)) with 0 in S. rewrite (proj2 (Z.leb_le _ _)) in S by lia.
  destruct S as (l1 & p1 & -> & H1 & C1 & (_ & E1 & _) & Hl1). rewrite Ha in E1.
  specialize (E1 eq_refl eq_refl). cbn [app] in H1. rewrite take_drop in H1.
  cbn [mbind option_bind].
  assert (represents (withAtomic l1 true) {| zPast := p1; zText := cur; zFuture := []; zPos := cursor l1 |}) as R1.
  { split; [|done]. destruct H1 as [[Bb Bu Bs Bc] Hch]. by constructor. }
  destruct (execAll_steps cs _ _ R1 Hv) as (l2 & e2 & -> & S2 & [H2 P2] & [L1 L2]).
  cbn [mbind option_bind]. destruct (zsteps_atomic _ _ _ _ S2 He) as [Ep Ef]; [by rewrite E1|done|].
  cbn [zPast] in Ep. rewrite Ep, Ef, E1 in H2. unfold HISTORY in H2. cbn [firstn] in H2.
  assert (history (withAtomic l2 false) (cur :: take 14 past) (zText e2) []) as H3.
  { destruct H2 as [[Bb Bu Bs Bc] Hch]. by constructor. }
  destruct (undo_spec _ _ _ _ H3) as (l4 & -> & H4 & [L3 L4]). cbn [mbind option_bind].
  destruct H4 as [B4 (before & after & R & Hi & LP & LF)].
  eexists _, (take 14 past). split; [done|].
  set (l5 := withChanges l4 (forget l4) (changeIndex l4)).
  assert (bufInv l5 cur) as B5 by (by apply bufInv_withChanges).
  pose proof H as [[_ Hu _ Hcl] _].
  assert (cursor (setCursor l5 (cursor l)) = cursor l) as Hcur.
  { destruct B4 as [_ Bu4 _ _]. change (Z.min (cursor l) (usedSize l4) = cursor l). rewrite Bu4. lia. }
  assert (bufInv (setCursor l5 (cursor l)) cur) as B6.
  { apply bufInv_withCursor; [done|]. change (0 <= cursor (setCursor l5 (cursor l)) <= zlen cur). by rewrite Hcur. }
  split; [|split; [|split; [done|exact L4]]].
  - constructor; [done|]. exists before, []. rewrite app_nil_r. split; [|done].
    by apply (forget_spec l4 before after).
  - destruct B6 as [[junk Hj] Bu6 _ _]. unfold get. by rewrite Hj, Bu6, take_zlen.
Qed.

(** A buffer with one change in its history. *)
Lemma one_change : exists l, history l [[]] (lit "a") [] /\ atomicEdit l = false.
Proof.
  assert (history (make [7; 7; 7; 7] 4) [] [] []) as H0 by (apply (make_represents [7; 7; 7; 7]); done).
  destruct (insert_step _ _ _ _ (lit "a") false H0) as (l & p & _ & H & _ & (_ & E & _) & _ & L).
  rewrite (E eq_refl eq_refl) in H. by exists l.
Defined.

Lemma undo_redo_roundtrip_witness :
  exists l l1 l2, undo l = Some (true, l1) /\ get l1 = [] /\ redo l1 = Some (true, l2) /\ get l2 = lit "a".
Proof.
  destruct one_change as (l & H & _).
  destruct (undo_redo_roundtrip l [[]] (lit "a") [] H) as [(l1 & l2 & U & _ & G1 & R & _ & G2) _].
  exists l, l1, l2. split; [exact U|]. split; [exact G1|]. split; [exact R|exact G2].
Defined.

Lemma atomic_edit_rollback_witness :
  exists l l' past', history l [[]] (lit "a") [] /\
    intoAtomicEdit l (fun l => l ← execAll l [CSetCursor 0; CInsert (lit "b") true; CDeleteFrom 1 false];
                               Some (false, l)) = Some (false, l') /\
    history l' past' (lit "a") [] /\ get l' = lit "a" /\ cursor l' = cursor l /\ atomicEdit l' = false.
Proof.
  destruct one_change as (l & H & Ha).
  destruct (atomic_edit_rollback l [[]] (lit "a") []
              [CSetCursor 0; CInsert (lit "b") true; CDeleteFrom 1 false] H Ha
              ltac:(rewrite !Forall_cons; cbn; split; [lia|]; split; [done|]; split; [done|]; constructor)
              ltac:(repeat constructor)) as (l' & p' & R).
  exists l, l', p'. split; [exact H|exact R].
Defined.

End LineBuffer.
