(* ===== verification/BufferLines.v ===== *)
(** The lines of the line editor's buffer (src/line_buffer.cpp): what the positions of the
    newlines say of the line that the cursor is in. *)
From S2P Require Import Prelude StringRef RingBuffer LineBuffer.

Module BufferLines.
Import LineBuffer.

Definition noNewline (t : bytes) : Prop := 10 ∉ t.

(** ** The positions of the newlines *)

(** The specification: the positions of a text that begins at [off]. *)
Fixpoint positions (off : Z) (t : bytes) : list Z :=
  match t with
  | [] => []
  | x :: t' => if x =? 10 then off :: positions (off + 1) t' else positions (off + 1) t'
  end.

Lemma positions_app t1 : forall off t2, positions off (t1 ++ t2) = positions off t1 ++ positions (off + zlen t1) t2.
Proof.
  induction t1 as [|x t1 IH]; intros off t2; [by rewrite zlen_nil, Z.add_0_r|].
  cbn [positions app]. rewrite IH, zlen_cons, Z.add_assoc. by destruct (x =? 10).
Qed.

Lemma positions_line t : forall off, noNewline t -> positions off t = [].
Proof.
  unfold noNewline. induction t as [|x t IH]; intros off H; [done|]. cbn [positions].
  destruct (Z.eqb_spec x 10) as [->|]; [set_solver|]. apply IH. set_solver.
Qed.

Lemma positions_range t : forall off, Forall (fun p => off <= p < off + zlen t) (positions off t).
Proof.
  induction t as [|x t IH]; intros off; [constructor|]. cbn [positions]. rewrite zlen_cons. pose proof (zlen_nonneg t).
  assert (Forall (fun p => off <= p < off + (1 + zlen t)) (positions (off + 1) t)).
  { eapply Forall_impl; [apply IH|]. cbn beta. lia. }
  destruct (x =? 10); [constructor; [lia|done]|done].
Qed.

(** The first newline of a text. *)
Lemma search_newline t : forall pos,
  noNewline t /\ StringRef.search t [10] pos = StringRef.npos \/
  exists x y, t = x ++ 10 :: y /\ noNewline x /\ StringRef.search t [10] pos = pos + zlen x.
Proof.
  unfold noNewline. induction t as [|c t IH]; intros pos; [left; split; [set_solver|done]|].
  cbn [StringRef.search]. cbn [StringRef.startsWith].
  destruct (Z.eqb_spec c 10) as [->|Hc].
  - right. exists [], t. split_and!; [done|set_solver|]. rewrite zlen_nil, Z.add_0_r. by destruct t.
  - destruct (IH (pos + 1)) as [[H1 H2]|(x & y & -> & Hx & H2)].
    + left. split; [set_solver|done].
    + right. exists (c :: x), y. split_and!; [done|set_solver|]. cbn [andb]. rewrite H2, zlen_cons. lia.
Qed.

(** The loop of [syncNewlinePosList] finds them all. *)
Lemma newlines_spec fuel : forall a b, (length b < fuel)%nat -> zlen (a ++ b) < StringRef.npos ->
  newlines fuel (a ++ b) (zlen a) = positions (zlen a) b.
Proof.
  induction fuel as [|fuel IH]; intros a b Hf Hl; [lia|]. cbn [newlines].
  unfold StringRef.findChar, StringRef.find. rewrite zlen_app in *. pose proof (zlen_nonneg a). pose proof (zlen_nonneg b).
  rewrite (proj2 (Z.ltb_ge _ _)) by lia. rewrite drop_zlen.
  destruct (search_newline b (zlen a)) as [[Hb ->]|(x & y & -> & Hx & ->)].
  - by rewrite Z.eqb_refl, positions_line.
  - rewrite zlen_app, zlen_cons in *. pose proof (zlen_nonneg x). pose proof (zlen_nonneg y).
    destruct (Z.eqb_spec (zlen a + zlen x) StringRef.npos); [lia|].
    rewrite positions_app, positions_line by done. cbn [app positions Z.eqb Pos.eqb]. f_equal.
    replace (a ++ x ++ 10 :: y) with ((a ++ x ++ [10]) ++ y) by (by rewrite <- !app_assoc).
    replace (zlen a + zlen x + 1) with (zlen (a ++ x ++ [10])) by (rewrite !zlen_app; change (zlen [10]) with 1; lia).
    apply IH.
    + rewrite length_app in Hf. cbn [length] in Hf. lia.
    + rewrite !zlen_app. change (zlen [10]) with 1. lia.
Qed.

(** ** The current line *)

(** [l] holds [pre ++ line ++ post], and knows its newlines; [line] is one of its lines. *)
Record atLine (l : LineBuffer) (pre line post : bytes) : Prop := {
  al_buf : bufInv l (pre ++ line ++ post);
  al_sync : newlinePosList l = positions 0 (pre ++ line ++ post);
  al_small : zlen (pre ++ line ++ post) < 2 ^ 32;
  al_line : noNewline line;
  al_pre : pre = [] \/ exists p, pre = p ++ [10];
  al_post : post = [] \/ exists p, post = 10 :: p
}.

(** The cursor is in the line. *)
Definition onLine (l : LineBuffer) (pre line : bytes) : Prop := zlen pre <= cursor l <= zlen pre + zlen line.

Lemma lowerBound_skip ps : forall qs v, Forall (fun p => p < v) ps -> Forall (fun q => v <= q) (take 1 qs) ->
  lowerBound (ps ++ qs) v = zlen ps.
Proof.
  induction ps as [|p ps IH]; intros qs v Hp Hq.
  - destruct qs as [|q qs]; [done|]. apply Forall_cons in Hq as [Hq _]. cbn [app lowerBound].
    by rewrite (proj2 (Z.ltb_ge _ _)).
  - apply Forall_cons in Hp as [Hp Hps]. cbn [app lowerBound]. rewrite (proj2 (Z.ltb_lt _ _)) by done.
    by rewrite IH, zlen_cons.
Qed.

Lemma positions_at_line l pre line post :
  atLine l pre line post ->
  newlinePosList l = positions 0 pre ++ positions (zlen pre + zlen line) post.
Proof. intros [_ -> _ Hl _ _]. by rewrite !positions_app, Z.add_0_l, (positions_line line). Qed.

Lemma current_index l pre line post :
  atLine l pre line post -> onLine l pre line -> findCurNewlineIndex l = zlen (positions 0 pre).
Proof.
  intros A On. unfold findCurNewlineIndex, onLine in *. rewrite (positions_at_line _ _ _ _ A). apply lowerBound_skip.
  - eapply Forall_impl; [apply positions_range|]. cbn beta. lia.
  - apply Forall_take. eapply Forall_impl; [apply positions_range|]. cbn beta. lia.
Qed.

(** The first position after the line, and the last one before it. *)
Lemma newline_after l pre line post :
  atLine l pre line post -> post <> [] -> newlineAt l (zlen (positions 0 pre)) = zlen pre + zlen line.
Proof.
  intros A Hp. unfold newlineAt. rewrite (positions_at_line _ _ _ _ A). destruct A as [_ _ _ _ _ [|[p ->]]]; [done|].
  unfold zlen at 1. rewrite Nat2Z.id. by rewrite app_nth2, Nat.sub_diag by lia.
Qed.

Lemma newline_before l pre line post :
  atLine l pre line post -> pre <> [] ->
  0 < zlen (positions 0 pre) /\ newlineAt l (zlen (positions 0 pre) - 1) + 1 = zlen pre.
Proof.
  intros A Hp. unfold newlineAt. rewrite (positions_at_line _ _ _ _ A). destruct A as [_ _ _ _ [|[p ->]] _]; [done|].
  rewrite positions_app, Z.add_0_l. cbn [positions Z.eqb Pos.eqb]. rewrite !zlen_app.
  change (zlen [zlen p]) with 1. change (zlen [10]) with 1. pose proof (zlen_nonneg (positions 0 p)). split; [lia|].
  rewrite Z.add_simpl_r. unfold zlen at 1. rewrite Nat2Z.id, <- app_assoc.
  by rewrite app_nth2, Nat.sub_diag by lia.
Qed.

Lemma positions_nil_post off post : (post = [] \/ exists p, post = 10 :: p) -> positions off post = [] <-> post = [].
Proof. by intros [->|[p ->]]. Qed.

(** Where the line of the cursor is. *)
Lemma interval_at l pre line post whole :
  atLine l pre line post -> onLine l pre line ->
  findCurLineInterval l whole = (zlen pre, if whole then zlen line else cursor l - zlen pre).
Proof.
  intros A On. pose proof (current_index _ _ _ _ A On) as Hi. pose proof (positions_at_line _ _ _ _ A) as Hp.
  pose proof A as [[_ Hu _ _] _ _ _ Hpre Hpost]. rewrite !zlen_app in Hu.
  pose proof (positions_nil_post (zlen pre + zlen line) post Hpost) as Hnil.
  unfold findCurLineInterval, isSingleLine.
  destruct (decide (pre = [])) as [->|Hne].
  - change (positions 0 []) with (@nil Z) in *. rewrite Hi. rewrite Hp. cbn [app]. rewrite zlen_nil in *.
    destruct (decide (post = [])) as [->|Hpne].
    + cbn [positions]. rewrite Hu. f_equal. destruct whole; unfold zlen; cbn [length]; lia.
    + pose proof (newline_after _ _ _ _ A Hpne) as Ha.
      change (newlineAt l 0 = zlen line) in Ha.
      destruct (positions _ post); [by destruct (Hpne (proj1 Hnil eq_refl))|]. cbn [Z.eqb]. rewrite Ha. f_equal.
      destruct whole; lia.
  - destruct (newline_before _ _ _ _ A Hne) as [Hpos Hb]. rewrite Hi, Hb.
    destruct (newlinePosList l) as [|q qs] eqn:Eq.
    { exfalso. symmetry in Hp. apply app_eq_nil in Hp as [E _]. rewrite E in Hpos. by vm_compute in Hpos. }
    rewrite (proj2 (Z.eqb_neq _ _)) by lia. rewrite Hp, zlen_app.
    destruct (decide (post = [])) as [->|Hpne].
    + cbn [positions]. rewrite (proj2 (Z.ltb_ge _ _)) by (unfold zlen; cbn [length]; lia). rewrite Hu. f_equal.
      destruct whole; unfold zlen; cbn [length]; lia.
    + rewrite (newline_after _ _ _ _ A Hpne).
      destruct (positions (zlen pre + zlen line) post) eqn:Ep; [by destruct (Hpne (proj1 Hnil eq_refl))|].
      rewrite zlen_cons. pose proof (zlen_nonneg l0). rewrite (proj2 (Z.ltb_lt _ _)) by lia. f_equal. destruct whole; lia.
Qed.

(** The line of the cursor, and what is before the cursor in it. *)
Lemma getCurLine_at l pre line post whole :
  atLine l pre line post -> onLine l pre line ->
  getCurLine l whole = if whole then line else take (Z.to_nat (cursor l - zlen pre)) line.
Proof.
  intros A On. unfold getCurLine. rewrite (interval_at _ _ _ _ _ A On).
  destruct A as [[[junk ->] _ _ _] _ _ _ _ _]. rewrite <- !app_assoc, drop_zlen. destruct whole; [apply take_zlen|].
  unfold onLine, zlen in *. apply take_app_le. lia.
Qed.

Lemma startOfLine_at l pre line post :
  atLine l pre line post -> onLine l pre line -> startOfLine l = zlen pre.
Proof.
  intros A On. pose proof (interval_at _ _ _ _ true A On) as H. unfold findCurLineInterval in H. unfold startOfLine.
  destruct (isSingleLine l); [by injection H|]. destruct (_ =? 0); [by injection H|].
  by destruct (_ <? _); injection H.
Qed.

Lemma endOfLine_at l pre line post :
  atLine l pre line post -> onLine l pre line -> endOfLine l = zlen pre + zlen line.
Proof.
  intros A On. pose proof (interval_at _ _ _ _ true A On) as H. unfold findCurLineInterval in H. unfold endOfLine.
  pose proof (positions_at_line _ _ _ _ A) as Hp. pose proof (current_index _ _ _ _ A On) as Hi.
  destruct (isSingleLine l) eqn:Es; [injection H; lia|].
  assert (findCurNewlineIndex l <= zlen (newlinePosList l)).
  { rewrite Hp, Hi, zlen_app. pose proof (zlen_nonneg (positions (zlen pre + zlen line) post)). lia. }
  destruct (Z.eqb_spec (findCurNewlineIndex l) 0) as [E|E], (Z.eqb_spec (findCurNewlineIndex l) (zlen (newlinePosList l))) as [E2|E2],
    (Z.ltb_spec (findCurNewlineIndex l) (zlen (newlinePosList l))); try lia; try (injection H; lia).
  all: exfalso; unfold isSingleLine in Es; destruct (newlinePosList l) as [|q qs]; [done|]; rewrite zlen_cons in *; pose proof (zlen_nonneg qs); lia.
Qed.

(** ** Every cursor is on a line *)

Lemma syncs l t : bufInv l t -> zlen t < StringRef.npos ->
  newlinePosList (syncNewlinePosList l) = positions 0 t /\ bufInv (syncNewlinePosList l) t.
Proof.
  intros [[junk Hb] Hu Hs Hc] Hl. split; [|constructor; [by exists junk|done..]].
  assert (get l = t) as Hg by (unfold get; by rewrite Hu, Hb, take_zlen).
  unfold syncNewlinePosList. cbn [newlinePosList withNewlines]. rewrite Hg.
  apply (newlines_spec (S (length t)) [] t); [lia|done].
Qed.

Lemma last_line a : exists pre s, a = pre ++ s /\ noNewline s /\ (pre = [] \/ exists p, pre = p ++ [10]).
Proof.
  unfold noNewline. induction a as [|x a (pre & s & -> & Hs & Hp)] using rev_ind.
  { exists [], []. split_and!; [done|set_solver|by left]. }
  destruct (decide (x = 10)) as [->|Hx].
  - exists ((pre ++ s) ++ [10]), []. split_and!; [by rewrite app_nil_r|set_solver|eauto].
  - exists pre, (s ++ [x]). split_and!; [by rewrite app_assoc|set_solver|done].
Qed.

Lemma first_line b : exists s post, b = s ++ post /\ noNewline s /\ (post = [] \/ exists p, post = 10 :: p).
Proof.
  unfold noNewline. induction b as [|x b (s & post & -> & Hs & Hp)].
  { exists [], []. split_and!; [done|set_solver|by left]. }
  destruct (decide (x = 10)) as [->|Hx].
  - exists [], (10 :: s ++ post). split_and!; [done|set_solver|eauto].
  - exists (x :: s), post. split_and!; [done|set_solver|done].
Qed.

Lemma line_exists l t : bufInv l t -> zlen t < 2 ^ 32 -> newlinePosList l = positions 0 t ->
  exists pre line post, t = pre ++ line ++ post /\ atLine l pre line post /\ onLine l pre line.
Proof.
  intros B Hl Hs. pose proof B as [_ _ _ Hc]. destruct (split_at t (cursor l)) as (a & b & -> & Ha); [lia|].
  destruct (last_line a) as (pre & s1 & -> & H1 & Hp). destruct (first_line b) as (s2 & post & -> & H2 & Hq).
  assert ((pre ++ s1) ++ s2 ++ post = pre ++ (s1 ++ s2) ++ post) as E by (by rewrite <- !app_assoc).
  exists pre, (s1 ++ s2), post. rewrite E in *. split; [done|]. split.
  - constructor; try done. unfold noNewline in *. set_solver.
  - unfold onLine. rewrite !zlen_app in *. pose proof (zlen_nonneg s1). pose proof (zlen_nonneg s2). lia.
Qed.
End BufferLines.
