(* ===== verification/LineMotion.v ===== *)
(** Motion and deletion by characters and words in the line editor's buffer
    (src/line_buffer.h, src/line_buffer.cpp), where a character is a grapheme cluster, and
    motion between lines. *)
From S2P Require Import Prelude Unicode StringRef RingBuffer LineBuffer Grapheme Word.
From S2P Require Import GraphemeRules GraphemeSpec Segment GraphemeScan GraphemeCut WordSpec.

Module LineMotion.
Import LineBuffer.

(** ** Sizes *)

(** The consumers that keep the size of the last piece. *)
Definition lastCluster (byteSize : Z) (g : Grapheme.GraphemeCluster) : Z * bool := (zlen (Grapheme.ref g), true).
Definition lastWord (byteSize : Z) (w : bytes) : Z * bool := (zlen w, true).

Definition prevCharBytes (l : LineBuffer) : option Z :=
  snd <$> Grapheme.iterateGrapheme lastCluster (getToCursor l) 0.

Definition nextCharBytes (l : LineBuffer) : option Z :=
  snd <$> Grapheme.iterateGraphemeUntil lastCluster (getFromCursor l) 1 false 0.

Definition prevWordBytes (l : LineBuffer) : option Z :=
  snd <$> Word.iterateWord lastWord (getToCursor l) 0.

Definition nextWordBytes (l : LineBuffer) : option Z :=
  snd <$> Word.iterateWordUntil lastWord (getFromCursor l) 1 0.

(** ** Deletion: the deleted bytes and the buffer *)

Definition deletePrevChar (l : LineBuffer) (merge : bool) : option (option bytes * LineBuffer) :=
  charBytes ← prevCharBytes l; deleteToCursor l charBytes (tracked merge).

Definition deleteNextChar (l : LineBuffer) (merge : bool) : option (option bytes * LineBuffer) :=
  charBytes ← nextCharBytes l; deleteFromCursor l charBytes (tracked merge).

Definition deletePrevWord (l : LineBuffer) : option (option bytes * LineBuffer) :=
  wordBytes ← prevWordBytes l; deleteToCursor l wordBytes (tracked false).

Definition deleteNextWord (l : LineBuffer) : option (option bytes * LineBuffer) :=
  wordBytes ← nextWordBytes l; deleteFromCursor l wordBytes (tracked false).

(** ** Motion: whether the cursor could move, and the buffer *)

Definition moveCursorToLeftByChar (l : LineBuffer) : option (bool * LineBuffer) :=
  if 0 <? cursor l
  then n ← prevCharBytes l; Some (true, withCursor l (u32 (cursor l - n)))
  else Some (false, l).

Definition moveCursorToRightByChar (l : LineBuffer) : option (bool * LineBuffer) :=
  if negb (cursor l =? usedSize l)
  then n ← nextCharBytes l; Some (true, withCursor l (u32 (cursor l + n)))
  else Some (false, l).

Definition moveCursorToLeftByWord (l : LineBuffer) : option (bool * LineBuffer) :=
  if 0 <? cursor l
  then n ← prevWordBytes l; Some (true, withCursor l (u32 (cursor l - n)))
  else Some (false, l).

Definition moveCursorToRightByWord (l : LineBuffer) : option (bool * LineBuffer) :=
  if negb (cursor l =? usedSize l)
  then n ← nextWordBytes l; Some (true, withCursor l (u32 (cursor l + n)))
  else Some (false, l).

(** The consumers of [moveCursorUpDown]: one counts, the other keeps the end of the last
    cluster, as its offset in the buffer. *)
Definition countCluster (acc : unit) (g : Grapheme.GraphemeCluster) : unit * bool := (tt, true).
Definition lastEnd (end_ : Z) (g : Grapheme.GraphemeCluster) : Z * bool := (end_ + zlen (Grapheme.ref g), true).

Definition moveCursorUpDown (l : LineBuffer) (up : bool) : option (bool * LineBuffer) :=
  let oldCursor := cursor l in
  let l1 := snd (if up then moveCursorToStartOfLine l else moveCursorToEndOfLine l) in
  if cursor l1 =? (if up then 0 else usedSize l1) then Some (false, withCursor l1 oldCursor)
  else
    let l2 := withCursor l1 (u32 (if up then cursor l1 - 1 else cursor l1 + 1)) in
    let pos := fst (findCurLineInterval l2 true) in
    let dest := getCurLine l2 true in
    let l3 := withCursor l2 oldCursor in
    '(count, _) ← Grapheme.iterateGrapheme countCluster (getCurLine l3 false) tt;
    '(retCount, end_) ← Grapheme.iterateGraphemeUntil lastEnd dest count false pos;
    Some (true, withCursor l3 (u32 (if negb (retCount =? 0) then end_ else pos))).

(** * Properties *)

Import UnicodeUtil Segment.

Abbreviation clusters := (segmented GraphemeScan.joined).

(** ** Iteration over a cut text *)

Lemma iterate_cut {A} (consumer : A -> Grapheme.GraphemeCluster -> A * bool) gs limit acc :
  clusters [] gs -> chars (text (mjoin gs)) false = mjoin gs -> limit <= UINT64_MAX ->
  Grapheme.iterateGraphemeUntil consumer (text (mjoin gs)) limit false acc =
    Some (GraphemeScan.consume consumer (GraphemeScan.clustersOf [] gs) 0 limit acc).
Proof.
  intros Hs Hc Hl. destruct (GraphemeScan.start_yields false (text (mjoin gs))) as (gs' & Hgs & Hs' & Hy).
  assert (gs' = gs) as -> by (eapply segmented_unique; [done..|congruence]).
  apply GraphemeScan.iterateLoop_yields; [done|done| |lia].
  rewrite GraphemeScan.clustersOf_length. apply segmented_length in Hs. rewrite <- Hc in Hs.
  pose proof (chars_length (text (mjoin gs)) false). lia.
Qed.

(** A consumer that never stops folds over the clusters. *)
Lemma consume_fold {A} (f : A -> bytes -> A) (consumer : A -> Grapheme.GraphemeCluster -> A * bool) gs :
  (forall a g, consumer a g = (f a (Grapheme.ref g), true)) ->
  forall pre count limit acc, count + zlen gs <= limit ->
    GraphemeScan.consume consumer (GraphemeScan.clustersOf pre gs) count limit acc =
      (count + zlen gs, fold_left (fun a g => f a (text g)) gs acc).
Proof.
  intros Hf. induction gs as [|g gs IH]; intros pre count limit acc Hl; cbn [GraphemeScan.clustersOf GraphemeScan.consume fold_left].
  { by rewrite zlen_nil, Z.add_0_r. }
  rewrite zlen_cons in *. pose proof (zlen_nonneg gs). rewrite (proj2 (Z.ltb_lt _ _)) by lia.
  rewrite Hf. cbn [GraphemeScan.clusterOf Grapheme.ref]. rewrite IH by lia. f_equal. lia.
Qed.

Lemma zlen_clusters gs : clusters [] gs -> chars (text (mjoin gs)) false = mjoin gs -> zlen gs <= zlen (text (mjoin gs)).
Proof.
  intros Hs Hc. apply segmented_length in Hs. rewrite <- Hc in Hs.
  pose proof (chars_length (text (mjoin gs)) false). unfold zlen. lia.
Qed.

(** ** A cursor between two clusters *)

Record between (l : LineBuffer) (gs1 gs2 : list (list char)) : Prop := {
  bt_buf : bufInv l (text (mjoin (gs1 ++ gs2)));
  bt_chars : chars (text (mjoin (gs1 ++ gs2))) false = mjoin (gs1 ++ gs2);
  bt_cut : clusters [] (gs1 ++ gs2);
  bt_cursor : cursor l = zlen (text (mjoin gs1));
  bt_small : zlen (text (mjoin (gs1 ++ gs2))) < 2 ^ 32
}.

Lemma text_mjoin_app gs1 gs2 : text (mjoin (gs1 ++ gs2)) = text (mjoin gs1) ++ text (mjoin gs2).
Proof. by rewrite join_app, text_app. Qed.

Lemma text_mjoin_cons g gs : text (mjoin (g :: gs)) = text g ++ text (mjoin gs).
Proof. change (mjoin (g :: gs)) with (g ++ mjoin gs). apply text_app. Qed.

Lemma text_mjoin_one g : text (mjoin [g]) = text g.
Proof. rewrite text_mjoin_cons. change (text (mjoin [])) with (@nil Z). by rewrite app_nil_r. Qed.

(** Both sides of the cursor are cut like texts of their own. *)
Lemma between_sides l gs1 gs2 : between l gs1 gs2 ->
  (clusters [] gs1 /\ chars (text (mjoin gs1)) false = mjoin gs1 /\ getToCursor l = text (mjoin gs1)) /\
  (clusters [] gs2 /\ chars (text (mjoin gs2)) false = mjoin gs2 /\ getFromCursor l = text (mjoin gs2)).
Proof.
  intros [[[junk Hb] Hu Hs Hcur] Hch Hcut Hc Hsm].
  pose proof Hch as Hch'. rewrite join_app in Hch' at 2. apply chars_split in Hch' as (_ & H1 & H2).
  rewrite text_mjoin_app in *. rewrite zlen_app in *. split_and!; try done.
  - by eapply GraphemeCut.segmented_prefix.
  - unfold getToCursor. rewrite Hb, Hc, <- app_assoc. apply take_zlen.
  - by eapply GraphemeCut.segmented_tail.
  - unfold getFromCursor, get, StringRef.substr. rewrite Hu, Hb, Hc, <- zlen_app, take_zlen, drop_zlen.
    apply take_ge. rewrite zlen_app. unfold StringRef.npos, UINT64_MAX, zlen in *. lia.
Qed.

Lemma prevCharBytes_between l gs1 g gs2 : between l (gs1 ++ [g]) gs2 -> prevCharBytes l = Some (zlen (text g)).
Proof.
  intros B. destruct (between_sides _ _ _ B) as [(Hs & Hc & Ht) _]. unfold prevCharBytes, Grapheme.iterateGrapheme.
  pose proof (zlen_clusters _ Hs Hc). destruct B as [_ _ _ _ Hsm]. rewrite text_mjoin_app, zlen_app in Hsm.
  pose proof (zlen_nonneg (text (mjoin gs2))).
  rewrite Ht, iterate_cut by (done || lia).
  rewrite (consume_fold (fun _ b => zlen b)) by (done || (unfold UINT64_MAX; lia)). by rewrite fold_left_app.
Qed.

Lemma nextCharBytes_between l gs1 g gs2 : between l gs1 (g :: gs2) -> nextCharBytes l = Some (zlen (text g)).
Proof.
  intros B. destruct (between_sides _ _ _ B) as [_ (Hs & Hc & Ht)]. unfold nextCharBytes.
  rewrite Ht, iterate_cut by (done || (unfold UINT64_MAX; lia)).
  cbn [GraphemeScan.clustersOf GraphemeScan.consume]. cbn. by destruct gs2.
Qed.

Lemma between_move l gs1 gs2 gs1' gs2' c :
  between l gs1 gs2 -> gs1' ++ gs2' = gs1 ++ gs2 -> c = zlen (text (mjoin gs1')) ->
  between (withCursor l c) gs1' gs2'.
Proof.
  intros [Hb Hch Hcut Hc Hsm] E ->. constructor; rewrite ?E; try done. apply bufInv_withCursor; [done|].
  rewrite <- E, text_mjoin_app, zlen_app.
  pose proof (zlen_nonneg (text (mjoin gs1'))). pose proof (zlen_nonneg (text (mjoin gs2'))). lia.
Qed.

Lemma text_nonempty gs g : clusters [] gs -> chars (text (mjoin gs)) false = mjoin gs -> g ∈ gs -> 0 < zlen (text g).
Proof.
  intros Hs Hc Hg. assert (Forall (fun g => text g <> []) gs) as Hne.
  { eapply segmented_nonempty; [exact Hs|]. rewrite <- Hc. apply chars_nonempty. }
  rewrite Forall_forall in Hne. specialize (Hne g Hg). unfold zlen. destruct (text g); [done|cbn; lia].
Qed.

Lemma moveRight_between l gs1 g gs2 :
  between l gs1 (g :: gs2) ->
  moveCursorToRightByChar l = Some (true, withCursor l (cursor l + zlen (text g))) /\
  between (withCursor l (cursor l + zlen (text g))) (gs1 ++ [g]) gs2.
Proof.
  intros B. pose proof (nextCharBytes_between _ _ _ _ B) as Hn.
  pose proof B as [Hb Hch Hcut Hc Hsm]. pose proof Hb as [_ Hu _ _].
  pose proof (text_nonempty _ g Hcut Hch ltac:(set_solver)) as Hg.
  rewrite text_mjoin_app, text_mjoin_cons, !zlen_app in Hsm. rewrite text_mjoin_app, text_mjoin_cons, !zlen_app in Hu.
  pose proof (zlen_nonneg (text (mjoin gs1))). pose proof (zlen_nonneg (text (mjoin gs2))).
  unfold moveCursorToRightByChar. rewrite Hn. destruct (Z.eqb_spec (cursor l) (usedSize l)); [lia|].
  cbn [negb mbind option_bind]. rewrite wrap_small by (unfold in_unsigned; lia). split; [done|].
  eapply between_move; [exact B|by rewrite <- app_assoc|].
  by rewrite text_mjoin_app, text_mjoin_one, zlen_app, Hc.
Qed.

Lemma moveLeft_between l gs1 g gs2 :
  between l (gs1 ++ [g]) gs2 ->
  moveCursorToLeftByChar l = Some (true, withCursor l (cursor l - zlen (text g))) /\
  between (withCursor l (cursor l - zlen (text g))) gs1 (g :: gs2).
Proof.
  intros B. pose proof (prevCharBytes_between _ _ _ _ B) as Hn.
  pose proof B as [Hb Hch Hcut Hc Hsm].
  pose proof (text_nonempty _ g Hcut Hch ltac:(set_solver)) as Hg.
  rewrite !text_mjoin_app, text_mjoin_one, !zlen_app in Hsm. rewrite text_mjoin_app, text_mjoin_one, zlen_app in Hc.
  pose proof (zlen_nonneg (text (mjoin gs1))). pose proof (zlen_nonneg (text (mjoin gs2))).
  unfold moveCursorToLeftByChar. rewrite Hn. destruct (Z.ltb_spec 0 (cursor l)); [|lia].
  cbn [mbind option_bind]. rewrite wrap_small by (unfold in_unsigned; lia). split; [done|].
  eapply between_move; [exact B|by rewrite <- app_assoc|]. lia.
Qed.

Lemma withCursor_twice l c : withCursor (withCursor l c) (cursor l) = l.
Proof. by destruct l. Qed.

(** C12: between two clusters, moving the cursor one character to the right and then one to the left,
    or the other way round, brings it back to where it was, and each move goes over exactly the
    cluster next to it, although a move to the left reads the text from its beginning and a move to
    the right reads it from the cursor. *)
Theorem char_motion_roundtrip l gs1 g gs2 :
  (between l gs1 (g :: gs2) ->
   exists l', moveCursorToRightByChar l = Some (true, l') /\ cursor l' = cursor l + zlen (text g) /\
     moveCursorToLeftByChar l' = Some (true, l)) /\
  (between l (gs1 ++ [g]) gs2 ->
   exists l', moveCursorToLeftByChar l = Some (true, l') /\ cursor l' = cursor l - zlen (text g) /\
     moveCursorToRightByChar l' = Some (true, l)).
Proof.
  split; intros B.
  - destruct (moveRight_between _ _ _ _ B) as [E B']. eexists. split; [exact E|]. split; [done|].
    destruct (moveLeft_between _ _ _ _ B') as [-> _]. do 2 f_equal. cbn [cursor withCursor withText].
    rewrite Z.add_simpl_r. apply withCursor_twice.
  - destruct (moveLeft_between _ _ _ _ B) as [E B']. eexists. split; [exact E|]. split; [done|].
    destruct (moveRight_between _ _ _ _ B') as [-> _]. do 2 f_equal. cbn [cursor withCursor withText].
    rewrite Z.sub_simpl_r. apply withCursor_twice.
Qed.

(** ** Progress *)

(** The first and the last of the pieces of a text. *)
Lemma first_last_piece (ws : list bytes) t :
  Forall (fun w => w <> []) ws -> mjoin ws = t -> t <> [] ->
  (exists w ws', ws = w :: ws' /\ 0 < zlen w <= zlen t) /\ (exists ws' w, ws = ws' ++ [w] /\ 0 < zlen w <= zlen t).
Proof.
  intros Hne <- Ht. split.
  - destruct ws as [|w ws]; [done|]. exists w, ws. split; [done|]. apply Forall_cons in Hne as [Hw _]. cbn beta in Hw.
    change (mjoin (w :: ws)) with (w ++ mjoin ws). rewrite zlen_app. pose proof (zlen_nonneg (mjoin ws)).
    assert (length w <> 0)%nat by (by destruct w). unfold zlen in *. lia.
  - destruct ws as [|w ws _] using rev_ind; [done|]. exists ws, w. split; [done|]. apply Forall_app in Hne as [_ Hw].
    apply Forall_cons in Hw as [Hw _]. cbn beta in Hw. rewrite join_app, zlen_app. change (mjoin [w]) with (w ++ []). rewrite app_nil_r.
    pose proof (zlen_nonneg (mjoin ws)). assert (length w <> 0)%nat by (by destruct w). unfold zlen in *. lia.
Qed.

Lemma pieces_nonempty {P} gs t :
  segmented P [] gs -> mjoin gs = chars t false -> Forall (fun w => w <> []) (map text gs).
Proof.
  intros Hs E. apply Forall_map. eapply segmented_nonempty; [exact Hs|]. rewrite E. apply chars_nonempty.
Qed.

Lemma fold_last (ws : list bytes) : fold_left (fun _ w => zlen w) ws 0 = default 0 (zlen <$> last ws).
Proof. destruct ws as [|w ws _] using rev_ind; [done|]. by rewrite fold_left_app, last_snoc. Qed.

(** The sizes of the last and of the first cluster of any text. *)
Lemma cluster_sizes t : zlen t <= UINT64_MAX ->
  exists ws, Forall (fun w => w <> []) ws /\ mjoin ws = t /\
    snd <$> Grapheme.iterateGrapheme lastCluster t 0 = Some (default 0 (zlen <$> last ws)) /\
    snd <$> Grapheme.iterateGraphemeUntil lastCluster t 1 false 0 = Some (default 0 (zlen <$> head ws)).
Proof.
  intros Hl. destruct (GraphemeScan.start_yields false t) as (gs & Hgs & Hs & Hy).
  assert (text (mjoin gs) = t) as Ht by (by rewrite Hgs, text_chars).
  assert (chars (text (mjoin gs)) false = mjoin gs) as Hc by congruence.
  exists (map text gs). split_and!; [by eapply pieces_nonempty|by rewrite text_pieces| |]; rewrite <- Ht.
  - pose proof (zlen_clusters gs Hs Hc) as Hz. rewrite Ht in Hz.
    unfold Grapheme.iterateGrapheme. rewrite iterate_cut by (done || lia).
    rewrite (consume_fold (fun _ w => zlen w)) by (done || lia).
    cbn [fmap option_fmap option_map snd]. rewrite <- fold_last. f_equal. generalize 0. clear.
    induction gs as [|g gs IH]; intros acc; [done|]. apply IH.
  - rewrite iterate_cut by (done || (unfold UINT64_MAX; lia)). destruct gs as [|g [|g' gs]]; done.
Qed.

Lemma word_sizes t : zlen t <= UINT64_MAX ->
  exists ws, Forall (fun w => w <> []) ws /\ mjoin ws = t /\
    snd <$> Word.iterateWord lastWord t 0 = Some (default 0 (zlen <$> last ws)) /\
    snd <$> Word.iterateWordUntil lastWord t 1 0 = Some (default 0 (zlen <$> head ws)).
Proof.
  intros Hl. destruct (WordSpec.word_start_yields t) as (gs & Hgs & Hs & Hy).
  assert (length gs <= length t)%nat as Hn.
  { apply segmented_length in Hs as Hsl. rewrite Hgs in Hsl. pose proof (chars_length t false). lia. }
  exists (map text gs). split_and!; [by eapply pieces_nonempty|by rewrite text_pieces, Hgs, text_chars| |].
  - unfold Word.iterateWord, Word.iterateWordUntil.
    rewrite (WordSpec.word_iterateLoop_yields lastWord UINT64_MAX _ _ Hy) by (rewrite ?length_map; lia).
    cbn [fmap option_fmap option_map]. rewrite <- fold_last. f_equal.
    assert (forall ws count acc, count + zlen ws <= UINT64_MAX ->
      snd (WordSpec.consume lastWord ws count UINT64_MAX acc) = fold_left (fun _ w => zlen w) ws acc) as H.
    { clear. induction ws as [|w ws IH]; intros count acc Hz; [done|]. rewrite zlen_cons in Hz.
      pose proof (zlen_nonneg ws). cbn [WordSpec.consume lastWord fold_left].
      rewrite (proj2 (Z.ltb_lt _ _)) by lia. apply IH. lia. }
    apply H. unfold zlen in *. rewrite length_map. lia.
  - unfold Word.iterateWordUntil.
    rewrite (WordSpec.word_iterateLoop_yields lastWord 1 _ _ Hy) by (rewrite ?length_map; unfold UINT64_MAX; lia).
    destruct gs as [|g [|g' gs]]; done.
Qed.

(** A size of a piece next to the cursor. *)
Definition stepsInto (n : Z) (t : bytes) : Prop := 0 < n <= zlen t.

Lemma sizes_step (size_last size_first : option Z) t ws :
  Forall (fun w => w <> []) ws -> mjoin ws = t -> t <> [] ->
  size_last = Some (default 0 (zlen <$> last ws)) -> size_first = Some (default 0 (zlen <$> head ws)) ->
  (exists n, size_last = Some n /\ stepsInto n t) /\ (exists n, size_first = Some n /\ stepsInto n t).
Proof.
  intros Hne Hj Ht -> ->. destruct (first_last_piece ws t Hne Hj Ht) as [(w & ws' & -> & Hw) (ws2 & w2 & E & Hw2)].
  split; [|by exists (zlen w)]. exists (zlen w2). rewrite E, last_snoc. done.
Qed.

(** What is on each side of the cursor. *)
Lemma sides l t : bufInv l t -> zlen t < 2 ^ 32 ->
  usedSize l = zlen t /\ 0 <= cursor l <= zlen t /\
  zlen (getToCursor l) = cursor l /\ zlen (getFromCursor l) = zlen t - cursor l.
Proof.
  intros [[junk Hb] Hu Hs Hc] Hsm. split_and!; [done|lia|lia| |].
  - unfold getToCursor, zlen in *. rewrite Hb, length_take, length_app. lia.
  - unfold getFromCursor, get, StringRef.substr. rewrite Hu, Hb, take_zlen.
    unfold StringRef.npos, UINT64_MAX, zlen in *. rewrite take_ge; rewrite ?length_drop; lia.
Qed.

Lemma zlen_positive (t : bytes) : 0 < zlen t -> t <> [].
Proof. by intros H ->. Qed.

(** To move from a cursor to the right of it, and to the left. *)
Definition advances (move : LineBuffer -> option (bool * LineBuffer)) : Prop :=
  forall l t, bufInv l t -> zlen t < 2 ^ 32 ->
    if cursor l =? zlen t then move l = Some (false, l)
    else exists n, 0 < n <= zlen t - cursor l /\ move l = Some (true, withCursor l (cursor l + n)).

Definition retreats (move : LineBuffer -> option (bool * LineBuffer)) : Prop :=
  forall l t, bufInv l t -> zlen t < 2 ^ 32 ->
    if cursor l =? 0 then move l = Some (false, l)
    else exists n, 0 < n <= cursor l /\ move l = Some (true, withCursor l (cursor l - n)).

Lemma advances_by move size :
  (forall l, move l = if negb (cursor l =? usedSize l)
                      then n ← size l; Some (true, withCursor l (u32 (cursor l + n))) else Some (false, l)) ->
  (forall l, 0 < zlen (getFromCursor l) <= UINT64_MAX -> exists n, size l = Some n /\ stepsInto n (getFromCursor l)) ->
  advances move.
Proof.
  intros Hm Hsize l t B Hsm. destruct (sides l t B Hsm) as (Hu & Hc & _ & Hf). rewrite Hm, Hu.
  destruct (Z.eqb_spec (cursor l) (zlen t)) as [|Hne]; [done|]. cbn [negb].
  destruct (Hsize l) as (n & -> & Hn); [unfold UINT64_MAX; lia|]. unfold stepsInto in Hn.
  exists n. split; [lia|]. cbn [mbind option_bind]. by rewrite wrap_small by (unfold in_unsigned; lia).
Qed.

Lemma retreats_by move size :
  (forall l, move l = if 0 <? cursor l
                      then n ← size l; Some (true, withCursor l (u32 (cursor l - n))) else Some (false, l)) ->
  (forall l, 0 < zlen (getToCursor l) <= UINT64_MAX -> exists n, size l = Some n /\ stepsInto n (getToCursor l)) ->
  retreats move.
Proof.
  intros Hm Hsize l t B Hsm. destruct (sides l t B Hsm) as (Hu & Hc & Ht & _). rewrite Hm.
  destruct (Z.eqb_spec (cursor l) 0) as [->|Hne]; [done|]. rewrite (proj2 (Z.ltb_lt _ _)) by lia.
  destruct (Hsize l) as (n & -> & Hn); [unfold UINT64_MAX; lia|]. unfold stepsInto in Hn.
  exists n. split; [lia|]. cbn [mbind option_bind]. by rewrite wrap_small by (unfold in_unsigned; lia).
Qed.

Lemma right_advances : advances moveCursorToRightByChar /\ advances moveCursorToRightByWord.
Proof.
  split; (eapply advances_by; [done|]); intros l Hl.
  - destruct (cluster_sizes (getFromCursor l)) as (ws & H1 & H2 & H3 & H4); [lia|].
    by apply (sizes_step _ _ _ ws H1 H2 (zlen_positive _ (proj1 Hl)) H3 H4).
  - destruct (word_sizes (getFromCursor l)) as (ws & H1 & H2 & H3 & H4); [lia|].
    by apply (sizes_step _ _ _ ws H1 H2 (zlen_positive _ (proj1 Hl)) H3 H4).
Qed.

Lemma left_retreats : retreats moveCursorToLeftByChar /\ retreats moveCursorToLeftByWord.
Proof.
  split; (eapply retreats_by; [done|]); intros l Hl.
  - destruct (cluster_sizes (getToCursor l)) as (ws & H1 & H2 & H3 & H4); [lia|].
    by apply (sizes_step _ _ _ ws H1 H2 (zlen_positive _ (proj1 Hl)) H3 H4).
  - destruct (word_sizes (getToCursor l)) as (ws & H1 & H2 & H3 & H4); [lia|].
    by apply (sizes_step _ _ _ ws H1 H2 (zlen_positive _ (proj1 Hl)) H3 H4).
Qed.

(** Keys pressed one after the other, each of which moves the cursor. *)
Inductive presses (move : LineBuffer -> option (bool * LineBuffer)) : nat -> LineBuffer -> LineBuffer -> Prop :=
| PNone l : presses move 0 l l
| PMore n l l1 l2 : move l = Some (true, l1) -> presses move n l1 l2 -> presses move (S n) l l2.

Lemma withCursor_cursor l : withCursor l (cursor l) = l.
Proof. by destruct l. Qed.

(** A move that makes progress towards [target] arrives. *)
Lemma arrives move target t :
  zlen t < 2 ^ 32 -> 0 <= target <= zlen t ->
  (forall l, bufInv l t ->
    if cursor l =? target then move l = Some (false, l)
    else exists c, 0 <= c <= zlen t /\ Z.abs (target - c) < Z.abs (target - cursor l) /\
           move l = Some (true, withCursor l c)) ->
  forall d l, bufInv l t -> Z.abs (target - cursor l) <= Z.of_nat d ->
    exists n, (n <= d)%nat /\ presses move n l (withCursor l target) /\
      move (withCursor l target) = Some (false, withCursor l target).
Proof.
  intros Hsm Ht Hmove. induction d as [|d IH]; intros l B Hd; pose proof (Hmove l B) as M;
    destruct (Z.eqb_spec (cursor l) target) as [E|E]; try lia.
  1, 2: exists 0%nat; rewrite <- E, withCursor_cursor; split_and!; [lia|constructor|done].
  destruct M as (c & Hc & Hlt & M). destruct (IH (withCursor l c)) as (n & Hn & Hp & Hend).
  { by apply bufInv_withCursor. }
  { cbn [cursor withCursor withText]. lia. }
  exists (S n). split_and!; [lia| |exact Hend]. by eapply PMore.
Qed.

(** C10: whatever the text of the buffer is, valid UTF-8 or not, and wherever the cursor is in it,
    pressing right, by characters or by words, brings the cursor to the end of the text, and pressing left to its
    beginning, in no more presses than there are bytes to go over, every one of which moves the cursor;
    and there, and only there, a further press is refused and changes nothing. *)
Theorem motion_reaches_ends l t :
  bufInv l t -> zlen t < 2 ^ 32 ->
  (forall move, move = moveCursorToRightByChar \/ move = moveCursorToRightByWord ->
     (exists n, Z.of_nat n <= zlen t - cursor l /\ presses move n l (withCursor l (zlen t)) /\
        move (withCursor l (zlen t)) = Some (false, withCursor l (zlen t))) /\
     (move l = Some (false, l) <-> cursor l = zlen t)) /\
  (forall move, move = moveCursorToLeftByChar \/ move = moveCursorToLeftByWord ->
     (exists n, Z.of_nat n <= cursor l /\ presses move n l (withCursor l 0) /\
        move (withCursor l 0) = Some (false, withCursor l 0)) /\
     (move l = Some (false, l) <-> cursor l = 0)).
Proof.
  intros B Hsm. pose proof B as [_ _ _ Hc]. split; intros move Hmove.
  - assert (advances move) as A by (destruct right_advances; by destruct Hmove as [->| ->]).
    split; [|specialize (A l t B Hsm); destruct (Z.eqb_spec (cursor l) (zlen t)); [done|]; by destruct A as (? & _ & ->)].
    destruct (arrives move (zlen t) t Hsm ltac:(lia)) with (d := Z.to_nat (zlen t - cursor l)) (l := l)
      as (n & Hn & H); [|done|lia|exists n; split; [lia|exact H]].
    intros l' B'. pose proof B' as [_ _ _ Hc']. specialize (A l' t B' Hsm).
    destruct (Z.eqb_spec (cursor l') (zlen t)); [done|]. destruct A as (k & Hk & E).
    exists (cursor l' + k). split_and!; [lia..|done].
  - assert (retreats move) as A by (destruct left_retreats; by destruct Hmove as [->| ->]).
    split; [|specialize (A l t B Hsm); destruct (Z.eqb_spec (cursor l) 0); [done|]; by destruct A as (? & _ & ->)].
    destruct (arrives move 0 t Hsm ltac:(lia)) with (d := Z.to_nat (cursor l)) (l := l)
      as (n & Hn & H); [|done|lia|exists n; split; [lia|exact H]].
    intros l' B'. pose proof B' as [_ _ _ Hc']. specialize (A l' t B' Hsm).
    destruct (Z.eqb_spec (cursor l') 0); [done|]. destruct A as (k & Hk & E).
    exists (cursor l' - k). split_and!; [lia..|done].
Qed.

(** ** Deletion *)

(** A step that is one of the history is undone at once. *)
Lemma undo_last_step past cur text' l' past' :
  history l' past' text' [] -> editStep past cur false false past' ->
  exists l'', undo l' = Some (true, l'') /\ get l'' = cur.
Proof.
  intros H' (_ & E & _). rewrite (E eq_refl eq_refl) in H'. change (take HISTORY (cur :: past)) with (cur :: take 14 past) in H'.
  destruct (undo_spec _ _ _ _ H') as (l'' & U & [[[junk Hb] Hu _ _] _] & _). exists l''. split; [done|].
  unfold get. by rewrite Hb, Hu, take_zlen.
Qed.

Lemma get_text l past cur future : history l past cur future -> get l = cur.
Proof. intros [[[junk Hb] Hu _ _] _]. unfold get. by rewrite Hb, Hu, take_zlen. Qed.

(** C11: between two clusters, deleting the character before the cursor, or the one after it, removes
    exactly the cluster there and returns its bytes, whatever its number of code points; the cursor stays between
    what is left of both sides, and when the change is not to be merged with the last one, one undo brings the
    whole text back.  At an end of the text nothing is deleted. *)
Theorem char_deletion l past future gs1 g gs2 merge :
  atomicEdit l = false ->
  (between l (gs1 ++ [g]) gs2 -> history l past (text (mjoin ((gs1 ++ [g]) ++ gs2))) future ->
   exists l', deletePrevChar l merge = Some (Some (text g), l') /\
     get l' = text (mjoin gs1) ++ text (mjoin gs2) /\ cursor l' = zlen (text (mjoin gs1)) /\
     (merge = false -> exists l'', undo l' = Some (true, l'') /\ get l'' = get l)) /\
  (between l gs1 (g :: gs2) -> history l past (text (mjoin (gs1 ++ g :: gs2))) future ->
   exists l', deleteNextChar l merge = Some (Some (text g), l') /\
     get l' = text (mjoin gs1) ++ text (mjoin gs2) /\ cursor l' = zlen (text (mjoin gs1)) /\
     (merge = false -> exists l'', undo l' = Some (true, l'') /\ get l'' = get l)) /\
  (between l [] gs2 -> deletePrevChar l merge = Some (None, l)) /\
  (between l gs1 [] -> deleteNextChar l merge = Some (None, l)).
Proof.
  intros Ha. split_and!.
  - intros B H. pose proof (prevCharBytes_between _ _ _ _ B) as Hn. destruct B as [_ Hch Hcut Hc _].
    pose proof (text_nonempty _ g Hcut Hch ltac:(set_solver)) as Hg.
    pose proof (deleteTo_step l past _ future (zlen (text g)) merge H) as S. cbn zeta in S.
    rewrite !text_mjoin_app, text_mjoin_one in S, H. rewrite text_mjoin_app, text_mjoin_one in Hc. 
    pose proof (zlen_nonneg (text (mjoin gs1))). rewrite Hc, drop_zlen, zlen_app, Z.add_simpl_r in S.
    rewrite <- !app_assoc, take_zlen, drop_zlen, take_zlen in S.
    rewrite (proj2 (Z.ltb_lt _ _)), (proj2 (Z.leb_le _ _)) in S by lia. cbn [andb] in S.
    destruct S as (l' & past' & E & H' & Hcur & Hstep & _). exists l'. unfold deletePrevChar. rewrite Hn.
    split_and!; [done|by eapply get_text|done|]. intros ->. rewrite Ha in Hstep. rewrite (get_text _ _ _ _ H).
    rewrite <- app_assoc. by eapply undo_last_step.
  - intros B H. pose proof (nextCharBytes_between _ _ _ _ B) as Hn. destruct B as [_ Hch Hcut Hc _].
    pose proof (text_nonempty _ g Hcut Hch ltac:(set_solver)) as Hg.
    pose proof (deleteFrom_step l past _ future (zlen (text g)) merge H) as S. cbn zeta in S.
    rewrite text_mjoin_app, text_mjoin_cons in S, H.
    pose proof (zlen_nonneg (text (mjoin gs1))). pose proof (zlen_nonneg (text (mjoin gs2))).
    rewrite Hc, take_zlen, drop_zlen, take_zlen, <- zlen_app in S. rewrite app_assoc, drop_zlen, !zlen_app in S.
    rewrite (proj2 (Z.ltb_lt _ _)), (proj2 (Z.leb_le _ _)) in S by lia. cbn [andb] in S.
    destruct S as (l' & past' & E & H' & Hcur & Hstep & _). exists l'. unfold deleteNextChar. rewrite Hn.
    split_and!; [done|by eapply get_text|by rewrite Hcur|]. intros ->. rewrite Ha in Hstep. rewrite (get_text _ _ _ _ H), app_assoc.
    by eapply undo_last_step.
  - intros [_ _ _ Hc _]. unfold deletePrevChar, prevCharBytes, getToCursor, deleteToCursor. by rewrite Hc.
  - intros B. destruct (between_sides _ _ _ B) as [_ (_ & _ & E)]. destruct B as [[_ Hu _ _] _ _ Hc _].
    rewrite app_nil_r in Hu. unfold deleteNextChar, nextCharBytes, deleteFromCursor. rewrite E. cbn [mbind option_bind].
    rewrite Hc, Hu, Z.ltb_irrefl, andb_false_r. done.
Qed.

(** ** An example: "x" and "e" with an acute accent of its own, the cursor at the end *)

Definition letterX : list char := [(0x78, [0x78])].
Definition accented : list char := [(0x65, [0x65]); (0x301, [0xCC; 0x81])].
Definition twoLetters : bytes := [0x78; 0x65; 0xCC; 0x81].

Lemma two_letters_cut : clusters [] [letterX; accented].
Proof.
  constructor; [done|done|]. constructor; [|split; [|done]|constructor].
  - intros _ H. apply GraphemeSpec.joinedb_spec in H. by vm_compute in H.
  - apply GraphemeSpec.joinedb_spec. by vm_compute.
Qed.

Lemma two_letters : exists l past,
  history l past twoLetters [] /\ between l ([letterX] ++ [accented]) [] /\ atomicEdit l = false.
Proof.
  assert (history (make (replicate 8 7) 8) [] [] []) as H0 by (by apply (make_represents (replicate 8 7))).
  destruct (insert_step _ _ _ _ twoLetters false H0) as (l & p & _ & H & Hc & _ & _ & L).
  exists l, p. split; [exact H|]. split; [|exact L].
  constructor; [exact (hi_buf _ _ _ _ H)|by vm_compute|exact two_letters_cut|exact Hc|by vm_compute].
Qed.

Lemma char_motion_roundtrip_witness :
  exists l l1 l2, cursor l = 4 /\
    moveCursorToLeftByChar l = Some (true, l1) /\ cursor l1 = 1 /\ moveCursorToRightByChar l1 = Some (true, l) /\
    moveCursorToLeftByChar l1 = Some (true, l2) /\ cursor l2 = 0 /\ moveCursorToRightByChar l2 = Some (true, l1).
Proof.
  destruct two_letters as (l & _ & _ & B & _). pose proof (bt_cursor _ _ _ B) as Hc. change (cursor l = 4) in Hc.
  destruct (char_motion_roundtrip l [letterX] accented []) as [_ (l1 & E1 & C1 & R1)]; [exact B|].
  assert (between l1 ([] ++ [letterX]) [accented]) as B1.
  { destruct (moveLeft_between _ _ _ _ B) as [E B']. rewrite E in E1. injection E1 as <-. exact B'. }
  destruct (char_motion_roundtrip l1 [] letterX [accented]) as [_ (l2 & E2 & C2 & R2)]; [exact B1|].
  exists l, l1, l2. rewrite Hc in C1. change (cursor l1 = 1) in C1. rewrite C1 in C2. done.
Defined.

Lemma motion_reaches_ends_witness :
  exists l n, cursor l = 4 /\ Z.of_nat n <= 4 /\ presses moveCursorToLeftByWord n l (withCursor l 0) /\
    moveCursorToLeftByWord (withCursor l 0) = Some (false, withCursor l 0).
Proof.
  destruct two_letters as (l & _ & _ & B & _). pose proof (bt_cursor _ _ _ B) as Hc. change (cursor l = 4) in Hc.
  destruct (motion_reaches_ends l twoLetters (bt_buf _ _ _ B) (bt_small _ _ _ B)) as [_ H].
  destruct (H _ (or_intror eq_refl)) as [(n & Hn & Hp & He) _]. exists l, n. rewrite Hc in Hn. done.
Defined.

Lemma char_deletion_witness :
  exists l l' l'', deletePrevChar l false = Some (Some [0x65; 0xCC; 0x81], l') /\ get l' = [0x78] /\ cursor l' = 1 /\
    undo l' = Some (true, l'') /\ get l'' = get l.
Proof.
  destruct two_letters as (l & p & H & B & Ha).
  destruct (char_deletion l p [] [letterX] accented [] false Ha) as [D _].
  destruct (D B H) as (l' & E & G & C & U). destruct (U eq_refl) as (l'' & U' & G').
  exists l, l', l''. done.
Defined.
End LineMotion.
