(* ===== verification/LineUpDown.v ===== *)
(** Moving between the lines of the line editor's buffer keeps the column, counted in
    grapheme clusters (src/line_buffer.cpp, [moveCursorUpDown]). *)
From S2P Require Import Prelude Unicode StringRef RingBuffer LineBuffer BufferLines Segment.
From S2P Require Import Grapheme GraphemeSpec GraphemeScan LineMotion.

Module LineUpDown.
Import UnicodeUtil Segment LineBuffer BufferLines LineMotion.

(** The clusters of a text. *)
Definition clustersOfText (t : bytes) (gs : list (list char)) : Prop := clusters [] gs /\ mjoin gs = chars t false.

Lemma clusters_exist t : exists gs, clustersOfText t gs.
Proof. destruct (GraphemeScan.start_yields false t) as (gs & Hgs & Hs & _). by exists gs. Qed.

Lemma clustersOfText_text t gs : clustersOfText t gs -> text (mjoin gs) = t.
Proof. intros [_ ->]. apply text_chars. Qed.

Lemma clustersOfText_length t gs : clustersOfText t gs -> zlen gs <= zlen t.
Proof.
  intros C. rewrite <- (clustersOfText_text t gs C). destruct C as [Hs Hm]. apply zlen_clusters; [done|].
  by rewrite Hm, text_chars.
Qed.

Lemma iterate_clusters {A} (consumer : A -> Grapheme.GraphemeCluster -> A * bool) t gs limit acc :
  clustersOfText t gs -> limit <= UINT64_MAX ->
  Grapheme.iterateGraphemeUntil consumer t limit false acc =
    Some (GraphemeScan.consume consumer (GraphemeScan.clustersOf [] gs) 0 limit acc).
Proof.
  intros C Hl. pose proof (clustersOfText_text t gs C) as Ht. destruct C as [Hs Hm]. rewrite <- Ht at 1.
  apply iterate_cut; [done|by rewrite Ht|done].
Qed.

(** The two iterations of [moveCursorUpDown]. *)
Lemma count_clusters t gs : clustersOfText t gs -> zlen t <= UINT64_MAX ->
  Grapheme.iterateGrapheme countCluster t tt = Some (zlen gs, tt).
Proof.
  intros C Hl. pose proof (clustersOfText_length t gs C). unfold Grapheme.iterateGrapheme.
  rewrite (iterate_clusters countCluster t gs) by (done || lia).
  rewrite (consume_fold (fun _ _ => tt)) by (done || lia). f_equal. rewrite Z.add_0_l. f_equal. by destruct (fold_left _ _ _).
Qed.

Lemma consume_lastEnd gs : forall pre k count acc,
  GraphemeScan.consume lastEnd (GraphemeScan.clustersOf pre gs) count (count + Z.of_nat k) acc =
    (count + zlen (take k gs), acc + zlen (text (mjoin (take k gs)))).
Proof.
  induction gs as [|g gs IH]; intros pre k count acc; cbn [GraphemeScan.clustersOf GraphemeScan.consume].
  { rewrite take_nil. change (zlen []) with 0. change (zlen (text (mjoin []))) with 0. by rewrite !Z.add_0_r. }
  destruct k as [|k].
  { change (zlen (take 0 _)) with 0. change (zlen (text _)) with 0. by rewrite !Z.add_0_r, Z.ltb_irrefl. }
  rewrite (proj2 (Z.ltb_lt _ _)) by lia. cbn [lastEnd]. replace (count + Z.of_nat (S k)) with (count + 1 + Z.of_nat k) by lia.
  rewrite IH. cbn [take GraphemeScan.clusterOf Grapheme.ref]. rewrite zlen_cons, text_mjoin_cons, zlen_app. f_equal; lia.
Qed.

Lemma take_text_le t gs k : clustersOfText t gs -> zlen (text (mjoin (take k gs))) <= zlen t.
Proof.
  intros C. rewrite <- (clustersOfText_text t gs C). rewrite <- (take_drop k gs) at 2.
  rewrite text_mjoin_app, zlen_app. pose proof (zlen_nonneg (text (mjoin (drop k gs)))). lia.
Qed.

(** The offset of column [k] in a line, at most the end of the line. *)
Definition columnOffset (k : nat) (gs : list (list char)) : Z := zlen (text (mjoin (take k gs))).

Lemma landing l src dst gs1 gs2 pos :
  clustersOfText src gs1 -> clustersOfText dst gs2 -> zlen src < 2 ^ 32 -> 0 <= pos -> pos + zlen dst < 2 ^ 32 ->
  ('(count, _) ← Grapheme.iterateGrapheme countCluster src tt;
   '(retCount, end_) ← Grapheme.iterateGraphemeUntil lastEnd dst count false pos;
   Some (true, withCursor l (u32 (if negb (retCount =? 0) then end_ else pos)))) =
  Some (true, withCursor l (pos + columnOffset (length gs1) gs2)).
Proof.
  intros C1 C2 Hs Hp Hd. pose proof (clustersOfText_length _ _ C1). pose proof (zlen_nonneg src).
  rewrite (count_clusters src gs1) by (done || (unfold UINT64_MAX; lia)). cbn [mbind option_bind].
  rewrite (iterate_clusters lastEnd dst gs2) by (done || (unfold UINT64_MAX; lia)).
  pose proof (consume_lastEnd gs2 [] (length gs1) 0 pos) as E. rewrite !Z.add_0_l in E.
  change (Z.of_nat (length gs1)) with (zlen gs1) in E. rewrite E. cbn [mbind option_bind].
  pose proof (take_text_le dst gs2 (length gs1) C2) as Hle. pose proof (zlen_nonneg (text (mjoin (take (length gs1) gs2)))).
  unfold columnOffset. do 3 f_equal. destruct (Z.eqb_spec (zlen (take (length gs1) gs2)) 0) as [E0|E0]; cbn [negb].
  - assert (take (length gs1) gs2 = []) as -> by (apply nil_length_inv; unfold zlen in E0; lia). change (zlen (text (mjoin []))) with 0.
    rewrite Z.add_0_r. apply wrap_small. unfold in_unsigned. lia.
  - apply wrap_small. unfold in_unsigned. lia.
Qed.

(** ** From one line to another *)

Lemma atLine_move l pre line post pre' line' post' c :
  atLine l pre line post -> pre' ++ line' ++ post' = pre ++ line ++ post -> noNewline line' ->
  (pre' = [] \/ exists p, pre' = p ++ [10]) -> (post' = [] \/ exists p, post' = 10 :: p) ->
  zlen pre' <= c <= zlen pre' + zlen line' ->
  atLine (withCursor l c) pre' line' post' /\ onLine (withCursor l c) pre' line'.
Proof.
  intros [B Hs Hsm _ _ _] E Hl Hpre Hpost Hc. split; [|exact Hc].
  constructor; rewrite ?E; try done. apply bufInv_withCursor; [done|].
  rewrite <- E, !zlen_app. pose proof (zlen_nonneg pre'). pose proof (zlen_nonneg post'). lia.
Qed.

Lemma line_edge l c : moveTo l c = (negb (cursor l =? c), withCursor l c).
Proof.
  unfold moveTo. destruct (Z.eqb_spec (cursor l) c) as [<-|]; cbn [negb]; [|done]. by rewrite withCursor_cursor.
Qed.

Lemma take_small (t : bytes) c : zlen (take (Z.to_nat c) t) <= zlen t.
Proof. unfold zlen. rewrite length_take. lia. Qed.

(** From the neighbouring line, where the cursor has been put at [c], to the column of [k] clusters. *)
Lemma up_down_at l pre src post pre' dst post' c (up : bool) gs1 gs2 :
  atLine l pre src post -> onLine l pre src ->
  pre' ++ dst ++ post' = pre ++ src ++ post -> noNewline dst ->
  (pre' = [] \/ exists p, pre' = p ++ [10]) -> (post' = [] \/ exists p, post' = 10 :: p) ->
  zlen pre' <= c <= zlen pre' + zlen dst ->
  (let edge := if up then startOfLine l else endOfLine l in
   c = (if up then edge - 1 else edge + 1) /\ edge <> (if up then 0 else usedSize l)) ->
  clustersOfText (take (Z.to_nat (cursor l - zlen pre)) src) gs1 -> clustersOfText dst gs2 ->
  moveCursorUpDown l up = Some (true, withCursor l (zlen pre' + columnOffset (length gs1) gs2)).
Proof.
  intros A On E Hdst Hpre' Hpost' Hc [Ec Hedge] C1 C2.
  destruct (atLine_move l pre src post pre' dst post' c A E Hdst Hpre' Hpost' Hc) as [A' On'].
  pose proof (getCurLine_at _ _ _ _ false A On) as Hsrc. pose proof (getCurLine_at _ _ _ _ true A' On') as Hd.
  pose proof (interval_at _ _ _ _ true A' On') as Hi. cbn [fst] in Hi.
  pose proof A as [_ _ Hsm _ _ _]. pose proof Hsm as Hsm'. rewrite <- E in Hsm'. rewrite !zlen_app in Hsm, Hsm'.
  pose proof (zlen_nonneg pre). pose proof (zlen_nonneg post). pose proof (zlen_nonneg pre'). pose proof (zlen_nonneg post').
  pose proof (take_small src (cursor l - zlen pre)).
  unfold moveCursorUpDown.
  assert (snd (if up then moveCursorToStartOfLine l else moveCursorToEndOfLine l) =
          withCursor l (if up then startOfLine l else endOfLine l)) as ->.
  { unfold moveCursorToStartOfLine, moveCursorToEndOfLine. destruct up; by rewrite line_edge. }
  cbn zeta in *. set (edge := if up then startOfLine l else endOfLine l) in *.
  replace (cursor (withCursor l edge)) with edge by done. change (usedSize (withCursor l edge)) with (usedSize l).
  rewrite (proj2 (Z.eqb_neq _ _)) by exact Hedge. rewrite <- Ec, wrap_small by (unfold in_unsigned; lia).
  change (withCursor (withCursor l edge) c) with (withCursor l c).
  change (withCursor (withCursor l c) (cursor l)) with (withCursor l (cursor l)). rewrite withCursor_cursor.
  rewrite Hi, Hd, Hsrc. cbn [fst]. apply landing; [done|done|lia|lia|lia].
Qed.

(** C13: moving up or down from anywhere on a line puts the cursor in the line above or below, between two of
    its grapheme clusters: after as many of them as there are before the cursor in its line, or at the end of the
    line when it has fewer, however many bytes the clusters of the two lines take; on the first line up is
    refused, on the last one down, and then nothing changes. *)
Theorem up_down_keeps_column l pre src post gs1 :
  atLine l pre src post -> onLine l pre src ->
  clustersOfText (take (Z.to_nat (cursor l - zlen pre)) src) gs1 ->
  (pre = [] -> moveCursorUpDown l true = Some (false, l)) /\
  (post = [] -> moveCursorUpDown l false = Some (false, l)) /\
  (forall above dst gs2, pre = above ++ dst ++ [10] -> (above = [] \/ exists p, above = p ++ [10]) -> noNewline dst ->
     clustersOfText dst gs2 ->
     moveCursorUpDown l true = Some (true, withCursor l (zlen above + columnOffset (length gs1) gs2))) /\
  (forall dst below gs2, post = 10 :: dst ++ below -> (below = [] \/ exists p, below = 10 :: p) -> noNewline dst ->
     clustersOfText dst gs2 ->
     moveCursorUpDown l false =
       Some (true, withCursor l (zlen pre + zlen src + 1 + columnOffset (length gs1) gs2))).
Proof.
  intros A On C1. pose proof (startOfLine_at _ _ _ _ A On) as Hstart. pose proof (endOfLine_at _ _ _ _ A On) as Hend.
  pose proof A as [[_ Hu _ _] _ _ Hsrc Hpre Hpost]. rewrite !zlen_app in Hu.
  pose proof (zlen_nonneg pre). pose proof (zlen_nonneg src). split_and!.
  - intros ->. unfold moveCursorUpDown, moveCursorToStartOfLine. rewrite line_edge, Hstart. cbn [snd].
    change (cursor (withCursor l (zlen []))) with 0. rewrite Z.eqb_refl.
    change (withCursor (withCursor l (zlen [])) (cursor l)) with (withCursor l (cursor l)). by rewrite withCursor_cursor.
  - intros ->. change (zlen (@nil Z)) with 0 in Hu. rewrite Z.add_0_r in Hu.
    unfold moveCursorUpDown, moveCursorToEndOfLine. rewrite line_edge, Hend. cbn [snd].
    change (cursor (withCursor l (zlen pre + zlen src))) with (zlen pre + zlen src).
    change (usedSize (withCursor l (zlen pre + zlen src))) with (usedSize l). rewrite Hu, Z.eqb_refl.
    change (withCursor (withCursor l (zlen pre + zlen src)) (cursor l)) with (withCursor l (cursor l)).
    by rewrite withCursor_cursor.
  - intros above dst gs2 -> Habove Hdst C2. rewrite !zlen_app in Hstart. change (zlen [10]) with 1 in Hstart.
    pose proof (zlen_nonneg above). pose proof (zlen_nonneg dst).
    eapply (up_down_at l _ src post above dst (10 :: src ++ post) (startOfLine l - 1) true); try done.
    + by rewrite <- !app_assoc.
    + right. by eexists.
    + rewrite Hstart. lia.
    + split; [done|]. cbn zeta. rewrite Hstart. lia.
  - intros dst below gs2 -> Hbelow Hdst C2. rewrite zlen_cons, zlen_app in Hu.
    pose proof (zlen_nonneg dst). pose proof (zlen_nonneg below).
    replace (zlen pre + zlen src + 1) with (zlen (pre ++ src ++ [10])) by (rewrite !zlen_app; change (zlen [10]) with 1; lia).
    eapply (up_down_at l pre src _ (pre ++ src ++ [10]) dst below (endOfLine l + 1) false); try done.
    + by rewrite <- !app_assoc.
    + right. exists (pre ++ src). by rewrite <- app_assoc.
    + rewrite Hend, !zlen_app. change (zlen [10]) with 1. lia.
    + split; [done|]. cbn zeta. rewrite Hend. lia.
Qed.

(** Two lines, the first "x", the second "e" with an accent and "y": from the end of the second, up to the end of
    the first, and from there down to the column after the accented letter. *)
Definition line2 : bytes := [0x65; 0xCC; 0x81; 0x79].
Definition letterY : list char := [(0x79, [0x79])].

Lemma two_lines : exists l, bufInv l ([0x78; 10] ++ line2) /\ newlinePosList l = [1] /\ cursor l = 6.
Proof.
  assert (history (make (replicate 8 7) 8) [] [] []) as H0 by (by apply (make_represents (replicate 8 7))).
  destruct (insert_step _ _ _ _ ([0x78; 10] ++ line2) false H0) as (l & p & _ & H & Hc & _).
  destruct (syncs l ([0x78; 10] ++ line2) (hi_buf _ _ _ _ H)) as [Hs B]; [by vm_compute|]. by exists (syncNewlinePosList l).
Qed.

Lemma line2_clusters : clustersOfText line2 [accented; letterY] /\ clustersOfText [0x78] [letterX].
Proof.
  split; (split; [|by vm_compute]).
  - constructor; [done|split; [|done]|constructor; [|done|constructor]].
    + apply GraphemeSpec.joinedb_spec. by vm_compute.
    + intros _ H. apply GraphemeSpec.joinedb_spec in H. by vm_compute in H.
  - by constructor; [|done|constructor].
Qed.

Lemma up_down_keeps_column_witness :
  exists l, cursor l = 6 /\
    moveCursorUpDown l true = Some (true, withCursor l 1) /\
    moveCursorUpDown (withCursor l 1) false = Some (true, withCursor l 5) /\
    moveCursorUpDown l false = Some (false, l).
Proof.
  destruct two_lines as (l & B & Hs & Hc). destruct line2_clusters as [Cy Cx]. exists l.
  assert (atLine l [0x78; 10] line2 []) as A.
  { constructor; [done|done|done|unfold noNewline, line2; set_solver|right; by exists [0x78]|by left]. }
  destruct (up_down_keeps_column l [0x78; 10] line2 [] [accented; letterY] A) as (_ & Hlast & Hup & _).
  { unfold onLine. rewrite Hc. done. }
  { rewrite Hc. exact Cy. }
  assert (atLine (withCursor l 1) [] [0x78] (10 :: line2) /\ onLine (withCursor l 1) [] [0x78]) as [A1 On1].
  { eapply atLine_move; [exact A|done|unfold noNewline; set_solver|by left|right; by eexists|done]. }
  destruct (up_down_keeps_column (withCursor l 1) [] [0x78] (10 :: line2) [letterX] A1 On1 Cx) as (_ & _ & _ & Hdown).
  split; [done|]. split; [|split; [|exact (Hlast eq_refl)]].
  - rewrite (Hup [] [0x78] [letterX]); [done|done|by left|unfold noNewline; set_solver|exact Cx].
  - rewrite (Hdown line2 [] [accented; letterY]); [done|by rewrite app_nil_r|by left|unfold noNewline, line2; set_solver|exact Cy].
Defined.
End LineUpDown.
