(* ===== verification/OrderedMap.v ===== *)
(** The insertion-ordered hash map of the language's map values
    (src/ordered_map.h, src/ordered_map.cpp): Robin Hood buckets over an array of
    entries. *)
From S2P Require Import Prelude.

Module OrderedMap.

(** What OrderedMapKey promises: an equality, and a hash that respects it. *)
Class MapKey (K : Type) := {
  equals : K -> K -> bool;
  hash : Z -> K -> Z;  (* seed, key *)
  equals_refl : forall k, equals k k = true;
  equals_sym : forall k1 k2, equals k1 k2 = true -> equals k2 k1 = true;
  equals_trans : forall k1 k2 k3, equals k1 k2 = true -> equals k2 k3 = true -> equals k1 k3 = true;
  hash_equals : forall seed k1 k2, equals k1 k2 = true -> hash seed k1 = hash seed k2;
  hash_range : forall seed k, 0 <= hash seed k < 2 ^ 64
}.

(** ** BucketLen: | 5bit (cap exp) | 27bit (size) | *)

Definition MASK_27bit : Z := 0x7FFFFFF.
Definition MAX_SIZE : Z := MASK_27bit.

Definition capExp (value : Z) : Z := Z.shiftr value 27.
Definition capacity (value : Z) : Z := u32 (Z.shiftl 1 (capExp value)).
Definition bucketSize (value : Z) : Z := Z.land value MASK_27bit.
Definition setCapExp (value v : Z) : Z := Z.lor (Z.land value MASK_27bit) (u32 (Z.shiftl v 27)).
Definition incExp (value : Z) : Z := setCapExp value (capExp value + 1).
Definition setSize (value size : Z) : Z :=
  Z.lor (Z.land value (Z.lxor UINT32_MAX MASK_27bit)) (Z.land MASK_27bit size).
Definition toBucketIndex (value hash : Z) : Z := u32 (Z.land hash (capacity value - 1)).
Definition nextBucketIndex (value index : Z) : Z := toBucketIndex value (u32 (index + 1)).
Definition bucketLen (initCapExp : Z) : Z := setCapExp 0 initCapExp.

(** [loadFactor(n) > MAX_LOAD_FACTOR]: the quotient by a power of two is exact,
    and 0.9 is the double 8106479329266893 / 2^53. *)
Definition overLoaded (value insertingSize : Z) : bool :=
  8106479329266893 * capacity value <? (bucketSize value + insertingSize) * 2 ^ 53.

(** ** The map *)

Record Bucket := { distanceToInitBucketIndex : Z; entryIndex : Z }.

Definition emptyBucket : Bucket := {| distanceToInitBucketIndex := 0; entryIndex := -1 |}.
Definition occupied (b : Bucket) : bool := -1 <? entryIndex b.

Inductive InsertStatus := OK | INSERTED | INVALID_KEY | LIMIT.

#[export] Instance InsertStatus_eq_dec : EqDecision InsertStatus.
Proof. solve_decision. Defined.

Section map.
Context {K V : Type} `{MapKey K}.

Record Entry := { entKey : K; entValue : V; entHash : Z }.

(** [values] has [capacity] slots; a slot without a key is an empty entry. *)
Record Entries := { values : list (option Entry); usedSize : Z }.

Definition entCapacity (e : Entries) : Z := zlen (values e).
Definition entryAt (e : Entries) (i : Z) : option Entry := mjoin (values e !! Z.to_nat i).

(** [add]: the index and the entries. *)
Definition add (e : Entries) (k : K) (h : Z) (v : V) : Z * Entries :=
  let vs :=
    if usedSize e =? entCapacity e then
      let newCap := entCapacity e + Z.shiftr (entCapacity e) 1 in
      let newCap := if newCap =? 0 then 4 else newCap in
      take (Z.to_nat (usedSize e)) (values e) ++
        replicate (Z.to_nat (newCap - usedSize e)) None
    else values e in
  let index := usedSize e in
  (index, {| values := <[Z.to_nat index := Some {| entKey := k; entValue := v; entHash := h |}]> vs;
             usedSize := usedSize e + 1 |}).

(** The loop of [del] that drops the deleted entries at the end. *)
Fixpoint popDeleted (vs : list (option Entry)) (used : nat) : nat :=
  match used with
  | O => O
  | S n => match mjoin (vs !! n) with Some _ => used | None => popDeleted vs n end
  end.

Definition del (e : Entries) (index : Z) : option Entry * Entries :=
  let vs := <[Z.to_nat index := None]> (values e) in
  (entryAt e index,
   {| values := vs; usedSize := Z.of_nat (popDeleted vs (Z.to_nat (usedSize e))) |}).

Definition clearEntries (e : Entries) : Entries :=
  let n := Z.to_nat (usedSize e) in
  {| values := replicate n None ++ drop n (values e); usedSize := 0 |}.

(** [compact]: the packing loop, [last] being the next free slot. *)
Fixpoint packLoop (n : nat) (vs : list (option Entry)) (i last : nat) : list (option Entry) * nat :=
  match n with
  | O => (vs, last)
  | S n' =>
      match mjoin (vs !! i) with
      | Some x => packLoop n' (<[last := Some x]> (<[i := mjoin (vs !! last)]> vs)) (S i) (S last)
      | None => packLoop n' vs (S i) last
      end
  end.

Fixpoint firstDeleted (n : nat) (vs : list (option Entry)) (i : nat) : nat :=
  match n with
  | O => i
  | S n' => match mjoin (vs !! i) with Some _ => firstDeleted n' vs (S i) | None => i end
  end.

Definition compact (e : Entries) : Entries :=
  let used := Z.to_nat (usedSize e) in
  let first := firstDeleted used (values e) 0 in
  let '(vs, last) := packLoop (used - S first) (values e) (S first) first in
  {| values := vs; usedSize := Z.of_nat last |}.

(** [buckets] is [None] until the first insertion allocates it. *)
Record Map := {
  seed : Z;
  len : Z;
  buckets : option (list Bucket);
  entries : Entries
}.

Definition emptyMap (s : Z) : Map :=
  {| seed := s; len := bucketLen 2; buckets := None; entries := {| values := []; usedSize := 0 |} |}.

Definition mapSize (m : Map) : Z := bucketSize (len m).

Definition bucketAt (bs : list Bucket) (i : Z) : Bucket :=
  default emptyBucket (bs !! Z.to_nat i).
Definition setBucket (bs : list Bucket) (i : Z) (b : Bucket) : list Bucket := <[Z.to_nat i := b]> bs.

Record ProbeState := { keyHash : Z; bucketIndex : Z; dist : Z }.

(** The loop of [probeBuckets]; [None] when the fuel runs out. *)
Fixpoint probeLoop (fuel : nat) (l : Z) (bs : list Bucket) (es : Entries) (h : Z) (k : K)
    (i d : Z) : option (bool * ProbeState) :=
  match fuel with
  | O => None
  | S fuel' =>
      let curBucket := bucketAt bs i in
      let stop found := Some (found, {| keyHash := h; bucketIndex := i; dist := d |}) in
      if negb (occupied curBucket) || (distanceToInitBucketIndex curBucket <? d) then stop false
      else
        match entryAt es (entryIndex curBucket) with
        | Some entry =>
            if (h =? entHash entry) && equals k (entKey entry) then stop true
            else probeLoop fuel' l bs es h k (nextBucketIndex l i) (d + 1)
        | None => probeLoop fuel' l bs es h k (nextBucketIndex l i) (d + 1)
        end
  end.

Definition probeFuel (l : Z) : nat := S (S (Z.to_nat (capacity l))).

Definition probeBuckets (m : Map) (bs : list Bucket) (k : K) : option (bool * ProbeState) :=
  let h := hash (seed m) k in
  probeLoop (probeFuel (len m)) (len m) bs (entries m) h k (toBucketIndex (len m) h) 0.

(** [lookup]: the entry index, -1 when the key is absent. *)
Definition lookup (m : Map) (k : K) : option Z :=
  if mapSize m =? 0 then Some (-1)
  else
    bs ← buckets m;
    '(found, probe) ← probeBuckets m bs k;
    Some (if found : bool then entryIndex (bucketAt bs (bucketIndex probe)) else -1).

(** The loop of [insertEntryIndex]. *)
Fixpoint insertLoop (fuel : nat) (l : Z) (bs : list Bucket) (entry i d : Z) : option (list Bucket) :=
  match fuel with
  | O => None
  | S fuel' =>
      let curBucket := bucketAt bs i in
      if negb (occupied curBucket)
      then Some (setBucket bs i {| distanceToInitBucketIndex := d; entryIndex := entry |})
      else if distanceToInitBucketIndex curBucket <? d then
        insertLoop fuel' l (setBucket bs i {| distanceToInitBucketIndex := d; entryIndex := entry |})
          (entryIndex curBucket) (nextBucketIndex l i) (distanceToInitBucketIndex curBucket + 1)
      else insertLoop fuel' l bs entry (nextBucketIndex l i) (d + 1)
  end.

Definition insertEntryIndex (l : Z) (bs : list Bucket) (entry i d : Z) : option (list Bucket) :=
  insertLoop (probeFuel l) l bs entry i d.

(** Reinserts the entries from [i] on. *)
Fixpoint rehashLoop (n : nat) (l : Z) (es : Entries) (i : Z) (bs : list Bucket)
    : option (list Bucket) :=
  match n with
  | O => Some bs
  | S n' =>
      match entryAt es i with
      | Some e =>
          bs ← insertEntryIndex l bs i (toBucketIndex l (entHash e)) 0;
          rehashLoop n' l es (i + 1) bs
      | None => rehashLoop n' l es (i + 1) bs
      end
  end.

(** The new BucketLen and buckets. *)
Definition rehash (grow : bool) (l : Z) (es : Entries) : option (Z * list Bucket) :=
  let l := if grow then incExp l else l in
  bs ← rehashLoop (Z.to_nat (usedSize es)) l es 0
         (replicate (Z.to_nat (capacity l)) emptyBucket);
  Some (l, bs).

(** [None] when a loop does not end; an empty key is [None]. *)
Definition insert (m : Map) (key : option K) (v : V) : option (Z * InsertStatus * Map) :=
  match key with
  | None => Some (-1, INVALID_KEY, m)
  | Some k =>
      let bs := match buckets m with
                | Some bs => bs
                | None => replicate (Z.to_nat (capacity (len m))) emptyBucket
                end in
      let m := {| seed := seed m; len := len m; buckets := Some bs; entries := entries m |} in
      '(found, probe) ← probeBuckets m bs k;
      if found : bool then
        Some (entryIndex (bucketAt bs (bucketIndex probe)), INSERTED, m)
      else if mapSize m =? MAX_SIZE then Some (-1, LIMIT, m)
      else
        let needGrow := overLoaded (len m) 1 in
        let holes := negb (usedSize (entries m) =? mapSize m) in
        let needCompaction := (usedSize (entries m) =? entCapacity (entries m)) && holes in
        '(l, bs, es, i, d) ←
          (if needGrow || needCompaction then
             let es := if needCompaction || (needGrow && holes) then compact (entries m) else entries m in
             '(l, bs) ← rehash needGrow (len m) es;
             Some (l, bs, es, toBucketIndex l (keyHash probe), 0)
           else Some (len m, bs, entries m, bucketIndex probe, dist probe));
        let '(entry, es) := add es k (keyHash probe) v in
        bs ← insertEntryIndex l bs entry i d;
        Some (entry, OK, {| seed := seed m; len := setSize l (bucketSize l + 1);
                            buckets := Some bs; entries := es |})
  end.

(** The backward shift of [remove]. *)
Fixpoint shiftLoop (fuel : nat) (l : Z) (bs : list Bucket) (prev i : Z) : option (list Bucket) :=
  match fuel with
  | O => None
  | S fuel' =>
      let curBucket := bucketAt bs i in
      if negb (occupied curBucket) || (distanceToInitBucketIndex curBucket =? 0) then Some bs
      else
        let moved := {| distanceToInitBucketIndex := distanceToInitBucketIndex curBucket - 1;
                        entryIndex := entryIndex curBucket |} in
        shiftLoop fuel' l (setBucket (setBucket bs prev moved) i emptyBucket) i (nextBucketIndex l i)
  end.

(** The removed entry, [None] when the key is absent. *)
Definition remove (m : Map) (k : K) : option (option Entry * Map) :=
  if mapSize m =? 0 then Some (None, m)
  else
    bs ← buckets m;
    '(found, probe) ← probeBuckets m bs k;
    if found : bool then
      let '(entry, es) := del (entries m) (entryIndex (bucketAt bs (bucketIndex probe))) in
      let l := setSize (len m) (bucketSize (len m) - 1) in
      bs ← shiftLoop (probeFuel l) l (setBucket bs (bucketIndex probe) emptyBucket)
             (bucketIndex probe) (nextBucketIndex l (bucketIndex probe));
      Some (entry, {| seed := seed m; len := l; buckets := Some bs; entries := es |})
    else Some (None, m).

Definition clear (m : Map) : Map :=
  if mapSize m =? 0 then m
  else {| seed := seed m; len := setSize (len m) 0;
          buckets := (fun bs => replicate (Z.to_nat (capacity (len m))) emptyBucket ++
                                drop (Z.to_nat (capacity (len m))) bs) <$> buckets m;
          entries := clearEntries (entries m) |}.
End map.

End OrderedMap.
