(* ===== verification/HashBuckets.v ===== *)
(** The Robin Hood invariant of the hash buckets: along the ring of slots the
    distance of an entry from its home grows by at most one from a slot to the
    next.  Insertion, backward-shift removal and probing are correct under it. *)
From S2P Require Import Prelude OrderedMap.

Module HashBuckets.
Import OrderedMap.

(** ** The packed length *)

Definition packed (l e s : Z) : Prop := l = e * 2 ^ 27 + s /\ 0 <= e < 31 /\ 0 <= s <= MAX_SIZE.

Lemma mask_low x : Z.land x MASK_27bit = x mod 2 ^ 27.
Proof. change MASK_27bit with (Z.ones 27). by rewrite Z.land_ones. Qed.

Lemma packed_fields l e s : packed l e s -> capExp l = e /\ bucketSize l = s /\ capacity l = 2 ^ e.
Proof.
  intros (-> & He & Hs). change MAX_SIZE with 134217727 in Hs.
  assert (capExp (e * 2 ^ 27 + s) = e) as Ee.
  { unfold capExp. rewrite Z.shiftr_div_pow2 by lia. change (2 ^ 27) with 134217728.
    rewrite Z.div_add_l by lia. rewrite Z.div_small by lia. lia. }
  split_and!; [done| |].
  - unfold bucketSize. rewrite mask_low. change (2 ^ 27) with 134217728.
    rewrite Z.add_comm, Z.mod_add by lia. apply Z.mod_small. lia.
  - unfold capacity. rewrite Ee, Z.shiftl_1_l. apply wrap_small. unfold in_unsigned.
    split; [apply Z.pow_nonneg; lia|]. apply Z.pow_lt_mono_r; lia.
Qed.

Lemma setCapExp_packed l e s e' : packed l e s -> 0 <= e' < 31 -> packed (setCapExp l e') e' s.
Proof.
  intros Hp He'. pose proof (packed_fields _ _ _ Hp) as (_ & Hs & _). destruct Hp as (-> & He & Hr).
  split_and!; try lia. unfold setCapExp, bucketSize in *. rewrite Hs.
  rewrite wrap_small; [by rewrite Z.lor_comm, lor_shift_add by (lia || (change MAX_SIZE with 134217727 in Hr; lia))|].
  unfold in_unsigned. rewrite Z.shiftl_mul_pow2 by lia. change (2 ^ 27) with 134217728. change (2 ^ 32) with 4294967296. lia.
Qed.

Lemma bucketLen_packed : packed (bucketLen 2) 2 0.
Proof. unfold packed. vm_compute. split_and!; done. Qed.

Lemma setSize_packed l e s s' : packed l e s -> 0 <= s' <= MAX_SIZE -> packed (setSize l s') e s'.
Proof.
  intros Hp Hs'. destruct Hp as (-> & He & Hr). split; [|done].
  change MAX_SIZE with 134217727 in *. unfold setSize.
  rewrite (Z.land_comm MASK_27bit s'), mask_low, (Z.mod_small s') by lia.
  replace (Z.land (e * 2 ^ 27 + s) (Z.lxor UINT32_MAX MASK_27bit)) with (Z.shiftl e 27).
  { apply lor_shift_add; lia. }
  apply Z.bits_inj'. intros i Hi. rewrite Z.land_spec, Z.shiftl_spec by done.
  rewrite <- lor_shift_add, Z.lor_spec, Z.shiftl_spec by lia.
  change (Z.lxor UINT32_MAX MASK_27bit) with (Z.shiftl (Z.ones 5) 27). rewrite Z.shiftl_spec by done.
  destruct (Z_lt_dec i 27) as [Hlt|Hge].
  - rewrite (Z.testbit_neg_r (Z.ones 5)), (Z.testbit_neg_r e) by lia. by rewrite andb_false_r.
  - assert (Z.testbit s i = false) as Hs.
    { destruct (decide (s = 0)) as [->|]; [apply Z.bits_0|]. apply Z.bits_above_log2; [lia|].
      apply Z.lt_le_trans with 27; [apply Z.log2_lt_pow2; lia|lia]. }
    rewrite Hs, orb_false_r. destruct (Z_lt_dec (i - 27) 5) as [H5|H5].
    + by rewrite Z.ones_spec_low, andb_true_r by lia.
    + assert (Z.testbit e (i - 27) = false) as ->; [|done].
      destruct (decide (e = 0)) as [->|]; [apply Z.bits_0|]. apply Z.bits_above_log2; [lia|].
      apply Z.lt_le_trans with 5; [apply Z.log2_lt_pow2; lia|lia].
Qed.

Lemma incExp_packed l e s : packed l e s -> e < 30 -> packed (incExp l) (e + 1) s.
Proof.
  intros Hp He. unfold incExp. rewrite (proj1 (packed_fields _ _ _ Hp)).
  apply (setCapExp_packed l e); [done|]. destruct Hp as (_ & Hr & _). lia.
Qed.

(** ** The ring of slots *)

Section ring.
Context (l cap : Z) (Hcap : capacity l = cap) (Hpow : exists e, 0 <= e < 31 /\ cap = 2 ^ e).

Lemma cap_range : 0 < cap < 2 ^ 31.
Proof.
  destruct Hpow as (e & He & ->). split; [apply Z.pow_pos_nonneg; lia|apply Z.pow_lt_mono_r; lia].
Qed.

Lemma toBucketIndex_mod h : toBucketIndex l h = h mod cap.
Proof.
  pose proof cap_range as Hr. unfold toBucketIndex. rewrite Hcap. destruct Hpow as (e & He & Ec).
  assert (cap - 1 = Z.ones e) as -> by (rewrite Z.ones_equiv; lia).
  rewrite Z.land_ones, <- Ec by lia. apply wrap_small. unfold in_unsigned.
  pose proof (Z.mod_pos_bound h cap ltac:(lia)). change (2 ^ 31) with 2147483648 in Hr.
  change (2 ^ 32) with 4294967296. lia.
Qed.

Lemma toBucketIndex_range h : 0 <= toBucketIndex l h < cap.
Proof. rewrite toBucketIndex_mod. apply Z.mod_pos_bound. pose proof cap_range. lia. Qed.

Definition nxt (i : Z) : Z := if i + 1 =? cap then 0 else i + 1.

Lemma nextBucketIndex_nxt i : 0 <= i < cap -> nextBucketIndex l i = nxt i.
Proof.
  intros Hi. pose proof cap_range as Hr. unfold nextBucketIndex, nxt. change (2 ^ 31) with 2147483648 in Hr.
  rewrite wrap_small by (unfold in_unsigned; change (2 ^ 32) with 4294967296; lia).
  rewrite toBucketIndex_mod. destruct (Z.eqb_spec (i + 1) cap) as [->|]; [apply Z.mod_same; lia|].
  apply Z.mod_small. lia.
Qed.

(** How many steps forward [b] is from [a]. *)
Definition rd (a b : Z) : Z := if a <=? b then b - a else b - a + cap.

Ltac ring_lia := unfold nxt, rd in *;
  repeat match goal with
  | |- context [?a <=? ?b] => destruct (Z.leb_spec a b)
  | |- context [?a =? ?b] => destruct (Z.eqb_spec a b)
  | H : context [?a <=? ?b] |- _ => destruct (Z.leb_spec a b)
  | H : context [?a =? ?b] |- _ => destruct (Z.eqb_spec a b)
  end; lia.

Lemma nxt_range i : 0 <= i < cap -> 0 <= nxt i < cap.
Proof. intros. ring_lia. Qed.
Lemma rd_range a b : 0 <= a < cap -> 0 <= b < cap -> 0 <= rd a b < cap.
Proof. intros. ring_lia. Qed.
Lemma rd_nxt a b : 0 <= a < cap -> 0 <= b < cap -> rd a b + 1 < cap -> rd a (nxt b) = rd a b + 1.
Proof. intros. ring_lia. Qed.
Lemma rd_step a b : 0 <= a < cap -> 0 <= b < cap -> a <> b -> rd (nxt a) b = rd a b - 1.
Proof. intros. ring_lia. Qed.
Lemma rd_eq a b : 0 <= a < cap -> 0 <= b < cap -> rd a b = 0 <-> a = b.
Proof. intros. split; intros; [ring_lia|subst; ring_lia]. Qed.
Lemma nxt_inj a b : 0 <= a < cap -> 0 <= b < cap -> nxt a = nxt b -> a = b.
Proof. intros. ring_lia. Qed.
Lemma rd_chain a b c : 0 <= a < cap -> 0 <= b < cap -> 0 <= c < cap -> rd a b <= rd a c ->
  rd a c = rd a b + rd b c.
Proof. intros. ring_lia. Qed.

(** ** Slots *)

Context (home : Z -> Z) (Hhome : forall j, 0 <= home j < cap) (Hcap1 : 1 < cap).

Definition D (bs : list Bucket) (i : Z) : Z :=
  if occupied (bucketAt bs i) then distanceToInitBucketIndex (bucketAt bs i) else -1.

(** The entries in the buckets. *)
Definition held (b : Bucket) : list Z := if occupied b then [entryIndex b] else [].
Definition occ (bs : list Bucket) : list Z := flat_map held bs.

Lemma bucketAt_set bs i j b : zlen bs = cap -> 0 <= i < cap -> 0 <= j < cap ->
  bucketAt (setBucket bs i b) j = if i =? j then b else bucketAt bs j.
Proof.
  intros Hl Hi Hj. unfold bucketAt, setBucket. destruct (Z.eqb_spec i j) as [->|Hne].
  - rewrite list_lookup_insert_eq; [done|]. unfold zlen in Hl. lia.
  - by rewrite list_lookup_insert_ne by lia.
Qed.

Lemma setBucket_length bs i b : zlen (setBucket bs i b) = zlen bs.
Proof. unfold zlen, setBucket. by rewrite length_insert. Qed.

Lemma occ_set bs i b : zlen bs = cap -> 0 <= i < cap ->
  held (bucketAt bs i) ++ occ (setBucket bs i b) ≡ₚ held b ++ occ bs.
Proof.
  intros Hl Hi. unfold occ, setBucket, bucketAt.
  destruct (lookup_lt_is_Some_2 bs (Z.to_nat i)) as [b0 Hb]; [unfold zlen in Hl; lia|].
  rewrite Hb. cbn [default]. rewrite <- (take_drop_middle bs _ _ Hb) at 2.
  rewrite insert_take_drop by (eapply lookup_lt_Some; exact Hb).
  rewrite !flat_map_app. cbn [flat_map]. solve_Permutation.
Qed.

Lemma occ_elem bs j : zlen bs = cap ->
  j ∈ occ bs <-> exists i, 0 <= i < cap /\ occupied (bucketAt bs i) = true /\ entryIndex (bucketAt bs i) = j.
Proof.
  intros Hl. unfold occ. rewrite list_elem_of_In, in_flat_map. split.
  - intros (b & Hb & Hj). apply list_elem_of_In, list_elem_of_lookup_1 in Hb as [n Hn].
    unfold held in Hj. destruct (occupied b) eqn:Ho; [|done]. destruct Hj as [<-|[]].
    exists (Z.of_nat n). pose proof (lookup_lt_Some _ _ _ Hn). unfold bucketAt. rewrite Nat2Z.id, Hn.
    split_and!; try done; unfold zlen in Hl; lia.
  - intros (i & Hi & Ho & <-). unfold bucketAt in *.
    destruct (bs !! Z.to_nat i) as [b|] eqn:E; [|done]. exists b. split.
    + apply list_elem_of_In. by eapply list_elem_of_lookup_2.
    + cbn in *. unfold held. rewrite Ho. by left.
Qed.

(** A table that is not full has an empty slot. *)
Lemma empty_slot bs : zlen bs = cap -> zlen (occ bs) < cap ->
  exists e, 0 <= e < cap /\ occupied (bucketAt bs e) = false.
Proof.
  intros Hl Ho. assert (exists n b, bs !! n = Some b /\ occupied b = false) as (n & b & Hn & Hb).
  { clear - Hl Ho. assert (zlen (occ bs) < zlen bs) as Hlt by lia. clear Hl Ho. unfold occ in *.
    induction bs as [|b bs IH]; [done|]. cbn [flat_map] in Hlt. rewrite zlen_app, zlen_cons in Hlt.
    unfold held in Hlt at 1. destruct (occupied b) eqn:E; [|by exists O, b].
    destruct IH as (n & b' & Hn & Hb'); [change (zlen [entryIndex b]) with 1 in Hlt; lia|]. by exists (S n), b'. }
  exists (Z.of_nat n). pose proof (lookup_lt_Some _ _ _ Hn). unfold bucketAt. rewrite Nat2Z.id, Hn.
  split; [unfold zlen in Hl; lia|done].
Qed.

(** ** The invariant *)

Definition RH (bs : list Bucket) : Prop := forall i, 0 <= i < cap -> D bs (nxt i) <= D bs i + 1.

Definition distOk (bs : list Bucket) : Prop :=
  forall i, 0 <= i < cap -> occupied (bucketAt bs i) = true ->
    distanceToInitBucketIndex (bucketAt bs i) = rd (home (entryIndex (bucketAt bs i))) i.

Record Buckets (bs : list Bucket) : Prop := {
  bs_len : zlen bs = cap;
  bs_rh : RH bs;
  bs_dist : distOk bs
}.

Lemma D_nonneg bs i : distOk bs -> 0 <= i < cap -> occupied (bucketAt bs i) = true -> 0 <= D bs i.
Proof. intros Hd Hi Ho. unfold D. rewrite Ho, Hd by done. by apply rd_range. Qed.

Lemma D_ge bs i : distOk bs -> 0 <= i < cap -> -1 <= D bs i.
Proof.
  intros Hd Hi. destruct (occupied (bucketAt bs i)) eqn:Ho; [|unfold D; rewrite Ho; lia].
  pose proof (D_nonneg bs i Hd Hi Ho). lia.
Qed.

Lemma D_empty bs i : occupied (bucketAt bs i) = false -> D bs i = -1.
Proof. intros Ho. unfold D. by rewrite Ho. Qed.

Lemma D_set bs i j b : zlen bs = cap -> 0 <= i < cap -> 0 <= j < cap ->
  D (setBucket bs i b) j =
    if i =? j then (if occupied b then distanceToInitBucketIndex b else -1) else D bs j.
Proof. intros Hl Hi Hj. unfold D. rewrite bucketAt_set by done. by destruct (i =? j). Qed.

(** Along the ring a distance grows by at most the number of steps. *)
Lemma chain bs : RH bs -> forall i e, 0 <= i < cap -> 0 <= e < cap -> D bs i <= D bs e + rd e i.
Proof.
  intros Hr i e Hi He. remember (Z.to_nat (rd e i)) as n eqn:En. revert e He En.
  induction n as [|n IH]; intros e He En; pose proof (rd_range e i He Hi) as Hrg.
  - assert (rd e i = 0) as Hz by lia. pose proof (proj1 (rd_eq e i He Hi) Hz) as Hei. subst e. lia.
  - assert (e <> i) as Hne by (intros ->; rewrite (proj2 (rd_eq i i Hi Hi)) in En by done; lia).
    pose proof (rd_step e i He Hi Hne) as Hs. specialize (IH (nxt e) (nxt_range e He) ltac:(lia)).
    specialize (Hr e He). lia.
Qed.

(** *** Insertion *)

Lemma insertLoop_ok fuel : forall bs entry i d e, Buckets bs -> 0 <= entry -> 0 <= i < cap ->
  d = rd (home entry) i -> (forall p, 0 <= p < cap -> nxt p = i -> d <= D bs p + 1) ->
  0 <= e < cap -> occupied (bucketAt bs e) = false -> rd i e < Z.of_nat fuel ->
  exists bs', insertLoop fuel l bs entry i d = Some bs' /\ Buckets bs' /\ occ bs' ≡ₚ entry :: occ bs.
Proof.
  induction fuel as [|fuel IH]; intros bs entry i d e [Hl Hr Hd] Hen Hi Ed Hp He Hoe Hf;
    [pose proof (rd_range i e Hi He); lia|].
  cbn [insertLoop]. pose proof (D_empty bs e Hoe) as HDe.
  assert (Hd0 : 0 <= d) by (subst d; by apply rd_range).
  assert (Hocc : occupied {| distanceToInitBucketIndex := d; entryIndex := entry |} = true)
    by (unfold occupied; cbn; by apply Z.ltb_lt; lia).
  assert (Hput : D bs i < d -> Buckets (setBucket bs i {| distanceToInitBucketIndex := d; entryIndex := entry |})).
  { intros Hlt. split; [by rewrite setBucket_length| |].
    - intros j Hj. rewrite !D_set, Hocc by (done || by apply nxt_range). cbn [distanceToInitBucketIndex].
      destruct (Z.eqb_spec i (nxt j)) as [E|E], (Z.eqb_spec i j) as [E'|E'].
      + lia.
      + by apply Hp.
      + subst j. specialize (Hr i Hi). lia.
      + by apply Hr.
    - intros j Hj. rewrite bucketAt_set by done. destruct (Z.eqb_spec i j) as [->|]; [done|by apply Hd]. }
  destruct (occupied (bucketAt bs i)) eqn:Hoi; cbn [negb].
  2: { eexists. split; [done|]. split; [apply Hput; rewrite (D_empty bs i Hoi); lia|].
       pose proof (occ_set bs i {| distanceToInitBucketIndex := d; entryIndex := entry |} Hl Hi) as Hoc.
       unfold held in Hoc. by rewrite Hoi, Hocc in Hoc. }
  assert (HDi : D bs i = distanceToInitBucketIndex (bucketAt bs i)) by (unfold D; by rewrite Hoi).
  assert (Hne : i <> e) by (intros ->; congruence).
  pose proof (chain bs Hr i e Hi He) as Hch. pose proof (rd_range e i He Hi) as Hre.
  pose proof (rd_step i e Hi He Hne) as Hst. rewrite nextBucketIndex_nxt by done.
  destruct (Z.ltb_spec (distanceToInitBucketIndex (bucketAt bs i)) d) as [Hlt|Hge].
  - set (bs1 := setBucket bs i _) in *.
    destruct (IH bs1 (entryIndex (bucketAt bs i)) (nxt i) (distanceToInitBucketIndex (bucketAt bs i) + 1) e)
      as (bs' & -> & Hb & Hoc).
    + apply Hput. lia.
    + unfold occupied in Hoi. apply Z.ltb_lt in Hoi. lia.
    + by apply nxt_range.
    + rewrite Hd by done. symmetry. apply rd_nxt; [done|done|]. rewrite <- Hd by done. lia.
    + intros p Hpr Hnp. apply nxt_inj in Hnp as ->; [|done|done]. unfold bs1.
      rewrite D_set, Z.eqb_refl, Hocc by done. cbn. lia.
    + done.
    + unfold bs1. rewrite bucketAt_set by done. by rewrite (proj2 (Z.eqb_neq i e) Hne).
    + lia.
    + exists bs'. split; [done|]. split; [done|]. rewrite Hoc.
      pose proof (occ_set bs i {| distanceToInitBucketIndex := d; entryIndex := entry |} Hl Hi) as Hoc'.
      unfold held in Hoc'. by rewrite Hoi, Hocc in Hoc'.
  - destruct (IH bs entry (nxt i) (d + 1) e) as (bs' & -> & Hb & Hoc); try done; [by apply nxt_range| | |lia|eauto].
    + rewrite Ed. symmetry. apply rd_nxt; [done|done|lia].
    + intros p Hpr Hnp. apply nxt_inj in Hnp as ->; [|done|done]. lia.
Qed.

(** *** Removal *)

Lemma rd_prev a b : 0 <= a < cap -> 0 <= b < cap -> rd a (nxt b) <> 0 -> rd a b = rd a (nxt b) - 1.
Proof. intros. ring_lia. Qed.

Lemma nxt_ne i : 0 <= i < cap -> nxt i <> i.
Proof. intros. ring_lia. Qed.

(** The invariant but for the empty slot [p], whose successor may be displaced. *)
Record Holed (bs : list Bucket) (p : Z) : Prop := {
  hl_len : zlen bs = cap;
  hl_range : 0 <= p < cap;
  hl_empty : occupied (bucketAt bs p) = false;
  hl_rh : forall j, 0 <= j < cap -> j <> p -> D bs (nxt j) <= D bs j + 1;
  hl_over : forall q, 0 <= q < cap -> nxt q = p -> D bs (nxt p) <= D bs q + 2;
  hl_dist : distOk bs
}.

Lemma clear_holed bs i : Buckets bs -> 0 <= i < cap -> occupied (bucketAt bs i) = true ->
  Holed (setBucket bs i emptyBucket) i /\
  entryIndex (bucketAt bs i) :: occ (setBucket bs i emptyBucket) ≡ₚ occ bs.
Proof.
  intros [Hl Hr Hd] Hi Ho. split; [split|].
  - by rewrite setBucket_length.
  - done.
  - by rewrite bucketAt_set, Z.eqb_refl by done.
  - intros j Hj Hne. rewrite !D_set by (done || by apply nxt_range). rewrite (proj2 (Z.eqb_neq i j)) by done.
    cbn [occupied emptyBucket entryIndex]. destruct (i =? nxt j); [|by apply Hr].
    pose proof (D_ge bs j Hd Hj). cbn. lia.
  - intros q Hq Hnq. rewrite !D_set by (done || by apply nxt_range).
    pose proof (nxt_ne i Hi). pose proof (nxt_ne q Hq). rewrite !(proj2 (Z.eqb_neq i _)) by congruence.
    pose proof (Hr i Hi) as H1. pose proof (Hr q Hq) as H2. rewrite Hnq in H2. lia.
  - intros j Hj. rewrite bucketAt_set by done. destruct (Z.eqb_spec i j); [done|by apply Hd].
  - pose proof (occ_set bs i emptyBucket Hl Hi) as Hoc. unfold held in Hoc. by rewrite Ho in Hoc.
Qed.

Lemma shift_holed bs p : Holed bs p -> occupied (bucketAt bs (nxt p)) = true ->
  distanceToInitBucketIndex (bucketAt bs (nxt p)) <> 0 ->
  let moved := {| distanceToInitBucketIndex := distanceToInitBucketIndex (bucketAt bs (nxt p)) - 1;
                  entryIndex := entryIndex (bucketAt bs (nxt p)) |} in
  let bs1 := setBucket (setBucket bs p moved) (nxt p) emptyBucket in
  Holed bs1 (nxt p) /\ occ bs1 ≡ₚ occ bs.
Proof.
  intros [Hl Hp He Hr Hov Hd] Ho Hne moved bs1. pose proof (nxt_range p Hp) as Hn. pose proof (nxt_ne p Hp) as Hnp.
  assert (Hom : occupied moved = true) by exact Ho.
  assert (Hl1 : zlen (setBucket bs p moved) = cap) by by rewrite setBucket_length.
  pose proof (D_nonneg bs (nxt p) Hd Hn Ho) as HD0.
  assert (HDn : D bs (nxt p) = distanceToInitBucketIndex (bucketAt bs (nxt p))) by (unfold D; by rewrite Ho).
  assert (HD1 : forall j, 0 <= j < cap -> D bs1 j =
    if nxt p =? j then -1 else if p =? j then D bs (nxt p) - 1 else D bs j).
  { intros j Hj. unfold bs1. rewrite !D_set, Hom by done. cbn [distanceToInitBucketIndex moved]. by rewrite HDn. }
  split; [split|].
  - unfold bs1. by rewrite !setBucket_length.
  - done.
  - unfold bs1. by rewrite bucketAt_set, Z.eqb_refl by done.
  - intros j Hj Hj1. rewrite !HD1 by (done || by apply nxt_range). rewrite (proj2 (Z.eqb_neq (nxt p) j)) by done.
    destruct (Z.eqb_spec p j) as [<-|Hpj].
    + rewrite Z.eqb_refl. lia.
    + destruct (Z.eqb_spec (nxt p) (nxt j)) as [E|E]; [apply nxt_inj in E; done|].
      destruct (Z.eqb_spec p (nxt j)) as [E'|E']; [|apply Hr; [done|congruence]].
      specialize (Hov j Hj (eq_sym E')). lia.
  - intros q Hq Hnq. apply nxt_inj in Hnq as ->; [|done|done].
    rewrite !HD1 by (done || by apply nxt_range). rewrite Z.eqb_refl, (proj2 (Z.eqb_neq _ _) Hnp).
    pose proof (nxt_ne (nxt p) Hn) as Hnn. rewrite (proj2 (Z.eqb_neq (nxt p) (nxt (nxt p)))) by congruence.
    destruct (Z.eqb_spec p (nxt (nxt p))); [lia|]. pose proof (Hr (nxt p) Hn Hnp). lia.
  - intros j Hj. unfold bs1. rewrite !bucketAt_set by done.
    destruct (Z.eqb_spec (nxt p) j); [done|]. destruct (Z.eqb_spec p j) as [<-|]; [|by apply Hd].
    intros _. cbn [moved distanceToInitBucketIndex entryIndex]. rewrite Hd in Hne |- * by done.
    symmetry. apply rd_prev; done.
  - unfold bs1. pose proof (occ_set bs p moved Hl Hp) as H1.
    pose proof (occ_set (setBucket bs p moved) (nxt p) emptyBucket Hl1 Hn) as H2.
    rewrite bucketAt_set, (proj2 (Z.eqb_neq p (nxt p))) in H2 by (done || congruence).
    unfold held in H1, H2. rewrite He, Hom in H1. rewrite Ho in H2. cbn in H1, H2.
    rewrite H1 in H2. by apply Permutation_cons_inv in H2.
Qed.

Lemma shiftLoop_ok fuel : forall bs p e, Holed bs p -> 0 <= e < cap -> e <> p ->
  occupied (bucketAt bs e) = false -> rd (nxt p) e < Z.of_nat fuel ->
  exists bs', shiftLoop fuel l bs p (nxt p) = Some bs' /\ Buckets bs' /\ occ bs' ≡ₚ occ bs.
Proof.
  induction fuel as [|fuel IH]; intros bs p e Hh He Hep Hoe Hf; pose proof Hh as [Hl Hp Hem Hr Hov Hd];
    pose proof (nxt_range p Hp) as Hn; [pose proof (rd_range (nxt p) e Hn He); lia|].
  cbn [shiftLoop]. destruct (occupied (bucketAt bs (nxt p))) eqn:Ho; cbn [negb orb].
  1: destruct (Z.eqb_spec (distanceToInitBucketIndex (bucketAt bs (nxt p))) 0) as [H0|H0].
  2: { destruct (shift_holed bs p Hh Ho H0) as [Hh1 Hoc]. rewrite nextBucketIndex_nxt by done.
       assert (Hne : nxt p <> e) by (intros E; congruence).
       destruct (IH _ (nxt p) e Hh1 He (not_eq_sym Hne)) as (bs' & -> & Hb & Hoc').
       - rewrite !bucketAt_set by (rewrite ?setBucket_length; done).
         by rewrite (proj2 (Z.eqb_neq (nxt p) e)), (proj2 (Z.eqb_neq p e)) by congruence.
       - rewrite rd_step by done. lia.
       - exists bs'. split; [done|]. split; [done|]. by rewrite Hoc'. }
  all: exists bs; (split; [done|]); (split; [|done]); (split; [done| |done]);
    intros j Hj; destruct (decide (j = p)) as [->|Hjp]; [|by apply Hr].
  - unfold D at 1. rewrite Ho, H0. rewrite (D_empty bs p Hem). lia.
  - rewrite (D_empty _ _ Ho), (D_empty bs p Hem). lia.
Qed.

(** *** Probing *)

Section probe.
Context {K V : Type} `{MapKey K} (es : @Entries K V) (h : Z) (k : K).

(** The entry of a slot is the one that is looked for. *)
Definition hit (j : Z) : bool :=
  match entryAt es j with Some en => (h =? entHash en) && equals k (entKey en) | None => false end.

(** What the probe returns. *)
Definition Probed (bs : list Bucket) (hm : Z) (found : bool) (pr : ProbeState) : Prop :=
  keyHash pr = h /\ 0 <= bucketIndex pr < cap /\ dist pr = rd hm (bucketIndex pr) /\
  (forall p, 0 <= p < cap -> nxt p = bucketIndex pr -> dist pr <= D bs p + 1) /\
  if found
  then occupied (bucketAt bs (bucketIndex pr)) = true /\
       hit (entryIndex (bucketAt bs (bucketIndex pr))) = true
  else forall j, j ∈ occ bs -> home j = hm -> hit j = false.

Lemma probeLoop_ok bs hm e fuel : forall i d, Buckets bs -> 0 <= hm < cap -> 0 <= i < cap ->
  d = rd hm i -> (forall p, 0 <= p < cap -> nxt p = i -> d <= D bs p + 1) ->
  (forall s, 0 <= s < cap -> rd hm s < d -> occupied (bucketAt bs s) = true ->
     hit (entryIndex (bucketAt bs s)) = false) ->
  0 <= e < cap -> occupied (bucketAt bs e) = false -> rd i e < Z.of_nat fuel ->
  exists found pr, probeLoop fuel l bs es h k i d = Some (found, pr) /\ Probed bs hm found pr.
Proof.
  induction fuel as [|fuel IH]; intros i d [Hl Hr Hd] Hhm Hi Ed Hp Hs He Hoe Hf;
    [pose proof (rd_range i e Hi He); lia|].
  cbn [probeLoop]. destruct (negb (occupied (bucketAt bs i)) || _) eqn:Hstop.
  { eexists _, _. split; [done|]. unfold Probed. cbn. split_and!; try done; try lia.
    assert (HD : D bs i < d).
    { apply orb_true_iff in Hstop as [Ho|Hlt].
      - apply negb_true_iff in Ho. rewrite (D_empty _ _ Ho), Ed. pose proof (rd_range hm i Hhm Hi). lia.
      - apply Z.ltb_lt in Hlt. unfold D. destruct (occupied (bucketAt bs i)) eqn:Ho; [lia|].
        rewrite Ed. pose proof (rd_range hm i Hhm Hi). lia. }
    intros j Hj Hhj. apply occ_elem in Hj as (s & Hsr & Hos & <-); [|done].
    apply Hs; [done| |done]. destruct (Z_lt_dec (rd hm s) d) as [|Hge]; [done|].
    pose proof (chain bs Hr s i Hsr Hi) as Hch. pose proof (rd_chain hm i s Hhm Hi Hsr ltac:(lia)) as Hrc.
    assert (D bs s = rd hm s) as HDs by (unfold D; rewrite Hos, Hd by done; by rewrite Hhj). lia. }
  apply orb_false_iff in Hstop as [Ho Hge]. apply negb_false_iff in Ho. apply Z.ltb_ge in Hge.
  assert (HDi : D bs i = distanceToInitBucketIndex (bucketAt bs i)) by (unfold D; by rewrite Ho).
  assert (Hne : i <> e) by (intros ->; congruence).
  pose proof (chain bs Hr i e Hi He) as Hch. rewrite (D_empty bs e Hoe) in Hch.
  pose proof (rd_range e i He Hi) as Hre.
  pose proof (rd_step i e Hi He Hne) as Hst.
  assert (Hgo : hit (entryIndex (bucketAt bs i)) = false ->
    exists found pr, probeLoop fuel l bs es h k (nextBucketIndex l i) (d + 1) = Some (found, pr) /\ Probed bs hm found pr).
  { intros Hh. rewrite nextBucketIndex_nxt by done. apply IH; try done; [by apply nxt_range| | | |lia].
    - rewrite Ed. symmetry. apply rd_nxt; [done|done|lia].
    - intros p Hpr Hnp. apply nxt_inj in Hnp as ->; [|done|done]. lia.
    - intros s Hsr Hlt Hos. destruct (decide (s = i)) as [->|Hsi]; [done|]. apply Hs; [done| |done].
      destruct (Z_lt_dec (rd hm s) d) as [|Hge']; [done|]. exfalso. apply Hsi.
      pose proof (rd_chain hm i s Hhm Hi Hsr ltac:(lia)) as Hrc. symmetry. apply rd_eq; [done|done|lia]. }
  unfold hit in *. destruct (entryAt es (entryIndex (bucketAt bs i))) as [en|] eqn:Een; [|by apply Hgo].
  destruct ((h =? entHash en) && equals k (entKey en)) eqn:Hh; [|by apply Hgo].
  eexists _, _. split; [done|]. unfold Probed, hit. cbn [keyHash bucketIndex dist]. rewrite Een. exact (conj eq_refl (conj Hi (conj Ed (conj Hp (conj Ho Hh))))).

Qed.
End probe.

End ring.
End HashBuckets.
