(* ===== verification/OrderedMapSpec.v ===== *)
(** Refinement of the insertion-ordered hash map: every operation ends, keeps the
    invariant, and acts on the sequence of live entries as on an association list
    in insertion order. *)
From S2P Require Import Prelude OrderedMap HashBuckets.

Module OrderedMapSpec.
Import OrderedMap HashBuckets.

(** The elements that are there. *)
Definition somes {A} (l : list (option A)) : list A := omap (M := list) (fun o : option A => o) l.

Lemma somes_app {A} (a b : list (option A)) : somes (a ++ b) = somes a ++ somes b.
Proof. apply omap_app. Qed.

Lemma somes_Some {A} (x : A) l : somes (Some x :: l) = x :: somes l.
Proof. done. Qed.
Lemma somes_None {A} (l : list (option A)) : somes (None :: l) = somes l.
Proof. done. Qed.

Lemma somes_none {A} (l : list (option A)) : (forall i o, l !! i = Some o -> o = None) -> somes l = [].
Proof.
  induction l as [|o l IH]; intros Hl; [done|]. rewrite (Hl O o eq_refl). cbn. apply IH.
  intros i o' Ho. by apply (Hl (S i)).
Qed.

Lemma somes_elem {A} (l : list (option A)) x : x ∈ somes l <-> Some x ∈ l.
Proof.
  unfold somes. rewrite list_elem_of_omap. split; [intros (o & Ho & ->); done|intros; by exists (Some x)].
Qed.

Section spec.
Context {K V : Type} `{MapKey K}.
Abbreviation Entry := (@Entry K V).
Abbreviation Entries := (@Entries K V).
Abbreviation Map := (@Map K V).
Implicit Types (es : Entries) (m : Map).

(** ** Entries *)

Definition live (es : Entries) : list Entry := somes (values es).

Record EntOk (es : Entries) : Prop := {
  eo_used : 0 <= usedSize es <= zlen (values es);
  eo_rest : forall i, usedSize es <= i -> entryAt es i = None;
  eo_cap : zlen (values es) = 0 \/ 2 <= zlen (values es)
}.


(** The entries before and after an index. *)
Lemma live_split es i x : entryAt es i = Some x ->
  live es = somes (take (Z.to_nat i) (values es)) ++ x :: somes (drop (S (Z.to_nat i)) (values es)).
Proof.
  intros Hi. unfold entryAt in Hi. destruct (values es !! Z.to_nat i) as [o|] eqn:E; [|done].
  cbn in Hi. subst o. unfold live. rewrite <- (take_drop_middle _ _ _ E) at 1.
  by rewrite somes_app.
Qed.

Lemma live_elem es x : x ∈ live es <-> exists i, 0 <= i /\ entryAt es i = Some x.
Proof.
  unfold live. rewrite somes_elem. split.
  - intros Ho. apply list_elem_of_lookup_1 in Ho as [n Hn].
    exists (Z.of_nat n). split; [lia|]. unfold entryAt. by rewrite Nat2Z.id, Hn.
  - intros (i & Hi & Ex). unfold entryAt in Ex. destruct (values es !! Z.to_nat i) as [o|] eqn:E; [|done].
    cbn in Ex. subst o. by eapply list_elem_of_lookup_2.
Qed.

Lemma rest_none es i o : EntOk es -> (Z.to_nat (usedSize es) <= i)%nat -> values es !! i = Some o -> o = None.
Proof.
  intros [Hu Hr _] Hi Ho. specialize (Hr (Z.of_nat i) ltac:(lia)). unfold entryAt in Hr.
  rewrite Nat2Z.id, Ho in Hr. done.
Qed.

Lemma live_take es n : EntOk es -> (Z.to_nat (usedSize es) <= n)%nat -> live es = somes (take n (values es)).
Proof.
  intros He Hn. unfold live. rewrite <- (take_drop n (values es)) at 1. rewrite somes_app.
  rewrite (somes_none (drop n (values es))); [by rewrite app_nil_r|].
  intros i o Ho. rewrite lookup_drop in Ho. eapply rest_none; [done| |exact Ho]. lia.
Qed.

(** *** add *)

Lemma add_spec es k h v : EntOk es ->
  let '(index, es') := add es k h v in
  let x := {| entKey := k; entValue := v; entHash := h |} in
  index = usedSize es /\ EntOk es' /\ live es' = live es ++ [x] /\
  (forall i, 0 <= i -> entryAt es' i = if i =? index then Some x else entryAt es i) /\
  zlen (values es') = (if usedSize es =? zlen (values es)
                       then (if zlen (values es) =? 0 then 4 else zlen (values es) + zlen (values es) / 2)
                       else zlen (values es)).
Proof.
  intros He. pose proof He as [Hu Hr Hc]. unfold add. set (vs := if usedSize es =? _ then _ else _).
  cbn zeta iota. unfold entCapacity in vs.
  set (cap' := if usedSize es =? zlen (values es)
               then (if zlen (values es) =? 0 then 4 else zlen (values es) + zlen (values es) / 2)
               else zlen (values es)).
  assert (Hvs : zlen vs = cap' /\ usedSize es < cap' /\ 2 <= cap' /\
    forall i, mjoin (vs !! i) = mjoin (values es !! i)).
  { unfold vs, cap'. destruct (Z.eqb_spec (usedSize es) (zlen (values es))) as [E|E]; [|split_and!; [done|lia|lia|done]].
    rewrite Z.shiftr_div_pow2 by lia. change (2 ^ 1) with 2. cbv zeta.
    set (nc := if _ =? 0 then 4 else _). assert (usedSize es < nc /\ 2 <= nc) as Hnc.
    { unfold nc. pose proof (Z.div_pos (zlen (values es)) 2 ltac:(lia) ltac:(lia)).
      pose proof (Z.mul_div_le (zlen (values es)) 2 ltac:(lia)).
      assert (zlen (values es) = 0 \/ 1 <= zlen (values es) / 2) as [E0|E0]
        by (destruct Hc; [by left|right; apply Z.div_le_lower_bound; lia]);
        destruct (Z.eqb_spec (zlen (values es) + zlen (values es) / 2) 0); lia. }
    rewrite take_ge by (unfold zlen in *; lia).
    assert (nc = (if zlen (values es) =? 0 then 4 else zlen (values es) + zlen (values es) / 2)) as Enc.
    { unfold nc. pose proof (Z.div_pos (zlen (values es)) 2).
      destruct (Z.eqb_spec (zlen (values es)) 0) as [E0|E0].
      - by rewrite E0.
      - destruct (Z.eqb_spec (zlen (values es) + zlen (values es) / 2) 0); [lia|done]. }
    rewrite <- Enc. split_and!; [|lia|lia|].
    - rewrite zlen_app. unfold zlen at 2. rewrite length_replicate. lia.
    - intros i. destruct (decide (i < length (values es))%nat) as [Hi|Hi].
      + by rewrite lookup_app_l.
      + rewrite lookup_app_r, (lookup_ge_None_2 (values es)) by lia. cbn.
        destruct (replicate _ None !! _) as [o|] eqn:Eo; [|done]. by apply lookup_replicate in Eo as [-> _]. }
  destruct Hvs as (Hl & Hlt & H2 & Hvs). set (x := {| entKey := k |}).
  assert (Hat : forall i, 0 <= i ->
    mjoin (<[Z.to_nat (usedSize es) := Some x]> vs !! Z.to_nat i) = if i =? usedSize es then Some x else entryAt es i).
  { intros i Hi. destruct (Z.eqb_spec i (usedSize es)) as [->|Hne].
    - rewrite list_lookup_insert_eq by (unfold zlen in Hl; lia). done.
    - rewrite list_lookup_insert_ne by lia. apply Hvs. }
  split_and!; [done| | |done|].
  - split; cbn.
    + unfold zlen in *. rewrite length_insert. lia.
    + intros i Hi. unfold entryAt. cbn. rewrite Hat by lia.
      rewrite (proj2 (Z.eqb_neq _ _)) by lia. apply Hr. lia.
    + unfold zlen in *. rewrite length_insert. lia.
  - destruct (vs !! Z.to_nat (usedSize es)) as [o|] eqn:Eo.
    2: { apply lookup_ge_None in Eo. unfold zlen in *. lia. }
    assert (o = None) as ->.
    { pose proof (Hvs (Z.to_nat (usedSize es))) as Ho. rewrite Eo in Ho. cbn in Ho. subst o. by apply (Hr (usedSize es)). }
    assert (live {| values := vs; usedSize := usedSize es |} = live es) as Hlive.
    { destruct (decide (usedSize es = zlen (values es))) as [E|E].
      - unfold vs. rewrite (proj2 (Z.eqb_eq _ _) E). unfold live. cbn [values]. rewrite somes_app, take_ge by (unfold zlen in E; lia).
        rewrite (somes_none (replicate _ _)); [by rewrite app_nil_r|]. intros i o Ho. by apply lookup_replicate in Ho as [-> _].
      - unfold vs. by rewrite (proj2 (Z.eqb_neq _ _) E). }
    rewrite <- Hlive. unfold live. cbn [values].
    rewrite insert_take_drop by (eapply lookup_lt_Some; exact Eo).
    rewrite <- (take_drop_middle _ _ _ Eo) at 3. rewrite !somes_app, somes_Some, somes_None.
    rewrite (somes_none (drop _ vs)).
    + by rewrite app_nil_r.
    + intros i o Ho. rewrite lookup_drop in Ho. pose proof (Hvs (S (Z.to_nat (usedSize es)) + i)%nat) as Hv.
      rewrite Ho in Hv. cbn in Hv. subst o. specialize (Hr (Z.of_nat (S (Z.to_nat (usedSize es)) + i)) ltac:(lia)).
      unfold entryAt in Hr. by rewrite Nat2Z.id in Hr.
  - cbn [values]. unfold zlen in *. rewrite length_insert. lia.
Qed.
(** *** del *)

Lemma popDeleted_spec vs n : (popDeleted vs n <= n)%nat /\
  forall i : nat, (popDeleted vs n <= i < n)%nat -> mjoin (vs !! i) = @None Entry.
Proof.
  induction n as [|n [IH1 IH2]]; cbn [popDeleted]; [split; [lia|lia]|].
  destruct (mjoin (vs !! n)) eqn:E; [split; [lia|lia]|]. split; [lia|].
  intros i Hi. destruct (decide (i = n)) as [->|]; [done|]. apply IH2. lia.
Qed.

Lemma del_spec es j x : EntOk es -> 0 <= j -> entryAt es j = Some x ->
  let '(r, es') := del es j in
  r = Some x /\ EntOk es' /\ zlen (values es') = zlen (values es) /\
  (exists l1 l2, live es = l1 ++ x :: l2 /\ live es' = l1 ++ l2) /\
  (forall i, 0 <= i -> entryAt es' i = if i =? j then None else entryAt es i).
Proof.
  intros [Hu Hr Hc] Hj Hx. unfold del. set (vs := <[_ := None]> (values es)).
  assert (Hlen : length vs = length (values es)) by (unfold vs; by rewrite length_insert).
  assert (Hat : forall i, 0 <= i -> mjoin (vs !! Z.to_nat i) = if i =? j then None else entryAt es i).
  { intros i Hi. unfold vs. destruct (Z.eqb_spec i j) as [->|Hne].
    - destruct (values es !! Z.to_nat j) eqn:E.
      + rewrite list_lookup_insert_eq; [done|]. by eapply lookup_lt_Some.
      + unfold entryAt in Hx. by rewrite E in Hx.
    - by rewrite list_lookup_insert_ne by lia. }
  pose proof (popDeleted_spec vs (Z.to_nat (usedSize es))) as [Hp1 Hp2].
  split_and!; [done| | | |done].
  - split; cbn; unfold zlen in *; rewrite ?Hlen; [lia| |done].
    intros i Hi. unfold entryAt. cbn. destruct (Z_lt_dec i (usedSize es)) as [Hlt|Hge].
    + apply Hp2. lia.
    + rewrite Hat by lia. case_on; [done|]. apply Hr. lia.
  - unfold zlen. cbn. by rewrite Hlen.
  - exists (somes (take (Z.to_nat j) (values es))), (somes (drop (S (Z.to_nat j)) (values es))).
    split; [by apply live_split|]. unfold live. cbn [values]. unfold vs.
    unfold entryAt in Hx. destruct (values es !! Z.to_nat j) as [o|] eqn:E; [|done].
    rewrite insert_take_drop by (eapply lookup_lt_Some; exact E). by rewrite somes_app, somes_None.
Qed.

(** *** clear *)

Lemma clearEntries_spec es : EntOk es ->
  EntOk (clearEntries es) /\ live (clearEntries es) = [] /\ zlen (values (clearEntries es)) = zlen (values es) /\
  forall i, entryAt (clearEntries es) i = None.
Proof.
  intros He. pose proof He as [Hu Hr Hc]. unfold clearEntries. cbv zeta.
  set (vs := replicate _ None ++ _).
  assert (Hlen : length vs = length (values es))
    by (unfold vs; rewrite length_app, length_replicate, length_drop; unfold zlen in Hu; lia).
  assert (Hnone : forall i o, vs !! i = Some o -> o = None).
  { intros i o Ho. unfold vs in Ho. apply lookup_app_Some in Ho as [Ho|[Hge Ho]].
    - by apply lookup_replicate in Ho as [-> _].
    - rewrite lookup_drop in Ho. eapply rest_none; [exact He| |exact Ho]. rewrite length_replicate in *. lia. }
  assert (Hat : forall i, entryAt {| values := vs; usedSize := 0 |} i = None).
  { intros i. unfold entryAt. cbn. destruct (vs !! Z.to_nat i) as [o|] eqn:Eo; [|done]. by rewrite (Hnone _ _ Eo). }
  split_and!; [|by apply somes_none|unfold zlen; cbn; by rewrite Hlen|done].
  split; cbn; unfold zlen in *; rewrite ?Hlen; [lia|done|done].
Qed.

(** *** compact *)

Lemma firstDeleted_spec n vs i : let f := firstDeleted n vs i in
  (i <= f <= i + n)%nat /\ (forall j, (i <= j < f)%nat -> is_Some (mjoin (vs !! j) : option Entry)) /\
  ((f < i + n)%nat -> mjoin (vs !! f) = None).
Proof.
  revert i. induction n as [|n IH]; intros i; cbn [firstDeleted]; cbv zeta; [split_and!; [lia|lia|lia|lia]|].
  destruct (mjoin (vs !! i)) eqn:E.
  - destruct (IH (S i)) as (H1 & H2 & H3). split_and!; [lia|lia| |].
    + intros j Hj. destruct (decide (j = i)) as [->|]; [by rewrite E|]. apply H2. lia.
    + intros Hf. apply H3. lia.
  - split_and!; [lia|lia|lia|done].
Qed.

(** The slots from [last] to [i] are free; the packing moves the entries down. *)
Lemma packLoop_spec n : forall (vs : list (option Entry)) i last,
  (last < i)%nat -> (i + n <= length vs)%nat -> (forall j, (last <= j < i)%nat -> mjoin (vs !! j) = None) ->
  let '(vs', last') := packLoop n vs i last in
  length vs' = length vs /\ (last <= last' < i + n)%nat /\
  somes (take last' vs') = somes (take last vs) ++ somes (take n (drop i vs)) /\
  length (somes (take last' vs')) = (length (somes (take last vs)) + (last' - last))%nat /\
  (forall j, (last' <= j < i + n)%nat -> mjoin (vs' !! j) = None) /\
  (forall j, (i + n <= j)%nat -> vs' !! j = vs !! j).
Proof.
  induction n as [|n IH]; intros vs i last Hlt Hlen Hfree; cbn [packLoop].
  { split_and!; try done; try lia; [cbn; by rewrite app_nil_r|]. intros j Hj. apply Hfree. lia. }
  destruct (lookup_lt_is_Some_2 vs i) as [o Ho]; [lia|]. rewrite Ho. cbn [mjoin option_join].
  assert (Hdrop : take (S n) (drop i vs) = o :: take n (drop (S i) vs))
    by (rewrite (drop_S _ _ _ Ho); done).
  destruct o as [x|].
  - set (vs1 := <[last:=Some x]> (<[i:=_]> vs)).
    assert (Hv1 : vs1 !! last = Some (Some x))
      by (unfold vs1; rewrite list_lookup_insert_eq; [done|rewrite length_insert; lia]).
    assert (Hne : forall j, j <> last -> j <> i -> vs1 !! j = vs !! j)
      by (intros j Hj1 Hj2; unfold vs1; by rewrite !list_lookup_insert_ne by congruence).
    assert (Hi1 : mjoin (vs1 !! i) = None).
    { unfold vs1. rewrite list_lookup_insert_ne by lia. rewrite list_lookup_insert_eq by lia.
      cbn. apply Hfree. lia. }
    assert (Htake : take (S last) vs1 = take last vs ++ [Some x]).
    { rewrite (take_S_r _ _ _ Hv1). f_equal. unfold vs1. rewrite !take_insert_ge by lia. done. }
    assert (Hdr : drop (S i) vs1 = drop (S i) vs) by (unfold vs1; by rewrite !drop_insert_lt by lia).
    specialize (IH vs1 (S i) (S last) ltac:(lia)).
    destruct (packLoop n vs1 (S i) (S last)) as [vs' last'].
    destruct IH as (H1 & H2 & H3 & H4 & H5 & H6).
    { unfold vs1. rewrite !length_insert. lia. }
    { intros j Hj. destruct (decide (j = i)) as [->|Hji]; [done|]. rewrite Hne by lia. apply Hfree. lia. }
    rewrite Htake, somes_app in H3, H4. rewrite Hdr in H3. rewrite length_app in H4. cbn in H4.
    split_and!.
    + rewrite H1. unfold vs1. by rewrite !length_insert.
    + lia.
    + lia.
    + rewrite H3, Hdrop, somes_Some, <- app_assoc. done.
    + lia.
    + intros j Hj. apply H5. lia.
    + intros j Hj. rewrite H6 by lia. apply Hne; lia.
  - specialize (IH vs (S i) last ltac:(lia) ltac:(lia)).
    destruct (packLoop n vs (S i) last) as [vs' last'].
    destruct IH as (H1 & H2 & H3 & H4 & H5 & H6).
    { intros j Hj. destruct (decide (j = i)) as [->|Hji]; [by rewrite Ho|]. apply Hfree. lia. }
    rewrite Hdrop, somes_None. split_and!; try done; try lia.
    + intros j Hj. apply H5. lia.
    + intros j Hj. apply H6. lia.
Qed.

(** When every slot is taken, there are as many entries as slots. *)
Lemma somes_full (l : list (option Entry)) : (forall j, (j < length l)%nat -> is_Some (mjoin (l !! j))) ->
  length (somes l) = length l.
Proof.
  induction l as [|o l IH]; intros Hl; [done|]. destruct (Hl O ltac:(cbn; lia)) as [x Hx]. cbn in Hx. subst o.
  rewrite somes_Some. cbn. f_equal. apply IH. intros j Hj. apply (Hl (S j)). cbn. lia.
Qed.

Lemma compact_spec es : EntOk es ->
  EntOk (compact es) /\ live (compact es) = live es /\ usedSize (compact es) = zlen (live es) /\
  zlen (values (compact es)) = zlen (values es).
Proof.
  intros He. pose proof He as [Hu Hr Hc]. unfold compact. cbv zeta.
  set (used := Z.to_nat (usedSize es)). set (vs := values es) in *.
  destruct (firstDeleted_spec used vs 0) as (Hf1 & Hf2 & Hf3). set (f := firstDeleted used vs 0) in *.
  assert (Hfull : length (somes (take f vs)) = f).
  { rewrite somes_full; rewrite ?length_take; [unfold zlen in Hu; lia|]. intros j Hj.
    rewrite lookup_take_lt by (unfold zlen in Hu; lia). apply Hf2. unfold zlen in Hu. lia. }
  destruct (decide (f = used)) as [Efu|Efu].
  - replace (used - S f)%nat with O by lia. cbn [packLoop]. rewrite Efu in *.
    unfold used. rewrite Z2Nat.id by lia.
    assert (live es = somes (take used vs)) as El by (apply live_take; [done|lia]).
    split_and!; [by destruct es|by destruct es| |done]. rewrite El. cbn [usedSize]. unfold zlen. lia.
  - pose proof (packLoop_spec (used - S f) vs (S f) f ltac:(lia)) as Hpack.
    destruct (packLoop (used - S f) vs (S f) f) as [vs' last'].
    destruct Hpack as (H1 & H2 & H3 & H4 & H5 & H6).
    { unfold zlen in Hu. lia. }
    { intros j Hj. replace j with f by lia. apply Hf3. lia. }
    assert (Hnone : forall i, (last' <= i)%nat -> mjoin (vs' !! i) = None).
    { intros i Hi. destruct (decide (i < used)%nat); [apply H5; lia|]. rewrite H6 by lia.
      destruct (vs !! i) as [o|] eqn:Eo; [|done]. eapply (rest_none es i o He) in Eo; [by subst o|lia]. }
    assert (Hl' : somes vs' = somes (take last' vs')).
    { rewrite <- (take_drop last' vs') at 1. rewrite somes_app, (somes_none (drop _ _)), app_nil_r; [done|].
      intros i o Ho. rewrite lookup_drop in Ho. specialize (Hnone (last' + i)%nat ltac:(lia)).
      by rewrite Ho in Hnone. }
    assert (Hlive : somes (take last' vs') = live es).
    { rewrite H3, (live_take es used) by (done || lia). fold vs.
      destruct (vs !! f) as [o|] eqn:Eo; [|apply lookup_ge_None in Eo; unfold zlen in Hu; lia].
      assert (o = None) as -> by (apply Hf3; lia).
      replace used with (f + S (used - S f))%nat at 2 by lia.
      rewrite <- take_take_drop, somes_app, (drop_S _ _ _ Eo). done. }
    split_and!.
    + split; cbn; [unfold zlen in *; lia| |unfold zlen in *; by rewrite H1].
      intros i Hi. unfold entryAt. cbn. apply Hnone. lia.
    + unfold live at 1. cbn [values]. by rewrite Hl'.
    + cbn [usedSize]. rewrite <- Hlive. unfold zlen. lia.
    + cbn [values]. unfold zlen. by rewrite H1.
Qed.

(** ** The table of a map *)

Definition homeOf (l : Z) (es : Entries) (j : Z) : Z :=
  match entryAt es j with Some x => toBucketIndex l (entHash x) | None => 0 end.

Record Tab (l : Z) (es : Entries) (bs : list Bucket) : Prop := {
  tab_ring : Buckets (capacity l) (homeOf l es) bs;
  tab_nodup : NoDup (occ bs);
  tab_elem : forall j, j ∈ occ bs <-> 0 <= j /\ is_Some (entryAt es j);
  tab_size : zlen (occ bs) = zlen (live es)
}.

(** A capacity the ring lemmas accept. *)
Definition ringCap (l : Z) : Prop := exists e, 2 <= e < 31 /\ capacity l = 2 ^ e.

Lemma ringCap_pow l : ringCap l -> exists e, 0 <= e < 31 /\ capacity l = 2 ^ e.
Proof. intros (e & He & E). exists e. split; [lia|done]. Qed.

Lemma ringCap_gt l : ringCap l -> 4 <= capacity l.
Proof.
  intros (e & He & ->). change 4 with (2 ^ 2). apply Z.pow_le_mono_r; lia.
Qed.

Lemma homeOf_range l es j : ringCap l -> 0 <= homeOf l es j < capacity l.
Proof.
  intros Hc. unfold homeOf. destruct (entryAt es j).
  - apply toBucketIndex_range; [done|by apply ringCap_pow].
  - pose proof (ringCap_gt l Hc). lia.
Qed.

Lemma Buckets_ext cap home home' bs : zlen bs = cap -> Buckets cap home bs ->
  (forall j, j ∈ occ bs -> home j = home' j) -> Buckets cap home' bs.
Proof.
  intros Hl [H1 H2 H3] He. split; [done|done|]. intros i Hi Ho. rewrite H3 by done. f_equal. apply He.
  apply (occ_elem cap bs _ Hl). by exists i.
Qed.

Lemma bucketAt_fresh n i : bucketAt (replicate n emptyBucket) i = emptyBucket.
Proof.
  unfold bucketAt. destruct (replicate n emptyBucket !! Z.to_nat i) eqn:E; [|done].
  by apply lookup_replicate in E as [-> _].
Qed.

Lemma occ_fresh n : occ (replicate n emptyBucket) = [].
Proof. induction n as [|n IH]; [done|]. cbn. exact IH. Qed.

Lemma fresh_buckets cap home : 0 <= cap -> Buckets cap home (replicate (Z.to_nat cap) emptyBucket).
Proof.
  intros Hc. split.
  - unfold zlen. rewrite length_replicate. lia.
  - intros i Hi. unfold D. rewrite !bucketAt_fresh. cbn. lia.
  - intros i Hi Ho. by rewrite bucketAt_fresh in Ho.
Qed.

(** ** rehash *)

(** The live indices among [n] from [i]. *)
Fixpoint liveIdx (es : Entries) (n : nat) (i : Z) : list Z :=
  match n with
  | O => []
  | S n' => match entryAt es i with Some _ => i :: liveIdx es n' (i + 1) | None => liveIdx es n' (i + 1) end
  end.

Lemma liveIdx_elem es n : forall i j, j ∈ liveIdx es n i <-> i <= j < i + Z.of_nat n /\ is_Some (entryAt es j).
Proof.
  induction n as [|n IH]; intros i j; cbn [liveIdx].
  { split; [intros Hj; by apply not_elem_of_nil in Hj|intros [Hj _]; lia]. }
  destruct (entryAt es i) eqn:E.
  - rewrite elem_of_cons, IH. split.
    + intros [->|[Hj Hs]]; (split; [lia|]); [by rewrite E|done].
    + intros [Hj Hs]. destruct (decide (j = i)); [by left|right]. split; [lia|done].
  - rewrite IH. split; intros [Hj Hs]; (split; [|done]); [lia|].
    destruct (decide (j = i)) as [->|]; [rewrite E in Hs; by destruct Hs|lia].
Qed.

Lemma liveIdx_nodup es n : forall i, NoDup (liveIdx es n i).
Proof.
  induction n as [|n IH]; intros i; cbn [liveIdx]; [constructor|].
  destruct (entryAt es i); [|done]. constructor; [|done]. rewrite liveIdx_elem. lia.
Qed.

Lemma liveIdx_length es n : forall i, 0 <= i -> (Z.to_nat i + n <= length (values es))%nat ->
  length (liveIdx es n i) = length (somes (take n (drop (Z.to_nat i) (values es)))).
Proof.
  induction n as [|n IH]; intros i Hi Hn; [done|]. cbn [liveIdx].
  destruct (lookup_lt_is_Some_2 (values es) (Z.to_nat i)) as [o Ho]; [lia|].
  rewrite (drop_S _ _ _ Ho). unfold entryAt. rewrite Ho. cbn [mjoin option_join firstn].
  specialize (IH (i + 1) ltac:(lia) ltac:(lia)).
  replace (Z.to_nat (i + 1)) with (S (Z.to_nat i)) in IH by lia.
  destruct o; [rewrite somes_Some; cbn; by f_equal|by rewrite somes_None].
Qed.

Lemma rehashLoop_ok l es : ringCap l -> forall n i bs,
  0 <= i -> Buckets (capacity l) (homeOf l es) bs ->
  zlen (occ bs) + zlen (liveIdx es n i) < capacity l ->
  exists bs', rehashLoop n l es i bs = Some bs' /\ Buckets (capacity l) (homeOf l es) bs' /\
    occ bs' ≡ₚ liveIdx es n i ++ occ bs.
Proof.
  intros Hrc. pose proof (ringCap_gt l Hrc) as Hg. pose proof (ringCap_pow l Hrc) as Hp.
  induction n as [|n IH]; intros i bs Hi Hb Hlt; cbn [rehashLoop liveIdx] in *; [by exists bs|].
  destruct (entryAt es i) as [x|] eqn:E; [|apply IH; [lia|done|done]].
  rewrite zlen_cons in Hlt. pose proof (zlen_nonneg (liveIdx es n (i + 1))).
  destruct (empty_slot (capacity l) bs (bs_len _ _ _ Hb) ltac:(lia)) as (e & He & Hoe).
  pose proof (toBucketIndex_range l (capacity l) eq_refl Hp (entHash x)) as Hh.
  destruct (insertLoop_ok l (capacity l) eq_refl Hp (homeOf l es) (fun j => homeOf_range l es j Hrc) ltac:(lia)
    (probeFuel l) bs i (toBucketIndex l (entHash x)) 0 e) as (bs1 & Hins & Hb1 & Hoc1); try done.
  - unfold homeOf. rewrite E. symmetry. by apply rd_eq.
  - intros p Hpr _. pose proof (D_ge (capacity l) (homeOf l es) (fun j => homeOf_range l es j Hrc) bs p (bs_dist _ _ _ Hb) Hpr). lia.
  - pose proof (rd_range (capacity l) (toBucketIndex l (entHash x)) e Hh He). unfold probeFuel. lia.
  - unfold insertEntryIndex. rewrite Hins. cbn [mbind option_bind].
    destruct (IH (i + 1) bs1 ltac:(lia) Hb1) as (bs' & -> & Hb' & Hoc').
    { unfold zlen in *. rewrite Hoc1. cbn. lia. }
    exists bs'. split; [done|]. split; [done|]. rewrite Hoc', Hoc1. solve_Permutation.
Qed.

Lemma rehash_tab l es : ringCap l -> EntOk es -> zlen (live es) < capacity l ->
  exists bs, rehashLoop (Z.to_nat (usedSize es)) l es 0 (replicate (Z.to_nat (capacity l)) emptyBucket) = Some bs /\
    Tab l es bs.
Proof.
  intros Hrc He Hlt. pose proof (ringCap_gt l Hrc) as Hg. pose proof He as [Hu Hr _].
  assert (Hlen : zlen (liveIdx es (Z.to_nat (usedSize es)) 0) = zlen (live es)).
  { unfold zlen. rewrite liveIdx_length by (unfold zlen in Hu; lia). cbn [drop Z.to_nat].
    by rewrite (live_take es (Z.to_nat (usedSize es))). }
  destruct (rehashLoop_ok l es Hrc (Z.to_nat (usedSize es)) 0 (replicate (Z.to_nat (capacity l)) emptyBucket))
    as (bs & -> & Hb & Hoc); [lia|by apply fresh_buckets; lia| |].
  { rewrite occ_fresh, Hlen. change (zlen []) with 0. lia. }
  rewrite occ_fresh, app_nil_r in Hoc. exists bs. split; [done|]. split; [done| | |].
  - rewrite Hoc. apply liveIdx_nodup.
  - intros j. rewrite Hoc, liveIdx_elem. split; [intros [Hj Hs]; split; [lia|done]|].
    intros [Hj Hs]. split; [|done]. destruct (Z_lt_dec j (usedSize es)); [lia|].
    rewrite (Hr j) in Hs by lia. by destruct Hs.
  - rewrite <- Hlen. unfold zlen. by rewrite Hoc.
Qed.

(** ** The invariant *)

(** No two entries have equal keys. *)
Fixpoint distinct (l : list Entry) : Prop :=
  match l with
  | [] => True
  | x :: r => Forall (fun y => equals (entKey x) (entKey y) = false) r /\ distinct r
  end.

Lemma distinct_app a b : distinct (a ++ b) <->
  distinct a /\ distinct b /\ Forall (fun x => Forall (fun y => equals (entKey x) (entKey y) = false) b) a.
Proof.
  induction a as [|x a IH]; cbn [distinct app]; [naive_solver|].
  rewrite IH, Forall_app, Forall_cons. naive_solver.
Qed.

Record Inv (m : Map) : Prop := {
  inv_len : exists e, packed (len m) e (zlen (live (entries m))) /\ 2 <= e <= 28 /\
    zlen (live (entries m)) * 2 ^ 53 <= 8106479329266893 * 2 ^ e;
  inv_ent : EntOk (entries m);
  inv_cap : zlen (values (entries m)) <= 2 ^ 28;
  inv_hash : Forall (fun x => entHash x = hash (seed m) (entKey x)) (live (entries m));
  inv_distinct : distinct (live (entries m));
  inv_buckets : match buckets m with
    | Some bs => Tab (len m) (entries m) bs
    | None => live (entries m) = []
    end
}.

Lemma emptyMap_inv s : Inv (emptyMap s).
Proof.
  split; cbn [emptyMap len entries seed buckets]; try done; try constructor.
  - exists 2. split; [exact bucketLen_packed|]. split; [lia|]. done.
  - done.
  - done.
  - by left.
Qed.

Lemma load_lt s e : 2 <= e -> s * 2 ^ 53 <= 8106479329266893 * 2 ^ e -> s < 2 ^ e.
Proof.
  intros He Hl. pose proof (Z.pow_pos_nonneg 2 e ltac:(lia) ltac:(lia)).
  change (2 ^ 53) with 9007199254740992 in Hl. lia.
Qed.

Lemma packed_ringCap l e s : packed l e s -> 2 <= e -> ringCap l.
Proof. intros Hp He. exists e. split; [destruct Hp; lia|]. by apply packed_fields in Hp as (_ & _ & ->). Qed.

Lemma inv_size m : Inv m -> mapSize m = zlen (live (entries m)) /\ ringCap (len m) /\
  zlen (live (entries m)) < capacity (len m) /\ zlen (live (entries m)) <= MAX_SIZE.
Proof.
  intros HI. destruct (inv_len m HI) as (e & Hp & He & Hl).
  pose proof (packed_fields _ _ _ Hp) as (_ & Hs & Hc). split_and!.
  - exact Hs.
  - eapply packed_ringCap; [exact Hp|lia].
  - rewrite Hc. apply load_lt; [lia|done].
  - apply Hp.
Qed.

(** ** Probing for a key *)

Lemma entry_live (es : Entries) i x : 0 <= i -> entryAt es i = Some x -> x ∈ live es.
Proof. intros Hi Hx. apply live_elem. by exists i. Qed.

Lemma probe_ok m bs k : Inv m -> buckets m = Some bs ->
  exists found pr, probeBuckets m bs k = Some (found, pr) /\ keyHash pr = hash (seed m) k /\
    0 <= bucketIndex pr < capacity (len m) /\
    dist pr = rd (capacity (len m)) (toBucketIndex (len m) (keyHash pr)) (bucketIndex pr) /\
    (forall p, 0 <= p < capacity (len m) -> nxt (capacity (len m)) p = bucketIndex pr -> dist pr <= D bs p + 1) /\
    if found
    then occupied (bucketAt bs (bucketIndex pr)) = true /\
         exists x, entryAt (entries m) (entryIndex (bucketAt bs (bucketIndex pr))) = Some x /\
           equals k (entKey x) = true
    else forall x, x ∈ live (entries m) -> equals k (entKey x) = false.
Proof.
  intros HI Hbs. pose proof (inv_buckets m HI) as HT. rewrite Hbs in HT.
  destruct (inv_size m HI) as (_ & Hrc & Hlt & _). pose proof (ringCap_gt _ Hrc). pose proof (ringCap_pow _ Hrc) as Hp.
  destruct (empty_slot (capacity (len m)) bs (bs_len _ _ _ (tab_ring _ _ _ HT))) as (e & He & Hoe);
    [rewrite (tab_size _ _ _ HT); lia|].
  set (h := hash (seed m) k). set (hm := toBucketIndex (len m) h).
  pose proof (toBucketIndex_range (len m) _ eq_refl Hp h) as Hhm. fold hm in Hhm.
  destruct (probeLoop_ok (len m) _ eq_refl Hp (homeOf (len m) (entries m)) (entries m)
    h k bs hm e (probeFuel (len m)) hm 0)
    as (found & pr & Hpr & HP); try done.
  - apply (tab_ring _ _ _ HT).
  - symmetry. by apply rd_eq.
  - intros p Hpr _. pose proof (D_ge _ _ (fun j => homeOf_range (len m) (entries m) j Hrc) bs p
      (bs_dist _ _ _ (tab_ring _ _ _ HT)) Hpr). lia.
  - intros s Hs Hlt' _. pose proof (rd_range _ hm s Hhm Hs). lia.
  - pose proof (rd_range _ hm e Hhm He). unfold probeFuel. lia.
  - destruct HP as (Hk & Hbi & Hd & Hprev & HF). exists found, pr. split; [exact Hpr|].
    rewrite Hk. split; [done|]. split; [done|]. split; [done|]. split; [done|].
    destruct found.
    + destruct HF as [Ho Hhit]. split; [done|]. unfold hit in Hhit.
      destruct (entryAt (entries m) _) as [x|]; [|done]. apply andb_true_iff in Hhit as [_ Hq]. by exists x.
    + intros x Hx. destruct (equals k (entKey x)) eqn:Eq; [|done]. exfalso.
      pose proof (proj1 (Forall_forall _ _) (inv_hash m HI) x Hx) as Hhx. cbn in Hhx.
      rewrite <- (hash_equals (seed m) k (entKey x) Eq) in Hhx.
      apply live_elem in Hx as (j & Hj & Hxj).
      assert (hit (entries m) h k j = false) as Hh.
      { apply HF; [apply (tab_elem _ _ _ HT); by rewrite Hxj|]. unfold homeOf. by rewrite Hxj, Hhx. }
      unfold hit in Hh. rewrite Hxj, Hhx, Eq, Z.eqb_refl in Hh. done.
Qed.

(** ** The association list *)

Definition pairOf (x : Entry) : K * V := (entKey x, entValue x).
Definition contents (m : Map) : list (K * V) := map pairOf (live (entries m)).

Definition aFind (k : K) (l : list (K * V)) : option (K * V) := List.find (fun p => equals k (fst p)) l.

(** The first pair with the key is taken out. *)
Fixpoint aRemove (k : K) (l : list (K * V)) : option (K * V) * list (K * V) :=
  match l with
  | [] => (None, [])
  | p :: r => if equals k (fst p) then (Some p, r)
              else let '(o, r') := aRemove k r in (o, p :: r')
  end.

Definition aInsert (k : option K) (v : V) (l : list (K * V)) : InsertStatus * option (K * V) * list (K * V) :=
  match k with
  | None => (INVALID_KEY, None, l)
  | Some k =>
      match aFind k l with
      | Some p => (INSERTED, Some p, l)
      | None => if zlen l =? MAX_SIZE then (LIMIT, None, l) else (OK, Some (k, v), l ++ [(k, v)])
      end
  end.

(** An entry with an equal key is the one that the list finds. *)
Lemma distinct_other a x b k : distinct (a ++ x :: b) -> equals k (entKey x) = true ->
  Forall (fun y => equals k (entKey y) = false) a.
Proof.
  intros Hd Hk. apply distinct_app in Hd as (_ & _ & Ha). eapply Forall_impl; [exact Ha|].
  intros y Hy. apply Forall_cons in Hy as [Hy _]. destruct (equals k (entKey y)) eqn:E; [|done].
  apply equals_sym in E. by rewrite (equals_trans _ _ _ E Hk) in Hy.
Qed.

Lemma aRemove_split a x b k : Forall (fun y => equals k (entKey y) = false) a -> equals k (entKey x) = true ->
  aRemove k (map pairOf (a ++ x :: b)) = (Some (pairOf x), map pairOf (a ++ b)).
Proof.
  induction 1 as [|y a Hy _ IH]; intros Hk; cbn [app map aRemove].
  - cbn [fst pairOf]. by rewrite Hk.
  - cbn [fst pairOf]. rewrite Hy, IH by done. done.
Qed.

Lemma aFind_split a x b k : Forall (fun y => equals k (entKey y) = false) a -> equals k (entKey x) = true ->
  aFind k (map pairOf (a ++ x :: b)) = Some (pairOf x).
Proof.
  unfold aFind. induction 1 as [|y a Hy _ IH]; intros Hk; cbn [app map List.find].
  - cbn [fst pairOf]. by rewrite Hk.
  - cbn [fst pairOf]. rewrite Hy. by apply IH.
Qed.

Lemma absent_find k (l : list Entry) : (forall x, x ∈ l -> equals k (entKey x) = false) ->
  aFind k (map pairOf l) = None /\ aRemove k (map pairOf l) = (None, map pairOf l).
Proof.
  unfold aFind. induction l as [|x l IH]; intros Hl; [done|]. cbn [map List.find aRemove fst pairOf].
  rewrite (Hl x) by by left. destruct IH as [IH1 IH2]; [intros y Hy; apply Hl; by right|].
  rewrite IH1, IH2. done.
Qed.

Lemma found_find m k i x : Inv m -> 0 <= i -> entryAt (entries m) i = Some x -> equals k (entKey x) = true ->
  aFind k (contents m) = Some (pairOf x).
Proof.
  intros HI Hi Hx Hk. unfold contents. pose proof (inv_distinct m HI) as Hd.
  rewrite (live_split _ _ _ Hx) in *. apply aFind_split; [by eapply distinct_other|done].
Qed.

(** ** lookup *)

Lemma occupied_index b : occupied b = true -> 0 <= entryIndex b.
Proof. unfold occupied. intros Ho. apply Z.ltb_lt in Ho. lia. Qed.

Lemma lookup_refines m k : Inv m -> exists i, lookup m k = Some i /\
  match aFind k (contents m) with
  | Some p => 0 <= i /\ pairOf <$> entryAt (entries m) i = Some p
  | None => i = -1
  end.
Proof.
  intros HI. unfold lookup. destruct (inv_size m HI) as (-> & _).
  destruct (Z.eqb_spec (zlen (live (entries m))) 0) as [E|E].
  - exists (-1). split; [done|]. unfold contents.
    destruct (live (entries m)) as [|x l] eqn:El; [done|]. rewrite zlen_cons in E. pose proof (zlen_nonneg l). lia.
  - pose proof (inv_buckets m HI) as HT. destruct (buckets m) as [bs|] eqn:Hbs; [|by rewrite HT in E].
    destruct (probe_ok m bs k HI Hbs) as (found & pr & Hp & _ & _ & _ & _ & HF). cbn [mbind option_bind].
    rewrite Hp. cbn [mbind option_bind]. eexists. split; [done|]. destruct found.
    + destruct HF as (Ho & x & Hx & Hk). apply occupied_index in Ho.
      rewrite (found_find m k _ x HI Ho Hx Hk). split; [done|]. by rewrite Hx.
    + unfold contents. by rewrite (proj1 (absent_find k _ HF)).
Qed.

(** ** remove *)

Lemma forall_split {A} (P : A -> Prop) a x b : Forall P (a ++ x :: b) -> Forall P (a ++ b).
Proof. rewrite !Forall_app, Forall_cons. naive_solver. Qed.

Lemma distinct_split a x b : distinct (a ++ x :: b) -> distinct (a ++ b).
Proof.
  rewrite !distinct_app. intros (Ha & Hb & Hab). cbn in Hb. split_and!; [done|apply Hb|].
  eapply Forall_impl; [exact Hab|]. intros y Hy. by apply Forall_cons in Hy as [_ Hy].
Qed.

Lemma packed_resize m e s : Inv m -> packed (len m) e (zlen (live (entries m))) -> 0 <= s <= MAX_SIZE ->
  packed (setSize (len m) s) e s /\ capacity (setSize (len m) s) = capacity (len m).
Proof.
  intros HI Hp Hs. pose proof (setSize_packed _ _ _ s Hp Hs) as Hp'. split; [done|].
  pose proof (packed_fields _ _ _ Hp) as (_ & _ & ->). by pose proof (packed_fields _ _ _ Hp') as (_ & _ & ->).
Qed.

Lemma homeOf_capacity l l' es j : capacity l = capacity l' -> homeOf l es j = homeOf l' es j.
Proof. intros E. unfold homeOf, toBucketIndex. by rewrite E. Qed.

Lemma remove_refines m k : Inv m -> exists r m', remove m k = Some (r, m') /\ Inv m' /\
  aRemove k (contents m) = (pairOf <$> r, contents m').
Proof.
  intros HI. unfold remove. destruct (inv_size m HI) as (Hsz & Hrc & Hlt & Hmax). rewrite Hsz.
  destruct (Z.eqb_spec (zlen (live (entries m))) 0) as [E|E].
  { exists None, m. split_and!; [done|done|]. unfold contents.
    destruct (live (entries m)) as [|x l] eqn:El; [done|]. rewrite zlen_cons in E. pose proof (zlen_nonneg l). lia. }
  pose proof (inv_buckets m HI) as HT. destruct (buckets m) as [bs|] eqn:Hbs; [|by rewrite HT in E].
  destruct (probe_ok m bs k HI Hbs) as (found & pr & Hp & _ & Hbi & _ & _ & HF). cbn [mbind option_bind].
  rewrite Hp. cbn [mbind option_bind]. destruct found.
  2: { exists None, m. split_and!; [done|done|]. unfold contents. by rewrite (proj2 (absent_find k _ HF)). }
  destruct HF as (Ho & x & Hx & Hk). set (j := entryIndex (bucketAt bs (bucketIndex pr))) in *.
  pose proof (occupied_index _ Ho) as Hj. fold j in Hj.
  pose proof (del_spec (entries m) j x (inv_ent m HI) Hj Hx) as Hdel.
  destruct (del (entries m) j) as [r es']. destruct Hdel as (-> & He' & Hv' & (l1 & l2 & Hl & Hl') & Hat).
  destruct (inv_len m HI) as (e & Hpk & He & Hload).
  assert (Hz : zlen (live es') = zlen (live (entries m)) - 1)
    by (rewrite Hl, Hl', !zlen_app, zlen_cons; lia).
  pose proof (zlen_nonneg (live es')).
  assert (Hbsz : bucketSize (len m) = zlen (live (entries m))) by exact Hsz.
  destruct (packed_resize m e (zlen (live es')) HI Hpk ltac:(lia)) as [Hpk' Hcap'].
  rewrite Hbsz, <- Hz. set (l' := setSize (len m) (zlen (live es'))) in *.
  pose proof (ringCap_gt _ Hrc) as Hg. pose proof (ringCap_pow _ Hrc) as Hpow.
  pose proof (fun j => homeOf_range (len m) (entries m) j Hrc) as Hhr.
  destruct (clear_holed (capacity (len m)) (homeOf (len m) (entries m)) Hhr ltac:(lia) bs (bucketIndex pr)
    (tab_ring _ _ _ HT) Hbi Ho) as [Hhole Hoc]. fold j in Hoc.
  set (bs0 := setBucket bs (bucketIndex pr) emptyBucket) in *.
  destruct (empty_slot (capacity (len m)) bs (bs_len _ _ _ (tab_ring _ _ _ HT))) as (e0 & He0 & Hoe);
    [rewrite (tab_size _ _ _ HT); lia|].
  assert (Hne : e0 <> bucketIndex pr) by (intros ->; congruence).
  rewrite (nextBucketIndex_nxt l' (capacity (len m)) Hcap' Hpow) by done.
  destruct (shiftLoop_ok l' (capacity (len m)) Hcap' Hpow (homeOf (len m) (entries m)) Hhr ltac:(lia)
    (probeFuel l') bs0 (bucketIndex pr) e0 Hhole He0 Hne) as (bs' & Hsh & Hb' & Hoc').
  { unfold bs0. rewrite (bucketAt_set (capacity (len m))) by (done || lia || apply (bs_len _ _ _ (tab_ring _ _ _ HT))).
    by rewrite (proj2 (Z.eqb_neq _ _)) by congruence. }
  { pose proof (rd_range (capacity (len m)) (nxt (capacity (len m)) (bucketIndex pr)) e0
      (nxt_range _ _ Hbi) He0). unfold probeFuel. rewrite Hcap'. lia. }
  rewrite Hsh. cbn [mbind option_bind]. eexists _, _. split; [done|].
  assert (Hocc : forall i, i ∈ occ bs' <-> 0 <= i /\ is_Some (entryAt es' i)).
  { intros i. pose proof (tab_nodup _ _ _ HT) as Hnd. rewrite <- Hoc in Hnd. apply NoDup_cons in Hnd as [Hnj _].
    rewrite Hoc'. pose proof (tab_elem _ _ _ HT i) as Hi. rewrite <- Hoc, elem_of_cons in Hi. split.
    - intros Hin. destruct (proj1 Hi (or_intror Hin)) as [Hi0 Hs]. split; [done|]. rewrite Hat by done.
      destruct (Z.eqb_spec i j) as [->|]; done.
    - intros [Hi0 Hs]. rewrite Hat in Hs by done. destruct (Z.eqb_spec i j) as [->|Hij]; [by destruct Hs|].
      destruct (proj2 Hi (conj Hi0 Hs)) as [|]; [done|done]. }
  split.
  - split; cbn [len entries seed buckets].
    + exists e. split_and!; [done|lia|lia|]. change (2 ^ 53) with 9007199254740992 in *. lia.
    + done.
    + rewrite Hv'. apply (inv_cap m HI).
    + pose proof (inv_hash m HI) as Hh. rewrite Hl in Hh. rewrite Hl'. by eapply forall_split.
    + pose proof (inv_distinct m HI) as Hd. rewrite Hl in Hd. rewrite Hl'. by eapply distinct_split.
    + split.
      * rewrite Hcap'. eapply Buckets_ext; [apply (bs_len _ _ _ Hb')|exact Hb'|]. intros i Hi.
        apply Hocc in Hi as [Hi0 Hs]. rewrite (homeOf_capacity l' (len m)) by done. unfold homeOf.
        rewrite Hat in * by done. destruct (Z.eqb_spec i j); [by destruct Hs|done].
      * rewrite Hoc'. pose proof (tab_nodup _ _ _ HT) as Hnd. rewrite <- Hoc in Hnd. by apply NoDup_cons in Hnd as [_ ?].
      * exact Hocc.
      * rewrite Hz, <- (tab_size _ _ _ HT). unfold zlen. rewrite Hoc'. rewrite <- Hoc. cbn [length]. lia.
  - unfold contents. cbn [entries]. rewrite Hl, Hl'. apply aRemove_split; [|done].
    pose proof (inv_distinct m HI) as Hd. rewrite Hl in Hd. by eapply distinct_other.
Qed.

(** ** clear *)

Lemma clear_refines m : Inv m -> Inv (clear m) /\ contents (clear m) = [].
Proof.
  intros HI. unfold clear. destruct (inv_size m HI) as (Hsz & Hrc & Hlt & Hmax). rewrite Hsz.
  destruct (Z.eqb_spec (zlen (live (entries m))) 0) as [E|E].
  { split; [done|]. unfold contents. destruct (live (entries m)) as [|x l]; [done|].
    rewrite zlen_cons in E. pose proof (zlen_nonneg l). lia. }
  destruct (inv_len m HI) as (e & Hpk & He & Hload).
  destruct (packed_resize m e 0 HI Hpk) as [Hpk' Hcap']; [pose proof (zlen_nonneg (live (entries m))); lia|].
  destruct (clearEntries_spec (entries m) (inv_ent m HI)) as (He' & Hl' & Hv' & Hat).
  pose proof (ringCap_gt _ Hrc) as Hg. unfold contents. cbn [entries]. rewrite Hl'. split; [|done].
  split; cbn [len entries seed buckets]; rewrite ?Hl'.
  - exists e. split_and!; [done|lia|lia|]. pose proof (Z.pow_nonneg 2 e). change (zlen []) with 0. lia.
  - done.
  - rewrite Hv'. apply (inv_cap m HI).
  - constructor.
  - done.
  - pose proof (inv_buckets m HI) as HT. destruct (buckets m) as [bs|]; cbn [fmap option_fmap option_map]; [|done].
    rewrite drop_ge, app_nil_r.
    2: { pose proof (bs_len _ _ _ (tab_ring _ _ _ HT)) as Hb. unfold zlen in Hb. lia. }
    split.
    + rewrite Hcap'. apply fresh_buckets. lia.
    + rewrite occ_fresh. constructor.
    + intros j. rewrite occ_fresh, Hat. split; [intros Hj; by apply not_elem_of_nil in Hj|intros [_ [? ?]]; done].
    + by rewrite occ_fresh, Hl'.
Qed.

(** ** insert *)

(** The growth and the compaction before an insertion, as [insert] has them. *)
Definition prepare (m : Map) (bs : list Bucket) (probe : ProbeState)
    : option (Z * list Bucket * Entries * Z * Z) :=
  let needGrow := overLoaded (len m) 1 in
  let holes := negb (usedSize (entries m) =? mapSize m) in
  let needCompaction := (usedSize (entries m) =? entCapacity (entries m)) && holes in
  if needGrow || needCompaction then
    let es := if needCompaction || (needGrow && holes) then compact (entries m) else entries m in
    '(l, bs) ← rehash needGrow (len m) es;
    Some (l, bs, es, toBucketIndex l (keyHash probe), 0)
  else Some (len m, bs, entries m, bucketIndex probe, dist probe).

(** What it leaves for the insertion of a key with hash [h]. *)
Record Prepared (m : Map) (h l : Z) (bs : list Bucket) (es : Entries) (i d : Z) : Prop := {
  pr_len : exists e, packed l e (zlen (live (entries m))) /\ 2 <= e <= 28 /\
    (zlen (live (entries m)) + 1) * 2 ^ 53 <= 8106479329266893 * 2 ^ e;
  pr_ent : EntOk es;
  pr_live : live es = live (entries m);
  pr_cap : zlen (values es) = zlen (values (entries m));
  pr_full : usedSize es = zlen (values es) -> usedSize es = zlen (live (entries m));
  pr_tab : Tab l es bs;
  pr_index : 0 <= i < capacity l;
  pr_dist : d = rd (capacity l) (toBucketIndex l h) i;
  pr_prev : forall p, 0 <= p < capacity l -> nxt (capacity l) p = i -> d <= D bs p + 1
}.

Lemma Tab_ge l es bs p : Tab l es bs -> ringCap l -> 0 <= p < capacity l -> -1 <= D bs p.
Proof.
  intros HT Hrc Hp. apply (D_ge (capacity l) (homeOf l es)); [|apply (bs_dist _ _ _ (tab_ring _ _ _ HT))|done].
  intros j. by apply homeOf_range.
Qed.

(** Rehashing leaves a table, at the old capacity or at twice of it. *)
Lemma rehashed m h l es e : EntOk es -> live es = live (entries m) ->
  zlen (values es) = zlen (values (entries m)) ->
  (usedSize es = zlen (values es) -> usedSize es = zlen (live (entries m))) ->
  packed l e (zlen (live (entries m))) -> 2 <= e <= 28 ->
  (zlen (live (entries m)) + 1) * 2 ^ 53 <= 8106479329266893 * 2 ^ e ->
  exists bs, rehashLoop (Z.to_nat (usedSize es)) l es 0 (replicate (Z.to_nat (capacity l)) emptyBucket) = Some bs /\
    Prepared m h l bs es (toBucketIndex l h) 0.
Proof.
  intros He Hl Hv Hf Hp He2 Hload. pose proof (packed_ringCap _ _ _ Hp ltac:(lia)) as Hrc.
  pose proof (packed_fields _ _ _ Hp) as (_ & _ & Hc). pose proof (ringCap_pow _ Hrc) as Hpow.
  destruct (rehash_tab l es Hrc He) as (bs & -> & HT).
  { rewrite Hl, Hc. apply load_lt; [lia|]. change (2 ^ 53) with 9007199254740992 in *. lia. }
  exists bs. split; [done|]. pose proof (toBucketIndex_range l _ eq_refl Hpow h) as Hr. split; try done.
  - by exists e.
  - symmetry. by apply rd_eq.
  - intros p Hpr _. pose proof (Tab_ge l es bs p HT Hrc Hpr). lia.
Qed.

Lemma prepare_ok m bs k pr : Inv m -> buckets m = Some bs -> zlen (live (entries m)) <> MAX_SIZE ->
  keyHash pr = hash (seed m) k -> 0 <= bucketIndex pr < capacity (len m) ->
  dist pr = rd (capacity (len m)) (toBucketIndex (len m) (keyHash pr)) (bucketIndex pr) ->
  (forall p, 0 <= p < capacity (len m) -> nxt (capacity (len m)) p = bucketIndex pr -> dist pr <= D bs p + 1) ->
  exists l bs2 es2 i d, prepare m bs pr = Some (l, bs2, es2, i, d) /\
    Prepared m (hash (seed m) k) l bs2 es2 i d.
Proof.
  intros HI Hbs Hmax Hk Hbi Hd Hprev. destruct (inv_len m HI) as (e & Hp & He & Hload).
  destruct (inv_size m HI) as (Hsz & Hrc & Hlt & Hle). pose proof (packed_fields _ _ _ Hp) as (Hce & Hbz & Hcp).
  pose proof (compact_spec (entries m) (inv_ent m HI)) as (Hc1 & Hc2 & Hc3 & Hc4).
  pose proof (inv_ent m HI) as Hent. unfold prepare. cbv zeta. rewrite Hsz, Hk. unfold entCapacity.
  assert (Hover : overLoaded (len m) 1 = true <->
    ~ (zlen (live (entries m)) + 1) * 2 ^ 53 <= 8106479329266893 * 2 ^ e)
    by (unfold overLoaded; rewrite Hcp, Hbz, Z.ltb_lt; lia).
  pose proof (Z.pow_le_mono_r 2 2 e ltac:(lia) ltac:(lia)) as Hpw. change (2 ^ 2) with 4 in Hpw.
  set (es2 := if _ || (overLoaded _ _ && _) then _ else _).
  assert (Hes2 : EntOk es2 /\ live es2 = live (entries m) /\ zlen (values es2) = zlen (values (entries m)))
    by (unfold es2; case_on; done).
  destruct Hes2 as (Hv1 & Hv2 & Hv3).
  destruct (overLoaded (len m) 1) eqn:Eo; cbn [orb].
  - assert (Hfull : usedSize es2 = zlen (values es2) -> usedSize es2 = zlen (live (entries m))).
    { unfold es2. cbn [andb].
      destruct (Z.eqb_spec (usedSize (entries m)) (zlen (live (entries m)))) as [Eu|Eu]; cbn [negb].
      - rewrite andb_false_r. done.
      - rewrite orb_true_r. by rewrite Hc3. }
    assert (e < 28) as He28.
    { destruct (Z_lt_dec e 28); [done|]. exfalso. apply (proj1 Hover eq_refl).
      pose proof (Z.pow_le_mono_r 2 28 e ltac:(lia) ltac:(lia)) as H28. change (2 ^ 28) with 268435456 in H28.
      change MAX_SIZE with 134217727 in *. change (2 ^ 53) with 9007199254740992. lia. }
    pose proof (incExp_packed _ _ _ Hp ltac:(lia)) as Hp'.
    destruct (rehashed m (hash (seed m) k) (incExp (len m)) es2 (e + 1)) as (bs2 & Hr & HP); try done; [lia| |].
    { rewrite Z.pow_add_r by lia. change (2 ^ 1) with 2. change (2 ^ 53) with 9007199254740992 in *. lia. }
    unfold rehash. rewrite Hr. cbn [mbind option_bind].
    eexists _, _, _, _, _. split; [done|exact HP].
  - assert (Hload' : (zlen (live (entries m)) + 1) * 2 ^ 53 <= 8106479329266893 * 2 ^ e).
    { destruct (Z_le_dec ((zlen (live (entries m)) + 1) * 2 ^ 53) (8106479329266893 * 2 ^ e)); [done|].
      by apply Hover in n. }
    destruct ((usedSize (entries m) =? zlen (values (entries m))) &&
      negb (usedSize (entries m) =? zlen (live (entries m)))) eqn:Ec; cbn [orb].
    + assert (es2 = compact (entries m)) as Ees by done.
      destruct (rehashed m (hash (seed m) k) (len m) es2 e) as (bs2 & Hr & HP); try done.
      unfold rehash. rewrite Hr. cbn [mbind option_bind]. eexists _, _, _, _, _. split; [done|exact HP].
    + eexists _, _, _, _, _. split; [done|]. pose proof (inv_buckets m HI) as HT. rewrite Hbs in HT.
      split; try done.
      * by exists e.
      * intros Eu. apply andb_false_iff in Ec as [Ec|Ec]; [by rewrite Eu, Z.eqb_refl in Ec|].
        apply negb_false_iff, Z.eqb_eq in Ec. done.
      * by rewrite Hd, Hk.
Qed.

(** Allocating the buckets changes nothing else. *)
Definition allocated (m : Map) (bs : list Bucket) : Map :=
  {| seed := seed m; len := len m; buckets := Some bs; entries := entries m |}.

Lemma alloc_inv m : Inv m -> Inv (allocated m
  (match buckets m with Some bs => bs | None => replicate (Z.to_nat (capacity (len m))) emptyBucket end)).
Proof.
  intros HI. destruct (inv_size m HI) as (_ & Hrc & _). pose proof (ringCap_gt _ Hrc).
  pose proof HI as [H1 H2 H3 H4 H5 H6]. split; try done. cbn.
  destruct (buckets m) as [bs|]; [done|]. split.
  - apply fresh_buckets. lia.
  - rewrite occ_fresh. constructor.
  - intros j. rewrite occ_fresh. split; [intros Hj; by apply not_elem_of_nil in Hj|].
    intros [Hj [x Hx]]. apply (entry_live _ _ _ Hj) in Hx. rewrite H6 in Hx. by apply not_elem_of_nil in Hx.
  - by rewrite occ_fresh, H6.
Qed.

(** The insertion of a key that is not there. *)
Lemma insert_new m h l bs es i d k v : Inv m -> Prepared m h l bs es i d -> h = hash (seed m) k ->
  zlen (live (entries m)) <> MAX_SIZE ->
  (forall x, x ∈ live (entries m) -> equals k (entKey x) = false) ->
  let '(entry, es') := add es k h v in
  exists bs', insertEntryIndex l bs entry i d = Some bs' /\
    let m' := {| seed := seed m; len := setSize l (bucketSize l + 1); buckets := Some bs'; entries := es' |} in
    Inv m' /\ contents m' = contents m ++ [(k, v)] /\ pairOf <$> entryAt es' entry = Some (k, v).
Proof.
  intros HI [(e & Hp & He & Hload) Hent Hlive Hcap Hfull HT Hi Hd Hprev] Hh Hmax Habs.
  pose proof (add_spec es k h v Hent) as Hadd. destruct (add es k h v) as [entry es'].
  destruct Hadd as (-> & Hent' & Hlive' & Hat & Hcap'). set (x := {| entKey := k |}) in *.
  pose proof (packed_ringCap _ _ _ Hp ltac:(lia)) as Hrc. pose proof (packed_fields _ _ _ Hp) as (_ & Hbz & Hc).
  pose proof (ringCap_gt _ Hrc) as Hg. pose proof (ringCap_pow _ Hrc) as Hpow.
  pose proof (eo_used _ Hent) as Hu. pose proof (zlen_nonneg (live (entries m))) as Hnn.
  assert (Hsize : 0 <= zlen (live (entries m)) <= MAX_SIZE) by (destruct Hp as (_ & _ & Hs); exact Hs).
  assert (Hlt : zlen (live (entries m)) + 1 < capacity l).
  { rewrite Hc. apply load_lt; [lia|]. done. }
  assert (Hfree : entryAt es (usedSize es) = None) by (apply (eo_rest _ Hent); lia).
  assert (Hext : forall j, j ∈ occ bs -> homeOf l es j = homeOf l es' j).
  { intros j Hj. apply (tab_elem _ _ _ HT) in Hj as [Hj Hs]. unfold homeOf. rewrite Hat by done.
    destruct (Z.eqb_spec j (usedSize es)) as [->|]; [rewrite Hfree in Hs; by destruct Hs|done]. }
  pose proof (Buckets_ext _ _ _ _ (bs_len _ _ _ (tab_ring _ _ _ HT)) (tab_ring _ _ _ HT) Hext) as Hb.
  destruct (empty_slot (capacity l) bs (bs_len _ _ _ Hb)) as (e0 & He0 & Hoe);
    [rewrite (tab_size _ _ _ HT), Hlive; lia|].
  destruct (insertLoop_ok l _ eq_refl Hpow (homeOf l es') (fun j => homeOf_range l es' j Hrc) ltac:(lia)
    (probeFuel l) bs (usedSize es) i d e0) as (bs' & Hins & Hb' & Hoc); try done; [lia| | |].
  { rewrite Hd. f_equal. unfold homeOf. rewrite Hat, Z.eqb_refl by lia. done. }
  { pose proof (rd_range _ i e0 Hi He0). unfold probeFuel. lia. }
  exists bs'. split; [exact Hins|]. rewrite Hbz. cbv zeta.
  pose proof (setSize_packed _ _ _ (zlen (live (entries m)) + 1) Hp ltac:(lia)) as Hp'.
  set (l' := setSize l _) in *. pose proof (packed_fields _ _ _ Hp') as (_ & _ & Hc').
  assert (Hcl : capacity l' = capacity l) by congruence.
  assert (Hzl : zlen (live es') = zlen (live (entries m)) + 1)
    by (rewrite Hlive', Hlive, zlen_app; done).
  split_and!.
  - split; cbn [len entries seed buckets].
    + exists e. rewrite Hzl. exact (conj Hp' (conj He Hload)).
    + done.
    + rewrite Hcap'. pose proof (inv_cap m HI) as Hcm. rewrite <- Hcap in Hcm.
      change (2 ^ 28) with 268435456 in *. change MAX_SIZE with 134217727 in *.
      destruct (Z.eqb_spec (usedSize es) (zlen (values es))) as [Eu|Eu]; [|lia].
      specialize (Hfull Eu). case_on; [lia|].
      pose proof (Z.div_le_upper_bound (zlen (values es)) 2 67108864 ltac:(lia) ltac:(lia)). lia.
    + rewrite Hlive', Hlive. apply Forall_app. split; [apply (inv_hash m HI)|]. by apply Forall_singleton.
    + rewrite Hlive', Hlive. apply distinct_app. split_and!; [apply (inv_distinct m HI)|cbn; by split; [constructor|]|].
      apply Forall_forall. intros y Hy. apply Forall_singleton.
      destruct (equals (entKey y) (entKey x)) eqn:Eq; [|done]. apply equals_sym in Eq. cbn in Eq. by rewrite Habs in Eq.
    + split.
      * rewrite Hcl. eapply Buckets_ext; [apply (bs_len _ _ _ Hb')|exact Hb'|]. intros j _. by apply homeOf_capacity.
      * rewrite Hoc. constructor; [|apply (tab_nodup _ _ _ HT)]. intros Hin.
        apply (tab_elem _ _ _ HT) in Hin as [_ Hs]. rewrite Hfree in Hs. by destruct Hs.
      * intros j. rewrite Hoc, elem_of_cons, (tab_elem _ _ _ HT j). split.
        -- intros [->|[Hj Hs]]; (split; [lia|]); rewrite Hat by lia; [by rewrite Z.eqb_refl|].
           destruct (j =? usedSize es); done.
        -- intros [Hj Hs]. rewrite Hat in Hs by done. destruct (Z.eqb_spec j (usedSize es)); [by left|by right].
      * rewrite Hzl. unfold zlen. rewrite Hoc. cbn [length]. pose proof (tab_size _ _ _ HT) as Ht.
        rewrite Hlive in Ht. unfold zlen in *. lia.
  - unfold contents. cbn [entries]. rewrite Hlive', Hlive, map_app. done.
  - rewrite Hat, Z.eqb_refl by lia. done.
Qed.

Lemma insert_refines m k v : Inv m -> exists i st m', insert m k v = Some (i, st, m') /\ Inv m' /\
  aInsert k v (contents m) = (st, (if bool_decide (st = OK \/ st = INSERTED) then pairOf <$> entryAt (entries m') i else None),
                              contents m').
Proof.
  intros HI. destruct k as [k|]; [|by exists (-1), INVALID_KEY, m]. cbn [insert aInsert].
  pose proof (alloc_inv m HI) as HIa. set (bs := match buckets m with Some _ => _ | None => _ end) in *.
  fold (allocated m bs). set (m1 := allocated m bs) in *.
  destruct (probe_ok m1 bs k HIa eq_refl) as (found & pr & Hp & Hk & Hbi & Hd & Hprev & HF).
  rewrite Hp. cbn [mbind option_bind]. change (contents m) with (contents m1). destruct found.
  - destruct HF as (Ho & x & Hx & Hkx). apply occupied_index in Ho.
    eexists _, _, _. split; [done|]. split; [done|].
    rewrite (found_find m1 k _ x HIa Ho Hx Hkx). rewrite bool_decide_true by by right. by rewrite Hx.
  - assert (aFind k (contents m1) = None) as -> by (unfold contents; apply (absent_find k _ HF)).
    destruct (inv_size m1 HIa) as (Hsz & _). rewrite Hsz.
    assert (zlen (contents m1) = zlen (live (entries m1))) as Hzc by (unfold contents, zlen; by rewrite length_map).
    rewrite Hzc. destruct (Z.eqb_spec (zlen (live (entries m1))) MAX_SIZE) as [Em|Em].
    { eexists _, _, _. split; [done|]. split; [done|]. rewrite bool_decide_false by (intros [?|?]; discriminate). reflexivity. }
    destruct (prepare_ok m1 bs k pr HIa eq_refl Em Hk Hbi Hd Hprev) as (l & bs2 & es2 & i & d & Hprep & HP).
    pose proof (insert_new m1 _ l bs2 es2 i d k v HIa HP eq_refl Em HF) as Hnew.
    rewrite <- Hk in Hnew.
    unfold prepare in Hprep. cbv zeta in Hprep. rewrite Hsz in Hprep. rewrite Hprep. cbn [mbind option_bind].
    destruct (add es2 k (keyHash pr) v) as [entry es']. destruct Hnew as (bs' & -> & HI' & Hc & He).
    cbn [mbind option_bind]. eexists _, _, _. split; [done|]. split; [exact HI'|].
    rewrite bool_decide_true by by left. cbn [entries]. by rewrite He, Hc.
Qed.

(** ** Sequences of operations *)

Inductive Op := Insert (k : option K) (v : V) | Lookup (k : K) | Remove (k : K) | Clear.

(** What the caller sees: the status of an insertion and the pair it is told of. *)
Abbreviation Out := (InsertStatus * option (K * V))%type.

Definition execMap (m : Map) (op : Op) : option (Out * Map) :=
  match op with
  | Insert k v =>
      match OrderedMap.insert m k v with
      | Some (i, st, m') =>
          Some (st, if bool_decide (st = OK \/ st = INSERTED) then pairOf <$> entryAt (entries m') i else None, m')
      | None => None
      end
  | Lookup k =>
      match OrderedMap.lookup m k with
      | Some i => Some (OK, if i =? -1 then None else pairOf <$> entryAt (entries m) i, m)
      | None => None
      end
  | Remove k =>
      match OrderedMap.remove m k with
      | Some (r, m') => Some (OK, option_map pairOf r, m')
      | None => None
      end
  | Clear => Some (OK, None, OrderedMap.clear m)
  end.

Definition execList (l : list (K * V)) (op : Op) : Out * list (K * V) :=
  match op with
  | Insert k v => aInsert k v l
  | Lookup k => (OK, aFind k l, l)
  | Remove k => let '(r, l') := aRemove k l in (OK, r, l')
  | Clear => (OK, None, [])
  end.

Fixpoint runMap (m : Map) (ops : list Op) : option (list Out * Map) :=
  match ops with
  | [] => Some ([], m)
  | op :: rest =>
      match execMap m op with
      | Some (o, m') =>
          match runMap m' rest with
          | Some (os, m'') => Some (o :: os, m'')
          | None => None
          end
      | None => None
      end
  end.

Fixpoint runList (l : list (K * V)) (ops : list Op) : list Out * list (K * V) :=
  match ops with
  | [] => ([], l)
  | op :: rest =>
      let '(o, l') := execList l op in
      let '(os, l'') := runList l' rest in
      (o :: os, l'')
  end.

Lemma execMap_refines m op : Inv m -> exists o m', execMap m op = Some (o, m') /\ Inv m' /\
  execList (contents m) op = (o, contents m').
Proof.
  intros HI. destruct op as [k v|k|k|]; cbn [execMap execList].
  - destruct (insert_refines m k v HI) as (i & st & m' & -> & HI' & ->). eauto.
  - destruct (lookup_refines m k HI) as (i & -> & Hi). cbn [mbind option_bind]. eexists _, m.
    split; [done|]. split; [done|]. destruct (aFind k (contents m)) as [p|].
    + destruct Hi as [Hi ->]. by rewrite (proj2 (Z.eqb_neq i (-1))) by lia.
    + by subst i.
  - destruct (remove_refines m k HI) as (r & m' & -> & HI' & ->). eauto.
  - destruct (clear_refines m HI) as [HI' Hc]. rewrite <- Hc. eauto.
Qed.

Lemma runMap_refines ops : forall m, Inv m -> exists os m', runMap m ops = Some (os, m') /\ Inv m' /\
  runList (contents m) ops = (os, contents m').
Proof.
  induction ops as [|op ops IH]; intros m HI; cbn [runMap runList]; [eauto|].
  destruct (execMap_refines m op HI) as (o & m1 & -> & HI1 & ->). cbn [mbind option_bind].
  destruct (IH m1 HI1) as (os & m2 & -> & HI2 & ->). cbn [mbind option_bind]. eauto.
Qed.
End spec.

(** C6: for every sequence of insertions, lookups, removals and clears, whatever the hash function, the hash map ends each operation, keeps its invariant and gives the same results and the same entries in the same order as an association list in insertion order with at most 2^27 - 1 entries. *)
Theorem ordered_map_refines {K V} `{MapKey K} s (ops : list (@Op K V)) :
  exists outs m, runMap (emptyMap s) ops = Some (outs, m) /\ Inv m /\ runList [] ops = (outs, contents m).
Proof. apply (runMap_refines ops (emptyMap s)), emptyMap_inv. Qed.


(** ** Integer keys with a hash that collides *)

#[program] Definition collidingKey : MapKey Z := {|
  equals := Z.eqb;
  hash s k := (s + k) mod 2
|}.
Next Obligation. intros k. apply Z.eqb_refl. Qed.
Next Obligation. intros k1 k2. by rewrite Z.eqb_sym. Qed.
Next Obligation. intros k1 k2 k3 ->%Z.eqb_eq. done. Qed.
Next Obligation. by intros s k1 k2 ->%Z.eqb_eq. Qed.
Next Obligation. intros s k. pose proof (Z.mod_pos_bound (s + k) 2 ltac:(lia)). change (2 ^ 64) with 18446744073709551616. lia. Qed.

Definition exampleOps : list (@Op Z Z) :=
  [Insert (Some 1) 10; Insert (Some 2) 20; Insert (Some 3) 30; Insert (Some 4) 40; Remove 2;
   Insert (Some 3) 33; Insert (Some 5) 50; Lookup 3; Lookup 2; Insert None 0; Remove 9].

Example example_run :
  (fun '(outs, m) => (outs, contents m)) <$> @runMap Z Z collidingKey (emptyMap 7) exampleOps =
  Some ([(OK, Some (1, 10)); (OK, Some (2, 20)); (OK, Some (3, 30)); (OK, Some (4, 40)); (OK, Some (2, 20));
         (INSERTED, Some (3, 30)); (OK, Some (5, 50)); (OK, Some (3, 30)); (OK, None);
         (INVALID_KEY, None); (OK, None)],
        [(1, 10); (3, 30); (4, 40); (5, 50)]).
Proof. vm_compute. reflexivity. Qed.

Lemma ordered_map_refines_witness :
  exists outs m, @runMap Z Z collidingKey (emptyMap 7) exampleOps = Some (outs, m) /\
    @Inv Z Z collidingKey m /\ @runList Z Z collidingKey [] exampleOps = (outs, contents m).
Proof. apply (@ordered_map_refines Z Z collidingKey 7 exampleOps). Defined.


End OrderedMapSpec.
