(* ===== verification/Glob.v ===== *)
(** Wildcard patterns (src/glob.h, src/glob.cpp): the scanner that matches a file name
    against one component of a pattern, the escaping of a name, and the split of a
    pattern into a base directory and the rest.  The search of directories is not
    modelled here. *)
From Stdlib Require Import Ascii.
From S2P Require Import Prelude Unicode StringRef.

Module Glob.
Import UnicodeUtil.

(** ** GlobPatternScanner

    The iterator is what is left of the pattern; a name is the bytes before its null
    byte.  Where the source stores a message if [err] is given, the message is part of
    the result.  [None] is undefined behaviour, or a failed assertion. *)

Inductive Status := DOT | DOTDOT | MATCHED | UNMATCHED | UNMATCHED_DOT | UNMATCHED_DOT_PREFIX | BAD_PATTERN.

(** Glob::Option *)
Definition DOTGLOB : Z := 1.
Definition FASTGLOB : Z := 2.
Definition GLOB_LIMIT : Z := 4.
Definition GLOBSTAR : Z := 8.

Definition expect (iter : bytes) (ch : Z) : bool := match iter with c :: _ => c =? ch | [] => false end.
Definition isEndOrSep (iter : bytes) : bool := match iter with c :: _ => c =? chr "/" | [] => true end.

Fixpoint consumeSeps (iter : bytes) (count : Z) : bytes * Z :=
  match iter with
  | c :: r => if c =? chr "/" then consumeSeps r (count + 1) else (iter, count)
  | [] => (iter, count)
  end.

Definition consumeDot (iter : bytes) : bytes * bool :=
  if expect iter (chr ".") && isEndOrSep (tail iter) then (tail iter, true) else (iter, false).

(** [matchDots]: the iterator and 0, 1 or 2; the name is "." or "..", or it does not match. *)
Definition matchDots (iter name : bytes) : bytes * Z :=
  if expect name (chr ".") && expect iter (chr ".") then
    let name1 := tail name in
    let iter1 := tail iter in
    match name1 with
    | [] =>
        if isEndOrSep iter1 then (iter1, 1) else (iter, 0)
    | _ =>
        if expect name1 (chr ".") && expect iter1 (chr ".") then
          match tail name1 with
          | [] => if isEndOrSep (tail iter1) then (tail iter1, 2) else (iter, 0)
          | _ => (iter, 0)
          end
        else (iter, 0)
    end
  else (iter, 0).

(** *** Character classes of the C locale

    The functions of <ctype.h> are defined for the values of unsigned char and EOF,
    [isascii] for all. *)

Definition between (a b c : Z) : bool := (a <=? c) && (c <=? b).
Definition isupper (c : Z) : bool := between 65 90 c.
Definition islower (c : Z) : bool := between 97 122 c.
Definition isdigit (c : Z) : bool := between 48 57 c.
Definition isalpha (c : Z) : bool := isupper c || islower c.
Definition isalnum (c : Z) : bool := isalpha c || isdigit c.
Definition isgraph (c : Z) : bool := between 33 126 c.

Definition ctype (f : Z -> bool) (c : Z) : option bool :=
  if (c =? -1) || between 0 UINT8_MAX c then Some (f c) else None.

(** [lookupGlobCharClassOp] *)
Definition lookupGlobCharClassOp (className : bytes) : option (Z -> option bool) :=
  snd <$> List.find (fun e => bool_decide (fst e = className))
    [(lit "alnum", ctype isalnum);
     (lit "alpha", ctype isalpha);
     (lit "ascii", fun c => Some (between 0 127 c));
     (lit "blank", ctype (fun c => (c =? 32) || (c =? 9)));
     (lit "cntrl", ctype (fun c => between 0 31 c || (c =? 127)));
     (lit "digit", ctype isdigit);
     (lit "graph", ctype isgraph);
     (lit "lower", ctype islower);
     (lit "print", ctype (fun c => between 32 126 c));
     (lit "punct", ctype (fun c => isgraph c && negb (isalnum c)));
     (lit "space", ctype (fun c => (c =? 32) || between 9 13 c));
     (lit "upper", ctype isupper);
     (lit "word", ctype (fun c => isalnum c || (c =? chr "_")));
     (lit "xdigit", ctype (fun c => isdigit c || between 65 70 c || between 97 102 c))].

(** *** Bracket expressions *)

Inductive CharSetStatus := MATCH | UNMATCH | SYNTAX_ERROR | NO_CLASS | BAD_CLASS.

Definition needCloseBracket : bytes := lit "bracket expression must end with `]'".
Definition charClassInRange : bytes := lit "`[:' is not allowed in character range".

(** A status, the iterator, and the message. *)
Abbreviation Result := (option (CharSetStatus * bytes * bytes)).

Fixpoint takeLower (iter : bytes) : bytes * bytes :=
  match iter with
  | c :: r => if between 97 122 c then let '(n, rest) := takeLower r in (c :: n, rest) else ([], iter)
  | [] => ([], [])
  end.

(** [tryMatchCharClass]: the iterator is at '['. *)
Definition tryMatchCharClass (codePoint : Z) (oldIter : bytes) : Result :=
  if negb (expect oldIter (chr "[")) then None
  else if expect (tail oldIter) (chr ":") then
    let '(className, iter) := takeLower (tail (tail oldIter)) in
    if expect iter (chr ":") && expect (tail iter) (chr "]") then
      let iter := tail (tail iter) in
      match lookupGlobCharClassOp className with
      | Some op => r ← op codePoint; Some (if r : bool then MATCH else UNMATCH, iter, [])
      | None => Some (BAD_CLASS, oldIter, lit "undefined character class: " ++ className)
      end
    else Some (SYNTAX_ERROR, iter, lit "character class must end with `:]'")
  else Some (NO_CLASS, oldIter, []).

(** [consumeCharSetPart]: the code point or -1, the iterator, and the message. *)
Definition consumeCharSetPart (first : bool) (iter : bytes) : option (Z * bytes * bytes) :=
  let decode iter :=
    let '(byteSize, codePoint) := utf8ToCodePoint iter false in
    if byteSize =? 0 then Some (-1, iter, lit "invalid UTF-8 sequence")
    else Some (codePoint, drop (Z.to_nat byteSize) iter, []) in
  if isEndOrSep iter then None
  else if expect iter (chr "-") then
    if first || expect (tail iter) (chr "]") then Some (chr "-", tail iter, [])
    else Some (-1, iter, lit "unescaped `-' is only available in first or last")
  else if expect iter (chr "]") then
    if first then Some (chr "]", tail iter, []) else decode iter
  else if expect iter (chr "[") then
    if expect (tail iter) (chr ":") then Some (-1, tail iter, charClassInRange) else decode iter
  else if expect iter (chr "\") then
    if isEndOrSep (tail iter) then Some (-1, iter, lit "need character after `\'") else decode (tail iter)
  else decode iter.

(** The end of a bracket expression. *)
Definition closeCharSet (negate : bool) (matchCount : Z) (iter : bytes) : Result :=
  if expect iter (chr "]") then
    Some (if xorb negate (0 <? matchCount) then MATCH else UNMATCH, tail iter, [])
  else Some (SYNTAX_ERROR, iter, needCloseBracket).

(** A character or a range of characters in a bracket expression, and the iterator after
    it; or the iterator and the message of a syntax error. *)
Definition consumeCharRange (first : bool) (iter : bytes) : option (Z * Z * bytes + bytes * bytes) :=
  '(lower, iter, err) ← consumeCharSetPart first iter;
  if lower <? 0 then Some (inr (iter, err))
  else if isEndOrSep iter then Some (inr (iter, needCloseBracket))
  else
    '(upper, iter, err) ←
      (if expect iter (chr "-") && negb (isEndOrSep (tail iter) || expect (tail iter) (chr "]"))
       then consumeCharSetPart false (tail iter) else Some (lower, iter, []));
    if upper <? 0 then Some (inr (iter, err))
    else if upper <? lower then Some (inr (iter, lit "character range is out of order"))
    else Some (inl (lower, upper, iter)).

(** The loop of [matchCharSetImpl]; every round consumes a byte. *)
Fixpoint charSetLoop (fuel : nat) (codePoint : Z) (first negate : bool) (matchCount : Z) (iter : bytes) : Result :=
  match fuel with
  | O => None
  | S fuel' =>
      if isEndOrSep iter || expect iter (chr "]") then closeCharSet negate matchCount iter
      else
        let inverts := first && (expect iter (chr "!") || expect iter (chr "^")) in
        let negate := negate || inverts in
        let iter := if inverts then tail iter else iter in
        if isEndOrSep iter then closeCharSet negate matchCount iter
        else
          '(status, iter', err) ←
            (if expect iter (chr "[") then tryMatchCharClass codePoint iter else Some (NO_CLASS, iter, []));
          match status with
          | MATCH | UNMATCH =>
              if expect iter' (chr "-") && negb (expect (tail iter') (chr "]"))
              then Some (SYNTAX_ERROR, tail iter', charClassInRange)
              else
                charSetLoop fuel' codePoint false negate
                  (if status is MATCH then matchCount + 1 else matchCount) iter'
          | NO_CLASS =>
              range ← consumeCharRange first iter;
              match range with
              | inl (lower, upper, iter) =>
                  charSetLoop fuel' codePoint false negate
                    (if between lower upper codePoint then matchCount + 1 else matchCount) iter
              | inr (iter, err) => Some (SYNTAX_ERROR, iter, err)
              end
          | SYNTAX_ERROR | BAD_CLASS => Some (SYNTAX_ERROR, iter', err)
          end
  end.

(** [matchCharSetImpl]: the iterator is at '['. *)
Definition matchCharSetImpl (codePoint : Z) (iter : bytes) : Result :=
  if expect iter (chr "[") then charSetLoop (length iter) codePoint true false 0 (tail iter) else None.

Definition matchCharSet (codePoint : Z) (iter : bytes) : Result :=
  if expect iter (chr "[") then matchCharSetImpl codePoint iter
  else Some (SYNTAX_ERROR, iter, lit "bracket expression must start with `['").

(** *** Matching a name

    The first character of a name, and the rest; an invalid byte counts as one. *)
Definition nextChar (name : bytes) : Z * bytes :=
  let '(byteSize, codePoint) := utf8ToCodePoint name false in
  (codePoint, drop (Z.to_nat (if byteSize =? 0 then 1 else byteSize)) name).

Fixpoint skipStars (iter : bytes) : bytes :=
  match iter with c :: r => if c =? chr "*" then skipStars r else iter | [] => [] end.

(** The state of the loop of [match]: [iter], [name], and [oldIter] with [oldName] once a
    '*' was met.  A result is the status, the iterator, and the message. *)
Abbreviation MatchState := (bytes * bytes * option (bytes * bytes))%type.
Abbreviation MatchResult := (Status * bytes * bytes)%type.

(** The label BACKTRACK. *)
Definition backtrack (iter : bytes) (old : option (bytes * bytes)) : MatchState + MatchResult :=
  match old with
  | Some (oldIter, oldName) => inl (oldIter, oldName, Some (oldIter, tail oldName))
  | None => inr (UNMATCHED, iter, [])
  end.

(** One round, for a name that is not at its end: to continue, or to return. *)
Definition matchRound (iter : bytes) (n : Z) (name' : bytes) (old : option (bytes * bytes))
    : option (MatchState + MatchResult) :=
  match iter with
  | [] => Some (backtrack iter old)
  | ch :: iter' =>
      if ch =? chr "/" then Some (backtrack iter old)
      else if ch =? chr "?" then Some (inl (iter', snd (nextChar (n :: name')), old))
      else if ch =? chr "[" then
        '(status, iter2, err) ← matchCharSetImpl (fst (nextChar (n :: name'))) iter;
        match status with
        | MATCH => Some (inl (iter2, snd (nextChar (n :: name')), old))
        | UNMATCH => Some (backtrack iter2 old)
        | SYNTAX_ERROR | NO_CLASS | BAD_CLASS => Some (inr (BAD_PATTERN, iter2, err))
        end
      else if ch =? chr "*" then
        if isEndOrSep iter' then Some (inr (MATCHED, iter', []))
        else Some (inl (iter', n :: name', Some (iter', name')))
      else
        let iter := if (ch =? chr "\") && negb (bool_decide (iter' = [])) then iter' else iter in
        if expect iter n then Some (inl (tail iter, name', old)) else Some (backtrack iter old)
  end.

Fixpoint matchLoop (fuel : nat) (state : MatchState) : option MatchResult :=
  match fuel with
  | O => None
  | S fuel' =>
      let '(iter, name, old) := state in
      match name with
      | [] =>
          let iter := skipStars iter in
          Some (if isEndOrSep iter then MATCHED else UNMATCHED, iter, [])
      | n :: name' =>
          round ← matchRound iter n name' old;
          match round with
          | inl state => matchLoop fuel' state
          | inr result => Some result
          end
      end
  end.

(** Rounds: the pattern is scanned once for every star and every position of the name. *)
Definition matchFuel (iter name : bytes) : nat :=
  ((length iter + 2) * (length name + 2) * (length iter + 2))%nat.

Definition match_ (iter name : bytes) (option_ : Z) (allowEmptyPattern : bool) : option MatchResult :=
  let isDot := bool_decide (name = lit ".") || bool_decide (name = lit "..") in
  if isDot then
    let '(iter, n) := matchDots iter name in
    Some (if n =? 1 then DOT else if n =? 2 then DOTDOT else UNMATCHED_DOT, iter, [])
  else if expect name (chr ".") && (isEndOrSep iter || negb (expect iter (chr "."))) && negb (hasFlag option_ DOTGLOB)
  then Some (UNMATCHED_DOT_PREFIX, iter, [])
  else if allowEmptyPattern && isEndOrSep iter then Some (MATCHED, iter, [])
  else matchLoop (matchFuel iter name) (iter, name, None).

(** ** Escaping *)

Definition isGlobMeta (c : Z) : bool :=
  existsb (Z.eqb c) [chr "?"; chr "*"; chr "["; chr "]"; chr "^"; chr "!"; chr "-"; chr "\"].

(** The loop of [appendAndEscapeGlobMeta]: [pending] is [start .. iter). *)
Fixpoint escapeLoop (rest pending : bytes) (maxSize : Z) (out : bytes) : option bytes :=
  match rest with
  | [] => StringRef.checkedAppend pending maxSize out
  | c :: r =>
      if isGlobMeta c then
        out ← StringRef.checkedAppend pending maxSize out;
        if zlen out <? maxSize then escapeLoop r [c] maxSize (out ++ [chr "\"]) else None
      else escapeLoop r (pending ++ [c]) maxSize out
  end.

(** The text, or [None] for [false]. *)
Definition appendAndEscapeGlobMeta (ref : bytes) (maxSize : Z) (out : bytes) : option bytes :=
  if negb (StringRef.isAppendable (zlen ref) maxSize out) then None else escapeLoop ref [] maxSize out.

(** ** The base directory of a pattern *)

(** The loop of [extractDirFromPattern] until the first meta character: the directory so
    far, and what follows the latest separator. *)
Fixpoint extractLoop (iter baseDir : bytes) (latest : option bytes) : bytes * option bytes :=
  match iter with
  | [] => (baseDir, latest)
  | ch :: r =>
      if (ch =? chr "*") || (ch =? chr "?") || (ch =? chr "[") then (baseDir, latest)
      else if ch =? chr "\" then
        match r with
        | [] => (baseDir ++ [ch], latest)
        | ch' :: r' => extractLoop r' (baseDir ++ [ch']) latest
        end
      else if ch =? chr "/" then
        if bool_decide (last baseDir = Some (chr "/")) then extractLoop r baseDir (Some r)
        else extractLoop r (baseDir ++ [ch]) (Some r)
      else extractLoop r (baseDir ++ [ch]) latest
  end.

(** Drops bytes from the end of a reversed string until a separator. *)
Fixpoint dropName (rev : bytes) : bytes :=
  match rev with c :: r => if c =? chr "/" then rev else dropName r | [] => [] end.

(** The directory and the remaining pattern; [None] is the failed assertion. *)
Definition extractDirFromPattern (pattern : bytes) : option (bytes * bytes) :=
  let '(baseDir, latest) := extractLoop pattern [] None in
  match latest with
  | None => Some ([], pattern)
  | Some rest =>
      let baseDir := rev (dropName (rev baseDir)) in
      if bool_decide (last baseDir = Some (chr "/")) then Some (baseDir, rest) else None
  end.

Record GlobPatternWrapper := { baseDir : bytes; pattern : bytes }.

Definition create (value : bytes) : option GlobPatternWrapper :=
  '(d, p) ← extractDirFromPattern value; Some {| baseDir := d; pattern := p |}.

(** [join]: appended to [out] as far as [maxSize] allows. *)
Definition join (w : GlobPatternWrapper) (maxSize : Z) (out : bytes) : bytes :=
  let out :=
    if bool_decide (baseDir w = []) then out
    else if zlen out <? maxSize then out ++ take (Z.to_nat (maxSize - zlen out)) (baseDir w) else out in
  if zlen out <? maxSize then out ++ take (Z.to_nat (maxSize - zlen out)) (pattern w) else out.

(** [resolveBaseDir]: the directory to start from, and the pattern. *)
Definition resolveBaseDir (base pattern : bytes) : option (bytes * bytes) :=
  '(d, rest) ← extractDirFromPattern pattern;
  let d :=
    if negb (bool_decide (base = [])) && negb (expect d (chr "/"))
    then (if bool_decide (last base = Some (chr "/")) then base else base ++ [chr "/"]) ++ d
    else d in
  Some (if bool_decide (d = []) then lit "." else d, rest).

(** [popDir]: the parent directory of a path. *)
Fixpoint lastIndexOf (s : bytes) (ch : Z) (i : Z) (found : option Z) : option Z :=
  match s with
  | [] => found
  | c :: r => lastIndexOf r ch (i + 1) (if c =? ch then Some i else found)
  end.

Definition popDir (path : bytes) : bytes :=
  if bool_decide (path = lit ".") then lit ".."
  else if bool_decide (path = lit "..") then path ++ lit "/.."
  else
    match lastIndexOf path (chr "/") 0 None with
    | None => lit "."
    | Some pos =>
        if pos =? 0 then lit "/"
        else if bool_decide (drop (Z.to_nat (pos + 1)) path = lit "..") then path ++ lit "/../"
        else take (Z.to_nat pos) path
    end.

(** [consumeDoubleStars]: the iterator, and whether there was one. *)
Fixpoint dropSeps (iter : bytes) : bytes :=
  match iter with c :: r => if c =? chr "/" then dropSeps r else iter | [] => [] end.

Fixpoint doubleStarsLoop (fuel : nat) (iter old : bytes) (count : Z) : bytes * Z :=
  match fuel with
  | O => (old, count)
  | S fuel' =>
      if expect iter (chr "*") && expect (tail iter) (chr "*") then
        match tail (tail iter) with
        | [] => ([], count + 1)
        | c :: r =>
            if c =? chr "/" then
              match dropSeps r with
              | [] => ([chr "/"], count + 1)
              | rest => doubleStarsLoop fuel' rest rest (count + 1)
              end
            else doubleStarsLoop fuel' (c :: r) old count
        end
      else (old, count)
  end.

Definition consumeDoubleStars (iter : bytes) : bytes * bool :=
  let '(iter, count) := doubleStarsLoop (length iter) iter iter 0 in (iter, 0 <? count).

End Glob.
