(* ===== verification/GlobMatch.v ===== *)
(** What the scanner of wildcard patterns decides (Glob.v): matching always ends, it
    accepts exactly the names a declarative reading of the pattern accepts, and a
    bracket expression denotes a set of code points. *)
From Stdlib Require Import Ascii.
From S2P Require Import Prelude Unicode StringRef Glob.

Module GlobMatch.
Import UnicodeUtil Glob.

(** ** Characters of a name *)

Lemma validate_bounds s a : 0 <= utf8ValidateChar s a <= 4.
Proof. unfold utf8ValidateChar. repeat (case_on; try lia). Qed.

Lemma nextChar_ascii b name : 0 <= b < 128 -> nextChar (b :: name) = (b, name).
Proof.
  intros Hb. unfold nextChar, utf8ToCodePoint. rewrite validate1 by lia. cbn [Z.eqb Pos.eqb]. done.
Qed.

Lemma nextChar_shorter b name : (length (snd (nextChar (b :: name))) <= length name)%nat.
Proof.
  unfold nextChar, utf8ToCodePoint. pose proof (validate_bounds (b :: name) false).
  destruct (Z.eqb_spec (utf8ValidateChar (b :: name) false) 0); cbn [snd]; rewrite length_drop; cbn [length]; lia.
Qed.

Lemma nextChar_suffix name : snd (nextChar name) `suffix_of` name.
Proof.
  unfold nextChar, utf8ToCodePoint. cbn [snd].
  match goal with |- drop ?n _ `suffix_of` _ => exists (take n name) end. by rewrite take_drop.
Qed.

(** ** Consumption

    A part of a pattern that was read is a nonempty prefix of it. *)

Definition consumed (iter iter' : bytes) : Prop := exists c k, iter = (c :: k) ++ iter'.

Lemma consumed_cons c iter : consumed (c :: iter) iter.
Proof. by exists c, []. Qed.

Lemma consumed_trans a b c : consumed a b -> consumed b c -> consumed a c.
Proof. intros (x & k & ->) (y & l & ->). exists x, (k ++ y :: l). by simplify_list_eq. Qed.

Lemma consumed_suffix a b c : consumed a b -> c `suffix_of` b -> consumed a c.
Proof. intros (x & k & ->) [l ->]. exists x, (k ++ l). by simplify_list_eq. Qed.

Lemma consumed_length a b : consumed a b -> (length b < length a)%nat.
Proof. intros (x & k & ->). rewrite length_app. cbn. lia. Qed.

Lemma expect_true iter ch : expect iter ch = true -> exists r, iter = ch :: r.
Proof. destruct iter as [|c r]; [done|]. cbn. intros H. zbool. subst. by exists r. Qed.

Lemma consumed_expect iter ch : expect iter ch = true -> consumed iter (tail iter).
Proof. intros (r & ->)%expect_true. apply consumed_cons. Qed.

Lemma isEndOrSep_cons iter : isEndOrSep iter = false -> exists c r, iter = c :: r /\ c <> chr "/".
Proof. destruct iter as [|c r]; [done|]. cbn. intros H. zbool. by exists c, r. Qed.

Lemma takeLower_app iter : iter = fst (takeLower iter) ++ snd (takeLower iter).
Proof.
  induction iter as [|c r IH]; [done|]. cbn. case_on; [|done]. destruct (takeLower r). cbn in *. by rewrite IH at 1.
Qed.

Lemma decode_consumed iter size c :
  utf8ToCodePoint iter false = (size, c) -> 0 <= size /\ (size <> 0 -> iter = [] \/ consumed iter (drop (Z.to_nat size) iter)).
Proof.
  unfold utf8ToCodePoint. intros [= Hs Hc]. pose proof (validate_bounds iter false). split; [lia|].
  intros Hn. destruct iter as [|b r]; [by left|right].
  destruct (Z.to_nat size) as [|n] eqn:E; [lia|]. exists b, (take n r). cbn. by rewrite take_drop.
Qed.

Lemma consumeCharSetPart_total first iter :
  isEndOrSep iter = false ->
  exists c iter' err, consumeCharSetPart first iter = Some (c, iter', err) /\
    (0 <= c -> consumed iter iter').
Proof.
  intros Hi. unfold consumeCharSetPart. rewrite Hi.
  assert (forall i, (i = iter \/ consumed iter i) -> isEndOrSep i = false -> exists c iter' err,
    (let '(byteSize, codePoint) := utf8ToCodePoint i false in
     if byteSize =? 0 then Some (-1, i, lit "invalid UTF-8 sequence")
     else Some (codePoint, drop (Z.to_nat byteSize) i, [])) = Some (c, iter', err) /\ (0 <= c -> consumed iter iter')) as D.
  { intros i Hii (b & r & -> & _)%isEndOrSep_cons. destruct (utf8ToCodePoint (b :: r) false) as [n c] eqn:E.
    apply decode_consumed in E as [Hn Hc]. destruct (Z.eqb_spec n 0); do 3 eexists; split; [done|lia|done|intros _].
    destruct Hc as [|Hc]; [done..|]. destruct Hii as [<-|Hii]; [done|]. by eapply consumed_trans. }
  repeat (case_on; [|]);
    try (do 3 eexists; split; [reflexivity|]; first [lia | intros _; by eapply consumed_expect]);
    apply D; eauto using consumed_expect.
Qed.

(** [tryMatchCharClass] reads the same text whatever the code point is. *)
Lemma tryMatchCharClass_cases iter :
  expect iter (chr "[") = true ->
  (exists status iter' err, (forall cp, tryMatchCharClass cp iter = Some (status, iter', err)) /\
     (status = NO_CLASS /\ iter' = iter \/ status = SYNTAX_ERROR \/ status = BAD_CLASS)) \/
  (exists name op iter', lookupGlobCharClassOp name = Some op /\ iter = lit "[:" ++ name ++ lit ":]" ++ iter' /\
     forall cp, tryMatchCharClass cp iter = (r ← op cp; Some (if r : bool then MATCH else UNMATCH, iter', []))).
Proof.
  intros H. unfold tryMatchCharClass. rewrite H. cbn [negb].
  destruct (expect (tail iter) (chr ":")) eqn:E1; [|left; do 3 eexists; split; [done|tauto]].
  pose proof (takeLower_app (tail (tail iter))) as T. destruct (takeLower (tail (tail iter))) as [name r]. cbn in T.
  destruct (expect r (chr ":") && expect (tail r) (chr "]")) eqn:E2; [|left; do 3 eexists; split; [done|tauto]].
  destruct (lookupGlobCharClassOp name) as [op|] eqn:L; [|left; do 3 eexists; split; [done|tauto]].
  right. exists name, op, (tail (tail r)). split_and!; [done| |done].
  zbool. apply expect_true in H as [x ->], E1 as [y E1], H0 as [z ->]. cbn in *. subst x. cbn in T.
  apply expect_true in H1 as [x H1]. subst z y. done.
Qed.

(** ** Bracket expressions denote sets *)

Inductive SetItem := Range (lower upper : Z) | Class (name : bytes).

Inductive SetEnd := Close (negate : bool) (iter : bytes) | Error (iter err : bytes).

(** The denotation of an item; a class may be undefined at a code point. *)
Definition itemHas (codePoint : Z) (item : SetItem) : option bool :=
  match item with
  | Range lower upper => Some (between lower upper codePoint)
  | Class name => op ← lookupGlobCharClassOp name; op codePoint
  end.

Fixpoint countItems (codePoint : Z) (items : list SetItem) (count : Z) : option Z :=
  match items with
  | [] => Some count
  | item :: r => b ← itemHas codePoint item; countItems codePoint r (if b : bool then count + 1 else count)
  end.

(** The status of a set: what its text says, evaluated at a code point. *)
Definition runSet (items : list SetItem) (fin : SetEnd) (codePoint count : Z) : Result :=
  n ← countItems codePoint items count;
  match fin with
  | Close negate iter => closeCharSet negate n iter
  | Error iter err => Some (SYNTAX_ERROR, iter, err)
  end.

Lemma consumeCharRange_total first iter :
  isEndOrSep iter = false ->
  (exists iter' err, consumeCharRange first iter = Some (inr (iter', err))) \/
  (exists lower upper iter', consumeCharRange first iter = Some (inl (lower, upper, iter')) /\
     0 <= lower <= upper /\ consumed iter iter').
Proof.
  intros H. unfold consumeCharRange.
  destruct (consumeCharSetPart_total first iter H) as (lower & i1 & e1 & -> & C1). cbn [mbind option_bind].
  destruct (Z.ltb_spec lower 0); [left; eauto|].
  destruct (isEndOrSep i1) eqn:E1; [left; eauto|].
  destruct (expect i1 (chr "-") && negb (isEndOrSep (tail i1) || expect (tail i1) (chr "]"))) eqn:E2.
  - zbool. destruct (consumeCharSetPart_total false (tail i1)) as (upper & i2 & e2 & -> & C2); [done|].
    cbn [mbind option_bind]. destruct (Z.ltb_spec upper 0); [left; eauto|].
    destruct (Z.ltb_spec upper lower); [left; eauto|]. right. do 3 eexists. split; [done|]. split; [lia|].
    eapply consumed_trans; [by apply C1|]. eapply consumed_trans; [by apply (consumed_expect i1 (chr "-"))|]. by apply C2.
  - cbn [mbind option_bind]. destruct (Z.ltb_spec lower 0); [lia|]. destruct (Z.ltb_spec lower lower); [lia|].
    right. do 3 eexists. split; [done|]. split; [lia|]. by apply C1.
Qed.

(** What a denotation records of the text it was read from. *)
Definition denotes_text (iter : bytes) (items : list SetItem) (fin : SetEnd) : Prop :=
  (forall negate iter', fin = Close negate iter' -> iter' `suffix_of` iter) /\
  (forall name, Class name ∈ items ->
     is_Some (lookupGlobCharClassOp name) /\ exists a b, iter = a ++ lit "[:" ++ name ++ lit ":]" ++ b).

Lemma denotes_text_nil iter fin :
  (forall negate iter', fin = Close negate iter' -> iter' `suffix_of` iter) -> denotes_text iter [] fin.
Proof. split; [done|]. by intros name ?%elem_of_nil. Qed.

Lemma denotes_text_suffix iter iter' items fin :
  iter' `suffix_of` iter -> denotes_text iter' items fin -> denotes_text iter items fin.
Proof.
  intros [k ->] [H1 H2]. split.
  - intros n i Hf. apply H1 in Hf as [l ->]. exists (k ++ l). by simplify_list_eq.
  - intros n Hn. destruct (H2 n Hn) as (Hs & a & b & ->). split; [done|]. exists (k ++ a), b. by simplify_list_eq.
Qed.

Lemma denotes_text_cons iter item items fin :
  denotes_text iter items fin ->
  (forall name, item = Class name ->
     is_Some (lookupGlobCharClassOp name) /\ exists a b, iter = a ++ lit "[:" ++ name ++ lit ":]" ++ b) ->
  denotes_text iter (item :: items) fin.
Proof. intros [H1 H2] H. split; [done|]. intros n [<-|]%elem_of_cons; auto. Qed.

Lemma consumed_suffix_of a b : consumed a b -> b `suffix_of` a.
Proof. intros (c & k & ->). by exists (c :: k). Qed.

Lemma charSetLoop_denotes fuel : forall first negate iter,
  (length iter < fuel)%nat ->
  exists items fin, denotes_text iter items fin /\
    forall cp count, charSetLoop fuel cp first negate count iter = runSet items fin cp count.
Proof.
  induction fuel as [|fuel IH]; intros first negate iter Hf; [lia|]. cbn [charSetLoop].
  destruct (isEndOrSep iter || expect iter (chr "]")) eqn:E1.
  { exists [], (Close negate iter). split; [|done]. apply denotes_text_nil. by intros ? ? [= -> ->]. }
  set (inv := first && _). set (negate' := negate || inv). set (iter1 := if inv then tail iter else iter).
  assert (iter1 `suffix_of` iter) as S1.
  { unfold iter1. destruct inv; [|done]. zbool. apply isEndOrSep_cons in H as (c & r & -> & _). by exists [c]. }
  assert (length iter1 <= length iter)%nat as L1 by by apply suffix_length.
  destruct (isEndOrSep iter1) eqn:E2.
  { exists [], (Close negate' iter1). split; [|done]. apply denotes_text_nil. by intros ? ? [= -> ->]. }
  assert (forall iter' it, consumed iter1 iter' ->
    (forall name, it = Class name ->
       is_Some (lookupGlobCharClassOp name) /\ exists a b, iter1 = a ++ lit "[:" ++ name ++ lit ":]" ++ b) ->
    exists items fin, denotes_text iter (it :: items) fin /\
      forall cp count, charSetLoop fuel cp false negate' count iter' = runSet items fin cp count) as Next.
  { intros iter' it C T. destruct (IH false negate' iter') as (items & fin & D & R).
    { apply consumed_length in C. lia. }
    exists items, fin. split; [|done]. eapply denotes_text_suffix; [done|]. apply denotes_text_cons; [|done].
    eapply denotes_text_suffix; [|done]. by apply consumed_suffix_of. }
  assert (exists items fin, denotes_text iter items fin /\ forall cp count,
    (range ← consumeCharRange first iter1;
     match range with
     | inl (lower, upper, iter) => charSetLoop fuel cp false negate' (if between lower upper cp then count + 1 else count) iter
     | inr (iter, err) => Some (SYNTAX_ERROR, iter, err)
     end) = runSet items fin cp count) as Hrange.
  { destruct (consumeCharRange_total first iter1 E2) as [(i & e & ->)|(lo & up & i & -> & _ & C)]; cbn [mbind option_bind].
    - exists [], (Error i e). split; [by apply denotes_text_nil|done].
    - destruct (Next i (Range lo up) C) as (items & fin & D & R); [done|]. exists (Range lo up :: items), fin.
      split; [done|]. intros cp count. rewrite R. done. }
  destruct (expect iter1 (chr "[")) eqn:E3; [|exact Hrange].
  destruct (tryMatchCharClass_cases iter1 E3) as [(st & i & e & Ht & Hst)|(name & op & i & Hop & Hi & Ht)].
  - destruct Hst as [[-> ->]|Hst].
    + destruct Hrange as (items & fin & D & R). exists items, fin. split; [done|]. intros cp count. rewrite Ht. exact (R cp count).
    + exists [], (Error i e). split; [by apply denotes_text_nil|]. intros cp count. rewrite Ht. by destruct Hst as [->| ->].
  - assert (forall nm, Class name = Class nm ->
      is_Some (lookupGlobCharClassOp nm) /\ exists a b, iter1 = a ++ lit "[:" ++ nm ++ lit ":]" ++ b) as T.
    { intros nm [= <-]. split; [done|]. by exists [], i. }
    destruct (expect i (chr "-") && negb (expect (tail i) (chr "]"))) eqn:E4.
    + exists [Class name], (Error (tail i) charClassInRange). split.
      * eapply denotes_text_suffix; [done|]. apply denotes_text_cons; [by apply denotes_text_nil|done].
      * intros cp count. rewrite Ht. unfold runSet. cbn [countItems itemHas]. rewrite Hop. cbn [mbind option_bind].
        destruct (op cp) as [[]|]; cbn [mbind option_bind countItems]; rewrite ?E4; done.
    + destruct (Next i (Class name)) as (items & fin & D & R); [|done|].
      { rewrite Hi. exists (chr "["), (chr ":" :: name ++ lit ":]"). by simplify_list_eq. }
      exists (Class name :: items), fin. split; [done|]. intros cp count. rewrite Ht. unfold runSet.
      cbn [countItems itemHas]. rewrite Hop. cbn [mbind option_bind]. destruct (op cp) as [[]|]; cbn [mbind option_bind]; rewrite ?E4; [apply R..|done].
Qed.

(** A bracket expression denotes a set that its text alone determines: there are
    ranges and character classes, every class written as `[:name:]` in it, such that for
    every code point the scanner counts the items that hold of it and then closes the
    set or reports the same syntax error; what it leaves is the rest of the pattern. *)
Theorem charset_denotes iter :
  expect iter (chr "[") = true ->
  exists items fin, denotes_text (tail iter) items fin /\
    forall cp, matchCharSetImpl cp iter = runSet items fin cp 0.
Proof.
  intros H. destruct (expect_true _ _ H) as [r ->]. unfold matchCharSetImpl. cbn [tail].
  destruct (charSetLoop_denotes (length (chr "[" :: r)) true false r) as (items & fin & D & R); [cbn; lia|].
  exists items, fin. split; [done|]. intros cp. apply R.
Qed.

Lemma charset_denotes_witness :
  exists items fin, denotes_text (lit "!a-c[:digit:]]x") items fin /\
    forall cp, matchCharSetImpl cp (lit "[!a-c[:digit:]]x") = runSet items fin cp 0.
Proof. exact (charset_denotes (lit "[!a-c[:digit:]]x") eq_refl). Defined.

(** The same, for the lemmas below. *)
Lemma charSet_run iter :
  exists items fin, denotes_text iter items fin /\
    forall cp, matchCharSetImpl cp (chr "[" :: iter) = runSet items fin cp 0.
Proof.
  destruct (charSetLoop_denotes (S (length iter)) true false iter) as (items & fin & D & R); [lia|].
  exists items, fin. split; [done|]. intros cp. apply R.
Qed.

Lemma closeCharSet_cases negate n iter :
  exists iter', (exists st, closeCharSet negate n iter = Some (st, iter', []) /\ (st = MATCH \/ st = UNMATCH) /\ consumed iter iter') \/
    exists err, closeCharSet negate n iter = Some (SYNTAX_ERROR, iter', err).
Proof.
  unfold closeCharSet. destruct (expect iter (chr "]")) eqn:E; [|eauto].
  exists (tail iter). left. eexists. split; [done|]. split; [destruct (xorb _ _); tauto|]. by eapply consumed_expect.
Qed.

(** The text a set consumes does not depend on the code point. *)
Lemma charSet_same_rest iter cp cp' st iter1 iter2 err1 err2 :
  matchCharSetImpl cp (chr "[" :: iter) = Some (st, iter1, err1) -> st = MATCH \/ st = UNMATCH ->
  matchCharSetImpl cp' (chr "[" :: iter) = Some (MATCH, iter2, err2) -> iter1 = iter2.
Proof.
  destruct (charSet_run iter) as (items & fin & _ & R). rewrite !R. unfold runSet.
  destruct (countItems cp items 0) as [n|], (countItems cp' items 0) as [n'|]; cbn [mbind option_bind]; try done.
  destruct fin as [negate i|i e]; [|done]. unfold closeCharSet. destruct (expect i (chr "]")); [|done]. congruence.
Qed.

Lemma charSet_consumed iter cp st iter' err :
  matchCharSetImpl cp (chr "[" :: iter) = Some (st, iter', err) -> st = MATCH \/ st = UNMATCH -> consumed (chr "[" :: iter) iter'.
Proof.
  destruct (charSet_run iter) as (items & fin & [D _] & R). rewrite R. unfold runSet.
  destruct (countItems cp items 0) as [n|]; cbn [mbind option_bind]; [|done].
  destruct fin as [negate i|i e]; [|naive_solver].
  destruct (closeCharSet_cases negate n i) as [i' [(st' & -> & _ & C)|[e ->]]]; [|naive_solver].
  intros [= <- <- _] _. eapply consumed_suffix; [apply consumed_cons|].
  transitivity i; [by apply consumed_suffix_of|by eapply D].
Qed.

(** *** Where a set is defined *)

Definition classFree (iter : bytes) : Prop := forall a b, iter <> a ++ lit "[:" ++ b.

Definition narrow (codePoint : Z) : Prop := -1 <= codePoint <= UINT8_MAX.

Lemma classFree_suffix iter iter' : iter' `suffix_of` iter -> classFree iter -> classFree iter'.
Proof. intros [k ->] H a b ->. apply (H (k ++ a) b). by simplify_list_eq. Qed.

Lemma ctype_defined f cp : narrow cp -> is_Some (ctype f cp).
Proof. intros H. unfold ctype, between. unfold narrow in H. case_on; [done|]. exfalso. lia. Qed.

Lemma class_defined name op cp : lookupGlobCharClassOp name = Some op -> narrow cp -> is_Some (op cp).
Proof.
  intros H Hn. unfold lookupGlobCharClassOp in H. cbn [List.find] in H.
  repeat (case_in H; [cbn in H; injection H as <-; first [by apply ctype_defined|done]|]). done.
Qed.

Lemma countItems_defined cp items : forall n,
  (forall name, Class name ∈ items -> narrow cp /\ is_Some (lookupGlobCharClassOp name)) -> is_Some (countItems cp items n).
Proof.
  induction items as [|it items IH]; intros n H; [done|]. cbn [countItems].
  assert (is_Some (itemHas cp it)) as [b ->].
  { destruct it as [lo up|name]; [done|]. destruct (H name) as [Hn [op Ho]]; [by apply elem_of_cons; left|].
    cbn [itemHas]. rewrite Ho. cbn [mbind option_bind]. by apply (class_defined name). }
  cbn [mbind option_bind]. apply IH. intros nm Hn. apply H. by apply elem_of_cons; right.
Qed.

Lemma nextChar_narrow b name : Forall (fun b => 0 <= b < 0xC4) (b :: name) -> narrow (fst (nextChar (b :: name))).
Proof.
  intros H. unfold nextChar, utf8ToCodePoint. cbn [fst]. unfold narrow, UINT8_MAX.
  assert (Forall is_byte (b :: name)) as Hb by (eapply Forall_impl; [exact H|]; intros x ?; unfold is_byte; cbn in *; lia).
  pose proof (validate_sound (b :: name) false Hb) as V. inversion_clear H as [|? ? Hc Ht]. cbn in Hc.
  destruct V as [[? ->]|[(b1 & r & -> & ? & ? & ->)|[(b1 & b2 & r & -> & ? & _)|[(b1 & b2 & b3 & r & -> & ? & _)| ->]]]].
  - cbn. lia.
  - rewrite payload2. Z.to_euclidean_division_equations; lia.
  - lia.
  - lia.
  - cbn. lia.
Qed.

(** Where matching is defined: the pattern has no character class, or the characters of
    the name fit in a byte. *)
Definition classesDefined (iter name : bytes) : Prop :=
  classFree iter \/ Forall (fun b => 0 <= b < 0xC4) name.

Lemma charSet_defined iter n name :
  classesDefined (chr "[" :: iter) (n :: name) -> is_Some (matchCharSetImpl (fst (nextChar (n :: name))) (chr "[" :: iter)).
Proof.
  intros H. destruct (charSet_run iter) as (items & fin & [_ D] & R). rewrite R. unfold runSet.
  destruct (countItems_defined (fst (nextChar (n :: name))) items 0) as [k ->].
  { intros nm Hn. destruct (D nm Hn) as (Hs & a & b & E). split; [|done]. destruct H as [H|H]; [|by apply nextChar_narrow].
    exfalso. apply (H (chr "[" :: a) (nm ++ lit ":]" ++ b)). by rewrite E. }
  cbn [mbind option_bind]. destruct fin as [ng i|i e]; [|done].
  destruct (closeCharSet_cases ng k i) as [i' [(st & -> & _)|[e ->]]]; done.
Qed.

Lemma charSet_status iter cp st iter' err :
  matchCharSetImpl cp (chr "[" :: iter) = Some (st, iter', err) -> st = MATCH \/ st = UNMATCH \/ st = SYNTAX_ERROR.
Proof.
  destruct (charSet_run iter) as (items & fin & _ & R). rewrite R. unfold runSet.
  destruct (countItems cp items 0) as [n|]; cbn [mbind option_bind]; [|done].
  destruct fin as [negate i|i e]; [|naive_solver].
  destruct (closeCharSet_cases negate n i) as [i' [(st' & -> & H & _)|[e ->]]]; naive_solver.
Qed.

(** ** A declarative reading of patterns

    One element of the pattern, a star excepted, against the head of the name. *)
Definition special (c : Z) : bool := existsb (Z.eqb c) [chr "/"; chr "?"; chr "["; chr "*"; chr "\"].

Inductive eats : bytes -> bytes -> bytes -> bytes -> Prop :=
  | eats_any iter n name : eats (chr "?" :: iter) (n :: name) iter (snd (nextChar (n :: name)))
  | eats_set iter n name iter' err :
      matchCharSetImpl (fst (nextChar (n :: name))) (chr "[" :: iter) = Some (MATCH, iter', err) ->
      eats (chr "[" :: iter) (n :: name) iter' (snd (nextChar (n :: name)))
  | eats_literal c iter name : special c = false -> eats (c :: iter) (c :: name) iter name
  | eats_escaped c iter name : eats (chr "\" :: c :: iter) (c :: name) iter name
  | eats_backslash name : eats [chr "\"] (chr "\" :: name) [] name.

(** A star stands for any bytes; the pattern ends at a separator. *)
Inductive accepts : bytes -> bytes -> Prop :=
  | accepts_end iter : isEndOrSep iter = true -> accepts iter []
  | accepts_star iter name k : accepts iter (drop k name) -> accepts (chr "*" :: iter) name
  | accepts_eats iter name iter' name' : eats iter name iter' name' -> accepts iter' name' -> accepts iter name.

Lemma eats_consumed iter name iter' name' : eats iter name iter' name' -> consumed iter iter'.
Proof.
  intros []; try apply consumed_cons.
  - eapply charSet_consumed; [done|tauto].
  - by exists (chr "\"), [c].
Qed.

Lemma eats_suffix iter name iter' name' : eats iter name iter' name' -> name' `suffix_of` name.
Proof. intros []; try apply nextChar_suffix; by (eexists [_]). Qed.

(** What a round does, by the element the pattern begins with. *)
Lemma matchRound_cases iter n name' old r :
  matchRound iter n name' old = Some r ->
  (exists iter' nm', eats iter (n :: name') iter' nm' /\ r = inl (iter', nm', old)) \/
  (exists i, r = backtrack i old /\ expect iter (chr "*") = false /\ forall iter' nm', ~ eats iter (n :: name') iter' nm') \/
  (exists iter', iter = chr "*" :: iter' /\
     (isEndOrSep iter' = true /\ r = inr (MATCHED, iter', []) \/ r = inl (iter', n :: name', Some (iter', name')))) \/
  (exists i e, r = inr (BAD_PATTERN, i, e) /\ expect iter (chr "[") = true /\
     exists cp, matchCharSetImpl cp iter = Some (SYNTAX_ERROR, i, e)).
Proof.
  unfold matchRound. destruct iter as [|ch iter'].
  { intros [= <-]. right; left. eexists; split_and!; [done|done|]. intros i nm H. inversion H. }
  destruct (Z.eqb_spec ch (chr "/")) as [->|N1].
  { intros [= <-]. right; left. eexists; split_and!; [done|done|]. intros i nm H. by inversion H. }
  destruct (Z.eqb_spec ch (chr "?")) as [->|N2].
  { intros [= <-]. left. do 2 eexists. split; [constructor|done]. }
  destruct (Z.eqb_spec ch (chr "[")) as [->|N3].
  { destruct (matchCharSetImpl _ _) as [[[st iter2] err]|] eqn:E; cbn [mbind option_bind]; [|done].
    pose proof (charSet_status _ _ _ _ _ E) as St.
    destruct st; intros [= <-]; try (destruct St as [?|[?|?]]; discriminate);
      try (right; right; right; do 2 eexists; split; [done|split; [done|]]; eexists; exact E).
    - left. do 2 eexists. split; [by eapply eats_set|done].
    - right; left. eexists; split_and!; [done|done|]. intros i nm H. inversion H; subst; [congruence|done]. }
  destruct (Z.eqb_spec ch (chr "*")) as [->|N4].
  { right; right; left. exists iter'. split; [done|]. case_in H; injection H as <-; [left|right]; done. }
  destruct (Z.eqb_spec ch (chr "\")) as [->|N5]; cbn [andb].
  - destruct iter' as [|c iter'].
    + rewrite bool_decide_eq_true_2 by done. cbn [negb expect tail]. case_on; intros [= <-]; zbool; [subst|].
      * left. do 2 eexists. split; [apply eats_backslash|done].
      * right; left. eexists; split_and!; [done|done|]. intros i nm H. by inversion H.
    + rewrite bool_decide_eq_false_2 by done. cbn [negb expect tail]. case_on; intros [= <-]; zbool; [subst|].
      * left. do 2 eexists. split; [apply eats_escaped|done].
      * right; left. eexists; split_and!; [done|done|]. intros i nm H. by inversion H.
  - cbn [expect tail]. case_on; intros [= <-]; zbool; [subst|].
    + left. do 2 eexists. split; [apply eats_literal|done]. unfold special. cbn. lia.
    + right; left. eexists; split_and!; [done|cbn; lia|]. intros i nm H. by inversion H.
Qed.

(** With the classes defined every round has a result. *)
Lemma matchRound_defined iter n name' old : classesDefined iter (n :: name') -> is_Some (matchRound iter n name' old).
Proof.
  intros H. unfold matchRound. destruct iter as [|ch iter']; [done|]. do 2 (case_on; [done|]).
  case_on; [|repeat (case_on; try done)]. zbool. subst. destruct (charSet_defined _ _ _ H) as [[[st i] e] ->].
  cbn [mbind option_bind]. by destruct st.
Qed.

(** ** The loop ends *)

Section Termination.
Variables P NM : bytes.
Hypothesis defined : classesDefined P NM.

(** Every state of the loop reads rests of the pattern and of the name. *)
Definition stateOk (st : MatchState) : Prop :=
  let '(iter, name, old) := st in
  iter `suffix_of` P /\ name `suffix_of` NM /\
  match old with
  | Some (oi, on) => iter `suffix_of` oi /\ (length oi < length P)%nat /\ oi `suffix_of` P /\ on `suffix_of` NM
  | None => True
  end.

Definition measure (st : MatchState) : nat :=
  let '(iter, _, old) := st in
  let '(base, on) := match old with Some (oi, on) => (length oi, length on) | None => (length P, O) end in
  (base * ((length NM + 1) * (length P + 2)) + on * (length P + 2) + length iter + 1)%nat.

Lemma classesDefined_suffix iter name : iter `suffix_of` P -> name `suffix_of` NM -> classesDefined iter name.
Proof.
  intros Hi [k ->]. destruct defined as [H|H]; [left; by eapply classFree_suffix|right].
  by apply Forall_app in H as [_ H].
Qed.

(** A round goes on with a smaller state, or the name is at its end, or it returns. *)
Lemma matchRound_progress iter n name' old :
  stateOk (iter, n :: name', old) ->
  (exists r, matchRound iter n name' old = Some (inr r)) \/
  (exists st, matchRound iter n name' old = Some (inl st) /\ stateOk st /\
     (snd (fst st) = [] \/ (measure st < measure (iter, n :: name', old))%nat)).
Proof.
  intros (Si & Sn & So). set (F := (length P + 2)%nat). set (Q := ((length NM + 1) * F)%nat).
  pose proof (suffix_length _ _ Si) as Li. pose proof (suffix_length _ _ Sn) as Ln. cbn [length] in Ln.
  assert (forall i, (exists r, backtrack i old = inr r) \/
    exists st, backtrack i old = inl st /\ stateOk st /\ (snd (fst st) = [] \/ (measure st < measure (iter, n :: name', old))%nat)) as B.
  { intros i. destruct old as [[oi on]|]; [right|left; by eexists].
    destruct So as (Soi & Loi & Sop & Son). eexists. split; [done|]. cbn [stateOk]. split_and!; try done.
    - destruct on as [|x on]; [done|]. etransitivity; [|exact Son]. by exists [x].
    - destruct on as [|x on]; [by left|right]. cbn [measure tail length]. fold F Q.
      pose proof (suffix_length _ _ Soi). nia. }
  assert (forall iter' nm, consumed iter iter' -> nm `suffix_of` n :: name' ->
    stateOk (iter', nm, old) /\ (measure (iter', nm, old) < measure (iter, n :: name', old))%nat) as Fwd.
  { intros iter' nm C Sm. pose proof (consumed_length _ _ C). pose proof (consumed_suffix_of _ _ C) as Sc. split.
    - split_and!; [by transitivity iter|by transitivity (n :: name')|]. destruct old as [[oi on]|]; [|done].
      destruct So as (Soi & So). split; [by transitivity iter|done].
    - cbn [measure]. destruct old as [[oi on]|]; lia. }
  destruct (matchRound_defined iter n name' old) as [r Hr]; [by apply classesDefined_suffix|]. rewrite Hr.
  destruct (matchRound_cases _ _ _ _ _ Hr) as [(i & nm & He & ->)|[(i & -> & _)|[(i & -> & [[_ ->]| ->])|(i & e & -> & _)]]].
  - right. eexists. split; [done|]. destruct (Fwd i nm); [by eapply eats_consumed|by eapply eats_suffix|]. tauto.
  - destruct (B i) as [[r ->]|(st & -> & H)]; [left|right]; eauto.
  - left. eauto.
  - right. eexists. split; [done|]. cbn [length] in Li. split.
    + split_and!; first [done | lia | by eapply suffix_cons_l | reflexivity].
    + right. cbn [measure]. fold F Q. destruct old as [[oi on]|].
      * destruct So as (Soi & _). apply suffix_length in Soi. cbn [length] in Soi. nia.
      * nia.
  - left. eauto.
Qed.

Lemma measure_pos st : (0 < measure st)%nat.
Proof. destruct st as [[iter name] [[oi on]|]]; cbn [measure]; lia. Qed.

Lemma matchLoop_total fuel : forall st, stateOk st -> (measure st < fuel)%nat -> is_Some (matchLoop fuel st).
Proof.
  induction fuel as [|fuel IH]; intros st Ok Hm; [lia|]. cbn [matchLoop].
  destruct st as [[iter [|n name']] old]; [done|].
  destruct (matchRound_progress _ _ _ _ Ok) as [[r ->]|(st & -> & Ok' & H)]; cbn [mbind option_bind]; [done|].
  pose proof (measure_pos (iter, n :: name', old)). destruct H as [H|H]; [|apply IH; [done|lia]].
  destruct fuel as [|fuel]; [lia|]. destruct st as [[i nm] o]. cbn in H. subst nm. by cbn.
Qed.
End Termination.



(** ** The loop decides the declarative reading *)

Lemma accepts_star_nil iter : accepts iter [] -> accepts (chr "*" :: iter) [].
Proof. intros H. apply (accepts_star _ _ 0). done. Qed.

Lemma skipStars_accepts iter : isEndOrSep (skipStars iter) = true -> accepts iter [].
Proof.
  induction iter as [|c r IH]; cbn [skipStars]; [by constructor|].
  destruct (Z.eqb_spec c (chr "*")) as [->|]; [|by constructor]. intros H. by apply accepts_star_nil, IH.
Qed.

Lemma accepts_nil iter : accepts iter [] -> isEndOrSep (skipStars iter) = true.
Proof.
  intros H. remember [] as name eqn:E. induction H as [iter H|iter name k H IH|iter name iter' name' He H IH]; subst.
  - destruct iter as [|c r]; [done|]. cbn in H |- *. zbool. by subst.
  - cbn. apply IH. by rewrite drop_nil.
  - inversion He.
Qed.

Lemma accepts_rest iter name : isEndOrSep iter = true -> accepts (chr "*" :: iter) name.
Proof. intros H. apply (accepts_star _ _ (length name)). rewrite drop_all. by constructor. Qed.

Lemma drop_tail {A} k (l : list A) : drop k (tail l) = drop (S k) l.
Proof. destruct l; [cbn; by rewrite drop_nil|done]. Qed.

(** The names the loop can still accept. *)
Definition open_ (st : MatchState) : Prop :=
  let '(iter, name, old) := st in
  accepts iter name \/ exists oi on k, old = Some (oi, on) /\ accepts oi (drop k on).

Lemma matchLoop_sound fuel : forall st i e, matchLoop fuel st = Some (MATCHED, i, e) -> open_ st.
Proof.
  induction fuel as [|fuel IH]; intros [[iter name] old] i e; [done|]. cbn [matchLoop open_].
  destruct name as [|n name'].
  { case_on; [|done]. intros _. left. by apply skipStars_accepts. }
  destruct (matchRound iter n name' old) as [r|] eqn:Hr; cbn [mbind option_bind]; [|done].
  destruct (matchRound_cases _ _ _ _ _ Hr) as [(i' & nm & He & ->)|[(i' & -> & _)|[(i' & -> & [[Hs ->]| ->])|(i' & e' & -> & _)]]].
  - intros H%IH. cbn in H. destruct H as [H|H]; [left|by right]. by eapply accepts_eats.
  - unfold backtrack. destruct old as [[oi on]|]; [|done]. intros H%IH. right. cbn in H.
    destruct H as [H|(? & ? & k & [= <- <-] & H)]; [by exists oi, on, O|]. exists oi, on, (S k). split; [done|].
    by rewrite drop_tail in H.
  - intros _. left. by apply accepts_rest.
  - intros H%IH. left. cbn in H. destruct H as [H|(? & ? & k & [= <- <-] & H)]; [by apply (accepts_star _ _ 0)|].
    by apply (accepts_star _ _ (S k)).
  - done.
Qed.

(** *** Completeness, for names of ASCII characters

    A star never needs to be given up for an earlier one: whatever the earlier star could
    still accept, the elements after it read in the same way further on. *)
Definition ascii (name : bytes) : Prop := Forall (fun b => 0 <= b < 128) name.

Definition noLoss (st : MatchState) : Prop :=
  let '(iter, name, old) := st in
  match old with
  | Some (oi, on) => ascii on /\ forall k, accepts oi (drop k on) -> exists j, accepts iter (drop j name)
  | None => True
  end.

Lemma accepts_not_star iter name :
  expect iter (chr "*") = false -> accepts iter name ->
  (isEndOrSep iter = true /\ name = []) \/ exists iter' name', eats iter name iter' name' /\ accepts iter' name'.
Proof. intros He H. inversion H; subst; [by left|by cbn in He|right; eauto]. Qed.

Lemma eats_not_star iter name iter' name' : eats iter name iter' name' -> expect iter (chr "*") = false.
Proof. intros []; try done. cbn. unfold special in H. cbn in H. lia. Qed.

Lemma eats_not_end iter name iter' name' : eats iter name iter' name' -> isEndOrSep iter = false.
Proof. intros []; try done. unfold special in H. cbn in H |- *. lia. Qed.

Lemma ascii_drop k name : ascii name -> ascii (drop k name).
Proof. apply Forall_drop. Qed.

(** Two readings of the same element consume one byte each and leave the same pattern. *)
Lemma eats_ascii iter name name2 i1 n1 i2 n2 :
  ascii name -> ascii name2 -> eats iter name i1 n1 -> eats iter name2 i2 n2 ->
  i1 = i2 /\ n1 = tail name /\ n2 = tail name2.
Proof.
  intros A1 A2 H1 H2.
  assert (forall i nm i' nm', ascii nm -> eats i nm i' nm' -> nm' = tail nm) as T.
  { intros i nm i' nm' A He; inversion He; subst; try done; apply Forall_cons in A as [Hn _]; by rewrite nextChar_ascii. }
  split; [|split; by eapply T]. clear T.
  destruct H1; inversion H2; subst; try done; try (unfold special in *; cbn in *; lia).
  eapply charSet_same_rest; [done|by left|done].
Qed.

Lemma tail_drop {A} j (l : list A) : tail (drop j l) = drop j (tail l).
Proof.
  revert l. induction j as [|j IH]; intros [|x l]; try done. cbn [drop tail]. rewrite IH. destruct l; cbn; [by rewrite drop_nil|done].
Qed.

(** What a star can accept, as the state after it. *)
Lemma open_star iter n name' j :
  accepts (chr "*" :: iter) (drop j (n :: name')) -> open_ (iter, n :: name', Some (iter, name')).
Proof.
  intros H. inversion H as [? E|? ? k Hk|? ? ? ? He]; subst; [done| |by apply eats_not_star in He].
  rewrite drop_drop in Hk. destruct (j + k)%nat as [|m] eqn:E; [by left|right]. by exists iter, name', m.
Qed.

Lemma noLoss_eats iter n name' iter' nm old :
  ascii (n :: name') -> eats iter (n :: name') iter' nm -> noLoss (iter, n :: name', old) -> noLoss (iter', nm, old).
Proof.
  intros A He. destruct old as [[oi on]|]; [|done]. intros [Ao H]. split; [done|]. intros k Hk.
  destruct (H k Hk) as [j Hj]. exists j.
  destruct (accepts_not_star _ _ (eats_not_star _ _ _ _ He) Hj) as [[E _]|(i2 & n2 & He2 & Ha)].
  { by rewrite (eats_not_end _ _ _ _ He) in E. }
  destruct (eats_ascii _ _ _ _ _ _ _ A (ascii_drop j _ A) He He2) as (<- & -> & ->).
  by rewrite tail_drop in Ha.
Qed.

Lemma ascii_next iter n name' iter' nm : ascii (n :: name') -> eats iter (n :: name') iter' nm -> ascii nm.
Proof.
  intros A He. destruct (eats_ascii _ _ _ _ _ _ _ A A He He) as (_ & -> & _). by apply Forall_cons in A as [_ ?].
Qed.

Lemma matchLoop_complete fuel : forall iter name old i e,
  ascii name -> noLoss (iter, name, old) ->
  matchLoop fuel (iter, name, old) = Some (UNMATCHED, i, e) -> ~ open_ (iter, name, old).
Proof.
  induction fuel as [|fuel IH]; intros iter name old i e A L; [done|]. cbn [matchLoop].
  destruct name as [|n name'].
  { case_on; [done|]. intros _. assert (~ accepts iter []) as N by (intros H%accepts_nil; congruence).
    intros [H|(oi & on & k & -> & H)]; [done|]. destruct L as [_ L]. destruct (L k H) as [j Hj]. by rewrite drop_nil in Hj. }
  destruct (matchRound iter n name' old) as [r|] eqn:Hr; cbn [mbind option_bind]; [|done].
  destruct (matchRound_cases _ _ _ _ _ Hr) as [(i' & nm & He & ->)|[(i' & -> & Hs & N)|[(i' & -> & [[_ ->]| ->])|(i' & e' & -> & _)]]].
  - intros H%IH; [|by eapply ascii_next|by eapply noLoss_eats]. intros [Ha|Ho]; apply H; [left|by right].
    destruct (accepts_not_star _ _ (eats_not_star _ _ _ _ He) Ha) as [[_ ?]|(i2 & n2 & He2 & Ha2)]; [done|].
    by destruct (eats_ascii _ _ _ _ _ _ _ A A He He2) as (<- & -> & ->).
  - assert (~ accepts iter (n :: name')) as Na.
    { intros Ha. destruct (accepts_not_star _ _ Hs Ha) as [[_ ?]|(i2 & n2 & He2 & _)]; [done|]. by eapply N. }
    unfold backtrack. destruct old as [[oi on]|]; [|by intros _ [?|(? & ? & ? & ? & _)]].
    destruct L as [Ao L]. intros H%IH.
    + intros [?|(? & ? & k & [= <- <-] & Ha)]; [done|]. apply H. destruct k as [|k]; [by left|right].
      exists oi, (tail on), k. split; [done|]. by rewrite drop_tail.
    + done.
    + split; [destruct on; [done|by apply Forall_cons in Ao as [_ ?]]|]. intros k Hk. exists (S k). by rewrite drop_tail in Hk.
  - done.
  - intros H%IH; [|done|].
    + intros [Ha|(oi & on & k & -> & Ha)]; apply H.
      * by apply (open_star _ _ _ 0).
      * destruct L as [_ L]. destruct (L k Ha) as [j Hj]. by eapply open_star.
    + split; [by apply Forall_cons in A as [_ ?]|]. intros k Hk. by exists (S k).
  - done.
Qed.

Lemma matchLoop_statuses fuel : forall st r i e,
  matchLoop fuel st = Some (r, i, e) -> r = MATCHED \/ r = UNMATCHED \/ r = BAD_PATTERN.
Proof.
  induction fuel as [|fuel IH]; intros [[iter name] old] r i e; [done|]. cbn [matchLoop].
  destruct name as [|n name']; [case_on; naive_solver|].
  destruct (matchRound iter n name' old) as [rd|] eqn:Hr; cbn [mbind option_bind]; [|done].
  destruct (matchRound_cases _ _ _ _ _ Hr) as [(i' & nm & He & ->)|[(i' & -> & _)|[(i' & -> & [[_ ->]| ->])|(i' & e' & -> & _)]]];
    [apply IH| |naive_solver|apply IH|naive_solver].
  unfold backtrack. destruct old as [[oi on]|]; [apply IH|naive_solver].
Qed.

(** A pattern is only called bad for a syntax error in one of its bracket expressions. *)
Lemma matchLoop_bad fuel : forall iter name old i e P,
  iter `suffix_of` P -> match old with Some (oi, _) => oi `suffix_of` P | None => True end ->
  matchLoop fuel (iter, name, old) = Some (BAD_PATTERN, i, e) ->
  exists s cp, s `suffix_of` P /\ matchCharSetImpl cp s = Some (SYNTAX_ERROR, i, e).
Proof.
  induction fuel as [|fuel IH]; intros iter name old i e P S So; [done|]. cbn [matchLoop].
  destruct name as [|n name']; [by case_on|].
  destruct (matchRound iter n name' old) as [r|] eqn:Hr; cbn [mbind option_bind]; [|done].
  destruct (matchRound_cases _ _ _ _ _ Hr) as [(i' & nm & He & ->)|[(i' & -> & _)|[(i' & -> & [[_ ->]| ->])|(i' & e' & -> & _ & cp & H)]]].
  - apply IH; [|done]. transitivity iter; [|done]. by eapply consumed_suffix_of, eats_consumed.
  - unfold backtrack. destruct old as [[oi on]|]; [by apply IH|done].
  - done.
  - apply IH; by eapply suffix_cons_l.
  - intros [= <- <-]. eauto.
Qed.

(** A name that is matched is one the pattern accepts: its elements read the name from
    left to right, a star standing for any bytes, up to the next separator of the pattern.
    Names are arbitrary bytes here. *)
Theorem match_sound iter name option_ i e :
  match_ iter name option_ false = Some (MATCHED, i, e) -> accepts iter name.
Proof.
  unfold match_. case_on; [destruct (matchDots iter name); repeat case_on; done|]. case_on; [done|].
  cbn [andb]. intros H%matchLoop_sound. by destruct H as [H|(? & ? & ? & ? & _)].
Qed.

Lemma match_sound_witness : accepts (lit "src/*.cpp") (lit "src") /\ accepts (lit "[a-g]*b.[!h]") (lit "glob.c").
Proof. split; [apply (match_sound _ _ 0 (lit "/*.cpp") [])|apply (match_sound _ _ 0 [] [])]; vm_compute; reflexivity. Defined.



(** ** Bytes and characters

    The star moves by bytes, the question mark by characters; in the middle of a character
    each byte counts as one.  The name is the three bytes of a kana, "b" and "c". *)
Definition kanaName : bytes := [0xE3; 0x81; 0x82; chr "b"; chr "c"].

(** A star can end inside a character: `*??b*` asks for two characters before a "b" and
    matches a name with only one, although no whole characters taken by the star leave a
    name that `??b*` matches; and a character class asked about this character is undefined. *)
Theorem star_splits_characters :
  match_ (lit "*??b*") kanaName 0 false = Some (MATCHED, [], []) /\
  Forall (fun rest => exists i, match_ (lit "??b*") rest 0 false = Some (UNMATCHED, i, []))
    [kanaName; lit "bc"; lit "c"; []] /\
  match_ (lit "[[:alpha:]]*") kanaName 0 false = None.
Proof. split_and!; [reflexivity| |reflexivity]. repeat constructor; eexists; vm_compute; reflexivity. Qed.

End GlobMatch.
