(* ===== verification/GlobPattern.v ===== *)
(** Writing wildcard patterns (Glob.v): an escaped name matches itself only, a bracket
    expression written from ranges and classes denotes them, and the split of a pattern
    into a directory and the rest. *)
From Stdlib Require Import Ascii.
From S2P Require Import Prelude Unicode StringRef Glob GlobMatch.

Module GlobPattern.
Import UnicodeUtil Glob GlobMatch.

(** ** Escaping *)

(** What [appendAndEscapeGlobMeta] writes when there is room. *)
Definition escaped (s : bytes) : bytes := flat_map (fun c => if isGlobMeta c then [chr "\"; c] else [c]) s.

Lemma escaped_cons c s : escaped (c :: s) = (if isGlobMeta c then [chr "\"; c] else [c]) ++ escaped s.
Proof. done. Qed.

Lemma escaped_length s : zlen s <= zlen (escaped s).
Proof.
  induction s as [|c s IH]; [done|]. rewrite escaped_cons. destruct (isGlobMeta c); autorewrite with zlen; lia.
Qed.

Lemma escapeLoop_spec rest : forall pending maxSize out,
  zlen out <= maxSize ->
  escapeLoop rest pending maxSize out =
    if zlen (out ++ pending ++ escaped rest) <=? maxSize then Some (out ++ pending ++ escaped rest) else None.
Proof.
  induction rest as [|c r IH]; intros pending maxSize out Ho; cbn [escapeLoop].
  - unfold StringRef.checkedAppend, StringRef.isAppendable. rewrite app_nil_r. autorewrite with zlen.
    repeat case_on; zbool; try done; lia.
  - rewrite escaped_cons. destruct (isGlobMeta c).
    + unfold StringRef.checkedAppend, StringRef.isAppendable.
      pose proof (zlen_nonneg pending). pose proof (zlen_nonneg (escaped r)).
      destruct ((zlen out <=? maxSize) && (zlen pending <=? maxSize - zlen out)) eqn:E; cbn [mbind option_bind].
      * zbool. autorewrite with zlen. case_on; zbool.
        -- rewrite IH by (autorewrite with zlen; lia). simplify_list_eq. autorewrite with zlen.
           repeat case_on; zbool; try done; lia.
        -- autorewrite with zlen. case_on; [zbool; cbn in *; lia|done].
      * autorewrite with zlen. case_on; [|done]. exfalso. cbn in *. zbool. lia.
    + rewrite IH by done. by simplify_list_eq.
Qed.

(** The text that is appended, or the refusal, in terms of the size that is left. *)
Lemma appendAndEscape_spec s maxSize out :
  zlen out <= maxSize ->
  appendAndEscapeGlobMeta s maxSize out =
    if zlen (out ++ escaped s) <=? maxSize then Some (out ++ escaped s) else None.
Proof.
  intros H. unfold appendAndEscapeGlobMeta. rewrite escapeLoop_spec by done. cbn [app].
  destruct (StringRef.isAppendable (zlen s) maxSize out) eqn:E; [done|]. cbn [negb].
  pose proof (escaped_length s). case_on; [|done]. unfold StringRef.isAppendable in E. autorewrite with zlen in *. lia.
Qed.

Definition noSep (s : bytes) : Prop := chr "/" ∉ s.

Lemma noSep_cons c s : noSep (c :: s) -> c <> chr "/" /\ noSep s.
Proof. unfold noSep. rewrite elem_of_cons. naive_solver. Qed.

(** One character of an escaped name against the head of a name. *)
Lemma matchRound_escaped c s n name :
  c <> chr "/" ->
  (exists i, matchRound (escaped (c :: s)) n name None =
     Some (if n =? c then inl (escaped s, name, None) else inr (UNMATCHED, i, []))) /\
  isEndOrSep (escaped (c :: s)) = false /\ skipStars (escaped (c :: s)) = escaped (c :: s).
Proof.
  intros Hc. rewrite escaped_cons. destruct (isGlobMeta c) eqn:M; cbn [app].
  - split; [|done]. unfold matchRound. cbn [Z.eqb Pos.eqb andb].
    rewrite bool_decide_eq_false_2 by done. cbn [negb expect tail]. rewrite (Z.eqb_sym c n).
    destruct (n =? c); by eexists.
  - unfold isGlobMeta in M. cbn in M. zbool. unfold matchRound. cbn [isEndOrSep skipStars].
    rewrite !(proj2 (Z.eqb_neq _ _)) by done. cbn [andb expect tail]. rewrite (Z.eqb_sym c n).
    split; [|done]. destruct (n =? c); by eexists.
Qed.

Lemma matchLoop_escaped s : forall fuel name,
  noSep s -> (length s < fuel)%nat ->
  exists i, matchLoop fuel (escaped s, name, None) = Some (if decide (name = s) then MATCHED else UNMATCHED, i, []).
Proof.
  induction s as [|c s IH]; intros [|fuel] name Hs Hf; try (cbn in Hf; lia).
  - destruct name; cbn; eauto.
  - apply noSep_cons in Hs as [Hc Hs]. cbn [matchLoop]. destruct name as [|n name'].
    + destruct (matchRound_escaped c s 0 [] Hc) as (_ & He & ->). rewrite He. eauto.
    + destruct (matchRound_escaped c s n name' Hc) as ([i ->] & _ & _). cbn [mbind option_bind].
      destruct (Z.eqb_spec n c) as [->|]; cbn [mbind option_bind].
      * destruct (IH fuel name' Hs) as [j ->]; [cbn in Hf; lia|]. exists j.
        destruct (decide (name' = s)) as [E|E];
          [rewrite decide_True by congruence|rewrite decide_False by congruence]; done.
      * exists i. rewrite decide_False; [done|]. congruence.
Qed.

Lemma escaped_length_nat s : (length s <= length (escaped s))%nat.
Proof. pose proof (escaped_length s). unfold zlen in *. lia. Qed.

(** C36: the pattern a name is escaped to matches this name and no other. *)
Theorem escape_matches s name maxSize option_ pat :
  noSep s -> name <> lit "." -> name <> lit ".." ->
  appendAndEscapeGlobMeta s maxSize [] = Some pat ->
  exists st i e, match_ pat name option_ false = Some (st, i, e) /\ (st = MATCHED <-> name = s).
Proof.
  intros Hs N1 N2 Hp.
  assert (0 <= maxSize) as Hm.
  { revert Hp. unfold appendAndEscapeGlobMeta, StringRef.isAppendable. rewrite zlen_nil. case_on; [done|]. lia. }
  rewrite appendAndEscape_spec in Hp by done. case_in Hp; [|done]. injection Hp as <-. cbn [app].
  unfold match_. rewrite !bool_decide_eq_false_2 by done. cbn [orb andb].
  destruct (expect name (chr ".") && _ && _) eqn:E.
  { do 3 eexists. split; [done|]. split; [done|]. intros ->. exfalso. zbool. apply expect_true in H as [r ->]. done. }
  destruct (matchLoop_escaped s (matchFuel (escaped s) name) name Hs) as [i ->].
  { unfold matchFuel. pose proof (escaped_length_nat s). nia. }
  do 3 eexists. split; [done|]. destruct (decide (name = s)); naive_solver.
Qed.

Lemma escape_matches_witness :
  exists st i e, match_ (lit "a\[1\]\*") (lit "a[1]*") 0 false = Some (st, i, e) /\ (st = MATCHED <-> lit "a[1]*" = lit "a[1]*").
Proof.
  apply (escape_matches (lit "a[1]*") (lit "a[1]*") 100 0 (lit "a\[1\]\*"));
    [apply (bool_decide_unpack _); vm_compute; exact I|by vm_compute..|vm_compute; reflexivity].
Defined.

(** ** Bracket expressions *)

(** A code point in a bracket expression, whatever it means there otherwise. *)
Definition quote (c : Z) : bytes := chr "\" :: codePointToUtf8 c.

Definition renderItem (item : SetItem) : bytes :=
  match item with
  | Range lower upper => if lower =? upper then quote lower else quote lower ++ chr "-" :: quote upper
  | Class name => lit "[:" ++ name ++ lit ":]"
  end.

Definition renderItems (items : list SetItem) : bytes := flat_map renderItem items.

Definition renderSet (negate : bool) (items : list SetItem) : bytes :=
  chr "[" :: (if negate then [chr "!"] else []) ++ renderItems items ++ [chr "]"].

Definition quotable (c : Z) : Prop := isValidCodePoint c = true /\ c <> chr "/".

Definition validItem (item : SetItem) : Prop :=
  match item with
  | Range lower upper => quotable lower /\ quotable upper /\ lower <= upper
  | Class name => is_Some (lookupGlobCharClassOp name)
  end.

Lemma encode_head c rest : quotable c -> isEndOrSep (codePointToUtf8 c ++ rest) = false.
Proof.
  intros [Hv Hc]. unfold isValidCodePoint in Hv. zbool. rewrite codePointToUtf8_encode by done.
  apply isCodePoint_range in H. unfold encode. repeat case_on; cbn [app isEndOrSep]; zbool; apply Z.eqb_neq;
    Z.to_euclidean_division_equations; lia.
Qed.

Lemma consumeCharSetPart_quote first c rest :
  quotable c -> consumeCharSetPart first (quote c ++ rest) = Some (c, rest, []).
Proof.
  intros Q. pose proof (encode_head c rest Q) as He. destruct Q as [Hv _].
  unfold consumeCharSetPart, quote. cbn [app isEndOrSep expect tail Z.eqb Pos.eqb]. rewrite He.
  unfold isValidCodePoint in Hv. zbool. rewrite codePointToUtf8_encode by done.
  rewrite decode_encode by auto. unfold zlen. rewrite (proj2 (Z.eqb_neq _ _)).
  - rewrite Nat2Z.id. by rewrite drop_app_length.
  - unfold encode. repeat case_on; cbn; lia.
Qed.

(** What follows an item: another one, or the end of the set. *)
Definition afterItem (rest : bytes) : Prop := isEndOrSep rest = false /\ expect rest (chr "-") = false.

Lemma consumeCharRange_render first lower upper rest :
  validItem (Range lower upper) -> afterItem rest ->
  consumeCharRange first (renderItem (Range lower upper) ++ rest) = Some (inl (lower, upper, rest)).
Proof.
  intros (Ql & Qu & Hle) [Hend Hdash]. unfold consumeCharRange. cbn [renderItem].
  assert (0 <= lower) by (destruct Ql as [H _]; unfold isValidCodePoint, isCodePoint in H; zbool; lia).
  assert ((lower <? 0) = false /\ (upper <? 0) = false /\ (upper <? lower) = false) as (L & U & LU) by lia.
  destruct (Z.eqb_spec lower upper) as [<-|].
  - rewrite consumeCharSetPart_quote by done. cbn [mbind option_bind].
    rewrite L, Hend, Hdash. cbn [andb mbind option_bind]. by rewrite L, LU.
  - rewrite <- app_assoc. cbn [app]. rewrite consumeCharSetPart_quote by done. cbn [mbind option_bind]. rewrite L.
    cbn [app quote isEndOrSep expect tail Z.eqb Pos.eqb negb orb andb].
    change (chr "\" :: codePointToUtf8 upper ++ rest) with (quote upper ++ rest).
    rewrite consumeCharSetPart_quote by done. cbn [mbind option_bind]. by rewrite U, LU.
Qed.

(** The names of the classes are letters. *)
Lemma takeLower_class name rest :
  is_Some (lookupGlobCharClassOp name) -> takeLower (name ++ lit ":]" ++ rest) = (name, lit ":]" ++ rest).
Proof.
  unfold lookupGlobCharClassOp. cbn [List.find fst].
  repeat (case_on; [intros _; zbool; apply bool_decide_eq_true in Heqb; subst; reflexivity|clear Heqb]). by intros [].
Qed.


Lemma tryMatchCharClass_render name op cp rest :
  lookupGlobCharClassOp name = Some op ->
  tryMatchCharClass cp (renderItem (Class name) ++ rest) = (r ← op cp; Some (if r : bool then MATCH else UNMATCH, rest, [])).
Proof.
  intros Hop. unfold tryMatchCharClass. cbn [renderItem]. rewrite <- !app_assoc. cbn [lit].
  cbn [app expect tail negb Z.eqb Pos.eqb].
  change (expect (lit "[:" ++ name ++ lit ":]" ++ rest) (chr "[")) with true.
  change (tail (lit "[:" ++ name ++ lit ":]" ++ rest)) with (chr ":" :: name ++ lit ":]" ++ rest).
  cbn [negb expect tail]. rewrite takeLower_class by done. rewrite Hop. done.
Qed.

Lemma renderItems_after items rest : afterItem (renderItems items ++ chr "]" :: rest).
Proof.
  destruct items as [|[lower upper|name] items]; [done| |done].
  cbn. by destruct (lower =? upper).
Qed.

(** The text of a nonempty list of items is not the end of the set nor a negation. *)
Lemma renderItems_head it items rest :
  exists c r, renderItems (it :: items) ++ rest = c :: r /\ (c = chr "\" \/ c = chr "[").
Proof.
  destruct it as [lower upper|name]; cbn; [|eauto].
  destruct (lower =? upper); cbn; eauto.
Qed.

Lemma renderItems_length items : (length items <= length (renderItems items))%nat.
Proof.
  induction items as [|it items IH]; [done|]. change (renderItems (it :: items)) with (renderItem it ++ renderItems items).
  rewrite length_app. cbn [length]. destruct it as [lower upper|name]; cbn [renderItem]; [|cbn; lia].
  destruct (lower =? upper); unfold quote; cbn; lia.
Qed.

Lemma charSetLoop_render items : forall fuel cp first negate count rest,
  Forall validItem items -> (length items < fuel)%nat ->
  charSetLoop fuel cp first negate count (renderItems items ++ chr "]" :: rest) =
    n ← countItems cp items count; closeCharSet negate n (chr "]" :: rest).
Proof.
  induction items as [|it items IH]; intros [|fuel] cp first negate count rest Hv Hf; try (cbn in Hf; lia).
  { done. }
  apply Forall_cons in Hv as [Hi Hv]. cbn in Hf. pose proof (renderItems_after items rest) as Af.
  destruct (renderItems_head it items (chr "]" :: rest)) as (c & r & E & Hc).
  cbn [charSetLoop]. rewrite E.
  assert (isEndOrSep (c :: r) = false /\ expect (c :: r) (chr "]") = false /\
    expect (c :: r) (chr "!") = false /\ expect (c :: r) (chr "^") = false) as (H1 & H2 & H3 & H4) by by destruct Hc as [->| ->].
  rewrite H1, H2, H3, H4. cbn [orb]. rewrite andb_false_r, H1, orb_false_r. rewrite <- E.
  replace (renderItems (it :: items) ++ chr "]" :: rest) with (renderItem it ++ renderItems items ++ chr "]" :: rest)
    by (cbn; by rewrite <- app_assoc).
  destruct it as [lower upper|name].
  - assert (expect (renderItem (Range lower upper) ++ renderItems items ++ chr "]" :: rest) (chr "[") = false) as ->.
    { cbn [renderItem]. by destruct (lower =? upper). }
    cbn [mbind option_bind]. rewrite consumeCharRange_render by done. cbn [mbind option_bind]. rewrite IH by (done || lia). done.
  - destruct Hi as [op Hop]. change (expect (renderItem (Class name) ++ _) (chr "[")) with true.
    rewrite (tryMatchCharClass_render name op) by done. cbn [countItems itemHas]. rewrite Hop. cbn [mbind option_bind].
    destruct (op cp) as [[]|]; cbn [mbind option_bind]; [| |done];
      rewrite (proj2 Af); cbn [andb]; rewrite IH by (done || lia); done.
Qed.

(** C35: the bracket expression written from a list of ranges and classes, negated or not,
    holds of a code point exactly when an item does (or none does), and consumes this text
    only. *)
Theorem charset_render negate items cp rest :
  items <> [] -> Forall validItem items ->
  matchCharSetImpl cp (renderSet negate items ++ rest) =
    n ← countItems cp items 0; Some (if xorb negate (0 <? n) then MATCH else UNMATCH, rest, []).
Proof.
  intros Hne Hv. unfold renderSet. cbn [app]. rewrite <- !app_assoc. cbn [app].
  unfold matchCharSetImpl. change (expect (chr "[" :: _) (chr "[")) with true. cbn [tail length].
  set (F := length _).
  assert (length items < S F)%nat as HF.
  { unfold F. rewrite !length_app. pose proof (renderItems_length items). cbn [length]. lia. }
  clearbody F. destruct negate.
  - transitivity (charSetLoop (S F) cp true true 0 (renderItems items ++ chr "]" :: rest)).
    + destruct items as [|it items]; [done|]. destruct (renderItems_head it items (chr "]" :: rest)) as (c & r & E & Hc).
      rewrite E. cbn [charSetLoop app isEndOrSep expect Z.eqb Pos.eqb orb andb tail].
      by destruct Hc as [->| ->].
    + by rewrite charSetLoop_render.
  - cbn [app]. by rewrite charSetLoop_render.
Qed.

Lemma charset_render_witness :
  matchCharSetImpl (chr "7") (renderSet true [Range (chr "a") (chr "f"); Class (lit "digit")] ++ lit "x") = Some (UNMATCH, lit "x", []).
Proof.
  etransitivity; [apply (charset_render true [Range (chr "a") (chr "f"); Class (lit "digit")] (chr "7") (lit "x")); [done|]|reflexivity].
  apply Forall_cons. split; [by vm_compute|]. apply Forall_cons. split; [by eexists|done].
Defined.

(** ** The directory of a pattern *)

(** A path with every run of separators made one; [prev] says that one precedes. *)
Fixpoint squeeze (prev : bool) (s : bytes) : bytes :=
  match s with
  | [] => []
  | c :: r =>
      if c =? chr "/" then (if prev then squeeze true r else c :: squeeze true r) else c :: squeeze false r
  end.

Definition endsSep (prev : bool) (s : bytes) : bool :=
  match last s with Some c => c =? chr "/" | None => prev end.

Lemma last_cons_app {A} (c : A) s : last (c :: s) = match last s with Some d => Some d | None => Some c end.
Proof. by rewrite last_cons; destruct (last s). Qed.

Lemma squeeze_app s t : forall prev, squeeze prev (s ++ t) = squeeze prev s ++ squeeze (endsSep prev s) t.
Proof.
  unfold endsSep. induction s as [|c s IH]; intros prev; [done|]. cbn [app squeeze]. rewrite last_cons_app.
  destruct (Z.eqb_spec c (chr "/")) as [->|Hc].
  - destruct prev; rewrite IH; by destruct (last s).
  - rewrite IH. destruct (last s); [done|]. by rewrite (proj2 (Z.eqb_neq _ _)).
Qed.

Lemma squeeze_last s : forall prev, endsSep prev (squeeze prev s) = endsSep prev s.
Proof.
  unfold endsSep. induction s as [|c s IH]; intros prev; [done|]. cbn [squeeze]. rewrite last_cons_app.
  destruct (Z.eqb_spec c (chr "/")) as [->|Hc].
  - destruct prev; [rewrite IH; by destruct (last s)|]. rewrite last_cons_app. specialize (IH true).
    destruct (last (squeeze true s)), (last s); done.
  - rewrite last_cons_app. specialize (IH false).
    apply Z.eqb_neq in Hc. destruct (last (squeeze false s)), (last s); rewrite ?Hc; done.
Qed.

Lemma squeeze_noSep s : noSep s -> squeeze false s = s.
Proof.
  induction s as [|c s IH]; [done|]. intros [Hc Hs]%noSep_cons. cbn [squeeze].
  rewrite (proj2 (Z.eqb_neq _ _)) by done. by rewrite IH.
Qed.

Lemma endsSep_app prev s t : endsSep prev (s ++ t) = endsSep (endsSep prev s) t.
Proof. unfold endsSep. rewrite last_app. by destruct (last t). Qed.

Lemma noSep_rev t : noSep t -> noSep (rev t).
Proof. intros H Hr. apply H, list_elem_of_In, in_rev. by apply list_elem_of_In. Qed.

Lemma dropName_app t d : noSep t -> (d = [] \/ head d = Some (chr "/")) -> dropName (rev t ++ d) = d.
Proof.
  intros Ht%noSep_rev Hd. revert Ht. generalize (rev t). intros u. induction u as [|c u IH]; cbn [app].
  - destruct Hd as [->|Hd]; [done|]. destruct d as [|x d]; [done|]. by injection Hd as ->.
  - intros [Hc Hu]%noSep_cons. cbn [dropName]. rewrite (proj2 (Z.eqb_neq _ _)) by done. by apply IH.
Qed.

(** The characters of a pattern that are taken literally. *)
Definition plain (c : Z) : Prop := c <> chr "*" /\ c <> chr "?" /\ c <> chr "[" /\ c <> chr "\".

(** A pattern is a literal text [p], and [m] from its first meta character on. *)
Definition literalSplit (iter p m : bytes) : Prop :=
  iter = p ++ m /\ Forall plain p /\ (m = [] \/ exists c r, m = c :: r /\ ~ plain c).

(** What the loop has found: the text after the last separator of [p]. *)
Definition latestAfter (p m : bytes) (latest latest' : option bytes) : Prop :=
  noSep p /\ latest' = latest \/ exists q t, p = q ++ chr "/" :: t /\ noSep t /\ latest' = Some (t ++ m).

Lemma latestAfter_cons ch p m latest latest1 latest' :
  (ch = chr "/" /\ latest1 = Some (p ++ m) \/ ch <> chr "/" /\ latest1 = latest) ->
  latestAfter p m latest1 latest' -> latestAfter (ch :: p) m latest latest'.
Proof.
  intros Hl [[Hs1 ->]|(q & t & -> & Ht & ->)]; [|right; by exists (ch :: q), t].
  destruct Hl as [[-> ->]|[Hc ->]]; [right; by exists [], p|left]. split; [|done].
  unfold noSep. rewrite elem_of_cons. naive_solver.
Qed.

Lemma extractLoop_spec iter : forall base latest,
  Forall (fun c => c <> chr "\") iter ->
  exists p m, literalSplit iter p m /\
    fst (extractLoop iter base latest) = base ++ squeeze (endsSep false base) p /\
    latestAfter p m latest (snd (extractLoop iter base latest)).
Proof.
  induction iter as [|ch r IH]; intros base latest Hb.
  { exists [], []. rewrite app_nil_r. split; [unfold literalSplit; split_and!; [done..|by left]|]. split; [done|].
    left. split; [apply not_elem_of_nil|done]. }
  apply Forall_cons in Hb as [Hn Hb]. cbn [extractLoop].
  destruct ((ch =? chr "*") || (ch =? chr "?") || (ch =? chr "[")) eqn:M.
  { exists [], (ch :: r). rewrite app_nil_r. split; [|split; [done|left; split; [apply not_elem_of_nil|done]]].
    unfold literalSplit. split_and!; [done..|]. right. do 2 eexists. split; [done|]. unfold plain. lia. }
  rewrite (proj2 (Z.eqb_neq ch (chr "\"))) by done. zbool.
  assert (forall latest', (ch = chr "/" /\ latest' = Some r \/ ch <> chr "/" /\ latest' = latest) ->
    exists p m, literalSplit (ch :: r) p m /\
      fst (extractLoop r (base ++ squeeze (endsSep false base) [ch]) latest') = base ++ squeeze (endsSep false base) p /\
      latestAfter p m latest (snd (extractLoop r (base ++ squeeze (endsSep false base) [ch]) latest'))) as Step.
  { intros latest' Hl. destruct (IH (base ++ squeeze (endsSep false base) [ch]) latest' Hb) as (p & m & (E & Hp & Hm) & Hf & Hs).
    exists (ch :: p), m. split; [split_and!; [by rewrite E|by apply Forall_cons|done]|]. split.
    - rewrite Hf, endsSep_app, squeeze_last. change (ch :: p) with ([ch] ++ p). by rewrite squeeze_app, <- app_assoc.
    - eapply latestAfter_cons; [|exact Hs]. by rewrite <- E. }
  cbn [squeeze] in Step. destruct (Z.eqb_spec ch (chr "/")) as [->|Hc]; [|apply Step; auto].
  unfold endsSep in Step |- *. specialize (Step (Some r) (or_introl (conj eq_refl eq_refl))).
  destruct (last base) as [d|]; [|by rewrite bool_decide_eq_false_2 by done].
  destruct (decide (d = chr "/")) as [Hd|Hd].
  - rewrite Hd in Step |- *. rewrite bool_decide_eq_true_2 by done. cbn [Z.eqb Pos.eqb] in Step |- *. by rewrite app_nil_r in Step.
  - rewrite bool_decide_eq_false_2 by congruence. by rewrite (proj2 (Z.eqb_neq _ _) Hd) in Step |- *.
Qed.

(** A pattern without backslashes is split after the last separator of its literal
    part: the directory is what stands before, its runs of separators made one, and the
    rest has no separator before its first meta character. *)
Theorem extract_dir pattern :
  Forall (fun c => c <> chr "\") pattern ->
  exists pre t m, literalSplit pattern (pre ++ t) m /\ noSep t /\ (pre = [] \/ last pre = Some (chr "/")) /\
    extractDirFromPattern pattern = Some (squeeze false pre, t ++ m).
Proof.
  intros Hb. destruct (extractLoop_spec pattern [] None Hb) as (p & m & Hsp & Hf & Hl). unfold extractDirFromPattern.
  destruct (extractLoop pattern [] None) as [base latest]. cbn [fst snd app] in Hf, Hl.
  change (endsSep false []) with false in Hf. destruct Hl as [[Hs ->]|(q & t & -> & Ht & ->)].
  - exists [], p, m. split_and!; [done|done|by left|]. destruct Hsp as [-> _]. done.
  - exists (q ++ [chr "/"]), t, m. rewrite <- app_assoc. split_and!; [done|done|right; by rewrite last_snoc|].
    assert (base = squeeze false (q ++ [chr "/"]) ++ t) as ->.
    { rewrite Hf. change (chr "/" :: t) with ([chr "/"] ++ t). rewrite app_assoc, squeeze_app. f_equal.
      unfold endsSep. rewrite last_snoc. cbn [Z.eqb Pos.eqb].
      clear -Ht. destruct t as [|c t]; [done|]. pose proof (squeeze_noSep (c :: t) Ht) as H.
      apply noSep_cons in Ht as [Hc _]. revert H. cbn [squeeze]. by rewrite !(proj2 (Z.eqb_neq _ _)) by done. }
    assert (last (squeeze false (q ++ [chr "/"])) = Some (chr "/")) as L.
    { pose proof (squeeze_last (q ++ [chr "/"]) false) as L. revert L. unfold endsSep. rewrite last_snoc.
      destruct (last (squeeze false _)); [|done]. intros ?%Z.eqb_eq. by subst. }
    rewrite rev_app_distr, dropName_app, rev_involutive, L; [by rewrite bool_decide_eq_true_2|done|].
    right. apply last_Some in L as [l ->]. by rewrite rev_app_distr.
Qed.

Lemma extract_dir_witness :
  exists pre t m, literalSplit (lit "usr//lib/a*.so") (pre ++ t) m /\ noSep t /\ (pre = [] \/ last pre = Some (chr "/")) /\
    extractDirFromPattern (lit "usr//lib/a*.so") = Some (squeeze false pre, t ++ m).
Proof. apply extract_dir. repeat constructor; by vm_compute. Defined.

Example extract_path : extractDirFromPattern (lit "usr//lib/a*.so") = Some (lit "usr/lib/", lit "a*.so").
Proof. reflexivity. Qed.

End GlobPattern.
